(* ===== verification/_CoqProject ===== *)
-Q . S2P
Prelude.v
Text.v
Ordering.v
CaseFold.v
Calendar.v
NtfsRecords.v
DataRuns.v
MftBitmap.v
ExtentMap.v
Chunking.v
Shards.v
Tiering.v
SnapshotCodec.v
SnapshotLeases.v
CsrIndex.v
TrigramIndex.v
IndexDelta.v
Bloom.v
CompactIndex.v
PathLen.v
UsnBatch.v
UsnPatch.v
PathTrie.v
FileTable.v
Glob.v
NameSearch.v
Filters.v
CacheCodec.v
CacheFile.v
Fields.v
TopN.v
PathResolve.v
Derived.v
QueryText.v
TimeBounds.v
FilterParams.v
RowFilters.v
RowSort.v
TopRows.v
PathWalks.v
TreeSearch.v
Dispatch.v
Arena.v
NameCodec.v
VssHelper.v
MftIndex.v
IndexViews.v
RecordParser.v
VolumeLinks.v
MftTree.v
IndexPaths.v
IndexBuilder.v
