(* ===== verification/Prelude.v ===== *)
(** Verification of UltraFastFileSearch.

    UltraFastFileSearch reads the NTFS master file table of a volume, builds a compact
    in-memory index of every file, keeps it current from the USN change journal, and
    answers searches from a daemon that moves each drive's index between memory tiers.
    A broker service hands out leased volume snapshots to unprivileged readers.  This
    library models the parts of the Rust sources that decide what is read, indexed,
    found, kept in memory and leased, and proves that they do.

    * The parts and their files

    This file holds what the others share: machine integers, byte strings, slices
    indexed by [Z], sorted lists and binary search, tactics and rewrite bases.  [Text]
    has the standard library's string functions the sources use, and UTF-8.  [Ordering] has
    comparisons, their composition and the contract of the library's sorts.  [CaseFold]
    (uffs-text/src/case_fold.rs) is the folding of names by an $UpCase table, and
    [Calendar] (uffs-time/src/lib.rs) the conversions of NTFS time.

    Reading a volume (src/crates/uffs-mft/src):
    - [NtfsRecords] (ntfs/records.rs): record headers, the update-sequence fixup and
      the attribute iterator.
    - [DataRuns] (ntfs/data_runs.rs, platform/lcn.rs): the mapping-pairs decoder.
    - [MftBitmap] (platform/bitmap.rs): the record allocation bitmap and its cluster
      queries.
    - [ExtentMap] (io/extent_map.rs, platform/extents.rs): from record numbers to
      places on disk, and the read plan.
    - [Chunking] (io/chunking.rs): the two read planners and the merges of chunks.
    - [NameCodec] (io/parser/unified/name_codec.rs): UTF-16 names to the text shown and
      the bytes stored.
    - [Arena] (index/types.rs, index/paths.rs): linked lists inside vectors, the shape of
      the index's names, streams and children: the class [Linked] and what pushing at
      the front, appending and following keep.
    - [MftIndex] (index/types.rs, model.rs, base.rs, convert.rs, extensions.rs,
      standard_info.rs, paths.rs): the index of a volume, its records and tables.
    - [IndexViews]: what an index stands for, a file table [Volume], and the invariant
      [index_wf]; nothing of the source.
    - [RecordParser] (io/parser/unified.rs, parse/attribute_helpers.rs,
      ntfs/metadata.rs): one record of the table into the index, and the same on a
      [Volume].
    - [VolumeLinks]: the volumes that records make, in any order.
    - [MftTree] (tree_metrics.rs, index/tree.rs, index/child_order.rs): descendants and
      sizes of directories, and the rebuild of the children lists.
    - [IndexPaths] (index/path_resolver.rs, index/paths.rs): which records have a path,
      and their paths, walked, cached and per hard link.

    The index of a drive (src/crates/uffs-core/src):
    - [CsrIndex] (compact/record.rs, compact/children.rs, compact/extension.rs): the
      children and extension indexes over one counting sort.
    - [TrigramIndex] (trigram.rs, trigram_key.rs): the trigram index, its parallel
      build and its search.
    - [IndexDelta] (compact/delta.rs): the overlay of changes since the last
      compaction, and the merges of base and overlay.
    - [Bloom] (bloom.rs, search/bloom_skip.rs): the shard filter and the skip decision.
    - [CompactIndex] (compact.rs, compact_filters.rs, search/backend.rs): the loaded
      drive, its lookups through the overlay, compaction, its filter and the pre-check
      of a search.
    - [PathLen] (compact/path_len.rs): path lengths, in full and incrementally.
    - [PathTrie] (path_trie.rs): the directory trie of a parked drive, its build and its
      two path walks.
    - [CacheCodec] (compact_cache.rs, compact_cache/filters_io.rs, compact_cache/parked.rs,
      compact_filters.rs): the bytes of a drive's cache file, their parser, the assembly
      of the drive and the reader of the parked body.
    - [CacheFile] (compact_cache.rs, compact_cache/parked.rs, compact_mmap.rs,
      compact_storage.rs, cache_compress.rs of uffs-mft, crypto.rs and fs.rs of
      uffs-security): the encrypted file, saving and loading it with each failure of
      the I/O, the quarantine, and columns mapped from a runtime file.
    - [IndexBuilder] (compact/builder.rs): the compact records of the index of a volume,
      one per name and stream, with their paths and extensions.

    Searches (src/crates/uffs-core/src/search):
    - [Glob] (tree.rs): wildcard matching of names, and the kinds of pattern.
    - [NameSearch] (query/mod.rs, query/prefix_search.rs): the search of a drive by
      name, narrowed by the trigram index, with directories expanded on request.
    - [TreeSearch] (tree.rs, query/mod.rs): the search of a drive by a path pattern.
    - [Fields] (field/mod.rs, field/field_metadata.rs): the fields of a record, their names
      and what can be sorted by; [Derived] (derived.rs, filters/mod.rs): semantic types.
    - [QueryText], [TimeBounds], [FilterParams] (filters/mod.rs, filters/attr_parsing.rs,
      filters/time_parsing.rs and the parameters of a request): sizes, attributes, months,
      dates, named ranges and durations as text, and the filters built from them.
    - [Filters] (filters/mod.rs, filters/ext_match.rs, compact/record.rs): the record
      predicate of a query and the resolution of its extensions on a drive.
    - [TopN] (query/numeric_top_n.rs, query/numeric_sort_key.rs): the best rows of a
      match-all query, collected per drive in bounded heaps and merged.
    - [PathResolve] (tree.rs, query/row_resolve.rs, display_row.rs, compact/record.rs):
      the path of a compact record with and without caches, and the rows of a result.
    - [RowFilters] (filters/apply.rs): the filters of rows.
    - [RowSort] (sorting.rs): the order of rows by several columns, and its text form.
    - [TopRows] (query/numeric_top_n.rs, query/path_sorted_top_n.rs): the rows of a
      match-all query and of an extension query.
    - [PathWalks] (query/path_sorted_top_n.rs, query/path_only_top_n.rs): the stack walks
      that list a drive by path or by directory.
    - [Dispatch] (backend.rs, dispatch.rs, query/mod.rs, and platform/drive_pattern.rs of
      uffs-mft): the rewrites of a pattern, its branch, and the search over the drives,
      without state and with the state of the backend.

    The journal (uffs-mft/src/usn/mod.rs, uffs-core/src/compact_loader.rs and its
    submodules apply.rs and rebuild.rs):
    - [UsnBatch]: aggregation of journal records and the parent-first order.
    - [UsnPatch]: create, delete and rename on the drive, the rebuild of what derives
      from the records, and the drives reachable by loads, batches and saves.
    - [FileTable]: the abstract table of files a drive represents, and the refinement.

    The daemon (src/crates/uffs-daemon/src):
    - [Shards] (cache/shard.rs, cache/shard/drive_stats.rs, cache/registry.rs): one
      drive's shard, its statistics, and the registry with its cached active index.
    - [Tiering] (cache/policy.rs, index/transitions.rs, index/tiering_ops.rs and the
      registry writes of index/dispatch.rs, loading.rs, journal.rs, forget_drive.rs):
      idle demotion, memory pressure, hibernation, preloading and forgetting, as steps
      that may interleave between locked sections.

    The broker (src/crates/uffs-broker-protocol/src, src/crates/uffs-broker/src):
    - [SnapshotCodec] (snapshot_manager/codec.rs, messages.rs, mod.rs): the wire protocol.
    - [SnapshotLeases] (snapshot_lease.rs, broker/snapshot_manager/mod.rs): the lease
      manager under every interleaving, the request service and the framing, over any
      backend with the laws [VssLaws].
    - [VssHelper] (broker/snapshot_manager/vss_helper.rs): the Broker's own backend, whose
      sessions end with their helper processes, and its proof of those laws.

    * How they interact

    The decoded runs of $MFT (DataRuns) become an extent map (ExtentMap), which with the
    bitmap (MftBitmap) drives the planners (Chunking); the bytes they fetch are records
    whose sectors are repaired and whose attributes are walked (NtfsRecords).
    The parser puts each record into the index of the volume (RecordParser, MftIndex),
    whose lists (Arena) always stand for a file table (IndexViews, VolumeLinks); over
    it the sizes of directories (MftTree) and the paths (IndexPaths) are computed.  The
    records of the index become compact records, from which the base indexes are built
    (CsrIndex, TrigramIndex).  A loaded drive (CompactIndex) holds those immutable
    bases and an overlay (IndexDelta).  A journal batch is aggregated and ordered
    (UsnBatch), applied to the records (UsnPatch), overlaid, and its path lengths are
    refreshed (PathLen).  The invariant [overlay_ok] ties base, overlay and records
    together: every lookup theorem of a drive is proved from it, and every operation
    establishes it.  A search reads a drive only through those lookups: [NameSearch]
    folds (CaseFold) and matches (Glob) the candidates of the trigram index, [TopN]
    keeps those the predicate (Filters) passes.  Their paths are resolved (PathResolve),
    and the rows filtered, sorted and cut (RowFilters, RowSort); [Dispatch] rewrites a
    pattern, chooses the branch and puts the drives' rows together.  The daemon keeps each loaded drive in a shard (Shards) and moves
    it between tiers (Tiering); the filter of a parked drive is the drive's own (Bloom), kept with its directory trie
    (PathTrie).  A drive is saved without its overlay (CacheCodec, CacheFile), and a load
    gives back the records and indexes, or for a parked drive the filter and the trie.

    * What the theorems show

    - Equality with a reference: the planners and the read plan locate each record
      where the extent map has it; the bitmap queries are those of a bit-by-bit scan;
      the children, extension and trigram indexes are scans of the records, whatever
      the order of parallel stores; the incremental path refresh is the full search below
      live directories; a name search and a prefix search return what a scan of every
      record would, where no trigram of the needle was pruned; the rows a match-all query
      returns are the best of all rows by the key of its column, through the extension index
      or not; a path pattern finds the records its segments lead to; the filters of rows
      decide as those of records but for deletion, and on what only rows show; the compact
      records of an index have the paths it gives its names, down to the depth the walk
      allows; a query over the drives finds what a scan of each would, where no trigram was
      pruned and no Bloom filter is out of date; the calendar is the Gregorian one; a matched name is in the pattern's language.
      The rows of a result are the same resolved one by one and with caches; the four
      ways to the path of a valid record of an index agree.
    - Round trips and decoding: dates and day numbers and sort specifications; the size
      and the error of every text; a
      drive and its cache file, on the heap, through the map and through the encrypted
      file; the path of a directory and its lookup in the trie; a stored name determines its UTF-16 units, ill-formed
      ones included; the mapping-pairs decoder inverts the encoder; the
      fixup inverts the protection of a record; each message of the wire protocol is
      decoded from exactly the bytes that encode it.
    - Refinement: the search with state answers as the one without; parsing a record into vectors and linked lists does to the volume what
      the record says, on every input; the lease manager implements a ledger of leases under every
      interleaving; a patched drive represents the file table with each change applied,
      whatever order the batch came in, with every parent resolved.
    - Invariants by induction on steps: the children lists of an index are the names in
      it, after any sequence of records; a record is valid when its parents lead to the
      root; the sums of a directory are those of the visits below it; the moves of a shard
      are those its callers were told; the shard registry under interleaved tier
      operations; the leases; a drive's well-formedness and its overlay under loads,
      batches and saves.
    - Termination: every loop of the models has a theorem that its fuel is enough, or
      recurses on its data.
    - Errors and defects: where the code does not do what it means to, a theorem says
      what it does instead (the stale filter after a patch, the clamped path shift, the
      pruned trigram that hides the base, the demotion of a shard pinned meanwhile, the
      merge that misplaces records, the truncated request of the pipe, the prefix search
      without characters beyond ASCII, the filters the extension index ignores, the
      recursions and walks that never end on directories inside each other, the
      compressed stream added at every visit, the lease that stays active after a failed
      deletion, the filter of rows that forgets deletion, the deep path that depends on the cache, the
      walks by path whose order is not that of paths, the limit that cuts before the row
      filters, the patterns that change meaning when they are rewritten or folded, the healthy
      cache file moved aside when the runtime file fails, the old format versions that
      load).  No bytes of a cache file make its parser panic, and a corrupt file is moved
      aside so that the next load rebuilds it.

    * Conventions, bounds and fuel

    Integers are [Z] at the width of their Rust type; the release profile wraps, so
    wrapping, saturating and checked operations are written out.  Bytes are integers
    below 256, strings their UTF-8 bytes.  [option] stands for a panic, an absent value
    or exhausted fuel, [result] for Rust's [Result].  Fuel is a bound from the data: the
    attribute iterator has one step per byte of a record, the decoder one per byte of a
    run list, a planner's split loop one per record of an extent, the graph searches one
    per record of the drive, the release loop of a batch one per deferred change, the wildcard matcher one per
    pair of positions of name and pattern; the path of a compact record 257 rounds, as in the code; the
    walk of a path pattern one per level of directories, the walks by path one per entry of
    their stack, the upward walk of the trie one per directory, attribute presets two; the walks of an index one per
    record and one per cell of a list, the tree metrics one per level of directories;
    in each case a theorem or lemma proves that the result is [Some], or that no fuel is
    enough.  Iteration orders of hash
    maps, parallel stores and unstable sorts are parameters, of which only that they
    permute is assumed.

    Parameters stand for code that is not in the repository: the FxHash hasher (Bloom),
    Unicode lower-casing (CompactIndex, Filters, FilterParams, RowFilters, MftIndex,
    RecordParser), trimming (Filters), the order a heap is drained in (TopN), the sorts of
    the standard library and of rayon ([sorting] of Ordering: a sorted permutation, ties in
    any order), the compiled regular expression (Dispatch, record [Library] with
    [library_ok]), AES-GCM and zstd (CacheFile, [gcm_ok] and [libraries_ok]), the rate estimator's floating point (Shards,
    Tiering), the backend of snapshots (SnapshotLeases, class [VssProvider] with [VssLaws],
    of which VssHelper gives the Broker's instance) and the helper processes it runs
    (VssHelper, class [Helpers] with [HelperLaws]).

    * Not modelled

    The merge of index fragments, the statistics and the journal updates of the MFT
    index, the forensic and legacy record parsers, which repeat what RecordParser models
    over other layouts; compiled patterns, a cache of the matcher of Glob; the
    aggregation of searches, whose results the parts above do not read.  Phase timings and
    tracing labels of a search and of a load, the exhaustion of memory (the parser of a
    cache file reserves room for a count it has not checked), the names and permissions
    of runtime files and the access to the key store are left out.  Also
    left out: device, pipe and socket I/O, Windows services and security descriptors, the
    command line, the MCP server, the updater, benchmarks, diagnostics and scripts, which
    call the parts above and hold little logic of their own; log events and metrics
    counters. *)
From stdpp Require Export base numbers list option gmap sets sorting.
From Stdlib Require Export ZArith Lia Bool.

Global Open Scope Z_scope.

(** * Machine integers

    A Rust [uN] or [iN] value is a [Z] in the range of the type.  The shipped
    [release] profile sets [overflow-checks = false], so plain [+], [-], [*]
    wrap; the wrap-around is written out where an operand can leave the range. *)

Definition u8 (z : Z) : Z := z mod 2 ^ 8.
Definition u16 (z : Z) : Z := z mod 2 ^ 16.
Definition u32 (z : Z) : Z := z mod 2 ^ 32.
Definition u64 (z : Z) : Z := z mod 2 ^ 64.
Definition i64 (z : Z) : Z := (z + 2 ^ 63) mod 2 ^ 64 - 2 ^ 63.
Definition i32 (z : Z) : Z := (z + 2 ^ 31) mod 2 ^ 32 - 2 ^ 31.

Abbreviation is_u8 z := (0 <= z < 2 ^ 8) (only parsing).
Abbreviation is_u16 z := (0 <= z < 2 ^ 16) (only parsing).
Abbreviation is_u32 z := (0 <= z < 2 ^ 32) (only parsing).
Abbreviation is_u64 z := (0 <= z < 2 ^ 64) (only parsing).
Abbreviation is_i64 z := (- 2 ^ 63 <= z < 2 ^ 63) (only parsing).
Abbreviation is_i32 z := (- 2 ^ 31 <= z < 2 ^ 31) (only parsing).

Definition U32_MAX : Z := 2 ^ 32 - 1.
Definition U64_MAX : Z := 2 ^ 64 - 1.
Definition U16_MAX : Z := 2 ^ 16 - 1.

Declare Scope rust_scope.
Delimit Scope rust_scope with rust.
Notation "a +w b" := (u64 (a + b)) (at level 50, left associativity) : rust_scope.
Notation "a -w b" := (u64 (a - b)) (at level 50, left associativity) : rust_scope.
Notation "a *w b" := (u64 (a * b)) (at level 40, left associativity) : rust_scope.
Global Open Scope rust_scope.

Definition saturating_sub (a b : Z) : Z := Z.max 0 (a - b).
Definition saturating_add_u64 (a b : Z) : Z := Z.min U64_MAX (a + b).
Definition saturating_mul_u64 (a b : Z) : Z := Z.min U64_MAX (a * b).
Definition saturating_add_u32 (a b : Z) : Z := Z.min U32_MAX (a + b).
Definition saturating_add_u16 (a b : Z) : Z := Z.min U16_MAX (a + b).
Definition div_ceil (a b : Z) : Z := (a + b - 1) / b.

(** [a / b]: division by zero panics. *)
Definition checked_div (a b : Z) : option Z := if b =? 0 then None else Some (a / b).

Lemma u8_small z : is_u8 z -> u8 z = z.
Proof. apply Z.mod_small. Qed.
Lemma u16_small z : is_u16 z -> u16 z = z.
Proof. apply Z.mod_small. Qed.
Lemma u32_small z : is_u32 z -> u32 z = z.
Proof. apply Z.mod_small. Qed.
Lemma u64_small z : is_u64 z -> u64 z = z.
Proof. apply Z.mod_small. Qed.
Lemma i64_small z : is_i64 z -> i64 z = z.
Proof. intros H. unfold i64. rewrite Z.mod_small; lia. Qed.
Lemma i32_small z : is_i32 z -> i32 z = z.
Proof. intros H. unfold i32. rewrite Z.mod_small; lia. Qed.

Lemma u64_range z : is_u64 (u64 z).
Proof. apply Z.mod_pos_bound. lia. Qed.
Lemma u32_range z : is_u32 (u32 z).
Proof. apply Z.mod_pos_bound. lia. Qed.
Lemma u16_range z : is_u16 (u16 z).
Proof. apply Z.mod_pos_bound. lia. Qed.
Lemma i64_range z : is_i64 (i64 z).
Proof. unfold i64. pose proof (Z.mod_pos_bound (z + 2 ^ 63) (2 ^ 64)). lia. Qed.

Lemma i64_u64 z : i64 (u64 z) = i64 z.
Proof. unfold i64, u64. rewrite Zplus_mod_idemp_l. done. Qed.
Lemma u64_i64 z : u64 (i64 z) = u64 z.
Proof.
  unfold i64, u64. rewrite Zminus_mod_idemp_l. f_equal. lia.
Qed.
Lemma i32_u32 z : i32 (u32 z) = i32 z.
Proof. unfold i32, u32. rewrite Zplus_mod_idemp_l. done. Qed.

(** [cast_signed] and [cast_unsigned]: the same 64 (32) bits. *)
Definition cast_signed (z : Z) : Z := i64 z.
Definition cast_unsigned (z : Z) : Z := u64 z.

Lemma cast_signed_unsigned z : is_i64 z -> cast_signed (cast_unsigned z) = z.
Proof. intros H. unfold cast_signed, cast_unsigned. rewrite i64_u64. by apply i64_small. Qed.

(** * Bytes, slices and vectors *)

Definition zlen {A} (l : list A) : Z := Z.of_nat (length l).

(** [slice.get(i)]. *)
Definition zget {A} (l : list A) (i : Z) : option A :=
  if (0 <=? i) && (i <? zlen l) then l !! Z.to_nat i else None.

(** [*slice.get_mut(i)? = x]: nothing happens out of range. *)
Definition zset {A} (l : list A) (i : Z) (x : A) : list A :=
  if (0 <=? i) && (i <? zlen l) then <[Z.to_nat i := x]> l else l.

(** [slice.get(a..b)]. *)
Definition get_range {A} (l : list A) (a b : Z) : option (list A) :=
  if (0 <=? a) && (a <=? b) && (b <=? zlen l)
  then Some (take (Z.to_nat (b - a)) (drop (Z.to_nat a) l)) else None.

(** [slice.get(a..)]. *)
Definition get_from {A} (l : list A) (a : Z) : option (list A) :=
  get_range l a (zlen l).

(** [slice.get_mut(a..b)] followed by [copy_from_slice]. *)
Definition put_range {A} (l : list A) (a : Z) (s : list A) : list A :=
  take (Z.to_nat a) l ++ s ++ drop (Z.to_nat a + length s) l.

Definition zrepeat {A} (x : A) (n : Z) : list A := replicate (Z.to_nat n) x.

Lemma zlen_nonneg {A} (l : list A) : 0 <= zlen l.
Proof. unfold zlen. lia. Qed.
Lemma zlen_nil {A} : zlen (@nil A) = 0.
Proof. done. Qed.
Lemma zlen_cons {A} (x : A) l : zlen (x :: l) = 1 + zlen l.
Proof. unfold zlen. cbn [length]. lia. Qed.
Lemma zlen_0 {A} (l : list A) : zlen l = 0 <-> l = [].
Proof. split; [|by intros ->]. destruct l; [done |]. unfold zlen. cbn. lia. Qed.

#[export] Instance zlen_permutation {A} : Proper (Permutation ==> eq) (@zlen A).
Proof. intros l k E. unfold zlen. by rewrite E. Qed.

Lemma zlen_app {A} (l k : list A) : zlen (l ++ k) = zlen l + zlen k.
Proof. unfold zlen. rewrite length_app. lia. Qed.
Lemma zlen_map {A B} (f : A -> B) (l : list A) : zlen (map f l) = zlen l.
Proof. unfold zlen. by rewrite length_map. Qed.
Lemma zlen_to_nat {A} (l : list A) : Z.to_nat (zlen l) = length l.
Proof. unfold zlen. lia. Qed.

Create Rewrite HintDb zlen.
Lemma rev_permutation {A} (l : list A) : rev l ≡ₚ l.
Proof. symmetry. apply Permutation_rev. Qed.

(** The members of an explicit list, one goal each. *)
Ltac each_elem H :=
  repeat (apply elem_of_cons in H as [-> | H]); [.. | by apply not_elem_of_nil in H].

#[export] Hint Rewrite @zlen_nil @zlen_cons @zlen_app @zlen_map : zlen.

(** Linear arithmetic over list lengths. *)
Ltac zlia :=
  autorewrite with zlen in *;
  repeat match goal with
  | l : list _ |- _ =>
      lazymatch goal with H : 0 <= zlen l |- _ => fail | _ => pose proof (zlen_nonneg l) end
  end; lia.

(** Case on the comparisons of the goal. *)
Ltac zcases :=
  repeat match goal with
  | |- context [?a <? ?b] => destruct (Z.ltb_spec a b)
  | |- context [?a <=? ?b] => destruct (Z.leb_spec a b)
  | |- context [?a =? ?b] => destruct (Z.eqb_spec a b)
  end.

(** The same in the hypotheses. *)
Ltac zcases_in H :=
  repeat match type of H with
  | context [?a <? ?b] => destruct (Z.ltb_spec a b)
  | context [?a <=? ?b] => destruct (Z.leb_spec a b)
  | context [?a =? ?b] => destruct (Z.eqb_spec a b)
  end.

Lemma zget_Some {A} (l : list A) i x :
  zget l i = Some x <-> 0 <= i < zlen l /\ l !! Z.to_nat i = Some x.
Proof. unfold zget. zcases; cbn; naive_solver lia. Qed.

Lemma zget_None {A} (l : list A) i : zget l i = None <-> ~ 0 <= i < zlen l.
Proof.
  unfold zget. zcases; cbn; try (split; [lia | done]).
  split; [|lia]. intros H1%lookup_ge_None. unfold zlen in *. lia.
Qed.

Lemma zget_is_Some {A} (l : list A) i : 0 <= i < zlen l -> exists x, zget l i = Some x.
Proof.
  intros H. destruct (zget l i) eqn:E; [eauto |].
  by apply zget_None in E.
Qed.

Lemma zget_elem {A} (l : list A) i x : zget l i = Some x -> x ∈ l.
Proof. intros [_ H]%zget_Some. by eapply list_elem_of_lookup_2. Qed.

Lemma zget_app_l {A} (l k : list A) i : i < zlen l -> zget (l ++ k) i = zget l i.
Proof.
  intros H. unfold zget. rewrite zlen_app. pose proof (zlen_nonneg k).
  zcases; cbn; try lia; try done. apply lookup_app_l. unfold zlen in *. lia.
Qed.

Lemma zget_app_r {A} (l k : list A) i : zlen l <= i -> zget (l ++ k) i = zget k (i - zlen l).
Proof.
  intros H. unfold zget. rewrite zlen_app. pose proof (zlen_nonneg l).
  zcases; cbn; try lia; try done.
  rewrite lookup_app_r by (unfold zlen in *; lia). f_equal. unfold zlen in *. lia.
Qed.

Lemma zget_map {A B} (f : A -> B) (l : list A) i : zget (map f l) i = f <$> zget l i.
Proof. unfold zget. rewrite zlen_map. zcases; cbn; try done. apply list_lookup_fmap. Qed.

Lemma zlen_zset {A} (l : list A) i x : zlen (zset l i x) = zlen l.
Proof. unfold zset, zlen. zcases; cbn; by rewrite ?length_insert. Qed.

Lemma zget_zset_eq {A} (l : list A) i x : 0 <= i < zlen l -> zget (zset l i x) i = Some x.
Proof.
  intros H. apply zget_Some. rewrite zlen_zset. split; [done |].
  unfold zset. zcases; cbn; try lia. apply list_lookup_insert_eq. unfold zlen in *. lia.
Qed.

Lemma zget_zset_ne {A} (l : list A) i j x : i <> j -> zget (zset l i x) j = zget l j.
Proof.
  intros H. unfold zget. rewrite zlen_zset. unfold zset.
  zcases; cbn; try done. apply list_lookup_insert_ne. lia.
Qed.

#[export] Hint Rewrite @zlen_zset : zlen.

Lemma get_range_Some {A} (l : list A) a b s :
  get_range l a b = Some s <->
  0 <= a <= b /\ b <= zlen l /\ s = take (Z.to_nat (b - a)) (drop (Z.to_nat a) l).
Proof. unfold get_range. zcases; cbn; naive_solver lia. Qed.

Lemma get_range_len {A} (l : list A) a b s : get_range l a b = Some s -> zlen s = b - a.
Proof.
  intros (H1 & H2 & ->)%get_range_Some. unfold zlen in *.
  rewrite length_take, length_drop. lia.
Qed.

Lemma get_range_None {A} (l : list A) a b :
  get_range l a b = None <-> ~ (0 <= a <= b /\ b <= zlen l).
Proof. unfold get_range. zcases; cbn; split; intros; try done; lia. Qed.

(** A slice out of the middle. *)
Lemma get_range_mid {A} (p s q : list A) a b :
  a = zlen p -> b = a + zlen s -> get_range (p ++ s ++ q) a b = Some s.
Proof.
  intros -> ->. apply get_range_Some. rewrite !zlen_app.
  split; [zlia | split; [zlia |]].
  replace (Z.to_nat (zlen p + zlen s - zlen p)) with (length s) by (unfold zlen; lia).
  rewrite zlen_to_nat, drop_app_length, take_app_length. done.
Qed.

(** The slice from the end of a prefix. *)
Lemma get_from_app {A} (p q : list A) a : a = zlen p -> get_from (p ++ q) a = Some q.
Proof.
  intros ->. unfold get_from. rewrite <- (app_nil_r q) at 1. by apply get_range_mid; rewrite ?zlen_app.
Qed.

(** A slice of a prefix. *)
Lemma get_range_app_l {A} (p q : list A) a b :
  b <= zlen p -> get_range (p ++ q) a b = get_range p a b.
Proof.
  intros H. unfold get_range. rewrite zlen_app. pose proof (zlen_nonneg q).
  zcases; cbn; try lia; try done. f_equal.
  rewrite drop_app_le by (unfold zlen in *; lia).
  apply take_app_le. rewrite length_drop. unfold zlen in *. lia.
Qed.

Lemma get_range_Forall {A} (P : A -> Prop) (l : list A) a b s :
  Forall P l -> get_range l a b = Some s -> Forall P s.
Proof. intros H (_ & _ & ->)%get_range_Some. by apply Forall_take, Forall_drop. Qed.

Lemma zlen_put_range {A} (l s : list A) a :
  0 <= a -> a + zlen s <= zlen l -> zlen (put_range l a s) = zlen l.
Proof.
  intros H1 H2. unfold put_range, zlen in *.
  rewrite !length_app, length_take, length_drop. lia.
Qed.

Lemma put_range_mid {A} (p s s' q : list A) :
  length s = length s' -> put_range (p ++ s ++ q) (zlen p) s' = p ++ s' ++ q.
Proof.
  intros H. unfold put_range. rewrite zlen_to_nat, take_app_length, <- H.
  rewrite <- drop_drop, drop_app_length, drop_app_length. done.
Qed.

(** * Results *)

Inductive result (A E : Type) : Type :=
| Ok (a : A)
| Err (e : E).
Arguments Ok {A E} a.
Arguments Err {A E} e.

(** The [?] operator on [Option] and on [Result]. *)
Notation "'let?' x ':=' c 'in' k" :=
  (match c with Some x => k | None => None end)
  (at level 10, x pattern, c at level 100, k at level 200) : rust_scope.
Notation "'try' x ':=' c 'in' k" :=
  (match c with Ok x => k | Err e => Err e end)
  (at level 10, x pattern, c at level 100, k at level 200) : rust_scope.

(** * Little-endian integers *)

Abbreviation byte_list := (Forall (fun b => 0 <= b < 256)).

(** [uN::from_le_bytes] on [n] bytes. *)
Fixpoint from_le_bytes (bs : list Z) : Z :=
  match bs with
  | [] => 0
  | b :: bs => b + 256 * from_le_bytes bs
  end.

(** [uN::to_le_bytes]: the low [n] bytes of [z]. *)
Fixpoint to_le_bytes (n : nat) (z : Z) : list Z :=
  match n with
  | O => []
  | S n => z mod 256 :: to_le_bytes n (z / 256)
  end.

Lemma length_to_le_bytes n z : length (to_le_bytes n z) = n.
Proof. revert z. induction n as [|n IH]; intros z; cbn; [done |]. by rewrite IH. Qed.

Lemma zlen_to_le_bytes n z : zlen (to_le_bytes n z) = Z.of_nat n.
Proof. unfold zlen. by rewrite length_to_le_bytes. Qed.
#[export] Hint Rewrite zlen_to_le_bytes : zlen.

Lemma to_le_bytes_byte n z : byte_list (to_le_bytes n z).
Proof.
  revert z. induction n as [|n IH]; intros z; cbn; constructor; [|apply IH].
  apply Z.mod_pos_bound. lia.
Qed.

Lemma pow256_S n : 256 ^ Z.of_nat (S n) = 256 * 256 ^ Z.of_nat n.
Proof. rewrite Nat2Z.inj_succ, Z.pow_succ_r; lia. Qed.

Lemma pow256_pos n : 0 < 256 ^ Z.of_nat n.
Proof. apply Z.pow_pos_nonneg; lia. Qed.

Lemma pow256_pow2 n : 256 ^ Z.of_nat n = 2 ^ (8 * Z.of_nat n).
Proof. change 256 with (2 ^ 8). rewrite <- Z.pow_mul_r; lia. Qed.

Lemma from_le_bytes_bound bs :
  byte_list bs -> 0 <= from_le_bytes bs < 256 ^ zlen bs.
Proof.
  induction 1 as [|b bs Hb Hbs IH]; [done |].
  unfold zlen in *. cbn [from_le_bytes length]. rewrite pow256_S. lia.
Qed.

Lemma from_to_le_bytes n z : from_le_bytes (to_le_bytes n z) = z mod 256 ^ Z.of_nat n.
Proof.
  revert z. induction n as [|n IH]; intros z; cbn [to_le_bytes from_le_bytes].
  - by rewrite Z.mod_1_r.
  - rewrite IH, pow256_S. pose proof (pow256_pos n).
    rewrite Z.rem_mul_r by lia. done.
Qed.

Lemma to_from_le_bytes bs : byte_list bs -> to_le_bytes (length bs) (from_le_bytes bs) = bs.
Proof.
  induction 1 as [|b bs Hb Hbs IH]; [done |]. cbn [length to_le_bytes from_le_bytes].
  rewrite (Z.mul_comm 256), Z.mod_add, Z.div_add, Z.mod_small, Z.div_small by lia.
  by rewrite Z.add_0_l, IH.
Qed.

Lemma from_to_le_bytes_small n z :
  0 <= z < 256 ^ Z.of_nat n -> from_le_bytes (to_le_bytes n z) = z.
Proof. intros H. rewrite from_to_le_bytes. by apply Z.mod_small. Qed.

(** Bit operations on disjoint ranges are additions. *)
Lemma lor_shiftl_add a b k : 0 <= k -> 0 <= a < 2 ^ k -> Z.lor a (Z.shiftl b k) = a + b * 2 ^ k.
Proof.
  intros Hk Ha. assert (Hd : Z.land a (Z.shiftl b k) = 0).
  { apply Z.bits_inj'. intros i Hi. rewrite Z.land_spec, Z.bits_0.
    destruct (Z.ltb_spec i k).
    - rewrite Z.shiftl_spec_low by lia. apply andb_false_r.
    - destruct (Z.eq_dec a 0) as [-> |]; [by rewrite Z.bits_0 |].
      rewrite (Z.bits_above_log2 a i); [done | lia |].
      apply Z.log2_lt_pow2; [lia |].
      eapply Z.lt_le_trans; [apply Ha |]. apply Z.pow_le_mono_r; lia. }
  rewrite <- Z.lxor_lor, <- Z.add_nocarry_lxor, Z.shiftl_mul_pow2 by done. done.
Qed.

(** [x & (2^k - 1)] and [x >> k]. *)
Lemma land_ones_mod z k : 0 <= k -> Z.land z (2 ^ k - 1) = z mod 2 ^ k.
Proof.
  intros H. rewrite <- Z.land_ones by done. f_equal. rewrite Z.ones_equiv. lia.
Qed.

(** * Pointwise reasoning on byte buffers *)

Lemma zget_ext {A} (l k : list A) :
  zlen l = zlen k -> (forall i, 0 <= i < zlen l -> zget l i = zget k i) -> l = k.
Proof.
  intros Hlen H. apply list_eq. intros i.
  destruct (decide (i < length l)%nat) as [Hi |].
  - specialize (H (Z.of_nat i)). unfold zget, zlen in *.
    rewrite Nat2Z.id in H. revert H. zcases; cbn; try lia. intros Hi2. apply Hi2. lia.
  - rewrite !lookup_ge_None_2; unfold zlen in *; [done | lia | lia].
Qed.

Lemma zget_take {A} (l : list A) n i : 0 <= i < n -> zget (take (Z.to_nat n) l) i = zget l i.
Proof.
  intros H. unfold zget, zlen. rewrite length_take.
  destruct (Z.ltb_spec i (Z.of_nat (length l))).
  - zcases; cbn; try lia. apply lookup_take_lt. lia.
  - zcases; cbn; try lia; done.
Qed.

Lemma zget_drop {A} (l : list A) n i :
  0 <= n -> 0 <= i -> zget (drop (Z.to_nat n) l) i = zget l (n + i).
Proof.
  intros H Hi. unfold zget, zlen. rewrite length_drop. zcases; cbn; try lia; try done.
  rewrite lookup_drop. f_equal. lia.
Qed.

Lemma zget_get_range {A} (l : list A) a b s i :
  get_range l a b = Some s -> 0 <= i < b - a -> zget s i = zget l (a + i).
Proof.
  intros (H1 & H2 & ->)%get_range_Some Hi.
  rewrite zget_take, zget_drop by lia. done.
Qed.

Lemma get_range_ext {A} (l k : list A) a b :
  zlen l = zlen k -> (forall i, a <= i < b -> zget l i = zget k i) ->
  get_range l a b = get_range k a b.
Proof.
  intros Hlen H. destruct (get_range l a b) as [s |] eqn:El; symmetry.
  - pose proof El as Es. apply get_range_len in Es.
    pose proof El as (H1 & H2 & _)%get_range_Some.
    destruct (get_range k a b) as [t |] eqn:Ek.
    + f_equal. pose proof (get_range_len _ _ _ _ Ek).
      apply zget_ext; [lia |]. intros i Hi.
      rewrite (zget_get_range _ _ _ _ _ Ek), (zget_get_range _ _ _ _ _ El) by lia.
      symmetry. apply H. lia.
    + apply get_range_None in Ek. lia.
  - apply get_range_None. apply get_range_None in El. lia.
Qed.

Lemma zget_put_range {A} (l s : list A) a i :
  0 <= a -> a + zlen s <= zlen l ->
  zget (put_range l a s) i =
    if (a <=? i) && (i <? a + zlen s) then zget s (i - a) else zget l i.
Proof.
  intros Ha Hl. unfold put_range.
  assert (Hp : zlen (take (Z.to_nat a) l) = a).
  { unfold zlen in *. rewrite length_take. lia. }
  destruct (Z.ltb_spec i a) as [Hi | Hi].
  - replace (a <=? i) with false by lia. cbn.
    rewrite zget_app_l by lia. destruct (Z.ltb_spec i 0).
    + unfold zget. zcases; cbn; done || lia.
    + apply zget_take. lia.
  - replace (a <=? i) with true by lia. cbn. rewrite zget_app_r by lia. rewrite Hp.
    zcases; [by rewrite zget_app_l by lia |].
    rewrite zget_app_r by lia.
    replace (Z.to_nat a + length s)%nat with (Z.to_nat (a + zlen s)) by (unfold zlen; lia).
    rewrite zget_drop by (pose proof (zlen_nonneg s); lia). f_equal. lia.
Qed.

(** Two cells are one two-byte slice. *)
Lemma get_range_2 {A} (l : list A) a :
  0 <= a -> a + 2 <= zlen l ->
  exists x y, get_range l a (a + 2) = Some [x; y] /\ zget l a = Some x /\ zget l (a + 1) = Some y.
Proof.
  intros H1 H2. destruct (get_range l a (a + 2)) as [s |] eqn:E.
  - pose proof (get_range_len _ _ _ _ E) as Hs.
    pose proof (zget_get_range _ _ _ _ 0 E) as H0.
    pose proof (zget_get_range _ _ _ _ 1 E) as H3.
    destruct s as [|x [|y [|z s]]]; unfold zlen in Hs; cbn in Hs; try lia.
    exists x, y. split; [done |]. rewrite Z.add_0_r in H0.
    rewrite <- H0, <- H3 by lia. done.
  - apply get_range_None in E. lia.
Qed.

(** A list given by its cells. *)
Definition tabulate {A} (n : Z) (f : Z -> A) : list A := map f (seqZ 0 n).

Lemma zlen_tabulate {A} n (f : Z -> A) : 0 <= n -> zlen (tabulate n f) = n.
Proof. intros H. unfold tabulate, zlen. rewrite length_map, length_seqZ. lia. Qed.

Lemma zget_tabulate {A} n (f : Z -> A) i : 0 <= i < n -> zget (tabulate n f) i = Some (f i).
Proof.
  intros H. unfold tabulate. rewrite zget_map.
  assert (zget (seqZ 0 n) i = Some i) as ->; [|done].
  apply zget_Some. unfold zlen. rewrite length_seqZ. split; [lia |].
  apply lookup_seqZ. lia.
Qed.

Lemma get_range_intro {A} (l : list A) a b :
  0 <= a <= b -> b <= zlen l ->
  get_range l a b = Some (take (Z.to_nat (b - a)) (drop (Z.to_nat a) l)).
Proof. intros. by apply get_range_Some. Qed.

Lemma get_range_split {A} (l s : list A) a b c :
  get_range l a c = Some s -> a <= b <= c ->
  exists s1 s2, s = s1 ++ s2 /\ get_range l a b = Some s1 /\ get_range l b c = Some s2.
Proof.
  intros (H1 & H2 & ->)%get_range_Some Hb.
  exists (take (Z.to_nat (b - a)) (drop (Z.to_nat a) l)),
         (take (Z.to_nat (c - b)) (drop (Z.to_nat b) l)).
  split_and!.
  - replace (Z.to_nat b) with (Z.to_nat a + Z.to_nat (b - a))%nat by lia.
    rewrite <- drop_drop, take_take_drop. f_equal. lia.
  - apply get_range_intro; lia.
  - apply get_range_intro; lia.
Qed.

Lemma get_range_join {A} (l s1 s2 : list A) a b c :
  get_range l a b = Some s1 -> get_range l b c = Some s2 -> get_range l a c = Some (s1 ++ s2).
Proof.
  intros H1 H2.
  pose proof H1 as (? & ? & _)%get_range_Some. pose proof H2 as (? & ? & _)%get_range_Some.
  destruct (get_range l a c) as [s |] eqn:E.
  - destruct (get_range_split _ _ _ b _ E) as (t1 & t2 & -> & E1 & E2); [lia |]. congruence.
  - apply get_range_None in E. lia.
Qed.

Lemma zget_app_Some {A} (p q : list A) i x : zget p i = Some x -> zget (p ++ q) i = Some x.
Proof.
  intros H. pose proof H as [? _]%zget_Some. rewrite zget_app_l; [done | lia].
Qed.


(** * Bits *)

(** [x & (1 << k) != 0] tests bit [k]. *)
Lemma land_pow2_testbit x k : 0 <= k -> (Z.land x (2 ^ k) =? 0) = negb (Z.testbit x k).
Proof.
  intros Hk. destruct (Z.testbit x k) eqn:E; cbn.
  - apply Z.eqb_neq. intros H. apply (f_equal (fun z => Z.testbit z k)) in H.
    rewrite Z.land_spec, Z.pow2_bits_true, E, Z.bits_0 in H by lia. done.
  - apply Z.eqb_eq. apply Z.bits_inj'. intros i Hi.
    rewrite Z.land_spec, Z.bits_0, Z.pow2_bits_eqb by lia.
    destruct (Z.eqb_spec k i) as [<- |]; [by rewrite E | apply andb_false_r].
Qed.

Lemma testbit_above m k i : 0 <= m < 2 ^ k -> k <= i -> Z.testbit m i = false.
Proof.
  intros Hm Hi. assert (0 <= k) by (destruct (Z.ltb_spec k 0); [rewrite Z.pow_neg_r in Hm by done |]; lia).
  rewrite Z.testbit_eqb by lia. rewrite Z.div_small; [done |]. split; [lia |].
  apply Z.lt_le_trans with (2 ^ k); [lia |]. apply Z.pow_le_mono_r; lia.
Qed.

Lemma testbit_top b k : 0 < k -> 0 <= b < 2 ^ k -> Z.testbit b (k - 1) = (2 ^ (k - 1) <=? b).
Proof.
  intros Hk Hb. rewrite Z.testbit_eqb by lia.
  assert (E : 2 ^ k = 2 * 2 ^ (k - 1)) by (rewrite <- Z.pow_succ_r by lia; f_equal; lia).
  assert (0 < 2 ^ (k - 1)) by (apply Z.pow_pos_nonneg; lia).
  destruct (Z.leb_spec (2 ^ (k - 1)) b).
  - replace (b / 2 ^ (k - 1)) with 1; [done |].
    apply Z.div_unique with (b - 2 ^ (k - 1)); lia.
  - rewrite Z.div_small by lia. done.
Qed.

Lemma from_le_bytes_app a b :
  from_le_bytes (a ++ b) = from_le_bytes a + 256 ^ zlen a * from_le_bytes b.
Proof.
  induction a as [|x a IH]; cbn [app from_le_bytes].
  - change (zlen (@nil Z)) with 0. rewrite Z.pow_0_r. lia.
  - rewrite IH. unfold zlen. cbn [length]. rewrite pow256_S. lia.
Qed.

(** * UTF-8

    [str::from_utf8] accepts exactly the well-formed byte sequences (Unicode table
    3-7); [str::chars] are the code points they encode. *)

Definition in_range (lo hi b : Z) : bool := (lo <=? b) && (b <=? hi).
Definition cont (b : Z) : bool := in_range 0x80 0xBF b.

Fixpoint utf8_decode (bs : list Z) : option (list Z) :=
  match bs with
  | [] => Some []
  | b0 :: r0 =>
      if b0 <? 0x80 then let? cs := utf8_decode r0 in Some (b0 :: cs) else
      match r0 with
      | [] => None
      | b1 :: r1 =>
          if in_range 0xC2 0xDF b0 then
            if cont b1
            then let? cs := utf8_decode r1 in Some ((b0 - 0xC0) * 64 + (b1 - 0x80) :: cs)
            else None
          else
          match r1 with
          | [] => None
          | b2 :: r2 =>
              if in_range 0xE0 0xEF b0 then
                if (if b0 =? 0xE0 then in_range 0xA0 0xBF b1
                    else if b0 =? 0xED then in_range 0x80 0x9F b1 else cont b1) && cont b2
                then let? cs := utf8_decode r2 in
                     Some ((b0 - 0xE0) * 4096 + (b1 - 0x80) * 64 + (b2 - 0x80) :: cs)
                else None
              else
              match r2 with
              | [] => None
              | b3 :: r3 =>
                  if in_range 0xF0 0xF4 b0
                     && (if b0 =? 0xF0 then in_range 0x90 0xBF b1
                         else if b0 =? 0xF4 then in_range 0x80 0x8F b1 else cont b1)
                     && cont b2 && cont b3
                  then let? cs := utf8_decode r3 in
                       Some ((b0 - 0xF0) * 262144 + (b1 - 0x80) * 4096 + (b2 - 0x80) * 64
                             + (b3 - 0x80) :: cs)
                  else None
              end
          end
      end
  end.

Definition utf8_valid (bs : list Z) : bool :=
  match utf8_decode bs with Some _ => true | None => false end.

Lemma utf8_valid_ascii_cons b bs : 0 <= b < 128 -> utf8_valid (b :: bs) = utf8_valid bs.
Proof.
  intros H. unfold utf8_valid. cbn [utf8_decode]. replace (b <? 128) with true by lia.
  by destruct (utf8_decode bs).
Qed.

(** [char::from_u32(c).is_some()] and [char::encode_utf8]. *)
Definition is_scalar (c : Z) : bool :=
  ((0 <=? c) && (c <? 0xD800)) || ((0xE000 <=? c) && (c <? 0x110000)).

Definition utf8_encode (c : Z) : list Z :=
  if c <? 0x80 then [c]
  else if c <? 0x800 then [0xC0 + c / 64; 0x80 + c mod 64]
  else if c <? 0x10000 then [0xE0 + c / 4096; 0x80 + c / 64 mod 64; 0x80 + c mod 64]
  else [0xF0 + c / 262144; 0x80 + c / 4096 mod 64; 0x80 + c / 64 mod 64; 0x80 + c mod 64].

(** * Sorted lists *)

Lemma filter_sorted {A} (R : relation A) (f : A -> bool) l :
  StronglySorted R l -> StronglySorted R (List.filter f l).
Proof.
  induction 1 as [|x l Hs IH Hf]; cbn; [constructor |]. destruct (f x); [|done].
  constructor; [done |]. rewrite Forall_forall in Hf |- *. intros y Hy. apply Hf.
  apply list_elem_of_In in Hy. apply filter_In in Hy as [Hy _]. by apply list_elem_of_In.
Qed.

Lemma filter_sublist {A} (f : A -> bool) l : sublist (List.filter f l) l.
Proof. induction l as [|x l IH]; cbn; [constructor |]. by destruct (f x); constructor. Qed.

Lemma seqZ_sorted m n : StronglySorted Z.lt (seqZ m n).
Proof.
  destruct (Z.leb_spec n 0); [rewrite seqZ_nil by done; constructor |].
  replace n with (Z.of_nat (Z.to_nat n)) by lia. revert m.
  induction (Z.to_nat n) as [|k IH]; intros m; [constructor |].
  rewrite seqZ_cons by lia. constructor.
  - replace (Z.pred (Z.of_nat (S k))) with (Z.of_nat k) by lia. apply IH.
  - apply Forall_seqZ. lia.
Qed.

Lemma sorted_lt_NoDup l : StronglySorted Z.lt l -> NoDup l.
Proof.
  induction 1 as [|x l Hs IH Hf]; constructor; [|done]. intros Hx.
  rewrite Forall_forall in Hf. specialize (Hf x Hx). lia.
Qed.

Lemma StronglySorted_zget {A} (R : relation A) l i j x y :
  StronglySorted R l -> i < j -> zget l i = Some x -> zget l j = Some y -> R x y.
Proof.
  intros Hs Hij [Hi Hx]%zget_Some [Hj Hy]%zget_Some.
  assert (Hd : drop (S (Z.to_nat i)) l !! (Z.to_nat j - S (Z.to_nat i))%nat = Some y).
  { rewrite lookup_drop. rewrite <- Hy. f_equal. lia. }
  rewrite <- (take_drop_middle _ _ _ Hx) in Hs.
  apply StronglySorted_app_1_r in Hs. inversion Hs as [| ? ? _ Hf]; subst.
  rewrite Forall_forall in Hf. apply Hf. by eapply list_elem_of_lookup_2.
Qed.

Lemma elem_of_filterb {A} (f : A -> bool) l x : x ∈ List.filter f l <-> x ∈ l /\ f x = true.
Proof. by rewrite !list_elem_of_In, filter_In. Qed.

Lemma filterb_permutation {A} (f : A -> bool) l k : l ≡ₚ k -> List.filter f l ≡ₚ List.filter f k.
Proof. induction 1; cbn; repeat case_match; eauto using Permutation. Qed.

Lemma NoDup_filterb {A} (f : A -> bool) l : NoDup l -> NoDup (List.filter f l).
Proof.
  induction 1 as [|x l Hx Hl IH]; [constructor |]. cbn. destruct (f x); [|done]. constructor; [|done].
  by rewrite elem_of_filterb; intros [? _].
Qed.

Lemma NoDup_omap {A B} (f : A -> option B) l :
  (forall x x' y, f x = Some y -> f x' = Some y -> x = x') -> NoDup l -> NoDup (omap f l).
Proof.
  intros Hf. induction 1 as [|x l Hx Hl IH]; [constructor |]. cbn. destruct (f x) as [y |] eqn:E; [|done].
  constructor; [|done]. intros (x' & Hin & E')%list_elem_of_omap. by rewrite (Hf x x' y) in Hx.
Qed.

(** * [slice::sort_by_key]: a stable sort *)

Section sort_by_key.
Context {A : Type} (key : A -> Z).

Fixpoint insert_by_key (x : A) (l : list A) : list A :=
  match l with
  | [] => [x]
  | y :: l' => if key x <=? key y then x :: l else y :: insert_by_key x l'
  end.

Definition sort_by_key (l : list A) : list A := foldr insert_by_key [] l.

Lemma insert_by_key_perm x l : insert_by_key x l ≡ₚ x :: l.
Proof.
  induction l as [|y l IH]; cbn [insert_by_key]; [done |].
  destruct (key x <=? key y); [done |]. rewrite IH. apply Permutation_swap.
Qed.

Lemma sort_by_key_perm l : sort_by_key l ≡ₚ l.
Proof. induction l as [|x l IH]; cbn; [done |]. by rewrite insert_by_key_perm, IH. Qed.

Lemma insert_by_key_sorted x l :
  StronglySorted (fun a b => key a <= key b) l ->
  StronglySorted (fun a b => key a <= key b) (insert_by_key x l).
Proof.
  induction l as [|y l IH]; cbn [insert_by_key]; intros Hs; [repeat constructor |].
  apply StronglySorted_inv in Hs as [Hs Hf]. destruct (Z.leb_spec (key x) (key y)).
  - constructor; [by constructor |]. constructor; [done |].
    eapply Forall_impl; [exact Hf |]. cbn. intros z. lia.
  - constructor; [by apply IH |]. rewrite insert_by_key_perm. constructor; [lia | done].
Qed.

Lemma sort_by_key_sorted l : StronglySorted (fun a b => key a <= key b) (sort_by_key l).
Proof. induction l as [|x l IH]; cbn; [constructor |]. by apply insert_by_key_sorted. Qed.
End sort_by_key.

(** Strictly ascending lists: the shape of every posting list. *)
Abbreviation ascending := (StronglySorted Z.lt) (only parsing).

Lemma ascending_ext l k : ascending l -> ascending k -> (forall x, x ∈ l <-> x ∈ k) -> l = k.
Proof.
  intros Hl Hk H. eapply StronglySorted_unique_strong; [| exact Hl | exact Hk |].
  - intros x y _ _ Hxy Hyx. lia.
  - apply NoDup_Permutation; [by apply sorted_lt_NoDup.. | done].
Qed.

Lemma ascending_cons x l : ascending (x :: l) <-> ascending l /\ forall y, y ∈ l -> x < y.
Proof.
  split.
  - intros [Hl Hf]%StronglySorted_inv. rewrite Forall_forall in Hf. by split.
  - intros [Hl Hf]. constructor; [done |]. by apply Forall_forall.
Qed.

Lemma ascending_app l k :
  ascending (l ++ k) <-> ascending l /\ ascending k /\ forall x y, x ∈ l -> y ∈ k -> x < y.
Proof.
  induction l as [|z l IH]; cbn [app].
  - split; [intros H; split_and!; [constructor | done |]; intros x y Hx; by apply not_elem_of_nil in Hx | tauto].
  - rewrite !ascending_cons, IH. set_solver.
Qed.

Lemma ascending_snoc l x : ascending l -> (forall y, y ∈ l -> y < x) -> ascending (l ++ [x]).
Proof.
  intros Hl Hx. apply ascending_app. split_and!; [done | repeat constructor |].
  intros y z Hy ->%list_elem_of_singleton. by apply Hx.
Qed.

(** * [slice::binary_search_by]

    The comparison says how the element stands to the target ([Lt]: before it). *)

Section binary_search.
Context {A : Type} (l : list A) (f : A -> comparison).

Fixpoint search_loop (fuel : nat) (base size : Z) : Z :=
  match fuel with
  | O => base
  | S fuel =>
      if size <=? 1 then base else
      let half := size / 2 in
      let mid := base + half in
      let base := match f <$> zget l mid with Some Gt => base | _ => mid end in
      search_loop fuel base (size - half)
  end.

Definition binary_search_by : result Z Z :=
  if zlen l =? 0 then Err 0 else
  let base := search_loop (length l) 0 (zlen l) in
  match f <$> zget l base with
  | Some Eq => Ok base
  | Some Lt => Err (base + 1)
  | _ => Err base
  end.

(** The slice is ordered for the comparison: [Lt]s, then [Eq]s, then [Gt]s. *)
Definition search_ordered : Prop :=
  forall i j x y, i < j -> zget l i = Some x -> zget l j = Some y ->
    (f y = Lt -> f x = Lt) /\ (f x = Gt -> f y = Gt).

Lemma search_loop_spec fuel base size :
  0 <= base -> 1 <= size -> base + size <= zlen l -> (Z.to_nat size <= fuel)%nat ->
  (base = 0 \/ forall x, zget l base = Some x -> f x <> Gt) ->
  (forall j x, base + size <= j -> zget l j = Some x -> f x = Gt) ->
  search_ordered ->
  let b := search_loop fuel base size in
  0 <= b < zlen l /\ (b = 0 \/ forall x, zget l b = Some x -> f x <> Gt) /\
  (forall j x, b < j -> zget l j = Some x -> f x = Gt).
Proof.
  cbv zeta. revert base size. induction fuel as [|fuel IH]; intros base size Hb Hs Hn Hf Hl Hr Ho; [lia |].
  cbn [search_loop]. destruct (Z.leb_spec size 1).
  - split_and!; [lia.. | done |]. intros j x Hj. apply Hr. lia.
  - assert (0 < size / 2 < size) by (split; [apply Z.div_str_pos | apply Z.div_lt]; lia).
    destruct (zget_is_Some l (base + size / 2)) as [y Hy]; [lia |]. rewrite Hy. cbn [fmap option_fmap option_map].
    destruct (f y) eqn:Ey; apply IH; try done; try lia.
    + right. intros x Hx. congruence.
    + intros j x Hj. apply Hr. lia.
    + right. intros x Hx. congruence.
    + intros j x Hj. apply Hr. lia.
    + intros j x Hj Hx. destruct (Z.eq_dec j (base + size / 2)) as [-> |]; [congruence |].
      destruct (Z.ltb_spec (base + size / 2) j).
      * by apply (Ho _ _ _ _ H1 Hy Hx).
      * assert (size - size / 2 <= size / 2 + 1).
        { pose proof (Z.div_mod size 2). pose proof (Z.mod_pos_bound size 2). lia. }
        pose proof (Z.div_mod size 2). pose proof (Z.mod_pos_bound size 2). lia.
Qed.

(** [Ok i] is an equal element; [Err i] is the place to insert at. *)
Lemma binary_search_by_spec :
  search_ordered ->
  match binary_search_by with
  | Ok i => exists x, zget l i = Some x /\ f x = Eq
  | Err i => 0 <= i <= zlen l /\
      (forall j x, zget l j = Some x -> j < i -> f x = Lt) /\
      (forall j x, zget l j = Some x -> i <= j -> f x = Gt)
  end.
Proof.
  intros Ho. unfold binary_search_by. pose proof (zlen_nonneg l). destruct (Z.eqb_spec (zlen l) 0).
  - split_and!; [lia.. | |]; intros j x [? _]%zget_Some; lia.
  - destruct (search_loop_spec (length l) 0 (zlen l)) as (H1 & H2 & H3); try done; try lia.
    + unfold zlen. lia.
    + intros j x Hj [? _]%zget_Some. lia.
    + set (b := search_loop (length l) 0 (zlen l)) in *.
      destruct (zget_is_Some l b) as [y Hy]; [lia |]. rewrite Hy. cbn [fmap option_fmap option_map].
      destruct (f y) eqn:Ey.
      * eauto.
      * split_and!; [lia.. | |]; intros j x Hx Hj.
        -- destruct (Z.eq_dec j b) as [-> |]; [congruence |].
           apply (Ho j b x y); done || lia.
        -- apply (H3 j); done || lia.
      * destruct H2 as [H2 | H2]; [| by destruct (H2 y)].
        split_and!; [lia.. | |]; intros j x Hx Hj.
        -- apply zget_Some in Hx. lia.
        -- destruct (Z.eq_dec j b) as [-> |]; [congruence |]. apply (H3 j); done || lia.
Qed.
End binary_search.

(** [list.binary_search(&value)]. *)
Definition binary_search (l : list Z) (v : Z) : result Z Z := binary_search_by l (fun x => x ?= v).

(** [Ok i]: the value is at [i]; [Err i]: it is absent and [i] elements are smaller. *)
Lemma binary_search_spec l v :
  ascending l ->
  match binary_search l v with
  | Ok i => zget l i = Some v
  | Err i => 0 <= i <= zlen l /\ (forall x, x ∈ take (Z.to_nat i) l -> x < v) /\
      (forall x, x ∈ drop (Z.to_nat i) l -> v < x)
  end.
Proof.
  intros Hl. unfold binary_search. pose proof (binary_search_by_spec l (fun x => x ?= v)) as H.
  destruct (binary_search_by _ _) as [i | i].
  - destruct H as (x & Hx & ->%Z.compare_eq); [|done].
    intros i' j x' y Hij Hx Hy. pose proof (StronglySorted_zget _ _ _ _ _ _ Hl Hij Hx Hy).
    rewrite !Z.compare_lt_iff, !Z.compare_gt_iff. lia.
  - destruct H as (Hi & Hlo & Hhi).
    { intros i' j x' y Hij Hx Hy. pose proof (StronglySorted_zget _ _ _ _ _ _ Hl Hij Hx Hy).
      rewrite !Z.compare_lt_iff, !Z.compare_gt_iff. lia. }
    split_and!; [lia.. | |].
    + intros x (j & Hj)%list_elem_of_lookup. apply lookup_take_Some in Hj as [Hj Hn].
      apply Z.compare_lt_iff, (Hlo (Z.of_nat j)); [|lia]. apply zget_Some. rewrite Nat2Z.id.
      apply lookup_lt_Some in Hj as ?. unfold zlen. split; [lia | done].
    + intros x (j & Hj)%list_elem_of_lookup. rewrite lookup_drop in Hj.
      apply Z.compare_gt_iff, (Hhi (Z.of_nat (Z.to_nat i + j))); [|lia]. apply zget_Some. rewrite Nat2Z.id.
      apply lookup_lt_Some in Hj as ?. unfold zlen. split; [lia | done].
Qed.


(** [list.binary_search(&value).is_ok()]. *)
Lemma binary_search_ok l v :
  ascending l -> match binary_search l v with Ok _ => true | Err _ => false end = bool_decide (v ∈ l).
Proof.
  intros Hl. pose proof (binary_search_spec l v Hl) as H. destruct (binary_search l v) as [i | i].
  - symmetry. apply bool_decide_eq_true_2. by eapply zget_elem.
  - destruct H as (_ & Hlo & Hhi). symmetry. apply bool_decide_eq_false_2.
    rewrite <- (take_drop (Z.to_nat i) l). intros [Hv%Hlo | Hv%Hhi]%elem_of_app; lia.
Qed.


(** * Sorting without repetition *)

(** [sort_unstable] then [dedup]. *)
Definition sort_dedup (l : list Z) : list Z :=
  foldl (fun out x => if bool_decide (last out = Some x) then out else out ++ [x]) [] (sort_by_key id l).

Lemma dedup_sorted l : forall out,
  StronglySorted Z.le l -> ascending out -> (forall x y, x ∈ out -> y ∈ l -> x <= y) ->
  let r := foldl (fun out x => if bool_decide (last out = Some x) then out else out ++ [x]) out l in
  ascending r /\ forall x, x ∈ r <-> x ∈ out \/ x ∈ l.
Proof.
  induction l as [|x l IH]; intros out Hl Ho Hle; cbn; [set_solver |].
  apply StronglySorted_inv in Hl as [Hl Hx]. rewrite Forall_forall in Hx.
  case_bool_decide as E.
  - destruct (IH out) as [H1 H2]; [done.. | set_solver |]. split; [done |].
    assert (x ∈ out) by (apply last_Some in E as (k & ->); set_solver). set_solver.
  - assert (Hlt : forall y, y ∈ out -> y < x).
    { intros y Hy. assert (y <= x) by (apply Hle; [done | left]). destruct (Z.eq_dec y x) as [-> |]; [exfalso | lia].
      destruct out as [|z out' _] using rev_ind; [by apply not_elem_of_nil in Hy |]. rewrite last_snoc in E.
      apply elem_of_app in Hy as [Hy | ->%list_elem_of_singleton]; [|done].
      apply ascending_app in Ho as (_ & _ & Ho). specialize (Ho x z Hy ltac:(left)).
      assert (z <= x) by (apply Hle; [apply elem_of_app; right; left | left]). lia. }
    destruct (IH (out ++ [x])) as [H1 H2]; [done | by apply ascending_snoc | | split; [done | set_solver]].
    intros a b [Ha | ->%list_elem_of_singleton]%elem_of_app Hb; [|by apply Hx].
    specialize (Hlt a Ha). specialize (Hx b Hb). lia.
Qed.

Lemma sort_dedup_spec l : ascending (sort_dedup l) /\ forall x, x ∈ sort_dedup l <-> x ∈ l.
Proof.
  destruct (dedup_sorted (sort_by_key id l) []) as [H1 H2].
  - apply sort_by_key_sorted.
  - constructor.
  - intros x y H. by apply not_elem_of_nil in H.
  - split; [done |]. intros x. unfold sort_dedup. rewrite H2, sort_by_key_perm. set_solver.
Qed.

(** * Enumeration *)

(** [iter().enumerate()]. *)
Definition enumerate {A} (l : list A) : list (Z * A) := zip (seqZ 0 (zlen l)) l.

Lemma zlen_seqZ m n : 0 <= n -> zlen (seqZ m n) = n.
Proof. intros H. unfold zlen. rewrite length_seqZ. lia. Qed.

Lemma snd_enumerate {A} (l : list A) : (enumerate l).*2 = l.
Proof. unfold enumerate. rewrite snd_zip; [done |]. rewrite length_seqZ. unfold zlen. lia. Qed.

Lemma fst_enumerate {A} (l : list A) : (enumerate l).*1 = seqZ 0 (zlen l).
Proof. unfold enumerate. rewrite fst_zip; [done |]. rewrite length_seqZ. unfold zlen. lia. Qed.

Lemma elem_of_enumerate {A} (l : list A) i x : (i, x) ∈ enumerate l <-> zget l i = Some x.
Proof.
  unfold enumerate. rewrite list_elem_of_lookup. split.
  - intros (j & Hj). apply lookup_zip_with_Some in Hj as (a & b & [= <- <-] & Ha & Hb).
    apply lookup_seqZ in Ha as [-> Ha]. apply zget_Some. rewrite Z.add_0_l, Nat2Z.id.
    split; [|done]. apply lookup_lt_Some in Hb. unfold zlen. lia.
  - intros [Hi Hx]%zget_Some. exists (Z.to_nat i). apply lookup_zip_with_Some.
    exists i, x. split; [done |]. split; [|done]. apply lookup_seqZ. lia.
Qed.

Lemma zget_zip {A B} (l : list A) (k : list B) i :
  zget (zip l k) i = let? x := zget l i in let? y := zget k i in Some (x, y).
Proof.
  assert (Hl : zlen (zip l k) = Z.min (zlen l) (zlen k)) by (unfold zlen; rewrite length_zip_with; lia).
  unfold zget. rewrite Hl, lookup_zip_with.
  destruct (Z.leb_spec 0 i); [|done]. cbn [andb].
  destruct (Z.ltb_spec i (zlen l)) as [H1 | H1].
  - replace (i <? Z.min (zlen l) (zlen k)) with (i <? zlen k) by lia.
    destruct (l !! Z.to_nat i) as [x |]; cbn; [|by destruct (i <? zlen k)].
    destruct (i <? zlen k); [|done]. by destruct (k !! Z.to_nat i).
  - by replace (i <? Z.min (zlen l) (zlen k)) with false by lia.
Qed.

(** Discharge a conjunction of closed arithmetic facts by evaluation. *)
Ltac by_eval :=
  repeat match goal with |- _ /\ _ => split end;
  vm_compute; repeat split; first [reflexivity | discriminate | lia | intros; discriminate].

(** [Forall] over a closed list. *)
Ltac forall_eval := repeat (apply Forall_cons; split; [by_eval |]); apply Forall_nil; exact I.
