(* ===== verification/Text.v ===== *)
(** Strings: the string operations of the Rust standard library the sources call, on
    bytes or characters, and UTF-8.

    The encoder and decoder of Prelude ([char::encode_utf8], [str::from_utf8]) are proved
    inverse, and an encoded string occurs inside another only at a character boundary, so
    a byte search of folded strings is a search of their characters. *)
From S2P Require Import Prelude.
Local Open Scope Z_scope.
Local Open Scope rust_scope.

(** * Searching a string *)

Definition STAR : Z := 42.
Definition QUESTION : Z := 63.
Definition BAR : Z := 124.
Definition DOT : Z := 46.
Definition BACKSLASH : Z := 92.
Definition SLASH : Z := 47.

Definition contains_byte (b : Z) (s : list Z) : bool := existsb (fun c => c =? b) s.

Fixpoint starts_with (s prefix : list Z) : bool :=
  match prefix, s with
  | [], _ => true
  | _ :: _, [] => false
  | b :: prefix, c :: s => (c =? b) && starts_with s prefix
  end.

(** [str::contains] of a string. *)
Fixpoint contains_str (s needle : list Z) : bool :=
  starts_with s needle || match s with [] => false | _ :: s => contains_str s needle end.

(** [str::split] at the characters of a pattern. *)
Fixpoint split_where (f : Z -> bool) (s : list Z) : list (list Z) :=
  match s with
  | [] => [[]]
  | c :: s =>
      if f c then [] :: split_where f s
      else match split_where f s with
           | part :: parts => (c :: part) :: parts
           | [] => [[c]]
           end
  end.

Definition split_byte (b : Z) (s : list Z) : list (list Z) := split_where (fun c => c =? b) s.

Fixpoint ends_with (s suffix : list Z) : bool :=
  bool_decide (s = suffix) || match s with [] => false | _ :: s => ends_with s suffix end.

(** The needle occurs in the string. *)
Definition substring (needle s : list Z) : Prop := exists a b, s = a ++ needle ++ b.

Lemma starts_with_spec s prefix : starts_with s prefix = true <-> exists b, s = prefix ++ b.
Proof.
  revert s. induction prefix as [|p prefix IH]; intros [|c s]; cbn.
  - split; [by exists [] | done].
  - split; [by exists (c :: s) | done].
  - split; [done | by intros (b & ?)].
  - rewrite andb_true_iff, Z.eqb_eq, IH. split.
    + intros (-> & b & ->). by exists b.
    + intros (b & [= -> ->]). eauto.
Qed.

Lemma contains_str_spec s needle : contains_str s needle = true <-> substring needle s.
Proof.
  unfold substring. induction s as [|c s IH]; cbn [contains_str]; rewrite orb_true_iff, starts_with_spec.
  - split; [intros [(b & E) | ?]; [by exists [], b | done] |].
    intros (a & b & E). left. destruct a; [|done]. by exists b.
  - rewrite IH. split.
    + intros [(b & E) | (a & b & ->)]; [by exists [], b | by exists (c :: a), b].
    + intros ([|x a] & b & E); [left; by exists b | right]. cbn in E. injection E as -> ->. by exists a, b.
Qed.

Lemma ends_with_spec s suffix : ends_with s suffix = true <-> exists a, s = a ++ suffix.
Proof.
  induction s as [|c s IH]; cbn [ends_with]; rewrite orb_true_iff, bool_decide_eq_true.
  - split; [intros [<- | ?]; [by exists [] | done] |]. intros (a & E). left. by destruct a.
  - rewrite IH. split.
    + intros [<- | (a & ->)]; [by exists [] | by exists (c :: a)].
    + intros ([|x a] & E); [by left | right]. injection E as -> ->. by exists a.
Qed.

Lemma contains_byte_spec b s : contains_byte b s = true <-> b ∈ s.
Proof.
  unfold contains_byte. rewrite existsb_exists. setoid_rewrite <- list_elem_of_In. setoid_rewrite Z.eqb_eq.
  split; [by intros (x & ? & ->) | eauto].
Qed.

Lemma contains_byte_false b s : contains_byte b s = false <-> b ∉ s.
Proof. rewrite <- contains_byte_spec. by rewrite not_true_iff_false. Qed.

(** The parts of a split have no separator and join back to the string. *)
Fixpoint join_byte (b : Z) (parts : list (list Z)) : list Z :=
  match parts with
  | [] => []
  | [part] => part
  | part :: parts => part ++ b :: join_byte b parts
  end.

Lemma split_where_nonempty f s : split_where f s <> [].
Proof. destruct s as [|c s]; cbn; [done |]. destruct (f c); [done |]. by destruct (split_where f s). Qed.

Lemma split_byte_spec b s :
  join_byte b (split_byte b s) = s /\ Forall (fun part => b ∉ part) (split_byte b s).
Proof.
  unfold split_byte. induction s as [|c s (H2 & H3)]; cbn.
  - split; [done |]. apply Forall_cons. split; [apply not_elem_of_nil | constructor].
  - pose proof (split_where_nonempty (fun c => c =? b) s). destruct (Z.eqb_spec c b) as [-> | Hne].
    + split; [|apply Forall_cons; split; [apply not_elem_of_nil | done]].
      destruct (split_where _ s) as [|part parts]; [done |]. change (b :: join_byte b (part :: parts) = b :: s). by rewrite H2.
    + destruct (split_where _ s) as [|part parts]; [done |]. apply Forall_cons in H3 as [H3 H4].
      split; [destruct parts; cbn in *; by rewrite H2 |].
      apply Forall_cons. split; [|done]. rewrite elem_of_cons. intros [-> | ?]; done.
Qed.

(** Joining parts without separators splits back into them. *)
Lemma split_join_byte b parts :
  parts <> [] -> Forall (fun part => b ∉ part) parts -> split_byte b (join_byte b parts) = parts.
Proof.
  assert (Hp : forall part rest, b ∉ part -> split_byte b (part ++ rest) =
    match split_byte b rest with p :: ps => (part ++ p) :: ps | [] => [] end).
  { intros part rest Hb. induction part as [|c part IH]; cbn [app].
    - by destruct (split_byte b rest).
    - apply not_elem_of_cons in Hb as [Hc Hb]. unfold split_byte in *. cbn [split_where]. replace (c =? b) with false by lia.
      rewrite IH by done. pose proof (split_where_nonempty (fun c => c =? b) rest) as Hn. revert Hn. by destruct (split_where _ rest). }
  intros Hne H. induction H as [|part parts Hb _ IH]; [done |]. destruct parts as [|part' parts].
  - cbn [join_byte]. rewrite <- (app_nil_r part) at 1. rewrite Hp by done. cbn. by rewrite app_nil_r.
  - change (join_byte b (part :: part' :: parts)) with (part ++ b :: join_byte b (part' :: parts)). rewrite Hp by done.
    unfold split_byte at 1. cbn [split_where]. rewrite Z.eqb_refl.
    change (split_where _ (join_byte b (part' :: parts))) with (split_byte b (join_byte b (part' :: parts))). rewrite IH by done. by rewrite app_nil_r.
Qed.

(** Every part of a split is a stretch of the string without separators. *)
Lemma split_where_part f s part :
  part ∈ split_where f s -> Forall (fun c => f c = false) part /\ substring part s.
Proof.
  enough (H : (exists p q, split_where f s = p :: q /\ Forall (fun c => f c = false) p /\ exists b, s = p ++ b) /\
    (part ∈ split_where f s -> Forall (fun c => f c = false) part /\ substring part s)) by (by destruct H).
  unfold substring. induction s as [|c s [(p & q & E & Hp & b & ->) IH]]; cbn [split_where].
  - split; [exists [], []; split_and!; [done | done | by exists []] |].
    intros ->%list_elem_of_singleton. split; [done |]. by exists [], [].
  - destruct (f c) eqn:Ec.
    + split; [exists [], (split_where f (p ++ b)); split_and!; [done | done | by eexists] |].
      intros [-> | Hin]%elem_of_cons; [split; [done |]; by exists [], (c :: p ++ b) |].
      destruct (IH Hin) as [Hf (x & y & Es)]. split; [done |]. exists (c :: x), y. cbn. by rewrite Es.
    + rewrite E in *. split; [exists (c :: p), q; split_and!; [done | by constructor | by exists b] |].
      intros [-> | Hin]%elem_of_cons; [split; [by constructor | by exists [], b] |].
      destruct (IH ltac:(by right)) as [Hf (x & y & Es)]. split; [done |]. exists (c :: x), y. cbn. by rewrite Es.
Qed.

(** * UTF-8 *)

Abbreviation scalars cs := (Forall (fun c => is_scalar c = true) cs).

Definition utf8_string (cs : list Z) : list Z := concat (map utf8_encode cs).

Definition continuation (b : Z) : Prop := 0x80 <= b < 0xC0.

Lemma utf8_string_app a b : utf8_string (a ++ b) = utf8_string a ++ utf8_string b.
Proof. unfold utf8_string. by rewrite map_app, concat_app. Qed.

Lemma utf8_string_cons c cs : utf8_string (c :: cs) = utf8_encode c ++ utf8_string cs.
Proof. done. Qed.

Lemma scalar_range c : is_scalar c = true -> 0 <= c < 0xD800 \/ 0xE000 <= c < 0x110000.
Proof. unfold is_scalar. lia. Qed.

(** ** One character *)

Lemma utf8_encode_shape c :
  is_scalar c = true -> exists b bs, utf8_encode c = b :: bs /\ ~ continuation b /\ Forall continuation bs.
Proof.
  intros Hc%scalar_range. unfold utf8_encode, continuation.
  destruct (Z.ltb_spec c 0x80); [|destruct (Z.ltb_spec c 0x800); [|destruct (Z.ltb_spec c 0x10000)]];
    eexists _, _; (split; [reflexivity |]); (split; [Z.div_mod_to_equations; lia |]); repeat (apply Forall_cons; split; [Z.div_mod_to_equations; lia |]); constructor.
Qed.

(** Reading one character back, by its lead byte. *)
Definition next_char (bs : list Z) : option (Z * list Z) :=
  match bs with
  | [] => None
  | b0 :: r0 =>
      if b0 <? 0x80 then Some (b0, r0) else
      match r0 with
      | [] => None
      | b1 :: r1 =>
          if b0 <? 0xE0 then Some ((b0 - 0xC0) * 64 + (b1 - 0x80), r1) else
          match r1 with
          | [] => None
          | b2 :: r2 =>
              if b0 <? 0xF0 then Some ((b0 - 0xE0) * 4096 + (b1 - 0x80) * 64 + (b2 - 0x80), r2) else
              match r2 with
              | [] => None
              | b3 :: r3 =>
                  Some ((b0 - 0xF0) * 262144 + (b1 - 0x80) * 4096 + (b2 - 0x80) * 64 + (b3 - 0x80), r3)
              end
          end
      end
  end.

Lemma div64_4096 c : c / 4096 = c / 64 / 64.
Proof. by rewrite Z.div_div. Qed.

Lemma div64_262144 c : c / 262144 = c / 64 / 64 / 64.
Proof. by rewrite !Z.div_div. Qed.

Ltac digits := rewrite ?div64_4096, ?div64_262144 in *; Z.div_mod_to_equations; lia.

Ltac test_true b := replace b with true by digits.
Ltac test_false b := replace b with false by digits.

Lemma next_char_encode c s : is_scalar c = true -> next_char (utf8_encode c ++ s) = Some (c, s).
Proof.
  intros Hc%scalar_range. unfold utf8_encode.
  destruct (Z.ltb_spec c 0x80); [|destruct (Z.ltb_spec c 0x800); [|destruct (Z.ltb_spec c 0x10000)]];
    cbn [app next_char].
  - by test_true (c <? 128).
  - test_false (192 + c / 64 <? 128). test_true (192 + c / 64 <? 224). f_equal. f_equal. digits.
  - test_false (224 + c / 4096 <? 128). test_false (224 + c / 4096 <? 224). test_true (224 + c / 4096 <? 240).
    f_equal. f_equal. digits.
  - test_false (240 + c / 262144 <? 128). test_false (240 + c / 262144 <? 224). test_false (240 + c / 262144 <? 240).
    f_equal. f_equal. digits.
Qed.

Lemma utf8_encode_inj c d s t :
  is_scalar c = true -> is_scalar d = true -> utf8_encode c ++ s = utf8_encode d ++ t -> c = d /\ s = t.
Proof.
  intros Hc Hd E. pose proof (next_char_encode c s Hc) as H. rewrite E, next_char_encode in H by done.
  by injection H as -> ->.
Qed.

Lemma utf8_decode_encode c s :
  is_scalar c = true -> utf8_decode (utf8_encode c ++ s) = let? cs := utf8_decode s in Some (c :: cs).
Proof.
  intros Hc%scalar_range. unfold utf8_encode.
  destruct (Z.ltb_spec c 0x80); [|destruct (Z.ltb_spec c 0x800); [|destruct (Z.ltb_spec c 0x10000)]];
    cbn [app utf8_decode].
  - by test_true (c <? 128).
  - unfold cont, in_range. test_false (192 + c / 64 <? 128).
    test_true ((194 <=? 192 + c / 64) && (192 + c / 64 <=? 223)).
    test_true ((128 <=? 128 + c mod 64) && (128 + c mod 64 <=? 191)).
    destruct (utf8_decode s); [|done]. do 2 f_equal. digits.
  - unfold cont, in_range. test_false (224 + c / 4096 <? 128).
    test_false ((194 <=? 224 + c / 4096) && (224 + c / 4096 <=? 223)).
    test_true ((224 <=? 224 + c / 4096) && (224 + c / 4096 <=? 239)).
    rewrite (proj2 (andb_true_iff _ _)).
    + destruct (utf8_decode s); [|done]. do 2 f_equal. digits.
    + split; [|digits]. destruct (Z.eqb_spec (224 + c / 4096) 224); [digits |].
      destruct (Z.eqb_spec (224 + c / 4096) 237); digits.
  - unfold cont, in_range. test_false (240 + c / 262144 <? 128).
    test_false ((194 <=? 240 + c / 262144) && (240 + c / 262144 <=? 223)).
    test_false ((224 <=? 240 + c / 262144) && (240 + c / 262144 <=? 239)).
    rewrite (proj2 (andb_true_iff _ _)); [destruct (utf8_decode s); [|done]; do 2 f_equal; digits |].
    split; [|digits]. rewrite (proj2 (andb_true_iff _ _)); [done |]. split; [|digits].
    rewrite (proj2 (andb_true_iff _ _)); [done |]. split; [digits |].
    destruct (Z.eqb_spec (240 + c / 262144) 240); [digits |].
    destruct (Z.eqb_spec (240 + c / 262144) 244); digits.
Qed.

(** ** Strings *)

Lemma utf8_decode_string cs : scalars cs -> utf8_decode (utf8_string cs) = Some cs.
Proof.
  induction 1 as [|c cs Hc _ IH]; [done |]. rewrite utf8_string_cons, utf8_decode_encode by done. by rewrite IH.
Qed.

Lemma utf8_valid_string cs : scalars cs -> utf8_valid (utf8_string cs) = true.
Proof. intros H. unfold utf8_valid. by rewrite utf8_decode_string. Qed.

Lemma utf8_string_inj cs ds : scalars cs -> scalars ds -> utf8_string cs = utf8_string ds -> cs = ds.
Proof. intros Hc Hd E. apply (f_equal utf8_decode) in E. rewrite !utf8_decode_string in E by done. by injection E. Qed.

Lemma utf8_string_prefix xs ys s :
  scalars xs -> scalars ys -> utf8_string ys = utf8_string xs ++ s -> exists zs, ys = xs ++ zs /\ s = utf8_string zs.
Proof.
  intros Hx. revert ys. induction Hx as [|x xs Hx _ IH]; intros ys Hy E; [by exists ys |].
  rewrite utf8_string_cons, <- app_assoc in E. destruct (utf8_encode_shape x Hx) as (b & bs & Eb & _).
  destruct Hy as [|y ys Hy Hys]; [by rewrite Eb in E |].
  rewrite utf8_string_cons in E. apply utf8_encode_inj in E as [-> E]; [|done..].
  destruct (IH ys Hys E) as (zs & -> & ->). by exists zs.
Qed.

(** An encoded string that starts at a lead byte starts at a character. *)
Lemma utf8_string_boundary ys a b s :
  scalars ys -> utf8_string ys = a ++ b :: s -> ~ continuation b ->
  exists l r, ys = l ++ r /\ a = utf8_string l /\ b :: s = utf8_string r.
Proof.
  intros Hy. revert a. induction Hy as [|y ys Hy Hys IH]; intros a E Hb; [by destruct a |].
  destruct a as [|a0 a]; [by exists [], (y :: ys) |].
  rewrite utf8_string_cons in E. destruct (utf8_encode_shape y Hy) as (b0 & bs & Eb & _ & Hbs).
  rewrite Eb in E. injection E as <- E. apply app_eq_inv in E as [(k & -> & E) | (k & -> & E)].
  - destruct k as [|b' k].
    + destruct (IH []) as (l & r & -> & El & Er); [done.. |].
      exists (y :: l), r. rewrite utf8_string_cons, <- El, Eb, !app_nil_r. done.
    + injection E as <- _. apply Forall_app in Hbs as [_ Hbs]. by apply Forall_cons in Hbs as [? _].
  - destruct (IH k E Hb) as (l & r & -> & -> & Er). exists (y :: l), r. by rewrite utf8_string_cons, Eb.
Qed.

(** An encoded string occurs in another exactly where its characters do. *)
Lemma utf8_string_infix xs ys a s :
  scalars xs -> scalars ys -> xs <> [] -> utf8_string ys = a ++ utf8_string xs ++ s ->
  exists l r, ys = l ++ xs ++ r.
Proof.
  intros Hx Hy Hne E. destruct xs as [|x xs]; [done |]. pose proof Hx as [Hx0 _]%Forall_cons.
  destruct (utf8_encode_shape x Hx0) as (b & bs & Eb & Hb & _).
  assert (E' : utf8_string ys = a ++ b :: (bs ++ utf8_string xs ++ s)).
  { rewrite E, utf8_string_cons, Eb. cbn. by rewrite <- app_assoc. }
  destruct (utf8_string_boundary _ _ _ _ Hy E' Hb) as (l & r & -> & -> & Er).
  apply Forall_app in Hy as [_ Hr]. exists l.
  destruct (utf8_string_prefix (x :: xs) r s Hx Hr) as (zs & -> & _); [|by exists zs].
  rewrite <- Er, utf8_string_cons, Eb. cbn. by rewrite <- app_assoc.
Qed.

Lemma utf8_string_suffix xs ys a :
  scalars xs -> scalars ys -> utf8_string ys = a ++ utf8_string xs -> exists l, ys = l ++ xs.
Proof.
  intros Hx Hy E. destruct xs as [|x xs]; [exists ys; by rewrite app_nil_r |].
  pose proof Hx as [Hx0 _]%Forall_cons. destruct (utf8_encode_shape x Hx0) as (b & bs & Eb & Hb & _).
  assert (Es : utf8_string (x :: xs) = b :: (bs ++ utf8_string xs)) by (by rewrite utf8_string_cons, Eb).
  rewrite Es in E. destruct (utf8_string_boundary _ _ _ _ Hy E Hb) as (l & r & -> & _ & Er).
  rewrite <- Es in Er. apply Forall_app in Hy as [_ Hr]. apply utf8_string_inj in Er as <-; [|done..]. by exists l.
Qed.

Lemma is_scalar_intro c : 0 <= c < 0xD800 \/ 0xE000 <= c < 0x110000 -> is_scalar c = true.
Proof. unfold is_scalar. lia. Qed.

(** One character read is one character encoded. *)
Lemma utf8_encode_2 b0 b1 :
  194 <= b0 <= 223 -> 128 <= b1 <= 191 ->
  let c := (b0 - 192) * 64 + (b1 - 128) in is_scalar c = true /\ utf8_encode c = [b0; b1].
Proof.
  intros H0 H1 c. split; [apply is_scalar_intro; lia |]. unfold utf8_encode.
  test_false (c <? 128). test_true (c <? 2048). f_equal; [digits |]. f_equal. digits.
Qed.

Lemma utf8_encode_3 b0 b1 b2 :
  224 <= b0 <= 239 -> 128 <= b1 <= 191 -> 128 <= b2 <= 191 ->
  (b0 = 224 -> 160 <= b1) -> (b0 = 237 -> b1 <= 159) ->
  let c := (b0 - 224) * 4096 + (b1 - 128) * 64 + (b2 - 128) in is_scalar c = true /\ utf8_encode c = [b0; b1; b2].
Proof.
  intros H0 H1 H2 Hl Hh c. split; [apply is_scalar_intro; lia |]. unfold utf8_encode.
  test_false (c <? 128). test_false (c <? 2048). test_true (c <? 65536).
  f_equal; [digits |]. f_equal; [digits |]. f_equal. digits.
Qed.

Lemma utf8_encode_4 b0 b1 b2 b3 :
  240 <= b0 <= 244 -> 128 <= b1 <= 191 -> 128 <= b2 <= 191 -> 128 <= b3 <= 191 ->
  (b0 = 240 -> 144 <= b1) -> (b0 = 244 -> b1 <= 143) ->
  let c := (b0 - 240) * 262144 + (b1 - 128) * 4096 + (b2 - 128) * 64 + (b3 - 128) in
  is_scalar c = true /\ utf8_encode c = [b0; b1; b2; b3].
Proof.
  intros H0 H1 H2 H3 Hl Hh c. split; [apply is_scalar_intro; lia |]. unfold utf8_encode.
  test_false (c <? 128). test_false (c <? 2048). test_false (c <? 65536).
  f_equal; [digits |]. f_equal; [digits |]. f_equal; [digits |]. f_equal. digits.
Qed.

(** Whatever decodes is characters, and is their encoding. *)
Lemma utf8_decode_sound n bs cs :
  (length bs <= n)%nat -> byte_list bs -> utf8_decode bs = Some cs -> scalars cs /\ bs = utf8_string cs.
Proof.
  revert bs cs. induction n as [|n IH]; intros bs cs Hn Hb E.
  { destruct bs; [|cbn in Hn; lia]. injection E as <-. done. }
  assert (Hrec : forall c pre r ds, bs = pre ++ r -> (1 <= length pre)%nat -> is_scalar c = true /\ utf8_encode c = pre ->
    utf8_decode r = Some ds -> scalars (c :: ds) /\ bs = utf8_string (c :: ds)).
  { intros c pre r ds -> Hp [Hc Ec] Ed. apply Forall_app in Hb as [_ Hb]. rewrite length_app in Hn.
    destruct (IH r ds ltac:(lia) Hb Ed) as [Hs ->]. split; [by constructor |]. by rewrite utf8_string_cons, Ec. }
  destruct bs as [|b0 r0]; [by injection E as <- |]. cbn [utf8_decode] in E.
  pose proof Hb as [H0 _]%Forall_cons.
  destruct (Z.ltb_spec b0 0x80).
  { destruct (utf8_decode r0) as [ds |] eqn:Ed; [|done]. injection E as <-. eapply (Hrec b0 [b0]); [done.. | | done].
    split; [apply is_scalar_intro; lia |]. unfold utf8_encode. by test_true (b0 <? 128). }
  destruct r0 as [|b1 r1]; [done |]. unfold cont, in_range in E. destruct ((194 <=? b0) && (b0 <=? 223)) eqn:E2.
  { destruct (_ && _) eqn:E3 in E; [|done]. destruct (utf8_decode r1) as [ds |] eqn:Ed; [|done]. injection E as <-.
    eapply (Hrec _ [b0; b1]); [done | cbn; lia | apply utf8_encode_2; lia | done]. }
  destruct r1 as [|b2 r2]; [done |]. destruct ((224 <=? b0) && (b0 <=? 239)) eqn:E3.
  { destruct (_ && _) eqn:E4 in E; [|done]. destruct (utf8_decode r2) as [ds |] eqn:Ed; [|done]. injection E as <-.
    apply andb_true_iff in E4 as [E4 E5]. eapply (Hrec _ [b0; b1; b2]); [done | cbn; lia | | done].
    destruct (Z.eqb_spec b0 224); [|destruct (Z.eqb_spec b0 237)]; apply utf8_encode_3; lia. }
  destruct r2 as [|b3 r3]; [done |]. destruct (_ && _) eqn:E4 in E; [|done].
  destruct (utf8_decode r3) as [ds |] eqn:Ed; [|done]. injection E as <-.
  apply andb_true_iff in E4 as [[[E4 E5]%andb_true_iff E6]%andb_true_iff E7].
  eapply (Hrec _ [b0; b1; b2; b3]); [done | cbn; lia | | done].
  destruct (Z.eqb_spec b0 240); [|destruct (Z.eqb_spec b0 244)]; apply utf8_encode_4; lia.
Qed.

Lemma utf8_decode_scalars bs cs : byte_list bs -> utf8_decode bs = Some cs -> scalars cs.
Proof. intros Hb E. by eapply utf8_decode_sound. Qed.

Lemma utf8_decode_bytes bs cs : byte_list bs -> utf8_decode bs = Some cs -> bs = utf8_string cs.
Proof. intros Hb E. by eapply utf8_decode_sound. Qed.

(** ASCII characters are their bytes, and no other character has such bytes. *)
Lemma utf8_encode_ascii c b : is_scalar c = true -> b < 0x80 -> b ∈ utf8_encode c <-> c = b.
Proof.
  intros Hc%scalar_range Hb. unfold utf8_encode.
  destruct (Z.ltb_spec c 0x80); [rewrite list_elem_of_singleton; split; by intros -> |].
  destruct (Z.ltb_spec c 0x800); [|destruct (Z.ltb_spec c 0x10000)]; rewrite !elem_of_cons, elem_of_nil;
    (split; [|digits]); digits.
Qed.

Lemma utf8_string_ascii cs b : scalars cs -> b < 0x80 -> b ∈ utf8_string cs <-> b ∈ cs.
Proof.
  intros Hc Hb. induction Hc as [|c cs Hc _ IH]; [done |].
  rewrite utf8_string_cons, elem_of_app, elem_of_cons, IH, utf8_encode_ascii by done.
  split; (intros [H | H]; [left | by right]); by symmetry.
Qed.

(** * Ill-formed text

    What [str::from_utf8] reports of it, and WTF-8: code points, surrogates included. *)

(** The length of the well-formed character at the start, 0 when there is none. *)
Definition second_of_3 (b0 b1 : Z) : bool :=
  if b0 =? 0xE0 then in_range 0xA0 0xBF b1 else if b0 =? 0xED then in_range 0x80 0x9F b1 else cont b1.
Definition second_of_4 (b0 b1 : Z) : bool :=
  if b0 =? 0xF0 then in_range 0x90 0xBF b1 else if b0 =? 0xF4 then in_range 0x80 0x8F b1 else cont b1.

Definition utf8_step (bs : list Z) : nat :=
  match bs with
  | [] => 0%nat
  | b0 :: r =>
      if b0 <? 0x80 then 1%nat
      else if in_range 0xC2 0xDF b0 then match r with b1 :: _ => if cont b1 then 2%nat else 0%nat | _ => 0%nat end
      else if in_range 0xE0 0xEF b0 then
        match r with b1 :: b2 :: _ => if second_of_3 b0 b1 && cont b2 then 3%nat else 0%nat | _ => 0%nat end
      else if in_range 0xF0 0xF4 b0 then
        match r with b1 :: b2 :: b3 :: _ => if second_of_4 b0 b1 && cont b2 && cont b3 then 4%nat else 0%nat | _ => 0%nat end
      else 0%nat
  end.

(** [Utf8Error::valid_up_to]; the fuel is the length. *)
Fixpoint valid_up_to (fuel : nat) (bs : list Z) : nat :=
  match fuel with
  | O => O
  | S fuel => match utf8_step bs with O => O | n => (n + valid_up_to fuel (drop n bs))%nat end
  end.

(** [Utf8Error::error_len] at an ill-formed sequence; [None] when the text ends in it. *)
Definition error_len (bad : list Z) : option Z :=
  match bad with
  | [] => None
  | b0 :: r =>
      if in_range 0xC2 0xDF b0 then match r with [] => None | _ => Some 1 end
      else if in_range 0xE0 0xEF b0 then
        match r with
        | [] => None
        | b1 :: r => if second_of_3 b0 b1 then match r with [] => None | _ => Some 2 end else Some 1
        end
      else if in_range 0xF0 0xF4 b0 then
        match r with
        | [] => None
        | b1 :: r =>
            if second_of_4 b0 b1 then
              match r with
              | [] => None
              | b2 :: r => if cont b2 then match r with [] => None | _ => Some 3 end else Some 2
              end
            else Some 1
        end
      else Some 1
  end.

Abbreviation code_points us := (Forall (fun u => 0 <= u < 0x110000) us).

Definition surrogate (u : Z) : bool := (0xD800 <=? u) && (u <=? 0xDFFF).

Lemma scalar_surrogate u : 0 <= u < 0x110000 -> is_scalar u = negb (surrogate u).
Proof. unfold is_scalar, surrogate. lia. Qed.

Lemma utf8_step_encode c s : is_scalar c = true -> utf8_step (utf8_encode c ++ s) = length (utf8_encode c).
Proof.
  intros Hc%scalar_range. unfold utf8_encode.
  destruct (Z.ltb_spec c 0x80); [|destruct (Z.ltb_spec c 0x800); [|destruct (Z.ltb_spec c 0x10000)]]; cbn [app utf8_step length];
    unfold second_of_3, second_of_4, cont, in_range.
  - by test_true (c <? 128).
  - test_false (192 + c / 64 <? 128). test_true ((194 <=? 192 + c / 64) && (192 + c / 64 <=? 223)).
    by test_true ((128 <=? 128 + c mod 64) && (128 + c mod 64 <=? 191)).
  - test_false (224 + c / 4096 <? 128). test_false ((194 <=? 224 + c / 4096) && (224 + c / 4096 <=? 223)).
    test_true ((224 <=? 224 + c / 4096) && (224 + c / 4096 <=? 239)).
    rewrite (proj2 (andb_true_iff _ _)); [done |]. split; [|digits].
    destruct (Z.eqb_spec (224 + c / 4096) 224); [digits |]. destruct (Z.eqb_spec (224 + c / 4096) 237); digits.
  - test_false (240 + c / 262144 <? 128). test_false ((194 <=? 240 + c / 262144) && (240 + c / 262144 <=? 223)).
    test_false ((224 <=? 240 + c / 262144) && (240 + c / 262144 <=? 239)).
    test_true ((240 <=? 240 + c / 262144) && (240 + c / 262144 <=? 244)).
    rewrite (proj2 (andb_true_iff _ _)); [done |]. split; [|digits]. rewrite (proj2 (andb_true_iff _ _)); [done |]. split; [|digits].
    destruct (Z.eqb_spec (240 + c / 262144) 240); [digits |]. destruct (Z.eqb_spec (240 + c / 262144) 244); digits.
Qed.

(** The three bytes of a surrogate. *)
Lemma surrogate_bytes u :
  surrogate u = true -> exists b1 b2, utf8_encode u = [0xED; b1; b2] /\ 0xA0 <= b1 <= 0xBF /\ 0x80 <= b2 <= 0xBF /\
    u = 0xD000 + (b1 - 0x80) * 64 + (b2 - 0x80).
Proof.
  unfold surrogate. intros H. unfold utf8_encode. test_false (u <? 128). test_false (u <? 2048). test_true (u <? 65536).
  exists (128 + u / 64 mod 64), (128 + u mod 64). split; [f_equal; digits |]. digits.
Qed.

Lemma utf8_step_surrogate u s : surrogate u = true -> utf8_step (utf8_encode u ++ s) = O.
Proof.
  intros H. destruct (surrogate_bytes u H) as (b1 & b2 & -> & H1 & _). cbn [app]. unfold utf8_step, second_of_3, in_range.
  change (237 <? 128) with false. change ((194 <=? 237) && (237 <=? 223)) with false. change ((224 <=? 237) && (237 <=? 239)) with true.
  change (237 =? 224) with false. change (237 =? 237) with true. cbn [orb]. by replace ((128 <=? b1) && (b1 <=? 159)) with false by lia.
Qed.

(** The valid part of a text whose first code points are characters. *)
Lemma valid_up_to_string cs us fuel :
  scalars cs -> match us with [] => True | u :: _ => surrogate u = true end ->
  (length (utf8_string (cs ++ us)) <= fuel)%nat -> valid_up_to fuel (utf8_string (cs ++ us)) = length (utf8_string cs).
Proof.
  intros Hc Hu. revert fuel. induction Hc as [|c cs Hc _ IH]; intros fuel Hf.
  - cbn [app] in *. destruct us as [|u us]; [by destruct fuel |]. rewrite utf8_string_cons in *. destruct fuel as [|fuel]; [done |].
    cbn [valid_up_to]. by rewrite utf8_step_surrogate.
  - cbn [app] in *. rewrite !utf8_string_cons in *. destruct (utf8_encode_shape c Hc) as (b & bs & E & _).
    assert (Hl : (1 <= length (utf8_encode c))%nat) by (rewrite E; cbn; lia).
    rewrite !length_app in *. destruct fuel as [|fuel]; [lia |]. cbn [valid_up_to]. rewrite utf8_step_encode by done.
    destruct (length (utf8_encode c)) as [|n] eqn:En; [lia |]. rewrite <- En, drop_app_length, IH by lia. done.
Qed.

(** Text with a surrogate is not UTF-8. *)
Lemma next_code_point u s : 0 <= u < 0x110000 -> next_char (utf8_encode u ++ s) = Some (u, s).
Proof.
  intros Hc. destruct (is_scalar u) eqn:Es; [by apply next_char_encode |].
  rewrite scalar_surrogate, negb_false_iff in Es by done. destruct (surrogate_bytes u Es) as (b1 & b2 & -> & H1 & H2 & E).
  cbn [app next_char]. change (237 <? 128) with false. change (237 <? 224) with false. change (237 <? 240) with true. cbn iota.
  f_equal. f_equal. lia.
Qed.

Lemma wtf8_inj us vs : code_points us -> code_points vs -> utf8_string us = utf8_string vs -> us = vs.
Proof.
  intros Hu. revert vs. induction Hu as [|u us Hu _ IH]; intros [|v vs] Hv E; [done | | |].
  - apply Forall_cons in Hv as [Hv _]. pose proof (next_code_point v (utf8_string vs) Hv) as H.
    rewrite <- utf8_string_cons, <- E in H. done.
  - pose proof (next_code_point u (utf8_string us) Hu) as H. rewrite <- utf8_string_cons, E in H. done.
  - apply Forall_cons in Hv as [Hv Hvs]. rewrite !utf8_string_cons in E. pose proof (next_code_point u (utf8_string us) Hu) as H.
    rewrite E, next_code_point in H by done. injection H as -> Es. f_equal. by apply IH.
Qed.

Lemma utf8_string_bytes us : code_points us -> byte_list (utf8_string us).
Proof.
  induction 1 as [|u us Hu _ IH]; [constructor |]. rewrite utf8_string_cons. apply Forall_app. split; [|done].
  unfold utf8_encode. destruct (Z.ltb_spec u 0x80); [|destruct (Z.ltb_spec u 0x800); [|destruct (Z.ltb_spec u 0x10000)]];
    repeat (apply Forall_cons; split; [digits |]); constructor.
Qed.

Lemma utf8_valid_wtf8 us : code_points us -> utf8_valid (utf8_string us) = forallb (fun u => negb (surrogate u)) us.
Proof.
  intros Hu. apply eq_true_iff_eq. rewrite forallb_forall. setoid_rewrite <- list_elem_of_In. split.
  - unfold utf8_valid. destruct (utf8_decode _) as [cs |] eqn:E; [|done]. intros _ u Hin.
    pose proof (utf8_decode_scalars _ _ (utf8_string_bytes us Hu) E) as Hc.
    assert (us = cs) as <-.
    { apply wtf8_inj; [done | | by apply utf8_decode_bytes; [apply utf8_string_bytes |]].
      eapply Forall_impl; [exact Hc |]. cbn. intros c H%scalar_range. lia. }
    rewrite Forall_forall in Hc, Hu. rewrite <- scalar_surrogate by auto. by apply Hc.
  - intros H. apply utf8_valid_string. rewrite Forall_forall in Hu |- *. intros u Hin. rewrite scalar_surrogate by auto. by apply H.
Qed.

(** [str::rfind] of an ASCII character. *)
Fixpoint rfind_byte (b : Z) (s : list Z) : option Z :=
  match s with
  | [] => None
  | c :: s => match rfind_byte b s with Some pos => Some (pos + 1) | None => if c =? b then Some 0 else None end
  end.

Lemma rfind_byte_last b s t : b ∉ t -> rfind_byte b (s ++ b :: t) = Some (zlen s).
Proof.
  intros Ht. assert (H : rfind_byte b t = None).
  { induction t as [|c t IH]; [done |]. apply not_elem_of_cons in Ht as [Hc Ht]. cbn. rewrite IH by done.
    destruct (Z.eqb_spec c b); [by destruct Hc |]. done. }
  induction s as [|c s IH]; cbn [app rfind_byte].
  - by rewrite H, Z.eqb_refl.
  - rewrite IH, zlen_cons. f_equal. lia.
Qed.
