(* ===== verification/Ordering.v ===== *)
(** Comparators: [core::cmp::Ordering], the orders of the standard types, and the contract
    of the standard library's sorts.

    A sort needs a total order on what it sorts (the unstable sort of the standard library
    may panic otherwise), so [TotalPreorder] is what a comparator promises and [sorting]
    what a sort promises for one. *)
From S2P Require Import Prelude.
From stdpp Require Import sorting.
Local Open Scope Z_scope.

(** * Comparisons *)

(** [Ordering::then_with]; [Ordering::reverse] is [CompOpp]. *)
Definition then_with (o next : comparison) : comparison := match o with Eq => next | _ => o end.

(** [Ord] of [bool] and of byte strings. *)
Definition bool_cmp (a b : bool) : comparison :=
  match a, b with false, true => Lt | true, false => Gt | _, _ => Eq end.

Fixpoint bytes_cmp (a b : list Z) : comparison :=
  match a, b with
  | [], [] => Eq
  | [], _ :: _ => Lt
  | _ :: _, [] => Gt
  | x :: a, y :: b => then_with (x ?= y) (bytes_cmp a b)
  end.

Definition is_eq (o : comparison) : bool := match o with Eq => true | _ => false end.

#[export] Instance comparison_eq_dec : EqDecision comparison.
Proof. solve_decision. Defined.

(** * Total preorders *)

Class TotalPreorder {A} (cmp : A -> A -> comparison) : Prop := {
  cmp_opp a b : cmp b a = CompOpp (cmp a b);
  cmp_trans a b c : cmp a b <> Gt -> cmp b c <> Gt -> cmp a c <> Gt
}.
Arguments cmp_opp {A} cmp {_} a b.
Arguments cmp_trans {A} cmp {_} a b c.

Section preorder.
Context {A : Type} (cmp : A -> A -> comparison) `{!TotalPreorder cmp}.

Lemma cmp_refl a : cmp a a = Eq.
Proof using All. pose proof (cmp_opp cmp a a) as H. by destruct (cmp a a). Qed.

Lemma cmp_le_or a b : cmp a b <> Gt \/ cmp b a <> Gt.
Proof using All. rewrite (cmp_opp cmp a b). destruct (cmp a b); auto. Qed.

Lemma cmp_antisym a b : cmp a b <> Gt -> cmp b a <> Gt -> cmp a b = Eq.
Proof using All. rewrite (cmp_opp cmp a b). by destruct (cmp a b). Qed.

Lemma cmp_tie_le a b : cmp a b = Eq -> cmp a b <> Gt /\ cmp b a <> Gt.
Proof using All. intros H. by rewrite (cmp_opp cmp a b), H. Qed.

(** What ties with an element compares as it does. *)
Lemma cmp_tie a b c : cmp a b = Eq -> cmp a c = cmp b c.
Proof using All.
  intros [Hab Hba]%cmp_tie_le. pose proof (cmp_trans cmp a b c Hab) as H1. pose proof (cmp_trans cmp b a c Hba) as H2.
  pose proof (fun H => cmp_trans cmp c a b H Hab) as H3. pose proof (fun H => cmp_trans cmp c b a H Hba) as H4.
  rewrite (cmp_opp cmp a c), (cmp_opp cmp b c) in *. destruct (cmp a c), (cmp b c); cbn in *; naive_solver.
Qed.

Lemma cmp_tie_sym a b : cmp a b = Eq -> cmp b a = Eq.
Proof using All. intros H. by rewrite (cmp_opp cmp a b), H. Qed.
End preorder.

#[export] Instance Z_compare_preorder : TotalPreorder Z.compare.
Proof.
  split; [intros a b; by rewrite Z.compare_antisym |]. intros a b c.
  destruct (Z.compare_spec a b), (Z.compare_spec b c), (Z.compare_spec a c); try done; lia.
Qed.

#[export] Instance bool_cmp_preorder : TotalPreorder bool_cmp.
Proof. by split; [intros [] [] | intros [] [] []]. Qed.

#[export] Instance equal_preorder {A} : TotalPreorder (fun _ _ : A => Eq).
Proof. by split. Qed.

#[export] Instance on_preorder {A B} (f : A -> B) (cmp : B -> B -> comparison) `{!TotalPreorder cmp} :
  TotalPreorder (fun a b => cmp (f a) (f b)).
Proof. split; [intros a b; apply (cmp_opp cmp) | intros a b c; apply (cmp_trans cmp)]. Qed.

#[export] Instance reverse_preorder {A} (cmp : A -> A -> comparison) `{!TotalPreorder cmp} :
  TotalPreorder (fun a b => CompOpp (cmp a b)).
Proof.
  split; [intros a b; by rewrite (cmp_opp cmp a b) |]. intros a b c. rewrite <- !(cmp_opp cmp). intros H1 H2. by apply (cmp_trans cmp c b a).
Qed.

#[export] Instance then_with_preorder {A} (cmp next : A -> A -> comparison) `{!TotalPreorder cmp} `{!TotalPreorder next} :
  TotalPreorder (fun a b => then_with (cmp a b) (next a b)).
Proof.
  split.
  - intros a b. rewrite (cmp_opp cmp a b), (cmp_opp next a b). by destruct (cmp a b).
  - intros a b c. unfold then_with. destruct (cmp a b) eqn:Eab; [| |done].
    + rewrite (cmp_tie cmp a b c Eab). destruct (cmp b c); try done. apply (cmp_trans next).
    + intros _. destruct (cmp a c) eqn:Eac; [| done |].
      * rewrite (cmp_tie cmp a c b Eac) in Eab. rewrite (cmp_opp cmp c b), Eab. done.
      * destruct (cmp b c) eqn:Ebc; [| |done]; intros _; exfalso; refine (cmp_trans cmp a b c _ _ Eac); by rewrite ?Eab, ?Ebc.
Qed.

Lemma bytes_cmp_eq a b : bytes_cmp a b = Eq <-> a = b.
Proof.
  revert b. induction a as [|x a IH]; intros [|y b]; cbn; try done. unfold then_with.
  destruct (Z.compare_spec x y) as [-> | |]; [rewrite IH | ..]; split; try congruence; intros [= ->]; lia.
Qed.

#[export] Instance bytes_cmp_preorder : TotalPreorder bytes_cmp.
Proof.
  split.
  - intros a. induction a as [|x a IH]; intros [|y b]; cbn; try done. rewrite (Z.compare_antisym x y), IH. by destruct (x ?= y).
  - intros a. induction a as [|x a IH]; intros [|y b] [|z c]; cbn; try done. unfold then_with.
    destruct (Z.compare_spec x y), (Z.compare_spec y z), (Z.compare_spec x z); try done; try lia. apply IH.
Qed.

(** A choice of comparators that are total preorders is one. *)
#[export] Instance if_preorder {A} (b : bool) (c1 c2 : A -> A -> comparison) `{!TotalPreorder c1} `{!TotalPreorder c2} :
  TotalPreorder (fun x y => if b then c1 x y else c2 x y).
Proof. by destruct b. Qed.

(** * Sorted lists *)

Definition sorted_by {A} (cmp : A -> A -> comparison) (l : list A) : Prop := StronglySorted (fun a b => cmp a b <> Gt) l.

(** The contract of [slice::sort_unstable_by] and [par_sort_unstable_by]: with a total order
    they leave a sorted permutation, ties in any order. *)
Definition sorting (sort : forall A, (A -> A -> comparison) -> list A -> list A) : Prop :=
  forall A (cmp : A -> A -> comparison) l, TotalPreorder cmp -> sort A cmp l ≡ₚ l /\ sorted_by cmp (sort A cmp l).

Section sorted.
Context {A : Type} (cmp : A -> A -> comparison) `{!TotalPreorder cmp}.

(** Two sorted lists of the same elements agree place by place up to ties. *)
Lemma sorted_tie_unique l k k' :
  sorted_by cmp l -> sorted_by cmp k -> l ≡ₚ k' -> Forall2 (fun a b => cmp a b = Eq) k' k ->
  Forall2 (fun a b => cmp a b = Eq) l k.
Proof using All.
  revert k k'. induction l as [|a l IH]; intros k k' Hl Hk Hp Ht.
  { apply Permutation_nil_l in Hp as <-. by inversion_clear Ht. }
  destruct Ht as [|y x k' k Hyx Ht]; [by apply Permutation_nil_r in Hp |].
  inversion_clear Hl as [|? ? Hl' Ha]. inversion_clear Hk as [|? ? Hk' Hx]. rewrite Forall_forall in Ha, Hx.
  assert (Hay : cmp a y <> Gt).
  { assert (Hin : y ∈ a :: l) by (rewrite Hp; left). apply elem_of_cons in Hin as [-> | Hin]; [by rewrite (cmp_refl cmp) | by apply Ha]. }
  assert (Hin : a ∈ y :: k') by (rewrite <- Hp; left).
  apply elem_of_cons in Hin as [<- | Hin].
  { constructor; [done |]. by apply (IH k k'); [.. | by apply Permutation_cons_inv in Hp |]. }
  apply list_elem_of_split in Hin as (p & q & ->).
  apply Forall2_app_inv_l in Ht as (p' & k2 & Hpp & Ht & ->). inversion Ht as [|? z ? q' Haz Hq]; subst.
  assert (Hza : cmp x a <> Gt).
  { assert (Hxz : cmp x z <> Gt) by (apply Hx, elem_of_app; right; left).
    rewrite (cmp_opp cmp a x). rewrite (cmp_tie cmp a z x Haz). by rewrite <- (cmp_opp cmp). }
  assert (Hax : cmp a x = Eq).
  { apply (cmp_antisym cmp); [|done]. rewrite (cmp_opp cmp x a), <- (cmp_tie cmp y x a Hyx), <- (cmp_opp cmp). done. }
  constructor; [done |].
  apply (IH _ (p ++ y :: q)); [done | done | |].
  - apply (Permutation_cons_inv (a := a)). rewrite Hp, <- !Permutation_middle. apply Permutation_swap.
  - apply Forall2_app; [done |]. constructor; [|done].
    rewrite (cmp_tie cmp y x z Hyx), <- (cmp_tie cmp a x z Hax). done.
Qed.

Lemma sorted_unique l k :
  sorted_by cmp l -> sorted_by cmp k -> l ≡ₚ k -> Forall2 (fun a b => cmp a b = Eq) l k.
Proof using All.
  intros Hl Hk Hp. apply (sorted_tie_unique l k k); [done.. |].   clear - TotalPreorder0. induction k; constructor; [by apply (cmp_refl cmp) | done].
Qed.
End sorted.
