(* ===== verification/CaseFold.v ===== *)
(** Case folding: [CaseFold] of [crates/uffs-text/src/case_fold.rs], the NTFS [$UpCase]
    table.

    A [CaseFold] is its table of [u16] entries; a table read from a volume can be any
    list.  Strings are lists of characters ([str::chars]), folded buffers lists of bytes.
    [table_ok] is what the folded search relies on; the compiled-in table has it. *)
From S2P Require Import Prelude Text.
Local Open Scope Z_scope.
Local Open Scope rust_scope.

(** * Operations *)

(** [fold_char]: the table below U+10000, the low 16 bits above. *)
Definition fold_char (table : list Z) (ch : Z) : Z :=
  if ch <? 0x10000 then default ch (zget table ch) else Z.land ch 0xFFFF.

Fixpoint cmp_str (table : list Z) (lhs rhs : list Z) : comparison :=
  match lhs, rhs with
  | [], [] => Eq
  | [], _ :: _ => Lt
  | _ :: _, [] => Gt
  | ca :: lhs, cb :: rhs =>
      match fold_char table ca ?= fold_char table cb with
      | Eq => cmp_str table lhs rhs
      | ord => ord
      end
  end.

Definition fold_to_u16 (table : list Z) (text : list Z) : list Z := map (fold_char table) text.

(** The shared scan of the folded comparisons: the rest of the input, when every pattern
    code point is the next folded character. *)
Fixpoint scan_folded (table : list Z) (input pattern_folded : list Z) {struct pattern_folded} : option (list Z) :=
  match pattern_folded with
  | [] => Some input
  | pat_cp :: pattern_folded =>
      match input with
      | ch :: input => if fold_char table ch =? pat_cp then scan_folded table input pattern_folded else None
      | [] => None
      end
  end.

Definition eq_folded (table : list Z) (input pattern_folded : list Z) : bool :=
  match scan_folded table input pattern_folded with
  | Some rest => zlen rest =? 0
  | None => false
  end.

Definition starts_with_folded (table : list Z) (input prefix_folded : list Z) : bool :=
  match scan_folded table input prefix_folded with Some _ => true | None => false end.

Definition ends_with_folded (table : list Z) (input suffix_folded : list Z) : bool :=
  match scan_folded table (rev input) (rev suffix_folded) with Some _ => true | None => false end.

(** [input_chars.windows(n).any(|window| window == needle_folded)]. *)
Fixpoint any_window (input_chars needle_folded : list Z) : bool :=
  match input_chars with
  | [] => false
  | _ :: rest => bool_decide (take (length needle_folded) input_chars = needle_folded) || any_window rest needle_folded
  end.

Definition contains_folded (table : list Z) (input needle_folded : list Z) : bool :=
  if zlen needle_folded =? 0 then true
  else any_window (map (fold_char table) input) needle_folded.

Record UpcaseDiff := mkUpcaseDiff { codepoint : Z; default_maps_to : Z; live_maps_to : Z }.

Definition diff (table other : list Z) : list UpcaseDiff :=
  let pairs := zip table other in
  map (fun it : Z * (Z * Z) => mkUpcaseDiff (if it.1 <=? U16_MAX then it.1 else 0) it.2.1 it.2.2)
    (List.filter (fun it : Z * (Z * Z) => negb (it.2.1 =? it.2.2)) (enumerate pairs)).

(** [CaseFold::fold_into]. *)
Definition fold_into_char (table : list Z) (cp : Z) : list Z :=
  if cp <? 0x80 then
    let folded := default cp (zget table cp) in
    [if folded <=? 0xFF then folded else 0]
  else if cp <? 0x10000 then
    let folded_cp := default cp (zget table cp) in
    if is_scalar folded_cp then utf8_encode folded_cp else []
  else utf8_encode cp.

Definition fold_into (table : list Z) (name : list Z) : list Z :=
  let buf := concat (map (fold_into_char table) name) in
  if utf8_valid buf then buf else [].

(** ** The compiled-in table

    [upcase_default.bin] as runs [(first, last, step, shift)]: every step-th code point
    from first to last is shifted, all others map to themselves. *)
Definition upcase_runs : list (Z * Z * Z * Z) := [
    (97, 122, 1, -32); (224, 246, 1, -32); (248, 254, 1, -32); (255, 255, 1, 121); (257, 303, 2, -1);
    (307, 311, 2, -1); (314, 328, 2, -1); (331, 375, 2, -1); (378, 382, 2, -1); (384, 384, 1, 195);
    (387, 389, 2, -1); (392, 392, 1, -1); (396, 396, 1, -1); (402, 402, 1, -1); (405, 405, 1, 97);
    (409, 409, 1, -1); (410, 410, 1, 163); (414, 414, 1, 130); (417, 421, 2, -1); (424, 424, 1, -1);
    (429, 429, 1, -1); (432, 432, 1, -1); (436, 438, 2, -1); (441, 441, 1, -1); (445, 445, 1, -1);
    (447, 447, 1, 56); (454, 454, 1, -2); (457, 457, 1, -2); (460, 460, 1, -2); (462, 476, 2, -1);
    (477, 477, 1, -79); (479, 495, 2, -1); (499, 499, 1, -2); (501, 501, 1, -1); (505, 543, 2, -1);
    (547, 563, 2, -1); (572, 572, 1, -1); (578, 578, 1, -1); (583, 591, 2, -1); (592, 592, 1, 10783);
    (593, 593, 1, 10780); (595, 595, 1, -210); (596, 596, 1, -206); (598, 599, 1, -205);
    (601, 601, 1, -202); (603, 603, 1, -203); (608, 608, 1, -205); (611, 611, 1, -207); (616, 616, 1, -209);
    (617, 617, 1, -211); (619, 619, 1, 10743); (623, 623, 1, -211); (625, 625, 1, 10749);
    (626, 626, 1, -213); (629, 629, 1, -214); (637, 637, 1, 10727); (640, 640, 1, -218);
    (643, 643, 1, -218); (648, 648, 1, -218); (649, 649, 1, -69); (650, 651, 1, -217); (652, 652, 1, -71);
    (658, 658, 1, -219); (881, 883, 2, -1); (887, 887, 1, -1); (891, 893, 1, 130); (940, 940, 1, -38);
    (941, 943, 1, -37); (945, 961, 1, -32); (963, 971, 1, -32); (972, 972, 1, -64); (973, 974, 1, -63);
    (983, 983, 1, -8); (985, 1007, 2, -1); (1010, 1010, 1, 7); (1016, 1016, 1, -1); (1019, 1019, 1, -1);
    (1072, 1103, 1, -32); (1104, 1119, 1, -80); (1121, 1153, 2, -1); (1163, 1215, 2, -1);
    (1218, 1230, 2, -1); (1231, 1231, 1, -15); (1233, 1315, 2, -1); (1377, 1414, 1, -48);
    (7545, 7545, 1, 35332); (7549, 7549, 1, 3814); (7681, 7829, 2, -1); (7841, 7935, 2, -1);
    (7936, 7943, 1, 8); (7952, 7957, 1, 8); (7968, 7975, 1, 8); (7984, 7991, 1, 8); (8000, 8005, 1, 8);
    (8017, 8023, 2, 8); (8032, 8039, 1, 8); (8048, 8049, 1, 74); (8050, 8053, 1, 86); (8054, 8055, 1, 100);
    (8056, 8057, 1, 128); (8058, 8059, 1, 112); (8060, 8061, 1, 126); (8064, 8071, 1, 8);
    (8080, 8087, 1, 8); (8096, 8103, 1, 8); (8112, 8113, 1, 8); (8115, 8115, 1, 9); (8131, 8131, 1, 9);
    (8144, 8145, 1, 8); (8160, 8161, 1, 8); (8165, 8165, 1, 7); (8179, 8179, 1, 9); (8526, 8526, 1, -28);
    (8560, 8575, 1, -16); (8580, 8580, 1, -1); (9424, 9449, 1, -26); (11312, 11358, 1, -48);
    (11361, 11361, 1, -1); (11365, 11365, 1, -10795); (11366, 11366, 1, -10792); (11368, 11372, 2, -1);
    (11379, 11379, 1, -1); (11382, 11382, 1, -1); (11393, 11491, 2, -1); (11520, 11557, 1, -7264);
    (42561, 42591, 2, -1); (42595, 42605, 2, -1); (42625, 42647, 2, -1); (42787, 42799, 2, -1);
    (42803, 42863, 2, -1); (42874, 42876, 2, -1); (42879, 42887, 2, -1); (42892, 42892, 1, -1);
    (65345, 65370, 1, -32)].

Definition in_run (c : Z) (run : Z * Z * Z * Z) : bool :=
  let '(first, last, step, _) := run in (first <=? c) && (c <=? last) && ((c - first) mod step =? 0).

Definition upcase (c : Z) : Z :=
  match find (in_run c) upcase_runs with Some (_, _, _, shift) => c + shift | None => c end.

Definition default_table : list Z := map upcase (seqZ 0 0x10000).

(** * The tables the folded search relies on *)

(** The table's view of a character: itself above U+FFFF. *)
Definition fold_cp (table : list Z) (c : Z) : Z := if c <? 0x10000 then default c (zget table c) else c.

(** The table maps [w] to itself and nothing else to it. *)
Definition keeps (table : list Z) (w : Z) : Prop := forall c, is_scalar c = true -> fold_cp table c = w <-> c = w.

(** The bytes the patterns and the name tests treat specially. *)
Definition WILD : list Z := [STAR; QUESTION; BAR; DOT].

Record table_ok (table : list Z) : Prop := {
  table_ascii : forall c, 0 <= c < 0x80 -> 0 <= fold_cp table c < 0x80;
  table_scalar : forall c, is_scalar c = true -> c < 0x10000 -> is_scalar (fold_cp table c) = true /\ fold_cp table c < 0x10000;
  table_keeps : forall w, w ∈ WILD -> keeps table w
}.

(** ** The compiled-in table has it *)

(** A run keeps ASCII in ASCII, characters in characters, and off the special bytes. *)
Definition run_ok (run : Z * Z * Z * Z) : bool :=
  let '(first, last, _, shift) := run in
  ((0x80 <=? first) || ((last <? 0x80) && (last + shift <? 0x80))) && (0 <=? first + shift) &&
  ((last + shift <? 0xD800) || ((0xE000 <=? first + shift) && (last + shift <? 0x10000))) &&
  forallb (fun w => ((w <? first) || (last <? w)) && ((w <? first + shift) || (last + shift <? w))) WILD.

Lemma upcase_runs_ok : forallb run_ok upcase_runs = true.
Proof. reflexivity. Qed.

Lemma upcase_cases c :
  upcase c = c \/ exists first last step shift,
    run_ok (first, last, step, shift) = true /\ first <= c <= last /\ upcase c = c + shift.
Proof.
  unfold upcase. destruct (find (in_run c) upcase_runs) as [[[[first last] step] shift] |] eqn:E; [right | by left].
  apply find_some in E as [Hin Hr]. exists first, last, step, shift. split_and!; [| unfold in_run in Hr; lia.. | done].
  pose proof upcase_runs_ok as H. rewrite forallb_forall in H. by apply H.
Qed.

Lemma run_ok_spec first last step shift c :
  run_ok (first, last, step, shift) = true -> first <= c <= last ->
  (0x80 <= c \/ c + shift < 0x80) /\ 0 <= c + shift /\ (c + shift < 0xD800 \/ 0xE000 <= c + shift < 0x10000) /\
  forall w, w ∈ WILD -> c <> w /\ c + shift <> w.
Proof.
  intros [[[H1 H2]%andb_true_iff H3]%andb_true_iff H4]%andb_true_iff Hc. split_and!; [lia.. |].
  rewrite forallb_forall in H4. intros w Hw%list_elem_of_In. specialize (H4 w Hw). lia.
Qed.

Lemma fold_cp_default c : 0 <= c < 0x10000 -> fold_cp default_table c = upcase c.
Proof.
  intros Hc. unfold fold_cp, default_table. replace (c <? 0x10000) with true by lia.
  rewrite zget_map. replace (zget (seqZ 0 0x10000) c) with (Some c); [done |].
  symmetry. apply zget_Some. unfold zlen. rewrite length_seqZ. split; [lia |]. apply lookup_seqZ. lia.
Qed.

Lemma default_table_ok : table_ok default_table.
Proof.
  split.
  - intros c Hc. rewrite fold_cp_default by lia. destruct (upcase_cases c) as [-> | (f & l & st & sh & Hok & Hr & ->)]; [done |].
    apply (run_ok_spec _ _ _ _ c) in Hok; [|done]. lia.
  - intros c Hs Hb. pose proof (scalar_range c Hs). rewrite fold_cp_default by lia.
    destruct (upcase_cases c) as [-> | (f & l & st & sh & Hok & Hr & ->)]; [done |].
    apply (run_ok_spec _ _ _ _ c) in Hok as (_ & H1 & H2 & _); [|done]. split; [apply is_scalar_intro |]; lia.
  - intros w Hw c Hs. pose proof (scalar_range c Hs).
    assert (Hw' : w < 0x80) by (by each_elem Hw).
    destruct (Z.ltb_spec c 0x10000); [| unfold fold_cp; by replace (c <? 0x10000) with false by lia].
    rewrite fold_cp_default by lia.
    destruct (upcase_cases c) as [-> | (f & l & st & sh & Hok & Hr & ->)]; [done |].
    apply (run_ok_spec _ _ _ _ c) in Hok as (_ & _ & _ & Hn); [|done]. destruct (Hn w Hw). tauto.
Qed.

(** The ASCII part alone, for samples. *)
Definition ascii_table : list Z := map upcase (seqZ 0 0x80).

(** ** Folded buffers *)

Lemma fold_cp_scalar table c : table_ok table -> is_scalar c = true -> is_scalar (fold_cp table c) = true.
Proof.
  intros Ht Hc. destruct (Z.ltb_spec c 0x10000) as [Hb |]; [by apply table_scalar | unfold fold_cp].
  by replace (c <? 0x10000) with false by lia.
Qed.

Lemma fold_cps_scalar table cs : table_ok table -> scalars cs -> scalars (map (fold_cp table) cs).
Proof. intros Ht. induction 1; cbn; constructor; [by apply fold_cp_scalar | done]. Qed.

Lemma fold_into_char_exact table c :
  table_ok table -> is_scalar c = true -> fold_into_char table c = utf8_encode (fold_cp table c).
Proof.
  intros Ht Hc. pose proof (scalar_range c Hc) as Hr. pose proof (table_ascii _ Ht c) as Ha.
  pose proof (table_scalar _ Ht c Hc) as Hs. unfold fold_into_char, fold_cp in *.
  destruct (Z.ltb_spec c 0x80).
  - replace (c <? 0x10000) with true in * by lia. unfold utf8_encode.
    replace (default c (zget table c) <=? 255) with true by lia.
    by replace (default c (zget table c) <? 128) with true by lia.
  - destruct (Z.ltb_spec c 0x10000); [|done]. by rewrite (proj1 (Hs ltac:(lia))).
Qed.

(** Folding a name into the buffer never loses a character with a table that keeps
    ASCII ASCII and characters characters: the result is the encoding of the folded
    characters, and the empty fallback is never taken. *)
Lemma fold_into_exact table cs :
  table_ok table -> scalars cs -> fold_into table cs = utf8_string (map (fold_cp table) cs).
Proof.
  intros Ht Hcs. unfold fold_into.
  assert (concat (map (fold_into_char table) cs) = utf8_string (map (fold_cp table) cs)) as ->.
  { induction Hcs as [|c cs Hc _ IH]; [done |]. cbn [map concat]. by rewrite utf8_string_cons, fold_into_char_exact, IH. }
  by rewrite utf8_valid_string by (by apply fold_cps_scalar).
Qed.

(** ** The folded comparisons *)

Lemma scan_folded_spec table input pf rest :
  scan_folded table input pf = Some rest <->
  exists pre, input = pre ++ rest /\ map (fold_char table) pre = pf.
Proof.
  revert input. induction pf as [|p pf IH]; intros input; cbn.
  - split; [intros [= ->]; by exists [] |]. by intros ([|] & -> & E).
  - destruct input as [|c input]; [split; [done |]; by intros ([|] & ? & ?) |].
    destruct (Z.eqb_spec (fold_char table c) p) as [<- | Hne].
    + rewrite IH. split.
      * intros (pre & -> & <-). by exists (c :: pre).
      * intros ([|c' pre] & E & Ep); [done |]. cbn in *. injection E as -> ->. injection Ep as <-. by exists pre.
    + split; [done |]. intros ([|c' pre] & E & Ep); [done |]. cbn in *. injection E as -> ->. by injection Ep.
Qed.

Lemma eq_folded_spec table input pf : eq_folded table input pf = true <-> map (fold_char table) input = pf.
Proof.
  unfold eq_folded. destruct (scan_folded table input pf) as [rest |] eqn:E.
  - apply scan_folded_spec in E as (pre & -> & <-). rewrite map_app. split.
    + destruct rest; [by rewrite app_nil_r | rewrite zlen_cons; pose proof (zlen_nonneg rest); lia].
    + intros E. destruct rest; [done |]. apply (f_equal (@length Z)) in E. rewrite length_app in E. cbn in E. lia.
  - split; [done |]. intros H. exfalso. enough (scan_folded table input pf = Some []) by congruence.
    apply scan_folded_spec. exists input. by rewrite app_nil_r.
Qed.

Lemma scan_is_prefix table input pf :
  match scan_folded table input pf with Some _ => true | None => false end = true <->
  exists r, map (fold_char table) input = pf ++ r.
Proof.
  destruct (scan_folded table input pf) as [rest |] eqn:E.
  - split; [|done]. intros _. apply scan_folded_spec in E as (pre & -> & <-). rewrite map_app. eauto.
  - split; [done |]. intros (r & Er). exfalso. apply map_eq_app in Er as (pre & rest & -> & Ep & _).
    enough (scan_folded table (pre ++ rest) pf = Some rest) by congruence. apply scan_folded_spec. eauto.
Qed.

Lemma starts_with_folded_spec table input pf :
  starts_with_folded table input pf = true <-> exists r, map (fold_char table) input = pf ++ r.
Proof. apply scan_is_prefix. Qed.

Lemma ends_with_folded_spec table input pf :
  ends_with_folded table input pf = true <-> exists r, map (fold_char table) input = r ++ pf.
Proof.
  unfold ends_with_folded. rewrite scan_is_prefix, map_rev. split; intros (r & E).
  - exists (rev r). rewrite <- (rev_involutive pf), <- rev_app_distr, <- E. by rewrite rev_involutive.
  - exists (rev r). by rewrite E, rev_app_distr.
Qed.

Lemma any_window_spec chars needle :
  needle <> [] -> any_window chars needle = true <-> substring needle chars.
Proof.
  intros Hne. unfold substring. induction chars as [|c chars IH]; cbn [any_window].
  - split; [done |]. intros (a & b & E). by destruct a, needle.
  - rewrite orb_true_iff, bool_decide_eq_true, IH. split.
    + intros [E | (a & b & ->)]; [|by exists (c :: a), b].
      exists [], (drop (length needle) (c :: chars)). cbn [app]. rewrite <- E at 1. by rewrite take_drop.
    + intros ([|x a] & b & E); [left; cbn [app] in E; rewrite E; apply take_app_length | right].
      injection E as -> ->. by exists a, b.
Qed.

Lemma contains_folded_spec table input pf :
  contains_folded table input pf = true <-> substring pf (map (fold_char table) input).
Proof.
  unfold contains_folded. destruct pf as [|p pf].
  - split; [|done]. intros _. by exists [], (map (fold_char table) input).
  - rewrite zlen_cons. pose proof (zlen_nonneg pf). replace (1 + zlen pf =? 0) with false by lia. by apply any_window_spec.
Qed.

(** ** The folded comparisons against folded buffers *)

(** No character above the basic multilingual plane. *)
Definition bmp (cs : list Z) : Prop := Forall (fun c => c < 0x10000) cs.

Lemma fold_char_bmp table cs : bmp cs -> map (fold_char table) cs = map (fold_cp table) cs.
Proof.
  induction 1 as [|c cs Hc _ IH]; [done |]. cbn. f_equal; [|done]. unfold fold_char, fold_cp.
  by replace (c <? 0x10000) with true by lia.
Qed.

Lemma utf8_string_substring xs ys :
  scalars xs -> scalars ys -> substring (utf8_string xs) (utf8_string ys) <-> substring xs ys.
Proof.
  intros Hx Hy. split.
  - intros (a & b & E). destruct xs as [|x xs]; [by exists [], ys |].
    destruct (utf8_string_infix (x :: xs) ys a b) as (l & r & ->); [done.. |]. by exists l, r.
  - intros (a & b & ->). exists (utf8_string a), (utf8_string b). by rewrite !utf8_string_app.
Qed.

Section agree.
Context (table : list Z) (Ht : table_ok table) (input pat : list Z).
Context (Hi : scalars input) (Hp : scalars pat) (Hib : bmp input) (Hpb : bmp pat).

Lemma folded_buffer cs : scalars cs -> bmp cs ->
  fold_into table cs = utf8_string (map (fold_char table) cs) /\ scalars (map (fold_char table) cs).
Proof using Ht. intros Hc Hb. rewrite fold_char_bmp by done. split; [by apply fold_into_exact | by apply fold_cps_scalar]. Qed.

(** Below U+10000 the two ways the search compares names without case agree: the
    comparisons with a pre-folded pattern (used by compiled patterns) give what equality,
    prefix, suffix and substring tests give on the names folded into UTF-8 buffers (used
    by the drive search). *)
Theorem folded_comparisons_agree :
  let pf := fold_to_u16 table pat in let ib := fold_into table input in let pb := fold_into table pat in
  eq_folded table input pf = bool_decide (ib = pb) /\
  starts_with_folded table input pf = starts_with ib pb /\
  ends_with_folded table input pf = ends_with ib pb /\
  contains_folded table input pf = contains_str ib pb.
Proof using Ht Hi Hp Hib Hpb.
  destruct (folded_buffer input Hi Hib) as [Ei Hsi]. destruct (folded_buffer pat Hp Hpb) as [Ep Hsp].
  cbn zeta. rewrite Ei, Ep. unfold fold_to_u16. split_and!; apply eq_true_iff_eq.
  - rewrite eq_folded_spec, bool_decide_eq_true. split; [by intros -> | by apply utf8_string_inj].
  - rewrite starts_with_folded_spec, starts_with_spec. split.
    + intros (r & ->). rewrite utf8_string_app. eauto.
    + intros (b & E). apply utf8_string_prefix in E as (zs & -> & _); [by exists zs | done..].
  - rewrite ends_with_folded_spec, ends_with_spec. split.
    + intros (r & ->). rewrite utf8_string_app. eauto.
    + intros (a & E). by apply utf8_string_suffix in E.
  - rewrite contains_folded_spec, contains_str_spec. symmetry. by apply utf8_string_substring.
Qed.

End agree.

(** [naïve] against the pattern [NAÏVE]. *)
Lemma folded_comparisons_agree_witness :
  eq_folded default_table [110; 97; 0xEF; 118; 101] (fold_to_u16 default_table [78; 65; 0xCF; 86; 69]) =
  bool_decide (fold_into default_table [110; 97; 0xEF; 118; 101] = fold_into default_table [78; 65; 0xCF; 86; 69]).
Proof.
  assert (Hs : scalars [110; 97; 0xEF; 118; 101] /\ scalars [78; 65; 0xCF; 86; 69]) by (split; by repeat constructor).
  assert (Hb : bmp [110; 97; 0xEF; 118; 101] /\ bmp [78; 65; 0xCF; 86; 69]) by (split; by repeat constructor).
  exact (proj1 (folded_comparisons_agree default_table default_table_ok _ _ (proj1 Hs) (proj2 Hs) (proj1 Hb) (proj2 Hb))).
Defined.

(** Above U+FFFF they disagree: the comparisons with a pre-folded pattern keep the
    low 16 bits of a character, so an emoji equals the private-use character with the
    same low bits, while their folded buffers differ. *)
Theorem non_bmp_collides :
  eq_folded [] [0x1F600] (fold_to_u16 [] [0xF600]) = true /\ fold_into [] [0x1F600] <> fold_into [] [0xF600].
Proof. split; [reflexivity | by vm_compute]. Qed.

(** ** The order of names *)

Lemma cmp_str_eq table l r : cmp_str table l r = Eq <-> map (fold_char table) l = map (fold_char table) r.
Proof.
  revert r. induction l as [|c l IH]; intros [|d r]; cbn; [done.. |].
  destruct (Z.compare_spec (fold_char table c) (fold_char table d)) as [-> | Hlt | Hlt].
  - rewrite IH. split; [by intros -> | by intros [=]].
  - split; [done |]. intros [=]. lia.
  - split; [done |]. intros [=]. lia.
Qed.

Lemma cmp_str_opp table l r : cmp_str table r l = CompOpp (cmp_str table l r).
Proof.
  revert r. induction l as [|c l IH]; intros [|d r]; cbn; [done.. |].
  rewrite (Z.compare_antisym (fold_char table c) (fold_char table d)).
  destruct (fold_char table c ?= fold_char table d); cbn; [apply IH | done..].
Qed.

Lemma cmp_str_trans table l r s :
  cmp_str table l r <> Gt -> cmp_str table r s <> Gt -> cmp_str table l s <> Gt.
Proof.
  revert r s. induction l as [|c l IH]; intros [|d r] [|e s]; cbn; try done.
  destruct (Z.compare_spec (fold_char table c) (fold_char table d)) as [H1 | H1 | H1];
    destruct (Z.compare_spec (fold_char table d) (fold_char table e)) as [H2 | H2 | H2]; try done;
    destruct (Z.compare_spec (fold_char table c) (fold_char table e)); try lia; [apply IH | done..].
Qed.

(** The name order of the sorted results is a total preorder: antisymmetric up to
    the folded comparison for equality, total, and transitive. *)
Theorem cmp_str_order table l r s :
  (cmp_str table l r = Eq <-> eq_folded table l (fold_to_u16 table r) = true) /\
  cmp_str table r l = CompOpp (cmp_str table l r) /\
  (cmp_str table l r <> Gt -> cmp_str table r s <> Gt -> cmp_str table l s <> Gt).
Proof.
  split_and!; [| apply cmp_str_opp | apply cmp_str_trans]. by rewrite cmp_str_eq, eq_folded_spec.
Qed.

(** [a], [B] and [Ca]. *)
Lemma cmp_str_order_witness :
  cmp_str ascii_table [97] [66] <> Gt /\ cmp_str ascii_table [66] [67; 97] <> Gt /\ cmp_str ascii_table [97] [67; 97] <> Gt.
Proof.
  assert (H1 : cmp_str ascii_table [97] [66] <> Gt) by (by vm_compute).
  assert (H2 : cmp_str ascii_table [66] [67; 97] <> Gt) by (by vm_compute).
  split_and!; [exact H1 | exact H2 | exact (proj2 (proj2 (cmp_str_order ascii_table [97] [66] [67; 97])) H1 H2)].
Defined.

(** ** Comparing tables *)

(** The diagnostic comparison of two tables lists exactly the code points they map
    differently. *)
Theorem diff_exact table other d :
  zlen table <= 0x10000 ->
  d ∈ diff table other <->
  zget table (codepoint d) = Some (default_maps_to d) /\ zget other (codepoint d) = Some (live_maps_to d) /\
  default_maps_to d <> live_maps_to d.
Proof.
  intros Hlen. unfold diff. rewrite list_elem_of_fmap. setoid_rewrite elem_of_filterb.
  assert (Hi : forall i p, (i, p) ∈ enumerate (zip table other) -> i <= U16_MAX /\ zget (zip table other) i = Some p).
  { intros i p H%elem_of_enumerate. split; [|done]. apply zget_Some in H as [H _]. unfold zlen in *.
    rewrite length_zip_with in H. unfold U16_MAX. lia. }
  split.
  - intros ((i & a & b) & -> & Hin & Hne). cbn in *. destruct (Hi _ _ Hin) as [Hle Hz].
    replace (i <=? U16_MAX) with true by lia. rewrite zget_zip in Hz.
    destruct (zget table i), (zget other i); try done. injection Hz as <- <-. split_and!; [done.. |]. lia.
  - destruct d as [i a b]. cbn. intros (Ha & Hb & Hne). exists (i, (a, b)). cbn.
    assert (Hin : (i, (a, b)) ∈ enumerate (zip table other)) by (apply elem_of_enumerate; by rewrite zget_zip, Ha, Hb).
    destruct (Hi _ _ Hin) as [Hle _]. replace (i <=? U16_MAX) with true by lia. split_and!; [done.. |]. lia.
Qed.
