(* ===== verification/Calendar.v ===== *)
(** NTFS time: [FILETIME] ticks and the calendar of [crates/uffs-time/src/lib.rs].

    The conversion is Howard Hinnant's algorithm on 64-bit integers; Rust's [/] truncates
    toward zero and [div_euclid] floors.  It is proved against a count of days by the
    Gregorian leap-year rule. *)
From S2P Require Import Prelude.
Local Open Scope Z_scope.
Local Open Scope rust_scope.

Definition FILETIME_TICKS_PER_SECOND : Z := 10000000.
Definition FILETIME_TICKS_PER_MICROSECOND : Z := 10.
Definition FILETIME_UNIX_DIFF : Z := 116444736000000000.

Record CalendarParts := mkCalendarParts {
  year : Z; month : Z; day : Z; hour : Z; minute : Z; second : Z
}.

(** The date of a day count since 0000-03-01; [as u32] and [as i32] are the wraps. *)
Definition civil_from_days (z : Z) : Z * Z * Z :=
  let era := (if 0 <=? z then z else z - 146096) ÷ 146097 in
  let doe := u32 (z - era * 146097) in
  let yoe := (doe - doe / 1460 + doe / 36524 - doe / 146096) / 365 in
  let y := yoe + era * 400 in
  let doy := doe - (365 * yoe + yoe / 4 - yoe / 100) in
  let mp := (5 * doy + 2) / 153 in
  let d := doy - (153 * mp + 2) / 5 + 1 in
  let m := if mp <? 10 then mp + 3 else mp - 9 in
  (i32 (if m <=? 2 then y + 1 else y), m, d).

Definition filetime_to_calendar (filetime : Z) : option CalendarParts :=
  if filetime =? 0 then None else
  let total_secs := filetime ÷ FILETIME_TICKS_PER_SECOND in
  let days_since_1601 := total_secs / 86400 in
  let day_secs := total_secs mod 86400 in
  let '(y, m, d) := civil_from_days (days_since_1601 + 584694) in
  Some (mkCalendarParts y m d (u32 (day_secs / 3600)) (u32 (day_secs mod 3600 / 60)) (u32 (day_secs mod 60))).

(** [None] is an overflow, which panics or wraps by the build. *)
Definition filetime_to_unix_micros (filetime : Z) : option Z :=
  if filetime =? 0 then Some 0 else
  let diff := filetime - FILETIME_UNIX_DIFF in
  if bool_decide (is_i64 diff) then Some (diff ÷ FILETIME_TICKS_PER_MICROSECOND) else None.

Definition filetime_with_tz_bias (filetime tz_bias_secs : Z) : option Z :=
  let t := filetime + tz_bias_secs * FILETIME_TICKS_PER_SECOND in
  if bool_decide (is_i64 t) then Some t else None.

(** [month_from_filetime] of the search filters: an unset time is in January. *)
Definition month_from_filetime (filetime : Z) : Z :=
  match filetime_to_calendar filetime with Some parts => month parts | None => 1 end.

(** * The calendar *)

Definition leap (y : Z) : bool := (y mod 4 =? 0) && (negb (y mod 100 =? 0) || (y mod 400 =? 0)).

Definition month_length (leap_year : bool) (m : Z) : Z :=
  match m with
  | 2 => if leap_year then 29 else 28
  | 4 | 6 | 9 | 11 => 30
  | _ => 31
  end.

(** Days before the first of January of year [y], from 0000-01-01. *)
Definition days_before_year (y : Z) : Z := 365 * y + (y + 3) / 4 - (y + 99) / 100 + (y + 399) / 400.

Fixpoint days_before_month (leap_year : bool) (months : nat) : Z :=
  match months with
  | O => 0
  | S n => days_before_month leap_year n + month_length leap_year (Z.of_nat (S n))
  end.

(** Days from 0000-01-01 to a date. *)
Definition days_of_date (y m d : Z) : Z :=
  days_before_year y + days_before_month (leap y) (Z.to_nat (m - 1)) + (d - 1).

Definition valid_date (y m d : Z) : Prop := 1 <= m <= 12 /\ 1 <= d <= month_length (leap y) m.

Ltac divs := Z.div_mod_to_equations; lia.

Lemma days_before_year_step y : days_before_year (y + 1) = days_before_year y + (if leap y then 366 else 365).
Proof.
  unfold days_before_year, leap.
  destruct (Z.eqb_spec (y mod 4) 0), (Z.eqb_spec (y mod 100) 0), (Z.eqb_spec (y mod 400) 0);
    cbn [andb orb negb]; divs.
Qed.

(** ** The year of an era *)

(** The estimate whose quotient by 365 is the year. *)
Definition year_estimate (doe : Z) : Z := doe - doe / 1460 + doe / 36524 - doe / 146096.

(** The first day of a year of the era, which starts in March; an era has 146097 days. *)
Definition year_start (yoe : Z) : Z := 365 * yoe + yoe / 4 - yoe / 100 + yoe / 400.

Lemma year_estimate_mono a b : 0 <= a <= b -> year_estimate a <= year_estimate b.
Proof.
  intros H. unfold year_estimate. change 146096 with (36524 * 4). rewrite <- !Z.div_div by lia.
  assert (a / 36524 <= b / 36524) by (apply Z.div_le_mono; lia). divs.
Qed.

Lemma year_estimates :
  forallb (fun yoe => (365 * yoe <=? year_estimate (year_start yoe)) &&
    (year_estimate (year_start (yoe + 1) - 1) <? 365 * (yoe + 1))) (seqZ 0 400) = true.
Proof. reflexivity. Qed.

Lemma year_covers (n : nat) doe :
  0 <= doe < year_start (Z.of_nat n) -> exists yoe, 0 <= yoe < Z.of_nat n /\ year_start yoe <= doe < year_start (yoe + 1).
Proof.
  induction n as [|n IH]; intros H; [change (year_start (Z.of_nat 0)) with 0 in H; lia |].
  destruct (Z.ltb_spec doe (year_start (Z.of_nat n))) as [Hlt | Hge].
  - destruct IH as (yoe & Hy & Hd); [lia |]. exists yoe. lia.
  - exists (Z.of_nat n). split; [lia |]. replace (Z.of_nat n + 1) with (Z.of_nat (S n)) by lia. lia.
Qed.

Lemma year_of_era doe :
  0 <= doe < 146097 ->
  let yoe := year_estimate doe / 365 in 0 <= yoe < 400 /\ year_start yoe <= doe < year_start (yoe + 1).
Proof.
  intros Hd. destruct (year_covers 400 doe) as (yoe & Hy & Hs); [by change (year_start (Z.of_nat 400)) with 146097 |].
  pose proof year_estimates as H. rewrite forallb_forall in H.
  specialize (H yoe). rewrite <- list_elem_of_In, elem_of_seqZ in H. specialize (H ltac:(lia)).
  assert (0 <= year_start yoe) by (unfold year_start; divs).
  pose proof (year_estimate_mono (year_start yoe) doe ltac:(lia)).
  pose proof (year_estimate_mono doe (year_start (yoe + 1) - 1) ltac:(lia)).
  assert (year_estimate doe / 365 = yoe) as -> by (symmetry; apply (Z.div_unique_pos _ _ _ (year_estimate doe - 365 * yoe)); lia).
  cbv zeta. lia.
Qed.

(** ** The date of a day of the year *)

Definition month_day (doy : Z) : Z * Z :=
  let mp := (5 * doy + 2) / 153 in (if mp <? 10 then mp + 3 else mp - 9, doy - (153 * mp + 2) / 5 + 1).

(** The date of the day [doy] after the first of March is in the same year, or in January
    or February of the next. *)
Definition month_day_ok (leap_year : bool) (doy : Z) : bool :=
  let '(m, d) := month_day doy in
  (1 <=? m) && (m <=? 12) && (1 <=? d) &&
  (if m <=? 2 then
     negb ((doy <? 365) || leap_year) ||
     ((d <=? month_length leap_year m) &&
      (days_before_month leap_year (Z.to_nat (m - 1)) + (d - 1) =? doy - 306))
   else
     (d <=? month_length leap_year m) &&
     (days_before_month leap_year (Z.to_nat (m - 1)) + (d - 1) =? 59 + (if leap_year then 1 else 0) + doy)).

Lemma month_days : forallb (fun doy => month_day_ok true doy && month_day_ok false doy) (seqZ 0 366) = true.
Proof. reflexivity. Qed.

Lemma month_day_spec l doy :
  0 <= doy <= 365 -> let '(m, d) := month_day doy in
  1 <= m <= 12 /\ 1 <= d /\
  (m <= 2 -> doy < 365 \/ l = true -> d <= month_length l m /\ days_before_month l (Z.to_nat (m - 1)) + (d - 1) = doy - 306) /\
  (2 < m -> d <= month_length l m /\
    days_before_month l (Z.to_nat (m - 1)) + (d - 1) = 59 + (if l then 1 else 0) + doy).
Proof.
  intros Hd. pose proof month_days as H. rewrite forallb_forall in H.
  specialize (H doy). rewrite <- list_elem_of_In, elem_of_seqZ in H. specialize (H ltac:(lia)).
  assert (Hl : month_day_ok l doy = true) by (apply andb_true_iff in H as [? ?]; by destruct l). clear H. unfold month_day_ok in Hl.
  destruct (month_day doy) as [m d]. destruct (Z.leb_spec m 2).
  - split_and!; [lia.. | | lia]. intros _ Hv. replace ((doy <? 365) || l) with true in Hl by (destruct Hv as [? | ->]; lia).
    cbn [negb orb] in Hl. lia.
  - split_and!; [lia.. |]. lia.
Qed.

Lemma leap_era y era : leap (y + 400 * era) = leap y.
Proof.
  unfold leap. replace ((y + 400 * era) mod 4) with (y mod 4) by divs.
  replace ((y + 400 * era) mod 100) with (y mod 100) by divs. by replace ((y + 400 * era) mod 400) with (y mod 400) by divs.
Qed.

Lemma year_start_step yoe : year_start (yoe + 1) = year_start yoe + (if leap (yoe + 1) then 366 else 365).
Proof.
  unfold year_start, leap.
  destruct (Z.eqb_spec ((yoe + 1) mod 4) 0), (Z.eqb_spec ((yoe + 1) mod 100) 0), (Z.eqb_spec ((yoe + 1) mod 400) 0);
    cbn [andb orb negb]; divs.
Qed.

(** The years before a year of an era. *)
Lemma days_before_era_year yoe era :
  0 <= yoe < 400 ->
  days_before_year (yoe + era * 400) + (if leap (yoe + era * 400) then 1 else 0) =
  146097 * era + year_start yoe + 1.
Proof.
  intros Hy. replace (yoe + era * 400) with (yoe + 400 * era) by lia. rewrite leap_era.
  assert (days_before_year (yoe + 400 * era) = days_before_year yoe + 146097 * era) as ->.
  { unfold days_before_year. divs. }
  unfold days_before_year, year_start, leap.
  destruct (Z.eqb_spec (yoe mod 4) 0), (Z.eqb_spec (yoe mod 100) 0), (Z.eqb_spec (yoe mod 400) 0);
    cbn [andb orb negb]; divs.
Qed.

(** The date is valid, and is [z] days after 0000-03-01. *)
Lemma civil_from_days_spec z :
  - 2 ^ 38 <= z < 2 ^ 38 -> let '(y, m, d) := civil_from_days z in
  valid_date y m d /\ days_of_date y m d = z + 60.
Proof.
  intros Hz. unfold civil_from_days. set (era := _ ÷ 146097).
  assert (He : era = z / 146097).
  { unfold era. destruct (Z.leb_spec 0 z).
    - by rewrite Z.quot_div_nonneg by lia.
    - apply (Z.div_unique_pos _ _ _ (z - 146097 * ((z - 146096) ÷ 146097))); [|lia].
      pose proof (Z.quot_rem' (z - 146096) 146097). pose proof (Z.rem_bound_pos_neg (z - 146096) 146097 ltac:(lia) ltac:(lia)). lia. }
  clearbody era. set (doe := z - era * 146097). assert (Hdoe : 0 <= doe < 146097) by (unfold doe; subst era; divs).
  rewrite (u32_small doe) by lia. fold (year_estimate doe).
  destruct (year_of_era doe Hdoe) as [Hy Hs]. set (yoe := year_estimate doe / 365) in *.
  rewrite year_start_step in Hs.
  replace (365 * yoe + yoe / 4 - yoe / 100) with (year_start yoe) by (unfold year_start; divs).
  set (doy := doe - year_start yoe).
  assert (Hdoy : 0 <= doy <= 365 /\ (doy < 365 \/ leap (yoe + 1) = true)).
  { unfold doy. destruct (leap (yoe + 1)); [split; [lia | by right] | lia]. }
  pose proof (days_before_era_year yoe era Hy) as Hb. set (y := yoe + era * 400) in *.
  assert (Hl1 : leap (y + 1) = leap (yoe + 1)) by (unfold y; rewrite <- (leap_era (yoe + 1) era); f_equal; lia).
  pose proof (month_day_spec (leap (y + 1)) doy ltac:(lia)) as H1.
  pose proof (month_day_spec (leap y) doy ltac:(lia)) as H2. unfold month_day in H1, H2.
  set (m := if _ <? 10 then _ else _) in *. set (d := doy - _ + 1) in *.
  assert (Hera : - 2 ^ 38 <= era < 2 ^ 38) by (subst era; divs).
  destruct (Z.leb_spec m 2).
  - rewrite i32_small by (unfold y; lia). destruct H1 as (Hm & Hd & H1 & _).
    unfold valid_date, days_of_date. rewrite days_before_year_step.
    destruct H1 as [Hd' Hday]; [done | destruct Hdoy as [_ [? | ?]]; [by left | right; congruence] |]. unfold doy, doe in *. destruct (leap y); lia.
  - rewrite i32_small by (unfold y; lia). destruct H2 as (Hm & Hd & _ & H2). destruct H2 as [Hd' Hday]; [done |].
    unfold valid_date, days_of_date. unfold doy, doe in *. lia.
Qed.

(** The calendar of a set timestamp is a valid Gregorian date and time of day, and it
    denotes the timestamp: the days since 1601-01-01 by the leap-year rule and the time of
    day are the whole seconds of its ticks, for every 64-bit value, before 1970 and before
    1601 too. *)
Theorem filetime_to_calendar_exact filetime :
  is_i64 filetime -> filetime <> 0 ->
  exists p, filetime_to_calendar filetime = Some p /\ valid_date (year p) (month p) (day p) /\
    0 <= hour p < 24 /\ 0 <= minute p < 60 /\ 0 <= second p < 60 /\
    (days_of_date (year p) (month p) (day p) - days_of_date 1601 1 1) * 86400 +
      hour p * 3600 + minute p * 60 + second p = filetime ÷ FILETIME_TICKS_PER_SECOND.
Proof.
  intros Hf Hne. unfold filetime_to_calendar. replace (filetime =? 0) with false by lia.
  set (secs := filetime ÷ FILETIME_TICKS_PER_SECOND).
  assert (Hs : - 2 ^ 63 <= secs < 2 ^ 63).
  { unfold secs, FILETIME_TICKS_PER_SECOND. Z.quot_rem_to_equations. lia. }
  pose proof (civil_from_days_spec (secs / 86400 + 584694)) as H.
  assert (Hr : - 2 ^ 38 <= secs / 86400 + 584694 < 2 ^ 38).
  { assert (Hq : - 2 ^ 40 <= secs < 2 ^ 40) by (unfold secs, FILETIME_TICKS_PER_SECOND; Z.quot_rem_to_equations; lia). divs. }
  specialize (H Hr). destruct (civil_from_days _) as [[y m] d]. destruct H as [Hv Hd].
  eexists. split; [reflexivity |]. cbn [year month day hour minute second].
  assert (Hm : 0 <= secs mod 86400 < 86400) by (apply Z.mod_pos_bound; lia).
  rewrite !u32_small by divs. split; [done |]. rewrite Hd. change (days_of_date 1601 1 1) with 584754.
  split_and!; divs.
Qed.

(** 2024-02-29 12:34:56, a leap day. *)
Lemma filetime_to_calendar_exact_witness :
  exists p, filetime_to_calendar 133536836960000000 = Some p /\ p = mkCalendarParts 2024 2 29 12 34 56.
Proof.
  destruct (filetime_to_calendar_exact 133536836960000000) as (p & E & _); [lia | done |].
  exists p. split; [exact E |]. vm_compute in E. by injection E as <-.
Defined.
