(* ===== verification/NtfsRecords.v ===== *)
(** NTFS file-record headers, the update-sequence fixup and the attribute
    iterator: [crates/uffs-mft/src/ntfs/records.rs]. *)
From S2P Require Import Prelude.

Definition FILE_RECORD_MAGIC : Z := 0x454C4946.
Definition SECTOR_SIZE : Z := 512.

(** * On-disk headers *)

Record MultiSectorHeader := {
  magic : Z; usa_offset : Z; usa_count : Z
}.

Definition is_file_record (h : MultiSectorHeader) : bool := h.(magic) =? FILE_RECORD_MAGIC.

(** [offset.checked_add(N)?] then [data.get(offset..end)?.try_into().ok()]. *)
Definition read_le_array (n : nat) (data : list Z) (offset : Z) : option (list Z) :=
  if offset + Z.of_nat n <? 2 ^ 64 then get_range data offset (offset + Z.of_nat n) else None.

Definition read_u8 (data : list Z) (offset : Z) : option Z := zget data offset.
Definition read_u16_le (data : list Z) (offset : Z) : option Z :=
  from_le_bytes <$> read_le_array 2 data offset.
Definition read_u32_le (data : list Z) (offset : Z) : option Z :=
  from_le_bytes <$> read_le_array 4 data offset.
Definition read_u64_le (data : list Z) (offset : Z) : option Z :=
  from_le_bytes <$> read_le_array 8 data offset.
Definition read_i64_le (data : list Z) (offset : Z) : option Z :=
  cast_signed <$> (from_le_bytes <$> read_le_array 8 data offset).

Definition parse_multi_sector_header (data : list Z) : option MultiSectorHeader :=
  let? m := read_u32_le data 0 in
  let? o := read_u16_le data 4 in
  let? c := read_u16_le data 6 in
  Some {| magic := m; usa_offset := o; usa_count := c |}.

Record AttributeRecordHeader := {
  type_code : Z; length_ : Z; is_non_resident_ : Z; name_length : Z;
  name_offset : Z; attr_flags : Z; instance : Z
}.

Record ResidentAttributeData := {
  value_length : Z; value_offset : Z; resident_flags : Z
}.

Record NonResidentAttributeData := {
  lowest_vcn : Z; highest_vcn : Z; mapping_pairs_offset : Z; compression_unit : Z;
  nr_reserved : list Z; allocated_size : Z; data_size : Z; initialized_size : Z
}.

Definition parse_attribute_record_header (data : list Z) : option AttributeRecordHeader :=
  let? tc := read_u32_le data 0 in
  let? len := read_u32_le data 4 in
  let? nr := read_u8 data 8 in
  let? nl := read_u8 data 9 in
  let? no := read_u16_le data 10 in
  let? fl := read_u16_le data 12 in
  let? ins := read_u16_le data 14 in
  Some {| type_code := tc; length_ := len; is_non_resident_ := nr; name_length := nl;
          name_offset := no; attr_flags := fl; instance := ins |}.

Definition parse_resident_attribute_data (data : list Z) : option ResidentAttributeData :=
  let? vl := read_u32_le data 0 in
  let? vo := read_u16_le data 4 in
  let? fl := read_u16_le data 6 in
  Some {| value_length := vl; value_offset := vo; resident_flags := fl |}.

Definition parse_non_resident_attribute_data (data : list Z) : option NonResidentAttributeData :=
  let? lo := read_i64_le data 0 in
  let? hi := read_i64_le data 8 in
  let? mp := read_u16_le data 16 in
  let? cu := read_u8 data 18 in
  let? rs := read_le_array 5 data 19 in
  let? al := read_i64_le data 24 in
  let? ds := read_i64_le data 32 in
  let? it := read_i64_le data 40 in
  Some {| lowest_vcn := lo; highest_vcn := hi; mapping_pairs_offset := mp;
          compression_unit := cu; nr_reserved := rs; allocated_size := al;
          data_size := ds; initialized_size := it |}.

Record FileRecordSegmentHeader := {
  multi_sector_header : MultiSectorHeader; log_file_sequence_number : Z;
  sequence_number : Z; link_count : Z; first_attribute_offset : Z; frs_flags : Z;
  bytes_in_use : Z; bytes_allocated : Z; base_file_record_segment : Z;
  next_attribute_number : Z; frs_reserved : Z; segment_number_lower : Z
}.

Definition parse_file_record_segment_header (data : list Z) : option FileRecordSegmentHeader :=
  let? h := parse_multi_sector_header data in
  let? lsn := read_u64_le data 8 in
  let? sn := read_u16_le data 16 in
  let? lc := read_u16_le data 18 in
  let? fa := read_u16_le data 20 in
  let? fl := read_u16_le data 22 in
  let? bu := read_u32_le data 24 in
  let? ba := read_u32_le data 28 in
  let? bf := read_u64_le data 32 in
  let? na := read_u16_le data 40 in
  let? rs := read_u16_le data 42 in
  let? sl := read_u32_le data 44 in
  Some {| multi_sector_header := h; log_file_sequence_number := lsn; sequence_number := sn;
          link_count := lc; first_attribute_offset := fa; frs_flags := fl; bytes_in_use := bu;
          bytes_allocated := ba; base_file_record_segment := bf; next_attribute_number := na;
          frs_reserved := rs; segment_number_lower := sl |}.

Definition is_in_use (h : FileRecordSegmentHeader) : bool := negb (Z.land h.(frs_flags) 1 =? 0).
Definition is_directory_record (h : FileRecordSegmentHeader) : bool :=
  negb (Z.land h.(frs_flags) 2 =? 0).
Definition is_base_record (h : FileRecordSegmentHeader) : bool :=
  h.(base_file_record_segment) =? 0.

(** * Update-sequence fixup *)

(** The [for sector_idx in 1..usa_count] loop: [n] iterations from [sector_idx];
    a [break] returns the buffer and the flag as they are. *)
Fixpoint usa_fixup_loop (n : nat) (sector_idx usa_off check_value : Z)
    (buffer : list Z) (res : bool) : list Z * bool :=
  match n with
  | O => (buffer, res)
  | S n =>
      let sector_end_offset := sector_idx * SECTOR_SIZE - 2 in
      let usa_entry_offset := usa_off + sector_idx * 2 in
      match get_range buffer usa_entry_offset (usa_entry_offset + 2) with
      | None => (buffer, res)
      | Some replacement =>
          match get_range buffer sector_end_offset (sector_end_offset + 2) with
          | None => (buffer, res)
          | Some sector_arr =>
              let res := if from_le_bytes sector_arr =? check_value then res else false in
              usa_fixup_loop n (sector_idx + 1) usa_off check_value
                (put_range buffer sector_end_offset replacement) res
          end
      end
  end.

Definition apply_usa_fixup (buffer : list Z) (usa_off usa_cnt : Z) : list Z * bool :=
  if usa_cnt <? 1 then (buffer, false) else
  match get_range buffer usa_off (usa_off + 2) with
  | None => (buffer, false)
  | Some check_bytes =>
      usa_fixup_loop (Z.to_nat (usa_cnt - 1)) 1 usa_off (from_le_bytes check_bytes) buffer true
  end.

Definition fixup_file_record (buffer : list Z) : list Z * bool :=
  if zlen buffer <? 8 then (buffer, false) else
  match parse_multi_sector_header buffer with
  | None => (buffer, false)
  | Some header =>
      if is_file_record header
      then apply_usa_fixup buffer header.(usa_offset) header.(usa_count)
      else (buffer, false)
  end.

(** ** What the fixup does

    [usa_source off lo hi p] is the position a byte of the fixed-up record
    comes from: the two trailing bytes of sector [i], [lo <= i < hi], come from
    entry [i] of the update sequence array, every other byte stays. *)

Definition trailer_sector (p : Z) : Z := (p + 2) / SECTOR_SIZE.
Definition in_trailer (lo hi p : Z) : bool :=
  ((p + 2) mod SECTOR_SIZE <? 2) && (lo <=? trailer_sector p) && (trailer_sector p <? hi).
Definition usa_source (off lo hi p : Z) : Z :=
  if in_trailer lo hi p then off + 2 * trailer_sector p + (p + 2) mod SECTOR_SIZE else p.

(** The trailer of sector [i] carries the check value. *)
Definition trailer_ok (buffer : list Z) (check_value i : Z) : bool :=
  match get_range buffer (i * SECTOR_SIZE - 2) (i * SECTOR_SIZE - 2 + 2) with
  | Some t => from_le_bytes t =? check_value
  | None => false
  end.

Fixpoint trailers_ok (n : nat) (lo check_value : Z) (buffer : list Z) : bool :=
  match n with
  | O => true
  | S n => trailer_ok buffer check_value lo && trailers_ok n (lo + 1) check_value buffer
  end.

Lemma trailer_iff lo hi p :
  in_trailer lo hi p = true <->
  exists i j, lo <= i < hi /\ 0 <= j < 2 /\ p = i * SECTOR_SIZE - 2 + j.
Proof.
  unfold in_trailer, trailer_sector, SECTOR_SIZE. rewrite !andb_true_iff. split.
  - intros [[H1 H2] H3]. exists ((p + 2) / 512), ((p + 2) mod 512).
    pose proof (Z.div_mod (p + 2) 512). pose proof (Z.mod_pos_bound (p + 2) 512). lia.
  - intros (i & j & Hi & Hj & ->).
    replace (i * 512 - 2 + j + 2) with (j + i * 512) by lia.
    rewrite Z.mod_add, Z.div_add, Z.mod_small, Z.div_small by lia. lia.
Qed.

Lemma usa_source_trailer off lo hi i j :
  lo <= i < hi -> 0 <= j < 2 ->
  usa_source off lo hi (i * SECTOR_SIZE - 2 + j) = off + 2 * i + j.
Proof.
  intros Hi Hj. unfold usa_source.
  replace (in_trailer lo hi (i * SECTOR_SIZE - 2 + j)) with true
    by (symmetry; apply trailer_iff; eauto).
  unfold trailer_sector, SECTOR_SIZE.
  replace (i * 512 - 2 + j + 2) with (j + i * 512) by lia.
  rewrite Z.mod_add, Z.div_add, Z.mod_small, Z.div_small by lia. lia.
Qed.

Lemma usa_source_other off lo hi p : in_trailer lo hi p = false -> usa_source off lo hi p = p.
Proof. intros H. unfold usa_source. by rewrite H. Qed.

(** Unrolling one sector. *)
Lemma usa_source_step off lo hi p :
  lo < hi -> 0 <= off -> off + 2 * hi <= 510 -> 1 <= lo ->
  usa_source off lo hi p =
    if (lo * SECTOR_SIZE - 2 <=? p) && (p <? lo * SECTOR_SIZE - 2 + 2)
    then off + 2 * lo + (p - (lo * SECTOR_SIZE - 2))
    else usa_source off (lo + 1) hi p.
Proof.
  intros Hlt Hoff Hlow Hlo.
  destruct ((lo * SECTOR_SIZE - 2 <=? p) && (p <? lo * SECTOR_SIZE - 2 + 2)) eqn:E.
  - replace p with (lo * SECTOR_SIZE - 2 + (p - (lo * SECTOR_SIZE - 2))) at 1 by lia.
    apply usa_source_trailer; lia.
  - destruct (in_trailer (lo + 1) hi p) eqn:E2.
    + apply trailer_iff in E2 as (i & j & Hi & Hj & ->).
      rewrite !usa_source_trailer by lia. done.
    + rewrite (usa_source_other _ (lo + 1)) by done. apply usa_source_other.
      apply not_true_iff_false. intros (i & j & Hi & Hj & ->)%trailer_iff.
      apply not_true_iff_false in E2. apply E2. apply trailer_iff. exists i, j.
      unfold SECTOR_SIZE in *. lia.
Qed.

Lemma trailers_ok_spec n lo check_value buffer :
  trailers_ok n lo check_value buffer = true <->
  forall i, lo <= i < lo + Z.of_nat n -> trailer_ok buffer check_value i = true.
Proof.
  revert lo. induction n as [|n IH]; intros lo; cbn [trailers_ok].
  - split; [intros; lia | done].
  - rewrite andb_true_iff, IH. split.
    + intros [H1 H2] i Hi. destruct (Z.eq_dec i lo) as [-> |]; [done |]. apply H2. lia.
    + intros H. split; intros; apply H; lia.
Qed.

Lemma trailers_ok_ext n lo check_value b1 b2 :
  zlen b1 = zlen b2 -> (forall p, lo * SECTOR_SIZE - 2 <= p -> zget b1 p = zget b2 p) ->
  trailers_ok n lo check_value b1 = trailers_ok n lo check_value b2.
Proof.
  intros Hlen. revert lo. induction n as [|n IH]; intros lo H; cbn; [done |].
  f_equal.
  - unfold trailer_ok. rewrite (get_range_ext b1 b2); [done | done |].
    intros p Hp. apply H. lia.
  - apply IH. intros p Hp. apply H. unfold SECTOR_SIZE in *. lia.
Qed.

(** The loop invariant of [apply_usa_fixup]. *)
Lemma usa_fixup_loop_spec n lo off check_value buffer res :
  1 <= lo -> 0 <= off -> off + 2 * (lo + Z.of_nat n) <= 510 ->
  (lo + Z.of_nat n - 1) * SECTOR_SIZE <= zlen buffer -> 510 <= zlen buffer ->
  exists b', usa_fixup_loop n lo off check_value buffer res
               = (b', res && trailers_ok n lo check_value buffer) /\
    zlen b' = zlen buffer /\
    forall p, zget b' p = zget buffer (usa_source off lo (lo + Z.of_nat n) p).
Proof.
  unfold SECTOR_SIZE.
  revert lo buffer res. induction n as [|n IH]; intros lo buffer res Hlo Hoff Hlow Hlen H510.
  - exists buffer. cbn. rewrite andb_true_r. split_and?; try done.
    intros p. rewrite usa_source_other; [done |].
    apply not_true_iff_false. intros (i & j & Hi & _)%trailer_iff. lia.
  - cbn [usa_fixup_loop trailers_ok]. unfold trailer_ok, SECTOR_SIZE.
    destruct (get_range_2 buffer (off + lo * 2)) as (x & y & -> & Hx & Hy); [lia | lia |].
    destruct (get_range_2 buffer (lo * 512 - 2)) as (t & u & -> & _ & _); [lia | lia |].
    set (buf1 := put_range buffer (lo * 512 - 2) [x; y]).
    assert (Hget : forall p, zget buf1 p = if (lo * 512 - 2 <=? p) && (p <? lo * 512 - 2 + 2)
                                           then zget [x; y] (p - (lo * 512 - 2)) else zget buffer p).
    { intros p. apply zget_put_range; rewrite ?zlen_cons, ?zlen_nil; lia. }
    assert (Hlen1 : zlen buf1 = zlen buffer) by (apply zlen_put_range; zlia).
    edestruct (IH (lo + 1) buf1) as (b' & Hl & Hlen' & Hp); [lia .. |].
    exists b'. rewrite Hl. split_and?.
    + f_equal. rewrite (trailers_ok_ext n (lo + 1) check_value buf1 buffer); [| done |].
      * destruct (from_le_bytes [t; u] =? check_value), res; done.
      * unfold SECTOR_SIZE. intros p Hpge. rewrite Hget. zcases; cbn; try done; lia.
    + lia.
    + intros p. rewrite Hp. replace (lo + 1 + Z.of_nat n) with (lo + Z.of_nat (S n)) by lia.
      rewrite (usa_source_step off lo (lo + Z.of_nat (S n))), Hget by lia. unfold SECTOR_SIZE.
      destruct ((lo * 512 - 2 <=? p) && (p <? lo * 512 - 2 + 2)) eqn:E.
      * rewrite usa_source_other.
        2: { apply not_true_iff_false. intros (i & j & Hi & Hj & ->)%trailer_iff.
             unfold SECTOR_SIZE in *. lia. }
        rewrite E.
        assert (p = lo * 512 - 2 \/ p = lo * 512 - 2 + 1) as [-> | ->] by lia.
        -- rewrite Z.sub_diag. change (zget [x; y] 0) with (Some x). rewrite <- Hx. f_equal. lia.
        -- replace (lo * 512 - 2 + 1 - (lo * 512 - 2)) with 1 by lia.
           change (zget [x; y] 1) with (Some y).
           rewrite <- Hy. f_equal. lia.
      * destruct (in_trailer (lo + 1) (lo + Z.of_nat (S n)) p) eqn:E2.
        -- apply trailer_iff in E2 as (i & j & Hi & Hj & ->).
           rewrite usa_source_trailer by lia. zcases; cbn; try done; lia.
        -- rewrite usa_source_other by done. by rewrite E.
Qed.

(** The writer's side of the update sequence: the trailer of every sector moves
    into the array, the check value [c0 c1] takes its place. *)
Definition usa_protect_cell (r : list Z) (off cnt c0 c1 p : Z) : Z :=
  if (off <=? p) && (p <? off + 2 * cnt) then
    if p <? off + 2 then (if p =? off then c0 else c1)
    else default 0 (zget r ((p - off) / 2 * SECTOR_SIZE - 2 + (p - off) mod 2))
  else if in_trailer 1 cnt p then (if (p + 2) mod SECTOR_SIZE =? 0 then c0 else c1)
  else default 0 (zget r p).

Definition usa_protect (r : list Z) (off cnt c0 c1 : Z) : list Z :=
  tabulate (zlen r) (usa_protect_cell r off cnt c0 c1).

(** The geometry of a record the fixup is specified on: the array ends before
    the first trailer and the sectors fill the buffer. *)
Definition usa_geometry (buffer : list Z) (off cnt : Z) : Prop :=
  1 <= cnt /\ 0 <= off /\ off + 2 * cnt <= 510 /\
  (cnt - 1) * SECTOR_SIZE <= zlen buffer /\ 510 <= zlen buffer.

Lemma apply_usa_fixup_spec buffer off cnt :
  usa_geometry buffer off cnt ->
  exists b' c0 c1, zget buffer off = Some c0 /\ zget buffer (off + 1) = Some c1 /\
    apply_usa_fixup buffer off cnt
      = (b', trailers_ok (Z.to_nat (cnt - 1)) 1 (c0 + 256 * c1) buffer) /\
    zlen b' = zlen buffer /\
    forall p, zget b' p = zget buffer (usa_source off 1 cnt p).
Proof.
  intros (Hc & Ho & Hl & Hb & H5). unfold apply_usa_fixup.
  replace (cnt <? 1) with false by lia.
  destruct (get_range_2 buffer off) as (c0 & c1 & -> & H0 & H1); [lia .. |].
  edestruct (usa_fixup_loop_spec (Z.to_nat (cnt - 1)) 1 off (from_le_bytes [c0; c1]) buffer true)
    as (b' & -> & Hlen & Hp); [lia .. |].
  exists b', c0, c1. cbn [andb from_le_bytes].
  replace (c0 + 256 * (c1 + 256 * 0)) with (c0 + 256 * c1) by lia.
  split_and!; try done. intros p. rewrite Hp. do 2 f_equal. lia.
Qed.

Lemma zget_usa_protect r off cnt c0 c1 p :
  0 <= p < zlen r ->
  zget (usa_protect r off cnt c0 c1) p = Some (usa_protect_cell r off cnt c0 c1 p).
Proof. apply zget_tabulate. Qed.

(** Protected trailers all carry the check value. *)
Lemma usa_protect_trailers r off cnt c0 c1 :
  usa_geometry r off cnt ->
  trailers_ok (Z.to_nat (cnt - 1)) 1 (c0 + 256 * c1) (usa_protect r off cnt c0 c1) = true.
Proof.
  intros (Hc & Ho & Hl & Hb & H5). apply trailers_ok_spec. intros i Hi.
  unfold trailer_ok, SECTOR_SIZE in *.
  destruct (get_range_2 (usa_protect r off cnt c0 c1) (i * 512 - 2)) as (x & y & -> & Hx & Hy);
    [lia | unfold usa_protect; rewrite zlen_tabulate; lia |].
  rewrite zget_usa_protect in Hx, Hy by lia.
  assert (Hcell : forall j, 0 <= j < 2 ->
    usa_protect_cell r off cnt c0 c1 (i * 512 - 2 + j) = if j =? 0 then c0 else c1).
  { intros j Hj. unfold usa_protect_cell, SECTOR_SIZE.
    replace ((off <=? i * 512 - 2 + j) && (i * 512 - 2 + j <? off + 2 * cnt)) with false by lia.
    replace (in_trailer 1 cnt (i * 512 - 2 + j)) with true.
    2: { symmetry. apply trailer_iff. exists i, j. unfold SECTOR_SIZE. lia. }
    replace (i * 512 - 2 + j + 2) with (j + i * 512) by lia.
    rewrite Z.mod_add, Z.mod_small by lia. done. }
  pose proof (Hcell 0 ltac:(lia)) as H0. rewrite Z.add_0_r in H0.
  rewrite H0 in Hx. rewrite (Hcell 1) in Hy by lia. cbn in *.
  injection Hx as <-. injection Hy as <-. lia.
Qed.

(** The first entry of the array is the check value. *)
Lemma usa_protect_check_cells r off cnt c0 c1 :
  1 <= cnt -> usa_protect_cell r off cnt c0 c1 off = c0 /\
              usa_protect_cell r off cnt c0 c1 (off + 1) = c1.
Proof.
  intros H. unfold usa_protect_cell. split.
  - replace ((off <=? off) && (off <? off + 2 * cnt)) with true by lia.
    replace (off <? off + 2) with true by lia. by rewrite Z.eqb_refl.
  - replace ((off <=? off + 1) && (off + 1 <? off + 2 * cnt)) with true by lia.
    replace (off + 1 <? off + 2) with true by lia.
    by replace (off + 1 =? off) with false by lia.
Qed.

(** Reading a protected record through [usa_source] gives the record back. *)
Lemma usa_protect_source r off cnt c0 c1 p :
  usa_geometry r off cnt -> ~ (off <= p < off + 2 * cnt) ->
  zget (usa_protect r off cnt c0 c1) (usa_source off 1 cnt p) = zget r p.
Proof.
  intros (Hc & Ho & Hl & Hb & H5) Hp. unfold SECTOR_SIZE in Hb.
  destruct (decide (0 <= p < zlen r)) as [Hin |].
  2: { rewrite usa_source_other; [rewrite !(proj2 (zget_None _ _)); [done | lia |] |].
       - unfold usa_protect. rewrite zlen_tabulate; lia.
       - apply not_true_iff_false. intros (i & j & Hi & Hj & ->)%trailer_iff.
         unfold SECTOR_SIZE in *. lia. }
  destruct (zget_is_Some r p Hin) as [x Hx]. rewrite Hx.
  destruct (in_trailer 1 cnt p) eqn:E.
  - apply trailer_iff in E as (i & j & Hi & Hj & ->).
    rewrite (usa_source_trailer off 1 cnt i j), zget_usa_protect by (unfold SECTOR_SIZE in *; lia).
    f_equal. unfold usa_protect_cell.
    replace ((off <=? off + 2 * i + j) && (off + 2 * i + j <? off + 2 * cnt)) with true by lia.
    replace (off + 2 * i + j <? off + 2) with false by lia.
    replace (off + 2 * i + j - off) with (j + i * 2) by lia.
    rewrite Z.mod_add, Z.div_add, Z.mod_small, Z.div_small by lia.
    by rewrite Z.add_0_l, Hx.
  - rewrite usa_source_other, zget_usa_protect by done. f_equal.
    unfold usa_protect_cell. rewrite E.
    replace ((off <=? p) && (p <? off + 2 * cnt)) with false by lia. by rewrite Hx.
Qed.

(** * Attributes *)

Inductive AttributeType : Type :=
| StandardInformation | AttributeList | FileName | ObjectId | SecurityDescriptor
| VolumeName | VolumeInformation | Data | IndexRoot | IndexAllocation | Bitmap
| ReparsePoint | EaInformation | Ea | PropertySet | LoggedUtilityStream | End.

#[export] Instance AttributeType_eq_dec : EqDecision AttributeType.
Proof. solve_decision. Defined.

(** The [#[repr(u32)]] discriminants. *)
Definition attribute_type_repr (t : AttributeType) : Z :=
  match t with
  | StandardInformation => 0x10 | AttributeList => 0x20 | FileName => 0x30
  | ObjectId => 0x40 | SecurityDescriptor => 0x50 | VolumeName => 0x60
  | VolumeInformation => 0x70 | Data => 0x80 | IndexRoot => 0x90
  | IndexAllocation => 0xA0 | Bitmap => 0xB0 | ReparsePoint => 0xC0
  | EaInformation => 0xD0 | Ea => 0xE0 | PropertySet => 0xF0
  | LoggedUtilityStream => 0x100 | End => 0xFFFFFFFF
  end.

Definition attribute_type_from_u32 (value : Z) : option AttributeType :=
  if value =? 0x10 then Some StandardInformation
  else if value =? 0x20 then Some AttributeList
  else if value =? 0x30 then Some FileName
  else if value =? 0x40 then Some ObjectId
  else if value =? 0x50 then Some SecurityDescriptor
  else if value =? 0x60 then Some VolumeName
  else if value =? 0x70 then Some VolumeInformation
  else if value =? 0x80 then Some Data
  else if value =? 0x90 then Some IndexRoot
  else if value =? 0xA0 then Some IndexAllocation
  else if value =? 0xB0 then Some Bitmap
  else if value =? 0xC0 then Some ReparsePoint
  else if value =? 0xD0 then Some EaInformation
  else if value =? 0xE0 then Some Ea
  else if value =? 0xF0 then Some PropertySet
  else if value =? 0x100 then Some LoggedUtilityStream
  else if value =? 0xFFFFFFFF then Some End
  else None.

Record AttributeIterator := {
  it_data : list Z; it_offset : Z; it_max_offset : Z
}.

Definition AttributeIterator_new (rec : list Z) : option AttributeIterator :=
  if zlen rec <? 48 then None else
  let? header := parse_file_record_segment_header rec in
  if negb (is_file_record header.(multi_sector_header)) then None else
  let first_attr := header.(first_attribute_offset) in
  let bytes_in_use := header.(bytes_in_use) in
  if (first_attr >=? zlen rec) || (bytes_in_use >? zlen rec) then None else
  Some {| it_data := rec; it_offset := first_attr; it_max_offset := bytes_in_use |}.

Record AttributeRef := {
  ar_data : list Z; ar_header : AttributeRecordHeader
}.

Definition is_non_resident (a : AttributeRef) : bool := negb (a.(ar_header).(is_non_resident_) =? 0).

Definition attribute_type (a : AttributeRef) : option AttributeType :=
  attribute_type_from_u32 a.(ar_header).(type_code).

Definition resident_value (a : AttributeRef) : option (list Z) :=
  if is_non_resident a then None else
  let? resident_slice := get_range a.(ar_data) 16 (16 + 8) in
  let? resident := parse_resident_attribute_data resident_slice in
  get_range a.(ar_data) resident.(value_offset) (resident.(value_offset) + resident.(value_length)).

Definition non_resident_data (a : AttributeRef) : option NonResidentAttributeData :=
  if negb (is_non_resident a) then None else
  let? nr_slice := get_range a.(ar_data) 16 (16 + 48) in
  parse_non_resident_attribute_data nr_slice.

Definition is_unnamed (a : AttributeRef) : bool := a.(ar_header).(name_length) =? 0.

(** [as_chunks::<2>().0]: whole two-byte chunks, a trailing byte is dropped. *)
Fixpoint utf16_units (bs : list Z) : list Z :=
  match bs with
  | x :: y :: bs => from_le_bytes [x; y] :: utf16_units bs
  | _ => []
  end.

Definition attribute_name (a : AttributeRef) : option (list Z) :=
  if a.(ar_header).(name_length) =? 0 then None else
  let off := a.(ar_header).(name_offset) in
  let name_byte_len := a.(ar_header).(name_length) * 2 in
  utf16_units <$> get_range a.(ar_data) off (off + name_byte_len).

(** [AttributeIterator::next]: the attribute, if any, and the new iterator. *)
Definition AttributeIterator_next (it : AttributeIterator)
    : option AttributeRef * AttributeIterator :=
  match get_range it.(it_data) it.(it_offset) (it.(it_offset) + 16) with
  | None => (None, it)
  | Some header_slice =>
      if it.(it_offset) + 16 >? it.(it_max_offset) then (None, it) else
      match parse_attribute_record_header header_slice with
      | None => (None, it)
      | Some header =>
          if header.(type_code) =? 0xFFFFFFFF then (None, it) else
          let length := header.(length_) in
          if (length <? 16) || (it.(it_offset) + length >? it.(it_max_offset)) then (None, it) else
          match get_range it.(it_data) it.(it_offset) (it.(it_offset) + length) with
          | None => (None, it)
          | Some attr_data =>
              (Some {| ar_data := attr_data; ar_header := header |},
               {| it_data := it.(it_data); it_offset := it.(it_offset) + length;
                  it_max_offset := it.(it_max_offset) |})
          end
      end
  end.

(** [iter.collect()]; [None] when the fuel runs out first. *)
Fixpoint collect_attributes (fuel : nat) (it : AttributeIterator) : option (list AttributeRef) :=
  match fuel with
  | O => None
  | S fuel =>
      match AttributeIterator_next it with
      | (None, _) => Some []
      | (Some a, it') => cons a <$> collect_attributes fuel it'
      end
  end.

(** All attributes of a record, with fuel for one attribute per byte. *)
Definition record_attributes (rec : list Z) : option (list AttributeRef) :=
  let? it := AttributeIterator_new rec in
  collect_attributes (S (length rec)) it.

(** ** Lemmas on the attribute iterator *)

Lemma read_le_array_app n p q off s :
  read_le_array n p off = Some s -> read_le_array n (p ++ q) off = Some s.
Proof.
  unfold read_le_array. destruct (_ <? _); [|done]. intros H.
  rewrite get_range_app_l; [done |]. apply get_range_Some in H. lia.
Qed.

(** A successful header parse reads the first sixteen bytes only. *)
Lemma parse_attribute_record_header_app p q h :
  parse_attribute_record_header p = Some h -> parse_attribute_record_header (p ++ q) = Some h.
Proof.
  unfold parse_attribute_record_header, read_u8, read_u16_le, read_u32_le.
  intros H.
  repeat match type of H with
  | context [read_le_array ?n p ?o] =>
      destruct (read_le_array n p o) eqn:?E; [|discriminate H]
  | context [zget p ?o] => destruct (zget p o) eqn:?E; [|discriminate H]
  end.
  repeat match goal with
  | E : read_le_array _ p _ = Some _ |- _ => rewrite (read_le_array_app _ _ q _ _ E); clear E
  | E : zget p _ = Some _ |- _ => rewrite (zget_app_Some _ q _ _ E); clear E
  end. done.
Qed.

(** The well-formed attribute: its own header describes it. *)
Definition attr_wf (a : AttributeRef) : Prop :=
  parse_attribute_record_header a.(ar_data) = Some a.(ar_header) /\
  a.(ar_header).(length_) = zlen a.(ar_data) /\
  16 <= zlen a.(ar_data) /\
  a.(ar_header).(type_code) <> 0xFFFFFFFF.

Lemma next_Some it a it' :
  AttributeIterator_next it = (Some a, it') ->
  attr_wf a /\
  get_range it.(it_data) it.(it_offset) it'.(it_offset) = Some a.(ar_data) /\
  it'.(it_offset) = it.(it_offset) + zlen a.(ar_data) /\
  it'.(it_offset) <= it.(it_max_offset) /\
  it'.(it_data) = it.(it_data) /\ it'.(it_max_offset) = it.(it_max_offset).
Proof.
  unfold AttributeIterator_next. intros H.
  destruct (get_range _ _ (_ + 16)) as [hs |] eqn:Eh; [|done].
  destruct (Z.gtb_spec (it_offset it + 16) (it_max_offset it)); [done |].
  destruct (parse_attribute_record_header hs) as [h |] eqn:Ep; [|done].
  destruct (Z.eqb_spec (type_code h) 0xFFFFFFFF); [done |].
  destruct (_ || _) eqn:Eo; [done |].
  destruct (get_range _ _ (_ + length_ h)) as [d |] eqn:Ed; [|done].
  injection H as <- <-. cbn.
  apply orb_false_iff in Eo as [Eo1 Eo2].
  pose proof (get_range_len _ _ _ _ Ed) as Hd.
  assert (16 <= length_ h) by lia.
  destruct (get_range_split _ _ _ (it_offset it + 16) _ Ed) as (s1 & s2 & -> & E1 & _); [lia |].
  rewrite Eh in E1. injection E1 as ->.
  split_and!; try done; try lia.
  split_and!; cbn; try lia; try done. by apply parse_attribute_record_header_app.
Qed.

(** Termination: fuel above the bytes left is enough. *)
Lemma collect_attributes_total fuel it :
  Z.max 0 (zlen it.(it_data) - it.(it_offset)) < Z.of_nat fuel ->
  is_Some (collect_attributes fuel it).
Proof.
  revert it. induction fuel as [|fuel IH]; intros it Hf; [lia |]. cbn.
  destruct (AttributeIterator_next it) as [[a |] it'] eqn:E; [|eauto].
  apply next_Some in E as (Hwf & Hr & Ho & _ & Hdata & _).
  destruct Hwf as (_ & _ & H16 & _).
  pose proof Hr as (? & ? & _)%get_range_Some.
  destruct (IH it') as [l ->]; [rewrite Hdata; lia | eauto].
Qed.

(** The attributes found tile the record from the first offset on. *)
Lemma collect_attributes_tile fuel it attrs :
  it.(it_offset) <= it.(it_max_offset) -> 0 <= it.(it_offset) <= zlen it.(it_data) ->
  collect_attributes fuel it = Some attrs ->
  Forall attr_wf attrs /\
  get_range it.(it_data) it.(it_offset)
    (it.(it_offset) + zlen (concat (map ar_data attrs))) = Some (concat (map ar_data attrs)) /\
  it.(it_offset) + zlen (concat (map ar_data attrs)) <= it.(it_max_offset).
Proof.
  revert it attrs. induction fuel as [|fuel IH]; intros it attrs Hm Ho H; [done |]. cbn in H.
  destruct (AttributeIterator_next it) as [[a |] it'] eqn:E.
  - destruct (collect_attributes fuel it') as [as' |] eqn:Ec; [|done]. injection H as <-.
    apply next_Some in E as (Hwf & Hr & Hoff & Hmax & Hdata & Hmax').
    pose proof Hr as (? & ? & _)%get_range_Some.
    destruct (IH it' as') as (Hall & Hr' & Hm'); [rewrite Hmax'; lia | rewrite Hdata; lia | done |].
    rewrite Hdata in Hr'. rewrite Hmax' in Hm'. cbn [map concat]. rewrite zlen_app.
    split_and!; [by constructor | | lia].
    eapply get_range_join; [exact Hr |]. rewrite <- Hr'. f_equal. lia.
  - injection H as <-. cbn. rewrite Z.add_0_r. split_and!; [constructor | | lia].
    apply get_range_Some. rewrite Z.sub_diag. split_and!; try lia. done.
Qed.

Lemma read_le_array_is_Some n s off :
  0 <= off -> off + Z.of_nat n <= zlen s -> zlen s < 2 ^ 64 -> is_Some (read_le_array n s off).
Proof.
  intros H1 H2 H3. unfold read_le_array. replace (_ <? _) with true by lia.
  rewrite get_range_intro by lia. eauto.
Qed.

Lemma parse_attribute_record_header_is_Some s :
  zlen s = 16 -> is_Some (parse_attribute_record_header s).
Proof.
  intros H. unfold parse_attribute_record_header, read_u8, read_u16_le, read_u32_le.
  repeat match goal with
  | |- context [read_le_array ?n s ?o] =>
      destruct (read_le_array_is_Some n s o) as [? ->]; [lia .. |]
  | |- context [zget s ?o] => destruct (zget_is_Some s o) as [? ->]; [lia |]
  end. cbn. eauto.
Qed.

(** The header slice of a well-formed attribute parses to its header. *)
Lemma attr_wf_header_slice a s1 s2 :
  attr_wf a -> ar_data a = s1 ++ s2 -> zlen s1 = 16 ->
  parse_attribute_record_header s1 = Some (ar_header a).
Proof.
  intros (Hp & _) Hd H16.
  destruct (parse_attribute_record_header_is_Some s1 H16) as [h Hh]. rewrite Hh.
  apply (parse_attribute_record_header_app s1 s2) in Hh. rewrite <- Hd in Hh. congruence.
Qed.

Lemma next_exact p a q m :
  attr_wf a -> zlen p + zlen (ar_data a) <= m ->
  AttributeIterator_next {| it_data := p ++ ar_data a ++ q; it_offset := zlen p; it_max_offset := m |}
  = (Some a, {| it_data := p ++ ar_data a ++ q; it_offset := zlen p + zlen (ar_data a);
               it_max_offset := m |}).
Proof.
  intros Hwf Hm. pose proof Hwf as (_ & Hlen & H16 & Hend).
  unfold AttributeIterator_next. cbn [it_data it_offset it_max_offset].
  assert (Hd : get_range (p ++ ar_data a ++ q) (zlen p) (zlen p + zlen (ar_data a))
               = Some (ar_data a)) by by apply get_range_mid.
  destruct (get_range_split _ _ _ (zlen p + 16) _ Hd) as (s1 & s2 & Es & E1 & _); [lia |].
  rewrite E1. replace (zlen p + 16 >? m) with false by lia.
  rewrite (attr_wf_header_slice a s1 s2 Hwf Es)
    by (rewrite (get_range_len _ _ _ _ E1); lia).
  replace (type_code (ar_header a) =? 0xFFFFFFFF) with false by lia.
  rewrite Hlen. replace ((zlen (ar_data a) <? 16) || _) with false by lia.
  rewrite Hd. by destruct a.
Qed.

Lemma next_end_marker p q m :
  AttributeIterator_next {| it_data := p ++ [255; 255; 255; 255] ++ q; it_offset := zlen p;
                            it_max_offset := m |}
  = (None, {| it_data := p ++ [255; 255; 255; 255] ++ q; it_offset := zlen p; it_max_offset := m |}).
Proof.
  unfold AttributeIterator_next. cbn [it_data it_offset it_max_offset].
  destruct (get_range _ _ (_ + 16)) as [s |] eqn:Es; [|done].
  destruct (_ >? _); [done |].
  destruct (parse_attribute_record_header s) as [h |] eqn:Eh; [|done].
  destruct (Z.eqb_spec (type_code h) 0xFFFFFFFF) as [| Hne]; [done |].
  destruct Hne.
  destruct (get_range_split _ _ _ (zlen p + 4) _ Es) as (s1 & s2 & -> & E1 & _); [lia |].
  rewrite (get_range_mid p [255; 255; 255; 255] q) in E1 by done. injection E1 as <-.
  unfold parse_attribute_record_header in Eh.
  rewrite (eq_refl : read_u32_le ([255; 255; 255; 255] ++ s2) 0
                     = from_le_bytes <$> read_le_array 4 ([255; 255; 255; 255] ++ s2) 0) in Eh.
  rewrite (read_le_array_app 4 [255; 255; 255; 255] s2 0 [255; 255; 255; 255] eq_refl) in Eh.
  cbn [fmap option_fmap option_map] in Eh.
  repeat match type of Eh with
  | match ?c with Some _ => _ | None => None end = Some _ => destruct c; [|discriminate Eh]
  end.
  injection Eh as <-. done.
Qed.

(** Every attribute before the end marker is found, in order. *)
Lemma collect_attributes_complete attrs fuel p q m :
  Forall attr_wf attrs -> (length attrs < fuel)%nat ->
  zlen p + zlen (concat (map ar_data attrs)) <= m ->
  collect_attributes fuel
    {| it_data := p ++ concat (map ar_data attrs) ++ [255; 255; 255; 255] ++ q;
       it_offset := zlen p; it_max_offset := m |} = Some attrs.
Proof.
  revert fuel p. induction attrs as [|a attrs IH]; intros fuel p Hwf Hf Hm.
  - destruct fuel as [|fuel]; [cbn in Hf; lia |]. cbn [map concat collect_attributes].
    by rewrite (next_end_marker p q m : AttributeIterator_next
         {| it_data := p ++ [] ++ [255; 255; 255; 255] ++ q; it_offset := zlen p; it_max_offset := m |} = _).
  - destruct fuel as [|fuel]; [cbn in Hf; lia |].
    inversion Hwf as [|? ? Ha Has]; subst.
    cbn [map concat collect_attributes] in *. rewrite zlen_app in Hm.
    pose proof (zlen_nonneg (concat (map ar_data attrs))).
    rewrite <- (app_assoc (ar_data a)), next_exact by (done || lia).
    specialize (IH fuel (p ++ ar_data a)). rewrite zlen_app, <- app_assoc in IH.
    rewrite IH; [done | done | cbn in Hf; lia | lia].
Qed.

(** * Properties *)

(** C18: on a FILE record of the standard geometry the fixup copies every entry
    of the update sequence array over the trailer of its sector, leaves every
    other byte alone, and reports success exactly when every trailer carried
    the check value (a torn sector is reported). *)
Theorem fixup_file_record_functional buffer h :
  8 <= zlen buffer ->
  parse_multi_sector_header buffer = Some h -> magic h = FILE_RECORD_MAGIC ->
  usa_geometry buffer (usa_offset h) (usa_count h) ->
  exists b' ok c0 c1,
    zget buffer (usa_offset h) = Some c0 /\ zget buffer (usa_offset h + 1) = Some c1 /\
    fixup_file_record buffer = (b', ok) /\
    (ok = true <-> forall i, 1 <= i < usa_count h -> trailer_ok buffer (c0 + 256 * c1) i = true) /\
    zlen b' = zlen buffer /\
    forall p, zget b' p = zget buffer (usa_source (usa_offset h) 1 (usa_count h) p).
Proof.
  intros H8 Hh Hm Hg. destruct (apply_usa_fixup_spec _ _ _ Hg) as (b' & c0 & c1 & H0 & H1 & Ha & Hl & Hp).
  exists b', (trailers_ok (Z.to_nat (usa_count h - 1)) 1 (c0 + 256 * c1) buffer), c0, c1.
  split_and!; try done.
  - unfold fixup_file_record. replace (zlen buffer <? 8) with false by lia. rewrite Hh.
    unfold is_file_record. by rewrite Hm, Z.eqb_refl.
  - rewrite trailers_ok_spec. split; intros H i Hi; apply H; destruct Hg; lia.
Qed.

Definition le_field (n : nat) (z : Z) : list Z := to_le_bytes n z.

(** A small FILE record header for the witnesses. *)
Definition sample_header (off cnt first used : Z) : list Z :=
  le_field 4 FILE_RECORD_MAGIC ++ le_field 2 off ++ le_field 2 cnt ++ le_field 8 0 ++
  le_field 2 1 ++ le_field 2 1 ++ le_field 2 first ++ le_field 2 1 ++ le_field 4 used ++
  le_field 4 1024 ++ le_field 8 0 ++ le_field 8 0.

Definition sample_record : list Z :=
  let r := sample_header 48 3 56 64 ++ zrepeat 7 976 in r.

Lemma fixup_file_record_functional_witness :
  exists b' ok c0 c1,
    zget sample_record 48 = Some c0 /\ zget sample_record (48 + 1) = Some c1 /\
    fixup_file_record sample_record = (b', ok) /\
    (ok = true <-> forall i, 1 <= i < 3 -> trailer_ok sample_record (c0 + 256 * c1) i = true) /\
    zlen b' = zlen sample_record /\
    forall p, zget b' p = zget sample_record (usa_source 48 1 3 p).
Proof.
  apply (fixup_file_record_functional sample_record
           {| magic := FILE_RECORD_MAGIC; usa_offset := 48; usa_count := 3 |}).
  - vm_compute. discriminate.
  - vm_compute. reflexivity.
  - reflexivity.
  - repeat split; vm_compute; discriminate.
Defined.

(** A record the writer protected is restored byte for byte outside the
    array, and the fixup reports success. *)
Theorem usa_fixup_roundtrip r off cnt c0 c1 :
  usa_geometry r off cnt ->
  exists b', apply_usa_fixup (usa_protect r off cnt c0 c1) off cnt = (b', true) /\
    zlen b' = zlen r /\
    forall p, ~ (off <= p < off + 2 * cnt) -> zget b' p = zget r p.
Proof.
  intros Hg. assert (Hlen : zlen (usa_protect r off cnt c0 c1) = zlen r)
    by apply zlen_tabulate, zlen_nonneg.
  destruct (apply_usa_fixup_spec (usa_protect r off cnt c0 c1) off cnt)
    as (b' & d0 & d1 & H0 & H1 & Ha & Hl & Hp); [unfold usa_geometry in *; by rewrite Hlen |].
  pose proof Hg as (Hc & Ho & Hlow & Hb & H5).
  rewrite zget_usa_protect in H0, H1 by lia.
  destruct (usa_protect_check_cells r off cnt c0 c1) as [E0 E1]; [lia |].
  rewrite E0 in H0. rewrite E1 in H1. injection H0 as <-. injection H1 as <-.
  exists b'. rewrite Ha, usa_protect_trailers by done. split_and!; [done | lia |].
  intros p Hout. rewrite Hp. by apply usa_protect_source.
Qed.

Lemma usa_fixup_roundtrip_witness :
  exists b', apply_usa_fixup (usa_protect sample_record 48 3 9 0) 48 3 = (b', true) /\
    zlen b' = zlen sample_record /\
    forall p, ~ (48 <= p < 48 + 2 * 3) -> zget b' p = zget sample_record p.
Proof. apply usa_fixup_roundtrip. repeat split; vm_compute; discriminate. Defined.

(** Iterating over the attributes of any accepted record ends, and the
    attributes tile the record from the first-attribute offset within
    [bytes_in_use], each at least a header long and as long as its own header
    says; nothing outside the record is read. *)
Theorem record_attributes_tile rec it :
  AttributeIterator_new rec = Some it ->
  0 <= it_offset it <= it_max_offset it ->
  exists attrs, record_attributes rec = Some attrs /\
    Forall attr_wf attrs /\
    get_range rec (it_offset it) (it_offset it + zlen (concat (map ar_data attrs)))
      = Some (concat (map ar_data attrs)) /\
    it_offset it + zlen (concat (map ar_data attrs)) <= it_max_offset it <= zlen rec.
Proof.
  intros Hnew Ho. unfold record_attributes. rewrite Hnew.
  unfold AttributeIterator_new in Hnew.
  destruct (zlen rec <? 48); [done |].
  destruct (parse_file_record_segment_header rec) as [h |]; [|done].
  destruct (negb _); [done |]. destruct (_ || _) eqn:E; [done |].
  apply orb_false_iff in E as [E1 E2]. injection Hnew as <-. cbn [it_offset it_max_offset it_data] in *.
  destruct (collect_attributes_total (S (length rec))
    {| it_data := rec; it_offset := first_attribute_offset h; it_max_offset := bytes_in_use h |})
    as [attrs Ha]; [cbn; unfold zlen; lia |].
  exists attrs. rewrite Ha.
  apply collect_attributes_tile in Ha; cbn [it_offset it_max_offset it_data] in *; [| lia | lia].
  destruct Ha as (? & ? & ?). split_and!; try done; lia.
Qed.

Definition sample_attr : AttributeRef :=
  {| ar_data := le_field 4 0x30 ++ le_field 4 24 ++ [0; 0] ++ le_field 2 0 ++ le_field 2 0 ++
                le_field 2 5 ++ le_field 4 0 ++ le_field 2 24 ++ le_field 2 0;
     ar_header := {| type_code := 0x30; length_ := 24; is_non_resident_ := 0; name_length := 0;
                     name_offset := 0; attr_flags := 0; instance := 5 |} |}.

Definition sample_attr_record : list Z :=
  sample_header 48 1 48 80 ++ ar_data sample_attr ++ [255; 255; 255; 255] ++ [0; 0; 0; 0].

Lemma record_attributes_tile_witness :
  exists attrs, record_attributes sample_attr_record = Some attrs /\
    Forall attr_wf attrs /\
    get_range sample_attr_record 48 (48 + zlen (concat (map ar_data attrs)))
      = Some (concat (map ar_data attrs)) /\
    48 + zlen (concat (map ar_data attrs)) <= 80 <= zlen sample_attr_record.
Proof.
  apply (record_attributes_tile sample_attr_record
    {| it_data := sample_attr_record; it_offset := 48; it_max_offset := 80 |}).
  - vm_compute. reflexivity.
  - cbn. lia.
Defined.

(** The iterator finds every attribute written before the end marker, in
    order, with the header each one was written with. *)
Theorem record_attributes_complete attrs p q h :
  let rec := p ++ concat (map ar_data attrs) ++ [255; 255; 255; 255] ++ q in
  Forall attr_wf attrs -> 48 <= zlen rec ->
  parse_file_record_segment_header rec = Some h ->
  magic (multi_sector_header h) = FILE_RECORD_MAGIC ->
  first_attribute_offset h = zlen p ->
  zlen p + zlen (concat (map ar_data attrs)) <= bytes_in_use h <= zlen rec ->
  record_attributes rec = Some attrs.
Proof.
  intros rec Hwf H48 Hh Hm Hf Hb. unfold record_attributes, AttributeIterator_new.
  replace (zlen rec <? 48) with false by lia. rewrite Hh.
  unfold is_file_record. rewrite Hm, Z.eqb_refl. cbn [negb]. rewrite Hf.
  assert (Hr : zlen rec = zlen p + zlen (concat (map ar_data attrs)) + 4 + zlen q)
    by (unfold rec; zlia).
  pose proof (zlen_nonneg (concat (map ar_data attrs))). pose proof (zlen_nonneg q).
  replace (_ || _) with false by lia.
  apply collect_attributes_complete; [done | | lia].
  assert (Z.of_nat (length attrs) <= zlen (concat (map ar_data attrs))); [|unfold zlen in *; lia].
  clear - Hwf. induction Hwf as [|a attrs (_ & _ & H16 & _) _ IH]; [done |].
  cbn [map concat length]. rewrite zlen_app. lia.
Qed.

Lemma record_attributes_complete_witness :
  record_attributes sample_attr_record = Some [sample_attr].
Proof.
  apply (record_attributes_complete [sample_attr] (sample_header 48 1 48 80) [0; 0; 0; 0]
    {| multi_sector_header := {| magic := FILE_RECORD_MAGIC; usa_offset := 48; usa_count := 1 |};
       log_file_sequence_number := 0; sequence_number := 1; link_count := 1;
       first_attribute_offset := 48; frs_flags := 1; bytes_in_use := 80;
       bytes_allocated := 1024; base_file_record_segment := 0; next_attribute_number := 0;
       frs_reserved := 0; segment_number_lower := 0 |}).
  - constructor; [|constructor]. repeat split; vm_compute; discriminate.
  - vm_compute. discriminate.
  - vm_compute. reflexivity.
  - reflexivity.
  - vm_compute. reflexivity.
  - split; vm_compute; discriminate.
Defined.
