(* ===== verification/DataRuns.v ===== *)
(** NTFS mapping pairs: [crates/uffs-mft/src/ntfs/data_runs.rs] and the [Lcn]
    newtype of [platform/lcn.rs]. *)
From S2P Require Import Prelude NtfsRecords.

(** * [Lcn]: a signed cluster number *)

Definition Lcn := Z.
Definition Lcn_ZERO : Lcn := 0.
Definition Lcn_HOLE : Lcn := -1.
Definition Lcn_raw_unsigned (l : Lcn) : Z := cast_unsigned l.
Definition Lcn_is_hole (l : Lcn) : bool := l <? 0.
Definition Lcn_is_zero (l : Lcn) : bool := l =? 0.

(** * Data runs *)

Record DataRun := mk_run { vcn : Z; cluster_count : Z; lcn : Lcn }.

Definition is_sparse (r : DataRun) : bool := Lcn_is_zero r.(lcn).

Definition byte_offset (r : DataRun) (bytes_per_cluster : Z) : Z :=
  if Lcn_is_hole r.(lcn) then 0 else Lcn_raw_unsigned r.(lcn) *w bytes_per_cluster.

Definition byte_size (r : DataRun) (bytes_per_cluster : Z) : Z :=
  r.(cluster_count) *w bytes_per_cluster.

(** [x << s] on 64 bits: without overflow checks the shift amount is masked to
    six bits. *)
Definition shl64 (x s : Z) : Z := u64 (Z.shiftl x (s mod 64)).

Fixpoint vlu_loop (i : Z) (value : Z) (data : list Z) : Z :=
  match data with
  | [] => value
  | byte :: data => vlu_loop (i + 1) (Z.lor value (shl64 byte (i * 8))) data
  end.

Definition parse_variable_length_unsigned (data : list Z) : Z := vlu_loop 0 0 data.

(** The [i64] loop: [i64::from(byte) << (idx * 8)] keeps the same bits. *)
Fixpoint vls_loop (idx : Z) (value : Z) (data : list Z) : Z :=
  match data with
  | [] => value
  | byte :: data => vls_loop (idx + 1) (Z.lor value (cast_signed (shl64 byte (idx * 8)))) data
  end.

Definition parse_variable_length_signed (data : list Z) : Z :=
  match last data with
  | None => 0
  | Some last_byte =>
      let value := vls_loop 0 0 data in
      if negb (Z.land last_byte 0x80 =? 0) then
        let shift := zlen data * 8 in
        if shift <? 64 then Z.lor value (cast_signed (shl64 (-1) shift)) else value
      else value
  end.

Record DataRunIter := mk_iter {
  dri_data : list Z; dri_offset : Z; current_vcn : Z; current_lcn : Z
}.

Definition parse_data_runs_iter (data : list Z) (lowest_vcn : Z) : DataRunIter :=
  mk_iter data 0 lowest_vcn 0.

(** The iterator after termination: the offset is pushed past the data. *)
Definition exhausted (it : DataRunIter) : DataRunIter :=
  mk_iter it.(dri_data) (zlen it.(dri_data)) it.(current_vcn) it.(current_lcn).

(** The run a decoded header yields, and the state after it. *)
Definition emit_run (it : DataRunIter) (offset_size run_length lcn_delta offset : Z)
    : DataRun * DataRunIter :=
  let current_lcn := i64 (it.(current_lcn) + lcn_delta) in
  let run := mk_run it.(current_vcn) run_length
               (if 0 <? offset_size then current_lcn else Lcn_ZERO) in
  let current_vcn :=
    if run_length <? 2 ^ 63 then i64 (it.(current_vcn) + run_length) else it.(current_vcn) in
  (run, mk_iter it.(dri_data) offset current_vcn current_lcn).

(** [DataRunIter::next]. *)
Definition DataRunIter_next (it : DataRunIter) : option DataRun * DataRunIter :=
  match zget it.(dri_data) it.(dri_offset) with
  | None => (None, it)
  | Some header =>
      if header =? 0 then (None, exhausted it) else
      let length_size := Z.land header 0x0F in
      let offset_size := Z.land (Z.shiftr header 4) 0x0F in
      let offset := it.(dri_offset) + 1 in
      match get_range it.(dri_data) offset (offset + length_size) with
      | None => (None, exhausted it)
      | Some length_bytes =>
          let run_length := parse_variable_length_unsigned length_bytes in
          let offset := offset + length_size in
          if 0 <? offset_size then
            match get_range it.(dri_data) offset (offset + offset_size) with
            | None => (None, exhausted it)
            | Some offset_bytes =>
                let '(run, it') := emit_run it offset_size run_length
                  (parse_variable_length_signed offset_bytes) (offset + offset_size) in
                (Some run, it')
            end
          else
            let '(run, it') := emit_run it offset_size run_length 0 (offset + offset_size) in
            (Some run, it')
      end
  end.

(** [iter.collect()]; [None] when the fuel runs out first. *)
Fixpoint collect_runs (fuel : nat) (it : DataRunIter) : option (list DataRun) :=
  match fuel with
  | O => None
  | S fuel =>
      match DataRunIter_next it with
      | (None, _) => Some []
      | (Some r, it') => cons r <$> collect_runs fuel it'
      end
  end.

Definition parse_data_runs (data : list Z) (lowest_vcn : Z) : option (list DataRun) :=
  collect_runs (S (length data)) (parse_data_runs_iter data lowest_vcn).

(** [data_runs_iter_from_attribute]. *)
Definition data_runs_iter_from_attribute (attr_data : list Z) : DataRunIter :=
  let empty := parse_data_runs_iter [] 0 in
  match get_range attr_data 0 16 with
  | None => empty
  | Some header_slice =>
      match parse_attribute_record_header header_slice with
      | None => empty
      | Some header =>
          if header.(is_non_resident_) =? 0 then empty else
          match get_range attr_data 16 (16 + 48) with
          | None => empty
          | Some nr_slice =>
              match parse_non_resident_attribute_data nr_slice with
              | None => empty
              | Some nr_data =>
                  match get_from attr_data nr_data.(mapping_pairs_offset) with
                  | None => empty
                  | Some mapping_pairs_data =>
                      parse_data_runs_iter mapping_pairs_data nr_data.(lowest_vcn)
                  end
              end
          end
      end
  end.

Definition extract_data_runs_from_attribute (attr_data : list Z) : option (list DataRun) :=
  let it := data_runs_iter_from_attribute attr_data in
  collect_runs (S (length it.(dri_data))) it.

(** * Variable-length integers *)

Lemma shl64_small x s : 0 <= s < 64 -> 0 <= x < 2 ^ (64 - s) -> shl64 x s = x * 2 ^ s.
Proof.
  intros Hs Hx. unfold shl64. rewrite Z.mod_small, Z.shiftl_mul_pow2 by lia.
  apply u64_small. assert (E : 2 ^ 64 = 2 ^ (64 - s) * 2 ^ s).
  { rewrite <- Z.pow_add_r by lia. f_equal. lia. }
  assert (0 < 2 ^ s) by (apply Z.pow_pos_nonneg; lia).
  rewrite E. nia.
Qed.

Lemma shl64_byte b i : 0 <= b < 256 -> 0 <= i < 8 -> shl64 b (i * 8) = b * 256 ^ i.
Proof.
  intros Hb Hi. change 256 with (2 ^ 8). rewrite <- Z.pow_mul_r by lia.
  rewrite (Z.mul_comm 8). apply shl64_small; [lia |].
  split; [lia |]. apply Z.lt_le_trans with (2 ^ 8); [lia |]. apply Z.pow_le_mono_r; lia.
Qed.

Lemma lor_byte value b i :
  0 <= i -> 0 <= value < 256 ^ i -> Z.lor value (b * 256 ^ i) = value + b * 256 ^ i.
Proof.
  intros Hi Hv. change 256 with (2 ^ 8) in *. rewrite <- Z.pow_mul_r in * by lia.
  pose proof (lor_shiftl_add value b (8 * i)) as H. rewrite Z.shiftl_mul_pow2 in H by lia.
  apply H; lia.
Qed.

Lemma pow256_succ i : 0 <= i -> 256 ^ (i + 1) = 256 ^ i * 256.
Proof. intros H. rewrite Z.pow_add_r by lia. lia. Qed.

Lemma vlu_loop_spec i value data :
  byte_list data -> 0 <= i -> i + zlen data <= 8 -> 0 <= value < 256 ^ i ->
  vlu_loop i value data = value + 256 ^ i * from_le_bytes data.
Proof.
  intros Hd. revert i value. induction Hd as [|b data Hb Hd IH]; intros i value Hi Hlen Hv; cbn.
  - lia.
  - rewrite zlen_cons in Hlen. pose proof (zlen_nonneg data).
    rewrite shl64_byte, lor_byte by lia.
    assert (0 < 256 ^ i) by (apply Z.pow_pos_nonneg; lia).
    rewrite IH; rewrite ?pow256_succ by lia; nia.
Qed.

(** The unsigned field is the little-endian integer of its bytes. *)
Lemma parse_variable_length_unsigned_spec data :
  byte_list data -> zlen data <= 8 -> parse_variable_length_unsigned data = from_le_bytes data.
Proof.
  intros Hd Hl. unfold parse_variable_length_unsigned.
  rewrite vlu_loop_spec; [lia | done | lia | lia | cbn; lia].
Qed.

(** The last, seventh, byte carries the sign of the 64-bit value. *)
Lemma vls_byte7 value b :
  0 <= b < 256 -> 0 <= value < 256 ^ 7 ->
  Z.lor value (cast_signed (shl64 b (7 * 8))) = i64 (value + 256 ^ 7 * b).
Proof.
  intros Hb Hv. rewrite shl64_byte by lia. unfold cast_signed, i64.
  destruct (Z.ltb_spec b 128).
  - rewrite !Z.mod_small by lia. replace (b * 256 ^ 7 + 2 ^ 63 - 2 ^ 63) with (b * 256 ^ 7) by lia.
    rewrite lor_byte by lia. lia.
  - replace (b * 256 ^ 7 + 2 ^ 63) with ((b * 256 ^ 7 + 2 ^ 63 - 2 ^ 64) + 1 * 2 ^ 64) by lia.
    replace (value + 256 ^ 7 * b + 2 ^ 63)
      with ((value + 256 ^ 7 * b + 2 ^ 63 - 2 ^ 64) + 1 * 2 ^ 64) by lia.
    rewrite !Z.mod_add, !Z.mod_small by lia.
    replace (b * 256 ^ 7 + 2 ^ 63 - 2 ^ 64 - 2 ^ 63) with ((b - 256) * 256 ^ 7) by lia.
    rewrite lor_byte by lia. lia.
Qed.

Lemma vls_loop_spec i value data :
  byte_list data -> 0 <= i <= 7 -> i + zlen data <= 8 -> 0 <= value < 256 ^ i ->
  vls_loop i value data = i64 (value + 256 ^ i * from_le_bytes data).
Proof.
  intros Hd. revert i value. induction Hd as [|b data Hb Hd IH]; intros i value Hi Hlen Hv; cbn.
  - rewrite i64_small; [lia |].
    assert (256 ^ i <= 256 ^ 7) by (apply Z.pow_le_mono_r; lia). lia.
  - rewrite zlen_cons in Hlen. pose proof (zlen_nonneg data).
    destruct (Z.eq_dec i 7) as [-> |].
    + destruct data; [|unfold zlen in *; cbn in *; lia].
      cbn [vls_loop from_le_bytes]. rewrite vls_byte7 by done. f_equal. lia.
    + assert (256 ^ i <= 256 ^ 6) by (apply Z.pow_le_mono_r; lia).
      assert (0 < 256 ^ i) by (apply Z.pow_pos_nonneg; lia).
      rewrite shl64_byte by lia. unfold cast_signed.
      rewrite i64_small, lor_byte by nia.
      rewrite IH; rewrite ?pow256_succ by lia; try nia. f_equal. nia.
Qed.

(** Sign extension of an [n]-byte two's complement integer. *)
Definition sign_extend (n : Z) (v : Z) : Z := if v <? 256 ^ n / 2 then v else v - 256 ^ n.

Lemma last_byte_sign data b :
  byte_list (data ++ [b]) ->
  (Z.land b 0x80 =? 0) = (from_le_bytes (data ++ [b]) <? 256 ^ (zlen data + 1) / 2).
Proof.
  intros [Hd Hb%Forall_inv]%Forall_app. cbn in Hb.
  change 0x80 with (2 ^ 7). rewrite land_pow2_testbit by lia.
  change 7 with (8 - 1). rewrite testbit_top by lia.
  rewrite from_le_bytes_app. cbn [from_le_bytes].
  pose proof (from_le_bytes_bound data Hd) as Hbound.
  pose proof (zlen_nonneg data). rewrite pow256_succ by lia.
  replace (256 ^ zlen data * 256) with (256 ^ zlen data * 128 * 2) by lia.
  rewrite Z.div_mul by lia. zcases; cbn; try done; nia.
Qed.

(** The signed field is the two's complement integer of its bytes. *)
Lemma parse_variable_length_signed_spec data :
  byte_list data -> 1 <= zlen data <= 8 ->
  parse_variable_length_signed data = sign_extend (zlen data) (from_le_bytes data).
Proof.
  intros Hd Hl. unfold parse_variable_length_signed, sign_extend.
  induction data as [|b data _] using rev_ind; [unfold zlen in Hl; cbn in Hl; lia |].
  rewrite last_snoc, (last_byte_sign data b) by done.
  rewrite zlen_app in *. change (zlen [b]) with 1 in *.
  rewrite vls_loop_spec; [| done | lia | zlia | cbn; lia].
  pose proof (from_le_bytes_bound _ Hd) as Hv. rewrite zlen_app in Hv. change (zlen [b]) with 1 in Hv.
  set (v := from_le_bytes (data ++ [b])) in *. set (n := zlen data + 1) in *.
  rewrite Z.pow_0_r, Z.mul_1_l, Z.add_0_l.
  assert (Hn : n = 8 \/ n <= 7) by lia. destruct Hn as [-> | Hn].
  - change (256 ^ 8 / 2) with (2 ^ 63). change (256 ^ 8) with (2 ^ 64) in *.
    destruct (Z.ltb_spec v (2 ^ 63)); cbn [negb].
    + apply i64_small. lia.
    + replace (8 * 8 <? 64) with false by lia. unfold i64.
      replace (v + 2 ^ 63) with ((v + 2 ^ 63 - 2 ^ 64) + 1 * 2 ^ 64) by lia.
      rewrite Z.mod_add, Z.mod_small by lia. lia.
  - assert (256 ^ n <= 256 ^ 7) by (apply Z.pow_le_mono_r; lia).
    rewrite i64_small by lia. destruct (v <? 256 ^ n / 2); cbn [negb]; [done |].
    replace (n * 8 <? 64) with true by lia.
    unfold shl64, cast_signed. rewrite i64_u64, Z.mod_small by lia.
    assert (E : 256 ^ n = 2 ^ (n * 8)).
    { change 256 with (2 ^ 8). rewrite <- Z.pow_mul_r by lia. f_equal. lia. }
    pose proof (Z.shiftl_mul_pow2 (-1) (n * 8) ltac:(lia)).
    rewrite i64_small, lor_shiftl_add by lia. lia.
Qed.

(** * The encoding *)

(** One mapping pair: sizes of the two fields, cluster count and LCN delta. *)
Record run_enc := {
  re_len : nat; re_off : nat; re_count : Z; re_delta : Z
}.

Definition encode_run (e : run_enc) : list Z :=
  (Z.of_nat e.(re_len) + 16 * Z.of_nat e.(re_off)) ::
  to_le_bytes e.(re_len) e.(re_count) ++ to_le_bytes e.(re_off) e.(re_delta).

Definition run_enc_ok (e : run_enc) : Prop :=
  (e.(re_len) <= 8)%nat /\ (e.(re_off) <= 8)%nat /\ (0 < e.(re_len) + e.(re_off))%nat /\
  0 <= e.(re_count) < 256 ^ Z.of_nat e.(re_len) /\
  if (e.(re_off) =? 0)%nat then e.(re_delta) = 0
  else - (256 ^ Z.of_nat e.(re_off) / 2) <= e.(re_delta) < 256 ^ Z.of_nat e.(re_off) / 2.

(** The run a pair stands for, and the running totals after it. *)
Definition run_of (vcn0 lcn0 : Z) (e : run_enc) : DataRun :=
  mk_run vcn0 e.(re_count)
    (if (e.(re_off) =? 0)%nat then Lcn_ZERO else i64 (lcn0 + e.(re_delta))).
Definition vcn_after (vcn0 count : Z) : Z :=
  if count <? 2 ^ 63 then i64 (vcn0 + count) else vcn0.

Fixpoint runs_of (vcn0 lcn0 : Z) (es : list run_enc) : list DataRun :=
  match es with
  | [] => []
  | e :: es => run_of vcn0 lcn0 e ::
      runs_of (vcn_after vcn0 e.(re_count)) (i64 (lcn0 + e.(re_delta))) es
  end.

Lemma pow256_even n : (0 < n)%nat -> 256 ^ Z.of_nat n = 2 * (256 ^ Z.of_nat n / 2).
Proof.
  destruct n as [|n]; [lia |]. intros _. rewrite pow256_S.
  replace (256 * 256 ^ Z.of_nat n) with ((128 * 256 ^ Z.of_nat n) * 2) by lia.
  rewrite Z.div_mul by lia. lia.
Qed.

Lemma signed_field n z :
  (0 < n <= 8)%nat -> - (256 ^ Z.of_nat n / 2) <= z < 256 ^ Z.of_nat n / 2 ->
  parse_variable_length_signed (to_le_bytes n z) = z.
Proof.
  intros Hn Hz. pose proof (pow256_even n ltac:(lia)) as He. pose proof (pow256_pos n).
  rewrite parse_variable_length_signed_spec;
    [| apply to_le_bytes_byte | rewrite zlen_to_le_bytes; lia].
  rewrite zlen_to_le_bytes, from_to_le_bytes. unfold sign_extend.
  destruct (Z.ltb_spec z 0).
  - assert (Hm : z mod 256 ^ Z.of_nat n = z + 256 ^ Z.of_nat n).
    { symmetry. apply Z.mod_unique_pos with (-1); lia. }
    rewrite Hm. zcases; lia.
  - rewrite Z.mod_small by lia. zcases; lia.
Qed.

Lemma header_nibbles a b :
  0 <= a < 16 -> 0 <= b < 16 ->
  Z.land (a + 16 * b) 0x0F = a /\ Z.land (Z.shiftr (a + 16 * b) 4) 0x0F = b.
Proof.
  intros Ha Hb. change 0x0F with (2 ^ 4 - 1). rewrite !land_ones_mod, Z.shiftr_div_pow2 by lia.
  change (2 ^ 4) with 16. replace (a + 16 * b) with (a + b * 16) by lia.
  rewrite Z.mod_add, Z.div_add, (Z.div_small a), !Z.mod_small by lia. lia.
Qed.

(** Decoding one encoded pair in place. *)
Lemma next_encoded p e q v l :
  run_enc_ok e ->
  DataRunIter_next (mk_iter (p ++ encode_run e ++ q) (zlen p) v l) =
  (Some (run_of v l e),
   mk_iter (p ++ encode_run e ++ q) (zlen (p ++ encode_run e))
     (vcn_after v e.(re_count)) (i64 (l + e.(re_delta)))).
Proof.
  intros (Hl & Ho & Hpos & Hc & Hd). unfold DataRunIter_next. cbn [dri_data dri_offset].
  set (hd := Z.of_nat (re_len e) + 16 * Z.of_nat (re_off e)).
  set (lb := to_le_bytes (re_len e) (re_count e)). set (ob := to_le_bytes (re_off e) (re_delta e)).
  assert (Hlb : zlen lb = Z.of_nat (re_len e)) by apply zlen_to_le_bytes.
  assert (Hob : zlen ob = Z.of_nat (re_off e)) by apply zlen_to_le_bytes.
  assert (Hcount : parse_variable_length_unsigned lb = re_count e).
  { unfold lb. rewrite parse_variable_length_unsigned_spec; [| apply to_le_bytes_byte | fold lb; lia].
    by apply from_to_le_bytes_small. }
  assert (Hhd : zget (p ++ encode_run e ++ q) (zlen p) = Some hd).
  { rewrite zget_app_r, Z.sub_diag by lia. apply zget_app_Some.
    apply zget_Some. split; [unfold encode_run; zlia | done]. }
  rewrite Hhd. replace (hd =? 0) with false by lia.
  destruct (header_nibbles (Z.of_nat (re_len e)) (Z.of_nat (re_off e))) as [N1 N2]; [lia .. |].
  fold hd in N1, N2. rewrite N1, N2.
  replace (p ++ encode_run e ++ q) with ((p ++ [hd]) ++ lb ++ ob ++ q)
    by (unfold encode_run; rewrite <- (app_assoc p); cbn; by rewrite <- (app_assoc lb)).
  rewrite (get_range_mid (p ++ [hd]) lb); [| zlia | lia].
  rewrite Hcount.
  unfold run_of, emit_run. cbn [dri_data current_vcn current_lcn].
  assert (Hz : zlen (p ++ encode_run e) = zlen p + 1 + Z.of_nat (re_len e) + Z.of_nat (re_off e)).
  { unfold encode_run. fold lb ob. zlia. }
  rewrite Hz. destruct (Nat.eqb_spec (re_off e) 0) as [E0 | E0].
  - rewrite E0. cbn. rewrite Hd. do 2 f_equal; lia.
  - replace (0 <? Z.of_nat (re_off e)) with true by lia.
    replace ((p ++ [hd]) ++ lb ++ ob ++ q) with (((p ++ [hd]) ++ lb) ++ ob ++ q)
      by (by rewrite <- !app_assoc).
    rewrite (get_range_mid ((p ++ [hd]) ++ lb) ob); [| zlia | lia].
    assert (Hdelta : parse_variable_length_signed ob = re_delta e) by (apply signed_field; [lia | done]).
    rewrite Hdelta. done.
Qed.

(** * Lemmas on the iterator *)

Lemma next_terminator p q v l :
  fst (DataRunIter_next (mk_iter (p ++ 0 :: q) (zlen p) v l)) = None.
Proof.
  unfold DataRunIter_next. cbn [dri_data dri_offset].
  rewrite zget_app_r, Z.sub_diag by lia.
  replace (zget (0 :: q) 0) with (Some 0); [done |].
  symmetry. apply zget_Some. split; [zlia | done].
Qed.

Lemma collect_encoded es fuel p rest v l :
  Forall run_enc_ok es -> (length es < fuel)%nat ->
  collect_runs fuel (mk_iter (p ++ concat (map encode_run es) ++ 0 :: rest) (zlen p) v l)
  = Some (runs_of v l es).
Proof.
  revert fuel p v l. induction es as [|e es IH]; intros fuel p v l Hok Hf;
    destruct fuel as [|fuel]; cbn [length] in Hf; try lia.
  - cbn [map concat app collect_runs]. pose proof (next_terminator p rest v l) as H.
    destruct (DataRunIter_next _) as [o it]; cbn in H. by subst o.
  - inversion Hok as [|? ? He Hes]; subst. cbn [map concat collect_runs runs_of].
    rewrite <- (app_assoc (encode_run e)), next_encoded by done.
    specialize (IH fuel (p ++ encode_run e)). rewrite <- app_assoc in IH.
    rewrite IH; [done | done | lia].
Qed.

Lemma zlen_encode_run e : 1 <= zlen (encode_run e).
Proof. unfold encode_run. zlia. Qed.

Lemma length_concat_encode es : (length es <= length (concat (map encode_run es)))%nat.
Proof.
  induction es as [|e es IH]; [done |]. cbn [map concat length]. rewrite length_app.
  pose proof (zlen_encode_run e). unfold zlen in *. lia.
Qed.

(** The state a successful step leaves. *)
Lemma next_run_inv it r it' :
  DataRunIter_next it = (Some r, it') ->
  dri_data it' = dri_data it /\ dri_offset it < dri_offset it' <= zlen (dri_data it) /\
  vcn r = current_vcn it /\ current_vcn it' = vcn_after (current_vcn it) (cluster_count r).
Proof.
  unfold DataRunIter_next, emit_run. intros H.
  destruct (zget _ _) as [hd |] eqn:E0; [|done]. destruct (hd =? 0); [done |].
  assert (0 <= Z.land hd 15).
  { change 15 with (2 ^ 4 - 1). rewrite land_ones_mod by lia. apply Z.mod_pos_bound. lia. }
  assert (0 <= Z.land (Z.shiftr hd 4) 15).
  { change 15 with (2 ^ 4 - 1). rewrite land_ones_mod by lia. apply Z.mod_pos_bound. lia. }
  destruct (get_range _ _ _) as [lb |] eqn:E1; [|done].
  apply get_range_Some in E1 as (? & ? & _).
  destruct (Z.ltb_spec 0 (Z.land (Z.shiftr hd 4) 15)).
  - destruct (get_range _ (_ + _ + _) _) as [ob |] eqn:E2; [|done].
    apply get_range_Some in E2 as (? & ? & _). injection H as <- <-. cbn.
    split_and!; try done; lia.
  - injection H as <- <-. cbn. split_and!; try done; lia.
Qed.

(** [FusedIterator]: once exhausted the iterator stays exhausted. *)
Lemma next_fused it it' :
  DataRunIter_next it = (None, it') -> DataRunIter_next it' = (None, it').
Proof.
  assert (Hex : forall it, DataRunIter_next (exhausted it) = (None, exhausted it)).
  { intros i. unfold DataRunIter_next. cbn.
    by rewrite (proj2 (zget_None _ _)) by lia. }
  intros H. pose proof H as H0. unfold DataRunIter_next, emit_run in H.
  destruct (zget _ _) as [hd |] eqn:E0; [|congruence].
  destruct (hd =? 0); [injection H as <-; apply Hex |].
  destruct (get_range _ _ _) as [lb |]; [|injection H as <-; apply Hex].
  destruct (0 <? _); [|done].
  destruct (get_range _ (_ + _ + _) _); [done | injection H as <-; apply Hex].
Qed.

(** Bytes appended after a decoded run do not change it. *)
Lemma next_extend d q o v l r o' v' l' :
  DataRunIter_next (mk_iter d o v l) = (Some r, mk_iter d o' v' l') ->
  DataRunIter_next (mk_iter (d ++ q) o v l) = (Some r, mk_iter (d ++ q) o' v' l').
Proof.
  unfold DataRunIter_next, emit_run. cbn [dri_data dri_offset current_vcn current_lcn].
  destruct (zget d o) as [hd |] eqn:E0; [|done]. rewrite (zget_app_Some _ _ _ _ E0).
  destruct (hd =? 0); [done |].
  destruct (get_range d (o + 1) _) as [lb |] eqn:E1; [|done].
  pose proof E1 as (? & ? & _)%get_range_Some. rewrite get_range_app_l, E1 by lia.
  destruct (0 <? _).
  - destruct (get_range d (o + 1 + _) _) as [ob |] eqn:E2; [|done].
    pose proof E2 as (? & ? & _)%get_range_Some. rewrite get_range_app_l, E2 by lia.
    by intros [= <- <- <- <-].
  - by intros [= <- <- <- <-].
Qed.

Lemma collect_runs_total fuel it :
  Z.max 0 (zlen it.(dri_data) - it.(dri_offset)) < Z.of_nat fuel -> is_Some (collect_runs fuel it).
Proof.
  revert it. induction fuel as [|fuel IH]; intros it Hf; [lia |]. cbn.
  destruct (DataRunIter_next it) as [[r |] it'] eqn:E; [|eauto].
  apply next_run_inv in E as (Hd & Ho & _).
  destruct (IH it') as [l ->]; [rewrite Hd; lia | eauto].
Qed.

(** Each run starts where the one before ends. *)
Fixpoint vcn_chain (v : Z) (rs : list DataRun) : Prop :=
  match rs with
  | [] => True
  | r :: rs => vcn r = v /\ vcn_chain (vcn_after v (cluster_count r)) rs
  end.

Lemma collect_runs_chain fuel it rs :
  collect_runs fuel it = Some rs -> vcn_chain (current_vcn it) rs.
Proof.
  revert it rs. induction fuel as [|fuel IH]; intros it rs H; [done |]. cbn in H.
  destruct (DataRunIter_next it) as [[r |] it'] eqn:E.
  - destruct (collect_runs fuel it') as [rs' |] eqn:Ec; [|done]. injection H as <-.
    apply next_run_inv in E as (_ & _ & Hv & Hv'). cbn. rewrite <- Hv'. eauto.
  - by injection H as <-.
Qed.

Lemma collect_runs_prefix fuel fuel' d q o v l rs rs' :
  collect_runs fuel (mk_iter d o v l) = Some rs ->
  collect_runs fuel' (mk_iter (d ++ q) o v l) = Some rs' ->
  rs `prefix_of` rs'.
Proof.
  revert fuel' o v l rs rs'.
  induction fuel as [|fuel IH]; intros fuel' o v l rs rs' H H'; [done |]. cbn in H.
  destruct (DataRunIter_next (mk_iter d o v l)) as [[r |] it] eqn:E.
  - destruct it as [d' o' v' l']. pose proof E as (Hd & _)%next_run_inv. cbn in Hd. subst d'.
    apply (next_extend _ q) in E. destruct fuel' as [|fuel']; [done |].
    cbn in H'. rewrite E in H'.
    destruct (collect_runs fuel (mk_iter d o' v' l')) as [t |] eqn:Et; [|done].
    destruct (collect_runs fuel' (mk_iter (d ++ q) o' v' l')) as [t' |] eqn:Et'; [|done].
    injection H as <-. injection H' as <-. apply prefix_cons. eauto.
  - injection H as <-. apply prefix_nil.
Qed.

(** * Properties *)

(** C19: decoding the mapping pairs a runlist was encoded with gives the runs
    back, whatever follows the terminator: every field width from one to eight
    bytes, sparse runs, negative LCN deltas and the 64-bit wrap of the running
    totals included. *)
Theorem parse_data_runs_roundtrip es rest v :
  Forall run_enc_ok es ->
  parse_data_runs (concat (map encode_run es) ++ 0 :: rest) v = Some (runs_of v 0 es).
Proof.
  intros Hok. unfold parse_data_runs, parse_data_runs_iter.
  apply (collect_encoded es _ []); [done |].
  pose proof (length_concat_encode es). rewrite length_app. cbn [length]. lia.
Qed.

Lemma parse_data_runs_roundtrip_witness :
  parse_data_runs [0x21; 0x08; 0x10; 0x00; 0x02; 0x04; 0x00; 0x11; 0x02; 0xF0; 0; 9] 0
  = Some [mk_run 0 8 16; mk_run 8 4 0; mk_run 12 2 0].
Proof.
  apply (parse_data_runs_roundtrip
    [{| re_len := 1; re_off := 2; re_count := 8; re_delta := 16 |};
     {| re_len := 2; re_off := 0; re_count := 4; re_delta := 0 |};
     {| re_len := 1; re_off := 1; re_count := 2; re_delta := -16 |}] [9] 0).
  forall_eval.
Defined.

(** On any bytes whatever the decoder terminates within one step per byte,
    and the runs it yields cover consecutive VCN ranges from the lowest VCN. *)
Theorem parse_data_runs_total data v :
  exists rs, parse_data_runs data v = Some rs /\ vcn_chain v rs.
Proof.
  destruct (collect_runs_total (S (length data)) (parse_data_runs_iter data v)) as [rs Hrs].
  { cbn. unfold zlen. lia. }
  exists rs. split; [done |]. by apply collect_runs_chain in Hrs.
Qed.

(** A truncated runlist decodes to a prefix of the runs of the whole one;
    no run is invented or changed by the cut. *)
Theorem parse_data_runs_truncated d q v rs rs' :
  parse_data_runs d v = Some rs -> parse_data_runs (d ++ q) v = Some rs' -> rs `prefix_of` rs'.
Proof. apply collect_runs_prefix. Qed.

Lemma parse_data_runs_truncated_witness :
  [mk_run 0 8 16] `prefix_of` [mk_run 0 8 16; mk_run 8 4 0].
Proof.
  apply (parse_data_runs_truncated [0x21; 0x08; 0x10; 0x00; 0x02; 0x04] [0x00; 0x00] 0);
    reflexivity.
Defined.

(** The header nibble allows a length field of up to fifteen bytes, but the
    shift of byte [i] is [8 * i]: from byte eight on the masked shift wraps, and
    byte eight is OR-ed onto byte zero (a build with overflow checks panics). *)
Theorem length_field_overflow b :
  0 <= b < 256 ->
  parse_data_runs [0x09; 0; 0; 0; 0; 0; 0; 0; 0; b] 0 = Some [mk_run 0 b 0].
Proof.
  intros Hb. unfold parse_data_runs. cbn [length].
  assert (E : parse_variable_length_unsigned [0; 0; 0; 0; 0; 0; 0; 0; b] = b).
  { unfold parse_variable_length_unsigned. cbn [vlu_loop].
    change (shl64 b _) with (u64 (Z.shiftl b 0)). rewrite Z.shiftl_0_r, u64_small by lia. done. }
  change (collect_runs 11 _) with
    (cons (mk_run 0 (parse_variable_length_unsigned [0; 0; 0; 0; 0; 0; 0; 0; b]) 0) <$> Some []).
  by rewrite E.
Qed.

Lemma length_field_overflow_witness :
  parse_data_runs [0x09; 0; 0; 0; 0; 0; 0; 0; 0; 5] 0 = Some [mk_run 0 5 0].
Proof. apply (length_field_overflow 5). lia. Defined.
