(* ===== verification/MftBitmap.v ===== *)
(** The [$MFT::$BITMAP] allocation bitmap:
    [crates/uffs-mft/src/platform/bitmap.rs]. *)
From S2P Require Import Prelude.

Record MftBitmap := mk_bitmap { bm_data : list Z; bm_record_count : Z }.

Definition from_bytes (data : list Z) : MftBitmap := mk_bitmap data (zlen data * 8).

Definition new_all_valid (record_count : Z) : MftBitmap :=
  mk_bitmap (zrepeat 0xFF (div_ceil record_count 8)) record_count.

(** [(byte & (1 << bit)) != 0]. *)
Definition bit_set (byte bit : Z) : bool := negb (Z.land byte (Z.shiftl 1 bit) =? 0).

Definition is_record_in_use (bm : MftBitmap) (frs : Z) : bool :=
  if frs >=? bm.(bm_record_count) then false else
  let byte_index := frs / 8 in
  let bit_index := frs mod 8 in
  if byte_index >=? zlen bm.(bm_data) then false else
  match zget bm.(bm_data) byte_index with
  | Some byte => bit_set byte bit_index
  | None => false
  end.

(** [u8::count_ones]. *)
Definition count_ones (byte : Z) : Z := zlen (List.filter (Z.testbit byte) (seqZ 0 8)).

Definition count_in_use (bm : MftBitmap) : Z := foldr Z.add 0 (map count_ones bm.(bm_data)).

(** [u8::leading_zeros]. *)
Definition leading_zeros (byte : Z) : Z := if byte =? 0 then 8 else 7 - Z.log2 byte.

Fixpoint max_frs_loop (bytes : list (Z * Z)) : Z :=
  match bytes with
  | [] => 0
  | (byte_idx, byte) :: bytes =>
      if negb (byte =? 0) then byte_idx * 8 + (7 - leading_zeros byte) else max_frs_loop bytes
  end.

Definition max_frs_in_use (bm : MftBitmap) : Z := max_frs_loop (rev (@enumerate Z bm.(bm_data))).

Definition in_use_records (bm : MftBitmap) : list Z :=
  flat_map (fun '(byte_idx, byte) =>
    map (fun bit_idx => byte_idx * 8 + bit_idx) (List.filter (bit_set byte) (seqZ 0 8)))
    (@enumerate Z bm.(bm_data)).

(** The loop over [start..record_count], [n] records left. *)
Fixpoint find_in_use_loop (n : nat) (bm : MftBitmap) (frs count : Z) (res : list Z) : list Z :=
  match n with
  | O => res
  | S n =>
      if zlen res >=? count then res else
      let res :=
        match zget bm.(bm_data) (frs / 8) with
        | Some byte => if bit_set byte (frs mod 8) then res ++ [frs] else res
        | None => res
        end in
      find_in_use_loop n bm (frs + 1) count res
  end.

Definition find_in_use_range (bm : MftBitmap) (start_frs count : Z) : list Z :=
  find_in_use_loop (Z.to_nat (bm.(bm_record_count) - start_frs)) bm start_frs count [].

Fixpoint skip_begin_loop (n : nat) (bm : MftBitmap) (frs skip_begin : Z) : Z :=
  match n with
  | O => skip_begin
  | S n => if is_record_in_use bm frs then skip_begin
           else skip_begin_loop n bm (frs + 1) (skip_begin + 1)
  end.

(** The reversed loop: [frs] is the last index of the range left. *)
Fixpoint skip_end_loop (n : nat) (bm : MftBitmap) (frs skip_end : Z) : Z :=
  match n with
  | O => skip_end
  | S n => if is_record_in_use bm frs then skip_end
           else skip_end_loop n bm (frs - 1) (skip_end + 1)
  end.

Definition calculate_skip_range (bm : MftBitmap) (start_frs end_frs : Z) : Z * Z :=
  let start := start_frs in
  let stop := Z.min end_frs bm.(bm_record_count) in
  if start >=? stop then (0, 0) else
  let n := Z.to_nat (stop - start) in
  let skip_begin := skip_begin_loop n bm start 0 in
  if skip_begin =? stop - start then (skip_begin, 0) else
  (skip_begin, skip_end_loop n bm (stop - 1) 0).

(** The mask of [byte_idx] in a cluster scan. *)
Definition cluster_mask (start stop byte_idx : Z) : Z :=
  let start_byte := start / 8 in
  let end_byte := div_ceil stop 8 in
  if (byte_idx =? start_byte) && negb (start mod 8 =? 0) then u8 (Z.shiftl 0xFF (start mod 8))
  else if (byte_idx =? end_byte - 1) && negb (stop mod 8 =? 0) then Z.shiftl 1 (stop mod 8) - 1
  else 0xFF.

Fixpoint cluster_scan (n : nat) (data : list Z) (start stop byte_idx : Z) : bool :=
  match n with
  | O => false
  | S n =>
      match zget data byte_idx with
      | None => cluster_scan n data start stop (byte_idx + 1)
      | Some byte =>
          if negb (Z.land byte (cluster_mask start stop byte_idx) =? 0) then true
          else cluster_scan n data start stop (byte_idx + 1)
      end
  end.

Definition cluster_has_in_use (bm : MftBitmap) (start_frs records_per_cluster : Z) : bool :=
  let start := start_frs in
  let stop := Z.min (start +w records_per_cluster) bm.(bm_record_count) in
  let start_byte := start / 8 in
  let end_byte := div_ceil stop 8 in
  cluster_scan (Z.to_nat (Z.min end_byte (zlen bm.(bm_data)) - start_byte))
    bm.(bm_data) start stop start_byte.

(** [InUseClusterRangeIterator]: the bitmap and the record count per cluster are
    constant, [current_cluster] is the state. *)
Definition total_clusters (bm : MftBitmap) (records_per_cluster : Z) : Z :=
  div_ceil bm.(bm_record_count) records_per_cluster.

Definition cluster_in_use (bm : MftBitmap) (records_per_cluster cluster : Z) : bool :=
  cluster_has_in_use bm (cluster *w records_per_cluster) records_per_cluster.

(** [while current < total]: advance while the cluster's answer is [want]. *)
Fixpoint advance (n : nat) (bm : MftBitmap) (rpc : Z) (want : bool) (current : Z) : Z :=
  match n with
  | O => current
  | S n => if eqb (cluster_in_use bm rpc current) want
           then advance n bm rpc want (current + 1) else current
  end.

Definition cluster_range_next (bm : MftBitmap) (rpc current : Z) : option (Z * Z) * Z :=
  let total := total_clusters bm rpc in
  let current := advance (Z.to_nat (total - current)) bm rpc false current in
  if current >=? total then (None, current) else
  let range_start := current in
  let current := advance (Z.to_nat (total - current)) bm rpc true current in
  (Some (range_start, current - range_start), current).

Fixpoint collect_cluster_ranges (fuel : nat) (bm : MftBitmap) (rpc current : Z)
    : option (list (Z * Z)) :=
  match fuel with
  | O => None
  | S fuel =>
      match cluster_range_next bm rpc current with
      | (None, _) => Some []
      | (Some r, current) => cons r <$> collect_cluster_ranges fuel bm rpc current
      end
  end.

(** [in_use_cluster_ranges(rpc).collect()]; [None] stands for the division by
    zero [div_ceil] panics with. *)
Definition in_use_cluster_ranges (bm : MftBitmap) (rpc : Z) : option (list (Z * Z)) :=
  if rpc =? 0 then None
  else collect_cluster_ranges (S (Z.to_nat (total_clusters bm rpc))) bm rpc 0.

(** * Bits and bytes *)

Definition bitmap_wf (bm : MftBitmap) : Prop := byte_list bm.(bm_data) /\ 0 <= bm.(bm_record_count).

Lemma bit_set_testbit byte bit : 0 <= bit -> bit_set byte bit = Z.testbit byte bit.
Proof.
  intros H. unfold bit_set. rewrite Z.shiftl_1_l, land_pow2_testbit by done.
  apply negb_involutive.
Qed.

Lemma is_record_in_use_iff bm frs :
  0 <= frs ->
  is_record_in_use bm frs = true <->
  frs < bm.(bm_record_count) /\
  exists byte, zget bm.(bm_data) (frs / 8) = Some byte /\ Z.testbit byte (frs mod 8) = true.
Proof.
  intros H. unfold is_record_in_use.
  assert (0 <= frs / 8) by (apply Z.div_pos; lia).
  pose proof (Z.mod_pos_bound frs 8).
  destruct (Z.geb_spec frs (bm_record_count bm)); [split; [done | lia] |].
  destruct (Z.geb_spec (frs / 8) (zlen (bm_data bm))).
  - split; [done |]. intros (_ & b & [Hb _]%zget_Some & _). lia.
  - destruct (zget_is_Some (bm_data bm) (frs / 8)) as [b Hb]; [lia |].
    rewrite Hb, bit_set_testbit by lia. naive_solver lia.
Qed.

(** A nonzero conjunction with a byte-sized mask has a common bit. *)
Lemma land_byte_nonzero b m :
  0 <= m < 256 -> Z.land b m <> 0 ->
  exists i, 0 <= i < 8 /\ Z.testbit b i = true /\ Z.testbit m i = true.
Proof.
  intros Hm Hne.
  destruct (existsb (fun i => Z.testbit b i && Z.testbit m i) (seqZ 0 8)) eqn:E.
  - apply existsb_exists in E as (i & Hi & [H1 H2]%andb_true_iff).
    apply list_elem_of_In, elem_of_seqZ in Hi. exists i. split; [lia | done].
  - destruct Hne. apply Z.bits_inj'. intros i Hi. rewrite Z.land_spec, Z.bits_0.
    destruct (Z.ltb_spec i 8).
    + apply not_true_iff_false. intros Hb. apply not_true_iff_false in E. apply E.
      apply existsb_exists. exists i. split; [|done].
      apply list_elem_of_In, elem_of_seqZ. lia.
    + rewrite (testbit_above m 8 i) by lia. apply andb_false_r.
Qed.

Lemma land_common_bit b m i :
  0 <= i -> Z.testbit b i = true -> Z.testbit m i = true -> Z.land b m <> 0.
Proof.
  intros Hi Hb Hm H. apply (f_equal (fun z => Z.testbit z i)) in H.
  by rewrite Z.land_spec, Hb, Hm, Z.bits_0 in H.
Qed.

(** * The cluster mask *)

Lemma div_ceil_8 n : 0 <= n -> div_ceil n 8 = n / 8 + (if n mod 8 =? 0 then 0 else 1).
Proof.
  intros H. unfold div_ceil. pose proof (Z.div_mod n 8). pose proof (Z.mod_pos_bound n 8).
  destruct (Z.eqb_spec (n mod 8) 0).
  - symmetry. apply Z.div_unique with 7; lia.
  - symmetry. apply Z.div_unique with (n mod 8 - 1); lia.
Qed.

Lemma testbit_low_ones k i : 0 <= k -> 0 <= i -> Z.testbit (2 ^ k - 1) i = (i <? k).
Proof.
  intros Hk Hi. replace (2 ^ k - 1) with (Z.ones k).
  - zcases; [apply Z.ones_spec_low | apply Z.ones_spec_high]; lia.
  - rewrite Z.ones_equiv. lia.
Qed.

Lemma testbit_head_mask s i :
  0 <= s -> 0 <= i < 8 -> Z.testbit (u8 (Z.shiftl 0xFF s)) i = (s <=? i).
Proof.
  intros Hs Hi. unfold u8. rewrite Z.mod_pow2_bits_low by lia.
  destruct (Z.leb_spec s i).
  - rewrite Z.shiftl_spec by lia. change 0xFF with (2 ^ 8 - 1).
    rewrite testbit_low_ones by lia. lia.
  - apply Z.shiftl_spec_low. lia.
Qed.

Lemma cluster_mask_range start stop bi : 0 <= start -> 0 <= stop -> 0 <= cluster_mask start stop bi < 256.
Proof.
  intros H1 H2. unfold cluster_mask. pose proof (Z.mod_pos_bound stop 8).
  destruct (_ && _); [apply Z.mod_pos_bound; lia |]. destruct (_ && _); [|lia].
  rewrite Z.shiftl_1_l. assert (2 ^ (stop mod 8) <= 2 ^ 8) by (apply Z.pow_le_mono_r; lia).
  assert (0 < 2 ^ (stop mod 8)) by (apply Z.pow_pos_nonneg; lia). lia.
Qed.

(** Inside the range every mask bit is set. *)
Lemma cluster_mask_inside start stop bi i :
  0 <= start -> 0 <= i < 8 -> start <= bi * 8 + i < stop ->
  Z.testbit (cluster_mask start stop bi) i = true.
Proof.
  intros Hs Hi Hr. unfold cluster_mask.
  pose proof (Z.div_mod start 8). pose proof (Z.mod_pos_bound start 8).
  pose proof (Z.div_mod stop 8). pose proof (Z.mod_pos_bound stop 8).
  rewrite div_ceil_8 by lia. destruct (_ && _) eqn:E1.
  - rewrite testbit_head_mask by lia. lia.
  - destruct (_ && negb (stop mod 8 =? 0)) eqn:E2.
    + rewrite Z.shiftl_1_l, testbit_low_ones by lia.
      destruct (Z.eqb_spec (stop mod 8) 0); [lia |]. lia.
    + change 0xFF with (2 ^ 8 - 1). rewrite testbit_low_ones by lia. lia.
Qed.

(** Start and end in the same byte, neither on a byte boundary: the one shape
    the mask does not cut at the end. *)
Definition straddles (start stop : Z) : Prop :=
  start mod 8 <> 0 /\ stop mod 8 <> 0 /\ start / 8 = stop / 8.

Lemma cluster_mask_outside start stop bi i :
  0 <= start -> 0 <= stop -> 0 <= i < 8 -> start / 8 <= bi < div_ceil stop 8 ->
  ~ straddles start stop ->
  Z.testbit (cluster_mask start stop bi) i = true -> start <= bi * 8 + i < stop.
Proof.
  intros Hs Ht Hi Hb Hns. unfold cluster_mask, straddles in *.
  pose proof (Z.div_mod start 8). pose proof (Z.mod_pos_bound start 8).
  pose proof (Z.div_mod stop 8). pose proof (Z.mod_pos_bound stop 8).
  rewrite div_ceil_8 in * by lia.
  destruct (Z.eqb_spec (stop mod 8) 0); destruct (Z.eqb_spec (start mod 8) 0);
    cbn [negb]; rewrite ?andb_false_r, ?andb_true_r.
  - intros _. lia.
  - destruct (Z.eqb_spec bi (start / 8)); [rewrite testbit_head_mask by lia | intros _]; lia.
  - destruct (Z.eqb_spec bi (stop / 8 + 1 - 1)).
    + rewrite Z.shiftl_1_l, testbit_low_ones by lia. lia.
    + intros _. lia.
  - destruct (Z.eqb_spec bi (start / 8)); [rewrite testbit_head_mask by lia; lia |].
    destruct (Z.eqb_spec bi (stop / 8 + 1 - 1)).
    + rewrite Z.shiftl_1_l, testbit_low_ones by lia. lia.
    + intros _. lia.
Qed.

Lemma cluster_scan_iff n data start stop b0 :
  0 <= b0 ->
  cluster_scan n data start stop b0 = true <->
  exists bi byte, b0 <= bi < b0 + Z.of_nat n /\ zget data bi = Some byte /\
    Z.land byte (cluster_mask start stop bi) <> 0.
Proof.
  revert b0. induction n as [|n IH]; intros b0 Hb0; cbn [cluster_scan].
  - split; [done |]. intros (bi & ? & ? & _). lia.
  - assert (Hrest : cluster_scan n data start stop (b0 + 1) = true <->
      exists bi byte, b0 + 1 <= bi < b0 + Z.of_nat (S n) /\ zget data bi = Some byte /\
        Z.land byte (cluster_mask start stop bi) <> 0).
    { rewrite IH by lia. by replace (b0 + 1 + Z.of_nat n) with (b0 + Z.of_nat (S n)) by lia. }
    destruct (zget data b0) as [byte |] eqn:Eb.
    + destruct (Z.eqb_spec (Z.land byte (cluster_mask start stop b0)) 0) as [E0 | E0]; cbn [negb].
      * rewrite Hrest. split; intros (bi & b & Hr & Hg & Hne); exists bi, b; split_and!; try done; try lia.
        destruct (Z.eq_dec bi b0) as [-> |]; [congruence | lia].
      * split; [|done]. intros _. exists b0, byte. split_and!; try done; lia.
    + rewrite Hrest. split; intros (bi & b & Hr & Hg & Hne); exists bi, b; split_and!; try done; try lia.
      destruct (Z.eq_dec bi b0) as [-> |]; [congruence | lia].
Qed.


(** * Occupied clusters *)

(** Bit [frs] of the data, with no regard to the record count. *)
Definition data_bit (bm : MftBitmap) (frs : Z) : Prop :=
  exists byte, zget bm.(bm_data) (frs / 8) = Some byte /\ Z.testbit byte (frs mod 8) = true.

Lemma byte_bit bi i : 0 <= i < 8 -> (bi * 8 + i) / 8 = bi /\ (bi * 8 + i) mod 8 = i.
Proof.
  intros H. split.
  - symmetry. apply Z.div_unique with i; lia.
  - symmetry. apply Z.mod_unique with bi; lia.
Qed.

Lemma cluster_has_in_use_scan bm start rpc :
  bitmap_wf bm -> 0 <= start -> 0 <= rpc -> start + rpc < 2 ^ 64 ->
  let stop := Z.min (start + rpc) bm.(bm_record_count) in
  cluster_has_in_use bm start rpc = true <->
  exists bi i, start / 8 <= bi < div_ceil stop 8 /\ 0 <= i < 8 /\
    data_bit bm (bi * 8 + i) /\ Z.testbit (cluster_mask start stop bi) i = true.
Proof.
  intros [Hb Hc] Hs Hr Ho stop. unfold cluster_has_in_use. rewrite u64_small by lia. fold stop.
  assert (0 <= start / 8) by (apply Z.div_pos; lia).
  rewrite cluster_scan_iff by done. split.
  - intros (bi & byte & Hbi & Hg & Hne).
    destruct (land_byte_nonzero byte (cluster_mask start stop bi)) as (i & Hi & H1 & H2);
      [apply cluster_mask_range; lia | done |].
    exists bi, i. destruct (byte_bit bi i Hi) as [E1 E2]. unfold data_bit. rewrite E1, E2.
    split_and!; eauto; lia.
  - intros (bi & i & Hbi & Hi & (byte & Hg & Hbit) & Hm).
    destruct (byte_bit bi i Hi) as [E1 E2]. rewrite E1 in Hg. rewrite E2 in Hbit.
    exists bi, byte. pose proof Hg as [? _]%zget_Some. split_and!; try done; try lia.
    apply (land_common_bit _ _ i); done || lia.
Qed.

Lemma is_record_in_use_data bm frs :
  0 <= frs -> is_record_in_use bm frs = true <-> frs < bm.(bm_record_count) /\ data_bit bm frs.
Proof. apply is_record_in_use_iff. Qed.

(** The answer is never false for a cluster with a record in use. *)
Lemma cluster_has_in_use_complete bm start rpc frs :
  bitmap_wf bm -> 0 <= start -> 0 <= rpc -> start + rpc < 2 ^ 64 ->
  start <= frs < start + rpc -> is_record_in_use bm frs = true ->
  cluster_has_in_use bm start rpc = true.
Proof.
  intros Hwf Hs Hr Ho Hf [Hlt Hd]%is_record_in_use_data; [|lia].
  apply cluster_has_in_use_scan; [done.. |]. destruct Hwf as [_ Hc].
  pose proof (Z.div_mod frs 8) as E. pose proof (Z.mod_pos_bound frs 8).
  exists (frs / 8), (frs mod 8).
  replace (frs / 8 * 8 + frs mod 8) with frs by lia. split_and!; try done; try lia.
  - apply Z.div_le_mono; lia.
  - rewrite div_ceil_8 by lia. pose proof (Z.div_mod (Z.min (start + rpc) (bm_record_count bm)) 8).
    pose proof (Z.mod_pos_bound (Z.min (start + rpc) (bm_record_count bm)) 8).
    zcases; lia.
  - apply cluster_mask_inside; lia.
Qed.

(** [cluster_has_in_use] never misses a record in use, and reports a cluster only for
    a record of its range that is in use, except for a range that starts and ends inside one
    byte. *)
Theorem cluster_has_in_use_exact (bm : MftBitmap) (start rpc : Z)
    (Hwf : bitmap_wf bm) (Hs : 0 <= start) (Hr : 0 <= rpc) (Ho : start + rpc < 2 ^ 64) :
  ((exists frs, start <= frs < start + rpc /\ is_record_in_use bm frs = true) ->
   cluster_has_in_use bm start rpc = true) /\
  (~ straddles start (Z.min (start + rpc) bm.(bm_record_count)) ->
   cluster_has_in_use bm start rpc = true ->
   exists frs, start <= frs < start + rpc /\ is_record_in_use bm frs = true).
Proof.
  split.
  - intros (frs & Hf & Hu). by apply (cluster_has_in_use_complete bm start rpc frs).
  - intros Hns (bi & i & Hbi & Hi & Hd & Hm)%cluster_has_in_use_scan; [|done..].
    pose proof Hwf as [_ Hc].
    assert (start <= bi * 8 + i < Z.min (start + rpc) (bm_record_count bm)) by
      (apply cluster_mask_outside; done || lia).
    exists (bi * 8 + i). split; [lia |]. apply is_record_in_use_data; [lia |]. split; [lia | done].
Qed.

Lemma cluster_has_in_use_exact_witness :
  let bm := from_bytes [0; 0x10; 0xFF] in
  (cluster_has_in_use bm 12 4 = true /\ cluster_has_in_use bm 0 8 = false) /\
  exists frs, 12 <= frs < 16 /\ is_record_in_use bm frs = true.
Proof.
  intros bm. assert (H : cluster_has_in_use bm 12 4 = true) by reflexivity.
  split; [by_eval |].
  apply (cluster_has_in_use_exact bm 12 4);
    [split; [forall_eval | discriminate] | lia | lia | lia | | done].
  intros (H1 & H2 & _). apply H2. reflexivity.
Defined.

(** For a range that starts and ends inside one byte, as every unaligned cluster of one
    or two records does, the scan also looks at the records of that byte after the range: the
    answer is about [start .. next multiple of 8]. *)
Theorem cluster_has_in_use_straddling (bm : MftBitmap) (start rpc : Z)
    (Hwf : bitmap_wf bm) (Hs : 0 <= start) (Hr : 0 <= rpc) (Ho : start + rpc < 2 ^ 64)
    (Hst : straddles start (Z.min (start + rpc) bm.(bm_record_count))) :
  cluster_has_in_use bm start rpc = true <->
  exists frs, start <= frs < 8 * (start / 8 + 1) /\ data_bit bm frs.
Proof.
  rewrite cluster_has_in_use_scan by done. destruct Hst as (H1 & H2 & H3).
  pose proof Hwf as [_ Hc]. rewrite div_ceil_8 by lia.
  destruct (Z.eqb_spec (Z.min (start + rpc) (bm_record_count bm) mod 8) 0); [done |].
  assert (Hm : forall i, 0 <= i < 8 ->
    Z.testbit (cluster_mask start (Z.min (start + rpc) (bm_record_count bm)) (start / 8)) i =
    (start mod 8 <=? i)).
  { intros i Hi. unfold cluster_mask. rewrite Z.eqb_refl. destruct (Z.eqb_spec (start mod 8) 0); [done |].
    cbn [negb andb]. apply testbit_head_mask; [|done]. apply Z.mod_pos_bound. lia. }
  pose proof (Z.div_mod start 8). pose proof (Z.mod_pos_bound start 8). split.
  - intros (bi & i & Hbi & Hi & Hd & Ht). assert (bi = start / 8) as -> by lia.
    rewrite Hm in Ht by done. exists (start / 8 * 8 + i). split; [lia | done].
  - intros (frs & Hf & Hd). exists (start / 8), (frs mod 8).
    pose proof (Z.mod_pos_bound frs 8).
    assert (frs / 8 = start / 8) as E by (symmetry; apply Z.div_unique with (frs - 8 * (start / 8)); lia).
    pose proof (Z.div_mod frs 8). rewrite Hm by lia.
    replace (start / 8 * 8 + frs mod 8) with frs by lia. split_and!; done || lia.
Qed.

(** Records 2 and 3 are free, record 7 is in use: the cluster of records 2 and 3 is reported. *)
Lemma cluster_has_in_use_straddling_witness :
  let bm := from_bytes [0x80] in
  (is_record_in_use bm 2 = false /\ is_record_in_use bm 3 = false) /\
  cluster_has_in_use bm 2 2 = true.
Proof.
  intros bm. split; [by_eval |].
  apply (cluster_has_in_use_straddling bm 2 2);
    [split; [forall_eval | discriminate] | lia | lia | lia | by_eval |].
  exists 7. split; [by_eval |]. exists 0x80. split; reflexivity.
Defined.

(** * Ranges of clusters *)

(** [advance] stops at the first cluster with the other answer. *)
Lemma advance_spec n bm rpc want cur :
  let c := advance n bm rpc want cur in
  cur <= c <= cur + Z.of_nat n /\
  (forall k, cur <= k < c -> cluster_in_use bm rpc k = want) /\
  (c < cur + Z.of_nat n -> cluster_in_use bm rpc c = negb want).
Proof.
  cbv zeta. revert cur. induction n as [|n IH]; intros cur; cbn [advance].
  - split_and!; lia.
  - destruct (eqb _ want) eqn:E.
    + apply eqb_prop in E. destruct (IH (cur + 1)) as (H1 & H2 & H3). split_and!; try lia.
      * intros k Hk. destruct (Z.eq_dec k cur) as [-> |]; [done |]. apply H2. lia.
      * intros Hlt. apply H3. lia.
    + apply eqb_false_iff in E. split_and!; try lia. intros _.
      by destruct (cluster_in_use bm rpc cur), want.
Qed.

(** Ranges [ (first, count) ] from [lo] on: nonempty, in order, with a gap between
    neighbours. *)
Inductive separated (lo hi : Z) : list (Z * Z) -> Prop :=
| separated_nil : separated lo hi []
| separated_cons a n rs :
    lo <= a -> 0 < n -> a + n <= hi -> separated (a + n + 1) hi rs ->
    separated lo hi ((a, n) :: rs).

Definition in_ranges (c : Z) (rs : list (Z * Z)) : Prop :=
  exists a n, (a, n) ∈ rs /\ a <= c < a + n.

Lemma separated_weaken lo lo' hi rs : lo' <= lo -> separated lo hi rs -> separated lo' hi rs.
Proof. intros H. destruct 1; constructor; done || lia. Qed.

Lemma separated_above lo hi rs c : separated lo hi rs -> in_ranges c rs -> lo <= c.
Proof.
  intros H. induction H as [lo hi | lo hi a n rs H1 H2 H3 H4 IH]; intros (a' & n' & Hin & Hc).
  - by apply elem_of_nil in Hin.
  - apply elem_of_cons in Hin as [[= -> ->] | Hin]; [lia |].
    assert (a + n + 1 <= c); [|lia]. apply IH. by exists a', n'.
Qed.

Lemma in_ranges_cons c a n rs : in_ranges c ((a, n) :: rs) <-> a <= c < a + n \/ in_ranges c rs.
Proof.
  unfold in_ranges. split.
  - intros (a' & n' & [[= -> ->] | H]%elem_of_cons & Hc); eauto 6.
  - intros [H | (a' & n' & H & Hc)].
    + exists a, n. split; [left | done].
    + exists a', n'. split; [by right | done].
Qed.

Lemma collect_cluster_ranges_ok bm rpc fuel cur :
  0 <= cur <= total_clusters bm rpc ->
  (Z.to_nat (total_clusters bm rpc - cur) < fuel)%nat ->
  exists rs, collect_cluster_ranges fuel bm rpc cur = Some rs /\
    separated cur (total_clusters bm rpc) rs /\
    forall c, cur <= c < total_clusters bm rpc ->
      cluster_in_use bm rpc c = true <-> in_ranges c rs.
Proof.
  set (T := total_clusters bm rpc).
  revert cur. induction fuel as [|fuel IH]; intros cur Hcur Hf; [lia |].
  cbn [collect_cluster_ranges]. unfold cluster_range_next. fold T.
  destruct (advance_spec (Z.to_nat (T - cur)) bm rpc false cur) as (H1 & H2 & H3).
  set (c1 := advance (Z.to_nat (T - cur)) bm rpc false cur) in *.
  destruct (Z.geb_spec c1 T).
  - exists []. split_and!; [done | constructor |]. intros c Hc. rewrite H2 by lia.
    split; [done |]. intros (a & n & Hin & _). by apply elem_of_nil in Hin.
  - destruct (advance_spec (Z.to_nat (T - c1)) bm rpc true c1) as (G1 & G2 & G3).
    set (c2 := advance (Z.to_nat (T - c1)) bm rpc true c1) in *.
    assert (Hc1 : cluster_in_use bm rpc c1 = true) by (apply H3; lia).
    assert (c1 < c2) as Hlt.
    { destruct (Z.eq_dec c1 c2) as [E |]; [|lia]. rewrite <- E in G3. rewrite Hc1 in G3.
      discriminate G3. lia. }
    destruct (IH c2) as (rs & E & Hsep & Hin); [lia.. |]. rewrite E.
    exists ((c1, c2 - c1) :: rs). split; [done |]. split.
    + constructor; try lia. replace (c1 + (c2 - c1) + 1) with (c2 + 1) by lia.
      destruct Hsep as [| a n rs' ? ? ? ?]; constructor; try done.
      destruct (Z.eq_dec a c2) as [-> |]; [|lia].
      assert (cluster_in_use bm rpc c2 = true) as Ht.
      { apply Hin; [lia |]. apply in_ranges_cons. lia. }
      rewrite G3 in Ht by lia. done.
    + intros c Hc. rewrite in_ranges_cons. destruct (Z.ltb_spec c c1).
      { rewrite H2 by lia. split; [done |]. intros [? | Hi]; [lia |].
        apply (separated_above _ _ _ _ Hsep) in Hi. lia. }
      destruct (Z.ltb_spec c c2).
      { rewrite G2 by lia. split; [left; lia | done]. }
      rewrite Hin by lia. split; [by right |]. intros [? | ?]; [lia | done].
Qed.

Lemma in_use_cluster_ranges_ok (bm : MftBitmap) (rpc : Z)
    (Hwf : bitmap_wf bm) (Hr : 0 < rpc) (Ho : bm.(bm_record_count) + rpc < 2 ^ 64) :
  exists rs, in_use_cluster_ranges bm rpc = Some rs /\
    separated 0 (total_clusters bm rpc) rs /\
    (forall c, 0 <= c < total_clusters bm rpc ->
       cluster_has_in_use bm (c * rpc) rpc = true <-> in_ranges c rs) /\
    (forall frs, 0 <= frs -> is_record_in_use bm frs = true -> in_ranges (frs / rpc) rs).
Proof.
  pose proof Hwf as [_ Hc]. unfold in_use_cluster_ranges.
  destruct (Z.eqb_spec rpc 0); [lia |].
  assert (HT : 0 <= total_clusters bm rpc) by (apply Z.div_pos; lia).
  assert (Hmul : forall c, 0 <= c < total_clusters bm rpc -> c * rpc < bm_record_count bm).
  { intros c Hlt. unfold total_clusters, div_ceil in Hlt.
    pose proof (Z.div_mod (bm_record_count bm + rpc - 1) rpc). 
    pose proof (Z.mod_pos_bound (bm_record_count bm + rpc - 1) rpc). nia. }
  destruct (collect_cluster_ranges_ok bm rpc (S (Z.to_nat (total_clusters bm rpc))) 0)
    as (rs & E & Hsep & Hin); [lia | lia |].
  assert (Hcl : forall c, 0 <= c < total_clusters bm rpc ->
     cluster_has_in_use bm (c * rpc) rpc = true <-> in_ranges c rs).
  { intros c Hlt. specialize (Hmul c Hlt). rewrite <- (Hin c Hlt). unfold cluster_in_use.
    rewrite u64_small by nia. done. }
  exists rs. split_and!; try done. intros frs Hf Hu.
  pose proof (proj1 (proj1 (is_record_in_use_data bm frs Hf) Hu)) as Hlt.
  pose proof (Z.div_mod frs rpc). pose proof (Z.mod_pos_bound frs rpc).
  assert (0 <= frs / rpc < total_clusters bm rpc).
  { split; [apply Z.div_pos; lia |]. unfold total_clusters, div_ceil.
    apply Z.lt_le_trans with (frs / rpc + 1); [lia |].
    replace (frs / rpc + 1) with ((frs + 1 * rpc) / rpc) by (rewrite Z.div_add; lia).
    apply Z.div_le_mono; lia. }
  apply Hcl; [done |]. specialize (Hmul (frs / rpc)).
  apply (cluster_has_in_use_complete _ _ _ frs); try done; nia.
Qed.

(** For every bitmap and every nonzero number of records per cluster the iterator
    terminates, its ranges are nonempty, inside the volume, in increasing order and separated,
    and they hold exactly the clusters [cluster_has_in_use] accepts; so every record in use
    lies in one of them. *)
Theorem in_use_cluster_ranges_exact (bm : MftBitmap) (rpc : Z)
    (Hwf : bitmap_wf bm) (Hr : 0 < rpc) (Ho : bm.(bm_record_count) + rpc < 2 ^ 64) :
  exists rs, in_use_cluster_ranges bm rpc = Some rs /\
    separated 0 (total_clusters bm rpc) rs /\
    (forall c, 0 <= c < total_clusters bm rpc ->
       cluster_has_in_use bm (c * rpc) rpc = true <-> in_ranges c rs) /\
    (forall frs, 0 <= frs -> is_record_in_use bm frs = true -> in_ranges (frs / rpc) rs).
Proof. by apply in_use_cluster_ranges_ok. Qed.

Lemma in_use_cluster_ranges_exact_witness :
  in_use_cluster_ranges (from_bytes [0x01; 0; 0xF0; 0x0F]) 4 = Some [(0, 1); (5, 2)] /\
  exists rs, in_use_cluster_ranges (from_bytes [0x01; 0; 0xF0; 0x0F]) 4 = Some rs /\
    in_ranges 5 rs.
Proof.
  split; [reflexivity |].
  destruct (in_use_cluster_ranges_exact (from_bytes [0x01; 0; 0xF0; 0x0F]) 4)
    as (rs & E & _ & _ & H); [split; [forall_eval | discriminate] | lia | reflexivity |].
  exists rs. split; [done |]. apply (H 23); [lia | reflexivity].
Defined.

(** * Enumerations of the records in use *)

Lemma enumerate_app (data : list Z) b : enumerate (data ++ [b]) = enumerate data ++ [(zlen data, b)].
Proof.
  unfold enumerate. rewrite zlen_app. change (zlen [b]) with 1.
  rewrite seqZ_app by (pose proof (zlen_nonneg data); lia).
  rewrite zip_with_app by (rewrite length_seqZ; unfold zlen; lia). done.
Qed.

Lemma in_use_records_snoc data n b :
  in_use_records (mk_bitmap (data ++ [b]) n) = in_use_records (mk_bitmap data n) ++
    map (fun bit => zlen data * 8 + bit) (List.filter (bit_set b) (seqZ 0 8)).
Proof.
  unfold in_use_records. cbn [bm_data]. rewrite enumerate_app, flat_map_app. cbn [flat_map].
  by rewrite app_nil_r.
Qed.

(** Facts about one byte, decided over the 256 values. *)
Definition byte_facts (b : Z) : bool :=
  let bits := List.filter (bit_set b) (seqZ 0 8) in
  bool_decide (last bits = if b =? 0 then None else Some (7 - leading_zeros b)) &&
  bool_decide (zlen bits = count_ones b).

Lemma byte_facts_hold b : 0 <= b < 256 -> byte_facts b = true.
Proof.
  intros H. assert (Ha : forallb byte_facts (seqZ 0 256) = true) by (vm_compute; reflexivity).
  rewrite forallb_forall in Ha. apply Ha. apply list_elem_of_In, elem_of_seqZ. lia.
Qed.

Lemma elem_of_in_use_records bm frs :
  frs ∈ in_use_records bm <-> 0 <= frs /\ data_bit bm frs.
Proof.
  destruct bm as [data n]. revert frs. induction data as [|b data IH] using rev_ind; intros frs.
  - split; [by intros ?%elem_of_nil |]. intros [_ (b & [Hb _]%zget_Some & _)].
    cbn in Hb. change (zlen (@nil Z)) with 0 in Hb. lia.
  - rewrite in_use_records_snoc, elem_of_app, IH. unfold data_bit. cbn [bm_data].
    pose proof (Z.div_mod frs 8). pose proof (Z.mod_pos_bound frs 8).
    pose proof (zlen_nonneg data). split.
    + intros [(Hf & byte & Hg & Hb) | Hin].
      * split; [done |]. exists byte. split; [by apply zget_app_Some | done].
      * apply list_elem_of_fmap in Hin as (bit & -> & Hin).
        apply list_elem_of_In, filter_In in Hin as [Hin Hbit].
        apply list_elem_of_In, elem_of_seqZ in Hin.
        destruct (byte_bit (zlen data) bit) as [E1 E2]; [lia |]. rewrite E1, E2. split; [lia |].
        exists b. rewrite zget_app_r, Z.sub_diag by lia. split; [done |].
        by rewrite <- bit_set_testbit by lia.
    + intros (Hf & byte & Hg & Hb). destruct (Z.ltb_spec (frs / 8) (zlen data)).
      * left. split; [done |]. exists byte. by rewrite <- (zget_app_l data [b]) by lia.
      * right. pose proof Hg as [Hr _]%zget_Some. autorewrite with zlen in Hr.
        assert (E : frs / 8 = zlen data) by lia. rewrite E, zget_app_r, Z.sub_diag in Hg by lia.
        injection Hg as ->. apply list_elem_of_fmap. exists (frs mod 8). split; [lia |].
        apply list_elem_of_In, filter_In. split; [apply list_elem_of_In, elem_of_seqZ; lia |].
        by rewrite bit_set_testbit by lia.
Qed.

Lemma in_use_records_sorted bm : StronglySorted Z.lt (in_use_records bm).
Proof.
  destruct bm as [data n]. induction data as [|b data IH] using rev_ind; [constructor |].
  rewrite in_use_records_snoc. apply StronglySorted_app_2; [| done |].
  - intros x1 x2 [_ (byte & [Hr _]%zget_Some & _)]%elem_of_in_use_records Hx2.
    apply list_elem_of_fmap in Hx2 as (bit & -> & Hin).
    apply list_elem_of_In, filter_In in Hin as [Hin _].
    apply list_elem_of_In, elem_of_seqZ in Hin. cbn [bm_data] in Hr.
    pose proof (Z.div_mod x1 8). pose proof (Z.mod_pos_bound x1 8). lia.
  - apply (StronglySorted_fmap _ Z.lt); [lia |]. apply filter_sorted, seqZ_sorted.
Qed.

Lemma count_in_use_length bm : byte_list bm.(bm_data) -> count_in_use bm = zlen (in_use_records bm).
Proof.
  destruct bm as [data n]. cbn [bm_data]. induction data as [|b data IH] using rev_ind; [done |].
  intros [Hd Hb]%Forall_app. apply Forall_cons in Hb as [Hb _].
  rewrite in_use_records_snoc, zlen_app, <- IH, zlen_map by done.
  unfold count_in_use. cbn [bm_data]. rewrite map_app, foldr_app. cbn [foldr map].
  pose proof (byte_facts_hold b Hb) as [_ H%bool_decide_eq_true_1]%andb_true_iff. rewrite H.
  generalize (map count_ones data) (count_ones b). intros l x.
  induction l as [|y l IHl]; cbn [foldr]; lia.
Qed.

Lemma max_frs_in_use_last bm :
  byte_list bm.(bm_data) -> max_frs_in_use bm = default 0 (last (in_use_records bm)).
Proof.
  destruct bm as [data n]. cbn [bm_data]. induction data as [|b data IH] using rev_ind; [done |].
  intros [Hd Hb]%Forall_app. apply Forall_cons in Hb as [Hb _].
  rewrite in_use_records_snoc. unfold max_frs_in_use in *. cbn [bm_data] in *.
  rewrite enumerate_app, rev_app_distr, last_app. cbn [rev app max_frs_loop].
  pose proof (byte_facts_hold b Hb) as [H%bool_decide_eq_true_1 _]%andb_true_iff.
  change (map ?f ?l) with (f <$> l). rewrite fmap_last, H.
  destruct (b =? 0); [by apply IH | done].
Qed.

(** The records [in_use_records] yields are increasing and are exactly the records in
    use, [count_in_use] is their number and [max_frs_in_use] the last of them, or 0 when there
    is none. *)
Theorem in_use_records_exact (data : list Z) (Hb : byte_list data) :
  let bm := from_bytes data in
  StronglySorted Z.lt (in_use_records bm) /\
  (forall frs, frs ∈ in_use_records bm <-> 0 <= frs /\ is_record_in_use bm frs = true) /\
  count_in_use bm = zlen (in_use_records bm) /\
  max_frs_in_use bm = default 0 (last (in_use_records bm)).
Proof.
  split_and!; [apply in_use_records_sorted | | by apply count_in_use_length
              | by apply max_frs_in_use_last].
  intros frs. rewrite elem_of_in_use_records. split; intros [Hf H]; split; try done.
  - apply is_record_in_use_data; [done |]. split; [|done].
    destruct H as (byte & [Hr _]%zget_Some & _). cbn [from_bytes bm_data bm_record_count] in *.
    pose proof (Z.div_mod frs 8). pose proof (Z.mod_pos_bound frs 8). lia.
  - by apply is_record_in_use_data in H as [_ H].
Qed.

Lemma in_use_records_exact_witness :
  in_use_records (from_bytes [0x21; 0; 0x80]) = [0; 5; 23] /\
  max_frs_in_use (from_bytes [0x21; 0; 0x80]) = 23 /\
  count_in_use (from_bytes [0x21; 0; 0x80]) = 3.
Proof.
  destruct (in_use_records_exact [0x21; 0; 0x80]) as (_ & _ & H1 & H2); [forall_eval |].
  split; [reflexivity |]. split; [exact H2 | exact H1].
Defined.

(** A bitmap made by [new_all_valid] answers in use for exactly its records, but
    [count_in_use] and [max_frs_in_use] count whole bytes: up to seven records that
    [is_record_in_use] and the record count exclude. *)
Theorem new_all_valid_counts (n : Z) (Hn : 0 < n) :
  let bm := new_all_valid n in
  (forall frs, 0 <= frs -> is_record_in_use bm frs = (frs <? n)) /\
  count_in_use bm = 8 * div_ceil n 8 /\ max_frs_in_use bm = 8 * div_ceil n 8 - 1.
Proof.
  intros bm. assert (Hd : 0 < div_ceil n 8) by (apply Z.div_str_pos; lia).
  assert (Hz : zlen (bm_data bm) = div_ceil n 8).
  { unfold bm, new_all_valid, zrepeat, zlen. cbn [bm_data]. rewrite length_replicate. lia. }
  assert (Hff : Forall (eq 0xFF) (bm_data bm)) by (apply Forall_replicate; done).
  assert (Hbl : byte_list (bm_data bm)) by (eapply Forall_impl; [apply Hff |]; cbn; lia).
  assert (Hbit : forall frs, data_bit bm frs <-> 0 <= frs < 8 * div_ceil n 8).
  { intros frs. pose proof (Z.div_mod frs 8). pose proof (Z.mod_pos_bound frs 8). split.
    - intros (byte & [Hr _]%zget_Some & _). lia.
    - intros Hr. destruct (zget_is_Some (bm_data bm) (frs / 8)) as [x Hx]; [lia |].
      exists x. split; [done |]. apply zget_elem in Hx. rewrite Forall_forall in Hff.
      rewrite <- (Hff x Hx). change 0xFF with (2 ^ 8 - 1). rewrite testbit_low_ones by lia. lia. }
  assert (Hl : in_use_records bm = seqZ 0 (8 * div_ceil n 8)).
  { apply (StronglySorted_unique_strong Z.lt); [lia | apply in_use_records_sorted
    | apply seqZ_sorted |].
    apply NoDup_Permutation; [| apply NoDup_seqZ |].
    - apply sorted_lt_NoDup, in_use_records_sorted.
    - intros x. rewrite elem_of_in_use_records, elem_of_seqZ, Hbit. lia. }
  split_and!.
  - intros frs Hf. apply eq_true_iff_eq. rewrite is_record_in_use_data, Hbit by done.
    unfold bm, new_all_valid. cbn [bm_record_count]. unfold div_ceil in *.
    pose proof (Z.div_mod (n + 8 - 1) 8). pose proof (Z.mod_pos_bound (n + 8 - 1) 8). lia.
  - rewrite count_in_use_length, Hl by done. unfold zlen. rewrite length_seqZ. lia.
  - rewrite max_frs_in_use_last, Hl by done.
    replace (8 * div_ceil n 8) with ((8 * div_ceil n 8 - 1) + 1) at 1 by lia.
    rewrite seqZ_app by lia. change (seqZ ?a 1) with [a]. rewrite last_snoc. cbn. lia.
Qed.

Lemma new_all_valid_counts_witness :
  is_record_in_use (new_all_valid 10) 10 = false /\ count_in_use (new_all_valid 10) = 16.
Proof.
  destruct (new_all_valid_counts 10) as (H1 & H2 & _); [lia |].
  split; [by apply (H1 10) | exact H2].
Defined.

(** * Searches *)

Definition in_use_from (bm : MftBitmap) (start : Z) : list Z :=
  List.filter (is_record_in_use bm) (seqZ start (bm.(bm_record_count) - start)).

Lemma find_in_use_loop_eq n bm frs count res :
  0 <= frs -> frs + Z.of_nat n = bm.(bm_record_count) -> zlen res <= count ->
  find_in_use_loop n bm frs count res =
  take (Z.to_nat count) (res ++ List.filter (is_record_in_use bm) (seqZ frs (Z.of_nat n))).
Proof.
  revert frs res. induction n as [|n IH]; intros frs res Hf Hn Hlen; cbn [find_in_use_loop].
  - cbn [List.filter seqZ]. rewrite seqZ_nil by lia. cbn [List.filter].
    rewrite app_nil_r, take_ge by (unfold zlen in *; lia). done.
  - destruct (Z.geb_spec (zlen res) count) as [Hge | Hlt].
    + symmetry. assert (Z.to_nat count = length res) as -> by (unfold zlen in *; lia).
      apply take_app_length.
    + rewrite seqZ_cons by lia. cbn [List.filter].
      replace (Z.pred (Z.of_nat (S n))) with (Z.of_nat n) by lia.
      assert (E : is_record_in_use bm frs =
        match zget (bm_data bm) (frs / 8) with Some byte => bit_set byte (frs mod 8) | None => false end).
      { unfold is_record_in_use. destruct (Z.geb_spec frs (bm_record_count bm)); [lia |].
        destruct (Z.geb_spec (frs / 8) (zlen (bm_data bm))); [|done].
        destruct (zget _ _) eqn:Eg; [|done]. apply zget_Some in Eg. lia. }
      rewrite IH; [| lia | lia |].
      * rewrite E. destruct (zget _ _) as [byte |]; [|done].
        destruct (bit_set byte (frs mod 8)); [|done]. by rewrite <- app_assoc.
      * destruct (zget _ _) as [byte |]; [|lia]. destruct (bit_set byte _); [|lia].
        rewrite zlen_app. change (zlen [frs]) with 1. lia.
Qed.

(** [find_in_use_range] is the first [count] records in use from [start_frs] on, in
    order. *)
Theorem find_in_use_range_first (bm : MftBitmap) (start count : Z)
    (Hs : 0 <= start) (Hc : 0 <= count) :
  find_in_use_range bm start count = take (Z.to_nat count) (in_use_from bm start).
Proof.
  unfold find_in_use_range, in_use_from. destruct (Z.leb_spec (bm_record_count bm) start).
  - rewrite seqZ_nil by lia. replace (Z.to_nat (bm_record_count bm - start)) with 0%nat by lia.
    cbn. by rewrite take_nil.
  - rewrite find_in_use_loop_eq; [| lia | lia | done]. rewrite Z2Nat.id by lia. done.
Qed.

Lemma find_in_use_range_first_witness :
  find_in_use_range (from_bytes [0xAA; 0x03]) 2 3 = [3; 5; 7] /\
  take 3 (in_use_from (from_bytes [0xAA; 0x03]) 2) = [3; 5; 7].
Proof.
  split; [reflexivity |].
  change (take (Z.to_nat 3) (in_use_from (from_bytes [0xAA; 0x03]) 2) = [3; 5; 7]).
  rewrite <- (find_in_use_range_first (from_bytes [0xAA; 0x03]) 2 3) by lia. reflexivity.
Defined.

Lemma skip_begin_loop_spec n bm frs acc :
  let k := skip_begin_loop n bm frs acc - acc in
  0 <= k <= Z.of_nat n /\
  (forall i, frs <= i < frs + k -> is_record_in_use bm i = false) /\
  (k < Z.of_nat n -> is_record_in_use bm (frs + k) = true).
Proof.
  cbv zeta. revert frs acc. induction n as [|n IH]; intros frs acc; cbn [skip_begin_loop].
  - split_and!; lia.
  - destruct (is_record_in_use bm frs) eqn:E.
    + rewrite Z.sub_diag, Z.add_0_r. split_and!; try lia. done.
    + destruct (IH (frs + 1) (acc + 1)) as (H1 & H2 & H3).
      set (r := skip_begin_loop n bm (frs + 1) (acc + 1)) in *. split_and!; try lia.
      * intros i Hi. destruct (Z.eq_dec i frs) as [-> |]; [done |]. apply H2. lia.
      * intros Hk. replace (frs + (r - acc)) with (frs + 1 + (r - (acc + 1))) by lia. apply H3. lia.
Qed.

Lemma skip_end_loop_spec n bm frs acc :
  let k := skip_end_loop n bm frs acc - acc in
  0 <= k <= Z.of_nat n /\
  (forall i, frs - k < i <= frs -> is_record_in_use bm i = false) /\
  (k < Z.of_nat n -> is_record_in_use bm (frs - k) = true).
Proof.
  cbv zeta. revert frs acc. induction n as [|n IH]; intros frs acc; cbn [skip_end_loop].
  - split_and!; lia.
  - destruct (is_record_in_use bm frs) eqn:E.
    + rewrite Z.sub_diag, Z.sub_0_r. split_and!; try lia. done.
    + destruct (IH (frs - 1) (acc + 1)) as (H1 & H2 & H3).
      set (r := skip_end_loop n bm (frs - 1) (acc + 1)) in *. split_and!; try lia.
      * intros i Hi. destruct (Z.eq_dec i frs) as [-> |]; [done |]. apply H2. lia.
      * intros Hk. replace (frs - (r - acc)) with (frs - 1 - (r - (acc + 1))) by lia. apply H3. lia.
Qed.

(** [calculate_skip_range] clamps the range to the bitmap and returns the numbers of
    free records before the first and after the last record in use; for a range without one
    it returns its whole length and 0. *)
Theorem calculate_skip_range_exact (bm : MftBitmap) (start stop b e : Z) :
  let last := Z.min stop bm.(bm_record_count) in
  start < last -> calculate_skip_range bm start stop = (b, e) ->
  0 <= b /\ 0 <= e /\
  (forall frs, start <= frs < start + b -> is_record_in_use bm frs = false) /\
  (forall frs, last - e <= frs < last -> is_record_in_use bm frs = false) /\
  (b = last - start /\ e = 0 \/
   start + b <= last - 1 - e /\
   is_record_in_use bm (start + b) = true /\ is_record_in_use bm (last - 1 - e) = true).
Proof.
  intros lst Hlt. unfold calculate_skip_range. fold lst. destruct (Z.geb_spec start lst); [lia |].
  set (n := Z.to_nat (lst - start)).
  destruct (skip_begin_loop_spec n bm start 0) as (H1 & H2 & H3).
  destruct (skip_end_loop_spec n bm (lst - 1) 0) as (G1 & G2 & G3).
  rewrite !Z.sub_0_r in *.
  destruct (Z.eqb_spec (skip_begin_loop n bm start 0) (lst - start)) as [Eq | Ne];
    intros [= <- <-].
  - split_and!; done || lia.
  - set (b' := skip_begin_loop n bm start 0) in *.
    set (e' := skip_end_loop n bm (lst - 1) 0) in *.
    assert (Hb : is_record_in_use bm (start + b') = true) by (apply H3; lia).
    assert (He : e' <= lst - 1 - (start + b')).
    { destruct (Z.leb_spec e' (lst - 1 - (start + b'))); [done |].
      rewrite G2 in Hb by lia. done. }
    split_and!; try lia; try done; [intros; apply G2; lia |]. right. split_and!; try done; [lia |].
    apply G3. lia.
Qed.

Lemma calculate_skip_range_exact_witness :
  calculate_skip_range (from_bytes [0; 0x06]) 4 14 = (5, 3) /\
  is_record_in_use (from_bytes [0; 0x06]) (4 + 5) = true.
Proof.
  split; [reflexivity |].
  destruct (calculate_skip_range_exact (from_bytes [0; 0x06]) 4 14 5 3)
    as (_ & _ & _ & _ & [[? _] | (_ & H & _)]); [reflexivity | reflexivity | discriminate | done].
Defined.
