(* ===== verification/ExtentMap.v ===== *)
(** The map from record numbers to places on disk and the read plan built on it:
    [crates/uffs-mft/src/io/extent_map.rs] and [MftExtent] of
    [crates/uffs-mft/src/platform/extents.rs]. *)
From S2P Require Import Prelude DataRuns.

(** * Extents *)

Record MftExtent := mk_extent { ext_vcn : Z; ext_count : Z; ext_lcn : Lcn }.

Definition ext_byte_offset (e : MftExtent) (bytes_per_cluster : Z) : Z :=
  if Lcn_is_hole e.(ext_lcn) then 0 else Lcn_raw_unsigned e.(ext_lcn) *w bytes_per_cluster.

Definition ext_byte_size (e : MftExtent) (bytes_per_cluster : Z) : Z :=
  e.(ext_count) *w bytes_per_cluster.

(** The extents of a [$DATA] runlist; runs with LCN 0 are dropped. *)
Definition data_runs_to_extents (runs : list DataRun) : list MftExtent :=
  map (fun run => mk_extent (cast_unsigned run.(vcn)) run.(cluster_count) run.(lcn))
    (List.filter (fun run => negb (is_sparse run)) runs).

(** * The extent map *)

Record MftExtentMap := mk_map {
  extents : list MftExtent; bytes_per_cluster : Z; bytes_per_record : Z
}.

(** [None]: the records-per-cluster division of the log line panics. *)
Definition MftExtentMap_new (es : list MftExtent) (bpc bpr : Z) : option MftExtentMap :=
  let? _ := checked_div bpc bpr in Some (mk_map es bpc bpr).

Definition contiguous (mft_start_lcn mft_size_bytes bpc bpr : Z) : option MftExtentMap :=
  if bpc =? 0 then None else
  let cluster_count := div_ceil mft_size_bytes bpc in
  let? _ := checked_div mft_size_bytes bpr in
  Some (mk_map [mk_extent 0 cluster_count (cast_signed mft_start_lcn)] bpc bpr).

Definition extent_cmp (vcn : Z) (e : MftExtent) : comparison :=
  if vcn <? e.(ext_vcn) then Gt
  else if vcn >=? e.(ext_vcn) +w e.(ext_count) then Lt
  else Eq.

Definition find_extent (m : MftExtentMap) (vcn : Z) : option MftExtent :=
  match binary_search_by m.(extents) (extent_cmp vcn) with
  | Ok idx => zget m.(extents) idx
  | Err _ => None
  end.

(** The outer [None] is the panic of the division by the cluster size. *)
Definition physical_offset (m : MftExtentMap) (frs : Z) : option (option Z) :=
  let bpc := m.(bytes_per_cluster) in
  let virtual_byte_offset := frs *w m.(bytes_per_record) in
  let? vcn := checked_div virtual_byte_offset bpc in
  Some (
    let? extent := find_extent m vcn in
    if Lcn_is_hole extent.(ext_lcn) then None else
    let vcn_offset := vcn -w extent.(ext_vcn) in
    let cluster_byte_offset := vcn_offset *w bpc in
    let offset_in_cluster := virtual_byte_offset mod bpc in
    Some (Lcn_raw_unsigned extent.(ext_lcn) *w bpc +w cluster_byte_offset +w offset_in_cluster)).

Definition extent_count (m : MftExtentMap) : Z := zlen m.(extents).
Definition is_fragmented (m : MftExtentMap) : bool := 1 <? zlen m.(extents).

(** [iter().map(..).sum()]. *)
Definition total_size (m : MftExtentMap) : Z :=
  fold_left (fun acc e => acc +w e.(ext_count) *w m.(bytes_per_cluster)) m.(extents) 0.

Definition total_records (m : MftExtentMap) : option Z :=
  checked_div (total_size m) m.(bytes_per_record).

(** * The read plan *)

Record PlannedRead := mk_read { volume_offset : Z; byte_len : Z; base_frs : Z }.

(** The [while offset < extent_bytes] loop; [None]: out of fuel. *)
Fixpoint plan_extent (fuel : nat) (record_size chunk virtual_start extent_bytes physical_start offset : Z)
    : option (list PlannedRead) :=
  if offset <? extent_bytes then
    match fuel with
    | O => None
    | S fuel =>
        let len := Z.min chunk (extent_bytes - offset) in
        let read := mk_read (physical_start +w offset) len ((virtual_start +w offset) / record_size) in
        cons read <$> plan_extent fuel record_size chunk virtual_start extent_bytes physical_start (offset + len)
    end
  else Some [].

Fixpoint plan_extents (record_size cluster_size chunk virtual_end : Z) (es : list MftExtent)
    : option (list PlannedRead) :=
  match es with
  | [] => Some []
  | e :: es =>
      if Lcn_is_hole e.(ext_lcn) then plan_extents record_size cluster_size chunk virtual_end es else
      let virtual_start := saturating_mul_u64 e.(ext_vcn) cluster_size in
      if virtual_start >=? virtual_end then Some [] else
      let extent_bytes :=
        Z.min (saturating_mul_u64 e.(ext_count) cluster_size) (virtual_end - virtual_start) in
      let physical_start := saturating_mul_u64 (Lcn_raw_unsigned e.(ext_lcn)) cluster_size in
      let? reads := plan_extent (Z.to_nat (div_ceil extent_bytes chunk)) record_size chunk
                      virtual_start extent_bytes physical_start 0 in
      let? rest := plan_extents record_size cluster_size chunk virtual_end es in
      Some (reads ++ rest)
  end.

(** [None]: the division by a zero record size panics (the fuel suffices,
    [read_plan_exact]). *)
Definition read_plan (m : MftExtentMap) (chunk_bytes total_records : Z) : option (list PlannedRead) :=
  let record_size := m.(bytes_per_record) in
  let cluster_size := m.(bytes_per_cluster) in
  let? q := checked_div chunk_bytes record_size in
  let chunk := q * record_size in
  if (chunk =? 0) || (record_size =? 0) then Some [] else
  let virtual_end := saturating_mul_u64 total_records record_size in
  plan_extents record_size cluster_size chunk virtual_end m.(extents).

Example physical_offset_fragmented :
  let m := mk_map [mk_extent 0 10 100; mk_extent 10 10 500] 4096 1024 in
  map (physical_offset m) [0; 40; 44; 80] =
  [Some (Some (100 * 4096)); Some (Some (500 * 4096)); Some (Some (500 * 4096 + 4096)); Some None].
Proof. reflexivity. Qed.

Example read_plan_sparse :
  let m := mk_map [mk_extent 0 10 100; mk_extent 10 10 Lcn_HOLE; mk_extent 20 10 900] 4096 1024 in
  read_plan m (8 * 1024 * 1024) 120 =
  Some [mk_read (100 * 4096) 40960 0; mk_read (900 * 4096) 40960 80].
Proof. reflexivity. Qed.

(** * Well-formed maps *)

Definition extent_before (a b : MftExtent) : Prop := a.(ext_vcn) + a.(ext_count) <= b.(ext_vcn).

(** No byte address of the extent, in the file or on the volume, leaves 64 bits. *)
Definition extent_ok (bpc : Z) (e : MftExtent) : Prop :=
  0 <= e.(ext_vcn) /\ 0 <= e.(ext_count) /\ is_i64 e.(ext_lcn) /\
  (e.(ext_vcn) + e.(ext_count)) * bpc < 2 ^ 64 /\
  (Lcn_is_hole e.(ext_lcn) = false -> (e.(ext_lcn) + e.(ext_count)) * bpc < 2 ^ 64).

Record map_ok (m : MftExtentMap) : Prop := {
  ok_bpc : 0 < m.(bytes_per_cluster) < 2 ^ 32;
  ok_bpr : 0 < m.(bytes_per_record) < 2 ^ 32;
  ok_sorted : StronglySorted extent_before m.(extents);
  ok_extents : Forall (extent_ok m.(bytes_per_cluster)) m.(extents);
}.

Definition extent_holds (e : MftExtent) (vcn : Z) : Prop :=
  e.(ext_vcn) <= vcn < e.(ext_vcn) + e.(ext_count).

Lemma extent_cmp_eq bpc vcn e :
  0 < bpc -> extent_ok bpc e -> extent_cmp vcn e = Eq <-> extent_holds e vcn.
Proof.
  intros Hb (H1 & H2 & _ & H4 & _). unfold extent_cmp, extent_holds. rewrite u64_small by nia.
  destruct (Z.ltb_spec vcn (ext_vcn e)); [split; [done | lia] |].
  destruct (Z.geb_spec vcn (ext_vcn e + ext_count e)); split; done || lia.
Qed.

Lemma map_search_ordered m vcn : map_ok m -> search_ordered m.(extents) (extent_cmp vcn).
Proof.
  intros [Hc _ Hs He] i j x y Hij Hx Hy.
  pose proof (StronglySorted_zget _ _ _ _ _ _ Hs Hij Hx Hy) as Hb. unfold extent_before in Hb.
  rewrite Forall_forall in He.
  destruct (He x (zget_elem _ _ _ Hx)) as (H1 & H2 & _ & H3 & _).
  destruct (He y (zget_elem _ _ _ Hy)) as (G1 & G2 & _ & G3 & _).
  unfold extent_cmp. rewrite !u64_small by nia.
  destruct (Z.ltb_spec vcn (ext_vcn x)), (Z.ltb_spec vcn (ext_vcn y)),
    (Z.geb_spec vcn (ext_vcn x + ext_count x)), (Z.geb_spec vcn (ext_vcn y + ext_count y));
    split; intros; done || lia.
Qed.

Lemma find_extent_iff m vcn e :
  map_ok m -> find_extent m vcn = Some e <-> e ∈ m.(extents) /\ extent_holds e vcn.
Proof.
  intros Hm. pose proof (binary_search_by_spec _ _ (map_search_ordered m vcn Hm)) as H.
  pose proof Hm as [Hc _ Hs He]. rewrite Forall_forall in He. unfold find_extent.
  assert (Hcmp : forall x, x ∈ extents m -> extent_cmp vcn x = Eq <-> extent_holds x vcn).
  { intros x Hx. apply (extent_cmp_eq (bytes_per_cluster m)); [lia | by apply He]. }
  destruct (binary_search_by _ _) as [i | i].
  - destruct H as (x & Hx & Hxe). rewrite Hx. pose proof (zget_elem _ _ _ Hx) as Hin.
    apply Hcmp in Hxe; [|done]. split; [intros [= ->]; done |]. intros [He' Hh]. f_equal.
    apply list_elem_of_lookup_1 in He' as [k Hk].
    assert (Hk' : zget (extents m) (Z.of_nat k) = Some e).
    { apply zget_Some. rewrite Nat2Z.id. apply lookup_lt_Some in Hk as ?. unfold zlen. split; [lia | done]. }
    unfold extent_holds in *. destruct (Z.lt_trichotomy i (Z.of_nat k)) as [Hlt | [-> | Hlt]].
    + pose proof (StronglySorted_zget _ _ _ _ _ _ Hs Hlt Hx Hk') as Hb. unfold extent_before in Hb. lia.
    + congruence.
    + pose proof (StronglySorted_zget _ _ _ _ _ _ Hs Hlt Hk' Hx) as Hb. unfold extent_before in Hb. lia.
  - split; [done |]. intros [He' Hh]. exfalso. destruct H as (_ & Hl & Hg).
    pose proof He' as [k Hk]%list_elem_of_lookup_1.
    assert (Hk' : zget (extents m) (Z.of_nat k) = Some e).
    { apply zget_Some. rewrite Nat2Z.id. apply lookup_lt_Some in Hk as ?. unfold zlen. split; [lia | done]. }
    apply Hcmp in Hh; [|done]. destruct (Z.ltb_spec (Z.of_nat k) i).
    + rewrite (Hl _ _ Hk') in Hh by done. done.
    + rewrite (Hg _ _ Hk') in Hh by done. done.
Qed.

(** * Where a record lies *)

(** Record [frs] starts at byte [p] of the volume. *)
Definition located (m : MftExtentMap) (frs p : Z) : Prop :=
  exists e, e ∈ m.(extents) /\ Lcn_is_hole e.(ext_lcn) = false /\
    extent_holds e (frs * m.(bytes_per_record) / m.(bytes_per_cluster)) /\
    p = e.(ext_lcn) * m.(bytes_per_cluster)
        + (frs * m.(bytes_per_record) - e.(ext_vcn) * m.(bytes_per_cluster)).

Lemma lcn_unsigned l : is_i64 l -> Lcn_is_hole l = false -> 0 <= l /\ Lcn_raw_unsigned l = l.
Proof.
  unfold Lcn_is_hole, Lcn_raw_unsigned, cast_unsigned. intros H Hl.
  apply Z.ltb_ge in Hl. split; [done |]. apply u64_small. lia.
Qed.

Lemma physical_offset_located m frs :
  map_ok m -> 0 <= frs -> frs * m.(bytes_per_record) < 2 ^ 64 ->
  exists r, physical_offset m frs = Some r /\ forall p, r = Some p <-> located m frs p.
Proof.
  intros Hm Hf Ho. pose proof Hm as [Hc Hr _ He]. unfold physical_offset, checked_div.
  rewrite u64_small by nia. destruct (Z.eqb_spec (bytes_per_cluster m) 0); [lia |].
  eexists. split; [done |]. intros p. rewrite Forall_forall in He.
  set (C := bytes_per_cluster m) in *. set (v := frs * bytes_per_record m) in *.
  unfold located. fold C v.
  assert (Hval : forall e, e ∈ extents m -> extent_holds e (v / C) -> Lcn_is_hole (ext_lcn e) = false ->
    Lcn_raw_unsigned (ext_lcn e) *w C +w (v / C -w ext_vcn e) *w C +w v mod C =
    ext_lcn e * C + (v - ext_vcn e * C)).
  { intros e Hin [Hh1 Hh2] Hhole. destruct (He e Hin) as (H1 & H2 & H3 & H4 & H5).
    specialize (H5 Hhole). destruct (lcn_unsigned _ H3 Hhole) as [H6 ->].
    pose proof (Z.div_mod v C ltac:(lia)). pose proof (Z.mod_pos_bound v C ltac:(lia)).
    rewrite (u64_small (v / C - ext_vcn e)) by nia.
    rewrite (u64_small (ext_lcn e * C)), (u64_small ((v / C - ext_vcn e) * C)) by nia.
    rewrite (u64_small (ext_lcn e * C + _)) by nia. rewrite u64_small by nia. nia. }
  destruct (find_extent m (v / C)) as [e |] eqn:E.
  - apply find_extent_iff in E as E'; [|done]. destruct E' as [Hin Hh].
    destruct (Lcn_is_hole (ext_lcn e)) eqn:Hhole.
    + split; [done |]. intros (e' & Hin' & Hhole' & Hh' & _).
      assert (find_extent m (v / C) = Some e') by by apply find_extent_iff. congruence.
    + rewrite (Hval e) by done. split; [intros [= <-]; by exists e |].
      intros (e' & Hin' & _ & Hh' & ->).
      assert (find_extent m (v / C) = Some e') by by apply find_extent_iff. congruence.
  - split; [done |]. intros (e' & Hin' & _ & Hh' & _).
    assert (find_extent m (v / C) = Some e') by by apply find_extent_iff. congruence.
Qed.

(** On a well-formed map [physical_offset] never panics or wraps, and finds a place for
    record [frs] exactly when the cluster of the file that holds its first byte lies in a
    non-sparse extent: the same distance into that extent on the volume. *)
Theorem physical_offset_exact (m : MftExtentMap) (frs : Z)
    (Hm : map_ok m) (Hf : 0 <= frs) (Ho : frs * m.(bytes_per_record) < 2 ^ 64) :
  exists r, physical_offset m frs = Some r /\ forall p, r = Some p <-> located m frs p.
Proof. by apply physical_offset_located. Qed.

Definition demo_map : MftExtentMap :=
  mk_map [mk_extent 0 10 500; mk_extent 10 10 Lcn_HOLE; mk_extent 20 10 100] 4096 1024.

Lemma demo_map_ok : map_ok demo_map.
Proof.
  constructor; cbn; [lia | lia | |].
  - repeat constructor; cbn; unfold extent_before; cbn; lia.
  - repeat constructor; cbn; unfold Lcn_HOLE; try lia; discriminate.
Qed.

Lemma physical_offset_exact_witness :
  physical_offset demo_map 81 = Some (Some (100 * 4096 + 1024)) /\
  located demo_map 81 (100 * 4096 + 1024).
Proof.
  split; [reflexivity |].
  destruct (physical_offset_exact demo_map 81) as (r & E & H); [apply demo_map_ok | lia | reflexivity |].
  apply H. change (physical_offset demo_map 81) with (Some (Some (100 * 4096 + 1024))) in E.
  congruence.
Defined.

(** Clusters hold whole records. *)
Definition whole_records (m : MftExtentMap) : Prop :=
  exists k, 0 < k /\ m.(bytes_per_cluster) = k * m.(bytes_per_record).

Definition records_per_cluster (m : MftExtentMap) : Z :=
  m.(bytes_per_cluster) / m.(bytes_per_record).

Lemma whole_records_rpc m :
  map_ok m -> whole_records m ->
  0 < records_per_cluster m /\ m.(bytes_per_cluster) = records_per_cluster m * m.(bytes_per_record).
Proof.
  intros [_ Hr _ _] (k & Hk & E). unfold records_per_cluster. rewrite E, Z.div_mul by lia. lia.
Qed.

(** In records: the place is linear inside an extent. *)
Lemma located_records m frs p :
  map_ok m -> whole_records m ->
  located m frs p <->
  exists e, e ∈ m.(extents) /\ Lcn_is_hole e.(ext_lcn) = false /\
    let s := e.(ext_vcn) * records_per_cluster m in
    s <= frs < s + e.(ext_count) * records_per_cluster m /\
    p = e.(ext_lcn) * m.(bytes_per_cluster) + (frs - s) * m.(bytes_per_record).
Proof.
  intros Hm Hw. destruct (whole_records_rpc m Hm Hw) as [Hk Hc].
  pose proof Hm as [_ Hr _ _]. unfold located, extent_holds. rewrite Hc.
  set (k := records_per_cluster m) in *. set (R := bytes_per_record m) in *.
  assert (Ediv : frs * R / (k * R) = frs / k) by (apply Z.div_mul_cancel_r; lia). rewrite Ediv.
  pose proof (Z.div_mod frs k ltac:(lia)). pose proof (Z.mod_pos_bound frs k ltac:(lia)).
  split; intros (e & Hin & Hhole & Hh & ->); exists e; cbv zeta in *; split_and!; try done; nia.
Qed.

(** The extents' places on the volume do not overlap. *)
Definition disjoint_on_disk (m : MftExtentMap) : Prop :=
  forall e1 e2, e1 ∈ m.(extents) -> e2 ∈ m.(extents) -> e1 <> e2 ->
    Lcn_is_hole e1.(ext_lcn) = false -> Lcn_is_hole e2.(ext_lcn) = false ->
    e1.(ext_lcn) + e1.(ext_count) <= e2.(ext_lcn) \/ e2.(ext_lcn) + e2.(ext_count) <= e1.(ext_lcn).

(** A record lies inside its extent. *)
Lemma record_in_extent l c k R s f :
  0 < R -> s <= f < s + c * k ->
  l * (k * R) <= l * (k * R) + (f - s) * R /\
  l * (k * R) + (f - s) * R + R <= (l + c) * (k * R).
Proof.
  intros HR Hf. assert ((f - s + 1) * R <= c * k * R) by (apply Z.mul_le_mono_nonneg_r; lia).
  assert (0 <= (f - s) * R) by (apply Z.mul_nonneg_nonneg; lia). lia.
Qed.

(** Two records never share a byte of the volume when the extents do not. *)
Theorem physical_offset_injective (m : MftExtentMap) (f1 f2 p1 p2 : Z)
    (Hm : map_ok m) (Hw : whole_records m) (Hd : disjoint_on_disk m) (Hne : f1 <> f2)
    (H1 : 0 <= f1) (O1 : f1 * m.(bytes_per_record) < 2 ^ 64)
    (H2 : 0 <= f2) (O2 : f2 * m.(bytes_per_record) < 2 ^ 64)
    (E1 : physical_offset m f1 = Some (Some p1)) (E2 : physical_offset m f2 = Some (Some p2)) :
  p1 + m.(bytes_per_record) <= p2 \/ p2 + m.(bytes_per_record) <= p1.
Proof.
  destruct (physical_offset_located m f1 Hm H1 O1) as (r1 & G1 & L1).
  destruct (physical_offset_located m f2 Hm H2 O2) as (r2 & G2 & L2).
  assert (located m f1 p1) as A1 by (apply L1; congruence).
  assert (located m f2 p2) as A2 by (apply L2; congruence).
  apply located_records in A1 as (e1 & I1 & N1 & B1 & ->); [|done..].
  apply located_records in A2 as (e2 & I2 & N2 & B2 & ->); [|done..].
  destruct (whole_records_rpc m Hm Hw) as [Hk Hc]. rewrite Hc. pose proof Hm as [_ Hr _ _].
  set (k := records_per_cluster m) in *. set (R := bytes_per_record m) in *.
  assert (e1 = e2 \/ e1 <> e2) as [<- | Hee].
  { destruct e1 as [v1 c1 l1], e2 as [v2 c2 l2]. unfold Lcn in *.
    destruct (decide ((v1, c1, l1) = (v2, c2, l2))) as [[= -> -> ->] | Hn]; [by left |].
    right. intros [= -> -> ->]. by apply Hn. }
  - destruct (Z.lt_trichotomy f1 f2) as [Hlt | [? | Hlt]]; [left | done | right]; nia.
  - pose proof (record_in_extent (ext_lcn e1) _ k R _ _ ltac:(lia) B1).
    pose proof (record_in_extent (ext_lcn e2) _ k R _ _ ltac:(lia) B2).
    assert (0 < k * R) by lia.
    destruct (Hd e1 e2) as [Hdd | Hdd]; try done; [left | right];
      apply (Z.mul_le_mono_nonneg_r _ _ (k * R)) in Hdd; lia.
Qed.

Lemma physical_offset_injective_witness :
  physical_offset demo_map 3 = Some (Some 2051072) /\
  physical_offset demo_map 80 = Some (Some 409600) /\
  (2051072 + 1024 <= 409600 \/ 409600 + 1024 <= 2051072).
Proof.
  assert (E1 : physical_offset demo_map 3 = Some (Some 2051072)) by reflexivity.
  assert (E2 : physical_offset demo_map 80 = Some (Some 409600)) by reflexivity.
  split; [done |]. split; [done |].
  apply (physical_offset_injective demo_map 3 80 2051072 409600 demo_map_ok); try done.
  - by exists 4.
  - intros e1 e2 I1 I2 Hne N1 N2. unfold demo_map in I1, I2. cbn in I1, I2.
    rewrite !elem_of_cons, elem_of_nil in I1, I2.
    destruct I1 as [-> | [-> | [-> | []]]], I2 as [-> | [-> | [-> | []]]];
      cbn in *; unfold Lcn_is_hole, Lcn_HOLE in *; done || lia.
Defined.

(** * Reads as runs of records

    A read of any planner brings in [seg_count] records from record [seg_frs] on,
    starting at byte [seg_disk] of the volume. *)

Record seg := mk_seg { seg_frs : Z; seg_count : Z; seg_disk : Z }.

Class Piece (A : Type) := to_seg : Z -> A -> seg.

#[export] Instance PlannedRead_piece : Piece PlannedRead :=
  fun R r => mk_seg r.(base_frs) (r.(byte_len) / R) r.(volume_offset).

(** The read takes byte [p] for the start of record [frs]. *)
Definition covers (R : Z) (s : seg) (frs p : Z) : Prop :=
  s.(seg_frs) <= frs < s.(seg_frs) + s.(seg_count) /\
  p = s.(seg_disk) + (frs - s.(seg_frs)) * R.

Definition reads {A} `{Piece A} (R : Z) (l : list A) (frs p : Z) : Prop :=
  exists r, r ∈ l /\ covers R (to_seg R r) frs p.

Definition seg_before (a b : seg) : Prop := a.(seg_frs) + a.(seg_count) <= b.(seg_frs).

(** The pieces cut the run of [n] records from [s] at [d] into nonempty parts, in order. *)
Inductive tiles (R : Z) : list seg -> Z -> Z -> Z -> Prop :=
| tiles_nil s d : tiles R [] s 0 d
| tiles_cons s n d n' l :
    0 < n -> tiles R l (s + n) n' (d + n * R) -> tiles R (mk_seg s n d :: l) s (n + n') d.

Lemma tiles_count R l s n d : tiles R l s n d -> 0 <= n.
Proof. induction 1; lia. Qed.

Lemma tiles_covers R l s n d frs p :
  tiles R l s n d ->
  (exists x, x ∈ l /\ covers R x frs p) <-> s <= frs < s + n /\ p = d + (frs - s) * R.
Proof.
  induction 1 as [s d | s n d n' l Hn Ht IH].
  - split; [intros (x & Hx & _); by apply elem_of_nil in Hx | lia].
  - pose proof (tiles_count _ _ _ _ _ Ht). split.
    + intros (x & [-> | Hx]%elem_of_cons & Hc); [unfold covers in Hc; cbn in Hc; lia |].
      destruct (proj1 IH) as [H1 ->]; [by exists x |]. lia.
    + intros [H1 ->]. destruct (Z.ltb_spec frs (s + n)).
      * exists (mk_seg s n d). split; [left | split; cbn; lia].
      * destruct (proj2 IH) as (x & Hx & Hc); [lia |]. exists x. split; [by right | done].
Qed.

Lemma tiles_bounds R l s n d :
  tiles R l s n d -> Forall (fun x => s <= x.(seg_frs) /\ x.(seg_frs) + x.(seg_count) <= s + n) l.
Proof.
  induction 1 as [|s n d n' l Hn Ht IH]; constructor.
  - pose proof (tiles_count _ _ _ _ _ Ht). cbn. lia.
  - eapply Forall_impl; [exact IH |]. cbn. intros x. lia.
Qed.

Lemma tiles_sorted R l s n d : tiles R l s n d -> StronglySorted seg_before l.
Proof.
  induction 1 as [|s n d n' l Hn Ht IH]; constructor; [done |].
  eapply Forall_impl; [exact (tiles_bounds _ _ _ _ _ Ht) |]. unfold seg_before. cbn. intros x. lia.
Qed.

Lemma reads_map {A} `{Piece A} R (l : list A) frs p :
  reads R l frs p <-> exists x, x ∈ map (to_seg R) l /\ covers R x frs p.
Proof.
  unfold reads. split.
  - intros (r & Hr & Hc). exists (to_seg R r). split; [|done]. apply list_elem_of_fmap. eauto.
  - intros (x & Hx & Hc). apply list_elem_of_fmap in Hx as (r & -> & Hr). eauto.
Qed.

Lemma reads_app {A} `{Piece A} R (l k : list A) frs p :
  reads R (l ++ k) frs p <-> reads R l frs p \/ reads R k frs p.
Proof. unfold reads. setoid_rewrite elem_of_app. naive_solver. Qed.

Lemma reads_tiles {A} `{Piece A} R (l : list A) s n d frs p :
  tiles R (map (to_seg R) l) s n d ->
  reads R l frs p <-> s <= frs < s + n /\ p = d + (frs - s) * R.
Proof. intros Ht. rewrite reads_map. by apply tiles_covers. Qed.

(** * The plan of one extent *)

Definition read_sized (R c : Z) (r : PlannedRead) : Prop :=
  0 < r.(byte_len) <= c /\ r.(byte_len) = (to_seg R r).(seg_count) * R.

Lemma plan_extent_tiles fuel R c s n d o :
  0 < R -> 0 < c -> 0 <= s -> 0 <= d -> 0 <= o <= n ->
  (s + n) * R < 2 ^ 64 -> d + n * R < 2 ^ 64 ->
  n - o <= Z.of_nat fuel * c ->
  exists l, plan_extent fuel R (c * R) (s * R) (n * R) d (o * R) = Some l /\
    tiles R (map (to_seg R) l) (s + o) (n - o) (d + o * R) /\ Forall (read_sized R (c * R)) l.
Proof.
  intros HR Hc Hs Hd. revert o.
  induction fuel as [|fuel IH]; intros o Ho Hsn Hdn Hf; cbn [plan_extent];
    (destruct (Z.ltb_spec (o * R) (n * R));
     [| assert (o = n) as -> by nia; exists []; rewrite Z.sub_diag; split_and!; [done | constructor..]]).
  - nia.
  - set (k := Z.min c (n - o)). assert (0 < k) by nia.
    assert (Z.min (c * R) (n * R - o * R) = k * R) as ->.
    { unfold k. rewrite <- Z.mul_sub_distr_r, Z.mul_min_distr_nonneg_r by lia. done. }
    replace (o * R + k * R) with ((o + k) * R) by lia.
    destruct (IH (o + k)) as (l & E & Ht & Hz); [lia | done | done | unfold k; lia |].
    rewrite E. eexists. split; [done |].
    rewrite !u64_small by nia. rewrite <- Z.mul_add_distr_r, Z.div_mul by lia. split.
    + cbn [map]. replace (n - o) with (k + (n - (o + k))) by lia.
      unfold to_seg at 1, PlannedRead_piece at 1. cbn [base_frs byte_len volume_offset].
      rewrite Z.div_mul by lia. constructor; [done |].
      replace (s + o + k) with (s + (o + k)) by lia.
      replace (d + o * R + k * R) with (d + (o + k) * R) by lia. done.
    + constructor; [|done]. unfold read_sized. cbn. rewrite Z.div_mul by lia. nia.
Qed.

Lemma div_ceil_mul a b : 0 < b -> a <= div_ceil a b * b < a + b.
Proof.
  intros Hb. unfold div_ceil. pose proof (Z.div_mod (a + b - 1) b). pose proof (Z.mod_pos_bound (a + b - 1) b).
  lia.
Qed.

Lemma saturating_mul_exact a b : 0 <= a * b < 2 ^ 64 -> saturating_mul_u64 a b = a * b.
Proof. unfold saturating_mul_u64, U64_MAX. lia. Qed.

(** The part of an extent that lies below record [T]. *)
Lemma extent_clip R T s n :
  0 < R -> 0 <= s -> 0 <= n -> (s + n) * R < 2 ^ 64 ->
  s * R < saturating_mul_u64 T R ->
  s <= T /\ Z.min (n * R) (saturating_mul_u64 T R - s * R) = Z.min n (T - s) * R.
Proof.
  intros HR Hs Hn Ho. unfold saturating_mul_u64, U64_MAX. intros Hlt.
  assert (s <= T) by nia. split; [done |].
  rewrite <- Z.mul_min_distr_nonneg_r by lia. nia.
Qed.

(** * The whole plan *)

(** Record [frs] lies at [p] in one of the extents [es]. *)
Definition located_in (C R k : Z) (es : list MftExtent) (frs p : Z) : Prop :=
  exists e, e ∈ es /\ Lcn_is_hole e.(ext_lcn) = false /\
    e.(ext_vcn) * k <= frs < e.(ext_vcn) * k + e.(ext_count) * k /\
    p = e.(ext_lcn) * C + (frs - e.(ext_vcn) * k) * R.

Lemma located_in_cons C R k e es frs p :
  located_in C R k (e :: es) frs p <->
  Lcn_is_hole e.(ext_lcn) = false /\
    e.(ext_vcn) * k <= frs < e.(ext_vcn) * k + e.(ext_count) * k /\
    p = e.(ext_lcn) * C + (frs - e.(ext_vcn) * k) * R
  \/ located_in C R k es frs p.
Proof. unfold located_in. setoid_rewrite elem_of_cons. naive_solver. Qed.

Section plan.
Context (R k c T : Z) (HR : 0 < R) (Hk : 0 < k) (Hc : 0 < c).

Lemma plan_extents_exact es :
  StronglySorted extent_before es -> Forall (extent_ok (k * R)) es ->
  exists plan, plan_extents R (k * R) (c * R) (saturating_mul_u64 T R) es = Some plan /\
    (forall frs p, reads R plan frs p <-> located_in (k * R) R k es frs p /\ frs < T) /\
    StronglySorted seg_before (map (to_seg R) plan) /\
    Forall (read_sized R (c * R)) plan.
Proof.
  induction 1 as [|e es Hs IH Hb]; intros Hok.
  { exists []. split_and!; try done; [| constructor..]. intros frs p. unfold reads, located_in.
    setoid_rewrite elem_of_nil. naive_solver. }
  apply Forall_cons in Hok as [(H1 & H2 & H3 & H4 & H5) Hok]. cbn [plan_extents].
  destruct (IH Hok) as (plan & E & Hr & Hsort & Hz). setoid_rewrite located_in_cons.
  destruct (Lcn_is_hole (ext_lcn e)) eqn:Hhole.
  { exists plan. split_and!; try done. intros frs p. rewrite Hr. naive_solver. }
  specialize (H5 eq_refl). destruct (lcn_unsigned _ H3 Hhole) as [H6 ->].
  set (s := ext_vcn e * k). set (n := ext_count e * k).
  rewrite (saturating_mul_exact (ext_vcn e)), (saturating_mul_exact (ext_count e)),
    (saturating_mul_exact (ext_lcn e)) by nia.
  replace (ext_vcn e * (k * R)) with (s * R) by (unfold s; lia).
  replace (ext_count e * (k * R)) with (n * R) by (unfold n; lia).
  assert (Hs0 : 0 <= s) by (unfold s; nia). assert (Hn0 : 0 <= n) by (unfold n; nia).
  assert (Hsn : (s + n) * R < 2 ^ 64) by (unfold s, n; nia).
  destruct (Z.geb_spec (s * R) (saturating_mul_u64 T R)) as [Hge | Hlt].
  - exists []. split_and!; [done | | constructor..]. intros frs p.
    split; [intros (r & Hin & _); by apply elem_of_nil in Hin |]. intros Hl. exfalso.
    assert (Hbig : forall v m, 0 <= v -> 0 <= m -> (v + m) * (k * R) < 2 ^ 64 -> s <= v * k ->
      v * k <= frs < v * k + m * k -> frs < T -> False).
    { intros v m G1 G2 G3 G4 G5 G6. revert Hge. unfold saturating_mul_u64, U64_MAX.
      assert ((frs + 1) * R <= (v + m) * (k * R)) by (rewrite Z.mul_assoc; apply Z.mul_le_mono_nonneg_r; lia).
      assert (s * R <= frs * R) by (apply Z.mul_le_mono_nonneg_r; lia).
      assert ((frs + 1) * R <= T * R) by (apply Z.mul_le_mono_nonneg_r; lia). lia. }
    destruct Hl as [[(_ & Hf & _) | (e' & Hin & Hhole' & Hf & _)] HfT].
    + apply (Hbig (ext_vcn e) (ext_count e)); try done; unfold s; lia.
    + rewrite Forall_forall in Hok, Hb. destruct (Hok e' Hin) as (G1 & G2 & _ & G4 & _).
      specialize (Hb e' Hin). unfold extent_before in Hb.
      apply (Hbig (ext_vcn e') (ext_count e')); try done. unfold s. nia.
  - destruct (extent_clip R T s n) as [HsT ->]; try done.
    set (n' := Z.min n (T - s)). assert (Hn' : 0 <= n' <= n) by lia.
    assert (n' * R <= n * R) by (apply Z.mul_le_mono_nonneg_r; lia).
    pose proof (div_ceil_mul (n' * R) (c * R) ltac:(nia)).
    destruct (plan_extent_tiles (Z.to_nat (div_ceil (n' * R) (c * R))) R c s n' (ext_lcn e * (k * R)) 0)
      as (l & El & Ht & Hzl); try done; try lia; try nia.
    rewrite Z.mul_0_l in El. rewrite Z.mul_0_l, !Z.add_0_r, Z.sub_0_r in Ht. rewrite El, E.
    exists (l ++ plan). split_and!; [done | | | by apply Forall_app].
    + intros frs p. rewrite reads_app, Hr, (reads_tiles _ _ _ _ _ _ _ Ht).
      assert (s <= frs < s + n' <-> s <= frs < s + n /\ frs < T) as -> by lia. naive_solver.
    + rewrite map_app. apply StronglySorted_app_2; [| by eapply tiles_sorted | done].
      intros x y Hx Hy. apply list_elem_of_fmap in Hy as (r & -> & Hin).
      pose proof (tiles_bounds _ _ _ _ _ Ht) as Hbd.
      rewrite Forall_forall in Hbd. rewrite Forall_forall in Hb. rewrite Forall_forall in Hz.
      specialize (Hbd x Hx). destruct (Hz r Hin) as [G1 G2].
      destruct (proj1 (Hr (seg_frs (to_seg R r)) (seg_disk (to_seg R r)))) as [(e' & Ie & _ & He' & _) _].
      { exists r. split; [done |]. split; nia. }
      specialize (Hb e' Ie). unfold extent_before, seg_before in *.
      assert (s + n <= ext_vcn e' * k) by (unfold s, n; nia). lia.
Qed.
End plan.

Lemma located_in_map m frs p :
  map_ok m -> whole_records m ->
  located m frs p <->
  located_in m.(bytes_per_cluster) m.(bytes_per_record) (records_per_cluster m) m.(extents) frs p.
Proof. apply located_records. Qed.

(** C20: for clusters of whole records and a chunk size of at least one record, [read_plan]
    terminates; its reads take exactly the records below the record count that have a place
    on the volume, each from that place; they follow in record order without overlap, and each
    is a whole number of records of at most the chunk size. *)
Theorem read_plan_exact (m : MftExtentMap) (chunk_bytes total : Z)
    (Hm : map_ok m) (Hw : whole_records m) (Hc : m.(bytes_per_record) <= chunk_bytes) :
  exists plan, read_plan m chunk_bytes total = Some plan /\
    (forall frs p, reads m.(bytes_per_record) plan frs p <-> located m frs p /\ frs < total) /\
    StronglySorted seg_before (map (to_seg m.(bytes_per_record)) plan) /\
    Forall (read_sized m.(bytes_per_record) chunk_bytes) plan.
Proof.
  destruct (whole_records_rpc m Hm Hw) as [Hk HC]. pose proof Hm as [_ Hr Hs He].
  unfold read_plan, checked_div. set (R := bytes_per_record m) in *.
  destruct (Z.eqb_spec R 0); [lia |]. rewrite orb_false_r.
  assert (Hq : 0 < chunk_bytes / R) by (apply Z.div_str_pos; lia).
  pose proof (Z.div_mod chunk_bytes R ltac:(lia)). pose proof (Z.mod_pos_bound chunk_bytes R ltac:(lia)).
  destruct (Z.eqb_spec (chunk_bytes / R * R) 0); [nia |]. setoid_rewrite located_in_map; [|done..].
  fold R. rewrite HC in *.
  destruct (plan_extents_exact R (records_per_cluster m) (chunk_bytes / R) total
    ltac:(lia) Hk Hq (extents m) Hs He) as (plan & -> & Hiff & Hsort & Hz).
  exists plan. split_and!; try done. eapply Forall_impl; [exact Hz |]. unfold read_sized. lia.
Qed.

Lemma read_plan_exact_witness :
  read_plan demo_map 16384 100 =
    Some [mk_read 2048000 16384 0; mk_read 2064384 16384 16; mk_read 2080768 8192 32;
          mk_read 409600 16384 80; mk_read 425984 4096 96] /\
  exists plan, read_plan demo_map 16384 100 = Some plan /\
    (forall frs p, reads 1024 plan frs p <-> located demo_map frs p /\ frs < 100).
Proof.
  split; [reflexivity |].
  destruct (read_plan_exact demo_map 16384 100 demo_map_ok) as (plan & E & H & _);
    [by exists 4 | cbn; lia |].
  exists plan. split; [exact E | exact H].
Defined.
