(* ===== verification/Chunking.v ===== *)
(** The planning of extent-aware reads: [crates/uffs-mft/src/io/chunking.rs].

    The record counters the code threads through only for its log lines are left
    out.  [None] stands for a call that panics or never returns. *)
From S2P Require Import Prelude DataRuns MftBitmap ExtentMap.

(** * Chunks *)

Record ReadChunk := mk_chunk {
  disk_offset : Z; start_frs : Z; record_count : Z; skip_begin : Z; skip_end : Z
}.

Definition effective_start_frs (c : ReadChunk) : Z := c.(start_frs) +w c.(skip_begin).

Definition effective_record_count (c : ReadChunk) : Z :=
  saturating_sub c.(record_count) (c.(skip_begin) +w c.(skip_end)).

Definition read_size (c : ReadChunk) (record_size : Z) : Z :=
  effective_record_count c *w record_size.

#[export] Instance ReadChunk_piece : Piece ReadChunk :=
  fun _ c => mk_seg c.(start_frs) c.(record_count) c.(disk_offset).

(** * Merging *)

Definition MAX_CHUNK_BYTES : Z := 1024 * 1024 * 1024.

(** The two contiguity tests of [merge_adjacent_chunks]. *)
Definition is_physically_contiguous (record_size threshold : Z) (current next : ReadChunk) : bool :=
  let current_end_offset := current.(disk_offset) +w current.(record_count) *w record_size in
  if next.(disk_offset) >=? current_end_offset
  then next.(disk_offset) - current_end_offset <=? threshold *w record_size
  else false.

Definition is_frs_contiguous (threshold : Z) (current next : ReadChunk) : bool :=
  saturating_sub next.(start_frs) (current.(start_frs) +w current.(record_count)) <=? threshold.

Definition merged_record_count (current next : ReadChunk) : Z :=
  (next.(start_frs) +w next.(record_count)) -w current.(start_frs).

Fixpoint merge_adjacent_loop (record_size threshold : Z) (current : ReadChunk) (chunks : list ReadChunk)
    : list ReadChunk :=
  match chunks with
  | [] => [current]
  | next :: chunks =>
      let new_record_count := merged_record_count current next in
      let merged_bytes := new_record_count *w record_size in
      if is_physically_contiguous record_size threshold current next
         && is_frs_contiguous threshold current next && (merged_bytes <=? MAX_CHUNK_BYTES)
      then merge_adjacent_loop record_size threshold
             (mk_chunk current.(disk_offset) current.(start_frs) new_record_count
                current.(skip_begin) next.(skip_end)) chunks
      else current :: merge_adjacent_loop record_size threshold next chunks
  end.

Definition merge_adjacent_chunks (chunks : list ReadChunk) (record_size threshold : Z) : list ReadChunk :=
  match chunks with
  | current :: next :: rest => merge_adjacent_loop record_size threshold current (next :: rest)
  | _ => chunks
  end.

Definition maybe_merge_chunks (chunks : list ReadChunk) (record_size : Z) (has_bitmap : bool)
    : list ReadChunk :=
  if has_bitmap then chunks else merge_adjacent_chunks chunks record_size 64.

(** [next.disk_offset + next.record_count * record_size - current.disk_offset]. *)
Definition merged_span (record_size : Z) (current next : ReadChunk) : Z :=
  (next.(disk_offset) +w next.(record_count) *w record_size) -w current.(disk_offset).

Fixpoint merge_precise_loop (record_size min_gap_bytes max_io_size : Z) (current : ReadChunk)
    (chunks : list ReadChunk) : list ReadChunk :=
  match chunks with
  | [] => [current]
  | next :: chunks =>
      let current_end_offset := current.(disk_offset) +w current.(record_count) *w record_size in
      let gap_bytes := saturating_sub next.(disk_offset) current_end_offset in
      let merged_bytes := merged_span record_size current next in
      if (gap_bytes <=? min_gap_bytes) && (merged_bytes <=? max_io_size)
      then merge_precise_loop record_size min_gap_bytes max_io_size
             (mk_chunk current.(disk_offset) current.(start_frs) (merged_bytes / record_size)
                current.(skip_begin) next.(skip_end)) chunks
      else current :: merge_precise_loop record_size min_gap_bytes max_io_size next chunks
  end.

Definition merge_precise_chunks (chunks : list ReadChunk) (record_size min_gap_bytes max_io_size : Z)
    : list ReadChunk :=
  if zlen chunks <? 2 then chunks else
  match sort_by_key disk_offset chunks with
  | [] => []
  | current :: rest => merge_precise_loop record_size min_gap_bytes max_io_size current rest
  end.

(** * Splitting *)

(** The [while chunk_start < extent_records] loop: with [records_per_chunk = 0] it
    does not advance and never ends. *)
Fixpoint split_loop (fuel : nat) (record_size extent_start extent_disk extent_records per_chunk chunk_start : Z)
    : option (list ReadChunk) :=
  if chunk_start <? extent_records then
    match fuel with
    | O => None
    | S fuel =>
        let chunk_records := Z.min (extent_records - chunk_start) per_chunk in
        let chunk := mk_chunk (extent_disk +w chunk_start *w record_size)
                       (extent_start +w chunk_start) chunk_records 0 0 in
        cons chunk <$> split_loop fuel record_size extent_start extent_disk extent_records per_chunk
                         (chunk_start + chunk_records)
    end
  else Some [].

Definition split_extent_into_chunks (e : MftExtent) (rpc record_size cluster_size chunk_size : Z)
    : option (list ReadChunk) :=
  let extent_start_frs := e.(ext_vcn) *w rpc in
  let extent_records := e.(ext_count) *w rpc in
  let extent_disk_offset := Lcn_raw_unsigned e.(ext_lcn) *w cluster_size in
  let records_per_chunk := chunk_size / record_size in
  split_loop (Z.to_nat (div_ceil extent_records records_per_chunk))
    record_size extent_start_frs extent_disk_offset extent_records records_per_chunk 0.

(** The [for] loop over the extents: sparse extents are skipped. *)
Fixpoint for_extents (f : MftExtent -> option (list ReadChunk)) (es : list MftExtent)
    : option (list ReadChunk) :=
  match es with
  | [] => Some []
  | e :: es =>
      if Lcn_is_hole e.(ext_lcn) then for_extents f es else
      let? chunks := f e in
      let? rest := for_extents f es in
      Some (chunks ++ rest)
  end.

Definition generate_read_chunks (m : MftExtentMap) (bitmap : option MftBitmap) (chunk_size : Z)
    : option (list ReadChunk) :=
  let record_size := m.(bytes_per_record) in
  let cluster_size := m.(bytes_per_cluster) in
  let? rpc := checked_div cluster_size record_size in
  let? chunks := for_extents
                   (fun e => split_extent_into_chunks e rpc record_size cluster_size chunk_size)
                   m.(extents) in
  Some (maybe_merge_chunks chunks record_size (bool_decide (is_Some bitmap))).

(** [emit_io_chunks]: an empty chunk is not pushed. *)
Fixpoint emit_loop (fuel : nat) (record_size start_frs base_disk total_records per_io pos : Z)
    : option (list ReadChunk) :=
  if pos <? total_records then
    match fuel with
    | O => None
    | S fuel =>
        let chunk_records := Z.min (total_records - pos) per_io in
        let chunk := mk_chunk (base_disk +w pos *w record_size) (start_frs +w pos) chunk_records 0 0 in
        let? rest := emit_loop fuel record_size start_frs base_disk total_records per_io
                       (pos + chunk_records) in
        Some (if 0 <? chunk_records then chunk :: rest else rest)
    end
  else Some [].

Definition emit_io_chunks (start_frs total_records base_disk_offset records_per_io record_size : Z)
    : option (list ReadChunk) :=
  emit_loop (Z.to_nat (div_ceil total_records records_per_io)) record_size start_frs base_disk_offset
    total_records records_per_io 0.

Fixpoint precise_ranges (record_size rpc extent_start_frs extent_end_frs extent_disk_offset records_per_io : Z)
    (ranges : list (Z * Z)) : option (list ReadChunk) :=
  match ranges with
  | [] => Some []
  | (range_start_cluster, range_cluster_count) :: ranges =>
      let rest := precise_ranges record_size rpc extent_start_frs extent_end_frs extent_disk_offset
                    records_per_io ranges in
      let range_start_frs := range_start_cluster *w rpc in
      let range_end_frs := range_start_frs +w range_cluster_count *w rpc in
      if (range_end_frs <=? extent_start_frs) || (range_start_frs >=? extent_end_frs) then rest else
      let clipped_start := Z.max range_start_frs extent_start_frs in
      let clipped_end := Z.min range_end_frs extent_end_frs in
      let clipped_records := clipped_end -w clipped_start in
      if clipped_records =? 0 then rest else
      let offset_in_extent := (clipped_start - extent_start_frs) *w record_size in
      let disk_offset := extent_disk_offset +w offset_in_extent in
      let? chunks := emit_io_chunks clipped_start clipped_records disk_offset records_per_io record_size in
      let? rest := rest in
      Some (chunks ++ rest)
  end.

Definition split_extent_into_precise_chunks (e : MftExtent) (ranges : list (Z * Z))
    (rpc record_size cluster_size max_io_size : Z) : option (list ReadChunk) :=
  let extent_start_frs := e.(ext_vcn) *w rpc in
  let extent_end_frs := extent_start_frs +w e.(ext_count) *w rpc in
  let extent_disk_offset := Lcn_raw_unsigned e.(ext_lcn) *w cluster_size in
  precise_ranges record_size rpc extent_start_frs extent_end_frs extent_disk_offset
    (max_io_size / record_size) ranges.

Definition generate_precise_read_chunks (m : MftExtentMap) (bitmap : MftBitmap)
    (max_io_size min_gap_records : Z) : option (list ReadChunk) :=
  let record_size := m.(bytes_per_record) in
  let cluster_size := m.(bytes_per_cluster) in
  let? rpc := checked_div cluster_size record_size in
  let? cluster_ranges := in_use_cluster_ranges bitmap rpc in
  if zlen cluster_ranges =? 0 then Some [] else
  let? chunks := for_extents
                   (fun e => split_extent_into_precise_chunks e cluster_ranges rpc record_size
                               cluster_size max_io_size)
                   m.(extents) in
  let min_gap_bytes := min_gap_records *w record_size in
  Some (merge_precise_chunks chunks record_size min_gap_bytes max_io_size).

Example chunks_fragmented :
  generate_read_chunks demo_map (Some (new_all_valid 120)) 32768 =
  Some [mk_chunk 2048000 0 32 0 0; mk_chunk (2048000 + 32768) 32 8 0 0;
        mk_chunk 409600 80 32 0 0; mk_chunk (409600 + 32768) 112 8 0 0].
Proof. reflexivity. Qed.

Example chunks_merged :
  generate_read_chunks demo_map None 32768 =
  Some [mk_chunk 2048000 0 40 0 0; mk_chunk 409600 80 40 0 0].
Proof. reflexivity. Qed.

Example chunks_precise :
  generate_precise_read_chunks demo_map (from_bytes [0x01; 0; 0x70; 0; 0; 0; 0; 0; 0; 0; 0; 0xFF]) 32768 4 =
  Some [mk_chunk (409600 + 8 * 1024) 88 8 0 0; mk_chunk 2048000 0 4 0 0;
        mk_chunk (2048000 + 20 * 1024) 20 4 0 0].
Proof. reflexivity. Qed.

(** * Splitting loops *)

Definition small_chunk (c : Z) (x : ReadChunk) : Prop :=
  0 < x.(record_count) <= c /\ x.(skip_begin) = 0 /\ x.(skip_end) = 0.

Lemma split_loop_tiles fuel R s d n c o :
  0 < R -> 0 < c -> 0 <= s -> 0 <= d -> 0 <= o <= n -> s + n < 2 ^ 64 -> d + n * R < 2 ^ 64 ->
  n - o <= Z.of_nat fuel * c ->
  exists l, split_loop fuel R s d n c o = Some l /\
    tiles R (map (to_seg R) l) (s + o) (n - o) (d + o * R) /\ Forall (small_chunk c) l.
Proof.
  intros HR Hc Hs Hd. revert o. induction fuel as [|fuel IH]; intros o Ho Hsn Hdn Hf; cbn [split_loop];
    (destruct (Z.ltb_spec o n);
     [| assert (o = n) as -> by lia; exists []; rewrite Z.sub_diag; split_and!; [done | constructor..]]).
  - lia.
  - set (k := Z.min (n - o) c).
    destruct (IH (o + k)) as (l & E & Ht & Hz); [lia | done | done | unfold k; lia |].
    assert (0 <= o * R <= n * R) by (split; [lia | apply Z.mul_le_mono_nonneg_r; lia]).
    rewrite E. eexists. split; [done |]. rewrite !u64_small by (rewrite ?u64_small; lia). split.
    + cbn [map]. replace (n - o) with (k + (n - (o + k))) by lia.
      unfold to_seg at 1, ReadChunk_piece at 1. cbn [start_frs record_count disk_offset].
      constructor; [lia |]. replace (s + o + k) with (s + (o + k)) by lia.
      replace (d + o * R + k * R) with (d + (o + k) * R) by lia. done.
    + constructor; [|done]. unfold small_chunk. cbn. lia.
Qed.

(** A whole run is split with the fuel the callers give. *)
Lemma split_run R s d n c :
  0 < R -> 0 < c -> 0 <= s -> 0 <= d -> 0 <= n -> s + n < 2 ^ 64 -> d + n * R < 2 ^ 64 ->
  exists l, split_loop (Z.to_nat (div_ceil n c)) R s d n c 0 = Some l /\
    tiles R (map (to_seg R) l) s n d /\ Forall (small_chunk c) l.
Proof.
  intros. pose proof (div_ceil_mul n c ltac:(lia)).
  destruct (split_loop_tiles (Z.to_nat (div_ceil n c)) R s d n c 0) as (l & E & Ht & Hz); try done; [nia.. |].
  rewrite Z.mul_0_l, !Z.add_0_r, Z.sub_0_r in Ht. eauto.
Qed.

Lemma emit_loop_split fuel R s d n c o :
  0 < c -> emit_loop fuel R s d n c o = split_loop fuel R s d n c o.
Proof.
  intros Hc. revert o. induction fuel as [|fuel IH]; intros o; cbn [emit_loop split_loop]; [done |].
  destruct (Z.ltb_spec o n); [|done]. rewrite IH. destruct (split_loop _ _ _ _ _ _ _); [|done].
  cbn. destruct (Z.ltb_spec 0 (Z.min (n - o) c)); [done | lia].
Qed.

(** A chunk size below the record size: the loops never end. *)
Lemma split_loop_diverges fuel R s d n o : o < n -> split_loop fuel R s d n 0 o = None.
Proof.
  revert o. induction fuel as [|fuel IH]; intros o Ho; cbn [split_loop];
    destruct (Z.ltb_spec o n); try lia; [done |].
  rewrite Z.min_r, Z.add_0_r, IH by lia. done.
Qed.

Lemma emit_loop_diverges fuel R s d n o : o < n -> emit_loop fuel R s d n 0 o = None.
Proof.
  revert o. induction fuel as [|fuel IH]; intros o Ho; cbn [emit_loop];
    destruct (Z.ltb_spec o n); try lia; [done |].
  rewrite Z.min_r, Z.add_0_r, IH by lia. done.
Qed.

(** * The loop over the extents *)

Section for_extents.
Context (R k bpc : Z) (f : MftExtent -> option (list ReadChunk))
  (P : MftExtent -> Z -> Z -> Prop) (Q : ReadChunk -> Prop) (Hk : 0 < k)
  (Hf : forall e, extent_ok bpc e -> Lcn_is_hole e.(ext_lcn) = false ->
    exists l, f e = Some l /\
      (forall frs p, reads R l frs p <-> P e frs p) /\
      StronglySorted seg_before (map (to_seg R) l) /\
      Forall (fun x => e.(ext_vcn) * k <= x.(seg_frs) /\
        x.(seg_frs) + x.(seg_count) <= (e.(ext_vcn) + e.(ext_count)) * k) (map (to_seg R) l) /\
      Forall Q l).

Lemma for_extents_exact es :
  StronglySorted extent_before es -> Forall (extent_ok bpc) es ->
  exists l, for_extents f es = Some l /\
    (forall frs p, reads R l frs p <->
       exists e, e ∈ es /\ Lcn_is_hole e.(ext_lcn) = false /\ P e frs p) /\
    StronglySorted seg_before (map (to_seg R) l) /\
    (forall x, x ∈ map (to_seg R) l -> exists e, e ∈ es /\ e.(ext_vcn) * k <= x.(seg_frs)) /\
    Forall Q l.
Proof.
  induction 1 as [|e es Hs IH Hb]; intros Hok.
  { exists []. split_and!; try done; [| constructor |].
    - intros frs p. unfold reads. setoid_rewrite elem_of_nil. naive_solver.
    - intros x Hx. by apply elem_of_nil in Hx. }
  apply Forall_cons in Hok as [He Hok]. cbn [for_extents].
  destruct (IH Hok) as (l & E & Hr & Hsort & Hlow & Hq). setoid_rewrite elem_of_cons.
  destruct (Lcn_is_hole (ext_lcn e)) eqn:Hhole.
  - exists l. split_and!; try done; [| intros x Hx; destruct (Hlow x Hx) as (e' & ? & ?); eauto].
    intros frs p. rewrite Hr. split; intros (e' & Hin & Hrest); exists e'; [naive_solver |].
    destruct Hin as [-> | Hin]; [naive_solver congruence | done].
  - destruct (Hf e He Hhole) as (l1 & E1 & Hr1 & Hs1 & Hb1 & Hq1). rewrite E1, E.
    exists (l1 ++ l). split_and!; [done | | | | by apply Forall_app].
    + intros frs p. rewrite reads_app, Hr, Hr1. naive_solver.
    + rewrite map_app. apply StronglySorted_app_2; [| done..]. intros x y Hx Hy.
      destruct (Hlow y Hy) as (e' & Ie & Hle). rewrite Forall_forall in Hb. specialize (Hb e' Ie).
      rewrite Forall_forall in Hb1. destruct (Hb1 x Hx) as [_ Hx2].
      unfold seg_before, extent_before in *. nia.
    + intros x. rewrite map_app, elem_of_app. intros [Hx | Hx].
      * exists e. rewrite Forall_forall in Hb1. split; [by left | by apply Hb1].
      * destruct (Hlow x Hx) as (e' & Ie & Hle). eauto.
Qed.
End for_extents.

(** * [generate_read_chunks] with a bitmap *)

(** The arithmetic of an extent stays in 64 bits. *)
Lemma extent_small R k e :
  0 < R -> 0 < k -> extent_ok (k * R) e -> Lcn_is_hole e.(ext_lcn) = false ->
  0 <= e.(ext_vcn) /\ 0 <= e.(ext_count) /\ 0 <= e.(ext_lcn) /\ Lcn_raw_unsigned e.(ext_lcn) = e.(ext_lcn) /\
  (e.(ext_vcn) + e.(ext_count)) * k < 2 ^ 64 /\
  e.(ext_lcn) * (k * R) + e.(ext_count) * k * R < 2 ^ 64.
Proof.
  intros HR Hk (H1 & H2 & H3 & H4 & H5) Hh. specialize (H5 Hh).
  destruct (lcn_unsigned _ H3 Hh) as [H6 H7]. split_and!; try done; [|lia].
  apply Z.le_lt_trans with ((ext_vcn e + ext_count e) * (k * R)); [|done].
  rewrite Z.mul_assoc. nia.
Qed.

Lemma split_extent_exact R k c e :
  0 < R -> 0 < k -> R <= c -> extent_ok (k * R) e -> Lcn_is_hole e.(ext_lcn) = false ->
  exists l, split_extent_into_chunks e k R (k * R) c = Some l /\
    tiles R (map (to_seg R) l) (e.(ext_vcn) * k) (e.(ext_count) * k) (e.(ext_lcn) * (k * R)) /\
    Forall (small_chunk (c / R)) l.
Proof.
  intros HR Hk Hc He Hh. unfold split_extent_into_chunks.
  destruct (extent_small R k e HR Hk He Hh) as (H1 & H2 & H3 & -> & H5 & H6).
  assert (0 <= ext_vcn e * k) by nia. assert (0 <= ext_count e * k) by nia.
  rewrite (u64_small (ext_vcn e * k)), (u64_small (ext_count e * k)),
    (u64_small (ext_lcn e * (k * R))) by nia.
  assert (0 < c / R) by (apply Z.div_str_pos; lia).
  apply split_run; try done; nia.
Qed.

Definition record_places (R k bpc : Z) (e : MftExtent) (frs p : Z) : Prop :=
  e.(ext_vcn) * k <= frs < e.(ext_vcn) * k + e.(ext_count) * k /\
  p = e.(ext_lcn) * bpc + (frs - e.(ext_vcn) * k) * R.

Lemma read_chunks_unmerged m c :
  map_ok m -> whole_records m -> m.(bytes_per_record) <= c ->
  exists l, for_extents (fun e => split_extent_into_chunks e (records_per_cluster m)
              m.(bytes_per_record) m.(bytes_per_cluster) c) m.(extents) = Some l /\
    (forall frs p, reads m.(bytes_per_record) l frs p <-> located m frs p) /\
    StronglySorted seg_before (map (to_seg m.(bytes_per_record)) l) /\
    Forall (small_chunk (c / m.(bytes_per_record))) l.
Proof.
  intros Hm Hw Hc. destruct (whole_records_rpc m Hm Hw) as [Hk HC]. pose proof Hm as [_ Hr Hs He].
  set (R := bytes_per_record m) in *. set (k := records_per_cluster m) in *. rewrite HC in *.
  destruct (for_extents_exact R k (k * R) (fun e => split_extent_into_chunks e k R (k * R) c)
    (record_places R k (k * R)) (small_chunk (c / R))) with (es := extents m)
    as (l & E & Hl & Hsort & _ & Hq); try done.
  - intros e Hok Hh. destruct (split_extent_exact R k c e) as (l & E & Ht & Hq); try done; [lia |].
    exists l. split_and!; try done.
    + intros frs p. apply (reads_tiles _ _ _ _ _ _ _ Ht).
    + by eapply tiles_sorted.
    + eapply Forall_impl; [exact (tiles_bounds _ _ _ _ _ Ht) |]. cbn. intros x. lia.
  - exists l. split_and!; try done. intros frs p. rewrite Hl.
    setoid_rewrite located_in_map; [|done..]. fold R k. rewrite HC. done.
Qed.

(** C21: with a bitmap, [generate_read_chunks] terminates and its chunks take exactly the
    records that have a place on the volume, each from that place, in record order and without
    overlap; no chunk exceeds the chunk size.  That holds for every bitmap, so none makes it
    skip a record: its documentation says that the bitmap is used to leave out the clusters
    without records in use and to compute the skips of the chunks; the code only
    asks whether there is one, and traces the skip it would suggest. *)
Theorem generate_read_chunks_exact (m : MftExtentMap) (bm : MftBitmap) (chunk_size : Z)
    (Hm : map_ok m) (Hw : whole_records m) (Hc : m.(bytes_per_record) <= chunk_size) :
  exists l, generate_read_chunks m (Some bm) chunk_size = Some l /\
    (forall frs p, reads m.(bytes_per_record) l frs p <-> located m frs p) /\
    StronglySorted seg_before (map (to_seg m.(bytes_per_record)) l) /\
    Forall (small_chunk (chunk_size / m.(bytes_per_record))) l.
Proof.
  destruct (read_chunks_unmerged m chunk_size Hm Hw Hc) as (l & E & H).
  unfold generate_read_chunks, checked_div. pose proof Hm as [_ Hr _ _].
  destruct (Z.eqb_spec (bytes_per_record m) 0); [lia |].
  fold (records_per_cluster m). rewrite E. by exists l.
Qed.

Lemma generate_read_chunks_exact_witness :
  exists l, generate_read_chunks demo_map (Some (from_bytes [])) 32768 = Some l /\
    reads 1024 l 81 410624.
Proof.
  destruct (generate_read_chunks_exact demo_map (from_bytes []) 32768 demo_map_ok)
    as (l & E & H & _); [by exists 4 | cbn; lia |].
  exists l. split; [done |]. apply H. apply located_records; [apply demo_map_ok | by exists 4 |].
  exists (mk_extent 20 10 100). split; [right; right; left |]. split; [done |]. by_eval.
Defined.

(** * The precise chunks of one extent *)

Lemma in_ranges_cons_frs k frs a n rs :
  0 < k ->
  in_ranges (frs / k) ((a, n) :: rs) <-> a * k <= frs < (a + n) * k \/ in_ranges (frs / k) rs.
Proof.
  intros Hk. rewrite in_ranges_cons. pose proof (Z.div_mod frs k ltac:(lia)).
  pose proof (Z.mod_pos_bound frs k ltac:(lia)).
  assert (a <= frs / k < a + n <-> a * k <= frs < (a + n) * k) as ->; [|done].
  split; intros; split; nia.
Qed.

Section precise.
Context (R k c s n d : Z) (HR : 0 < R) (Hk : 0 < k) (Hc : 0 < c) (Hs : 0 <= s) (Hd : 0 <= d)
  (Hn : 0 <= n) (Hsn : s + n < 2 ^ 64) (Hdn : d + n * R < 2 ^ 64).

(** One range, clipped to the extent. *)
Lemma emit_io_chunks_exact a b :
  s <= a < b -> b <= s + n ->
  exists l, emit_io_chunks a (b - a) (d +w (a - s) *w R) c R = Some l /\
    tiles R (map (to_seg R) l) a (b - a) (d + (a - s) * R) /\ Forall (small_chunk c) l.
Proof.
  intros Ha Hb. assert (0 <= (a - s) * R /\ (a - s) * R + (b - a) * R <= n * R).
  { split; [nia |]. rewrite <- Z.mul_add_distr_r. apply Z.mul_le_mono_nonneg_r; lia. }
  assert (0 <= (b - a) * R) by nia.
  rewrite (u64_small ((a - s) * R)), (u64_small (d + _)) by lia.
  unfold emit_io_chunks. rewrite emit_loop_split by done. apply split_run; done || lia.
Qed.

Definition piece_in (lo : Z) (x : seg) : Prop :=
  Z.max lo s <= x.(seg_frs) /\ x.(seg_frs) + x.(seg_count) <= s + n.

Lemma precise_ranges_exact lo hi rs :
  separated lo hi rs -> 0 <= lo -> hi * k < 2 ^ 64 ->
  exists l, precise_ranges R k s (s + n) d c rs = Some l /\
    (forall frs p, reads R l frs p <->
       s <= frs < s + n /\ in_ranges (frs / k) rs /\ p = d + (frs - s) * R) /\
    StronglySorted seg_before (map (to_seg R) l) /\
    Forall (piece_in (lo * k)) (map (to_seg R) l) /\ Forall (small_chunk c) l.
Proof.
  intros H Hlo Hhi. induction H as [lo hi | lo hi a m rs H1 H2 H3 H4 IH].
  { exists []. split_and!; try done; [| constructor]. intros frs p. split.
    - intros (r & Hr & _). by apply elem_of_nil in Hr.
    - intros (_ & (? & ? & Hin & _) & _). by apply elem_of_nil in Hin. }
  destruct IH as (l & E & Hr & Hsort & Hp & Hq); [lia | done |]. cbn [precise_ranges].
  assert (0 <= a * k /\ (a + m) * k <= hi * k /\ 0 < m * k) by nia.
  rewrite (u64_small (a * k)), (u64_small (m * k)), (u64_small (a * k + m * k)) by lia.
  rewrite <- Z.mul_add_distr_r. setoid_rewrite in_ranges_cons_frs; [|done].
  assert (Hp' : Forall (piece_in (lo * k)) (map (to_seg R) l)).
  { eapply Forall_impl; [exact Hp |]. unfold piece_in. cbn. intros x. nia. }
  destruct (Z.leb_spec ((a + m) * k) s), (Z.geb_spec (a * k) (s + n)); cbn [orb];
    try (exists l; split_and!; try done; intros frs p; rewrite Hr;
         assert (~ (s <= frs < s + n /\ a * k <= frs < (a + m) * k)) by lia; tauto).
  set (x := Z.max (a * k) s). set (y := Z.min ((a + m) * k) (s + n)).
  rewrite (u64_small (y - x)) by lia.
  destruct (Z.eqb_spec (y - x) 0).
  { exists l. split_and!; try done. intros frs p. rewrite Hr.
    assert (~ (s <= frs < s + n /\ a * k <= frs < (a + m) * k)) by lia. tauto. }
  destruct (emit_io_chunks_exact x y) as (l1 & E1 & Ht & Hq1); [lia | lia |].
  rewrite E1, E. exists (l1 ++ l). pose proof (tiles_bounds _ _ _ _ _ Ht) as Hb1.
  split_and!; [done | | | | by apply Forall_app].
  - intros frs p. rewrite reads_app, Hr, (reads_tiles _ _ _ _ _ _ _ Ht). split.
    + intros [[? ->] | (? & ? & ->)]; [| tauto].
      split; [lia |]. split; [left; lia |]. unfold x. lia.
    + intros (? & [? | ?] & ->); [left; lia | by right].
  - rewrite map_app. apply StronglySorted_app_2; [| by eapply tiles_sorted | done].
    intros u v Hu Hv. rewrite Forall_forall in Hb1, Hp. specialize (Hb1 u Hu). specialize (Hp v Hv).
    unfold seg_before, piece_in in *. nia.
  - rewrite map_app. apply Forall_app. split; [|done].
    eapply Forall_impl; [exact Hb1 |]. unfold piece_in. cbn. intros u. nia.
Qed.
End precise.

Definition precise_places (R k bpc : Z) (rs : list (Z * Z)) (e : MftExtent) (frs p : Z) : Prop :=
  record_places R k bpc e frs p /\ in_ranges (frs / k) rs.

Lemma precise_chunks_unmerged m rs hi c :
  map_ok m -> whole_records m -> m.(bytes_per_record) <= c ->
  separated 0 hi rs -> hi * records_per_cluster m < 2 ^ 64 ->
  exists l, for_extents (fun e => split_extent_into_precise_chunks e rs (records_per_cluster m)
              m.(bytes_per_record) m.(bytes_per_cluster) c) m.(extents) = Some l /\
    (forall frs p, reads m.(bytes_per_record) l frs p <->
       located m frs p /\ in_ranges (frs / records_per_cluster m) rs) /\
    StronglySorted seg_before (map (to_seg m.(bytes_per_record)) l) /\
    Forall (small_chunk (c / m.(bytes_per_record))) l.
Proof.
  intros Hm Hw Hc Hsep Hhi. destruct (whole_records_rpc m Hm Hw) as [Hk HC]. pose proof Hm as [_ Hr Hs He].
  set (R := bytes_per_record m) in *. set (k := records_per_cluster m) in *. rewrite HC in *.
  destruct (for_extents_exact R k (k * R) (fun e => split_extent_into_precise_chunks e rs k R (k * R) c)
    (precise_places R k (k * R) rs) (small_chunk (c / R))) with (es := extents m)
    as (l & E & Hl & Hsort & _ & Hq); try done.
  - intros e Hok Hh. unfold split_extent_into_precise_chunks.
    destruct (extent_small R k e ltac:(lia) Hk Hok Hh) as (H1 & H2 & H3 & -> & H5 & H6).
    assert (0 <= ext_vcn e * k) by nia. assert (0 <= ext_count e * k) by nia.
    rewrite (u64_small (ext_vcn e * k)), (u64_small (ext_count e * k)),
      (u64_small (ext_lcn e * (k * R))), (u64_small (ext_vcn e * k + _)) by nia.
    assert (0 < c / R) by (apply Z.div_str_pos; lia).
    destruct (precise_ranges_exact R k (c / R) (ext_vcn e * k) (ext_count e * k) (ext_lcn e * (k * R)))
      with (lo := 0) (hi := hi) (rs := rs) as (l & E & Hrd & Hsort & Hp & Hq); try done; try lia.
    exists l. split_and!; try done.
    + intros frs p. rewrite Hrd. unfold precise_places, record_places. naive_solver.
    + eapply Forall_impl; [exact Hp |]. unfold piece_in. cbn. intros x. lia.
  - exists l. split_and!; try done. intros frs p. rewrite Hl.
    setoid_rewrite located_in_map; [|done..]. fold R k. rewrite HC. unfold precise_places, located_in, record_places.
    naive_solver.
Qed.

(** * Merging

    Both merge loops fold a chunk into the current one when a test accepts it;
    they differ in the test and in the way the new record count is found. *)

Section merge_loop.
Context (can : ReadChunk -> ReadChunk -> bool) (count : ReadChunk -> ReadChunk -> Z).

Definition join_chunks (current next : ReadChunk) : ReadChunk :=
  mk_chunk current.(disk_offset) current.(start_frs) (count current next)
    current.(skip_begin) next.(skip_end).

Fixpoint merge_loop (current : ReadChunk) (chunks : list ReadChunk) : list ReadChunk :=
  match chunks with
  | [] => [current]
  | next :: chunks =>
      if can current next then merge_loop (join_chunks current next) chunks
      else current :: merge_loop next chunks
  end.

(** What only depends on where a chunk starts survives. *)
Lemma merge_loop_keeps (P : ReadChunk -> Prop) c l :
  (forall a b, P a -> P (join_chunks a b)) -> P c -> Forall P l -> Forall P (merge_loop c l).
Proof.
  intros HP. revert c. induction l as [|d l IH]; intros c Hc Hl; cbn [merge_loop]; [by constructor |].
  apply Forall_cons in Hl as [Hd Hl]. destruct (can c d); [by apply IH; auto |].
  constructor; [done | by apply IH].
Qed.

Context (R : Z) (rel : ReadChunk -> ReadChunk -> Prop) (S : ReadChunk -> Prop).

Definition chunk_fits (c : ReadChunk) : Prop :=
  0 <= c.(disk_offset) /\ 0 <= c.(start_frs) /\ 0 < c.(record_count) /\
  c.(start_frs) + c.(record_count) < 2 ^ 64 /\ c.(disk_offset) + c.(record_count) * R < 2 ^ 64.

Definition chunk_before (c d : ReadChunk) : Prop := c.(start_frs) + c.(record_count) <= d.(start_frs).

Definition chunk_covers (c : ReadChunk) : Z -> Z -> Prop := covers R (to_seg R c).

(** [rel] holds between neighbours. *)
Fixpoint neighbours (c : ReadChunk) (l : list ReadChunk) : Prop :=
  match l with
  | [] => True
  | d :: l => rel c d /\ neighbours d l
  end.

Context (Hcan : forall c d, chunk_fits c -> chunk_fits d -> chunk_before c d -> rel c d ->
  can c d = true ->
  count c d = d.(start_frs) + d.(record_count) - c.(start_frs) /\
  d.(disk_offset) = c.(disk_offset) + (d.(start_frs) - c.(start_frs)) * R /\
  (forall e, rel d e -> rel (join_chunks c d) e) /\ S (join_chunks c d)).

(** A record outside every chunk. *)
Definition in_gap (l : list ReadChunk) (frs : Z) : Prop :=
  forall c, c ∈ l -> ~ c.(start_frs) <= frs < c.(start_frs) + c.(record_count).

Lemma join_covers c d frs p :
  chunk_fits c -> chunk_fits d -> chunk_before c d ->
  count c d = d.(start_frs) + d.(record_count) - c.(start_frs) ->
  d.(disk_offset) = c.(disk_offset) + (d.(start_frs) - c.(start_frs)) * R ->
  (chunk_covers c frs p \/ chunk_covers d frs p -> chunk_covers (join_chunks c d) frs p) /\
  (chunk_covers (join_chunks c d) frs p ->
     chunk_covers c frs p \/ chunk_covers d frs p \/
     c.(start_frs) + c.(record_count) <= frs < d.(start_frs)).
Proof.
  unfold chunk_fits, chunk_before, chunk_covers, covers. cbn.
  intros (_ & _ & H1 & _) (_ & _ & H2 & _) Hb Hc Hd. rewrite Hc, Hd. split.
  - intros [[? ->] | [? ->]]; lia.
  - intros [? ->].
    destruct (Z.ltb_spec frs (start_frs c + record_count c)); [left; lia |].
    destruct (Z.ltb_spec frs (start_frs d)); [right; right; lia | right; left; lia].
Qed.

Lemma reads_cons c l frs p : reads R (c :: l) frs p <-> chunk_covers c frs p \/ reads R l frs p.
Proof.
  unfold reads. split.
  - intros (r & [-> | Hr]%elem_of_cons & Hc); eauto.
  - intros [Hc | (r & Hr & Hc)]; eexists; (split; [|done]); [left | by right].
Qed.

Lemma in_gap_cons c l frs :
  in_gap (c :: l) frs <->
  ~ c.(start_frs) <= frs < c.(start_frs) + c.(record_count) /\ in_gap l frs.
Proof.
  unfold in_gap. split.
  - intros H. split; [apply H; left | intros x Hx; apply H; by right].
  - intros [H1 H2] x [-> | Hx]%elem_of_cons; [done | by apply H2].
Qed.

Lemma in_gap_below l frs b :
  Forall (fun x => b <= x.(start_frs)) l -> frs < b -> in_gap l frs.
Proof. intros H Hf x Hx. rewrite Forall_forall in H. specialize (H x Hx). cbn in H. lia. Qed.

(** One join keeps what is read, up to the gap it closes. *)
Lemma join_step c d l frs p :
  chunk_fits c -> chunk_fits d -> chunk_before c d -> Forall (chunk_before d) l ->
  count c d = d.(start_frs) + d.(record_count) - c.(start_frs) ->
  d.(disk_offset) = c.(disk_offset) + (d.(start_frs) - c.(start_frs)) * R ->
  (reads R (c :: d :: l) frs p -> reads R (join_chunks c d :: l) frs p) /\
  (reads R (join_chunks c d :: l) frs p \/ in_gap (join_chunks c d :: l) frs ->
   reads R (c :: d :: l) frs p \/ in_gap (c :: d :: l) frs).
Proof.
  intros Hc Hd Hb Hl Hcnt Hdisk. destruct (join_covers c d frs p Hc Hd Hb Hcnt Hdisk) as [J1 J2].
  rewrite !reads_cons, !in_gap_cons. destruct Hc as (_ & _ & H1 & _), Hd as (_ & _ & H2 & _).
  unfold chunk_before in Hb. split; [tauto |].
  intros [[H | H] | [H G]]; [| tauto |].
  - destruct (J2 H) as [? | [? | ?]]; [tauto | tauto |]. right. split_and!; [lia | lia |].
    apply (in_gap_below l frs (start_frs d + record_count d)); [|lia].
    eapply Forall_impl; [exact Hl |]. done.
  - cbn in H. right. split_and!; [lia | lia | done].
Qed.

Lemma merge_loop_exact chunks c :
  Forall chunk_fits (c :: chunks) -> StronglySorted chunk_before (c :: chunks) -> neighbours c chunks ->
  let out := merge_loop c chunks in
  (forall frs p, reads R (c :: chunks) frs p -> reads R out frs p) /\
  (forall frs p, reads R out frs p ->
     c.(start_frs) <= frs /\ (reads R (c :: chunks) frs p \/ in_gap (c :: chunks) frs)) /\
  Forall (fun x => x ∈ c :: chunks \/ S x) out.
Proof.
  cbv zeta. revert c. induction chunks as [|d chunks IH]; intros c Hfit Hsort Hn; cbn [merge_loop].
  { split_and!; [tauto | | constructor; [left; left | constructor]].
    intros frs p Hr. split; [| by left]. apply reads_cons in Hr as [[[? _] _] | (r & Hr & _)]; [done |].
    by apply elem_of_nil in Hr. }
  apply Forall_cons in Hfit as [Hfc Hfit]. pose proof Hfit as [Hfd Hfit']%Forall_cons.
  apply StronglySorted_inv in Hsort as [Hsort Hcb]. pose proof Hcb as [Hcd Hcb']%Forall_cons.
  pose proof Hsort as [Hsort' Hdb]%StronglySorted_inv. destruct Hn as [Hrel Hn].
  destruct (can c d) eqn:Ecan.
  - destruct (Hcan c d Hfc Hfd Hcd Hrel Ecan) as (Hcnt & Hdisk & Hrel' & HS).
    pose proof (fun frs p => join_step c d chunks frs p Hfc Hfd Hcd Hdb Hcnt Hdisk) as Hj.
    destruct (IH (join_chunks c d)) as (G1 & G2 & G3).
    + constructor; [|done]. unfold chunk_fits, chunk_before in *. cbn. rewrite Hcnt. nia.
    + constructor; [done |]. eapply Forall_impl; [exact Hdb |]. unfold chunk_before. cbn. rewrite Hcnt. intros x. lia.
    + destruct chunks as [|e chunks]; [done |]. destruct Hn as [Hde Hn]. split; [by apply Hrel' | done].
    + split_and!.
      * intros frs p Hr. apply G1, (Hj frs p), Hr.
      * intros frs p Ho. destruct (G2 frs p Ho) as [Hlow Hg]. split; [done |]. by apply (Hj frs p).
      * eapply Forall_impl; [exact G3 |]. cbn. intros x [[-> | Hx]%elem_of_cons | Hx]; auto.
        left. by do 2 right.
  - destruct (IH d Hfit Hsort Hn) as (G1 & G2 & G3). split_and!.
    + intros frs p. rewrite !(reads_cons c). intros [? | ?]; auto.
    + intros frs p. rewrite !(reads_cons c), (in_gap_cons c). unfold chunk_before in Hcd.
      destruct Hfc as (_ & _ & ? & _). intros [Hc | Ho]; [split; [apply Hc | tauto] |].
      destruct (G2 frs p Ho) as [Hlow Hg]. split; [lia |]. destruct Hg; [tauto |].
      right. split; [lia | done].
    + constructor; [by left; left |]. eapply Forall_impl; [exact G3 |]. cbn.
      intros x [Hx | Hx]; [|by right]. left. by right.
Qed.
End merge_loop.

(** * [merge_adjacent_chunks] *)

Definition can_merge_adjacent (R threshold : Z) (c d : ReadChunk) : bool :=
  is_physically_contiguous R threshold c d && is_frs_contiguous threshold c d
  && (merged_record_count c d *w R <=? MAX_CHUNK_BYTES).

Lemma merge_adjacent_loop_eq R th c l :
  merge_adjacent_loop R th c l = merge_loop (can_merge_adjacent R th) merged_record_count c l.
Proof.
  revert c. induction l as [|d l IH]; intros c; cbn; [done |].
  unfold can_merge_adjacent at 1. destruct (_ && _ && _); [apply IH | by rewrite IH].
Qed.

(** The gap between two chunks the tests accept is as long on the volume as in
    record numbers. *)
Definition gap_matches (R threshold : Z) (c d : ReadChunk) : Prop :=
  is_physically_contiguous R threshold c d = true -> is_frs_contiguous threshold c d = true ->
  d.(disk_offset) - (c.(disk_offset) + c.(record_count) * R) =
  (d.(start_frs) - (c.(start_frs) + c.(record_count))) * R.

(** Every chunk of the list stands so to the next. *)
Definition consecutive (rel : ReadChunk -> ReadChunk -> Prop) (l : list ReadChunk) : Prop :=
  match l with [] => True | c :: l => neighbours rel c l end.

Lemma merged_record_count_exact R c d :
  chunk_fits R c -> chunk_fits R d -> chunk_before c d ->
  merged_record_count c d = d.(start_frs) + d.(record_count) - c.(start_frs).
Proof.
  unfold chunk_fits, chunk_before, merged_record_count. intros. rewrite (u64_small (_ + _)) by lia.
  apply u64_small. lia.
Qed.

Lemma can_merge_adjacent_ok R th c d :
  0 < R -> chunk_fits R c -> chunk_fits R d -> chunk_before c d -> gap_matches R th c d ->
  can_merge_adjacent R th c d = true ->
  merged_record_count c d = d.(start_frs) + d.(record_count) - c.(start_frs) /\
  d.(disk_offset) = c.(disk_offset) + (d.(start_frs) - c.(start_frs)) * R /\
  (forall e, gap_matches R th d e -> gap_matches R th (join_chunks merged_record_count c d) e) /\
  (join_chunks merged_record_count c d).(record_count) * R <= MAX_CHUNK_BYTES.
Proof.
  intros HR Hc Hd Hb Hg [[H1 H2]%andb_true_iff H3]%andb_true_iff.
  pose proof (merged_record_count_exact R c d Hc Hd Hb) as Hcnt.
  specialize (Hg H1 H2). unfold chunk_fits, chunk_before in *.
  assert (Hdisk : disk_offset d = disk_offset c + (start_frs d - start_frs c) * R) by lia.
  assert (Hend : disk_offset c + (start_frs d + record_count d - start_frs c) * R =
    disk_offset d + record_count d * R) by lia.
  assert (0 <= (start_frs d + record_count d - start_frs c) * R) by nia.
  split_and!; [done | done | |].
  - intros e. unfold gap_matches, is_physically_contiguous, is_frs_contiguous, join_chunks.
    cbn [disk_offset start_frs record_count]. rewrite Hcnt.
    rewrite (u64_small ((_ - start_frs c) * R)), Hend, Zplus_minus by lia.
    assert (0 <= record_count d * R) by nia. rewrite (u64_small (record_count d * R)) by lia. done.
  - cbn [join_chunks record_count]. rewrite Hcnt. rewrite Hcnt in H3.
    rewrite u64_small in H3 by lia. lia.
Qed.

Lemma merge_adjacent_exact R th chunks :
  0 < R -> Forall (chunk_fits R) chunks -> StronglySorted chunk_before chunks ->
  consecutive (gap_matches R th) chunks ->
  let out := merge_adjacent_chunks chunks R th in
  (forall frs p, reads R chunks frs p -> reads R out frs p) /\
  (forall frs p, reads R out frs p -> reads R chunks frs p \/ in_gap chunks frs) /\
  Forall (fun x => x ∈ chunks \/ x.(record_count) * R <= MAX_CHUNK_BYTES) out.
Proof.
  intros HR Hfit Hsort Hgap. cbv zeta.
  assert (Hid : forall l : list ReadChunk, Forall (fun x => x ∈ l \/ x.(record_count) * R <= MAX_CHUNK_BYTES) l).
  { intros l. apply Forall_forall. auto. }
  destruct chunks as [|c [|d chunks]]; cbn [merge_adjacent_chunks]; [split_and!; auto.. |].
  rewrite merge_adjacent_loop_eq.
  destruct (merge_loop_exact (can_merge_adjacent R th) merged_record_count R (gap_matches R th)
    (fun x => x.(record_count) * R <= MAX_CHUNK_BYTES)) with (chunks := d :: chunks) (c := c)
    as (G1 & G2 & G3); try done.
  - intros c' d' Hc Hd Hb Hg Hcan. by apply can_merge_adjacent_ok.
  - split_and!; [done | | done]. intros frs p H. by apply (G2 frs p).
Qed.

(** On chunks in record order whose small gaps are as long on the volume as in record
    numbers, [merge_adjacent_chunks] reads every record it was given from the same place, adds
    only records of the gaps, and makes no chunk of more than 1 GiB. *)
Theorem merge_adjacent_chunks_exact (R threshold : Z) (chunks : list ReadChunk)
    (HR : 0 < R) (Hfit : Forall (chunk_fits R) chunks) (Hsort : StronglySorted chunk_before chunks)
    (Hgap : consecutive (gap_matches R threshold) chunks) :
  let out := merge_adjacent_chunks chunks R threshold in
  (forall frs p, reads R chunks frs p -> reads R out frs p) /\
  (forall frs p, reads R out frs p -> reads R chunks frs p \/ in_gap chunks frs) /\
  Forall (fun x => x ∈ chunks \/ x.(record_count) * R <= MAX_CHUNK_BYTES) out.
Proof. by apply merge_adjacent_exact. Qed.

Definition far_chunks : list ReadChunk :=
  [mk_chunk 102400 0 100 0 0; mk_chunk 204800 100 100 0 0; mk_chunk 0 200 50 0 0].

Lemma merge_adjacent_chunks_exact_witness :
  merge_adjacent_chunks far_chunks 1024 64 = [mk_chunk 102400 0 200 0 0; mk_chunk 0 200 50 0 0] /\
  reads 1024 (merge_adjacent_chunks far_chunks 1024 64) 120 (204800 + 20 * 1024).
Proof.
  split; [reflexivity |].
  apply (merge_adjacent_chunks_exact 1024 64 far_chunks); [lia | | | |].
  - unfold far_chunks, chunk_fits. forall_eval.
  - unfold far_chunks, chunk_before. repeat constructor; cbn; lia.
  - split; [by_eval | split; [by_eval | done]].
  - exists (mk_chunk 204800 100 100 0 0). split; [right; left | by_eval].
Defined.

(** When the tests accept two chunks whose gap on the volume differs from their gap in
    record numbers, the merged chunk takes every record of the second from the wrong place. *)
Theorem merge_adjacent_misplaces (R threshold : Z) (c d : ReadChunk)
    (HR : 0 < R) (Hc : chunk_fits R c) (Hd : chunk_fits R d) (Hb : chunk_before c d)
    (Hp : is_physically_contiguous R threshold c d = true) (Hf : is_frs_contiguous threshold c d = true)
    (Hspan : (d.(start_frs) + d.(record_count) - c.(start_frs)) * R <= MAX_CHUNK_BYTES)
    (Hgap : d.(disk_offset) - (c.(disk_offset) + c.(record_count) * R) <>
            (d.(start_frs) - (c.(start_frs) + c.(record_count))) * R) :
  forall frs p q, covers R (to_seg R d) frs p ->
    reads R (merge_adjacent_chunks [c; d] R threshold) frs q -> q <> p.
Proof.
  intros frs p q [Hfd ->]. unfold merge_adjacent_chunks. cbn [merge_adjacent_loop].
  rewrite Hp, Hf, (merged_record_count_exact R) by done. unfold MAX_CHUNK_BYTES in *.
  unfold chunk_fits, chunk_before in *. rewrite u64_small by nia.
  destruct (Z.leb_spec ((start_frs d + record_count d - start_frs c) * R) (1024 * 1024 * 1024)); [|lia].
  cbn [andb]. intros (r & ->%list_elem_of_singleton & _ & ->). cbn in *. nia.
Qed.

(** Two extents one cluster apart on the volume: record 40 lies at cluster 111, the
    chunk reads it from cluster 110. *)
Definition near_map : MftExtentMap := mk_map [mk_extent 0 10 100; mk_extent 10 10 111] 4096 1024.

Lemma merge_adjacent_misplaces_witness :
  generate_read_chunks near_map None 65536 = Some [mk_chunk 409600 0 80 0 0] /\
  physical_offset near_map 40 = Some (Some (111 * 4096)) /\
  forall q, reads 1024 (merge_adjacent_chunks [mk_chunk 409600 0 40 0 0; mk_chunk (111 * 4096) 40 40 0 0] 1024 64) 40 q ->
    q <> 111 * 4096.
Proof.
  split; [reflexivity |]. split; [reflexivity |]. intros q.
  apply (merge_adjacent_misplaces 1024 64 (mk_chunk 409600 0 40 0 0) (mk_chunk (111 * 4096) 40 40 0 0));
    try reflexivity; try by_eval.
Defined.

(** * [merge_precise_chunks] *)

Definition can_merge_precise (R min_gap max_io : Z) (c d : ReadChunk) : bool :=
  (saturating_sub d.(disk_offset) (c.(disk_offset) +w c.(record_count) *w R) <=? min_gap)
  && (merged_span R c d <=? max_io).

Lemma merge_precise_loop_eq R g m c l :
  merge_precise_loop R g m c l = merge_loop (can_merge_precise R g m) (fun c d => merged_span R c d / R) c l.
Proof.
  revert c. induction l as [|d l IH]; intros c; cbn; [done |].
  unfold can_merge_precise at 1. destruct (_ && _); [apply IH | by rewrite IH].
Qed.

(** The second chunk is as far from the first on the volume as in record numbers. *)
Definition in_line (R : Z) (c d : ReadChunk) : Prop :=
  d.(disk_offset) = c.(disk_offset) + (d.(start_frs) - c.(start_frs)) * R.

Lemma merged_span_in_line R c d :
  0 < R -> chunk_fits R c -> chunk_fits R d -> chunk_before c d -> in_line R c d ->
  merged_span R c d = (d.(start_frs) + d.(record_count) - c.(start_frs)) * R.
Proof.
  unfold chunk_fits, chunk_before, in_line, merged_span. intros HR Hc Hd Hb Hl.
  assert (0 <= record_count d * R) by nia.
  rewrite (u64_small (record_count d * R)), (u64_small (disk_offset d + _)) by lia.
  rewrite Hl. rewrite u64_small; nia.
Qed.

(** Chunks all on one line. *)
Definition on_line (R D : Z) (c : ReadChunk) : Prop := c.(disk_offset) = D + c.(start_frs) * R.

Lemma sort_by_key_id {A} (key : A -> Z) l :
  StronglySorted (fun a b => key a <= key b) l -> sort_by_key key l = l.
Proof.
  induction 1 as [|x l Hs IH Hf]; cbn; [done |]. change (foldr (insert_by_key key) [] l) with (sort_by_key key l).
  rewrite IH. destruct l as [|y l]; cbn; [done |]. apply Forall_cons in Hf as [Hf _].
  destruct (Z.leb_spec (key x) (key y)); [done | lia].
Qed.

Lemma on_line_sorted R D l :
  0 < R -> Forall (chunk_fits R) l -> Forall (on_line R D) l -> StronglySorted chunk_before l ->
  StronglySorted (fun a b => a.(disk_offset) <= b.(disk_offset)) l.
Proof.
  intros HR Hfit Hline. induction 1 as [|c l Hs IH Hb]; [constructor |].
  apply Forall_cons in Hfit as [Hc Hfit]. apply Forall_cons in Hline as [Hlc Hline].
  constructor; [by apply IH |]. apply Forall_forall. intros d Hd.
  rewrite Forall_forall in Hb. rewrite Forall_forall in Hline. specialize (Hb d Hd). specialize (Hline d Hd).
  unfold on_line, chunk_before, chunk_fits in *. nia.
Qed.

Lemma on_line_neighbours R D c l :
  on_line R D c -> Forall (on_line R D) l -> neighbours (in_line R) c l.
Proof.
  revert c. induction l as [|d l IH]; intros c Hc Hl; [done |].
  apply Forall_cons in Hl as [Hd Hl]. split; [|by apply IH]. unfold on_line, in_line in *. nia.
Qed.

(** What a merge of chunks on a line does: nothing given is lost, the line is kept. *)
Definition merge_safe (R D : Z) (chunks out : list ReadChunk) : Prop :=
  (forall frs p, reads R chunks frs p -> reads R out frs p) /\ Forall (on_line R D) out.

Lemma merge_precise_on_line R D g m l :
  0 < R -> Forall (chunk_fits R) l -> Forall (on_line R D) l -> StronglySorted chunk_before l ->
  merge_safe R D l (merge_precise_chunks l R g m).
Proof.
  intros HR Hfit Hline Hsort. unfold merge_precise_chunks.
  destruct (Z.ltb_spec (zlen l) 2); [by split |].
  rewrite sort_by_key_id by by eapply on_line_sorted.
  destruct l as [|c l]; [by split |]. rewrite merge_precise_loop_eq.
  apply Forall_cons in Hline as [Hlc Hline].
  destruct (merge_loop_exact (can_merge_precise R g m) (fun c d => merged_span R c d / R) R (in_line R)
    (fun _ => True)) with (chunks := l) (c := c) as (G1 & G2 & _); try done.
  - intros c' d' Hc Hd Hb Hl _. cbn. rewrite merged_span_in_line, Z.div_mul by (done || lia).
    split_and!; try done. intros e. unfold in_line, join_chunks in *. cbn. nia.
  - by eapply on_line_neighbours.
  - split; [done |]. by apply merge_loop_keeps.
Qed.

Lemma merge_adjacent_on_line R D th l :
  0 < R -> Forall (chunk_fits R) l -> Forall (on_line R D) l -> StronglySorted chunk_before l ->
  merge_safe R D l (merge_adjacent_chunks l R th).
Proof.
  intros HR Hfit Hline Hsort. split.
  - apply (merge_adjacent_exact R th l); try done.
    destruct l as [|c l]; [done |]. apply Forall_cons in Hline as [Hlc Hline]. cbn [consecutive].
    clear Hfit Hsort. revert c Hlc. induction Hline as [|d l Hd Hl IH]; intros c Hc; [done |].
    split; [|by apply IH]. intros _ _. unfold on_line in *. nia.
  - destruct l as [|c [|d l]]; [done | done |]. cbn [merge_adjacent_chunks].
    rewrite merge_adjacent_loop_eq. apply Forall_cons in Hline as [Hlc Hline]. by apply merge_loop_keeps.
Qed.

(** * Contiguous [$MFT] *)

(** What the readers need of a plan: every wanted record that has a place is read from it,
    and no record is read from another place. *)
Definition plan_right (m : MftExtentMap) (wanted : Z -> Prop) (l : list ReadChunk) : Prop :=
  (forall frs p, wanted frs -> located m frs p -> reads m.(bytes_per_record) l frs p) /\
  (forall frs p q, reads m.(bytes_per_record) l frs p -> located m frs q -> p = q).

Section contiguous.
Context (m : MftExtentMap) (e : MftExtent) (Hm : map_ok m) (Hw : whole_records m) (He : m.(extents) = [e]).

Definition line : Z :=
  e.(ext_lcn) * m.(bytes_per_cluster) - e.(ext_vcn) * records_per_cluster m * m.(bytes_per_record).

Lemma located_on_line frs p :
  located m frs p ->
  p = line + frs * m.(bytes_per_record) /\ Lcn_is_hole e.(ext_lcn) = false /\
  e.(ext_vcn) * records_per_cluster m <= frs < (e.(ext_vcn) + e.(ext_count)) * records_per_cluster m.
Proof.
  intros (e' & Ie & Hh & Hb & Hp)%located_records; [|done..].
  rewrite He in Ie. apply list_elem_of_singleton in Ie as ->. unfold line.
  split_and!; [lia | done | lia | lia].
Qed.

(** Chunks that read only located records lie on the extent's line. *)
Lemma contiguous_on_line l :
  (forall frs p, reads m.(bytes_per_record) l frs p -> located m frs p) ->
  Forall (fun c => 0 < c.(record_count)) l ->
  Forall (chunk_fits m.(bytes_per_record)) l /\ Forall (on_line m.(bytes_per_record) line) l.
Proof.
  intros Hl Hpos. destruct (whole_records_rpc m Hm Hw) as [Hk HC]. pose proof Hm as [_ Hr _ Hok].
  rewrite He, Forall_singleton, HC in Hok. rewrite Forall_forall in Hpos. unfold line in *.
  assert (Hend : forall c frs, c ∈ l -> c.(start_frs) <= frs < c.(start_frs) + c.(record_count) ->
    located m frs (disk_offset c + (frs - start_frs c) * bytes_per_record m)).
  { intros c frs Hc Hf. apply Hl. exists c. split; [done |]. by split. }
  assert (Hboth : forall c, c ∈ l -> chunk_fits (bytes_per_record m) c /\ on_line (bytes_per_record m) line c).
  { intros c Hc. specialize (Hpos c Hc).
    destruct (located_on_line _ _ (Hend c (start_frs c) Hc ltac:(lia))) as (D1 & Hh & B1).
    destruct (located_on_line _ _ (Hend c (start_frs c + record_count c - 1) Hc ltac:(lia))) as (_ & _ & B2).
    unfold line in *. rewrite HC in *.
    set (R := bytes_per_record m) in *. set (k := records_per_cluster m) in *.
    destruct (extent_small R k e) as (H1 & H2 & H3 & _ & H5 & H6); try done; [lia |].
    assert (0 <= ext_vcn e * k) by nia.
    assert ((start_frs c - ext_vcn e * k) * R + record_count c * R <= ext_count e * k * R).
    { rewrite <- Z.mul_add_distr_r. apply Z.mul_le_mono_nonneg_r; lia. }
    unfold chunk_fits, on_line. split_and!; nia. }
  split; apply Forall_forall; intros c Hc; by apply Hboth.
Qed.

Lemma contiguous_plan_right (wanted : Z -> Prop) l out :
  (forall frs p, reads m.(bytes_per_record) l frs p -> located m frs p) ->
  (forall frs p, wanted frs -> located m frs p -> reads m.(bytes_per_record) l frs p) ->
  Forall (fun c => 0 < c.(record_count)) l ->
  (Forall (chunk_fits m.(bytes_per_record)) l -> Forall (on_line m.(bytes_per_record) line) l ->
     merge_safe m.(bytes_per_record) line l out) ->
  plan_right m wanted out.
Proof.
  intros Hl Hwant Hpos Hout. destruct (contiguous_on_line l Hl Hpos) as (Hfit & Hline).
  destruct (Hout Hfit Hline) as [G1 Hol]. split; [auto |].
  intros frs p q (c & Hc & _ & Hp) Hq. destruct (located_on_line _ _ Hq) as [-> _].
  rewrite Forall_forall in Hol. specialize (Hol c Hc). unfold on_line in Hol. cbn in Hp. lia.
Qed.
End contiguous.

Lemma small_chunk_pos c l : Forall (small_chunk c) l -> Forall (fun x => 0 < x.(record_count)) l.
Proof. intros H. eapply Forall_impl; [exact H |]. unfold small_chunk. cbn. intros x. lia. Qed.

Lemma seg_sorted_chunks R (l : list ReadChunk) :
  StronglySorted seg_before (map (to_seg R) l) -> StronglySorted chunk_before l.
Proof.
  induction l as [|c l IH]; intros H; [constructor |]. cbn [map] in H.
  apply StronglySorted_inv in H as [Hs Hf]. constructor; [by apply IH |].
  apply Forall_forall. intros d Hd. rewrite Forall_forall in Hf.
  specialize (Hf (to_seg R d)). apply Hf, list_elem_of_fmap. by exists d.
Qed.

(** For a contiguous [$MFT], [generate_read_chunks] with or without a bitmap reads every
    record that has a place, and none from another place. *)
Theorem generate_read_chunks_contiguous (m : MftExtentMap) (e : MftExtent) (bm : option MftBitmap)
    (chunk_size : Z) (Hm : map_ok m) (Hw : whole_records m) (He : m.(extents) = [e])
    (Hc : m.(bytes_per_record) <= chunk_size) :
  exists l, generate_read_chunks m bm chunk_size = Some l /\ plan_right m (fun _ => True) l.
Proof.
  destruct (read_chunks_unmerged m chunk_size Hm Hw Hc) as (l & E & Hr & Hs & Hq).
  unfold generate_read_chunks, checked_div. pose proof Hm as [_ HR _ _].
  destruct (Z.eqb_spec (bytes_per_record m) 0); [lia |].
  fold (records_per_cluster m). rewrite E. eexists. split; [done |].
  apply (contiguous_plan_right m e) with (l := l); try done; [naive_solver.. | by eapply small_chunk_pos |].
  intros Hfit Hline. unfold maybe_merge_chunks. destruct (bool_decide _); [by split |].
  apply merge_adjacent_on_line; try done; [lia |]. by eapply seg_sorted_chunks.
Qed.

Definition one_extent : MftExtentMap := mk_map [mk_extent 0 16 100] 4096 1024.

Lemma one_extent_ok : map_ok one_extent.
Proof. constructor; cbn; try lia; repeat constructor; cbn; lia || discriminate. Qed.

Lemma generate_read_chunks_contiguous_witness :
  generate_read_chunks one_extent None 16384 = Some [mk_chunk 409600 0 64 0 0] /\
  exists l, generate_read_chunks one_extent None 16384 = Some l /\ plan_right one_extent (fun _ => True) l.
Proof.
  split; [reflexivity |].
  apply (generate_read_chunks_contiguous one_extent (mk_extent 0 16 100)); [apply one_extent_ok | by exists 4 | done | done].
Defined.

(** For a contiguous [$MFT], [generate_precise_read_chunks] terminates; every record the
    bitmap holds in use that has a place is read, and none is read from another place. *)
Theorem generate_precise_read_chunks_contiguous (m : MftExtentMap) (e : MftExtent) (bm : MftBitmap)
    (max_io_size min_gap_records : Z) (Hm : map_ok m) (Hw : whole_records m) (He : m.(extents) = [e])
    (Hc : m.(bytes_per_record) <= max_io_size) (Hbm : bitmap_wf bm)
    (Hn : bm.(bm_record_count) + records_per_cluster m < 2 ^ 64) :
  exists l, generate_precise_read_chunks m bm max_io_size min_gap_records = Some l /\
    plan_right m (fun frs => 0 <= frs /\ is_record_in_use bm frs = true) l.
Proof.
  destruct (whole_records_rpc m Hm Hw) as [Hk HC]. pose proof Hm as [_ HR _ _].
  destruct (in_use_cluster_ranges_ok bm (records_per_cluster m) Hbm Hk Hn) as (rs & Ers & Hsep & _ & Hin).
  assert (Hhi : total_clusters bm (records_per_cluster m) * records_per_cluster m < 2 ^ 64).
  { unfold total_clusters. pose proof (div_ceil_mul (bm_record_count bm) (records_per_cluster m) Hk). lia. }
  destruct (precise_chunks_unmerged m rs _ max_io_size Hm Hw Hc Hsep Hhi) as (l & E & Hr & Hs & Hq).
  unfold generate_precise_read_chunks, checked_div.
  destruct (Z.eqb_spec (bytes_per_record m) 0); [lia |]. fold (records_per_cluster m). rewrite Ers.
  destruct (Z.eqb_spec (zlen rs) 0) as [Hz |].
  - exists []. split; [done |]. split; [| intros frs p q (r & Hrr & _); by apply elem_of_nil in Hrr].
    intros frs p [H0 Hu] _. destruct (Hin frs H0 Hu) as (a & n' & Hrs & _).
    destruct rs; [by apply elem_of_nil in Hrs |]. pose proof (zlen_nonneg rs). rewrite zlen_cons in Hz. lia.
  - rewrite E. eexists. split; [done |].
    apply (contiguous_plan_right m e) with (l := l); try done; [naive_solver.. | by eapply small_chunk_pos |].
    intros Hfit Hline. apply merge_precise_on_line; try done; [lia |]. by eapply seg_sorted_chunks.
Qed.

Lemma generate_precise_read_chunks_contiguous_witness :
  generate_precise_read_chunks one_extent (from_bytes [0x01; 0; 0; 0x80; 0x01; 0; 0; 0]) 65536 4 =
    Some [mk_chunk 409600 0 4 0 0; mk_chunk (409600 + 28 * 1024) 28 8 0 0] /\
  exists l, generate_precise_read_chunks one_extent (from_bytes [0x01; 0; 0; 0x80; 0x01; 0; 0; 0]) 65536 4 = Some l /\
    reads 1024 l 31 (409600 + 31 * 1024).
Proof.
  split; [reflexivity |].
  destruct (generate_precise_read_chunks_contiguous one_extent (mk_extent 0 16 100)
    (from_bytes [0x01; 0; 0; 0x80; 0x01; 0; 0; 0]) 65536 4) as (l & E & H & _);
    [apply one_extent_ok | by exists 4 | done | done | split; [forall_eval | discriminate] | reflexivity |].
  exists l. split; [exact E |]. apply H; [split; [lia | reflexivity] |].
  exists (mk_extent 0 16 100). split; [left |]. split; [reflexivity |]. by_eval.
Defined.

(** On a fragmented [$MFT], [merge_precise_chunks] joins chunks that are close on the
    volume whatever their record numbers are: the merged chunk starts at the first one's record
    and reads no record of the second from its place. *)
Theorem merge_precise_misplaces (R min_gap max_io : Z) (c d : ReadChunk)
    (HR : 0 < R) (Hc : chunk_fits R c) (Hd : chunk_fits R d)
    (Hafter : c.(disk_offset) + c.(record_count) * R <= d.(disk_offset))
    (Hgap : d.(disk_offset) - (c.(disk_offset) + c.(record_count) * R) <= min_gap)
    (Hspan : d.(disk_offset) + d.(record_count) * R - c.(disk_offset) <= max_io)
    (Hline : ~ in_line R c d) :
  (exists x, merge_precise_chunks [c; d] R min_gap max_io = [x] /\ x.(start_frs) = c.(start_frs)) /\
  forall frs p q, covers R (to_seg R d) frs p ->
    reads R (merge_precise_chunks [c; d] R min_gap max_io) frs q -> q <> p.
Proof.
  unfold chunk_fits, in_line in *.
  assert (E : exists n s, merge_precise_chunks [c; d] R min_gap max_io =
    [mk_chunk c.(disk_offset) c.(start_frs) n c.(skip_begin) s]).
  { unfold merge_precise_chunks. cbn [zlen length sort_by_key foldr insert_by_key].
    change (zlen [c; d] <? 2) with false. cbv iota.
    assert (0 < record_count c * R /\ 0 < record_count d * R) by nia.
    destruct (Z.leb_spec (disk_offset c) (disk_offset d)); [|lia]. cbn [merge_precise_loop].
    unfold merged_span, saturating_sub.
    rewrite (u64_small (record_count c * R)), (u64_small (disk_offset c + record_count c * R)),
      (u64_small (record_count d * R)), (u64_small (disk_offset d + record_count d * R)), u64_small by lia.
    destruct (Z.leb_spec (Z.max 0 (disk_offset d - (disk_offset c + record_count c * R))) min_gap); [|lia].
    destruct (Z.leb_spec (disk_offset d + record_count d * R - disk_offset c) max_io); [|lia]. eauto. }
  destruct E as (n & s & ->). split; [by eexists |].
  intros frs p q [_ ->] (r & ->%list_elem_of_singleton & _ & ->). cbn. nia.
Qed.

(** The extents of the file are swapped on the volume: the chunk of both starts at
    record 40, so record 0 is read as record 80. *)
Definition swapped_map : MftExtentMap := mk_map [mk_extent 0 10 110; mk_extent 10 10 100] 4096 1024.

Lemma merge_precise_misplaces_witness :
  generate_precise_read_chunks swapped_map (new_all_valid 80) 1048576 64 = Some [mk_chunk 409600 40 80 0 0] /\
  physical_offset swapped_map 0 = Some (Some 450560) /\
  forall q, reads 1024 (merge_precise_chunks [mk_chunk 409600 40 40 0 0; mk_chunk 450560 0 40 0 0] 1024 65536 1048576) 0 q ->
    q <> 450560.
Proof.
  split; [reflexivity |]. split; [reflexivity |]. intros q.
  apply (merge_precise_misplaces 1024 65536 1048576 (mk_chunk 409600 40 40 0 0) (mk_chunk 450560 0 40 0 0)); by_eval.
Defined.

(** When the chunk size is below the record size the splitting loops never end, whatever
    the number of steps. *)
Theorem split_below_record_diverges (fuel : nat) (R start disk records size : Z)
    (HR : 0 <= size < R) (Hn : 0 < records) :
  split_loop fuel R start disk records (size / R) 0 = None /\
  emit_loop fuel R start disk records (size / R) 0 = None.
Proof.
  rewrite Z.div_small by done. split; [by apply split_loop_diverges | by apply emit_loop_diverges].
Qed.

Lemma split_below_record_diverges_witness :
  split_loop 5 1024 0 0 4 (512 / 1024) 0 = None /\ emit_loop 5 1024 0 0 4 (512 / 1024) 0 = None.
Proof. apply (split_below_record_diverges 5 1024 0 0 4 512); lia. Defined.
