(* ===== verification/Shards.v ===== *)
(** One drive's shard of the daemon's cache and the registry of shards:
    [crates/uffs-daemon/src/cache/shard.rs], [cache/shard/drive_stats.rs] and
    [cache/registry.rs].

    Log events are left out.  [Arc<DriveStats>] is shared by the successive
    entries of a drive and mutated through the sharing, so entries hold a key of a
    store of [DriveStats]; an entry's own [Arc] has an identity, [arc], because its
    pin is stored through any handle to it.  Index bodies are a parameter: only
    their letter and their parked part matter here. *)
From S2P Require Import Prelude.
From stdpp Require Import strings.
Local Open Scope string_scope.
Local Open Scope Z_scope.
Local Open Scope rust_scope.

(** * Tier states *)

Inductive ShardState := Unknown | Cold | Parked | Warm | Hot | Evicting.

#[export] Instance ShardState_eq_dec : EqDecision ShardState.
Proof. solve_decision. Defined.

Definition can_transition_to (self to : ShardState) : bool :=
  match self, to with
  | Unknown, (Cold | Parked | Warm)
  | Cold, (Parked | Warm)
  | Parked, (Cold | Warm)
  | Warm, (Hot | Evicting)
  | Hot, (Warm | Evicting)
  | Evicting, (Cold | Parked) => true
  | _, _ => false
  end.

(** [self as u8]. *)
Definition repr (s : ShardState) : Z :=
  match s with Unknown => 0 | Cold => 1 | Parked => 2 | Warm => 3 | Hot => 4 | Evicting => 5 end.

Definition from_repr (r : Z) : ShardState :=
  if r =? 0 then Unknown else if r =? 1 then Cold else if r =? 2 then Parked
  else if r =? 4 then Hot else if r =? 5 then Evicting else Warm.

Definition display (s : ShardState) : string :=
  match s with
  | Unknown => "unknown" | Cold => "cold" | Parked => "parked"
  | Warm => "warm" | Hot => "hot" | Evicting => "evicting"
  end.

Definition from_str (s : string) : result ShardState string :=
  if bool_decide (s = "unknown") then Ok Unknown
  else if bool_decide (s = "cold") then Ok Cold
  else if bool_decide (s = "parked") then Ok Parked
  else if bool_decide (s = "warm") then Ok Warm
  else if bool_decide (s = "hot") then Ok Hot
  else if bool_decide (s = "evicting") then Ok Evicting
  else Err s.

Record IllegalTransition := mk_illegal { from : ShardState; to : ShardState }.

(** * Query statistics *)

Record DriveStats := mk_stats {
  queries_total : Z; rate_ema_micro_per_s : Z; last_decay_ms : Z; last_decay_queries_total : Z;
  last_query_at_ms : Z; promotions_total : Z; last_known_records : Z
}.

Definition DriveStats_new : DriveStats := mk_stats 0 0 0 0 0 0 0.

Definition set_last_known_records (s : DriveStats) (records : Z) : DriveStats :=
  mk_stats s.(queries_total) s.(rate_ema_micro_per_s) s.(last_decay_ms) s.(last_decay_queries_total)
    s.(last_query_at_ms) s.(promotions_total) records.

(** [fetch_add] wraps. *)
Definition record_query (s : DriveStats) : DriveStats :=
  mk_stats (s.(queries_total) +w 1) s.(rate_ema_micro_per_s) s.(last_decay_ms)
    s.(last_decay_queries_total) s.(last_query_at_ms) s.(promotions_total) s.(last_known_records).

Definition mark_query_at (s : DriveStats) (now_ms : Z) : DriveStats :=
  mk_stats (s.(queries_total) +w 1) s.(rate_ema_micro_per_s) s.(last_decay_ms)
    s.(last_decay_queries_total) now_ms s.(promotions_total) s.(last_known_records).

Definition mark_loaded_at (s : DriveStats) (now_ms : Z) : DriveStats :=
  mk_stats s.(queries_total) s.(rate_ema_micro_per_s) s.(last_decay_ms) s.(last_decay_queries_total)
    now_ms s.(promotions_total) s.(last_known_records).

Definition record_cold_to_hot_promote (s : DriveStats) : DriveStats :=
  mk_stats s.(queries_total) s.(rate_ema_micro_per_s) s.(last_decay_ms) s.(last_decay_queries_total)
    s.(last_query_at_ms) (s.(promotions_total) +w 1) s.(last_known_records).

Section decay.
(** The floating-point arithmetic: the stored fixed-point rate as a rate, and the
    blend of that rate with the sample [delta_queries] over [elapsed_ms]. *)
Context {F : Type} (fixed_rate : Z -> F) (blend : Z -> Z -> Z -> F) (to_fixed : F -> Z).

Definition decay_ema (s : DriveStats) (now_ms : Z) : F * DriveStats :=
  let prev_ms := s.(last_decay_ms) in
  let cur_queries := s.(queries_total) in
  let prev_queries := s.(last_decay_queries_total) in
  let prev_ema_fixed := s.(rate_ema_micro_per_s) in
  let with_rate fixed :=
    mk_stats cur_queries fixed now_ms cur_queries s.(last_query_at_ms) s.(promotions_total)
      s.(last_known_records) in
  if prev_ms =? 0 then (fixed_rate prev_ema_fixed, with_rate prev_ema_fixed) else
  let elapsed_ms := saturating_sub now_ms prev_ms in
  let delta_queries := saturating_sub cur_queries prev_queries in
  let new_ema := blend prev_ema_fixed elapsed_ms delta_queries in
  (new_ema, with_rate (to_fixed new_ema)).
End decay.

(** The serialisable mirror; its fields are in another order. *)
Record DriveStatsSnapshot := mk_snapshot {
  snap_queries_total : Z; snap_rate_ema_micro_per_s : Z; snap_last_decay_ms : Z;
  snap_last_query_at_ms : Z; snap_last_decay_queries_total : Z; snap_promotions_total : Z;
  snap_last_known_records : Z
}.

Definition snapshot_from (s : DriveStats) : DriveStatsSnapshot :=
  mk_snapshot s.(queries_total) s.(rate_ema_micro_per_s) s.(last_decay_ms) s.(last_query_at_ms)
    s.(last_decay_queries_total) s.(promotions_total) s.(last_known_records).

Definition stats_from (s : DriveStatsSnapshot) : DriveStats :=
  mk_stats s.(snap_queries_total) s.(snap_rate_ema_micro_per_s) s.(snap_last_decay_ms)
    s.(snap_last_decay_queries_total) s.(snap_last_query_at_ms) s.(snap_promotions_total)
    s.(snap_last_known_records).

(** * Shard entries *)

Definition DriveLetter := Z.

(** The store of statistics. *)
Abbreviation stats_store := (gmap Z DriveStats).

Section shards.
Context {Body ParkedBody : Type} (letter : Body -> DriveLetter) (to_parked_body : Body -> ParkedBody).

Record ShardEntry := mk_entry {
  drive : DriveLetter; state_repr : Z; stats : Z; body : option Body;
  parked_body : option ParkedBody; pin_until_ms : Z; arc : Z
}.

Definition new_warm_with_stats (drive : DriveLetter) (body : Body) (stats arc : Z) : ShardEntry :=
  mk_entry drive (repr Warm) stats (Some body) None 0 arc.

Definition new_hot_with_stats (drive : DriveLetter) (body : Body) (stats arc : Z) : ShardEntry :=
  mk_entry drive (repr Hot) stats (Some body) None 0 arc.

Definition new_parked (drive : DriveLetter) (stats : Z) (parked : ParkedBody) (arc : Z) : ShardEntry :=
  mk_entry drive (repr Parked) stats None (Some parked) 0 arc.

Definition new_cold (drive : DriveLetter) (stats arc : Z) : ShardEntry :=
  mk_entry drive (repr Cold) stats None None 0 arc.

Definition state (e : ShardEntry) : ShardState := from_repr e.(state_repr).

Definition is_pinned (e : ShardEntry) (now_ms : Z) : bool := now_ms <? e.(pin_until_ms).

Definition pin_until (e : ShardEntry) (pin : Z) : ShardEntry :=
  mk_entry e.(drive) e.(state_repr) e.(stats) e.(body) e.(parked_body) pin e.(arc).

(** * The registry *)

Inductive DemoteReason := IdleTtl | PressureCascade | OperatorHibernate.

Definition as_str (r : DemoteReason) : string :=
  match r with
  | IdleTtl => "demote" | PressureCascade => "pressure-cascade" | OperatorHibernate => "operator-hibernate"
  end.

Definition is_legal_demote_target (from target : ShardState) : bool :=
  match from, target with
  | (Hot | Warm), (Parked | Cold) | Parked, Cold => true
  | _, _ => false
  end.

Record ShardRegistry := mk_registry { shards : list ShardEntry; active_index : list Body }.

Definition ShardRegistry_new : ShardRegistry := mk_registry [] [].

Definition is_active (s : ShardState) : bool := match s with Warm | Hot => true | _ => false end.

Definition from_shards (shards : list ShardEntry) : ShardRegistry :=
  mk_registry shards (omap body (List.filter (fun e => is_active (state e)) shards)).

(** [ShardEntry::new_warm]: fresh statistics live under the key [stats]. *)
Definition add (r : ShardRegistry) (b : Body) (stats arc : Z) : ShardRegistry :=
  from_shards (r.(shards) ++ [new_warm_with_stats (letter b) b stats arc]).

Definition replace (r : ShardRegistry) (match_letter : DriveLetter) (b : Body) (stats arc : Z)
    : ShardRegistry :=
  from_shards (List.filter (fun e => negb (e.(drive) =? match_letter)) r.(shards)
               ++ [new_warm_with_stats (letter b) b stats arc]).

Definition remove (r : ShardRegistry) (d : DriveLetter) : ShardRegistry :=
  from_shards (List.filter (fun e => negb (e.(drive) =? d)) r.(shards)).

(** [iter().enumerate().find(|(_, shard)| shard.drive == letter)]. *)
Definition find_shard (r : ShardRegistry) (d : DriveLetter) : option (nat * ShardEntry) :=
  list_find (fun e => e.(drive) = d) r.(shards).

(** The rebuilt vector with one entry replaced. *)
Definition swap_entry (r : ShardRegistry) (pos : nat) (e : ShardEntry) : ShardRegistry :=
  from_shards (<[pos := e]> r.(shards)).

(** The reason is only logged. *)
Definition demote_letter_with_reason (r : ShardRegistry) (l : DriveLetter) (target : ShardState)
    (reason : DemoteReason) (arc : Z) : option ShardRegistry :=
  let? (pos, old) := find_shard r l in
  let from_state := state old in
  if negb (is_legal_demote_target from_state target) then None else
  let? new_entry :=
    match target with
    | Parked =>
        let? b := old.(body) in
        Some (new_parked old.(drive) old.(stats) (to_parked_body b) arc)
    | Cold => Some (new_cold old.(drive) old.(stats) arc)
    | _ => None
    end in
  Some (swap_entry r pos new_entry).

Definition demote_letter (r : ShardRegistry) (l : DriveLetter) (target : ShardState) (arc : Z)
    : option ShardRegistry :=
  demote_letter_with_reason r l target IdleTtl arc.

Definition promote_letter (r : ShardRegistry) (l : DriveLetter) (b : Body) (arc : Z)
    : option ShardRegistry :=
  let? (pos, old) := find_shard r l in
  match state old with
  | Parked | Cold => Some (swap_entry r pos (new_warm_with_stats old.(drive) b old.(stats) arc))
  | _ => None
  end.

(** A promotion from [Cold] is counted. *)
Definition promote_letter_to_hot (r : ShardRegistry) (st : stats_store) (l : DriveLetter) (b : Body)
    (arc : Z) : option (ShardRegistry * stats_store) :=
  let? (pos, old) := find_shard r l in
  match state old with
  | Parked | Cold | Warm =>
      let st := if bool_decide (state old = Cold)
                then alter record_cold_to_hot_promote old.(stats) st else st in
      Some (swap_entry r pos (new_hot_with_stats old.(drive) b old.(stats) arc), st)
  | _ => None
  end.

Definition replace_warm_body (r : ShardRegistry) (l : DriveLetter) (b : Body) (arc : Z)
    : option ShardRegistry :=
  let? (pos, old) := find_shard r l in
  match state old with
  | Warm | Hot => Some (swap_entry r pos (new_warm_with_stats old.(drive) b old.(stats) arc))
  | _ => None
  end.

Definition contains (r : ShardRegistry) (d : DriveLetter) : bool :=
  existsb (fun e => e.(drive) =? d) r.(shards).

Definition loaded_letters (r : ShardRegistry) : list DriveLetter := map drive r.(shards).
End shards.
Arguments ShardEntry : clear implicits.
Arguments ShardRegistry : clear implicits.

Example from_str_warm : from_str "warm" = Ok Warm /\ from_str "WARM" = Err "WARM".
Proof. split; reflexivity. Qed.

(** * State encodings *)

Lemma from_repr_repr s : from_repr (repr s) = s.
Proof. by destruct s. Qed.

Lemma from_str_display s : from_str (display s) = Ok s.
Proof. by destruct s. Qed.

Lemma stats_snapshot_roundtrip s : stats_from (snapshot_from s) = s.
Proof. by destruct s. Qed.

(** * Entries and registries *)

Section registry_lemmas.
Context {Body ParkedBody : Type} (letter : Body -> DriveLetter) (to_parked_body : Body -> ParkedBody).
Implicit Types (e : ShardEntry Body ParkedBody) (r : ShardRegistry Body ParkedBody).

(** The slots each tier fills. *)
Definition entry_ok e : Prop :=
  e.(state_repr) = repr (state e) /\
  match state e with
  | Warm | Hot => is_Some e.(body) /\ e.(parked_body) = None
  | Parked => e.(body) = None /\ is_Some e.(parked_body)
  | Cold => e.(body) = None /\ e.(parked_body) = None
  | Unknown | Evicting => False
  end.

(** Every entry is in order and the cached index is that of the entries. *)
Definition registry_ok r : Prop := Forall entry_ok r.(shards) /\ r = from_shards r.(shards).

Lemma state_new_warm d b s a : state (new_warm_with_stats d b s a : ShardEntry Body ParkedBody) = Warm.
Proof. done. Qed.
Lemma state_new_hot d b s a : state (new_hot_with_stats d b s a : ShardEntry Body ParkedBody) = Hot.
Proof. done. Qed.
Lemma state_new_parked d s p a : state (new_parked d s p a : ShardEntry Body ParkedBody) = Parked.
Proof. done. Qed.
Lemma state_new_cold d s a : state (new_cold d s a : ShardEntry Body ParkedBody) = Cold.
Proof. done. Qed.

Lemma new_warm_ok d b s a : entry_ok (new_warm_with_stats d b s a).
Proof. repeat split; eauto. Qed.
Lemma new_hot_ok d b s a : entry_ok (new_hot_with_stats d b s a).
Proof. repeat split; eauto. Qed.
Lemma new_parked_ok d s p a : entry_ok (new_parked d s p a).
Proof. repeat split; eauto. Qed.
Lemma new_cold_ok d s a : entry_ok (new_cold d s a).
Proof. repeat split; eauto. Qed.
Lemma pin_until_ok e p : entry_ok e -> entry_ok (pin_until e p).
Proof. done. Qed.

Lemma from_shards_ok (l : list (ShardEntry Body ParkedBody)) :
  Forall entry_ok l -> registry_ok (from_shards l).
Proof. by split. Qed.

Lemma swap_entry_ok r pos e : registry_ok r -> entry_ok e -> registry_ok (swap_entry r pos e).
Proof. intros [H _] He. apply from_shards_ok. by apply Forall_insert. Qed.

Lemma find_shard_Some r d pos e :
  find_shard r d = Some (pos, e) ->
  r.(shards) !! pos = Some e /\ e.(drive) = d /\
  (forall j y, r.(shards) !! j = Some y -> (j < pos)%nat -> y.(drive) <> d).
Proof. by intros H%list_find_Some. Qed.

Lemma find_shard_ok r d pos e : registry_ok r -> find_shard r d = Some (pos, e) -> entry_ok e.
Proof. intros [H _] (Hl & _)%find_shard_Some. by eapply Forall_lookup_1. Qed.

Lemma shards_swap r pos e : (swap_entry r pos e).(shards) = <[pos := e]> r.(shards).
Proof. done. Qed.

(** Exactly one cell of the registry changes. *)
Definition changes_one r r' (pos : nat) (old new : ShardEntry Body ParkedBody) : Prop :=
  r.(shards) !! pos = Some old /\ r'.(shards) = <[pos := new]> r.(shards) /\
  new.(drive) = old.(drive) /\ new.(stats) = old.(stats) /\ new.(pin_until_ms) = 0.

Lemma demote_Some r l target reason a r' :
  demote_letter_with_reason to_parked_body r l target reason a = Some r' ->
  exists pos old new, find_shard r l = Some (pos, old) /\
    is_legal_demote_target (state old) target = true /\
    r' = swap_entry r pos new /\ changes_one r r' pos old new /\
    state new = target /\ new.(body) = None /\ entry_ok new.
Proof.
  unfold demote_letter_with_reason. destruct (find_shard r l) as [[pos old] |] eqn:E; [|done].
  pose proof (find_shard_Some _ _ _ _ E) as (Hl & _).
  destruct (is_legal_demote_target (state old) target) eqn:Hleg; cbn [negb]; [|done].
  destruct target; try done.
  - intros [= <-]. exists pos, old, (new_cold (drive old) (stats old) a). split_and!; done || apply new_cold_ok.
  - destruct (body old) as [b |]; [|done]. intros [= <-].
    exists pos, old, (new_parked (drive old) (stats old) (to_parked_body b) a).
    split_and!; done || apply new_parked_ok.
Qed.

Lemma demote_Some_ok r l target reason a r' :
  registry_ok r -> demote_letter_with_reason to_parked_body r l target reason a = Some r' -> registry_ok r'.
Proof. intros Hr (pos & old & new & _ & _ & -> & _ & _ & _ & Hn)%demote_Some. by apply swap_entry_ok. Qed.

Lemma demote_legal r l target reason a pos old :
  registry_ok r -> find_shard r l = Some (pos, old) -> is_legal_demote_target (state old) target = true ->
  is_Some (demote_letter_with_reason to_parked_body r l target reason a).
Proof.
  intros Hr E Hleg. unfold demote_letter_with_reason. rewrite E, Hleg. cbn [negb].
  destruct (find_shard_ok _ _ _ _ Hr E) as [_ Hok].
  destruct (state old), target; try done; destruct Hok as [[b ->] _]; eauto.
Qed.

(** A promotion or a refresh installs one fresh active entry. *)
Lemma swap_active_ok r l pos old b a (new : ShardEntry Body ParkedBody) :
  registry_ok r -> find_shard r l = Some (pos, old) ->
  new = new_warm_with_stats old.(drive) b old.(stats) a \/ new = new_hot_with_stats old.(drive) b old.(stats) a ->
  registry_ok (swap_entry r pos new) /\ changes_one r (swap_entry r pos new) pos old new.
Proof.
  intros Hr (Hl & _)%find_shard_Some [-> | ->]; (split; [|by split_and!]); by apply swap_entry_ok.
Qed.

Lemma promote_Some r l b a r' :
  registry_ok r -> promote_letter r l b a = Some r' ->
  exists pos old, find_shard r l = Some (pos, old) /\ (state old = Parked \/ state old = Cold) /\
    registry_ok r' /\ changes_one r r' pos old (new_warm_with_stats old.(drive) b old.(stats) a).
Proof.
  intros Hr. unfold promote_letter. destruct (find_shard r l) as [[pos old] |] eqn:E; [|done].
  destruct (state old) eqn:Es; intros [= <-]; exists pos, old;
    (destruct (swap_active_ok r l pos old b a _ Hr E (or_introl eq_refl)) as [H1 H2]; split_and!; auto).
Qed.

Lemma promote_hot_Some r st l b a r' st' :
  registry_ok r -> promote_letter_to_hot r st l b a = Some (r', st') ->
  exists pos old, find_shard r l = Some (pos, old) /\
    (state old = Parked \/ state old = Cold \/ state old = Warm) /\ registry_ok r' /\
    changes_one r r' pos old (new_hot_with_stats old.(drive) b old.(stats) a) /\
    st' = (if bool_decide (state old = Cold) then alter record_cold_to_hot_promote old.(stats) st else st).
Proof.
  intros Hr. unfold promote_letter_to_hot. destruct (find_shard r l) as [[pos old] |] eqn:E; [|done].
  destruct (state old) eqn:Es; intros [= <- <-]; exists pos, old;
    (destruct (swap_active_ok r l pos old b a _ Hr E (or_intror eq_refl)) as [H1 H2]; split_and!; rewrite ?Es; auto).
Qed.

Lemma replace_body_Some r l b a r' :
  registry_ok r -> replace_warm_body r l b a = Some r' ->
  exists pos old, find_shard r l = Some (pos, old) /\ (state old = Warm \/ state old = Hot) /\
    registry_ok r' /\ changes_one r r' pos old (new_warm_with_stats old.(drive) b old.(stats) a).
Proof.
  intros Hr. unfold replace_warm_body. destruct (find_shard r l) as [[pos old] |] eqn:E; [|done].
  destruct (state old) eqn:Es; intros [= <-]; exists pos, old;
    (destruct (swap_active_ok r l pos old b a _ Hr E (or_introl eq_refl)) as [H1 H2]; split_and!; auto).
Qed.

Lemma filter_ok r f : registry_ok r -> Forall entry_ok (List.filter f r.(shards)).
Proof.
  intros [H _]. rewrite Forall_forall in H |- *. intros e [He _]%elem_of_filterb. by apply H.
Qed.

Lemma add_ok r b s a : registry_ok r -> registry_ok (add letter r b s a).
Proof.
  intros [H _]. apply from_shards_ok, Forall_app. split; [done |].
  apply Forall_singleton, new_warm_ok.
Qed.

Lemma replace_ok r l b s a : registry_ok r -> registry_ok (replace letter r l b s a).
Proof.
  intros H. apply from_shards_ok, Forall_app. split; [by apply filter_ok |].
  apply Forall_singleton, new_warm_ok.
Qed.

Lemma remove_ok r d : registry_ok r -> registry_ok (remove r d).
Proof. intros H. by apply from_shards_ok, filter_ok. Qed.

Lemma registry_new_ok : registry_ok ShardRegistry_new.
Proof. split; [constructor | done]. Qed.

(** The active index lists the bodies of the [Warm] and [Hot] shards and nothing else. *)
Lemma active_index_iff r b :
  registry_ok r ->
  b ∈ r.(active_index) <->
  exists e, e ∈ r.(shards) /\ (state e = Warm \/ state e = Hot) /\ e.(body) = Some b.
Proof.
  intros [_ ->]. cbn [from_shards active_index shards]. rewrite list_elem_of_omap.
  setoid_rewrite elem_of_filterb. split; intros (e & H1 & H2); exists e.
  - destruct H1 as [H1 H3]. split_and!; try done. by destruct (state e); auto.
  - destruct H2 as [[H2 | H2] H3]; rewrite H2; by split_and!.
Qed.

(** Changes that leave every tier and body keep the index. *)
Lemma same_shape_ok r (l : list (ShardEntry Body ParkedBody)) :
  registry_ok r ->
  Forall2 (fun e e' => e'.(state_repr) = e.(state_repr) /\ e'.(body) = e.(body) /\
                       e'.(parked_body) = e.(parked_body)) r.(shards) l ->
  registry_ok (mk_registry l r.(active_index)).
Proof.
  intros [Hok Hr] H. split; cbn [shards].
  - clear Hr. induction H as [|e e' l1 l2 (H1 & H2 & H3) _ IH]; [constructor |].
    apply Forall_cons in Hok as [He Hok]. constructor; [|by apply IH].
    unfold entry_ok, state in *. by rewrite H1, H2, H3.
  - rewrite Hr. unfold from_shards. cbn [active_index]. f_equal. clear Hok Hr.
    induction H as [|e e' l1 l2 (H1 & H2 & _) _ IH]; [done |]. cbn [List.filter].
    assert (state e' = state e) as -> by (unfold state; by rewrite H1).
    destruct (is_active (state e)); [|done]. cbn. by rewrite H2, IH.
Qed.

Lemma pinned_ok r pos e p :
  registry_ok r -> r.(shards) !! pos = Some e ->
  registry_ok (mk_registry (<[pos := pin_until e p]> r.(shards)) r.(active_index)).
Proof.
  intros Hr Hl. apply same_shape_ok; [done |]. apply Forall2_same_length_lookup. rewrite length_insert.
  split; [done |]. intros i x y Hx Hy. destruct (decide (i = pos)) as [-> | Hne].
  - rewrite list_lookup_insert_eq in Hy by by apply lookup_lt_Some in Hl. by simplify_eq.
  - rewrite list_lookup_insert_ne in Hy by done. by simplify_eq.
Qed.

(** * Unique letters *)

Definition unique r : Prop := NoDup (loaded_letters r).

Lemma loaded_letters_changes r r' pos old new :
  changes_one r r' pos old new -> loaded_letters r' = loaded_letters r.
Proof.
  intros (Hl & Hs & Hd & _). unfold loaded_letters. rewrite Hs.
  change (map ?f ?l) with (f <$> l). rewrite list_fmap_insert, Hd.
  apply list_insert_id. by rewrite list_lookup_fmap, Hl.
Qed.

Lemma find_shard_unique r e :
  unique r -> e ∈ r.(shards) -> exists pos, find_shard r e.(drive) = Some (pos, e).
Proof.
  intros Hu [pos Hl]%list_elem_of_lookup_1. exists pos. apply list_find_Some. split_and!; [done | done |].
  intros j y Hj Hlt Hd. assert (j = pos) as ->; [|lia].
  apply (NoDup_lookup (loaded_letters r) j pos e.(drive)); [done | |].
  - unfold loaded_letters. change (map ?f ?l) with (f <$> l). by rewrite list_lookup_fmap, Hj; cbn; rewrite Hd.
  - unfold loaded_letters. change (map ?f ?l) with (f <$> l). by rewrite list_lookup_fmap, Hl.
Qed.

(** The one entry of a letter. *)
Lemma find_shard_lookup r d pos e :
  unique r -> find_shard r d = Some (pos, e) ->
  forall x, x ∈ r.(shards) -> x.(drive) = d -> x = e.
Proof.
  intros Hu E x Hx <-. destruct (find_shard_unique r x Hu Hx) as [pos' E']. congruence.
Qed.

Lemma changes_one_other r r' pos old new x :
  unique r -> changes_one r r' pos old new ->
  x ∈ r.(shards) -> x.(drive) <> old.(drive) -> x ∈ r'.(shards).
Proof.
  intros Hu (Hl & -> & _) [j Hj]%list_elem_of_lookup_1 Hd.
  apply (list_elem_of_lookup_2 _ j). rewrite list_lookup_insert_ne; [done |].
  intros ->. congruence.
Qed.

Lemma changes_one_new r r' pos old new : changes_one r r' pos old new -> new ∈ r'.(shards).
Proof.
  intros (Hl & -> & _). apply (list_elem_of_lookup_2 _ pos).
  apply list_lookup_insert_eq. by apply lookup_lt_Some in Hl.
Qed.
End registry_lemmas.

(** A demotion is refused exactly when the letter is not registered or the move is not
    one of the legal demotions; otherwise exactly the first entry of the letter is replaced, by
    an unpinned entry of the target tier without body that shares the statistics, every other
    entry stays, and the registry keeps its invariant. *)
Theorem demote_letter_exact {Body ParkedBody : Type} (to_parked : Body -> ParkedBody)
    (r : ShardRegistry Body ParkedBody) (l : DriveLetter) (target : ShardState)
    (reason : DemoteReason) (a : Z) (Hr : registry_ok r) :
  match demote_letter_with_reason to_parked r l target reason a with
  | None =>
      find_shard r l = None \/
      exists pos old, find_shard r l = Some (pos, old) /\
        is_legal_demote_target (state old) target = false
  | Some r' =>
      registry_ok r' /\ loaded_letters r' = loaded_letters r /\
      exists pos old new, find_shard r l = Some (pos, old) /\ changes_one r r' pos old new /\
        is_legal_demote_target (state old) target = true /\
        state new = target /\ new.(body) = None /\ entry_ok new
  end.
Proof.
  destruct (demote_letter_with_reason to_parked r l target reason a) as [r' |] eqn:E.
  - split; [by eapply demote_Some_ok |].
    apply demote_Some in E as (pos & old & new & E & Hleg & -> & Hch & Hs & Hb & Hn).
    split; [by eapply loaded_letters_changes | eauto 10].
  - destruct (find_shard r l) as [[pos old] |] eqn:F; [right | by left].
    exists pos, old. split; [done |]. destruct (is_legal_demote_target (state old) target) eqn:Hleg; [|done].
    destruct (demote_legal to_parked r l target reason a pos old Hr F Hleg) as [r' E']. congruence.
Qed.

Definition demo_registry : ShardRegistry Z Z :=
  add (fun b => b / 100) (add (fun b => b / 100) ShardRegistry_new 6700 0 0) 6800 1 1.

Lemma demo_registry_ok : registry_ok demo_registry.
Proof. by do 2 apply add_ok; apply registry_new_ok. Qed.

Lemma demote_letter_exact_witness :
  match demote_letter_with_reason (fun b : Z => b) demo_registry 67 Parked IdleTtl 2 with
  | None => False
  | Some r' => active_index r' = [6800] /\ registry_ok r'
  end.
Proof.
  pose proof (demote_letter_exact (fun b : Z => b) demo_registry 67 Parked IdleTtl 2 demo_registry_ok) as H.
  destruct (demote_letter_with_reason (fun b : Z => b) demo_registry 67 Parked IdleTtl 2) as [r' |] eqn:E;
    [|vm_compute in E; discriminate].
  split; [| apply H]. vm_compute in E. injection E as <-. reflexivity.
Defined.

(** * [try_transition] under interleaving

    One shared state cell; any number of callers, each either about to load, or
    holding the value it loaded and about to compare and exchange. *)

Inductive caller :=
| Loading (to : ShardState)
| Exchanging (to : ShardState) (prev_repr : Z)
| Returned (to : ShardState) (res : result ShardState IllegalTransition).

Record cell := mk_cell { cell_repr : Z; callers : list caller; history : list ShardState }.

(** One atomic access of a caller: the load with the check of the graph, or the
    compare-exchange.  The history is a ghost: the states the cell went through,
    the current one first. *)
Definition caller_step (c : cell) (who : caller) : caller * cell :=
  match who with
  | Loading to =>
      let prev := from_repr c.(cell_repr) in
      if can_transition_to prev to then (Exchanging to c.(cell_repr), c)
      else (Returned to (Err (mk_illegal prev to)), c)
  | Exchanging to prev_repr =>
      if c.(cell_repr) =? prev_repr
      then (Returned to (Ok (from_repr prev_repr)),
            mk_cell (repr to) c.(callers) (to :: c.(history)))
      else (Loading to, c)
  | Returned _ _ => (who, c)
  end.

Definition run_caller (c : cell) (i : nat) : cell :=
  match c.(callers) !! i with
  | None => c
  | Some who =>
      let '(who, c) := caller_step c who in
      mk_cell c.(cell_repr) (<[i := who]> c.(callers)) c.(history)
  end.

(** A schedule: which caller goes next. *)
Definition run_schedule (c : cell) (schedule : list nat) : cell := fold_left run_caller schedule c.

Definition start_cell (s : ShardState) (tos : list ShardState) : cell :=
  mk_cell (repr s) (map Loading tos) [s].

(** Each state of the history is a legal successor of the one before. *)
Inductive legal_path : list ShardState -> Prop :=
| legal_start s : legal_path [s]
| legal_next s t l : can_transition_to s t = true -> legal_path (s :: l) -> legal_path (t :: s :: l).

(** The moves of a history, as edges. *)
Fixpoint moves (hist : list ShardState) : list (ShardState * ShardState) :=
  match hist with
  | to :: (from :: _) as rest => (from, to) :: moves rest
  | _ => []
  end.

(** The edge a caller was told it moved the shard along. *)
Definition told_moved (who : caller) : option (ShardState * ShardState) :=
  match who with Returned to (Ok prev) => Some (prev, to) | _ => None end.

(** A caller told [Err] was refused an edge outside the graph, from a state the shard
    was in. *)
Definition caller_ok (hist : list ShardState) (who : caller) : Prop :=
  match who with
  | Loading _ => True
  | Exchanging to p => exists prev, p = repr prev /\ can_transition_to prev to = true
  | Returned to (Ok prev) => can_transition_to prev to = true
  | Returned to (Err e) =>
      e.(Shards.to) = to /\ can_transition_to e.(from) to = false /\ e.(from) ∈ hist
  end.

Definition cell_ok (c : cell) : Prop :=
  (exists s l, c.(history) = s :: l /\ c.(cell_repr) = repr s) /\ legal_path c.(history) /\
  moves c.(history) ≡ₚ omap told_moved c.(callers) /\
  Forall (caller_ok c.(history)) c.(callers).

Lemma repr_inj s t : repr s = repr t -> s = t.
Proof. intros H. rewrite <- (from_repr_repr s), <- (from_repr_repr t). by rewrite H. Qed.

Lemma caller_ok_weaken h t who : caller_ok h who -> caller_ok (t :: h) who.
Proof.
  destruct who as [| | to [p | e]]; cbn; try done. intros (H1 & H2 & H3).
  split_and!; [done.. | by right].
Qed.

(** Replacing one element of a list changes its image by that element's. *)
Lemma omap_insert {A B} (f : A -> option B) (l : list A) i x y :
  l !! i = Some x -> f x = None -> omap f (<[i := y]> l) ≡ₚ option_list (f y) ++ omap f l.
Proof.
  revert i. induction l as [|z l IH]; intros [|i] Hi Hx; cbn in *; simplify_eq.
  - rewrite Hx. by destruct (f y).
  - specialize (IH i Hi Hx). destruct (f z); [|done]. rewrite IH. by destruct (f y); [apply perm_swap |].
Qed.

Lemma cell_ok_update c i who who' :
  cell_ok c -> c.(callers) !! i = Some who -> told_moved who = None -> told_moved who' = None ->
  caller_ok c.(history) who' ->
  cell_ok (mk_cell c.(cell_repr) (<[i := who']> c.(callers)) c.(history)).
Proof.
  intros (H1 & H2 & H3 & H4) Hi Hw Hw' Hok. split_and!; [done.. | | by apply Forall_insert].
  cbn. rewrite (omap_insert _ _ _ who), Hw' by done. done.
Qed.

Lemma run_caller_ok c i : cell_ok c -> cell_ok (run_caller c i).
Proof.
  intros Hok. unfold run_caller. destruct (callers c !! i) as [who |] eqn:Ei; [|done].
  pose proof Hok as ((s & l & Hh & Hc) & Hp & Hm & Hall).
  pose proof (proj1 (Forall_lookup _ _) Hall i who Ei) as Hwho.
  destruct who as [to | to p | to res]; cbn [caller_step].
  - rewrite Hc, from_repr_repr. destruct (can_transition_to s to) eqn:Et.
    + eapply cell_ok_update; try done. by exists s.
    + eapply cell_ok_update; try done. cbn. rewrite Hh. split_and!; [done.. | by left].
  - destruct Hwho as (prev & -> & Hleg). destruct (Z.eqb_spec (cell_repr c) (repr prev)) as [Eq | Ne];
      [|by eapply cell_ok_update].
    assert (prev = s) as -> by (apply repr_inj; congruence). rewrite Hh in *. split_and!.
    + by exists to, (s :: l).
    + by constructor.
    + cbn [cell_repr callers history]. rewrite from_repr_repr, (omap_insert _ _ _ (Exchanging to (repr s))) by done.
      cbn [told_moved option_list app]. by rewrite <- Hm.
    + cbn [cell_repr callers history]. rewrite from_repr_repr. apply Forall_insert; [|done].
      eapply Forall_impl; [exact Hall |]. intros who. apply caller_ok_weaken.
  - cbn. rewrite list_insert_id by done. by destruct c.
Qed.

Lemma run_caller_last c i s : last (history c) = Some s -> last (history (run_caller c i)) = Some s.
Proof.
  intros H. unfold run_caller. destruct (callers c !! i) as [[to | to p | to res] |]; cbn; [| | done..].
  - by destruct (can_transition_to _ _).
  - destruct (_ =? _); [|done]. cbn. destruct (history c); done.
Qed.

(** C35: whatever the number of callers and their interleaving, the calls linearise: the
    shard's state only follows edges of the legal graph, starting from the state it was in;
    the moves it made are exactly the edges the successful callers were told, one move per
    success and one success per move, so no update is lost and none is reported twice; and
    every refused call names an edge outside the graph, from a state the shard was in. *)
Theorem try_transition_linearises (s : ShardState) (tos : list ShardState) (schedule : list nat) :
  let c := run_schedule (start_cell s tos) schedule in
  (exists now l, c.(history) = now :: l /\ from_repr c.(cell_repr) = now) /\
  last c.(history) = Some s /\ legal_path c.(history) /\
  moves c.(history) ≡ₚ omap told_moved c.(callers) /\
  Forall (caller_ok c.(history)) c.(callers).
Proof.
  cbv zeta.
  assert (H : cell_ok (run_schedule (start_cell s tos) schedule) /\
    last (history (run_schedule (start_cell s tos) schedule)) = Some s).
  { unfold run_schedule. assert (H0 : cell_ok (start_cell s tos) /\ last (history (start_cell s tos)) = Some s).
    { split; [|done]. split_and!; [by exists s, [] | constructor | |].
      - cbn. by induction tos.
      - apply Forall_forall. intros x Hx. apply list_elem_of_fmap in Hx as (t & -> & _). done. }
    revert H0. generalize (start_cell s tos). induction schedule as [|i sch IH]; intros c [Hc Hl]; [done |].
    cbn. apply IH. split; [by apply run_caller_ok | by apply run_caller_last]. }
  destruct H as [((now & l & Hh & Hc) & Hp & Hm & Hall) Hl]. split_and!; try done.
  exists now, l. by rewrite Hc, from_repr_repr.
Qed.
