(* ===== verification/Tiering.v ===== *)
(** The daemon's tier controllers on the shard registry:
    [crates/uffs-daemon/src/cache/policy.rs] and, of [IndexManager],
    [index/transitions.rs], [index/tiering_ops.rs] and the registry writes of
    [index/dispatch.rs], [index/loading.rs], [index/journal.rs] and
    [index/forget_drive.rs].

    Each section of code under one lock is one function on the manager's state; an
    operation that reads under one lock and writes under the next is the composition
    of two, between which other operations may run.  Log events and the best-effort
    working-set trim and prefetch calls change no state of the daemon and are left
    out. *)
From stdpp Require Import strings.
From S2P Require Import Prelude Shards.
Local Open Scope Z_scope.
Local Open Scope rust_scope.

(** * Policy *)

Record TierThresholds := mk_thresholds {
  hot_to_warm_secs : Z; warm_to_parked_secs : Z; parked_to_cold_secs : Z
}.

Definition next_state_for_idle_with_thresholds (s : ShardState) (idle_secs : Z) (t : TierThresholds)
    : option ShardState :=
  match s with
  | Hot => if idle_secs >=? t.(hot_to_warm_secs) then Some Warm else None
  | Warm => if idle_secs >=? t.(warm_to_parked_secs) then Some Parked else None
  | Parked => if idle_secs >=? t.(parked_to_cold_secs) then Some Cold else None
  | Cold | Unknown | Evicting => None
  end.

Definition tier_rank (s : ShardState) : Z :=
  match s with Hot => 4 | Warm => 3 | Parked => 2 | Cold => 1 | Unknown | Evicting => 0 end.

Definition chosen_ttl_for_state (s : ShardState) (t : TierThresholds) : Z :=
  match s with
  | Hot => t.(hot_to_warm_secs) | Warm => t.(warm_to_parked_secs) | Parked => t.(parked_to_cold_secs)
  | Cold | Unknown | Evicting => 0
  end.

(** * Configuration *)

(** The settings the controllers read; the two auto-promotion settings are read by nothing. *)
Record TiersConfig := mk_tiers {
  hot_ttl_base_secs : Z; hot_ttl_cap_secs : Z; warm_ttl_base_secs : Z; warm_ttl_cap_secs : Z;
  parked_ttl_secs : Z
}.

Inductive TierLevel := LevelHot | LevelWarm | LevelParked.

Definition to_state (l : TierLevel) : ShardState :=
  match l with LevelHot => Hot | LevelWarm => Warm | LevelParked => Parked end.

Record PerDriveConfig := mk_per_drive { min_tier : option TierLevel; max_tier : option TierLevel }.

(** [per_drive] in key order; a key is its UTF-8 bytes. *)
Record Config := mk_config { tiers : TiersConfig; per_drive : list (list Z * PerDriveConfig) }.

(** [DriveLetter::eq_ignore_ascii_case]. *)
Definition eq_ignore_ascii_case (self : DriveLetter) (ch : Z) : bool :=
  if ch >=? 128 then false else
  let folded := Z.land ch (255 - 0x20) in
  (self =? folded) && (65 <=? folded) && (folded <=? 90).

Fixpoint drop_colons (rev_key : list Z) : list Z :=
  match rev_key with
  | 58 :: rest => drop_colons rest
  | _ => rev_key
  end.

(** [trim_end_matches(':')]. *)
Definition trim_colons (key : list Z) : list Z := rev (drop_colons (rev key)).

Definition key_matches (l : DriveLetter) (key : list Z) : bool :=
  let trimmed := trim_colons key in
  (zlen trimmed =? 1) && match trimmed with ch :: _ => eq_ignore_ascii_case l ch | [] => false end.

Definition min_tier_for_drive (l : DriveLetter) (c : Config) : option ShardState :=
  let? (_, pd) := List.find (fun '(key, _) => key_matches l key) c.(per_drive) in
  to_state <$> pd.(min_tier).

Example min_tier_keys :
  let c := mk_config (mk_tiers 60 3600 300 14400 86400)
    [([67; 58], mk_per_drive (Some LevelWarm) None); ([122], mk_per_drive (Some LevelParked) None)] in
  (min_tier_for_drive 67 c, min_tier_for_drive 90 c, min_tier_for_drive 68 c) = (Some Warm, Some Parked, None).
Proof. reflexivity. Qed.

Section manager.
Context {Body ParkedBody : Type} (letter : Body -> DriveLetter) (to_parked_body : Body -> ParkedBody).
(** The floating-point rate: of [DriveStats], and the two TTL formulas in whole seconds. *)
Context {F : Type} (fixed_rate : Z -> F) (blend : Z -> Z -> Z -> F) (to_fixed : F -> Z) (per_minute : F -> F)
  (hot_ttl warm_ttl : F -> Z -> Z -> Z).

Implicit Types (e : ShardEntry Body ParkedBody) (r : ShardRegistry Body ParkedBody).

(** * The manager *)

Record IndexManager := mk_manager {
  index : ShardRegistry Body ParkedBody;
  store : stats_store;
  index_version : Z;
  aggregate_version : Z;
  next_id : Z                   (* the next fresh [Arc] *)
}.

Definition new_manager : IndexManager := mk_manager ShardRegistry_new ∅ 0 0 0.

Definition with_index (m : IndexManager) r : IndexManager :=
  mk_manager r m.(store) m.(index_version) m.(aggregate_version) (m.(next_id) + 1).

Definition with_store (m : IndexManager) (st : stats_store) : IndexManager :=
  mk_manager m.(index) st m.(index_version) m.(aggregate_version) m.(next_id).

Definition bump_index_version (m : IndexManager) : IndexManager :=
  let new_version := m.(index_version) +w 1 in
  mk_manager m.(index) m.(store) new_version new_version m.(next_id).

Definition stats_of (st : stats_store) e : DriveStats := default DriveStats_new (st !! e.(stats)).

(** [if let Some(shard) = registry.iter().find(..) { shard.stats.f() }]. *)
Definition update_stats_of (r : ShardRegistry Body ParkedBody) (l : DriveLetter) (f : DriveStats -> DriveStats)
    (st : stats_store) : stats_store :=
  match find_shard r l with
  | Some (_, e) => alter f e.(stats) st
  | None => st
  end.

Definition add_drive (m : IndexManager) (b : Body) (now_ms : Z) : IndexManager :=
  let r := add letter m.(index) b m.(next_id) m.(next_id) in
  let st := <[m.(next_id) := DriveStats_new]> m.(store) in
  let st := update_stats_of r (letter b) (fun s => mark_loaded_at s now_ms) st in
  bump_index_version (with_store (with_index m r) st).

Definition replace_drive (m : IndexManager) (l : DriveLetter) (b : Body) (now_ms : Z) : IndexManager :=
  let r := replace letter m.(index) l b m.(next_id) m.(next_id) in
  let st := <[m.(next_id) := DriveStats_new]> m.(store) in
  let st := update_stats_of r (letter b) (fun s => mark_loaded_at s now_ms) st in
  bump_index_version (with_store (with_index m r) st).

(** * Idle demotion *)

Definition build_thresholds (rate_qpm : F) (t : TiersConfig) : TierThresholds :=
  mk_thresholds (hot_ttl rate_qpm t.(hot_ttl_base_secs) t.(hot_ttl_cap_secs))
    (warm_ttl rate_qpm t.(warm_ttl_base_secs) t.(warm_ttl_cap_secs)) t.(parked_ttl_secs).

(** The decision, and the statistics after the rate was sampled. *)
Definition evaluate_idle_demote e (s : DriveStats) (now_ms : Z) (c : Config)
    : option ShardState * DriveStats :=
  let idle_ms := saturating_sub now_ms s.(last_query_at_ms) in
  let idle_secs := idle_ms / 1000 in
  let '(rate, s) := decay_ema fixed_rate blend to_fixed s now_ms in
  let thresholds := build_thresholds (per_minute rate) c.(tiers) in
  let current := state e in
  let target := next_state_for_idle_with_thresholds current idle_secs thresholds in
  (match target, min_tier_for_drive e.(drive) c with
   | Some proposed, Some floor => if tier_rank proposed <? tier_rank floor then None else Some proposed
   | Some proposed, None => Some proposed
   | None, _ => None
   end, s).

(** The read-locked pass: unpinned shards in order. *)
Fixpoint detect_idle (es : list (ShardEntry Body ParkedBody)) (st : stats_store) (now_ms : Z) (c : Config)
    : list (DriveLetter * ShardState) * stats_store :=
  match es with
  | [] => ([], st)
  | e :: es =>
      if is_pinned e now_ms then detect_idle es st now_ms c else
      let '(target, s) := evaluate_idle_demote e (stats_of st e) now_ms c in
      let '(demotes, st) := detect_idle es (<[e.(stats) := s]> st) now_ms c in
      (match target with Some t => (e.(drive), t) :: demotes | None => demotes end, st)
  end.

(** The write-locked batch: how many were applied, and the manager. *)
Fixpoint apply_demotes (reason : DemoteReason) (demotes : list (DriveLetter * ShardState)) (m : IndexManager)
    : Z * IndexManager :=
  match demotes with
  | [] => (0, m)
  | (l, target) :: demotes =>
      match demote_letter_with_reason to_parked_body m.(index) l target reason m.(next_id) with
      | Some r => let '(n, m) := apply_demotes reason demotes (with_index m r) in (n + 1, m)
      | None => apply_demotes reason demotes m
      end
  end.

Definition commit_demotes (reason : DemoteReason) (demotes : list (DriveLetter * ShardState)) (m : IndexManager)
    : IndexManager :=
  let '(applied, m) := apply_demotes reason demotes m in
  if 0 <? applied then bump_index_version m else m.

Definition demote_idle_detect (m : IndexManager) (now_ms : Z) (c : Config)
    : list (DriveLetter * ShardState) * IndexManager :=
  let '(demotes, st) := detect_idle m.(index).(shards) m.(store) now_ms c in
  (demotes, with_store m st).

Definition demote_idle_shards (m : IndexManager) (now_ms : Z) (c : Config) : IndexManager :=
  let '(demotes, m) := demote_idle_detect m now_ms c in
  match demotes with [] => m | _ => commit_demotes IdleTtl demotes m end.

(** * The pressure cascade *)

(** [min_by_key]: the first of the least. *)
Fixpoint min_by_key (l : list (DriveLetter * Z)) : option (DriveLetter * Z) :=
  match l with
  | [] => None
  | x :: l =>
      match min_by_key l with
      | Some y => if snd y <? snd x then Some y else Some x
      | None => Some x
      end
  end.

Definition cascade_candidates (m : IndexManager) (now_ms : Z) : list (DriveLetter * Z) :=
  map (fun e => (e.(drive), (stats_of m.(store) e).(last_query_at_ms)))
    (List.filter (fun e => negb (is_pinned e now_ms))
       (List.filter (fun e => bool_decide (state e = Warm)) m.(index).(shards))).

Definition cascade_commit (m : IndexManager) (l : DriveLetter)
    : option (DriveLetter * ShardState) * IndexManager :=
  match demote_letter_with_reason to_parked_body m.(index) l Parked PressureCascade m.(next_id) with
  | Some r => (Some (l, Parked), bump_index_version (with_index m r))
  | None => (None, m)
  end.

Definition cascade_demote_one_step (m : IndexManager) (now_ms : Z)
    : option (DriveLetter * ShardState) * IndexManager :=
  match min_by_key (cascade_candidates m now_ms) with
  | Some (l, _) => cascade_commit m l
  | None => (None, m)
  end.

(** The subscriber's loop while the pressure lasts. *)
Fixpoint cascade_loop (steps : nat) (m : IndexManager) (now_ms : Z) : IndexManager :=
  match steps with
  | O => m
  | S n =>
      match cascade_demote_one_step m now_ms with
      | (Some _, m) => cascade_loop n m now_ms
      | (None, m) => m
      end
  end.

(** * Operator commands *)

Record HibernateOutcome := mk_hibernate {
  hot_demoted : list DriveLetter; warm_demoted : list DriveLetter; parked_demoted : list DriveLetter;
  already_cold : list DriveLetter
}.

Definition hibernate_one (out : HibernateOutcome) (demotes : list (DriveLetter * ShardState)) e
    : HibernateOutcome * list (DriveLetter * ShardState) :=
  let d := e.(drive) in
  match state e with
  | Hot => (mk_hibernate (out.(hot_demoted) ++ [d]) out.(warm_demoted) out.(parked_demoted) out.(already_cold),
            demotes ++ [(d, Hot)])
  | Warm => (mk_hibernate out.(hot_demoted) (out.(warm_demoted) ++ [d]) out.(parked_demoted) out.(already_cold),
             demotes ++ [(d, Warm)])
  | Parked => (mk_hibernate out.(hot_demoted) out.(warm_demoted) (out.(parked_demoted) ++ [d]) out.(already_cold),
               demotes ++ [(d, Parked)])
  | Cold | Unknown | Evicting =>
      (mk_hibernate out.(hot_demoted) out.(warm_demoted) out.(parked_demoted) (out.(already_cold) ++ [d]), demotes)
  end.

(** An empty list of drives selects all. *)
Definition selected (drives : list DriveLetter) e : bool :=
  (zlen drives =? 0) || existsb (Z.eqb e.(drive)) drives.

Definition hibernate_detect (m : IndexManager) (drives : list DriveLetter)
    : HibernateOutcome * list (DriveLetter * ShardState) :=
  fold_left (fun '(out, demotes) e => if selected drives e then hibernate_one out demotes e else (out, demotes))
    m.(index).(shards) (mk_hibernate [] [] [] [], []).

Definition hibernate_shards (m : IndexManager) (drives : list DriveLetter) : HibernateOutcome * IndexManager :=
  let '(out, demotes) := hibernate_detect m drives in
  match demotes with
  | [] => (out, m)
  | _ => (out, commit_demotes OperatorHibernate (map (fun '(l, _) => (l, Cold)) demotes) m)
  end.

Inductive PreloadOutcome :=
| Promoted (from_state : ShardState) (pin : Z)
| AlreadyHot (pin : Z)
| UnknownDrive
| LoadFailed
| Busy (from_state : ShardState).

Definition compute_pin_until (now_ms pin_minutes : Z) : Z :=
  saturating_add_u64 now_ms (saturating_mul_u64 pin_minutes 60000).

(** [pin_until] through a handle: the entry with that identity, if the registry
    still holds it. *)
Definition pin_arc (m : IndexManager) (a pin : Z) : IndexManager :=
  let r := m.(index) in
  mk_manager
    (mk_registry (map (fun e => if e.(arc) =? a then pin_until e pin else e) r.(shards)) r.(active_index))
    m.(store) m.(index_version) m.(aggregate_version) m.(next_id).

(** The two times are the clock readings for the pin and for the idle clock. *)
Definition swap_in_hot_with_pin (m : IndexManager) (l : DriveLetter) (b : Body) (pin now_ms : Z)
    : PreloadOutcome * IndexManager :=
  let prev_state := match find_shard m.(index) l with Some (_, e) => state e | None => Unknown end in
  match promote_letter_to_hot m.(index) m.(store) l b m.(next_id) with
  | None => (Busy prev_state, m)
  | Some (r, st) =>
      let st := update_stats_of r l (fun s => mark_loaded_at s now_ms) st in
      let r := match find_shard r l with
               | Some (pos, e) => mk_registry (<[pos := pin_until e pin]> r.(shards)) r.(active_index)
               | None => r
               end in
      (Promoted prev_state pin, bump_index_version (with_store (with_index m r) st))
  end.

(** [loaded]: what the single-flight body load gave.  The state is read under one
    lock and the swap done under the next; this is the run with nothing between. *)
Definition preload_drive (m : IndexManager) (l : DriveLetter) (pin_minutes : Z) (loaded : option Body)
    (now_ms : Z) : PreloadOutcome * IndexManager :=
  match find_shard m.(index) l with
  | None => (UnknownDrive, m)
  | Some (_, e) =>
      let pin := compute_pin_until now_ms pin_minutes in
      match state e with
      | Hot => (AlreadyHot pin, pin_arc m e.(arc) pin)
      | Unknown | Evicting => (Busy (state e), m)
      | Warm =>
          match e.(body) with
          | Some b => swap_in_hot_with_pin m e.(drive) b pin now_ms
          | None => (LoadFailed, m)
          end
      | Cold | Parked =>
          match loaded with
          | Some b => swap_in_hot_with_pin m e.(drive) b pin now_ms
          | None => (LoadFailed, m)
          end
      end
  end.

(** * Search dispatch *)

(** The commit of one loaded body in [ensure_warm_for_dispatch]. *)
Definition promote_commit (m : IndexManager) (l : DriveLetter) (loaded : option Body) (now_ms : Z)
    : IndexManager :=
  match loaded with
  | None => m
  | Some b =>
      match promote_letter m.(index) l b m.(next_id) with
      | None => m
      | Some r =>
          let st := update_stats_of r l (fun s => mark_loaded_at s now_ms) m.(store) in
          bump_index_version (with_store (with_index m r) st)
      end
  end.

Definition record_search_dispatch (m : IndexManager) (now_ms : Z) : IndexManager :=
  with_store m
    (fold_left (fun st e => if is_active (state e)
                            then alter (fun s => mark_query_at s now_ms) e.(stats) st else st)
       m.(index).(shards) m.(store)).

(** * Journal refresh *)

Definition apply_journal_body (m : IndexManager) (l : DriveLetter) (b : Body) : bool * IndexManager :=
  match replace_warm_body m.(index) l b m.(next_id) with
  | None => (false, m)
  | Some r => (true, bump_index_version (with_index m r))
  end.

(** * Forget *)

Record ForgetOutcome := mk_forget {
  forgotten : list DriveLetter; already_absent : list DriveLetter; freed_bytes : Z;
  errors : list (DriveLetter * string)
}.

(** The guard: the requested drives with their tiers, and those that are busy. *)
Definition forget_detect (m : IndexManager) (drives : list DriveLetter) (force : bool)
    : list (DriveLetter * option ShardState) * list (DriveLetter * ShardState) :=
  fold_left (fun '(snapshots, busy) d =>
    match find_shard m.(index) d with
    | Some (_, e) =>
        (snapshots ++ [(e.(drive), Some (state e))],
         if negb force && negb (bool_decide (state e = Cold)) then busy ++ [(e.(drive), state e)] else busy)
    | None => (snapshots ++ [(d, None)], busy)
    end) drives ([], []).

Definition auto_hibernate_one (m : IndexManager) (snapshot : DriveLetter * option ShardState) : IndexManager :=
  match snapshot with
  | (_, None) | (_, Some Cold) => m
  | (d, Some _) =>
      match demote_letter_with_reason to_parked_body m.(index) d Cold OperatorHibernate m.(next_id) with
      | Some r => bump_index_version (with_index m r)
      | None => m
      end
  end.

Section state_machine.
(** The platform's cache cleaner: the bytes freed and the errors. *)
Context (cleaner_forget : DriveLetter -> Z * list string).

Definition forget_one (acc : ForgetOutcome * IndexManager) (l : DriveLetter) : ForgetOutcome * IndexManager :=
  let '(out, m) := acc in
  let m := bump_index_version (with_index m (remove m.(index) l)) in
  let '(freed, errs) := cleaner_forget l in
  let freed_bytes := saturating_add_u64 out.(freed_bytes) freed in
  let errors := out.(errors) ++ map (pair l) errs in
  let had_errors := match last errors with Some (d, _) => d =? l | None => false end in
  if 0 <? freed then (mk_forget (out.(forgotten) ++ [l]) out.(already_absent) freed_bytes errors, m)
  else if had_errors then (mk_forget out.(forgotten) out.(already_absent) freed_bytes errors, m)
  else (mk_forget out.(forgotten) (out.(already_absent) ++ [l]) freed_bytes errors, m).

(** [Err]: busy. *)
Definition forget_drives (m : IndexManager) (drives : list DriveLetter) (force : bool)
    : result ForgetOutcome (list (DriveLetter * ShardState)) * IndexManager :=
  let '(snapshots, busy) := forget_detect m drives force in
  match busy with
  | _ :: _ => (Err busy, m)
  | [] =>
      let m := if force then fold_left auto_hibernate_one snapshots m else m in
      let '(out, m) := fold_left forget_one (map fst snapshots) (mk_forget [] [] 0 [], m) in
      (Ok out, m)
  end.

(** * The manager as a state machine

    Any operation may run between any two locked sections of another. *)

Inductive step : IndexManager -> IndexManager -> Prop :=
| step_add m b now : step m (add_drive m b now)
| step_replace m l b now : step m (replace_drive m l b now)
| step_idle_detect m now c : step m (snd (demote_idle_detect m now c))
| step_demotes m reason demotes : step m (commit_demotes reason demotes m)
| step_cascade m l : step m (snd (cascade_commit m l))
| step_swap_hot m l b pin now : step m (snd (swap_in_hot_with_pin m l b pin now))
| step_pin m a pin : step m (pin_arc m a pin)
| step_promote m l b now : step m (promote_commit m l b now)
| step_dispatch m now : step m (record_search_dispatch m now)
| step_journal m l b : step m (snd (apply_journal_body m l b))
| step_forget_hibernate m s : step m (auto_hibernate_one m s)
| step_forget m out l : step m (snd (forget_one (out, m) l)).

Inductive reachable : IndexManager -> Prop :=
| reach_new : reachable new_manager
| reach_step m m' : reachable m -> step m m' -> reachable m'.

(** Every entry's statistics are in the store. *)
Definition stats_live (m : IndexManager) : Prop :=
  Forall (fun e => is_Some (m.(store) !! e.(stats))) m.(index).(shards).

Definition manager_ok (m : IndexManager) : Prop := registry_ok m.(index) /\ stats_live m.

Lemma update_stats_dom r l f st i : is_Some (update_stats_of r l f st !! i) <-> is_Some (st !! i).
Proof.
  unfold update_stats_of. destruct (find_shard r l) as [[_ e] |]; [|done]. apply lookup_alter_is_Some.
Qed.

Lemma bump_ok m : manager_ok m -> manager_ok (bump_index_version m).
Proof. done. Qed.

(** A change of the store that keeps its keys. *)
Lemma with_store_ok m st :
  manager_ok m -> (forall i, is_Some (m.(store) !! i) -> is_Some (st !! i)) -> manager_ok (with_store m st).
Proof.
  intros [H1 H2] H. split; [done |]. eapply Forall_impl; [exact H2 |]. cbn. intros e. apply H.
Qed.

(** The replacement of one entry. *)
Lemma changes_one_stats m r pos old new :
  stats_live m -> changes_one m.(index) r pos old new ->
  Forall (fun e => is_Some (m.(store) !! e.(stats))) r.(shards).
Proof.
  intros H (Hl & -> & _ & Hs & _). apply Forall_insert; [done |]. rewrite Hs.
  by eapply (Forall_lookup_1 _ _ _ _ H).
Qed.

Lemma with_index_ok m r pos old new :
  manager_ok m -> registry_ok r -> changes_one m.(index) r pos old new -> manager_ok (with_index m r).
Proof. intros [_ H2] Hr Hc. split; [done |]. by apply (changes_one_stats m r pos old new). Qed.

Lemma demote_ok m l target reason r :
  manager_ok m ->
  demote_letter_with_reason to_parked_body m.(index) l target reason m.(next_id) = Some r ->
  manager_ok (with_index m r).
Proof.
  intros Hm E. pose proof (demote_Some_ok _ _ _ _ _ _ _ (proj1 Hm) E) as Hr.
  apply demote_Some in E as (pos & old & new & _ & _ & _ & Hc & _). by eapply with_index_ok.
Qed.

Lemma apply_demotes_ok reason demotes m : manager_ok m -> manager_ok (snd (apply_demotes reason demotes m)).
Proof.
  revert m. induction demotes as [|[l target] demotes IH]; intros m Hm; cbn [apply_demotes]; [done |].
  destruct (demote_letter_with_reason _ _ _ _ _ _) as [r |] eqn:E; [|by apply IH].
  specialize (IH (with_index m r) (demote_ok _ _ _ _ _ Hm E)).
  destruct (apply_demotes _ _ _) as [n m']. done.
Qed.

Lemma commit_demotes_ok reason demotes m : manager_ok m -> manager_ok (commit_demotes reason demotes m).
Proof.
  intros Hm. unfold commit_demotes. pose proof (apply_demotes_ok reason demotes m Hm) as H.
  destruct (apply_demotes _ _ _) as [n m']. by destruct (0 <? n).
Qed.

Lemma detect_idle_dom es st now c i :
  is_Some (st !! i) -> is_Some (snd (detect_idle es st now c) !! i).
Proof.
  revert st. induction es as [|e es IH]; intros st Hi; cbn [detect_idle]; [done |].
  destruct (is_pinned e now); [by apply IH |].
  destruct (evaluate_idle_demote e (stats_of st e) now c) as [target s].
  assert (Hi' : is_Some (<[stats e := s]> st !! i)).
  { destruct (decide (stats e = i)) as [<- |]; [rewrite lookup_insert_eq; eauto | by rewrite lookup_insert_ne]. }
  specialize (IH _ Hi'). by destruct (detect_idle es _ now c) as [ds st'], target.
Qed.

Lemma fresh_entry_ok m r st now l :
  manager_ok m -> registry_ok r ->
  (forall e, e ∈ r.(shards) -> e ∈ m.(index).(shards) \/ e.(stats) = m.(next_id)) ->
  st = update_stats_of r l (fun s => mark_loaded_at s now) (<[m.(next_id) := DriveStats_new]> m.(store)) ->
  manager_ok (bump_index_version (with_store (with_index m r) st)).
Proof.
  intros [_ Hs] Hr He ->. split; [done |]. apply Forall_forall. intros e Hin. cbn in *.
  apply update_stats_dom. destruct (He e Hin) as [Hold | ->]; [|rewrite lookup_insert_eq; eauto].
  destruct (decide (m.(next_id) = e.(stats))) as [-> |]; [rewrite lookup_insert_eq; eauto |].
  rewrite lookup_insert_ne by done. unfold stats_live in Hs. rewrite Forall_forall in Hs. by apply Hs.
Qed.

Lemma swap_hot_ok m l b pin now : manager_ok m -> manager_ok (snd (swap_in_hot_with_pin m l b pin now)).
Proof.
  intros Hm. unfold swap_in_hot_with_pin.
  destruct (promote_letter_to_hot _ _ _ _ _) as [[r st] |] eqn:E; [|done].
  apply promote_hot_Some in E as (pos & old & _ & _ & Hr & Hc & ->); [|apply Hm].
  pose proof (changes_one_stats _ _ _ _ _ (proj2 Hm) Hc) as Hlive. cbn [snd].
  set (st' := if bool_decide _ then _ else _).
  assert (Hst : forall i, is_Some (store m !! i) -> is_Some (st' !! i)).
  { intros i Hi. unfold st'. destruct (bool_decide _); [by apply lookup_alter_is_Some | done]. }
  set (P := fun e => is_Some (update_stats_of r l (fun s => mark_loaded_at s now) st' !! stats e)).
  assert (HP : Forall P (shards r)).
  { eapply Forall_impl; [exact Hlive |]. intros e He. apply update_stats_dom, Hst, He. }
  destruct (find_shard r l) as [[pos' e] |] eqn:Ef; [|by split].
  pose proof (find_shard_Some _ _ _ _ Ef) as (Hl & _). split.
  - by apply (pinned_ok r pos' e pin).
  - unfold stats_live. cbn. apply Forall_insert; [done |]. by apply (Forall_lookup_1 _ _ _ _ HP Hl).
Qed.

Lemma pin_arc_ok m a pin : manager_ok m -> manager_ok (pin_arc m a pin).
Proof.
  intros [Hr Hs]. split.
  - apply (same_shape_ok m.(index)); [done |]. cbn. apply Forall2_fmap_r, Forall_Forall2_diag, Forall_forall.
    intros e _. cbn. by destruct (arc e =? a).
  - unfold stats_live in *. cbn. apply Forall_map. eapply Forall_impl; [exact Hs |]. cbn.
    intros e He. by destruct (arc e =? a).
Qed.

Lemma promote_commit_ok m l b now : manager_ok m -> manager_ok (promote_commit m l b now).
Proof.
  intros Hm. unfold promote_commit. destruct b as [b |]; [|done].
  destruct (promote_letter _ _ _ _) as [r |] eqn:E; [|done].
  apply promote_Some in E as (pos & old & _ & _ & Hr & Hc); [|apply Hm].
  apply bump_ok, with_store_ok; [by eapply with_index_ok |]. intros i Hi. by apply update_stats_dom.
Qed.

Lemma dispatch_ok m now : manager_ok m -> manager_ok (record_search_dispatch m now).
Proof.
  intros Hm. apply with_store_ok; [done |]. intros i. generalize (store m). clear Hm.
  induction (shards (index m)) as [|e es IH]; intros st Hi; cbn [fold_left]; [done |].
  apply IH. destruct (is_active (state e)); [by apply lookup_alter_is_Some | done].
Qed.

Lemma remove_live m d : manager_ok m -> manager_ok (with_index m (remove m.(index) d)).
Proof.
  intros [Hr Hs]. split; [by apply remove_ok |]. unfold stats_live in *. cbn.
  rewrite Forall_forall in Hs |- *. intros e [He _]%elem_of_filterb. by apply Hs.
Qed.

Lemma step_ok m m' : manager_ok m -> step m m' -> manager_ok m'.
Proof.
  intros Hm Hs. destruct Hs.
  - eapply fresh_entry_ok; [done | by apply add_ok, Hm | | done].
    intros e. cbn. rewrite elem_of_app, list_elem_of_singleton. intros [? | ->]; auto.
  - eapply fresh_entry_ok; [done | by apply replace_ok, Hm | | done].
    intros e. cbn. rewrite elem_of_app, list_elem_of_singleton. intros [[? _]%elem_of_filterb | ->]; auto.
  - unfold demote_idle_detect. destruct (detect_idle _ _ _ _) as [ds st] eqn:E. apply with_store_ok; [done |].
    intros i Hi. apply (detect_idle_dom (shards (index m)) (store m) now c) in Hi. by rewrite E in Hi.
  - by apply commit_demotes_ok.
  - unfold cascade_commit. destruct (demote_letter_with_reason _ _ _ _ _ _) eqn:E; [|done].
    by eapply bump_ok, demote_ok.
  - by apply swap_hot_ok.
  - by apply pin_arc_ok.
  - by apply promote_commit_ok.
  - by apply dispatch_ok.
  - unfold apply_journal_body. destruct (replace_warm_body _ _ _ _) as [r |] eqn:E; [|done].
    apply replace_body_Some in E as (pos & old & _ & _ & Hr & Hc); [|apply Hm]. by eapply bump_ok, with_index_ok.
  - destruct s as [d [t |]]; [|done]. cbn. destruct t; try done;
      (destruct (demote_letter_with_reason _ _ _ _ _ _) eqn:E; [|done]; by eapply bump_ok, demote_ok).
  - cbn. destruct (cleaner_forget l) as [freed errs].
    repeat case_match; by apply bump_ok, remove_live.
Qed.

Lemma reachable_ok m : reachable m -> manager_ok m.
Proof.
  induction 1 as [|m m' _ IH Hs]; [|by eapply step_ok].
  split; [apply registry_new_ok | constructor].
Qed.

(** C25: in every state the daemon can reach, under any interleaving of its locked
    sections, [Warm] and [Hot] shards have a body, [Parked] shards have only a parked body,
    [Cold] shards nothing, no shard is in a transient tier, the cached index lists exactly the
    bodies of the [Warm] and [Hot] shards, and every shard's statistics are alive. *)
Theorem reachable_registry_ok (m : IndexManager) (H : reachable m) :
  Forall entry_ok m.(index).(shards) /\
  (forall b, b ∈ m.(index).(active_index) <->
     exists e, e ∈ m.(index).(shards) /\ (state e = Warm \/ state e = Hot) /\ e.(body) = Some b) /\
  Forall (fun e => is_Some (m.(store) !! e.(stats))) m.(index).(shards).
Proof.
  apply reachable_ok in H as [Hr Hs]. split_and!; [apply Hr | | done].
  intros b. by apply active_index_iff.
Qed.

End state_machine.

(** * Batches of demotions *)

Lemma apply_demotes_cons reason l target ds m :
  snd (apply_demotes reason ((l, target) :: ds) m) =
  match demote_letter_with_reason to_parked_body m.(index) l target reason m.(next_id) with
  | Some r => snd (apply_demotes reason ds (with_index m r))
  | None => snd (apply_demotes reason ds m)
  end.
Proof.
  cbn [apply_demotes]. destruct (demote_letter_with_reason _ _ _ _ _ _) as [r |]; [|done].
  by destruct (apply_demotes _ _ _).
Qed.

(** What a batch does to one shard. *)
Definition batch_effect (ds : list (DriveLetter * ShardState)) e (after : list (ShardEntry Body ParkedBody)) : Prop :=
  ((forall t, (e.(drive), t) ∈ ds -> is_legal_demote_target (state e) t = false) -> e ∈ after) /\
  (forall t, (e.(drive), t) ∈ ds -> is_legal_demote_target (state e) t = true ->
     exists e', e' ∈ after /\ e'.(drive) = e.(drive) /\ e'.(stats) = e.(stats) /\ state e' = t /\
       e'.(body) = None /\ e'.(pin_until_ms) = 0).

Lemma batch_effect_skip l t ds e after :
  e.(drive) <> l -> batch_effect ds e after -> batch_effect ((l, t) :: ds) e after.
Proof.
  intros Hne [B1 B2]. split.
  - intros Hno. apply B1. intros u Hu. apply Hno. by right.
  - intros u [[= ? _] | Hu]%elem_of_cons; [done |]. by apply B2.
Qed.

Lemma apply_demotes_spec reason ds m :
  manager_ok m -> unique m.(index) -> NoDup (map fst ds) ->
  let m' := snd (apply_demotes reason ds m) in
  unique m'.(index) /\ m'.(store) = m.(store) /\
  forall e, e ∈ m.(index).(shards) -> batch_effect ds e m'.(index).(shards).
Proof.
  cbv zeta. revert m. induction ds as [|[l target] ds IH]; intros m Hm Hu Hnd.
  { split_and!; try done. intros e He. split; [done |]. intros t Ht. by apply elem_of_nil in Ht. }
  rewrite apply_demotes_cons. cbn in Hnd. apply NoDup_cons in Hnd as [Hl Hnd].
  destruct (demote_letter_with_reason to_parked_body (index m) l target reason (next_id m)) as [r |] eqn:E.
  - pose proof (demote_ok _ _ _ _ _ Hm E) as Hm'.
    apply demote_Some in E as (pos & old & new & Hf & Hleg & Er & Hc & Hst & Hb & Hn).
    destruct (IH (with_index m r) Hm') as (U & S & Heff); [| done |].
    { unfold unique. cbn. by rewrite (loaded_letters_changes _ _ _ _ _ Hc). }
    split_and!; try done. intros e He.
    pose proof (find_shard_Some _ _ _ _ Hf) as (Hpos & Hold & _).
    destruct (decide (drive e = l)) as [Hd | Hd].
    + assert (e = old) as -> by exact (find_shard_lookup _ _ _ _ Hu Hf e He Hd).
      destruct (Heff new (changes_one_new _ _ _ _ _ Hc)) as [Hstay _].
      destruct Hc as (_ & _ & Hdr & Hss & Hpin).
      assert (Hin : new ∈ shards (index (snd (apply_demotes reason ds (with_index m r))))).
      { apply Hstay. intros t Ht. destruct Hl. rewrite Hdr, Hd in Ht. apply list_elem_of_fmap. by exists (l, t). }
      split.
      * intros Hno. rewrite (Hno target) in Hleg; [done |]. rewrite Hd. left.
      * intros t [[= _ ->] | Ht]%elem_of_cons _; [by exists new |].
        destruct Hl. rewrite Hd in Ht. apply list_elem_of_fmap. by exists (l, t).
    + apply batch_effect_skip; [done |]. apply Heff.
      eapply changes_one_other; [exact Hu | exact Hc | done | congruence].
  - destruct (IH m Hm Hu Hnd) as (U & S & Heff). split_and!; try done. intros e He.
    destruct (decide (drive e = l)) as [Hd | Hd]; [| apply batch_effect_skip; [done | by apply Heff]].
    destruct (find_shard_unique _ _ Hu He) as [pos Hf].
    assert (Hleg : is_legal_demote_target (state e) target = false).
    { destruct (is_legal_demote_target _ _) eqn:Hleg; [|done]. rewrite Hd in Hf.
      destruct (demote_legal to_parked_body _ _ target reason (next_id m) _ _ (proj1 Hm) Hf Hleg) as [r E']. congruence. }
    destruct (Heff e He) as [B1 B2]. split.
    + intros Hno. apply B1. intros u Hu'. apply Hno. by right.
    + intros u [[= _ ->] | Hu']%elem_of_cons; [congruence | by apply B2].
Qed.

Lemma commit_demotes_shards reason ds m :
  (commit_demotes reason ds m).(index) = (snd (apply_demotes reason ds m)).(index).
Proof. unfold commit_demotes. destruct (apply_demotes _ _ _) as [n m']. by destruct (0 <? n). Qed.

(** * Idle demotion *)

Definition idle_decision e (s : DriveStats) (now_ms : Z) (c : Config) : option ShardState :=
  if is_pinned e now_ms then None else fst (evaluate_idle_demote e s now_ms c).

Lemma detect_idle_iff es st now c l t :
  NoDup (map stats es) ->
  (l, t) ∈ fst (detect_idle es st now c) <->
  exists e, e ∈ es /\ e.(drive) = l /\ idle_decision e (stats_of st e) now c = Some t.
Proof.
  revert st. induction es as [|e es IH]; intros st Hnd; cbn [detect_idle].
  { setoid_rewrite elem_of_nil. naive_solver. }
  cbn in Hnd. apply NoDup_cons in Hnd as [Hni Hnd]. setoid_rewrite elem_of_cons.
  destruct (is_pinned e now) eqn:Ep.
  { rewrite IH by done. split; intros (x & Hx & Hd & Ht); exists x; split_and!; auto.
    destruct Hx as [-> | Hx]; [|done]. unfold idle_decision in Ht. by rewrite Ep in Ht. }
  destruct (evaluate_idle_demote e (stats_of st e) now c) as [target s] eqn:Ev.
  specialize (IH (<[stats e := s]> st) Hnd).
  assert (Hsame : forall x, x ∈ es -> stats_of (<[stats e := s]> st) x = stats_of st x).
  { intros x Hx. unfold stats_of. rewrite lookup_insert_ne; [done |]. intros E. apply Hni.
    rewrite E. apply list_elem_of_fmap. by exists x. }
  assert (He : idle_decision e (stats_of st e) now c = target) by (unfold idle_decision; by rewrite Ep, Ev).
  destruct (detect_idle es _ now c) as [ds st']. cbn [fst] in *.
  assert (Hrest : (l, t) ∈ ds <-> exists x, x ∈ es /\ drive x = l /\ idle_decision x (stats_of st x) now c = Some t).
  { rewrite IH. split; intros (x & Hx & Hd & Ht); exists x; split_and!; try done; by rewrite Hsame in * by done. }
  destruct target as [u |]; cbn [fst]; rewrite ?elem_of_cons, Hrest.
  - split.
    + intros [[= -> ->] | (x & Hx & ?)]; [exists e | exists x]; auto.
    + intros (x & [-> | Hx] & Hd & Ht); [left; congruence | right; eauto].
  - split.
    + intros (x & Hx & ?). exists x. auto.
    + intros (x & [-> | Hx] & Hd & Ht); [congruence | eauto].
Qed.

Lemma detect_idle_NoDup es st now c :
  NoDup (map drive es) -> NoDup (map fst (fst (detect_idle es st now c))) /\
  (forall l t, (l, t) ∈ fst (detect_idle es st now c) -> l ∈ map drive es).
Proof.
  revert st. induction es as [|e es IH]; intros st Hnd; cbn [detect_idle].
  { split; [constructor |]. intros l t H. by apply elem_of_nil in H. }
  cbn in Hnd. apply NoDup_cons in Hnd as [Hni Hnd]. destruct (is_pinned e now).
  { destruct (IH st Hnd) as [H1 H2]. split; [done |]. intros l t H. right. by eapply H2. }
  destruct (evaluate_idle_demote e (stats_of st e) now c) as [target s].
  destruct (IH (<[stats e := s]> st) Hnd) as [H1 H2].
  destruct (detect_idle es _ now c) as [ds st']. cbn [fst] in *.
  destruct target as [u |]; cbn [fst map].
  - split.
    + constructor; [|done]. intros Hin. apply list_elem_of_fmap in Hin as ([l t] & Hl & Hin).
      cbn in Hl. subst l. apply Hni. by eapply H2.
    + intros l t [[= -> _] | H]%elem_of_cons; [left | right; by eapply H2].
  - split; [done |]. intros l t H. right. by eapply H2.
Qed.

(** Letters and statistics are not shared between shards. *)
Definition separate (m : IndexManager) : Prop :=
  manager_ok m /\ unique m.(index) /\ NoDup (map stats m.(index).(shards)).

Lemma demote_idle_effect m now c e :
  separate m -> e ∈ m.(index).(shards) ->
  let after := (demote_idle_shards m now c).(index).(shards) in
  match idle_decision e (stats_of m.(store) e) now c with
  | Some t =>
      if is_legal_demote_target (state e) t
      then exists e', e' ∈ after /\ e'.(drive) = e.(drive) /\ e'.(stats) = e.(stats) /\ state e' = t /\
             e'.(body) = None /\ e'.(pin_until_ms) = 0
      else e ∈ after
  | None => e ∈ after
  end.
Proof.
  intros (Hm & Hu & Hs) He. cbv zeta. unfold demote_idle_shards, demote_idle_detect.
  pose proof (detect_idle_iff (shards (index m)) (store m) now c (drive e)) as Hiff.
  destruct (detect_idle_NoDup (shards (index m)) (store m) now c Hu) as [Hnd _].
  pose proof (fun i => detect_idle_dom (shards (index m)) (store m) now c i) as Hdom.
  destruct (detect_idle (shards (index m)) (store m) now c) as [ds st]. cbn [fst snd] in *.
  assert (Hm' : manager_ok (with_store m st)) by by apply with_store_ok.
  destruct (apply_demotes_spec IdleTtl ds (with_store m st) Hm' Hu Hnd) as (_ & _ & Heff).
  specialize (Heff e He). rewrite <- commit_demotes_shards in Heff.
  assert (Heff' : batch_effect ds e
    (index match ds with [] => with_store m st | _ :: _ => commit_demotes IdleTtl ds (with_store m st) end).(shards))
    by (by destruct ds).
  clear Heff. revert Heff'. set (after := shards _). intros [B1 B2].
  assert (Honly : forall t, (drive e, t) ∈ ds <-> idle_decision e (stats_of (store m) e) now c = Some t).
  { intros t. rewrite Hiff by done. split; [|eauto]. intros (x & Hx & Hd & Ht).
    destruct (find_shard_unique _ _ Hu He) as [pos Hf].
    by rewrite (find_shard_lookup _ _ _ _ Hu Hf x Hx Hd) in Ht. }
  destruct (idle_decision e (stats_of (store m) e) now c) as [t |].
  - destruct (is_legal_demote_target (state e) t) eqn:Hleg.
    + apply B2; [by apply Honly | done].
    + apply B1. intros u Hu'. apply Honly in Hu'. congruence.
  - apply B1. intros u Hu'. apply Honly in Hu'. done.
Qed.

Definition idle_secs_of (s : DriveStats) (now_ms : Z) : Z := saturating_sub now_ms s.(last_query_at_ms) / 1000.

(** The TTL of the current tier at the sampled rate. *)
Definition ttl_of e (s : DriveStats) (now_ms : Z) (c : Config) : Z :=
  chosen_ttl_for_state (state e)
    (build_thresholds (per_minute (fst (decay_ema fixed_rate blend to_fixed s now_ms))) c.(tiers)).

Definition one_tier_down (s t : ShardState) : Prop :=
  s = Hot /\ t = Warm \/ s = Warm /\ t = Parked \/ s = Parked /\ t = Cold.

Lemma idle_decision_Some e s now c t :
  idle_decision e s now c = Some t <->
  is_pinned e now = false /\ one_tier_down (state e) t /\ ttl_of e s now c <= idle_secs_of s now /\
  (forall floor, min_tier_for_drive e.(drive) c = Some floor -> tier_rank floor <= tier_rank t).
Proof.
  unfold idle_decision, evaluate_idle_demote, ttl_of, idle_secs_of, one_tier_down.
  destruct (is_pinned e now); [split; [done | by intros [? _]] |].
  destruct (decay_ema _ _ _ s now) as [rate s']. cbn [fst].
  set (th := build_thresholds _ _). set (idle := saturating_sub _ _ / 1000).
  assert (Htarget : forall u, next_state_for_idle_with_thresholds (state e) idle th = Some u <->
    one_tier_down (state e) u /\ chosen_ttl_for_state (state e) th <= idle).
  { intros u. unfold one_tier_down.
    unfold next_state_for_idle_with_thresholds, chosen_ttl_for_state.
    destruct (state e); repeat case_match;
      (split; [intros Hq; first [discriminate Hq | injection Hq as <-; split; [tauto | lia]]
              | intros [[[? ->] | [[? ->] | [? ->]]] ?]; done || lia]). }
  unfold one_tier_down in Htarget.
  destruct (next_state_for_idle_with_thresholds (state e) idle th) as [u |].
  - assert (Heq : forall t, Some u = Some t <-> _ ) by exact Htarget.
    destruct (min_tier_for_drive (drive e) c) as [floor |].
    + destruct (Z.ltb_spec (tier_rank u) (tier_rank floor)).
      * split; [done |]. intros (_ & Hd & Ht & Hf). specialize (Hf floor eq_refl).
        pose proof (proj2 (Heq t) (conj Hd Ht)) as [= ->]. lia.
      * rewrite Heq. split; [|tauto]. intros [Hd Ht]. split_and!; try done.
        pose proof (proj2 (Heq t) (conj Hd Ht)) as [= ->]. by intros f [= <-].
    + rewrite Heq. split; [|tauto]. intros [Hd Ht]. by split_and!.
  - assert (Heq : forall t, None = Some t <-> _ ) by exact Htarget.
    rewrite Heq. split; [|tauto]. intros [Hd Ht]. discriminate (proj2 (Heq t) (conj Hd Ht)).
Qed.

(** One run of the idle controller demotes a [Warm] or [Parked] shard exactly when it is
    not pinned, has been idle for at least the TTL of its tier at its query rate, and the tier
    below is not under the drive's configured floor; it moves it one tier down, keeping its
    statistics.  Every other shard is left as it was. *)
Theorem demote_idle_shards_exact (m : IndexManager) (now : Z) (c : Config) (e : ShardEntry Body ParkedBody)
    (Hm : separate m) (He : e ∈ m.(index).(shards)) :
  let after := (demote_idle_shards m now c).(index).(shards) in
  let s := stats_of m.(store) e in
  (forall t,
     is_pinned e now = false -> state e = Warm /\ t = Parked \/ state e = Parked /\ t = Cold ->
     ttl_of e s now c <= idle_secs_of s now ->
     (forall floor, min_tier_for_drive e.(drive) c = Some floor -> tier_rank floor <= tier_rank t) ->
     exists e', e' ∈ after /\ e'.(drive) = e.(drive) /\ e'.(stats) = e.(stats) /\ state e' = t /\
       e'.(body) = None) /\
  (~ (exists t, is_pinned e now = false /\ (state e = Warm /\ t = Parked \/ state e = Parked /\ t = Cold) /\
        ttl_of e s now c <= idle_secs_of s now /\
        (forall floor, min_tier_for_drive e.(drive) c = Some floor -> tier_rank floor <= tier_rank t)) ->
   e ∈ after).
Proof.
  pose proof (demote_idle_effect m now c e Hm He) as Heff. cbv zeta in *. split.
  - intros t Hp Hd Ht Hf.
    assert (E : idle_decision e (stats_of (store m) e) now c = Some t).
    { apply idle_decision_Some. unfold one_tier_down. split_and!; try done. tauto. }
    rewrite E in Heff.
    assert (is_legal_demote_target (state e) t = true) as Hleg by (by destruct Hd as [[-> ->] | [-> ->]]).
    rewrite Hleg in Heff. destruct Heff as (e' & ? & ? & ? & ? & ? & _). eauto 10.
  - intros Hno. destruct (idle_decision e (stats_of (store m) e) now c) as [t |] eqn:E; [|done].
    destruct (is_legal_demote_target (state e) t) eqn:Hleg; [|done]. exfalso. apply Hno. exists t.
    apply idle_decision_Some in E as (Hp & Hd & Ht & Hf). split_and!; try done.
    destruct Hd as [[Hs ->] | Hd]; [|done]. by rewrite Hs in Hleg.
Qed.

(** C38: the policy proposes [Warm] for an idle [Hot] shard, but the registry refuses [Warm]
    as a demotion target: the idle controller never moves a [Hot] shard, however long it has
    been idle. *)
Theorem idle_hot_never_demotes (m : IndexManager) (now : Z) (c : Config) (e : ShardEntry Body ParkedBody)
    (Hm : separate m) (He : e ∈ m.(index).(shards)) (Hhot : state e = Hot) :
  (is_pinned e now = false -> min_tier_for_drive e.(drive) c = None ->
   ttl_of e (stats_of m.(store) e) now c <= idle_secs_of (stats_of m.(store) e) now ->
   idle_decision e (stats_of m.(store) e) now c = Some Warm) /\
  e ∈ (demote_idle_shards m now c).(index).(shards).
Proof.
  split.
  - intros Hp Hfl Ht. apply idle_decision_Some. unfold one_tier_down. split_and!; try done; [by left |].
    intros f Hf. congruence.
  - pose proof (demote_idle_effect m now c e Hm He) as Heff. cbv zeta in Heff.
    destruct (idle_decision _ _ _ _) as [t |] eqn:E; [|done].
    apply idle_decision_Some in E as (_ & Hd & _). destruct Hd as [[_ ->] | [[Hs _] | [Hs _]]]; try congruence.
    by rewrite Hhot in Heff.
Qed.

(** What a successful preload leaves. *)
Lemma swap_hot_entry m l b pin now from m2 :
  registry_ok m.(index) -> unique m.(index) ->
  swap_in_hot_with_pin m l b pin now = (Promoted from pin, m2) ->
  unique m2.(index) /\
  exists e, e ∈ m2.(index).(shards) /\ e.(drive) = l /\ state e = Hot /\ e.(pin_until_ms) = pin.
Proof.
  intros Hr Hu. unfold swap_in_hot_with_pin.
  destruct (promote_letter_to_hot _ _ _ _ _) as [[r st] |] eqn:E; [|done].
  apply promote_hot_Some in E as (pos & old & Hf & _ & Hr' & Hc & _); [|done].
  pose proof (find_shard_Some _ _ _ _ Hf) as (_ & Hold & _).
  pose proof (loaded_letters_changes _ _ _ _ _ Hc) as Hll.
  assert (Hur : unique r) by (unfold unique; by rewrite Hll).
  set (new := new_hot_with_stats (drive old) b (stats old) (next_id m)) in *.
  destruct (find_shard_unique r new Hur (changes_one_new _ _ _ _ _ Hc)) as [p' Hf']. cbn in Hf'.
  rewrite Hold in Hf'. rewrite Hf'. intros [= <- <-]. cbn.
  pose proof (find_shard_Some _ _ _ _ Hf') as (Hl' & _). split.
  - unfold unique, loaded_letters. cbn. change (map ?f ?l) with (f <$> l). rewrite list_fmap_insert. cbn.
    rewrite list_insert_id; [exact Hur |]. rewrite list_lookup_fmap, Hl'. done.
  - exists (pin_until new pin). split_and!; try done.
    apply (list_elem_of_lookup_2 _ p'), list_lookup_insert_eq. by apply lookup_lt_Some in Hl'.
Qed.

(** A demotion decided under the read lock is carried out under the write lock even when
    the shard was preloaded and pinned in between: the registry only asks that the present tier
    may be demoted to the stale target, not that the shard is still idle, unpinned or in the
    tier it was seen in. *)
Theorem stale_demote_drops_pinned (m m1 m2 : IndexManager) (now now' pin : Z) (c : Config) (b : Body)
    (ds : list (DriveLetter * ShardState)) (l : DriveLetter) (target from : ShardState)
    (Hm : manager_ok m) (Hu : unique m.(index))
    (Hdetect : demote_idle_detect m now c = (ds, m1))
    (Hin : (l, target) ∈ ds) (Ht : target = Parked \/ target = Cold)
    (Hpre : swap_in_hot_with_pin m1 l b pin now' = (Promoted from pin, m2)) :
  (exists e, e ∈ m2.(index).(shards) /\ e.(drive) = l /\ state e = Hot /\ e.(pin_until_ms) = pin) /\
  exists e', e' ∈ (commit_demotes IdleTtl ds m2).(index).(shards) /\ e'.(drive) = l /\
    state e' = target /\ e'.(body) = None /\ e'.(pin_until_ms) = 0.
Proof.
  unfold demote_idle_detect in Hdetect.
  destruct (detect_idle_NoDup (shards (index m)) (store m) now c Hu) as [Hnd _].
  pose proof (fun i => detect_idle_dom (shards (index m)) (store m) now c i) as Hdom.
  destruct (detect_idle (shards (index m)) (store m) now c) as [ds' st]. cbn [fst snd] in *.
  injection Hdetect as -> <-.
  assert (Hm1 : manager_ok (with_store m st)) by by apply with_store_ok.
  pose proof (swap_hot_ok (with_store m st) l b pin now' Hm1) as Hm2. rewrite Hpre in Hm2. cbn [snd] in Hm2.
  destruct (swap_hot_entry (with_store m st) l b pin now' from m2 (proj1 Hm1) Hu Hpre)
    as (Hu2 & e & He & Hd & Hs & Hp).
  split; [by exists e |]. rewrite commit_demotes_shards.
  destruct (apply_demotes_spec IdleTtl ds m2 Hm2 Hu2 Hnd) as (_ & _ & Heff).
  destruct (Heff e He) as [_ B2]. destruct (B2 target) as (e' & I & D & _ & S & B & P).
  - by rewrite Hd.
  - rewrite Hs. by destruct Ht as [-> | ->].
  - exists e'. split_and!; try done. congruence.
Qed.

(** * The pressure cascade *)

Lemma min_by_key_spec l :
  match min_by_key l with
  | None => l = []
  | Some x => x ∈ l /\ forall y, y ∈ l -> snd x <= snd y
  end.
Proof.
  induction l as [|x l IH]; cbn [min_by_key]; [done |]. destruct (min_by_key l) as [z |].
  - destruct IH as [Hz Hle]. destruct (Z.ltb_spec (snd z) (snd x)).
    + split; [by right |]. intros y [-> | Hy]%elem_of_cons; [lia | by apply Hle].
    + split; [left |]. intros y [-> | Hy]%elem_of_cons; [lia |]. specialize (Hle y Hy). lia.
  - subst l. split; [left |]. intros y ->%list_elem_of_singleton. lia.
Qed.

(** A shard the cascade may demote. *)
Definition candidate (m : IndexManager) (now : Z) e : Prop :=
  e ∈ m.(index).(shards) /\ state e = Warm /\ is_pinned e now = false.

Definition last_query (m : IndexManager) e : Z := (stats_of m.(store) e).(last_query_at_ms).

Lemma elem_of_candidates m now l ts :
  (l, ts) ∈ cascade_candidates m now <-> exists e, candidate m now e /\ e.(drive) = l /\ last_query m e = ts.
Proof.
  unfold cascade_candidates, candidate, last_query. rewrite list_elem_of_fmap.
  setoid_rewrite elem_of_filterb. setoid_rewrite elem_of_filterb.
  split; intros (e & H1 & H2); exists e.
  - injection H1 as -> ->. destruct H2 as [[H2 H3%bool_decide_eq_true_1] H4%negb_true_iff]. by split_and!.
  - destruct H1 as (H1 & H3 & H4), H2 as [-> ->]. rewrite H4. split_and!; try done. by apply bool_decide_eq_true_2.
Qed.

(** A step of the pressure cascade does nothing exactly when no [Warm] shard is
    unpinned; otherwise it parks an unpinned [Warm] shard no other of which was queried
    longer ago, keeping its statistics, and leaves every other shard as it was. *)
Theorem cascade_parks_lru (m : IndexManager) (now : Z) (Hm : manager_ok m) (Hu : unique m.(index)) :
  match cascade_demote_one_step m now with
  | (None, m') => m' = m /\ forall e, ~ candidate m now e
  | (Some (l, t), m') =>
      t = Parked /\
      exists e e', candidate m now e /\ e.(drive) = l /\
        (forall x, candidate m now x -> last_query m e <= last_query m x) /\
        e' ∈ m'.(index).(shards) /\ e'.(drive) = l /\ state e' = Parked /\ e'.(stats) = e.(stats) /\
        forall x, x ∈ m.(index).(shards) -> x <> e -> x ∈ m'.(index).(shards)
  end.
Proof.
  unfold cascade_demote_one_step. pose proof (min_by_key_spec (cascade_candidates m now)) as Hmin.
  destruct (min_by_key _) as [[l ts] |].
  - destruct Hmin as [Hin Hle]. apply elem_of_candidates in Hin as (e & Hc & Hd & Hts).
    pose proof Hc as (He & Hs & Hp). destruct (find_shard_unique _ _ Hu He) as [pos Hf]. rewrite Hd in Hf.
    unfold cascade_commit.
    destruct (demote_letter_with_reason _ _ _ _ _ _) as [r |] eqn:E.
    + apply demote_Some in E as (pos' & old & new & Hf' & _ & _ & Hch & Hst & _).
      rewrite Hf in Hf'. injection Hf' as <- <-. split; [done |]. exists e, new.
      pose proof Hch as (_ & _ & D & S & _). split_and!; try done; [| | congruence |].
      * intros x Hx. rewrite Hts. apply (Hle (drive x, last_query m x)). apply elem_of_candidates. by exists x.
      * by eapply changes_one_new.
      * intros x Hx Hne. eapply changes_one_other; [exact Hu | exact Hch | done |]. intros Hdx. apply Hne.
        apply (find_shard_lookup _ _ _ _ Hu Hf x Hx). congruence.
    + destruct (demote_legal to_parked_body _ _ Parked PressureCascade (next_id m) _ _ (proj1 Hm) Hf) as [r E'];
        [by rewrite Hs | congruence].
  - split; [done |]. intros e Hc.
    assert (Hin : (drive e, last_query m e) ∈ cascade_candidates m now) by (apply elem_of_candidates; by exists e).
    rewrite Hmin in Hin. by apply elem_of_nil in Hin.
Qed.

(** * Hibernation *)

Definition in_tier (drives : list DriveLetter) (s : ShardState) e : bool :=
  selected drives e && bool_decide (state e = s).

Definition demotable (drives : list DriveLetter) e : bool :=
  selected drives e && match state e with Hot | Warm | Parked => true | _ => false end.

Lemma hibernate_fold drives es out ds :
  Forall entry_ok es ->
  fold_left (fun '(out, demotes) e => if selected drives e then hibernate_one out demotes e else (out, demotes))
    es (out, ds) =
  (mk_hibernate (out.(hot_demoted) ++ map drive (List.filter (in_tier drives Hot) es))
     (out.(warm_demoted) ++ map drive (List.filter (in_tier drives Warm) es))
     (out.(parked_demoted) ++ map drive (List.filter (in_tier drives Parked) es))
     (out.(already_cold) ++ map drive (List.filter (in_tier drives Cold) es)),
   ds ++ map (fun e => (e.(drive), state e)) (List.filter (demotable drives) es)).
Proof.
  intros Hok. revert out ds. induction Hok as [|e es He Hok IH]; intros out ds; cbn [fold_left].
  - cbn. rewrite !app_nil_r. by destruct out.
  - unfold in_tier, demotable in *. cbn [List.filter]. destruct (selected drives e); cbn [andb].
    + unfold hibernate_one. destruct He as [_ He].
      destruct (state e) eqn:Es; try done; rewrite IH; cbn; rewrite <- ?app_assoc, ?Es; done.
    + apply IH.
Qed.

(** [hibernate] takes every selected shard that is [Hot], [Warm] or [Parked] to [Cold],
    pinned or not, keeping its statistics; shards not selected and shards already [Cold] stay;
    the outcome lists the selected shards by the tier they were in. *)
Theorem hibernate_shards_exact (m : IndexManager) (drives : list DriveLetter)
    (Hm : manager_ok m) (Hu : unique m.(index)) :
  let '(out, m') := hibernate_shards m drives in
  (forall e, e ∈ m.(index).(shards) ->
     if demotable drives e
     then exists e', e' ∈ m'.(index).(shards) /\ e'.(drive) = e.(drive) /\ e'.(stats) = e.(stats) /\
            state e' = Cold /\ e'.(body) = None /\ e'.(pin_until_ms) = 0
     else e ∈ m'.(index).(shards)) /\
  out.(hot_demoted) = map drive (List.filter (in_tier drives Hot) m.(index).(shards)) /\
  out.(warm_demoted) = map drive (List.filter (in_tier drives Warm) m.(index).(shards)) /\
  out.(parked_demoted) = map drive (List.filter (in_tier drives Parked) m.(index).(shards)) /\
  out.(already_cold) = map drive (List.filter (in_tier drives Cold) m.(index).(shards)).
Proof.
  unfold hibernate_shards, hibernate_detect. rewrite hibernate_fold by apply Hm. cbn [app hot_demoted].
  set (es := shards (index m)). set (dem := List.filter (demotable drives) es).
  assert (Hin : forall e t, e ∈ es ->
    (drive e, t) ∈ map (fun '(l, _) => (l, Cold)) (map (fun e => (drive e, state e)) dem) <->
    demotable drives e = true /\ t = Cold).
  { intros e t He. rewrite map_map, list_elem_of_fmap. split.
    - intros (x & [= Hd ->] & [Hx Hdx]%elem_of_filterb). split; [|done].
      destruct (find_shard_unique _ _ Hu He) as [pos Hf].
      by rewrite <- (find_shard_lookup _ _ _ _ Hu Hf x Hx (eq_sym Hd)).
    - intros [Hd ->]. exists e. split; [done |]. by apply elem_of_filterb. }
  assert (Hnd : NoDup (map fst (map (fun '(l, _) => (l, Cold)) (map (fun e => (drive e, state e)) dem)))).
  { rewrite !map_map. cbn. apply (sublist_NoDup _ (loaded_letters (index m))); [done |].
    unfold loaded_letters. apply (fmap_sublist drive). apply filter_sublist. }
  destruct (apply_demotes_spec OperatorHibernate _ m Hm Hu Hnd) as (_ & _ & Heff).
  assert (Hall : forall e, e ∈ es -> if demotable drives e
     then exists e', e' ∈ (snd (apply_demotes OperatorHibernate
            (map (fun '(l, _) => (l, Cold)) (map (fun e => (drive e, state e)) dem)) m)).(index).(shards) /\
            e'.(drive) = e.(drive) /\ e'.(stats) = e.(stats) /\
            state e' = Cold /\ e'.(body) = None /\ e'.(pin_until_ms) = 0
     else e ∈ (snd (apply_demotes OperatorHibernate
            (map (fun '(l, _) => (l, Cold)) (map (fun e => (drive e, state e)) dem)) m)).(index).(shards)).
  { intros e He. destruct (Heff e He) as [B1 B2]. destruct (demotable drives e) eqn:Hd.
    - destruct (B2 Cold) as (e' & ? & ? & ? & ? & ? & ?); [by apply Hin | | eauto 10].
      unfold demotable in Hd. by destruct (selected drives e), (state e).
    - apply B1. intros t [? _]%Hin; [congruence | done]. }
  rewrite <- commit_demotes_shards in Hall.
  destruct (map (fun e => (drive e, state e)) dem) as [|x ds] eqn:Em; (split; [|by split_and!]); exact Hall.
Qed.

(** A journal refresh of a preloaded shard replaces it by a [Warm] shard that is no
    longer pinned, so the protection the preload promised ends with the next batch of file
    changes. *)
Theorem refresh_drops_pin (m : IndexManager) (l : DriveLetter) (b : Body) (e : ShardEntry Body ParkedBody)
    (Hm : manager_ok m) (Hu : unique m.(index)) (He : e ∈ m.(index).(shards)) (Hl : e.(drive) = l)
    (Hs : state e = Hot) :
  fst (apply_journal_body m l b) = true /\
  exists e', e' ∈ (snd (apply_journal_body m l b)).(index).(shards) /\ e'.(drive) = l /\ state e' = Warm /\
    e'.(body) = Some b /\ forall now, 0 <= now -> is_pinned e' now = false.
Proof.
  destruct (find_shard_unique _ _ Hu He) as [pos Hf]. rewrite Hl in Hf. unfold apply_journal_body.
  destruct (replace_warm_body _ _ _ _) as [r |] eqn:E.
  - apply replace_body_Some in E as (pos' & old & Hf' & _ & _ & Hch); [|apply Hm].
    rewrite Hf in Hf'. injection Hf' as <- <-. split; [done |]. eexists. split; [by eapply changes_one_new |].
    split_and!; try done. intros now Hn. unfold is_pinned. cbn. apply Z.ltb_ge. lia.
  - unfold replace_warm_body in E. by rewrite Hf, Hs in E.
Qed.
End manager.

(** * A concrete daemon

    Bodies are numbers, a body's letter is its hundreds, the rate is the stored
    number and the TTLs are their base values. *)

Abbreviation demo_add := (add_drive (Body := Z) (ParkedBody := Z) (fun b => b / 100)).
Abbreviation demo_idle := (demote_idle_shards (Body := Z) (fun b : Z => b) (fun x => x) (fun p _ _ => p)
  (fun x => x) (fun x => x * 60) (fun _ base _ => base) (fun _ base _ => base)).
Abbreviation demo_detect := (demote_idle_detect (Body := Z) (ParkedBody := Z) (fun x => x) (fun p _ _ => p)
  (fun x => x) (fun x => x * 60) (fun _ base _ => base) (fun _ base _ => base)).
Abbreviation demo_step := (step (Body := Z) (fun b => b / 100) (fun b : Z => b) (fun x => x) (fun p _ _ => p)
  (fun x => x) (fun x => x * 60) (fun _ base _ => base) (fun _ base _ => base) (fun _ => (0, []))).
Abbreviation demo_swap := (swap_in_hot_with_pin (Body := Z) (ParkedBody := Z)).

(** Drives C and D, loaded at time 1000 and 2000. *)
Definition demo_daemon : IndexManager (Body := Z) (ParkedBody := Z) :=
  demo_add (demo_add new_manager 6700 1000) 6800 2000.

Definition demo_config : Config :=
  mk_config (mk_tiers 60 3600 300 14400 86400) [([68; 58], mk_per_drive (Some LevelWarm) None)].

(** The same with C preloaded, pinned until 1000000. *)
Definition demo_hot : IndexManager (Body := Z) (ParkedBody := Z) :=
  snd (demo_swap demo_daemon 67 6701 1000000 3000).

Lemma demo_reachable : reachable (Body := Z) (fun b => b / 100) (fun b : Z => b) (fun x => x) (fun p _ _ => p)
  (fun x => x) (fun x => x * 60) (fun _ base _ => base) (fun _ base _ => base) (fun _ => (0, [])) demo_daemon.
Proof. eapply reach_step; [eapply reach_step; [apply reach_new |] |]; apply step_add. Qed.

Lemma demo_ok : manager_ok demo_daemon.
Proof. exact (reachable_ok _ _ _ _ _ _ _ _ _ _ demo_reachable). Qed.

Lemma demo_hot_ok : manager_ok demo_hot.
Proof. apply swap_hot_ok, demo_ok. Qed.

Lemma demo_unique : unique demo_daemon.(index) /\ unique demo_hot.(index).
Proof. split; apply (bool_decide_unpack _); vm_compute; exact I. Qed.

Lemma demo_separate : separate demo_daemon /\ separate demo_hot.
Proof.
  split; (split; [apply demo_ok || apply demo_hot_ok | split; [apply demo_unique |]]);
    apply (bool_decide_unpack _); vm_compute; exact I.
Qed.

Lemma reachable_registry_ok_witness :
  active_index demo_daemon.(index) = [6700; 6800] /\ Forall entry_ok demo_daemon.(index).(shards).
Proof. split; [reflexivity |]. exact (proj1 (reachable_registry_ok _ _ _ _ _ _ _ _ _ _ demo_reachable)). Defined.

Definition demo_c : ShardEntry Z Z := new_warm_with_stats 67 6700 0 0.
Definition demo_c_hot : ShardEntry Z Z := pin_until (new_hot_with_stats 67 6701 0 2) 1000000.

(** C is parked after 300 idle seconds, D is kept by its floor. *)
Lemma demote_idle_shards_exact_witness :
  active_index (demo_idle demo_daemon 400000 demo_config).(index) = [6800] /\
  exists e', e' ∈ (demo_idle demo_daemon 400000 demo_config).(index).(shards) /\ e'.(drive) = 67 /\ state e' = Parked.
Proof.
  split; [reflexivity |].
  destruct (demote_idle_shards_exact (fun b : Z => b) (fun x => x) (fun p _ _ => p) (fun x => x) (fun x => x * 60)
    (fun _ base _ => base) (fun _ base _ => base) demo_daemon 400000 demo_config demo_c) as [H _];
    [apply demo_separate | left |].
  destruct (H Parked) as (e' & ? & ? & _ & ? & _); [reflexivity | left; split; reflexivity | by_eval | |].
  - intros floor Hf. vm_compute in Hf. discriminate Hf.
  - by exists e'.
Defined.

(** Two million seconds later the preloaded drive is still [Hot]. *)
Lemma idle_hot_never_demotes_witness :
  is_pinned demo_c_hot 2000000000 = false /\
  demo_c_hot ∈ (demo_idle demo_hot 2000000000 demo_config).(index).(shards).
Proof.
  split; [reflexivity |].
  apply (idle_hot_never_demotes (fun b : Z => b) (fun x => x) (fun p _ _ => p) (fun x => x) (fun x => x * 60)
    (fun _ base _ => base) (fun _ base _ => base) demo_hot 2000000000 demo_config demo_c_hot);
    [apply demo_separate | left | reflexivity].
Defined.

(** C is found idle at 400 s; it is preloaded and pinned; the batch parks it. *)
Lemma stale_demote_drops_pinned_witness :
  exists e', e' ∈ (commit_demotes (fun b : Z => b) IdleTtl [(67, Parked)]
      (snd (demo_swap (snd (demo_detect demo_daemon 400000 demo_config)) 67 6701 1000000 400001))).(index).(shards) /\
    e'.(drive) = 67 /\ state e' = Parked /\ e'.(pin_until_ms) = 0.
Proof.
  destruct (stale_demote_drops_pinned (fun b : Z => b) (fun x => x) (fun p _ _ => p) (fun x => x) (fun x => x * 60)
    (fun _ base _ => base) (fun _ base _ => base) demo_daemon
    (snd (demo_detect demo_daemon 400000 demo_config))
    (snd (demo_swap (snd (demo_detect demo_daemon 400000 demo_config)) 67 6701 1000000 400001))
    400000 400001 1000000 demo_config 6701 [(67, Parked)] 67 Parked Warm) as (_ & e' & ? & ? & ? & _ & ?);
    [apply demo_ok | apply demo_unique | reflexivity | left | by left | reflexivity |].
  exists e'. by split_and!.
Defined.

Lemma cascade_parks_lru_witness :
  fst (cascade_demote_one_step (fun b : Z => b) demo_daemon 3000) = Some (67, Parked) /\
  match cascade_demote_one_step (fun b : Z => b) demo_daemon 3000 with
  | (None, _) => False
  | (Some (l, t), m') => t = Parked /\ exists e', e' ∈ m'.(index).(shards) /\ e'.(drive) = l /\ state e' = Parked
  end.
Proof.
  split; [reflexivity |].
  pose proof (cascade_parks_lru (fun b : Z => b) demo_daemon 3000 demo_ok (proj1 demo_unique)) as H.
  destruct (cascade_demote_one_step (fun b : Z => b) demo_daemon 3000) as [[[l t] |] m'] eqn:E.
  - destruct H as (Ht & e & e' & _ & _ & _ & ? & ? & ? & _). split; [exact Ht |]. by exists e'.
  - vm_compute in E. discriminate E.
Defined.

Lemma hibernate_shards_exact_witness :
  active_index (snd (hibernate_shards (fun b : Z => b) demo_hot [])).(index) = [] /\
  (fst (hibernate_shards (fun b : Z => b) demo_hot [])).(hot_demoted) = [67].
Proof.
  split; [reflexivity |].
  pose proof (hibernate_shards_exact (fun b : Z => b) demo_hot [] demo_hot_ok (proj2 demo_unique)) as H.
  destruct (hibernate_shards (fun b : Z => b) demo_hot []) as [out m'] eqn:E. destruct H as (_ & H & _).
  cbn [fst]. rewrite H. reflexivity.
Defined.

Lemma refresh_drops_pin_witness :
  is_pinned demo_c_hot 5000 = true /\
  exists e', e' ∈ (snd (apply_journal_body demo_hot 67 6702)).(index).(shards) /\ e'.(drive) = 67 /\
    is_pinned e' 5000 = false.
Proof.
  split; [reflexivity |].
  destruct (refresh_drops_pin demo_hot 67 6702 demo_c_hot demo_hot_ok (proj2 demo_unique))
    as (_ & e' & ? & ? & _ & _ & H); [left | reflexivity | reflexivity |].
  exists e'. split; [done |]. split; [done |]. apply H. lia.
Defined.
