(* ===== verification/SnapshotCodec.v ===== *)
(** Snapshot Manager wire protocol: uffs-broker-protocol/src/snapshot_manager.

    The bounds-checked cursor ([Reader]), every request and response message and
    the tagged envelopes.  A decoder is a state function on the cursor; a
    [Grammar] says of a decoder exactly which bytes it accepts for which value,
    and the grammar of a composed decoder follows by instance search from the
    grammars of its parts. *)
From stdpp Require Import strings.
From S2P Require Import Prelude.
Open Scope Z_scope.
Open Scope rust_scope.

(** * codec.rs *)

Inductive SnapshotProtocolError : Type :=
| Truncated (needed available : Z)
| LengthOutOfBounds (field : string) (declared max : Z)
| UnknownDiscriminant (field : string) (value : Z)
| InvalidUtf8 (field : string).

Record Reader := mkReader { buf : list Z; pos : Z }.

(** A method on [&mut Reader]: the value and the moved cursor, or the error that
    abandons the whole decode. *)
Definition Dec (A : Type) : Type := Reader -> result (A * Reader) SnapshotProtocolError.

Definition ret {A} (x : A) : Dec A := fun r => Ok (x, r).
Definition fail {A} (e : SnapshotProtocolError) : Dec A := fun _ => Err e.
Definition bind {A B} (d : Dec A) (k : A -> Dec B) : Dec B :=
  fun r => try (x, r') := d r in k x r'.

Notation "'let!' x ':=' d 'in' k" := (bind d (fun x => k))
  (at level 10, x name, d at level 100, k at level 200) : rust_scope.

Definition reader_new (bytes : list Z) : Reader := mkReader bytes 0.

Definition remaining (r : Reader) : Z := zlen (buf r) - pos r.

Definition take_bytes (len : Z) : Dec (list Z) := fun r =>
  let available := remaining r in
  if available <? len then Err (Truncated len available) else
  let start := pos r in
  match get_range (buf r) start (start + len) with
  | None => Err (Truncated len available)
  | Some slice => Ok (slice, mkReader (buf r) (pos r + len))
  end.

Definition read_u8 : Dec Z :=
  let! bytes := take_bytes 1 in
  match zget bytes 0 with
  | Some b => ret b
  | None => fail (Truncated 1 0)
  end.

Definition read_array (n : Z) : Dec (list Z) := take_bytes n.

Definition read_u32_le : Dec Z := let! bs := read_array 4 in ret (from_le_bytes bs).
Definition read_u64_le : Dec Z := let! bs := read_array 8 in ret (from_le_bytes bs).
Definition read_i64_le : Dec Z := let! v := read_u64_le in ret (i64 v).
Definition read_i32_le : Dec Z := let! v := read_u32_le in ret (i32 v).

Definition read_optional_i32 : Dec (option Z) :=
  let! b := read_u8 in
  if b =? 0 then ret None else (let! v := read_i32_le in ret (Some v)).

Definition read_bytes_u32_prefixed (field : string) (max_len : Z) : Dec (list Z) :=
  let! len := read_u32_le in
  if max_len <? len then fail (LengthOutOfBounds field len max_len) else
  take_bytes len.

Definition read_string_u16_prefixed (field : string) (max_len : Z) : Dec (list Z) :=
  let! a := read_array 2 in
  let len := from_le_bytes a in
  if max_len <? len then fail (LengthOutOfBounds field len max_len) else
  let! bytes := take_bytes len in
  if utf8_valid bytes then ret bytes else fail (InvalidUtf8 field).

Definition write_u16_le (out : list Z) (value : Z) : list Z := out ++ to_le_bytes 2 value.
Definition write_u32_le (out : list Z) (value : Z) : list Z := out ++ to_le_bytes 4 value.
Definition write_u64_le (out : list Z) (value : Z) : list Z := out ++ to_le_bytes 8 value.
Definition write_i64_le (out : list Z) (value : Z) : list Z := out ++ to_le_bytes 8 (u64 value).
Definition write_i32_le (out : list Z) (value : Z) : list Z := out ++ to_le_bytes 4 (u32 value).

Definition write_optional_i32 (out : list Z) (value : option Z) : list Z :=
  match value with
  | None => out ++ [0]
  | Some present => write_i32_le (out ++ [1]) present
  end.

(** [bytes.len() as u32] and [as u16] truncate. *)
Definition write_bytes_u32_prefixed (out bytes : list Z) : list Z :=
  write_u32_le out (u32 (zlen bytes)) ++ bytes.

Definition write_string_u16_prefixed (out value : list Z) : list Z :=
  write_u16_le out (u16 (zlen value)) ++ value.

(** * messages.rs *)

Definition MAX_IDENTIFIER_BYTES : Z := 1024.
Definition MAX_PATH_BYTES : Z := 32767 * 2.
Definition MAX_MESSAGE_BYTES : Z := 4096.

Record VolumeIdentity := mkVolumeIdentity {
  volume_serial : Z;
  volume_guid : list Z
}.

Definition VolumeIdentity_encode (v : VolumeIdentity) (out : list Z) : list Z :=
  write_bytes_u32_prefixed (write_u64_le out (volume_serial v)) (volume_guid v).

Definition VolumeIdentity_decode : Dec VolumeIdentity :=
  let! volume_serial := read_u64_le in
  let! volume_guid := read_bytes_u32_prefixed "volume_guid" MAX_IDENTIFIER_BYTES in
  ret (mkVolumeIdentity volume_serial volume_guid).

Record CreateSnapshotLease := mkCreateSnapshotLease {
  authenticated_job_id : list Z;
  source_volume_identity : VolumeIdentity;
  requested_root : list Z;
  maximum_lifetime_secs : Z;
  policy_id : Z
}.

Definition CreateSnapshotLease_encode (c : CreateSnapshotLease) : list Z :=
  let out := [] ++ authenticated_job_id c in
  let out := VolumeIdentity_encode (source_volume_identity c) out in
  let out := write_bytes_u32_prefixed out (requested_root c) in
  let out := write_u64_le out (maximum_lifetime_secs c) in
  write_u32_le out (policy_id c).

Definition CreateSnapshotLease_decode : Dec CreateSnapshotLease :=
  let! authenticated_job_id := read_array 16 in
  let! source_volume_identity := VolumeIdentity_decode in
  let! requested_root := read_bytes_u32_prefixed "requested_root" MAX_PATH_BYTES in
  let! maximum_lifetime_secs := read_u64_le in
  let! policy_id := read_u32_le in
  ret (mkCreateSnapshotLease authenticated_job_id source_volume_identity requested_root
         maximum_lifetime_secs policy_id).

Record CreateSnapshotLeaseResult := mkCreateSnapshotLeaseResult {
  csr_snapshot_lease_id : Z;
  csr_snapshot_id : list Z;
  csr_snapshot_device_identity : list Z;
  csr_snapshot_created_at_unix_ms : Z;
  csr_expires_at_unix_ms : Z
}.

Definition CreateSnapshotLeaseResult_encode (c : CreateSnapshotLeaseResult) : list Z :=
  let out := write_u64_le [] (csr_snapshot_lease_id c) in
  let out := write_bytes_u32_prefixed out (csr_snapshot_id c) in
  let out := write_string_u16_prefixed out (csr_snapshot_device_identity c) in
  let out := write_i64_le out (csr_snapshot_created_at_unix_ms c) in
  write_i64_le out (csr_expires_at_unix_ms c).

Definition CreateSnapshotLeaseResult_decode : Dec CreateSnapshotLeaseResult :=
  let! snapshot_lease_id := read_u64_le in
  let! snapshot_id := read_bytes_u32_prefixed "snapshot_id" MAX_IDENTIFIER_BYTES in
  let! snapshot_device_identity := read_string_u16_prefixed "snapshot_device_identity" 2048 in
  let! snapshot_created_at_unix_ms := read_i64_le in
  let! expires_at_unix_ms := read_i64_le in
  ret (mkCreateSnapshotLeaseResult snapshot_lease_id snapshot_id snapshot_device_identity
         snapshot_created_at_unix_ms expires_at_unix_ms).

Record DuplicateSnapshotHandle := mkDuplicateSnapshotHandle {
  dup_snapshot_lease_id : Z;
  approved_reader_process_id : Z
}.

Definition DuplicateSnapshotHandle_encode (d : DuplicateSnapshotHandle) : list Z :=
  write_u32_le (write_u64_le [] (dup_snapshot_lease_id d)) (approved_reader_process_id d).

Definition DuplicateSnapshotHandle_decode : Dec DuplicateSnapshotHandle :=
  let! snapshot_lease_id := read_u64_le in
  let! approved_reader_process_id := read_u32_le in
  ret (mkDuplicateSnapshotHandle snapshot_lease_id approved_reader_process_id).

Record RenewSnapshotLease := mkRenewSnapshotLease {
  renew_snapshot_lease_id : Z;
  requested_expiry_unix_ms : Z
}.

Definition RenewSnapshotLease_encode (d : RenewSnapshotLease) : list Z :=
  write_i64_le (write_u64_le [] (renew_snapshot_lease_id d)) (requested_expiry_unix_ms d).

Definition RenewSnapshotLease_decode : Dec RenewSnapshotLease :=
  let! snapshot_lease_id := read_u64_le in
  let! requested_expiry_unix_ms := read_i64_le in
  ret (mkRenewSnapshotLease snapshot_lease_id requested_expiry_unix_ms).

Record ReleaseSnapshotLease := mkReleaseSnapshotLease { release_snapshot_lease_id : Z }.

Definition ReleaseSnapshotLease_encode (d : ReleaseSnapshotLease) : list Z :=
  write_u64_le [] (release_snapshot_lease_id d).

Definition ReleaseSnapshotLease_decode : Dec ReleaseSnapshotLease :=
  let! snapshot_lease_id := read_u64_le in
  ret (mkReleaseSnapshotLease snapshot_lease_id).

Record QuerySnapshotLease := mkQuerySnapshotLease { query_snapshot_lease_id : Z }.

Definition QuerySnapshotLease_encode (d : QuerySnapshotLease) : list Z :=
  write_u64_le [] (query_snapshot_lease_id d).

Definition QuerySnapshotLease_decode : Dec QuerySnapshotLease :=
  let! snapshot_lease_id := read_u64_le in
  ret (mkQuerySnapshotLease snapshot_lease_id).

Inductive SnapshotLeaseState := Active | Expired | Released | Unknown.

Definition SnapshotLeaseState_encode (s : SnapshotLeaseState) : Z :=
  match s with Active => 0 | Expired => 1 | Released => 2 | Unknown => 3 end.

Definition SnapshotLeaseState_decode (byte : Z) : result SnapshotLeaseState Z :=
  match byte with
  | 0 => Ok Active
  | 1 => Ok Expired
  | 2 => Ok Released
  | 3 => Ok Unknown
  | other => Err other
  end.

Record SnapshotLeaseStatus := mkSnapshotLeaseStatus {
  sls_snapshot_lease_id : Z;
  sls_state : SnapshotLeaseState;
  sls_snapshot_id : list Z;
  sls_created_at_unix_ms : Z;
  sls_expires_at_unix_ms : Z
}.

Definition SnapshotLeaseStatus_encode (c : SnapshotLeaseStatus) : list Z :=
  let out := write_u64_le [] (sls_snapshot_lease_id c) in
  let out := out ++ [SnapshotLeaseState_encode (sls_state c)] in
  let out := write_bytes_u32_prefixed out (sls_snapshot_id c) in
  let out := write_i64_le out (sls_created_at_unix_ms c) in
  write_i64_le out (sls_expires_at_unix_ms c).

(** [decode(byte).map_err(|byte| UnknownDiscriminant { field, value })?] *)
Definition discriminant {A} (field : string) (decode : Z -> result A Z) (byte : Z) : Dec A :=
  match decode byte with
  | Ok x => ret x
  | Err byte => fail (UnknownDiscriminant field byte)
  end.

Definition SnapshotLeaseStatus_decode : Dec SnapshotLeaseStatus :=
  let! snapshot_lease_id := read_u64_le in
  let! state_byte := read_u8 in
  let! state := discriminant "state" SnapshotLeaseState_decode state_byte in
  let! snapshot_id := read_bytes_u32_prefixed "snapshot_id" MAX_IDENTIFIER_BYTES in
  let! created_at_unix_ms := read_i64_le in
  let! expires_at_unix_ms := read_i64_le in
  ret (mkSnapshotLeaseStatus snapshot_lease_id state snapshot_id created_at_unix_ms
         expires_at_unix_ms).

Inductive SnapshotManagerErrorCode :=
| SnapshotCreateFailed | VolumeValidationFailed | Unauthorized | LeaseNotFound
| LeaseNotActive | ReaderIdentityRejected | SnapshotStorageExhausted | InternalError.

Definition SnapshotManagerErrorCode_encode (c : SnapshotManagerErrorCode) : Z :=
  match c with
  | SnapshotCreateFailed => 0
  | VolumeValidationFailed => 1
  | Unauthorized => 2
  | LeaseNotFound => 3
  | LeaseNotActive => 4
  | ReaderIdentityRejected => 5
  | SnapshotStorageExhausted => 6
  | InternalError => 7
  end.

Definition SnapshotManagerErrorCode_decode (byte : Z) : result SnapshotManagerErrorCode Z :=
  match byte with
  | 0 => Ok SnapshotCreateFailed
  | 1 => Ok VolumeValidationFailed
  | 2 => Ok Unauthorized
  | 3 => Ok LeaseNotFound
  | 4 => Ok LeaseNotActive
  | 5 => Ok ReaderIdentityRejected
  | 6 => Ok SnapshotStorageExhausted
  | 7 => Ok InternalError
  | other => Err other
  end.

(** * mod.rs *)

Inductive SnapshotManagerRequest :=
| Create (c : CreateSnapshotLease)
| Duplicate (d : DuplicateSnapshotHandle)
| Renew (n : RenewSnapshotLease)
| Release (l : ReleaseSnapshotLease)
| Query (q : QuerySnapshotLease).

Definition SnapshotManagerRequest_encode (r : SnapshotManagerRequest) : list Z :=
  match r with
  | Create request => [0] ++ CreateSnapshotLease_encode request
  | Duplicate request => [1] ++ DuplicateSnapshotHandle_encode request
  | Renew request => [2] ++ RenewSnapshotLease_encode request
  | Release request => [3] ++ ReleaseSnapshotLease_encode request
  | Query request => [4] ++ QuerySnapshotLease_encode request
  end.

(** The body of [decode], on the cursor. *)
Definition request_body : Dec SnapshotManagerRequest :=
  let! tag := read_u8 in
  match tag with
  | 0 => let! c := CreateSnapshotLease_decode in ret (Create c)
  | 1 => let! d := DuplicateSnapshotHandle_decode in ret (Duplicate d)
  | 2 => let! n := RenewSnapshotLease_decode in ret (Renew n)
  | 3 => let! l := ReleaseSnapshotLease_decode in ret (Release l)
  | 4 => let! q := QuerySnapshotLease_decode in ret (Query q)
  | other => fail (UnknownDiscriminant "request_tag" other)
  end.

(** Run a decoder on a buffer; the cursor is dropped, whatever it has left. *)
Definition decode_with {A} (d : Dec A) (bytes : list Z) : result A SnapshotProtocolError :=
  try (x, _) := d (reader_new bytes) in Ok x.

Definition SnapshotManagerRequest_decode (bytes : list Z)
  : result SnapshotManagerRequest SnapshotProtocolError := decode_with request_body bytes.

Inductive SnapshotManagerResponse :=
| Created (c : CreateSnapshotLeaseResult)
| Duplicated
| Renewed (new_expires_at_unix_ms : Z)
| ReleasedResponse
| Status (s : SnapshotLeaseStatus)
| Error (code : SnapshotManagerErrorCode) (hresult : option Z) (message : list Z).

Definition SnapshotManagerResponse_encode (r : SnapshotManagerResponse) : list Z :=
  match r with
  | Created result => [0] ++ CreateSnapshotLeaseResult_encode result
  | Duplicated => [1]
  | Renewed new_expires_at_unix_ms => write_i64_le [2] new_expires_at_unix_ms
  | ReleasedResponse => [3]
  | Status status => [4] ++ SnapshotLeaseStatus_encode status
  | Error code hresult message =>
      let out := [5] ++ [SnapshotManagerErrorCode_encode code] in
      write_string_u16_prefixed (write_optional_i32 out hresult) message
  end.

Definition response_body : Dec SnapshotManagerResponse :=
  let! tag := read_u8 in
  match tag with
  | 0 => let! c := CreateSnapshotLeaseResult_decode in ret (Created c)
  | 1 => ret Duplicated
  | 2 => let! v := read_i64_le in ret (Renewed v)
  | 3 => ret ReleasedResponse
  | 4 => let! s := SnapshotLeaseStatus_decode in ret (Status s)
  | 5 =>
      let! code_byte := read_u8 in
      let! code := discriminant "code" SnapshotManagerErrorCode_decode code_byte in
      let! hresult := read_optional_i32 in
      let! message := read_string_u16_prefixed "message" MAX_MESSAGE_BYTES in
      ret (Error code hresult message)
  | other => fail (UnknownDiscriminant "response_tag" other)
  end.

Definition SnapshotManagerResponse_decode (bytes : list Z)
  : result SnapshotManagerResponse SnapshotProtocolError := decode_with response_body bytes.

(** * Grammars *)

#[local] Arguments to_le_bytes : simpl never.

Definition reader_ok (r : Reader) : Prop :=
  0 <= pos r <= zlen (buf r) /\ byte_list (buf r).

(** The cursor moves from [r] to [r'] over the bytes [bs]. *)
Definition parses (r : Reader) (bs : list Z) (r' : Reader) : Prop :=
  buf r' = buf r /\ get_range (buf r) (pos r) (pos r + zlen bs) = Some bs /\
  pos r' = pos r + zlen bs.

(** [d] accepts exactly the byte strings of [P], with their values. *)
Class Grammar {A} (d : Dec A) (P : A -> list Z -> Prop) : Prop :=
  grammar : forall r x r', reader_ok r ->
    d r = Ok (x, r') <-> exists bs, P x bs /\ parses r bs r'.
#[export] Hint Mode Grammar - ! - : typeclass_instances.

Lemma parses_ok r bs r' : reader_ok r -> parses r bs r' -> reader_ok r' /\ byte_list bs.
Proof.
  intros [Hp Hb] (E & Hg & Hp'). pose proof Hg as (? & ? & _)%get_range_Some.
  split; [|by eapply get_range_Forall]. unfold reader_ok. rewrite E, Hp'. split; [lia | done].
Qed.

Lemma parses_nil r r' : reader_ok r -> parses r [] r' <-> r' = r.
Proof.
  intros [Hp Hb]. unfold parses. rewrite zlen_nil, Z.add_0_r. destruct r as [b p], r' as [b' p'].
  cbn in *. split.
  - intros (-> & _ & ->). done.
  - intros [= -> ->]. split_and!; [done | | done].
    rewrite get_range_intro by lia. by rewrite Z.sub_diag.
Qed.

Lemma parses_app r a b r' :
  parses r (a ++ b) r' <-> exists m, parses r a m /\ parses m b r'.
Proof.
  unfold parses. rewrite zlen_app. pose proof (zlen_nonneg a). pose proof (zlen_nonneg b). split.
  - intros (E & Hg & Hp). exists (mkReader (buf r) (pos r + zlen a)). cbn.
    destruct (get_range_split _ _ _ (pos r + zlen a) _ Hg) as (s1 & s2 & Es & H1 & H2); [lia |].
    pose proof (get_range_len _ _ _ _ H1).
    apply app_inj_1 in Es as [-> ->]; [| unfold zlen in *; lia].
    rewrite Z.add_assoc in H2. by rewrite H1, H2, Hp, Z.add_assoc, E.
  - intros (m & (E1 & H1 & P1) & (E2 & H2 & P2)). rewrite E1, P1 in *.
    split_and!; [congruence | | lia]. rewrite Z.add_assoc. by eapply get_range_join.
Qed.

Lemma grammar_ext {A} (d : Dec A) P Q :
  Grammar d P -> (forall x bs, byte_list bs -> P x bs <-> Q x bs) -> Grammar d Q.
Proof.
  intros H HPQ r x r' Hr. rewrite (H r x r' Hr).
  split; intros (bs & HP & Hs); exists bs; (split; [|done]);
    apply HPQ; try done; by eapply parses_ok.
Qed.

#[export] Instance grammar_ret {A} (x : A) : Grammar (ret x) (fun y bs => y = x /\ bs = []).
Proof.
  intros r y r' Hr. unfold ret. split.
  - intros [= -> ->]. exists []. by rewrite parses_nil.
  - intros (bs & [-> ->] & Hs). apply parses_nil in Hs as ->; done.
Qed.

#[export] Instance grammar_fail {A} e : Grammar (@fail A e) (fun _ _ => False).
Proof. intros r y r' Hr. unfold fail. split; [done |]. by intros (bs & [] & _). Qed.

#[export] Instance grammar_bind {A B} (d : Dec A) (k : A -> Dec B) P Q :
  Grammar d P -> (forall a, Grammar (k a) (Q a)) ->
  Grammar (bind d k) (fun y bs => exists a b1 b2, P a b1 /\ Q a y b2 /\ bs = b1 ++ b2).
Proof.
  intros Hd Hk r y r' Hr. unfold bind. split.
  - destruct (d r) as [[a m] |] eqn:E; [|done]. intros Hy.
    apply Hd in E as (b1 & HP & H1); [|done].
    apply (Hk a) in Hy as (b2 & HQ & H2); [| by eapply parses_ok].
    exists (b1 ++ b2). rewrite parses_app. split; [by eauto 10 | by eauto].
  - intros (bs & (a & b1 & b2 & HP & HQ & ->) & (m & H1 & H2)%parses_app).
    assert (d r = Ok (a, m)) as -> by (apply Hd; eauto).
    apply Hk; [by eapply parses_ok | eauto].
Qed.

#[export] Instance grammar_if {A} (b : bool) (d1 d2 : Dec A) P1 P2 :
  Grammar d1 P1 -> Grammar d2 P2 ->
  Grammar (if b then d1 else d2) (fun x bs => if b then P1 x bs else P2 x bs).
Proof. by destruct b. Qed.

#[export] Instance grammar_take n :
  Grammar (take_bytes n) (fun x bs => x = bs /\ zlen bs = n).
Proof.
  intros r x r' [Hp Hb]. unfold take_bytes, remaining. split.
  - destruct (Z.ltb_spec (zlen (buf r) - pos r) n); [done |].
    destruct (get_range _ _ _) as [s |] eqn:E; [|done]. intros [= <- <-].
    pose proof (get_range_len _ _ _ _ E) as Hl. exists s. unfold parses. cbn.
    replace (zlen s) with n by lia. by rewrite E.
  - intros (bs & [-> Hn] & (E & Hg & P')). rewrite Hn in *. rewrite Hg.
    pose proof Hg as (? & ? & _)%get_range_Some.
    destruct (Z.ltb_spec (zlen (buf r) - pos r) n); [lia |].
    destruct r'; cbn in *. by subst.
Qed.

Lemma zlen_1 (bs : list Z) : zlen bs = 1 -> exists b, bs = [b].
Proof. destruct bs as [|b [|]]; unfold zlen; cbn [length]; intros; try lia. eauto. Qed.

#[export] Instance grammar_u8 : Grammar read_u8 (fun x bs => is_u8 x /\ bs = [x]).
Proof.
  unfold read_u8. intros r x r' Hr. split.
  - unfold bind. destruct (take_bytes 1 r) as [[s m] |] eqn:E; [|done].
    apply grammar_take in E as (bs & [-> (b & ->)%zlen_1] & Hs); [|done]. cbn.
    intros [= <- <-]. exists [b]. split_and!; try done.
    all: eapply parses_ok in Hs as [_ Hb%Forall_inv]; [cbn in Hb; lia | done].
  - intros (bs & [Hx ->] & Hs). unfold bind.
    assert (take_bytes 1 r = Ok ([x], r')) as ->; [|done].
    apply grammar_take; [done |]. exists [x]. done.
Qed.

(** An [N]-byte little-endian field. *)
Lemma grammar_le (n : nat) :
  Grammar (let! bs := read_array (Z.of_nat n) in ret (from_le_bytes bs))
    (fun x bs => 0 <= x < 256 ^ Z.of_nat n /\ bs = to_le_bytes n x).
Proof.
  eapply grammar_ext; [apply grammar_bind; [apply grammar_take | intros; apply grammar_ret] |].
  cbn. intros x bs Hb. split.
  - intros (a & b1 & b2 & [-> Hl] & [-> ->] & ->). rewrite app_nil_r in *.
    rewrite <- Hl. split; [by apply from_le_bytes_bound |].
    replace n with (length b1) by (unfold zlen in *; lia). by rewrite to_from_le_bytes.
  - intros [Hx ->]. eexists _, _, []. rewrite app_nil_r. split_and!; try done.
    + apply zlen_to_le_bytes.
    + by rewrite from_to_le_bytes_small.
Qed.

#[export] Instance grammar_u32 : Grammar read_u32_le (fun x bs => is_u32 x /\ bs = to_le_bytes 4 x).
Proof. exact (grammar_le 4). Qed.

#[export] Instance grammar_u64 : Grammar read_u64_le (fun x bs => is_u64 x /\ bs = to_le_bytes 8 x).
Proof. exact (grammar_le 8). Qed.

#[export] Instance grammar_i64 :
  Grammar read_i64_le (fun x bs => is_i64 x /\ bs = to_le_bytes 8 (u64 x)).
Proof.
  eapply grammar_ext; [apply _ |]. cbn. intros x bs _. split.
  - intros (a & b1 & b2 & [Ha ->] & [-> ->] & ->). rewrite app_nil_r.
    split; [apply i64_range |]. by rewrite u64_i64, u64_small.
  - intros [Hx ->]. exists (u64 x). eexists _, []. rewrite app_nil_r.
    pose proof (u64_range x). by rewrite i64_u64, i64_small.
Qed.

Lemma i32_range z : is_i32 (i32 z).
Proof. unfold i32. pose proof (Z.mod_pos_bound (z + 2 ^ 31) (2 ^ 32)). lia. Qed.

Lemma u32_i32 z : u32 (i32 z) = u32 z.
Proof. unfold i32, u32. rewrite Zminus_mod_idemp_l. f_equal. lia. Qed.

#[export] Instance grammar_i32 :
  Grammar read_i32_le (fun x bs => is_i32 x /\ bs = to_le_bytes 4 (u32 x)).
Proof.
  eapply grammar_ext; [apply _ |]. cbn. intros x bs _. split.
  - intros (a & b1 & b2 & [Ha ->] & [-> ->] & ->). rewrite app_nil_r.
    split; [apply i32_range |]. by rewrite u32_i32, u32_small.
  - intros [Hx ->]. exists (u32 x). eexists _, []. rewrite app_nil_r.
    pose proof (u32_range x). by rewrite i32_u32, i32_small.
Qed.

(** Any nonzero presence byte announces a value. *)
#[export] Instance grammar_optional_i32 :
  Grammar read_optional_i32 (fun x bs =>
    match x with
    | None => bs = [0]
    | Some v => is_i32 v /\ exists b, 0 < b < 256 /\ bs = b :: to_le_bytes 4 (u32 v)
    end).
Proof.
  eapply grammar_ext; [apply _ |]. cbn. intros x bs _. split.
  - intros (a & b1 & b2 & [Ha ->] & Hq & ->). destruct (Z.eqb_spec a 0) as [-> |].
    + by destruct Hq as [-> ->].
    + destruct Hq as (v & c1 & c2 & [Hv ->] & [-> ->] & ->). rewrite app_nil_r.
      split; [done |]. exists a. split; [lia | done].
  - destruct x as [v |].
    + intros [Hv (b & Hb & ->)]. exists b, [b]. eexists. split_and!; try done; try lia.
      replace (b =? 0) with false by lia. exists v, (to_le_bytes 4 (u32 v)), [].
      rewrite app_nil_r. split_and!; done || lia.
    + intros ->. by eexists 0, [0], [].
Qed.

Lemma byte_list_app_r (a b : list Z) : byte_list (a ++ b) -> byte_list b.
Proof. intros H. by apply Forall_app in H as [_ H]. Qed.

#[export] Instance grammar_bytes field max_len :
  Grammar (read_bytes_u32_prefixed field max_len) (fun x bs =>
    byte_list x /\ zlen x <= max_len /\ zlen x < 2 ^ 32 /\ bs = write_bytes_u32_prefixed [] x).
Proof.
  eapply grammar_ext; [apply _ |]. cbn. intros x bs Hb.
  unfold write_bytes_u32_prefixed, write_u32_le. rewrite ?app_nil_l. split.
  - intros (a & b1 & b2 & [Ha ->] & Hq & ->). destruct (Z.ltb_spec max_len a); [done |].
    destruct Hq as [-> <-]. apply byte_list_app_r in Hb. rewrite u32_small by done.
    split_and!; try done. lia.
  - intros (Hx & Hm & Hl & ->). pose proof (zlen_nonneg x). rewrite u32_small by lia.
    eexists (zlen x), _, x. split_and!; try done.
    by replace (max_len <? zlen x) with false by lia.
Qed.

#[export] Instance grammar_string field max_len :
  Grammar (read_string_u16_prefixed field max_len) (fun x bs =>
    byte_list x /\ utf8_valid x = true /\ zlen x <= max_len /\ zlen x < 2 ^ 16 /\
    bs = write_string_u16_prefixed [] x).
Proof.
  unfold read_string_u16_prefixed. cbv zeta. eapply grammar_ext; [apply _ |]. cbn. intros x bs Hb.
  unfold write_string_u16_prefixed, write_u16_le. rewrite ?app_nil_l. split.
  - intros (a & b1 & b2 & [-> Hl] & Hq & ->).
    destruct (Z.ltb_spec max_len (from_le_bytes b1)); [done |].
    destruct Hq as (s & c1 & c2 & [-> Hs] & Hq & ->).
    destruct (utf8_valid c1) eqn:Eu; [|done]. destruct Hq as [-> ->]. rewrite app_nil_r in *.
    apply Forall_app in Hb as [Hb1 Hb2]. pose proof (from_le_bytes_bound _ Hb1) as Hf.
    rewrite Hl in Hf. change (256 ^ 2) with (2 ^ 16) in Hf. rewrite Hs, u16_small by done.
    split_and!; try done; try lia.
    replace 2%nat with (length b1) by (unfold zlen in *; lia). by rewrite to_from_le_bytes.
  - intros (Hx & Hu & Hm & Hl & ->). pose proof (zlen_nonneg x). rewrite u16_small by lia.
    eexists (to_le_bytes 2 (zlen x)), _, x.
    split_and!; [done | exact (zlen_to_le_bytes 2 _) | | done].
    rewrite from_to_le_bytes_small by (cbn; lia).
    replace (max_len <? zlen x) with false by lia. exists x, x, [].
    rewrite Hu, app_nil_r. done.
Qed.

(** Decoder tables: [discriminant] inverts the byte of a variant. *)
Lemma grammar_discriminant {A} field (dec : Z -> result A Z) (enc : A -> Z) byte :
  (forall b x, dec b = Ok x <-> b = enc x) ->
  Grammar (discriminant field dec byte) (fun x bs => byte = enc x /\ bs = []).
Proof.
  intros H. unfold discriminant. intros r y r' Hr. destruct (dec byte) as [a |] eqn:E.
  - rewrite (grammar_ret a r y r' Hr). apply H in E. split; intros (bs & [-> ->] & Hs); exists [].
    + done.
    + split; [|done]. split; [|done].
      assert (dec (enc a) = Ok a) as Ea by (by apply H).
      assert (dec (enc y) = Ok y) as Ey by (by apply H). congruence.
  - rewrite (grammar_fail _ r y r' Hr). split; [by intros (? & [] & _) |].
    intros (bs & [-> _] & _). assert (dec (enc y) = Ok y) as Ey by (by apply H). congruence.
Qed.

#[export] Instance grammar_lease_state byte :
  Grammar (discriminant "state" SnapshotLeaseState_decode byte)
    (fun x bs => byte = SnapshotLeaseState_encode x /\ bs = []).
Proof.
  apply grammar_discriminant. intros b x. split.
  - unfold SnapshotLeaseState_decode. intros H. repeat case_match; simplify_eq; done.
  - intros ->. by destruct x.
Qed.

#[export] Instance grammar_error_code byte :
  Grammar (discriminant "code" SnapshotManagerErrorCode_decode byte)
    (fun x bs => byte = SnapshotManagerErrorCode_encode x /\ bs = []).
Proof.
  apply grammar_discriminant. intros b x. split.
  - unfold SnapshotManagerErrorCode_decode. intros H. repeat case_match; simplify_eq; done.
  - intros ->. by destruct x.
Qed.

(** * Messages *)

#[export] Instance grammar_array n :
  Grammar (read_array n) (fun x bs => (byte_list x /\ zlen x = n) /\ bs = x) | 0.
Proof. eapply grammar_ext; [apply grammar_take |]. cbn. naive_solver. Qed.

Definition VolumeIdentity_valid (v : VolumeIdentity) : Prop :=
  is_u64 (volume_serial v) /\ byte_list (volume_guid v) /\
  zlen (volume_guid v) <= MAX_IDENTIFIER_BYTES.

Definition CreateSnapshotLease_valid (c : CreateSnapshotLease) : Prop :=
  byte_list (authenticated_job_id c) /\ zlen (authenticated_job_id c) = 16 /\
  VolumeIdentity_valid (source_volume_identity c) /\
  byte_list (requested_root c) /\ zlen (requested_root c) <= MAX_PATH_BYTES /\
  is_u64 (maximum_lifetime_secs c) /\ is_u32 (policy_id c).

Definition CreateSnapshotLeaseResult_valid (c : CreateSnapshotLeaseResult) : Prop :=
  is_u64 (csr_snapshot_lease_id c) /\
  byte_list (csr_snapshot_id c) /\ zlen (csr_snapshot_id c) <= MAX_IDENTIFIER_BYTES /\
  byte_list (csr_snapshot_device_identity c) /\
  utf8_valid (csr_snapshot_device_identity c) = true /\
  zlen (csr_snapshot_device_identity c) <= 2048 /\
  is_i64 (csr_snapshot_created_at_unix_ms c) /\ is_i64 (csr_expires_at_unix_ms c).

Definition SnapshotLeaseStatus_valid (c : SnapshotLeaseStatus) : Prop :=
  is_u64 (sls_snapshot_lease_id c) /\
  byte_list (sls_snapshot_id c) /\ zlen (sls_snapshot_id c) <= MAX_IDENTIFIER_BYTES /\
  is_i64 (sls_created_at_unix_ms c) /\ is_i64 (sls_expires_at_unix_ms c).

(** The parts of a composed grammar give the record and its encoding. *)
Ltac grammar_parts :=
  repeat match goal with
  | H : exists _, _ |- _ => destruct H as [? H]
  | H : _ /\ _ |- _ => destruct H as [? H]
  end; simplify_eq.

(** The writers append. *)
Lemma write_bytes_app out x : write_bytes_u32_prefixed out x = out ++ write_bytes_u32_prefixed [] x.
Proof. unfold write_bytes_u32_prefixed, write_u32_le. by rewrite <- app_assoc. Qed.

Lemma write_string_app out x : write_string_u16_prefixed out x = out ++ write_string_u16_prefixed [] x.
Proof. unfold write_string_u16_prefixed, write_u16_le. by rewrite <- app_assoc. Qed.

Ltac wire_norm :=
  unfold write_u64_le, write_u32_le, write_i64_le, write_i32_le;
  rewrite ?(write_bytes_app (_ ++ _)), ?(write_string_app (_ ++ _));
  rewrite ?app_nil_r, ?app_nil_l, <- ?app_assoc.

(** A variant's byte is a byte. *)
Lemma SnapshotLeaseState_encode_u8 st : is_u8 (SnapshotLeaseState_encode st).
Proof. destruct st; cbn; lia. Qed.

Lemma SnapshotManagerErrorCode_encode_u8 c : is_u8 (SnapshotManagerErrorCode_encode c).
Proof. destruct c; cbn; lia. Qed.

Create HintDb wire.
#[export] Hint Extern 2 (_ <= SnapshotLeaseState_encode _) => apply SnapshotLeaseState_encode_u8 : wire.
#[export] Hint Extern 2 (SnapshotLeaseState_encode _ < _) => apply SnapshotLeaseState_encode_u8 : wire.
#[export] Hint Extern 2 (_ <= SnapshotManagerErrorCode_encode _) => apply SnapshotManagerErrorCode_encode_u8 : wire.
#[export] Hint Extern 2 (SnapshotManagerErrorCode_encode _ < _) => apply SnapshotManagerErrorCode_encode_u8 : wire.

(** A leaf of a grammar: its equation with the bytes fixes the value. *)
Ltac grammar_leaf :=
  first [ refine (conj _ eq_refl)
        | refine (conj _ (conj _ (conj _ eq_refl)))
        | refine (conj _ (conj _ (conj _ (conj _ eq_refl)))) ];
  unfold MAX_IDENTIFIER_BYTES, MAX_PATH_BYTES, MAX_MESSAGE_BYTES in *;
  repeat match goal with |- context [zlen ?l] =>
    lazymatch goal with H : 0 <= zlen l |- _ => fail | _ => pose proof (zlen_nonneg l) end end;
  split_and?; first [done | lia | by auto with wire].

(** Rebuild the parts of a record's grammar from its validity and encoding. *)
Ltac grammar_rebuild :=
  cbv beta;
  lazymatch goal with
  | |- exists a b1 b2, (_ = _ /\ b1 = []) /\ _ /\ ?y = b1 ++ b2 =>
      eexists _, [], y; split; [split; reflexivity | split; [grammar_rebuild | reflexivity]]
  | |- exists a b1 b2, _ /\ _ /\ ?x ++ ?y = b1 ++ b2 =>
      eexists _, x, y; split; [grammar_leaf | split; [grammar_rebuild | reflexivity]]
  | |- exists a b1 b2, _ /\ _ /\ ?x = b1 ++ b2 =>
      eexists _, x, []; split; [grammar_leaf | split; [split; reflexivity | by rewrite app_nil_r]]
  end.

(** A record's decoder accepts the encodings of its valid values. *)
Ltac grammar_record unfolds :=
  eapply grammar_ext; [apply _ |]; cbv beta; intros [] ? _; unfolds;
  cbn -[zlen app to_le_bytes Z.pow SnapshotLeaseState_encode]; split;
  [ intros ?; grammar_parts; wire_norm; done
  | intros ?; grammar_parts; wire_norm; grammar_rebuild ].

#[export] Instance grammar_volume_identity :
  Grammar VolumeIdentity_decode
    (fun v bs => VolumeIdentity_valid v /\ bs = VolumeIdentity_encode v []).
Proof. grammar_record ltac:(unfold VolumeIdentity_valid, VolumeIdentity_encode). Qed.

Lemma VolumeIdentity_encode_app v out :
  VolumeIdentity_encode v out = out ++ VolumeIdentity_encode v [].
Proof. unfold VolumeIdentity_encode. wire_norm. done. Qed.

#[export] Instance grammar_create :
  Grammar CreateSnapshotLease_decode
    (fun c bs => CreateSnapshotLease_valid c /\ bs = CreateSnapshotLease_encode c).
Proof.
  grammar_record ltac:(unfold CreateSnapshotLease_valid, CreateSnapshotLease_encode;
    rewrite VolumeIdentity_encode_app).
Qed.

#[export] Instance grammar_create_result :
  Grammar CreateSnapshotLeaseResult_decode
    (fun c bs => CreateSnapshotLeaseResult_valid c /\ bs = CreateSnapshotLeaseResult_encode c).
Proof.
  grammar_record ltac:(unfold CreateSnapshotLeaseResult_valid, CreateSnapshotLeaseResult_encode).
Qed.

#[export] Instance grammar_duplicate :
  Grammar DuplicateSnapshotHandle_decode
    (fun d bs => (is_u64 (dup_snapshot_lease_id d) /\ is_u32 (approved_reader_process_id d)) /\
                 bs = DuplicateSnapshotHandle_encode d).
Proof. grammar_record ltac:(unfold DuplicateSnapshotHandle_encode). Qed.

#[export] Instance grammar_renew :
  Grammar RenewSnapshotLease_decode
    (fun d bs => (is_u64 (renew_snapshot_lease_id d) /\ is_i64 (requested_expiry_unix_ms d)) /\
                 bs = RenewSnapshotLease_encode d).
Proof. grammar_record ltac:(unfold RenewSnapshotLease_encode). Qed.

#[export] Instance grammar_release :
  Grammar ReleaseSnapshotLease_decode
    (fun d bs => is_u64 (release_snapshot_lease_id d) /\ bs = ReleaseSnapshotLease_encode d).
Proof. grammar_record ltac:(unfold ReleaseSnapshotLease_encode). Qed.

#[export] Instance grammar_query :
  Grammar QuerySnapshotLease_decode
    (fun d bs => is_u64 (query_snapshot_lease_id d) /\ bs = QuerySnapshotLease_encode d).
Proof. grammar_record ltac:(unfold QuerySnapshotLease_encode). Qed.

#[export] Instance grammar_status :
  Grammar SnapshotLeaseStatus_decode
    (fun d bs => SnapshotLeaseStatus_valid d /\ bs = SnapshotLeaseStatus_encode d).
Proof.
  grammar_record ltac:(unfold SnapshotLeaseStatus_valid, SnapshotLeaseStatus_encode).
Qed.

(** * Envelopes *)

Definition SnapshotManagerRequest_valid (r : SnapshotManagerRequest) : Prop :=
  match r with
  | Create c => CreateSnapshotLease_valid c
  | Duplicate d => is_u64 (dup_snapshot_lease_id d) /\ is_u32 (approved_reader_process_id d)
  | Renew d => is_u64 (renew_snapshot_lease_id d) /\ is_i64 (requested_expiry_unix_ms d)
  | Release d => is_u64 (release_snapshot_lease_id d)
  | Query d => is_u64 (query_snapshot_lease_id d)
  end.

Definition SnapshotManagerResponse_valid (r : SnapshotManagerResponse) : Prop :=
  match r with
  | Created c => CreateSnapshotLeaseResult_valid c
  | Renewed v => is_i64 v
  | Status s => SnapshotLeaseStatus_valid s
  | Error _ hresult message =>
      match hresult with Some h => is_i32 h | None => True end /\
      byte_list message /\ utf8_valid message = true /\ zlen message <= MAX_MESSAGE_BYTES
  | Duplicated | ReleasedResponse => True
  end.

(** What a response decodes from: its encoding, with any nonzero presence byte. *)
Definition response_grammar (r : SnapshotManagerResponse) (bs : list Z) : Prop :=
  SnapshotManagerResponse_valid r /\
  match r with
  | Error code (Some h) message =>
      exists b, 0 < b < 256 /\
        bs = [5; SnapshotManagerErrorCode_encode code; b] ++ to_le_bytes 4 (u32 h) ++
             write_string_u16_prefixed [] message
  | _ => bs = SnapshotManagerResponse_encode r
  end.

(** A tag byte in front of a payload. *)
Lemma grammar_tagged {A} (payload : Z -> Dec A) P :
  (forall tag, is_u8 tag -> Grammar (payload tag) (fun x bs => P x (tag :: bs))) ->
  (forall x, ~ P x []) ->
  (forall x b bs, P x (b :: bs) -> is_u8 b) ->
  Grammar (let! tag := read_u8 in payload tag) P.
Proof.
  intros H Hn Hb r x r' Hr. split.
  - unfold bind. destruct (read_u8 r) as [[a m] |] eqn:E; [|done]. intros Hy.
    apply grammar in E as (b1 & [Ha ->] & H1); [|done].
    apply (H a Ha) in Hy as (b2 & HP & H2); [|by eapply parses_ok].
    exists (a :: b2). split; [done |]. apply (parses_app r [a] b2 r'). eauto.
  - intros ([|a bs] & HP & Hs); [by apply Hn in HP |].
    apply (parses_app r [a] bs r') in Hs as (m & H1 & H2). pose proof (Hb _ _ _ HP) as Ha.
    unfold bind. assert (read_u8 r = Ok (a, m)) as -> by (apply grammar; eauto).
    apply (H a Ha); [by eapply parses_ok | eauto].
Qed.

Ltac grammar_case :=
  eapply grammar_ext; [apply _ |]; cbv beta; intros r bs _; split;
  [ intros ?; grammar_parts; rewrite ?app_nil_r; done
  | intros [Hv He]; destruct r; try done; injection He as ->;
    cbv beta; eexists _, _, []; rewrite app_nil_r;
    split; [split; [exact Hv | reflexivity] | split; [split |]; reflexivity] ].

#[export] Instance grammar_request :
  Grammar request_body
    (fun r bs => SnapshotManagerRequest_valid r /\ bs = SnapshotManagerRequest_encode r).
Proof.
  apply grammar_tagged.
  - intros tag _. cbv beta.
    destruct (decide (tag = 0)) as [-> |]; [grammar_case |].
    destruct (decide (tag = 1)) as [-> |]; [grammar_case |].
    destruct (decide (tag = 2)) as [-> |]; [grammar_case |].
    destruct (decide (tag = 3)) as [-> |]; [grammar_case |].
    destruct (decide (tag = 4)) as [-> |]; [grammar_case |].
    eapply grammar_ext with (P := fun _ _ => False).
    + destruct tag as [|[[[]|[]|]|[[]|[]|]|]|]; done || apply _.
    + intros r bs _. split; [done |]. intros [_ H]. destruct r; cbn in H; congruence.
  - intros [] [_ H]; done.
  - intros [] b bs [_ H]; injection H as -> _; lia.
Qed.

Lemma grammar_error_response :
  Grammar
    (let! code_byte := read_u8 in
     let! code := discriminant "code" SnapshotManagerErrorCode_decode code_byte in
     let! hresult := read_optional_i32 in
     let! message := read_string_u16_prefixed "message" MAX_MESSAGE_BYTES in
     ret (Error code hresult message))
    (fun r bs => response_grammar r (5 :: bs)).
Proof.
  eapply grammar_ext; [apply _ |]. cbv beta. intros r bs _. split.
  - intros H. grammar_parts. rewrite app_nil_r. unfold response_grammar. destruct x5 as [v |].
    + destruct H4 as [Hv (b & Hb & ->)]. split; [done |]. exists b. done.
    + subst x6. split; [done |]. exact (eq_sym (write_string_app [5; _; 0] x8)).
  - intros [Hv He]. unfold MAX_MESSAGE_BYTES. pose proof SnapshotManagerErrorCode_encode_u8.
    destruct r as [| | | | |code h m]; cbn in He; grammar_parts.
    assert (exists w, match h with
      | Some v => is_i32 v /\ exists b, 0 < b < 256 /\ w = b :: to_le_bytes 4 (u32 v)
      | None => w = [0] end /\
      bs = [SnapshotManagerErrorCode_encode code] ++ w ++ write_string_u16_prefixed [] m)
      as (w & Hw & ->).
    { destruct h as [v |]; [cbn in He; grammar_parts |].
      - eexists (_ :: to_le_bytes 4 (u32 v)). split; [split; [apply Hv | eauto] | done].
      - exists [0]. split; [done |]. rewrite write_string_app in He. by injection He. }
    clear He. destruct Hv as (_ & Hm & Hu & Hl). unfold MAX_MESSAGE_BYTES in Hl.
    eexists _, [_], _. split; [split; [apply H | done] |]. split; [|done].
    eexists code, [], _. split; [done |]. split; [|done].
    exists h, w. eexists. split; [done |]. split; [|done].
    eexists m, _, []. rewrite app_nil_r. split_and!; try done. lia.
Qed.

(** The responses whose grammar is their encoding. *)
Ltac response_case :=
  eapply grammar_ext; [apply _ |]; cbv beta; intros r bs _; split;
  [ intros ?; grammar_parts; rewrite ?app_nil_r; done
  | intros [Hv He]; destruct r as [| | | | |? [] ?]; cbn in He; grammar_parts; try done;
    eexists _, _, []; rewrite app_nil_r;
    split; [split; [exact Hv | reflexivity] | split; [split |]; reflexivity] ].

Ltac response_unit :=
  eapply grammar_ext; [apply _ |]; cbv beta; intros r bs _; split;
  [ intros [-> ->]; done
  | intros [Hv He]; destruct r as [| | | | |? [] ?]; cbn in He; grammar_parts; done ].

#[export] Instance grammar_response : Grammar response_body response_grammar.
Proof.
  apply grammar_tagged.
  - intros tag _. cbv beta.
    destruct (decide (tag = 0)) as [-> |]; [response_case |].
    destruct (decide (tag = 1)) as [-> |]; [response_unit |].
    destruct (decide (tag = 2)) as [-> |]; [response_case |].
    destruct (decide (tag = 3)) as [-> |]; [response_unit |].
    destruct (decide (tag = 4)) as [-> |]; [response_case |].
    destruct (decide (tag = 5)) as [-> |]; [apply grammar_error_response |].
    eapply grammar_ext with (P := fun _ _ => False).
    + destruct tag as [|[[[]|[]|]|[[]|[]|]|]|]; done || apply _.
    + intros r bs _. split; [done |]. intros [_ H].
      destruct r as [| | | | |? [] ?]; cbn in H; naive_solver congruence.
  - intros r [_ H]. destruct r as [| | | | |? [] ?]; cbn in H; naive_solver.
  - intros r b bs [_ H]. destruct r as [| | | | |? [] ?]; cbn in H;
      grammar_parts; lia.
Qed.

(** * Theorems *)

Lemma decode_with_grammar {A} (d : Dec A) P `{!Grammar d P} bytes x :
  byte_list bytes ->
  decode_with d bytes = Ok x <-> exists bs rest, P x bs /\ bytes = bs ++ rest.
Proof.
  intros Hb. assert (reader_ok (reader_new bytes)) as Hr.
  { split; [cbn; pose proof (zlen_nonneg bytes); lia | done]. }
  unfold decode_with. split.
  - destruct (d (reader_new bytes)) as [[y m] |] eqn:E; [|done]. intros [= ->].
    apply grammar in E as (bs & HP & _ & Hg & _); [|done].
    apply get_range_Some in Hg as (_ & _ & Hg). cbn in Hg. rewrite drop_0 in Hg.
    exists bs. eexists. split; [done |]. rewrite Hg at 1. symmetry. apply take_drop.
  - intros (bs & rest & HP & ->).
    assert (d (reader_new (bs ++ rest)) = Ok (x, mkReader (bs ++ rest) (zlen bs))) as ->; [|done].
    apply grammar; [done |]. exists bs. split; [done |]. split_and!; try done.
    exact (get_range_mid [] bs rest 0 _ eq_refl eq_refl).
Qed.

Lemma response_encode_grammar r :
  SnapshotManagerResponse_valid r -> response_grammar r (SnapshotManagerResponse_encode r).
Proof.
  intros Hv. split; [done |]. destruct r as [| | | | |code [h |] m]; try done.
  exists 1. split; [lia |]. unfold SnapshotManagerResponse_encode, write_optional_i32.
  rewrite write_string_app. unfold write_i32_le. by rewrite <- !app_assoc.
Qed.

(** C27: a request decodes from a buffer exactly when the buffer starts with the
    encoding of that request and the request is within the protocol's bounds;
    whatever follows the encoding is ignored.  So encoding and decoding round-trip,
    no byte string decodes in two ways, and no strict prefix of an encoding
    decodes to the request it came from. *)
Theorem request_decode_exact bytes r :
  byte_list bytes ->
  SnapshotManagerRequest_decode bytes = Ok r <->
  SnapshotManagerRequest_valid r /\ exists rest, bytes = SnapshotManagerRequest_encode r ++ rest.
Proof.
  intros Hb. unfold SnapshotManagerRequest_decode.
  rewrite (decode_with_grammar request_body _ bytes r Hb). cbv beta. naive_solver.
Qed.

Lemma SnapshotManagerResponse_encode_bytes r :
  SnapshotManagerResponse_valid r -> byte_list (SnapshotManagerResponse_encode r).
Proof.
  pose proof (fun s => SnapshotLeaseState_encode_u8 s). pose proof SnapshotManagerErrorCode_encode_u8.
  destruct r as [[]| | | |[]|? [] ?]; cbn -[to_le_bytes app zlen Z.pow];
    unfold CreateSnapshotLeaseResult_valid, SnapshotLeaseStatus_valid,
      CreateSnapshotLeaseResult_encode, SnapshotLeaseStatus_encode, write_optional_i32,
      write_bytes_u32_prefixed, write_string_u16_prefixed, write_u16_le, write_u32_le, write_u64_le,
      write_i64_le, write_i32_le;
    intros Hv; grammar_parts; rewrite ?Forall_app, ?Forall_cons, ?Forall_nil; cbn in *;
    split_and?; first [done | apply to_le_bytes_byte | lia | apply H | apply H0 | idtac].
Qed.

Lemma zset_third {A} (x y z b : A) l : zset (x :: y :: z :: l) 2 b = x :: y :: b :: l.
Proof.
  unfold zset. rewrite !zlen_cons. pose proof (zlen_nonneg l).
  by replace ((0 <=? 2) && (2 <? 1 + (1 + (1 + zlen l)))) with true by lia.
Qed.

(** A response within the protocol's bounds decodes back from its encoding,
    whatever follows; and whatever a buffer decodes to is within the bounds, the
    buffer starting with its encoding up to the presence byte of an error's
    [hresult], for which any nonzero value is read as present. *)
Theorem response_roundtrip r :
  (SnapshotManagerResponse_valid r -> forall rest, byte_list rest ->
     SnapshotManagerResponse_decode (SnapshotManagerResponse_encode r ++ rest) = Ok r) /\
  (forall bytes, byte_list bytes -> SnapshotManagerResponse_decode bytes = Ok r ->
     SnapshotManagerResponse_valid r /\
     exists bs rest, bytes = bs ++ rest /\
       (bs = SnapshotManagerResponse_encode r \/
        exists code h m b, r = Error code (Some h) m /\ 0 < b < 256 /\
          bs = zset (SnapshotManagerResponse_encode r) 2 b)).
Proof.
  unfold SnapshotManagerResponse_decode. split.
  - intros Hv rest Hr. apply (decode_with_grammar response_body response_grammar).
    + by apply Forall_app, conj; [apply SnapshotManagerResponse_encode_bytes |].
    + eauto using response_encode_grammar.
  - intros bytes Hb (bs & rest & [Hv HP] & ->)%(decode_with_grammar response_body response_grammar);
      [|done]. split; [done |]. exists bs, rest. split; [done |].
    destruct r as [| | | | |code [h |] m]; eauto.
    destruct HP as (b & Hb' & ->). right. exists code, h, m, b. split; [done |]. split; [done |].
    unfold SnapshotManagerResponse_encode, write_optional_i32.
    rewrite (write_string_app (write_i32_le _ _)). unfold write_i32_le. rewrite <- !app_assoc.
    symmetry. apply zset_third.
Qed.

(** ** Witnesses *)

Definition sample_create : SnapshotManagerRequest :=
  Create (mkCreateSnapshotLease (replicate 16 1)
    (mkVolumeIdentity 0x0102030405060708 [123; 65; 65; 125])
    [67; 0; 58; 0; 92; 0] 3600 1).

Lemma request_decode_exact_witness :
  SnapshotManagerRequest_decode (SnapshotManagerRequest_encode sample_create ++ [7; 7]) =
  Ok sample_create.
Proof.
  apply request_decode_exact.
  - repeat (apply Forall_cons; split; [by_eval |]). exact (Forall_nil_2 _).
  - split; [|by eexists]. cbn. unfold CreateSnapshotLease_valid, VolumeIdentity_valid.
    cbn -[Z.pow]. split_and!; try (by_eval); forall_eval.
Defined.

Lemma response_roundtrip_witness :
  SnapshotManagerResponse_decode
    (SnapshotManagerResponse_encode (Error LeaseNotFound (Some (-5)) [111; 107]) ++ [9]) =
    Ok (Error LeaseNotFound (Some (-5)) [111; 107]) /\
  SnapshotManagerResponse_valid Duplicated.
Proof.
  split.
  - apply (proj1 (response_roundtrip _)); [|forall_eval].
    split; [by_eval |]. split; [forall_eval | by_eval].
  - apply (proj2 (response_roundtrip Duplicated) [1; 4]); [forall_eval | by_eval].
Defined.
