(* ===== verification/SnapshotLeases.v ===== *)
(** Snapshot leases of the Broker: [crates/uffs-broker/src/snapshot_lease.rs] and
    the request dispatch of [broker/snapshot_manager/mod.rs].

    The VSS backend is a class over its state, as the source's [VssProvider] trait
    is an interface over a backend; [VssLaws] is what the lease manager relies on, and
    the file VssHelper has the Broker's own backend as an instance of both.
    A method is a function on the manager's state; because methods take the lease
    lock more than once, their locked sections are also the steps of a relation,
    so that the invariants hold under every interleaving of connections.  Sweeps
    visit a [HashMap], so each takes the order of its visit. *)
From stdpp Require Import strings pretty.
From S2P Require Import Prelude SnapshotCodec.
Open Scope Z_scope.
Open Scope rust_scope.

(** * Data *)

Record SnapshotHandle := mkSnapshotHandle {
  h_snapshot_id : list Z;
  h_device_identity : list Z
}.

(** A [String] is its UTF-8 bytes. *)
Inductive VssError :=
| InvalidVolume (message : list Z)
| CreateFailed (hresult : option Z) (message : list Z)
| DeleteFailed (message : list Z).

Inductive LeaseError :=
| NotFound
| NotActive
| Vss (e : VssError).

Record CreatedLease := mkCreatedLease {
  cl_lease_id : Z;
  cl_snapshot_id : list Z;
  cl_device_identity : list Z;
  cl_created_at_unix_ms : Z;
  cl_expires_at_unix_ms : Z
}.

Record LeaseStatus := mkLeaseStatus {
  st_state : SnapshotLeaseState;
  st_snapshot_id : list Z;
  st_created_at_unix_ms : Z;
  st_expires_at_unix_ms : Z
}.

Inductive RecordState := RActive | RExpired | RReleased.

#[export] Instance RecordState_eq_dec : EqDecision RecordState.
Proof. solve_decision. Defined.

Definition to_wire (s : RecordState) : SnapshotLeaseState :=
  match s with RActive => Active | RExpired => Expired | RReleased => Released end.

Record LeaseRecord := mkLeaseRecord {
  snapshot_id : list Z;
  device_identity : list Z;
  created_at_unix_ms : Z;
  expires_at_unix_ms : Z;
  state : RecordState
}.

Definition set_expiry (r : LeaseRecord) (e : Z) : LeaseRecord :=
  mkLeaseRecord (snapshot_id r) (device_identity r) (created_at_unix_ms r) e (state r).
Definition set_state (r : LeaseRecord) (s : RecordState) : LeaseRecord :=
  mkLeaseRecord (snapshot_id r) (device_identity r) (created_at_unix_ms r)
    (expires_at_unix_ms r) s.

(** The [VssProvider] trait: each call may change the backend. *)
Class VssProvider (W : Type) := {
  create_snapshot : W -> VolumeIdentity -> list Z -> result SnapshotHandle VssError * W;
  delete_snapshot : W -> list Z -> result unit VssError * W;
  list_existing_snapshots : W -> result (list (list Z)) VssError * W
}.

Record SnapshotLeaseManager (W : Type) := mkManager {
  provider : W;
  next_lease_id : Z;
  leases : gmap Z LeaseRecord
}.
Arguments mkManager {W}.
Arguments provider {W}.
Arguments next_lease_id {W}.
Arguments leases {W}.

(** [i64::try_from(secs.saturating_mul(1000)).unwrap_or(i64::MAX)]. *)
Definition I64_MAX : Z := 2 ^ 63 - 1.
Definition secs_to_ms_saturating (secs : Z) : Z :=
  let ms := saturating_mul_u64 secs 1000 in if ms <=? I64_MAX then ms else I64_MAX.
Definition saturating_add_i64 (a b : Z) : Z := Z.max (- 2 ^ 63) (Z.min I64_MAX (a + b)).

(** * Operations *)

Section manager.
Context {W : Type} `{!VssProvider W}.
Implicit Types m : SnapshotLeaseManager W.

Definition manager_new (p : W) : SnapshotLeaseManager W := mkManager p 1 ∅.

(** One visit of the sweep's [values_mut] loop. *)
Definition sweep_one (now_unix_ms : Z) (m : SnapshotLeaseManager W) (lease_id : Z)
  : SnapshotLeaseManager W :=
  match leases m !! lease_id with
  | None => m
  | Some record =>
      if bool_decide (state record = RActive) && (expires_at_unix_ms record <=? now_unix_ms) then
        let (_, w) := delete_snapshot (provider m) (snapshot_id record) in
        mkManager w (next_lease_id m) (<[lease_id := set_state record RExpired]> (leases m))
      else m
  end.

(** [order]: the keys in the order the map is iterated in. *)
Definition sweep_expired (order : list Z) (now_unix_ms : Z) (m : SnapshotLeaseManager W) :=
  foldl (sweep_one now_unix_ms) m order.

Definition visits_all (order : list Z) (m : SnapshotLeaseManager W) : Prop :=
  order ≡ₚ (map_to_list (leases m)).*1.

(** The record a successful [create_snapshot] is leased under. *)
Definition new_record (handle : SnapshotHandle) (maximum_lifetime_secs now_unix_ms : Z)
  : LeaseRecord :=
  mkLeaseRecord (h_snapshot_id handle) (h_device_identity handle) now_unix_ms
    (saturating_add_i64 now_unix_ms (secs_to_ms_saturating maximum_lifetime_secs)) RActive.

Definition fetch_add_lease_id (m : SnapshotLeaseManager W) : Z * SnapshotLeaseManager W :=
  (next_lease_id m, mkManager (provider m) (next_lease_id m +w 1) (leases m)).

Definition insert_lease (lease_id : Z) (r : LeaseRecord) (m : SnapshotLeaseManager W) :=
  mkManager (provider m) (next_lease_id m) (<[lease_id := r]> (leases m)).

Definition create_lease (order : list Z) (volume : VolumeIdentity) (requested_root : list Z)
    (maximum_lifetime_secs now_unix_ms : Z) (m : SnapshotLeaseManager W)
  : result CreatedLease LeaseError * SnapshotLeaseManager W :=
  let m := sweep_expired order now_unix_ms m in
  let (handle, w) := create_snapshot (provider m) volume requested_root in
  let m := mkManager w (next_lease_id m) (leases m) in
  match handle with
  | Err e => (Err (Vss e), m)
  | Ok handle =>
      let (lease_id, m) := fetch_add_lease_id m in
      let record := new_record handle maximum_lifetime_secs now_unix_ms in
      let m := insert_lease lease_id record m in
      (Ok (mkCreatedLease lease_id (h_snapshot_id handle) (h_device_identity handle) now_unix_ms
             (expires_at_unix_ms record)), m)
  end.

(** [renew_lease] from the second lock on. *)
Definition renew_locked (lease_id requested_expiry_unix_ms : Z) (m : SnapshotLeaseManager W)
  : result Z LeaseError * SnapshotLeaseManager W :=
  match leases m !! lease_id with
  | None => (Err NotFound, m)
  | Some record =>
      if bool_decide (state record <> RActive) then (Err NotActive, m) else
      (Ok requested_expiry_unix_ms,
       mkManager (provider m) (next_lease_id m)
         (<[lease_id := set_expiry record requested_expiry_unix_ms]> (leases m)))
  end.

Definition renew_lease (order : list Z) (lease_id requested_expiry_unix_ms now_unix_ms : Z)
    (m : SnapshotLeaseManager W) : result Z LeaseError * SnapshotLeaseManager W :=
  renew_locked lease_id requested_expiry_unix_ms (sweep_expired order now_unix_ms m).

Definition release_lease (lease_id : Z) (m : SnapshotLeaseManager W)
  : result unit LeaseError * SnapshotLeaseManager W :=
  match leases m !! lease_id with
  | None => (Err NotFound, m)
  | Some record =>
      if bool_decide (state record <> RActive) then (Ok tt, m) else
      let (deleted, w) := delete_snapshot (provider m) (snapshot_id record) in
      match deleted with
      | Err e => (Err (Vss e), mkManager w (next_lease_id m) (leases m))
      | Ok _ =>
          (Ok tt,
           mkManager w (next_lease_id m) (<[lease_id := set_state record RReleased]> (leases m)))
      end
  end.

Definition query_lease (order : list Z) (lease_id now_unix_ms : Z) (m : SnapshotLeaseManager W)
  : option LeaseStatus * SnapshotLeaseManager W :=
  let m := sweep_expired order now_unix_ms m in
  match leases m !! lease_id with
  | None => (None, m)
  | Some record =>
      (Some (mkLeaseStatus (to_wire (state record)) (snapshot_id record)
               (created_at_unix_ms record) (expires_at_unix_ms record)), m)
  end.

Definition device_identity_if_active (order : list Z) (lease_id now_unix_ms : Z)
    (m : SnapshotLeaseManager W) : option (list Z) * SnapshotLeaseManager W :=
  let m := sweep_expired order now_unix_ms m in
  match leases m !! lease_id with
  | None => (None, m)
  | Some record =>
      (if bool_decide (state record = RActive) then Some (device_identity record) else None, m)
  end.

(** [existing.iter().filter(delete is ok).count()]. *)
Fixpoint delete_each (ids : list (list Z)) (w : W) : Z * W :=
  match ids with
  | [] => (0, w)
  | id :: ids =>
      let (deleted, w) := delete_snapshot w id in
      let (n, w) := delete_each ids w in
      (match deleted with Ok _ => 1 + n | Err _ => n end, w)
  end.

Definition reconcile_at_startup (m : SnapshotLeaseManager W)
  : result Z VssError * SnapshotLeaseManager W :=
  let (existing, w) := list_existing_snapshots (provider m) in
  match existing with
  | Err e => (Err e, mkManager w (next_lease_id m) (leases m))
  | Ok existing =>
      let (n, w) := delete_each existing w in
      (Ok n, mkManager w (next_lease_id m) (leases m))
  end.

End manager.

(** * What the backend promises *)

(** [retained]: the snapshots the backend holds; [issued]: the identifiers that can no
    longer be handed out, those handed out so far among them; [undeleted]: those whose deletion ever failed.  Identifiers are GUIDs, never
    handed out twice; a deletion that succeeds removes its snapshot, one that fails may
    have removed it all the same; a listing names snapshots the backend holds, not
    necessarily all of them.  The file VssHelper has the instance for the Broker's own
    backend. *)
Class VssLaws (W : Type) `{!VssProvider W} := {
  retained : W -> gset (list Z);
  issued : W -> gset (list Z);
  undeleted : W -> gset (list Z);
  create_snapshot_law w volume root :
    match create_snapshot w volume root with
    | (Ok h, w') =>
        (h_snapshot_id h ∉ issued w) /\
        retained w' = {[ h_snapshot_id h ]} ∪ retained w /\
        {[ h_snapshot_id h ]} ∪ issued w ⊆ issued w' /\ undeleted w' = undeleted w
    | (Err _, w') => retained w' = retained w /\ issued w ⊆ issued w' /\ undeleted w' = undeleted w
    end;
  delete_snapshot_law w id :
    match delete_snapshot w id with
    | (Ok _, w') => retained w' = retained w ∖ {[ id ]} /\ issued w ⊆ issued w' /\ undeleted w' = undeleted w
    | (Err _, w') =>
        (retained w' = retained w \/ retained w' = retained w ∖ {[ id ]}) /\
        issued w ⊆ issued w' /\ undeleted w' = {[ id ]} ∪ undeleted w
    end;
  list_existing_snapshots_law w :
    match list_existing_snapshots w with
    | (Ok ids, w') =>
        (forall id, id ∈ ids -> id ∈ retained w) /\
        retained w' = retained w /\ issued w ⊆ issued w' /\ undeleted w' = undeleted w
    | (Err _, w') => retained w' = retained w /\ issued w ⊆ issued w' /\ undeleted w' = undeleted w
    end
}.

(** * Interleavings *)

(** A connection between [create_snapshot] and the insertion of its lease. *)
Inductive Pending :=
| Snapped (h : SnapshotHandle) (maximum_lifetime_secs now_unix_ms : Z)
| Numbered (lease_id : Z) (h : SnapshotHandle) (maximum_lifetime_secs now_unix_ms : Z).

Definition pending_handle (p : Pending) : SnapshotHandle :=
  match p with Snapped h _ _ | Numbered _ h _ _ => h end.

Definition pending_id (p : Pending) : option Z :=
  match p with Snapped _ _ _ => None | Numbered i _ _ _ => Some i end.

Record World (W : Type) := mkWorld {
  mgr : SnapshotLeaseManager W;
  threads : gmap nat Pending
}.
Arguments mkWorld {W}.
Arguments mgr {W}.
Arguments threads {W}.

Section steps.
Context {W : Type} `{!VssProvider W}.

(** The atomic sections of the methods: what runs under one lock of the lease map,
    one backend call or one atomic operation of the counter.  Fewer than [2^64 - 1]
    leases are created. *)
Inductive step : World W -> World W -> Prop :=
| StepSweep order now m ts :
    visits_all order m ->
    step (mkWorld m ts) (mkWorld (sweep_expired order now m) ts)
| StepCreateFailed volume root e p m ts :
    create_snapshot (provider m) volume root = (Err e, p) ->
    step (mkWorld m ts) (mkWorld (mkManager p (next_lease_id m) (leases m)) ts)
| StepCreateSnapshot t volume root h p life now m ts :
    ts !! t = None ->
    create_snapshot (provider m) volume root = (Ok h, p) ->
    step (mkWorld m ts)
      (mkWorld (mkManager p (next_lease_id m) (leases m)) (<[t := Snapped h life now]> ts))
| StepFetchAdd t h life now m ts :
    ts !! t = Some (Snapped h life now) ->
    next_lease_id m < 2 ^ 64 - 1 ->
    step (mkWorld m ts)
      (mkWorld (fetch_add_lease_id m).2
         (<[t := Numbered (fetch_add_lease_id m).1 h life now]> ts))
| StepInsert t lease_id h life now m ts :
    ts !! t = Some (Numbered lease_id h life now) ->
    step (mkWorld m ts) (mkWorld (insert_lease lease_id (new_record h life now) m) (delete t ts))
| StepRenew lease_id expiry m ts :
    step (mkWorld m ts) (mkWorld (renew_locked lease_id expiry m).2 ts)
| StepRelease lease_id m ts :
    step (mkWorld m ts) (mkWorld (release_lease lease_id m).2 ts).

Definition initial (p : W) : World W := mkWorld (manager_new p) ∅.
Definition reachable (p : W) (w : World W) : Prop := rtc step (initial p) w.

(** ** Lease numbers *)

(** Who has drawn a number: a lease, or a connection about to insert one. *)
Definition numbered (w : World W) (k : Z + nat) (i : Z) : Prop :=
  match k with
  | inl id => id = i /\ is_Some (leases (mgr w) !! id)
  | inr t => exists p, threads w !! t = Some p /\ pending_id p = Some i
  end.

Definition numbers_ok (w : World W) : Prop :=
  1 <= next_lease_id (mgr w) < 2 ^ 64 /\
  (forall k i, numbered w k i -> 1 <= i < next_lease_id (mgr w)) /\
  (forall k j i, numbered w k i -> numbered w j i -> k = j).

(** A section that keeps the keys of the map keeps the numbers. *)
Definition same_keys (m m' : SnapshotLeaseManager W) : Prop :=
  next_lease_id m' = next_lease_id m /\
  forall i, is_Some (leases m' !! i) <-> is_Some (leases m !! i).

#[export] Instance same_keys_preorder : PreOrder same_keys.
Proof.
  split; [done |]. intros a b c [H1 H2] [H3 H4]. split; [congruence |].
  intros i. by rewrite H4, H2.
Qed.

Lemma same_keys_insert m p i r r' :
  leases m !! i = Some r -> same_keys m (mkManager p (next_lease_id m) (<[i := r']> (leases m))).
Proof.
  intros H. split; [done |]. intros j. cbn. destruct (decide (i = j)) as [<- |].
  - rewrite lookup_insert_eq, H. split; eauto.
  - by rewrite lookup_insert_ne.
Qed.

Lemma sweep_one_keys now m i : same_keys m (sweep_one now m i).
Proof.
  unfold sweep_one. destruct (leases m !! i) as [r |] eqn:E; [|done].
  destruct (_ && _); [|done]. destruct (delete_snapshot _ _) as [d p].
  by eapply same_keys_insert.
Qed.

Lemma sweep_expired_keys order now m : same_keys m (sweep_expired order now m).
Proof.
  unfold sweep_expired. revert m. induction order as [|i order IH]; intros m; cbn; [done |].
  transitivity (sweep_one now m i); [apply sweep_one_keys | apply IH].
Qed.

Lemma renew_keys i e m : same_keys m (renew_locked i e m).2.
Proof.
  unfold renew_locked. destruct (leases m !! i) eqn:E; [|done].
  case_bool_decide; [done |]. by eapply same_keys_insert.
Qed.

Lemma release_keys i m : same_keys m (release_lease i m).2.
Proof.
  unfold release_lease. destruct (leases m !! i) eqn:E; [|done].
  case_bool_decide; [done |]. destruct (delete_snapshot _ _) as [[] p]; [|done].
  by eapply same_keys_insert.
Qed.

Lemma numbers_ok_keys m m' ts :
  same_keys m m' -> numbers_ok (mkWorld m ts) -> numbers_ok (mkWorld m' ts).
Proof.
  intros [Hn Hk] (H1 & H2 & H3). unfold numbers_ok. cbn in *. rewrite Hn.
  assert (forall k i, numbered (mkWorld m' ts) k i -> numbered (mkWorld m ts) k i) as Hnum.
  { intros [id | t] i; cbn; [by rewrite Hk | done]. }
  split; [done |]. split; eauto.
Qed.

Lemma numbers_ok_step w w' : step w w' -> numbers_ok w -> numbers_ok w'.
Proof.
  intros Hs Hok. destruct Hs as [order now m ts _ | volume root e p m ts _ |
    t volume root h p life now m ts Ht _ | t h life now m ts Ht Hn | t i h life now m ts Ht | | ].
  - eapply numbers_ok_keys, Hok. apply sweep_expired_keys.
  - eapply numbers_ok_keys, Hok. done.
  - destruct Hok as (H1 & H2 & H3). unfold numbers_ok. cbn in *.
    assert (forall k i, numbered (mkWorld (mkManager p (next_lease_id m) (leases m))
      (<[t:=Snapped h life now]> ts)) k i -> numbered (mkWorld m ts) k i) as Hnum.
    { intros [id | u] i; cbn; [done |]. intros (q & Hq & Hi).
      apply lookup_insert_Some in Hq as [[<- <-] | [_ Hq]]; [done | eauto]. }
    split; [done |]. split; eauto.
  - destruct Hok as (H1 & H2 & H3). unfold numbers_ok. cbn in *. rewrite u64_small by lia.
    assert (forall k i, numbered (mkWorld (mkManager (provider m) (next_lease_id m + 1) (leases m))
      (<[t:=Numbered (next_lease_id m) h life now]> ts)) k i ->
      numbered (mkWorld m ts) k i \/ (k = inr t /\ i = next_lease_id m)) as Hnum.
    { intros [id | u] i; cbn; [by left |]. intros (q & Hq & Hi).
      apply lookup_insert_Some in Hq as [[<- <-] | [_ Hq]]; [| left; eauto].
      right. cbn in Hi. naive_solver. }
    split; [lia |]. split.
    + intros k i [Hk | [-> ->]]%Hnum; [apply H2 in Hk; lia | lia].
    + intros k j i [Hk | [-> ->]]%Hnum [Hj | [-> Ej]]%Hnum; [eauto | | | done].
      * apply H2 in Hk. lia.
      * apply H2 in Hj. lia.
  - destruct Hok as (H1 & H2 & H3). unfold numbers_ok. cbn in *.
    assert (numbered (mkWorld m ts) (inr t) i) as Hti by (cbn; eauto).
    assert (forall k j, numbered (mkWorld (insert_lease i (new_record h life now) m)
      (delete t ts)) k j -> (k = inl i /\ j = i) \/ (k <> inr t /\ numbered (mkWorld m ts) k j)) as Hnum.
    { intros [id | u] j; cbn.
      - intros [-> Hj]. destruct (decide (i = j)) as [<- |]; [by left |].
        rewrite lookup_insert_ne in Hj by done. eauto.
      - intros (q & Hq & Hj). apply lookup_delete_Some in Hq as [Hu Hq]. right. split; [congruence | eauto]. }
    split; [done |]. split.
    + intros k j [[-> ->] | [_ Hk]]%Hnum; eauto.
    + intros k j l [[-> ->] | [Nk Hk]]%Hnum [[-> El] | [Nj Hj]]%Hnum.
      * done.
      * destruct Nj. eauto.
      * subst l. destruct Nk. eauto.
      * eauto.
  - eapply numbers_ok_keys, Hok. apply renew_keys.
  - eapply numbers_ok_keys, Hok. apply release_keys.
Qed.

Lemma numbers_ok_initial p : numbers_ok (initial p).
Proof.
  assert (forall k i, ~ numbered (initial p) k i) as Hn.
  { intros [id | t] i; cbn.
    - rewrite lookup_empty. intros [_ [r Hr]]. done.
    - intros (q & Hq & _). by rewrite lookup_empty in Hq. }
  split; [cbn; lia |]. split.
  - intros k i Hk. by destruct (Hn k i).
  - intros k j i Hk. by destruct (Hn k i).
Qed.

Lemma numbers_ok_reachable w w' : rtc step w w' -> numbers_ok w -> numbers_ok w'.
Proof. induction 1; eauto using numbers_ok_step. Qed.

(** The number of an insertion is not yet a lease. *)
Lemma insert_fresh w t i h life now :
  numbers_ok w -> threads w !! t = Some (Numbered i h life now) -> leases (mgr w) !! i = None.
Proof.
  intros (_ & _ & H3) Ht. destruct (leases (mgr w) !! i) eqn:E; [|done].
  assert (inl i = inr t) by (eapply H3; cbn; eauto). done.
Qed.

End steps.

(** * The ledger: what the lease manager promises *)

(** Who answers for which snapshot: a lease, by its identifier, or a connection
    that has its snapshot but not yet its lease; with the snapshots that exist, the
    identifiers no longer free and those whose deletion failed. *)
Record Ledger := mkLedger {
  holder : Z + nat -> option (list Z * RecordState);
  kept : gset (list Z);
  drawn : gset (list Z);
  botched : gset (list Z)
}.

Definition update {A} (f : Z + nat -> A) (k : Z + nat) (x : A) : Z + nat -> A :=
  fun j => if decide (j = k) then x else f j.

Definition ledger_is (l : Ledger) (f : Z + nat -> option (list Z * RecordState))
    (ret iss fld : gset (list Z)) : Prop :=
  (forall k, holder l k = f k) /\ kept l = ret /\ iss ⊆ drawn l /\ botched l = fld.

(** A deletion of [s]: it succeeds and the snapshot is gone, or it fails, which is noted,
    and the snapshot is there or gone. *)
Definition deletion (l : Ledger) (s : list Z) (ret fld : gset (list Z)) : Prop :=
  (ret = kept l ∖ {[ s ]} /\ fld = botched l) \/
  ((ret = kept l \/ ret = kept l ∖ {[ s ]}) /\ fld = {[ s ]} ∪ botched l).

(** A new snapshot gets a holder; a holder hands its snapshot to the lease; a lease
    expires, whether its deletion succeeds or fails; a lease is released, its snapshot
    deleted; a release fails with the deletion, and the lease stays active. *)
Inductive ledger_step (l l' : Ledger) : Prop :=
| LNew k s :
    holder l k = None -> (s ∉ drawn l) ->
    ledger_is l' (update (holder l) k (Some (s, RActive))) ({[ s ]} ∪ kept l) ({[ s ]} ∪ drawn l) (botched l) ->
    ledger_step l l'
| LMove k k' x :
    holder l k = Some x -> holder l k' = None ->
    ledger_is l' (update (update (holder l) k None) k' (Some x)) (kept l) (drawn l) (botched l) ->
    ledger_step l l'
| LExpire k s ret fld :
    holder l k = Some (s, RActive) -> deletion l s ret fld ->
    ledger_is l' (update (holder l) k (Some (s, RExpired))) ret (drawn l) fld ->
    ledger_step l l'
| LRelease k s :
    holder l k = Some (s, RActive) ->
    ledger_is l' (update (holder l) k (Some (s, RReleased))) (kept l ∖ {[ s ]}) (drawn l) (botched l) ->
    ledger_step l l'
| LFail k s ret :
    holder l k = Some (s, RActive) -> ret = kept l \/ ret = kept l ∖ {[ s ]} ->
    ledger_is l' (holder l) ret (drawn l) ({[ s ]} ∪ botched l) ->
    ledger_step l l'
| LSame :
    ledger_is l' (holder l) (kept l) (drawn l) (botched l) -> ledger_step l l'.

(** No two holders answer for one snapshot; the snapshot of an active holder exists, or a
    deletion of it failed; that of a released lease does not exist; a snapshot that exists
    was there at the start or has a holder, which is active, or expired with a failed
    deletion, and not released. *)
Definition ledger_ok (start : gset (list Z)) (l : Ledger) : Prop :=
  (forall k j s a b, holder l k = Some (s, a) -> holder l j = Some (s, b) -> k = j) /\
  (forall k s a, holder l k = Some (s, a) -> s ∈ drawn l) /\
  (forall k s, holder l k = Some (s, RActive) -> s ∈ kept l \/ s ∈ botched l) /\
  (forall k s, holder l k = Some (s, RReleased) -> s ∉ kept l) /\
  (forall s, s ∈ kept l -> s ∈ start \/
     exists k a, holder l k = Some (s, a) /\ a <> RReleased /\ (a = RExpired -> s ∈ botched l)).

Lemma update_Some {A} (f : Z + nat -> option A) k x j y :
  update f k x j = Some y -> (j = k /\ x = Some y) \/ (j <> k /\ f j = Some y).
Proof. unfold update. case_decide; eauto. Qed.

Lemma update_eq {A} (f : Z + nat -> A) k x : update f k x k = x.
Proof. unfold update. by case_decide. Qed.
Lemma update_ne {A} (f : Z + nat -> A) k j x : j <> k -> update f k x j = f j.
Proof. unfold update. by case_decide. Qed.

(** A holder of [s] changes its state, or keeps it, with a deletion of [s]. *)
Lemma ledger_ok_retire start l l' k s b ret fld :
  ledger_ok start l -> holder l k = Some (s, RActive) -> deletion l s ret fld ->
  (b = RActive -> s ∈ fld) -> (b = RReleased -> ret = kept l ∖ {[ s ]}) ->
  ledger_is l' (update (holder l) k (Some (s, b))) ret (drawn l) fld -> ledger_ok start l'.
Proof.
  intros (O1 & O2 & O3 & O4 & O5) Hk Hd Hact Hrel (E1 & E2 & E3 & E4).
  unfold ledger_ok. setoid_rewrite E1. rewrite E2, E4.
  assert (Hh : forall j t a, update (holder l) k (Some (s, b)) j = Some (t, a) ->
    (j = k /\ t = s /\ a = b) \/ (j <> k /\ t <> s /\ holder l j = Some (t, a))).
  { intros j t a [[-> [= -> ->]] | [Hj Ht]]%update_Some; [by left |]. right.
    split_and!; [done | | done]. intros ->. apply Hj. by eapply O1. }
  assert (Hin : forall t, t ∈ drawn l -> t ∈ drawn l') by set_solver.
  assert (Hr : ret ⊆ kept l) by (destruct Hd as [[-> _] | [[-> | ->] _]]; set_solver).
  assert (Hr' : forall t, t <> s -> t ∈ kept l -> t ∈ ret)
    by (destruct Hd as [[-> _] | [[-> | ->] _]]; set_solver).
  assert (Hf : botched l ⊆ fld) by (destruct Hd as [[_ ->] | [_ ->]]; set_solver).
  assert (Hs : s ∈ ret -> s ∈ fld) by (destruct Hd as [[-> _] | [_ ->]]; set_solver).
  split_and!.
  - intros i j t a c Hi Hj. apply Hh in Hi as [(-> & -> & _) | (? & ? & Hi)];
      apply Hh in Hj as [(-> & ? & _) | (? & ? & Hj)]; naive_solver.
  - intros j t a [(_ & -> & _) | (_ & _ & Hj)]%Hh; eauto.
  - intros j t [(_ & -> & <-) | (_ & Ht & Hj)]%Hh; [right; auto |]. destruct (O3 j t Hj); [left | right]; auto.
  - intros j t [(_ & -> & <-) | (_ & _ & Hj)]%Hh.
    + rewrite Hrel by done. set_solver.
    + apply O4 in Hj. set_solver.
  - intros t Ht. destruct (O5 t) as [? | (j & a & Hj & Ha & Hx)]; [set_solver | by left | right].
    destruct (decide (j = k)) as [-> |].
    + exists k, b. rewrite update_eq. rewrite Hk in Hj. injection Hj as <- <-. split_and!; [done | | auto].
      intros ->. rewrite Hrel in Ht by done. set_solver.
    + exists j, a. rewrite update_ne by done. split_and!; auto.
Qed.

Lemma update_same (f : Z + nat -> option (list Z * RecordState)) k x : f k = x -> forall j, update f k x j = f j.
Proof. intros H j. unfold update. case_decide; congruence. Qed.

Lemma ledger_ok_step start l l' : ledger_step l l' -> ledger_ok start l -> ledger_ok start l'.
Proof.
  intros Hs Hok. destruct Hs as [k s Hk Hn E | k k' [s a] Hk Hk' E | k s ret fld Hk Hr E | k s Hk E | k s ret Hk Hr E | E].
  - destruct Hok as (O1 & O2 & O3 & O4 & O5), E as (E1 & E2 & E3 & E4).
    unfold ledger_ok. setoid_rewrite E1. rewrite E2, E4.
    assert (Hh : forall j t a, update (holder l) k (Some (s, RActive)) j = Some (t, a) ->
      (j = k /\ t = s /\ a = RActive) \/ (j <> k /\ t <> s /\ holder l j = Some (t, a))).
    { intros j t a [[-> [= -> ->]] | [Hj Ht]]%update_Some; [by left |]. right.
      split_and!; [done | | done]. intros ->. apply Hn. by eapply O2. }
    split_and!.
    + intros i j t a c Hi Hj. apply Hh in Hi as [(-> & -> & _) | (? & ? & Hi)];
        apply Hh in Hj as [(-> & ? & _) | (? & ? & Hj)]; naive_solver.
    + intros j t a [(_ & -> & _) | (_ & _ & Hj)]%Hh; [set_solver |]. apply O2 in Hj. set_solver.
    + intros j t [(_ & -> & _) | (_ & _ & Hj)]%Hh; [set_solver |]. apply O3 in Hj. set_solver.
    + intros j t [(_ & _ & ?) | (_ & Ht & Hj)]%Hh; [done |]. apply O4 in Hj. set_solver.
    + intros t [->%elem_of_singleton | Ht]%elem_of_union.
      { right. exists k, RActive. by rewrite update_eq. }
      destruct (O5 t Ht) as [? | (j & a & Hj & Ha)]; [by left | right].
      exists j, a. rewrite update_ne; [done | congruence].
  - destruct Hok as (O1 & O2 & O3 & O4 & O5), E as (E1 & E2 & E3 & E4).
    unfold ledger_ok. setoid_rewrite E1. rewrite E2, E4.
    assert (Hh : forall j t b, update (update (holder l) k None) k' (Some (s, a)) j = Some (t, b) ->
      exists i, holder l i = Some (t, b) /\ ((j = k' /\ i = k) \/ (j = i /\ i <> k))).
    { intros j t b [[-> [= -> ->]] | [Hj [[? ?] | [? ?]]%update_Some]]%update_Some; naive_solver. }
    split_and!.
    + intros i j t b c (i' & Hi & Ei)%Hh (j' & Hj & Ej)%Hh.
      assert (i' = j') by eauto. naive_solver.
    + intros j t b (i & Hi & _)%Hh. apply E3. eauto.
    + intros j t (i & Hi & _)%Hh. eauto.
    + intros j t (i & Hi & _)%Hh. eauto.
    + intros t Ht. destruct (O5 t Ht) as [? | (j & b & Hj & Hb)]; [by left | right].
      destruct (decide (j = k)) as [-> |].
      * exists k', b. rewrite update_eq. split; [congruence | done].
      * exists j, b. rewrite !update_ne; [done.. |]. congruence.
  - by apply (ledger_ok_retire start l l' k s RExpired ret fld).
  - apply (ledger_ok_retire start l l' k s RReleased (kept l ∖ {[ s ]}) (botched l)); try done. by left.
  - apply (ledger_ok_retire start l l' k s RActive ret ({[ s ]} ∪ botched l)); try done; [by right | set_solver |].
    destruct E as (E1 & E2 & E3 & E4). split_and!; [|done..]. intros j. rewrite E1. symmetry. by apply update_same.
  - destruct E as (E1 & E2 & E3 & E4). destruct Hok as (O1 & O2 & O3 & O4 & O5).
    unfold ledger_ok. setoid_rewrite E1. rewrite E2, E4. split_and!; try done. intros k s a Hk. apply E3. eauto.
Qed.

(** * The manager refines the ledger *)

Section refinement.
Context {W : Type} `{!VssProvider W} `{!VssLaws W}.

Definition holder_of (m : SnapshotLeaseManager W) (ts : gmap nat Pending) (k : Z + nat) :=
  match k with
  | inl i => (fun r => (snapshot_id r, state r)) <$> leases m !! i
  | inr t => (fun p => (h_snapshot_id (pending_handle p), RActive)) <$> ts !! t
  end.

Definition ledger (w : World W) : Ledger :=
  mkLedger (holder_of (mgr w) (threads w)) (retained (provider (mgr w))) (issued (provider (mgr w)))
    (undeleted (provider (mgr w))).

Lemma holder_of_insert m ts p n i r k :
  holder_of (mkManager p n (<[i := r]> (leases m))) ts k =
  update (holder_of m ts) (inl i) (Some (snapshot_id r, state r)) k.
Proof.
  unfold update. destruct k as [j | t]; cbn; case_decide as E; simplify_eq; try done.
  - by rewrite lookup_insert_eq.
  - rewrite lookup_insert_ne; [done | congruence].
Qed.

Lemma holder_of_thread m ts t q k :
  holder_of m (<[t := q]> ts) k =
  update (holder_of m ts) (inr t) (Some (h_snapshot_id (pending_handle q), RActive)) k.
Proof.
  unfold update. destruct k as [j | u]; cbn; case_decide as E; simplify_eq; try done.
  - by rewrite lookup_insert_eq.
  - rewrite lookup_insert_ne; [done | congruence].
Qed.

Lemma sweep_one_refines now m ts i :
  rtc ledger_step (ledger (mkWorld m ts)) (ledger (mkWorld (sweep_one now m i) ts)).
Proof.
  unfold sweep_one. destruct (leases m !! i) as [r |] eqn:E; [|done].
  case_bool_decide as Ha; [|done]. destruct (_ <=? _); [cbn |done].
  pose proof (delete_snapshot_law (provider m) (snapshot_id r)) as Hd.
  destruct (delete_snapshot _ _) as [d p]. apply rtc_once.
  eapply (LExpire _ _ (inl i) (snapshot_id r) (retained p) (undeleted p)).
  - cbn. by rewrite E; cbn; rewrite Ha.
  - unfold deletion. cbn. destruct d; destruct Hd as (H1 & _ & H2); [left | right]; done.
  - split; [apply holder_of_insert | split; [done | split; [by destruct d; destruct Hd as (_ & ? & _) | done]]].
Qed.

Lemma sweep_refines order now m ts :
  rtc ledger_step (ledger (mkWorld m ts)) (ledger (mkWorld (sweep_expired order now m) ts)).
Proof.
  unfold sweep_expired. revert m. induction order as [|i order IH]; intros m; cbn; [done |].
  etransitivity; [apply sweep_one_refines | apply IH].
Qed.

Lemma renew_refines i e m ts :
  ledger_step (ledger (mkWorld m ts)) (ledger (mkWorld (renew_locked i e m).2 ts)).
Proof.
  unfold renew_locked. apply LSame. destruct (leases m !! i) as [r |] eqn:E; [|done].
  case_bool_decide; [done |]. split; [|done]. intros k. cbn. rewrite holder_of_insert.
  apply update_same. cbn. by rewrite E.
Qed.

Lemma release_refines i m ts :
  ledger_step (ledger (mkWorld m ts)) (ledger (mkWorld (release_lease i m).2 ts)).
Proof.
  unfold release_lease. destruct (leases m !! i) as [r |] eqn:E; [| by apply LSame].
  case_bool_decide as Ha; [by apply LSame |]. assert (state r = RActive) as Ha' by (by destruct (state r)). clear Ha; rename Ha' into Ha.
  pose proof (delete_snapshot_law (provider m) (snapshot_id r)) as Hd.
  destruct (delete_snapshot _ _) as [[] p]; destruct Hd as (Hr & Hi & Hu).
  - apply (LRelease _ _ (inl i) (snapshot_id r)); [by cbn; rewrite E; cbn; rewrite Ha |].
    split; [apply holder_of_insert | done].
  - apply (LFail _ _ (inl i) (snapshot_id r) (retained p)); [by cbn; rewrite E; cbn; rewrite Ha | exact Hr |].
    by split_and!.
Qed.

Lemma step_refines w w' : numbers_ok w -> step w w' -> rtc ledger_step (ledger w) (ledger w').
Proof.
  intros Hok Hs. destruct Hs as [order now m ts _ | volume root e p m ts H |
    t volume root h p life now m ts Ht H | t h life now m ts Ht Hn | t i h life now m ts Ht | | ].
  - apply sweep_refines.
  - pose proof (create_snapshot_law (provider m) volume root) as L. rewrite H in L.
    apply rtc_once, LSame. by split.
  - pose proof (create_snapshot_law (provider m) volume root) as L. rewrite H in L.
    destruct L as (L1 & L2 & L3 & L4). apply rtc_once.
    apply (LNew _ _ (inr t) (h_snapshot_id h)); [by cbn; rewrite Ht | done |].
    split; [|done]. intros k. cbn. by rewrite holder_of_thread.
  - apply rtc_once, LSame. split; [|done]. intros k. cbn. rewrite holder_of_thread.
    apply update_same. cbn. by rewrite Ht.
  - apply rtc_once. eapply (LMove _ _ (inr t) (inl i)); [by cbn; rewrite Ht | |].
    + cbn. by erewrite (insert_fresh (mkWorld m ts)).
    + split; [|done]. intros k. cbn [holder ledger mgr threads]. unfold insert_lease.
      rewrite holder_of_insert. unfold update. case_decide; [done |].
      destruct k as [j | u]; cbn; case_decide; simplify_eq; try done.
      * by rewrite lookup_delete_eq.
      * rewrite lookup_delete_ne; [done | congruence].
  - apply rtc_once, renew_refines.
  - apply rtc_once, release_refines.
Qed.

Lemma reachable_refines w w' : numbers_ok w -> rtc step w w' -> rtc ledger_step (ledger w) (ledger w').
Proof.
  intros Hok Hs. induction Hs as [|a b c H1 H2 IH]; [done |].
  etransitivity; [by apply step_refines | apply IH]. by eapply numbers_ok_step.
Qed.

Lemma ledger_ok_rtc start l l' : rtc ledger_step l l' -> ledger_ok start l -> ledger_ok start l'.
Proof. induction 1; eauto using ledger_ok_step. Qed.

Lemma ledger_ok_initial p : ledger_ok (retained p) (ledger (initial p)).
Proof.
  assert (Hn : forall k, holder (ledger (initial p)) k = None).
  { intros [i | t]; cbn; by rewrite lookup_empty. }
  unfold ledger_ok. setoid_rewrite Hn. naive_solver.
Qed.

Lemma reachable_ledger_ok p w : reachable p w -> ledger_ok (retained p) (ledger w).
Proof.
  intros Hr. eapply ledger_ok_rtc; [|apply ledger_ok_initial].
  by apply reachable_refines; [apply numbers_ok_initial |].
Qed.

(** C3: under every interleaving of connections and sweeps, and on every backend that keeps
    [VssLaws] (the Broker's own does: file VssHelper), the lease manager refines the ledger:
    each atomic section is a sequence of ledger moves.  So lease numbers are at least 1 and
    below the counter; no snapshot is held twice; the snapshot of an active lease, or of a
    connection about to lease it, exists, unless a deletion of it failed; the snapshot of a
    released lease is gone; and a snapshot that exists was there at the start, or its holder
    is active, or is expired and its deletion failed. *)
Theorem lease_manager_refines_ledger p w :
  reachable p w ->
  rtc ledger_step (ledger (initial p)) (ledger w) /\
  ledger_ok (retained p) (ledger w) /\
  forall i r, leases (mgr w) !! i = Some r -> 1 <= i < next_lease_id (mgr w).
Proof.
  intros Hr. pose proof (numbers_ok_initial p) as Hn.
  split; [by apply reachable_refines |]. split.
  - by apply reachable_ledger_ok.
  - intros i r Hi. apply (numbers_ok_reachable _ _ Hr) in Hn as (_ & H & _).
    apply (H (inl i)). cbn. eauto.
Qed.

End refinement.

(** * Leases are final *)

(** What may happen to a record: its expiry and state change while it is active,
    nothing once it is not. *)
Definition evolves (r r' : LeaseRecord) : Prop :=
  snapshot_id r' = snapshot_id r /\ device_identity r' = device_identity r /\
  created_at_unix_ms r' = created_at_unix_ms r /\ (state r <> RActive -> r' = r).

#[export] Instance evolves_preorder : PreOrder evolves.
Proof.
  split; [done |]. intros a b c (A1 & A2 & A3 & A4) (B1 & B2 & B3 & B4).
  split_and!; try congruence. intros H. specialize (A4 H) as ->. auto.
Qed.

Lemma evolves_expiry r e : state r = RActive -> evolves r (set_expiry r e).
Proof. by intros H. Qed.
Lemma evolves_state r s : state r = RActive -> evolves r (set_state r s).
Proof. by intros H. Qed.

Definition leases_evolve (l l' : gmap Z LeaseRecord) : Prop :=
  forall i r, l !! i = Some r -> exists r', l' !! i = Some r' /\ evolves r r'.

#[export] Instance leases_evolve_preorder : PreOrder leases_evolve.
Proof.
  split; [intros l i r H; by exists r |]. intros a b c H1 H2 i r H.
  destruct (H1 i r H) as (r' & H' & E). destruct (H2 i r' H') as (r'' & H'' & E').
  exists r''. split; [done |]. by etransitivity.
Qed.

Lemma leases_evolve_insert l i r r' :
  l !! i = Some r -> evolves r r' -> leases_evolve l (<[i := r']> l).
Proof.
  intros H E j q Hj. destruct (decide (i = j)) as [<- |].
  - exists r'. rewrite lookup_insert_eq. split; [done | congruence].
  - exists q. by rewrite lookup_insert_ne.
Qed.

Lemma leases_evolve_new l i r : l !! i = None -> leases_evolve l (<[i := r]> l).
Proof.
  intros H j q Hj. exists q. rewrite lookup_insert_ne; [done | congruence].
Qed.

Section evolution.
Context {W : Type} `{!VssProvider W}.
Implicit Types m : SnapshotLeaseManager W.

Lemma sweep_one_evolves now m i : leases_evolve (leases m) (leases (sweep_one now m i)).
Proof.
  unfold sweep_one. destruct (leases m !! i) as [r |] eqn:E; [|done].
  case_bool_decide as Ha; [|done]. destruct (_ <=? _); [cbn | done].
  destruct (delete_snapshot _ _). eapply leases_evolve_insert; [done | by apply evolves_state].
Qed.

Lemma sweep_evolves order now m : leases_evolve (leases m) (leases (sweep_expired order now m)).
Proof.
  unfold sweep_expired. revert m. induction order as [|i order IH]; intros m; cbn; [done |].
  etransitivity; [apply sweep_one_evolves | apply IH].
Qed.

Lemma renew_evolves i e m : leases_evolve (leases m) (leases (renew_locked i e m).2).
Proof.
  unfold renew_locked. destruct (leases m !! i) as [r |] eqn:E; [|done].
  case_bool_decide as Ha; [done |].
  eapply leases_evolve_insert; [done |]. apply evolves_expiry. by destruct (state r).
Qed.

Lemma release_evolves i m : leases_evolve (leases m) (leases (release_lease i m).2).
Proof.
  unfold release_lease. destruct (leases m !! i) as [r |] eqn:E; [|done].
  case_bool_decide as Ha; [done |]. destruct (delete_snapshot _ _) as [[] p]; [|done].
  eapply leases_evolve_insert; [done |]. apply evolves_state. by destruct (state r).
Qed.

Lemma step_evolves w w' :
  numbers_ok w -> step w w' -> leases_evolve (leases (mgr w)) (leases (mgr w')).
Proof.
  intros Hok Hs. destruct Hs as [order now m ts _ | | | | t i h life now m ts Ht | | ]; cbn; try done.
  - apply sweep_evolves.
  - apply leases_evolve_new. exact (insert_fresh (mkWorld m ts) t i h life now Hok Ht).
  - apply renew_evolves.
  - apply release_evolves.
Qed.

(** A lease is final.  From any reachable state on, whatever connections and
    sweeps do, a lease never disappears, its snapshot, device and creation time never
    change, and once it is expired or released no request (a renewal in particular)
    changes its record again. *)
Theorem lease_final p w w' i r :
  reachable p w -> rtc step w w' -> leases (mgr w) !! i = Some r ->
  exists r', leases (mgr w') !! i = Some r' /\
    snapshot_id r' = snapshot_id r /\ device_identity r' = device_identity r /\
    created_at_unix_ms r' = created_at_unix_ms r /\ (state r <> RActive -> r' = r).
Proof.
  intros Hr Hs. pose proof (numbers_ok_reachable _ _ Hr (numbers_ok_initial p)) as Hn.
  cut (leases_evolve (leases (mgr w)) (leases (mgr w'))); [intros H Hi; by apply H |].
  clear Hr. induction Hs as [|a b c H1 H2 IH]; [done |].
  etransitivity; [by apply step_evolves | apply IH; by eapply numbers_ok_step].
Qed.

(** * Sweeps *)

Definition overdue (now : Z) (r : LeaseRecord) : bool :=
  bool_decide (state r = RActive) && (expires_at_unix_ms r <=? now).

Definition swept (now : Z) (r : LeaseRecord) : LeaseRecord :=
  if overdue now r then set_state r RExpired else r.

Lemma swept_idemp now r : swept now (swept now r) = swept now r.
Proof. unfold swept. destruct (overdue now r) eqn:E; [done |]. by rewrite E. Qed.

Lemma sweep_one_lookup now m i j :
  leases (sweep_one now m i) !! j =
  if decide (i = j) then swept now <$> leases m !! j else leases m !! j.
Proof.
  unfold sweep_one, swept. destruct (decide (i = j)) as [<- | Hij].
  - destruct (leases m !! i) as [r |] eqn:E; [|by rewrite E]. cbn.
    fold (overdue now r). destruct (overdue now r); [|done].
    destruct (delete_snapshot _ _). apply lookup_insert_eq.
  - destruct (leases m !! i) as [r |] eqn:E; [|done]. fold (overdue now r).
    destruct (overdue now r); [|done]. destruct (delete_snapshot _ _). by apply lookup_insert_ne.
Qed.

Lemma sweep_lookup order now m j :
  leases (sweep_expired order now m) !! j =
  if decide (j ∈ order) then swept now <$> leases m !! j else leases m !! j.
Proof.
  unfold sweep_expired. revert m. induction order as [|i order IH]; intros m; cbn [foldl].
  - by rewrite decide_False by set_solver.
  - rewrite IH, sweep_one_lookup. destruct (leases m !! j) as [r |]; cbn;
      repeat case_decide; cbn; rewrite ?swept_idemp; try done; set_solver.
Qed.

Lemma sweep_all_lookup order now m j :
  visits_all order m -> leases (sweep_expired order now m) !! j = swept now <$> leases m !! j.
Proof.
  intros Ho. rewrite sweep_lookup. case_decide as Hj; [done |].
  destruct (leases m !! j) as [r |] eqn:E; [|done]. destruct Hj. rewrite Ho.
  apply list_elem_of_fmap. exists (j, r). split; [done |]. by apply elem_of_map_to_list.
Qed.

(** The answers of the lease operations depend on the stored record and the
    clock alone, not on the order the sweep visited the map in: a lease that is
    active but past its expiry is answered for, and stored, as expired; so a query
    never shows it active, a renewal never revives it, and its device is never
    handed out. *)
Theorem lease_answers order i now e m :
  visits_all order m ->
  let r := swept now <$> leases m !! i in
  (query_lease order i now m).1 =
    (fun r => mkLeaseStatus (to_wire (state r)) (snapshot_id r) (created_at_unix_ms r)
                (expires_at_unix_ms r)) <$> r /\
  (device_identity_if_active order i now m).1 =
    (r ≫= fun r => if bool_decide (state r = RActive) then Some (device_identity r) else None) /\
  (renew_lease order i e now m).1 =
    match r with
    | None => Err NotFound
    | Some r => if bool_decide (state r = RActive) then Ok e else Err NotActive
    end /\
  (forall j, leases (query_lease order i now m).2 !! j = swept now <$> leases m !! j) /\
  (forall j, leases (renew_lease order i e now m).2 !! j =
     if decide (j = i) then
       (fun r => if bool_decide (state r = RActive) then set_expiry r e else r) <$> r
     else swept now <$> leases m !! j).
Proof.
  intros Ho. pose proof (sweep_all_lookup _ now m i Ho) as Hi.
  pose proof (fun j => sweep_all_lookup _ now m j Ho) as Hj.
  unfold query_lease, device_identity_if_active, renew_lease, renew_locked. cbv zeta.
  rewrite Hi. destruct (leases m !! i) as [r |] eqn:E; cbn.
  - repeat case_bool_decide; try done; cbn; split_and!; try done; intros j;
      (case_decide as Ej; [subst j; rewrite ?lookup_insert_eq, ?Hi; done |]);
      by rewrite ?lookup_insert_ne by congruence.
  - split_and!; try done. intros j. case_decide as Ej; [subst j; by rewrite Hi | done].
Qed.

End evolution.

(** * Serving requests *)

(** The bytes of an ASCII literal, and of the decimal digits of a [u64] (20 digits
    at most). *)
Definition str (s : string) : list Z :=
  map (fun a => Z.of_N (Ascii.N_of_ascii a)) (String.list_ascii_of_string s).

Fixpoint digits (fuel : nat) (n : Z) : list Z :=
  match fuel with
  | O => []
  | S fuel => if n <? 10 then [48 + n] else digits fuel (n / 10) ++ [48 + n mod 10]
  end.

Definition display_u64 (n : Z) : list Z := digits 20 n.

Definition SnapshotProtocolError_to_string (e : SnapshotProtocolError) : list Z :=
  match e with
  | Truncated needed available =>
      str "truncated input: needed " ++ display_u64 needed ++ str " bytes, only " ++
      display_u64 available ++ str " remained"
  | LengthOutOfBounds field declared max =>
      str "field '" ++ str field ++ str "' declared length " ++ display_u64 declared ++
      str " exceeds maximum " ++ display_u64 max
  | UnknownDiscriminant field value =>
      str "unknown discriminant for '" ++ str field ++ str "': " ++ display_u64 value
  | InvalidUtf8 field => str "field '" ++ str field ++ str "' is not valid UTF-8"
  end.

Definition LeaseError_to_string (e : LeaseError) : list Z :=
  match e with
  | NotFound => str "lease not found"
  | NotActive => str "lease is not active"
  | Vss (InvalidVolume message) => str "volume validation failed: " ++ message
  | Vss (CreateFailed _ message) => str "snapshot creation failed: " ++ message
  | Vss (DeleteFailed message) => str "snapshot deletion failed: " ++ message
  end.

Definition lease_error_response (err : LeaseError) : SnapshotManagerResponse :=
  let code :=
    match err with
    | NotFound => LeaseNotFound
    | NotActive => LeaseNotActive
    | Vss (InvalidVolume _) => VolumeValidationFailed
    | Vss (CreateFailed _ _) => SnapshotCreateFailed
    | Vss (DeleteFailed _) => InternalError
    end in
  let hresult :=
    match err with
    | Vss (CreateFailed hresult _) => hresult
    | NotFound | NotActive | Vss (InvalidVolume _ | DeleteFailed _) => None
    end in
  Error code hresult (LeaseError_to_string err).

(** What the service asks of Windows: opening a process, its image name and the name's
    last component, the Authenticode verdict, opening a device and duplicating its
    handle into the reader (an error is its text), and reading the pipe. *)
Class Platform := {
  Process : Type;
  OsStr : Type;
  open_client : Z -> option Process;
  query_process_image_name : Process -> option OsStr;
  file_name_str : OsStr -> option string;
  verify_authenticode : OsStr -> bool;
  duplicate_snapshot_device_to_reader : list Z -> Process -> result unit (list Z)
}.

Section service.
Context {W : Type} `{!VssProvider W} `{!Platform}.
Implicit Types m : SnapshotLeaseManager W.

Definition is_uffs_content_reader_image (exe_path : OsStr) : bool :=
  let name := default "" (file_name_str exe_path) in
  String.eqb name "uffs-content-reader" || String.eqb name "uffs-content-reader.exe".

Definition verify_reader_identity (reader_exe_path : option OsStr) : bool :=
  match reader_exe_path with
  | None => false
  | Some exe_path =>
      if negb (is_uffs_content_reader_image exe_path) then false else verify_authenticode exe_path
  end.

Definition handle_duplicate (order : list Z) (now : Z) (request : DuplicateSnapshotHandle)
    (m : SnapshotLeaseManager W) : SnapshotManagerResponse * SnapshotLeaseManager W :=
  let (identity, m) := device_identity_if_active order (dup_snapshot_lease_id request) now m in
  match identity with
  | None => (lease_error_response NotFound, m)
  | Some device_identity =>
      match open_client (approved_reader_process_id request) with
      | None =>
          (Error ReaderIdentityRejected None (str "could not open the approved reader process"), m)
      | Some reader_process =>
          let reader_exe := query_process_image_name reader_process in
          if negb (verify_reader_identity reader_exe) then
            (Error ReaderIdentityRejected None (str "reader process failed identity verification"), m)
          else
            match duplicate_snapshot_device_to_reader device_identity reader_process with
            | Ok _ => (Duplicated, m)
            | Err err => (Error InternalError None err, m)
            end
      end
  end.

(** [now]: the clock as [dispatch_request] reads it; [now']: as [handle_duplicate]
    reads it again. *)
Definition dispatch_request (order : list Z) (now now' : Z) (wire_request : SnapshotManagerRequest)
    (m : SnapshotLeaseManager W) : SnapshotManagerResponse * SnapshotLeaseManager W :=
  match wire_request with
  | Create request =>
      let (created, m) := create_lease order (source_volume_identity request)
        (requested_root request) (maximum_lifetime_secs request) now m in
      (match created with
       | Ok created =>
           Created (mkCreateSnapshotLeaseResult (cl_lease_id created) (cl_snapshot_id created)
             (cl_device_identity created) (cl_created_at_unix_ms created)
             (cl_expires_at_unix_ms created))
       | Err err => lease_error_response err
       end, m)
  | Duplicate request => handle_duplicate order now' request m
  | Renew request =>
      let (renewed, m) := renew_lease order (renew_snapshot_lease_id request)
        (requested_expiry_unix_ms request) now m in
      (match renewed with
       | Ok new_expires_at_unix_ms => Renewed new_expires_at_unix_ms
       | Err err => lease_error_response err
       end, m)
  | Release request =>
      let (released, m) := release_lease (release_snapshot_lease_id request) m in
      (match released with
       | Ok _ => ReleasedResponse
       | Err err => lease_error_response err
       end, m)
  | Query request =>
      let (status, m) := query_lease order (query_snapshot_lease_id request) now m in
      (Status (match status with
       | None => mkSnapshotLeaseStatus (query_snapshot_lease_id request) Unknown [] 0 0
       | Some status =>
           mkSnapshotLeaseStatus (query_snapshot_lease_id request) (st_state status)
             (st_snapshot_id status) (st_created_at_unix_ms status) (st_expires_at_unix_ms status)
       end), m)
  end.

(** [handle_one_request] between the read and the write of the pipe: the response it
    encodes. *)
Definition handle_one_request (order : list Z) (now now' : Z) (request_bytes : list Z)
    (m : SnapshotLeaseManager W) : SnapshotManagerResponse * SnapshotLeaseManager W :=
  match SnapshotManagerRequest_decode request_bytes with
  | Ok request => dispatch_request order now now' request m
  | Err decode_err =>
      (Error InternalError None
         (str "malformed request: " ++ SnapshotProtocolError_to_string decode_err), m)
  end.

End service.

(** ** Framing *)

Definition MAX_REQUEST_BYTES : Z := 64 * 1024.

Section framing.
(** [ReadFile] on the pipe: at most [n] bytes, or a failure. *)
Context {Pipe : Type} (ReadFile : Pipe -> Z -> option (list Z) * Pipe).

Definition read_exact (pipe : Pipe) (n : Z) : option (list Z) * Pipe :=
  let (read, pipe) := ReadFile pipe n in
  match read with
  | None => (None, pipe)
  | Some bytes => (if zlen bytes <? n then None else Some bytes, pipe)
  end.

Definition read_framed_message (pipe : Pipe) : option (list Z) * Pipe :=
  let (length_bytes, pipe) := read_exact pipe 4 in
  match length_bytes with
  | None => (None, pipe)
  | Some length_bytes =>
      let length := from_le_bytes length_bytes in
      if MAX_REQUEST_BYTES <? length then (None, pipe) else read_exact pipe length
  end.
End framing.

Definition frame_message (payload : list Z) : list Z :=
  to_le_bytes 4 (if zlen payload <? 2 ^ 32 then zlen payload else U32_MAX) ++ payload.

(** ** Text *)

#[local] Arguments str : simpl never.
#[local] Arguments lease_error_response : simpl never.

Definition ascii_bytes (l : list Z) : Prop := Forall (fun b => 0 <= b < 128) l.

(** UTF-8 text of at most [n] bytes. *)
Definition text (n : Z) (l : list Z) : Prop :=
  byte_list l /\ utf8_valid l = true /\ zlen l <= n.

Lemma utf8_valid_ascii_app a b : ascii_bytes a -> utf8_valid (a ++ b) = utf8_valid b.
Proof.
  induction 1 as [|x a Hx Ha IH]; [done |]. cbn [app]. by rewrite utf8_valid_ascii_cons.
Qed.

Lemma text_app n k a b : ascii_bytes a -> zlen a <= n -> text k b -> text (n + k) (a ++ b).
Proof.
  intros Ha Hn (Hb & Hu & Hl). split_and!.
  - apply Forall_app. split; [|done]. eapply Forall_impl; [exact Ha |]. cbn. lia.
  - by rewrite utf8_valid_ascii_app.
  - rewrite zlen_app. lia.
Qed.

Lemma text_ascii n a : ascii_bytes a -> zlen a <= n -> text n a.
Proof.
  intros Ha Hn. rewrite <- (app_nil_r a). replace n with (n + 0) by lia.
  by apply text_app.
Qed.

Lemma text_le n k l : text n l -> n <= k -> text k l.
Proof. unfold text. intuition lia. Qed.

Definition ascii_check (l : list Z) : bool := forallb (fun b => (0 <=? b) && (b <? 128)) l.
Lemma ascii_check_ok l : ascii_check l = true -> ascii_bytes l.
Proof.
  intros H. apply Forall_forall. intros x Hx%list_elem_of_In.
  unfold ascii_check in H. rewrite forallb_forall in H. specialize (H x Hx). lia.
Qed.

Lemma digits_ascii fuel n : 0 <= n -> ascii_bytes (digits fuel n) /\ zlen (digits fuel n) <= Z.of_nat fuel.
Proof.
  revert n. induction fuel as [|fuel IH]; intros n Hn; cbn [digits].
  - split; [constructor | done].
  - destruct (Z.ltb_spec n 10).
    + split; [repeat constructor; lia |]. unfold zlen. cbn. lia.
    + destruct (IH (n / 10)) as [H1 H2]; [apply Z.div_pos; lia |].
      pose proof (Z.mod_pos_bound n 10). split.
      * apply Forall_app. split; [done |]. repeat constructor; lia.
      * rewrite zlen_app. unfold zlen at 2. cbn [length]. lia.
Qed.

Lemma display_u64_ascii n : 0 <= n -> ascii_bytes (display_u64 n) /\ zlen (display_u64 n) <= 20.
Proof. apply digits_ascii. Qed.

(** ** Decoding errors name short fields *)

Definition short_field (f : string) : Prop := ascii_check (str f) = true /\ zlen (str f) <= 40.

Definition error_printable (e : SnapshotProtocolError) : Prop :=
  match e with
  | Truncated n a => 0 <= n /\ 0 <= a
  | LengthOutOfBounds f d m => short_field f /\ 0 <= d /\ 0 <= m
  | UnknownDiscriminant f v => short_field f /\ 0 <= v
  | InvalidUtf8 f => short_field f
  end.

(** [d] fails only with printable errors. *)
Class Fails {A} (d : Dec A) : Prop :=
  fails : forall r e, reader_ok r -> d r = Err e -> error_printable e.

#[export] Instance fails_ret {A} (x : A) : Fails (ret x).
Proof. done. Qed.

#[export] Instance fails_bind {A B} (d : Dec A) (k : A -> Dec B) P `{!Grammar d P} :
  Fails d -> (forall a, (exists bs, P a bs) -> Fails (k a)) -> Fails (bind d k).
Proof.
  intros Hd Hk r e Hr. unfold bind. destruct (d r) as [[a m] |] eqn:E.
  - apply grammar in E as (bs & HP & Hm); [|done]. apply (Hk a); [by exists bs |].
    by eapply parses_ok.
  - intros [= ->]. by eapply Hd.
Qed.

Lemma fails_take n : 0 <= n -> Fails (take_bytes n).
Proof.
  intros Hn r e [Hp Hb]. unfold take_bytes, remaining.
  destruct (Z.ltb_spec (zlen (buf r) - pos r) n); [intros [= <-]; cbn; lia |].
  destruct (get_range _ _ _); [done |]. intros [= <-]; cbn; lia.
Qed.

#[export] Instance fails_array n : Fails (read_array (Z.of_nat n)).
Proof. apply fails_take. lia. Qed.

#[export] Instance fails_u8 : Fails read_u8.
Proof.
  unfold read_u8. apply (fails_bind _ _ _); [by apply fails_take |].
  intros a [bs [[_ (b & ->)%zlen_1] _]] r e Hr. done.
Qed.

Lemma fails_le (n : nat) : Fails (let! bs := read_array (Z.of_nat n) in ret (from_le_bytes bs)).
Proof. apply _. Qed.
#[export] Instance fails_u32 : Fails read_u32_le.
Proof. exact (fails_le 4). Qed.
#[export] Instance fails_u64 : Fails read_u64_le.
Proof. exact (fails_le 8). Qed.

#[export] Instance fails_job_id : Fails (read_array 16).
Proof. exact (fails_array 16). Qed.

Lemma fails_fail {A} e : error_printable e -> Fails (@fail A e).
Proof. by intros He r e' Hr [= <-]. Qed.

#[export] Instance fails_bytes f m : short_field f -> 0 <= m -> Fails (read_bytes_u32_prefixed f m).
Proof.
  intros Hf Hm. unfold read_bytes_u32_prefixed. apply (fails_bind _ _ _); [apply _ |].
  intros a [bs [Ha ->]]. destruct (_ <? _); [apply fails_fail | apply fails_take]; cbn; intuition lia.
Qed.

Lemma short_field_check f : ascii_check (str f) && (zlen (str f) <=? 40) = true -> short_field f.
Proof. intros [H1 H2]%andb_prop. split; [done | lia]. Qed.
#[export] Hint Extern 1 (short_field _) => apply short_field_check; vm_compute; reflexivity : typeclass_instances.
#[export] Hint Extern 1 (0 <= _) => vm_compute; discriminate : typeclass_instances.

Lemma fails_request : Fails request_body.
Proof.
  apply (fails_bind _ _ _); [apply _ |]. intros tag [bs [Ht ->]].
  destruct (decide (tag = 0)) as [-> |]; [apply _ |].
  destruct (decide (tag = 1)) as [-> |]; [apply _ |].
  destruct (decide (tag = 2)) as [-> |]; [apply _ |].
  destruct (decide (tag = 3)) as [-> |]; [apply _ |].
  destruct (decide (tag = 4)) as [-> |]; [apply _ |].
  assert (error_printable (UnknownDiscriminant "request_tag" tag)) as He
    by (split; [by apply short_field_check | lia]).
  destruct tag as [|[[[]|[]|]|[[]|[]|]|]|]; done || by apply fails_fail.
Qed.

Lemma decode_err_printable bytes e :
  byte_list bytes -> SnapshotManagerRequest_decode bytes = Err e -> error_printable e.
Proof.
  intros Hb. unfold SnapshotManagerRequest_decode, decode_with.
  destruct (request_body _) as [[]|] eqn:E; [done |]. intros [= ->].
  eapply fails_request, E. split; [cbn; pose proof (zlen_nonneg bytes); lia | done].
Qed.

Lemma error_text e : error_printable e -> text 300 (SnapshotProtocolError_to_string e).
Proof.
  assert (Hd := display_u64_ascii).
  assert (forall a b n k, ascii_bytes a /\ zlen a <= n -> ascii_bytes b /\ zlen b <= k ->
    ascii_bytes (a ++ b) /\ zlen (a ++ b) <= n + k) as Happ.
  { intros a b n k [] []. rewrite zlen_app. split; [by apply Forall_app | lia]. }
  assert (forall s, ascii_check s = true -> ascii_bytes s /\ zlen s <= zlen s) as Hs.
  { intros s H. split; [by apply ascii_check_ok | lia]. }
  intros He. destruct e as [n a | f d m | f v | f]; cbn [SnapshotProtocolError_to_string].
  all: assert (forall l k, ascii_bytes l /\ zlen l <= k -> k <= 300 -> text 300 l) as Hfin
    by (intros l k [] ?; apply text_ascii; [done | lia]).
  all: try (assert (ascii_bytes (str f) /\ zlen (str f) <= 40) as Hf
    by (cbn in He; unfold short_field in *; split; [apply ascii_check_ok |]; tauto)).
  all: eapply Hfin;
    [repeat (first [exact Hf | apply Hd; cbn in He; tauto | apply Hs; reflexivity | eapply Happ])
    | vm_compute; congruence].
Qed.

(** ** The service's answers fit the protocol *)

(** What the lease manager stores and the backend returns keeps to the sizes of the
    wire protocol: identifiers of 1024 bytes, device paths of 2048 and diagnostics
    of 4000. *)
Definition handle_fits (id device : list Z) : Prop :=
  byte_list id /\ zlen id <= MAX_IDENTIFIER_BYTES /\ text 2048 device.

Definition VssError_fits (e : VssError) : Prop :=
  match e with
  | InvalidVolume m | DeleteFailed m => text 4000 m
  | CreateFailed h m => match h with Some h => is_i32 h | None => True end /\ text 4000 m
  end.

Class VssFits (W : Type) `{!VssProvider W} : Prop := {
  create_fits w volume root :
    match (create_snapshot w volume root).1 with
    | Ok h => handle_fits (h_snapshot_id h) (h_device_identity h)
    | Err e => VssError_fits e
    end;
  delete_fits w id : match (delete_snapshot w id).1 with Ok _ => True | Err e => VssError_fits e end
}.

Class PlatformFits `{Platform} : Prop :=
  duplicate_fits device p :
    match duplicate_snapshot_device_to_reader device p with Ok _ => True | Err m => text 4000 m end.

Definition record_fits (r : LeaseRecord) : Prop :=
  handle_fits (snapshot_id r) (device_identity r) /\
  is_i64 (created_at_unix_ms r) /\ is_i64 (expires_at_unix_ms r).

Definition manager_fits {W} (m : SnapshotLeaseManager W) : Prop :=
  is_u64 (next_lease_id m) /\ map_Forall (fun _ r => record_fits r) (leases m).

Lemma saturating_add_i64_range a b : is_i64 (saturating_add_i64 a b).
Proof. unfold saturating_add_i64, I64_MAX. lia. Qed.

Lemma lease_error_fits e :
  match e with Vss v => VssError_fits v | _ => True end ->
  SnapshotManagerResponse_valid (lease_error_response e).
Proof.
  intros He.
  assert (forall p m, ascii_check (str p) = true -> zlen (str p) <= 40 -> text 4000 m ->
    text MAX_MESSAGE_BYTES (str p ++ m)) as Hp.
  { intros p m Hc Hl Hm. eapply text_le; [by apply (text_app 40 4000); [apply ascii_check_ok | |] |].
    unfold MAX_MESSAGE_BYTES. lia. }
  destruct e as [| | [m | h m | m]]; cbn [VssError_fits] in He.
  1, 2: split; [done |]; apply text_ascii; [by apply ascii_check_ok | by_eval].
  - split; [done |]. by apply (Hp "volume validation failed: "%string).
  - destruct He as [Hh Hm]. split; [done |]. by apply (Hp "snapshot creation failed: "%string).
  - split; [done |]. by apply (Hp "snapshot deletion failed: "%string).
Qed.

Section fits.
Context {W : Type} `{!VssProvider W} `{!VssFits W} `{!Platform} `{!PlatformFits}.
Implicit Types m : SnapshotLeaseManager W.

Lemma manager_fits_insert m (p : W) n i r :
  manager_fits m -> is_u64 n -> record_fits r -> manager_fits (mkManager p n (<[i := r]> (leases m))).
Proof. intros [Hn Hm] Hn' Hr. split; [done |]. by apply map_Forall_insert_2. Qed.

Lemma sweep_fits order now m : manager_fits m -> manager_fits (sweep_expired order now m).
Proof.
  unfold sweep_expired. revert m. induction order as [|i order IH]; intros m Hm; cbn; [done |].
  apply IH. unfold sweep_one. destruct (leases m !! i) as [r |] eqn:E; [|done].
  destruct (_ && _); [|done]. destruct (delete_snapshot _ _).
  apply manager_fits_insert; [done | apply Hm |]. by apply Hm in E.
Qed.

Lemma record_fits_set_state r s : record_fits r -> record_fits (set_state r s).
Proof. done. Qed.

Lemma not_found_fits : SnapshotManagerResponse_valid (lease_error_response NotFound).
Proof. by apply lease_error_fits. Qed.
Lemma not_active_fits : SnapshotManagerResponse_valid (lease_error_response NotActive).
Proof. by apply lease_error_fits. Qed.

(** A response and the manager it leaves fit. *)
Definition answer_fits (a : SnapshotManagerResponse * SnapshotLeaseManager W) : Prop :=
  SnapshotManagerResponse_valid a.1 /\ manager_fits a.2.

Lemma create_answer_fits order now now' c m :
  manager_fits m -> is_i64 now -> answer_fits (dispatch_request order now now' (Create c) m).
Proof.
  intros Hm Hnow. pose proof (sweep_fits order now m Hm) as Hs.
  cbn [dispatch_request]. unfold create_lease, fetch_add_lease_id, insert_lease. cbv zeta.
  pose proof (create_fits (provider (sweep_expired order now m)) (source_volume_identity c)
    (requested_root c)) as Hc.
  destruct (create_snapshot _ _ _) as [[h | e] p]; cbn in Hc |- *.
  - pose proof (saturating_add_i64_range now (secs_to_ms_saturating (maximum_lifetime_secs c))) as Hsat.
    destruct Hc as (H1 & H2 & H3 & H4 & H5). split.
    + cbn. unfold CreateSnapshotLeaseResult_valid. cbn. pose proof (proj1 Hs). split_and?; done || lia.
    + apply (manager_fits_insert (sweep_expired order now m)); [done | apply u64_range |].
      split; [done |]. by split.
  - split; [exact (lease_error_fits (Vss e) Hc) | done].
Qed.

Lemma handle_duplicate_fits order now d m :
  manager_fits m -> answer_fits (handle_duplicate order now d m).
Proof.
  intros Hm. pose proof (sweep_fits order now m Hm) as Hs.
  assert (forall s, ascii_check (str s) && (zlen (str s) <=? 60) = true ->
    text MAX_MESSAGE_BYTES (str s)) as Hp.
  { intros s [Hc Hl]%andb_prop. apply text_ascii; [by apply ascii_check_ok |].
    unfold MAX_MESSAGE_BYTES. lia. }
  unfold handle_duplicate, device_identity_if_active.
  destruct (leases _ !! _) as [r |]; [case_bool_decide |]; try by split; [apply not_found_fits |].
  destruct (open_client _) as [q |]; [|split; [split; [done | by apply Hp] | done]].
  destruct (negb _); [split; [split; [done | by apply Hp] | done] |].
  pose proof (duplicate_fits (device_identity r) q) as Hd.
  destruct (duplicate_snapshot_device_to_reader _ _) as [| e]; [done |].
  split; [|done]. split; [done |]. eapply text_le; [done |]. unfold MAX_MESSAGE_BYTES. lia.
Qed.

Lemma renew_answer_fits order now now' d m :
  manager_fits m -> SnapshotManagerRequest_valid (Renew d) ->
  answer_fits (dispatch_request order now now' (Renew d) m).
Proof.
  intros Hm Hr. pose proof (sweep_fits order now m Hm) as Hs.
  cbn [dispatch_request]. unfold renew_lease, renew_locked.
  destruct (leases _ !! _) as [r |] eqn:E; [|by split; [apply not_found_fits |]].
  case_bool_decide; [by split; [apply not_active_fits |] |].
  split; [apply Hr |]. apply manager_fits_insert; [done | apply Hs |].
  apply Hs in E as (Hh & Hc & _). split; [done |]. split; [done | apply Hr].
Qed.

Lemma release_answer_fits order now now' d m :
  manager_fits m -> answer_fits (dispatch_request order now now' (Release d) m).
Proof.
  intros Hm. cbn [dispatch_request]. unfold release_lease.
  destruct (leases _ !! _) as [r |] eqn:E; [|by split; [apply not_found_fits |]].
  case_bool_decide; [done |].
  pose proof (delete_fits (provider m) (snapshot_id r)) as Hd.
  destruct (delete_snapshot _ _) as [[[] | e] p]; cbn in Hd.
  - split; [done |]. apply manager_fits_insert; [done | apply Hm |]. by apply Hm in E.
  - split; [exact (lease_error_fits (Vss e) Hd) | apply Hm].
Qed.

Lemma query_answer_fits order now now' d m :
  manager_fits m -> SnapshotManagerRequest_valid (Query d) ->
  answer_fits (dispatch_request order now now' (Query d) m).
Proof.
  intros Hm Hr. pose proof (sweep_fits order now m Hm) as Hs.
  cbn [dispatch_request]. unfold query_lease. cbv zeta.
  destruct (leases _ !! _) as [r |] eqn:E; (split; [|done]); cbn;
    unfold SnapshotLeaseStatus_valid, MAX_IDENTIFIER_BYTES in *; cbn -[zlen Z.pow] in *.
  - apply Hs in E as ((Hi & Hl & _) & Hc & He). split_and?; done || lia.
  - split_and?; done || lia || constructor.
Qed.

Lemma dispatch_fits order now now' r m :
  manager_fits m -> is_i64 now -> SnapshotManagerRequest_valid r ->
  answer_fits (dispatch_request order now now' r m).
Proof.
  destruct r; eauto using create_answer_fits, handle_duplicate_fits, renew_answer_fits,
    release_answer_fits, query_answer_fits.
Qed.

(** The service answers every request.  Whatever bytes a client sends, the
    response the Broker encodes decodes, on the client's side, to the response it
    meant; a request that does not decode changes nothing and is answered with
    [InternalError]; and the lease table keeps to the sizes of the protocol. *)
Theorem service_answers order now now' bytes m :
  manager_fits m -> is_i64 now -> byte_list bytes ->
  let (response, m') := handle_one_request order now now' bytes m in
  SnapshotManagerResponse_decode (SnapshotManagerResponse_encode response) = Ok response /\
  manager_fits m' /\
  (forall e, SnapshotManagerRequest_decode bytes = Err e ->
     m' = m /\ exists text, response = Error InternalError None text).
Proof.
  intros Hm Hnow Hb.
  assert (Hdec : forall r, SnapshotManagerResponse_valid r ->
    SnapshotManagerResponse_decode (SnapshotManagerResponse_encode r) = Ok r).
  { intros r Hr. apply (decode_with_grammar response_body response_grammar).
    - by apply SnapshotManagerResponse_encode_bytes.
    - exists (SnapshotManagerResponse_encode r), []. rewrite app_nil_r.
      split; [by apply response_encode_grammar | done]. }
  unfold handle_one_request. destruct (SnapshotManagerRequest_decode bytes) as [r | e] eqn:E.
  - apply (decode_with_grammar request_body _ bytes r Hb) in E as (bs & rest & [Hr _] & _).
    pose proof (dispatch_fits order now now' r m Hm Hnow Hr) as [Hv Hf].
    destruct (dispatch_request _ _ _ _ _) as [resp m']. cbn in *.
    split_and!; [by apply Hdec | done | done].
  - split_and!; [apply Hdec | done | intros; by eauto]. split; [done |].
    eapply text_le; [apply (text_app 30 300); [by apply ascii_check_ok | by_eval |] |].
    + apply error_text. by eapply decode_err_printable.
    + unfold MAX_MESSAGE_BYTES. lia.
Qed.

End fits.

(** ** Requests as steps *)

Section service_steps.
Context {W : Type} `{!VssProvider W} `{!Platform}.
Implicit Types m : SnapshotLeaseManager W.

Lemma sweep_step order now m ts :
  visits_all order m -> rtc step (mkWorld m ts) (mkWorld (sweep_expired order now m) ts).
Proof. intros Ho. by apply rtc_once, StepSweep. Qed.

Lemma create_lease_steps t order volume root life now m ts :
  visits_all order m -> ts !! t = None -> next_lease_id m < 2 ^ 64 - 1 ->
  rtc step (mkWorld m ts) (mkWorld (create_lease order volume root life now m).2 ts).
Proof.
  intros Ho Ht Hn. etransitivity; [by apply (sweep_step order now) |].
  unfold create_lease. cbv zeta. pose proof (sweep_expired_keys order now m) as [Hk _].
  destruct (create_snapshot _ _ _) as [[h | e] p] eqn:E.
  - eapply rtc_l; [by eapply (StepCreateSnapshot t _ _ h p life now) |].
    eapply rtc_l; [apply (StepFetchAdd t h life now); [apply lookup_insert_eq | cbn; lia] |].
    rewrite insert_insert_eq.
    eapply rtc_l; [apply (StepInsert t); apply lookup_insert_eq |].
    rewrite delete_insert_id by done. done.
  - apply rtc_once. by eapply StepCreateFailed.
Qed.

Lemma renew_lease_steps order i e now m ts :
  visits_all order m -> rtc step (mkWorld m ts) (mkWorld (renew_lease order i e now m).2 ts).
Proof.
  intros Ho. etransitivity; [by apply (sweep_step order now) |]. apply rtc_once, StepRenew.
Qed.

Lemma query_lease_steps order i now m ts :
  visits_all order m -> rtc step (mkWorld m ts) (mkWorld (query_lease order i now m).2 ts).
Proof.
  intros Ho. etransitivity; [by apply (sweep_step order now) |]. unfold query_lease. cbv zeta.
  by destruct (leases _ !! _).
Qed.

Lemma handle_duplicate_manager order now d m :
  (handle_duplicate order now d m).2 = sweep_expired order now m.
Proof.
  unfold handle_duplicate, device_identity_if_active.
  destruct (leases _ !! _); [|done]. case_bool_decide; [|done].
  destruct (open_client _); [|done]. destruct (negb _); [done |].
  by destruct (duplicate_snapshot_device_to_reader _ _).
Qed.

(** Serving a request is a sequence of the atomic sections of the lease
    manager, whatever the bytes; so what the service reaches, request after request
    and between the sections of other connections, is reachable in the sense of the
    ledger and finality theorems. *)
Theorem handle_one_request_steps t order now now' bytes m ts :
  visits_all order m -> ts !! t = None -> next_lease_id m < 2 ^ 64 - 1 ->
  rtc step (mkWorld m ts) (mkWorld (handle_one_request order now now' bytes m).2 ts).
Proof.
  intros Ho Ht Hn. unfold handle_one_request.
  destruct (SnapshotManagerRequest_decode bytes) as [[c | d | d | d | d] | e]; cbn [dispatch_request]; [.. | done].
  - pose proof (create_lease_steps t order (source_volume_identity c) (requested_root c)
      (maximum_lifetime_secs c) now m ts Ho Ht Hn). by destruct (create_lease _ _ _ _ _ _).
  - rewrite handle_duplicate_manager. by apply sweep_step.
  - pose proof (renew_lease_steps order (renew_snapshot_lease_id d) (requested_expiry_unix_ms d) now m ts Ho).
    by destruct (renew_lease _ _ _ _ _).
  - pose proof (StepRelease (release_snapshot_lease_id d) m ts) as Hs%rtc_once.
    by destruct (release_lease _ _).
  - pose proof (query_lease_steps order (query_snapshot_lease_id d) now m ts Ho).
    by destruct (query_lease _ _ _ _).
Qed.

(** A handle is duplicated only for a lease that is active at the time of the
    request, into a reader that could be opened and whose image passed the identity
    check; for a lease that has expired or was released the answer is
    [LeaseNotFound], never [LeaseNotActive], as if the Broker did not know it. *)
Theorem handle_duplicate_guards order now d m :
  visits_all order m ->
  let r := swept now <$> leases m !! dup_snapshot_lease_id d in
  ((handle_duplicate order now d m).1 = Duplicated ->
     exists r' q, r = Some r' /\ state r' = RActive /\ now < expires_at_unix_ms r' /\
       open_client (approved_reader_process_id d) = Some q /\
       verify_reader_identity (query_process_image_name q) = true /\
       duplicate_snapshot_device_to_reader (device_identity r') q = Ok tt) /\
  ((r = None \/ exists r', r = Some r' /\ state r' <> RActive) ->
     (handle_duplicate order now d m).1 = lease_error_response NotFound).
Proof.
  intros Ho. cbv zeta. unfold handle_duplicate, device_identity_if_active.
  cbv zeta. rewrite sweep_all_lookup by done.
  destruct (leases m !! dup_snapshot_lease_id d) as [r |] eqn:E; cbn [fmap option_fmap option_map];
    [|split; [done | by intros _]].
  case_bool_decide as Ha.
  - split; [|intros [? | (r' & [= <-] & ?)]; done].
    destruct (open_client _) as [q |] eqn:Eq; [|done]. destruct (negb _) eqn:Ev; [done |].
    destruct (duplicate_snapshot_device_to_reader _ _) as [[] |] eqn:Ed; [|done]. intros _.
    exists (swept now r), q. split_and!; try done; [|by destruct (verify_reader_identity _)].
    unfold swept, overdue in *. destruct (_ && _) eqn:Eo; [done |].
    rewrite bool_decide_eq_true_2 in Eo by done. cbn in Eo. lia.
  - by split.
Qed.

End service_steps.

(** ** Framing *)

Lemma zlen_write_bytes x : zlen (write_bytes_u32_prefixed [] x) = 4 + zlen x.
Proof. unfold write_bytes_u32_prefixed, write_u32_le. zlia. Qed.

Lemma zlen_create_request c :
  zlen (SnapshotManagerRequest_encode (Create c)) =
  29 + zlen (authenticated_job_id c) + zlen (volume_guid (source_volume_identity c)) +
  zlen (requested_root c).
Proof.
  cbn [SnapshotManagerRequest_encode]. unfold CreateSnapshotLease_encode, VolumeIdentity_encode.
  wire_norm. rewrite !zlen_app, !zlen_write_bytes, !zlen_to_le_bytes. change (zlen [0]) with 1. lia.
Qed.

Lemma zlen_small_request r :
  SnapshotManagerRequest_valid r -> (forall c, r <> Create c) ->
  zlen (SnapshotManagerRequest_encode r) <= 17.
Proof.
  intros Hv Hc. destruct r as [c | d | d | d | d]; [by destruct (Hc c) |..];
    cbn [SnapshotManagerRequest_encode];
    unfold DuplicateSnapshotHandle_encode, RenewSnapshotLease_encode, ReleaseSnapshotLease_encode,
      QuerySnapshotLease_encode; wire_norm;
    rewrite ?zlen_app, ?zlen_to_le_bytes, ?zlen_cons, ?zlen_nil; lia.
Qed.

(** A client's frame comes out of the Broker's pipe reader as the request's
    encoding when that is at most 64 KiB and is refused otherwise; and a request
    within the protocol's bounds is refused exactly when it is a creation whose volume
    GUID and root together exceed 65491 bytes, although the protocol admits roots of
    up to 65534. *)
Theorem request_framing {Pipe} (ReadFile : Pipe -> Z -> option (list Z) * Pipe) p p1 p2 r :
  SnapshotManagerRequest_valid r ->
  let frame := frame_message (SnapshotManagerRequest_encode r) in
  ReadFile p 4 = (Some (take 4 frame), p1) ->
  ReadFile p1 (zlen frame - 4) = (Some (drop 4 frame), p2) ->
  read_framed_message ReadFile p =
    (if MAX_REQUEST_BYTES <? zlen (SnapshotManagerRequest_encode r) then (None, p1)
     else (Some (SnapshotManagerRequest_encode r), p2)) /\
  (MAX_REQUEST_BYTES < zlen (SnapshotManagerRequest_encode r) <->
   exists c, r = Create c /\
     65491 < zlen (volume_guid (source_volume_identity c)) + zlen (requested_root c)).
Proof.
  intros Hv frame H4 Hn.
  assert (zlen (SnapshotManagerRequest_encode r) < 2 ^ 32 /\
    (MAX_REQUEST_BYTES < zlen (SnapshotManagerRequest_encode r) <->
     exists c, r = Create c /\
       65491 < zlen (volume_guid (source_volume_identity c)) + zlen (requested_root c)))
    as [Hlen Hiff].
  { unfold MAX_REQUEST_BYTES. destruct r as [c | d | d | d | d];
      [|pose proof (zlen_small_request _ Hv ltac:(done));
        split; [lia |]; split; [lia | by intros (? & ? & _)]..].
    destruct Hv as (_ & Hj & (_ & _ & Hg) & _ & Hr & _).
    unfold MAX_IDENTIFIER_BYTES, MAX_PATH_BYTES in *. rewrite zlen_create_request, Hj.
      split; [lia |]. split; [intros; exists c; split; [done | lia] |].
    intros (c' & [= <-] & ?). lia. }
  split; [|done]. clear Hiff. set (e := SnapshotManagerRequest_encode r) in *.
  pose proof (zlen_nonneg e) as Hpos.
  assert (Hframe : frame = to_le_bytes 4 (zlen e) ++ e).
  { unfold frame, frame_message. by replace (zlen e <? 2 ^ 32) with true by lia. }
  assert (Ht : take 4 frame = to_le_bytes 4 (zlen e)).
  { rewrite Hframe. apply take_app_length'. symmetry. apply length_to_le_bytes. }
  assert (Hd : drop 4 frame = e).
  { rewrite Hframe. apply drop_app_length'. symmetry. apply length_to_le_bytes. }
  rewrite Ht in H4. rewrite Hd in Hn.
  replace (zlen frame - 4) with (zlen e) in Hn by (rewrite Hframe; zlia).
  unfold read_framed_message, read_exact. rewrite H4, zlen_to_le_bytes.
  change (Z.of_nat 4 <? 4) with false. cbn [orb]. cbv iota beta.
  rewrite from_to_le_bytes_small by (change (256 ^ Z.of_nat 4) with (2 ^ 32); lia).
  destruct (_ <? _); [done |]. rewrite Hn. by rewrite Z.ltb_irrefl.
Qed.

(** ** Start-up *)

Section reconcile.
Context {W : Type} `{!VssProvider W} `{!VssLaws W}.
Implicit Types m : SnapshotLeaseManager W.

Lemma delete_each_law ids w :
  let (n, w') := delete_each ids w in
  0 <= n <= zlen ids /\ retained w' ⊆ retained w /\
  (n = zlen ids -> retained w' = retained w ∖ list_to_set ids).
Proof.
  revert w. induction ids as [|id ids IH]; intros w; cbn [delete_each].
  - split_and!; [done.. |]. intros _. cbn. set_solver.
  - pose proof (delete_snapshot_law w id) as Hd. destruct (delete_snapshot w id) as [d w1].
    specialize (IH w1). destruct (delete_each ids w1) as [n w2]. destruct IH as (I1 & I2 & I3).
    rewrite zlen_cons. destruct d; destruct Hd as [Hd _].
    + rewrite Hd in *. split_and!; [lia | lia | set_solver |]. intros Hn. rewrite I3 by lia. cbn. set_solver.
    + split_and!; [lia | lia | destruct Hd as [Hd | Hd]; rewrite Hd in *; set_solver | lia].
Qed.

(** Reconciling at start-up deletes only, never touches the lease table, and,
    when the count it returns is the number of snapshots listed, leaves none of those
    behind. *)
Theorem reconcile_at_startup_exact m :
  let (count, m') := reconcile_at_startup m in
  leases m' = leases m /\ next_lease_id m' = next_lease_id m /\
  retained (provider m') ⊆ retained (provider m) /\
  forall n ids, count = Ok n -> (list_existing_snapshots (provider m)).1 = Ok ids ->
    0 <= n <= zlen ids /\ (n = zlen ids -> retained (provider m') = retained (provider m) ∖ list_to_set ids).
Proof.
  unfold reconcile_at_startup. pose proof (list_existing_snapshots_law (provider m)) as Hl.
  destruct (list_existing_snapshots (provider m)) as [[ids | e] w].
  - destruct Hl as (_ & Hr & _). pose proof (delete_each_law ids w) as Hd.
    destruct (delete_each ids w) as [n w']. destruct Hd as (D1 & D2 & D3). cbn.
    rewrite Hr in *. split_and!; try done. intros n' ids' [= <-] [= <-]. by split.
  - destruct Hl as [Hr _]. cbn. rewrite Hr. split_and!; done || set_solver.
Qed.

End reconcile.

(** ** Witnesses *)

(** A backend that numbers its snapshots, as the crate's own tests use. *)
Record FakeVss := mkFakeVss { fake_next : Z; fake_alive : gset (list Z); fake_drawn : gset (list Z) }.

#[export] Instance FakeVss_provider : VssProvider FakeVss := {
  create_snapshot w _ _ :=
    let id := to_le_bytes 8 (fake_next w) in
    if decide (id ∈ fake_drawn w)
    then (Err (CreateFailed None (str "exhausted")), w)
    else (Ok (mkSnapshotHandle id (str "FakeShadowCopy")),
          mkFakeVss (fake_next w + 1) ({[ id ]} ∪ fake_alive w) ({[ id ]} ∪ fake_drawn w));
  delete_snapshot w id := (Ok tt, mkFakeVss (fake_next w) (fake_alive w ∖ {[ id ]}) (fake_drawn w));
  list_existing_snapshots w := (Ok (elements (fake_alive w)), w)
}.

#[export, refine] Instance FakeVss_laws : VssLaws FakeVss := {
  retained := fake_alive; issued := fake_drawn; undeleted _ := ∅
}.
Proof.
  - intros w v root. cbn. by case_decide.
  - done.
  - intros w. cbn. split; [intros id; apply elem_of_elements | done].
Defined.

#[export] Instance FakeVss_fits : VssFits FakeVss.
Proof.
  split; [|done]. intros w v root. cbn. case_decide; cbn.
  - split; [done |]. apply text_ascii; [by apply ascii_check_ok | by_eval].
  - split_and!; [apply (to_le_bytes_byte 8) | by_eval |].
    apply text_ascii; [by apply ascii_check_ok | by_eval].
Qed.

#[export] Instance Fake_platform : Platform := {|
  Process := Z; OsStr := string;
  open_client pid := if pid =? 4321 then Some pid else None;
  query_process_image_name _ := Some "uffs-content-reader.exe"%string;
  file_name_str p := Some p;
  verify_authenticode _ := true;
  duplicate_snapshot_device_to_reader _ _ := Ok tt
|}.

#[export] Instance Fake_platform_fits : PlatformFits.
Proof. by intros device p. Qed.

Definition fake_start : FakeVss := mkFakeVss 0 ∅ ∅.
Definition fake_volume : VolumeIdentity := mkVolumeIdentity 7 [1; 2].
Definition one_lease : SnapshotLeaseManager FakeVss :=
  (create_lease [] fake_volume [] 60 1000 (manager_new fake_start)).2.

Lemma one_lease_reachable : reachable fake_start (mkWorld one_lease ∅).
Proof.
  apply (create_lease_steps 0); [|done | by_eval]. unfold visits_all. by vm_compute.
Qed.

Lemma lease_manager_refines_ledger_witness :
  ledger_ok ∅ (ledger (mkWorld one_lease ∅)) /\ leases one_lease !! 1 <> None.
Proof.
  split.
  - exact (proj1 (proj2 (lease_manager_refines_ledger fake_start _ one_lease_reachable))).
  - by vm_compute.
Defined.

Lemma lease_final_witness :
  exists r', leases (renew_locked 1 5000 (release_lease 1 one_lease).2).2 !! 1 = Some r' /\
    state r' = RReleased.
Proof.
  destruct (lease_final fake_start (mkWorld (release_lease 1 one_lease).2 ∅)
    (mkWorld (renew_locked 1 5000 (release_lease 1 one_lease).2).2 ∅) 1
    (mkLeaseRecord (to_le_bytes 8 0) (str "FakeShadowCopy") 1000 61000 RReleased))
    as (r' & Hr & _ & _ & _ & Hf).
  - eapply rtc_r; [exact one_lease_reachable | apply StepRelease].
  - apply rtc_once, StepRenew.
  - by vm_compute.
  - exists r'. split; [exact Hr |]. by rewrite Hf.
Defined.

Lemma lease_answers_witness :
  (renew_lease [1] 1 90000 61000 one_lease).1 = Err NotActive.
Proof.
  destruct (lease_answers [1] 1 61000 90000 one_lease) as (_ & _ & H & _).
  - unfold visits_all. by vm_compute.
  - rewrite H. by vm_compute.
Defined.

Lemma service_answers_witness :
  SnapshotManagerResponse_decode (SnapshotManagerResponse_encode
    (handle_one_request [] 1000 1000 [9] (manager_new fake_start)).1) =
  Ok (handle_one_request [] 1000 1000 [9] (manager_new fake_start)).1.
Proof.
  apply (service_answers [] 1000 1000 [9] (manager_new fake_start)).
  - split; [by_eval | apply map_Forall_empty].
  - by_eval.
  - forall_eval.
Defined.

Lemma handle_one_request_steps_witness :
  rtc step (mkWorld one_lease ∅)
    (mkWorld (handle_one_request [1] 2000 2000
       (SnapshotManagerRequest_encode (Release (mkReleaseSnapshotLease 1))) one_lease).2 ∅).
Proof.
  apply (handle_one_request_steps 0).
  - unfold visits_all. by vm_compute.
  - done.
  - by_eval.
Defined.

Lemma handle_duplicate_guards_witness :
  (handle_duplicate [1] 61000 (mkDuplicateSnapshotHandle 1 4321) one_lease).1 =
    lease_error_response NotFound /\
  (handle_duplicate [1] 60999 (mkDuplicateSnapshotHandle 1 4321) one_lease).1 = Duplicated.
Proof.
  split; [|by vm_compute].
  apply (handle_duplicate_guards [1] 61000 (mkDuplicateSnapshotHandle 1 4321) one_lease).
  - unfold visits_all. by vm_compute.
  - right. eexists. split; [vm_compute; reflexivity | done].
Defined.

Definition long_root : SnapshotManagerRequest :=
  Create (mkCreateSnapshotLease (replicate 16 1) fake_volume (zrepeat 0 65534) 3600 1).

Lemma long_root_valid : SnapshotManagerRequest_valid long_root.
Proof.
  unfold long_root. split; [forall_eval |]. split; [by_eval |].
  split; [split; [by_eval |]; split; [forall_eval | by_eval] |].
  split; [by apply Forall_replicate |]. split; [|split; by_eval].
  cbn [requested_root]. unfold zlen, zrepeat. rewrite length_replicate. by_eval.
Qed.

Definition list_pipe (p : list Z) (n : Z) : option (list Z) * list Z :=
  (Some (take (Z.to_nat n) p), drop (Z.to_nat n) p).

Lemma request_framing_witness :
  SnapshotManagerRequest_valid long_root /\
  read_framed_message list_pipe (frame_message (SnapshotManagerRequest_encode long_root)) =
  (None, drop 4 (frame_message (SnapshotManagerRequest_encode long_root))).
Proof.
  split; [exact long_root_valid |].
  destruct (request_framing list_pipe (frame_message (SnapshotManagerRequest_encode long_root))
    (drop 4 (frame_message (SnapshotManagerRequest_encode long_root))) [] long_root
    long_root_valid eq_refl) as [H Hiff].
  - assert (length (drop 4 (frame_message (SnapshotManagerRequest_encode long_root))) <=
      Z.to_nat (zlen (frame_message (SnapshotManagerRequest_encode long_root)) - 4))%nat as Hl
      by (rewrite length_drop; unfold zlen; lia).
    unfold list_pipe. rewrite (take_ge _ _ Hl), (drop_ge _ _ Hl). reflexivity.
  - rewrite H. assert (MAX_REQUEST_BYTES < zlen (SnapshotManagerRequest_encode long_root)) as Hx.
    { apply Hiff. eexists. split; [reflexivity |]. cbn [requested_root source_volume_identity].
      unfold zlen, zrepeat. rewrite length_replicate. by_eval. }
    apply Z.ltb_lt in Hx. rewrite Hx. exact eq_refl.
Defined.
