(* ===== verification/CsrIndex.v ===== *)
(** The compressed-sparse-row indexes of a drive: [crates/uffs-core/src/compact/record.rs],
    [compact/children.rs] and [compact/extension.rs], and the counting sort the trigram
    index shares with them.

    The indexes are built by one counting sort (count, prefix sums, scatter), whose
    specification is proved once, for sequential stores and for stores in any order. *)
From S2P Require Import Prelude.
From stdpp Require Import strings.
Local Open Scope Z_scope.
Local Open Scope rust_scope.

(** * Counting sort *)

(** [if let Some(c) = counts.get_mut(k) { *c += 1 }]. *)
Definition bump (counts : list Z) (k : Z) : list Z :=
  match zget counts k with
  | Some c => zset counts k (u32 (c + 1))
  | None => counts
  end.

(** The offsets, with the closing sentinel. *)
Fixpoint prefix_sums (running : Z) (counts : list Z) : list Z :=
  match counts with
  | [] => [running]
  | c :: counts => running :: prefix_sums (saturating_add_u32 running c) counts
  end.

(** The value goes to the slot at the key's write position, which moves on; nothing
    happens when the key or the slot is out of range. *)
Definition scatter_step (st : list Z * list Z) (item : Z * Z) : list Z * list Z :=
  let (write_pos, values) := st in
  let (k, v) := item in
  match zget write_pos k with
  | None => st
  | Some pos =>
      match zget values pos with
      | None => st
      | Some _ => (zset write_pos k (u32 (pos + 1)), zset values pos v)
      end
  end.

(** [values.get(offsets[k]..offsets[k + 1])]. *)
Definition csr_slice (offsets values : list Z) (k : Z) : list Z :=
  let start := default 0 (zget offsets k) in
  let stop := default 0 (zget offsets (k + 1)) in
  default [] (get_range values start stop).

(** What is under a key, in order. *)
Definition under (k : Z) (items : list (Z * Z)) : list Z :=
  omap (fun it => if it.1 =? k then Some it.2 else None) items.

Lemma under_nil k : under k [] = [].
Proof. done. Qed.
Lemma under_app k a b : under k (a ++ b) = under k a ++ under k b.
Proof. apply omap_app. Qed.
Lemma under_one_eq k v : under k [(k, v)] = [v].
Proof. cbn. by rewrite Z.eqb_refl. Qed.
Lemma under_one_ne k j v : k <> j -> under j [(k, v)] = [].
Proof. intros H. cbn. by replace (k =? j) with false by lia. Qed.

Lemma zlen_under k items : zlen (under k items) <= zlen items.
Proof.
  induction items as [|[j v] items IH]; [done |].
  change ((j, v) :: items) with ([(j, v)] ++ items). rewrite under_app, zlen_app.
  rewrite zlen_app. change (zlen [(j, v)]) with 1. cbn. destruct (j =? k); unfold zlen in *; cbn in *; lia.
Qed.

(** ** Counts *)

Lemma zlen_bump counts k : zlen (bump counts k) = zlen counts.
Proof. unfold bump. destruct (zget counts k); [apply zlen_zset | done]. Qed.

Lemma counts_spec (items : list (Z * Z)) counts k c :
  zget counts k = Some c -> 0 <= c -> c + zlen items < 2 ^ 32 ->
  zget (foldl bump counts (map fst items)) k = Some (c + zlen (under k items)).
Proof.
  revert counts c. induction items as [|[j v] items IH]; intros counts c Hc H0 Hb; cbn [map foldl fst].
  - rewrite Hc. f_equal. cbn. unfold zlen. cbn. lia.
  - rewrite zlen_cons in Hb. pose proof (zlen_nonneg items).
    change ((j, v) :: items) with ([(j, v)] ++ items). rewrite under_app, zlen_app.
    destruct (Z.eq_dec j k) as [-> | Hj].
    + rewrite under_one_eq. change (zlen [v]) with 1.
      rewrite (IH _ (c + 1)); [f_equal; lia | | lia | lia].
      unfold bump. rewrite Hc, u32_small by lia. apply zget_zset_eq. apply zget_Some in Hc as [? _]; lia.
    + rewrite under_one_ne by done. change (zlen []) with 0.
      rewrite (IH _ c); [f_equal; lia | | lia | lia].
      unfold bump. destruct (zget counts j); [|done]. by rewrite zget_zset_ne.
Qed.

Lemma zlen_counts ks counts : zlen (foldl bump counts ks) = zlen counts.
Proof. revert counts. induction ks as [|k ks IH]; intros; cbn; [done |]. by rewrite IH, zlen_bump. Qed.

Lemma zget_zrepeat {A} (x : A) n k : 0 <= k < n -> zget (zrepeat x n) k = Some x.
Proof.
  intros H. apply zget_Some. unfold zlen, zrepeat. rewrite length_replicate.
  split; [lia |]. apply lookup_replicate. split; [done | lia].
Qed.

Lemma zlen_zrepeat {A} (x : A) n : 0 <= n -> zlen (zrepeat x n) = n.
Proof. intros H. unfold zlen, zrepeat. rewrite length_replicate. lia. Qed.

(** ** Offsets *)

(** The items under the keys below [k]. *)
Fixpoint below (k : nat) (items : list (Z * Z)) : Z :=
  match k with
  | O => 0
  | S k => below k items + zlen (under (Z.of_nat k) items)
  end.

Lemma below_nonneg k items : 0 <= below k items.
Proof. induction k as [|k IH]; cbn; [lia |]. pose proof (zlen_nonneg (under (Z.of_nat k) items)). lia. Qed.

Lemma below_mono k j items : (k <= j)%nat -> below k items <= below j items.
Proof.
  induction 1 as [|j Hj IH]; [lia |]. cbn. pose proof (zlen_nonneg (under (Z.of_nat j) items)). lia.
Qed.

Lemma below_nil k : below k [] = 0.
Proof. induction k as [|k IH]; cbn; [done |]. by rewrite IH. Qed.

Lemma below_cons k j v items :
  below k ((j, v) :: items) = below k items + (if (0 <=? j) && (j <? Z.of_nat k) then 1 else 0).
Proof.
  induction k as [|k IH]; [cbn; zcases; cbn; lia |]. cbn [below]. rewrite IH.
  change ((j, v) :: items) with ([(j, v)] ++ items). rewrite under_app, zlen_app.
  destruct (Z.eq_dec j (Z.of_nat k)) as [-> | Hj].
  - rewrite under_one_eq. change (zlen [v]) with 1. zcases; cbn; lia.
  - rewrite under_one_ne by done. change (zlen []) with 0. zcases; cbn; lia.
Qed.

Lemma below_le k items : below k items <= zlen items.
Proof.
  induction items as [|[j v] items IH]; [by rewrite below_nil |].
  rewrite below_cons, zlen_cons. destruct (_ && _); lia.
Qed.

Lemma below_all n items :
  Forall (fun it => 0 <= it.1 < Z.of_nat n) items -> below n items = zlen items.
Proof.
  induction 1 as [|[j v] items Hj _ IH]; [apply below_nil |].
  rewrite below_cons, zlen_cons, IH. cbn in Hj. zcases; cbn; lia.
Qed.

Lemma zget_cons {A} (x : A) l i :
  0 <= i -> zget (x :: l) i = if i =? 0 then Some x else zget l (i - 1).
Proof.
  intros Hi. destruct (Z.eqb_spec i 0) as [-> |].
  - unfold zget. rewrite zlen_cons. pose proof (zlen_nonneg l).
    by replace (0 <? 1 + zlen l) with true by lia.
  - change (x :: l) with ([x] ++ l). apply zget_app_r. change (zlen [x]) with 1. lia.
Qed.

Lemma prefix_sums_spec items n counts :
  zlen counts = Z.of_nat n -> zlen items < 2 ^ 32 ->
  (forall k, 0 <= k < Z.of_nat n -> zget counts k = Some (zlen (under k items))) ->
  forall k, 0 <= k <= Z.of_nat n ->
  zget (prefix_sums 0 counts) k = Some (below (Z.to_nat k) items).
Proof.
  intros Hn Hlen Hc.
  cut (forall m cs, (m + length cs = n)%nat ->
    (forall i, 0 <= i < zlen cs -> zget cs i = Some (zlen (under (Z.of_nat m + i) items))) ->
    forall i, 0 <= i <= zlen cs ->
    zget (prefix_sums (below m items) cs) i = Some (below (m + Z.to_nat i) items)).
  { intros H k Hk. apply (H O counts); [unfold zlen in Hn; lia | | lia].
    intros i Hi. rewrite Z.add_0_l. apply Hc. lia. }
  intros m cs. revert m. induction cs as [|c cs IH]; intros m Hm Hcs i Hi; cbn [prefix_sums].
  - change (zlen []) with 0 in Hi. replace i with 0 by lia. cbn. by rewrite Nat.add_0_r.
  - rewrite zget_cons by lia. destruct (Z.eqb_spec i 0) as [-> |]; [cbn; by rewrite Nat.add_0_r |].
    rewrite zlen_cons in *. pose proof (zlen_nonneg cs).
    assert (c = zlen (under (Z.of_nat m) items)) as ->.
    { specialize (Hcs 0 ltac:(lia)). rewrite zget_cons, Z.add_0_r in Hcs by lia.
      cbn in Hcs. by injection Hcs. }
    replace (saturating_add_u32 (below m items) (zlen (under (Z.of_nat m) items)))
      with (below (S m) items).
    + cbn [length] in Hm. rewrite IH by (lia || (intros j Hj;
        specialize (Hcs (j + 1) ltac:(lia)); rewrite zget_cons in Hcs by lia;
        replace (j + 1 =? 0) with false in Hcs by lia; rewrite Z.add_simpl_r in Hcs;
        rewrite Hcs; do 3 f_equal; lia)).
      do 2 f_equal. lia.
    + unfold saturating_add_u32, U32_MAX. cbn [below]. pose proof (below_le (S m) items) as Hb.
      cbn [below] in Hb. lia.
Qed.

Lemma prefix_sums_last counts r :
  zget (prefix_sums r counts) (zlen counts) = Some (foldl saturating_add_u32 r counts).
Proof.
  revert r. induction counts as [|c counts IH]; intros r; [done |]. cbn [prefix_sums foldl].
  pose proof (zlen_nonneg counts). rewrite zlen_cons, zget_cons by lia.
  replace (1 + zlen counts =? 0) with false by lia. rewrite <- IH. f_equal. lia.
Qed.

Lemma zlen_prefix_sums counts r : zlen (prefix_sums r counts) = zlen counts + 1.
Proof.
  revert r. induction counts as [|c counts IH]; intros r; cbn; [done |]. rewrite !zlen_cons, IH. lia.
Qed.

(** ** Stores *)

(** The stores of a scatter into [total] slots, in order. *)
Fixpoint stores (total : Z) (write_pos : list Z) (items : list (Z * Z)) : list (Z * Z) :=
  match items with
  | [] => []
  | (k, v) :: items =>
      match zget write_pos k with
      | None => stores total write_pos items
      | Some pos =>
          if (0 <=? pos) && (pos <? total)
          then (pos, v) :: stores total (zset write_pos k (u32 (pos + 1))) items
          else stores total write_pos items
      end
  end.

Definition apply_stores (ws : list (Z * Z)) (values : list Z) : list Z :=
  foldl (fun vs (w : Z * Z) => zset vs w.1 w.2) values ws.

Lemma zlen_apply_stores ws values : zlen (apply_stores ws values) = zlen values.
Proof.
  unfold apply_stores. revert values. induction ws as [|w ws IH]; intros; cbn; [done |].
  by rewrite IH, zlen_zset.
Qed.

(** A sequential scatter performs its stores. *)
Lemma scatter_stores items wp values :
  (foldl scatter_step (wp, values) items).2 = apply_stores (stores (zlen values) wp items) values.
Proof.
  revert wp values. induction items as [|[k v] items IH]; intros wp values; [done |].
  cbn [foldl scatter_step stores]. destruct (zget wp k) as [p |]; [|apply IH].
  destruct (zget values p) eqn:E.
  - apply zget_Some in E as [E _].
    replace ((0 <=? p) && (p <? zlen values)) with true by lia.
    rewrite IH, zlen_zset. done.
  - apply zget_None in E. replace ((0 <=? p) && (p <? zlen values)) with false by lia. apply IH.
Qed.

Lemma apply_stores_notin ws values p :
  p ∉ ws.*1 -> zget (apply_stores ws values) p = zget values p.
Proof.
  unfold apply_stores. revert values. induction ws as [|w ws IH]; intros values Hp; [done |].
  cbn in *. rewrite IH by set_solver. apply zget_zset_ne. set_solver.
Qed.

(** Stores to distinct slots commute. *)
Lemma apply_stores_in ws values p v :
  NoDup ws.*1 -> (p, v) ∈ ws -> 0 <= p < zlen values -> zget (apply_stores ws values) p = Some v.
Proof.
  revert values. induction ws as [|w ws IH]; intros values Hn Hw Hp; [by apply not_elem_of_nil in Hw |].
  cbn in Hn. apply NoDup_cons in Hn as [Hw1 Hn]. apply elem_of_cons in Hw as [<- | Hw].
  - change (apply_stores ((p, v) :: ws) values) with (apply_stores ws (zset values p v)).
    rewrite apply_stores_notin by done. by apply zget_zset_eq.
  - apply IH; [done | done |]. by rewrite zlen_zset.
Qed.

Section layout.
Context (n : nat) (all : list (Z * Z)).

Definition in_keys (k : Z) : bool := (0 <=? k) && (k <? Z.of_nat n).

(** The slot of an item: its key's offset and its rank under the key. *)
Fixpoint slots (seen items : list (Z * Z)) : list (Z * Z) :=
  match items with
  | [] => []
  | (k, v) :: items =>
      (if in_keys k then [(below (Z.to_nat k) all + zlen (under k seen), v)] else [])
      ++ slots (seen ++ [(k, v)]) items
  end.

(** The write positions after the items [seen]; there may be a sentinel, which is past
    the last slot. *)
Definition positions_after (seen : list (Z * Z)) (wp : list Z) : Prop :=
  (forall k, 0 <= k < Z.of_nat n -> zget wp k = Some (below (Z.to_nat k) all + zlen (under k seen))) /\
  (forall k p, ~ 0 <= k < Z.of_nat n -> zget wp k = Some p -> p = below n all).

Lemma below_S k : 0 <= k -> below (S (Z.to_nat k)) all = below (Z.to_nat k) all + zlen (under k all).
Proof. intros H. cbn [below]. by rewrite Z2Nat.id. Qed.

Lemma slot_bound k seen v items :
  all = seen ++ (k, v) :: items -> 0 <= k < Z.of_nat n ->
  0 <= below (Z.to_nat k) all + zlen (under k seen) < below n all.
Proof.
  intros Ha Hk. pose proof (below_nonneg (Z.to_nat k) all). pose proof (zlen_nonneg (under k seen)).
  pose proof (below_mono (S (Z.to_nat k)) n all ltac:(lia)) as Hm. rewrite below_S in Hm by lia.
  assert (zlen (under k all) = zlen (under k seen) + 1 + zlen (under k items)) as Hu.
  { rewrite Ha. change ((k, v) :: items) with ([(k, v)] ++ items).
    rewrite !under_app, under_one_eq. zlia. }
  pose proof (zlen_nonneg (under k items)). lia.
Qed.

Lemma positions_after_step seen wp k v :
  positions_after seen wp -> 0 <= k < Z.of_nat n ->
  below (Z.to_nat k) all + zlen (under k seen) + 1 < 2 ^ 32 ->
  positions_after (seen ++ [(k, v)])
    (zset wp k (u32 (below (Z.to_nat k) all + zlen (under k seen) + 1))).
Proof.
  intros [Hw Ho] Hk Hb. pose proof (below_nonneg (Z.to_nat k) all).
  pose proof (zlen_nonneg (under k seen)). pose proof (Hw k Hk) as [Hl _]%zget_Some.
  split; [|intros j p Hj; rewrite zget_zset_ne by (intros ->; done); by apply Ho]. intros j Hj.
  rewrite under_app, zlen_app. destruct (Z.eq_dec k j) as [<- | Hkj].
  - rewrite zget_zset_eq, under_one_eq, u32_small by lia. f_equal. change (zlen [v]) with 1. lia.
  - rewrite zget_zset_ne, under_one_ne, Hw by done. f_equal. change (zlen []) with 0. lia.
Qed.

Lemma positions_after_skip seen wp k v :
  positions_after seen wp -> ~ 0 <= k < Z.of_nat n -> positions_after (seen ++ [(k, v)]) wp.
Proof.
  intros [Hw Ho] Hk. split; [|done]. intros j Hj. rewrite Hw by done.
  rewrite under_app, under_one_ne by lia. by rewrite app_nil_r.
Qed.

Lemma slots_app seen a b : slots seen (a ++ b) = slots seen a ++ slots (seen ++ a) b.
Proof.
  revert seen. induction a as [|[k v] a IH]; intros seen; cbn; [by rewrite app_nil_r |].
  by rewrite IH, <- !app_assoc.
Qed.

(** The stores of a stretch of the items are its slots. *)
Lemma stores_slots items seen rest wp :
  all = seen ++ items ++ rest -> zlen all < 2 ^ 32 -> positions_after seen wp ->
  stores (below n all) wp items = slots seen items.
Proof.
  revert seen wp. induction items as [|[k v] items IH]; intros seen wp Ha Hb Hp; [done |].
  cbn [stores slots]. unfold in_keys. destruct (decide (0 <= k < Z.of_nat n)) as [Hk | Hk].
  - replace ((0 <=? k) && (k <? Z.of_nat n)) with true by lia.
    destruct Hp as [Hw Ho] eqn:Ep. rewrite Hw by done.
    pose proof (slot_bound k seen v (items ++ rest) Ha Hk) as Hs. pose proof (below_le n all).
    replace ((0 <=? _) && (_ <? below n all)) with true by lia. cbn [app]. f_equal.
    apply IH; [by rewrite <- app_assoc | done |]. apply positions_after_step; [done | done | lia].
  - replace ((0 <=? k) && (k <? Z.of_nat n)) with false by lia.
    assert (stores (below n all) wp items = slots (seen ++ [(k, v)]) items) as Hs.
    { apply IH; [by rewrite <- app_assoc | done |]. by apply positions_after_skip. }
    destruct (zget wp k) as [p |] eqn:Ek; [|done]. apply (proj2 Hp) in Ek as ->; [|done].
    by rewrite Z.ltb_irrefl, andb_false_r.
Qed.

(** Where the slots lie. *)
Lemma slots_range items seen p v :
  all = seen ++ items -> (p, v) ∈ slots seen items ->
  exists k r, 0 <= k < Z.of_nat n /\ p = below (Z.to_nat k) all + r /\
    zlen (under k seen) <= r < zlen (under k all).
Proof.
  revert seen. induction items as [|[k w] items IH]; intros seen Ha Hp; [by apply not_elem_of_nil in Hp |].
  cbn [slots] in Hp. apply elem_of_app in Hp as [Hp | Hp].
  - unfold in_keys in Hp. destruct ((0 <=? k) && (k <? Z.of_nat n)) eqn:Ek; [|by apply not_elem_of_nil in Hp].
    apply list_elem_of_singleton in Hp. injection Hp as -> ->.
    exists k, (zlen (under k seen)). split; [lia |]. split; [done |]. split; [lia |].
    rewrite Ha. change ((k, w) :: items) with ([(k, w)] ++ items).
    rewrite !under_app, under_one_eq, !zlen_app. change (zlen [w]) with 1.
    pose proof (zlen_nonneg (under k items)). lia.
  - apply IH in Hp as (j & r & Hj & -> & Hr); [|by rewrite <- app_assoc].
    exists j, r. split; [done |]. split; [done |].
    rewrite under_app, zlen_app in Hr. pose proof (zlen_nonneg (under j [(k, w)])). lia.
Qed.

Lemma slots_disjoint k j r s :
  0 <= k -> 0 <= j -> 0 <= r < zlen (under k all) -> 0 <= s < zlen (under j all) ->
  below (Z.to_nat k) all + r = below (Z.to_nat j) all + s -> k = j /\ r = s.
Proof.
  intros Hk Hj Hr Hs E. destruct (Z.lt_trichotomy k j) as [H | [-> | H]]; [| split; [done | lia] |].
  - pose proof (below_mono (S (Z.to_nat k)) (Z.to_nat j) all ltac:(lia)).
    rewrite below_S in * by done. lia.
  - pose proof (below_mono (S (Z.to_nat j)) (Z.to_nat k) all ltac:(lia)).
    rewrite below_S in * by done. lia.
Qed.

Lemma slots_NoDup items seen : all = seen ++ items -> NoDup (slots seen items).*1.
Proof.
  revert seen. induction items as [|[k v] items IH]; intros seen Ha; [constructor |].
  assert (Ha' : all = (seen ++ [(k, v)]) ++ items) by (by rewrite <- app_assoc).
  cbn [slots]. unfold in_keys. destruct ((0 <=? k) && (k <? Z.of_nat n)) eqn:Ek; [|by apply IH].
  cbn. constructor; [|by apply IH]. intros ([p w] & Ep & Hw)%list_elem_of_fmap. cbn in Ep. subst p.
  apply (slots_range items _ _ _ Ha') in Hw as (j & r & Hj & E & Hr).
  rewrite under_app, zlen_app in Hr. pose proof (zlen_nonneg (under k seen)).
  pose proof (zlen_nonneg (under j seen)). pose proof (zlen_nonneg (under j [(k, v)])).
  assert (zlen (under k seen) < zlen (under k all)).
  { rewrite Ha. change ((k, v) :: items) with ([(k, v)] ++ items).
    rewrite !under_app, under_one_eq, !zlen_app. change (zlen [v]) with 1.
    pose proof (zlen_nonneg (under k items)). lia. }
  apply slots_disjoint in E as [<- <-]; [| lia..].
  rewrite under_one_eq in Hr. change (zlen [v]) with 1 in Hr. lia.
Qed.

(** Every item under a key has its slot. *)
Lemma slots_complete items seen k r v :
  all = seen ++ items -> 0 <= k < Z.of_nat n -> zlen (under k seen) <= r ->
  zget (under k all) r = Some v -> (below (Z.to_nat k) all + r, v) ∈ slots seen items.
Proof.
  revert seen. induction items as [|[j w] items IH]; intros seen Ha Hk Hr Hv.
  - rewrite app_nil_r in Ha. subst seen. apply zget_Some in Hv. lia.
  - assert (Ha' : all = (seen ++ [(j, w)]) ++ items) by (by rewrite <- app_assoc).
    cbn [slots]. apply elem_of_app. destruct (Z.eq_dec j k) as [-> | Hj].
    + destruct (Z.eq_dec r (zlen (under k seen))) as [-> | Hne].
      * left. unfold in_keys. replace ((0 <=? k) && (k <? Z.of_nat n)) with true by lia.
        apply list_elem_of_singleton. f_equal.
        rewrite Ha in Hv. change ((k, w) :: items) with ([(k, w)] ++ items) in Hv.
        rewrite !under_app, under_one_eq in Hv.
        rewrite zget_app_r, Z.sub_diag in Hv by lia. cbn in Hv.
        rewrite zget_cons in Hv by lia. by injection Hv.
      * right. apply IH; [done | done | | done]. rewrite under_app, under_one_eq, zlen_app.
        change (zlen [w]) with 1. lia.
    + right. apply IH; [done | done | | done]. rewrite under_app, under_one_ne by done.
      by rewrite app_nil_r.
Qed.

(** The counting sort, whatever the order of its stores: each key's slice is the
    key's items in order, and there is nothing under other keys. *)
Lemma csr_exact counts ws k :
  zlen counts = Z.of_nat n ->
  (forall k, 0 <= k < Z.of_nat n -> zget counts k = Some (zlen (under k all))) ->
  zlen all < 2 ^ 32 -> ws ≡ₚ slots [] all -> 0 <= k ->
  csr_slice (prefix_sums 0 counts) (apply_stores ws (zrepeat 0 (below n all))) k =
  if k <? Z.of_nat n then under k all else [].
Proof.
  intros Hc Hcount Hb Hws Hk. unfold csr_slice.
  assert (Hoff := prefix_sums_spec all n counts Hc Hb Hcount).
  assert (Hlen : zlen (prefix_sums 0 counts) = Z.of_nat n + 1) by (rewrite zlen_prefix_sums; lia).
  pose proof (below_nonneg n all).
  destruct (Z.ltb_spec k (Z.of_nat n)) as [Hkn | Hkn].
  - rewrite !Hoff by lia. cbn [default from_option]. unfold id.
    replace (Z.to_nat (k + 1)) with (S (Z.to_nat k)) by lia. rewrite below_S by done.
    pose proof (below_nonneg (Z.to_nat k) all). pose proof (zlen_nonneg (under k all)).
    pose proof (below_mono (S (Z.to_nat k)) n all ltac:(lia)) as Hm. rewrite below_S in Hm by done.
    destruct (get_range _ _ _) as [s |] eqn:E; [|apply get_range_None in E;
      rewrite zlen_apply_stores, zlen_zrepeat in E; lia].
    cbn. pose proof (get_range_len _ _ _ _ E) as Hs. apply zget_ext; [lia |]. intros r Hr.
    rewrite (zget_get_range _ _ _ _ _ E) by lia.
    destruct (zget_is_Some (under k all) r) as [v Hv]; [lia |]. rewrite Hv.
    apply apply_stores_in.
    + rewrite Hws. by apply slots_NoDup.
    + rewrite Hws. apply (slots_complete all []); [done | lia | | done]. cbn. apply Hr.
    + rewrite zlen_zrepeat by lia. lia.
  - replace (zget (prefix_sums 0 counts) (k + 1)) with (@None Z)
      by (symmetry; apply zget_None; lia). cbn [default from_option].
    destruct (Z.eq_dec k (Z.of_nat n)) as [-> |].
    + rewrite Hoff by lia. cbn. rewrite Nat2Z.id. unfold get_range.
      destruct (_ && _) eqn:E; [|done].
      assert (below n all = 0) as -> by lia. done.
    + replace (zget (prefix_sums 0 counts) k) with (@None Z)
        by (symmetry; apply zget_None; lia). cbn. unfold get_range.
      by destruct (_ && _).
Qed.

End layout.

(** * Records *)

Record CompactRecord := mkCompactRecord {
  size : Z; allocated : Z; treesize : Z; tree_allocated : Z;
  created : Z; modified : Z; accessed : Z; file_ref : Z;
  name_offset : Z; flags : Z; parent_idx : Z; descendants : Z;
  name_len : Z; extension_id : Z; path_len : Z; name_first_byte : Z
}.

Definition len_to_u32 (len : Z) : Z := if len <=? U32_MAX then len else U32_MAX.

(** * Children *)

Record ChildrenIndex := mkChildrenIndex { ci_offsets : list Z; ci_values : list Z }.

Definition ChildrenIndex_build (records : list CompactRecord) : ChildrenIndex :=
  let counts := foldl (fun counts rec =>
      let parent := parent_idx rec in
      if negb (parent =? U32_MAX) then bump counts parent else counts)
    (zrepeat 0 (zlen records)) records in
  let offsets := prefix_sums 0 counts in
  let running := foldl saturating_add_u32 0 counts in
  let values := zrepeat 0 running in
  let write_pos := offsets in
  let (_, values) := foldl (fun st (it : Z * CompactRecord) =>
      let parent := parent_idx it.2 in
      if negb (parent =? U32_MAX) then scatter_step st (parent, len_to_u32 it.1) else st)
    (write_pos, values) (enumerate records) in
  mkChildrenIndex offsets values.

Definition ChildrenIndex_get (ci : ChildrenIndex) (idx : Z) : list Z :=
  csr_slice (ci_offsets ci) (ci_values ci) idx.

Definition ChildrenIndex_empty : ChildrenIndex := mkChildrenIndex [0] [].

(** * Extensions *)

Record ExtensionIndex := mkExtensionIndex { ei_offsets : list Z; ei_values : list Z }.

Definition max_extension_id (records : list CompactRecord) : Z :=
  foldr (fun rec m => Z.max (extension_id rec) m) 0 records.

Definition ExtensionIndex_build (records : list CompactRecord) : ExtensionIndex :=
  let max_id := max_extension_id records in
  let counts := foldl (fun counts rec =>
      if name_len rec =? 0 then counts else bump counts (extension_id rec))
    (zrepeat 0 (max_id + 1)) records in
  let offsets := prefix_sums 0 counts in
  let running := foldl saturating_add_u32 0 counts in
  let values := zrepeat 0 running in
  let write_pos := offsets in
  let (_, values) := foldl (fun st (it : Z * CompactRecord) =>
      if name_len it.2 =? 0 then st
      else scatter_step st (extension_id it.2, len_to_u32 it.1))
    (write_pos, values) (enumerate records) in
  mkExtensionIndex offsets values.

Definition ExtensionIndex_get (ei : ExtensionIndex) (ext_id : Z) : list Z :=
  csr_slice (ei_offsets ei) (ei_values ei) ext_id.

Definition ExtensionIndex_empty : ExtensionIndex := mkExtensionIndex [0] [].

(** ** Exactness *)

(** The indices of the records that satisfy [f], ascending. *)
Definition indices_where {A} (f : A -> bool) (records : list A) : list Z :=
  map fst (List.filter (fun it => f it.2) (enumerate records)).

(** The keyed items of a build: the records it admits, under their keys. *)
Definition keyed {A} (keep : A -> bool) (key : A -> Z) (records : list A) : list (Z * Z) :=
  map (fun it => (key it.2, len_to_u32 it.1)) (List.filter (fun it => keep it.2) (enumerate records)).

Lemma foldl_guard {S A B} (f : S -> B -> S) (g : A -> bool) (h : A -> B) s l :
  foldl (fun s x => if g x then f s (h x) else s) s l = foldl f s (map h (List.filter g l)).
Proof. revert s. induction l as [|x l IH]; intros s; cbn; [done |]. destruct (g x); cbn; apply IH. Qed.

Lemma foldl_skip {S A B} (f : S -> B -> S) (g : A -> bool) (h : A -> B) s l :
  foldl (fun s x => if g x then s else f s (h x)) s l =
  foldl f s (map h (List.filter (fun x => negb (g x)) l)).
Proof. revert s. induction l as [|x l IH]; intros s; cbn; [done |]. destruct (g x); cbn; apply IH. Qed.

Lemma elem_of_indices_where {A} (f : A -> bool) records i :
  i ∈ indices_where f records <-> exists rec, zget records i = Some rec /\ f rec = true.
Proof.
  unfold indices_where. rewrite list_elem_of_fmap. split.
  - intros ([j rec] & -> & [H1 H2]%elem_of_filterb). exists rec. by rewrite <- elem_of_enumerate.
  - intros (rec & H1 & H2). exists (i, rec). split; [done |]. apply elem_of_filterb.
    by rewrite elem_of_enumerate.
Qed.

Lemma map_fst_filter_sublist {A B} (f : A * B -> bool) l : sublist (map fst (List.filter f l)) l.*1.
Proof. induction l as [|x l IH]; cbn; [constructor |]. destruct (f x); cbn; by constructor. Qed.

Lemma sublist_sorted {A} (R : relation A) l k : sublist l k -> StronglySorted R k -> StronglySorted R l.
Proof.
  induction 1 as [|x l k Hs IH | x l k Hs IH]; intros Hk; [constructor | |];
    apply StronglySorted_inv in Hk as [Hk Hf].
  - constructor; [by apply IH |]. rewrite Forall_forall in Hf |- *. intros y Hy. apply Hf.
    by eapply elem_of_sublist.
  - by apply IH.
Qed.

Lemma indices_where_sorted {A} (f : A -> bool) records : StronglySorted Z.lt (indices_where f records).
Proof.
  unfold indices_where. eapply sublist_sorted; [apply map_fst_filter_sublist |].
  rewrite fst_enumerate. apply seqZ_sorted.
Qed.

Lemma under_keyed {A} (keep : A -> bool) key records k :
  zlen records < 2 ^ 32 ->
  under k (keyed keep key records) = indices_where (fun rec => keep rec && (key rec =? k)) records.
Proof.
  intros Hl. unfold keyed, indices_where.
  assert (Hi : Forall (fun it => 0 <= it.1 < zlen records) (enumerate records)).
  { apply Forall_forall. intros [i x] Hx. apply elem_of_enumerate, zget_Some in Hx as [Hx _]. done. }
  induction (enumerate records) as [|[i rec] l IH]; [done |].
  apply Forall_cons in Hi as [Hi Hl']. cbn [List.filter snd]. destruct (keep rec); cbn [andb]; [|by apply IH].
  cbn [map fst snd]. change ((key rec, len_to_u32 i) :: ?l) with ([(key rec, len_to_u32 i)] ++ l).
  rewrite under_app, IH by done. destruct (Z.eqb_spec (key rec) k) as [-> |].
  - rewrite under_one_eq. cbn [map fst app]. f_equal. unfold len_to_u32, U32_MAX.
    cbn in Hi. by replace (i <=? 2 ^ 32 - 1) with true by lia.
  - by rewrite under_one_ne.
Qed.

Lemma zlen_keyed {A} (keep : A -> bool) key records : zlen (keyed keep key records) <= zlen records.
Proof.
  unfold keyed. rewrite zlen_map.
  pose proof (sublist_length _ _ (filter_sublist (fun it => keep it.2) (enumerate records))) as H.
  unfold enumerate in H at 2. rewrite length_zip_with, length_seqZ in H. unfold zlen. lia.
Qed.

Lemma keyed_keys {A} (keep : A -> bool) key records :
  map fst (keyed keep key records) = map key (List.filter keep records).
Proof.
  unfold keyed. rewrite map_map. cbn. rewrite <- (snd_enumerate records) at 2.
  induction (enumerate records) as [|[i rec] l IH]; cbn; [done |]. destruct (keep rec); cbn; by rewrite IH.
Qed.

(** The last offset. *)
Lemma running_below n all counts :
  zlen counts = Z.of_nat n ->
  (forall k, 0 <= k < Z.of_nat n -> zget counts k = Some (zlen (under k all))) ->
  zlen all < 2 ^ 32 -> foldl saturating_add_u32 0 counts = below n all.
Proof.
  intros Hc Hcount Hb. pose proof (prefix_sums_last counts 0) as Hl.
  rewrite Hc, (prefix_sums_spec all n counts Hc Hb Hcount), Nat2Z.id in Hl by lia. by injection Hl.
Qed.

(** A counting sort with its scatter in sequence. *)
Lemma csr_build_exact n all k :
  zlen all < 2 ^ 32 -> 0 <= k ->
  let counts := foldl bump (zrepeat 0 (Z.of_nat n)) (map fst all) in
  let offsets := prefix_sums 0 counts in
  let values := zrepeat 0 (foldl saturating_add_u32 0 counts) in
  csr_slice offsets (foldl scatter_step (offsets, values) all).2 k =
  if k <? Z.of_nat n then under k all else [].
Proof.
  intros Hb Hk. cbv zeta. set (counts := foldl bump _ _).
  assert (Hc : zlen counts = Z.of_nat n) by (unfold counts; rewrite zlen_counts, zlen_zrepeat; lia).
  assert (Hcount : forall k, 0 <= k < Z.of_nat n -> zget counts k = Some (zlen (under k all))).
  { intros j Hj. unfold counts. rewrite (counts_spec _ _ _ 0); [done | by apply zget_zrepeat | lia | lia]. }
  assert (Hoff := prefix_sums_spec all n counts Hc Hb Hcount).
  rewrite scatter_stores, (running_below n all) by done. rewrite zlen_zrepeat by apply below_nonneg.
  apply csr_exact; [done | done | done | | done].
  erewrite (stores_slots _ _ all [] []); [done | by rewrite app_nil_r | done |].
  split.
  - intros j Hj. rewrite Hoff by lia. f_equal. change (zlen (under j [])) with 0. lia.
  - intros j p Hj Hp. pose proof Hp as [Hr _]%zget_Some. rewrite zlen_prefix_sums in Hr.
    replace j with (Z.of_nat n) in Hp by lia. rewrite Hoff, Nat2Z.id in Hp by lia. by injection Hp.
Qed.

(** The counting sort of the records a build admits. *)
Lemma csr_keyed {A} (keep : A -> bool) (key : A -> Z) records n k :
  zlen records < 2 ^ 32 -> 0 <= n -> 0 <= k ->
  let counts := foldl (fun counts rec => if keep rec then bump counts (key rec) else counts) (zrepeat 0 n) records in
  let offsets := prefix_sums 0 counts in
  let values := zrepeat 0 (foldl saturating_add_u32 0 counts) in
  csr_slice offsets (foldl (fun st (it : Z * A) =>
      if keep it.2 then scatter_step st (key it.2, len_to_u32 it.1) else st) (offsets, values) (enumerate records)).2 k =
  if k <? n then indices_where (fun rec => keep rec && (key rec =? k)) records else [].
Proof.
  intros Hl Hn Hk. cbv zeta. rewrite (foldl_guard bump keep key).
  rewrite (foldl_guard scatter_step (fun it : Z * A => keep it.2) (fun it => (key it.2, len_to_u32 it.1))).
  rewrite <- (keyed_keys keep key records).
  change (map _ (List.filter _ (enumerate records))) with (keyed keep key records).
  pose proof (zlen_keyed keep key records).
  pose proof (csr_build_exact (Z.to_nat n) (keyed keep key records) k ltac:(lia) Hk) as H1. cbv zeta in H1.
  rewrite Z2Nat.id in H1 by done. rewrite H1. destruct (k <? n); [|done]. by apply under_keyed.
Qed.

Lemma children_index_build records p :
  zlen records < 2 ^ 32 -> 0 <= p ->
  ChildrenIndex_get (ChildrenIndex_build records) p =
  if p <? zlen records then indices_where (fun rec => parent_idx rec =? p) records else [].
Proof.
  intros Hl Hp. unfold ChildrenIndex_build. cbv zeta.
  pose proof (csr_keyed (fun rec => negb (parent_idx rec =? U32_MAX)) parent_idx records (zlen records) p
    Hl (zlen_nonneg _) Hp) as H. cbv zeta in H.
  destruct (foldl _ _ (enumerate records)) as [wp values]. unfold ChildrenIndex_get. cbn [ci_offsets ci_values].
  cbn [snd] in H. rewrite H. destruct (Z.ltb_spec p (zlen records)); [|done].
  unfold indices_where. f_equal. apply List.filter_ext. intros it. unfold U32_MAX. zcases; cbn; lia || done.
Qed.

(** C29: the children index lists, for every record, exactly the records whose parent
    it is, in ascending order, and nothing for an index past the records. *)
Theorem children_index_exact records p :
  zlen records < 2 ^ 32 -> 0 <= p ->
  ChildrenIndex_get (ChildrenIndex_build records) p =
  if p <? zlen records then indices_where (fun rec => parent_idx rec =? p) records else [].
Proof. apply children_index_build. Qed.

Lemma max_extension_id_spec records rec :
  rec ∈ records -> extension_id rec <= max_extension_id records.
Proof.
  induction records as [|r records IH]; intros Hr; [by apply not_elem_of_nil in Hr |].
  change (max_extension_id (r :: records)) with (Z.max (extension_id r) (max_extension_id records)).
  apply elem_of_cons in Hr as [-> | Hr]; [lia |]. specialize (IH Hr). lia.
Qed.

Lemma max_extension_id_nonneg records : 0 <= max_extension_id records.
Proof. unfold max_extension_id. induction records; cbn; lia. Qed.

Lemma extension_index_build records e :
  zlen records < 2 ^ 32 -> 0 <= e ->
  ExtensionIndex_get (ExtensionIndex_build records) e =
  indices_where (fun rec => negb (name_len rec =? 0) && (extension_id rec =? e)) records.
Proof.
  intros Hl He. unfold ExtensionIndex_build. cbv zeta. pose proof (max_extension_id_nonneg records) as Hm.
  pose proof (csr_keyed (fun rec => negb (name_len rec =? 0)) extension_id records (max_extension_id records + 1) e
    Hl ltac:(lia) He) as H. cbv zeta in H.
  assert (Eb : forall counts, foldl (fun counts rec => if name_len rec =? 0 then counts else bump counts (extension_id rec)) counts records
    = foldl (fun counts rec => if negb (name_len rec =? 0) then bump counts (extension_id rec) else counts) counts records)
    by (intros; rewrite foldl_skip, foldl_guard; done).
  assert (Es : forall st, foldl (fun st (it : Z * CompactRecord) => if name_len it.2 =? 0 then st
      else scatter_step st (extension_id it.2, len_to_u32 it.1)) st (enumerate records)
    = foldl (fun st it => if negb (name_len it.2 =? 0) then scatter_step st (extension_id it.2, len_to_u32 it.1) else st) st (enumerate records)).
  { intros. by rewrite (foldl_skip scatter_step (fun it : Z * CompactRecord => name_len it.2 =? 0) (fun it => (extension_id it.2, len_to_u32 it.1))),
      (foldl_guard scatter_step (fun it : Z * CompactRecord => negb (name_len it.2 =? 0)) (fun it => (extension_id it.2, len_to_u32 it.1))). }
  rewrite Eb, Es.
  destruct (foldl _ _ (enumerate records)) as [wp values]. unfold ExtensionIndex_get. cbn [ei_offsets ei_values].
  cbn [snd] in H. rewrite H.
  destruct (Z.ltb_spec e (max_extension_id records + 1)); [done |]. symmetry.
  set (f := fun rec => _). destruct (indices_where f records) as [|i l] eqn:Ei; [done |]. exfalso.
  assert (i ∈ indices_where f records) as (rec & Hr & Hf)%elem_of_indices_where
    by (rewrite Ei; left). unfold f in Hf.
  apply zget_elem, max_extension_id_spec in Hr. lia.
Qed.

(** The extension index lists, for every extension, exactly the live records that
    have it, in ascending order. *)
Theorem extension_index_exact records e :
  zlen records < 2 ^ 32 -> 0 <= e ->
  ExtensionIndex_get (ExtensionIndex_build records) e =
  indices_where (fun rec => negb (name_len rec =? 0) && (extension_id rec =? e)) records.
Proof. apply extension_index_build. Qed.

Definition record_at (parent ext off len : Z) : CompactRecord :=
  mkCompactRecord 0 0 0 0 0 0 0 0 off 0 parent 0 len ext 0 0.

Lemma children_index_exact_witness :
  let records := [record_at U32_MAX 0 0 1; record_at 0 7 1 1; record_at 0 0 2 1; record_at 1 7 3 1] in
  zlen records < 2 ^ 32 /\ ChildrenIndex_get (ChildrenIndex_build records) 0 = [1; 2].
Proof.
  cbv zeta. split; [by vm_compute |].
  rewrite (children_index_exact _ 0) by (by vm_compute). by vm_compute.
Defined.

Lemma extension_index_exact_witness :
  let records := [record_at U32_MAX 0 0 1; record_at 0 7 1 1; record_at 0 7 0 0; record_at 1 7 3 1] in
  zlen records < 2 ^ 32 /\ ExtensionIndex_get (ExtensionIndex_build records) 7 = [1; 3].
Proof.
  cbv zeta. split; [by vm_compute |].
  rewrite (extension_index_exact _ 7) by (by vm_compute). by vm_compute.
Defined.
