(* ===== verification/TrigramIndex.v ===== *)
(** The trigram index of a drive: [crates/uffs-core/src/trigram.rs] and
    [trigram_key.rs], over the counting sort of CsrIndex.

    The build counts and scatters in parallel chunks.  Counts are merged in any order
    of the chunk maps, so their merge is a pointwise sum; the stores of the scatter
    come in any order, which the model takes as [schedule].  [CaseFold] is its
    table. *)
From S2P Require Import Prelude CaseFold CsrIndex.
From stdpp Require Import strings.
Local Open Scope Z_scope.
Local Open Scope rust_scope.

(** * Keys *)

Definition pack_char_trigram (cp0 cp1 cp2 : Z) : Z :=
  Z.lor (Z.lor (Z.shiftl cp0 32) (Z.shiftl cp1 16)) cp2.

(** [folded.windows(3)], packed. *)
Fixpoint packed_windows (folded : list Z) : list Z :=
  match folded with
  | cp0 :: ((cp1 :: cp2 :: _) as rest) => pack_char_trigram cp0 cp1 cp2 :: packed_windows rest
  | _ => []
  end.

(** [TinyTriSet::insert] and the [FxHashSet] of [needle_trigrams]: a key is kept the
    first time it is seen. *)
Definition insert_new (seen : list Z) (t : Z) : list Z :=
  if bool_decide (t ∈ seen) then seen else seen ++ [t].

Definition dedup (ts : list Z) : list Z := foldl insert_new [] ts.

Definition needle_trigrams (table : list Z) (needle : list Z) : option (list Z) :=
  let folded := map (fold_char table) needle in
  if zlen folded <? 3 then None else Some (dedup (packed_windows folded)).

(** [core::str::from_utf8(name).unwrap_or("")], as its characters. *)
Definition str_chars (bytes : list Z) : list Z := default [] (utf8_decode bytes).

(** The characters of [CompactRecord::name]. *)
Definition name_chars (names : list Z) (rec : CompactRecord) : list Z :=
  str_chars (default [] (get_range names (name_offset rec) (name_offset rec + name_len rec))).

(** The trigrams the build counts and scatters for one record. *)
Definition record_trigrams (table names : list Z) (rec : CompactRecord) : list Z :=
  match get_range names (name_offset rec) (name_offset rec + name_len rec) with
  | None => []
  | Some name_bytes =>
      let folded := map (fold_char table) (str_chars name_bytes) in
      if zlen folded <? 3 then [] else dedup (packed_windows folded)
  end.

(** * The index *)

Record TrigramIndex := mkTrigramIndex {
  ti_keys : list Z;
  ti_offsets : list Z;
  ti_values : list Z
}.

Definition TrigramIndex_empty : TrigramIndex := mkTrigramIndex [] [0] [].

Definition CHUNK_SIZE : Z := 64 * 1024.

(** [records.par_chunks(n)]. *)
Fixpoint par_chunks {A} (fuel : nat) (n : nat) (l : list A) : list (list A) :=
  match fuel, l with
  | S fuel, _ :: _ => take n l :: par_chunks fuel n (drop n l)
  | _, _ => []
  end.

Section build.
Context (table names : list Z).

(** [*local.entry(packed).or_insert(0) += 1]. *)
Definition count_one (local : gmap Z Z) (packed : Z) : gmap Z Z :=
  <[packed := u32 (default 0 (local !! packed) + 1)]> local.

Definition count_chunk (chunk : list CompactRecord) : gmap Z Z :=
  foldl (fun local rec => foldl count_one local (record_trigrams table names rec)) ∅ chunk.

(** [for (&tri, &cnt) in chunk_map { *global.entry(tri).or_insert(0) += cnt }]. *)
Definition merge_counts (global chunk_map : gmap Z Z) : gmap Z Z :=
  map_fold (fun tri cnt global => <[tri := u32 (default 0 (global !! tri) + cnt)]> global)
    global chunk_map.

(** [for (&packed, &cnt) in chunk_map]: the position of a kept key moves by its count. *)
Definition advance_offsets (accumulated : list Z) (chunk_map tri_lut : gmap Z Z) : list Z :=
  map_fold (fun packed cnt accumulated =>
      match tri_lut !! packed with
      | None => accumulated
      | Some ki =>
          match zget accumulated ki with
          | None => accumulated
          | Some slot => zset accumulated ki (u32 (slot + cnt))
          end
      end) accumulated chunk_map.

(** The start positions of every chunk. *)
Fixpoint chunk_write_pos (accumulated : list Z) (tri_lut : gmap Z Z) (chunk_counts : list (gmap Z Z))
  : list (list Z) :=
  match chunk_counts with
  | [] => []
  | chunk_map :: chunk_counts =>
      accumulated ::
      chunk_write_pos (advance_offsets accumulated chunk_map tri_lut) tri_lut chunk_counts
  end.

(** The keyed items of a chunk: its records' kept trigrams, as key indexes. *)
Definition chunk_items (tri_lut : gmap Z Z) (record_offset : Z) (chunk : list CompactRecord)
  : list (Z * Z) :=
  concat (map (fun it : Z * CompactRecord =>
    omap (fun packed =>
      let? key_idx := tri_lut !! packed in Some (key_idx, len_to_u32 (record_offset + it.1)))
      (record_trigrams table names it.2)) (enumerate chunk)).

(** [scatter_postings_parallel]: all stores of all chunks, in the order [schedule]
    gives them. *)
Definition scatter_postings_parallel (schedule : list (Z * Z) -> list (Z * Z))
    (chunks : list (list CompactRecord)) (tri_lut : gmap Z Z) (offsets : list Z)
    (total_postings : Z) (chunk_counts : list (gmap Z Z)) : list Z :=
  if zlen offsets <=? 1 then [] else
  let num_keys := zlen offsets - 1 in
  let bases := chunk_write_pos (default [] (get_range offsets 0 num_keys)) tri_lut chunk_counts in
  let all_stores := concat (map (fun c : Z * (list CompactRecord * list Z) =>
      let '(chunk_idx, (chunk, base_pos)) := c in
      stores total_postings base_pos (chunk_items tri_lut (chunk_idx * CHUNK_SIZE) chunk))
    (enumerate (zip chunks bases))) in
  apply_stores (schedule all_stores) (zrepeat 0 total_postings).

Definition TrigramIndex_build (schedule : list (Z * Z) -> list (Z * Z))
    (records : list CompactRecord) : TrigramIndex :=
  if zlen records =? 0 then TrigramIndex_empty else
  let chunks := par_chunks (length records) (Z.to_nat CHUNK_SIZE) records in
  let chunk_counts := map count_chunk chunks in
  let global_counts := foldl merge_counts ∅ chunk_counts in
  let record_count := zlen records in
  let freq_cap := Z.max (record_count / 4) 1024 in
  let global_counts := filter (fun kc => kc.2 <= freq_cap) global_counts in
  let sorted_keys := sort_by_key fst (map_to_list global_counts) in
  let keys := map fst sorted_keys in
  let offsets := prefix_sums 0 (map snd sorted_keys) in
  let running := foldl saturating_add_u32 0 (map snd sorted_keys) in
  let tri_lut : gmap Z Z := list_to_map (map (fun it => (it.2, len_to_u32 it.1)) (enumerate keys)) in
  let values := scatter_postings_parallel schedule chunks tri_lut offsets running chunk_counts in
  mkTrigramIndex keys offsets values.

End build.

Definition get_posting (ti : TrigramIndex) (packed : Z) : option (list Z) :=
  match binary_search_by (ti_keys ti) (fun key => key ?= packed) with
  | Err _ => None
  | Ok idx =>
      let? start := zget (ti_offsets ti) idx in
      let? stop := zget (ti_offsets ti) (idx + 1) in
      get_range (ti_values ti) start stop
  end.

(** * The keys of a name *)

Lemma elem_of_dedup_from seen ts t : t ∈ foldl insert_new seen ts <-> t ∈ seen \/ t ∈ ts.
Proof.
  revert seen. induction ts as [|x ts IH]; intros seen; cbn; [set_solver |].
  rewrite IH. unfold insert_new. case_bool_decide; set_solver.
Qed.

Lemma elem_of_dedup ts t : t ∈ dedup ts <-> t ∈ ts.
Proof. unfold dedup. rewrite elem_of_dedup_from. set_solver. Qed.

Lemma dedup_from_NoDup seen ts : NoDup seen -> NoDup (foldl insert_new seen ts).
Proof.
  revert seen. induction ts as [|x ts IH]; intros seen Hs; cbn; [done |]. apply IH.
  unfold insert_new. case_bool_decide; [done |]. apply NoDup_app. split; [done |].
  split; [set_solver | apply NoDup_singleton].
Qed.

Lemma dedup_NoDup ts : NoDup (dedup ts).
Proof. apply dedup_from_NoDup. constructor. Qed.

Section build_exact.
Context (table names : list Z).
Local Abbreviation tris := (record_trigrams table names).

Lemma tris_NoDup rec : NoDup (tris rec).
Proof.
  unfold record_trigrams. destruct (get_range _ _ _); [|constructor].
  destruct (_ <? _); [constructor | apply dedup_NoDup].
Qed.

(** Whether a record's name has a trigram. *)
Definition has_trigram (t : Z) (rec : CompactRecord) : bool := bool_decide (t ∈ tris rec).

(** How many of the records have it. *)
Definition frequency (t : Z) (recs : list CompactRecord) : Z :=
  zlen (List.filter (has_trigram t) recs).

Lemma frequency_app t a b : frequency t (a ++ b) = frequency t a + frequency t b.
Proof. unfold frequency. by rewrite List.filter_app, zlen_app. Qed.

Lemma frequency_one t rec : frequency t [rec] = if has_trigram t rec then 1 else 0.
Proof. unfold frequency. cbn [List.filter]. by destruct (has_trigram t rec). Qed.

Lemma frequency_bound t recs : 0 <= frequency t recs <= zlen recs.
Proof.
  unfold frequency. split; [apply zlen_nonneg |].
  pose proof (sublist_length _ _ (filter_sublist (has_trigram t) recs)). unfold zlen. lia.
Qed.

(** A map of counts is exact for some records. *)
Definition counts_ok (recs : list CompactRecord) (m : gmap Z Z) : Prop :=
  forall t, m !! t = if frequency t recs =? 0 then None else Some (frequency t recs).

Lemma counts_ok_default recs m t : counts_ok recs m -> default 0 (m !! t) = frequency t recs.
Proof. intros H. rewrite H. destruct (Z.eqb_spec (frequency t recs) 0); cbn; [lia | done]. Qed.

Lemma count_one_lookup m ts t :
  NoDup ts ->
  foldl count_one m ts !! t =
  if bool_decide (t ∈ ts) then Some (u32 (default 0 (m !! t) + 1)) else m !! t.
Proof.
  revert m. induction ts as [|x ts IH]; intros m Hn; [done |].
  apply NoDup_cons in Hn as [Hx Hn]. cbn [foldl]. rewrite IH by done. unfold count_one.
  destruct (decide (x = t)) as [-> | Hxt].
  - rewrite bool_decide_eq_false_2 by done. rewrite bool_decide_eq_true_2 by set_solver.
    by rewrite lookup_insert_eq.
  - rewrite lookup_insert_ne by done. repeat case_bool_decide; set_solver.
Qed.

Lemma counts_ok_record recs m rec :
  counts_ok recs m -> zlen recs + 1 < 2 ^ 32 ->
  counts_ok (recs ++ [rec]) (foldl count_one m (tris rec)).
Proof.
  intros Hm Hb t. rewrite count_one_lookup by apply tris_NoDup.
  rewrite (counts_ok_default recs) by done. rewrite frequency_app.
  pose proof (frequency_bound t recs). rewrite frequency_one. unfold has_trigram.
  case_bool_decide as Ht.
  - rewrite u32_small by lia. by replace (frequency t recs + 1 =? 0) with false by lia.
  - rewrite Z.add_0_r. apply Hm.
Qed.

Lemma count_chunk_ok chunk : zlen chunk < 2 ^ 32 -> counts_ok chunk (count_chunk table names chunk).
Proof.
  intros Hb. unfold count_chunk.
  cut (forall seen m, counts_ok seen m -> zlen seen + zlen chunk < 2 ^ 32 ->
    counts_ok (seen ++ chunk) (foldl (fun local rec => foldl count_one local (tris rec)) m chunk)).
  { intros H. apply (H [] ∅); [done | unfold zlen at 1; cbn; lia]. }
  clear Hb. induction chunk as [|rec chunk IH]; intros seen m Hm Hb.
  - by rewrite app_nil_r.
  - rewrite zlen_cons in Hb. pose proof (zlen_nonneg chunk). cbn [foldl].
    change (rec :: chunk) with ([rec] ++ chunk). rewrite app_assoc. apply IH.
    + apply counts_ok_record; [done | lia].
    + rewrite zlen_app. change (zlen [rec]) with 1. lia.
Qed.

Lemma merge_counts_lookup g c t :
  merge_counts g c !! t =
  match c !! t with Some n => Some (u32 (default 0 (g !! t) + n)) | None => g !! t end.
Proof.
  unfold merge_counts. revert t.
  apply (map_fold_weak_ind (fun r c => forall t, r !! t =
    match c !! t with Some n => Some (u32 (default 0 (g !! t) + n)) | None => g !! t end)).
  - done.
  - intros i x m r Hm IH t. destruct (decide (i = t)) as [-> |].
    + rewrite !lookup_insert_eq, IH, Hm. done.
    + by rewrite !lookup_insert_ne, IH.
Qed.

Lemma merge_counts_ok a b g c :
  counts_ok a g -> counts_ok b c -> zlen a + zlen b < 2 ^ 32 -> counts_ok (a ++ b) (merge_counts g c).
Proof.
  intros Hg Hc Hb t. rewrite merge_counts_lookup, (counts_ok_default a) by done.
  rewrite Hc, frequency_app. pose proof (frequency_bound t a). pose proof (frequency_bound t b).
  destruct (Z.eqb_spec (frequency t b) 0) as [-> |].
  - rewrite Z.add_0_r. apply Hg.
  - rewrite u32_small by lia. by replace (frequency t a + frequency t b =? 0) with false by lia.
Qed.

Lemma merge_all_ok chunks a g :
  counts_ok a g -> zlen a + zlen (concat chunks) < 2 ^ 32 ->
  counts_ok (a ++ concat chunks) (foldl merge_counts g (map (count_chunk table names) chunks)).
Proof.
  revert a g. induction chunks as [|c chunks IH]; intros a g Hg Hb; cbn [concat map foldl].
  - by rewrite app_nil_r.
  - cbn [concat] in Hb. rewrite zlen_app in Hb. pose proof (zlen_nonneg a). pose proof (zlen_nonneg c).
    pose proof (zlen_nonneg (concat chunks)). rewrite app_assoc. apply IH.
    + apply merge_counts_ok; [done | apply count_chunk_ok; lia | lia].
    + rewrite zlen_app. lia.
Qed.

Lemma concat_par_chunks {A} fuel n (l : list A) :
  (0 < n)%nat -> (length l <= fuel)%nat -> concat (par_chunks fuel n l) = l.
Proof.
  intros Hn. revert l. induction fuel as [|fuel IH]; intros l Hl; destruct l as [|x l]; try done;
    cbn [length] in Hl; [lia |].
  cbn [par_chunks concat]. rewrite IH; [apply take_drop |]. rewrite length_drop. cbn [length]. lia.
Qed.

(** ** The items of the scatter *)

(** What [f] makes of the records, from index [i] on. *)
Fixpoint from_index {B} (f : Z -> CompactRecord -> list B) (i : Z) (recs : list CompactRecord) : list B :=
  match recs with
  | [] => []
  | rec :: recs => f i rec ++ from_index f (i + 1) recs
  end.

Lemma from_index_app {B} (f : Z -> CompactRecord -> list B) i a b :
  from_index f i (a ++ b) = from_index f i a ++ from_index f (i + zlen a) b.
Proof.
  revert i. induction a as [|r a IH]; intros i; cbn [app from_index].
  - change (zlen []) with 0. by rewrite Z.add_0_r.
  - rewrite IH, <- app_assoc, zlen_cons. do 3 f_equal. lia.
Qed.

Lemma from_index_enumerate {B} (f : Z -> CompactRecord -> list B) o recs :
  concat (map (fun it => f (o + it.1) it.2) (enumerate recs)) = from_index f o recs.
Proof.
  unfold enumerate.
  cut (forall m, concat (map (fun it => f (o + it.1) it.2) (zip (seqZ m (zlen recs)) recs)) =
    from_index f (o + m) recs); [intros H; by rewrite H, Z.add_0_r |].
  induction recs as [|r recs IH]; intros m; [done |].
  rewrite zlen_cons, seqZ_cons by (pose proof (zlen_nonneg recs); lia).
  replace (Z.pred (1 + zlen recs)) with (zlen recs) by lia.
  change (zip (m :: ?l) (r :: recs)) with ((m, r) :: zip l recs).
  cbn [map concat from_index fst snd]. f_equal. rewrite IH. f_equal. lia.
Qed.

Lemma indices_where_from_index f recs :
  indices_where f recs = from_index (fun i r => if f r then [i] else []) 0 recs.
Proof.
  rewrite <- from_index_enumerate. unfold indices_where.
  induction (enumerate recs) as [|[i r] l IH]; [done |]. cbn [List.filter snd map concat fst].
  destruct (f r); cbn [map fst app]; by rewrite IH.
Qed.

Lemma omap_cons' {A B} (f : A -> option B) x l :
  omap f (x :: l) = match f x with Some y => y :: omap f l | None => omap f l end.
Proof. done. Qed.

(** The items of a record, through the table of kept keys. *)
Definition record_items (lut : gmap Z Z) (i : Z) (rec : CompactRecord) : list (Z * Z) :=
  omap (fun packed => let? key_idx := lut !! packed in Some (key_idx, len_to_u32 i)) (tris rec).

Lemma chunk_items_from_index lut o recs :
  chunk_items table names lut o recs = from_index (record_items lut) o recs.
Proof. apply (from_index_enumerate (record_items lut)). Qed.

(** [lut] numbers the keys. *)
Definition lut_ok (keys : list Z) (lut : gmap Z Z) : Prop :=
  forall t k, lut !! t = Some k <-> zget keys k = Some t.

Lemma under_record_items keys lut k t i rec :
  lut_ok keys lut -> zget keys k = Some t ->
  under k (record_items lut i rec) = if has_trigram t rec then [len_to_u32 i] else [].
Proof.
  intros Hl Hk. unfold record_items, has_trigram. pose proof (tris_NoDup rec) as Hn.
  induction (tris rec) as [|x ts IH]; [done |]. apply NoDup_cons in Hn as [Hx Hn].
  specialize (IH Hn). rewrite omap_cons'. destruct (lut !! x) as [kx |] eqn:Ex.
  - change ((kx, len_to_u32 i) :: ?l) with ([(kx, len_to_u32 i)] ++ l).
    rewrite under_app. destruct (Z.eq_dec kx k) as [-> |].
    + apply Hl in Ex. assert (x = t) as -> by congruence.
      rewrite under_one_eq, (bool_decide_eq_true_2 (t ∈ t :: ts)) by set_solver.
      rewrite bool_decide_eq_false_2 in IH by done. etransitivity; [|apply app_nil_r].
      f_equal. exact IH.
    + rewrite under_one_ne by done. assert (x <> t) by (intros ->; apply Hl in Hk; congruence).
      etransitivity; [exact IH |]. repeat case_bool_decide; set_solver.
  - assert (x <> t) by (intros ->; apply Hl in Hk; congruence).
    etransitivity; [exact IH |]. repeat case_bool_decide; set_solver.
Qed.

Lemma under_items keys lut k t i recs :
  lut_ok keys lut -> zget keys k = Some t ->
  under k (from_index (record_items lut) i recs) =
  from_index (fun i r => if has_trigram t r then [len_to_u32 i] else []) i recs.
Proof.
  intros Hl Hk. revert i. induction recs as [|r recs IH]; intros i; [done |].
  cbn [from_index]. by rewrite under_app, (under_record_items keys _ _ t), IH.
Qed.

Lemma from_index_u32 t i recs :
  0 <= i -> i + zlen recs < 2 ^ 32 ->
  from_index (fun i r => if has_trigram t r then [len_to_u32 i] else []) i recs =
  from_index (fun i r => if has_trigram t r then [i] else []) i recs.
Proof.
  revert i. induction recs as [|r recs IH]; intros i Hi Hb; [done |].
  rewrite zlen_cons in Hb. pose proof (zlen_nonneg recs). cbn [from_index].
  rewrite IH by lia. unfold len_to_u32, U32_MAX. by replace (i <=? 2 ^ 32 - 1) with true by lia.
Qed.

Lemma zlen_from_index_frequency t i recs :
  zlen (from_index (fun i r => if has_trigram t r then [len_to_u32 i] else []) i recs) = frequency t recs.
Proof.
  revert i. induction recs as [|r recs IH]; intros i; [done |].
  cbn [from_index]. rewrite zlen_app, IH. change (r :: recs) with ([r] ++ recs).
  rewrite frequency_app, frequency_one. by destruct (has_trigram t r).
Qed.

Lemma zlen_items lut i recs :
  zlen (from_index (record_items lut) i recs) <= zlen (concat (map tris recs)).
Proof.
  revert i. induction recs as [|r recs IH]; intros i; [done |].
  cbn [from_index map concat]. rewrite !zlen_app. specialize (IH (i + 1)).
  assert (zlen (record_items lut i r) <= zlen (tris r)).
  { unfold record_items. induction (tris r) as [|x ts IHt]; [done |]. rewrite omap_cons'.
    destruct (lut !! x); rewrite ?zlen_cons; lia. }
  lia.
Qed.

(** ** The chunks *)

Section chunks.
Context (keys : list Z) (lut : gmap Z Z) (Hlut : lut_ok keys lut).
Local Abbreviation n := (length keys).

Lemma advance_lookup acc cm k :
  zget (advance_offsets acc cm lut) k =
  match zget keys k with
  | None => zget acc k
  | Some t => (fun a => match cm !! t with Some c => u32 (a + c) | None => a end) <$> zget acc k
  end.
Proof.
  unfold advance_offsets. revert k.
  apply (map_fold_weak_ind (fun r cm => forall k, zget r k =
    match zget keys k with
    | None => zget acc k
    | Some t => (fun a => match cm !! t with Some c => u32 (a + c) | None => a end) <$> zget acc k
    end)).
  - intros k. destruct (zget keys k); [|done]. rewrite lookup_empty. by destruct (zget acc k).
  - intros t c m r Hm IH k. destruct (lut !! t) as [ki |] eqn:Et.
    + pose proof Et as Ek. apply Hlut in Ek. destruct (Z.eq_dec k ki) as [-> | Hk].
      * rewrite Ek, lookup_insert_eq. specialize (IH ki). rewrite Ek, Hm in IH.
        destruct (zget r ki) as [s |] eqn:Er; destruct (zget acc ki) as [a |] eqn:Ea; try done.
        injection IH as ->. cbn. apply zget_zset_eq. by apply zget_Some in Er as [? _].
      * assert (zget (match zget r ki with
          | Some slot => zset r ki (u32 (slot + c)) | None => r end) k = zget r k) as ->.
        { destruct (zget r ki); [|done]. by rewrite zget_zset_ne. }
        rewrite IH. destruct (zget keys k) as [t' |] eqn:Ek'; [|done].
        rewrite lookup_insert_ne; [done |]. intros ->. apply Hlut in Ek'. congruence.
    + rewrite IH. destruct (zget keys k) as [t' |] eqn:Ek'; [|done].
      rewrite lookup_insert_ne; [done |]. intros ->. apply Hlut in Ek'. congruence.
Qed.

Lemma advance_positions all seen acc o chunk :
  positions_after n all seen acc -> zlen all < 2 ^ 32 -> zlen chunk < 2 ^ 32 ->
  (exists rest, all = seen ++ from_index (record_items lut) o chunk ++ rest) ->
  positions_after n all (seen ++ from_index (record_items lut) o chunk)
    (advance_offsets acc (count_chunk table names chunk) lut).
Proof.
  intros [Hw Ho] Hb Hc (rest & Ha). split.
  - intros k Hk. rewrite advance_lookup. destruct (zget_is_Some keys k) as [t Ht]; [unfold zlen; lia |].
    rewrite Ht, Hw by done. cbn. rewrite under_app, zlen_app, (under_items keys _ _ t) by done.
    rewrite zlen_from_index_frequency. pose proof (count_chunk_ok chunk Hc t) as Hcm. rewrite Hcm.
    pose proof (frequency_bound t chunk).
    assert (below (Z.to_nat k) all + zlen (under k seen) + frequency t chunk <= zlen all).
    { pose proof (below_le (S (Z.to_nat k)) all) as Hle. rewrite below_S in Hle by lia.
      rewrite Ha in Hle at 2. rewrite !under_app, !zlen_app, (under_items keys _ _ t) in Hle by done.
      rewrite zlen_from_index_frequency in Hle. pose proof (zlen_nonneg (under k rest)). lia. }
    pose proof (below_nonneg (Z.to_nat k) all). pose proof (zlen_nonneg (under k seen)).
    destruct (Z.eqb_spec (frequency t chunk) 0); [f_equal; lia |].
    rewrite u32_small by lia. f_equal. lia.
  - intros k p Hk. rewrite advance_lookup.
    replace (zget keys k) with (@None Z) by (symmetry; apply zget_None; unfold zlen; lia).
    by apply Ho.
Qed.

Lemma chunk_stores_slots fuel size j seen acc recs all :
  (0 < size)%nat -> (length recs <= fuel)%nat -> zlen recs < 2 ^ 32 -> zlen all < 2 ^ 32 ->
  all = seen ++ from_index (record_items lut) (j * Z.of_nat size) recs ->
  positions_after n all seen acc ->
  let chunks := par_chunks fuel size recs in
  let bases := chunk_write_pos acc lut (map (count_chunk table names) chunks) in
  concat (map (fun c : Z * (list CompactRecord * list Z) =>
      let '(chunk_idx, (chunk, base_pos)) := c in
      stores (below n all) base_pos (chunk_items table names lut (chunk_idx * Z.of_nat size) chunk))
    (zip (seqZ j (zlen (zip chunks bases))) (zip chunks bases))) =
  slots n all seen (from_index (record_items lut) (j * Z.of_nat size) recs).
Proof.
  intros Hs. cbv zeta. revert j seen acc recs.
  induction fuel as [|fuel IH]; intros j seen acc recs Hf Hr Hb Ha Hp;
    destruct recs as [|r recs]; try done; cbn [length] in Hf; [lia |].
  set (l := r :: recs) in *. change (par_chunks (S fuel) size l)
    with (take size l :: par_chunks fuel size (drop size l)).
  cbn [map chunk_write_pos].
  change (zip (take size l :: ?a) (acc :: ?b)) with ((take size l, acc) :: zip a b).
  rewrite zlen_cons, seqZ_cons by (match goal with |- context [zlen ?x] => pose proof (zlen_nonneg x) end; lia).
  replace (Z.pred (1 + zlen _)) with (zlen (zip (par_chunks fuel size (drop size l))
    (chunk_write_pos (advance_offsets acc (count_chunk table names (take size l)) lut) lut
       (map (count_chunk table names) (par_chunks fuel size (drop size l)))))) by lia.
  change (zip (j :: ?a) (?x :: ?b)) with ((j, x) :: zip a b).
  cbn [map concat]. rewrite chunk_items_from_index.
  assert (Hsplit : from_index (record_items lut) (j * Z.of_nat size) l =
    from_index (record_items lut) (j * Z.of_nat size) (take size l) ++
    from_index (record_items lut) ((j + 1) * Z.of_nat size) (drop size l)).
  { rewrite <- (take_drop size l) at 1. rewrite from_index_app. f_equal.
    destruct (decide (size <= length l)%nat).
    - f_equal. unfold zlen. rewrite length_take. lia.
    - by rewrite drop_ge by lia. }
  rewrite Hsplit in Ha. rewrite Hsplit, slots_app.
  assert (Ht : zlen (take size l) < 2 ^ 32) by (unfold zlen in *; rewrite length_take; lia).
  f_equal.
  - by eapply stores_slots.
  - replace (Z.succ j) with (j + 1) by lia. apply IH.
    + rewrite length_drop. subst l. cbn [length] in *. lia.
    + unfold zlen in *. rewrite length_drop. lia.
    + done.
    + by rewrite <- app_assoc.
    + apply advance_positions; eauto.
Qed.

End chunks.

(** ** The kept keys *)

(** The trigrams the build keeps: those of some record, but of no more than a quarter
    of the records or 1024 of them. *)
Definition freq_cap (records : list CompactRecord) : Z := Z.max (zlen records / 4) 1024.
Definition indexed (records : list CompactRecord) (t : Z) : bool :=
  (0 <? frequency t records) && (frequency t records <=? freq_cap records).

Definition sorted_keys (m : gmap Z Z) (cap : Z) : list (Z * Z) :=
  sort_by_key fst (map_to_list (filter (fun kc => kc.2 <= cap) m)).

Lemma elem_of_sorted_keys records m t c :
  counts_ok records m ->
  (t, c) ∈ sorted_keys m (freq_cap records) <-> indexed records t = true /\ c = frequency t records.
Proof.
  intros Hm. unfold sorted_keys. rewrite sort_by_key_perm, elem_of_map_to_list.
  rewrite map_lookup_filter_Some, Hm. unfold indexed. cbn. pose proof (frequency_bound t records).
  destruct (Z.eqb_spec (frequency t records) 0).
  - split; [by intros [? _] | lia].
  - split; [intros [[= <-] ?]; split; [lia | done] | intros [? ->]; split; [done | lia]].
Qed.

Lemma sorted_keys_NoDup m cap : NoDup (map fst (sorted_keys m cap)).
Proof.
  unfold sorted_keys. change (map fst ?l) with (l.*1). rewrite sort_by_key_perm.
  apply NoDup_fst_map_to_list.
Qed.

Lemma sorted_by_key_map {A} (key : A -> Z) l :
  StronglySorted (fun a b => key a <= key b) l -> NoDup (map key l) -> StronglySorted Z.lt (map key l).
Proof.
  induction 1 as [|x l Hs IH Hf]; intros Hn; cbn in *; constructor;
    apply NoDup_cons in Hn as [Hx Hn]; [by apply IH |].
  apply Forall_forall. intros y Hy. pose proof Hy as Hy'.
  apply list_elem_of_fmap in Hy as (z & -> & Hz).
  pose proof (proj1 (Forall_forall _ _) Hf z Hz) as Hle. cbn in Hle.
  assert (key x <> key z) by congruence. lia.
Qed.

Lemma sorted_keys_sorted m cap : StronglySorted Z.lt (map fst (sorted_keys m cap)).
Proof. apply sorted_by_key_map; [apply sort_by_key_sorted | apply sorted_keys_NoDup]. Qed.

Lemma elem_of_keys records m t :
  counts_ok records m ->
  t ∈ map fst (sorted_keys m (freq_cap records)) <-> indexed records t = true.
Proof.
  intros Hm. rewrite list_elem_of_fmap. split.
  - intros ([t' c] & -> & Ht). by apply (elem_of_sorted_keys records) in Ht as [? _].
  - intros Ht. exists (t, frequency t records). split; [done |]. by apply (elem_of_sorted_keys records).
Qed.

Lemma frequency_positive t recs :
  0 < frequency t recs -> exists i r, zget recs i = Some r /\ has_trigram t r = true.
Proof.
  unfold frequency. intros H. destruct (List.filter (has_trigram t) recs) as [|r l] eqn:E; [done |].
  assert (r ∈ List.filter (has_trigram t) recs) as [Hr Ht]%elem_of_filterb by (rewrite E; left).
  apply list_elem_of_lookup in Hr as [j Hj]. exists (Z.of_nat j), r. split; [|done].
  apply zget_Some. rewrite Nat2Z.id. split; [|done]. apply lookup_lt_Some in Hj. unfold zlen. lia.
Qed.

Lemma frequency_of_record t recs rec : rec ∈ recs -> t ∈ tris rec -> 0 < frequency t recs.
Proof.
  intros Hr Ht. unfold frequency.
  assert (rec ∈ List.filter (has_trigram t) recs) as Hin.
  { apply elem_of_filterb. split; [done |]. by apply bool_decide_eq_true_2. }
  destruct (List.filter _ recs); [by apply not_elem_of_nil in Hin |]. rewrite zlen_cons.
  pose proof (zlen_nonneg l). lia.
Qed.

Lemma frequency_witness t recs : 0 < frequency t recs -> t ∈ concat (map tris recs).
Proof.
  intros (i & r & Hr%zget_elem & Ht)%frequency_positive. apply bool_decide_eq_true_1 in Ht.
  apply list_elem_of_In, in_concat. exists (tris r). split; [|by apply list_elem_of_In].
  apply in_map. by apply list_elem_of_In.
Qed.

Lemma zlen_keys records m :
  counts_ok records m ->
  zlen (map fst (sorted_keys m (freq_cap records))) <= zlen (concat (map tris records)).
Proof.
  intros Hm. unfold zlen. apply inj_le, submseteq_length, NoDup_submseteq; [apply sorted_keys_NoDup |].
  intros t Ht%(elem_of_keys records); [|done]. unfold indexed in Ht. apply frequency_witness. lia.
Qed.

(** The lookup table of the scatter. *)
Definition key_lut (keys : list Z) : gmap Z Z :=
  list_to_map (map (fun it => (it.2, len_to_u32 it.1)) (enumerate keys)).

Lemma key_lut_ok keys : NoDup keys -> zlen keys < 2 ^ 32 -> lut_ok keys (key_lut keys).
Proof.
  intros Hn Hb t k. unfold key_lut. rewrite <- elem_of_list_to_map.
  - rewrite list_elem_of_fmap. split.
    + intros ([i x] & [= -> ->] & Hx). apply elem_of_enumerate in Hx. cbn.
      pose proof Hx as [Hi _]%zget_Some. unfold len_to_u32, U32_MAX.
      by replace (i <=? 2 ^ 32 - 1) with true by lia.
    + intros Hk. exists (k, t). split; [|by apply elem_of_enumerate].
      pose proof Hk as [Hi _]%zget_Some. cbn. unfold len_to_u32, U32_MAX.
      by replace (k <=? 2 ^ 32 - 1) with true by lia.
  - change (fmap ?f (map ?g ?l)) with (map f (map g l)). rewrite map_map. cbn.
    change (map _ (enumerate keys)) with ((enumerate keys).*2). by rewrite snd_enumerate.
Qed.

(** Binary search in strictly ascending keys. *)
Lemma keys_search_ordered keys packed :
  StronglySorted Z.lt keys -> search_ordered keys (fun key => key ?= packed).
Proof.
  intros Hs i j x y Hij Hx Hy. pose proof (StronglySorted_zget _ _ _ _ _ _ Hs Hij Hx Hy) as Hxy.
  rewrite !Z.compare_lt_iff, !Z.compare_gt_iff. lia.
Qed.

(** A posting of the build, before the lookup by key. *)
Lemma build_postings schedule records k t :
  (forall ws, schedule ws ≡ₚ ws) -> records <> [] ->
  zlen records < 2 ^ 32 -> zlen (concat (map tris records)) < 2 ^ 32 ->
  let ti := TrigramIndex_build table names schedule records in
  zget (ti_keys ti) k = Some t ->
  csr_slice (ti_offsets ti) (ti_values ti) k = indices_where (has_trigram t) records /\
  is_Some (zget (ti_offsets ti) k) /\ is_Some (zget (ti_offsets ti) (k + 1)).
Proof.
  intros Hsch Hne Hr Htot. cbv zeta. unfold TrigramIndex_build, scatter_postings_parallel.
  replace (zlen records =? 0) with false
    by (destruct records; [done | rewrite zlen_cons; pose proof (zlen_nonneg records); lia]).
  assert (Hsize : Z.of_nat (Z.to_nat CHUNK_SIZE) = CHUNK_SIZE) by (apply Z2Nat.id; unfold CHUNK_SIZE; lia).
  assert (Hpos : 0 < CHUNK_SIZE) by (unfold CHUNK_SIZE; lia).
  generalize dependent CHUNK_SIZE. intros csize Hsize Hpos.
  set (chunks := par_chunks _ _ records). cbv zeta.
  fold (freq_cap records).
  set (global := foldl merge_counts ∅ _).
  assert (Hcat : concat chunks = records) by (apply concat_par_chunks; [lia | done]).
  assert (Hm : counts_ok records global).
  { rewrite <- Hcat at 1. unfold global. apply (merge_all_ok chunks [] ∅); [done |].
    rewrite Hcat. unfold zlen at 1. cbn. lia. }
  fold (sorted_keys global (freq_cap records)). set (sk := sorted_keys _ _).
  fold (key_lut (map fst sk)). set (lut := key_lut (map fst sk)).
  cbn [ti_keys ti_offsets ti_values]. intros Hk.
  pose proof (zlen_keys records global Hm) as Hkeys. fold sk in Hkeys.
  assert (Hlut : lut_ok (map fst sk) lut) by (apply key_lut_ok; [apply sorted_keys_NoDup | lia]).
  set (all := from_index (record_items lut) 0 records).
  pose proof (zlen_items lut 0 records) as Hall. fold all in Hall.
  assert (Hn : length (map fst sk) = length sk) by apply length_map.
  assert (Hc : zlen (map snd sk) = Z.of_nat (length (map fst sk)))
    by (rewrite Hn; unfold zlen; by rewrite length_map).
  assert (Hcount : forall j, 0 <= j < Z.of_nat (length (map fst sk)) ->
    zget (map snd sk) j = Some (zlen (under j all))).
  { intros j Hj. destruct (zget_is_Some sk j) as [[x c] Hx]; [unfold zlen; lia |].
    rewrite zget_map, Hx. cbn. f_equal. unfold all.
    rewrite (under_items (map fst sk) lut j x) by (done || (rewrite zget_map, Hx; done)).
    rewrite zlen_from_index_frequency. apply zget_elem, (elem_of_sorted_keys records) in Hx; [|done]. tauto. }
  assert (Hrun := running_below _ all _ Hc Hcount ltac:(lia)).
  assert (Hoff := prefix_sums_spec all _ _ Hc ltac:(lia) Hcount).
  pose proof Hk as [Hkr _]%zget_Some. rewrite zlen_map in Hkr.
  assert (Hlen : zlen (prefix_sums 0 (map snd sk)) = zlen sk + 1)
    by (rewrite zlen_prefix_sums, zlen_map; done).
  rewrite Hlen, Hrun.
  replace (zlen sk + 1 <=? 1) with false by lia. cbv zeta.
  replace (zlen sk + 1 - 1) with (zlen sk) by lia.
  set (base := default [] (get_range _ 0 (zlen sk))).
  assert (Hbase : positions_after (length (map fst sk)) all [] base).
  { unfold base. destruct (get_range _ _ _) as [b |] eqn:E; [|apply get_range_None in E; lia].
    pose proof (get_range_len _ _ _ _ E) as Hb. cbn. split.
    - intros j Hj. pose proof (zget_get_range _ _ _ _ j E) as Hg. rewrite Hn in Hj.
      unfold id. rewrite Hg by (unfold zlen; lia). rewrite Z.add_0_l, Hoff by lia. f_equal.
      change (zlen (under j [])) with 0. lia.
    - intros j p Hj Hp. apply zget_Some in Hp. unfold id, zlen in *. lia. }
  pose proof (chunk_stores_slots (map fst sk) lut Hlut (length records) (Z.to_nat csize) 0 [] base
    records all ltac:(lia) ltac:(done) Hr ltac:(lia) eq_refl Hbase) as Hst.
  cbv zeta in Hst. rewrite Hsize in Hst. fold chunks in Hst.
  change (from_index (record_items lut) (0 * csize) records) with all in Hst.
  change (enumerate ?l) with (zip (seqZ 0 (zlen l)) l). rewrite Hst.
  rewrite (csr_exact (length (map fst sk)) all); [ | done | done | lia | apply Hsch | lia].
  split.
  - rewrite Hn. change (Z.of_nat (length sk)) with (zlen sk).
    replace (k <? zlen sk) with true by lia. unfold all.
    rewrite (under_items (map fst sk) lut k t) by done. rewrite from_index_u32 by lia.
    by rewrite indices_where_from_index.
  - split; apply zget_is_Some; lia.
Qed.
Lemma build_keys schedule records :
  zlen records < 2 ^ 32 ->
  let keys := ti_keys (TrigramIndex_build table names schedule records) in
  StronglySorted Z.lt keys /\ forall t, t ∈ keys <-> indexed records t = true.
Proof.
  intros Hr. cbv zeta. unfold TrigramIndex_build.
  destruct (Z.eqb_spec (zlen records) 0) as [E | _].
  - destruct records; [|rewrite zlen_cons in E; pose proof (zlen_nonneg records); lia].
    split; [constructor |]. intros t. cbn. set_solver.
  - set (size := Z.to_nat CHUNK_SIZE). assert (0 < size)%nat by (unfold size, CHUNK_SIZE; lia).
    clearbody size. cbv zeta. cbn [ti_keys]. fold (freq_cap records).
    set (global := foldl merge_counts ∅ _).
    assert (Hcat : concat (par_chunks (length records) size records) = records)
      by (by apply concat_par_chunks).
    assert (Hm : counts_ok records global).
    { rewrite <- Hcat at 1. unfold global. apply (merge_all_ok _ [] ∅); [done |].
      rewrite Hcat. unfold zlen at 1. cbn. lia. }
    fold (sorted_keys global (freq_cap records)). split; [apply sorted_keys_sorted |].
    intros t. by apply elem_of_keys.
Qed.

(** A posting list is what the build put under its key. *)
Lemma get_posting_build schedule records t :
  (forall ws, schedule ws ≡ₚ ws) ->
  zlen records < 2 ^ 32 -> zlen (concat (map tris records)) < 2 ^ 32 ->
  get_posting (TrigramIndex_build table names schedule records) t =
  if indexed records t then Some (indices_where (has_trigram t) records) else None.
Proof.
  intros Hsch Hr Htot. pose proof (build_keys schedule records Hr) as [Hs Hk].
  pose proof (binary_search_by_spec _ _ (keys_search_ordered _ t Hs)) as Hb. unfold get_posting.
  destruct (binary_search_by _ _) as [i | i].
  - destruct Hb as (x & Hx & ->%Z.compare_eq_iff). pose proof Hx as Hi%zget_elem%Hk. rewrite Hi.
    assert (records <> []) as Hne by (intros ->; by vm_compute in Hi).
    destruct (build_postings schedule records i t Hsch Hne Hr Htot Hx) as (Hp & [a Ha] & [b Hb']).
    rewrite Ha, Hb'. unfold csr_slice in Hp. rewrite Ha, Hb' in Hp. cbn in Hp. unfold id in Hp.
    destruct (get_range _ a b); cbn in Hp; [by rewrite <- Hp |].
    destruct (frequency_positive t records) as (j & r & Hj & Ht); [unfold indexed in Hi; lia |].
    assert (j ∈ indices_where (has_trigram t) records) as Hin by (apply elem_of_indices_where; eauto).
    rewrite <- Hp in Hin. by apply not_elem_of_nil in Hin.
  - destruct (indexed records t) eqn:E; [|done]. apply Hk, list_elem_of_lookup in E as [j Hj].
    assert (Hj' : zget (ti_keys (TrigramIndex_build table names schedule records)) (Z.of_nat j) = Some t).
    { apply zget_Some. rewrite Nat2Z.id. split; [|done]. apply lookup_lt_Some in Hj. unfold zlen. lia. }
    destruct Hb as (_ & H1 & H2). destruct (Z.ltb_spec (Z.of_nat j) i).
    + specialize (H1 _ _ Hj' ltac:(done)). by rewrite Z.compare_refl in H1.
    + specialize (H2 _ _ Hj' ltac:(done)). by rewrite Z.compare_refl in H2.
Qed.

(** Whatever the order the parallel scatter stores in, the posting list of a
    trigram is the ascending list of the records whose name has it, for the trigrams
    of some record but of no more than a quarter of them (or 1024); the others have
    no list. *)
Theorem trigram_build_exact schedule records t :
  (forall ws, schedule ws ≡ₚ ws) ->
  zlen records < 2 ^ 32 -> zlen (concat (map tris records)) < 2 ^ 32 ->
  get_posting (TrigramIndex_build table names schedule records) t =
  if indexed records t then Some (indices_where (has_trigram t) records) else None.
Proof. apply get_posting_build. Qed.

End build_exact.

(** * Intersection *)

(** [while let Some(&ov) = other.get(j) { if ov >= val { break } j += 1 }]. *)
Fixpoint advance_to (fuel : nat) (other : list Z) (j val : Z) : Z :=
  match fuel with
  | O => j
  | S fuel =>
      match zget other j with
      | None => j
      | Some ov => if val <=? ov then j else advance_to fuel other (j + 1) val
      end
  end.

(** One turn of the loop over [i]: the vector, the write position and [j]. *)
Definition intersect_step (other : list Z) (st : list Z * Z * Z) (i : Z) : list Z * Z * Z :=
  let '(result, write, j) := st in
  match zget result i with
  | None => st
  | Some val =>
      let j := advance_to (length other) other j val in
      if bool_decide (zget other j = Some val) then
        match zget result write with
        | Some _ => (zset result write val, write + 1, j + 1)
        | None => (result, write, j)
        end
      else (result, write, j)
  end.

Definition intersect_in_place (result other : list Z) : list Z :=
  let '(result, write, _) := foldl (intersect_step other) (result, 0, 0) (seqZ 0 (zlen result)) in
  take (Z.to_nat write) result.

Lemma advance_to_spec fuel other j val :
  0 <= j -> (Z.to_nat (zlen other - j) <= fuel)%nat ->
  let j' := advance_to fuel other j val in
  j <= j' /\ (forall m x, j <= m < j' -> zget other m = Some x -> x < val) /\
  (forall x, zget other j' = Some x -> val <= x).
Proof.
  cbv zeta. revert j. induction fuel as [|fuel IH]; intros j Hj Hf; cbn [advance_to].
  - split; [lia |]. split; [lia |]. intros x [Hx _]%zget_Some. lia.
  - destruct (zget other j) as [ov |] eqn:E.
    + destruct (Z.leb_spec val ov).
      * split; [lia |]. split; [lia |]. intros x Hx. congruence.
      * destruct (IH (j + 1)) as (H1 & H2 & H3); [lia | lia |].
        split; [lia |]. split; [|done]. intros m x Hm Hx.
        destruct (Z.eq_dec m j) as [-> |]; [congruence |]. apply (H2 m); [lia | done].
    + split; [lia |]. split; [lia |]. intros x Hx. congruence.
Qed.

(** The state after the first elements [seen] of the vector. *)
Definition intersect_inv (other seen rest : list Z) (st : list Z * Z * Z) : Prop :=
  let '(result, write, j) := st in
  0 <= write <= zlen seen /\ zlen result = zlen (seen ++ rest) /\
  take (Z.to_nat write) result = List.filter (fun x => bool_decide (x ∈ other)) seen /\
  (forall i, zlen seen <= i -> zget result i = zget (seen ++ rest) i) /\
  0 <= j /\ (forall m x y, m < j -> zget other m = Some x -> y ∈ rest -> x < y).

Lemma filter_snoc {A} (f : A -> bool) l x :
  List.filter f (l ++ [x]) = List.filter f l ++ (if f x then [x] else []).
Proof. rewrite List.filter_app. cbn. by destruct (f x). Qed.

Lemma take_zset_snoc {A} (l : list A) w x :
  0 <= w < zlen l -> take (Z.to_nat (w + 1)) (zset l w x) = take (Z.to_nat w) l ++ [x].
Proof.
  intros Hw. unfold zset. replace ((0 <=? w) && (w <? zlen l)) with true by lia.
  replace (Z.to_nat (w + 1)) with (S (Z.to_nat w)) by lia.
  rewrite (take_S_r _ _ x) by (apply list_lookup_insert_eq; unfold zlen in Hw; lia).
  f_equal. apply take_insert_ge. lia.
Qed.

Lemma intersect_step_inv other seen v rest st :
  StronglySorted Z.lt other -> StronglySorted Z.lt (v :: rest) ->
  intersect_inv other seen (v :: rest) st ->
  intersect_inv other (seen ++ [v]) rest (intersect_step other st (zlen seen)).
Proof.
  destruct st as [[result w] j]. intros Ho Hr (Hw & Hl & Ht & Hi & Hj & Hlt). cbn [intersect_step].
  assert (Hv : zget result (zlen seen) = Some v).
  { rewrite Hi, zget_app_r, Z.sub_diag, zget_cons by lia. done. }
  rewrite Hv. destruct (advance_to_spec (length other) other j v) as (A1 & A2 & A3);
    [lia | unfold zlen; lia |]. set (j' := advance_to _ _ _ _) in *.
  assert (Hbelow : forall m x, m < j' -> zget other m = Some x -> x < v).
  { intros m x Hm Hx. destruct (Z.ltb_spec m j).
    - apply (Hlt m x v); [done | done | left].
    - apply (A2 m x); [lia | done]. }
  apply StronglySorted_inv in Hr as [Hr Hf]. rewrite Forall_forall in Hf.
  assert (Hlen : zlen (seen ++ v :: rest) = zlen ((seen ++ [v]) ++ rest)) by by rewrite <- app_assoc.
  assert (Hin : v ∈ other <-> zget other j' = Some v).
  { split; [|apply zget_elem]. intros (m & Hm)%list_elem_of_lookup.
    assert (Hm' : zget other (Z.of_nat m) = Some v).
    { apply zget_Some. rewrite Nat2Z.id. split; [|done]. apply lookup_lt_Some in Hm. unfold zlen. lia. }
    destruct (Z.lt_trichotomy (Z.of_nat m) j') as [H | [<- | H]]; [|done |].
    - specialize (Hbelow _ _ H Hm'). lia.
    - pose proof Hm' as [Hmr _]%zget_Some.
      destruct (zget_is_Some other j') as [x Hx]; [lia |].
      pose proof (StronglySorted_zget _ _ _ _ _ _ Ho H Hx Hm'). specialize (A3 x Hx). lia. }
  pose proof (zlen_nonneg rest). case_bool_decide as Hd.
  - destruct (zget_is_Some result w) as [q Hq]; [rewrite Hl; zlia |]. rewrite Hq.
    unfold intersect_inv. rewrite zlen_zset, zlen_app. change (zlen [v]) with 1.
    split_and!; try lia; try congruence.
    + rewrite take_zset_snoc, Ht, filter_snoc by (rewrite Hl; zlia).
      by rewrite bool_decide_eq_true_2 by by apply Hin.
    + intros i Hi'. rewrite zget_zset_ne by lia. rewrite Hi by lia. by rewrite <- app_assoc.
    + intros m x y Hm Hx Hy. specialize (Hf y Hy). cbn in Hf.
      destruct (Z.eq_dec m j') as [-> |]; [assert (x = v) by congruence; lia |].
      assert (x < v) by (apply (Hbelow m); [lia | done]). lia.
  - unfold intersect_inv. rewrite zlen_app. change (zlen [v]) with 1.
    split_and!; try lia; try congruence.
    + rewrite Ht, filter_snoc, bool_decide_eq_false_2 by by rewrite Hin. by rewrite app_nil_r.
    + intros i Hi'. rewrite Hi by lia. by rewrite <- app_assoc.
    + intros m x y Hm Hx Hy. specialize (Hf y Hy). cbn in Hf. specialize (Hbelow m x Hm Hx). lia.
Qed.

Lemma intersect_loop_inv other seen rest st :
  StronglySorted Z.lt other -> StronglySorted Z.lt rest -> intersect_inv other seen rest st ->
  intersect_inv other (seen ++ rest) []
    (foldl (intersect_step other) st (seqZ (zlen seen) (zlen rest))).
Proof.
  intros Ho. revert seen st. induction rest as [|v rest IH]; intros seen st Hr Hinv.
  - by rewrite app_nil_r.
  - pose proof (zlen_nonneg rest). rewrite zlen_cons, seqZ_cons by lia. cbn [foldl].
    replace (Z.pred (1 + zlen rest)) with (zlen rest) by lia.
    replace (Z.succ (zlen seen)) with (zlen (seen ++ [v])) by (rewrite zlen_app; change (zlen [v]) with 1; lia).
    change (v :: rest) with ([v] ++ rest). rewrite app_assoc. apply IH.
    + by apply StronglySorted_inv in Hr as [? _].
    + by apply intersect_step_inv.
Qed.

(** The intersection keeps the elements of the first list that are in the second. *)
Lemma intersect_in_place_spec result other :
  StronglySorted Z.lt other -> StronglySorted Z.lt result ->
  intersect_in_place result other = List.filter (fun x => bool_decide (x ∈ other)) result.
Proof.
  intros Ho Hr. unfold intersect_in_place.
  pose proof (intersect_loop_inv other [] result (result, 0, 0) Ho Hr) as H.
  change (zlen (@nil Z)) with 0 in H.
  destruct (foldl _ _ _) as [[r w] j]. destruct H as (_ & _ & H & _); [|done].
  unfold intersect_inv. change (zlen (@nil Z)) with 0. split_and!; try done.
  intros m x y Hm [Hx _]%zget_Some. lia.
Qed.

(** * Search *)

(** The chain of intersections, cut short when nothing is left. *)
Fixpoint intersect_rest (result : list Z) (lists : list (list Z)) : list Z :=
  match lists with
  | [] => result
  | l :: lists =>
      let result := intersect_in_place result l in
      if zlen result =? 0 then result else intersect_rest result lists
  end.

Definition intersect_lists (lists : list (list Z)) : list Z :=
  match lists with
  | [] => []
  | first :: rest => intersect_rest first rest
  end.

Lemma intersect_rest_spec result lists :
  StronglySorted Z.lt result -> Forall (StronglySorted Z.lt) lists ->
  StronglySorted Z.lt (intersect_rest result lists) /\
  forall x, x ∈ intersect_rest result lists <-> x ∈ result /\ forall l, l ∈ lists -> x ∈ l.
Proof.
  revert result. induction lists as [|l lists IH]; intros result Hr Hl; cbn [intersect_rest].
  - split; [done |]. set_solver.
  - apply Forall_cons in Hl as [Hl Hls]. rewrite intersect_in_place_spec by done.
    set (r' := List.filter _ result).
    assert (Hr' : StronglySorted Z.lt r') by by apply filter_sorted.
    assert (Hin : forall x, x ∈ r' <-> x ∈ result /\ x ∈ l).
    { intros x. unfold r'. rewrite elem_of_filterb, bool_decide_eq_true. done. }
    destruct (Z.eqb_spec (zlen r') 0) as [E |].
    + split; [done |]. intros x. destruct r'; [|rewrite zlen_cons in E; pose proof (zlen_nonneg r'); lia].
      specialize (Hin x). set_solver.
    + destruct (IH r' Hr' Hls) as [H1 H2]. split; [done |]. intros x. rewrite H2, Hin. set_solver.
Qed.

Lemma intersect_lists_spec lists :
  lists <> [] -> Forall (StronglySorted Z.lt) lists ->
  StronglySorted Z.lt (intersect_lists lists) /\
  forall x, x ∈ intersect_lists lists <-> forall l, l ∈ lists -> x ∈ l.
Proof.
  destruct lists as [|l lists]; intros Hne Hs; [done |]. apply Forall_cons in Hs as [Hl Hls].
  destruct (intersect_rest_spec l lists Hl Hls) as [H1 H2]. split; [done |].
  intros x. cbn [intersect_lists]. rewrite H2. set_solver.
Qed.

Section search.
(** [sort_unstable_by_key(len)]: some permutation. *)
Context (sort_by_len : list (list Z) -> list (list Z)).

Definition search (table : list Z) (ti : TrigramIndex) (needle : list Z) : option (list Z) :=
  let? trigrams := needle_trigrams table needle in
  if zlen trigrams =? 0 then Some [] else
  let lists := omap (get_posting ti) trigrams in
  if zlen lists =? 0 then Some [] else
  Some (intersect_lists (sort_by_len lists)).

End search.

(** The needle's trigrams as a record's name has them. *)
Definition has_trigrams (table names : list Z) (ts : list Z) (rec : CompactRecord) : bool :=
  forallb (fun t => has_trigram table names t rec) ts.

Lemma omap_get_posting table names schedule records ts :
  (forall ws, schedule ws ≡ₚ ws) ->
  zlen records < 2 ^ 32 -> zlen (concat (map (record_trigrams table names) records)) < 2 ^ 32 ->
  omap (get_posting (TrigramIndex_build table names schedule records)) ts =
  map (fun t => indices_where (has_trigram table names t) records)
    (List.filter (indexed table names records) ts).
Proof.
  intros Hsch Hr Htot. induction ts as [|t ts IH]; [done |].
  rewrite omap_cons', get_posting_build by done. cbn [List.filter].
  destruct (indexed table names records t); [|done]. cbn [map]. by rewrite IH.
Qed.

Lemma search_build table names schedule sort_by_len records needle ts :
  (forall ws, schedule ws ≡ₚ ws) -> (forall ls, sort_by_len ls ≡ₚ ls) ->
  zlen records < 2 ^ 32 -> zlen (concat (map (record_trigrams table names) records)) < 2 ^ 32 ->
  needle_trigrams table needle = Some ts ->
  let kept := List.filter (indexed table names records) ts in
  search sort_by_len table (TrigramIndex_build table names schedule records) needle =
  Some (if zlen kept =? 0 then [] else indices_where (has_trigrams table names kept) records).
Proof.
  intros Hsch Hsort Hr Htot Hts. cbv zeta. unfold search. rewrite Hts. cbv zeta.
  set (ti := TrigramIndex_build _ _ _ _).
  assert (Hlists := omap_get_posting table names schedule records ts Hsch Hr Htot). fold ti in Hlists.
  rewrite Hlists, zlen_map. set (kept := List.filter _ ts).
  destruct (Z.eqb_spec (zlen ts) 0) as [E | _].
  - destruct ts; [done |]. rewrite zlen_cons in E. pose proof (zlen_nonneg ts). lia.
  - destruct (Z.eqb_spec (zlen kept) 0) as [E | E]; [done |]. f_equal.
    set (lists := map _ kept).
    destruct (intersect_lists_spec (sort_by_len lists)) as [H1 H2].
    + intros H. apply E. pose proof (Hsort lists) as Hp. rewrite H in Hp.
      apply Permutation_nil_l in Hp. subst lists. destruct kept; done.
    + rewrite Hsort. apply Forall_forall. intros l (t & -> & _)%list_elem_of_fmap.
      apply indices_where_sorted.
    + apply ascending_ext; [done | apply indices_where_sorted |]. intros i. rewrite H2.
      rewrite elem_of_indices_where. unfold has_trigrams. setoid_rewrite Hsort. split.
      * intros Hall. destruct kept as [|t0 kept0] eqn:Ek; [done |].
        assert (i ∈ indices_where (has_trigram table names t0) records) as (rec & Hrec & _)%elem_of_indices_where
          by (apply Hall; subst lists; cbn; left).
        exists rec. split; [done |]. apply forallb_forall. intros t Ht%list_elem_of_In.
        assert (i ∈ indices_where (has_trigram table names t) records) as (rec' & Hrec' & Ht')%elem_of_indices_where.
        { apply Hall. subst lists. apply list_elem_of_fmap. eauto. }
        congruence.
      * intros (rec & Hrec & Hall) l (t & -> & Ht)%list_elem_of_fmap.
        apply elem_of_indices_where. exists rec. split; [done |].
        rewrite forallb_forall in Hall. apply Hall. by apply list_elem_of_In.
Qed.

Lemma needle_trigrams_nonempty table needle ts : needle_trigrams table needle = Some ts -> ts <> [].
Proof.
  unfold needle_trigrams. set (folded := map _ _). destruct (Z.ltb_spec (zlen folded) 3); [done |].
  intros [= <-]. destruct folded as [|a [|b [|c l]]]; rewrite ?zlen_cons, ?zlen_nil in *; try lia.
  intros E. assert (pack_char_trigram a b c ∈ []) as H'%not_elem_of_nil; [|done].
  rewrite <- E, elem_of_dedup. cbn. left.
Qed.

(** C23: a search of a freshly built index, for a needle of at least three characters,
    returns in ascending order the records whose name has every indexed trigram of the
    needle; when none of the needle's trigrams is indexed it returns no candidate at
    all, although records may contain the needle. *)
Theorem trigram_search_exact table names schedule sort_by_len records needle ts :
  (forall ws, schedule ws ≡ₚ ws) -> (forall ls, sort_by_len ls ≡ₚ ls) ->
  zlen records < 2 ^ 32 -> zlen (concat (map (record_trigrams table names) records)) < 2 ^ 32 ->
  needle_trigrams table needle = Some ts ->
  let kept := List.filter (indexed table names records) ts in
  search sort_by_len table (TrigramIndex_build table names schedule records) needle =
  Some (if zlen kept =? 0 then [] else indices_where (has_trigrams table names kept) records).
Proof. apply search_build. Qed.

(** * Witnesses *)

(** Names ["abcd"], ["xabc"], [""] and ["bcd"] in one blob; the empty table folds
    nothing; stores happen in reverse order. *)
Definition small_names : list Z := [97; 98; 99; 100; 120; 97; 98; 99].
Definition small_records : list CompactRecord :=
  [record_at U32_MAX 0 0 4; record_at 0 0 4 4; record_at 0 0 0 0; record_at 0 0 1 3].

Lemma trigram_build_exact_witness :
  get_posting (TrigramIndex_build [] small_names (@rev _) small_records) (pack_char_trigram 97 98 99)
  = Some [0; 1].
Proof.
  rewrite (trigram_build_exact [] small_names (@rev _) small_records).
  - by vm_compute.
  - intros ws. symmetry. apply Permutation_rev.
  - by vm_compute.
  - by vm_compute.
Defined.

Lemma trigram_search_exact_witness :
  search (@rev _) [] (TrigramIndex_build [] small_names (@rev _) small_records) [97; 98; 99; 100]
  = Some [0].
Proof.
  rewrite (trigram_search_exact [] small_names (@rev _) (@rev _) small_records [97; 98; 99; 100]
    [pack_char_trigram 97 98 99; pack_char_trigram 98 99 100]).
  - by vm_compute.
  - intros ws. symmetry. apply Permutation_rev.
  - intros ws. symmetry. apply Permutation_rev.
  - by vm_compute.
  - by vm_compute.
  - by vm_compute.
Defined.
