(* ===== verification/IndexDelta.v ===== *)
(** The overlay over a drive's immutable indexes: [crates/uffs-core/src/compact/delta.rs].

    [IndexDelta] keeps, per trigram, extension and parent, the sorted list of the
    records added since the last compaction, and the set of the records whose base
    postings are stale.  The two merge loops share one definition; what they compute is
    the sorted union of their inputs. *)
From S2P Require Import Prelude CsrIndex.
From stdpp Require Import strings.
Local Open Scope Z_scope.
Local Open Scope rust_scope.

(** * The overlay *)

Record IndexDelta := mkIndexDelta {
  d_trigram : gmap Z (list Z);
  d_ext : gmap Z (list Z);
  d_children : gmap Z (list Z);
  tombstones : gset Z;
  touched_records : Z
}.

(** [IndexDelta::default()]. *)
Definition delta_default : IndexDelta := mkIndexDelta ∅ ∅ ∅ ∅ 0.

(** [list.insert(pos, value)]. *)
Definition vec_insert (l : list Z) (pos v : Z) : list Z :=
  take (Z.to_nat pos) l ++ v :: drop (Z.to_nat pos) l.

Definition sorted_insert (l : list Z) (v : Z) : list Z :=
  match binary_search l v with
  | Err pos => vec_insert l pos v
  | Ok _ => l
  end.

(** [sorted_insert(map.entry(key).or_default(), idx)]. *)
Definition entry_insert (m : gmap Z (list Z)) (key idx : Z) : gmap Z (list Z) :=
  <[key := sorted_insert (default [] (m !! key)) idx]> m.

Definition add_record (d : IndexDelta) (idx : Z) (trigrams : list Z) (ext_id parent_idx : Z) : IndexDelta :=
  mkIndexDelta
    (foldl (fun m key => entry_insert m key idx) (d_trigram d) trigrams)
    (entry_insert (d_ext d) ext_id idx)
    (if negb (parent_idx =? U32_MAX) then entry_insert (d_children d) parent_idx idx else d_children d)
    (tombstones d)
    (saturating_add_u32 (touched_records d) 1).

Definition is_tombstoned (d : IndexDelta) (idx : Z) : bool := bool_decide (idx ∈ tombstones d).

Definition tombstone (d : IndexDelta) (idx : Z) : IndexDelta :=
  if is_tombstoned d idx then d
  else mkIndexDelta (d_trigram d) (d_ext d) (d_children d) ({[idx]} ∪ tombstones d)
         (saturating_add_u32 (touched_records d) 1).

(** [IndexDelta::len] and [is_empty]. *)
Definition delta_len (d : IndexDelta) : Z := touched_records d.
Definition delta_is_empty (d : IndexDelta) : bool := touched_records d =? 0.

Definition trigram_postings (d : IndexDelta) (key : Z) : list Z := default [] (d_trigram d !! key).
Definition ext_postings (d : IndexDelta) (ext_id : Z) : list Z := default [] (d_ext d !! ext_id).
Definition child_postings (d : IndexDelta) (parent_idx : Z) : list Z := default [] (d_children d !! parent_idx).

(** * Merging *)

(** The loop of [merge_filter] and [merge_postings]: the smaller head, once when the
    heads are equal, is handed to the rest of the loop body. *)
Fixpoint merge_loop {S} (body : S -> Z -> S) (base : list Z) : list Z -> S -> S :=
  fix merge_delta (delta : list Z) (st : S) : S :=
    match base, delta with
    | bv :: base', dv :: delta' =>
        if bv <? dv then merge_loop body base' delta (body st bv)
        else if dv <? bv then merge_delta delta' (body st dv)
        else merge_loop body base' delta' (body st bv)
    | bv :: base', [] => merge_loop body base' [] (body st bv)
    | [], dv :: delta' => merge_delta delta' (body st dv)
    | [], [] => st
    end.

Definition merge_filter {S} (base delta : list Z) (is_valid : Z -> bool) (emit : S -> Z -> S) (st : S) : S :=
  merge_loop (fun st next => if is_valid next then emit st next else st) base delta st.

Definition merge_postings (base delta : list Z) : list Z :=
  match delta, base with
  | [], _ => base
  | _, [] => delta
  | _, _ =>
      merge_loop (fun out next => if bool_decide (last out = Some next) then out else out ++ [next])
        base delta []
  end.

(** * What the merge computes *)

(** Both loops run their body over one list: the union of the inputs, in order when
    they are in order. *)
Lemma merge_loop_spec base delta :
  exists l, (forall S (body : S -> Z -> S) st, merge_loop body base delta st = foldl body st l) /\
    (forall x, x ∈ l <-> x ∈ base \/ x ∈ delta) /\
    (ascending base -> ascending delta -> ascending l).
Proof.
  revert delta. induction base as [|bv base IHb]; intros delta.
  - exists delta. split_and!; [| set_solver | done].
    intros S body. induction delta as [|dv delta IHd]; intros st; cbn; [done | apply IHd].
  - induction delta as [|dv delta IHd].
    + destruct (IHb []) as (l & Hl & Hin & Hs). exists (bv :: l). split_and!.
      * intros S body st. cbn. apply Hl.
      * intros x. rewrite !elem_of_cons, Hin. tauto.
      * intros [Hb Hlt]%ascending_cons Hd. apply ascending_cons. split; [by apply Hs |]. set_solver.
    + destruct (Z.ltb_spec bv dv) as [Hlt | Hge]; [| destruct (Z.ltb_spec dv bv) as [Hgt | Hle]].
      * destruct (IHb (dv :: delta)) as (l & Hl & Hin & Hs). exists (bv :: l). split_and!.
        -- intros S body st. cbn. replace (bv <? dv) with true by lia. apply Hl.
        -- intros x. rewrite !elem_of_cons, Hin, elem_of_cons. tauto.
        -- intros [Hb Hbl]%ascending_cons Hd. apply ascending_cons. split; [by apply Hs |].
           apply ascending_cons in Hd as [_ Hdl]. intros y Hy%Hin. rewrite elem_of_cons in Hy.
           destruct Hy as [Hy%Hbl | [-> | Hy%Hdl]]; lia.
      * destruct IHd as (l & Hl & Hin & Hs). exists (dv :: l). split_and!.
        -- intros S body st. cbn. replace (bv <? dv) with false by lia. replace (dv <? bv) with true by lia.
           apply Hl.
        -- intros x. rewrite !elem_of_cons, Hin, elem_of_cons. tauto.
        -- intros Hb [Hd Hdl]%ascending_cons. apply ascending_cons. split; [by apply Hs |].
           apply ascending_cons in Hb as [_ Hbl]. intros y Hy%Hin. rewrite elem_of_cons in Hy.
           destruct Hy as [[-> | Hy%Hbl] | Hy%Hdl]; lia.
      * assert (dv = bv) as -> by lia.
        destruct (IHb delta) as (l & Hl & Hin & Hs). exists (bv :: l). split_and!.
        -- intros S body st. cbn. replace (bv <? bv) with false by lia. apply Hl.
        -- intros x. rewrite !elem_of_cons, Hin. tauto.
        -- intros [Hb Hbl]%ascending_cons [Hd Hdl]%ascending_cons. apply ascending_cons.
           split; [by apply Hs |]. intros y [Hy | Hy]%Hin; auto.
Qed.

Lemma foldl_filter {S A} (f : A -> bool) (g : S -> A -> S) l st :
  foldl (fun st x => if f x then g st x else st) st l = foldl g st (List.filter f l).
Proof. revert st. induction l as [|x l IH]; intros st; cbn; [done |]. destruct (f x); cbn; apply IH. Qed.

(** The visitor sees the valid members of the union, each once and in order. *)
Lemma merge_filter_spec {S} base delta is_valid (emit : S -> Z -> S) st :
  ascending base -> ascending delta ->
  exists l, merge_filter base delta is_valid emit st = foldl emit st l /\ ascending l /\
    forall x, x ∈ l <-> (x ∈ base \/ x ∈ delta) /\ is_valid x = true.
Proof.
  intros Hb Hd. destruct (merge_loop_spec base delta) as (l & Hl & Hin & Hs).
  exists (List.filter is_valid l). unfold merge_filter. rewrite Hl, foldl_filter. split_and!; [done | |].
  - apply filter_sorted. auto.
  - intros x. by rewrite elem_of_filterb, Hin.
Qed.

Lemma foldl_dedup_ascending out l :
  ascending (out ++ l) ->
  foldl (fun out next => if bool_decide (last out = Some next) then out else out ++ [next]) out l = out ++ l.
Proof.
  revert out. induction l as [|x l IH]; intros out H; [by rewrite app_nil_r |]. cbn [foldl].
  rewrite bool_decide_false.
  - rewrite IH by (by rewrite <- app_assoc). by rewrite <- app_assoc.
  - intros (k & ->)%last_Some. apply ascending_app in H as (_ & _ & H).
    specialize (H x x). set_solver by lia.
Qed.

Lemma merge_postings_spec base delta :
  ascending base -> ascending delta ->
  ascending (merge_postings base delta) /\
  forall x, x ∈ merge_postings base delta <-> x ∈ base \/ x ∈ delta.
Proof.
  intros Hb Hd. unfold merge_postings. destruct delta as [|dv delta]; [set_solver |].
  destruct base as [|bv base]; [set_solver |].
  destruct (merge_loop_spec (bv :: base) (dv :: delta)) as (l & Hl & Hin & Hs).
  rewrite Hl, foldl_dedup_ascending by (by apply Hs). auto.
Qed.

(** * Insertion *)

Lemma sorted_insert_spec l v :
  ascending l -> ascending (sorted_insert l v) /\ forall x, x ∈ sorted_insert l v <-> x = v \/ x ∈ l.
Proof.
  intros Hl. unfold sorted_insert. pose proof (binary_search_spec l v Hl) as H.
  destruct (binary_search l v) as [i | i].
  - split; [done |]. apply zget_elem in H. set_solver.
  - destruct H as (_ & Hlo & Hhi). unfold vec_insert.
    rewrite <- (take_drop (Z.to_nat i) l) in Hl at 1. apply ascending_app in Hl as (Ht & Hdr & Hx).
    split.
    + apply ascending_app. split_and!; [done | apply ascending_cons; by split |].
      intros x y Hx' [-> | Hy]%elem_of_cons; auto.
    + intros x. rewrite <- (take_drop (Z.to_nat i) l) at 3. set_solver.
Qed.

(** Every posting list of the map is in order. *)
Definition postings_ok (m : gmap Z (list Z)) : Prop := forall k, ascending (default [] (m !! k)).

Lemma postings_ok_empty : postings_ok ∅.
Proof. intros k. rewrite lookup_empty. constructor. Qed.

Lemma entry_insert_lookup m key idx k :
  default [] (entry_insert m key idx !! k) =
  if decide (k = key) then sorted_insert (default [] (m !! key)) idx else default [] (m !! k).
Proof.
  unfold entry_insert. destruct (decide (k = key)) as [-> |].
  - by rewrite lookup_insert_eq.
  - by rewrite lookup_insert_ne.
Qed.

Lemma entry_insert_ok m key idx : postings_ok m -> postings_ok (entry_insert m key idx).
Proof.
  intros Hm k. rewrite entry_insert_lookup. destruct (decide _); [|done]. by apply sorted_insert_spec.
Qed.

Lemma entry_insert_elem m key idx k x :
  postings_ok m ->
  x ∈ default [] (entry_insert m key idx !! k) <-> (k = key /\ x = idx) \/ x ∈ default [] (m !! k).
Proof.
  intros Hm. rewrite entry_insert_lookup. destruct (decide (k = key)) as [-> |]; [|naive_solver].
  destruct (sorted_insert_spec (default [] (m !! key)) idx (Hm key)) as [_ ->]. naive_solver.
Qed.

Lemma entry_inserts_spec m keys idx :
  postings_ok m ->
  let m' := foldl (fun m key => entry_insert m key idx) m keys in
  postings_ok m' /\
  forall k x, x ∈ default [] (m' !! k) <-> (k ∈ keys /\ x = idx) \/ x ∈ default [] (m !! k).
Proof.
  cbv zeta. revert m. induction keys as [|key keys IH]; intros m Hm; cbn.
  - split; [done |]. set_solver.
  - destruct (IH _ (entry_insert_ok m key idx Hm)) as [H1 H2]. split; [done |].
    intros k x. rewrite H2, entry_insert_elem by done. set_solver.
Qed.

(** The invariant of the overlay: its posting lists are in order. *)
Record delta_ok (d : IndexDelta) : Prop := {
  trigrams_ok : postings_ok (d_trigram d);
  exts_ok : postings_ok (d_ext d);
  children_ok : postings_ok (d_children d)
}.

Lemma delta_default_ok : delta_ok delta_default.
Proof. split; apply postings_ok_empty. Qed.

Lemma tombstone_spec d idx :
  let d' := tombstone d idx in
  d_trigram d' = d_trigram d /\ d_ext d' = d_ext d /\ d_children d' = d_children d /\
  tombstones d' = {[idx]} ∪ tombstones d.
Proof. cbv zeta. unfold tombstone, is_tombstoned. case_bool_decide; cbn; set_solver. Qed.

Lemma tombstone_ok d idx : delta_ok d -> delta_ok (tombstone d idx).
Proof.
  intros []. pose proof (tombstone_spec d idx) as (H1 & H2 & H3 & _). split; by rewrite ?H1, ?H2, ?H3.
Qed.

Lemma tombstones_spec d idxs :
  let d' := foldl tombstone d idxs in
  d_trigram d' = d_trigram d /\ d_ext d' = d_ext d /\ d_children d' = d_children d /\
  tombstones d' = list_to_set idxs ∪ tombstones d.
Proof.
  cbv zeta. revert d. induction idxs as [|i idxs IH]; intros d; cbn; [set_solver |].
  destruct (IH (tombstone d i)) as (-> & -> & -> & ->).
  destruct (tombstone_spec d i) as (-> & -> & -> & ->). set_solver.
Qed.

Lemma tombstones_ok d idxs : delta_ok d -> delta_ok (foldl tombstone d idxs).
Proof. revert d. induction idxs as [|i idxs IH]; intros d H; cbn; [done |]. by apply IH, tombstone_ok. Qed.

Section add_record.
Context (d : IndexDelta) (idx : Z) (trigrams : list Z) (ext_id parent_idx : Z).
Context (Hd : delta_ok d).
Let d' := add_record d idx trigrams ext_id parent_idx.

Lemma add_record_ok : delta_ok d'.
Proof using Hd.
  destruct Hd as [H1 H2 H3]. split; cbn.
  - by apply entry_inserts_spec.
  - by apply entry_insert_ok.
  - destruct (negb _); [by apply entry_insert_ok | done].
Qed.

Lemma add_record_trigram k x :
  x ∈ trigram_postings d' k <-> (k ∈ trigrams /\ x = idx) \/ x ∈ trigram_postings d k.
Proof using Hd. apply entry_inserts_spec, Hd. Qed.

Lemma add_record_ext k x :
  x ∈ ext_postings d' k <-> (k = ext_id /\ x = idx) \/ x ∈ ext_postings d k.
Proof using Hd. apply entry_insert_elem, Hd. Qed.

Lemma add_record_child k x :
  x ∈ child_postings d' k <-> (k = parent_idx /\ k <> U32_MAX /\ x = idx) \/ x ∈ child_postings d k.
Proof using Hd.
  unfold child_postings, d', add_record. cbn. destruct (Z.eqb_spec parent_idx U32_MAX); cbn.
  - set_solver by lia.
  - rewrite entry_insert_elem by apply Hd. intuition congruence.
Qed.
End add_record.
