(* ===== verification/Bloom.v ===== *)
(** The shard Bloom filter and the search skip built on it:
    [crates/uffs-core/src/bloom.rs] and [search/bloom_skip.rs].

    The hasher is the [rustc_hash] crate's: [hash seed key] stands for a default
    [FxHasher] after [write_u64(seed)] and [write(key)].  Nothing is assumed of it.
    Sizing by false-positive rate is floating-point and is left to the caller of
    [with_size_and_k]. *)
From S2P Require Import Prelude.
From stdpp Require Import strings.
Local Open Scope Z_scope.
Local Open Scope rust_scope.

Definition SEED_A : Z := 0xA5A5C3C3F0F05A5A.
Definition SEED_B : Z := 0x5A5A3C3C0F0FA5A5.
Definition DEFAULT_K : Z := 7.

Record Bloom := mkBloom { bits : list Z; nbits : Z; k_hashes : Z }.

(** [k_hashes.clamp(1, 32)]. *)
Definition clamp_k (k : Z) : Z := Z.max 1 (Z.min 32 k).

Definition with_size_and_k (n k : Z) : Bloom :=
  let aligned_nbits := Z.max 64 (saturating_mul_u64 (div_ceil n 64) 64) in
  let nwords := aligned_nbits / 64 in
  mkBloom (zrepeat 0 nwords) aligned_nbits (clamp_k k).

Definition from_raw_parts (n k : Z) (ws : list Z) : option Bloom :=
  if (n =? 0) || negb (n mod 64 =? 0) then None
  else if negb (zlen ws =? n / 64) then None
  else Some (mkBloom ws n (clamp_k k)).

(** [raw % self.nbits]: a zero [nbits] panics. *)
Definition bit_index (b : Bloom) (hash_a hash_b probe_idx : Z) : option Z :=
  let raw := hash_a +w (probe_idx *w hash_b) in
  if nbits b =? 0 then None else Some (raw mod nbits b).

(** [self.bits[word_idx] |= 1 << bit_idx]. *)
Definition set_bit (b : Bloom) (pos : Z) : option Bloom :=
  let? word := zget (bits b) (pos / 64) in
  Some (mkBloom (zset (bits b) (pos / 64) (Z.lor word (Z.shiftl 1 (Z.land pos 63)))) (nbits b) (k_hashes b)).

Definition get_bit (b : Bloom) (pos : Z) : option bool :=
  let? word := zget (bits b) (pos / 64) in
  Some (Z.land (Z.shiftr word (Z.land pos 63)) 1 =? 1).

Section bloom.
Context (hash : Z -> list Z -> Z).

Definition base_hashes (key : list Z) : Z * Z :=
  (hash SEED_A key, Z.lor (hash SEED_B key) 1).

(** [for probe_idx in 0..k { ... }], as the list of the probe numbers. *)
Definition probe_numbers (b : Bloom) : list Z := seqZ 0 (k_hashes b).

Definition insert (b : Bloom) (key : list Z) : option Bloom :=
  let (hash_a, hash_b) := base_hashes key in
  foldl (fun acc probe_idx =>
      let? b := acc in
      let? pos := bit_index b hash_a hash_b probe_idx in
      set_bit b pos)
    (Some b) (probe_numbers b).

Fixpoint all_set (b : Bloom) (hash_a hash_b : Z) (probes : list Z) : option bool :=
  match probes with
  | [] => Some true
  | probe_idx :: probes =>
      let? pos := bit_index b hash_a hash_b probe_idx in
      let? set := get_bit b pos in
      if negb set then Some false else all_set b hash_a hash_b probes
  end.

Definition contains (b : Bloom) (key : list Z) : option bool :=
  let (hash_a, hash_b) := base_hashes key in
  all_set b hash_a hash_b (probe_numbers b).

(** [for item in items { bloom.insert(item) }]. *)
Definition insert_all (b : Bloom) (keys : list (list Z)) : option Bloom :=
  foldl (fun acc key => let? b := acc in insert b key) (Some b) keys.

(** * The search skip *)

Inductive BloomDecision := Skip | Keep.

(** [ext_terms.iter().any(|term| bloom.contains(term))]. *)
Fixpoint any_hit (b : Bloom) (ext_terms : list (list Z)) : option bool :=
  match ext_terms with
  | [] => Some false
  | term :: ext_terms =>
      let? hit := contains b term in
      if hit then Some true else any_hit b ext_terms
  end.

Definition decide_for_ext_filter (bloom : option Bloom) (ext_terms : list (list Z)) : option BloomDecision :=
  match ext_terms, bloom with
  | [], _ => Some Keep
  | _, None => Some Keep
  | _, Some bloom_ref =>
      let? hit := any_hit bloom_ref ext_terms in
      Some (if hit then Keep else Skip)
  end.

(** * Invariant *)

(** What the constructors establish: whole words, at least one, and a number of
    probes between 1 and 32. *)
Record bloom_ok (b : Bloom) : Prop := {
  words_ok : nbits b = 64 * zlen (bits b);
  nonempty_ok : 0 < zlen (bits b);
  k_ok : 1 <= k_hashes b <= 32
}.

Lemma clamp_k_range k : 1 <= clamp_k k <= 32.
Proof. unfold clamp_k. lia. Qed.

Lemma with_size_and_k_ok n k : 0 <= n <= 2 ^ 64 - 64 -> bloom_ok (with_size_and_k n k).
Proof.
  intros Hn. unfold with_size_and_k, saturating_mul_u64, div_ceil, U64_MAX. cbv zeta.
  set (w := (n + 64 - 1) / 64).
  assert (Hw : 0 <= w < 2 ^ 58) by (unfold w; split; [apply Z.div_pos | apply Z.div_lt_upper_bound]; lia).
  assert (Hm : Z.max 64 (Z.min (2 ^ 64 - 1) (w * 64)) = Z.max 1 w * 64) by lia. rewrite Hm.
  rewrite Z.div_mul by done.
  split; cbn; unfold zrepeat, zlen; rewrite ?length_replicate, ?Z2Nat.id; try lia. apply clamp_k_range.
Qed.

Lemma from_raw_parts_ok n k ws b : 0 <= n -> from_raw_parts n k ws = Some b -> bloom_ok b.
Proof.
  unfold from_raw_parts. intros Hn. destruct (Z.eqb_spec n 0); [done |].
  destruct (Z.eqb_spec (n mod 64) 0) as [Hm |]; cbn; [|done].
  destruct (Z.eqb_spec (zlen ws) (n / 64)) as [Hl |]; cbn; [|done]. intros [= <-].
  pose proof (Z.div_mod n 64). split; cbn; [lia | lia | apply clamp_k_range].
Qed.

(** * What an operation does to the bits *)

(** The bit at a position of the filter. *)
Definition bit (b : Bloom) (pos : Z) : bool := bool_decide (get_bit b pos = Some true).

(** The positions a key is probed at. *)
Definition probe (b : Bloom) (key : list Z) (i : Z) : Z :=
  ((base_hashes key).1 +w (i *w (base_hashes key).2)) mod nbits b.

Lemma bit_index_ok b key i :
  bloom_ok b ->
  bit_index b (base_hashes key).1 (base_hashes key).2 i = Some (probe b key i) /\
  0 <= probe b key i < nbits b.
Proof.
  intros [H1 H2 H3]. unfold bit_index, probe. destruct (Z.eqb_spec (nbits b) 0); [lia |].
  split; [done |]. apply Z.mod_pos_bound. lia.
Qed.

Lemma word_in_range b pos : bloom_ok b -> 0 <= pos < nbits b -> 0 <= pos / 64 < zlen (bits b).
Proof.
  intros [H1 H2 H3] Hp. split; [apply Z.div_pos; lia |]. apply Z.div_lt_upper_bound; lia.
Qed.

Lemma land_63 pos : Z.land pos 63 = pos mod 64.
Proof. change 63 with (2 ^ 6 - 1). by rewrite land_ones_mod by done. Qed.

Lemma land_shiftr_1 w i : 0 <= i -> (Z.land (Z.shiftr w i) 1 =? 1) = Z.testbit w i.
Proof.
  intros Hi. change (Z.land (Z.shiftr w i) 1) with (Z.land (Z.shiftr w i) (Z.ones 1)).
  rewrite Z.land_ones by lia. change (2 ^ 1) with 2.
  rewrite Zmod_odd, <- Z.bit0_odd, Z.shiftr_spec, Z.add_0_l by lia. by destruct (Z.testbit w i).
Qed.

Lemma get_bit_total b pos :
  bloom_ok b -> 0 <= pos < nbits b -> get_bit b pos = Some (bit b pos).
Proof.
  intros Hb Hp. unfold bit, get_bit. destruct (zget_is_Some _ _ (word_in_range b pos Hb Hp)) as [w ->].
  f_equal. destruct (_ =? 1); by case_bool_decide.
Qed.

Lemma set_bit_spec b pos :
  bloom_ok b -> 0 <= pos < nbits b ->
  exists b', set_bit b pos = Some b' /\ bloom_ok b' /\ nbits b' = nbits b /\ k_hashes b' = k_hashes b /\
    forall q, 0 <= q < nbits b -> bit b' q = (q =? pos) || bit b q.
Proof.
  intros Hb Hp. unfold set_bit. pose proof (word_in_range b pos Hb Hp) as Hr.
  destruct (zget_is_Some _ _ Hr) as [w Hw]. rewrite Hw. eexists. split; [reflexivity |].
  destruct Hb as [H1 H2 H3]. split_and!; [split; cbn; rewrite ?zlen_zset; lia | done | done |].
  intros q Hq. unfold bit, get_bit. cbn [bits].
  rewrite !land_63. assert (0 <= pos mod 64 < 64) by (apply Z.mod_pos_bound; lia).
  assert (0 <= q mod 64 < 64) by (apply Z.mod_pos_bound; lia).
  pose proof (Z.div_mod q 64). pose proof (Z.div_mod pos 64).
  destruct (Z.eq_dec (q / 64) (pos / 64)) as [E | E].
  - rewrite E, zget_zset_eq, Hw by done.
    rewrite !land_shiftr_1 by lia. rewrite Z.lor_spec, Z.shiftl_1_l, Z.pow2_bits_eqb by lia.
    destruct (Z.eqb_spec q pos) as [-> | Hne]; cbn [orb].
    + rewrite Z.eqb_refl, orb_true_r. by case_bool_decide.
    + replace (pos mod 64 =? q mod 64) with false by lia. by rewrite orb_false_r.
  - rewrite zget_zset_ne by done. replace (q =? pos) with false; [done |].
    symmetry. apply Z.eqb_neq. by intros ->.
Qed.

(** ** Insertion *)

(** A key is probed at [pos]. *)
Definition probed (b : Bloom) (key : list Z) (pos : Z) : bool :=
  existsb (fun i => probe b key i =? pos) (probe_numbers b).

(** [b'] is [b] with more bits set. *)
Definition grown (b b' : Bloom) (more : Z -> bool) : Prop :=
  bloom_ok b' /\ nbits b' = nbits b /\ k_hashes b' = k_hashes b /\
  forall q, 0 <= q < nbits b -> bit b' q = bit b q || more q.

Lemma insert_probes_spec b key probes acc more :
  bloom_ok b -> grown b acc more ->
  exists b', foldl (fun acc probe_idx =>
      let? b := acc in
      let? pos := bit_index b (base_hashes key).1 (base_hashes key).2 probe_idx in
      set_bit b pos) (Some acc) probes = Some b' /\
    grown b b' (fun q => more q || existsb (fun i => probe b key i =? q) probes).
Proof.
  intros Hb. revert acc more. induction probes as [|i probes IH]; intros acc more (H1 & H2 & H3 & H4).
  - exists acc. split; [done |]. split_and!; try done. intros q Hq. cbn. rewrite orb_false_r. auto.
  - cbn [foldl]. destruct (bit_index_ok acc key i H1) as [-> Hp].
    destruct (set_bit_spec acc _ H1 Hp) as (acc' & -> & H1' & H2' & H3' & H4').
    destruct (IH acc' (fun q => more q || (probe b key i =? q))) as (b' & Hb' & Hg).
    { split_and!; [done | congruence.. |]. intros q Hq. rewrite H4', H4 by lia.
      unfold probe. rewrite H2, (Z.eqb_sym q). destruct (bit b q), (more q), (_ =? _); done. }
    exists b'. split; [done |]. destruct Hg as (G1 & G2 & G3 & G4). split_and!; try done.
    intros q Hq. rewrite G4 by done. cbn [existsb]. by rewrite !orb_assoc.
Qed.

Lemma insert_spec b key :
  bloom_ok b -> exists b', insert b key = Some b' /\ grown b b' (probed b key).
Proof.
  intros Hb. destruct (insert_probes_spec b key (probe_numbers b) b (fun _ => false)) as (b' & H & Hg).
  - done.
  - split_and!; try done. intros q _. by rewrite orb_false_r.
  - exists b'. split; [|done]. unfold insert. by destruct (base_hashes key).
Qed.

Lemma insert_all_from b keys acc more :
  bloom_ok b -> grown b acc more ->
  exists b', foldl (fun acc key => let? b := acc in insert b key) (Some acc) keys = Some b' /\
    grown b b' (fun q => more q || existsb (fun key => probed b key q) keys).
Proof.
  intros Hb. revert acc more. induction keys as [|key keys IH]; intros acc more (H1 & H2 & H3 & H4).
  - exists acc. split; [done |]. split_and!; try done. intros q Hq. cbn. rewrite orb_false_r. auto.
  - cbn [foldl]. destruct (insert_spec acc key H1) as (acc' & -> & G1 & G2 & G3 & G4).
    destruct (IH acc' (fun q => more q || probed b key q)) as (b' & Hb' & K1 & K2 & K3 & K4).
    { split_and!; [done | congruence.. |]. intros q Hq. rewrite G4, H4 by lia.
      rewrite <- orb_assoc. f_equal. f_equal. unfold probed, probe_numbers, probe. by rewrite H2, H3. }
    exists b'. split; [done |]. split_and!; try done. intros q Hq. rewrite K4 by done. cbn [existsb].
    by rewrite !orb_assoc.
Qed.

Lemma insert_all_spec b keys :
  bloom_ok b -> exists b', insert_all b keys = Some b' /\
    grown b b' (fun q => existsb (fun key => probed b key q) keys).
Proof.
  intros Hb. destruct (insert_all_from b keys b (fun _ => false)) as (b' & H & Hg); [done | |].
  - split_and!; try done. intros q _. by rewrite orb_false_r.
  - by exists b'.
Qed.

(** ** Membership *)

Lemma all_set_spec b key probes :
  bloom_ok b ->
  all_set b (base_hashes key).1 (base_hashes key).2 probes =
  Some (forallb (fun i => bit b (probe b key i)) probes).
Proof.
  intros Hb. induction probes as [|i probes IH]; cbn [all_set forallb]; [done |].
  destruct (bit_index_ok b key i Hb) as [-> Hp]. rewrite (get_bit_total _ _ Hb Hp).
  destruct (bit b _); cbn; [apply IH | done].
Qed.

Lemma contains_spec b key :
  bloom_ok b -> contains b key = Some (forallb (fun i => bit b (probe b key i)) (probe_numbers b)).
Proof. intros Hb. unfold contains. rewrite <- all_set_spec by done. by destruct (base_hashes key). Qed.

Lemma forallb_pointwise {A} (f g : A -> bool) l : (forall x, f x = g x) -> forallb f l = forallb g l.
Proof. intros H. induction l as [|x l IH]; cbn; [done |]. by rewrite H, IH. Qed.

(** Membership after insertions into any well-formed filter. *)
Lemma contains_insert_all b keys b' key :
  bloom_ok b -> insert_all b keys = Some b' ->
  contains b' key = Some (forallb (fun i => bit b (probe b key i) ||
    existsb (fun key' => probed b key' (probe b key i)) keys) (probe_numbers b)).
Proof.
  intros Hb H. destruct (insert_all_spec b keys Hb) as (b'' & E & H1 & H2 & H3 & H4).
  assert (b'' = b') as -> by congruence. rewrite contains_spec by done.
  unfold probe_numbers. rewrite H3. f_equal. apply forallb_pointwise. intros i.
  replace (probe b' key i) with (probe b key i) by (unfold probe; by rewrite H2).
  apply H4, bit_index_ok, Hb.
Qed.

Lemma contains_inserted b keys b' key :
  bloom_ok b -> insert_all b keys = Some b' -> key ∈ keys -> contains b' key = Some true.
Proof.
  intros Hb H Hk. rewrite (contains_insert_all b keys) by done. f_equal. apply forallb_forall.
  intros i Hi. apply orb_true_iff. right. apply existsb_exists. exists key.
  split; [by apply list_elem_of_In |]. unfold probed. apply existsb_exists. exists i. split; [done |].
  apply Z.eqb_refl.
Qed.

Lemma fresh_bit n k q : bit (with_size_and_k n k) q = false.
Proof.
  unfold bit, get_bit. cbn [bits]. apply bool_decide_eq_false_2.
  destruct (zget _ _) as [w |] eqn:E; [|done]. apply zget_elem in E. unfold zrepeat in E.
  apply elem_of_replicate in E as [-> _]. by rewrite Z.shiftr_0_l.
Qed.

Lemma any_hit_spec b ext_terms :
  bloom_ok b ->
  any_hit b ext_terms = Some (existsb (fun term => bool_decide (contains b term = Some true)) ext_terms).
Proof.
  intros Hb. induction ext_terms as [|term ext_terms IH]; cbn [any_hit existsb]; [done |].
  rewrite contains_spec by done. destruct (forallb _ _).
  - by rewrite bool_decide_true.
  - rewrite bool_decide_false by done. apply IH.
Qed.

Lemma decide_skip b ext_terms :
  bloom_ok b ->
  decide_for_ext_filter (Some b) ext_terms = Some Skip ->
  ext_terms <> [] /\ forall term, term ∈ ext_terms -> contains b term <> Some true.
Proof.
  intros Hb. unfold decide_for_ext_filter. destruct ext_terms as [|t ts]; [done |].
  rewrite any_hit_spec by done. destruct (existsb _ _) eqn:E; [done |]. intros _.
  split; [done |]. intros term Hin Hc. apply not_true_iff_false in E. apply E, existsb_exists.
  exists term. split; [by apply list_elem_of_In | by apply bool_decide_eq_true_2].
Qed.

(** ** Theorems *)

(** Inserting any keys in a fresh filter of any size never panics; the filter then
    answers a key with true exactly when each position the key is probed at is a
    position of some inserted key, so an inserted key is never missed. *)
Theorem bloom_membership n k keys :
  0 <= n <= 2 ^ 64 - 64 ->
  exists b, insert_all (with_size_and_k n k) keys = Some b /\
    (forall key, contains b key = Some (forallb (fun i =>
       existsb (fun key' => probed b key' (probe b key i)) keys) (probe_numbers b))) /\
    (forall key, key ∈ keys -> contains b key = Some true).
Proof.
  intros Hn. pose proof (with_size_and_k_ok n k Hn) as Hb0.
  destruct (insert_all_spec _ keys Hb0) as (b & E & H1 & H2 & H3 & H4). exists b. split_and!; [done | |].
  - intros key. rewrite (contains_insert_all _ keys _ key Hb0 E). f_equal.
    unfold probe_numbers, probed, probe. rewrite H2, H3. apply forallb_pointwise. intros i.
    rewrite fresh_bit. unfold probe_numbers. by rewrite H3.
  - intros key Hk. exact (contains_inserted _ keys b key Hb0 E Hk).
Qed.

End bloom.

Lemma bloom_membership_witness :
  let hash seed key := u64 (seed * 31 + from_le_bytes key) in
  exists b, insert_all hash (with_size_and_k 100 7) [[116; 120; 116]; [114; 115]] = Some b /\
    contains hash b [114; 115] = Some true.
Proof.
  cbv zeta. set (hash := fun seed key => _).
  destruct (bloom_membership hash 100 7 [[116; 120; 116]; [114; 115]]) as (b & H1 & _ & H3); [lia |].
  exists b. split; [exact H1 |]. apply H3. by right; left.
Defined.
