(* ===== verification/CompactIndex.v ===== *)
(** A loaded drive and its live overlay: [DriveCompactIndex] of
    [crates/uffs-core/src/compact.rs], the filters built from it in
    [compact_filters.rs], and the warm-to-parked extraction.

    The base indexes are immutable; changes since the last compaction are in the
    overlay of IndexDelta, and every lookup merges the two and, for children and
    extensions, validates the candidates against the records.  The overlay invariant
    relates the base to the records it was built from. *)
From S2P Require Import Prelude CaseFold CsrIndex TrigramIndex IndexDelta Bloom.
From stdpp Require Import strings.
Local Open Scope Z_scope.
Local Open Scope rust_scope.

Definition TRIGRAM_COMPACT_THRESHOLD : Z := 50000.

(** [DriveCompactIndex]; its letter, source, build epoch and path trie play no part in
    the operations below. *)
Record DriveCompactIndex := mkDriveCompactIndex {
  records : list CompactRecord;
  names : list Z;
  trigram : TrigramIndex;
  children : ChildrenIndex;
  ext_index : ExtensionIndex;
  fold : list Z;
  ext_names : list (list Z);
  bloom : option Bloom;
  frs_to_compact : list Z;
  delta : option IndexDelta
}.

Record PathChange := mkPathChange { pc_idx : Z; pc_subtree : bool }.

(** * Extensions *)

Section extensions.
(** [str::to_lowercase]: the Unicode tables of the standard library. *)
Context (to_lowercase : list Z -> list Z).

(** [filename.rfind('.')], as a byte position. *)
Fixpoint rfind_dot (s : list Z) : option Z :=
  match s with
  | [] => None
  | c :: s =>
      match rfind_dot s with
      | Some p => Some (p + 1)
      | None => if c =? 46 then Some 0 else None
      end
  end.

(** [trim_start_matches('.')]. *)
Fixpoint trim_start_dots (s : list Z) : list Z :=
  match s with
  | c :: rest => if c =? 46 then trim_start_dots rest else s
  | [] => []
  end.

(** The normalized extension of a file name, when it has one. *)
Definition normalized_extension (filename : list Z) : option (list Z) :=
  let? dot_pos := rfind_dot filename in
  if (dot_pos =? 0) || (zlen filename <=? dot_pos + 1) then None else
  let? raw_ext := get_from filename (dot_pos + 1) in
  let normalized := to_lowercase (trim_start_dots raw_ext) in
  if zlen normalized =? 0 then None else Some normalized.

(** [iter().position(|name| name == normalized)]. *)
Fixpoint position (name : list Z) (l : list (list Z)) : option Z :=
  match l with
  | [] => None
  | x :: l => if bool_decide (x = name) then Some 0 else let? i := position name l in Some (i + 1)
  end.

(** [u16::try_from(n).unwrap_or(0)]. *)
Definition to_u16_or_0 (n : Z) : Z := if n <=? U16_MAX then n else 0.

(** The new extension table and the id. *)
Definition intern_extension (table : list (list Z)) (filename : list Z) : list (list Z) * Z :=
  match normalized_extension filename with
  | None => (table, 0)
  | Some normalized =>
      match position normalized table with
      | Some existing => (table, to_u16_or_0 existing)
      | None =>
          let new_id := zlen table in
          if U16_MAX <? new_id then (table, 0)
          else if new_id =? U16_MAX then (table, 0)
          else (table ++ [normalized], new_id)
      end
  end.

End extensions.

(** * The Bloom filter of a drive *)

Section drive_bloom.
Context (hash : Z -> list Z -> Z).

(** The keys [build_bloom] inserts: the folded valid names, then the extensions. *)
Definition bloom_name_key (drive : DriveCompactIndex) (rec : CompactRecord) : option (list Z) :=
  let? raw_bytes := get_range (names drive) (name_offset rec) (name_offset rec + name_len rec) in
  let? chars := utf8_decode raw_bytes in
  Some (fold_into (fold drive) chars).

Definition bloom_keys (drive : DriveCompactIndex) : list (list Z) :=
  omap (bloom_name_key drive) (records drive) ++
  List.filter (fun ext => negb (zlen ext =? 0)) (ext_names drive).

(** [build_bloom] on the filter its sizing made. *)
Definition build_bloom (drive : DriveCompactIndex) (n k : Z) : option Bloom :=
  insert_all hash (with_size_and_k n k) (bloom_keys drive).

(** The filter [to_parked_body] keeps: the drive's own when it has one. *)
Definition parked_bloom (drive : DriveCompactIndex) (n k : Z) : option Bloom :=
  match bloom drive with Some b => Some b | None => build_bloom drive n k end.

(** [active_drives.retain(...)] by the drives' own filters. *)
Definition bloom_keeps (ext_terms : list (list Z)) (drive : DriveCompactIndex) : option bool :=
  let? decision := decide_for_ext_filter hash (bloom drive) ext_terms in
  Some match decision with Keep => true | Skip => false end.

Fixpoint apply_bloom_pre_check (active_drives : list DriveCompactIndex) (ext_terms : list (list Z))
  : option (list DriveCompactIndex) :=
  if zlen ext_terms =? 0 then Some active_drives else
  match active_drives with
  | [] => Some []
  | drive :: active_drives =>
      let? matched := bloom_keeps ext_terms drive in
      let? rest := apply_bloom_pre_check active_drives ext_terms in
      Some (if matched then drive :: rest else rest)
  end.

(** The drive's filter was built from its current records and extensions. *)
Definition fresh_bloom (drive : DriveCompactIndex) (n k : Z) : Prop :=
  0 <= n <= 2 ^ 64 - 64 /\ bloom drive = build_bloom drive n k.

Lemma build_bloom_ok drive n k :
  0 <= n <= 2 ^ 64 - 64 -> exists b, build_bloom drive n k = Some b /\ bloom_ok b.
Proof.
  intros Hn. destruct (insert_all_spec hash (with_size_and_k n k) (bloom_keys drive)) as (b & E & H & _).
  - by apply with_size_and_k_ok.
  - by exists b.
Qed.

(** The drive has a record of one of the extensions. *)
Definition has_ext (drive : DriveCompactIndex) (ext_terms : list (list Z)) : Prop :=
  exists rec ext, rec ∈ records drive /\ zget (ext_names drive) (extension_id rec) = Some ext /\
    ext <> [] /\ ext ∈ ext_terms.

Lemma bloom_keeps_spec drive n k ext_terms :
  fresh_bloom drive n k -> exists matched, bloom_keeps ext_terms drive = Some matched /\
    (has_ext drive ext_terms -> matched = true).
Proof.
  intros [Hn Hb]. unfold bloom_keeps. destruct (build_bloom_ok drive n k Hn) as (b & E & Hok). rewrite Hb, E.
  destruct (decide_for_ext_filter hash (Some b) ext_terms) as [[] |] eqn:Ed.
  - exists false. split; [done |]. intros (rec & ext & _ & He & Hne & Hin).
    destruct (decide_skip hash b ext_terms Hok Ed) as [_ Hmiss]. exfalso. apply (Hmiss ext Hin).
    eapply contains_inserted; [by apply with_size_and_k_ok | exact E |].
    unfold bloom_keys. apply elem_of_app. right. apply elem_of_filterb. split; [by eapply zget_elem |].
    destruct ext; [done |]. rewrite zlen_cons. pose proof (zlen_nonneg ext). by replace (1 + zlen ext =? 0) with false by lia.
  - by exists true.
  - exfalso. revert Ed. unfold decide_for_ext_filter. destruct ext_terms; [done |].
    rewrite any_hit_spec by done. by destruct (existsb _ _).
Qed.

(** The pre-check of an extension-filtered search never panics and keeps every drive
    that has a record with one of the extensions, when each drive's filter was built from
    the drive as it is: the skip has no false negative. *)
Theorem bloom_pre_check_sound active_drives ext_terms :
  Forall (fun drive => exists n k, fresh_bloom drive n k) active_drives ->
  exists kept, apply_bloom_pre_check active_drives ext_terms = Some kept /\
    forall drive, drive ∈ active_drives -> has_ext drive ext_terms -> drive ∈ kept.
Proof.
  induction 1 as [| drive drives (n & k & Hd) _ IH]; cbn.
  - exists []. by destruct (zlen ext_terms =? 0).
  - destruct (zlen ext_terms =? 0); [by exists (drive :: drives) |].
    destruct (bloom_keeps_spec drive n k ext_terms Hd) as (m & -> & Hm). destruct IH as (kept & -> & Hk).
    eexists. split; [done |]. intros d Hin Hx. apply elem_of_cons in Hin as [-> | Hin].
    + rewrite (Hm Hx). left.
    + destruct m; [right |]; auto.
Qed.

End drive_bloom.

Section drive.
#[local] Set Default Proof Using "Type".
(** The order of the parallel scatter's stores, and the order [sort_unstable_by_key]
    leaves equal lengths in. *)
Context (schedule : list (Z * Z) -> list (Z * Z)) (sort_by_len : list (list Z) -> list (list Z)).
Context (Hschedule : forall ws, schedule ws ≡ₚ ws) (Hsort : forall ls, sort_by_len ls ≡ₚ ls).

(** * Compaction *)

Definition compact_base (drive : DriveCompactIndex) : DriveCompactIndex :=
  mkDriveCompactIndex (records drive) (names drive)
    (TrigramIndex_build (fold drive) (names drive) schedule (records drive))
    (ChildrenIndex_build (records drive))
    (ExtensionIndex_build (records drive))
    (fold drive) (ext_names drive) (bloom drive) (frs_to_compact drive) None.

Definition fold_delta_for_save (drive : DriveCompactIndex) : DriveCompactIndex :=
  match delta drive with Some _ => compact_base drive | None => drive end.

(** * Lookups *)

(** [records.get(i).is_some_and(f)]. *)
Definition record_is (drive : DriveCompactIndex) (f : CompactRecord -> bool) (i : Z) : bool :=
  match zget (records drive) i with Some rec => f rec | None => false end.

Definition live (rec : CompactRecord) : bool := negb (name_len rec =? 0).

Definition for_each_child {S} (drive : DriveCompactIndex) (parent : Z) (visit : S -> Z -> S) (st : S) : S :=
  let base := ChildrenIndex_get (children drive) parent in
  match delta drive with
  | None => foldl visit st base
  | Some d =>
      merge_filter base (child_postings d parent)
        (record_is drive (fun rec => (parent_idx rec =? parent) && live rec)) visit st
  end.

Definition children_of (drive : DriveCompactIndex) (parent : Z) : list Z :=
  match delta drive with
  | None => ChildrenIndex_get (children drive) parent
  | Some _ => for_each_child drive parent (fun out child => out ++ [child]) []
  end.

Definition records_with_ext (drive : DriveCompactIndex) (ext_id : Z) : list Z :=
  let base := ExtensionIndex_get (ext_index drive) ext_id in
  match delta drive with
  | None => base
  | Some d =>
      List.filter (record_is drive (fun rec => (extension_id rec =? ext_id) && live rec))
        (merge_postings base (ext_postings d ext_id))
  end.

(** The trigram search keeps a tombstoned candidate when the overlay has it for every
    needle trigram. *)
Definition resolve_tombstones (d : IndexDelta) (trigrams : list Z) (result : list Z) : list Z :=
  if bool_decide (tombstones d = ∅) then result else
  List.filter (fun idx => negb (is_tombstoned d idx) ||
    forallb (fun tri => match binary_search (trigram_postings d tri) idx with Ok _ => true | Err _ => false end)
      trigrams) result.

(** The effective posting list of a needle trigram. *)
Definition merged_postings (drive : DriveCompactIndex) (d : IndexDelta) (tri : Z) : list Z :=
  merge_postings (default [] (get_posting (trigram drive) tri)) (trigram_postings d tri).

Definition trigram_search (drive : DriveCompactIndex) (needle : list Z) : option (list Z) :=
  match delta drive with
  | None => search sort_by_len (fold drive) (trigram drive) needle
  | Some d =>
      let? trigrams := needle_trigrams (fold drive) needle in
      if zlen trigrams =? 0 then Some [] else
      let lists := List.filter (fun l => negb (zlen l =? 0)) (map (merged_postings drive d) trigrams) in
      if zlen lists =? 0 then Some [] else
      Some (resolve_tombstones d trigrams (intersect_lists (sort_by_len lists)))
  end.

(** * Overlaying a batch *)

Definition add_change (drive : DriveCompactIndex) (d : IndexDelta) (change : PathChange) : IndexDelta :=
  match zget (records drive) (pc_idx change) with
  | None => d
  | Some rec =>
      if name_len rec =? 0 then d else
      let trigrams := default [] (needle_trigrams (fold drive) (name_chars (names drive) rec)) in
      add_record d (pc_idx change) trigrams (extension_id rec) (parent_idx rec)
  end.

Definition set_delta (drive : DriveCompactIndex) (d : option IndexDelta) : DriveCompactIndex :=
  mkDriveCompactIndex (records drive) (names drive) (trigram drive) (children drive) (ext_index drive)
    (fold drive) (ext_names drive) (bloom drive) (frs_to_compact drive) d.

Definition apply_index_delta (drive : DriveCompactIndex) (adds : list PathChange) (tombs : list Z)
  : DriveCompactIndex * bool :=
  let pending := match delta drive with Some d => delta_len d | None => 0 end in
  let batch := Z.min U32_MAX (zlen adds + zlen tombs) in
  if TRIGRAM_COMPACT_THRESHOLD <? saturating_add_u32 pending batch then (compact_base drive, true) else
  let d := default delta_default (delta drive) in
  let d := foldl tombstone d tombs in
  let d := foldl (add_change drive) d adds in
  (set_delta drive (Some d), false).

(** * The overlay invariant *)

(** The trigrams of a record's name. *)
Definition tris (drive : DriveCompactIndex) (rec : CompactRecord) : list Z :=
  record_trigrams (fold drive) (names drive) rec.

(** The size limits of a base: indices and posting offsets are [u32]. *)
Definition fits (table names : list Z) (records : list CompactRecord) : Prop :=
  zlen records < 2 ^ 32 /\ zlen (concat (map (record_trigrams table names) records)) < 2 ^ 32.

(** A parent is the root sentinel or the index of a record. *)
Definition parents_ok (records : list CompactRecord) : Prop :=
  forall rec, rec ∈ records -> parent_idx rec = U32_MAX \/ 0 <= parent_idx rec < zlen records.

(** The record has the index keys it had when the base was built. *)
Definition same_keys (drive : DriveCompactIndex) (names0 : list Z) (rec0 rec : CompactRecord) : Prop :=
  parent_idx rec0 = parent_idx rec /\ extension_id rec0 = extension_id rec /\
  name_len rec0 = name_len rec /\ record_trigrams (fold drive) names0 rec0 = tris drive rec.

Definition unchanged (drive : DriveCompactIndex) (records0 : list CompactRecord) (names0 : list Z)
    (i : Z) (rec : CompactRecord) : Prop :=
  exists rec0, zget records0 i = Some rec0 /\ same_keys drive names0 rec0 rec.

(** The overlay has the record under all its keys. *)
Definition overlaid (drive : DriveCompactIndex) (d : IndexDelta) (i : Z) (rec : CompactRecord) : Prop :=
  (parent_idx rec = U32_MAX \/ i ∈ child_postings d (parent_idx rec)) /\
  i ∈ ext_postings d (extension_id rec) /\ forall t, t ∈ tris drive rec -> i ∈ trigram_postings d t.

(** The overlay accounts for the records outside [stale]. *)
Definition covered (stale : Z -> Prop) (drive : DriveCompactIndex) (records0 : list CompactRecord)
    (names0 : list Z) : Prop :=
  match delta drive with
  | None => forall i rec, zget (records drive) i = Some rec -> ~ stale i -> unchanged drive records0 names0 i rec
  | Some d => delta_ok d /\ forall i rec, zget (records drive) i = Some rec -> ~ stale i -> live rec = true ->
      overlaid drive d i rec \/ (~ i ∈ tombstones d /\ unchanged drive records0 names0 i rec)
  end.

(** The base indexes are those of a snapshot of the drive's records and names. *)
Record base_of (drive : DriveCompactIndex) (records0 : list CompactRecord) (names0 : list Z) : Prop := {
  base_trigram : trigram drive = TrigramIndex_build (fold drive) names0 schedule records0;
  base_children : children drive = ChildrenIndex_build records0;
  base_ext : ext_index drive = ExtensionIndex_build records0;
  base_fits : fits (fold drive) names0 records0;
  base_parents : parents_ok records0;
  base_len : zlen records0 <= zlen (records drive)
}.

Record overlay_ok (drive : DriveCompactIndex) (records0 : list CompactRecord) (names0 : list Z) : Prop := {
  ov_base : base_of drive records0 names0;
  ov_len : delta drive = None -> zlen records0 = zlen (records drive);
  ov_covered : covered (fun _ => False) drive records0 names0
}.

Lemma trigrams_of_name drive rec :
  default [] (needle_trigrams (fold drive) (name_chars (names drive) rec)) = tris drive rec.
Proof.
  unfold needle_trigrams, name_chars, tris, record_trigrams. destruct (get_range _ _ _); cbn [default]; [|done].
  by destruct (_ <? 3).
Qed.

(** ** Compaction establishes it *)

Lemma compact_base_ok drive :
  fits (fold drive) (names drive) (records drive) -> parents_ok (records drive) ->
  overlay_ok (compact_base drive) (records drive) (names drive).
Proof.
  intros Hf Hp. split; [by split | done |]. intros i rec Hi _. exists rec. by split.
Qed.

(** ** Lookups are exact *)

Lemma indices_where_ext f g (l k : list CompactRecord) :
  (forall i, (exists rec, zget l i = Some rec /\ f rec = true) <-> (exists rec, zget k i = Some rec /\ g rec = true)) ->
  indices_where f l = indices_where g k.
Proof.
  intros H. apply ascending_ext; [apply indices_where_sorted.. |].
  intros i. by rewrite !elem_of_indices_where.
Qed.

Lemma record_is_true drive f i :
  record_is drive f i = true <-> exists rec, zget (records drive) i = Some rec /\ f rec = true.
Proof. unfold record_is. destruct (zget _ _); naive_solver. Qed.

(** The children a lookup sees: without an overlay the records are not validated. *)
Definition child_filter (drive : DriveCompactIndex) (parent : Z) (rec : CompactRecord) : bool :=
  (parent_idx rec =? parent) && (match delta drive with None => true | Some _ => live rec end).

Lemma base_child_elem drive records0 names0 p i :
  base_of drive records0 names0 -> 0 <= p -> p <> U32_MAX ->
  i ∈ ChildrenIndex_get (children drive) p <-> exists rec0, zget records0 i = Some rec0 /\ parent_idx rec0 = p.
Proof.
  intros [_ Hc _ [Hf _] Hp _] H0 Hm. rewrite Hc, children_index_build by done.
  assert (Hr : forall rec0, zget records0 i = Some rec0 -> parent_idx rec0 = p -> p < zlen records0).
  { intros rec0 Hrec <-. destruct (Hp rec0); [by eapply zget_elem | done | lia]. }
  destruct (Z.ltb_spec p (zlen records0)).
  - rewrite elem_of_indices_where. by setoid_rewrite Z.eqb_eq.
  - split; [by intros ?%not_elem_of_nil |]. intros (rec0 & Hrec & Hrp). specialize (Hr _ Hrec Hrp). lia.
Qed.

Lemma base_child_sorted drive records0 names0 p :
  base_of drive records0 names0 -> 0 <= p -> ascending (ChildrenIndex_get (children drive) p).
Proof.
  intros [_ Hc _ [Hf _] _ _] Hp. rewrite Hc, children_index_build by done.
  destruct (_ <? _); [apply indices_where_sorted | constructor].
Qed.

Lemma for_each_child_spec {S} drive records0 names0 p (visit : S -> Z -> S) st :
  overlay_ok drive records0 names0 -> 0 <= p -> p <> U32_MAX ->
  for_each_child drive p visit st = foldl visit st (indices_where (child_filter drive p) (records drive)).
Proof.
  intros [Hb Hl Hcov] Hp Hm. unfold for_each_child, child_filter, covered in *.
  pose proof (base_child_sorted drive records0 names0 p Hb Hp) as Hs.
  pose proof (fun i => base_child_elem drive records0 names0 p i Hb Hp Hm) as He.
  destruct (delta drive) as [d |] eqn:Ed.
  - destruct Hcov as [Hd Hcov].
    destruct (merge_filter_spec _ (child_postings d p)
      (record_is drive (fun rec => (parent_idx rec =? p) && live rec)) visit st Hs (children_ok _ Hd p))
      as (l & -> & Hls & Hin). f_equal.
    apply ascending_ext; [done | apply indices_where_sorted |]. intros i.
    rewrite Hin, record_is_true, elem_of_indices_where. split; [naive_solver |]. intros Hr.
    split; [|done]. destruct Hr as (rec & Hr & [Hpar%Z.eqb_eq Hlv]%andb_true_iff).
    destruct (Hcov i rec Hr (fun H => H) Hlv) as [([Hx | Hx] & _) | (_ & rec0 & Hr0 & Hk & _)].
    + congruence.
    + right. by rewrite <- Hpar.
    + left. apply He. exists rec0. split; [done | congruence].
  - f_equal. apply ascending_ext; [done | apply indices_where_sorted |]. intros i.
    rewrite He, elem_of_indices_where. setoid_rewrite andb_true_r. setoid_rewrite Z.eqb_eq. split.
    + intros (rec0 & Hr0 & Hp0). destruct (zget_is_Some (records drive) i) as [rec Hr].
      { rewrite <- Hl by done. by apply zget_Some in Hr0 as [? _]. }
      exists rec. split; [done |]. destruct (Hcov i rec Hr (fun H => H)) as (rec0' & Hr0' & Hk & _). congruence.
    + intros (rec & Hr & Hpar). destruct (Hcov i rec Hr (fun H => H)) as (rec0 & Hr0 & Hk & _).
      exists rec0. split; [done | congruence].
Qed.

Lemma foldl_snoc_id (l : list Z) out : foldl (fun out x => out ++ [x]) out l = out ++ l.
Proof.
  revert out. induction l as [|x l IH]; intros out; cbn; [by rewrite app_nil_r |].
  by rewrite IH, <- app_assoc.
Qed.

Lemma children_of_for_each drive p : children_of drive p = for_each_child drive p (fun out c => out ++ [c]) [].
Proof. unfold children_of, for_each_child. destruct (delta drive); [done |]. by rewrite foldl_snoc_id. Qed.

Lemma children_of_spec drive records0 names0 p :
  overlay_ok drive records0 names0 -> 0 <= p -> p <> U32_MAX ->
  children_of drive p = indices_where (child_filter drive p) (records drive).
Proof. intros. rewrite children_of_for_each. erewrite for_each_child_spec by done. by rewrite foldl_snoc_id. Qed.

Definition ext_filter (ext_id : Z) (rec : CompactRecord) : bool :=
  live rec && (extension_id rec =? ext_id).

Lemma records_with_ext_spec drive records0 names0 e :
  overlay_ok drive records0 names0 -> 0 <= e ->
  records_with_ext drive e = indices_where (ext_filter e) (records drive).
Proof.
  intros [[_ _ He [Hf _] _ _] Hl Hcov] Hp. unfold records_with_ext, covered, ext_filter in *.
  assert (Hb : ExtensionIndex_get (ext_index drive) e =
    indices_where (fun rec => live rec && (extension_id rec =? e)) records0)
    by (by rewrite He, extension_index_build).
  rewrite Hb. destruct (delta drive) as [d |] eqn:Ed.
  - destruct Hcov as [Hd Hcov].
    set (base := indices_where _ records0) in *.
    destruct (merge_postings_spec base (ext_postings d e) (indices_where_sorted _ _) (exts_ok _ Hd e))
      as [Hs Hin].
    apply ascending_ext; [by apply filter_sorted | apply indices_where_sorted |]. intros i.
    rewrite elem_of_filterb, record_is_true, Hin. unfold base. rewrite !elem_of_indices_where.
    setoid_rewrite (andb_comm (live _)).
    split; [naive_solver |]. intros Hr. split; [|done].
    destruct Hr as (rec & Hr & [Hx%Z.eqb_eq Hlv]%andb_true_iff).
    destruct (Hcov i rec Hr (fun H => H) Hlv) as [(_ & Hi & _) | (_ & rec0 & Hr0 & (_ & Hk & Hn & _))].
    + right. by rewrite <- Hx.
    + left. exists rec0. split; [done |]. unfold live. rewrite Hn, Hk. apply andb_true_iff.
      split; [by apply Z.eqb_eq | done].
  - apply ascending_ext; [apply indices_where_sorted.. |]. intros i. rewrite !elem_of_indices_where. split.
    + intros (rec0 & Hr0 & Hx). destruct (zget_is_Some (records drive) i) as [rec Hr].
      { rewrite <- Hl by done. by apply zget_Some in Hr0 as [? _]. }
      exists rec. split; [done |]. destruct (Hcov i rec Hr (fun H => H)) as (rec0' & Hr0' & _ & Hk & Hn & _).
      unfold live in *. congruence.
    + intros (rec & Hr & Hx). destruct (Hcov i rec Hr (fun H => H)) as (rec0 & Hr0 & _ & Hk & Hn & _).
      exists rec0. split; [done |]. unfold live in *. congruence.
Qed.

(** ** The trigram search loses nothing when no needle trigram was pruned *)

(** The base pruned the trigram. *)
Definition pruned (drive : DriveCompactIndex) (records0 : list CompactRecord) (names0 : list Z) (t : Z) : Prop :=
  0 < frequency (fold drive) names0 t records0 /\ indexed (fold drive) names0 records0 t = false.

Lemma base_posting drive records0 names0 t :
  base_of drive records0 names0 ->
  get_posting (trigram drive) t =
  if indexed (fold drive) names0 records0 t
  then Some (indices_where (has_trigram (fold drive) names0 t) records0) else None.
Proof using Hschedule. intros [-> _ _ [H1 H2] _ _]. by apply get_posting_build. Qed.

Lemma base_posting_sorted drive records0 names0 t :
  base_of drive records0 names0 -> ascending (default [] (get_posting (trigram drive) t)).
Proof using Hschedule.
  intros Hb. erewrite base_posting by done. destruct (indexed _ _ _ _); [apply indices_where_sorted | constructor].
Qed.

(** A record of the snapshot is in the base posting of every unpruned trigram it has. *)
Lemma base_posting_elem drive records0 names0 t i rec0 :
  base_of drive records0 names0 -> ~ pruned drive records0 names0 t ->
  zget records0 i = Some rec0 -> t ∈ record_trigrams (fold drive) names0 rec0 ->
  i ∈ default [] (get_posting (trigram drive) t).
Proof using Hschedule.
  intros Hb Hn Hr Ht. erewrite base_posting by done. destruct (indexed _ _ _ _) eqn:E.
  - cbn. apply elem_of_indices_where. exists rec0. split; [done |]. by apply bool_decide_eq_true_2.
  - exfalso. apply Hn. split; [|done]. apply (frequency_of_record _ _ _ _ rec0); [by eapply zget_elem | done].
Qed.

Lemma merged_postings_spec drive d records0 names0 t :
  base_of drive records0 names0 -> delta_ok d ->
  ascending (merged_postings drive d t) /\
  forall i, i ∈ merged_postings drive d t <->
    i ∈ default [] (get_posting (trigram drive) t) \/ i ∈ trigram_postings d t.
Proof using Hschedule.
  intros Hb Hd. unfold merged_postings.
  apply merge_postings_spec; [by eapply base_posting_sorted | apply trigrams_ok, Hd].
Qed.

Lemma elem_of_intersect lists i :
  Forall ascending lists -> lists <> [] ->
  i ∈ intersect_lists (sort_by_len lists) <-> forall l, l ∈ lists -> i ∈ l.
Proof using Hsort.
  intros Hs Hne. destruct (intersect_lists_spec (sort_by_len lists)) as [_ H].
  - intros E. apply Hne. pose proof (Hsort lists) as Hp. rewrite E in Hp. by apply Permutation_nil_l in Hp.
  - by rewrite Hsort.
  - rewrite H. by setoid_rewrite Hsort.
Qed.

Lemma elem_of_resolve d ts l i :
  delta_ok d ->
  i ∈ resolve_tombstones d ts l <->
  i ∈ l /\ (~ i ∈ tombstones d \/ forall t, t ∈ ts -> i ∈ trigram_postings d t).
Proof.
  clear Hsort Hschedule.
  intros Hd. unfold resolve_tombstones, is_tombstoned. case_bool_decide as E.
  - rewrite E. set_solver.
  - rewrite elem_of_filterb, orb_true_iff, negb_true_iff, bool_decide_eq_false, forallb_forall.
    assert (Hs : forall t, match binary_search (trigram_postings d t) i with Ok _ => true | Err _ => false end
      = true <-> i ∈ trigram_postings d t).
    { intros t. by rewrite binary_search_ok, bool_decide_eq_true by apply trigrams_ok, Hd. }
    setoid_rewrite Hs. by setoid_rewrite <- list_elem_of_In.
Qed.

(** The search through an overlay, as a set: a candidate is in every non-empty merged
    posting list, and was re-added under every needle trigram if it is tombstoned. *)
Lemma trigram_search_overlay drive d records0 names0 needle ts :
  base_of drive records0 names0 -> delta drive = Some d -> delta_ok d ->
  needle_trigrams (fold drive) needle = Some ts ->
  exists l, trigram_search drive needle = Some l /\ forall i, i ∈ l <->
    (exists t, t ∈ ts /\ i ∈ merged_postings drive d t) /\
    (forall t, t ∈ ts -> merged_postings drive d t <> [] -> i ∈ merged_postings drive d t) /\
    (~ i ∈ tombstones d \/ forall t, t ∈ ts -> i ∈ trigram_postings d t).
Proof using Hsort Hschedule.
  intros Hb Ed Hd Hts. unfold trigram_search. rewrite Ed, Hts.
  set (lists := List.filter _ _).
  assert (Hin : forall l, l ∈ lists <-> l <> [] /\ exists t, t ∈ ts /\ l = merged_postings drive d t).
  { intros l. unfold lists. rewrite elem_of_filterb, list_elem_of_fmap, negb_true_iff, Z.eqb_neq.
    assert (zlen l <> 0 <-> l <> []).
    { destruct l; [done |]. rewrite zlen_cons. pose proof (zlen_nonneg l). intuition (done || lia). }
    naive_solver. }
  assert (zlen ts <> 0).
  { apply needle_trigrams_nonempty in Hts. destruct ts; [done |]. rewrite zlen_cons. pose proof (zlen_nonneg ts). lia. }
  destruct (Z.eqb_spec (zlen ts) 0); [done |]. destruct (Z.eqb_spec (zlen lists) 0) as [E | E].
  - exists []. split; [done |]. intros i. split; [by intros ?%not_elem_of_nil |].
    intros ((t & Ht & Hi) & _). assert (merged_postings drive d t ∈ lists) as Hl.
    { apply Hin. split; [by intros E'; rewrite E' in Hi; apply not_elem_of_nil in Hi | eauto]. }
    destruct lists; [by apply not_elem_of_nil in Hl | rewrite zlen_cons in E; pose proof (zlen_nonneg lists); lia].
  - eexists. split; [reflexivity |]. intros i. rewrite elem_of_resolve, elem_of_intersect; [| | | done].
    + split.
      * intros [Hall Ht]. split_and!; [| intros t Ht' Hne; apply Hall, Hin; eauto | done].
        destruct lists as [|l lists']; [done |].
        destruct (proj1 (Hin l)) as (_ & t & Ht' & ->); [left |]. exists t. split; [done |]. apply Hall. left.
      * intros (_ & Hall & Ht). split; [|done]. intros l (Hne & t & Ht' & ->)%Hin. by apply Hall.
    + apply Forall_forall. intros l (_ & t & _ & ->)%Hin. by eapply merged_postings_spec.
    + intros ->. by apply E.
Qed.

Lemma trigram_search_keeps drive records0 names0 needle ts i rec :
  overlay_ok drive records0 names0 -> needle_trigrams (fold drive) needle = Some ts ->
  (forall t, t ∈ ts -> ~ pruned drive records0 names0 t) ->
  zget (records drive) i = Some rec -> live rec = true -> (forall t, t ∈ ts -> t ∈ tris drive rec) ->
  exists l, trigram_search drive needle = Some l /\ i ∈ l.
Proof using Hsort Hschedule.
  intros [Hb Hl Hcov] Hts Hpr Hr Hlv Hall.
  pose proof (needle_trigrams_nonempty _ _ _ Hts) as Hne.
  assert (Hbase : unchanged drive records0 names0 i rec -> forall t, t ∈ ts ->
    i ∈ default [] (get_posting (trigram drive) t)).
  { intros (rec0 & Hr0 & _ & _ & _ & Hk) t Ht. eapply base_posting_elem; [done | by apply Hpr | done |].
    rewrite Hk. by apply Hall. }
  unfold covered in Hcov. destruct (delta drive) as [d |] eqn:Ed.
  - destruct Hcov as [Hd Hcov].
    destruct (trigram_search_overlay drive d records0 names0 needle ts Hb Ed Hd Hts) as (l & -> & Hin).
    exists l. split; [done |]. apply Hin.
    assert (Hmem : forall t, t ∈ ts -> i ∈ merged_postings drive d t).
    { intros t Ht. apply (merged_postings_spec drive d records0 names0 t Hb Hd).
      destruct (Hcov i rec Hr (fun H => H) Hlv) as [(_ & _ & Hx) | [_ Hx]]; [right | left]; auto. }
    split_and!; [| auto |].
    + destruct ts as [|t ts]; [done |]. exists t. split; [left | apply Hmem; left].
    + destruct (Hcov i rec Hr (fun H => H) Hlv) as [(_ & _ & Hx) | [Hx _]]; [right | left]; auto.
  - specialize (Hcov i rec Hr (fun H => H)). unfold trigram_search. rewrite Ed.
    destruct Hb as [Ht _ _ [H1 H2] _ _]. rewrite Ht.
    rewrite (search_build _ _ _ sort_by_len records0 needle ts Hschedule Hsort H1 H2 Hts). cbv zeta.
    eexists. split; [reflexivity |]. destruct Hcov as (rec0 & Hr0 & _ & _ & _ & Hk).
    assert (Hall0 : forall t, t ∈ ts -> t ∈ record_trigrams (fold drive) names0 rec0) by (rewrite Hk; auto).
    assert (Hix : forall t, t ∈ ts -> indexed (fold drive) names0 records0 t = true).
    { intros t Hts'. destruct (indexed _ _ _ _) eqn:E; [done |]. exfalso. apply (Hpr t Hts').
      split; [|done]. apply (frequency_of_record _ _ _ _ rec0); [by eapply zget_elem | auto]. }
    replace (zlen _ =? 0) with false.
    + apply elem_of_indices_where. exists rec0. split; [done |]. unfold has_trigrams.
      apply forallb_forall. intros t [Ht' _]%list_elem_of_In%elem_of_filterb.
      apply bool_decide_eq_true_2, Hall0, Ht'.
    + symmetry. apply Z.eqb_neq. destruct ts as [|t ts]; [done |]. cbn [List.filter].
      rewrite Hix by left. rewrite zlen_cons. set (k := List.filter _ _). pose proof (zlen_nonneg k). lia.
Qed.

Lemma ascending_nil : ascending [].
Proof. constructor. Qed.

Lemma trigram_search_ascending drive records0 names0 needle l :
  overlay_ok drive records0 names0 -> trigram_search drive needle = Some l -> ascending l.
Proof using Hsort Hschedule.
  intros [Hb _ Hcov]. unfold trigram_search, covered in *. destruct (delta drive) as [d |].
  - destruct Hcov as [Hd _]. destruct (needle_trigrams _ _) as [ts |]; [|done].
    destruct (zlen ts =? 0); [intros [= <-]; apply ascending_nil |].
    set (lists := List.filter _ _). destruct (Z.eqb_spec (zlen lists) 0) as [| Hne]; intros [= <-]; [apply ascending_nil |].
    assert (ascending (intersect_lists (sort_by_len lists))).
    { apply intersect_lists_spec.
      - intros E. apply Hne. pose proof (Hsort lists) as Hp. rewrite E in Hp. apply Permutation_nil_l in Hp; by rewrite <- Hp.
      - rewrite Hsort. apply Forall_forall. intros k [(t & -> & _)%list_elem_of_fmap _]%elem_of_filterb.
        by eapply merged_postings_spec. }
    unfold resolve_tombstones. case_bool_decide; [done | by apply filter_sorted].
  - destruct Hb as [Ht _ _ [H1 H2] _ _]. rewrite Ht. destruct (needle_trigrams (fold drive) needle) as [ts |] eqn:Hts.
    + rewrite (search_build _ _ _ sort_by_len records0 needle ts Hschedule Hsort H1 H2 Hts). cbv zeta.
      intros [= <-]. destruct (_ =? 0); [apply ascending_nil | apply indices_where_sorted].
    + unfold search. by rewrite Hts.
Qed.

(** When the base pruned a trigram of the needle and the overlay has records with it,
    the search returns only records the overlay has under it: every match that is in the
    base alone is lost, although the pruned trigram is no constraint without an
    overlay. *)
Theorem pruned_trigram_hides_base drive d records0 names0 needle ts t :
  overlay_ok drive records0 names0 -> delta drive = Some d -> needle_trigrams (fold drive) needle = Some ts ->
  t ∈ ts -> pruned drive records0 names0 t -> trigram_postings d t <> [] ->
  exists l, trigram_search drive needle = Some l /\ forall i, i ∈ l -> i ∈ trigram_postings d t.
Proof using Hsort Hschedule.
  intros [Hb _ Hc] Ed Hts Ht [_ Hp] Hne. unfold covered in Hc. rewrite Ed in Hc. destruct Hc as [Hd _].
  destruct (trigram_search_overlay drive d records0 names0 needle ts Hb Ed Hd Hts) as (l & E & Hl).
  exists l. split; [done |]. intros i (_ & Hall & _)%Hl.
  destruct (merged_postings_spec drive d records0 names0 t Hb Hd) as [_ Hm].
  assert (Hnone : get_posting (trigram drive) t = None) by (erewrite base_posting by done; by rewrite Hp).
  setoid_rewrite Hnone in Hm. cbn [default] in Hm.
  destruct (proj1 (Hm i)) as [H | H]; [|by apply not_elem_of_nil in H | done].
  apply Hall; [done |]. intros E'. destruct (trigram_postings d t) as [|x xs]; [done |].
  assert (x ∈ merged_postings drive d t) as Hx by (apply Hm; right; left). rewrite E' in Hx. by apply not_elem_of_nil in Hx.
Qed.

(** ** Overlaying a batch restores the invariant *)

Lemma add_record_overlaid drive d idx ts e p i rec :
  delta_ok d -> overlaid drive d i rec -> overlaid drive (add_record d idx ts e p) i rec.
Proof.
  intros Hd (H1 & H2 & H3). split_and!.
  - destruct H1; [by left | right]. apply add_record_child; auto.
  - apply add_record_ext; auto.
  - intros t Ht. apply add_record_trigram; auto.
Qed.

Lemma add_change_spec drive d c :
  delta_ok d ->
  let d' := add_change drive d c in
  delta_ok d' /\ tombstones d' = tombstones d /\
  (forall i rec, overlaid drive d i rec -> overlaid drive d' i rec) /\
  (forall rec, zget (records drive) (pc_idx c) = Some rec -> live rec = true -> overlaid drive d' (pc_idx c) rec).
Proof.
  intros Hd. cbv zeta. unfold add_change, live. destruct (zget (records drive) (pc_idx c)) as [r |] eqn:E; [|done].
  destruct (name_len r =? 0) eqn:En.
  - split_and!; try done. intros rec [= ->]. by rewrite En.
  - split_and!; [by apply add_record_ok | done | intros i rec; by apply add_record_overlaid |].
    intros rec [= ->] _. rewrite trigrams_of_name. split_and!.
    + destruct (Z.eq_dec (parent_idx rec) U32_MAX); [by left | right]. apply add_record_child; auto.
    + apply add_record_ext; auto.
    + intros t Ht. apply add_record_trigram; auto.
Qed.

Lemma add_changes_spec drive adds d :
  delta_ok d ->
  let d' := foldl (add_change drive) d adds in
  delta_ok d' /\ tombstones d' = tombstones d /\
  (forall i rec, overlaid drive d i rec -> overlaid drive d' i rec) /\
  (forall i rec, i ∈ map pc_idx adds -> zget (records drive) i = Some rec -> live rec = true -> overlaid drive d' i rec).
Proof.
  cbv zeta. revert d. induction adds as [|c adds IH]; intros d Hd; cbn.
  - split_and!; try done. intros i rec Hi. by apply not_elem_of_nil in Hi.
  - destruct (add_change_spec drive d c Hd) as (H1 & H2 & H3 & H4).
    destruct (IH _ H1) as (K1 & K2 & K3 & K4). split_and!; [done | congruence | auto |].
    intros i rec [-> | Hi]%elem_of_cons Hr Hl; [apply K3; auto | by apply K4].
Qed.

(** The records a batch leaves stale: those it adds, and the dead ones. *)
Definition stale (drive : DriveCompactIndex) (adds : list PathChange) (i : Z) : Prop :=
  i ∈ map pc_idx adds \/ record_is drive (fun rec => negb (live rec)) i = true.

(** What the base of the drive was built from: the data [now] when the drive has just
    been compacted, and what it was otherwise. *)
Definition snapshot_after {A} (drive : DriveCompactIndex) (now before : A) : A :=
  match delta drive with None => now | Some _ => before end.

(** The overlay of a batch: a live record the batch tombstones is among those it adds. *)
Lemma apply_index_delta_ok drive adds tombs records0 names0 :
  base_of drive records0 names0 ->
  covered (stale drive adds) drive records0 names0 ->
  (forall i rec, i ∈ tombs -> zget (records drive) i = Some rec -> live rec = true -> i ∈ map pc_idx adds) ->
  fits (fold drive) (names drive) (records drive) -> parents_ok (records drive) ->
  let drive' := (apply_index_delta drive adds tombs).1 in
  overlay_ok drive' (snapshot_after drive' (records drive) records0) (snapshot_after drive' (names drive) names0).
Proof.
  clear Hsort Hschedule sort_by_len.
  intros Hb Hcov Htomb Hf Hp. unfold apply_index_delta. destruct (_ <? _); cbn [fst]; cbv zeta.
  { by apply compact_base_ok. }
  unfold snapshot_after. cbn [delta set_delta]. destruct Hb. split; [by split | done |].
  assert (Hd : delta_ok (default delta_default (delta drive))).
  { unfold covered in Hcov. destruct (delta drive); [by apply Hcov | apply delta_default_ok]. }
  pose proof (tombstones_ok _ tombs Hd) as Hd1.
  destruct (tombstones_spec (default delta_default (delta drive)) tombs) as (T1 & T2 & T3 & T4).
  destruct (add_changes_spec drive adds _ Hd1) as (K1 & K2 & K3 & K4).
  split; [done |]. intros i rec Hr _ Hl. cbn in Hr.
  destruct (decide (i ∈ map pc_idx adds)) as [Hi | Hi]; [left; by apply K4 |].
  assert (Hnt : ~ i ∈ tombs) by (intros Ht; eapply Hi, Htomb; eauto).
  assert (Hold : overlaid drive (default delta_default (delta drive)) i rec \/
    (~ i ∈ tombstones (default delta_default (delta drive)) /\ unchanged drive records0 names0 i rec)).
  { assert (Hns : ~ stale drive adds i).
    { intros [? | Hdead]; [done |]. apply record_is_true in Hdead as (r & Hr' & Hd').
      assert (r = rec) as -> by congruence. by rewrite Hl in Hd'. }
    unfold covered in Hcov. destruct (delta drive) as [d |].
    - destruct Hcov as [_ Hcov]. by apply Hcov.
    - right. split; [set_solver | by apply Hcov]. }
  destruct Hold as [(O1 & O2 & O3) | [O1 O2]].
  - left. apply K3. unfold overlaid, child_postings, ext_postings, trigram_postings in *.
    by rewrite T1, T2, T3.
  - right. split; [|done]. rewrite K2, T4. set_solver.
Qed.

Lemma fold_delta_for_save_ok drive records0 names0 :
  overlay_ok drive records0 names0 ->
  fits (fold drive) (names drive) (records drive) -> parents_ok (records drive) ->
  let now {A} (x y : A) := match delta drive with Some _ => x | None => y end in
  delta (fold_delta_for_save drive) = None /\
  overlay_ok (fold_delta_for_save drive) (now (records drive) records0) (now (names drive) names0).
Proof.
  intros Ho Hf Hp. unfold fold_delta_for_save. destruct (delta drive) eqn:E; [|done].
  split; [done | by apply compact_base_ok].
Qed.

End drive.

(** * Samples *)

(** A drive of records, names and extensions, with no index yet. *)
Definition bare_drive (recs : list CompactRecord) (ns : list Z) (exts : list (list Z)) (b : option Bloom)
    (frs : list Z) : DriveCompactIndex :=
  mkDriveCompactIndex recs ns (mkTrigramIndex [] [] []) (mkChildrenIndex [] []) (mkExtensionIndex [] [])
    [] exts b frs None.

(** A stand-in hasher for examples. *)
Definition sample_hash (seed : Z) (key : list Z) : Z := u64 (seed * 31 + from_le_bytes key).

(** One file, [a.txt], and the filter built of it. *)
Definition txt_drive : DriveCompactIndex :=
  let bare := bare_drive [record_at U32_MAX 1 0 5] [97; 46; 116; 120; 116] [[]; [116; 120; 116]] None [0] in
  bare_drive (records bare) (names bare) (ext_names bare) (build_bloom sample_hash bare 128 7) [0].

Lemma bloom_pre_check_sound_witness :
  exists kept, apply_bloom_pre_check sample_hash [txt_drive] [[116; 120; 116]] = Some kept /\ txt_drive ∈ kept.
Proof.
  destruct (bloom_pre_check_sound sample_hash [txt_drive] [[116; 120; 116]]) as (kept & E & H).
  - apply Forall_cons. split; [|by apply Forall_nil]. exists 128, 7. split; [lia | done].
  - exists kept. split; [exact E |]. apply H; [left |].
    exists (record_at U32_MAX 1 0 5), [116; 120; 116]. split_and!; [left | done | done | left].
Defined.

(** 1025 files named [abc] in the base, and one more created since. *)
Definition abc : Z := pack_char_trigram 97 98 99.
Definition abc_records : list CompactRecord := replicate 1025 (record_at U32_MAX 0 0 3).
Definition abc_base : DriveCompactIndex :=
  compact_base (@rev _) (bare_drive abc_records [97; 98; 99] [] None []).
Definition abc_delta : IndexDelta := add_record delta_default 1025 [abc] 0 U32_MAX.
Definition abc_drive : DriveCompactIndex :=
  mkDriveCompactIndex (abc_records ++ [record_at U32_MAX 0 0 3]) [97; 98; 99] (trigram abc_base) (children abc_base)
    (ext_index abc_base) [] [] None [] (Some abc_delta).

Lemma abc_overlay : overlay_ok (@rev _) abc_drive abc_records [97; 98; 99].
Proof.
  split.
  - split; [done.. | | |].
    + split; by vm_compute.
    + intros rec Hr. apply elem_of_replicate in Hr as [-> _]. by left.
    + by vm_compute.
  - done.
  - split; [apply add_record_ok, delta_default_ok |]. intros i rec Hr _ _.
    destruct (Z.ltb_spec i 1025) as [Hi | Hi].
    + right. split; [set_solver |]. cbn [records abc_drive] in Hr. rewrite zget_app_l in Hr by done.
      exists rec. by split.
    + left. cbn [records abc_drive] in Hr. rewrite zget_app_r in Hr by done. change (zlen abc_records) with 1025 in Hr.
      pose proof Hr as [Hr0 _]%zget_Some. change (zlen [record_at U32_MAX 0 0 3]) with 1 in Hr0.
      assert (i = 1025) as -> by lia. injection Hr as <-. split_and!; [by left | by vm_compute; left |].
      intros t Ht. change (tris abc_drive (record_at U32_MAX 0 0 3)) with [abc] in Ht.
      apply list_elem_of_singleton in Ht as ->. vm_compute. left.
Qed.

Lemma pruned_trigram_hides_base_witness :
  exists l, trigram_search (@rev _) abc_drive [97; 98; 99] = Some l /\ forall i, i ∈ l -> i ∈ [1025].
Proof.
  apply (pruned_trigram_hides_base (@rev _) (@rev _) rev_permutation rev_permutation abc_drive abc_delta abc_records [97; 98; 99]
    [97; 98; 99] [abc] abc).
  - apply abc_overlay.
  - reflexivity.
  - reflexivity.
  - left.
  - split; by vm_compute.
  - by vm_compute.
Defined.
