(* ===== verification/PathLen.v ===== *)
(** Path lengths: [crates/uffs-core/src/compact/path_len.rs].

    A cold load computes every record's path length by breadth-first search from the
    roots; a journal batch refreshes the records it touched and shifts the subtrees of
    renamed directories.  Both traverse a forest, whose traversal is specified once.
    Loops that follow the parent links take the number of records as fuel. *)
From S2P Require Import Prelude CsrIndex TrigramIndex IndexDelta Bloom CompactIndex.
From stdpp Require Import strings.
Local Open Scope Z_scope.
Local Open Scope rust_scope.

(** * Record updates *)

Definition with_path_len (rec : CompactRecord) (pl : Z) : CompactRecord :=
  mkCompactRecord (CsrIndex.size rec) (allocated rec) (treesize rec) (tree_allocated rec) (created rec)
    (modified rec) (accessed rec) (file_ref rec) (name_offset rec) (flags rec) (parent_idx rec)
    (descendants rec) (name_len rec) (extension_id rec) pl (name_first_byte rec).

(** [if let Some(slot) = records.get_mut(i) { f(slot) }]. *)
Definition update_record (recs : list CompactRecord) (i : Z) (f : CompactRecord -> CompactRecord)
  : list CompactRecord :=
  match zget recs i with Some rec => zset recs i (f rec) | None => recs end.

Definition set_path_len (recs : list CompactRecord) (i pl : Z) : list CompactRecord :=
  update_record recs i (fun rec => with_path_len rec pl).

Definition len_to_u16 (len : Z) : Z := if len <=? U16_MAX then len else U16_MAX.

Definition drive_prefix_chars : Z := 2.

Definition name_char_count (names : list Z) (rec : CompactRecord) : Z :=
  match (let? s := get_range names (name_offset rec) (name_offset rec + name_len rec) in utf8_decode s) with
  | Some chars => len_to_u32 (zlen chars)
  | None => name_len rec
  end.

(** * The cold-load search *)

(** The adjacency lists and the roots. *)
Definition adjacency_step (st : list (list Z) * list Z) (it : Z * CompactRecord) : list (list Z) * list Z :=
  let '(children_of, roots) := st in
  let pi := parent_idx it.2 in
  if pi =? U32_MAX then (children_of, roots ++ [len_to_u32 it.1]) else
  match zget children_of pi with
  | Some siblings => (zset children_of pi (siblings ++ [len_to_u32 it.1]), roots)
  | None => (children_of, roots)
  end.

Definition adjacency (recs : list CompactRecord) : list (list Z) * list Z :=
  foldl adjacency_step (zrepeat [] (zlen recs), []) (enumerate recs).

Definition root_step (names : list Z) (st : list CompactRecord * list Z) (root : Z)
  : list CompactRecord * list Z :=
  let '(recs, queue) := st in
  match zget recs root with
  | None => (recs, queue)
  | Some rec =>
      let name_chars := name_char_count names rec in
      let pl := if name_chars =? 0 then drive_prefix_chars + 1
                else u32 (drive_prefix_chars + 1 + name_chars) in
      (set_path_len recs root (len_to_u16 pl), queue ++ [root])
  end.

Definition child_step (names : list Z) (parent_pl : Z) (st : list CompactRecord * list Z) (child : Z)
  : list CompactRecord * list Z :=
  let '(recs, queue) := st in
  let child_chars := match zget recs child with Some rec => name_char_count names rec | None => 0 end in
  let pl := saturating_add_u32 (saturating_add_u32 parent_pl 1) child_chars in
  (set_path_len recs child (len_to_u16 pl), queue ++ [child]).

(** [while let Some(idx) = queue.pop_front()]. *)
Fixpoint bfs (fuel : nat) (names : list Z) (children_of : list (list Z))
    (recs : list CompactRecord) (queue : list Z) : option (list CompactRecord) :=
  match queue with
  | [] => Some recs
  | idx :: queue =>
      match fuel with
      | O => None
      | S fuel =>
          let parent_pl := match zget recs idx with Some rec => path_len rec | None => 0 end in
          let kids := default [] (zget children_of idx) in
          let '(recs, queue) := foldl (child_step names parent_pl) (recs, queue) kids in
          bfs fuel names children_of recs queue
      end
  end.

Definition compute_path_lengths (recs : list CompactRecord) (names : list Z) : option (list CompactRecord) :=
  let '(children_of, roots) := adjacency recs in
  let '(recs, queue) := foldl (root_step names) (recs, []) roots in
  bfs (length recs) names children_of recs queue.

(** * The incremental refresh *)

Definition path_len_from_parent (recs : list CompactRecord) (names : list Z) (idx : Z) : Z :=
  match zget recs idx with
  | None => 0
  | Some rec =>
      let name_chars := name_char_count names rec in
      if parent_idx rec =? U32_MAX then
        if name_chars =? 0 then saturating_add_u32 drive_prefix_chars 1
        else saturating_add_u32 (saturating_add_u32 drive_prefix_chars 1) name_chars
      else
        let parent_pl := match zget recs (parent_idx rec) with Some parent => path_len parent | None => 0 end in
        saturating_add_u32 (saturating_add_u32 parent_pl 1) name_chars
  end.

Definition with_records (drive : DriveCompactIndex) (recs : list CompactRecord) : DriveCompactIndex :=
  mkDriveCompactIndex recs (names drive) (trigram drive) (children drive) (ext_index drive) (fold drive)
    (ext_names drive) (bloom drive) (frs_to_compact drive) (delta drive).

(** The stack's top is the head of the list. *)
Definition push_children (drive : DriveCompactIndex) (parent : Z) (stack : list Z) : list Z :=
  let base := ChildrenIndex_get (children drive) parent in
  match delta drive with
  | None => foldl (fun stack child => child :: stack) stack base
  | Some overlay =>
      merge_filter base (child_postings overlay parent)
        (record_is drive (fun rec => (parent_idx rec =? parent) && live rec))
        (fun stack child => child :: stack) stack
  end.

(** Pass 1 of [shift_subtree_path_len]. *)
Fixpoint collect_descendants (fuel : nat) (drive : DriveCompactIndex) (stack descendants : list Z)
  : option (list Z) :=
  match stack with
  | [] => Some descendants
  | idx :: stack =>
      match fuel with
      | O => None
      | S fuel => collect_descendants fuel drive (push_children drive idx stack) (descendants ++ [idx])
      end
  end.

(** [clamp(0, u16::MAX)] of the shifted length. *)
Definition shifted (shift : Z) (rec : CompactRecord) : CompactRecord :=
  with_path_len rec (Z.max 0 (Z.min U16_MAX (path_len rec + shift))).

Definition shift_subtree_path_len (drive : DriveCompactIndex) (root shift : Z) : option DriveCompactIndex :=
  let? ds := collect_descendants (length (records drive)) drive (push_children drive root []) [] in
  Some (with_records drive (foldl (fun recs i => update_record recs i (shifted shift)) (records drive) ds)).

Definition refresh_one (drive : DriveCompactIndex) (change : PathChange) : option DriveCompactIndex :=
  match zget (records drive) (pc_idx change) with
  | None => Some drive
  | Some rec =>
      if (name_len rec =? 0) && (parent_idx rec =? U32_MAX) then Some drive else
      let old_pl := path_len rec in
      let new_pl := path_len_from_parent (records drive) (names drive) (pc_idx change) in
      let drive := with_records drive (set_path_len (records drive) (pc_idx change) (len_to_u16 new_pl)) in
      if pc_subtree change then
        let shift := new_pl - old_pl in
        if negb (shift =? 0) then shift_subtree_path_len drive (pc_idx change) shift else Some drive
      else Some drive
  end.

Fixpoint update_path_lengths_incremental (drive : DriveCompactIndex) (changed : list PathChange)
  : option DriveCompactIndex :=
  match changed with
  | [] => Some drive
  | change :: changed =>
      let? drive := refresh_one drive change in
      update_path_lengths_incremental drive changed
  end.

Lemma with_records_same drive : with_records drive (records drive) = drive.
Proof. by destruct drive. Qed.

(** * Traversing a forest *)

Section forest.
Context (kids : Z -> list Z) (n : Z) (roots : list Z).

Inductive reach : Z -> Prop :=
| reach_root x : x ∈ roots -> reach x
| reach_kid x c : reach x -> c ∈ kids x -> reach c.

(** Every node has one parent, roots have none. *)
Record forest : Prop := {
  f_nodup : forall x, NoDup (kids x);
  f_range : forall x c, c ∈ kids x -> 0 <= c < n;
  f_parent : forall x y c, c ∈ kids x -> c ∈ kids y -> x = y;
  f_roots_nodup : NoDup roots;
  f_roots_range : forall x, x ∈ roots -> 0 <= x < n;
  f_roots : forall x c, reach x -> c ∈ kids x -> ~ c ∈ roots
}.

Context (Hf : forest).

(** [done] has been visited, [work] waits. *)
Record traversal (done work : list Z) : Prop := {
  tr_nodup : NoDup (done ++ work);
  tr_reach : forall x, x ∈ done ++ work -> reach x;
  tr_origin : forall x, x ∈ done ++ work -> x ∈ roots \/ exists y, y ∈ done /\ x ∈ kids y;
  tr_closed : forall y x, y ∈ done -> x ∈ kids y -> x ∈ done ++ work;
  tr_roots : forall x, x ∈ roots -> x ∈ done ++ work
}.

Lemma reach_range x : reach x -> 0 <= x < n.
Proof. destruct Hf. destruct 1; eauto. Qed.

Lemma traversal_start work : work ≡ₚ roots -> traversal [] work.
Proof.
  destruct Hf. intros Hw. split; cbn; try setoid_rewrite Hw; try done.
  - intros x Hx. by constructor.
  - intros x Hx. by left.
  - intros y x Hy. by apply not_elem_of_nil in Hy.
Qed.

Lemma traversal_step done x rest work :
  traversal done (x :: rest) -> work ≡ₚ kids x ++ rest -> traversal (done ++ [x]) work.
Proof.
  destruct Hf as [Hnodup _ Hparent _ _ Hroots]. intros [H1 H2 H3 H4 H5] Hw.
  assert (Hx : reach x) by (apply H2; set_solver).
  assert (Hp : (done ++ [x]) ++ work ≡ₚ kids x ++ done ++ x :: rest).
  { rewrite Hw. solve_Permutation. }
  assert (Hnew : forall c, c ∈ kids x -> ~ c ∈ done ++ x :: rest).
  { intros c Hc Hin. destruct (H3 c Hin) as [Hr | (y & Hy & Hcy)].
    - by apply (Hroots x c).
    - assert (y = x) as -> by eauto. apply NoDup_app in H1 as (_ & H1 & _). apply (H1 x Hy). left. }
  split.
  - rewrite Hp. apply NoDup_app. split_and!; [apply Hnodup | exact Hnew | done].
  - intros y. rewrite Hp. intros [Hy | Hy]%elem_of_app; [by apply (reach_kid x) | auto].
  - intros y. rewrite Hp. intros [Hy | Hy]%elem_of_app; [right; exists x; set_solver |].
    destruct (H3 y Hy) as [Hr | (z & Hz & Hyz)]; [by left | right; exists z; set_solver].
  - intros y c Hy Hc. rewrite Hp. apply elem_of_app.
    apply elem_of_app in Hy as [Hy | ->%list_elem_of_singleton]; [right; eauto | by left].
  - intros y Hy. rewrite Hp. apply elem_of_app. right. auto.
Qed.

Lemma traversal_room done work : traversal done work -> Z.of_nat (length done + length work) <= Z.max 0 n.
Proof.
  intros [H1 H2 _ _ _]. rewrite <- length_app.
  assert (Hs : (done ++ work) ⊆+ seqZ 0 n).
  { apply NoDup_submseteq; [done |]. intros x Hx%H2%reach_range. apply elem_of_seqZ. lia. }
  apply submseteq_length in Hs. rewrite length_seqZ in Hs. lia.
Qed.

Lemma traversal_done done : traversal done [] -> forall x, x ∈ done <-> reach x.
Proof.
  intros [_ H2 _ H4 H5] x. rewrite app_nil_r in *. split; [apply H2 |].
  induction 1 as [x Hx | x c _ IH Hc]; [auto | by eapply H4].
Qed.

Lemma traversal_fresh done x rest c :
  traversal done (x :: rest) -> c ∈ kids x -> ~ c ∈ done ++ x :: rest.
Proof.
  intros H Hc. pose proof (traversal_step done x rest (kids x ++ rest) H (reflexivity _)) as [H1 _ _ _ _].
  assert (Hp : (done ++ [x]) ++ kids x ++ rest ≡ₚ kids x ++ done ++ x :: rest) by solve_Permutation.
  rewrite Hp in H1. apply NoDup_app in H1 as (_ & H1 & _). by apply H1.
Qed.

End forest.

(** * Updates touch one record *)

Lemma zlen_update_record recs i f : zlen (update_record recs i f) = zlen recs.
Proof. unfold update_record. destruct (zget recs i); [apply zlen_zset | done]. Qed.

Lemma zget_update_record recs i f j :
  zget (update_record recs i f) j = if j =? i then f <$> zget recs i else zget recs j.
Proof.
  unfold update_record. destruct (Z.eqb_spec j i) as [-> |].
  - destruct (zget recs i) as [rec |] eqn:E; cbn; [|done]. apply zget_Some in E as [E _]. by apply zget_zset_eq.
  - destruct (zget recs i); [|done]. by apply zget_zset_ne.
Qed.

(** A record without its path length. *)
Definition strip (rec : CompactRecord) : CompactRecord := with_path_len rec 0.

Lemma strip_with_path_len rec pl : strip (with_path_len rec pl) = strip rec.
Proof. done. Qed.

Lemma strip_update recs i f :
  (forall rec, strip (f rec) = strip rec) -> map strip (update_record recs i f) = map strip recs.
Proof.
  intros Hf. apply zget_ext; rewrite !zlen_map, zlen_update_record; [done |].
  intros j _. rewrite !zget_map, zget_update_record. destruct (Z.eqb_spec j i) as [-> |]; [|done].
  destruct (zget recs i); cbn; by rewrite ?Hf.
Qed.

Lemma strip_set_path_len recs i pl : map strip (set_path_len recs i pl) = map strip recs.
Proof. by apply strip_update. Qed.

Lemma strip_zlen recs recs' : map strip recs = map strip recs' -> zlen recs = zlen recs'.
Proof. intros H. by rewrite <- (zlen_map strip recs), H, zlen_map. Qed.

Lemma strip_zget recs recs' i rec :
  map strip recs = map strip recs' -> zget recs i = Some rec ->
  exists rec', zget recs' i = Some rec' /\ strip rec = strip rec'.
Proof.
  intros H Hi. assert (zget (map strip recs) i = Some (strip rec)) as E by (by rewrite zget_map, Hi).
  rewrite H, zget_map in E. destruct (zget recs' i) as [rec' |]; [|done]. exists rec'.
  split; [done |]. by apply Some_inj.
Qed.

Lemma strip_parent rec rec' : strip rec = strip rec' -> parent_idx rec = parent_idx rec'.
Proof. intros H. exact (f_equal parent_idx H). Qed.
Lemma strip_name_len rec rec' : strip rec = strip rec' -> name_len rec = name_len rec'.
Proof. intros H. exact (f_equal name_len H). Qed.
Lemma strip_extension rec rec' : strip rec = strip rec' -> extension_id rec = extension_id rec'.
Proof. intros H. exact (f_equal extension_id H). Qed.
Lemma strip_name_offset rec rec' : strip rec = strip rec' -> name_offset rec = name_offset rec'.
Proof. intros H. exact (f_equal name_offset H). Qed.
Lemma strip_live rec rec' : strip rec = strip rec' -> live rec = live rec'.
Proof. intros H. unfold live. by rewrite (strip_name_len _ _ H). Qed.
Lemma strip_chars names rec rec' : strip rec = strip rec' -> name_char_count names rec = name_char_count names rec'.
Proof. intros H. unfold name_char_count. by rewrite (strip_name_len _ _ H), (strip_name_offset _ _ H). Qed.

Lemma strip_indices f recs recs' :
  (forall rec rec', strip rec = strip rec' -> f rec = f rec') -> map strip recs = map strip recs' ->
  indices_where f recs = indices_where f recs'.
Proof.
  intros Hf H. apply indices_where_ext. intros i. split; intros (rec & Hr & Hx);
    [destruct (strip_zget _ _ _ _ H Hr) as (rec' & Hr' & E) | destruct (strip_zget _ _ _ _ (eq_sym H) Hr) as (rec' & Hr' & E)];
    exists rec'; (split; [done |]); rewrite <- Hx; [symmetry |]; by apply Hf.
Qed.

(** * The search computes the local equation *)

(** The record's path length is the one its parent's and its name give. *)
Definition path_consistent (recs : list CompactRecord) (names : list Z) (i : Z) : Prop :=
  forall rec, zget recs i = Some rec -> path_len rec = len_to_u16 (path_len_from_parent recs names i).

Definition kids_of (recs : list CompactRecord) (p : Z) : list Z :=
  if (0 <=? p) && (p <? zlen recs) then indices_where (fun rec => parent_idx rec =? p) recs else [].
Definition roots_of (recs : list CompactRecord) : list Z :=
  indices_where (fun rec => parent_idx rec =? U32_MAX) recs.

(** The index has a chain of parents up to a root. *)
Definition rooted (recs : list CompactRecord) : Z -> Prop := reach (kids_of recs) (roots_of recs).

Definition items_under (p : Z) (items : list (Z * CompactRecord)) : list Z :=
  map (fun it => len_to_u32 it.1) (List.filter (fun it => parent_idx it.2 =? p) items).

Lemma items_under_snoc p items it :
  items_under p (items ++ [it]) =
  items_under p items ++ (if parent_idx it.2 =? p then [len_to_u32 it.1] else []).
Proof. unfold items_under. rewrite List.filter_app, map_app. cbn. by destruct (_ =? p). Qed.

Lemma adjacency_spec n items :
  0 <= n <= U32_MAX ->
  let '(adj, roots) := foldl adjacency_step (zrepeat [] n, []) items in
  zlen adj = n /\ (forall p, 0 <= p < n -> zget adj p = Some (items_under p items)) /\
  roots = items_under U32_MAX items.
Proof.
  intros Hn. induction items as [|it items IH] using rev_ind.
  - cbn. split_and!; [apply zlen_zrepeat; lia | intros p Hp; by rewrite zget_zrepeat | done].
  - rewrite foldl_app. destruct (foldl _ _ items) as [adj roots]. destruct IH as (H1 & H2 & H3).
    cbn [foldl adjacency_step]. rewrite items_under_snoc.
    destruct (Z.eqb_spec (parent_idx it.2) U32_MAX) as [E | E].
    + split_and!; [done | | congruence]. intros p Hp. rewrite items_under_snoc, H2 by done.
      destruct (Z.eqb_spec (parent_idx it.2) p); [lia |]. by rewrite app_nil_r.
    + rewrite app_nil_r. destruct (zget adj (parent_idx it.2)) as [sib |] eqn:Es.
      * pose proof Es as [Hr _]%zget_Some. rewrite H2 in Es by lia. injection Es as <-.
        split_and!; [by rewrite zlen_zset | | done].
        intros p Hp. rewrite items_under_snoc. destruct (Z.eqb_spec (parent_idx it.2) p) as [<- | Ne].
        -- by rewrite zget_zset_eq.
        -- rewrite zget_zset_ne, app_nil_r by done. auto.
      * apply zget_None in Es. split_and!; [done | | done].
        intros p Hp. rewrite items_under_snoc.
        destruct (Z.eqb_spec (parent_idx it.2) p) as [<- | Ne]; [lia |]. rewrite app_nil_r. auto.
Qed.

Lemma items_under_enumerate recs p :
  zlen recs < 2 ^ 32 -> items_under p (enumerate recs) = indices_where (fun rec => parent_idx rec =? p) recs.
Proof.
  intros Hl. unfold items_under, indices_where. apply map_ext_in.
  intros [i rec] [Hin _]%filter_In. apply list_elem_of_In, elem_of_enumerate, zget_Some in Hin as [Hin _].
  cbn. unfold len_to_u32, U32_MAX. by replace (i <=? 2 ^ 32 - 1) with true by lia.
Qed.

Lemma adjacency_kids recs :
  zlen recs < 2 ^ 32 ->
  (forall p, default [] (zget (adjacency recs).1 p) = kids_of recs p) /\ (adjacency recs).2 = roots_of recs.
Proof.
  intros Hl. unfold adjacency, kids_of, roots_of. pose proof (adjacency_spec (zlen recs) (enumerate recs)) as H.
  destruct (foldl _ _ _) as [adj roots]. destruct H as (H1 & H2 & H3).
  { pose proof (zlen_nonneg recs). unfold U32_MAX. lia. }
  cbn [fst snd]. rewrite <- !items_under_enumerate by done. split; [|done].
  intros p. rewrite <- items_under_enumerate by done. destruct (Z.leb_spec 0 p), (Z.ltb_spec p (zlen recs)); cbn.
  1: by rewrite H2.
  all: replace (zget adj p) with (@None (list Z)); [done |]; symmetry; apply zget_None; lia.
Qed.

Lemma records_forest recs : zlen recs < 2 ^ 32 -> forest (kids_of recs) (zlen recs) (roots_of recs).
Proof.
  intros Hl.
  assert (Hk : forall x c, c ∈ kids_of recs x -> 0 <= x < zlen recs /\ exists rec, zget recs c = Some rec /\ parent_idx rec = x).
  { intros x c. unfold kids_of. destruct (Z.leb_spec 0 x), (Z.ltb_spec x (zlen recs)); cbn;
      try by intros ?%not_elem_of_nil.
    intros (rec & Hr & E%Z.eqb_eq)%elem_of_indices_where. eauto. }
  split.
  - intros x. unfold kids_of. destruct (_ && _); [apply sorted_lt_NoDup, indices_where_sorted | constructor].
  - intros x c (_ & rec & [Hr _]%zget_Some & _)%Hk. done.
  - intros x y c (_ & rec & Hr & E)%Hk (_ & rec' & Hr' & E')%Hk. congruence.
  - apply sorted_lt_NoDup, indices_where_sorted.
  - intros x (rec & [Hr _]%zget_Some & _)%elem_of_indices_where. done.
  - intros x c _ (Hx & rec & Hr & E)%Hk (rec' & Hr' & E'%Z.eqb_eq)%elem_of_indices_where.
    assert (rec' = rec) as -> by congruence. unfold U32_MAX in *. lia.
Qed.

(** ** Assigning lengths to a list of records *)

Definition assign (l : list Z) (v : Z -> Z) (recs : list CompactRecord) : list CompactRecord :=
  foldl (fun recs i => set_path_len recs i (v i)) recs l.

Lemma strip_assign l v recs : map strip (assign l v recs) = map strip recs.
Proof.
  unfold assign. revert recs. induction l as [|i l IH]; intros recs; cbn; [done |].
  by rewrite IH, strip_set_path_len.
Qed.

Lemma zget_assign l v recs j :
  zget (assign l v recs) j =
  if decide (j ∈ l) then (fun rec => with_path_len rec (v j)) <$> zget recs j else zget recs j.
Proof.
  unfold assign. revert recs. induction l as [|i l IH]; intros recs; cbn [foldl].
  - by rewrite decide_False by apply not_elem_of_nil.
  - rewrite IH. unfold set_path_len at 1 2. rewrite zget_update_record. destruct (Z.eqb_spec j i) as [-> |].
    + rewrite (decide_True (P := i ∈ i :: l)) by left. destruct (decide (i ∈ l)); [|done].
      by destruct (zget recs i).
    + destruct (decide (j ∈ l)); [rewrite decide_True by (by right) | rewrite decide_False by set_solver]; done.
Qed.

Lemma utf8_decode_length bs cs : utf8_decode bs = Some cs -> zlen cs <= zlen bs.
Proof.
  remember (length bs) as n eqn:En. revert bs cs En.
  induction (lt_wf n) as [n _ IH]. intros bs cs -> H.
  assert (IH' : forall r cs, (length r < length bs)%nat -> utf8_decode r = Some cs -> zlen cs <= zlen r) by eauto.
  destruct bs as [|b0 r0]; cbn [utf8_decode] in H; [by injection H as <- |].
  assert (Hone : forall r c o, (length r < length (b0 :: r0))%nat ->
    (let? cs := utf8_decode r in Some (c :: cs)) = Some o -> zlen o <= zlen (b0 :: r0)).
  { intros r c o Hl Ho. destruct (utf8_decode r) as [cs' |] eqn:E; [|done]. injection Ho as <-.
    specialize (IH' r cs' Hl E). rewrite zlen_cons. unfold zlen in *. lia. }
  repeat match type of H with
  | (if ?c then _ else _) = _ => destruct c
  | match ?l with [] => _ | _ :: _ => _ end = _ => destruct l
  end; try done; (eapply Hone; [| exact H]); cbn; lia.
Qed.

(** Record fields of the names have their width. *)
Definition names_u16 (recs : list CompactRecord) : Prop :=
  forall rec, rec ∈ recs -> 0 <= name_len rec <= U16_MAX.

Lemma name_char_count_range names rec :
  0 <= name_len rec <= U16_MAX -> 0 <= name_char_count names rec <= U16_MAX.
Proof.
  intros H. unfold name_char_count. destruct (get_range _ _ _) as [s |] eqn:E; [|done].
  destruct (utf8_decode s) as [cs |] eqn:Ed; [|done]. apply utf8_decode_length in Ed.
  apply get_range_len in E. unfold len_to_u32, U16_MAX, U32_MAX in *. pose proof (zlen_nonneg cs).
  destruct (Z.leb_spec (zlen cs) (2 ^ 32 - 1)); lia.
Qed.

Lemma chars_of_stripped names recs recs0 i rec0 :
  map strip recs = map strip recs0 -> zget recs0 i = Some rec0 ->
  exists rec, zget recs i = Some rec /\ name_char_count names rec = name_char_count names rec0 /\
    parent_idx rec = parent_idx rec0.
Proof.
  intros H Hr. destruct (strip_zget _ _ _ _ (eq_sym H) Hr) as (rec & Hr' & E). exists rec.
  split_and!; [done | symmetry; by apply strip_chars | symmetry; by apply strip_parent].
Qed.

(** The length the search gives a root. *)
Definition root_len (names : list Z) (recs : list CompactRecord) (i : Z) : Z :=
  len_to_u16 (path_len_from_parent recs names i).

Lemma root_steps_assign names recs0 recs q roots :
  names_u16 recs0 -> map strip recs = map strip recs0 ->
  (forall i, i ∈ roots -> exists rec, zget recs0 i = Some rec /\ parent_idx rec = U32_MAX) ->
  foldl (root_step names) (recs, q) roots = (assign roots (root_len names recs0) recs, q ++ roots).
Proof.
  intros Hn. revert recs q. induction roots as [|i roots IH]; intros recs q Hs Hr; cbn [foldl].
  - by rewrite app_nil_r.
  - destruct (Hr i) as (rec0 & H0 & Hp); [left |].
    destruct (chars_of_stripped names recs recs0 i rec0 Hs H0) as (rec & H1 & Hc & _).
    unfold root_step at 2. rewrite H1. rewrite IH; [| by rewrite strip_set_path_len | intros; apply Hr; by right].
    rewrite <- app_assoc. cbn [assign foldl app]. f_equal. unfold assign at 1. f_equal. f_equal.
    unfold root_len, path_len_from_parent. rewrite H0, Hp, Hc, Z.eqb_refl. f_equal.
    pose proof (name_char_count_range names rec0 (Hn rec0 (zget_elem _ _ _ H0))).
    unfold saturating_add_u32, drive_prefix_chars, U32_MAX, U16_MAX in *.
    destruct (_ =? 0); [done |]. rewrite u32_small by lia. lia.
Qed.

Definition kid_len (names : list Z) (recs : list CompactRecord) (parent_pl i : Z) : Z :=
  len_to_u16 (saturating_add_u32 (saturating_add_u32 parent_pl 1)
    (match zget recs i with Some rec => name_char_count names rec | None => 0 end)).

Lemma child_steps_assign names pl recs0 recs q kids :
  map strip recs = map strip recs0 ->
  foldl (child_step names pl) (recs, q) kids = (assign kids (kid_len names recs0 pl) recs, q ++ kids).
Proof.
  revert recs q. induction kids as [|i kids IH]; intros recs q Hs; cbn [foldl].
  - by rewrite app_nil_r.
  - unfold child_step at 2. rewrite IH by (by rewrite strip_set_path_len).
    rewrite <- app_assoc. cbn [assign foldl app]. f_equal. unfold assign at 1. f_equal. f_equal.
    unfold kid_len. f_equal. f_equal. destruct (zget recs0 i) as [rec0 |] eqn:E.
    + destruct (chars_of_stripped names recs recs0 i rec0 Hs E) as (rec & -> & -> & _). done.
    + apply zget_None in E. rewrite <- (strip_zlen _ _ Hs) in E. by apply zget_None in E as ->.
Qed.

(** ** The search *)

Section search.
Context (names : list Z) (recs0 : list CompactRecord).
Context (Hlen : zlen recs0 < 2 ^ 32).

Lemma kid_record recs x c :
  map strip recs = map strip recs0 -> c ∈ kids_of recs0 x ->
  exists rec, zget recs c = Some rec /\ parent_idx rec = x /\ x <> U32_MAX.
Proof.
  intros Hs. unfold kids_of. destruct (Z.leb_spec 0 x), (Z.ltb_spec x (zlen recs0)); cbn;
    try by intros ?%not_elem_of_nil.
  intros (rec0 & Hr & E%Z.eqb_eq)%elem_of_indices_where.
  destruct (chars_of_stripped names recs recs0 c rec0 Hs Hr) as (rec & Hr' & _ & Hp).
  exists rec. split_and!; [done | congruence |]. unfold U32_MAX. lia.
Qed.

Lemma root_record recs x :
  map strip recs = map strip recs0 -> x ∈ roots_of recs0 ->
  exists rec, zget recs x = Some rec /\ parent_idx rec = U32_MAX.
Proof.
  intros Hs (rec0 & Hr & E%Z.eqb_eq)%elem_of_indices_where.
  destruct (chars_of_stripped names recs recs0 x rec0 Hs Hr) as (rec & Hr' & _ & Hp).
  exists rec. split; congruence.
Qed.

(** Visiting a node makes its kids consistent and keeps the visited nodes so. *)
Lemma visit_consistent recs visited idx rest pl :
  let recs' := assign (kids_of recs0 idx) (kid_len names recs0 pl) recs in
  map strip recs = map strip recs0 ->
  traversal (kids_of recs0) (roots_of recs0) visited (idx :: rest) ->
  (exists rec, zget recs idx = Some rec /\ path_len rec = pl) ->
  (forall x, x ∈ visited ++ idx :: rest -> path_consistent recs names x) ->
  forall x, x ∈ visited ++ idx :: rest \/ x ∈ kids_of recs0 idx -> path_consistent recs' names x.
Proof.
  intros recs' Hs Ht (ridx & Hridx & Hpl) Hc.
  pose proof (records_forest recs0 Hlen) as Hf.
  assert (Hfresh : forall c, c ∈ kids_of recs0 idx -> ~ c ∈ visited ++ idx :: rest)
    by (intros c; by eapply traversal_fresh).
  assert (Hold : forall j, ~ j ∈ kids_of recs0 idx -> zget recs' j = zget recs j).
  { intros j Hj. unfold recs'. rewrite zget_assign. by rewrite decide_False. }
  assert (Hidx : ~ idx ∈ kids_of recs0 idx) by (intros H%Hfresh; apply H; set_solver).
  intros x [Hx | Hx] rec Hrec.
  - assert (Hxk : ~ x ∈ kids_of recs0 idx) by (intros H; by apply (Hfresh x)).
    rewrite Hold in Hrec by done. rewrite (Hc x Hx rec Hrec). f_equal.
    unfold path_len_from_parent. rewrite Hold, Hrec by done.
    destruct (Z.eqb_spec (parent_idx rec) U32_MAX) as [| Hne]; [done |].
    rewrite Hold; [done |].
    destruct (tr_origin _ _ _ _ Ht x Hx) as [Hr | (y & Hy & Hxy)].
    + destruct (root_record recs x Hs Hr) as (rec' & E & E'). congruence.
    + destruct (kid_record recs y x Hs Hxy) as (rec' & E & E' & _).
      assert (parent_idx rec = y) as -> by congruence. intros H%Hfresh. apply H. set_solver.
  - unfold recs' in Hrec. rewrite zget_assign, decide_True in Hrec by done.
    destruct (kid_record recs idx x Hs Hx) as (rec0 & E & E' & Hne). rewrite E in Hrec. cbn in Hrec.
    injection Hrec as <-. cbn [path_len with_path_len]. unfold kid_len, path_len_from_parent.
    unfold recs' at 1. rewrite zget_assign, decide_True, E by done. cbn [fmap option_fmap option_map parent_idx with_path_len].
    rewrite E'. destruct (Z.eqb_spec idx U32_MAX); [done |].
    rewrite Hold, Hridx, Hpl by done. f_equal. f_equal.
    destruct (strip_zget _ _ _ _ Hs E) as (rec00 & -> & Es). rewrite <- (strip_chars names _ _ Es). done.
Qed.

Lemma bfs_spec adj fuel recs visited queue :
  (forall p, default [] (zget adj p) = kids_of recs0 p) ->
  map strip recs = map strip recs0 ->
  traversal (kids_of recs0) (roots_of recs0) visited queue ->
  (length recs0 <= fuel + length visited)%nat ->
  (forall x, x ∈ visited ++ queue -> path_consistent recs names x) ->
  (forall x, ~ x ∈ visited ++ queue -> zget recs x = zget recs0 x) ->
  exists recs', bfs fuel names adj recs queue = Some recs' /\ map strip recs' = map strip recs0 /\
    (forall x, rooted recs0 x -> path_consistent recs' names x) /\
    (forall x, ~ rooted recs0 x -> zget recs' x = zget recs0 x).
Proof.
  intros Hadj. revert recs visited queue. pose proof (records_forest recs0 Hlen) as Hf.
  induction fuel as [|fuel IH]; intros recs visited queue Hs Ht Hfuel Hc Hu;
    (destruct queue as [|idx rest]; cbn [bfs];
     [exists recs; rewrite app_nil_r in *; split_and!; try done; intros x Hx;
      [apply Hc | apply Hu; intros H; apply Hx]; by apply (traversal_done _ _ _ Ht) |]).
  - pose proof (traversal_room _ _ _ Hf _ _ Ht) as Hroom. cbn in Hroom. unfold zlen in Hroom. lia.
  - rewrite Hadj.
    assert (Hix : exists rec, zget recs idx = Some rec /\ path_len rec =
      match zget recs idx with Some rec => path_len rec | None => 0 end).
    { destruct (zget recs idx) as [rec |] eqn:E; [by exists rec |]. exfalso.
      apply zget_None in E. rewrite (strip_zlen _ _ Hs) in E. apply E.
      eapply reach_range; [exact Hf |]. eapply tr_reach; [exact Ht |]. set_solver. }
    set (pl := match zget recs idx with Some rec => path_len rec | None => 0 end) in *.
    rewrite (child_steps_assign names pl recs0) by done.
    assert (Ht' : traversal (kids_of recs0) (roots_of recs0) (visited ++ [idx]) (rest ++ kids_of recs0 idx)).
    { eapply traversal_step; [done.. |]. by rewrite (comm (++)). }
    apply (IH _ (visited ++ [idx])); [by rewrite strip_assign | done | rewrite length_app; cbn; lia | |].
    + intros x Hx. apply (visit_consistent recs visited idx rest pl Hs Ht Hix Hc). set_solver.
    + intros x Hx. rewrite zget_assign, decide_False by set_solver. apply Hu. set_solver.
Qed.

End search.

Lemma compute_path_lengths_spec recs names :
  zlen recs < 2 ^ 32 -> names_u16 recs ->
  exists recs', compute_path_lengths recs names = Some recs' /\ map strip recs' = map strip recs /\
    (forall x, rooted recs x -> path_consistent recs' names x) /\
    (forall x, ~ rooted recs x -> zget recs' x = zget recs x).
Proof.
  intros Hl Hn. unfold compute_path_lengths. destruct (adjacency_kids recs Hl) as [Hk Hr].
  destruct (adjacency recs) as [adj roots]. cbn [fst snd] in *. subst roots.
  rewrite (root_steps_assign names recs); [| done | done |].
  2: { intros i (rec & H1 & H2%Z.eqb_eq)%elem_of_indices_where. eauto. }
  set (recs1 := assign _ _ recs). assert (Hs : map strip recs1 = map strip recs) by apply strip_assign.
  pose proof (strip_zlen _ _ Hs) as Hz. unfold zlen in Hz.
  apply (bfs_spec names recs Hl adj _ _ []); [done | done | | cbn; lia | |]; unfold recs1.
  - apply (traversal_start _ _ _ (records_forest recs Hl)). done.
  - cbn. intros x Hx rec. rewrite zget_assign, decide_True by done.
    destruct (root_record names recs recs x eq_refl Hx) as (rec0 & E & Ep). rewrite E. intros [= <-].
    cbn [path_len with_path_len]. unfold root_len, path_len_from_parent.
    rewrite zget_assign, decide_True, E by done. cbn [fmap option_fmap option_map parent_idx with_path_len].
    by rewrite Ep.
  - cbn. intros x Hx. by rewrite zget_assign, decide_False.
Qed.

(** The full search terminates and changes nothing but path lengths: every record
    reached from a root gets its parent's length, a separator and the characters of its
    name (a root the drive prefix), cut off at the width of the field, and a record that
    is not reached keeps its length. *)
Theorem compute_path_lengths_exact recs names :
  zlen recs < 2 ^ 32 -> names_u16 recs ->
  exists recs', compute_path_lengths recs names = Some recs' /\ map strip recs' = map strip recs /\
    (forall x, rooted recs x -> path_consistent recs' names x) /\
    (forall x, ~ rooted recs x -> zget recs' x = zget recs x).
Proof. apply compute_path_lengths_spec. Qed.

(** * The incremental refresh *)

Lemma zget_updates recs f l j :
  NoDup l ->
  zget (foldl (fun recs i => update_record recs i f) recs l) j =
  if decide (j ∈ l) then f <$> zget recs j else zget recs j.
Proof.
  revert recs. induction l as [|i l IH]; intros recs Hn; cbn [foldl].
  - by rewrite decide_False by apply not_elem_of_nil.
  - apply NoDup_cons in Hn as [Hi Hn]. rewrite IH, zget_update_record by done.
    destruct (Z.eqb_spec j i) as [-> |].
    + rewrite (decide_False (P := i ∈ l)), decide_True by (done || by left). done.
    + destruct (decide (j ∈ l)); [rewrite decide_True by (by right) | rewrite decide_False by set_solver]; done.
Qed.

Lemma strip_updates recs f l :
  (forall rec, strip (f rec) = strip rec) ->
  map strip (foldl (fun recs i => update_record recs i f) recs l) = map strip recs.
Proof.
  intros Hf. revert recs. induction l as [|i l IH]; intros recs; cbn; [done |]. by rewrite IH, strip_update.
Qed.

Section refresh.
Context (schedule : list (Z * Z) -> list (Z * Z)).
Context (records0 : list CompactRecord) (names0 : list Z).

Abbreviation ov drive := (overlay_ok schedule drive records0 names0).

(** The overlay invariant does not see path lengths. *)
Lemma unchanged_with_records drive recs i rec rec' :
  strip rec = strip rec' -> unchanged drive records0 names0 i rec ->
  unchanged (with_records drive recs) records0 names0 i rec'.
Proof.
  intros E (rec0 & H0 & H1 & H2 & H3 & H4). exists rec0. split; [done |]. unfold same_keys, tris in *. cbn.
  rewrite H1, H2, H3, H4, (strip_parent _ _ E), (strip_extension _ _ E), (strip_name_len _ _ E).
  split_and!; try done. unfold record_trigrams. by rewrite (strip_name_len _ _ E), (strip_name_offset _ _ E).
Qed.

Lemma overlaid_with_records drive recs d i rec rec' :
  strip rec = strip rec' -> overlaid drive d i rec -> overlaid (with_records drive recs) d i rec'.
Proof.
  intros E. unfold overlaid, tris. cbn. rewrite (strip_parent _ _ E), (strip_extension _ _ E).
  unfold record_trigrams. by rewrite (strip_name_len _ _ E), (strip_name_offset _ _ E).
Qed.

Lemma overlay_with_records drive recs :
  map strip recs = map strip (records drive) -> ov drive -> ov (with_records drive recs).
Proof.
  intros Hs [[] Hl Hc]. pose proof (strip_zlen _ _ Hs) as Hz. split.
  - split; cbn; try done. lia.
  - cbn. intros. rewrite Hz. auto.
  - unfold covered in *. cbn. destruct (delta drive) as [d |].
    + destruct Hc as [Hd Hc]. split; [done |]. intros i rec Hr _ Hlv.
      destruct (strip_zget _ _ _ _ Hs Hr) as (rec' & Hr' & E). symmetry in E.
      destruct (Hc i rec' Hr' (fun H => H)) as [Ho | [Ht Hu]].
      * by rewrite (strip_live _ _ E).
      * left. by eapply overlaid_with_records.
      * right. split; [done |]. by eapply unchanged_with_records.
    + intros i rec Hr _. destruct (strip_zget _ _ _ _ Hs Hr) as (rec' & Hr' & E). symmetry in E.
      eapply unchanged_with_records; [exact E |]. exact (Hc i rec' Hr' (fun H => H)).
Qed.

(** The children a subtree walk follows. *)
Definition dkids (drive : DriveCompactIndex) (p : Z) : list Z :=
  if (0 <=? p) && (p <? zlen (records drive)) then indices_where (child_filter drive p) (records drive) else [].

Lemma dkids_with_records drive recs :
  map strip recs = map strip (records drive) -> forall p, dkids (with_records drive recs) p = dkids drive p.
Proof.
  intros Hs p. unfold dkids. cbn. rewrite (strip_zlen _ _ Hs). destruct (_ && _); [|done].
  apply strip_indices; [|done]. intros rec rec' E. unfold child_filter. cbn.
  by rewrite (strip_parent _ _ E), (strip_live _ _ E).
Qed.

Lemma elem_of_dkids drive p i :
  i ∈ dkids drive p <-> 0 <= p < zlen (records drive) /\
    exists rec, zget (records drive) i = Some rec /\ child_filter drive p rec = true.
Proof.
  unfold dkids. destruct (Z.leb_spec 0 p), (Z.ltb_spec p (zlen (records drive))); cbn;
    rewrite ?elem_of_indices_where, ?elem_of_nil; intuition lia.
Qed.

Lemma foldl_push (l stack : list Z) : foldl (fun stack child => child :: stack) stack l = rev l ++ stack.
Proof. revert stack. induction l as [|x l IH]; intros stack; cbn; [done |]. by rewrite IH, <- app_assoc. Qed.

Lemma push_children_spec drive p stack :
  ov drive -> zlen (records drive) < 2 ^ 32 -> 0 <= p < zlen (records drive) ->
  push_children drive p stack = rev (dkids drive p) ++ stack.
Proof.
  intros Ho Hl Hp. change (push_children drive p stack)
    with (for_each_child drive p (fun stack child => child :: stack) stack).
  erewrite for_each_child_spec; [| exact Ho | lia | unfold U32_MAX; lia].
  rewrite foldl_push. unfold dkids. by replace ((0 <=? p) && (p <? zlen (records drive))) with true by lia.
Qed.

(** The parent links have no cycle but for dead records that are their own parent, as
    the placeholders of skipped records may be. *)
Definition acyclic (drive : DriveCompactIndex) : Prop :=
  exists rank : Z -> Z, forall p i, i ∈ dkids drive p ->
    (p <> i -> rank p < rank i) /\
    (p = i -> forall rec, zget (records drive) i = Some rec -> live rec = false).

Lemma dkids_unique drive x y c : c ∈ dkids drive x -> c ∈ dkids drive y -> x = y.
Proof.
  intros (_ & rec & Hr & Hf)%elem_of_dkids (_ & rec' & Hr' & Hf')%elem_of_dkids.
  assert (rec' = rec) as -> by congruence.
  apply andb_true_iff in Hf as [E%Z.eqb_eq _], Hf' as [E'%Z.eqb_eq _]. congruence.
Qed.

Lemma reach_rank drive rank root x :
  (forall p i, i ∈ dkids drive p -> p <> i -> rank p < rank i) -> ~ root ∈ dkids drive root ->
  reach (dkids drive) (dkids drive root) x -> rank root < rank x /\ ~ x ∈ dkids drive x.
Proof.
  intros Hr Hroot. induction 1 as [x Hx | x c _ [IH1 IH2] Hc].
  - assert (root <> x) by (intros ->; done). split; [by apply Hr |].
    intros Hxx. by apply (dkids_unique drive root x x) in Hx.
  - assert (x <> c) by (intros ->; done). specialize (Hr x c Hc). split; [intuition lia |].
    intros Hcc. by apply (dkids_unique drive x c c) in Hc.
Qed.

Lemma drive_forest drive root :
  acyclic drive -> ~ root ∈ dkids drive root ->
  forest (dkids drive) (zlen (records drive)) (dkids drive root).
Proof.
  intros [rank Hrank] Hroot.
  assert (Hrange : forall x c, c ∈ dkids drive x -> 0 <= c < zlen (records drive)).
  { intros x c (_ & rec & [Hr _]%zget_Some & _)%elem_of_dkids. done. }
  assert (Hnd : forall x, NoDup (dkids drive x)).
  { intros x. unfold dkids. destruct (_ && _); [apply sorted_lt_NoDup, indices_where_sorted | constructor]. }
  split; [done | done | apply dkids_unique | apply Hnd | apply Hrange |].
  intros x c Hx Hc Hc'. assert (x = root) as -> by (by eapply dkids_unique).
  pose proof (reach_rank drive rank root root (fun p i H => proj1 (Hrank p i H)) Hroot Hx). lia.
Qed.

Lemma acyclic_with_records drive recs :
  map strip recs = map strip (records drive) -> acyclic drive -> acyclic (with_records drive recs).
Proof.
  intros Hs [rank Hrank]. exists rank. intros p i. rewrite dkids_with_records by done. intros Hi.
  destruct (Hrank p i Hi) as [H1 H2]. split; [done |]. cbn. intros E rec Hr.
  destruct (strip_zget _ _ _ _ Hs Hr) as (rec' & Hr' & Es). rewrite (strip_live _ _ Es). eauto.
Qed.

Lemma collect_from drive root fuel stack visited :
  ov drive -> zlen (records drive) < 2 ^ 32 -> acyclic drive -> ~ root ∈ dkids drive root ->
  traversal (dkids drive) (dkids drive root) visited stack ->
  (length (records drive) <= fuel + length visited)%nat ->
  exists ds, collect_descendants fuel drive stack visited = Some ds /\
    traversal (dkids drive) (dkids drive root) ds [].
Proof.
  intros Ho Hl Ha Hroot. pose proof (drive_forest drive root Ha Hroot) as Hf. revert stack visited.
  induction fuel as [|fuel IH]; intros stack visited Ht Hfuel;
    (destruct stack as [|idx rest]; cbn [collect_descendants]; [by exists visited |]).
  - pose proof (traversal_room _ _ _ Hf _ _ Ht) as Hroom. cbn in Hroom. unfold zlen in Hroom. lia.
  - apply IH; [| rewrite length_app; cbn; lia].
    rewrite push_children_spec; [| done | done |].
    + eapply traversal_step; [done.. |]. by rewrite <- Permutation_rev.
    + eapply reach_range; [exact Hf |]. eapply tr_reach; [exact Ht |]. set_solver.
Qed.

Lemma collect_spec drive root :
  ov drive -> zlen (records drive) < 2 ^ 32 -> acyclic drive -> 0 <= root < zlen (records drive) ->
  ~ root ∈ dkids drive root ->
  exists ds, collect_descendants (length (records drive)) drive (push_children drive root []) [] = Some ds /\
    NoDup ds /\ forall x, x ∈ ds <-> reach (dkids drive) (dkids drive root) x.
Proof.
  intros Ho Hl Ha Hr Hroot. pose proof (drive_forest drive root Ha Hroot) as Hf.
  destruct (collect_from drive root (length (records drive)) (push_children drive root []) [] Ho Hl Ha Hroot)
    as (ds & E & Ht).
  - apply (traversal_start _ _ _ Hf). rewrite push_children_spec by done. rewrite app_nil_r.
    by rewrite <- Permutation_rev.
  - cbn. lia.
  - exists ds. split_and!; [done | |].
    + pose proof (tr_nodup _ _ _ _ Ht) as Hn. by rewrite app_nil_r in Hn.
    + apply (traversal_done _ _ _ Ht).
Qed.

(** ** Exact lengths *)

(** The record's path length is its parent's plus a separator and its name, with no
    saturation. *)
Definition exact (drive : DriveCompactIndex) (i : Z) : Prop :=
  forall rec, zget (records drive) i = Some rec -> live rec = true ->
    path_len rec = path_len_from_parent (records drive) (names drive) i.

(** Path lengths have their width. *)
Definition path_u16 (drive : DriveCompactIndex) : Prop :=
  forall rec, rec ∈ records drive -> 0 <= path_len rec <= U16_MAX.

(** What the refresh keeps about a drive, and the exactness of the live records that
    are not still to be refreshed. *)
Record refreshable (drive : DriveCompactIndex) (remaining : list Z) : Prop := {
  rf_ov : ov drive;
  rf_len : zlen (records drive) < 2 ^ 32;
  rf_acyclic : acyclic drive;
  rf_names : names_u16 (records drive);
  rf_paths : path_u16 drive;
  rf_noloop : forall i, i ∈ remaining -> ~ i ∈ dkids drive i;
  rf_exact : forall i, ~ i ∈ remaining -> exact drive i
}.

(** A refresh of [change] stays within the width: the new length fits, and so does
    every shifted length of a subtree. *)
Definition fits_u16 (drive : DriveCompactIndex) (change : PathChange) : Prop :=
  forall rec, zget (records drive) (pc_idx change) = Some rec ->
  let new_pl := path_len_from_parent (records drive) (names drive) (pc_idx change) in
  new_pl <= U16_MAX /\
  (pc_subtree change = true -> forall x xrec,
    reach (dkids drive) (dkids drive (pc_idx change)) x -> zget (records drive) x = Some xrec ->
    0 <= path_len xrec + (new_pl - path_len rec) <= U16_MAX).

Fixpoint no_clamp (drive : DriveCompactIndex) (changed : list PathChange) : Prop :=
  match changed with
  | [] => True
  | change :: changed =>
      fits_u16 drive change /\
      match refresh_one drive change with Some drive' => no_clamp drive' changed | None => True end
  end.

(** A change that does not walk its subtree is followed by a refresh of each of its
    children. *)
Fixpoint children_follow (drive : DriveCompactIndex) (changed : list PathChange) : Prop :=
  match changed with
  | [] => True
  | change :: changed =>
      (pc_subtree change = false -> forall k, k ∈ dkids drive (pc_idx change) -> k ∈ map pc_idx changed) /\
      children_follow drive changed
  end.

Lemma children_follow_with_records drive recs changed :
  map strip recs = map strip (records drive) ->
  children_follow drive changed -> children_follow (with_records drive recs) changed.
Proof.
  intros Hs. induction changed as [|c changed IH]; cbn; [done |]. intros [H1 H2]. split; [|auto].
  intros Hc k. rewrite dkids_with_records by done. auto.
Qed.

Lemma path_len_from_parent_nonneg recs names i :
  names_u16 recs -> (forall rec, rec ∈ recs -> 0 <= path_len rec) -> 0 <= path_len_from_parent recs names i.
Proof.
  intros Hn Hp. unfold path_len_from_parent. destruct (zget recs i) as [rec |] eqn:E; [|done].
  pose proof (name_char_count_range names rec (Hn rec (zget_elem _ _ _ E))).
  unfold saturating_add_u32, drive_prefix_chars.
  destruct (parent_idx rec =? U32_MAX); unfold U32_MAX; [destruct (name_char_count names rec =? 0); lia |].
  destruct (zget recs (parent_idx rec)) as [p |] eqn:Ep; [pose proof (Hp p (zget_elem _ _ _ Ep)) |]; lia.
Qed.

(** The new length of a record depends on its parent's length only. *)
Lemma path_len_from_parent_strip recs recs' names i rec :
  map strip recs' = map strip recs -> zget recs i = Some rec ->
  (parent_idx rec <> U32_MAX ->
    option_map path_len (zget recs' (parent_idx rec)) = option_map path_len (zget recs (parent_idx rec))) ->
  path_len_from_parent recs' names i = path_len_from_parent recs names i.
Proof.
  intros Hs Hr Hp. destruct (chars_of_stripped names recs' recs i rec Hs Hr) as (rec' & Hr' & Hc & Hpi).
  unfold path_len_from_parent. rewrite Hr, Hr', Hc, Hpi. destruct (Z.eqb_spec (parent_idx rec) U32_MAX); [done |].
  specialize (Hp n). destruct (zget recs' (parent_idx rec)), (zget recs (parent_idx rec)); cbn in Hp; congruence.
Qed.

(** ** One refresh *)

Definition path_at (recs : list CompactRecord) (i : Z) : option Z := path_len <$> zget recs i.

Lemma live_or_dead drive i : (exists rec, zget (records drive) i = Some rec /\ live rec = true) \/
  (forall rec, zget (records drive) i = Some rec -> live rec = false).
Proof.
  destruct (zget (records drive) i) as [rec |]; [|by right]. destruct (live rec) eqn:E; [left; by exists rec |].
  right. by intros ? [= <-].
Qed.

(** The effect of a refresh on the path lengths: the record, its subtree, the rest. *)
Record refreshed (drive : DriveCompactIndex) (change : PathChange) (recs' : list CompactRecord)
    (rec : CompactRecord) (sub : list Z) : Prop := {
  rd_sub : forall x, x ∈ sub <->
    pc_subtree change = true /\ reach (dkids drive) (dkids drive (pc_idx change)) x;
  rd_rec : zget (records drive) (pc_idx change) = Some rec;
  rd_self : path_at recs' (pc_idx change) =
    Some (path_len_from_parent (records drive) (names drive) (pc_idx change));
  rd_subtree : forall j, j ∈ sub ->
    path_at recs' j = (fun pl => pl + (path_len_from_parent (records drive) (names drive) (pc_idx change) - path_len rec))
      <$> path_at (records drive) j;
  rd_rest : forall j, j <> pc_idx change -> ~ j ∈ sub -> path_at recs' j = path_at (records drive) j
}.

Lemma path_at_updates recs f l j :
  NoDup l -> path_at (foldl (fun recs i => update_record recs i f) recs l) j =
  if decide (j ∈ l) then (fun r => path_len (f r)) <$> zget recs j else path_at recs j.
Proof.
  intros Hn. unfold path_at. rewrite zget_updates by done. destruct (decide (j ∈ l)); [|done].
  by rewrite <- option_fmap_compose.
Qed.

Lemma path_at_set recs i pl j :
  path_at (set_path_len recs i pl) j = if j =? i then (fun _ => pl) <$> zget recs i else path_at recs j.
Proof.
  unfold path_at, set_path_len. rewrite zget_update_record. destruct (j =? i); [|done].
  by rewrite <- option_fmap_compose.
Qed.

Lemma refresh_one_effect drive change rec :
  ov drive -> zlen (records drive) < 2 ^ 32 -> acyclic drive -> names_u16 (records drive) -> path_u16 drive ->
  fits_u16 drive change -> ~ pc_idx change ∈ dkids drive (pc_idx change) ->
  zget (records drive) (pc_idx change) = Some rec -> (name_len rec =? 0) && (parent_idx rec =? U32_MAX) = false ->
  exists recs' sub, refresh_one drive change = Some (with_records drive recs') /\
    map strip recs' = map strip (records drive) /\ refreshed drive change recs' rec sub.
Proof.
  intros Ho Hl Ha Hn Hp Hfit Hloop Hr Hskip. unfold refresh_one. rewrite Hr, Hskip.
  set (idx := pc_idx change) in *. set (new := path_len_from_parent _ _ _).
  destruct (Hfit rec Hr) as [Hnew Hsub]. fold idx new in Hnew, Hsub.
  assert (Hlen : len_to_u16 new = new) by (unfold len_to_u16; by replace (new <=? U16_MAX) with true by lia).
  rewrite Hlen. set (recs1 := set_path_len (records drive) idx new).
  assert (Hs1 : map strip recs1 = map strip (records drive)) by apply strip_set_path_len.
  assert (Hat : forall j, path_at recs1 j = if j =? idx then Some new else path_at (records drive) j).
  { intros j. unfold recs1. rewrite path_at_set, Hr. done. }
  pose proof (drive_forest drive idx Ha Hloop) as Hf.
  destruct Ha as [rank Hrank].
  assert (Hself : ~ reach (dkids drive) (dkids drive idx) idx).
  { intros [H _]%(reach_rank drive rank idx idx (fun p i H => proj1 (Hrank p i H)) Hloop). lia. }
  assert (Hnosub : forall j, j <> idx -> path_at recs1 j = path_at (records drive) j).
  { intros j Hj. rewrite Hat. by destruct (Z.eqb_spec j idx). }
  assert (Hme : path_at recs1 idx = Some new) by (by rewrite Hat, Z.eqb_refl).
  destruct (pc_subtree change) eqn:Esub.
  2: { exists recs1, []. split_and!; [done | done |]. split; fold idx new; try done; [| |auto].
       - rewrite Esub. set_solver.
       - intros j Hj. by apply not_elem_of_nil in Hj. }
  unfold shift_subtree_path_len. cbn [records with_records].
  assert (Hk : forall p, dkids (with_records drive recs1) p = dkids drive p) by (by apply dkids_with_records).
  assert (Hrange : 0 <= idx < zlen (records drive)) by (by apply zget_Some in Hr as [? _]).
  destruct (collect_spec (with_records drive recs1) idx) as (ds & Eds & Hnd & Hin).
  { by apply overlay_with_records. }
  { cbn. by rewrite (strip_zlen _ _ Hs1). }
  { by apply acyclic_with_records; [| exists rank]. }
  { cbn. by rewrite (strip_zlen _ _ Hs1). }
  { by rewrite Hk. }
  cbn [records with_records] in Eds. rewrite Eds.
  assert (Hin' : forall x, x ∈ ds <-> reach (dkids drive) (dkids drive idx) x).
  { intros x. rewrite Hin, Hk. split; induction 1 as [x Hx | x c _ IH Hc].
    1,3: by constructor.
    - eapply reach_kid; [exact IH | by rewrite <- Hk].
    - eapply reach_kid; [exact IH | by rewrite Hk]. }
  assert (Hds : forall x, x ∈ ds <-> pc_subtree change = true /\ reach (dkids drive) (dkids drive idx) x)
    by (intros x; rewrite Hin', Esub; tauto).
  assert (Hdi : forall j, j ∈ ds -> j <> idx) by (intros j Hj%Hin'; congruence).
  destruct (Z.eqb_spec (new - path_len rec) 0) as [E | E]; cbn [negb].
  { exists recs1, ds. split_and!; [done | done |]. split; fold idx new; try done; [|auto].
    intros j Hj. rewrite E, Hnosub by auto.
    destruct (path_at (records drive) j); cbn; [f_equal; lia | done]. }
  eexists _, ds. split; [reflexivity |].
  split; [by rewrite strip_updates |]. split; fold idx new; [done | done | | |].
  - rewrite path_at_updates, decide_False by (done || by rewrite Hin'). done.
  - intros j Hj. rewrite path_at_updates, decide_True by done.
    assert (Hj' : path_at recs1 j = path_at (records drive) j) by auto.
    unfold path_at in *. destruct (zget recs1 j) as [r1 |], (zget (records drive) j) as [r |] eqn:Er;
      cbn in Hj' |- *; try done. injection Hj' as ->. f_equal.
    destruct (Hsub eq_refl j r (proj1 (Hin' j) Hj) Er). lia.
  - intros j Hne Hj. rewrite path_at_updates, decide_False by done. auto.
Qed.

(** Clamped or not, a refresh terminates and changes path lengths only. *)
Lemma refresh_one_total drive change :
  ov drive -> zlen (records drive) < 2 ^ 32 -> acyclic drive -> ~ pc_idx change ∈ dkids drive (pc_idx change) ->
  exists recs', refresh_one drive change = Some (with_records drive recs') /\
    map strip recs' = map strip (records drive).
Proof.
  intros Ho Hl Ha Hloop. unfold refresh_one.
  destruct (zget (records drive) (pc_idx change)) as [rec |] eqn:Hr;
    [|exists (records drive); by rewrite with_records_same].
  destruct (_ && _); [exists (records drive); by rewrite with_records_same |].
  set (recs1 := set_path_len _ _ _). assert (Hs1 : map strip recs1 = map strip (records drive)) by apply strip_set_path_len.
  destruct (pc_subtree change); [|by exists recs1]. destruct (negb _); [|by exists recs1].
  unfold shift_subtree_path_len.
  destruct (collect_spec (with_records drive recs1) (pc_idx change)) as (ds & Eds & _); cbn.
  { by apply overlay_with_records. }
  { by rewrite (strip_zlen _ _ Hs1). }
  { by apply acyclic_with_records. }
  { rewrite (strip_zlen _ _ Hs1). by apply zget_Some in Hr as [? _]. }
  { by rewrite dkids_with_records. }
  cbn in Eds. rewrite Eds. eexists. split; [reflexivity |]. by rewrite strip_updates.
Qed.

Lemma update_path_lengths_total drive changed :
  ov drive -> zlen (records drive) < 2 ^ 32 -> acyclic drive ->
  (forall i, i ∈ map pc_idx changed -> ~ i ∈ dkids drive i) ->
  exists recs', update_path_lengths_incremental drive changed = Some (with_records drive recs') /\
    map strip recs' = map strip (records drive).
Proof.
  revert drive. induction changed as [|c changed IH]; intros drive Ho Hl Ha Hloop; cbn.
  - exists (records drive). by rewrite with_records_same.
  - destruct (refresh_one_total drive c Ho Hl Ha) as (recs1 & -> & Hs1); [apply Hloop; left |].
    destruct (IH (with_records drive recs1)) as (recs2 & E2 & Hs2).
    { by apply overlay_with_records. }
    { cbn. by rewrite (strip_zlen _ _ Hs1). }
    { by apply acyclic_with_records. }
    { intros i Hi. rewrite dkids_with_records by done. apply Hloop. by right. }
    exists recs2. cbn in Hs2. split; [exact E2 | congruence].
Qed.

Lemma path_at_Some recs i pl : path_at recs i = Some pl <-> exists rec, zget recs i = Some rec /\ path_len rec = pl.
Proof. unfold path_at. destruct (zget recs i); cbn; naive_solver. Qed.

(** The sum is not saturated. *)
Lemma unsaturated p c : 0 <= p <= U16_MAX -> 0 <= c <= U16_MAX ->
  saturating_add_u32 (saturating_add_u32 p 1) c = p + 1 + c.
Proof. unfold saturating_add_u32, U16_MAX, U32_MAX. lia. Qed.

Lemma from_parent_eq recs names i r q pq :
  names_u16 recs -> zget recs i = Some r -> parent_idx r = q -> q <> U32_MAX ->
  path_at recs q = Some pq -> 0 <= pq <= U16_MAX ->
  path_len_from_parent recs names i = pq + 1 + name_char_count names r.
Proof.
  intros Hn Hr Hq Hne (rq & Hrq & <-)%path_at_Some Hpq. unfold path_len_from_parent. rewrite Hr, Hq, Hrq.
  destruct (Z.eqb_spec q U32_MAX); [done |]. apply unsaturated; [done |].
  apply name_char_count_range, Hn. by eapply zget_elem.
Qed.

(** A record outside the subtree keeps its length and its parent's. *)
Lemma refreshed_rest drive change recs' rec sub i :
  map strip recs' = map strip (records drive) -> refreshed drive change recs' rec sub ->
  exact drive i -> i <> pc_idx change -> ~ i ∈ sub ->
  (forall q, i ∈ dkids drive q -> q <> pc_idx change /\ ~ q ∈ sub) ->
  (forall q, q ∈ sub -> 0 <= q < zlen (records drive)) ->
  exact (with_records drive recs') i.
Proof.
  intros Hs Hrd Hex Hne Hi Hpar Hsubr rec' Hr' Hlv'. cbn [records names with_records] in *.
  destruct (strip_zget _ _ _ _ Hs Hr') as (r & Hr & E). symmetry in E.
  specialize (Hex r Hr). rewrite (strip_live _ _ E) in Hex. specialize (Hex Hlv').
  pose proof (rd_rest _ _ _ _ _ Hrd i Hne Hi) as Hat. unfold path_at in Hat. rewrite Hr', Hr in Hat.
  injection Hat as Hat. rewrite Hat, Hex. symmetry. apply (path_len_from_parent_strip _ _ _ _ r); [done | done |].
  intros Hm. apply (rd_rest _ _ _ _ _ Hrd).
  - intros Hp. pose proof (rd_rec _ _ _ _ _ Hrd) as [Hrng _]%zget_Some.
    destruct (Hpar (pc_idx change)) as [H _]; [|done]. apply elem_of_dkids. split; [done |]. exists r. split; [done |].
    unfold child_filter. rewrite Hp, Z.eqb_refl, (strip_live _ _ E), Hlv'. by destruct (delta drive).
  - intros Hp. destruct (Hpar (parent_idx r)) as [_ H]; [|done]. apply elem_of_dkids. split; [auto |]. exists r.
    split; [done |]. unfold child_filter. rewrite Z.eqb_refl, (strip_live _ _ E), Hlv'. by destruct (delta drive).
Qed.

(** A shifted record and its parent move together. *)
Lemma refreshed_sub drive change recs' rec sub i :
  zlen (records drive) < 2 ^ 32 -> names_u16 (records drive) -> names_u16 recs' ->
  path_u16 drive -> path_u16 (with_records drive recs') ->
  map strip recs' = map strip (records drive) -> refreshed drive change recs' rec sub ->
  exact drive i -> i ∈ sub ->
  (exists q, i ∈ dkids drive q /\ (q = pc_idx change \/ q ∈ sub)) ->
  exact (with_records drive recs') i.
Proof.
  intros Hl Hn Hn' Hp Hp' Hs Hrd Hex Hi (q & Hiq & Hq) rec' Hr' Hlv'. cbn [records names with_records] in *.
  destruct (strip_zget _ _ _ _ Hs Hr') as (r & Hr & E). symmetry in E.
  specialize (Hex r Hr). rewrite (strip_live _ _ E) in Hex. specialize (Hex Hlv').
  apply elem_of_dkids in Hiq as (Hqr & r' & Hr'' & [Epar%Z.eqb_eq _]%andb_true_iff).
  assert (r' = r) as -> by congruence. assert (q <> U32_MAX) by (unfold U32_MAX; lia).
  destruct (zget_is_Some _ _ Hqr) as [rq Hrq].
  assert (Hpq : path_at (records drive) q = Some (path_len rq)) by (unfold path_at; by rewrite Hrq).
  set (shift := path_len_from_parent (records drive) (names drive) (pc_idx change) - path_len rec).
  assert (Hpq' : path_at recs' q = Some (path_len rq + shift)).
  { destruct Hq as [-> | Hq].
    - rewrite (rd_self _ _ _ _ _ Hrd). pose proof (rd_rec _ _ _ _ _ Hrd) as Hrec.
      assert (rq = rec) as -> by congruence. f_equal. unfold shift. lia.
    - rewrite (rd_subtree _ _ _ _ _ Hrd q Hq), Hpq. done. }
  pose proof (rd_subtree _ _ _ _ _ Hrd i Hi) as Hsh. fold shift in Hsh. unfold path_at in Hsh at 1 2.
  rewrite Hr', Hr in Hsh. injection Hsh as Hsh. rewrite Hsh, Hex.
  destruct (path_at_Some recs' q (path_len rq + shift)) as [(rq' & Hrq' & Epl) _]; [done |].
  rewrite (from_parent_eq (records drive) _ i r q (path_len rq)); try done; [|apply Hp; by eapply zget_elem].
  rewrite (from_parent_eq recs' _ i rec' q (path_len rq + shift)); try done.
  - rewrite (strip_chars _ _ _ E). lia.
  - by rewrite <- (strip_parent _ _ E).
  - rewrite <- Epl. apply Hp'. cbn. by eapply zget_elem.
Qed.

Lemma names_u16_strip recs recs' : map strip recs = map strip recs' -> names_u16 recs' -> names_u16 recs.
Proof.
  intros Hs Hn rec (j & Hj)%list_elem_of_lookup.
  assert (zget recs (Z.of_nat j) = Some rec) as Hr.
  { apply zget_Some. rewrite Nat2Z.id. split; [|done]. apply lookup_lt_Some in Hj. unfold zlen. lia. }
  destruct (strip_zget _ _ _ _ Hs Hr) as (rec' & Hr' & E). rewrite (strip_name_len _ _ E).
  apply Hn. by eapply zget_elem.
Qed.

Lemma elem_zget {A} (l : list A) x : x ∈ l -> exists i, zget l i = Some x.
Proof.
  intros (j & Hj)%list_elem_of_lookup. exists (Z.of_nat j). apply zget_Some. rewrite Nat2Z.id.
  split; [|done]. apply lookup_lt_Some in Hj. unfold zlen. lia.
Qed.

Lemma refreshed_u16 drive change recs' rec sub :
  names_u16 (records drive) -> path_u16 drive -> fits_u16 drive change ->
  map strip recs' = map strip (records drive) -> refreshed drive change recs' rec sub ->
  path_u16 (with_records drive recs').
Proof.
  intros Hn Hp Hfit Hs Hrd rec' (j & Hj)%elem_zget. cbn in Hj.
  pose proof (rd_rec _ _ _ _ _ Hrd) as Hrec. destruct (Hfit rec Hrec) as [Hnew Hsub].
  destruct (strip_zget _ _ _ _ Hs Hj) as (r & Hr & _).
  assert (Hat : path_at recs' j = Some (path_len rec')) by (unfold path_at; by rewrite Hj).
  destruct (Z.eq_dec j (pc_idx change)) as [-> | Hne].
  - rewrite (rd_self _ _ _ _ _ Hrd) in Hat. injection Hat as <-. split; [|done].
    apply path_len_from_parent_nonneg; [done |]. intros x Hx. by apply Hp.
  - destruct (decide (j ∈ sub)) as [Hi | Hi].
    + rewrite (rd_subtree _ _ _ _ _ Hrd j Hi) in Hat. unfold path_at in Hat. rewrite Hr in Hat.
      injection Hat as <-. destruct (proj1 (rd_sub _ _ _ _ _ Hrd j) Hi) as [H1 H2]. by apply (Hsub H1 j r).
    + rewrite (rd_rest _ _ _ _ _ Hrd j Hne Hi) in Hat. unfold path_at in Hat. rewrite Hr in Hat.
      injection Hat as <-. apply Hp. by eapply zget_elem.
Qed.

(** The refreshed record is exact, whatever it was before. *)
Lemma refreshed_self drive change recs' rec sub :
  acyclic drive -> ~ pc_idx change ∈ dkids drive (pc_idx change) ->
  map strip recs' = map strip (records drive) -> refreshed drive change recs' rec sub ->
  exact (with_records drive recs') (pc_idx change).
Proof.
  intros [rank Hrank] Hloop Hs Hrd rec' Hr' Hlv'. cbn [records names with_records] in *.
  destruct (strip_zget _ _ _ _ Hs Hr') as (r & Hr & E). symmetry in E.
  pose proof (rd_self _ _ _ _ _ Hrd) as Hat. unfold path_at in Hat. rewrite Hr' in Hat. injection Hat as ->.
  symmetry. apply (path_len_from_parent_strip _ _ _ _ r); [done | done |]. intros Hm.
  assert (Hkid : forall q, 0 <= q < zlen (records drive) -> parent_idx r = q -> pc_idx change ∈ dkids drive q).
  { intros q Hq Hpq. apply elem_of_dkids. split; [done |]. exists r. split; [done |].
    unfold child_filter. rewrite Hpq, Z.eqb_refl, (strip_live _ _ E), Hlv'. by destruct (delta drive). }
  pose proof (rd_rec _ _ _ _ _ Hrd) as [Hrng _]%zget_Some.
  apply (rd_rest _ _ _ _ _ Hrd).
  - intros Hp. by apply Hloop, Hkid.
  - intros Hp. destruct (proj1 (rd_sub _ _ _ _ _ Hrd _) Hp) as [_ Hreach].
    destruct (reach_rank drive rank _ _ (fun p i H => proj1 (Hrank p i H)) Hloop Hreach) as [H1 H1'].
    assert (Hpr : 0 <= parent_idx r < zlen (records drive)).
    { inversion Hreach as [? Hx | ? ? _ Hx]; subst; apply elem_of_dkids in Hx as (_ & ? & [Hx _]%zget_Some & _); done. }
    destruct (Z.eq_dec (parent_idx r) (pc_idx change)) as [Ep | Ep]; [rewrite Ep in H1; lia |].
    pose proof (proj1 (Hrank _ _ (Hkid _ Hpr eq_refl)) Ep). lia.
Qed.

Lemma refresh_step drive change changed :
  refreshable drive (map pc_idx (change :: changed)) -> fits_u16 drive change ->
  (pc_subtree change = false -> forall k, k ∈ dkids drive (pc_idx change) -> k ∈ map pc_idx changed) ->
  exists recs', refresh_one drive change = Some (with_records drive recs') /\
    map strip recs' = map strip (records drive) /\
    refreshable (with_records drive recs') (map pc_idx changed).
Proof.
  intros [Ho Hl Ha Hn Hp Hnl Hx] Hfit Hkids.
  assert (Hloop : ~ pc_idx change ∈ dkids drive (pc_idx change)) by (apply Hnl; left).
  assert (Hnl' : forall i, i ∈ map pc_idx changed -> ~ i ∈ dkids drive i) by (intros i Hi; apply Hnl; by right).
  assert (Hskip : (forall rec, zget (records drive) (pc_idx change) = Some rec -> live rec = false) ->
    refreshable drive (map pc_idx changed)).
  { intros Hdead. split; try done. intros i Hi. destruct (Z.eq_dec i (pc_idx change)) as [-> | Hne].
    - intros rec Hr Hlv. by rewrite (Hdead rec Hr) in Hlv.
    - apply Hx. cbn. intros [? | ?]%elem_of_cons; done. }
  destruct (zget (records drive) (pc_idx change)) as [rec |] eqn:Hr.
  2: { exists (records drive). unfold refresh_one. rewrite Hr, with_records_same. split_and!; [done.. |].
       apply Hskip. by intros. }
  destruct ((name_len rec =? 0) && (parent_idx rec =? U32_MAX)) eqn:Esk.
  { exists (records drive). unfold refresh_one. rewrite Hr, Esk, with_records_same. split_and!; [done.. |].
    apply Hskip. intros ? [= <-]. unfold live. apply andb_true_iff in Esk as [-> _]. done. }
  destruct (refresh_one_effect drive change rec) as (recs' & sub & E & Hs & Hrd); try done.
  exists recs'. split_and!; [done | done |].
  pose proof (refreshed_u16 _ _ _ _ _ Hn Hp Hfit Hs Hrd) as Hp'.
  pose proof (names_u16_strip _ _ Hs Hn) as Hn'.
  split; [by apply overlay_with_records | cbn; by rewrite (strip_zlen _ _ Hs) | by apply acyclic_with_records | done | done
         | intros i Hi; rewrite dkids_with_records by done; auto |].
  pose proof (drive_forest drive (pc_idx change) Ha Hloop) as Hf.
  assert (Hsubr : forall q, q ∈ sub -> 0 <= q < zlen (records drive)).
  { intros q [_ Hq]%(rd_sub _ _ _ _ _ Hrd). by eapply reach_range. }
  intros i Hi. destruct (Z.eq_dec i (pc_idx change)) as [-> | Hne]; [by eapply refreshed_self |].
  assert (Hxi : exact drive i) by (apply Hx; cbn; intros [? | ?]%elem_of_cons; done).
  destruct (decide (i ∈ sub)) as [His | His].
  - eapply refreshed_sub; try done. destruct (proj1 (rd_sub _ _ _ _ _ Hrd i) His) as [Hsub Hreach].
    inversion Hreach as [? Hroot | q ? Hq Hiq]; subst; [exists (pc_idx change); auto |].
    exists q. split; [done |]. right. by apply (rd_sub _ _ _ _ _ Hrd).
  - eapply refreshed_rest; try done. intros q Hq. split.
    + intros ->. destruct (pc_subtree change) eqn:Esub; [|by apply Hi, Hkids].
      apply His, (rd_sub _ _ _ _ _ Hrd). split; [done | by constructor].
    + intros Hqs. apply His, (rd_sub _ _ _ _ _ Hrd).
      destruct (proj1 (rd_sub _ _ _ _ _ Hrd q) Hqs) as [Hsub Hreach]. split; [done |]. by eapply reach_kid.
Qed.

Lemma refresh_all drive changed :
  refreshable drive (map pc_idx changed) -> no_clamp drive changed -> children_follow drive changed ->
  exists recs', update_path_lengths_incremental drive changed = Some (with_records drive recs') /\
    map strip recs' = map strip (records drive) /\ refreshable (with_records drive recs') [].
Proof.
  revert drive. induction changed as [|c changed IH]; intros drive Hr Hn Hk; cbn.
  - exists (records drive). by rewrite with_records_same.
  - destruct Hn as [Hfit Hn]. destruct Hk as [Hk1 Hk2].
    destruct (refresh_step drive c changed Hr Hfit Hk1) as (recs1 & E & Hs1 & Hr1). rewrite E in Hn |- *.
    destruct (IH _ Hr1 Hn) as (recs2 & E2 & Hs2 & Hr2); [by apply children_follow_with_records |].
    exists recs2. cbn in Hs2. split_and!; [done | congruence | done].
Qed.

(** ** The refresh and the search agree *)

(** A live record with a chain of live ancestors up to a root. *)
Inductive live_rooted (recs : list CompactRecord) : Z -> Prop :=
| live_root i rec : zget recs i = Some rec -> live rec = true -> parent_idx rec = U32_MAX -> live_rooted recs i
| live_kid i rec : zget recs i = Some rec -> live rec = true -> 0 <= parent_idx rec < zlen recs ->
    live_rooted recs (parent_idx rec) -> live_rooted recs i.

Lemma live_rooted_rooted recs i : live_rooted recs i -> rooted recs i.
Proof.
  induction 1 as [i rec Hr Hl Hp | i rec Hr Hl Hp _ IH].
  - constructor. apply elem_of_indices_where. exists rec. by rewrite Hp, Z.eqb_refl.
  - eapply reach_kid; [exact IH |]. unfold kids_of.
    replace ((0 <=? parent_idx rec) && (parent_idx rec <? zlen recs)) with true by lia.
    apply elem_of_indices_where. exists rec. by rewrite Z.eqb_refl.
Qed.

Lemma agree_on_live_rooted drive recs' full :
  refreshable (with_records drive recs') [] -> map strip recs' = map strip (records drive) ->
  map strip full = map strip (records drive) ->
  (forall x, rooted (records drive) x -> path_consistent full (names drive) x) ->
  forall i, live_rooted (records drive) i -> path_at recs' i = path_at full i.
Proof.
  intros [_ _ _ _ Hp _ Hx] Hs' Hsf Hfull i Hi. cbn in Hp.
  assert (Hsame : forall i rec, zget (records drive) i = Some rec -> live rec = true -> rooted (records drive) i ->
    (parent_idx rec <> U32_MAX -> path_at recs' (parent_idx rec) = path_at full (parent_idx rec)) ->
    path_at recs' i = path_at full i).
  { intros j rec Hr Hl Hroot Hpar.
    destruct (strip_zget _ _ _ _ (eq_sym Hs') Hr) as (r' & Hr' & E').
    destruct (strip_zget _ _ _ _ (eq_sym Hsf) Hr) as (rf & Hrf & Ef).
    unfold path_at at 1 2. rewrite Hr', Hrf. cbn. f_equal. rewrite (Hfull j Hroot rf Hrf).
    rewrite (path_len_from_parent_strip recs' full _ j r'); [| congruence | done |].
    - assert (E : path_len r' = path_len_from_parent recs' (names drive) j).
      { apply (Hx j); [apply not_elem_of_nil | done |]. by rewrite <- (strip_live _ _ E'). }
      assert (path_len r' <= U16_MAX) by (apply Hp; by eapply zget_elem).
      unfold len_to_u16. rewrite <- E. by replace (path_len r' <=? U16_MAX) with true by lia.
    - rewrite <- (strip_parent _ _ E'). intros Hm. symmetry. by apply Hpar. }
  induction Hi as [i rec Hr Hl Hm | i rec Hr Hl Hr' Hi IH].
  - apply (Hsame i rec); [done | done | | done]. apply live_rooted_rooted. by econstructor.
  - apply (Hsame i rec); [done | done | | done]. apply live_rooted_rooted. by eapply live_kid.
Qed.

(** C24: after a batch's record changes, refreshing only the changed records and the subtrees
    of renamed directories terminates, changes nothing but path lengths, and gives every record
    whose parents up to the top are all live ([live_rooted]) the path length the full
    breadth-first search would give it, when the lengths of the records not to be refreshed were
    right, no length is clamped on the way, the parent links have no cycle, and every child of a change that does not walk its subtree is itself changed
    later in the batch ([children_follow]).  A live record below a deleted directory is not
    covered: the two may differ there. *)
Theorem incremental_refresh_equals_full drive changed :
  refreshable drive (map pc_idx changed) -> no_clamp drive changed -> children_follow drive changed ->
  exists drive' full, update_path_lengths_incremental drive changed = Some drive' /\
    compute_path_lengths (records drive) (names drive) = Some full /\
    map strip (records drive') = map strip (records drive) /\
    forall i, live_rooted (records drive) i -> path_at (records drive') i = path_at full i.
Proof.
  intros Hr Hn Hk. destruct (refresh_all drive changed Hr Hn Hk) as (recs' & E & Hs & Hr').
  destruct (compute_path_lengths_spec (records drive) (names drive)) as (full & Ef & Hsf & Hc & _);
    [apply Hr | apply Hr |].
  exists (with_records drive recs'), full. split_and!; [done.. |]. by apply agree_on_live_rooted.
Qed.

End refresh.

(** [/d/a.txt], with the directory's path length still that of its old name, and a record
    whose parent is not reached. *)
Definition renamed_names : list Z := [46; 100; 97; 46; 116; 120; 116].
Definition renamed_records : list CompactRecord :=
  [with_path_len (record_at U32_MAX 0 0 1) 4; with_path_len (record_at 0 0 1 1) 9; with_path_len (record_at 1 0 2 5) 15].
Definition renamed_drive : DriveCompactIndex :=
  compact_base (@rev _) (bare_drive renamed_records renamed_names [] None []).

Lemma compute_path_lengths_exact_witness :
  exists recs', compute_path_lengths renamed_records renamed_names = Some recs' /\ map path_len recs' = [4; 6; 12].
Proof.
  destruct (compute_path_lengths_exact renamed_records renamed_names) as (recs' & E & _).
  - reflexivity.
  - intros rec Hr. unfold renamed_records in Hr. each_elem Hr; vm_compute; split; intros H; discriminate H.
  - exists recs'. split; [exact E |]. vm_compute in E. injection E as <-. reflexivity.
Defined.

Lemma renamed_refreshable : refreshable (@rev _) renamed_records renamed_names renamed_drive [1].
Proof.
  assert (Hu : names_u16 renamed_records).
  { intros rec Hr. unfold renamed_records in Hr. each_elem Hr; vm_compute; split; intros H; discriminate H. }
  assert (Hk : forall p i, i ∈ dkids renamed_drive p -> 0 <= p < i).
  { intros p i (Hp & rec & Hr & [Hf _]%andb_true_iff)%elem_of_dkids. change (zlen (records renamed_drive)) with 3 in Hp.
    pose proof Hr as [Hi _]%zget_Some. change (zlen (records renamed_drive)) with 3 in Hi.
    assert (i = 0 \/ i = 1 \/ i = 2) as [-> | [-> | ->]] by lia; injection Hr as <-;
      apply Z.eqb_eq in Hf; vm_compute in Hf; lia. }
  split; [| done | | done | | |].
  - apply compact_base_ok; [by split |]. intros rec Hr. cbn in Hr. unfold renamed_records in Hr.
    each_elem Hr; vm_compute; auto; right; split; done.
  - exists id. intros p i Hi. specialize (Hk p i Hi). unfold id. lia.
  - intros rec Hr. cbn in Hr. unfold renamed_records in Hr. each_elem Hr; vm_compute; split; intros H; discriminate H.
  - intros i _ Hi. specialize (Hk i i Hi). lia.
  - intros i Hi rec Hr _. pose proof Hr as [Hrng _]%zget_Some. change (zlen (records renamed_drive)) with 3 in Hrng.
    assert (i <> 1) by (intros ->; apply Hi; left).
    assert (i = 0 \/ i = 2) as [-> | ->] by lia; injection Hr as <-; reflexivity.
Qed.

Lemma incremental_refresh_equals_full_witness :
  exists drive' full, update_path_lengths_incremental renamed_drive [mkPathChange 1 true] = Some drive' /\
    compute_path_lengths renamed_records renamed_names = Some full /\
    map path_len (records drive') = map path_len full.
Proof.
  destruct (incremental_refresh_equals_full (@rev _) renamed_records renamed_names renamed_drive [mkPathChange 1 true])
    as (drive' & full & E1 & E2 & _).
  - apply renamed_refreshable.
  - split; [|by destruct (refresh_one _ _)]. intros rec Hr. injection Hr as <-. split; [done |]. intros _ x xrec _ Hx.
    apply zget_elem in Hx. cbn in Hx. unfold renamed_records in Hx.
    each_elem Hx; vm_compute; split; intros H; discriminate H.
  - split; [done |]. done.
  - exists drive', full. split; [exact E1 |]. split; [exact E2 |].
    vm_compute in E1, E2. injection E1 as <-. injection E2 as <-. reflexivity.
Defined.

