(* ===== verification/UsnBatch.v ===== *)
(** A journal batch: aggregation of USN records into net changes
    ([crates/uffs-mft/src/usn/mod.rs]) and the parent-first order of a batch
    ([order_parent_first] of [crates/uffs-core/src/compact_loader.rs]).

    A file name is the byte list of its string; a file record number is a 64-bit
    integer.  The hash map of changes is a finite map, so a batch is any ordering of its
    values. *)
From S2P Require Import Prelude.
From stdpp Require Import strings.
Local Open Scope Z_scope.
Local Open Scope rust_scope.

(** * Journal records *)

Definition FILE_CREATE : Z := 0x100.
Definition FILE_DELETE : Z := 0x200.
Definition RENAME_NEW_NAME : Z := 0x2000.
Definition DATA_EXTEND : Z := 0x2.
Definition DATA_TRUNCATION : Z := 0x4.
Definition BASIC_INFO_CHANGE : Z := 0x8000.

Record UsnRecord := mkUsnRecord {
  ur_frs : Z; ur_parent_frs : Z; ur_usn : Z; ur_reason : Z; ur_file_attributes : Z; ur_filename : list Z
}.

Inductive ChangeType := Created | Deleted | Renamed | SizeChanged | MetadataChanged | Other.

Definition change_type (r : UsnRecord) : ChangeType :=
  if negb (Z.land (ur_reason r) FILE_DELETE =? 0) then Deleted
  else if negb (Z.land (ur_reason r) FILE_CREATE =? 0) then Created
  else if negb (Z.land (ur_reason r) RENAME_NEW_NAME =? 0) then Renamed
  else if negb (Z.land (ur_reason r) (Z.lor DATA_EXTEND DATA_TRUNCATION) =? 0) then SizeChanged
  else if negb (Z.land (ur_reason r) BASIC_INFO_CHANGE =? 0) then MetadataChanged
  else Other.

Record RecordMeta := mkRecordMeta {
  m_size : Z; m_allocated : Z; m_created : Z; m_modified : Z; m_accessed : Z; m_flags : Z
}.

Definition meta_default : RecordMeta := mkRecordMeta 0 0 0 0 0 0.

Record FileChange := mkFileChange {
  fc_frs : Z; fc_parent_frs : Z; fc_filename : list Z;
  fc_created : bool; fc_deleted : bool; fc_renamed : bool;
  fc_size_changed : bool; fc_metadata_changed : bool; fc_meta : option RecordMeta
}.

(** [FileChange { frs, ..Default::default() }]. *)
Definition change_for (frs : Z) : FileChange :=
  mkFileChange frs 0 [] false false false false false None.

(** One turn of [aggregate_changes] on the entry of the record's file. *)
Definition note_record (e : FileChange) (r : UsnRecord) : FileChange :=
  let filename := if zlen (ur_filename r) =? 0 then fc_filename e else ur_filename r in
  let '(created, deleted, renamed, size_changed, metadata_changed) :=
    match change_type r with
    | Created => (true, false, false, fc_size_changed e, fc_metadata_changed e)
    | Deleted => (false, true, false, fc_size_changed e, fc_metadata_changed e)
    | Renamed => (fc_created e, false, true, fc_size_changed e, fc_metadata_changed e)
    | SizeChanged => (fc_created e, fc_deleted e, fc_renamed e, true, fc_metadata_changed e)
    | MetadataChanged => (fc_created e, fc_deleted e, fc_renamed e, fc_size_changed e, true)
    | Other => (fc_created e, fc_deleted e, fc_renamed e, fc_size_changed e, fc_metadata_changed e)
    end in
  mkFileChange (fc_frs e) (ur_parent_frs r) filename created deleted renamed size_changed metadata_changed (fc_meta e).

Definition aggregate_changes (recs : list UsnRecord) : gmap Z FileChange :=
  foldl (fun changes r =>
    <[ur_frs r := note_record (default (change_for (ur_frs r)) (changes !! ur_frs r)) r]> changes) ∅ recs.

(** * Parents first *)

(** Only a parent created in the batch is worth waiting for. *)
Definition waits_for_parent (batch_creates applied_creates : gset Z) (change : FileChange) : bool :=
  (fc_created change || fc_renamed change) && negb (fc_parent_frs change =? fc_frs change) &&
  bool_decide (fc_parent_frs change ∈ batch_creates) && negb (bool_decide (fc_parent_frs change ∈ applied_creates)).

(** [if change.created { applied_creates.insert(change.frs) }]. *)
Definition note_applied (applied_creates : gset Z) (change : FileChange) : gset Z :=
  if fc_created change then {[fc_frs change]} ∪ applied_creates else applied_creates.

(** The first pass: the creates seen, the emitted and the deferred changes. *)
Fixpoint first_pass (batch_creates applied_creates : gset Z) (changes : list FileChange)
  : gset Z * list FileChange * list FileChange :=
  match changes with
  | [] => (applied_creates, [], [])
  | change :: changes =>
      if waits_for_parent batch_creates applied_creates change then
        let '(a, out, deferred) := first_pass batch_creates applied_creates changes in
        (a, out, change :: deferred)
      else
        let '(a, out, deferred) := first_pass batch_creates (note_applied applied_creates change) changes in
        (a, change :: out, deferred)
  end.

(** One [deferred.retain] pass: the creates seen, the released and the kept changes. *)
Fixpoint release_pass (applied_creates : gset Z) (deferred : list FileChange)
  : gset Z * list FileChange * list FileChange :=
  match deferred with
  | [] => (applied_creates, [], [])
  | change :: deferred =>
      if bool_decide (fc_parent_frs change ∈ applied_creates) then
        let '(a, out, kept) := release_pass (note_applied applied_creates change) deferred in
        (a, change :: out, kept)
      else
        let '(a, out, kept) := release_pass applied_creates deferred in
        (a, out, change :: kept)
  end.

(** [while !deferred.is_empty()]: what the passes emit. *)
Fixpoint release_loop (fuel : nat) (applied_creates : gset Z) (deferred : list FileChange)
  : option (list FileChange) :=
  if zlen deferred =? 0 then Some [] else
  match fuel with
  | O => None
  | S fuel =>
      let before := zlen deferred in
      let '(a, out, kept) := release_pass applied_creates deferred in
      if zlen kept =? before then Some (out ++ kept) else
      let? rest := release_loop fuel a kept in
      Some (out ++ rest)
  end.

Definition batch_creates_of (changes : list FileChange) : gset Z :=
  list_to_set (map fc_frs (List.filter fc_created changes)).

Definition order_parent_first (changes : list FileChange) : option (list FileChange) :=
  let '(applied_creates, out, deferred) := first_pass (batch_creates_of changes) ∅ changes in
  let? rest := release_loop (length deferred) applied_creates deferred in
  Some (out ++ rest).

(** * Net changes *)

(** The file's records, in journal order. *)
Definition file_records (f : Z) (recs : list UsnRecord) : list UsnRecord :=
  List.filter (fun r => ur_frs r =? f) recs.

Lemma aggregate_lookup recs f :
  aggregate_changes recs !! f =
  match file_records f recs with [] => None | rs => Some (foldl note_record (change_for f) rs) end.
Proof.
  unfold aggregate_changes. induction recs as [|r recs IH] using rev_ind; [apply lookup_empty |].
  rewrite foldl_app. unfold file_records in *. rewrite List.filter_app. cbn [foldl List.filter].
  destruct (Z.eqb_spec (ur_frs r) f) as [<- | Hne].
  - rewrite lookup_insert_eq, IH. destruct (List.filter _ recs) as [|x rs]; [done |]. cbn [app].
    cbn. by rewrite foldl_app.
  - rewrite lookup_insert_ne by done. by rewrite app_nil_r.
Qed.

(** The events that settle a file's net state. *)
Definition is_net (t : ChangeType) : bool :=
  match t with Created | Deleted | Renamed => true | _ => false end.
Definition is_birth_or_death (t : ChangeType) : bool :=
  match t with Created | Deleted => true | _ => false end.

Definition types (rs : list UsnRecord) : list ChangeType := map change_type rs.
Definition last_net (rs : list UsnRecord) : option ChangeType := last (List.filter is_net (types rs)).
Definition last_birth_or_death (rs : list UsnRecord) : option ChangeType :=
  last (List.filter is_birth_or_death (types rs)).
Definition last_name (rs : list UsnRecord) : option (list Z) :=
  last (List.filter (fun name => negb (zlen name =? 0)) (map ur_filename rs)).

Lemma last_filter_snoc {A} (f : A -> bool) l x :
  last (List.filter f (l ++ [x])) = if f x then Some x else last (List.filter f l).
Proof. rewrite List.filter_app. cbn. destruct (f x); [apply last_snoc | by rewrite app_nil_r]. Qed.

(** The entry [c] is the net of the records [rs]. *)
Record net_change (f : Z) (rs : list UsnRecord) (c : FileChange) : Prop := {
  nc_frs : fc_frs c = f;
  nc_parent : fc_parent_frs c = default 0 (last (map ur_parent_frs rs));
  nc_name : fc_filename c = default [] (last_name rs);
  nc_deleted : fc_deleted c = true <-> last_net rs = Some Deleted;
  nc_renamed : fc_renamed c = true <-> last_net rs = Some Renamed;
  nc_created : fc_created c = true <-> last_birth_or_death rs = Some Created;
  nc_size : fc_size_changed c = true <-> SizeChanged ∈ types rs;
  nc_metadata : fc_metadata_changed c = true <-> MetadataChanged ∈ types rs;
  nc_meta : fc_meta c = None
}.

Lemma fold_net_change f rs : net_change f rs (foldl note_record (change_for f) rs).
Proof.
  induction rs as [|r rs [H1 H2 H3 H4 H5 H6 H7 H8 H9]] using rev_ind.
  - by split; cbn; rewrite ?elem_of_nil.
  - rewrite foldl_snoc. set (e := foldl _ _ rs) in *. unfold note_record.
    split; unfold last_net, last_birth_or_death, last_name, types in *;
      rewrite ?map_app, ?last_filter_snoc, ?elem_of_app; cbn [map];
      rewrite ?last_filter_snoc, ?last_snoc, ?list_elem_of_singleton; destruct (change_type r); cbn;
      try (destruct (zlen (ur_filename r) =? 0); cbn); intuition (done || congruence).
Qed.

(** Aggregation keeps one change per file that has records, keyed and numbered by
    the file; its parent is the last record's and its name the last non-empty one; it is
    deleted (renamed) exactly when the last create, delete or rename of the file is a
    delete (a rename), created exactly when its last create or delete is a create, and
    its size and metadata flags say whether any record was of that type. *)
Theorem aggregate_changes_net recs f :
  match file_records f recs with
  | [] => aggregate_changes recs !! f = None
  | rs => exists c, aggregate_changes recs !! f = Some c /\ net_change f rs c
  end.
Proof.
  rewrite aggregate_lookup. destruct (file_records f recs) as [|r rs]; [done |].
  eexists. split; [done | apply fold_net_change].
Qed.

(** The batch handed on: the map's values, in any order, have distinct file numbers. *)
Lemma aggregate_frs recs f c : aggregate_changes recs !! f = Some c -> fc_frs c = f.
Proof.
  rewrite aggregate_lookup. destruct (file_records f recs) as [|r rs]; [done |]. intros [= <-].
  apply (nc_frs _ (r :: rs)), fold_net_change.
Qed.

Lemma aggregate_batch recs changes :
  changes ≡ₚ (map_to_list (aggregate_changes recs)).*2 -> NoDup (map fc_frs changes).
Proof.
  intros ->. replace (map fc_frs _) with ((map_to_list (aggregate_changes recs)).*1); [apply NoDup_fst_map_to_list |].
  change (map fc_frs ?l) with (fc_frs <$> l). rewrite <- list_fmap_compose. apply list_fmap_ext.
  intros i [f c] Hc. cbn. symmetry. eapply aggregate_frs, elem_of_map_to_list, list_elem_of_lookup_2, Hc.
Qed.

(** * The order of a batch *)

(** The change must wait when its parent's create has not been emitted yet. *)
Definition dependent (bc : gset Z) (c : FileChange) : bool :=
  (fc_created c || fc_renamed c) && negb (fc_parent_frs c =? fc_frs c) && bool_decide (fc_parent_frs c ∈ bc).

Fixpoint ordered (bc a : gset Z) (out : list FileChange) : Prop :=
  match out with
  | [] => True
  | c :: out => (dependent bc c = true -> fc_parent_frs c ∈ a) /\ ordered bc (note_applied a c) out
  end.

Lemma ordered_app bc a out1 out2 :
  ordered bc a (out1 ++ out2) <-> ordered bc a out1 /\ ordered bc (foldl note_applied a out1) out2.
Proof. revert a. induction out1 as [|c out1 IH]; intros a; cbn; [tauto |]. rewrite IH. tauto. Qed.

Lemma elem_of_applied a out f :
  f ∈ foldl note_applied a out <-> f ∈ a \/ exists c, c ∈ out /\ fc_created c = true /\ fc_frs c = f.
Proof.
  revert a. induction out as [|c out IH]; intros a; cbn.
  - split; [by left | intros [? | (? & H%not_elem_of_nil & _)]; done].
  - rewrite IH. unfold note_applied. setoid_rewrite elem_of_cons. destruct (fc_created c) eqn:E.
    + rewrite elem_of_union, elem_of_singleton. split.
      * intros [[-> | ?] | (x & ? & ?)]; [right; exists c; auto | by left | right; exists x; auto].
      * intros [? | (x & [-> | ?] & ? & <-)]; [by left; right | by left; left | right; exists x; auto].
    + split; [intros [? | (x & ? & ?)]; [by left | right; exists x; auto] |].
      intros [? | (x & [-> | ?] & ? & ?)]; [by left | congruence | right; exists x; auto].
Qed.

Lemma first_pass_spec bc a changes :
  let '(a', out, deferred) := first_pass bc a changes in
  out ++ deferred ≡ₚ changes /\ a' = foldl note_applied a out /\ ordered bc a out /\
  Forall (fun c => dependent bc c = true) deferred.
Proof.
  revert a. induction changes as [|c changes IH]; intros a; cbn; [done |].
  unfold waits_for_parent. fold (dependent bc c). destruct (_ && _) eqn:E.
  - specialize (IH a). destruct (first_pass bc a changes) as [[a' out] deferred].
    destruct IH as (H1 & H2 & H3 & H4). apply andb_true_iff in E as [E _].
    split_and!; [by rewrite <- Permutation_middle, H1 | done | done | by constructor].
  - specialize (IH (note_applied a c)). destruct (first_pass bc _ changes) as [[a' out] deferred].
    destruct IH as (H1 & H2 & H3 & H4). split_and!; [cbn; by rewrite H1 | done | | done].
    cbn. split; [|done]. intros Hd. rewrite Hd in E. cbn in E. apply negb_false_iff in E.
    by apply bool_decide_eq_true in E.
Qed.

Lemma release_pass_spec bc a deferred :
  let '(a', out, kept) := release_pass a deferred in
  out ++ kept ≡ₚ deferred /\ a' = foldl note_applied a out /\ ordered bc a out /\
  (out = [] -> kept = deferred /\ Forall (fun c => ~ fc_parent_frs c ∈ a) kept).
Proof.
  revert a. induction deferred as [|c deferred IH]; intros a; cbn; [done |].
  case_bool_decide as E.
  - specialize (IH (note_applied a c)). destruct (release_pass _ deferred) as [[a' out] kept].
    destruct IH as (H1 & H2 & H3 & H4). split_and!; [cbn; by rewrite H1 | done | by cbn | done].
  - specialize (IH a). destruct (release_pass _ deferred) as [[a' out] kept].
    destruct IH as (H1 & H2 & H3 & H4). split_and!; [by rewrite <- Permutation_middle, H1 | done | done |].
    intros Ho. destruct (H4 Ho) as [-> ?]. split; [done | by constructor].
Qed.

(** The dependencies among the creates of the batch have no cycle. *)
Definition grounded (bc : gset Z) (rank : Z -> nat) (changes : list FileChange) : Prop :=
  forall c, c ∈ changes -> fc_created c = true -> dependent bc c = true -> (rank (fc_parent_frs c) < rank (fc_frs c))%nat.

(** A pass over a non-empty list of grounded dependents, some of which create whatever
    has not been applied, releases something. *)
Lemma release_progress (bc : gset Z) rank (a : gset Z) deferred :
  grounded bc rank deferred -> Forall (fun c => dependent bc c = true) deferred ->
  (forall f, f ∈ bc -> f ∈ a \/ exists p, p ∈ deferred /\ fc_created p = true /\ fc_frs p = f) ->
  Forall (fun c => ~ fc_parent_frs c ∈ a) deferred -> deferred = [].
Proof.
  intros Hg Hd Hbc Hk. rewrite Forall_forall in Hd, Hk.
  assert (Hup : forall c, c ∈ deferred -> exists p, p ∈ deferred /\ fc_created p = true /\ fc_frs p = fc_parent_frs c).
  { intros c Hc. pose proof (Hd c Hc) as Hdc. unfold dependent in Hdc.
    apply andb_true_iff in Hdc as [_ Hpb%bool_decide_eq_true].
    destruct (Hbc _ Hpb) as [Ha | Hp]; [exfalso; by eapply Hk | done]. }
  assert (H : forall n c, c ∈ deferred -> fc_created c = true -> (rank (fc_frs c) < n)%nat -> False).
  { induction n as [|n IH]; intros c Hc Hcr Hn; [lia |].
    pose proof (Hg c Hc Hcr (Hd c Hc)) as Hr. destruct (Hup c Hc) as (p & Hp & Hpc & Ep).
    apply (IH p Hp Hpc). rewrite Ep. lia. }
  destruct deferred as [|c0 deferred]; [done | exfalso].
  destruct (Hup c0) as (p & Hp & Hpc & _); [left |]. apply (H (S (rank (fc_frs p))) p Hp Hpc). lia.
Qed.

Lemma release_loop_spec (bc : gset Z) fuel (a : gset Z) deferred :
  (length deferred <= fuel)%nat -> Forall (fun c => dependent bc c = true) deferred ->
  exists out, release_loop fuel a deferred = Some out /\ out ≡ₚ deferred /\
    forall rank, grounded bc rank deferred ->
      (forall f, f ∈ bc -> f ∈ a \/ exists p, p ∈ deferred /\ fc_created p = true /\ fc_frs p = f) ->
      ordered bc a out.
Proof.
  revert a deferred. induction fuel as [|fuel IH]; intros a deferred Hf Hd; cbn;
    (destruct (Z.eqb_spec (zlen deferred) 0) as [E0%zlen_0 | E0]; [subst; by exists [] |]).
  - destruct deferred; [done | cbn in Hf; lia].
  - pose proof (release_pass_spec bc a deferred) as Hs.
    destruct (release_pass a deferred) as [[a' out] kept]. destruct Hs as (H1 & H2 & H3 & H4).
    pose proof (Permutation_length H1) as Hlen. rewrite length_app in Hlen.
    destruct (Z.eqb_spec (zlen kept) (zlen deferred)) as [E | E]; unfold zlen in E.
    + assert (out = []) as -> by (destruct out; [done | cbn in Hlen; lia]).
      destruct (H4 eq_refl) as [-> Hk]. exists deferred. split_and!; [done | done |].
      intros rank Hg Hbc. by rewrite (release_progress bc rank a deferred).
    + assert (Hdk : Forall (fun c => dependent bc c = true) kept).
      { rewrite <- H1 in Hd. by apply Forall_app in Hd as [_ ?]. }
      destruct (IH a' kept) as (rest & -> & Hp & Ho); [lia | done |].
      exists (out ++ rest). split_and!; [done | by rewrite Hp |].
      intros rank Hg Hbc. apply ordered_app. rewrite <- H2. split; [done |]. apply (Ho rank).
      * intros c Hc. apply Hg. rewrite <- H1. set_solver.
      * intros f Hfb. rewrite H2, elem_of_applied. destruct (Hbc f Hfb) as [? | (p & Hp' & Hc & Ef)]; [tauto |].
        rewrite <- H1 in Hp'. apply elem_of_app in Hp' as [? | ?]; [left; right | right]; eauto.
Qed.

Lemma elem_of_batch_creates changes f :
  f ∈ batch_creates_of changes <-> exists p, p ∈ changes /\ fc_created p = true /\ fc_frs p = f.
Proof.
  unfold batch_creates_of. rewrite elem_of_list_to_set, list_elem_of_fmap. split.
  - intros (p & -> & [Hp Hc]%elem_of_filterb). eauto.
  - intros (p & Hp & Hc & <-). exists p. by rewrite elem_of_filterb.
Qed.

(** Every dependent change comes after its parent's create. *)
Definition parent_first (bc : gset Z) (out : list FileChange) : Prop :=
  forall pre c post, out = pre ++ c :: post -> dependent bc c = true ->
    exists p, p ∈ pre /\ fc_created p = true /\ fc_frs p = fc_parent_frs c.

Lemma ordered_parent_first bc out : ordered bc ∅ out -> parent_first bc out.
Proof.
  intros Ho pre c post -> Hd. apply ordered_app in Ho as [_ [H _]].
  specialize (H Hd). apply elem_of_applied in H as [? | ?]; [set_solver | done].
Qed.

Lemma order_parent_first_spec changes :
  exists out, order_parent_first changes = Some out /\ out ≡ₚ changes /\
    forall rank, grounded (batch_creates_of changes) rank changes -> parent_first (batch_creates_of changes) out.
Proof.
  unfold order_parent_first. set (bc := batch_creates_of changes).
  pose proof (first_pass_spec bc ∅ changes) as Hs. destruct (first_pass bc ∅ changes) as [[a out] deferred].
  destruct Hs as (H1 & H2 & H3 & H4).
  destruct (release_loop_spec bc (length deferred) a deferred) as (rest & -> & Hp & Ho); [done | done |].
  exists (out ++ rest). split_and!; [done | by rewrite Hp |].
  intros rank Hg. apply ordered_parent_first, ordered_app. rewrite <- H2. split; [done |]. apply (Ho rank).
  - intros c Hc. apply Hg. rewrite <- H1. set_solver.
  - intros f (p & Hp' & Hc & Ef)%elem_of_batch_creates. rewrite H2, elem_of_applied.
    rewrite <- H1 in Hp'. apply elem_of_app in Hp' as [? | ?]; [left; right | right]; eauto.
Qed.

(** C26: ordering a batch terminates and reorders it without losing or duplicating a
    change; when the dependencies among its creates have no cycle, every created or renamed change
    whose parent is created in the batch comes after that create, at any depth. *)
Theorem order_parent_first_exact changes :
  exists out, order_parent_first changes = Some out /\ out ≡ₚ changes /\
    forall rank, grounded (batch_creates_of changes) rank changes -> parent_first (batch_creates_of changes) out.
Proof. apply order_parent_first_spec. Qed.

(** An archive unpacked in one window: [a/b/f] arrives innermost first. *)
Definition unzip_change (frs parent : Z) : FileChange :=
  mkFileChange frs parent [97] true false false false false None.
Definition unzip : list FileChange := [unzip_change 12 11; unzip_change 11 10; unzip_change 10 5].

Lemma order_parent_first_exact_witness :
  order_parent_first unzip = Some (rev unzip) /\
  exists out, order_parent_first unzip = Some out /\ parent_first (batch_creates_of unzip) out.
Proof.
  split; [vm_compute; reflexivity |].
  destruct (order_parent_first_exact unzip) as (out & E & _ & H). exists out. split; [exact E |].
  apply (H Z.to_nat). intros c Hc _ _. unfold unzip in Hc. each_elem Hc; vm_compute; lia.
Defined.
