(* ===== verification/UsnPatch.v ===== *)
(** The journal patch of a loaded drive ([crates/uffs-core/src/compact_loader.rs],
    [compact_loader/apply.rs] and [compact_loader/rebuild.rs]).

    The patch is a fold over the ordered batch of a state that carries the drive, the
    statistics and the two change sets, followed by the overlay of the batch and the
    refresh of path lengths. *)
From S2P Require Import Prelude CsrIndex TrigramIndex IndexDelta Bloom CompactIndex PathLen UsnBatch.
From stdpp Require Import strings.
Local Open Scope Z_scope.
Local Open Scope rust_scope.

(** * Per-change mutation *)

Record PatchStats := mkPatchStats { st_deleted : Z; st_created : Z; st_renamed : Z; st_skipped : Z }.

Definition stats_default : PatchStats := mkPatchStats 0 0 0 0.

Definition inc_deleted (s : PatchStats) := mkPatchStats (st_deleted s + 1) (st_created s) (st_renamed s) (st_skipped s).
Definition inc_created (s : PatchStats) := mkPatchStats (st_deleted s) (st_created s + 1) (st_renamed s) (st_skipped s).
Definition inc_renamed (s : PatchStats) := mkPatchStats (st_deleted s) (st_created s) (st_renamed s + 1) (st_skipped s).
Definition inc_skipped (s : PatchStats) := mkPatchStats (st_deleted s) (st_created s) (st_renamed s) (st_skipped s + 1).

(** The loop's state. *)
Record Patch := mkPatch {
  p_drive : DriveCompactIndex; p_stats : PatchStats; p_path_changes : list PathChange; p_tombstones : list Z
}.

Definition FRS_MASK : Z := 0x0000FFFFFFFFFFFF.
Definition pack_file_reference (frs seq : Z) : Z := Z.lor (Z.land frs FRS_MASK) (Z.shiftl seq 48).

Definition DIRECTORY_BIT : Z := 0x10.
Definition is_directory (rec : CompactRecord) : bool := negb (Z.land (flags rec) DIRECTORY_BIT =? 0).

(** The drive with the columns a change writes. *)
Definition with_columns (drive : DriveCompactIndex) (recs : list CompactRecord) (ns : list Z)
    (exts : list (list Z)) (frs_map : list Z) : DriveCompactIndex :=
  mkDriveCompactIndex recs ns (trigram drive) (children drive) (ext_index drive) (fold drive)
    exts (bloom drive) frs_map (delta drive).

Definition lookup_frs (drive : DriveCompactIndex) (frs : Z) : Z :=
  default U32_MAX (zget (frs_to_compact drive) frs).

Record StagedCreate := mkStagedCreate {
  s_name_offset : Z; s_name_len : Z; s_name_first_byte : Z; s_extension_id : Z; s_parent_idx : Z; s_meta : RecordMeta
}.

Section patch.
Context (schedule : list (Z * Z) -> list (Z * Z)) (to_lowercase : list Z -> list Z).

Definition stage_create (drive : DriveCompactIndex) (change : FileChange) : DriveCompactIndex * StagedCreate :=
  let '(exts, extension_id) := intern_extension to_lowercase (ext_names drive) (fc_filename change) in
  let name_start := zlen (names drive) in
  let drive' := with_columns drive (records drive) (names drive ++ fc_filename change) exts (frs_to_compact drive) in
  (drive', mkStagedCreate (len_to_u32 name_start) (len_to_u16 (zlen (fc_filename change)))
    (default 0 (head (fc_filename change))) extension_id (lookup_frs drive' (fc_parent_frs change))
    (default meta_default (fc_meta change))).

Definition overwrite_slot (staged : StagedCreate) (rec : CompactRecord) : CompactRecord :=
  let m := s_meta staged in
  mkCompactRecord (m_size m) (m_allocated m) 0 0 (m_created m) (m_modified m) (m_accessed m) (file_ref rec)
    (s_name_offset staged) (m_flags m) (s_parent_idx staged) 0 (s_name_len staged) (s_extension_id staged)
    0 (s_name_first_byte staged).

Definition appended_record (staged : StagedCreate) (frs : Z) : CompactRecord :=
  let m := s_meta staged in
  mkCompactRecord (m_size m) (m_allocated m) 0 0 (m_created m) (m_modified m) (m_accessed m)
    (pack_file_reference frs 0) (s_name_offset staged) (m_flags m) (s_parent_idx staged) 0
    (s_name_len staged) (s_extension_id staged) 0 (s_name_first_byte staged).

(** [name_len = 0; parent_idx = u32::MAX]. *)
Definition deleted_record (rec : CompactRecord) : CompactRecord :=
  mkCompactRecord (CsrIndex.size rec) (allocated rec) (treesize rec) (tree_allocated rec) (created rec)
    (modified rec) (accessed rec) (file_ref rec) (name_offset rec) (flags rec) U32_MAX
    (descendants rec) 0 (extension_id rec) (path_len rec) (name_first_byte rec).

Definition apply_delete (p : Patch) (frs compact_idx : Z) : Patch :=
  if compact_idx =? U32_MAX
  then mkPatch (p_drive p) (inc_skipped (p_stats p)) (p_path_changes p) (p_tombstones p) else
  let drive := p_drive p in
  match zget (records drive) compact_idx with
  | None => p
  | Some rec =>
      let recs := zset (records drive) compact_idx (deleted_record rec) in
      let frs_map := zset (frs_to_compact drive) frs U32_MAX in
      mkPatch (with_columns drive recs (names drive) (ext_names drive) frs_map)
        (inc_deleted (p_stats p)) (p_path_changes p) (p_tombstones p ++ [compact_idx])
  end.

(** [resize(needed, u32::MAX)] when the number is past the table. *)
Definition extend_frs (frs_map : list Z) (frs : Z) : list Z :=
  if zlen frs_map <=? frs
  then let needed := saturating_add_u64 frs 1 in frs_map ++ zrepeat U32_MAX (needed - zlen frs_map)
  else frs_map.

Definition apply_create (p : Patch) (change : FileChange) (compact_idx : Z) : Patch :=
  if zlen (fc_filename change) =? 0
  then mkPatch (p_drive p) (inc_skipped (p_stats p)) (p_path_changes p) (p_tombstones p) else
  let '(drive, staged) := stage_create (p_drive p) change in
  if compact_idx =? U32_MAX then
    let new_compact_idx := len_to_u32 (zlen (records drive)) in
    let recs := records drive ++ [appended_record staged (fc_frs change)] in
    let frs_map := zset (extend_frs (frs_to_compact drive) (fc_frs change)) (fc_frs change) new_compact_idx in
    mkPatch (with_columns drive recs (names drive) (ext_names drive) frs_map)
      (inc_created (p_stats p)) (p_path_changes p ++ [mkPathChange new_compact_idx false]) (p_tombstones p)
  else
    match zget (records drive) compact_idx with
    | None => mkPatch drive (p_stats p) (p_path_changes p) (p_tombstones p)
    | Some rec =>
        let recs := zset (records drive) compact_idx (overwrite_slot staged rec) in
        mkPatch (with_columns drive recs (names drive) (ext_names drive) (frs_to_compact drive))
          (inc_created (p_stats p)) (p_path_changes p ++ [mkPathChange compact_idx false])
          (p_tombstones p ++ [compact_idx])
    end.

Definition renamed_record (rec : CompactRecord) (name_offset name_len extension_id first_byte parent : Z)
    (meta : option RecordMeta) : CompactRecord :=
  let keep {A} (f : RecordMeta -> A) (old : A) := match meta with Some m => f m | None => old end in
  mkCompactRecord (keep m_size (CsrIndex.size rec)) (keep m_allocated (allocated rec)) (treesize rec)
    (tree_allocated rec) (keep m_created (created rec)) (keep m_modified (modified rec))
    (keep m_accessed (accessed rec)) (file_ref rec) name_offset (keep m_flags (flags rec)) parent
    (descendants rec) name_len extension_id (path_len rec) first_byte.

Definition apply_rename (p : Patch) (change : FileChange) (compact_idx : Z) : Patch :=
  if (compact_idx =? U32_MAX) || (zlen (fc_filename change) =? 0)
  then mkPatch (p_drive p) (inc_skipped (p_stats p)) (p_path_changes p) (p_tombstones p) else
  let drive := p_drive p in
  let '(exts, extension_id) := intern_extension to_lowercase (ext_names drive) (fc_filename change) in
  let name_start := zlen (names drive) in
  let ns := names drive ++ fc_filename change in
  let new_parent_compact := lookup_frs drive (fc_parent_frs change) in
  let drive := with_columns drive (records drive) ns exts (frs_to_compact drive) in
  match zget (records drive) compact_idx with
  | None => mkPatch drive (p_stats p) (p_path_changes p) (p_tombstones p)
  | Some rec =>
      let rec' := renamed_record rec (len_to_u32 name_start) (len_to_u16 (zlen (fc_filename change)))
        extension_id (default 0 (head (fc_filename change))) new_parent_compact (fc_meta change) in
      mkPatch (with_columns drive (zset (records drive) compact_idx rec') ns exts (frs_to_compact drive))
        (inc_renamed (p_stats p)) (p_path_changes p ++ [mkPathChange compact_idx (is_directory rec')])
        (p_tombstones p ++ [compact_idx])
  end.

(** * The patch *)

Definition apply_change (p : Patch) (change : FileChange) : Patch :=
  let compact_idx := lookup_frs (p_drive p) (fc_frs change) in
  if fc_deleted change then apply_delete p (fc_frs change) compact_idx
  else if fc_created change then apply_create p change compact_idx
  else if fc_renamed change then apply_rename p change compact_idx
  else mkPatch (p_drive p) (inc_skipped (p_stats p)) (p_path_changes p) (p_tombstones p).

Definition FULL_PATH_RECOMPUTE_THRESHOLD : Z := 50000.

Definition rebuild_derived (drive : DriveCompactIndex) (path_changes : list PathChange) (tombs : list Z)
  : option (DriveCompactIndex * bool) :=
  let '(drive, compacted) := apply_index_delta schedule drive path_changes tombs in
  let? drive :=
    if FULL_PATH_RECOMPUTE_THRESHOLD <? zlen path_changes then
      let? recs := compute_path_lengths (records drive) (names drive) in Some (with_records drive recs)
    else update_path_lengths_incremental drive path_changes in
  Some (drive, compacted).

Definition patch_start (drive : DriveCompactIndex) : Patch := mkPatch drive stats_default [] [].

Definition apply_usn_patch (drive : DriveCompactIndex) (changes : list FileChange)
  : option (DriveCompactIndex * PatchStats) :=
  let? ordered := order_parent_first changes in
  let p := foldl apply_change (patch_start drive) ordered in
  let? (drive, _) := rebuild_derived (p_drive p) (p_path_changes p) (p_tombstones p) in
  Some (drive, p_stats p).

(** The drive after the fold over the ordered batch. *)
Definition patched_state (drive : DriveCompactIndex) (changes : list FileChange) : option Patch :=
  let? ordered := order_parent_first changes in
  Some (foldl apply_change (patch_start drive) ordered).

(** * The invariant of a drive *)

(** Parents and mapped slots are in range, and live names are inside the name bytes. *)
Record drive_wf (drive : DriveCompactIndex) : Prop := {
  wf_parents : parents_ok (records drive);
  wf_u16 : names_u16 (records drive);
  wf_names : forall rec, rec ∈ records drive -> live rec = true ->
    name_offset rec + name_len rec <= zlen (names drive);
  wf_frs : forall f i, zget (frs_to_compact drive) f = Some i -> i = U32_MAX \/ 0 <= i < zlen (records drive)
}.

(** A live record was either added by the batch or is as it was before it. *)
Record patched (drive0 : DriveCompactIndex) (p : Patch) : Prop := {
  pt_wf : drive_wf (p_drive p);
  pt_frame : p_drive p = with_columns drive0 (records (p_drive p)) (names (p_drive p))
    (ext_names (p_drive p)) (frs_to_compact (p_drive p));
  pt_names : exists suffix, names (p_drive p) = names drive0 ++ suffix;
  pt_len : zlen (records drive0) <= zlen (records (p_drive p));
  pt_touched : forall i rec, zget (records (p_drive p)) i = Some rec -> live rec = true ->
    i ∈ map pc_idx (p_path_changes p) \/ zget (records drive0) i = Some rec;
  pt_adds : forall i rec, i ∈ map pc_idx (p_path_changes p) -> zget (records (p_drive p)) i = Some rec ->
    live rec = true \/ parent_idx rec = U32_MAX;
  pt_tombs : forall i rec, i ∈ p_tombstones p -> zget (records (p_drive p)) i = Some rec -> live rec = true ->
    i ∈ map pc_idx (p_path_changes p)
}.

(** [recs'] is [recs] with [rec] at [i], which may be the next index. *)
Definition slot_written (recs : list CompactRecord) (i : Z) (rec : CompactRecord) (recs' : list CompactRecord) : Prop :=
  zlen recs <= zlen recs' /\ forall j, zget recs' j = if j =? i then Some rec else zget recs j.

Lemma slot_zset recs i rec : 0 <= i < zlen recs -> slot_written recs i rec (zset recs i rec).
Proof.
  intros Hi. split; [by rewrite zlen_zset |]. intros j. destruct (Z.eqb_spec j i) as [-> |].
  - by apply zget_zset_eq.
  - by apply zget_zset_ne.
Qed.

Lemma slot_append recs rec : slot_written recs (zlen recs) rec (recs ++ [rec]).
Proof.
  split; [rewrite zlen_app; pose proof (zlen_nonneg [rec]); lia |]. intros j.
  destruct (Z.eqb_spec j (zlen recs)) as [-> |].
  - pose proof (zlen_nonneg recs). rewrite zget_app_r, Z.sub_diag by lia. done.
  - unfold zget. rewrite zlen_app. change (zlen [rec]) with 1.
    destruct (Z.leb_spec 0 j), (Z.ltb_spec j (zlen recs)), (Z.ltb_spec j (zlen recs + 1)); cbn; try lia; try done.
    rewrite lookup_app_l; [done |]. unfold zlen in *. lia.
Qed.

(** What a change writes: a slot, appended name bytes, an extension table, a mapping. *)
Lemma patched_write drive0 p i rec recs' suffix exts frs st adds tombs :
  patched drive0 p -> slot_written (records (p_drive p)) i rec recs' ->
  parent_idx rec = U32_MAX \/ 0 <= parent_idx rec < zlen (records (p_drive p)) ->
  0 <= name_len rec <= U16_MAX ->
  (live rec = true -> name_offset rec + name_len rec <= zlen (names (p_drive p) ++ suffix)) ->
  (forall f k, zget frs f = Some k -> k = U32_MAX \/ 0 <= k < zlen recs') ->
  (live rec = true /\ map pc_idx adds = [i]) \/ (live rec = false /\ parent_idx rec = U32_MAX /\ adds = []) ->
  tombs = [i] \/ tombs = [] ->
  patched drive0 (mkPatch (with_columns (p_drive p) recs' (names (p_drive p) ++ suffix) exts frs) st
    (p_path_changes p ++ adds) (p_tombstones p ++ tombs)).
Proof.
  intros [[W1 W2 W3 W4] Hf [s0 Hn] Hl Ht Ha Hb] [Hz Hg] Hp Hu Hr Hfrs Hadd Htomb.
  assert (Hin : forall x, x ∈ recs' -> x = rec \/ x ∈ records (p_drive p)).
  { intros x (j & Hj)%elem_zget. rewrite Hg in Hj. destruct (j =? i); [left; congruence | right; by eapply zget_elem]. }
  pose proof (zlen_nonneg suffix) as Hsuf.
  split; cbn [p_drive p_path_changes p_tombstones records names ext_names frs_to_compact with_columns].
  - split; cbn [records names frs_to_compact with_columns]; [| | | done].
    + intros x [-> | Hx]%Hin; [lia |]. destruct (W1 x Hx); [by left | right; lia].
    + intros x [-> | Hx]%Hin; auto.
    + intros x [-> | Hx]%Hin; [done |]. intros Hlv. specialize (W3 x Hx Hlv). rewrite zlen_app. lia.
  - by rewrite Hf.
  - exists (s0 ++ suffix). by rewrite Hn, app_assoc.
  - lia.
  - intros j x. rewrite Hg, map_app, elem_of_app. destruct (Z.eqb_spec j i) as [-> | Hne].
    + intros [= <-] Hlv. left. right. destruct Hadd as [[_ ->] | [Hd _]]; [left | congruence].
    + intros Hx Hlv. destruct (Ht j x Hx Hlv); auto.
  - intros j x. rewrite Hg, map_app, elem_of_app. destruct (Z.eqb_spec j i) as [-> | Hne].
    + intros _ [= <-]. destruct Hadd as [[? _] | (_ & ? & _)]; auto.
    + intros [Hj | Hj] Hx; [by apply (Ha j) |].
      destruct Hadd as [[_ E] | (_ & _ & ->)]; [| by apply not_elem_of_nil in Hj].
      rewrite E in Hj. by apply list_elem_of_singleton in Hj.
  - intros j x. rewrite Hg, map_app, !elem_of_app. destruct (Z.eqb_spec j i) as [-> | Hne].
    + intros _ [= <-] Hlv. right. destruct Hadd as [[_ ->] | [Hd _]]; [left | congruence].
    + intros [Hj | Hj] Hx Hlv; [left; by eapply Hb |].
      destruct Htomb as [-> | ->]; [by apply list_elem_of_singleton in Hj | by apply not_elem_of_nil in Hj].
Qed.

Lemma patched_start drive : drive_wf drive -> patched drive (patch_start drive).
Proof.
  intros Hw. split; cbn; [done | by destruct drive | exists []; by rewrite app_nil_r | lia | by right | | ];
    intros i rec Hi; by apply not_elem_of_nil in Hi.
Qed.

Lemma patched_stats drive0 p st :
  patched drive0 p -> patched drive0 (mkPatch (p_drive p) st (p_path_changes p) (p_tombstones p)).
Proof. by intros []. Qed.

Lemma lookup_frs_range drive f :
  drive_wf drive -> lookup_frs drive f = U32_MAX \/ 0 <= lookup_frs drive f < zlen (records drive).
Proof.
  intros [_ _ _ Hw]. unfold lookup_frs. destruct (zget (frs_to_compact drive) f) eqn:E; cbn; [eauto | by left].
Qed.

Lemma len_to_u16_range n : 0 <= n -> 0 <= len_to_u16 n <= U16_MAX /\ len_to_u16 n <= n /\ (len_to_u16 n = 0 -> n = 0).
Proof. unfold len_to_u16. intros. destruct (Z.leb_spec n U16_MAX); unfold U16_MAX in *; lia. Qed.

Lemma len_to_u32_le n : len_to_u32 n <= n.
Proof. unfold len_to_u32. destruct (Z.leb_spec n U32_MAX); lia. Qed.

Lemma zget_extend_frs frs_map f g k :
  zget (extend_frs frs_map f) g = Some k -> k = U32_MAX \/ zget frs_map g = Some k.
Proof.
  unfold extend_frs. destruct (_ <=? _); [|by right].
  set (m := saturating_add_u64 f 1 - zlen frs_map). intros H.
  destruct (Z.ltb_spec g (zlen frs_map)) as [Hlt | Hge].
  - right. pose proof H as [[H0 _] Hz]%zget_Some. rewrite zget_app_l in H by lia. done.
  - left. rewrite zget_app_r in H by done. apply zget_Some in H as [_ H]. unfold zrepeat in H.
    by apply lookup_replicate in H as [-> _].
Qed.

Lemma zset_frs_range (frs_map : list Z) f x n :
  (forall g k, zget frs_map g = Some k -> k = U32_MAX \/ 0 <= k < n) -> x = U32_MAX \/ 0 <= x < n ->
  forall g k, zget (zset frs_map f x) g = Some k -> k = U32_MAX \/ 0 <= k < n.
Proof.
  intros Hf Hx g k Hk. destruct (Z.eq_dec g f) as [-> | Hne].
  - pose proof Hk as [Hr _]%zget_Some. rewrite zlen_zset in Hr. rewrite zget_zset_eq in Hk by done. congruence.
  - rewrite zget_zset_ne in Hk by done. eauto.
Qed.

(** The new name of a created or renamed record. *)
Lemma new_name_ok (ns filename : list Z) :
  zlen filename <> 0 ->
  let off := len_to_u32 (zlen ns) in
  let len := len_to_u16 (zlen filename) in
  0 <= len <= U16_MAX /\ (len =? 0) = false /\ off + len <= zlen (ns ++ filename).
Proof.
  intros H. cbv zeta. pose proof (zlen_nonneg filename). pose proof (len_to_u32_le (zlen ns)).
  destruct (len_to_u16_range (zlen filename)) as (K1 & K2 & K3); [done |]. rewrite zlen_app.
  split_and!; [lia | lia | apply Z.eqb_neq; auto | lia].
Qed.

Lemma apply_delete_patched drive0 p f :
  patched drive0 p -> patched drive0 (apply_delete p f (lookup_frs (p_drive p) f)).
Proof.
  intros Hp. pose proof (pt_wf _ _ Hp) as Hw. unfold apply_delete.
  destruct (Z.eqb_spec (lookup_frs (p_drive p) f) U32_MAX) as [E | E]; [by apply patched_stats |].
  destruct (lookup_frs_range _ f Hw) as [? | Hr]; [done |].
  destruct (zget_is_Some _ _ Hr) as [rec Hrec]. rewrite Hrec.
  pose proof (patched_write drive0 p _ (deleted_record rec) _ [] (ext_names (p_drive p))
    (zset (frs_to_compact (p_drive p)) f U32_MAX) (inc_deleted (p_stats p)) [] [lookup_frs (p_drive p) f]
    Hp (slot_zset _ _ _ Hr)) as H.
  rewrite !app_nil_r in H. apply H; cbn; try done.
  - by left.
  - rewrite zlen_zset. apply zset_frs_range; [apply Hw | by left].
  - right. done.
  - by left.
Qed.

Lemma apply_create_patched drive0 p change :
  patched drive0 p -> zlen (records (p_drive p)) < U32_MAX ->
  patched drive0 (apply_create p change (lookup_frs (p_drive p) (fc_frs change))).
Proof.
  intros Hp Hl. pose proof (pt_wf _ _ Hp) as Hw. unfold apply_create.
  destruct (Z.eqb_spec (zlen (fc_filename change)) 0) as [E | E]; [by apply patched_stats |].
  pose proof (new_name_ok (names (p_drive p)) (fc_filename change) E) as (N1 & N2 & N3).
  unfold stage_create. destruct (intern_extension _ _ _) as [exts eid]. cbv zeta.
  set (parent := lookup_frs (with_columns _ _ _ _ _) (fc_parent_frs change)).
  assert (Hpar : parent = U32_MAX \/ 0 <= parent < zlen (records (p_drive p))).
  { apply (lookup_frs_range (p_drive p) (fc_parent_frs change) Hw). }
  destruct (Z.eqb_spec (lookup_frs (p_drive p) (fc_frs change)) U32_MAX) as [Em | Em].
  - cbn [records names ext_names frs_to_compact with_columns s_name_offset s_name_len s_parent_idx].
    assert (Hidx : len_to_u32 (zlen (records (p_drive p))) = zlen (records (p_drive p))).
    { unfold len_to_u32. by replace (zlen _ <=? U32_MAX) with true by lia. }
    rewrite Hidx.
    set (st := mkStagedCreate _ _ _ _ _ _).
    pose proof (patched_write drive0 p _ _ _ (fc_filename change) exts
      (zset (extend_frs (frs_to_compact (p_drive p)) (fc_frs change)) (fc_frs change) (zlen (records (p_drive p))))
      (inc_created (p_stats p)) [mkPathChange (zlen (records (p_drive p))) false] []
      Hp (slot_append _ (appended_record st (fc_frs change)))) as H.
    rewrite app_nil_r in H. apply H; unfold live; cbn; [done | done | done | | | by right].
    + change (zlen (records (p_drive p) ++ [appended_record st (fc_frs change)]))
        with (zlen (records (p_drive p) ++ [appended_record st (fc_frs change)])).
      rewrite zlen_app. change (zlen [appended_record st (fc_frs change)]) with 1.
      pose proof (zlen_nonneg (records (p_drive p))).
      apply zset_frs_range; [|right; lia]. intros g k [? | Hk]%zget_extend_frs; [by left |].
      destruct (wf_frs _ Hw g k Hk); [by left | right; lia].
    + left. by rewrite N2.
  - destruct (lookup_frs_range _ (fc_frs change) Hw) as [? | Hr]; [done |].
    cbn [records names ext_names frs_to_compact with_columns].
    destruct (zget_is_Some _ _ Hr) as [rec Hrec]. rewrite Hrec.
    apply (patched_write drive0 p _ _ _ (fc_filename change) exts _ _
      [mkPathChange (lookup_frs (p_drive p) (fc_frs change)) false] [_] Hp (slot_zset _ _ _ Hr));
      unfold live; cbn; try done; [| left; by rewrite N2 | by left].
    rewrite zlen_zset. apply Hw.
Qed.

Lemma apply_rename_patched drive0 p change :
  patched drive0 p -> patched drive0 (apply_rename p change (lookup_frs (p_drive p) (fc_frs change))).
Proof.
  intros Hp. pose proof (pt_wf _ _ Hp) as Hw. unfold apply_rename.
  destruct (Z.eqb_spec (lookup_frs (p_drive p) (fc_frs change)) U32_MAX) as [Em | Em]; [by apply patched_stats |].
  destruct (Z.eqb_spec (zlen (fc_filename change)) 0) as [E | E]; [by apply patched_stats |].
  pose proof (new_name_ok (names (p_drive p)) (fc_filename change) E) as (N1 & N2 & N3).
  cbn [orb]. destruct (intern_extension _ _ _) as [exts eid]. cbv zeta.
  destruct (lookup_frs_range _ (fc_frs change) Hw) as [? | Hr]; [done |].
  cbn [records names ext_names frs_to_compact with_columns].
  destruct (zget_is_Some _ _ Hr) as [rec Hrec]. rewrite Hrec.
  set (rec' := renamed_record _ _ _ _ _ _ _).
  apply (patched_write drive0 p _ rec' _ (fc_filename change) exts _ _
    [mkPathChange (lookup_frs (p_drive p) (fc_frs change)) (is_directory rec')] [_] Hp (slot_zset _ _ _ Hr));
    unfold live; cbn; try done; [by apply lookup_frs_range | | left; by rewrite N2 | by left].
  rewrite zlen_zset. apply Hw.
Qed.

Lemma apply_change_patched drive0 p change :
  patched drive0 p -> zlen (records (p_drive p)) < U32_MAX -> patched drive0 (apply_change p change).
Proof.
  intros Hp Hl. unfold apply_change. destruct (fc_deleted change); [by apply apply_delete_patched |].
  destruct (fc_created change); [by apply apply_create_patched |].
  destruct (fc_renamed change); [by apply apply_rename_patched | by apply patched_stats].
Qed.

Lemma apply_change_len p change :
  zlen (records (p_drive (apply_change p change))) <= zlen (records (p_drive p)) + 1.
Proof.
  unfold apply_change, apply_delete, apply_create, apply_rename, stage_create.
  destruct (intern_extension _ _ _) as [exts eid].
  repeat match goal with
  | |- context [if ?b then _ else _] => destruct b
  | |- context [match zget ?l ?i with _ => _ end] => destruct (zget l i)
  end; cbn; autorewrite with zlen; lia.
Qed.

Lemma apply_changes_patched drive0 changes p :
  patched drive0 p -> zlen (records (p_drive p)) + zlen changes <= U32_MAX ->
  patched drive0 (foldl apply_change p changes) /\
  zlen (records (p_drive (foldl apply_change p changes))) <= zlen (records (p_drive p)) + zlen changes.
Proof.
  revert p. induction changes as [|c changes IH]; intros p Hp Hl; cbn [foldl].
  - split; [done |]. rewrite zlen_nil. lia.
  - rewrite zlen_cons in *. pose proof (apply_change_len p c). pose proof (zlen_nonneg changes).
    destruct (IH (apply_change p c)) as [H1 H2]; [apply apply_change_patched; [done | lia] | lia |].
    split; [done | lia].
Qed.

(** * The indexes after a batch *)

Lemma tris_append drive0 p rec :
  patched drive0 p -> rec ∈ records drive0 -> live rec = true -> drive_wf drive0 ->
  tris (p_drive p) rec = tris drive0 rec.
Proof.
  intros Hp Hr Hlv Hw. pose proof (wf_names _ Hw rec Hr Hlv) as Hn. destruct (pt_names _ _ Hp) as [s Hs].
  rewrite (pt_frame _ _ Hp). unfold tris, record_trigrams. cbn [fold names with_columns].
  by rewrite Hs, get_range_app_l.
Qed.

Lemma batch_covered drive0 p records0 names0 :
  drive_wf drive0 -> patched drive0 p -> overlay_ok schedule drive0 records0 names0 ->
  base_of schedule (p_drive p) records0 names0 /\
  covered (stale (p_drive p) (p_path_changes p)) (p_drive p) records0 names0.
Proof.
  intros Hw Hp [[B1 B2 B3 B4 B5 B6] Hl Hc]. pose proof (pt_len _ _ Hp).
  assert (Hold : forall i rec, zget (records (p_drive p)) i = Some rec -> ~ stale (p_drive p) (p_path_changes p) i ->
    live rec = true /\ zget (records drive0) i = Some rec /\ tris (p_drive p) rec = tris drive0 rec).
  { intros i rec Hr Hs. assert (Hlv : live rec = true).
    { destruct (live rec) eqn:E; [done | exfalso]. apply Hs. right. apply record_is_true.
      exists rec. by rewrite E. }
    destruct (pt_touched _ _ Hp i rec Hr Hlv) as [Hi | H0]; [exfalso; apply Hs; by left |].
    split_and!; [done.. |]. by apply (tris_append drive0); [| eapply zget_elem | |]. }
  pose proof (pt_frame _ _ Hp) as Hf.
  assert (E1 : trigram (p_drive p) = trigram drive0) by (by rewrite Hf).
  assert (E2 : children (p_drive p) = children drive0) by (by rewrite Hf).
  assert (E3 : ext_index (p_drive p) = ext_index drive0) by (by rewrite Hf).
  assert (E4 : fold (p_drive p) = fold drive0) by (by rewrite Hf).
  assert (E5 : delta (p_drive p) = delta drive0) by (by rewrite Hf).
  split; [split; rewrite ?E1, ?E2, ?E3, ?E4; try done; lia |].
  assert (Hun : forall i rec, tris (p_drive p) rec = tris drive0 rec ->
    unchanged drive0 records0 names0 i rec -> unchanged (p_drive p) records0 names0 i rec).
  { intros i rec Ht (rec0 & H0 & K1 & K2 & K3 & K4). exists rec0. split; [done |]. split_and!; try done.
    by rewrite E4, K4. }
  unfold covered in *. rewrite E5. destruct (delta drive0) as [d |].
  - destruct Hc as [Hd Hc]. split; [done |]. intros i rec Hr Hs Hlv.
    destruct (Hold i rec Hr Hs) as (_ & H0 & Ht).
    destruct (Hc i rec H0 (fun H => H) Hlv) as [Ho | [Hn Hu]]; [left | right; auto].
    unfold overlaid in *. by rewrite Ht.
  - intros i rec Hr Hs. destruct (Hold i rec Hr Hs) as (_ & H0 & Ht). apply Hun; [done |].
    exact (Hc i rec H0 (fun H => H)).
Qed.

(** The parent links have no cycle but for dead records that are their own parent. *)
Definition tree_ok (recs : list CompactRecord) : Prop :=
  exists rank : Z -> Z, forall i rec, zget recs i = Some rec -> 0 <= parent_idx rec < zlen recs ->
    (parent_idx rec <> i -> rank (parent_idx rec) < rank i) /\ (parent_idx rec = i -> live rec = false).

Lemma tree_acyclic drive : tree_ok (records drive) -> acyclic drive.
Proof.
  intros [rank H]. exists rank. intros p i (Hp & rec & Hr & [E%Z.eqb_eq _]%andb_true_iff)%elem_of_dkids.
  subst p. destruct (H i rec Hr Hp) as [H1 H2]. split; [done |]. intros E rec' Hr'.
  assert (rec' = rec) as -> by congruence. auto.
Qed.

(** The overlay of the batch and the refresh of path lengths. *)
Lemma apply_index_delta_records drive adds tombs :
  exists d, (apply_index_delta schedule drive adds tombs).1 =
    mkDriveCompactIndex (records drive) (names drive) (trigram d) (children d) (ext_index d) (fold drive)
      (ext_names drive) (bloom drive) (frs_to_compact drive) (delta d).
Proof. unfold apply_index_delta. destruct (_ <? _); cbn [fst]; [by exists (compact_base schedule drive) |]. by eexists (set_delta drive _). Qed.

Lemma rebuild_derived_total drive adds tombs records1 names1 :
  overlay_ok schedule (apply_index_delta schedule drive adds tombs).1 records1 names1 ->
  zlen (records drive) < 2 ^ 32 -> names_u16 (records drive) -> tree_ok (records drive) ->
  (forall i rec, i ∈ map pc_idx adds -> zget (records drive) i = Some rec -> live rec = true \/ parent_idx rec = U32_MAX) ->
  exists recs', option_map fst (rebuild_derived drive adds tombs) =
      Some (with_records (apply_index_delta schedule drive adds tombs).1 recs') /\
    map strip recs' = map strip (records drive).
Proof.
  intros Ho Hl Hn Ht Ha. unfold rebuild_derived.
  destruct (apply_index_delta_records drive adds tombs) as [d Ed].
  destruct (apply_index_delta schedule drive adds tombs) as [drive1 compacted]. cbn [fst] in *.
  assert (Er : records drive1 = records drive) by (by rewrite Ed).
  destruct (_ <? _).
  - destruct (compute_path_lengths_spec (records drive1) (names drive1)) as (recs' & -> & Hs & _); rewrite ?Er; try done.
    exists recs'. cbn. split; [done | by rewrite Hs, Er].
  - destruct (update_path_lengths_total schedule records1 names1 drive1 adds Ho) as (recs' & -> & Hs).
    + by rewrite Er.
    + apply tree_acyclic. by rewrite Er.
    + intros i Hi (Hr & rec & Hrec & [E%Z.eqb_eq Hdel]%andb_true_iff)%elem_of_dkids. rewrite Er in *.
      destruct Ht as [rank Ht]. rewrite <- E in Hr. destruct (Ht i rec Hrec Hr) as [_ Hd]. specialize (Hd E).
      destruct (Ha i rec Hi Hrec); [congruence |]. unfold U32_MAX in *. lia.
    + exists recs'. cbn. split; [done | by rewrite Hs, Er].
Qed.

Lemma drive_wf_strip drive recs trig ch ext d :
  map strip recs = map strip (records drive) -> drive_wf drive ->
  drive_wf (mkDriveCompactIndex recs (names drive) trig ch ext (fold drive) (ext_names drive) (bloom drive)
    (frs_to_compact drive) d).
Proof.
  intros Hs [W1 W2 W3 W4]. pose proof (strip_zlen _ _ Hs) as Hz.
  assert (Hin : forall rec, rec ∈ recs -> exists rec', rec' ∈ records drive /\ strip rec' = strip rec).
  { intros rec (j & Hj)%elem_zget. destruct (strip_zget _ _ _ _ Hs Hj) as (rec' & Hr' & E).
    exists rec'. split; [by eapply zget_elem | done]. }
  split; cbn.
  - intros rec (rec' & Hr & E)%Hin. rewrite <- (strip_parent _ _ E), Hz. auto.
  - by apply (names_u16_strip _ _ Hs).
  - intros rec (rec' & Hr & E)%Hin. rewrite <- (strip_live _ _ E), <- (strip_name_len _ _ E), <- (strip_name_offset _ _ E).
    auto.
  - by rewrite Hz.
Qed.

(** The sizes a batch may reach. *)
Definition batch_fits (drive : DriveCompactIndex) (changes : list FileChange) (p : Patch) : Prop :=
  zlen (records drive) + zlen changes <= U32_MAX /\
  fits (fold (p_drive p)) (names (p_drive p)) (records (p_drive p)).

Lemma patched_state_spec drive changes :
  drive_wf drive -> zlen (records drive) + zlen changes <= U32_MAX ->
  exists p, patched_state drive changes = Some p /\ patched drive p.
Proof.
  intros Hw Hl. unfold patched_state.
  destruct (order_parent_first_spec changes) as (out & -> & Hp & _). eexists. split; [reflexivity |].
  apply apply_changes_patched; [by apply patched_start |]. unfold zlen in *. by rewrite (Permutation_length Hp).
Qed.

(** ** The counters of a batch *)

(** A change that creates a file: a deletion wins over it, and an empty name is skipped. *)
Definition named_create (change : FileChange) : bool :=
  negb (fc_deleted change) && fc_created change && negb (zlen (fc_filename change) =? 0).

Definition named_creates (changes : list FileChange) : list FileChange := List.filter named_create changes.

Definition counted (s : PatchStats) : Z := st_deleted s + st_created s + st_renamed s + st_skipped s.

Lemma apply_change_counts p change :
  drive_wf (p_drive p) ->
  counted (p_stats (apply_change p change)) = counted (p_stats p) + 1 /\
  st_created (p_stats (apply_change p change)) = st_created (p_stats p) + zlen (named_creates [change]).
Proof.
  intros Hw. unfold apply_change, named_creates, named_create, counted. cbn [List.filter].
  pose proof (lookup_frs_range (p_drive p) (fc_frs change) Hw) as Hr.
  assert (Hg : lookup_frs (p_drive p) (fc_frs change) <> U32_MAX ->
    exists rec, zget (records (p_drive p)) (lookup_frs (p_drive p) (fc_frs change)) = Some rec).
  { intros H. apply zget_is_Some. lia. }
  unfold apply_delete, apply_create, apply_rename, stage_create.
  destruct (intern_extension _ _ _) as [exts eid].
  destruct (Z.eqb_spec (lookup_frs (p_drive p) (fc_frs change)) U32_MAX) as [E | E].
  - destruct (fc_deleted change), (fc_created change), (fc_renamed change), (zlen (fc_filename change) =? 0);
      cbn; rewrite ?zlen_cons, ?zlen_nil; lia.
  - destruct (Hg E) as [rec Hrec]. cbn [records with_columns] in *. rewrite Hrec.
    destruct (fc_deleted change), (fc_created change), (fc_renamed change), (zlen (fc_filename change) =? 0);
      cbn; rewrite ?zlen_cons, ?zlen_nil; lia.
Qed.

(** A drive without a mapping skips every change up to the first create, which appends a
    record. *)
Definition unmapped_or_grown (n : Z) (p : Patch) : Prop :=
  (frs_to_compact (p_drive p) = [] /\ p_stats p = mkPatchStats 0 0 0 (st_skipped (p_stats p))) \/
  n < zlen (records (p_drive p)) /\ 0 < st_created (p_stats p).

Lemma apply_change_grows p change :
  zlen (records (p_drive p)) <= zlen (records (p_drive (apply_change p change))) /\
  st_created (p_stats p) <= st_created (p_stats (apply_change p change)).
Proof.
  unfold apply_change, apply_delete, apply_create, apply_rename, stage_create.
  destruct (intern_extension _ _ _) as [exts eid].
  repeat match goal with
  | |- context [if ?b then _ else _] => destruct b
  | |- context [match zget ?l ?i with _ => _ end] => destruct (zget l i)
  end; cbn; autorewrite with zlen; lia.
Qed.

Lemma apply_change_unmapped p change n :
  unmapped_or_grown n p -> n <= zlen (records (p_drive p)) ->
  unmapped_or_grown n (apply_change p change) /\ n <= zlen (records (p_drive (apply_change p change))).
Proof.
  intros Hu Hn. pose proof (apply_change_grows p change). split; [|lia].
  destruct Hu as [[Hf Hs] | Hg]; [|right; lia].
  assert (E : lookup_frs (p_drive p) (fc_frs change) = U32_MAX) by (unfold lookup_frs; rewrite Hf, (proj2 (zget_None [] _)); [done | unfold zlen; cbn [length]; lia]).
  unfold apply_change, apply_delete, apply_create, apply_rename, stage_create. rewrite E, Z.eqb_refl.
  destruct (intern_extension _ _ _) as [exts eid]. unfold unmapped_or_grown.
  destruct (fc_deleted change), (fc_created change), (fc_renamed change), (zlen (fc_filename change) =? 0); cbn;
    try (left; split; [done | by rewrite Hs]); right; rewrite Hs; cbn; split; autorewrite with zlen; lia.
Qed.

Lemma apply_changes_counts drive0 changes p n :
  patched drive0 p -> zlen (records (p_drive p)) + zlen changes <= U32_MAX ->
  unmapped_or_grown n p \/ frs_to_compact drive0 <> [] -> n <= zlen (records (p_drive p)) ->
  let q := foldl apply_change p changes in
  counted (p_stats q) = counted (p_stats p) + zlen changes /\
  st_created (p_stats q) = st_created (p_stats p) + zlen (named_creates changes) /\
  (unmapped_or_grown n q \/ frs_to_compact drive0 <> []).
Proof.
  revert p. induction changes as [|c changes IH]; intros p Hp Hl Hu Hn; cbn [foldl].
  - unfold named_creates. cbn [List.filter]. rewrite zlen_nil. split_and!; [lia | lia | done].
  - rewrite zlen_cons in *. pose proof (apply_change_len p c). pose proof (zlen_nonneg changes).
    destruct (apply_change_counts p c (pt_wf _ _ Hp)) as [C1 C2]. pose proof (apply_change_grows p c) as [? _].
    destruct (IH (apply_change p c)) as (K1 & K2 & K3); [apply apply_change_patched; [done | lia] | lia | | lia |].
    + destruct Hu as [Hu | ?]; [left; by apply apply_change_unmapped | by right].
    + split_and!; [lia | | done]. rewrite K2, C2. unfold named_creates. cbn [List.filter].
      destruct (named_create c); rewrite ?zlen_cons, ?zlen_nil; lia.
Qed.

Lemma named_creates_permutation l l' : l ≡ₚ l' -> zlen (named_creates l) = zlen (named_creates l').
Proof. intros H. unfold zlen, named_creates. induction H; cbn; repeat case_match; cbn; lia. Qed.

Lemma patched_state_counts drive changes p :
  drive_wf drive -> zlen (records drive) + zlen changes <= U32_MAX -> patched_state drive changes = Some p ->
  counted (p_stats p) = zlen changes /\ st_created (p_stats p) = zlen (named_creates changes) /\
  (frs_to_compact drive = [] -> unmapped_or_grown (zlen (records drive)) p).
Proof.
  intros Hw Hl. unfold patched_state. destruct (order_parent_first_spec changes) as (out & -> & Hp & _).
  cbn [mbind option_bind]. intros [= <-].
  assert (Hlen : zlen out = zlen changes) by (unfold zlen; by rewrite (Permutation_length Hp)).
  rewrite <- (named_creates_permutation _ _ Hp).
  destruct (apply_changes_counts drive out (patch_start drive) (zlen (records drive))) as (H1 & H2 & H3).
  - by apply patched_start.
  - cbn. lia.
  - destruct (frs_to_compact drive) eqn:E; [by left; left | by right].
  - cbn. lia.
  - change (counted (p_stats (patch_start drive))) with 0 in H1. change (st_created (p_stats (patch_start drive))) with 0 in H2.
    split_and!; [lia | lia |]. intros E. by destruct H3.
Qed.

(** A batch gives a well-formed drive whose overlay accounts for its records. *)
Lemma apply_usn_patch_spec drive changes p records0 names0 :
  drive_wf drive -> overlay_ok schedule drive records0 names0 ->
  patched_state drive changes = Some p -> batch_fits drive changes p -> tree_ok (records (p_drive p)) ->
  exists drive', apply_usn_patch drive changes = Some (drive', p_stats p) /\
    drive_wf drive' /\
    overlay_ok schedule drive' (snapshot_after drive' (records (p_drive p)) records0)
      (snapshot_after drive' (names (p_drive p)) names0) /\
    map strip (records drive') = map strip (records (p_drive p)) /\
    names drive' = names (p_drive p) /\ frs_to_compact drive' = frs_to_compact (p_drive p) /\
    fold drive' = fold drive.
Proof.
  intros Hw Ho Hps [Hl Hfit] Ht.
  destruct (patched_state_spec drive changes Hw Hl) as (p' & E & Hp).
  assert (p' = p) as -> by congruence. clear E.
  destruct (batch_covered drive p records0 names0 Hw Hp Ho) as [Hb Hc].
  destruct (pt_wf _ _ Hp) as [W1 W2 _ _].
  pose proof (apply_index_delta_ok schedule (p_drive p) (p_path_changes p) (p_tombstones p) records0 names0
    Hb Hc (pt_tombs _ _ Hp) Hfit W1) as Ho1. cbv zeta in Ho1.
  destruct (rebuild_derived_total (p_drive p) (p_path_changes p) (p_tombstones p) _ _ Ho1)
    as (recs' & Er & Hs); [apply Hfit | done | done | apply (pt_adds _ _ Hp) |].
  unfold patched_state in Hps. unfold apply_usn_patch. destruct (order_parent_first changes) as [out |]; [|done].
  injection Hps as Hps. rewrite Hps.
  destruct (rebuild_derived _ _ _) as [[drive' compacted] |]; [|done]. injection Er as ->.
  eexists. split; [reflexivity |].
  destruct (apply_index_delta_records (p_drive p) (p_path_changes p) (p_tombstones p)) as [d Ed].
  rewrite Ed in *. unfold with_records. cbn. split_and!; [| | done.. |].
  - by apply drive_wf_strip; [| apply Hp].
  - apply (overlay_with_records _ _ _ _ recs') in Ho1; [exact Ho1 | exact Hs].
  - by rewrite (pt_frame _ _ Hp).
Qed.

End patch.

(** * Drives over time *)

Section reachable.
Context (schedule : list (Z * Z) -> list (Z * Z)) (to_lowercase : list Z -> list Z)
  (sort_by_len : list (list Z) -> list (list Z)).
Context (Hschedule : forall ws, schedule ws ≡ₚ ws) (Hsort : forall ls, sort_by_len ls ≡ₚ ls).

(** A drive starts from freshly built indexes, takes journal batches, and is folded for a
    save. *)
Inductive reachable : DriveCompactIndex -> list CompactRecord -> list Z -> Prop :=
| reach_load drive :
    drive_wf drive -> fits (fold drive) (names drive) (records drive) ->
    reachable (compact_base schedule drive) (records drive) (names drive)
| reach_batch drive records0 names0 changes p drive' stats :
    reachable drive records0 names0 -> patched_state to_lowercase drive changes = Some p ->
    batch_fits drive changes p -> tree_ok (records (p_drive p)) ->
    apply_usn_patch schedule to_lowercase drive changes = Some (drive', stats) ->
    reachable drive' (snapshot_after drive' (records (p_drive p)) records0)
      (snapshot_after drive' (names (p_drive p)) names0)
| reach_save drive records0 names0 :
    reachable drive records0 names0 -> fits (fold drive) (names drive) (records drive) ->
    let now {A} (x y : A) := match delta drive with Some _ => x | None => y end in
    reachable (fold_delta_for_save schedule drive) (now (records drive) records0) (now (names drive) names0).

Lemma reachable_invariant drive records0 names0 :
  reachable drive records0 names0 -> drive_wf drive /\ overlay_ok schedule drive records0 names0.
Proof using Type.
  induction 1 as [drive Hw Hf | drive r0 n0 changes p drive' st _ [Hw Ho] Hps Hfit Ht E | drive r0 n0 _ [Hw Ho] Hf].
  - split; [by destruct Hw | apply compact_base_ok; [done | apply Hw]].
  - destruct (apply_usn_patch_spec schedule to_lowercase drive changes p r0 n0 Hw Ho Hps Hfit Ht)
      as (drive1 & E' & Hw1 & Ho1 & _).
    rewrite E in E'. by injection E' as -> ->.
  - destruct (fold_delta_for_save_ok schedule drive r0 n0 Ho Hf (wf_parents _ Hw)) as [_ Ho1].
    split; [|done]. unfold fold_delta_for_save. destruct (delta drive); [by destruct Hw | done].
Qed.

(** C37: loads, batches and saves keep a drive well formed: a parent is the root sentinel
    or the index of a record, name lengths have their width, a live name is inside the
    name bytes, and a mapped file number has the slot of a record. *)
Theorem reachable_well_formed drive records0 names0 : reachable drive records0 names0 -> drive_wf drive.
Proof using Type. by intros [Hw _]%reachable_invariant. Qed.

(** C16: after any sequence of loads, journal batches and saves, the children of a slot
    are the records whose parent it is, in index order (only the live ones once the
    drive has an overlay), and the records of an extension are the live records with
    it: the overlays lose nothing and report nothing stale. *)
Theorem live_lookups_exact drive records0 names0 :
  reachable drive records0 names0 ->
  (forall p, 0 <= p -> p <> U32_MAX ->
    children_of drive p = indices_where (child_filter drive p) (records drive)) /\
  (forall e, 0 <= e -> records_with_ext drive e = indices_where (ext_filter e) (records drive)).
Proof using Type.
  intros [_ Ho]%reachable_invariant. split; intros.
  - by eapply children_of_spec.
  - by eapply records_with_ext_spec.
Qed.

(** C30: a batch applied to a reachable drive terminates with a well-formed drive, if the
    sizes keep their limits and the parent links it leaves have no cycle; every change is
    counted once, as deleted, created, renamed or skipped, and every change that creates a
    file with a name is counted as created, whatever the mapping of file numbers.  In
    particular a drive without a mapping, which the documentation of [apply_usn_patch] says
    skips the whole batch, gets a record when the batch has a create; only a batch without
    one is skipped as a whole. *)
Theorem apply_usn_patch_returns drive records0 names0 changes p :
  reachable drive records0 names0 -> patched_state to_lowercase drive changes = Some p ->
  batch_fits drive changes p -> tree_ok (records (p_drive p)) ->
  exists drive' stats, apply_usn_patch schedule to_lowercase drive changes = Some (drive', stats) /\
    drive_wf drive' /\
    st_deleted stats + st_created stats + st_renamed stats + st_skipped stats = zlen changes /\
    st_created stats = zlen (named_creates changes) /\
    (frs_to_compact drive = [] ->
       if existsb named_create changes then zlen (records drive) < zlen (records drive')
       else stats = mkPatchStats 0 0 0 (zlen changes)).
Proof using Type.
  intros Hr Hps Hf Ht. pose proof (reachable_invariant _ _ _ Hr) as [Hw Ho].
  destruct (apply_usn_patch_spec schedule to_lowercase drive changes p _ _ Hw Ho Hps Hf Ht)
    as (drive' & E & Hw' & _ & Hs & _).
  destruct (patched_state_counts to_lowercase drive changes p Hw (proj1 Hf) Hps) as (C1 & C2 & C3).
  exists drive', (p_stats p). split_and!; [done.. |]. intros He. specialize (C3 He). rewrite (strip_zlen _ _ Hs).
  destruct (existsb named_create changes) eqn:Ex.
  - destruct C3 as [[_ Eq] | [? _]]; [|done]. rewrite Eq in C2. cbn in C2.
    assert (named_creates changes = []) as Hn by (apply zlen_0; lia).
    apply existsb_exists in Ex as (c & Hc & Hcr). assert (Hin : In c (named_creates changes)) by (by apply filter_In).
    by rewrite Hn in Hin.
  - assert (Hn : named_creates changes = []).
    { clear -Ex. unfold named_creates. induction changes as [|c l IH]; [done |]. cbn in Ex |- *.
      apply orb_false_iff in Ex as [-> Ex]. auto. }
    rewrite Hn, zlen_nil in C2. destruct C3 as [[_ Eq] | ?]; [|lia].
    rewrite Eq in C1. unfold counted in C1. cbn in C1. rewrite Eq. f_equal. lia.
Qed.

(** On a reachable drive, a trigram search finds every live record whose folded name
    has all the needle's trigrams, whether the record is in the base or in the overlay,
    when the last compaction pruned none of the needle's trigrams as too frequent. *)
Theorem live_trigram_search_complete drive records0 names0 needle ts i rec :
  reachable drive records0 names0 -> needle_trigrams (fold drive) needle = Some ts ->
  (forall t, t ∈ ts -> ~ pruned drive records0 names0 t) ->
  zget (records drive) i = Some rec -> live rec = true -> (forall t, t ∈ ts -> t ∈ tris drive rec) ->
  exists l, trigram_search sort_by_len drive needle = Some l /\ i ∈ l.
Proof using Hschedule Hsort. intros [_ Ho]%reachable_invariant Hts Hp Hr Hl Hall. by eapply trigram_search_keeps. Qed.

End reachable.

(** * A sample drive *)

(** Decision procedures for the invariants. *)
Definition drive_wfb (drive : DriveCompactIndex) : bool :=
  forallb (fun rec =>
    ((parent_idx rec =? U32_MAX) || ((0 <=? parent_idx rec) && (parent_idx rec <? zlen (records drive)))) &&
    ((0 <=? name_len rec) && (name_len rec <=? U16_MAX)) &&
    (negb (live rec) || (name_offset rec + name_len rec <=? zlen (names drive)))) (records drive) &&
  forallb (fun i => (i =? U32_MAX) || ((0 <=? i) && (i <? zlen (records drive)))) (frs_to_compact drive).

Lemma drive_wfb_ok drive : drive_wfb drive = true -> drive_wf drive.
Proof.
  intros [H1 H2]%andb_true_iff. rewrite forallb_forall in H1, H2. setoid_rewrite <- list_elem_of_In in H1.
  setoid_rewrite <- list_elem_of_In in H2.
  split; [intros rec Hr .. |]; try (specialize (H1 rec Hr); cbn in H1; apply andb_true_iff in H1 as [[Ha Hb]%andb_true_iff Hc]).
  - destruct (Z.eqb_spec (parent_idx rec) U32_MAX); [by left | right; lia].
  - lia.
  - intros E. rewrite E in Hc. cbn in Hc. lia.
  - intros f i Hi. specialize (H2 i (zget_elem _ _ _ Hi)). cbn in H2. lia.
Qed.

Definition tree_okb (rank : Z -> Z) (recs : list CompactRecord) : bool :=
  forallb (fun it => let '(i, rec) := (it : Z * CompactRecord) in
    negb ((0 <=? parent_idx rec) && (parent_idx rec <? zlen recs)) ||
    (if parent_idx rec =? i then negb (live rec) else rank (parent_idx rec) <? rank i)) (enumerate recs).

Lemma tree_okb_ok rank recs : tree_okb rank recs = true -> tree_ok recs.
Proof.
  intros H. exists rank. intros i rec Hi Hp. unfold tree_okb in H. rewrite forallb_forall in H.
  specialize (H (i, rec)). rewrite <- list_elem_of_In, elem_of_enumerate in H. specialize (H Hi). cbn in H.
  replace ((0 <=? parent_idx rec) && (parent_idx rec <? zlen recs)) with true in H by lia. cbn in H.
  destruct (Z.eqb_spec (parent_idx rec) i); split; intros; try done; [by apply negb_true_iff | lia].
Qed.

(** [/docs/a.txt], with file numbers 0 (the root), 1 and 2; as the index builder does it,
    a root-level record has no parent. *)
Definition sample_record (parent off len ext attributes path : Z) : CompactRecord :=
  mkCompactRecord 0 0 0 0 0 0 0 0 off attributes parent 0 len ext path 0.
Definition sample_names : list Z := [46; 100; 111; 99; 115; 97; 46; 116; 120; 116].
Definition sample_records : list CompactRecord :=
  [sample_record U32_MAX 0 1 0 0x10 4; sample_record U32_MAX 1 4 0 0x10 7; sample_record 1 5 5 1 0 13].
Definition sample_loaded : DriveCompactIndex :=
  bare_drive sample_records sample_names [[]; [116; 120; 116]] None [0; 1; 2].
Definition sample_drive : DriveCompactIndex := compact_base (@rev _) sample_loaded.

(** [mkdir docs/n; create docs/n/b.txt; mv docs/a.txt docs/n/c.txt], innermost first. *)
Definition sample_changes : list FileChange := [
  mkFileChange 4 3 [98; 46; 116; 120; 116] true false false false false None;
  mkFileChange 2 3 [99; 46; 116; 120; 116] false false true false false None;
  mkFileChange 3 1 [110] true false false false false (Some (mkRecordMeta 0 0 0 0 0 0x10))].

Definition sample_patched : option Patch := patched_state id sample_drive sample_changes.
Definition sample_after : option (DriveCompactIndex * PatchStats) :=
  apply_usn_patch (@rev _) id sample_drive sample_changes.

Lemma sample_reachable : reachable (@rev _) id sample_drive sample_records sample_names.
Proof. apply (reach_load _ _ sample_loaded); [by apply drive_wfb_ok | by split]. Qed.

(** The patched sample is within every limit. *)
Lemma sample_batch : exists p, sample_patched = Some p /\ batch_fits sample_drive sample_changes p /\ tree_ok (records (p_drive p)).
Proof.
  destruct sample_patched as [p |] eqn:E; vm_compute in E; [|done]. injection E as <-. eexists. split; [reflexivity |].
  split; [by split; [| split] |]. by apply (tree_okb_ok (fun i => if i =? 2 then 10 else i)).
Qed.

Lemma apply_usn_patch_returns_witness :
  exists drive' stats, apply_usn_patch (@rev _) id sample_drive sample_changes = Some (drive', stats) /\
    drive_wf drive' /\ st_created stats = 2.
Proof.
  destruct sample_batch as (p & E & Hf & Ht).
  destruct (apply_usn_patch_returns (@rev _) id sample_drive sample_records sample_names sample_changes p
    sample_reachable E Hf Ht) as (drive' & stats & E' & Hw & _ & Hc & _).
  exists drive', stats. split; [exact E' |]. split; [exact Hw | exact Hc].
Defined.

(** The sample after the batch. *)
Lemma sample_after_reachable :
  exists drive' stats records1 names1, sample_after = Some (drive', stats) /\
    reachable (@rev _) id drive' records1 names1.
Proof.
  destruct sample_batch as (p & E & Hf & Ht). unfold sample_after.
  destruct (apply_usn_patch (@rev _) id sample_drive sample_changes) as [[drive' stats] |] eqn:Ea; [|by vm_compute in Ea].
  eexists drive', stats, _, _. split; [done |]. eapply reach_batch; [apply sample_reachable | done..].
Qed.

Lemma reachable_well_formed_witness :
  exists drive' stats, sample_after = Some (drive', stats) /\ drive_wf drive'.
Proof.
  destruct sample_after_reachable as (drive' & stats & r1 & n1 & E & Hr). exists drive', stats. split; [exact E |].
  exact (reachable_well_formed (@rev _) id drive' r1 n1 Hr).
Defined.

Lemma live_lookups_exact_witness :
  exists drive' stats, sample_after = Some (drive', stats) /\
    children_of drive' 3 = indices_where (child_filter drive' 3) (records drive') /\ children_of drive' 3 = [2; 4].
Proof.
  destruct sample_after_reachable as (drive' & stats & r1 & n1 & E & Hr).
  exists drive', stats. split; [exact E |]. split.
  - apply (live_lookups_exact (@rev _) id drive' r1 n1 Hr); [lia | unfold U32_MAX; lia].
  - vm_compute in E. injection E as <- <-. reflexivity.
Defined.

Lemma live_trigram_search_complete_witness :
  exists l, trigram_search (@rev _) sample_drive [100; 111; 99; 115] = Some l /\ 1 ∈ l.
Proof.
  apply (live_trigram_search_complete (@rev _) id (@rev _) rev_permutation rev_permutation sample_drive sample_records
    sample_names _ [pack_char_trigram 100 111 99; pack_char_trigram 111 99 115] 1 (sample_record U32_MAX 1 4 0 0x10 7)
    sample_reachable).
  - reflexivity.
  - intros t Ht [_ Hp]. each_elem Ht; by vm_compute in Hp.
  - reflexivity.
  - reflexivity.
  - intros t Ht. assert (tris sample_drive (sample_record U32_MAX 1 4 0 0x10 7) =
      [pack_char_trigram 100 111 99; pack_char_trigram 111 99 115]) as -> by reflexivity. exact Ht.
Defined.

(** * What the patch does not keep *)

(** A create of [b.pdf] in a drive with one file, [a.txt]. *)
Definition pdf : list Z := [112; 100; 102].
Definition pdf_changes : list FileChange :=
  [mkFileChange 1 7 [98; 46; 112; 100; 102] true false false false false None].
Definition txt_loaded : DriveCompactIndex := compact_base (@rev _) txt_drive.

(** The drive's filter is not updated by a patch: after a batch creates a file with an
    extension new to the drive, the drive has the file under the extension, and both the
    pre-check of an extension search and the filter kept for a parked drive still skip
    it. *)
Theorem stale_bloom_skips_created :
  exists drive' stats, fresh_bloom sample_hash txt_loaded 128 7 /\
    apply_usn_patch (@rev _) id txt_loaded pdf_changes = Some (drive', stats) /\
    st_created stats = 1 /\ has_ext drive' [pdf] /\ records_with_ext drive' 2 = [1] /\
    apply_bloom_pre_check sample_hash [drive'] [pdf] = Some [] /\
    decide_for_ext_filter sample_hash (parked_bloom sample_hash drive' 128 7) [pdf] = Some Skip.
Proof.
  destruct (apply_usn_patch (@rev _) id txt_loaded pdf_changes) as [[drive' stats] |] eqn:E; [|by vm_compute in E].
  exists drive', stats. vm_compute in E. injection E as <- <-. split_and!; [|done..| | | |].
  - split; [lia | reflexivity].
  - eexists _, pdf. split_and!; [right; left | reflexivity | done | left].
  - reflexivity.
  - vm_compute. reflexivity.
  - vm_compute. reflexivity.
Qed.

(** [/<twenty letters>/], [/m/] and [/m/c], with exact path lengths; a batch renames the
    first directory to [d] and moves the second into it. *)
Definition long_name : list Z := zrepeat 120 20.
Definition clamp_names : list Z := [46] ++ long_name ++ [109; 99].
Definition clamp_drive : DriveCompactIndex :=
  compact_base (@rev _) (bare_drive
    [sample_record U32_MAX 0 1 0 0x10 4; sample_record U32_MAX 1 20 0 0x10 23;
     sample_record U32_MAX 21 1 0 0x10 4; sample_record 2 22 1 0 0 6] clamp_names [[]] None [0; 1; 2; 3]).
Definition clamp_changes : list FileChange :=
  [mkFileChange 1 0 [100] false false true false false None; mkFileChange 2 1 [109] false false true false false None].

(** Path lengths may be wrong after a batch that moves a directory into one it
    renames before: the overlay already has the move when the rename shifts its subtree,
    the shift of the moved directory's old lengths is cut off at zero, and the lost
    amount is missing from its files' lengths; a full search gives other lengths. *)
Theorem shift_clamp_diverges :
  exists drive' stats full, compute_path_lengths (records clamp_drive) (names clamp_drive) = Some (records clamp_drive) /\
    apply_usn_patch (@rev _) id clamp_drive clamp_changes = Some (drive', stats) /\
    compute_path_lengths (records drive') (names drive') = Some full /\
    map path_len (records drive') = [4; 6; 8; 8] /\ map path_len full = [4; 6; 8; 10].
Proof.
  destruct (apply_usn_patch (@rev _) id clamp_drive clamp_changes) as [[drive' stats] |] eqn:E; [|by vm_compute in E].
  vm_compute in E. injection E as <- <-. eexists _, _, _.
  split; [by vm_compute |]. split; [reflexivity |]. split; [by vm_compute |]. by split.
Qed.
