(* ===== verification/PathTrie.v ===== *)
(** The directory trie of a parked drive: [crates/uffs-core/src/path_trie.rs].

    The trie keeps a node per directory record, the base names in a buffer of its own and
    a children index.  Every answer is related to the directories it was built from, and
    the two path walks, down by names and up by parents, to one relation, [at_path]. *)
From stdpp Require Import strings gmap.
From S2P Require Import Prelude CsrIndex UsnPatch.
Local Open Scope Z_scope.
Local Open Scope rust_scope.

Definition NO_PARENT : Z := U32_MAX.

Record TrieNode := mkTrieNode { tn_parent_idx : Z; tn_name_offset : Z; tn_name_len : Z; tn_padding : Z }.

Record PathTrie := mkPathTrie {
  pt_nodes : list TrieNode;
  pt_names : list Z;
  pt_child_offsets : list Z;
  pt_child_indices : list Z
}.

(** * Construction *)

(** The three collections the first pass fills. *)
Record Collected := mkCollected {
  record_to_trie : gmap Z Z;
  col_nodes : list TrieNode;
  trie_names : list Z
}.

Definition collect_step (names : list Z) (st : Collected) (it : Z * CompactRecord) : Collected :=
  let (record_idx_usize, record) := it in
  if negb (is_directory record) then st else
  let record_idx := len_to_u32 record_idx_usize in
  let name_start := name_offset record in
  let name_end := name_start + name_len record in
  let basename := default [] (get_range names name_start name_end) in
  let trie_name_offset := len_to_u32 (zlen (trie_names st)) in
  let trie_idx := len_to_u32 (zlen (col_nodes st)) in
  mkCollected (<[record_idx := trie_idx]> (record_to_trie st))
    (col_nodes st ++ [mkTrieNode (parent_idx record) trie_name_offset (name_len record) 0])
    (trie_names st ++ basename).

Definition collect (names : list Z) (items : list (Z * CompactRecord)) : Collected :=
  foldl (collect_step names) (mkCollected ∅ [] []) items.

(** The second pass on one node. *)
Definition translate (record_to_trie : gmap Z Z) (node : TrieNode) : TrieNode :=
  let record_parent := tn_parent_idx node in
  let with_parent p := mkTrieNode p (tn_name_offset node) (tn_name_len node) (tn_padding node) in
  if record_parent =? U32_MAX then with_parent NO_PARENT
  else match record_to_trie !! record_parent with
       | Some trie_parent => with_parent trie_parent
       | None => with_parent NO_PARENT
       end.

Definition build_children_csr (nodes : list TrieNode) : list Z * list Z :=
  let counts := foldl (fun counts node =>
      let parent := tn_parent_idx node in
      if negb (parent =? NO_PARENT) then bump counts parent else counts)
    (zrepeat 0 (zlen nodes)) nodes in
  let offsets := prefix_sums 0 counts in
  let running := foldl saturating_add_u32 0 counts in
  let indices := zrepeat 0 running in
  let write_pos := offsets in
  let (_, indices) := foldl (fun st (it : Z * TrieNode) =>
      let parent := tn_parent_idx it.2 in
      if negb (parent =? NO_PARENT) then scatter_step st (parent, len_to_u32 it.1) else st)
    (write_pos, indices) (enumerate nodes) in
  (offsets, indices).

Definition build (records : list CompactRecord) (names : list Z) : PathTrie :=
  let collected := collect names (enumerate records) in
  let nodes := map (translate (record_to_trie collected)) (col_nodes collected) in
  let (child_offsets, child_indices) := build_children_csr nodes in
  mkPathTrie nodes (trie_names collected) child_offsets child_indices.

(** [from_raw_parts]: the sum of a [u32] and a [u16] does not overflow a [usize]. *)
Definition node_in_bounds (names : list Z) (node : TrieNode) : bool :=
  tn_name_offset node + tn_name_len node <=? zlen names.

Definition from_raw_parts (nodes : list TrieNode) (names child_offsets child_indices : list Z) : option PathTrie :=
  if negb (zlen child_offsets =? zlen nodes + 1) then None else
  let expected_indices_len := default 0 (last child_offsets) in
  if negb (zlen child_indices =? expected_indices_len) then None else
  if negb (forallb (node_in_bounds names) nodes) then None else
  Some (mkPathTrie nodes names child_offsets child_indices).

(** * Queries *)

Definition len (trie : PathTrie) : Z := zlen (pt_nodes trie).
Definition is_empty (trie : PathTrie) : bool := zlen (pt_nodes trie) =? 0.

Definition name_of (trie : PathTrie) (idx : Z) : option (list Z) :=
  let? node := zget (pt_nodes trie) idx in
  let start := tn_name_offset node in
  let stop := start + tn_name_len node in
  get_range (pt_names trie) start stop.

Definition parent_of (trie : PathTrie) (idx : Z) : option Z :=
  let? node := zget (pt_nodes trie) idx in
  if tn_parent_idx node =? NO_PARENT then None else Some (tn_parent_idx node).

Definition children_of (trie : PathTrie) (idx : Z) : list Z :=
  match zget (pt_child_offsets trie) idx with
  | None => []
  | Some start =>
      match zget (pt_child_offsets trie) (idx + 1) with
      | None => []
      | Some stop => default [] (get_range (pt_child_indices trie) start stop)
      end
  end.

Definition roots (trie : PathTrie) : list Z :=
  foldl (fun roots (it : Z * TrieNode) =>
      let (idx, node) := it in
      if tn_parent_idx node =? NO_PARENT then roots ++ [len_to_u32 idx] else roots)
    [] (enumerate (pt_nodes trie)).

(** [find(|&idx| self.name_of(idx) == Some(segment))]. *)
Definition named (trie : PathTrie) (segment : list Z) (idx : Z) : bool :=
  bool_decide (name_of trie idx = Some segment).

Fixpoint descend (trie : PathTrie) (current : Z) (segments : list (list Z)) : option Z :=
  match segments with
  | [] => Some current
  | segment :: segments =>
      let? child_idx := List.find (named trie segment) (children_of trie current) in
      descend trie child_idx segments
  end.

Definition lookup_path (trie : PathTrie) (segments : list (list Z)) : option Z :=
  match segments with
  | [] => None
  | first :: rest =>
      let? current := List.find (named trie first) (roots trie) in
      descend trie current rest
  end.

(** The loop of [full_path]: the outer [None] is the fuel running out. *)
Fixpoint path_loop (fuel : nat) (trie : PathTrie) (cursor : Z) (segments_reversed : list (list Z)) :
    option (option (list (list Z))) :=
  match fuel with
  | O => None
  | S fuel =>
      match name_of trie cursor with
      | None => Some None
      | Some name =>
          let segments_reversed := segments_reversed ++ [name] in
          match parent_of trie cursor with
          | Some parent => path_loop fuel trie parent segments_reversed
          | None => Some (Some segments_reversed)
          end
      end
  end.

Definition join_step (out : list Z) (it : Z * list Z) : list Z :=
  let (idx_in_chain, segment) := it in
  (if 0 <? idx_in_chain then out ++ [47] else out) ++ segment.

Definition full_path (fuel : nat) (trie : PathTrie) (idx : Z) : option (option (list Z)) :=
  if zlen (pt_nodes trie) <=? idx then Some None else
  match path_loop fuel trie idx [] with
  | None => None
  | Some None => Some None
  | Some (Some segments_reversed) =>
      Some (Some (foldl join_step [] (enumerate (rev segments_reversed))))
  end.

(** * The nodes are the directories *)

(** The directories with their record indices, in order. *)
Definition dirs_of (items : list (Z * CompactRecord)) : list (Z * CompactRecord) :=
  List.filter (fun it => is_directory it.2) items.

Definition dirs (records : list CompactRecord) : list (Z * CompactRecord) := dirs_of (enumerate records).

(** A node is the one of a directory. *)
Definition node_for (names buffer : list Z) (it : Z * CompactRecord) (node : TrieNode) : Prop :=
  tn_parent_idx node = parent_idx it.2 /\ tn_name_len node = name_len it.2 /\
  forall s, get_range names (name_offset it.2) (name_offset it.2 + name_len it.2) = Some s ->
    get_range buffer (tn_name_offset node) (tn_name_offset node + tn_name_len node) = Some s.

Record collected_ok (names : list Z) (items : list (Z * CompactRecord)) (st : Collected) : Prop := {
  col_len : zlen (col_nodes st) = zlen (dirs_of items);
  col_node i it : zget (dirs_of items) i = Some it ->
    exists node, zget (col_nodes st) i = Some node /\ node_for names (trie_names st) it node;
  col_map r i : record_to_trie st !! r = Some i <-> (exists it, zget (dirs_of items) i = Some it /\ it.1 = r)
}.

Lemma dirs_of_app a b : dirs_of (a ++ b) = dirs_of a ++ dirs_of b.
Proof. apply List.filter_app. Qed.

Lemma node_for_grow names buffer more it node :
  node_for names buffer it node -> node_for names (buffer ++ more) it node.
Proof.
  intros (Hp & Hl & Hs). split; [done |]. split; [done |]. intros s H%Hs.
  pose proof H as (_ & Hb & _)%get_range_Some. by rewrite get_range_app_l.
Qed.

Lemma get_range_end {A} (l s : list A) : get_range (l ++ s) (zlen l) (zlen l + zlen s) = Some s.
Proof. rewrite <- (app_nil_r s) at 1. by apply get_range_mid. Qed.

Lemma collect_snoc names items it :
  collect names (items ++ [it]) = collect_step names (collect names items) it.
Proof. unfold collect. by rewrite foldl_app. Qed.

Lemma collect_names_mono names items more :
  exists s, trie_names (collect names (items ++ more)) = trie_names (collect names items) ++ s.
Proof.
  induction more as [|[i rec] more IH] using rev_ind; [exists []; by rewrite !app_nil_r |].
  destruct IH as [s Hs]. rewrite app_assoc, collect_snoc. unfold collect_step.
  destruct (negb _); [by exists s |]. cbn [trie_names]. rewrite Hs, <- app_assoc. eauto.
Qed.

Lemma zget_is_Some_nil {A} i (x : A) : zget [] i = Some x -> False.
Proof. intros [H _]%zget_Some. change (zlen []) with 0 in H. lia. Qed.

Lemma zget_snoc {A} (l : list A) x i y :
  zget (l ++ [x]) i = Some y <-> zget l i = Some y \/ i = zlen l /\ x = y.
Proof.
  destruct (decide (i < zlen l)) as [Hi | Hi].
  - rewrite zget_app_l by done. naive_solver lia.
  - rewrite zget_app_r by lia. split.
    + intros H. pose proof H as [Hb _]%zget_Some. change (zlen [x]) with 1 in Hb. right.
      replace (i - zlen l) with 0 in H by lia. injection H as ->. split; [lia | done].
    + intros [[Hb _]%zget_Some | [-> ->]]; [lia |]. by rewrite Z.sub_diag.
Qed.

Lemma sorted_snoc_notin l r : StronglySorted Z.lt (l ++ [r]) -> r ∉ l.
Proof.
  induction l as [|x l IH]; intros Hs Hin; [by apply not_elem_of_nil in Hin |].
  cbn in Hs. apply StronglySorted_inv in Hs as [Hs Hf].
  apply elem_of_cons in Hin as [<- | Hin]; [|by apply IH].
  apply Forall_app in Hf as [_ Hf]. apply Forall_cons in Hf as [Hf _]. lia.
Qed.

Lemma zlen_dirs_of items : zlen (dirs_of items) <= zlen items.
Proof.
  unfold zlen, dirs_of. pose proof (sublist_length _ _ (filter_sublist (fun it : Z * CompactRecord => is_directory it.2) items)). lia.
Qed.

(** A directory is added with the next index. *)
Lemma collect_dir names items st r rec :
  collected_ok names items st -> is_directory rec = true -> r ∉ items.*1 -> 0 <= r < U32_MAX ->
  zlen items < 2 ^ 32 -> zlen (trie_names st) < 2 ^ 32 ->
  collected_ok names (items ++ [(r, rec)]) (collect_step names st (r, rec)).
Proof.
  intros [H1 H2 H3] Ed Hr Hr32 Hl Hn. unfold collect_step. rewrite Ed. cbn [negb].
  assert (Ef : dirs_of (items ++ [(r, rec)]) = dirs_of items ++ [(r, rec)]) by (rewrite dirs_of_app; cbn; by rewrite Ed).
  pose proof (zlen_dirs_of items).
  assert (En : len_to_u32 (zlen (col_nodes st)) = zlen (dirs_of items)) by (unfold len_to_u32, U32_MAX; rewrite H1; zcases; lia).
  assert (Er : len_to_u32 r = r) by (unfold len_to_u32, U32_MAX in *; zcases; lia).
  split; rewrite Ef; cbn [col_nodes record_to_trie trie_names]; [by rewrite !zlen_app, H1 | |].
  - intros i it [Hi | [-> <-]]%zget_snoc.
    + destruct (H2 i it Hi) as (node & Hnode & Hfor). exists node. split; [by apply zget_app_Some | by apply node_for_grow].
    + eexists. split; [apply zget_snoc; right; by rewrite H1 |]. split; [done |]. split; [done |].
      cbn [tn_name_offset tn_name_len fst snd]. intros t Ht. rewrite Ht. cbn [default from_option].
      apply get_range_len in Ht as Htl. rewrite Z.add_simpl_l in Htl. unfold len_to_u32, U32_MAX.
      replace (_ <=? _) with true by lia. rewrite <- Htl. apply get_range_end.
  - intros q i. rewrite Er, En, lookup_insert_Some, H3. split.
    + intros [[<- <-] | [Hq (it & Hi & Hf)]]; [exists (r, rec) | exists it]; rewrite zget_snoc; eauto.
    + intros (it & [Hi | [-> <-]]%zget_snoc & <-); [right | by left]. split; [|eauto].
      intros ->. apply Hr. apply zget_elem, elem_of_filterb in Hi as [Hi _]. apply list_elem_of_fmap. eauto.
Qed.

Lemma collect_ok names items :
  StronglySorted Z.lt items.*1 -> Forall (fun it => 0 <= it.1 < U32_MAX) items ->
  zlen items < 2 ^ 32 -> zlen (trie_names (collect names items)) < 2 ^ 32 ->
  collected_ok names items (collect names items).
Proof.
  induction items as [|[r rec] items IH] using rev_ind; intros Hs Hr Hl Hn.
  { split; [done | |]; [by intros i it H%zget_is_Some_nil |].
    intros r i. cbn. rewrite lookup_empty. split; [done |]. by intros (it & H%zget_is_Some_nil & _). }
  rewrite fmap_app in Hs. apply Forall_app in Hr as [Hr [Hr1 _]%Forall_cons].
  rewrite zlen_app in Hl. change (zlen [(r, rec)]) with 1 in Hl.
  destruct (collect_names_mono names items [(r, rec)]) as [s Hn'].
  assert (Hn0 : zlen (trie_names (collect names items)) < 2 ^ 32) by (rewrite Hn', zlen_app in Hn; pose proof (zlen_nonneg s); lia).
  assert (Hs0 : StronglySorted Z.lt items.*1) by (eapply sublist_sorted; [|exact Hs]; by apply sublist_inserts_r).
  specialize (IH Hs0 Hr ltac:(lia) Hn0). rewrite collect_snoc. destruct (is_directory rec) eqn:Ed.
  - assert (Hni : r ∉ items.*1) by by apply sorted_snoc_notin.
    apply collect_dir; [exact IH | exact Ed | exact Hni | exact Hr1 | lia | exact Hn0].
  - assert (Ef : dirs_of (items ++ [(r, rec)]) = dirs_of items) by (rewrite dirs_of_app; cbn; rewrite Ed; apply app_nil_r).
    unfold collect_step. rewrite Ed. destruct IH as [H1 H2 H3]. by split; rewrite Ef.
Qed.

(** * Coherence *)

(** The directories whose parent is [i], and those without one, ascending. *)
Definition kids (trie : PathTrie) (i : Z) : list Z :=
  List.filter (fun j => bool_decide (parent_of trie j = Some i)) (seqZ 0 (len trie)).
Definition orphans (trie : PathTrie) : list Z :=
  List.filter (fun j => bool_decide (parent_of trie j = None)) (seqZ 0 (len trie)).

Record trie_ok (trie : PathTrie) : Prop := {
  ok_len : len trie < 2 ^ 32;
  ok_parent i p : parent_of trie i = Some p -> 0 <= p < len trie;
  ok_children i : 0 <= i -> children_of trie i = kids trie i
}.

Lemma parent_of_in_range trie i p : parent_of trie i = Some p -> 0 <= i < len trie.
Proof.
  unfold parent_of. destruct (zget (pt_nodes trie) i) eqn:E; [|done]. intros _.
  by apply zget_Some in E as [? _].
Qed.

Lemma elem_of_kids trie i j : j ∈ kids trie i <-> parent_of trie j = Some i.
Proof.
  unfold kids. rewrite elem_of_filterb, bool_decide_eq_true, elem_of_seqZ. split; [by intros [_ ?] |].
  intros H. split; [|done]. apply parent_of_in_range in H. lia.
Qed.

(** Indices into the nodes, as filtered positions. *)
Lemma indices_where_seq {A} (f : A -> bool) (g : Z -> bool) (l : list A) :
  (forall j x, zget l j = Some x -> g j = f x) -> indices_where f l = List.filter g (seqZ 0 (zlen l)).
Proof.
  intros H. rewrite <- fst_enumerate. unfold indices_where.
  assert (Hl : forall it, it ∈ enumerate l -> g it.1 = f it.2)
    by (intros [j x] Hx%elem_of_enumerate; by apply H).
  induction (enumerate l) as [|it e IH]; [done |]. cbn. rewrite Hl by (by left).
  rewrite <- IH by (intros; apply Hl; by right). by destruct (f it.2).
Qed.

Lemma roots_orphans trie : len trie < 2 ^ 32 -> roots trie = orphans trie.
Proof.
  intros Hl. unfold orphans, len. erewrite <- (indices_where_seq (fun node => tn_parent_idx node =? NO_PARENT)).
  2:{ intros j node Hj. unfold parent_of. rewrite Hj. destruct (_ =? _); done. }
  unfold roots, indices_where.
  assert (Hi : forall it, it ∈ enumerate (pt_nodes trie) -> len_to_u32 it.1 = it.1).
  { intros [j x] Hx%elem_of_enumerate. apply zget_Some in Hx as [Hx _]. unfold len_to_u32, U32_MAX, len in *. cbn. zcases; lia. }
  change (List.filter ?f ?l) with ([] ++ List.filter f l) at 1.
  enough (forall acc, foldl (fun roots (it : Z * TrieNode) => let (idx, node) := it in
      if tn_parent_idx node =? NO_PARENT then roots ++ [len_to_u32 idx] else roots) acc (enumerate (pt_nodes trie))
    = acc ++ map fst (List.filter (fun it : Z * TrieNode => tn_parent_idx it.2 =? NO_PARENT) (enumerate (pt_nodes trie)))) as H by apply H.
  induction (enumerate (pt_nodes trie)) as [|[j node] l IH]; intros acc; [by rewrite app_nil_r |].
  cbn [foldl List.filter snd]. specialize (IH (fun it Hit => Hi it (list_elem_of_further _ _ _ Hit))).
  pose proof (Hi (j, node) (list_elem_of_here _ _)) as Hj. cbn in Hj. rewrite Hj.
  destruct (_ =? _); rewrite IH; [cbn; by rewrite <- app_assoc | done].
Qed.

(** ** A built trie is coherent *)

Lemma zlen_enumerate {A} (l : list A) : zlen (enumerate l) = zlen l.
Proof. unfold enumerate, zlen. rewrite length_zip_with, length_seqZ. unfold zlen. lia. Qed.

Section built.
Context (records : list CompactRecord) (names : list Z).
Context (Hrecords : zlen records < 2 ^ 32) (Hnames : zlen (pt_names (build records names)) < 2 ^ 32).

Lemma pt_names_build : pt_names (build records names) = trie_names (collect names (enumerate records)).
Proof using Type. unfold build. by destruct (build_children_csr _). Qed.

Lemma pt_nodes_build :
  pt_nodes (build records names) =
  map (translate (record_to_trie (collect names (enumerate records)))) (col_nodes (collect names (enumerate records))).
Proof using Type. unfold build. by destruct (build_children_csr _). Qed.

Lemma collected_build : collected_ok names (enumerate records) (collect names (enumerate records)).
Proof using Hrecords Hnames.
  apply collect_ok.
  - rewrite fst_enumerate. apply seqZ_sorted.
  - apply Forall_forall. intros [r rec] H%elem_of_enumerate. apply zget_Some in H as [H _]. unfold U32_MAX. cbn. lia.
  - by rewrite zlen_enumerate.
  - by rewrite <- pt_names_build.
Qed.

Lemma len_build : len (build records names) = zlen (dirs records).
Proof using Hrecords Hnames. unfold len. rewrite pt_nodes_build, zlen_map. apply (col_len _ _ _ collected_build). Qed.

Lemma len_build_bound : len (build records names) < 2 ^ 32.
Proof using Hrecords Hnames.
  rewrite len_build. unfold dirs. pose proof (zlen_dirs_of (enumerate records)) as H. rewrite zlen_enumerate in H. lia.
Qed.

(** A node of the trie, from its directory. *)
Lemma node_build i it :
  zget (dirs records) i = Some it ->
  exists node, zget (pt_nodes (build records names)) i = Some node /\
    name_of (build records names) i = get_range (pt_names (build records names)) (tn_name_offset node) (tn_name_offset node + tn_name_len node) /\
    (forall s, get_range names (name_offset it.2) (name_offset it.2 + name_len it.2) = Some s -> name_of (build records names) i = Some s) /\
    tn_parent_idx node = (if parent_idx it.2 =? U32_MAX then NO_PARENT
      else default NO_PARENT (record_to_trie (collect names (enumerate records)) !! parent_idx it.2)).
Proof using Hrecords Hnames.
  intros Hi. destruct (col_node _ _ _ collected_build i it Hi) as (node & Hn & Hp & Hl & Hs).
  set (tr := translate (record_to_trie (collect names (enumerate records)))).
  assert (Ht : zget (pt_nodes (build records names)) i = Some (tr node)) by (rewrite pt_nodes_build, zget_map, Hn; done).
  assert (Hk : tn_name_offset (tr node) = tn_name_offset node /\ tn_name_len (tr node) = tn_name_len node /\
    tn_parent_idx (tr node) = (if parent_idx it.2 =? U32_MAX then NO_PARENT
      else default NO_PARENT (record_to_trie (collect names (enumerate records)) !! parent_idx it.2))).
  { unfold tr, translate. rewrite Hp. destruct (_ =? U32_MAX); [done |]. by destruct (_ !! _). }
  destruct Hk as (Ho & Hl' & Hpt). exists (tr node). split; [done |].
  assert (Hname : name_of (build records names) i = get_range (pt_names (build records names)) (tn_name_offset (tr node)) (tn_name_offset (tr node) + tn_name_len (tr node)))
    by (unfold name_of; by rewrite Ht).
  split; [done |]. split; [|done]. intros s Hr. rewrite Hname, Ho, Hl', pt_names_build. by apply Hs.
Qed.

Lemma dirs_bound i it : zget (dirs records) i = Some it -> 0 <= i < 2 ^ 32 - 1 /\ 0 <= it.1 < 2 ^ 32 - 1 /\ zget records it.1 = Some it.2.
Proof using Hrecords.
  intros Hi. apply zget_Some in Hi as [Hi Hz]. pose proof (zlen_dirs_of (enumerate records)) as Hd.
  pose proof (zlen_enumerate records) as He.
  assert (Hr : zget records it.1 = Some it.2).
  { apply list_elem_of_lookup_2, elem_of_filterb in Hz as [Hz _]. destruct it. by apply elem_of_enumerate in Hz. }
  pose proof Hr as [Hr' _]%zget_Some. unfold dirs in Hi. split; [lia |]. split; [lia | done].
Qed.

(** The parent of a node is the node of its directory's parent. *)
Lemma parent_build i p it :
  zget (dirs records) i = Some it ->
  parent_of (build records names) i = Some p <->
  exists it', zget (dirs records) p = Some it' /\ it'.1 = parent_idx it.2.
Proof using Hrecords Hnames.
  intros Hi. destruct (node_build i it Hi) as (node & Hn & _ & _ & Hp). unfold parent_of. rewrite Hn, Hp.
  pose proof (col_map _ _ _ collected_build) as Hm. fold (dirs records) in Hm.
  destruct (Z.eqb_spec (parent_idx it.2) U32_MAX) as [He | He].
  - cbn. split; [done |]. intros (it' & Hp' & E). apply dirs_bound in Hp'. unfold U32_MAX in He. lia.
  - destruct (_ !! parent_idx it.2) as [q |] eqn:E; cbn [default from_option].
    + destruct (proj1 (Hm _ _) E) as (it' & Hq & E'). pose proof (dirs_bound _ _ Hq) as [Hb _].
      unfold NO_PARENT, U32_MAX, id. replace (q =? 2 ^ 32 - 1) with false by lia. split.
      * intros [= <-]. eauto.
      * intros (jt & Hj & Ej). rewrite (proj2 (Hm (parent_idx it.2) p)) in E by eauto. by injection E as ->.
    + cbn. split; [done |]. intros (it' & Hp' & E'). by rewrite (proj2 (Hm (parent_idx it.2) p)) in E by eauto.
Qed.

Lemma build_csr : build_children_csr (pt_nodes (build records names)) =
  (pt_child_offsets (build records names), pt_child_indices (build records names)).
Proof using Type. rewrite pt_nodes_build. unfold build. by destruct (build_children_csr _). Qed.

Lemma parent_build_range i p : parent_of (build records names) i = Some p -> 0 <= p < len (build records names).
Proof using Hrecords Hnames.
  intros H. pose proof (parent_of_in_range _ _ _ H) as Hi. rewrite len_build in Hi |- *.
  destruct (zget_is_Some (dirs records) i Hi) as [it Hit]. apply (parent_build i p it Hit) in H as (jt & Hj & _).
  by apply zget_Some in Hj as [? _].
Qed.

Lemma children_build i : 0 <= i -> children_of (build records names) i = kids (build records names) i.
Proof using Hrecords Hnames.
  intros Hi. pose proof len_build_bound as Hl. pose proof build_csr as Hc. unfold build_children_csr in Hc.
  set (nodes := pt_nodes (build records names)) in *. change (len (build records names)) with (zlen nodes) in Hl.
  pose proof (csr_keyed (fun node => negb (tn_parent_idx node =? NO_PARENT)) tn_parent_idx nodes (zlen nodes) i Hl (zlen_nonneg _) Hi) as H.
  cbv zeta in H. destruct (foldl _ _ (enumerate nodes)) as [wp indices]. injection Hc as Ho Hv. cbn [snd] in H.
  rewrite Ho, Hv in H. unfold csr_slice in H. unfold children_of.
  assert (Hcs : zlen (pt_child_offsets (build records names)) = zlen nodes + 1).
  { rewrite <- Ho, zlen_prefix_sums, foldl_guard, zlen_counts, zlen_zrepeat; [done | apply zlen_nonneg]. }
  destruct (Z.ltb_spec i (zlen nodes)) as [Hin | Hin].
  - destruct (zget_is_Some (pt_child_offsets (build records names)) i ltac:(lia)) as [a Ha].
    destruct (zget_is_Some (pt_child_offsets (build records names)) (i + 1) ltac:(lia)) as [b Hb].
    rewrite Ha, Hb in *. refine (eq_trans H _). apply indices_where_seq. intros j node Hj. cbv beta.
    assert (Hpo : parent_of (build records names) j = if tn_parent_idx node =? NO_PARENT then None else Some (tn_parent_idx node))
      by (unfold parent_of; by rewrite Hj).
    rewrite Hpo. unfold NO_PARENT. zcases; cbn; try done; case_bool_decide; naive_solver lia.
  - replace (zget (pt_child_offsets (build records names)) (i + 1)) with (@None Z) by (symmetry; apply zget_None; lia).
    replace (match zget _ i with Some _ => [] | None => [] end) with (@nil Z) by (by destruct (zget _ i)).
    symmetry. destruct (kids _ i) as [|j l] eqn:E; [done |]. exfalso.
    assert (Hj : j ∈ kids (build records names) i) by (rewrite E; by left).
    apply elem_of_kids, parent_build_range in Hj. unfold len in Hj. fold nodes in Hj. lia.
Qed.

Lemma build_ok : trie_ok (build records names).
Proof using Hrecords Hnames.
  split; [apply len_build_bound | apply parent_build_range | apply children_build].
Qed.

End built.

(** * Paths *)

(** [at_path trie i segments]: the names from a root down to [i]. *)
Inductive at_path (trie : PathTrie) : Z -> list (list Z) -> Prop :=
| at_root i s : 0 <= i < len trie -> parent_of trie i = None -> name_of trie i = Some s -> at_path trie i [s]
| at_child i p s segments :
    at_path trie p segments -> parent_of trie i = Some p -> name_of trie i = Some s ->
    at_path trie i (segments ++ [s]).

(** No two roots and no two children of a directory have the same name. *)
Definition siblings_distinct (trie : PathTrie) : Prop :=
  forall i j, 0 <= i < len trie -> 0 <= j < len trie ->
    parent_of trie i = parent_of trie j -> name_of trie i = name_of trie j -> i = j.

Lemma at_path_range trie i segments : at_path trie i segments -> 0 <= i < len trie.
Proof. destruct 1; [done |]. by eapply parent_of_in_range. Qed.

Lemma at_path_fun trie i segs segs' : at_path trie i segs -> at_path trie i segs' -> segs = segs'.
Proof.
  intros H. revert segs'. induction H as [i s Hi Hp Hn | i p s segs Hp' IH Hp Hn]; intros segs' H'; inversion H'; subst; try congruence.
  f_equal; [apply IH; congruence | congruence].
Qed.

Lemma find_spec {A} (f : A -> bool) l x : List.find f l = Some x -> x ∈ l /\ f x = true.
Proof. intros [H1 H2]%List.find_some. split; [by apply list_elem_of_In | done]. Qed.

Lemma find_unique {A} (f : A -> bool) l x :
  x ∈ l -> f x = true -> (forall y, y ∈ l -> f y = true -> y = x) -> List.find f l = Some x.
Proof.
  intros Hx Hf Hu. destruct (List.find f l) as [y |] eqn:E; [apply find_spec in E as [H1 H2]; by rewrite (Hu y) |].
  apply list_elem_of_In in Hx. by rewrite (List.find_none _ _ E x Hx) in Hf.
Qed.

Section walks.
Context (trie : PathTrie) (Hok : trie_ok trie).

Lemma descend_sound current segs above d :
  at_path trie current above -> descend trie current segs = Some d -> at_path trie d (above ++ segs).
Proof using Hok.
  revert current above. induction segs as [|s segs IH]; intros current above Ha H; cbn [descend] in H.
  { injection H as <-. by rewrite app_nil_r. }
  destruct (List.find _ _) as [c |] eqn:E; [|done]. apply find_spec in E as [Hc Hn].
  pose proof (at_path_range _ _ _ Ha). rewrite (ok_children _ Hok) in Hc by lia. apply elem_of_kids in Hc.
  apply bool_decide_eq_true in Hn. rewrite cons_middle, app_assoc.
  apply (IH c); [|done]. by eapply at_child.
Qed.

Lemma descend_app current a b :
  descend trie current (a ++ b) = let? d := descend trie current a in descend trie d b.
Proof using Type.
  revert current. induction a as [|s a IH]; intros current; [done |]. cbn. by destruct (List.find _ _).
Qed.

Lemma roots_spec i : i ∈ roots trie <-> 0 <= i < len trie /\ parent_of trie i = None.
Proof using Hok.
  rewrite roots_orphans by apply Hok. unfold orphans. rewrite elem_of_filterb, elem_of_seqZ, bool_decide_eq_true.
  by rewrite Z.add_0_l.
Qed.

(** A path that is found names its directory. *)
Lemma lookup_sound segs d : lookup_path trie segs = Some d -> at_path trie d segs.
Proof using Hok.
  destruct segs as [|s segs]; cbn; [done |]. destruct (List.find _ _) as [r |] eqn:E; [|done].
  apply find_spec in E as [[Hr Hp]%roots_spec Hn]. apply bool_decide_eq_true in Hn.
  apply (descend_sound r segs [s]). by constructor.
Qed.

Lemma lookup_complete segs d : siblings_distinct trie -> at_path trie d segs -> lookup_path trie segs = Some d.
Proof using Hok.
  intros Hd. induction 1 as [i s Hi Hp Hn | i p s segs Ha IH Hp Hn].
  - cbn. erewrite (find_unique _ _ i); [done | by apply roots_spec | by apply bool_decide_eq_true |].
    intros j [Hj Hjp]%roots_spec Hjn%bool_decide_eq_true. apply Hd; [done | done | congruence | congruence].
  - destruct segs as [|first rest]; [by inversion Ha; destruct segments |].
    change ((first :: rest) ++ [s]) with (first :: (rest ++ [s])). cbn [lookup_path] in IH |- *.
    destruct (List.find _ (roots trie)) as [r |]; [|done]. rewrite descend_app, IH. cbn.
    pose proof (at_path_range _ _ _ Ha). rewrite (ok_children _ Hok) by lia.
    erewrite (find_unique _ _ i); [done | by apply elem_of_kids | by apply bool_decide_eq_true |].
    intros j Hj%elem_of_kids Hjn%bool_decide_eq_true.
    apply Hd; [by eapply parent_of_in_range | by eapply parent_of_in_range | congruence | congruence].
Qed.

(** The directories on a path are distinct, so a path is no longer than the trie. *)
Lemma at_path_chain i segs : at_path trie i segs ->
  exists chain : list Z, length chain = length segs /\ NoDup chain /\
    forall x, x ∈ chain -> 0 <= x < len trie /\ exists above, at_path trie x above /\ (length above <= length segs)%nat.
Proof using Type.
  induction 1 as [i s Hi Hp Hn | i p s segs Ha (chain & Hl & Hnd & Hc) Hp Hn].
  - exists [i]. split; [done |]. split; [apply NoDup_singleton |]. intros x ->%list_elem_of_singleton.
    split; [done |]. exists [s]. split; [by constructor | done].
  - exists (i :: chain). rewrite length_app. cbn. split; [lia |]. split.
    + constructor; [|done]. intros (_ & above & Hab & Hle)%Hc.
      assert (Hi : at_path trie i (segs ++ [s])) by by eapply at_child.
      pose proof (at_path_fun _ _ _ _ Hi Hab) as <-. rewrite length_app in Hle. cbn in Hle. lia.
    + intros x [-> | Hx]%elem_of_cons.
      * split; [by eapply parent_of_in_range |]. exists (segs ++ [s]). split; [by eapply at_child |].
        rewrite length_app. done.
      * destruct (Hc x Hx) as (Hr & above & Hab & Hle). split; [done |]. exists above. split; [done | lia].
Qed.

Lemma at_path_length i segs : at_path trie i segs -> (length segs <= length (pt_nodes trie))%nat.
Proof using Type.
  intros (chain & <- & Hnd & Hc)%at_path_chain.
  assert (Hs : chain ⊆+ seqZ 0 (len trie)).
  { apply NoDup_submseteq; [done |]. intros x [Hx _]%Hc. apply elem_of_seqZ. lia. }
  apply submseteq_length in Hs. rewrite length_seqZ in Hs. unfold len, zlen in Hs. lia.
Qed.

(** ** The upward walk *)

Lemma path_loop_spec fuel i segs acc :
  at_path trie i segs -> (length segs <= fuel)%nat -> path_loop fuel trie i acc = Some (Some (acc ++ rev segs)).
Proof using Type.
  intros H. revert fuel acc. induction H as [i s Hi Hp Hn | i p s segs Ha IH Hp Hn]; intros fuel acc Hf.
  - destruct fuel; [cbn in Hf; lia |]. cbn. by rewrite Hn, Hp.
  - rewrite length_app in Hf. destruct fuel; [cbn in Hf; lia |]. cbn [path_loop]. rewrite Hn, Hp, IH by (cbn in Hf; lia).
    by rewrite rev_app_distr, <- app_assoc.
Qed.

Lemma path_loop_done fuel i acc out :
  0 <= i < len trie -> path_loop fuel trie i acc = Some (Some out) -> exists segs, at_path trie i segs.
Proof using Hok.
  revert i acc. induction fuel as [|fuel IH]; intros i acc Hi H; [done |]. cbn in H.
  destruct (name_of trie i) as [s |] eqn:En; [|done]. destruct (parent_of trie i) as [p |] eqn:Ep.
  - apply IH in H as [segs Hs]; [|by eapply ok_parent]. exists (segs ++ [s]). by eapply at_child.
  - exists [s]. by constructor.
Qed.

End walks.

(** The segments joined with slashes. *)
Definition joined (segs : list (list Z)) : list Z :=
  match segs with
  | [] => []
  | s :: rest => s ++ concat (map (fun t => 47 :: t) rest)
  end.

Lemma join_rest k segs out :
  0 < k -> foldl join_step out (zip (seqZ k (zlen segs)) segs) = out ++ concat (map (fun t => 47 :: t) segs).
Proof.
  revert k out. induction segs as [|s segs IH]; intros k out Hk; [by rewrite app_nil_r |].
  pose proof (zlen_nonneg segs). rewrite zlen_cons, seqZ_cons by lia.
  replace (Z.pred (1 + zlen segs)) with (zlen segs) by lia. cbn [zip zip_with foldl join_step map concat].
  rewrite IH by lia. replace (0 <? k) with true by lia. by rewrite <- !app_assoc.
Qed.

Lemma join_eq segs : foldl join_step [] (enumerate segs) = joined segs.
Proof.
  destruct segs as [|s segs]; [done |]. unfold enumerate. pose proof (zlen_nonneg segs).
  rewrite zlen_cons, seqZ_cons by lia. replace (Z.pred (1 + zlen segs)) with (zlen segs) by lia.
  cbn [zip zip_with foldl join_step]. by rewrite join_rest.
Qed.

Lemma full_path_at fuel trie i segs :
  at_path trie i segs -> (length (pt_nodes trie) <= fuel)%nat -> full_path fuel trie i = Some (Some (joined segs)).
Proof.
  intros Ha Hf. pose proof (at_path_range _ _ _ Ha). pose proof (at_path_length _ _ _ Ha).
  unfold full_path. unfold len in *. replace (zlen (pt_nodes trie) <=? i) with false by lia.
  rewrite (path_loop_spec _ _ _ segs) by (done || lia). by rewrite app_nil_l, rev_involutive, join_eq.
Qed.

Lemma full_path_rooted fuel trie i out :
  trie_ok trie -> 0 <= i -> full_path fuel trie i = Some (Some out) -> exists segs, at_path trie i segs.
Proof.
  intros Hok Hi H. unfold full_path in H. destruct (Z.leb_spec (zlen (pt_nodes trie)) i); [done |].
  destruct (path_loop fuel trie i []) as [[o |] |] eqn:E; [|done..]. eapply path_loop_done; [done | | done]. unfold len. lia.
Qed.

Lemma path_loop_at fuel trie i acc out segs :
  path_loop fuel trie i acc = Some (Some out) -> at_path trie i segs -> out = acc ++ rev segs.
Proof.
  intros H Ha. revert fuel acc H. induction Ha as [i s Hi Hp Hn | i p s segs Ha IH Hp Hn]; intros [|fuel] acc H; try done;
    cbn in H; rewrite Hn, Hp in H; [by injection H as <- |].
  rewrite (IH _ _ H), rev_app_distr. by rewrite <- app_assoc.
Qed.

(** Without a missing name the walk only ends at a root. *)
Lemma path_loop_unrooted fuel trie i acc :
  trie_ok trie -> (forall j, 0 <= j < len trie -> name_of trie j <> None) -> 0 <= i < len trie ->
  (forall segs, ~ at_path trie i segs) -> path_loop fuel trie i acc = None.
Proof.
  intros Hok Hn Hi Hp. destruct (path_loop fuel trie i acc) as [[out |] |] eqn:E; [| |done]; exfalso.
  - apply path_loop_done in E as [segs Hs]; [by eapply Hp | done | done].
  - clear Hp. revert i acc Hi E. induction fuel as [|fuel IH]; intros i acc Hi E; [done |]. cbn in E.
    destruct (name_of trie i) eqn:En; [|by eapply Hn]. destruct (parent_of trie i) as [p |] eqn:Ep; [|done].
    eapply (IH p); [by eapply ok_parent | done].
Qed.

(** ** The directories of a built trie *)

Lemma dirs_fst_inj records i j it jt :
  zget (dirs records) i = Some it -> zget (dirs records) j = Some jt -> it.1 = jt.1 -> i = j.
Proof.
  assert (Hs : StronglySorted Z.lt (dirs records).*1).
  { eapply sublist_sorted; [apply map_fst_filter_sublist |]. rewrite fst_enumerate. apply seqZ_sorted. }
  intros Hi Hj E. assert (Hz : forall k kt, zget (dirs records) k = Some kt -> zget ((dirs records).*1) k = Some kt.1)
    by (intros k kt H; change ((dirs records).*1) with (map fst (dirs records)); by rewrite zget_map, H).
  destruct (Z.lt_trichotomy i j) as [H | [H | H]]; [| done |].
  - pose proof (StronglySorted_zget _ _ i j _ _ Hs H (Hz _ _ Hi) (Hz _ _ Hj)). lia.
  - pose proof (StronglySorted_zget _ _ j i _ _ Hs H (Hz _ _ Hj) (Hz _ _ Hi)). lia.
Qed.

Lemma bool_decide_ext_eqb (P : Prop) `{Decision P} (a b : Z) : (P <-> a = b) -> bool_decide P = (a =? b).
Proof. intros HP. destruct (Z.eqb_spec a b); case_bool_decide; tauto. Qed.

Lemma kids_build records names i it :
  zlen records < 2 ^ 32 -> zlen (pt_names (build records names)) < 2 ^ 32 -> zget (dirs records) i = Some it ->
  kids (build records names) i = indices_where (fun jt => parent_idx jt.2 =? it.1) (dirs records).
Proof.
  intros Hr Hn Hi. unfold kids. rewrite len_build by done. symmetry. apply indices_where_seq. intros j jt Hj.
  apply bool_decide_ext_eqb. rewrite (parent_build records names Hr Hn j i jt Hj). split.
  - intros (it' & Hi' & E). rewrite Hi in Hi'. by injection Hi' as <-.
  - intros E. eauto.
Qed.

(** ** A built trie passes the checks of [from_raw_parts] *)

Lemma last_zget {A} (l : list A) n : zlen l = n + 1 -> 0 <= n -> last l = zget l n.
Proof.
  intros Hl Hn. destruct l as [|x l _] using rev_ind; [change (zlen []) with 0 in Hl; lia |].
  rewrite zlen_app in Hl. change (zlen [x]) with 1 in Hl. rewrite last_snoc, zget_app_r by lia.
  by replace (n - zlen l) with 0 by lia.
Qed.

Lemma saturating_sum_nonneg cs r : 0 <= r -> (forall c, c ∈ cs -> 0 <= c) -> 0 <= foldl saturating_add_u32 r cs.
Proof.
  revert r. induction cs as [|c cs IH]; intros r Hr Hcs; [done |]. cbn. apply IH; [|intros; apply Hcs; by right].
  specialize (Hcs c ltac:(by left)). unfold saturating_add_u32, U32_MAX. lia.
Qed.

Lemma bumps_nonneg ks cs : (forall c, c ∈ cs -> 0 <= c) -> forall c, c ∈ foldl bump cs ks -> 0 <= c.
Proof.
  revert cs. induction ks as [|k ks IH]; intros cs Hcs c; [apply Hcs |]. cbn. apply IH. clear c. intros c Hc.
  unfold bump in Hc. destruct (zget cs k) as [x |] eqn:E; [|by apply Hcs].
  apply list_elem_of_lookup in Hc as [q Hq]. unfold zset in Hq. destruct (_ && _); [|by apply Hcs, (list_elem_of_lookup_2 _ q)].
  apply list_lookup_insert_Some in Hq as [(_ & <- & _) | [_ Hq]]; [|by apply Hcs, (list_elem_of_lookup_2 _ q)].
  apply u32_range.
Qed.

Lemma csr_lengths nodes :
  zlen (build_children_csr nodes).1 = zlen nodes + 1 /\
  zlen (build_children_csr nodes).2 = default 0 (last (build_children_csr nodes).1).
Proof.
  unfold build_children_csr. cbv zeta.
  rewrite (foldl_guard scatter_step (fun it : Z * TrieNode => negb (tn_parent_idx it.2 =? NO_PARENT)) (fun it => (tn_parent_idx it.2, len_to_u32 it.1))).
  set (counts := foldl _ (zrepeat 0 (zlen nodes)) nodes).
  pose proof (scatter_stores (map (fun it : Z * TrieNode => (tn_parent_idx it.2, len_to_u32 it.1))
    (List.filter (fun it => negb (tn_parent_idx it.2 =? NO_PARENT)) (enumerate nodes)))
    (prefix_sums 0 counts) (zrepeat 0 (foldl saturating_add_u32 0 counts))) as H.
  destruct (foldl scatter_step _ _) as [wp values]. cbn [fst snd] in *.
  assert (Hc : zlen counts = zlen nodes) by (unfold counts; rewrite foldl_guard, zlen_counts, zlen_zrepeat; [done | apply zlen_nonneg]).
  rewrite zlen_prefix_sums, Hc. split; [done |].
  rewrite (last_zget _ (zlen counts)), prefix_sums_last by (rewrite ?zlen_prefix_sums; done || apply zlen_nonneg).
  subst values. rewrite zlen_apply_stores. cbn. apply zlen_zrepeat.
  apply saturating_sum_nonneg; [done |]. unfold counts. rewrite foldl_guard.
  apply bumps_nonneg. intros c Hc'. unfold zrepeat in Hc'. by apply elem_of_replicate in Hc' as [-> _].
Qed.

Lemma build_reloads records names :
  zlen records < 2 ^ 32 -> zlen (pt_names (build records names)) < 2 ^ 32 ->
  (forall it, it ∈ dirs records -> exists s, get_range names (name_offset it.2) (name_offset it.2 + name_len it.2) = Some s) ->
  let trie := build records names in
  from_raw_parts (pt_nodes trie) (pt_names trie) (pt_child_offsets trie) (pt_child_indices trie) = Some trie.
Proof.
  intros Hr Hn Hin trie. unfold from_raw_parts.
  destruct (csr_lengths (pt_nodes trie)) as [H1 H2]. unfold trie in H1, H2. rewrite build_csr in H1, H2. cbn [fst snd] in H1, H2.
  fold trie in H1, H2. rewrite H1, H2, !Z.eqb_refl. cbn [negb].
  replace (forallb _ _) with true; [by destruct trie |]. symmetry. apply List.forallb_forall.
  intros node [i Hi]%list_elem_of_In%list_elem_of_lookup.
  assert (Hz : zget (pt_nodes trie) (Z.of_nat i) = Some node)
    by (apply zget_Some; apply lookup_lt_Some in Hi as Hl; rewrite Nat2Z.id; unfold zlen; split; [lia | done]).
  assert (Hd : 0 <= Z.of_nat i < zlen (dirs records))
    by (rewrite <- len_build with (names := names) by done; by apply zget_Some in Hz as [? _]).
  apply zget_is_Some in Hd as [it Hit]. destruct (node_build records names Hr Hn _ it Hit) as (node' & Hn' & He & Hs & _).
  fold trie in Hn', He, Hs. rewrite Hz in Hn'. injection Hn' as <-.
  destruct (Hin it) as [s Hsr]; [by eapply zget_elem |]. rewrite (Hs s Hsr) in He.
  symmetry in He. apply get_range_Some in He as (_ & He & _). unfold node_in_bounds. lia.
Qed.

(** A built trie has one node per directory record, in record order; a node has its
    directory's name, its parent is the node of its directory's parent, and its children
    are the nodes of the directories directly below it, in order. *)
Theorem path_trie_exact records names :
  zlen records < 2 ^ 32 -> zlen (pt_names (build records names)) < 2 ^ 32 ->
  let trie := build records names in
  len trie = zlen (dirs records) /\
  forall i it, zget (dirs records) i = Some it ->
    (forall s, get_range names (name_offset it.2) (name_offset it.2 + name_len it.2) = Some s -> name_of trie i = Some s) /\
    (forall p, parent_of trie i = Some p <-> exists pt, zget (dirs records) p = Some pt /\ pt.1 = parent_idx it.2) /\
    children_of trie i = indices_where (fun jt => parent_idx jt.2 =? it.1) (dirs records).
Proof.
  intros Hr Hn. cbv zeta. split; [by apply len_build |]. intros i it Hi. split_and!.
  - by destruct (node_build records names Hr Hn i it Hi) as (_ & _ & _ & Hs & _).
  - intros p. by apply parent_build.
  - rewrite children_build by (done || apply zget_Some in Hi; lia). by apply kids_build.
Qed.

(** C32: in a built trie whose siblings have distinct names, [lookup_path] finds exactly the
    directories the segments lead to from a root, and [full_path], with fuel for each node,
    returns those segments joined with slashes. *)
Theorem lookup_full_path records names segs d :
  zlen records < 2 ^ 32 -> zlen (pt_names (build records names)) < 2 ^ 32 ->
  let trie := build records names in
  siblings_distinct trie ->
  (lookup_path trie segs = Some d <-> at_path trie d segs) /\
  (lookup_path trie segs = Some d -> full_path (length (pt_nodes trie)) trie d = Some (Some (joined segs))).
Proof.
  intros Hr Hn trie Hd. pose proof (build_ok records names Hr Hn) as Hok. split; [split |].
  - by apply lookup_sound.
  - by apply lookup_complete.
  - intros H%lookup_sound; [|done]. by apply full_path_at.
Qed.

(** [full_path] returns a path only for a directory that leads up to a root, whatever
    the fuel; when no name is missing it never returns for the others. *)
Theorem full_path_needs_root records names i :
  zlen records < 2 ^ 32 -> zlen (pt_names (build records names)) < 2 ^ 32 ->
  let trie := build records names in
  0 <= i < len trie ->
  (forall fuel out, full_path fuel trie i = Some (Some out) -> exists segs, at_path trie i segs /\ out = joined segs) /\
  ((forall j, 0 <= j < len trie -> name_of trie j <> None) -> (forall segs, ~ at_path trie i segs) ->
    forall fuel, full_path fuel trie i = None).
Proof.
  intros Hr Hn trie Hi. pose proof (build_ok records names Hr Hn) as Hok. split.
  - intros fuel out H. destruct (full_path_rooted _ _ _ _ Hok (proj1 Hi) H) as [segs Hs]. exists segs. split; [done |].
    unfold full_path in H. unfold len in Hi. destruct (Z.leb_spec (zlen (pt_nodes trie)) i); [done |].
    destruct (path_loop fuel trie i []) as [[o |] |] eqn:E; [|done..].
    eapply path_loop_at in E; [|done]. injection H as <-. subst o. by rewrite app_nil_l, rev_involutive, join_eq.
  - intros Hall Hno fuel. unfold full_path. destruct (Z.leb_spec (zlen (pt_nodes trie)) i); [exfalso; unfold len in Hi; fold trie in Hi; lia |].
    by rewrite path_loop_unrooted.
Qed.

Definition dir_at (parent off len : Z) : CompactRecord :=
  mkCompactRecord 0 0 0 0 0 0 0 0 off 0x10 parent 0 len 0 0 0.
Definition file_at (parent off len : Z) : CompactRecord :=
  mkCompactRecord 0 0 0 0 0 0 0 0 off 0 parent 0 len 0 0 0.

(** "C", "C/ab", "C/f", "C/ab/xyz" and "C/xyz": the file is left out. *)
Definition small_names : list Z := [67; 97; 98; 102; 120; 121; 122].
Definition small_records : list CompactRecord :=
  [dir_at U32_MAX 0 1; dir_at 0 1 2; file_at 0 3 1; dir_at 1 4 3; dir_at 0 4 3].

(** A directory that is its own parent, and one below it. *)
Definition looped_records : list CompactRecord := [dir_at 0 0 1; dir_at 0 1 2].

Lemma path_trie_exact_witness :
  children_of (build small_records small_names) 0 = [1; 3] /\ name_of (build small_records small_names) 2 = Some [120; 121; 122].
Proof.
  destruct (path_trie_exact small_records small_names) as [_ H]; [by vm_compute.. |]. split.
  - destruct (H 0 (0, dir_at U32_MAX 0 1)) as (_ & _ & Hc); [by vm_compute |]. rewrite Hc. by vm_compute.
  - destruct (H 2 (3, dir_at 1 4 3)) as (Hs & _); [by vm_compute |]. apply Hs. by vm_compute.
Defined.

(** The directories of a trie, for checks over all of them. *)
Lemma siblings_distinct_by_eval trie :
  forallb (fun i => forallb (fun j => (i =? j) || negb (bool_decide (parent_of trie i = parent_of trie j) && bool_decide (name_of trie i = name_of trie j)))
    (seqZ 0 (len trie))) (seqZ 0 (len trie)) = true -> siblings_distinct trie.
Proof.
  intros H i j Hi Hj Hp Hn. rewrite List.forallb_forall in H.
  specialize (H i ltac:(apply list_elem_of_In, elem_of_seqZ; lia)). rewrite List.forallb_forall in H.
  specialize (H j ltac:(apply list_elem_of_In, elem_of_seqZ; lia)).
  rewrite !bool_decide_eq_true_2 in H by done. cbn in H. lia.
Qed.

Lemma lookup_full_path_witness :
  let trie := build small_records small_names in
  lookup_path trie [[67]; [97; 98]; [120; 121; 122]] = Some 2 /\
  full_path 4 trie 2 = Some (Some [67; 47; 97; 98; 47; 120; 121; 122]).
Proof.
  cbv zeta. split; [by vm_compute |].
  destruct (lookup_full_path small_records small_names [[67]; [97; 98]; [120; 121; 122]] 2) as [_ H]; [by vm_compute.. | |].
  - apply siblings_distinct_by_eval. by vm_compute.
  - change 4%nat with (length (pt_nodes (build small_records small_names))). rewrite H by (by vm_compute). by vm_compute.
Defined.

Lemma looped_unrooted i segs : ~ at_path (build looped_records small_names) i segs.
Proof.
  induction 1 as [i s Hi Hp _ | ]; [|done]. change (len (build looped_records small_names)) with 2 in Hi.
  assert (i = 0 \/ i = 1) as [-> | ->] by lia; by vm_compute in Hp.
Qed.

Lemma full_path_needs_root_witness :
  forall fuel, full_path fuel (build looped_records small_names) 1 = None.
Proof.
  destruct (full_path_needs_root looped_records small_names 1) as [_ H]; [by vm_compute.. |]. apply H.
  - intros j Hj. change (len (build looped_records small_names)) with 2 in Hj.
    assert (j = 0 \/ j = 1) as [-> | ->] by lia; by vm_compute.
  - intros segs. apply looped_unrooted.
Defined.
