(* ===== verification/FileTable.v ===== *)
(** The drive as a table of files: an abstract table from file record numbers to names
    and parents, the effect of a batch on it, and the refinement theorem that
    [apply_usn_patch] implements that effect.

    The table's effect of a batch does not depend on the order of its changes; the
    drive's does, through the slot a parent resolves to, and the parent-first order of
    UsnBatch is what makes the two agree. *)
From S2P Require Import Prelude CsrIndex TrigramIndex IndexDelta Bloom CompactIndex PathLen UsnBatch UsnPatch.
From stdpp Require Import strings.
Local Open Scope Z_scope.
Local Open Scope rust_scope.

(** * The abstract table *)

(** A file's name and its parent's number; the root has no parent, and neither has a
    root-level file the index builder made. *)
Abbreviation FileTable := (gmap Z (list Z * option Z)).

Definition table_apply (t : FileTable) (c : FileChange) : FileTable :=
  if fc_deleted c then delete (fc_frs c) t
  else if negb (zlen (fc_filename c) =? 0) &&
    (fc_created c || (fc_renamed c && bool_decide (is_Some (t !! fc_frs c))))
  then <[fc_frs c := (fc_filename c, Some (fc_parent_frs c))]> t
  else t.

(** Every file's parent is a file. *)
Definition closed (t : FileTable) : Prop :=
  forall f name g, t !! f = Some (name, Some g) -> is_Some (t !! g).

Lemma table_apply_other t c f : f <> fc_frs c -> table_apply t c !! f = t !! f.
Proof.
  intros H. unfold table_apply. destruct (fc_deleted c); [by rewrite lookup_delete_ne |].
  destruct (_ && _); [by rewrite lookup_insert_ne | done].
Qed.

(** ** Changes to distinct files commute *)

Lemma table_apply_comm t c c' :
  fc_frs c <> fc_frs c' -> table_apply (table_apply t c) c' = table_apply (table_apply t c') c.
Proof.
  intros H. apply map_eq. intros f.
  destruct (decide (f = fc_frs c)) as [-> | H1]; [| destruct (decide (f = fc_frs c')) as [-> | H2]].
  - rewrite table_apply_other by done. unfold table_apply at 1 2. rewrite table_apply_other by done.
    destruct (fc_deleted c); [by rewrite !lookup_delete_eq |].
    destruct (_ && _); [by rewrite !lookup_insert_eq | by rewrite table_apply_other].
  - rewrite (table_apply_other _ c) by done. unfold table_apply at 1 3. rewrite table_apply_other by done.
    destruct (fc_deleted c'); [by rewrite !lookup_delete_eq |].
    destruct (_ && _); [by rewrite !lookup_insert_eq | by rewrite table_apply_other].
  - by rewrite !table_apply_other.
Qed.

Lemma table_apply_perm t l k :
  l ≡ₚ k -> NoDup (map fc_frs l) -> foldl table_apply t l = foldl table_apply t k.
Proof.
  intros Hp. revert t. induction Hp as [| c l k Hp IH | c c' l | l k m Hp1 IH1 Hp2 IH2]; intros t Hn; cbn in *.
  - done.
  - apply NoDup_cons in Hn as [_ Hn]. by apply IH.
  - apply NoDup_cons in Hn as [Hn _]. rewrite table_apply_comm; [done |]. intros E. apply Hn. rewrite E. left.
  - rewrite IH1 by done. apply IH2. by rewrite <- Hp1.
Qed.

(** * Representation *)

Definition record_name (ns : list Z) (rec : CompactRecord) : option (list Z) :=
  get_range ns (name_offset rec) (name_offset rec + name_len rec).

Record represents (drive : DriveCompactIndex) (t : FileTable) : Prop := {
  rp_inj : forall f g, lookup_frs drive f = lookup_frs drive g -> lookup_frs drive f <> U32_MAX -> f = g;
  rp_none : forall f, t !! f = None -> lookup_frs drive f = U32_MAX;
  rp_file : forall f name parent, t !! f = Some (name, parent) ->
    exists rec, zget (records drive) (lookup_frs drive f) = Some rec /\ record_name (names drive) rec = Some name /\
      parent_idx rec = match parent with Some g => lookup_frs drive g | None => U32_MAX end
}.

(** What a batch of journal changes satisfies: one change per file, in range, with the
    net flags exclusive, a name for what is created, and no file in itself. *)
Record batch_clean (changes : list FileChange) : Prop := {
  bt_nodup : NoDup (map fc_frs changes);
  bt_frs : forall c, c ∈ changes -> 0 <= fc_frs c < U64_MAX;
  bt_created : forall c, c ∈ changes -> fc_created c = true -> fc_deleted c = false /\ fc_filename c <> [];
  bt_name : forall c, c ∈ changes -> zlen (fc_filename c) <= U16_MAX;
  bt_parent : forall c, c ∈ changes -> fc_created c = true \/ fc_renamed c = true -> fc_parent_frs c <> fc_frs c
}.

(** The sizes a batch may reach. *)
Definition room (drive : DriveCompactIndex) (changes : list FileChange) : Prop :=
  zlen (records drive) + zlen changes <= U32_MAX /\
  zlen (names drive) + zlen (concat (map fc_filename changes)) <= U32_MAX.

(** ** The simulation *)

(** After the prefix [pre] of a batch, before [rest]: a file's parent is resolved, or it
    is a file that no remaining change creates. *)
Record sim (pre rest : list FileChange) (drive : DriveCompactIndex) (t : FileTable) : Prop := {
  sm_wf : drive_wf drive;
  sm_inj : forall f g, lookup_frs drive f = lookup_frs drive g -> lookup_frs drive f <> U32_MAX -> f = g;
  sm_none : forall f, t !! f = None -> lookup_frs drive f = U32_MAX;
  sm_file : forall f name parent, t !! f = Some (name, parent) ->
    exists rec, zget (records drive) (lookup_frs drive f) = Some rec /\ record_name (names drive) rec = Some name /\
      match parent with
      | None => parent_idx rec = U32_MAX
      | Some g => (parent_idx rec = lookup_frs drive g /\ is_Some (t !! g)) \/
          (t !! g = None /\ forall c, c ∈ rest -> fc_created c = true -> fc_frs c <> g)
      end;
  sm_created : forall c, c ∈ pre -> fc_created c = true -> is_Some (t !! fc_frs c)
}.

Lemma lookup_frs_write drive recs ns exts f x g :
  lookup_frs (with_columns drive recs ns exts (zset (frs_to_compact drive) f x)) g =
  if (g =? f) && (0 <=? f) && (f <? zlen (frs_to_compact drive)) then x else lookup_frs drive g.
Proof.
  unfold lookup_frs. cbn. destruct (Z.eqb_spec g f) as [-> |]; cbn; [|by rewrite zget_zset_ne].
  destruct ((0 <=? f) && (f <? zlen (frs_to_compact drive))) eqn:E; [by rewrite zget_zset_eq by lia |].
  unfold zget. by rewrite zlen_zset, E.
Qed.

Lemma lookup_frs_extend drive recs ns exts f x g :
  0 <= f < U64_MAX ->
  lookup_frs (with_columns drive recs ns exts (zset (extend_frs (frs_to_compact drive) f) f x)) g =
  if g =? f then x else lookup_frs drive g.
Proof.
  intros Hf. unfold lookup_frs. cbn [frs_to_compact with_columns].
  assert (Hl : f < zlen (extend_frs (frs_to_compact drive) f)).
  { unfold extend_frs. destruct (Z.leb_spec (zlen (frs_to_compact drive)) f); [|done].
    pose proof (zlen_nonneg (frs_to_compact drive)). unfold saturating_add_u64. rewrite zlen_app, zlen_zrepeat; lia. }
  destruct (Z.eqb_spec g f) as [-> |]; [rewrite zget_zset_eq by lia; done |]. rewrite zget_zset_ne by done.
  destruct (zget (extend_frs _ f) g) as [k |] eqn:E.
  - destruct (zget_extend_frs _ _ _ _ E) as [-> | ->]; [|done].
    destruct (zget (frs_to_compact drive) g) as [k |] eqn:E'; [|done]. cbn.
    unfold extend_frs in E. destruct (_ <=? _); [|congruence]. pose proof E' as [Hr _]%zget_Some.
    rewrite zget_app_l in E by lia. congruence.
  - destruct (zget (frs_to_compact drive) g) as [k |] eqn:E'; [|done]. exfalso. pose proof E' as [Hr _]%zget_Some.
    unfold extend_frs in E. destruct (_ <=? _); [rewrite zget_app_l in E by lia |]; congruence.
Qed.

Lemma sim_skip pre c rest drive t :
  sim pre (c :: rest) drive t -> fc_created c = false -> sim (pre ++ [c]) rest drive t.
Proof.
  intros [S1 S2 S3 S4 S5] Hc. split; [done.. | |].
  - intros f name parent Hf. destruct (S4 f name parent Hf) as (rec & H1 & H2 & H3). exists rec.
    split_and!; [done.. |]. destruct parent as [g |]; [|done]. destruct H3 as [? | [? H3]]; [by left | right].
    split; [done |]. intros c' Hc'. apply H3. by right.
  - intros q [Hq | ->%list_elem_of_singleton]%elem_of_app; [auto | congruence].
Qed.

(** A file's slot is a record. *)
Lemma sim_slot pre rest drive t f :
  sim pre rest drive t -> is_Some (t !! f) ->
  0 <= lookup_frs drive f < zlen (records drive).
Proof.
  intros Hs [[name parent] Hf]. destruct (sm_file _ _ _ _ Hs f name parent Hf) as (rec & [Hr _]%zget_Some & _). done.
Qed.

Lemma sim_write pre c rest drive t drive' k rec' s :
  sim pre (c :: rest) drive t -> drive_wf drive' -> zlen (records drive) < U32_MAX ->
  (forall g, lookup_frs drive' g = if g =? fc_frs c then k else lookup_frs drive g) ->
  slot_written (records drive) k rec' (records drive') -> names drive' = names drive ++ s ->
  (lookup_frs drive (fc_frs c) = k /\ k <> U32_MAX) \/ (lookup_frs drive (fc_frs c) = U32_MAX /\ k = zlen (records drive)) ->
  record_name (names drive') rec' = Some (fc_filename c) -> parent_idx rec' = lookup_frs drive (fc_parent_frs c) ->
  fc_parent_frs c <> fc_frs c ->
  (t !! fc_parent_frs c = None -> forall c', c' ∈ rest -> fc_created c' = true -> fc_frs c' <> fc_parent_frs c) ->
  fc_created c = true \/ is_Some (t !! fc_frs c) ->
  sim (pre ++ [c]) rest drive' (<[fc_frs c := (fc_filename c, Some (fc_parent_frs c))]> t).
Proof.
  intros Hs Hw Hl Hlook [Hz Hslot] Hnames Hk Hname Hpar Hne Hlater Hcr. pose proof Hs as [S1 S2 S3 S4 S5].
  assert (Hfresh : forall g, g <> fc_frs c -> lookup_frs drive g <> U32_MAX -> lookup_frs drive g <> k).
  { intros g Hg Hm E. destruct Hk as [[Hk _] | [_ Hk]].
    - apply Hg, S2; congruence.
    - destruct (lookup_frs_range drive g S1); [done | lia]. }
  assert (Hkm : k <> U32_MAX) by (destruct Hk as [[? ?] | [? ?]]; lia).
  split; [done | | | |].
  - intros f g. rewrite !Hlook. destruct (Z.eqb_spec f (fc_frs c)) as [-> | Hf], (Z.eqb_spec g (fc_frs c)) as [-> | Hg];
      [done | | | by apply S2].
    + intros E Hm. destruct (Hfresh g Hg); congruence.
    + intros E Hm. destruct (Hfresh f Hf); congruence.
  - intros f. rewrite Hlook. destruct (Z.eqb_spec f (fc_frs c)) as [-> | Hf]; [by rewrite lookup_insert_eq |].
    rewrite lookup_insert_ne by done. apply S3.
  - intros f name parent. rewrite Hlook. destruct (Z.eqb_spec f (fc_frs c)) as [-> | Hf].
    + rewrite lookup_insert_eq. intros [= <- <-]. exists rec'. rewrite Hslot, Z.eqb_refl. split_and!; [done.. |].
      rewrite Hlook, lookup_insert_ne by done. replace (fc_parent_frs c =? fc_frs c) with false by lia.
      destruct (t !! fc_parent_frs c) eqn:E; [left; by eauto | right; auto].
    + rewrite lookup_insert_ne by done. intros Hf'. destruct (S4 f name parent Hf') as (rec & H1 & H2 & H3).
      exists rec. pose proof (sim_slot _ _ _ _ f Hs (ex_intro _ _ Hf')) as Hr.
      rewrite Hslot. replace (lookup_frs drive f =? k) with false by (symmetry; apply Z.eqb_neq, Hfresh; [done | unfold U32_MAX in *; lia]).
      split_and!; [done | |].
      { unfold record_name in *. rewrite Hnames, get_range_app_l; [done |]. by apply get_range_Some in H2 as (_ & ? & _). }
      destruct parent as [g |]; [|done]. rewrite Hlook. destruct (Z.eqb_spec g (fc_frs c)) as [-> | Hg].
      * rewrite lookup_insert_eq. left. split; [|done]. destruct H3 as [[H3 Hg] | [Hg H3]].
        -- pose proof (sim_slot _ _ _ _ _ Hs Hg). destruct Hk as [[Hk _] | [Hk _]]; [congruence | unfold U32_MAX in *; lia].
        -- exfalso. destruct Hcr as [Hcr | [? Hcr]]; [|congruence]. apply (H3 c); [left | done | done].
      * rewrite lookup_insert_ne by done. destruct H3 as [H3 | [Hg' H3]]; [by left | right].
        split; [done |]. intros c' Hc'. apply H3. by right.
  - intros q Hq Hqc. destruct (decide (fc_frs q = fc_frs c)) as [-> | Hqf]; [by rewrite lookup_insert_eq |].
    rewrite lookup_insert_ne by done. apply elem_of_app in Hq as [Hq | ->%list_elem_of_singleton]; [auto | done].
Qed.

Lemma sim_delete pre c rest drive t drive' rec' :
  sim pre (c :: rest) drive t -> drive_wf drive' -> zlen (records drive) < U32_MAX ->
  NoDup (map fc_frs (pre ++ c :: rest)) -> fc_created c = false ->
  (forall g, lookup_frs drive' g = if g =? fc_frs c then U32_MAX else lookup_frs drive g) ->
  slot_written (records drive) (lookup_frs drive (fc_frs c)) rec' (records drive') -> names drive' = names drive ->
  sim (pre ++ [c]) rest drive' (delete (fc_frs c) t).
Proof.
  intros Hs Hw Hl Hnd Hcr Hlook [Hz Hslot] Hnames. pose proof Hs as [S1 S2 S3 S4 S5].
  rewrite map_app in Hnd. apply NoDup_app in Hnd as (_ & Hpre & [Hrest _]%NoDup_cons).
  split; [done | | | |].
  - intros f g. rewrite !Hlook. destruct (Z.eqb_spec f (fc_frs c)) as [-> | Hf]; [done |].
    destruct (Z.eqb_spec g (fc_frs c)) as [-> | Hg]; [done | apply S2].
  - intros f. rewrite Hlook. destruct (Z.eqb_spec f (fc_frs c)) as [-> | Hf]; [done |].
    rewrite lookup_delete_ne by done. apply S3.
  - intros f name parent. rewrite Hlook. destruct (Z.eqb_spec f (fc_frs c)) as [-> | Hf].
    { by rewrite lookup_delete_eq. }
    rewrite lookup_delete_ne by done. intros Hf'. destruct (S4 f name parent Hf') as (rec & H1 & H2 & H3).
    exists rec. pose proof (sim_slot _ _ _ _ f Hs (ex_intro _ _ Hf')) as Hr. rewrite Hslot, Hnames.
    replace (lookup_frs drive f =? lookup_frs drive (fc_frs c)) with false.
    2: { symmetry. apply Z.eqb_neq. intros E. apply Hf, S2; [done |]. unfold U32_MAX in *. lia. }
    split_and!; [done.. |]. destruct parent as [g |]; [|done]. rewrite Hlook.
    assert (Hlater : forall c', c' ∈ rest -> fc_frs c' <> fc_frs c).
    { intros c' Hc' E. apply Hrest. rewrite <- E. by apply (list_elem_of_fmap_2 fc_frs). }
    destruct (Z.eqb_spec g (fc_frs c)) as [-> | Hg].
    + right. rewrite lookup_delete_eq. split; [done |]. intros c' Hc' _. by apply Hlater.
    + rewrite lookup_delete_ne by done. destruct H3 as [? | [? H3]]; [by left | right].
      split; [done |]. intros c' Hc'. apply H3. by right.
  - intros q [Hq | ->%list_elem_of_singleton]%elem_of_app Hqc; [|congruence].
    rewrite lookup_delete_ne; [auto |]. intros E. apply (Hpre (fc_frs q)).
    + by apply (list_elem_of_fmap_2 fc_frs).
    + rewrite <- E. left.
Qed.

Section refinement.
Context (schedule : list (Z * Z) -> list (Z * Z)) (to_lowercase : list Z -> list Z).

Lemma staged_name ns filename rec :
  zlen ns <= U32_MAX -> zlen filename <= U16_MAX ->
  name_offset rec = len_to_u32 (zlen ns) -> name_len rec = len_to_u16 (zlen filename) ->
  record_name (ns ++ filename) rec = Some filename.
Proof.
  intros Hn Hf Ho Hl. unfold record_name. rewrite Ho, Hl. unfold len_to_u32, len_to_u16.
  replace (zlen ns <=? U32_MAX) with true by lia. replace (zlen filename <=? U16_MAX) with true by lia.
  rewrite <- (app_nil_r filename) at 1. by apply get_range_mid.
Qed.

(** One change of a batch. *)
Section step.
Context (pre rest : list FileChange) (c : FileChange) (p : Patch) (t : FileTable).
Context (Hb : batch_clean (pre ++ c :: rest)) (Hs : sim pre (c :: rest) (p_drive p) t)
  (Hl : zlen (records (p_drive p)) < U32_MAX)
  (Hn : zlen (names (p_drive p)) + zlen (fc_filename c) <= U32_MAX)
  (Hdep : dependent (batch_creates_of (pre ++ c :: rest)) c = true ->
    exists q, q ∈ pre /\ fc_created q = true /\ fc_frs q = fc_parent_frs c).

Lemma step_elem : c ∈ pre ++ c :: rest.
Proof using Type. apply elem_of_app. right. left. Qed.

(** A parent that is not in the table is not created later in the batch. *)
Lemma step_later :
  fc_created c = true \/ fc_renamed c = true -> t !! fc_parent_frs c = None ->
  forall c', c' ∈ rest -> fc_created c' = true -> fc_frs c' <> fc_parent_frs c.
Proof using Hb Hs Hdep.
  intros Hcr Ht c' Hc' Hcc E. destruct Hdep as (q & Hq & Hqc & Eq).
  - pose proof (bt_parent _ Hb c step_elem Hcr). unfold dependent.
    replace (fc_created c || fc_renamed c) with true by (destruct Hcr as [-> | ->]; [done | by rewrite orb_true_r]).
    replace (fc_parent_frs c =? fc_frs c) with false by lia.
    apply bool_decide_eq_true, elem_of_batch_creates. exists c'. split; [|done]. apply elem_of_app. right. by right.
  - destruct (sm_created _ _ _ _ Hs q Hq Hqc) as [? Ht']. congruence.
Qed.

Lemma step_delete :
  fc_deleted c = true -> drive_wf (p_drive (apply_delete p (fc_frs c) (lookup_frs (p_drive p) (fc_frs c)))) ->
  sim (pre ++ [c]) rest (p_drive (apply_delete p (fc_frs c) (lookup_frs (p_drive p) (fc_frs c)))) (delete (fc_frs c) t).
Proof using Hb Hs Hl.
  intros Hd. assert (Hcr : fc_created c = false).
  { destruct (fc_created c) eqn:E; [|done]. destruct (bt_created _ Hb c step_elem E). congruence. }
  unfold apply_delete. destruct (Z.eqb_spec (lookup_frs (p_drive p) (fc_frs c)) U32_MAX) as [Hm | Hm].
  - intros _. cbn. rewrite delete_id; [by apply sim_skip |].
    destruct (t !! fc_frs c) as [[name parent] |] eqn:E; [|done].
    pose proof (sim_slot _ _ _ _ _ Hs (ex_intro _ _ E)). unfold U32_MAX in *. lia.
  - destruct (lookup_frs_range _ (fc_frs c) (sm_wf _ _ _ _ Hs)) as [? | Hr]; [done |].
    destruct (zget_is_Some _ _ Hr) as [rec Hrec]. rewrite Hrec. cbn [p_drive]. intros Hw'.
    eapply (sim_delete pre c rest (p_drive p) t _ (deleted_record rec)); try done; [apply Hb | | by apply slot_zset].
    intros g. rewrite lookup_frs_write, <- andb_assoc.
    replace ((0 <=? fc_frs c) && (fc_frs c <? zlen (frs_to_compact (p_drive p)))) with true.
    { by rewrite andb_true_r. }
    symmetry. revert Hm. unfold lookup_frs. destruct (zget (frs_to_compact _) _) as [k |] eqn:Ek; [|done].
    apply zget_Some in Ek as [? _]. lia.
Qed.

Lemma step_create :
  fc_created c = true -> drive_wf (p_drive (apply_create to_lowercase p c (lookup_frs (p_drive p) (fc_frs c)))) ->
  sim (pre ++ [c]) rest (p_drive (apply_create to_lowercase p c (lookup_frs (p_drive p) (fc_frs c))))
    (<[fc_frs c := (fc_filename c, Some (fc_parent_frs c))]> t).
Proof using Hb Hs Hl Hn Hdep.
  intros Hcr. destruct (bt_created _ Hb c step_elem Hcr) as [_ Hne].
  assert (Hname : zlen (fc_filename c) <> 0) by (intros E%zlen_0; done).
  pose proof (bt_name _ Hb c step_elem) as Hu. pose proof (bt_parent _ Hb c step_elem (or_introl Hcr)) as Hpar.
  pose proof (step_later (or_introl Hcr)) as Hlater. pose proof (zlen_nonneg (fc_filename c)).
  unfold apply_create. replace (zlen (fc_filename c) =? 0) with false by lia.
  unfold stage_create. destruct (intern_extension _ _ _) as [exts eid]. cbv zeta.
  destruct (Z.eqb_spec (lookup_frs (p_drive p) (fc_frs c)) U32_MAX) as [Hm | Hm].
  - cbn [p_drive]. set (st := mkStagedCreate _ _ _ _ _ _). intros Hw'.
    assert (Hlen : len_to_u32 (zlen (records (p_drive p))) = zlen (records (p_drive p))).
    { unfold len_to_u32. by replace (zlen _ <=? U32_MAX) with true by lia. }
    eapply (sim_write pre c rest (p_drive p) t _ (zlen (records (p_drive p))) (appended_record st (fc_frs c))
      (fc_filename c)); try done; [| apply slot_append | by right | | by left].
    + intros g. cbn [records with_columns]. rewrite Hlen.
      exact (lookup_frs_extend (p_drive p) _ _ _ _ _ g (bt_frs _ Hb c step_elem)).
    + apply staged_name; [lia | done..].
  - destruct (lookup_frs_range _ (fc_frs c) (sm_wf _ _ _ _ Hs)) as [? | Hr]; [done |].
    destruct (zget_is_Some _ _ Hr) as [rec Hrec]. cbn [records with_columns]. rewrite Hrec. cbn [p_drive].
    set (st := mkStagedCreate _ _ _ _ _ _). intros Hw'.
    eapply (sim_write pre c rest (p_drive p) t _ _ (overwrite_slot st rec) (fc_filename c));
      try done; [| by apply slot_zset | by left | | by left].
    + intros g. cbn. by destruct (Z.eqb_spec g (fc_frs c)) as [-> |].
    + apply staged_name; [lia | done..].
Qed.

Lemma step_rename :
  fc_created c = false -> fc_renamed c = true ->
  drive_wf (p_drive (apply_rename to_lowercase p c (lookup_frs (p_drive p) (fc_frs c)))) ->
  sim (pre ++ [c]) rest (p_drive (apply_rename to_lowercase p c (lookup_frs (p_drive p) (fc_frs c))))
    (if negb (zlen (fc_filename c) =? 0) && bool_decide (is_Some (t !! fc_frs c))
     then <[fc_frs c := (fc_filename c, Some (fc_parent_frs c))]> t else t).
Proof using Hb Hs Hl Hn Hdep.
  intros Hcr Hre. pose proof (bt_name _ Hb c step_elem) as Hu.
  pose proof (bt_parent _ Hb c step_elem (or_intror Hre)) as Hpar.
  pose proof (step_later (or_intror Hre)) as Hlater. pose proof (zlen_nonneg (fc_filename c)). unfold apply_rename.
  destruct (Z.eqb_spec (zlen (fc_filename c)) 0) as [E0 | E0]; cbn [negb andb].
  { rewrite orb_true_r. intros _. by apply sim_skip. }
  rewrite orb_false_r. destruct (Z.eqb_spec (lookup_frs (p_drive p) (fc_frs c)) U32_MAX) as [Hm | Hm].
  - intros _. rewrite bool_decide_false; [by apply sim_skip |].
    intros Ht. pose proof (sim_slot _ _ _ _ _ Hs Ht). unfold U32_MAX in *. lia.
  - destruct (lookup_frs_range _ (fc_frs c) (sm_wf _ _ _ _ Hs)) as [? | Hr]; [done |].
    assert (Ht : is_Some (t !! fc_frs c)).
    { destruct (t !! fc_frs c) eqn:E; [by eexists |]. by apply (sm_none _ _ _ _ Hs) in E. }
    rewrite bool_decide_true by done. destruct (intern_extension _ _ _) as [exts eid]. cbv zeta.
    destruct (zget_is_Some _ _ Hr) as [rec Hrec]. cbn [records with_columns]. rewrite Hrec. cbn [p_drive].
    set (rec' := renamed_record _ _ _ _ _ _ _). intros Hw'.
    eapply (sim_write pre c rest (p_drive p) t _ _ rec' (fc_filename c));
      try done; [| by apply slot_zset | by left | | by right].
    + intros g. cbn. by destruct (Z.eqb_spec g (fc_frs c)) as [-> |].
    + apply staged_name; [lia | done..].
Qed.

Lemma sim_step :
  drive_wf (p_drive (apply_change to_lowercase p c)) ->
  sim (pre ++ [c]) rest (p_drive (apply_change to_lowercase p c)) (table_apply t c).
Proof using Hb Hs Hl Hn Hdep.
  unfold apply_change, table_apply. destruct (fc_deleted c) eqn:Ed; [by apply step_delete |].
  destruct (fc_created c) eqn:Ec.
  - destruct (bt_created _ Hb c step_elem Ec) as [_ Hne].
    replace (zlen (fc_filename c) =? 0) with false by (symmetry; apply Z.eqb_neq; intros E%zlen_0; done).
    by apply step_create.
  - destruct (fc_renamed c) eqn:Er; cbn [orb andb]; [by apply step_rename |].
    rewrite andb_false_r. intros _. by apply sim_skip.
Qed.

End step.

(** ** The whole batch *)

Lemma apply_change_names p c :
  zlen (names (p_drive (apply_change to_lowercase p c))) <= zlen (names (p_drive p)) + zlen (fc_filename c).
Proof using Type.
  unfold apply_change, apply_delete, apply_create, apply_rename, stage_create.
  destruct (intern_extension _ _ _) as [exts eid].
  repeat match goal with
  | |- context [if ?b then _ else _] => destruct b
  | |- context [match zget ?l ?i with _ => _ end] => destruct (zget l i)
  end; cbn; autorewrite with zlen; pose proof (zlen_nonneg (fc_filename c)); lia.
Qed.

Lemma sim_fold rest pre drive0 p t :
  batch_clean (pre ++ rest) -> parent_first (batch_creates_of (pre ++ rest)) (pre ++ rest) ->
  patched drive0 p -> sim pre rest (p_drive p) t -> room (p_drive p) rest ->
  sim (pre ++ rest) [] (p_drive (foldl (apply_change to_lowercase) p rest)) (foldl table_apply t rest).
Proof using Type.
  revert pre p t. induction rest as [|c rest IH]; intros pre p t Hb Hpf Hp Hs [Hr Hn]; [by rewrite app_nil_r |].
  cbn [map concat foldl] in Hr, Hn |- *. rewrite zlen_cons in Hr. rewrite zlen_app in Hn. pose proof (zlen_nonneg rest).
  set (k := concat _) in *. pose proof (zlen_nonneg k).
  pose proof (apply_change_patched to_lowercase drive0 p c Hp ltac:(lia)) as Hp'.
  pose proof (apply_change_len to_lowercase p c). pose proof (apply_change_names p c).
  rewrite cons_middle, app_assoc in Hb, Hpf |- *. apply IH; [done.. | | split; fold k; lia].
  rewrite <- app_assoc in Hb, Hpf. cbn [app] in Hb, Hpf.
  apply sim_step; [done | done | lia | lia | by apply Hpf with (post := rest) | apply Hp'].
Qed.

Lemma batch_clean_perm l k : l ≡ₚ k -> batch_clean l -> batch_clean k.
Proof using Type.
  intros Hp [B1 B2 B3 B4 B5]. split; [by rewrite <- Hp | ..]; intros c Hc; rewrite <- Hp in Hc; auto.
Qed.

Lemma batch_creates_perm l k : l ≡ₚ k -> batch_creates_of l = batch_creates_of k.
Proof using Type.
  intros Hp. apply set_eq. intros f. rewrite !elem_of_batch_creates. by setoid_rewrite Hp.
Qed.

Lemma represents_sim drive t changes :
  drive_wf drive -> represents drive t -> closed t -> sim [] changes drive t.
Proof using Type.
  intros Hw [R1 R2 R3] Hc. split; [done.. | |].
  - intros f name parent Hf. destruct (R3 f name parent Hf) as (rec & H1 & H2 & H3). exists rec. split_and!; [done.. |].
    destruct parent as [g |]; [|done]. left. split; [done |]. by eapply Hc.
  - intros c Hc'. by apply not_elem_of_nil in Hc'.
Qed.

Lemma sim_represents pre drive t : sim pre [] drive t -> closed t -> represents drive t.
Proof using Type.
  intros [_ S2 S3 S4 _] Hc. split; [done.. |]. intros f name parent Hf.
  destruct (S4 f name parent Hf) as (rec & H1 & H2 & H3). exists rec. split_and!; [done.. |].
  destruct parent as [g |]; [|done]. destruct H3 as [[? _] | [Hg _]]; [done |].
  destruct (Hc f name g Hf). congruence.
Qed.

Lemma patched_represents drive changes p t rank :
  drive_wf drive -> represents drive t -> closed t ->
  batch_clean changes -> room drive changes -> grounded (batch_creates_of changes) rank changes ->
  patched_state to_lowercase drive changes = Some p -> closed (foldl table_apply t changes) ->
  represents (p_drive p) (foldl table_apply t changes).
Proof using Type.
  intros Hw Hrep Hc Hb [Hr1 Hr2] Hg Hps Hc'. unfold patched_state in Hps.
  destruct (order_parent_first_spec changes) as (out & Eo & Hp & Hpf). rewrite Eo in Hps. injection Hps as <-.
  specialize (Hpf rank Hg). rewrite (table_apply_perm t _ _ (symmetry Hp)) in Hc' |- * by apply Hb.
  eapply sim_represents; [|done].
  apply (sim_fold out [] drive (patch_start drive)).
  - by apply (batch_clean_perm changes).
  - cbn [app]. by rewrite (batch_creates_perm out changes).
  - by apply patched_start.
  - by apply represents_sim.
  - split; cbn [p_drive patch_start].
    + unfold zlen in *. by rewrite (Permutation_length Hp).
    + replace (zlen (concat (map fc_filename out))) with (zlen (concat (map fc_filename changes))); [done |].
      unfold zlen. by rewrite Hp.
Qed.

Lemma represents_strip drive drive' t :
  map strip (records drive') = map strip (records drive) -> names drive' = names drive ->
  frs_to_compact drive' = frs_to_compact drive -> represents drive t -> represents drive' t.
Proof using Type.
  intros Hs Hn Hf [R1 R2 R3].
  assert (Hl : forall f, lookup_frs drive' f = lookup_frs drive f) by (intros f; unfold lookup_frs; by rewrite Hf).
  split.
  - intros f g. rewrite !Hl. apply R1.
  - intros f. rewrite Hl. apply R2.
  - intros f name parent Ht. rewrite Hl, Hn. destruct (R3 f name parent Ht) as (rec & H1 & H2 & H3).
    destruct (strip_zget _ _ _ _ (eq_sym Hs) H1) as (rec' & H1' & E). exists rec'. split; [done |].
    unfold record_name in *. rewrite <- (strip_name_offset _ _ E), <- (strip_name_len _ _ E), <- (strip_parent _ _ E).
    split; [done |]. destruct parent; [by rewrite Hl | done].
Qed.

(** C1: on a reachable drive that represents a table of files, a batch of clean changes
    terminates and the patched drive represents the table with every change applied: a
    deleted file is unmapped, a created file is found under its number with its name, a
    renamed file has its new name, every other file is as it was, and every file's
    parent is the slot of its parent's number, whatever the order the batch came in, as
    long as the new table has a parent for each of its files. *)
Theorem apply_usn_patch_refines drive records0 names0 changes p t rank :
  reachable schedule to_lowercase drive records0 names0 -> represents drive t -> closed t ->
  batch_clean changes -> room drive changes -> grounded (batch_creates_of changes) rank changes ->
  patched_state to_lowercase drive changes = Some p -> batch_fits drive changes p -> tree_ok (records (p_drive p)) ->
  closed (foldl table_apply t changes) ->
  exists drive' stats, apply_usn_patch schedule to_lowercase drive changes = Some (drive', stats) /\
    represents drive' (foldl table_apply t changes).
Proof using Type.
  intros Hr Hrep Hc Hb Hroom Hg Hps Hf Ht Hc'. pose proof (reachable_invariant _ _ _ _ _ Hr) as [Hw Ho].
  destruct (apply_usn_patch_spec schedule to_lowercase drive changes p _ _ Hw Ho Hps Hf Ht)
    as (drive' & E & _ & _ & Hs & Hn & Hfr & _).
  exists drive', (p_stats p). split; [done |].
  apply (represents_strip (p_drive p)); [done.. |]. by eapply patched_represents.
Qed.

End refinement.

(** * The sample drive as a table *)

Definition closedb (t : FileTable) : bool :=
  forallb (fun it : Z * (list Z * option Z) =>
    match it.2.2 with Some g => bool_decide (is_Some (t !! g)) | None => true end) (map_to_list t).

Lemma closedb_ok t : closedb t = true -> closed t.
Proof.
  unfold closedb. rewrite forallb_forall. intros H f name g Hf.
  specialize (H (f, (name, Some g))). rewrite <- list_elem_of_In, elem_of_map_to_list in H.
  specialize (H Hf). cbn in H. by apply bool_decide_eq_true in H.
Qed.

Definition sample_table : FileTable :=
  <[0 := ([46], None)]> (<[1 := ([100; 111; 99; 115], None)]> (<[2 := ([97; 46; 116; 120; 116], Some 1)]> ∅)).

(** The table after the sample batch: [/docs/n/b.txt] and [/docs/n/c.txt]. *)
Definition sample_table' : FileTable :=
  <[0 := ([46], None)]> (<[1 := ([100; 111; 99; 115], None)]> (<[2 := ([99; 46; 116; 120; 116], Some 3)]>
    (<[3 := ([110], Some 1)]> (<[4 := ([98; 46; 116; 120; 116], Some 3)]> ∅)))).

Lemma sample_lookup f : lookup_frs sample_drive f = if (0 <=? f) && (f <? 3) then f else U32_MAX.
Proof.
  unfold lookup_frs, zget. change (zlen (frs_to_compact sample_drive)) with 3.
  destruct ((0 <=? f) && (f <? 3)) eqn:E; [|done].
  assert (f = 0 \/ f = 1 \/ f = 2) as [-> | [-> | ->]] by lia; reflexivity.
Qed.

Lemma sample_represents : represents sample_drive sample_table.
Proof.
  split.
  - intros f g. rewrite !sample_lookup. destruct ((0 <=? f) && (f <? 3)) eqn:Ef, ((0 <=? g) && (g <? 3)) eqn:Eg;
      unfold U32_MAX; lia.
  - intros f. rewrite sample_lookup. destruct ((0 <=? f) && (f <? 3)) eqn:E; [|done].
    assert (f = 0 \/ f = 1 \/ f = 2) as [-> | [-> | ->]] by lia; by intros H; vm_compute in H.
  - intros f name parent. unfold sample_table. rewrite !lookup_insert_Some, lookup_empty.
    intros [[<- [= <- <-]] | [_ [[<- [= <- <-]] | [_ [[<- [= <- <-]] | [_ ?]]]]]]; [.. | done];
      eexists; (split; [reflexivity | split; reflexivity]).
Qed.

Lemma sample_clean : batch_clean sample_changes.
Proof.
  split; [by apply (bool_decide_unpack _); vm_compute | ..];
    (intros c Hc; unfold sample_changes in Hc; each_elem Hc); by vm_compute.
Qed.

Lemma apply_usn_patch_refines_witness :
  exists drive' stats, sample_after = Some (drive', stats) /\ represents drive' sample_table'.
Proof.
  destruct sample_batch as (p & E & Hf & Ht).
  assert (Et : foldl table_apply sample_table sample_changes = sample_table') by (vm_compute; reflexivity).
  rewrite <- Et.
  apply (apply_usn_patch_refines (@rev _) id sample_drive sample_records sample_names sample_changes p sample_table Z.to_nat
    sample_reachable sample_represents).
  - by apply closedb_ok.
  - apply sample_clean.
  - split; vm_compute; intros H; discriminate H.
  - intros c Hc Hcr _. unfold sample_changes in Hc. each_elem Hc; [vm_compute; lia | done | vm_compute; lia].
  - exact E.
  - exact Hf.
  - exact Ht.
  - rewrite Et. by apply closedb_ok.
Defined.
