(* ===== verification/Glob.v ===== *)
(** Name patterns: [glob_match], [name_matches], [segment_matches] and the pattern
    tests of [crates/uffs-core/src/search/tree.rs].

    Names and patterns are the UTF-8 bytes of folded strings.  The matcher walks both
    with one remembered star; it is proved equal to the declarative meaning of the
    pattern.  Its fuel bounds the number of restarts at a star times their length. *)
From S2P Require Import Prelude Text.
Local Open Scope Z_scope.
Local Open Scope rust_scope.

(** * The matcher *)

(** The final loop over trailing stars and the comparison. *)
Fixpoint trailing_stars (pattern : list Z) : bool :=
  match pattern with
  | [] => true
  | c :: pattern => (c =? STAR) && trailing_stars pattern
  end.

(** [last_star_p = usize::MAX] is [None]. *)
Fixpoint glob_loop (fuel : nat) (text pattern : list Z) (ti pi : Z) (last_star_p : option Z) (last_star_t : Z)
  : option bool :=
  match fuel with
  | O => None
  | S fuel =>
      match zget text ti with
      | None => Some (trailing_stars (drop (Z.to_nat pi) pattern))
      | Some t =>
          let restart :=
            match last_star_p with
            | Some p => glob_loop fuel text pattern (last_star_t + 1) (p + 1) last_star_p (last_star_t + 1)
            | None => Some false
            end in
          match zget pattern pi with
          | None => restart
          | Some c =>
              if (c =? QUESTION) || (c =? t) then
                glob_loop fuel text pattern (ti + 1) (pi + 1) last_star_p last_star_t
              else if c =? STAR then glob_loop fuel text pattern ti (pi + 1) (Some pi) ti
              else restart
          end
      end
  end.

Definition glob_fuel (text pattern : list Z) : nat :=
  ((length pattern + 2) * ((length text + 1) * (length text + 2)))%nat.

Definition glob_match (text pattern : list Z) : option bool :=
  glob_loop (glob_fuel text pattern) text pattern 0 0 None 0.

(** * Names and segments *)

(** Sequential [any]: a call that does not return is not skipped. *)
Fixpoint any_match (f : list Z -> option bool) (l : list (list Z)) : option bool :=
  match l with
  | [] => Some false
  | x :: l => let? hit := f x in if hit then Some true else any_match f l
  end.

Definition is_wild (pattern : list Z) : bool := contains_byte STAR pattern || contains_byte QUESTION pattern.

Definition name_matches_single (name pattern : list Z) : option bool :=
  if bool_decide (pattern = [STAR]) then Some true
  else if negb (is_wild pattern) then Some (contains_str name pattern)
  else glob_match name pattern.

Definition unnamed (name : list Z) : bool := (zlen name =? 0) || bool_decide (name = [DOT]).

Definition name_matches (name pattern : list Z) : option bool :=
  if unnamed name then Some false
  else if bool_decide (pattern = [STAR]) then Some true
  else if contains_byte BAR pattern then any_match (name_matches_single name) (split_byte BAR pattern)
  else name_matches_single name pattern.

Definition segment_matches (name segment : list Z) : option bool :=
  if unnamed name then Some false
  else if bool_decide (segment = [STAR]) || bool_decide (segment = [STAR; STAR]) then Some true
  else if negb (is_wild segment) then Some (bool_decide (name = segment))
  else glob_match name segment.

Definition is_path_pattern (pattern : list Z) : bool :=
  contains_byte BACKSLASH pattern || contains_byte SLASH pattern.

(** [strip_suffix('*')]. *)
Definition strip_star (pattern : list Z) : option (list Z) :=
  match last pattern with
  | Some c => if c =? STAR then Some (removelast pattern) else None
  | None => None
  end.

Definition is_prefix_pattern (pattern : list Z) : option (list Z) :=
  let? prefix := strip_star pattern in
  if zlen prefix <? 3 then None
  else if contains_byte STAR prefix || contains_byte QUESTION prefix || contains_byte BACKSLASH prefix ||
    contains_byte SLASH prefix then None
  else Some prefix.

(** * The meaning of a pattern *)

Inductive glob : list Z -> list Z -> Prop :=
| glob_nil : glob [] []
| glob_any c p t : glob p t -> glob (QUESTION :: p) (c :: t)
| glob_char c p t : c <> STAR -> c <> QUESTION -> glob p t -> glob (c :: p) (c :: t)
| glob_star_nil p t : glob p t -> glob (STAR :: p) t
| glob_star_cons p c t : glob (STAR :: p) t -> glob (STAR :: p) (c :: t).

(** ** A star absorbs any prefix *)

Lemma glob_star_app p s t : glob (STAR :: p) t -> glob (STAR :: p) (s ++ t).
Proof. intros H. induction s; [done | by constructor]. Qed.

Lemma glob_star_inv p t : glob (STAR :: p) t -> exists s u, t = s ++ u /\ glob p u.
Proof.
  intros H. remember (STAR :: p) as q eqn:E. induction H as [| | c q t Hs | q t H _ | q c t H IH]; try done.
  - by injection E as -> ->.
  - injection E as ->. by exists [], t.
  - destruct (IH E) as (s & u & -> & Hu). by exists (c :: s), u.
Qed.

Lemma glob_stars p : glob p [] <-> trailing_stars p = true.
Proof.
  split.
  - intros H. remember [] as t eqn:E. induction H as [| | | p t H IH |]; try done. cbn. by apply IH.
  - induction p as [|c p IH]; cbn; [constructor |]. intros [->%Z.eqb_eq H]%andb_true_iff. constructor. auto.
Qed.

Definition no_star (p : list Z) : Prop := STAR ∉ p.

Lemma glob_cons c p x t :
  c <> STAR -> glob (c :: p) (x :: t) <-> (c = QUESTION \/ c = x) /\ glob p t.
Proof.
  intros Hc. split.
  - intros H. inversion H; subst; try done; auto.
  - intros [[-> | ->] H]; [by constructor |].
    destruct (Z.eq_dec x QUESTION) as [-> |]; by constructor.
Qed.

(** A star-free segment consumes one byte of text per byte. *)
Lemma glob_seg seg p t :
  no_star seg -> glob (seg ++ p) t -> exists s u, t = s ++ u /\ length s = length seg /\ glob p u.
Proof.
  revert t. induction seg as [|c seg IH]; intros t Hs H; cbn in *.
  - by exists [], t.
  - assert (Hc : c <> STAR) by (intros ->; apply Hs; left).
    destruct t as [|x t]; [inversion H; subst; done |].
    apply glob_cons in H as [_ H]; [|done].
    destruct (IH t) as (s & u & -> & Hl & Hu); [intros Hx; apply Hs; by right | done |].
    exists (x :: s), u. cbn. by rewrite Hl.
Qed.

(** * The matcher is exact *)

Section exact.
Context (text pattern : list Z) (Htext : no_star text).

Abbreviation T i := (drop (Z.to_nat i) text).
Abbreviation P j := (drop (Z.to_nat j) pattern).

(** The states of the loop: the bytes since the remembered star matched a star-free
    segment of the pattern. *)
Record glob_state (ti pi : Z) (last_star_p : option Z) (last_star_t : Z) : Prop := {
  gs_ti : 0 <= ti <= zlen text;
  gs_pi : 0 <= pi <= zlen pattern;
  gs_lst : 0 <= last_star_t <= ti;
  gs_none : last_star_p = None -> last_star_t = 0;
  gs_star : forall p, last_star_p = Some p ->
    0 <= p < pi /\ ti - last_star_t = pi - (p + 1) /\
    exists seg, no_star seg /\ zlen seg = pi - (p + 1) /\ P (p + 1) = seg ++ P pi
}.

(** What the state still has to decide. *)
Definition pending (ti pi : Z) (last_star_p : option Z) (last_star_t : Z) : Prop :=
  glob (P pi) (T ti) \/
  exists p k, last_star_p = Some p /\ last_star_t < k <= zlen text /\ glob (P (p + 1)) (T k).

Lemma drop_zget {A} (l : list A) i x : zget l i = Some x -> drop (Z.to_nat i) l = x :: drop (Z.to_nat (i + 1)) l.
Proof.
  intros [Hi Hx]%zget_Some. replace (Z.to_nat (i + 1)) with (S (Z.to_nat i)) by lia. by apply drop_S.
Qed.

Lemma drop_zget_None {A} (l : list A) i : 0 <= i -> zget l i = None -> drop (Z.to_nat i) l = [].
Proof.
  intros Hi H. apply drop_ge. destruct (decide (length l <= Z.to_nat i)%nat); [done |].
  destruct (zget_is_Some l i) as [x Hx]; [unfold zlen; lia | congruence].
Qed.

Lemma zlen_T k : 0 <= k <= zlen text -> zlen (T k) = zlen text - k.
Proof using Type. intros H. unfold zlen in *. rewrite length_drop. lia. Qed.

(** The text from a later place is a suffix. *)
Lemma T_suffix i k : 0 <= i <= k -> exists s, T i = s ++ T k.
Proof using Type.
  intros H. exists (take (Z.to_nat k - Z.to_nat i) (T i)). replace (T k) with (drop (Z.to_nat k - Z.to_nat i) (T i)).
  - by rewrite take_drop.
  - rewrite drop_drop. f_equal. lia.
Qed.

(** The end of the text: an earlier restart cannot fit the segment. *)
Lemma pending_end ti pi lsp lst :
  glob_state ti pi lsp lst -> ti = zlen text ->
  pending ti pi lsp lst <-> trailing_stars (P pi) = true.
Proof using Type.
  intros [H1 H2 H3 _ H4] Hti. rewrite <- glob_stars. unfold pending.
  replace (T ti) with (@nil Z) by (symmetry; apply drop_ge; unfold zlen in *; lia).
  split; [|by left]. intros [H | (p & k & -> & Hk & Hg)]; [done | exfalso].
  destruct (H4 p eq_refl) as (Hp & Hd & seg & Hns & Hz & E). rewrite E in Hg.
  apply glob_seg in Hg as (s & u & Et & Hl & _); [|done].
  assert (zlen (T k) = zlen s + zlen u) as Hz' by (by rewrite Et, zlen_app). rewrite zlen_T in Hz' by lia.
  pose proof (zlen_nonneg u). unfold zlen in *. lia.
Qed.

(** A star: restarts of the previous one are subsumed. *)
Lemma pending_star ti pi lsp lst :
  glob_state ti pi lsp lst -> zget pattern pi = Some STAR -> ti < zlen text ->
  pending ti pi lsp lst <-> pending ti (pi + 1) (Some pi) ti.
Proof using Type.
  intros [H1 H2 H3 _ H4] Hc Hlt. pose proof (drop_zget _ _ _ Hc) as EP. unfold pending. rewrite EP.
  assert (Hstar : glob (STAR :: P (pi + 1)) (T ti) <->
    glob (P (pi + 1)) (T ti) \/ exists p k, Some pi = Some p /\ ti < k <= zlen text /\ glob (P (p + 1)) (T k)).
  { split.
    - intros (s & u & Et & Hu)%glob_star_inv. destruct s as [|x s]; [left; cbn in Et; by rewrite Et |].
      right. exists pi, (ti + zlen (x :: s)). split; [done |].
      assert (Hz : zlen (T ti) = zlen (x :: s) + zlen u) by (by rewrite Et, zlen_app).
      rewrite zlen_T in Hz by done. pose proof (zlen_nonneg u). pose proof (zlen_nonneg s). split; [rewrite zlen_cons in *; lia |].
      replace (T (ti + zlen (x :: s))) with u; [done |].
      replace (Z.to_nat (ti + zlen (x :: s))) with (length (x :: s) + Z.to_nat ti)%nat by (unfold zlen; lia).
      rewrite Nat.add_comm, <- drop_drop, Et. symmetry. apply drop_app_length.
    - intros [H | (p & k & [= <-] & Hk & H)]; [by constructor |].
      destruct (T_suffix ti k) as [s ->]; [lia |]. apply glob_star_app. by constructor. }
  rewrite <- Hstar. split; [|by left]. intros [H | (p & k & -> & Hk & Hg)]; [done |].
  destruct (H4 p eq_refl) as (Hp & Hd & seg & Hns & Hz & E). rewrite E, EP in Hg.
  apply glob_seg in Hg as (s & u & Et & Hl & Hu); [|done].
  assert (Hu' : u = T (k + zlen s)).
  { replace (Z.to_nat (k + zlen s)) with (Z.to_nat k + length s)%nat by (unfold zlen; lia).
    rewrite <- drop_drop, Et. symmetry. apply drop_app_length. }
  destruct (T_suffix ti (k + zlen s)) as [r ->]; [unfold zlen in *; lia |].
  apply glob_star_app. by rewrite <- Hu'.
Qed.

(** A mismatch: the next restart decides. *)
Lemma pending_restart ti pi lsp lst :
  glob_state ti pi lsp lst -> ti < zlen text -> ~ glob (P pi) (T ti) ->
  pending ti pi lsp lst <-> exists p, lsp = Some p /\ pending (lst + 1) (p + 1) lsp (lst + 1).
Proof using Type.
  intros [H1 H2 H3 _ H4] Hlt Hno. unfold pending. split.
  - intros [H | (p & k & -> & Hk & Hg)]; [done |]. exists p. split; [done |].
    destruct (Z.eq_dec k (lst + 1)) as [-> |]; [by left | right]. exists p, k. split_and!; (done || lia).
  - intros (p & -> & [Hg | (q & k & [= <-] & Hk & Hg)]); right; exists p; [exists (lst + 1) | exists k];
      split_and!; (done || lia).
Qed.

(** Restarts are bounded by the stars times the text, steps between them by the text. *)
Definition star_next (last_star_p : option Z) : Z := match last_star_p with Some p => p + 1 | None => 0 end.
Definition measure (ti : Z) (last_star_p : option Z) (last_star_t : Z) : Z :=
  (zlen pattern - star_next last_star_p) * ((zlen text + 1) * (zlen text + 2)) +
  (zlen text - last_star_t) * (zlen text + 1) + (zlen text - ti).

Lemma state_start : glob_state 0 0 None 0.
Proof using Type.
  pose proof (zlen_nonneg text). pose proof (zlen_nonneg pattern). split; try lia; done.
Qed.

Lemma state_match ti pi lsp lst t c :
  glob_state ti pi lsp lst -> zget text ti = Some t -> zget pattern pi = Some c -> c <> STAR ->
  glob_state (ti + 1) (pi + 1) lsp lst.
Proof using Type.
  intros [H1 H2 H3 Hn H4] [Ht _]%zget_Some Hc Hs. pose proof Hc as [Hp _]%zget_Some. split; [lia | lia | lia | done |].
  intros p E. destruct (H4 p E) as (Hpp & Hd & seg & Hns & Hz & EP). split_and!; [lia.. |].
  exists (seg ++ [c]). split_and!.
  - unfold no_star in *. rewrite elem_of_app, list_elem_of_singleton. intros [? | E']; [done | by symmetry in E'].
  - rewrite zlen_app. change (zlen [c]) with 1. lia.
  - rewrite EP, <- app_assoc. cbn. by rewrite (drop_zget _ _ _ Hc).
Qed.

Lemma state_star ti pi lsp lst :
  glob_state ti pi lsp lst -> zget pattern pi = Some STAR -> glob_state ti (pi + 1) (Some pi) ti.
Proof using Type.
  intros [H1 H2 H3 _ _] [Hp _]%zget_Some. split; [lia.. | done |]. intros p [= <-]. split_and!; [lia.. |].
  exists []. split_and!; [apply not_elem_of_nil | rewrite zlen_nil; lia | done].
Qed.

Lemma state_restart ti pi p lst :
  glob_state ti pi (Some p) lst -> ti < zlen text -> glob_state (lst + 1) (p + 1) (Some p) (lst + 1).
Proof using Type.
  intros [H1 H2 H3 _ H4] Ht. destruct (H4 p eq_refl) as (Hp & _). split; [lia.. | done |].
  intros q [= <-]. split_and!; [lia.. |].
  exists []. split_and!; [apply not_elem_of_nil | rewrite zlen_nil; lia | done].
Qed.

Lemma restart_spec fuel ti pi lsp lst :
  (forall ti pi lsp lst, glob_state ti pi lsp lst -> measure ti lsp lst < Z.of_nat fuel ->
    exists b, glob_loop fuel text pattern ti pi lsp lst = Some b /\ (b = true <-> pending ti pi lsp lst)) ->
  glob_state ti pi lsp lst -> ti < zlen text -> ~ glob (P pi) (T ti) -> measure ti lsp lst < Z.of_nat (S fuel) ->
  exists b, match lsp with
            | Some p => glob_loop fuel text pattern (lst + 1) (p + 1) lsp (lst + 1)
            | None => Some false
            end = Some b /\ (b = true <-> pending ti pi lsp lst).
Proof using Type.
  intros IH Hs Ht Hno Hm. pose proof (gs_lst _ _ _ _ Hs). setoid_rewrite (pending_restart _ _ _ _ Hs Ht Hno).
  destruct lsp as [p |].
  - destruct (IH _ _ _ _ (state_restart _ _ _ _ Hs Ht)) as (b & -> & Hb).
    + unfold measure in *. cbn [star_next] in *. nia.
    + exists b. split; [done |]. rewrite Hb. split; [eauto | by intros (? & [= <-] & ?)].
  - exists false. split; [done |]. split; [done | by intros (? & ? & _)].
Qed.

Lemma glob_loop_spec fuel ti pi lsp lst :
  glob_state ti pi lsp lst -> measure ti lsp lst < Z.of_nat fuel ->
  exists b, glob_loop fuel text pattern ti pi lsp lst = Some b /\ (b = true <-> pending ti pi lsp lst).
Proof using Htext.
  revert ti pi lsp lst. induction fuel as [|fuel IH]; intros ti pi lsp lst Hs Hm.
  - exfalso. destruct Hs as [H1 H2 H3 Hn H4]. unfold measure in Hm.
    assert (0 <= zlen pattern - star_next lsp) by (destruct lsp; cbn; [destruct (H4 z eq_refl) |]; lia). nia.
  - cbn [glob_loop]. destruct (zget text ti) as [t |] eqn:Et.
    2: { assert (Hti : ti = zlen text).
         { destruct (Z.eq_dec ti (zlen text)); [done |]. pose proof (gs_ti _ _ _ _ Hs).
           destruct (zget_is_Some text ti) as [x Hx]; [lia | congruence]. }
         eexists. split; [done |]. by rewrite (pending_end _ _ _ _ Hs Hti). }
    pose proof Et as [Hti _]%zget_Some. pose proof (drop_zget _ _ _ Et) as ET.
    assert (Htn : t <> STAR) by (intros ->; apply Htext; by eapply zget_elem).
    destruct (zget pattern pi) as [c |] eqn:Ec.
    2: { apply (restart_spec fuel ti pi lsp lst IH Hs); [lia | | done].
         pose proof (gs_pi _ _ _ _ Hs). rewrite (drop_zget_None _ _ (proj1 H) Ec), ET. intros H'. inversion H'. }
    pose proof (drop_zget _ _ _ Ec) as EP.
    destruct ((c =? QUESTION) || (c =? t)) eqn:Em.
    + assert (Hc : c <> STAR) by (apply orb_true_iff in Em; unfold STAR, QUESTION in *; lia).
      destruct (IH _ _ _ _ (state_match _ _ _ _ _ _ Hs Et Ec Hc)) as (b & -> & Hb); [unfold measure in *; lia |].
      exists b. split; [done |]. rewrite Hb. unfold pending. rewrite EP, ET, glob_cons by done.
      assert (c = QUESTION \/ c = t) by (apply orb_true_iff in Em; lia). tauto.
    + destruct (Z.eqb_spec c STAR) as [-> | Hc].
      * destruct (IH _ _ _ _ (state_star _ _ _ _ Hs Ec)) as (b & -> & Hb).
        -- pose proof (gs_lst _ _ _ _ Hs) as H3. destruct lsp as [p |].
           ++ destruct (gs_star _ _ _ _ Hs p eq_refl) as (Hp & _). unfold measure in *. cbn [star_next] in *. nia.
           ++ rewrite (gs_none _ _ _ _ Hs eq_refl) in *. pose proof (gs_pi _ _ _ _ Hs).
              unfold measure in *. cbn [star_next] in *. nia.
        -- exists b. split; [done |]. rewrite Hb. symmetry. apply pending_star; [done | done | lia].
      * apply (restart_spec fuel ti pi lsp lst IH Hs); [lia | | done]. rewrite EP, ET, glob_cons by done. lia.
Qed.

Lemma glob_match_spec : exists b, glob_match text pattern = Some b /\ (b = true <-> glob pattern text).
Proof using Htext.
  destruct (glob_loop_spec (glob_fuel text pattern) 0 0 None 0 state_start) as (b & E & Hb).
  - unfold measure, glob_fuel, star_next, zlen. nia.
  - exists b. split; [exact E |]. rewrite Hb. unfold pending. cbn. split; [|by left].
    by intros [? | (p & k & ? & _)].
Qed.

End exact.

(** ** Names *)

(** The alternatives of a pattern. *)
Definition alternatives (pattern : list Z) : list (list Z) :=
  if contains_byte BAR pattern then split_byte BAR pattern else [pattern].

(** A pattern without wildcards is a substring, one with wildcards covers the name. *)
Definition single_spec (name pattern : list Z) : Prop :=
  if is_wild pattern then glob pattern name else substring pattern name.

Lemma glob_star_all t : glob [STAR] t.
Proof. rewrite <- (app_nil_r t). apply glob_star_app. constructor. constructor. Qed.

Lemma glob_app_inv p q t : glob (p ++ q) t -> exists t1 t2, t = t1 ++ t2 /\ glob p t1 /\ glob q t2.
Proof.
  revert t. induction p as [|c p IH]; intros t H; [exists [], t; split_and!; [done | constructor | done] |].
  destruct (Z.eq_dec c STAR) as [-> | Hc].
  - apply glob_star_inv in H as (s & u & -> & H). destruct (IH u H) as (t1 & t2 & -> & H1 & H2).
    exists (s ++ t1), t2. split_and!; [by rewrite app_assoc | | done]. apply glob_star_app. by constructor.
  - destruct t as [|x t]; [by inversion H; subst |]. apply glob_cons in H as [Hx H]; [|done].
    destruct (IH t H) as (t1 & t2 & -> & H1 & H2). exists (x :: t1), t2. split_and!; [done | by apply glob_cons | done].
Qed.

(** The bytes of a stretch without wildcards match themselves. *)
Definition literal (s : list Z) : Prop := (STAR ∉ s) /\ (QUESTION ∉ s).

Lemma glob_literal lit t : literal lit -> glob lit t -> t = lit.
Proof.
  intros [Hs Hq] H. revert t H. induction lit as [|c lit IH]; intros t H; [by inversion H |].
  apply not_elem_of_cons in Hs as [Hs Hs'], Hq as [Hq Hq'].
  destruct t as [|x t]; [inversion H; by subst |]. apply glob_cons in H as [[-> | ->] H]; [done | | by intros ->].
  by rewrite (IH Hs' Hq' t).
Qed.

Lemma glob_substring p lit q t : literal lit -> glob (p ++ lit ++ q) t -> substring lit t.
Proof.
  intros Hl (t1 & t2 & -> & _ & H)%glob_app_inv. apply glob_app_inv in H as (t3 & t4 & -> & H & _).
  apply glob_literal in H as ->; [|done]. by exists t1, t4.
Qed.

Lemma name_matches_single_spec name pattern :
  no_star name -> exists b, name_matches_single name pattern = Some b /\ (b = true <-> single_spec name pattern).
Proof.
  intros Hn. unfold name_matches_single, single_spec. case_bool_decide as E.
  - subst. exists true. split; [done |]. split; [|done]. intros _. apply glob_star_all.
  - destruct (is_wild pattern); cbn; [by apply glob_match_spec |].
    eexists. split; [done | apply contains_str_spec].
Qed.

Lemma any_match_spec f l (Q : list Z -> Prop) :
  (forall x, exists b, f x = Some b /\ (b = true <-> Q x)) ->
  exists b, any_match f l = Some b /\ (b = true <-> exists x, x ∈ l /\ Q x).
Proof.
  intros Hf. induction l as [|x l IH]; cbn.
  - exists false. split; [done |]. split; [done |]. intros (x & Hx & _). by apply not_elem_of_nil in Hx.
  - destruct (Hf x) as (b & -> & Hb). destruct IH as (b' & -> & Hb'). destruct b.
    + exists true. split; [done |]. split; [|done]. intros _. exists x. split; [left | tauto].
    + exists b'. split; [done |]. rewrite Hb'. setoid_rewrite elem_of_cons. split.
      * intros (y & Hy & Hq). eauto.
      * intros (y & [-> | Hy] & Hq); [by apply Hb in Hq | eauto].
Qed.

Lemma existsb_false_elem (f : Z -> bool) l x : existsb f l = false -> x ∈ l -> f x = false.
Proof.
  intros H Hx. apply not_true_iff_false. intros Hf. apply not_true_iff_false in H. apply H, existsb_exists.
  exists x. split; [by apply list_elem_of_In | done].
Qed.

Lemma name_matches_spec name pattern :
  no_star name -> exists b, name_matches name pattern = Some b /\
    (b = true <-> name <> [] /\ name <> [DOT] /\ exists alt, alt ∈ alternatives pattern /\ single_spec name alt).
Proof.
  intros Hn. unfold name_matches, unnamed, alternatives.
  destruct (Z.eqb_spec (zlen name) 0) as [E0 | E0].
  { exists false. split; [done |]. split; [done |]. intros (H & _). destruct name; [done |].
    rewrite zlen_cons in E0. pose proof (zlen_nonneg name). lia. }
  cbn [orb]. case_bool_decide as Ed; [exists false; split; [done |]; split; [done | by intros (_ & ? & _)] |].
  assert (Hne : name <> []) by (by intros ->).
  case_bool_decide as Es.
  { subst. exists true. split; [done |]. split; [|done]. intros _. split_and!; [done.. |]. exists [STAR].
    split; [left | apply glob_star_all]. }
  destruct (contains_byte BAR pattern).
  - destruct (any_match_spec (name_matches_single name) (split_byte BAR pattern) (single_spec name)) as (b & E & Hb).
    + intros x. by apply name_matches_single_spec.
    + exists b. split; [exact E |]. rewrite Hb. tauto.
  - destruct (name_matches_single_spec name pattern Hn) as (b & E & Hb). exists b. split; [exact E |].
    rewrite Hb. setoid_rewrite list_elem_of_singleton. split; [eauto |]. by intros (_ & _ & ? & -> & ?).
Qed.

(** C28: for a name without a star byte, the matcher terminates and is exact: a name
    matches when it is neither empty nor a dot and one of the alternatives of the
    pattern covers it (stars any bytes, question marks one byte each) or, without
    wildcards, occurs in it. *)
Theorem name_matches_exact name pattern :
  no_star name -> exists b, name_matches name pattern = Some b /\
    (b = true <-> name <> [] /\ name <> [DOT] /\ exists alt, alt ∈ alternatives pattern /\ single_spec name alt).
Proof. apply name_matches_spec. Qed.

(** [*.rs|lib*] on [lib.rs]. *)
Lemma name_matches_exact_witness :
  exists b, name_matches [108; 105; 98; 46; 114; 115] [42; 46; 114; 115; 124; 108; 105; 98; 42] = Some b /\ b = true.
Proof.
  destruct (name_matches_exact [108; 105; 98; 46; 114; 115] [42; 46; 114; 115; 124; 108; 105; 98; 42]) as (b & E & Hb).
  - apply (bool_decide_unpack _). vm_compute. exact I.
  - exists b. split; [exact E |]. vm_compute in E. by injection E as <-.
Defined.

(** A prefix query is exactly a pattern of at least three bytes and a trailing star,
    with no other wildcard and no separator.  (An alternation bar is not excluded.) *)
Theorem is_prefix_pattern_exact pattern prefix :
  is_prefix_pattern pattern = Some prefix <->
  pattern = prefix ++ [STAR] /\ 3 <= zlen prefix /\
  forall b, b ∈ [STAR; QUESTION; BACKSLASH; SLASH] -> b ∉ prefix.
Proof.
  assert (Hstrip : strip_star pattern = Some prefix <-> pattern = prefix ++ [STAR]).
  { unfold strip_star. destruct pattern as [|c p] using rev_ind; [by destruct prefix |].
    rewrite last_snoc, removelast_last. destruct (Z.eqb_spec c STAR) as [-> | Hne].
    - split; [by intros [= ->] | by intros [-> _]%app_inj_tail].
    - split; [done |]. by intros [_ ->]%app_inj_tail. }
  unfold is_prefix_pattern. split.
  - destruct (strip_star pattern) as [q |] eqn:Es; [|done].
    destruct (Z.ltb_spec (zlen q) 3); [done |]. destruct (_ || _) eqn:E; [done |]. intros [= ->].
    apply orb_false_iff in E as [[[E1 E2]%orb_false_iff E3]%orb_false_iff E4]. split_and!; [by apply Hstrip | done |].
    intros b Hb. each_elem Hb; by apply contains_byte_false.
  - intros (E & Hz & Hb). rewrite (proj2 Hstrip E). replace (zlen prefix <? 3) with false by lia.
    rewrite !(proj2 (contains_byte_false _ prefix)); [done | apply Hb; set_solver ..].
Qed.

(** A star byte in the name defeats the matcher: it is compared before it is taken
    for a wildcard, so the pattern [*c] does not match the name [*abc] it covers. *)
Theorem glob_match_star_in_name :
  glob_match [42; 97; 98; 99] [42; 99] = Some false /\ glob [42; 99] [42; 97; 98; 99].
Proof.
  split; [reflexivity |]. apply (glob_star_app _ [42; 97; 98] [99]). constructor. by repeat constructor.
Qed.
