(* ===== verification/NameSearch.v ===== *)
(** The name search of a drive: [search_compact_drive] of
    [crates/uffs-core/src/search/query/mod.rs] up to the matching records, with the
    expansion of matching directories.

    Names and needles are lists of characters; the record filters are a parameter here
    (Filters models them).  The trigram index only narrows the records the predicate is
    tried on: the result is the one of the full scan. *)
From S2P Require Import Prelude Text CaseFold Glob CsrIndex TrigramIndex IndexDelta Bloom CompactIndex PathLen UsnBatch UsnPatch.
Local Open Scope Z_scope.
Local Open Scope rust_scope.

(** * The needle *)

(** [iter.max_by_key(|seg| seg.len()).unwrap_or("")]: the last longest. *)
Definition longest (segs : list (list Z)) : list Z :=
  match segs with
  | [] => []
  | seg :: segs =>
      foldl (fun best seg => if zlen (utf8_string best) <=? zlen (utf8_string seg) then seg else best) seg segs
  end.

Definition extract_trigram_needle (needle : list Z) (is_glob is_or : bool) : list Z :=
  if is_or then []
  else if is_glob then longest (split_where (fun c => (c =? STAR) || (c =? QUESTION)) needle)
  else needle.

Record SearchMode := mkSearchMode { case_sensitive : bool; whole_word : bool; match_path : bool }.

(** * Collecting the records a predicate keeps *)

Section collect.
Context (recs0 : list CompactRecord) (keep : CompactRecord -> option bool).

Fixpoint collect_full (limit : Z) (recs : list (Z * CompactRecord)) (out : list Z) : option (list Z) :=
  match recs with
  | [] => Some out
  | (idx, rec) :: recs =>
      if limit <=? zlen out then Some out else
      let? k := keep rec in
      collect_full limit recs (if k then out ++ [len_to_u32 idx] else out)
  end.

Fixpoint collect_candidates (limit : Z) (candidate_indices : list Z) (out : list Z) : option (list Z) :=
  match candidate_indices with
  | [] => Some out
  | idx :: candidate_indices =>
      if limit <=? zlen out then Some out else
      match zget recs0 idx with
      | None => collect_candidates limit candidate_indices out
      | Some rec =>
          let? k := keep rec in
          collect_candidates limit candidate_indices (if k then out ++ [idx] else out)
      end
  end.

Definition collect_match_indices (candidates : option (list Z)) (limit : Z) : option (list Z) :=
  match candidates with
  | None => collect_full limit (enumerate recs0) []
  | Some candidate_indices => collect_candidates limit candidate_indices []
  end.

(** ** The kept records, up to the limit *)

Context (kept : CompactRecord -> bool) (Hkeep : forall rec, rec ∈ recs0 -> keep rec = Some (kept rec)).

Definition kept_at (i : Z) : bool := match zget recs0 i with Some rec => kept rec | None => false end.

Lemma kept_at_true i : kept_at i = true <-> exists rec, zget recs0 i = Some rec /\ kept rec = true.
Proof using Type. unfold kept_at. destruct (zget recs0 i); naive_solver. Qed.

Lemma collect_full_spec limit recs out :
  Forall (fun it => it.2 ∈ recs0 /\ it.1 <= U32_MAX) recs -> zlen out <= limit ->
  collect_full limit recs out =
  Some (take (Z.to_nat limit) (out ++ map fst (List.filter (fun it => kept it.2) recs))).
Proof using Hkeep.
  intros Hr. revert out. induction Hr as [|[idx rec] recs [Hin Hle] _ IH]; intros out Hout; cbn [collect_full List.filter map].
  - rewrite app_nil_r, take_ge; [done |]. unfold zlen in *. lia.
  - destruct (Z.leb_spec limit (zlen out)).
    + rewrite take_app_le by (unfold zlen in *; lia). rewrite take_ge; [done |]. unfold zlen in *. lia.
    + cbn in Hin, Hle. rewrite (Hkeep rec Hin). cbn [snd]. destruct (kept rec); cbn [map fst]; [|by apply IH].
      unfold len_to_u32. replace (idx <=? U32_MAX) with true by lia.
      rewrite IH by (rewrite zlen_app; change (zlen [idx]) with 1; lia). by rewrite <- app_assoc.
Qed.

Lemma collect_candidates_spec limit l out :
  zlen out <= limit ->
  collect_candidates limit l out =
  Some (take (Z.to_nat limit) (out ++ List.filter kept_at l)).
Proof using Hkeep.
  revert out. induction l as [|idx l IH]; intros out Hout; cbn [collect_candidates List.filter].
  - rewrite app_nil_r, take_ge; [done |]. unfold zlen in *. lia.
  - destruct (Z.leb_spec limit (zlen out)).
    + rewrite take_app_le by (unfold zlen in *; lia). rewrite take_ge; [done |]. unfold zlen in *. lia.
    + unfold kept_at at 1. destruct (zget recs0 idx) as [rec |] eqn:E; [|by apply IH].
      rewrite (Hkeep rec) by (by eapply zget_elem). destruct (kept rec); [|by apply IH].
      rewrite IH by (rewrite zlen_app; change (zlen [idx]) with 1; lia). by rewrite <- app_assoc.
Qed.

(** The full scan finds the kept records in index order. *)
Lemma full_scan limit :
  0 <= limit -> zlen recs0 <= 2 ^ 32 ->
  collect_full limit (enumerate recs0) [] =
  Some (take (Z.to_nat limit) (indices_where kept recs0)).
Proof using Hkeep.
  intros Hl Hz. rewrite collect_full_spec; [done | | done].
  apply Forall_forall. intros [i rec] Hin%elem_of_enumerate. cbn. pose proof Hin as Hi%zget_Some.
  split; [by eapply zget_elem | unfold U32_MAX; lia].
Qed.

(** Candidates that are ascending and miss no kept record give the same. *)
Lemma candidate_scan limit l :
  0 <= limit -> ascending l -> (forall i rec, zget recs0 i = Some rec -> kept rec = true -> i ∈ l) ->
  collect_candidates limit l [] =
  Some (take (Z.to_nat limit) (indices_where kept recs0)).
Proof using Hkeep.
  intros Hl Hasc Hall. rewrite collect_candidates_spec by done. do 2 f_equal. cbn [app].
  apply ascending_ext; [by apply filter_sorted | apply indices_where_sorted |].
  intros i. rewrite elem_of_filterb, kept_at_true, elem_of_indices_where. split; [by intros [_ ?] |].
  intros (rec & Hi & Hk). split; [by eapply Hall | eauto].
Qed.

End collect.

Section search.
(** The order [sort_unstable_by_key] leaves equal lengths in, and the record filters. *)
Context (sort_by_len : list (list Z) -> list (list Z)).
Context (drive : DriveCompactIndex) (needle : list Z) (mode : SearchMode) (keep_record : CompactRecord -> option bool).

Let is_glob : bool := contains_byte STAR needle || contains_byte QUESTION needle.
Let is_or : bool := contains_byte BAR needle.

(** The needle, folded unless the search is case sensitive. *)
Definition needle_folded : list Z :=
  if case_sensitive mode then utf8_string needle else fold_into (fold drive) needle.

Definition simple_substring : bool :=
  negb is_glob && negb is_or && negb (whole_word mode) && negb (case_sensitive mode).

Definition matches (name : list Z) : option bool :=
  if (zlen name =? 0) || bool_decide (name = [DOT]) then Some false
  else if whole_word mode then
    if case_sensitive mode then
      if is_glob || is_or then name_matches (utf8_string name) (utf8_string needle)
      else Some (bool_decide (name = needle))
    else
      let folded := fold_into (fold drive) name in
      if is_glob || is_or then name_matches folded needle_folded
      else Some (bool_decide (folded = needle_folded))
  else if simple_substring then Some (contains_str (fold_into (fold drive) name) needle_folded)
  else if case_sensitive mode then name_matches (utf8_string name) (utf8_string needle)
  else name_matches (fold_into (fold drive) name) needle_folded.

(** The [keep] closure of [collect_match_indices]. *)
Definition keep (rec : CompactRecord) : option bool :=
  let? m := matches (name_chars (names drive) rec) in
  if m then keep_record rec else Some false.

Definition search_candidates : option (list Z) :=
  let trigram_needle := extract_trigram_needle needle is_glob is_or in
  if negb (case_sensitive mode) && (3 <=? zlen (utf8_string trigram_needle))
  then trigram_search sort_by_len drive trigram_needle else None.

(** ** Descendants of matching directories *)

(** The depth-first walk, top of the stack first. *)
Fixpoint expand_loop (fuel : nat) (stack extra : list Z) : option (list Z) :=
  match stack with
  | [] => Some extra
  | dir_idx :: stack =>
      match fuel with
      | O => None
      | S fuel =>
          let children := children_of drive dir_idx in
          expand_loop fuel (rev (List.filter (record_is drive is_directory) children) ++ stack) (extra ++ children)
      end
  end.

Fixpoint expand_extra (fuel : nat) (indices : list Z) (extra : list Z) : option (list Z) :=
  match indices with
  | [] => Some extra
  | idx :: indices =>
      let? extra := if record_is drive is_directory idx then expand_loop fuel [idx] extra else Some extra in
      expand_extra fuel indices extra
  end.

Definition expand_directory_descendants (fuel : nat) (indices : list Z) : option (list Z) :=
  let? extra := expand_extra fuel indices [] in
  Some (if zlen extra =? 0 then indices else sort_dedup (indices ++ extra)).

(** [search_compact_drive] up to the rows it resolves. *)
Definition search_compact_drive (fuel : nat) (limit : Z) : option (list Z) :=
  if zlen needle =? 0 then Some [] else
  let? match_indices := collect_match_indices (records drive) keep search_candidates limit in
  if match_path mode && negb (zlen match_indices =? 0)
  then expand_directory_descendants fuel match_indices
  else Some match_indices.

End search.

(** * The trigrams of a match *)

Lemma packed_windows_app a b : forall t, t ∈ packed_windows b -> t ∈ packed_windows (a ++ b).
Proof.
  induction a as [|x a IH]; intros t Ht; [done |]. cbn [app packed_windows].
  specialize (IH t Ht). destruct (a ++ b) as [|y [|z l]]; [done.. |]. by right.
Qed.

Lemma packed_windows_prefix a b : forall t, t ∈ packed_windows a -> t ∈ packed_windows (a ++ b).
Proof.
  induction a as [|x a IH]; intros t Ht; [by apply not_elem_of_nil in Ht |].
  destruct a as [|y [|z a]]; [by apply not_elem_of_nil in Ht.. |]. cbn [app packed_windows] in *.
  apply elem_of_cons in Ht as [-> | Ht]; [left | right]. by apply IH.
Qed.

Lemma packed_windows_substring a s t : substring a s -> t ∈ packed_windows a -> t ∈ packed_windows s.
Proof. intros (p & q & ->) Ht. by apply packed_windows_app, packed_windows_prefix. Qed.

Lemma substring_map (f : Z -> Z) a s : substring a s -> substring (map f a) (map f s).
Proof. intros (p & q & ->). exists (map f p), (map f q). by rewrite !map_app. Qed.

Lemma substring_trans a b c : substring a b -> substring b c -> substring a c.
Proof. intros (p & q & ->) (r & s & ->). exists (r ++ p), (q ++ s). by rewrite !app_assoc. Qed.

Lemma fold_char_low table cs :
  table_ok table -> scalars cs ->
  map (fold_char table) cs = map (fun c => Z.land c 0xFFFF) (map (fold_cp table) cs).
Proof.
  intros Ht. induction 1 as [|c cs Hc _ IH]; [done |]. cbn [map]. f_equal; [|done].
  pose proof (table_scalar _ Ht c Hc) as Hs. unfold fold_char, fold_cp in *.
  destruct (Z.ltb_spec c 0x10000) as [Hlt |]; [|done].
  destruct (Hs Hlt) as [Hd%scalar_range Hu]. replace 0xFFFF with (2 ^ 16 - 1) by lia.
  rewrite land_ones_mod, Z.mod_small; lia.
Qed.

(** A needle found folded in a name has its trigrams among the name's. *)
Lemma needle_trigrams_found table seg name ts t :
  table_ok table -> scalars seg -> scalars name ->
  substring (map (fold_cp table) seg) (map (fold_cp table) name) ->
  needle_trigrams table seg = Some ts -> t ∈ ts ->
  exists ns, needle_trigrams table name = Some ns /\ t ∈ ns.
Proof.
  intros Ht Hs Hn Hsub. unfold needle_trigrams. rewrite !zlen_map.
  destruct (Z.ltb_spec (zlen seg) 3) as [|Hl]; [done |]. intros [= <-] Hin.
  assert (zlen seg <= zlen name).
  { destruct Hsub as (p & q & E). apply (f_equal zlen) in E. rewrite !zlen_app, !zlen_map in E.
    pose proof (zlen_nonneg p). pose proof (zlen_nonneg q). lia. }
  replace (zlen name <? 3) with false by lia. eexists. split; [done |].
  rewrite elem_of_dedup in Hin. rewrite elem_of_dedup. eapply packed_windows_substring; [|exact Hin].
  rewrite !fold_char_low by done. by apply substring_map.
Qed.

Lemma longest_elem segs : segs <> [] -> longest segs ∈ segs.
Proof.
  destruct segs as [|seg segs]; [done |]. intros _. cbn [longest].
  revert seg. induction segs as [|s segs IH]; intros seg; cbn; [left |].
  specialize (IH (if zlen (utf8_string seg) <=? zlen (utf8_string s) then s else seg)).
  destruct (zlen (utf8_string seg) <=? zlen (utf8_string s)).
  - by right.
  - apply elem_of_cons in IH as [-> | IH]; [left | by right; right].
Qed.

(** ** The folded needle *)

Lemma wild_fold table cs w : table_ok table -> scalars cs -> w ∈ WILD -> w ∈ map (fold_cp table) cs <-> w ∈ cs.
Proof.
  intros Ht Hcs Hw. induction Hcs as [|c cs Hc _ IH]; [done |]. cbn [map]. rewrite !elem_of_cons, IH.
  pose proof (table_keeps _ Ht w Hw c Hc) as Hk. split; (intros [H | H]; [left; symmetry; apply Hk; congruence | by right]).
Qed.

Lemma wild_ascii w : w ∈ WILD -> w < 0x80.
Proof. intros H. by each_elem H. Qed.

Lemma wild_folded table cs w :
  table_ok table -> scalars cs -> w ∈ WILD -> w ∈ fold_into table cs <-> w ∈ cs.
Proof.
  intros Ht Hcs Hw. rewrite fold_into_exact by done.
  rewrite utf8_string_ascii; [by apply wild_fold | by apply fold_cps_scalar | by apply wild_ascii].
Qed.

Lemma contains_wild_folded table cs w :
  table_ok table -> scalars cs -> w ∈ WILD -> contains_byte w (fold_into table cs) = contains_byte w cs.
Proof. intros Ht Hcs Hw. apply eq_true_iff_eq. rewrite !contains_byte_spec. by apply wild_folded. Qed.

Lemma star_wild : STAR ∈ WILD. Proof. left. Qed.
Lemma question_wild : QUESTION ∈ WILD. Proof. right. left. Qed.
Lemma bar_wild : BAR ∈ WILD. Proof. right. right. left. Qed.

(** A glob match has every literal stretch of the needle. *)
Lemma glob_match_stretch table needle name seg :
  table_ok table -> scalars needle -> scalars name -> no_star name ->
  contains_byte BAR needle = false -> contains_byte STAR needle || contains_byte QUESTION needle = true ->
  seg ∈ split_where (fun c => (c =? STAR) || (c =? QUESTION)) needle ->
  name_matches (fold_into table name) (fold_into table needle) = Some true ->
  substring (map (fold_cp table) seg) (map (fold_cp table) name).
Proof.
  intros Ht Hn Hm Hs Hbar Hglob Hseg Hmatch.
  apply split_where_part in Hseg as [Hlit Hsub].
  assert (Hss : scalars seg) by (destruct Hsub as (p & q & ->); apply Forall_app in Hn as [_ Hn]; by apply Forall_app in Hn as [? _]).
  destruct (name_matches_spec (fold_into table name) (fold_into table needle)) as (b & E & Hb).
  { unfold no_star. by rewrite wild_folded by (done || apply star_wild). }
  rewrite Hmatch in E. injection E as <-. destruct (proj1 Hb eq_refl) as (_ & _ & alt & Halt & Hspec).
  unfold alternatives in Halt. rewrite contains_wild_folded, Hbar in Halt by (done || apply bar_wild).
  apply list_elem_of_singleton in Halt as ->. unfold single_spec, is_wild in Hspec.
  rewrite !contains_wild_folded, Hglob in Hspec by (done || apply star_wild || apply question_wild).
  apply utf8_string_substring; [by apply fold_cps_scalar.. |].
  rewrite !fold_into_exact in Hspec by done. destruct Hsub as (p & q & ->).
  rewrite !map_app, !utf8_string_app in Hspec. eapply glob_substring; [| exact Hspec].
  rewrite Forall_forall in Hlit.
  split; (rewrite utf8_string_ascii, wild_fold;
    [| done | done | apply star_wild || apply question_wild | by apply fold_cps_scalar | done]);
    by intros Hin%Hlit.
Qed.

(** A record with a name is live. *)
Lemma named_live drive rec : name_chars (names drive) rec <> [] -> live rec = true.
Proof.
  intros Hn. destruct (live rec) eqn:Hl; [done | exfalso]. unfold live in Hl. apply negb_false_iff, Z.eqb_eq in Hl.
  apply Hn. unfold name_chars. rewrite Hl, Z.add_0_r. destruct (get_range _ _ _) as [bs |] eqn:E; [|done].
  apply get_range_len in E. rewrite Z.sub_diag in E. by apply zlen_0 in E as ->.
Qed.

Section exact.
Context (schedule : list (Z * Z) -> list (Z * Z)) (to_lowercase : list Z -> list Z).
Context (sort_by_len : list (list Z) -> list (list Z)).
Context (Hschedule : forall ws, schedule ws ≡ₚ ws) (Hsort : forall ls, sort_by_len ls ≡ₚ ls).
Context (drive : DriveCompactIndex) (needle : list Z) (mode : SearchMode) (keep_record : CompactRecord -> option bool).

Abbreviation table := (fold drive).
Abbreviation is_glob := (contains_byte STAR needle || contains_byte QUESTION needle).
Abbreviation is_or := (contains_byte BAR needle).
Abbreviation seg := (extract_trigram_needle needle is_glob is_or).
Abbreviation name rec := (name_chars (names drive) rec).

(** What the search assumes of a drive: its case table is sound, names are stored bytes
    without a star (which Windows forbids), and the record filters return. *)
Record searchable : Prop := {
  se_table : table_ok table;
  se_bytes : byte_list (names drive);
  se_needle : scalars needle;
  se_star : forall rec, rec ∈ records drive -> no_star (name rec);
  se_keep : forall rec, rec ∈ records drive -> exists b, keep_record rec = Some b
}.

Context (Hs : searchable).

Lemma name_scalars rec : scalars (name rec).
Proof using Hs.
  unfold name_chars, str_chars. destruct (get_range _ _ _) as [bs |] eqn:E; [|constructor].
  change (default [] (Some bs)) with bs. destruct (utf8_decode bs) as [cs |] eqn:Ed; [|constructor]. eapply utf8_decode_scalars; [|exact Ed].
  eapply get_range_Forall; [|exact E]. apply (se_bytes Hs).
Qed.

Lemma matches_total rec :
  rec ∈ records drive -> exists b, matches drive needle mode (name rec) = Some b.
Proof using Hs.
  intros Hr. pose proof (name_scalars rec) as Hn. pose proof (se_star Hs rec Hr) as Hst. destruct Hs as [Ht _ Hne _ _].
  assert (H1 : forall p, exists b, name_matches (utf8_string (name rec)) p = Some b).
  { intros p. destruct (name_matches_spec (utf8_string (name rec)) p) as (b & E & _); [|by exists b].
    unfold no_star. rewrite utf8_string_ascii; [done | done | by vm_compute]. }
  assert (H2 : forall p, exists b, name_matches (fold_into table (name rec)) p = Some b).
  { intros p. destruct (name_matches_spec (fold_into table (name rec)) p) as (b & E & _); [|by exists b].
    unfold no_star. by rewrite wild_folded by (done || apply star_wild). }
  unfold matches. repeat case_match; eauto.
Qed.

(** The folded needle stretch is in every folded name that matches. *)
Lemma matches_stretch rec :
  case_sensitive mode = false -> is_or = false -> rec ∈ records drive ->
  matches drive needle mode (name rec) = Some true ->
  substring (map (fold_cp table) seg) (map (fold_cp table) (name rec)).
Proof using Hs.
  intros Hcs Hor Hr. pose proof (name_scalars rec) as Hn. pose proof (se_star Hs rec Hr) as Hst. destruct Hs as [Ht _ Hne _ _].
  assert (Hg : is_glob = true -> name_matches (fold_into table (name rec)) (fold_into table needle) = Some true ->
    substring (map (fold_cp table) (longest (split_where (fun c => (c =? STAR) || (c =? QUESTION)) needle)))
      (map (fold_cp table) (name rec))).
  { intros Hglob. apply glob_match_stretch; [done.. |]. apply longest_elem, split_where_nonempty. }
  unfold matches, simple_substring, needle_folded, extract_trigram_needle. rewrite Hcs, Hor.
  destruct ((zlen (name rec) =? 0) || _); [done |]. destruct is_glob eqn:Hglob; cbn [orb andb negb].
  - destruct (whole_word mode); intros Hm; by apply Hg.
  - destruct (whole_word mode); cbn [andb negb].
    + intros [= E%bool_decide_eq_true]. rewrite !fold_into_exact in E by done.
      apply utf8_string_inj in E as ->; [|by apply fold_cps_scalar..]. exists [], []. by rewrite app_nil_r.
    + intros [= E%contains_str_spec]. rewrite !fold_into_exact in E by done.
      by rewrite utf8_string_substring in E by (by apply fold_cps_scalar).
Qed.

(** ** Collecting *)

Definition kept (rec : CompactRecord) : bool := bool_decide (keep drive needle mode keep_record rec = Some true).

Lemma keep_total rec : rec ∈ records drive -> keep drive needle mode keep_record rec = Some (kept rec).
Proof using Hs.
  intros Hr. unfold kept, keep. destruct (matches_total rec Hr) as (m & ->), (se_keep Hs rec Hr) as (b & ->).
  destruct m; [|done]. by destruct b.
Qed.

Lemma matched_live rec : kept rec = true -> live rec = true.
Proof using Type.
  intros Hk%bool_decide_eq_true. unfold keep in Hk.
  destruct (matches _ _ _ _) as [m |] eqn:Em; [|done]. destruct m; [|done].
  apply (named_live drive). intros E. by rewrite E in Em.
Qed.

(** The candidates miss no kept record. *)
Lemma candidates_complete records0 names0 l i rec :
  reachable schedule to_lowercase drive records0 names0 ->
  (forall ts t, needle_trigrams table seg = Some ts -> t ∈ ts -> ~ pruned drive records0 names0 t) ->
  search_candidates sort_by_len drive needle mode = Some l ->
  zget (records drive) i = Some rec -> kept rec = true -> i ∈ l.
Proof using Hs Hschedule Hsort.
  intros [_ Ho]%reachable_invariant Hp. unfold search_candidates.
  destruct (negb (case_sensitive mode) && _) eqn:E; [|done]. apply andb_true_iff in E as [Ecs Elen].
  apply negb_true_iff in Ecs. intros Hc Hi Hk.
  destruct (needle_trigrams table seg) as [ts |] eqn:Ets.
  2: { exfalso. revert Hc. unfold trigram_search, search. destruct (delta drive); by rewrite Ets. }
  assert (Hor : is_or = false).
  { destruct is_or eqn:Hor; [|done]. unfold extract_trigram_needle in Elen. by cbn in Elen. }
  pose proof (matched_live rec Hk) as Hlive. apply bool_decide_eq_true in Hk. unfold keep in Hk.
  pose proof (zget_elem _ _ _ Hi) as Hin.
  destruct (matches drive needle mode (name rec)) as [m |] eqn:Em; [|done]. destruct m; [|done].
  pose proof (matches_stretch rec Ecs Hor Hin Em) as Hsub.
  destruct (trigram_search_keeps schedule sort_by_len Hschedule Hsort drive records0 names0 seg ts i rec) as (l' & E' & Hl');
    [done | done | eauto | done | done | | congruence].
  intros t Ht. rewrite <- trigrams_of_name.
  destruct (needle_trigrams_found table seg (name rec) ts t) as (ns & -> & Hns); [apply Hs | | apply name_scalars | done..].
  unfold extract_trigram_needle. destruct is_or; [constructor |]. destruct is_glob; [|apply Hs].
  pose proof (longest_elem _ (split_where_nonempty (fun c => (c =? STAR) || (c =? QUESTION)) needle)) as Hl.
  apply split_where_part in Hl as [_ (p & q & E)]. pose proof (se_needle Hs) as Hn. rewrite E in Hn.
  apply Forall_app in Hn as [_ Hn]. by apply Forall_app in Hn as [? _].
Qed.

(** The result before the expansion of directories. *)
Lemma search_spec records0 names0 limit :
  reachable schedule to_lowercase drive records0 names0 ->
  (forall ts t, needle_trigrams table seg = Some ts -> t ∈ ts -> ~ pruned drive records0 names0 t) ->
  0 <= limit -> zlen (records drive) <= 2 ^ 32 ->
  collect_match_indices (records drive) (keep drive needle mode keep_record) (search_candidates sort_by_len drive needle mode) limit =
  Some (take (Z.to_nat limit) (indices_where kept (records drive))).
Proof using Hs Hschedule Hsort.
  intros Hr Hp Hl Hz. unfold collect_match_indices.
  destruct (search_candidates sort_by_len drive needle mode) as [l |] eqn:E; [|by apply (full_scan _ _ _ keep_total)].
  apply (candidate_scan _ _ _ keep_total); [done | | by intros; eapply candidates_complete].
  unfold search_candidates in E. destruct (_ && _); [|done].
  apply reachable_invariant in Hr as [_ Ho]. by eapply trigram_search_ascending.
Qed.

(** C5: on a reachable drive without a star in a name the name search returns exactly what a scan of every record
    would, the first [limit] records in index order that match the needle and pass the
    filters, for every mode of names (substring, wildcards, alternation, whole word, case
    sensitive or not; not the match of whole paths) and every needle but the empty one, when
    the last compaction pruned none of the trigrams of the needle's longest stretch: then the
    trigram index only saves work.  With a pruned trigram it loses matches
    ([TrigramIndex.trigram_search_exact], [pruned_trigram_hides_base]). *)
Theorem drive_search_exact records0 names0 fuel limit :
  reachable schedule to_lowercase drive records0 names0 ->
  (forall ts t, needle_trigrams table seg = Some ts -> t ∈ ts -> ~ pruned drive records0 names0 t) ->
  0 <= limit -> zlen (records drive) <= 2 ^ 32 -> match_path mode = false -> needle <> [] ->
  search_compact_drive sort_by_len drive needle mode keep_record fuel limit =
  Some (take (Z.to_nat limit) (indices_where kept (records drive))).
Proof using Hs Hschedule Hsort.
  intros Hr Hp Hl Hz Hm Hn. unfold search_compact_drive. rewrite Hm. cbn [andb].
  replace (zlen needle =? 0) with false by (symmetry; apply Z.eqb_neq; intros E%zlen_0; done).
  by rewrite (search_spec records0 names0).
Qed.
End exact.

(** * Expansion of directories *)

(** A record below a directory, through directories. *)
Inductive below (drive : DriveCompactIndex) (d : Z) : Z -> Prop :=
| below_child c : c ∈ children_of drive d -> below drive d c
| below_step c x : c ∈ children_of drive d -> record_is drive is_directory c = true -> below drive c x -> below drive d x.

Section expand.
Context (drive : DriveCompactIndex) (rank : Z -> Z) (bound : Z).
(** The children of a slot are records with it as their parent. *)
Context (Hkids : forall d c, c ∈ children_of drive d -> record_is drive is_directory d = true ->
  exists rec, zget (records drive) c = Some rec /\ parent_idx rec = d).
Context (Hrank : forall i rec, zget (records drive) i = Some rec -> 0 <= parent_idx rec < zlen (records drive) ->
  parent_idx rec <> i -> rank (parent_idx rec) < rank i).
Context (Hbound : forall i rec, zget (records drive) i = Some rec -> rank i <= bound).

(** A directory that is not its own parent. *)
Definition expandable (d : Z) : Prop :=
  record_is drive is_directory d = true /\ forall rec, zget (records drive) d = Some rec -> parent_idx rec <> d.

Definition walked (n : nat) (ds desc : list Z) : Prop :=
  forall f stack extra, expand_loop drive (n + f) (ds ++ stack) extra = expand_loop drive f stack (extra ++ desc).

Lemma walk_list ds :
  (forall d, d ∈ ds -> exists n desc, walked n [d] desc /\ forall x, x ∈ desc <-> below drive d x) ->
  exists n desc, walked n ds desc /\ forall x, x ∈ desc <-> exists d, d ∈ ds /\ below drive d x.
Proof using Type.
  clear Hkids Hrank Hbound rank. induction ds as [|d ds IH]; intros H.
  - exists 0%nat, []. split; [by intros f stack extra; rewrite app_nil_r |]. set_solver.
  - destruct (H d) as (n1 & desc1 & W1 & E1); [left |]. destruct IH as (n2 & desc2 & W2 & E2); [intros; apply H; by right |].
    exists (n1 + n2)%nat, (desc1 ++ desc2). split.
    + intros f stack extra. rewrite <- Nat.add_assoc. change ((d :: ds) ++ stack) with ([d] ++ (ds ++ stack)).
      by rewrite W1, W2, app_assoc.
    + intros x. rewrite elem_of_app, E1, E2. set_solver.
Qed.

Lemma child_expandable d c :
  expandable d -> c ∈ children_of drive d -> record_is drive is_directory c = true -> expandable c /\ rank d < rank c.
Proof using Hkids Hrank.
  intros [Hd Hself] Hc Hdir. destruct (Hkids d c Hc Hd) as (rec & Hr & Hp).
  apply record_is_true in Hd as (recd & Hrd & _). pose proof Hrd as [Hran _]%zget_Some.
  assert (d <> c) by (intros ->; by apply (Hself rec Hr)).
  split; [split; [done |] | by rewrite <- Hp; apply (Hrank c rec Hr); lia].
  intros rec' Hr'. assert (rec' = rec) as -> by congruence. congruence.
Qed.

Lemma walk_dir d : expandable d -> exists n desc, walked n [d] desc /\ forall x, x ∈ desc <-> below drive d x.
Proof using Hkids Hrank Hbound.
  remember (Z.to_nat (bound - rank d)) as m eqn:Em. revert d Em.
  induction m as [m IH] using lt_wf_ind; intros d -> Hd.
  set (dirs := List.filter (record_is drive is_directory) (children_of drive d)).
  destruct (walk_list (rev dirs)) as (n & desc & W & E).
  { intros c Hc. apply list_elem_of_In, in_rev, list_elem_of_In, elem_of_filterb in Hc as [Hin Hdir]. destruct (child_expandable d c Hd Hin Hdir) as [He Hlt].
    apply (IH (Z.to_nat (bound - rank c))); [| done | done].
    pose proof Hdir as (rc & Hrc & _)%record_is_true. specialize (Hbound c rc Hrc). lia. }
  exists (S n), (children_of drive d ++ desc). split.
  - intros f stack extra. cbn [Nat.add app expand_loop]. fold dirs. by rewrite W, app_assoc.
  - intros x. rewrite elem_of_app, E. split.
    + intros [Hx | (c & Hc & Hb)]; [by apply below_child |].
      apply list_elem_of_In, in_rev, list_elem_of_In, elem_of_filterb in Hc as [Hc Hdir]. by eapply below_step.
    + intros Hb. inversion Hb as [c Hc | c y Hc Hdir Hb']; subst; [by left | right]. exists c. split; [|done].
      apply list_elem_of_In, in_rev. rewrite rev_involutive. apply list_elem_of_In, elem_of_filterb. done.
Qed.

Lemma expand_extra_spec indices :
  (forall d, d ∈ indices -> record_is drive is_directory d = true -> expandable d) ->
  exists fuel0, forall fuel extra, (fuel0 <= fuel)%nat -> exists desc,
    expand_extra drive fuel indices extra = Some (extra ++ desc) /\
    forall x, x ∈ desc <-> exists d, d ∈ indices /\ record_is drive is_directory d = true /\ below drive d x.
Proof using Hkids Hrank Hbound.
  induction indices as [|d indices IH]; intros Hall.
  - exists 0%nat. intros fuel extra _. exists []. cbn. rewrite app_nil_r. split; [done | set_solver].
  - destruct IH as (f0 & H0); [intros; apply Hall; [by right | done] |].
    destruct (record_is drive is_directory d) eqn:Hdir.
    + destruct (walk_dir d) as (n & desc & W & E); [apply Hall; [left | done] |].
      exists (n + f0)%nat. intros fuel extra Hf. destruct (H0 fuel (extra ++ desc)) as (desc' & E1 & E2); [lia |].
      exists (desc ++ desc'). cbn [expand_extra]. rewrite Hdir.
      assert (expand_loop drive fuel [d] extra = Some (extra ++ desc)) as ->.
      { replace fuel with (n + (fuel - n))%nat by lia. change [d] with ([d] ++ []). rewrite W. by destruct (fuel - n)%nat. }
      rewrite E1, app_assoc. split; [done |]. intros x. rewrite elem_of_app, E, E2. set_solver.
    + exists f0. intros fuel extra Hf. destruct (H0 fuel extra Hf) as (desc' & E1 & E2). exists desc'.
      cbn [expand_extra]. rewrite Hdir, E1. split; [done |]. intros x. rewrite E2. split; [set_solver |].
      intros (d' & [-> | Hd]%elem_of_cons & Hdir' & Hb); [congruence | eauto].
Qed.

End expand.

(** Ranks of finitely many slots are bounded. *)
Lemma rank_bound (rank : Z -> Z) (recs : list CompactRecord) :
  exists bound, forall i rec, zget recs i = Some rec -> rank i <= bound.
Proof.
  exists (foldr (fun i m => Z.max (rank i) m) 0 (seqZ 0 (zlen recs))). intros i rec [Hi _]%zget_Some.
  assert (Hin : i ∈ seqZ 0 (zlen recs)) by (apply elem_of_seqZ; lia). revert Hin.
  induction (seqZ 0 (zlen recs)) as [|x l IH]; [by intros ?%not_elem_of_nil |].
  intros [-> | Hin]%elem_of_cons; cbn; [lia |]. specialize (IH Hin). lia.
Qed.

Section path_mode.
Context (schedule : list (Z * Z) -> list (Z * Z)) (to_lowercase : list Z -> list Z).
Context (sort_by_len : list (list Z) -> list (list Z)).
Context (Hschedule : forall ws, schedule ws ≡ₚ ws) (Hsort : forall ls, sort_by_len ls ≡ₚ ls).
Context (drive : DriveCompactIndex) (needle : list Z) (mode : SearchMode) (keep_record : CompactRecord -> option bool).

(** In path mode, when the parent links have no cycle, the search terminates: its
    result is in index order without repetition, and holds exactly the first [limit]
    matching records and the records below the matching directories. *)
Theorem path_search_exact records0 names0 limit :
  searchable drive needle keep_record ->
  reachable schedule to_lowercase drive records0 names0 -> tree_ok (records drive) ->
  (forall ts t, needle_trigrams (fold drive) (extract_trigram_needle needle
      (contains_byte STAR needle || contains_byte QUESTION needle) (contains_byte BAR needle)) = Some ts ->
    t ∈ ts -> ~ pruned drive records0 names0 t) ->
  0 <= limit -> zlen (records drive) <= U32_MAX -> match_path mode = true -> needle <> [] ->
  let hits := take (Z.to_nat limit) (indices_where (kept drive needle mode keep_record) (records drive)) in
  exists fuel0, forall fuel, (fuel0 <= fuel)%nat ->
    exists l, search_compact_drive sort_by_len drive needle mode keep_record fuel limit = Some l /\ ascending l /\
      forall i, i ∈ l <-> i ∈ hits \/ exists d, d ∈ hits /\ record_is drive is_directory d = true /\ below drive d i.
Proof using Hschedule Hsort.
  intros Hs Hr [rank Hrank] Hp Hl Hz Hm Hn hits.
  pose proof (reachable_invariant _ _ _ _ _ Hr) as [Hw Ho].
  assert (Hsearch : forall fuel, search_compact_drive sort_by_len drive needle mode keep_record fuel limit =
    if negb (zlen hits =? 0) then expand_directory_descendants drive fuel hits else Some hits).
  { intros fuel. unfold search_compact_drive. rewrite Hm.
    replace (zlen needle =? 0) with false by (symmetry; apply Z.eqb_neq; intros E%zlen_0; done).
    by rewrite (search_spec schedule to_lowercase sort_by_len Hschedule Hsort drive needle mode keep_record Hs records0 names0)
      by (done || unfold U32_MAX in Hz; lia). }
  assert (Hasc : ascending hits).
  { pose proof (indices_where_sorted (kept drive needle mode keep_record) (records drive)) as H.
    rewrite <- (take_drop (Z.to_nat limit) (indices_where _ _)) in H. by apply ascending_app in H as (H & _). }
  destruct (rank_bound rank (records drive)) as [bound Hbound].
  destruct (expand_extra_spec drive rank bound) with (indices := hits) as (f0 & H0).
  - intros d c Hc Hd. apply record_is_true in Hd as (recd & [Hd _]%zget_Some & _).
    rewrite (children_of_spec schedule drive records0 names0) in Hc by (done || lia).
    apply elem_of_indices_where in Hc as (rec & Hrec & [E%Z.eqb_eq _]%andb_true_iff). eauto.
  - intros i rec Hi Hpar Hne. by apply (Hrank i rec Hi Hpar).
  - done.
  - intros d Hd Hdir. split; [done |]. intros rec Hrec E.
    assert (Hin : d ∈ indices_where (kept drive needle mode keep_record) (records drive)).
    { rewrite <- (take_drop (Z.to_nat limit) (indices_where _ _)). apply elem_of_app. by left. }
    apply elem_of_indices_where in Hin as (rec' & Hrec' & Hk). assert (rec' = rec) as -> by congruence.
    pose proof (matched_live _ _ _ _ _ Hk) as Hlive. pose proof Hrec as [Hran _]%zget_Some.
    destruct (Hrank d rec Hrec ltac:(lia)) as [_ H]. by rewrite H in Hlive.
  - exists f0. intros fuel Hf. rewrite Hsearch. destruct (H0 fuel [] Hf) as (desc & E1 & E2). cbn [app] in E1.
    setoid_rewrite <- E2. destruct (Z.eqb_spec (zlen hits) 0) as [Ez | Ez]; cbn [negb].
    + exists hits. split_and!; [done.. |]. intros i. rewrite E2. split; [by left |]. intros [? | (d & Hd & _)]; [done |].
      apply zlen_0 in Ez. rewrite Ez in Hd. by apply not_elem_of_nil in Hd.
    + unfold expand_directory_descendants. rewrite E1. destruct (Z.eqb_spec (zlen desc) 0) as [Ed | Ed].
      * exists hits. split_and!; [done.. |]. intros i. split; [by left |]. intros [? | Hi]; [done |].
        apply zlen_0 in Ed as ->. by apply not_elem_of_nil in Hi.
      * exists (sort_dedup (hits ++ desc)). destruct (sort_dedup_spec (hits ++ desc)) as [H1 H2].
        split_and!; [done.. |]. intros i. by rewrite H2, elem_of_app.
Qed.
End path_mode.

(** * Prefix search *)

Section prefix.
Context (sort_by_len : list (list Z) -> list (list Z)).
Context (drive : DriveCompactIndex) (prefix : list Z) (ignore_case : bool) (keep_record : CompactRecord -> option bool).

(** [prefix.get(..3.min(len)).unwrap_or(prefix)]: three bytes, when they end at a
    character. *)
Definition prefix_needle : list Z := default prefix (utf8_decode (take 3 (utf8_string prefix))).

Definition prefix_matches (name : list Z) : bool :=
  if ignore_case then starts_with (fold_into (fold drive) name) (fold_into (fold drive) prefix)
  else starts_with name prefix.

Fixpoint prefix_loop (limit : Z) (candidate_indices : list Z) (match_indices : list Z) : option (list Z) :=
  match candidate_indices with
  | [] => Some match_indices
  | rec_idx :: candidate_indices =>
      match zget (records drive) rec_idx with
      | None => prefix_loop limit candidate_indices match_indices
      | Some rec =>
          let name := name_chars (names drive) rec in
          if zlen name =? 0 then prefix_loop limit candidate_indices match_indices else
          let? k := if prefix_matches name then keep_record rec else Some false in
          if k then
            let match_indices := match_indices ++ [rec_idx] in
            if limit <=? zlen match_indices then Some match_indices
            else prefix_loop limit candidate_indices match_indices
          else prefix_loop limit candidate_indices match_indices
      end
  end.

Definition search_compact_drive_prefix (limit : Z) : option (list Z) :=
  match trigram_search sort_by_len drive prefix_needle with
  | Some candidate_indices => prefix_loop limit candidate_indices []
  | None => Some []
  end.

(** ** The search *)

Definition prefix_kept (rec : CompactRecord) : bool :=
  negb (zlen (name_chars (names drive) rec) =? 0) && prefix_matches (name_chars (names drive) rec) &&
  bool_decide (keep_record rec = Some true).

Context (Hkeep : forall rec, rec ∈ records drive -> exists b, keep_record rec = Some b).

Lemma prefix_loop_spec limit l out :
  zlen out < limit ->
  prefix_loop limit l out = Some (take (Z.to_nat limit) (out ++ List.filter (record_is drive prefix_kept) l)).
Proof using Hkeep.
  revert out. induction l as [|idx l IH]; intros out Hout; cbn [prefix_loop List.filter].
  - rewrite app_nil_r, take_ge; [done |]. unfold zlen in *. lia.
  - unfold record_is at 1. destruct (zget (records drive) idx) as [rec |] eqn:E; [|by apply IH].
    destruct (Hkeep rec) as [b Hb]; [by eapply zget_elem |].
    assert (Ek : prefix_kept rec = negb (zlen (name_chars (names drive) rec) =? 0) &&
      prefix_matches (name_chars (names drive) rec) && b) by (unfold prefix_kept; rewrite Hb; by destruct b).
    rewrite Ek. destruct (zlen (name_chars (names drive) rec) =? 0); [by apply IH |].
    destruct (prefix_matches _); cbn [negb andb]; [rewrite Hb | by apply IH]. destruct b; [|by apply IH].
    cbv zeta. rewrite zlen_app. change (zlen [idx]) with 1. destruct (Z.leb_spec limit (zlen out + 1)).
    + f_equal. replace (Z.to_nat limit) with (length (out ++ [idx])) by (rewrite length_app; cbn; unfold zlen in *; lia).
      symmetry. etrans; [|apply (take_app_length (out ++ [idx]))]. by rewrite <- app_assoc.
    + rewrite IH by (rewrite zlen_app; change (zlen [idx]) with 1; lia). by rewrite <- app_assoc.
Qed.

End prefix.

Lemma prefix_needle_ascii prefix :
  3 <= zlen prefix -> Forall (fun c => c < 0x80) (take 3 prefix) ->
  prefix_needle prefix = take 3 prefix.
Proof.
  intros Hlen Ha. unfold prefix_needle. unfold zlen in Hlen.
  destruct prefix as [|a [|b [|c prefix]]]; cbn [length] in Hlen; [lia.. |].
  cbn [take] in *. apply Forall_cons in Ha as [Ha [Hb [Hc _]%Forall_cons]%Forall_cons].
  assert (He : forall x, x < 0x80 -> utf8_encode x = [x]).
  { intros x Hx. unfold utf8_encode. by replace (x <? 0x80) with true by lia. }
  rewrite !utf8_string_cons, (He a), (He b), (He c) by done. cbn [app take].
  rewrite take_0. cbn [utf8_decode]. replace (a <? 0x80) with true by lia. replace (b <? 0x80) with true by lia.
  by replace (c <? 0x80) with true by lia.
Qed.

(** The head of the prefix is in every folded name that matches. *)
Lemma prefix_substring drive prefix ignore_case name :
  table_ok (fold drive) -> scalars prefix -> scalars name -> prefix_matches drive prefix ignore_case name = true ->
  substring (map (fold_cp (fold drive)) (take 3 prefix)) (map (fold_cp (fold drive)) name).
Proof.
  intros Ht Hp Hn. unfold prefix_matches.
  assert (Hhead : substring (map (fold_cp (fold drive)) (take 3 prefix)) (map (fold_cp (fold drive)) prefix)).
  { apply substring_map. exists [], (drop 3 prefix). by rewrite take_drop. }
  destruct ignore_case; intros (b & E)%starts_with_spec; (eapply substring_trans; [exact Hhead |]).
  - rewrite !fold_into_exact in E by done.
    apply utf8_string_prefix in E as (zs & -> & _); [by exists [], zs | by apply fold_cps_scalar..].
  - rewrite E, map_app. by exists [], (map (fold_cp (fold drive)) b).
Qed.

Lemma trigram_search_returns sort_by_len drive needle ts :
  needle_trigrams (fold drive) needle = Some ts -> exists l, trigram_search sort_by_len drive needle = Some l.
Proof.
  intros E. unfold trigram_search, search. destruct (delta drive); rewrite E; repeat case_match; eauto.
Qed.

(** A prefix search whose prefix starts with three ASCII characters returns exactly
    the first [limit] records whose folded (or exact) names start with the prefix, in
    index order, on a reachable drive whose last compaction did not prune the leading
    trigram. *)
Theorem prefix_search_exact schedule to_lowercase sort_by_len drive prefix ignore_case keep_record records0 names0 limit :
  (forall ws, schedule ws ≡ₚ ws) -> (forall ls, sort_by_len ls ≡ₚ ls) ->
  searchable drive prefix keep_record -> reachable schedule to_lowercase drive records0 names0 ->
  3 <= zlen prefix -> Forall (fun c => c < 0x80) (take 3 prefix) ->
  (forall ts t, needle_trigrams (fold drive) (take 3 prefix) = Some ts -> t ∈ ts -> ~ pruned drive records0 names0 t) ->
  1 <= limit ->
  search_compact_drive_prefix sort_by_len drive prefix ignore_case keep_record limit =
  Some (take (Z.to_nat limit) (indices_where (prefix_kept drive prefix ignore_case keep_record) (records drive))).
Proof.
  intros Hsch Hsort Hs Hr Hlen Hascii Hp Hl. pose proof (reachable_invariant _ _ _ _ _ Hr) as [_ Ho].
  unfold search_compact_drive_prefix. rewrite prefix_needle_ascii by done.
  destruct (needle_trigrams (fold drive) (take 3 prefix)) as [ts |] eqn:Ets.
  2: { exfalso. unfold needle_trigrams in Ets. rewrite zlen_map in Ets. unfold zlen in *. rewrite length_take in Ets.
    destruct (Z.ltb_spec (Z.of_nat (3 `min` length prefix)) 3); [lia | done]. }
  destruct (trigram_search_returns sort_by_len drive (take 3 prefix) ts Ets) as [l El]. rewrite El.
  rewrite prefix_loop_spec; [| apply Hs | rewrite zlen_nil; lia]. do 2 f_equal. cbn [app].
  apply ascending_ext; [apply filter_sorted; by eapply trigram_search_ascending | apply indices_where_sorted |].
  intros i. rewrite elem_of_filterb, record_is_true, elem_of_indices_where. split; [by intros [_ ?] |].
  intros (rec & Hi & Hk). split; [|eauto].
  destruct (trigram_search_keeps schedule sort_by_len Hsch Hsort drive records0 names0 (take 3 prefix) ts i rec)
    as (l' & E' & Hl'); [done | done | eauto | done | | | congruence].
  - apply (named_live drive). intros E. unfold prefix_kept in Hk. by rewrite E in Hk.
  - intros t Ht. rewrite <- trigrams_of_name. pose proof (name_scalars _ _ _ Hs rec) as Hn.
    destruct (needle_trigrams_found (fold drive) (take 3 prefix) (name_chars (names drive) rec) ts t) as (ns & -> & Hns);
      [apply Hs | apply Forall_take, (se_needle _ _ _ Hs) | done | | done..].
    apply andb_true_iff in Hk as [[_ Hk]%andb_true_iff _]. eapply prefix_substring; [apply Hs.. | done | exact Hk].
Qed.

(** * A sample search *)

(** The sample drive of UsnPatch with the ASCII part of the case table. *)
Definition folding_loaded : DriveCompactIndex :=
  mkDriveCompactIndex sample_records sample_names (trigram sample_loaded) (children sample_loaded)
    (ext_index sample_loaded) ascii_table (ext_names sample_loaded) None [0; 1; 2] None.
Definition folding_drive : DriveCompactIndex := compact_base (@rev _) folding_loaded.

Lemma folding_reachable : reachable (@rev _) id folding_drive sample_records sample_names.
Proof. apply (reach_load _ _ folding_loaded); [by apply drive_wfb_ok | by split]. Qed.

Lemma fold_cp_ascii c : 0 <= c -> fold_cp ascii_table c = if c <? 0x80 then upcase c else c.
Proof.
  intros Hc. unfold fold_cp, ascii_table. rewrite zget_map. destruct (Z.ltb_spec c 0x80).
  - replace (c <? 0x10000) with true by lia. replace (zget (seqZ 0 0x80) c) with (Some c); [done |].
    symmetry. apply zget_Some. unfold zlen. rewrite length_seqZ. split; [lia |]. apply lookup_seqZ. lia.
  - replace (zget (seqZ 0 0x80) c) with (@None Z); [by destruct (c <? 0x10000) |].
    symmetry. apply zget_None. unfold zlen. rewrite length_seqZ. lia.
Qed.

Lemma ascii_table_ok : table_ok ascii_table.
Proof.
  assert (H : forall c, 0 <= c < 0x10000 -> fold_cp ascii_table c = c \/ c < 0x80 /\ fold_cp ascii_table c = fold_cp default_table c).
  { intros c Hc. rewrite fold_cp_ascii, fold_cp_default by lia. destruct (Z.ltb_spec c 0x80); [right | left]; lia. }
  destruct default_table_ok as [H1 H2 H3]. split.
  - intros c Hc. destruct (H c ltac:(lia)) as [-> | [_ ->]]; auto.
  - intros c Hs Hc. pose proof (scalar_range c Hs). destruct (H c ltac:(lia)) as [-> | [_ ->]]; auto.
  - intros w Hw c Hs. pose proof (scalar_range c Hs). destruct (Z.ltb_spec c 0x10000).
    + destruct (H c ltac:(lia)) as [-> | [_ ->]]; [done |]. by apply H3.
    + unfold fold_cp. by replace (c <? 0x10000) with false by lia.
Qed.

(** [Doc*], not case sensitive. *)
Definition doc_needle : list Z := [68; 111; 99; 42].

Lemma folding_searchable : searchable folding_drive doc_needle (fun _ => Some true).
Proof.
  split.
  - apply ascii_table_ok.
  - by apply (bool_decide_unpack _).
  - by apply (bool_decide_unpack _).
  - intros rec Hr. each_elem Hr; by apply (bool_decide_unpack _).
  - eauto.
Qed.

Lemma doc_not_pruned ts t :
  needle_trigrams (fold folding_drive) (extract_trigram_needle doc_needle true false) = Some ts ->
  t ∈ ts -> ~ pruned folding_drive sample_records sample_names t.
Proof. intros E Ht [_ Hp]. vm_compute in E. injection E as <-. each_elem Ht; by vm_compute in Hp. Qed.

Lemma drive_search_exact_witness :
  search_compact_drive (@rev _) folding_drive doc_needle (mkSearchMode false false false) (fun _ => Some true) 0 10 = Some [1].
Proof.
  rewrite (drive_search_exact (@rev _) id (@rev _) rev_permutation rev_permutation folding_drive doc_needle
    (mkSearchMode false false false) (fun _ => Some true) folding_searchable sample_records sample_names 0 10
    folding_reachable doc_not_pruned); [by vm_compute | by vm_compute.. | done | done].
Defined.

Lemma path_search_exact_witness :
  exists fuel0, forall fuel, (fuel0 <= fuel)%nat -> exists l,
    search_compact_drive (@rev _) folding_drive doc_needle (mkSearchMode false false true) (fun _ => Some true) fuel 10 = Some l /\
    ascending l.
Proof.
  assert (Ht : tree_ok (records folding_drive)) by (by apply (tree_okb_ok (fun i => i))).
  destruct (path_search_exact (@rev _) id (@rev _) rev_permutation rev_permutation folding_drive doc_needle
    (mkSearchMode false false true) (fun _ => Some true) sample_records sample_names 10 folding_searchable
    folding_reachable Ht doc_not_pruned) as (f0 & H); [by vm_compute | by vm_compute | done | done |].
  exists f0. intros fuel Hf. destruct (H fuel Hf) as (l & E & Ha & _). eauto.
Defined.

Lemma prefix_search_exact_witness :
  search_compact_drive_prefix (@rev _) folding_drive [68; 111; 99] true (fun _ => Some true) 1 = Some [1].
Proof.
  assert (Hs : searchable folding_drive [68; 111; 99] (fun _ => Some true)).
  { destruct folding_searchable as [H1 H2 _ H4 H5]. split; [exact H1 | exact H2 | | exact H4 | exact H5].
    by apply (bool_decide_unpack _). }
  rewrite (prefix_search_exact (@rev _) id (@rev _) folding_drive [68; 111; 99] true (fun _ => Some true)
    sample_records sample_names 1 rev_permutation rev_permutation Hs folding_reachable).
  - by vm_compute.
  - by vm_compute.
  - by repeat constructor.
  - intros ts t E Ht [_ Hp]. vm_compute in E. injection E as <-. each_elem Ht; by vm_compute in Hp.
  - done.
Defined.

(** A drive with one file, whose name is a CJK character and an [x]. *)
Definition cjk_drive : DriveCompactIndex :=
  compact_base (@rev _) (bare_drive [sample_record U32_MAX 0 4 0 0 0] [0xE6; 0x97; 0xA5; 120] [[]] None [0]).

(** The leading needle of a prefix search is three bytes, not three characters: the
    pattern of one CJK character and a star is taken for a prefix query, its three bytes
    are one character, the trigram search has no answer for it, and the file that starts
    with the character is not found. *)
Theorem prefix_search_drops_cjk :
  is_prefix_pattern (utf8_string [0x65E5; STAR]) = Some (utf8_string [0x65E5]) /\
  prefix_kept cjk_drive [0x65E5] true (fun _ => Some true) (sample_record U32_MAX 0 4 0 0 0) = true /\
  search_compact_drive_prefix (@rev _) cjk_drive [0x65E5] true (fun _ => Some true) 10 = Some [].
Proof. split_and!; by vm_compute. Qed.
