(* ===== verification/Filters.v ===== *)
(** Record filters of a search: [SearchFilters] of
    [crates/uffs-core/src/search/filters/mod.rs] and [ext_match.rs], with the extension
    resolution of [crates/uffs-core/src/compact.rs].

    Names are the bytes of a record's name when they are UTF-8, empty otherwise;
    [to_lowercase], [lower_char] ([char::to_lowercase]) and [trim] are the standard library's. *)
From S2P Require Import Prelude Text CaseFold Calendar Glob CsrIndex TrigramIndex IndexDelta Bloom CompactIndex PathLen UsnBatch UsnPatch.
From stdpp Require Import strings.
Local Open Scope Z_scope.
Local Open Scope rust_scope.

(** * Names *)

(** [CompactRecord::name_bytes] and [CompactRecord::name]. *)
Definition name_bytes (names : list Z) (rec : CompactRecord) : list Z :=
  default [] (get_range names (name_offset rec) (name_offset rec + name_len rec)).

Definition name_str (names : list Z) (rec : CompactRecord) : list Z :=
  if utf8_valid (name_bytes names rec) then name_bytes names rec else [].

Definition bytes_of (s : string) : list Z := map (fun c => Z.of_N (Ascii.N_of_ascii c)) (String.list_ascii_of_string s).

Definition NTFS_METAFILE_NAMES : list (list Z) := map bytes_of [
  "$MFT"; "$MFTMirr"; "$LogFile"; "$Volume"; "$AttrDef"; "$Bitmap"; "$Boot"; "$BadClus"; "$Secure"; "$UpCase";
  "$Extend"; "$ObjId"; "$Quota"; "$Reparse"; "$UsnJrnl"; "$RmMetadata"; "$Deleted"; "$Repair"; "$Tops"; "$TxfLog";
  "$Txf"]%string.

(** [u8::to_ascii_lowercase] and [str::eq_ignore_ascii_case]. *)
Definition ascii_lower (b : Z) : Z := if (65 <=? b) && (b <=? 90) then b + 32 else b.
Definition eq_ignore_ascii_case (a b : list Z) : bool := bool_decide (map ascii_lower a = map ascii_lower b).

Definition is_ntfs_metafile_name (name : list Z) : bool :=
  existsb (fun reserved => eq_ignore_ascii_case name reserved) NTFS_METAFILE_NAMES.

Definition DOLLAR : Z := 36.
Definition COLON : Z := 58.

Definition is_system_metafile (names : list Z) (rec : CompactRecord) : bool :=
  (name_first_byte rec =? DOLLAR) && is_ntfs_metafile_name (name_str names rec).

(** * Filters *)

Inductive FilterMode := All | FilesOnly | DirsOnly.

(** Every field but [malformed_render], which only concerns display. *)
Record SearchFilters := mkSearchFilters {
  hide_system : bool; hide_ads : bool;
  min_size : option Z; max_size : option Z;
  newer_us : option Z; older_us : option Z;
  newer_created_us : option Z; older_created_us : option Z;
  newer_accessed_us : option Z; older_accessed_us : option Z;
  attr_require : Z; attr_exclude : Z;
  min_descendants : option Z; max_descendants : option Z;
  extensions : list (list Z); resolved_ext_ids : list Z;
  exclude_lower : option (list Z);
  path_contains_lower : option (list Z); path_excludes_lower : option (list (list Z));
  type_filter : option (list Z);
  min_bulkiness : option Z; max_bulkiness : option Z;
  min_name_len : option Z; max_name_len : option Z;
  min_path_len : option Z; max_path_len : option Z;
  min_allocated : option Z; max_allocated : option Z;
  min_treesize : option Z; max_treesize : option Z;
  min_tree_allocated : option Z; max_tree_allocated : option Z;
  allowed_months : list Z;
  malformed : option bool; deleted : option bool
}.

Definition BULKINESS_SCALE : Z := 1000000.
Definition DELETED_TOMBSTONE_FLAG : Z := 0x80000000.

Definition is_none {A} (o : option A) : bool := match o with None => true | Some _ => false end.
Definition is_nil {A} (l : list A) : bool := match l with [] => true | _ => false end.

(** The bounds and the criteria every early return of the predicate shares. *)
Definition bounds_unset (f : SearchFilters) : bool :=
  is_none (min_size f) && is_none (max_size f) &&
  is_none (newer_us f) && is_none (older_us f) &&
  is_none (newer_created_us f) && is_none (older_created_us f) &&
  is_none (newer_accessed_us f) && is_none (older_accessed_us f) &&
  (attr_require f =? 0) && (attr_exclude f =? 0) &&
  is_none (min_descendants f) && is_none (max_descendants f) &&
  is_none (exclude_lower f) && is_none (path_contains_lower f) && is_none (path_excludes_lower f) &&
  is_none (type_filter f) && is_none (min_bulkiness f) && is_none (max_bulkiness f) &&
  is_none (min_name_len f) && is_none (max_name_len f) && is_none (min_path_len f) && is_none (max_path_len f) &&
  is_none (min_allocated f) && is_none (max_allocated f) && is_none (min_treesize f) && is_none (max_treesize f) &&
  is_none (min_tree_allocated f) && is_none (max_tree_allocated f) && is_nil (allowed_months f).

Definition is_ext_only (f : SearchFilters) : bool := negb (is_nil (extensions f)) && bounds_unset f.

Definition is_empty (f : SearchFilters) : bool :=
  negb (hide_system f) && negb (hide_ads f) && is_nil (extensions f) && bounds_unset f &&
  is_none (malformed f) && is_none (deleted f).

(** [if let Some(b) = bound && v < b { return false; }], with [>] and [>=]. *)
Definition under (bound : option Z) (v : Z) : bool := match bound with Some b => v <? b | None => false end.
Definition over (bound : option Z) (v : Z) : bool := match bound with Some b => b <? v | None => false end.
Definition at_or_over (bound : option Z) (v : Z) : bool := match bound with Some b => b <=? v | None => false end.

(** [if let Some(want) = wanted && is != want { return false; }]. *)
Definition differs (wanted : option bool) (actual : bool) : bool :=
  match wanted with Some want => negb (Bool.eqb actual want) | None => false end.

Definition bulkiness (rec : CompactRecord) : Z :=
  let '(logical, alloc) :=
    if is_directory rec then (treesize rec, tree_allocated rec) else (CsrIndex.size rec, allocated rec) in
  default 0 (checked_div (saturating_mul_u64 alloc BULKINESS_SCALE) logical).

Definition matches_derived (f : SearchFilters) (names : list Z) (rec : CompactRecord) : bool :=
  let name_len := len_to_u16 (zlen (name_chars names rec)) in
  if under (min_name_len f) name_len || over (max_name_len f) name_len then false
  else if under (min_allocated f) (allocated rec) || over (max_allocated f) (allocated rec) then false
  else if under (min_treesize f) (treesize rec) || over (max_treesize f) (treesize rec) then false
  else if under (min_tree_allocated f) (tree_allocated rec) || over (max_tree_allocated f) (tree_allocated rec) then false
  else if under (min_bulkiness f) (bulkiness rec) || over (max_bulkiness f) (bulkiness rec) then false
  else if under (min_path_len f) (path_len rec) || over (max_path_len f) (path_len rec) then false
  else if negb (is_nil (allowed_months f)) &&
    negb (bool_decide (month_from_filetime (modified rec) ∈ allowed_months f)) then false
  else negb (differs (malformed f) (negb (utf8_valid (name_bytes names rec)))).

Section matching.
Context (to_lowercase : list Z -> list Z) (lower_char : Z -> list Z) (trim : list Z -> list Z).

(** [lowercase_into]: character by character. *)
Definition lowercase_into (input : list Z) : list Z := utf8_string (str_chars input ≫= lower_char).

Definition extension_matches_filter (allowed normalized_extension : list Z) : bool :=
  bool_decide (allowed = normalized_extension) || bool_decide (to_lowercase allowed = normalized_extension).

Definition extract_extension_after_dot (filename : list Z) : list Z :=
  match rfind_dot filename with
  | None => []
  | Some dot_pos =>
      if (dot_pos =? 0) || (zlen filename - 1 <=? dot_pos) then []
      else default [] (get_from filename (dot_pos + 1))
  end.

(** The extension criterion: pre-resolved ids, or the name's extension. *)
Definition matches_extension (f : SearchFilters) (names : list Z) (rec : CompactRecord) : bool :=
  if negb (is_nil (resolved_ext_ids f)) then bool_decide (extension_id rec ∈ resolved_ext_ids f)
  else if negb (is_nil (extensions f)) then
    let ext := extract_extension_after_dot (name_str names rec) in
    if is_nil ext then false
    else
      let normalized_ext := lowercase_into ext in
      existsb (fun allowed => extension_matches_filter allowed normalized_ext) (extensions f)
  else true.

Definition matches_record (f : SearchFilters) (table names : list Z) (rec : CompactRecord) : option bool :=
  if hide_system f && is_system_metafile names rec then Some false
  else if hide_ads f && contains_byte COLON (name_str names rec) then Some false
  else if under (min_size f) (CsrIndex.size rec) || over (max_size f) (CsrIndex.size rec) then Some false
  else if under (newer_us f) (modified rec) || at_or_over (older_us f) (modified rec) then Some false
  else if under (newer_created_us f) (created rec) || at_or_over (older_created_us f) (created rec) then Some false
  else if under (newer_accessed_us f) (accessed rec) || at_or_over (older_accessed_us f) (accessed rec) then Some false
  else if negb (attr_require f =? 0) && negb (Z.land (flags rec) (attr_require f) =? attr_require f) then Some false
  else if negb (attr_exclude f =? 0) && negb (Z.land (flags rec) (attr_exclude f) =? 0) then Some false
  else if differs (deleted f) (negb (Z.land (flags rec) DELETED_TOMBSTONE_FLAG =? 0)) then Some false
  else if under (min_descendants f) (descendants rec) || over (max_descendants f) (descendants rec) then Some false
  else if negb (matches_extension f names rec) then Some false
  else
    let? excluded :=
      match exclude_lower f with
      | Some excl => name_matches (fold_into table (str_chars (name_str names rec))) excl
      | None => Some false
      end in
    Some (negb excluded && matches_derived f names rec).

(** [DriveCompactIndex::resolve_ext_ids] and [resolve_ext_ids_for_drive]. *)
Definition resolve_ext_ids (ext_names : list (list Z)) (exts : list (list Z)) : list Z :=
  let ids := omap (fun ext =>
    let normalized := to_lowercase (trim_start_dots (trim ext)) in
    if is_nil normalized then None
    else let? idx := position normalized ext_names in Some (to_u16_or_0 idx)) exts in
  sort_dedup ids.

Definition set_resolved (f : SearchFilters) (ids : list Z) : SearchFilters :=
  mkSearchFilters (hide_system f) (hide_ads f) (min_size f) (max_size f) (newer_us f) (older_us f)
    (newer_created_us f) (older_created_us f) (newer_accessed_us f) (older_accessed_us f) (attr_require f)
    (attr_exclude f) (min_descendants f) (max_descendants f) (extensions f) ids (exclude_lower f)
    (path_contains_lower f) (path_excludes_lower f) (type_filter f) (min_bulkiness f) (max_bulkiness f)
    (min_name_len f) (max_name_len f) (min_path_len f) (max_path_len f) (min_allocated f) (max_allocated f)
    (min_treesize f) (max_treesize f) (min_tree_allocated f) (max_tree_allocated f) (allowed_months f)
    (malformed f) (deleted f).

Definition resolve_ext_ids_for_drive (f : SearchFilters) (drive : DriveCompactIndex) : SearchFilters :=
  if is_nil (extensions f) then set_resolved f [] else set_resolved f (resolve_ext_ids (ext_names drive) (extensions f)).

End matching.

(** The predicate returns on names without a star byte. *)
Lemma matches_record_total to_lowercase lower_char g table names rec :
  no_star (fold_into table (str_chars (name_str names rec))) ->
  exists b, matches_record to_lowercase lower_char g table names rec = Some b.
Proof.
  intros Hs. unfold matches_record. 
  repeat match goal with |- context [if ?b then Some false else _] => destruct b; [by eauto |] end.
  destruct (exclude_lower g) as [excl |]; [|eauto]. destruct (name_matches_spec _ excl Hs) as (b & -> & _). eauto.
Qed.

(** * The filters a type adds *)

(** The merge of an [--ext] list with the extensions of a [--type]: the new extension
    list and the type left for the row filter. *)
Definition merge_type_filter (exts : list (list Z)) (type_exts : option (list (list Z))) (lower : list Z)
  : list (list Z) * option (list Z) :=
  match type_exts with
  | Some type_exts =>
      (if is_nil exts then type_exts else List.filter (fun ext => bool_decide (ext ∈ type_exts)) exts, None)
  | None => (exts, Some lower)
  end.

Lemma name_str_chars names rec : str_chars (name_str names rec) = name_chars names rec.
Proof.
  unfold name_str, name_chars, Filters.name_bytes, utf8_valid. destruct (utf8_decode (default [] _)) eqn:E; [done |].
  unfold str_chars at 2. by rewrite E.
Qed.

(** * No filter *)

Lemma is_none_true {A} (o : option A) : is_none o = true <-> o = None.
Proof. by destruct o. Qed.

Lemma is_nil_true {A} (l : list A) : is_nil l = true <-> l = [].
Proof. by destruct l. Qed.

Ltac split_ands :=
  repeat match goal with
  | H : (_ && _)%bool = true |- _ => apply andb_true_iff in H as [? ?]
  | H : negb _ = true |- _ => apply negb_true_iff in H
  | H : is_none _ = true |- _ => apply is_none_true in H
  | H : is_nil _ = true |- _ => apply is_nil_true in H
  end.

(** Bounds that are not set reject nothing. *)
Lemma bounds_unset_matches to_lowercase lower_char f table names rec :
  bounds_unset f = true ->
  matches_record to_lowercase lower_char f table names rec =
  Some (negb (hide_system f && is_system_metafile names rec) &&
    negb (hide_ads f && contains_byte COLON (name_str names rec)) &&
    negb (differs (deleted f) (negb (Z.land (flags rec) DELETED_TOMBSTONE_FLAG =? 0))) &&
    matches_extension to_lowercase lower_char f names rec &&
    negb (differs (malformed f) (negb (utf8_valid (name_bytes names rec))))).
Proof.
  unfold bounds_unset. intros H. split_ands. unfold matches_record, matches_derived, under, over, at_or_over.
  repeat match goal with E : ?x f = _ |- _ => rewrite E; clear E end.
  repeat match goal with E : (?x f =? 0) = true |- _ => rewrite E; clear E end. cbn [orb negb andb is_nil].
  destruct (hide_system f && _); [done |]. destruct (hide_ads f && _); [done |].
  destruct (differs (deleted f) _); [done |]. destruct (matches_extension _ _ _ _); [|done].
  cbn [negb andb]. by destruct (differs (malformed f) _).
Qed.

(** With no filter set the predicate keeps every record, so an unfiltered search is
    not changed by the filter call in its loop. *)
Theorem empty_filters_keep to_lowercase lower_char f table names rec :
  is_empty f = true -> resolved_ext_ids f = [] -> matches_record to_lowercase lower_char f table names rec = Some true.
Proof.
  unfold is_empty. intros H Hr. split_ands. rewrite bounds_unset_matches by done. unfold matches_extension.
  repeat match goal with E : ?x f = _ |- _ => rewrite E; clear E end. done.
Qed.

Definition no_filters : SearchFilters :=
  mkSearchFilters false false None None None None None None None None 0 0 None None [] [] None None None None
    None None None None None None None None None None None None [] None None.

Lemma empty_filters_keep_witness :
  matches_record id (fun c => [c]) no_filters [] sample_names (sample_record 1 5 5 1 0 13) = Some true.
Proof. apply empty_filters_keep; reflexivity. Defined.

(** * Extensions *)

Lemma position_Some name l i : position name l = Some i -> zget l i = Some name.
Proof.
  revert i. induction l as [|x l IH]; intros i; cbn; [done |]. case_bool_decide as E.
  - intros [= <-]. by subst.
  - destruct (position name l) as [j |]; [|done]. intros [= <-]. specialize (IH j eq_refl).
    pose proof IH as [Hj _]%zget_Some. change (x :: l) with ([x] ++ l).
    rewrite zget_app_r by (change (zlen [x]) with 1; lia). change (zlen [x]) with 1. by replace (j + 1 - 1) with j by lia.
Qed.

Lemma position_elem name l : name ∈ l -> exists i, position name l = Some i.
Proof.
  induction l as [|x l IH]; intros Hin; [by apply not_elem_of_nil in Hin |]. cbn. case_bool_decide as E; [eauto |].
  apply elem_of_cons in Hin as [-> | Hin]; [done |]. destruct (IH Hin) as [i ->]. eauto.
Qed.

Lemma zget_NoDup {A} (l : list A) i j x : NoDup l -> zget l i = Some x -> zget l j = Some x -> i = j.
Proof.
  intros Hn [Hi Hx]%zget_Some [Hj Hy]%zget_Some.
  assert (Z.to_nat i = Z.to_nat j) by (eapply NoDup_lookup; eauto). lia.
Qed.

Section extensions.
Context (to_lowercase : list Z -> list Z) (lower_char : Z -> list Z) (trim : list Z -> list Z).

(** The tokens [from_params] keeps are trimmed, without leading dots, and lowercase. *)
Definition token_ok (ext : list Z) : Prop :=
  ext <> [] /\ trim_start_dots (trim ext) = ext /\ to_lowercase ext = ext.

(** The extension table: the reserved empty name first, no repetition, and room for ids. *)
Definition ext_table_ok (exts : list (list Z)) : Prop :=
  NoDup exts /\ zget exts 0 = Some [] /\ zlen exts <= U16_MAX.

(** A record's extension id is that of its name's extension. *)
Definition ext_id_ok (exts : list (list Z)) (names : list Z) (rec : CompactRecord) : Prop :=
  zget exts (extension_id rec) = Some (default [] (normalized_extension to_lowercase (name_str names rec))).

(** Lowercasing the extension as a string or character by character is the same, which fails
    only for a final capital sigma. *)
Definition lower_agrees (names : list Z) (rec : CompactRecord) : Prop :=
  let ext := extract_extension_after_dot (name_str names rec) in lowercase_into lower_char ext = to_lowercase ext.

Lemma elem_of_resolve_ext_ids exts tokens i :
  ext_table_ok exts -> Forall token_ok tokens ->
  i ∈ resolve_ext_ids to_lowercase trim exts tokens <-> exists ext, ext ∈ tokens /\ zget exts i = Some ext.
Proof using Type.
  intros (Hnd & _ & Hlen) Ht. unfold resolve_ext_ids. destruct (sort_dedup_spec (omap (fun ext =>
    let normalized := to_lowercase (trim_start_dots (trim ext)) in
    if is_nil normalized then None else let? idx := position normalized exts in Some (to_u16_or_0 idx)) tokens)) as [_ ->].
  rewrite list_elem_of_omap. rewrite Forall_forall in Ht. split.
  - intros (ext & Hin & E). exists ext. split; [done |]. destruct (Ht ext Hin) as (Hne & E1 & E2). cbv zeta in E. rewrite E1, E2 in E.
    destruct ext as [|c ext]; [done |]. cbn [is_nil] in E. destruct (position (c :: ext) exts) as [j |] eqn:Ej; [|done].
    injection E as <-. apply position_Some in Ej. pose proof Ej as [Hj _]%zget_Some.
    unfold to_u16_or_0. by replace (j <=? U16_MAX) with true by lia.
  - intros (ext & Hin & E). exists ext. split; [done |]. destruct (Ht ext Hin) as (Hne & E1 & E2). cbv zeta. rewrite E1, E2.
    destruct ext as [|c ext]; [done |]. cbn [is_nil]. destruct (position_elem (c :: ext) exts) as [j Ej]; [by eapply zget_elem |].
    rewrite Ej. apply position_Some in Ej. pose proof Ej as [Hj _]%zget_Some. unfold to_u16_or_0.
    replace (j <=? U16_MAX) with true by lia. f_equal. by eapply zget_NoDup.
Qed.

Lemma rfind_dot_spec s p :
  rfind_dot s = Some p -> exists a b, s = a ++ 46 :: b /\ zlen a = p /\ 46 ∉ b.
Proof.
  revert p. induction s as [|c s IH]; intros p; cbn [rfind_dot]; [done |].
  destruct (rfind_dot s) as [q |] eqn:E.
  - intros [= <-]. destruct (IH q eq_refl) as (a & b & -> & <- & Hb). exists (c :: a), b. rewrite zlen_cons. split_and!; [done | lia | done].
  - destruct (Z.eqb_spec c 46) as [-> |]; [|done]. intros [= <-]. exists [], s. split_and!; [done | done |].
    clear IH. intros Hin. enough (exists q, rfind_dot s = Some q) as [q Hq] by congruence. clear E. induction s as [|c s IH].
    + by apply not_elem_of_nil in Hin.
    + cbn. apply elem_of_cons in Hin as [<- | Hin].
      * rewrite Z.eqb_refl. destruct (rfind_dot s); eauto.
      * destruct (IH Hin) as [q ->]. eauto.
Qed.

(** The index's extension of a name and the filter's are the same. *)
Lemma extension_after_dot filename :
  let ext := extract_extension_after_dot filename in
  normalized_extension to_lowercase filename =
  if is_nil ext then None else if is_nil (to_lowercase ext) then None else Some (to_lowercase ext).
Proof using Type.
  unfold normalized_extension, extract_extension_after_dot.
  destruct (rfind_dot filename) as [p |] eqn:E; [|done].
  destruct (rfind_dot_spec _ _ E) as (a & b & -> & <- & Hb).
  rewrite zlen_app, zlen_cons. replace (zlen a + (1 + zlen b) <=? zlen a + 1) with (zlen a + (1 + zlen b) - 1 <=? zlen a)
    by (destruct (Z.leb_spec (zlen a + (1 + zlen b) - 1) (zlen a)); lia).
  destruct (_ || _) eqn:Eb; [done |].
  assert (Eg : get_from (a ++ 46 :: b) (zlen a + 1) = Some b).
  { rewrite cons_middle, app_assoc. apply get_from_app. by rewrite zlen_app. }
  rewrite Eg. cbn [default]. unfold id.
  assert (trim_start_dots b = b) as ->.
  { destruct b as [|c b]; [done |]. cbn. destruct (Z.eqb_spec c 46) as [-> |]; [|done]. exfalso. apply Hb. left. }
  cbv zeta. destruct b as [|c b]; [change (zlen (@nil Z)) with 0 in Eb; lia |]. cbn [is_nil].
  destruct (to_lowercase (c :: b)) as [|x l] eqn:El; [done |]. rewrite zlen_cons. pose proof (zlen_nonneg l).
  cbn [is_nil]. by replace (1 + zlen l =? 0) with false by lia.
Qed.

(** The name has a listed extension exactly when the record's id is that of one. *)
Lemma matches_extension_by_name f exts names rec :
  ext_table_ok exts -> Forall token_ok (extensions f) -> ext_id_ok exts names rec ->
  lower_agrees names rec -> extensions f <> [] ->
  matches_extension to_lowercase lower_char (set_resolved f []) names rec = true <->
  exists ext, ext ∈ extensions f /\ zget exts (extension_id rec) = Some ext.
Proof using Type.
  intros Htab Htok Hid Hlow Hne. unfold matches_extension. cbn [resolved_ext_ids set_resolved extensions is_nil negb].
  replace (is_nil (extensions f)) with false by (by destruct (extensions f)). cbn [negb].
  unfold ext_id_ok in Hid. rewrite Hid, extension_after_dot.
  cbv zeta. unfold lower_agrees in Hlow. cbv zeta in Hlow. rewrite Hlow. set (ext := extract_extension_after_dot _).
  rewrite Forall_forall in Htok. destruct (is_nil ext) eqn:Ene.
  - split; [done |]. intros (e & Hi & [= <-]). by destruct (Htok [] Hi).
  - rewrite existsb_exists. setoid_rewrite <- list_elem_of_In. unfold extension_matches_filter.
    setoid_rewrite orb_true_iff. setoid_rewrite bool_decide_eq_true.
    destruct (is_nil (to_lowercase ext)) eqn:El.
    + apply is_nil_true in El. rewrite El. split.
      * intros (e & Hi & [-> | E]); destruct (Htok _ Hi) as (He & _ & E2); [done | congruence].
      * intros (e & Hi & [= <-]). by destruct (Htok [] Hi).
    + cbn [default]. unfold id. split.
      * intros (e & Hi & [-> | E]); [eauto |]. destruct (Htok _ Hi) as (_ & _ & E2). exists e. split; [done |]. congruence.
      * intros (e & Hi & [= E]). exists e. split; [done |]. by left.
Qed.

Lemma resolved_filter_agrees f drive table rec :
  ext_table_ok (ext_names drive) -> Forall token_ok (extensions f) -> ext_id_ok (ext_names drive) (names drive) rec ->
  lower_agrees (names drive) rec ->
  matches_record to_lowercase lower_char (resolve_ext_ids_for_drive to_lowercase trim f drive) table (names drive) rec =
  matches_record to_lowercase lower_char (set_resolved f []) table (names drive) rec.
Proof using Type.
  intros Htab Htok Hid Hlow.
  assert (He : matches_extension to_lowercase lower_char (resolve_ext_ids_for_drive to_lowercase trim f drive) (names drive) rec =
    matches_extension to_lowercase lower_char (set_resolved f []) (names drive) rec).
  { unfold resolve_ext_ids_for_drive. destruct (is_nil (extensions f)) eqn:En; [done |].
    assert (Hne : extensions f <> []) by (intros E; by rewrite E in En).
    pose proof (elem_of_resolve_ext_ids _ (extensions f) (extension_id rec) Htab Htok) as Hin.
    pose proof (matches_extension_by_name f _ _ rec Htab Htok Hid Hlow Hne) as Hname.
    destruct (resolve_ext_ids _ _ _ _) as [|x ids] eqn:Eids; [done |]. rewrite <- Eids in *.
    apply eq_true_iff_eq. rewrite Hname, <- Hin. unfold matches_extension. cbn [resolved_ext_ids set_resolved].
    rewrite Eids. cbn [is_nil negb]. by rewrite bool_decide_eq_true. }
  unfold matches_record. rewrite He. unfold resolve_ext_ids_for_drive. by destruct (is_nil (extensions f)).
Qed.

(** The two ways the predicate tests an extension agree: comparing a record's interned
    id with the ids resolved for the drive, and comparing the extension of its name, for
    normalized filter tokens and a drive whose table and ids are those of the names. *)
Theorem ext_filter_paths_agree f drive table rec :
  ext_table_ok (ext_names drive) -> Forall token_ok (extensions f) -> ext_id_ok (ext_names drive) (names drive) rec ->
  lower_agrees (names drive) rec ->
  matches_record to_lowercase lower_char (resolve_ext_ids_for_drive to_lowercase trim f drive) table (names drive) rec =
  matches_record to_lowercase lower_char (set_resolved f []) table (names drive) rec.
Proof using Type. apply resolved_filter_agrees. Qed.

End extensions.

(** The filter [--ext txt]. *)
Definition txt_filter : SearchFilters :=
  mkSearchFilters false false None None None None None None None None 0 0 None None [[116; 120; 116]] [] None None None
    None None None None None None None None None None None None None [] None None.

Lemma ext_filter_paths_agree_witness :
  matches_record id (fun c => [c]) (resolve_ext_ids_for_drive id id txt_filter sample_drive) [] sample_names (sample_record 1 5 5 1 0 13) =
  matches_record id (fun c => [c]) (set_resolved txt_filter []) [] sample_names (sample_record 1 5 5 1 0 13).
Proof.
  apply (ext_filter_paths_agree id (fun c => [c]) id txt_filter sample_drive []).
  - split_and!; [by apply (bool_decide_unpack _) | reflexivity | by vm_compute].
  - constructor; [|constructor]. by split_and!.
  - reflexivity.
  - reflexivity.
Defined.

(** When the extensions of a type exclude every listed extension, the merged filter
    keeps every record instead of none: the intersection is empty, an empty extension
    list is no filter, and the type itself has been dropped. *)
Theorem disjoint_type_filter_keeps_all exts type_exts lower :
  exts <> [] -> (forall ext, ext ∈ exts -> ext ∉ type_exts) ->
  merge_type_filter exts (Some type_exts) lower = ([], None) /\
  forall to_lowercase lower_char f names rec, extensions f = (merge_type_filter exts (Some type_exts) lower).1 ->
    resolved_ext_ids f = [] -> matches_extension to_lowercase lower_char f names rec = true.
Proof.
  intros Hne Hd. assert (E : merge_type_filter exts (Some type_exts) lower = ([], None)).
  { unfold merge_type_filter. destruct exts as [|e exts]; [done |]. cbn [is_nil]. f_equal.
    assert (H : forall l, (forall x, x ∈ l -> x ∉ type_exts) -> List.filter (fun ext => bool_decide (ext ∈ type_exts)) l = []).
    { induction l as [|x l IH]; intros Hl; [done |]. cbn. rewrite bool_decide_eq_false_2 by (apply Hl; left).
      apply IH. intros y Hy. apply Hl. by right. }
    by apply H. }
  split; [exact E |]. intros tl lc f names rec Hf Hr. unfold matches_extension. by rewrite Hr, Hf, E.
Qed.

(** [--ext rs] with a type of [jpg] and [png]. *)
Lemma disjoint_type_filter_keeps_all_witness :
  merge_type_filter [[114; 115]] (Some [[106; 112; 103]; [112; 110; 103]]) [] = ([], None).
Proof.
  apply (disjoint_type_filter_keeps_all [[114; 115]] [[106; 112; 103]; [112; 110; 103]] []).
  - done.
  - intros ext He. each_elem He. by apply (bool_decide_unpack _).
Defined.
