(* ===== verification/CacheCodec.v ===== *)
(** The bytes of a drive's cache file: [crates/uffs-core/src/compact_cache.rs] (the
    serializers, the parser and the assembly), [compact_cache/filters_io.rs] and the
    parked-body reader of [compact_cache/parked.rs].

    A count read from the file is a [u32], so on a 64-bit target no sum or product of
    offsets overflows and they are plain additions here.  Arrays of plain-old-data are
    cast to bytes and back through [Pod]. *)
From stdpp Require Import strings gmap.
From S2P Require Import Prelude CaseFold CsrIndex TrigramIndex Bloom CompactIndex PathLen Filters PathTrie.
Local Open Scope Z_scope.
Local Open Scope rust_scope.

(** A parse error with its message, or a panic. *)
Inductive fault := Fail (msg : string) | Panic.

Definition or_fail {A} (msg : string) (o : option A) : result A fault :=
  match o with Some a => Ok a | None => Err (Fail msg) end.
Definition or_panic {A} (o : option A) : result A fault :=
  match o with Some a => Ok a | None => Err Panic end.

(** * Plain old data *)

(** The layout of a [bytemuck::Pod] type on a little-endian target. *)
Record Pod (A : Type) := mkPod { pod_size : nat; to_bytes : A -> list Z; of_bytes : list Z -> A; pod_ok : A -> Prop }.
Arguments mkPod {A}.
Arguments pod_size {A}.
Arguments to_bytes {A}.
Arguments of_bytes {A}.
Arguments pod_ok {A}.

(** What a layout promises. *)
Class PodLaws {A} (P : Pod A) : Prop := {
  pod_size_pos : (0 < pod_size P)%nat;
  length_to_bytes a : length (to_bytes P a) = pod_size P;
  of_to_bytes a : pod_ok P a -> of_bytes P (to_bytes P a) = a
}.

(** An unsigned field of [n] bytes at byte [k]. *)
Definition field (bs : list Z) (k n : nat) : Z := from_le_bytes (take n (drop k bs)).

Definition uint_pod (n : nat) : Pod Z :=
  mkPod n (to_le_bytes n) (fun bs => field bs 0 n) (fun z => 0 <= z < 256 ^ Z.of_nat n).
Abbreviation u32_pod := (uint_pod 4).
Abbreviation u64_pod := (uint_pod 8).

(** The widths of [CompactRecord]; the last byte is padding. *)
Definition record_ok (r : CompactRecord) : Prop :=
  is_u64 (CsrIndex.size r) /\ is_u64 (allocated r) /\ is_u64 (treesize r) /\ is_u64 (tree_allocated r) /\
  is_i64 (created r) /\ is_i64 (modified r) /\ is_i64 (accessed r) /\ is_u64 (file_ref r) /\
  is_u32 (name_offset r) /\ is_u32 (flags r) /\ is_u32 (parent_idx r) /\ is_u32 (descendants r) /\
  is_u16 (name_len r) /\ is_u16 (extension_id r) /\ is_u16 (path_len r) /\ is_u8 (name_first_byte r).

Definition record_to_bytes (r : CompactRecord) : list Z :=
  to_le_bytes 8 (CsrIndex.size r) ++ to_le_bytes 8 (allocated r) ++ to_le_bytes 8 (treesize r) ++ to_le_bytes 8 (tree_allocated r) ++
  to_le_bytes 8 (created r) ++ to_le_bytes 8 (modified r) ++ to_le_bytes 8 (accessed r) ++ to_le_bytes 8 (file_ref r) ++
  to_le_bytes 4 (name_offset r) ++ to_le_bytes 4 (flags r) ++ to_le_bytes 4 (parent_idx r) ++ to_le_bytes 4 (descendants r) ++
  to_le_bytes 2 (name_len r) ++ to_le_bytes 2 (extension_id r) ++ to_le_bytes 2 (path_len r) ++ to_le_bytes 1 (name_first_byte r) ++ [0].

Definition record_of_bytes (bs : list Z) : CompactRecord :=
  mkCompactRecord (field bs 0 8) (field bs 8 8) (field bs 16 8) (field bs 24 8)
    (i64 (field bs 32 8)) (i64 (field bs 40 8)) (i64 (field bs 48 8)) (field bs 56 8)
    (field bs 64 4) (field bs 68 4) (field bs 72 4) (field bs 76 4)
    (field bs 80 2) (field bs 82 2) (field bs 84 2) (field bs 86 1).

Definition record_pod : Pod CompactRecord := mkPod 88 record_to_bytes record_of_bytes record_ok.

Definition node_pod : Pod TrieNode :=
  mkPod 12
    (fun n => to_le_bytes 4 (tn_parent_idx n) ++ to_le_bytes 4 (tn_name_offset n) ++ to_le_bytes 2 (tn_name_len n) ++ to_le_bytes 2 (tn_padding n))
    (fun bs => mkTrieNode (field bs 0 4) (field bs 4 4) (field bs 8 2) (field bs 10 2))
    (fun n => is_u32 (tn_parent_idx n) /\ is_u32 (tn_name_offset n) /\ is_u16 (tn_name_len n) /\ is_u16 (tn_padding n)).

(** [bytemuck::cast_slice]. *)
Definition cast_slice {A} (P : Pod A) (l : list A) : list Z := concat (map (to_bytes P) l).

Fixpoint from_pod_bytes {A} (P : Pod A) (count : nat) (bs : list Z) : list A :=
  match count with
  | O => []
  | S count => of_bytes P (take (pod_size P) bs) :: from_pod_bytes P count (drop (pod_size P) bs)
  end.

(** The assertion is a panic. *)
Definition aligned_vec_from_bytes {A} (P : Pod A) (bs : list Z) : result (list A) fault :=
  let elem_size := Z.of_nat (pod_size P) in
  if zlen bs mod elem_size =? 0 then Ok (from_pod_bytes P (Z.to_nat (zlen bs / elem_size)) bs) else Err Panic.

Definition read_u32 (data : list Z) (offset : Z) : Z :=
  match get_range data offset (offset + 4) with Some s => from_le_bytes s | None => 0 end.

Definition push_u32 (value : Z) : list Z := to_le_bytes 4 (len_to_u32 value).

(** * The filter sections *)

Definition BLOOM_HEADER_BYTES : Z := 16.

Definition push_bloom_section (b : Bloom) : list Z :=
  to_le_bytes 8 (nbits b) ++ to_le_bytes 4 (k_hashes b) ++ push_u32 (zlen (bits b)) ++ cast_slice u64_pod (bits b).

Definition read_bloom_section (data : list Z) (offset : Z) : result (Bloom * Z) fault :=
  if zlen data <? offset + BLOOM_HEADER_BYTES then Err (Fail "truncated bloom header") else
  try nbits_arr := or_fail "bloom nbits OOB" (get_range data offset (offset + 8)) in
  let nbits := from_le_bytes nbits_arr in
  let k_hashes_raw := read_u32 data (offset + 8) in
  if 255 <? k_hashes_raw then Err (Fail "bloom k_hashes out of range") else
  let words_count := read_u32 data (offset + 12) in
  let words_start := offset + BLOOM_HEADER_BYTES in
  let words_end := words_start + words_count * 8 in
  if zlen data <? words_end then Err (Fail "truncated bloom words") else
  try words_bytes := or_fail "bloom words slice" (get_range data words_start words_end) in
  try words := aligned_vec_from_bytes u64_pod words_bytes in
  try bloom := or_fail "bloom invariants" (Bloom.from_raw_parts nbits k_hashes_raw words) in
  Ok (bloom, words_end).

Definition push_trie_section (trie : PathTrie) : list Z :=
  push_u32 (zlen (pt_nodes trie)) ++ cast_slice node_pod (pt_nodes trie) ++
  push_u32 (zlen (pt_names trie)) ++ pt_names trie ++
  push_u32 (zlen (pt_child_offsets trie)) ++ cast_slice u32_pod (pt_child_offsets trie) ++
  push_u32 (zlen (pt_child_indices trie)) ++ cast_slice u32_pod (pt_child_indices trie).

(** A counted array at the cursor: the count, then the elements. *)
Definition read_counted {A} (P : Pod A) (no_count short no_slice : string) (data : list Z) (cursor : Z) : result (list A * Z) fault :=
  if zlen data <? cursor + 4 then Err (Fail no_count) else
  let count := read_u32 data cursor in
  let cursor := cursor + 4 in
  let stop := cursor + count * Z.of_nat (pod_size P) in
  if zlen data <? stop then Err (Fail short) else
  try values :=
    (if count =? 0 then Ok []
     else try s := or_fail no_slice (get_range data cursor stop) in aligned_vec_from_bytes P s) in
  Ok (values, stop).

Definition read_trie_section (data : list Z) (offset : Z) : result (PathTrie * Z) fault :=
  try nodes_cursor := read_counted node_pod "truncated trie node_count" "truncated trie nodes" "trie nodes slice" data offset in
  let (nodes, cursor) := nodes_cursor in
  if zlen data <? cursor + 4 then Err (Fail "truncated trie names_len") else
  let names_len := read_u32 data cursor in
  let cursor := cursor + 4 in
  let names_end := cursor + names_len in
  if zlen data <? names_end then Err (Fail "truncated trie names") else
  try names := or_fail "trie names slice" (get_range data cursor names_end) in
  let cursor := names_end in
  try offsets_cursor := read_counted u32_pod "truncated trie offsets_count" "truncated trie offsets" "trie offsets slice" data cursor in
  let (offsets, cursor) := offsets_cursor in
  try indices_cursor := read_counted u32_pod "truncated trie indices_count" "truncated trie indices" "trie indices slice" data cursor in
  let (indices, cursor) := indices_cursor in
  try trie := or_fail "trie invariants" (PathTrie.from_raw_parts nodes names offsets indices) in
  Ok (trie, cursor).

(** * The drive and its file *)

(** The columns of CompactIndex and the two that only the cache and the parked tier use. *)
Record CacheDrive := mkCacheDrive {
  cd_index : DriveCompactIndex;
  cd_source_epoch : Z;
  cd_path_trie : option PathTrie
}.

Definition COMPACT_MAGIC : list Z := bytes_of "UFFSCOM" ++ [0].
Definition COMPACT_VERSION : Z := 13.
Definition RECORD_BYTES : Z := 88.

(** One entry of the extension table. *)
Definition push_ext_name (name : list Z) : list Z :=
  let len := len_to_u16 (zlen name) in
  to_le_bytes 2 len ++ default name (get_range name 0 len).

(** The header of a format version. *)
Definition push_header (version : Z) (d : CacheDrive) : list Z :=
  COMPACT_MAGIC ++ to_le_bytes 2 version ++ push_u32 (zlen (records (cd_index d))) ++
  push_u32 (zlen (names (cd_index d))) ++ to_le_bytes 8 (cd_source_epoch d).

Definition push_trigram (ti : TrigramIndex) : list Z :=
  push_u32 (zlen (ti_keys ti)) ++ cast_slice u64_pod (ti_keys ti) ++ cast_slice u32_pod (ti_offsets ti) ++
  push_u32 (zlen (ti_values ti)) ++ cast_slice u32_pod (ti_values ti).

Definition push_ext_names (exts : list (list Z)) : list Z :=
  push_u32 (zlen exts) ++ concat (map push_ext_name exts).

Definition push_frs (frs_to_compact : list Z) : list Z :=
  push_u32 (zlen frs_to_compact) ++ cast_slice u32_pod frs_to_compact.

Section cache.
(** The hasher of the Bloom filter and its size and probe count, which the source takes
    from the false-positive rate; the fold table of the drive's letter; the schedule of
    the parallel trigram build. *)
Context (hash : Z -> list Z -> Z) (bloom_n bloom_k : Z) (fold_table : list Z)
  (schedule : list (Z * Z) -> list (Z * Z)).

Definition bloom_section (d : CacheDrive) : option Bloom := parked_bloom hash (cd_index d) bloom_n bloom_k.
Definition build_path_trie (index : DriveCompactIndex) : PathTrie := PathTrie.build (records index) (names index).
Definition trie_section (d : CacheDrive) : PathTrie := default (build_path_trie (cd_index d)) (cd_path_trie d).

(** The overlay is not written. *)
Definition serialize_compact (d : CacheDrive) : option (list Z) :=
  let index := cd_index d in
  let? bloom := bloom_section d in
  Some (push_header COMPACT_VERSION d ++ cast_slice record_pod (records index) ++ names index ++
    cast_slice u32_pod (ci_offsets (children index)) ++ cast_slice u32_pod (ci_values (children index)) ++
    push_trigram (trigram index) ++ push_ext_names (ext_names index) ++
    push_bloom_section bloom ++ push_trie_section (trie_section d) ++ push_frs (frs_to_compact index)).

(** ** Parsing *)

(** The epoch, the offset of the body and the version. *)
Definition parse_compact_header (data : list Z) : result (Z * Z * Z) fault :=
  if zlen data <? 18 then Err (Fail "compact cache too short") else
  if negb (bool_decide (get_range data 0 8 = Some COMPACT_MAGIC)) then Err (Fail "bad compact magic") else
  let version := match get_range data 8 10 with Some s => from_le_bytes s | None => 0 end in
  if version <? 11 then Err (Fail "stale compact version") else
  if COMPACT_VERSION <? version then Err (Fail "unsupported compact version (future)") else
  if 3 <=? version then
    if zlen data <? 26 then Err (Fail "compact cache truncated (v3 header)") else
    let epoch := match get_range data 18 26 with Some s => from_le_bytes s | None => 0 end in
    Ok (epoch, 26, version)
  else Ok (0, 18, version).

(** The loop of [read_ext_names_table] over the entries. *)
Fixpoint read_ext_entries (count : nat) (data : list Z) (out : list (list Z)) (pos : Z) : list (list Z) * Z :=
  match count with
  | O => (out, pos)
  | S count =>
      match zget data pos, zget data (pos + 1) with
      | Some lo, Some hi =>
          let slen := from_le_bytes [lo; hi] in
          let pos := pos + 2 in
          match get_range data pos (pos + slen) with
          | None => (out, pos)
          | Some slice => read_ext_entries count data (out ++ [if utf8_valid slice then slice else []]) (pos + slen)
          end
      | _, _ => (out, pos)
      end
  end.

Definition read_ext_names_table (data : list Z) (offset : Z) : list (list Z) * Z :=
  read_ext_entries (Z.to_nat (read_u32 data offset)) data [] (offset + 4).

Record ParsedCompactBody := mkParsed {
  p_source_epoch : Z;
  records_bytes : list Z;
  names_bytes : list Z;
  p_children : ChildrenIndex;
  trigram_loaded : option TrigramIndex;
  ext_names_loaded : option (list (list Z));
  bloom_loaded : option Bloom;
  trie_loaded : option PathTrie;
  frs_to_compact_loaded : option (list Z);
  p_fold : list Z
}.

(** The trigram section at [pe]: the index when it has keys, and the end. *)
Definition parse_trigram (data : list Z) (version pe : Z) : result (option TrigramIndex * Z) fault :=
  if zlen data <? pe + 4 then Err (Fail "truncated trigram header") else
  let tkc := read_u32 data pe in
  if 6 <=? version then
    let ks := pe + 4 in
    let ke := pe + 4 + tkc * 8 in
    let oe := pe + 4 + tkc * 8 + (tkc + 1) * 4 in
    if zlen data <? oe + 4 then Err (Fail "truncated trigram CSR") else
    let vc := read_u32 data oe in
    let ve := oe + 4 + vc * 4 in
    if zlen data <? ve then Err (Fail "truncated trigram values") else
    if 0 <? tkc then
      try tk_bytes := or_fail "trigram keys" (get_range data ks ke) in
      try tk := aligned_vec_from_bytes u64_pod tk_bytes in
      try to_bytes := or_fail "trigram offsets" (get_range data ke oe) in
      try to := aligned_vec_from_bytes u32_pod to_bytes in
      try tv_bytes := or_fail "trigram values" (get_range data (oe + 4) ve) in
      try tv := aligned_vec_from_bytes u32_pod tv_bytes in
      Ok (Some (mkTrigramIndex tk to tv), ve)
    else Ok (None, ve)
  else Ok (None, pe + 4).

(** The bloom and trie sections, and the end. *)
Definition parse_filters (data : list Z) (version after_ext : Z) : result (option Bloom * option PathTrie * Z) fault :=
  if 9 <=? version then
    try bloom_end := read_bloom_section data after_ext in
    let (bloom, after_bloom) := bloom_end in
    try trie_end := read_trie_section data after_bloom in
    let (trie, after_trie) := trie_end in
    Ok (Some bloom, Some trie, after_trie)
  else Ok (None, None, after_ext).

Definition parse_frs (data : list Z) (version after_trie : Z) : result (option (list Z)) fault :=
  if 10 <=? version then
    try frs_end := read_counted u32_pod "truncated frs_to_compact len" "truncated frs_to_compact values" "frs_to_compact slice" data after_trie in
    Ok (Some frs_end.1)
  else Ok None.

Definition parse_compact_body (data : list Z) : result ParsedCompactBody fault :=
  try header := parse_compact_header data in
  let '(source_epoch, body_offset, version) := header in
  let rc := read_u32 data 10 in
  let nl := read_u32 data 14 in
  let re := body_offset + rc * RECORD_BYTES in
  let ne := re + nl in
  let cs := if 5 <=? version then ne else ne + nl in
  let ce := cs + (rc + 1) * 4 in
  if zlen data <? ce then Err (Fail "compact cache truncated") else
  try records_bytes := or_fail "truncated records" (get_range data body_offset re) in
  try names_bytes := or_fail "truncated names" (get_range data re ne) in
  try csr_off := or_fail "truncated CSR" (get_range data cs ce) in
  let cp := read_u32 csr_off (rc * 4) in
  let pe := ce + cp * 4 in
  if zlen data <? pe then Err (Fail "truncated CSR postings") else
  try cv := or_fail "CSR OOB" (get_range data ce pe) in
  try offsets := aligned_vec_from_bytes u32_pod csr_off in
  try values := aligned_vec_from_bytes u32_pod cv in
  let children := mkChildrenIndex offsets values in
  try tri_end := parse_trigram data version pe in
  let (trigram_loaded, after_tri) := tri_end in
  let (ext_names_loaded, after_ext) :=
    if (7 <=? version) && (after_tri + 4 <=? zlen data)
    then let (table, stop) := read_ext_names_table data after_tri in (Some table, stop)
    else (None, after_tri) in
  try filters_end := parse_filters data version after_ext in
  let '(bloom_loaded, trie_loaded, after_trie) := filters_end in
  try frs_to_compact_loaded := parse_frs data version after_trie in
  Ok (mkParsed source_epoch records_bytes names_bytes children trigram_loaded ext_names_loaded
        bloom_loaded trie_loaded frs_to_compact_loaded fold_table).

(** ** Assembly *)

(** [nm.rfind('.')] and the slice after it. *)
Definition ext_of_name (nm : list Z) : option (list Z) :=
  let? dot := rfind_dot nm in get_from nm (dot + 1).

(** A table slot still to be filled: the entry of the record's extension. *)
Definition rebuild_ext_step (nms : list Z) (table : list (option (list Z))) (rec : CompactRecord) : list (option (list Z)) :=
  let idx := extension_id rec in
  match zget table idx with
  | Some (Some _) => table
  | slot =>
      match ext_of_name (name_str nms rec) with
      | None => table
      | Some ext_raw =>
          match slot, utf8_decode ext_raw with
          | Some _, Some chars => zset table idx (Some (fold_into fold_table chars))
          | _, _ => table
          end
      end
  end.

Definition rebuild_ext_names (recs : list CompactRecord) (nms : list Z) : list (list Z) :=
  let max_id := max_extension_id recs in
  let table := zset (zrepeat None (max_id + 1)) 0 (Some []) in
  map (default []) (foldl (rebuild_ext_step nms) table recs).

(** The records and the names are materialised by the caller's [store_columns]. *)
Definition assemble_compact_index (parsed : ParsedCompactBody)
    (store_columns : list Z -> list Z -> result (list CompactRecord * list Z) fault) : result CacheDrive fault :=
  try columns := store_columns (records_bytes parsed) (names_bytes parsed) in
  let (recs, nms) := columns in
  let tri := default (TrigramIndex_build (p_fold parsed) nms schedule recs) (trigram_loaded parsed) in
  let exts := default (rebuild_ext_names recs nms) (ext_names_loaded parsed) in
  let ext_index := ExtensionIndex_build recs in
  let compact_index bloom := mkDriveCompactIndex recs nms tri (p_children parsed) ext_index (p_fold parsed) exts bloom
    (default [] (frs_to_compact_loaded parsed)) None in
  try bloom := or_panic match bloom_loaded parsed with
    | Some b => Some b
    | None => build_bloom hash (compact_index None) bloom_n bloom_k
    end in
  let path_trie := default (build_path_trie (compact_index None)) (trie_loaded parsed) in
  Ok (mkCacheDrive (compact_index (Some bloom)) (p_source_epoch parsed) (Some path_trie)).

(** The heap columns. *)
Definition heap_columns (records_bytes names_bytes : list Z) : result (list CompactRecord * list Z) fault :=
  try recs := aligned_vec_from_bytes record_pod records_bytes in Ok (recs, names_bytes).

Definition deserialize_compact (data : list Z) : result CacheDrive fault :=
  try parsed := parse_compact_body data in assemble_compact_index parsed heap_columns.

(** ** The parked body *)

Record ParkedBody := mkParkedBody { pb_source_epoch : Z; pb_bloom : Bloom; pb_path_trie : PathTrie; pb_fold : list Z }.

Definition to_parked_body (d : CacheDrive) : option ParkedBody :=
  let? bloom := bloom_section d in
  Some (mkParkedBody (cd_source_epoch d) bloom (trie_section d) (fold (cd_index d))).

Fixpoint skip_ext_entries (count : nat) (data : list Z) (pos : Z) : result Z fault :=
  match count with
  | O => Ok pos
  | S count =>
      try lo := or_fail "truncated ext_names entry header" (zget data pos) in
      try hi := or_fail "truncated ext_names entry header" (zget data (pos + 1)) in
      let slen := from_le_bytes [lo; hi] in
      let pos := pos + 2 in
      let entry_end := pos + slen in
      if zlen data <? entry_end then Err (Fail "truncated ext_names entry body") else
      skip_ext_entries count data entry_end
  end.

Definition skip_ext_names_table (data : list Z) (offset : Z) : result Z fault :=
  if zlen data <? offset + 4 then Err (Fail "truncated ext_names header") else
  skip_ext_entries (Z.to_nat (read_u32 data offset)) data (offset + 4).

Definition find_v9_filters_offset (data : list Z) : result (Z * Z) fault :=
  try header := parse_compact_header data in
  let '(source_epoch, body_offset, version) := header in
  if version <? 9 then Err (Fail "parked-body load requires cache format v9+") else
  let record_count := read_u32 data 10 in
  let names_len := read_u32 data 14 in
  let records_end := body_offset + record_count * RECORD_BYTES in
  let names_end := records_end + names_len in
  let csr_off_start := names_end in
  let csr_off_end := csr_off_start + (record_count + 1) * 4 in
  if zlen data <? csr_off_end then Err (Fail "compact cache truncated (CSR header)") else
  let postings_count := read_u32 data (csr_off_end - 4) in
  let postings_end := csr_off_end + postings_count * 4 in
  if zlen data <? postings_end + 4 then Err (Fail "truncated trigram header") else
  let trigram_key_count := read_u32 data postings_end in
  let keys_end := postings_end + 4 + trigram_key_count * 8 in
  let offsets_end := keys_end + (trigram_key_count + 1) * 4 in
  if zlen data <? offsets_end + 4 then Err (Fail "truncated trigram CSR") else
  let values_count := read_u32 data offsets_end in
  let values_end := offsets_end + 4 + values_count * 4 in
  if zlen data <? values_end then Err (Fail "truncated trigram values") else
  try after_ext := skip_ext_names_table data values_end in
  Ok (after_ext, source_epoch).

Definition deserialize_parked_body (data : list Z) : result ParkedBody fault :=
  try offset_epoch := find_v9_filters_offset data in
  let (filters_offset, source_epoch) := offset_epoch in
  try bloom_end := read_bloom_section data filters_offset in
  let (bloom, after_bloom) := bloom_end in
  try trie_end := read_trie_section data after_bloom in
  Ok (mkParkedBody source_epoch bloom trie_end.1 fold_table).

End cache.

(** * Layouts *)

Lemma field_le n z bs k : take n (drop k bs) = to_le_bytes n z -> 0 <= z < 256 ^ Z.of_nat n -> field bs k n = z.
Proof. intros E Hz. unfold field. by rewrite E, from_to_le_bytes_small. Qed.

Lemma field_i64 z bs k : take 8 (drop k bs) = to_le_bytes 8 z -> is_i64 z -> i64 (field bs k 8) = z.
Proof.
  intros E Hz. unfold field. rewrite E, from_to_le_bytes. change (256 ^ Z.of_nat 8) with (2 ^ 64).
  change (z mod 2 ^ 64) with (u64 z). by rewrite i64_u64, i64_small.
Qed.

#[export] Instance uint_pod_laws n : (0 < n)%nat -> PodLaws (uint_pod n).
Proof.
  intros Hn. split; [done | apply length_to_le_bytes |]. intros z Hz. cbn. apply field_le; [|done].
  rewrite drop_0. rewrite <- (length_to_le_bytes n z) at 1. apply firstn_all.
Qed.
#[export] Instance u32_pod_laws : PodLaws u32_pod.
Proof. apply uint_pod_laws. lia. Qed.
#[export] Instance u64_pod_laws : PodLaws u64_pod.
Proof. apply uint_pod_laws. lia. Qed.

#[export] Instance record_pod_laws : PodLaws record_pod.
Proof.
  split; [cbn; lia | done |]. intros r H. unfold pod_ok, record_pod, record_ok in H.
  cbn [record_pod of_bytes to_bytes]. unfold record_of_bytes. destruct r; cbn in H. destruct_and!.
  f_equal; first [apply field_i64; [reflexivity | done] | apply field_le; [reflexivity | rewrite pow256_pow2; cbn in *; lia]].
Qed.

#[export] Instance node_pod_laws : PodLaws node_pod.
Proof.
  split; [cbn; lia | done |]. intros n H. unfold pod_ok, node_pod in H. cbn [node_pod of_bytes to_bytes].
  destruct n; cbn in H. destruct_and!.
  f_equal; apply field_le; (reflexivity || (rewrite pow256_pow2; cbn in *; lia)).
Qed.

Section pod.
Context {A : Type} (P : Pod A) `{!PodLaws P}.

Lemma zlen_cast_slice l : zlen (cast_slice P l) = zlen l * Z.of_nat (pod_size P).
Proof using PodLaws0.
  induction l as [|x l IH]; [done |]. unfold cast_slice in *. cbn [map concat]. rewrite zlen_app, zlen_cons, IH.
  unfold zlen at 1. rewrite length_to_bytes. lia.
Qed.

Lemma from_pod_cast l rest : Forall (pod_ok P) l -> from_pod_bytes P (length l) (cast_slice P l ++ rest) = l.
Proof using PodLaws0.
  induction 1 as [|x l Hx _ IH]; [done |]. unfold cast_slice in *. cbn [map concat length from_pod_bytes].
  rewrite <- app_assoc, take_app_length', drop_app_length', IH by (by rewrite length_to_bytes).
  by rewrite of_to_bytes.
Qed.

(** The round trip of a cast. *)
Lemma aligned_cast l : Forall (pod_ok P) l -> aligned_vec_from_bytes P (cast_slice P l) = Ok l.
Proof using PodLaws0.
  intros H. unfold aligned_vec_from_bytes. rewrite zlen_cast_slice. pose proof (pod_size_pos (P := P)).
  rewrite Z.mod_mul, Z.div_mul by lia. cbn. unfold zlen. rewrite Nat2Z.id.
  rewrite <- (app_nil_r (cast_slice P l)). by rewrite from_pod_cast.
Qed.

(** A whole number of elements does not panic. *)
Lemma aligned_total bs count : zlen bs = count * Z.of_nat (pod_size P) -> exists l, aligned_vec_from_bytes P bs = Ok l.
Proof using PodLaws0.
  intros H. unfold aligned_vec_from_bytes. pose proof (pod_size_pos (P := P)). rewrite H, Z.mod_mul by lia. cbn. eauto.
Qed.

End pod.

(** * Sections of a file *)

(** [has data off s]: the bytes [s] stand at [off]. *)
Definition has (data : list Z) (off : Z) (s : list Z) : Prop := get_range data off (off + zlen s) = Some s.

Lemma has_app data off a b : has data off (a ++ b) -> has data off a /\ has data (off + zlen a) b.
Proof.
  unfold has. rewrite zlen_app. intros H. pose proof (zlen_nonneg a) as Ha. pose proof (zlen_nonneg b) as Hb.
  destruct (get_range_split _ _ _ (off + zlen a) _ H) as (s1 & s2 & E & H1 & H2); [lia |].
  apply get_range_len in H1 as L1. assert (Hl : length s1 = length a) by (unfold zlen in *; lia).
  symmetry in E. apply app_inj_1 in E as [-> ->]; [|done]. split; [done |]. by rewrite <- Z.add_assoc.
Qed.

Lemma has_bound data off s : has data off s -> 0 <= off /\ off + zlen s <= zlen data.
Proof. intros (? & ? & _)%get_range_Some. lia. Qed.

Lemma has_all data : has data 0 data.
Proof. unfold has. rewrite <- (app_nil_r data) at 1. by apply (get_range_mid [] data []). Qed.

Lemma has_uint n data off z : has data off (to_le_bytes n z) -> 0 <= z < 256 ^ Z.of_nat n ->
  get_range data off (off + Z.of_nat n) = Some (to_le_bytes n z) /\ from_le_bytes (to_le_bytes n z) = z.
Proof. unfold has. rewrite zlen_to_le_bytes. intros H Hz. split; [done |]. by apply from_to_le_bytes_small. Qed.

Lemma has_read_u32 data off z : has data off (to_le_bytes 4 z) -> is_u32 z -> read_u32 data off = z.
Proof.
  intros H Hz. unfold read_u32. unfold has in H. rewrite zlen_to_le_bytes in H. change (Z.of_nat 4) with 4 in H.
  rewrite H. by apply from_to_le_bytes_small.
Qed.

Lemma has_push_u32 data off v : has data off (push_u32 v) -> is_u32 v -> read_u32 data off = v.
Proof.
  unfold push_u32, len_to_u32. intros H Hv. replace (v <=? U32_MAX) with true in H by (unfold U32_MAX in *; lia).
  by apply has_read_u32.
Qed.

Lemma zlen_push_u32 v : zlen (push_u32 v) = 4.
Proof. apply zlen_to_le_bytes. Qed.
#[export] Hint Rewrite zlen_push_u32 : zlen.

(** ** Reading a section back *)

Lemma read_counted_has {A} (P : Pod A) `{!PodLaws P} m1 m2 m3 data off l :
  has data off (push_u32 (zlen l) ++ cast_slice P l) -> Forall (pod_ok P) l -> zlen l < 2 ^ 32 ->
  read_counted P m1 m2 m3 data off = Ok (l, off + 4 + zlen (cast_slice P l)).
Proof.
  intros [H1 H2]%has_app Hl Hn. pose proof (has_bound _ _ _ H1) as B1. pose proof (has_bound _ _ _ H2) as B2.
  pose proof (zlen_nonneg l). rewrite zlen_push_u32 in B1, B2, H2. unfold read_counted.
  rewrite (has_push_u32 _ _ _ H1) by (unfold zlen in *; lia). replace (zlen data <? off + 4) with false by lia.
  rewrite (zlen_cast_slice P) in *. replace (zlen data <? _) with false by lia.
  destruct (Z.eqb_spec (zlen l) 0) as [E | E].
  - by apply zlen_0 in E as ->.
  - unfold has in H2. rewrite (zlen_cast_slice P) in H2. rewrite H2. cbn [or_fail]. by rewrite (aligned_cast P).
Qed.

(** What the widths of the file can hold of a filter, and that the reader accepts it. *)
Record bloom_stored (b : Bloom) : Prop := {
  bs_nbits : is_u64 (nbits b);
  bs_k : is_u8 (k_hashes b);
  bs_words : Forall (pod_ok u64_pod) (bits b);
  bs_count : zlen (bits b) < 2 ^ 32;
  bs_parts : Bloom.from_raw_parts (nbits b) (k_hashes b) (bits b) = Some b
}.

Lemma read_bloom_has data off b :
  has data off (push_bloom_section b) -> bloom_stored b ->
  read_bloom_section data off = Ok (b, off + zlen (push_bloom_section b)).
Proof.
  intros H [Hn Hk Hw Hc Hp]. pose proof (has_bound _ _ _ H) as B. unfold push_bloom_section in H, B |- *.
  apply has_app in H as [H1 [H2 [H3 H4]%has_app]%has_app]. rewrite !zlen_app, !zlen_to_le_bytes, zlen_push_u32, (zlen_cast_slice u64_pod) in *.
  change (Z.of_nat 8) with 8 in *. change (Z.of_nat 4) with 4 in *. pose proof (zlen_nonneg (bits b)).
  unfold read_bloom_section, BLOOM_HEADER_BYTES. replace (zlen data <? off + 16) with false by lia.
  unfold has in H1. rewrite zlen_to_le_bytes in H1. change (Z.of_nat 8) with 8 in H1. rewrite H1. cbn [or_fail].
  rewrite from_to_le_bytes_small by (cbn; lia). rewrite (has_read_u32 _ _ _ H2) by lia.
  replace (off + 8 + 4) with (off + 12) in H3, H4 by lia. rewrite (has_push_u32 _ _ _ H3) by (split; lia).
  replace (255 <? k_hashes b) with false by lia. replace (zlen data <? _) with false by (cbn in *; lia).
  unfold has in H4. rewrite (zlen_cast_slice u64_pod) in H4. replace (off + 12 + 4) with (off + 16) in H4 by lia.
  cbn [pod_size uint_pod] in H4 |- *. change (Z.of_nat 8) with 8 in *. rewrite H4. cbn [or_fail]. rewrite (aligned_cast u64_pod) by exact Hw. rewrite Hp. cbn [or_fail].
  do 2 f_equal. lia.
Qed.

Record trie_stored (trie : PathTrie) : Prop := {
  ts_nodes : Forall (pod_ok node_pod) (pt_nodes trie);
  ts_offsets : Forall (pod_ok u32_pod) (pt_child_offsets trie);
  ts_indices : Forall (pod_ok u32_pod) (pt_child_indices trie);
  ts_lengths : zlen (pt_nodes trie) < 2 ^ 32 /\ zlen (pt_names trie) < 2 ^ 32 /\
    zlen (pt_child_offsets trie) < 2 ^ 32 /\ zlen (pt_child_indices trie) < 2 ^ 32;
  ts_parts : PathTrie.from_raw_parts (pt_nodes trie) (pt_names trie) (pt_child_offsets trie) (pt_child_indices trie) = Some trie
}.

Lemma read_trie_has data off trie :
  has data off (push_trie_section trie) -> trie_stored trie ->
  read_trie_section data off = Ok (trie, off + zlen (push_trie_section trie)).
Proof.
  intros H [Hn Ho Hi (Ln & Lm & Lo & Li) Hp]. unfold push_trie_section in H |- *. rewrite app_assoc in H.
  apply has_app in H as [H1 [H2 [H3 H]%has_app]%has_app]. rewrite app_assoc in H. apply has_app in H as [H4 H5].
  unfold read_trie_section. rewrite (read_counted_has _ _ _ _ _ _ _ H1) by done.
  pose proof (zlen_nonneg (pt_names trie)). pose proof (has_bound _ _ _ H3) as B3.
  rewrite !zlen_app, !zlen_push_u32 in *.
  replace (off + 4 + zlen (cast_slice node_pod (pt_nodes trie))) with (off + (4 + zlen (cast_slice node_pod (pt_nodes trie)))) by lia.
  replace (zlen data <? _) with false by lia. rewrite (has_push_u32 _ _ _ H2) by lia.
  replace (zlen data <? _) with false by lia. unfold has in H3. rewrite H3. cbn [or_fail].
  rewrite (read_counted_has _ _ _ _ _ _ _ H4), (read_counted_has _ _ _ _ data _ (pt_child_indices trie)); [| | done | done | done | done].
  - rewrite Hp. cbn [or_fail]. do 2 f_equal. lia.
  - by replace (_ + 4 + zlen (cast_slice u32_pod (pt_child_offsets trie)))
      with (off + (4 + zlen (cast_slice node_pod (pt_nodes trie))) + 4 + zlen (pt_names trie) + (4 + zlen (cast_slice u32_pod (pt_child_offsets trie)))) by lia.
Qed.

(** ** The extension table *)

Definition ext_ok (e : list Z) : Prop := utf8_valid e = true /\ zlen e <= U16_MAX.

Lemma push_ext_name_eq e : zlen e <= U16_MAX -> push_ext_name e = to_le_bytes 2 (zlen e) ++ e.
Proof.
  intros H. unfold push_ext_name, len_to_u16. replace (zlen e <=? U16_MAX) with true by lia.
  replace (get_range e 0 (zlen e)) with (Some e); [done |]. symmetry. apply has_all.
Qed.

(** The two bytes of a length. *)
Lemma has_le2 data pos z : has data pos (to_le_bytes 2 z) -> is_u16 z ->
  exists lo hi, zget data pos = Some lo /\ zget data (pos + 1) = Some hi /\ from_le_bytes [lo; hi] = z.
Proof.
  intros H Hz. exists (z mod 256), (z / 256 mod 256). unfold has in H. rewrite zlen_to_le_bytes in H.
  pose proof (zget_get_range data pos (pos + 2) _ 0 H ltac:(lia)) as H0.
  pose proof (zget_get_range data pos (pos + 2) _ 1 H ltac:(lia)) as H1.
  rewrite Z.add_0_r in H0. split; [by rewrite <- H0 |]. split; [by rewrite <- H1 |].
  change [z mod 256; z / 256 mod 256] with (to_le_bytes 2 z). apply from_to_le_bytes_small. cbn. lia.
Qed.

(** One entry at the cursor. *)
Lemma ext_entry_has data pos e : has data pos (push_ext_name e) -> ext_ok e ->
  exists lo hi, zget data pos = Some lo /\ zget data (pos + 1) = Some hi /\ from_le_bytes [lo; hi] = zlen e /\
    get_range data (pos + 2) (pos + 2 + zlen e) = Some e /\ zlen (push_ext_name e) = 2 + zlen e /\ pos + 2 + zlen e <= zlen data.
Proof.
  intros H [Hv Hl]. pose proof (has_bound _ _ _ H) as B. rewrite push_ext_name_eq in * by done. rewrite zlen_app, zlen_to_le_bytes in *.
  apply has_app in H as [H1 H2]. unfold U16_MAX in Hl. pose proof (zlen_nonneg e).
  destruct (has_le2 _ _ _ H1 ltac:(lia)) as (lo & hi & E1 & E2 & E3). exists lo, hi.
  rewrite zlen_to_le_bytes in H2. split_and!; [done | done | done | done | done | lia].
Qed.

Lemma read_ext_entries_has data pos exts out :
  has data pos (concat (map push_ext_name exts)) -> Forall ext_ok exts ->
  read_ext_entries (length exts) data out pos = (out ++ exts, pos + zlen (concat (map push_ext_name exts))).
Proof.
  intros H He. revert pos out H. induction He as [|e exts He _ IH]; intros pos out H.
  { cbn. rewrite app_nil_r. f_equal. unfold zlen. cbn. lia. }
  cbn [map concat] in H |- *. apply has_app in H as [H1 H2]. destruct (ext_entry_has _ _ _ H1 He) as (lo & hi & E1 & E2 & E3 & E4 & E5 & _).
  cbn [length read_ext_entries]. rewrite E1, E2, E3, E4, (proj1 He). rewrite E5 in H2. rewrite Z.add_assoc in H2. rewrite IH by done.
  rewrite <- app_assoc, zlen_app, E5. cbn. f_equal. lia.
Qed.

Lemma skip_ext_entries_has data pos exts :
  has data pos (concat (map push_ext_name exts)) -> Forall ext_ok exts ->
  skip_ext_entries (length exts) data pos = Ok (pos + zlen (concat (map push_ext_name exts))).
Proof.
  intros H He. revert pos H. induction He as [|e exts He _ IH]; intros pos H.
  { cbn. f_equal. unfold zlen. cbn. lia. }
  cbn [map concat] in H |- *. apply has_app in H as [H1 H2]. destruct (ext_entry_has _ _ _ H1 He) as (lo & hi & E1 & E2 & E3 & E4 & E5 & B).
  cbn [length skip_ext_entries]. rewrite E1, E2. cbn [or_fail]. rewrite E3. replace (zlen data <? _) with false by lia.
  rewrite E5, Z.add_assoc in H2. rewrite IH by done. rewrite zlen_app, E5. f_equal. lia.
Qed.

Section ext_table.
Context (data : list Z) (off : Z) (exts : list (list Z)).
Context (Hhas : has data off (push_ext_names exts)) (Hexts : Forall ext_ok exts) (Hcount : zlen exts < 2 ^ 32).

Lemma ext_count : read_u32 data off = zlen exts /\ off + 4 <= zlen data /\ has data (off + 4) (concat (map push_ext_name exts)).
Proof using Hhas Hcount.
  apply has_app in Hhas as [H1 H2]. rewrite zlen_push_u32 in H2. pose proof (has_bound _ _ _ H1) as B. rewrite zlen_push_u32 in B.
  pose proof (zlen_nonneg exts). split; [by apply has_push_u32 |]. split; [lia | done].
Qed.

Lemma read_ext_has : read_ext_names_table data off = (exts, off + zlen (push_ext_names exts)).
Proof using Hhas Hexts Hcount.
  destruct ext_count as (E & _ & H). unfold read_ext_names_table. rewrite E, zlen_to_nat, read_ext_entries_has by done.
  unfold push_ext_names. rewrite zlen_app, zlen_push_u32. cbn. f_equal. lia.
Qed.

Lemma skip_ext_has : skip_ext_names_table data off = Ok (off + zlen (push_ext_names exts)).
Proof using Hhas Hexts Hcount.
  destruct ext_count as (E & B & H). unfold skip_ext_names_table. replace (zlen data <? off + 4) with false by lia.
  rewrite E, zlen_to_nat, skip_ext_entries_has by done. unfold push_ext_names. rewrite zlen_app, zlen_push_u32. f_equal. lia.
Qed.

End ext_table.

(** ** The trigram section *)

Record trigram_stored (ti : TrigramIndex) : Prop := {
  tg_keys : Forall (pod_ok u64_pod) (ti_keys ti);
  tg_offsets : Forall (pod_ok u32_pod) (ti_offsets ti);
  tg_values : Forall (pod_ok u32_pod) (ti_values ti);
  tg_csr : zlen (ti_offsets ti) = zlen (ti_keys ti) + 1;
  tg_lengths : zlen (ti_keys ti) < 2 ^ 32 /\ zlen (ti_values ti) < 2 ^ 32
}.

(** An index without keys is not adopted. *)
Definition adopted (ti : TrigramIndex) : option TrigramIndex := if zlen (ti_keys ti) =? 0 then None else Some ti.

(** Where the parts of the section stand. *)
Lemma trigram_parts data pe ti :
  has data pe (push_trigram ti) -> trigram_stored ti ->
  let oe := pe + 4 + zlen (ti_keys ti) * 8 + (zlen (ti_keys ti) + 1) * 4 in
  read_u32 data pe = zlen (ti_keys ti) /\ read_u32 data oe = zlen (ti_values ti) /\
  get_range data (pe + 4) (pe + 4 + zlen (ti_keys ti) * 8) = Some (cast_slice u64_pod (ti_keys ti)) /\
  get_range data (pe + 4 + zlen (ti_keys ti) * 8) oe = Some (cast_slice u32_pod (ti_offsets ti)) /\
  get_range data (oe + 4) (oe + 4 + zlen (ti_values ti) * 4) = Some (cast_slice u32_pod (ti_values ti)) /\
  pe + zlen (push_trigram ti) = oe + 4 + zlen (ti_values ti) * 4 /\ pe + zlen (push_trigram ti) <= zlen data.
Proof.
  intros H [Hk Ho Hv Hc [Lk Lv]] oe. pose proof (has_bound _ _ _ H) as [_ B]. unfold push_trigram in H, B |- *.
  apply has_app in H as [H1 [H2 [H3 [H4 H5]%has_app]%has_app]%has_app].
  rewrite !zlen_app, !zlen_push_u32, (zlen_cast_slice u64_pod), !(zlen_cast_slice u32_pod), Hc in *.
  cbn [pod_size uint_pod] in *. change (Z.of_nat 8) with 8 in *. change (Z.of_nat 4) with 4 in *.
  pose proof (zlen_nonneg (ti_keys ti)). pose proof (zlen_nonneg (ti_values ti)). unfold has in H2, H3, H5.
  rewrite (zlen_cast_slice u64_pod) in H2. rewrite (zlen_cast_slice u32_pod) in H3, H5. rewrite Hc in H3.
  cbn [pod_size uint_pod] in *. change (Z.of_nat 8) with 8 in *. change (Z.of_nat 4) with 4 in *. split_and!.
  - by apply has_push_u32.
  - by apply (has_push_u32 _ _ _ H4).
  - done.
  - done.
  - done.
  - lia.
  - lia.
Qed.

Lemma parse_trigram_has data version pe ti :
  has data pe (push_trigram ti) -> trigram_stored ti -> 6 <= version ->
  parse_trigram data version pe = Ok (adopted ti, pe + zlen (push_trigram ti)).
Proof.
  intros H Hs Hv. destruct (trigram_parts _ _ _ H Hs) as (E1 & E2 & E3 & E4 & E5 & E6 & B). destruct Hs as [Hk Ho Hvs Hc Hl].
  pose proof (zlen_nonneg (ti_keys ti)). pose proof (zlen_nonneg (ti_values ti)).
  unfold parse_trigram. rewrite E1. replace (zlen data <? pe + 4) with false by lia. replace (6 <=? version) with true by lia.
  rewrite E2. replace (zlen data <? _) with false by lia. replace (zlen data <? _) with false by lia. unfold adopted.
  destruct (Z.eqb_spec (zlen (ti_keys ti)) 0) as [E | E].
  - replace (0 <? zlen (ti_keys ti)) with false by lia. by rewrite E6.
  - replace (0 <? zlen (ti_keys ti)) with true by lia. rewrite E3, E4, E5. cbn [or_fail].
    rewrite (aligned_cast u64_pod), !(aligned_cast u32_pod) by done. rewrite E6. by destruct ti.
Qed.

(** * The round trip *)

Lemma parse_header_has data version d :
  has data 0 (push_header version d) -> 11 <= version <= 13 -> is_u64 (cd_source_epoch d) ->
  parse_compact_header data = Ok (cd_source_epoch d, 26, version) /\ 26 <= zlen data.
Proof.
  intros H Hv He. pose proof (has_bound _ _ _ H) as [_ B]. unfold push_header in H, B.
  apply has_app in H as [H1 [H2 [H3 [H4 H5]%has_app]%has_app]%has_app].
  rewrite !zlen_app, !zlen_push_u32, !zlen_to_le_bytes in *. change (zlen COMPACT_MAGIC) with 8 in *.
  change (Z.of_nat 8) with 8 in *. change (Z.of_nat 2) with 2 in *. split; [|lia].
  unfold parse_compact_header. replace (zlen data <? 18) with false by lia.
  unfold has in H1. change (0 + zlen COMPACT_MAGIC) with 8 in H1. rewrite H1, bool_decide_eq_true_2 by done. cbn [negb].
  unfold has in H2, H5. rewrite zlen_to_le_bytes in H2, H5.
  change (get_range data 8 10 = Some (to_le_bytes 2 version)) in H2. rewrite H2.
  rewrite from_to_le_bytes_small by (cbn; lia). unfold COMPACT_VERSION. replace (version <? 11) with false by lia.
  replace (13 <? version) with false by lia. replace (3 <=? version) with true by lia. replace (zlen data <? 26) with false by lia.
  change (get_range data 18 26 = Some (to_le_bytes 8 (cd_source_epoch d))) in H5. rewrite H5, from_to_le_bytes_small; [done |].
  cbn. lia.
Qed.

(** What a drive must satisfy for its file to hold it: values within their widths, index
    arrays of the lengths the reader derives. *)
Record drive_stored (d : CacheDrive) (b : Bloom) : Prop := {
  st_records : Forall record_ok (records (cd_index d));
  st_lengths : zlen (records (cd_index d)) < 2 ^ 32 - 1 /\ zlen (names (cd_index d)) < 2 ^ 32;
  st_epoch : is_u64 (cd_source_epoch d);
  st_offsets : Forall (pod_ok u32_pod) (ci_offsets (children (cd_index d)));
  st_values : Forall (pod_ok u32_pod) (ci_values (children (cd_index d)));
  st_csr : zlen (ci_offsets (children (cd_index d))) = zlen (records (cd_index d)) + 1;
  st_last : zget (ci_offsets (children (cd_index d))) (zlen (records (cd_index d))) = Some (zlen (ci_values (children (cd_index d))));
  st_trigram : trigram_stored (trigram (cd_index d));
  st_exts : Forall ext_ok (ext_names (cd_index d)) /\ zlen (ext_names (cd_index d)) < 2 ^ 32;
  st_bloom : bloom_stored b;
  st_trie : trie_stored (trie_section d);
  st_frs : Forall (pod_ok u32_pod) (frs_to_compact (cd_index d)) /\ zlen (frs_to_compact (cd_index d)) < 2 ^ 32
}.

(** The bytes of a drive in a format version, with the filter they hold. *)
Definition file_of (version : Z) (d : CacheDrive) (b : Bloom) : list Z :=
  let index := cd_index d in
  push_header version d ++ cast_slice record_pod (records index) ++ names index ++
  cast_slice u32_pod (ci_offsets (children index)) ++ cast_slice u32_pod (ci_values (children index)) ++
  push_trigram (trigram index) ++ push_ext_names (ext_names index) ++
  push_bloom_section b ++ push_trie_section (trie_section d) ++ push_frs (frs_to_compact index).

(** What the parser finds in it. *)
Definition parsed_of (table : list Z) (d : CacheDrive) (b : Bloom) : ParsedCompactBody :=
  let index := cd_index d in
  mkParsed (cd_source_epoch d) (cast_slice record_pod (records index)) (names index) (children index)
    (adopted (trigram index)) (Some (ext_names index)) (Some b) (Some (trie_section d)) (Some (frs_to_compact index)) table.

(** The element at a position of a cast array. *)
Lemma read_u32_cast l k v : Forall (pod_ok u32_pod) l -> zget l k = Some v -> read_u32 (cast_slice u32_pod l) (k * 4) = v.
Proof.
  intros Hl Hk. pose proof Hk as [Hb _]%zget_Some.
  assert (Hv : pod_ok u32_pod v) by (rewrite Forall_forall in Hl; by apply Hl, (zget_elem _ k)).
  apply zget_Some in Hk as [_ Hk]. apply list_elem_of_split_length in Hk as (l1 & l2 & -> & E).
  apply has_read_u32; [|cbn in Hv; lia]. unfold cast_slice, has. rewrite map_app, concat_app. cbn [map concat to_bytes uint_pod].
  apply get_range_mid; [|done]. change (concat (map (to_le_bytes 4) l1)) with (cast_slice u32_pod l1).
  rewrite (zlen_cast_slice u32_pod). cbn [pod_size uint_pod]. unfold zlen. lia.
Qed.

(** A slice of a slice. *)
Lemma get_range_sub {A} (l s : list A) a c i j :
  get_range l a c = Some s -> 0 <= i <= j -> j <= c - a -> get_range s i j = get_range l (a + i) (a + j).
Proof.
  intros H Hi Hj. destruct (get_range_split _ _ _ (a + i) _ H) as (s1 & s2 & -> & H1 & H2); [lia |].
  destruct (get_range_split _ _ _ (a + j) _ H2) as (t & u & -> & H3 & H4); [lia |]. rewrite H3.
  apply get_range_len in H1, H3. apply get_range_mid; lia.
Qed.

Lemma read_u32_sub data s a c k :
  get_range data a c = Some s -> 0 <= k -> k + 4 <= c - a -> read_u32 s k = read_u32 data (a + k).
Proof.
  intros H Hk Hc. unfold read_u32. rewrite (get_range_sub _ _ _ _ k (k + 4) H) by lia. by rewrite Z.add_assoc.
Qed.

Section roundtrip.
Context (version : Z) (Hversion : 11 <= version <= 13) (table : list Z) (d : CacheDrive) (b : Bloom) (Hst : drive_stored d b).
Abbreviation data := (file_of version d b).
Abbreviation rc := (zlen (records (cd_index d))).
Abbreviation nl := (zlen (names (cd_index d))).
Abbreviation cp := (zlen (ci_values (children (cd_index d)))).

(** The ends of the sections. *)
Definition names_stop : Z := 26 + rc * 88 + nl.
Definition postings_stop : Z := names_stop + (rc + 1) * 4 + cp * 4.
Definition trigram_stop : Z := postings_stop + zlen (push_trigram (trigram (cd_index d))).
Definition ext_stop : Z := trigram_stop + zlen (push_ext_names (ext_names (cd_index d))).
Definition bloom_stop : Z := ext_stop + zlen (push_bloom_section b).
Definition trie_stop : Z := bloom_stop + zlen (push_trie_section (trie_section d)).

Lemma file_sections :
  has data 0 (push_header version d) /\ read_u32 data 10 = rc /\ read_u32 data 14 = nl /\
  get_range data 26 (26 + rc * 88) = Some (cast_slice record_pod (records (cd_index d))) /\
  get_range data (26 + rc * 88) names_stop = Some (names (cd_index d)) /\
  get_range data names_stop (names_stop + (rc + 1) * 4) = Some (cast_slice u32_pod (ci_offsets (children (cd_index d)))) /\
  get_range data (names_stop + (rc + 1) * 4) postings_stop = Some (cast_slice u32_pod (ci_values (children (cd_index d)))) /\
  has data postings_stop (push_trigram (trigram (cd_index d))) /\
  has data trigram_stop (push_ext_names (ext_names (cd_index d))) /\
  has data ext_stop (push_bloom_section b) /\
  has data bloom_stop (push_trie_section (trie_section d)) /\
  has data trie_stop (push_frs (frs_to_compact (cd_index d))).
Proof using Hst.
  pose proof (has_all data) as H. unfold file_of at 2 in H. cbv zeta in H.
  apply has_app in H as [Hh [H1 [H2 [H3 [H4 [H5 [H6 [H7 [H8 H9]%has_app]%has_app]%has_app]%has_app]%has_app]%has_app]%has_app]%has_app].
  assert (Eh : zlen (push_header version d) = 26) by (unfold push_header; rewrite !zlen_app, !zlen_push_u32, !zlen_to_le_bytes; done).
  rewrite Eh in *. rewrite !(zlen_cast_slice record_pod), !(zlen_cast_slice u32_pod) in *.
  cbn [pod_size uint_pod record_pod] in *. change (Z.of_nat 88) with 88 in *. change (Z.of_nat 4) with 4 in *.
  rewrite (st_csr _ _ Hst) in *. rewrite !Z.add_0_l in *. fold names_stop postings_stop trigram_stop ext_stop bloom_stop trie_stop in *.
  destruct (st_lengths _ _ Hst). pose proof (zlen_nonneg (records (cd_index d))). pose proof (zlen_nonneg (names (cd_index d))).
  assert (Hc : has data 10 (push_u32 rc) /\ has data 14 (push_u32 nl)).
  { pose proof Hh as [_ [_ [Hr [Hn _]%has_app]%has_app]%has_app]%has_app. done. }
  destruct Hc as [Hr Hn]. unfold has in H1, H2, H3, H4.
  rewrite (zlen_cast_slice record_pod) in H1. rewrite (zlen_cast_slice u32_pod) in H3, H4. rewrite (st_csr _ _ Hst) in H3.
  cbn [pod_size uint_pod record_pod] in *. change (Z.of_nat 88) with 88 in *. change (Z.of_nat 4) with 4 in *.
  split_and!; try done; [apply (has_push_u32 _ _ _ Hr); lia | by apply (has_push_u32 _ _ _ Hn)].
Qed.

Lemma read_frs_has : parse_frs data version trie_stop = Ok (Some (frs_to_compact (cd_index d))).
Proof using Hst Hversion.
  destruct file_sections as (_ & _ & _ & _ & _ & _ & _ & _ & _ & _ & _ & H). destruct (st_frs _ _ Hst) as [Hf Hn].
  unfold parse_frs. replace (10 <=? version) with true by lia. cbv iota. by rewrite (read_counted_has _ _ _ _ _ _ _ H).
Qed.

Lemma parse_filters_has : parse_filters data version ext_stop = Ok (Some b, Some (trie_section d), trie_stop).
Proof using Hst Hversion.
  destruct file_sections as (_ & _ & _ & _ & _ & _ & _ & _ & _ & Hb & Ht & _).
  unfold parse_filters. replace (9 <=? version) with true by lia. cbv iota.
  rewrite (read_bloom_has _ _ _ Hb (st_bloom _ _ Hst)). fold bloom_stop. by rewrite (read_trie_has _ _ _ Ht (st_trie _ _ Hst)).
Qed.

(** The last offset is the number of postings. *)
Lemma postings_count : read_u32 (cast_slice u32_pod (ci_offsets (children (cd_index d)))) (rc * 4) = cp.
Proof using Hst. apply read_u32_cast; apply Hst. Qed.

Lemma parse_body_roundtrip : parse_compact_body table data = Ok (parsed_of table d b).
Proof using Hst Hversion.
  destruct file_sections as (Hh & Erc & Enl & E1 & E2 & E3 & E4 & H5 & H6 & _).
  destruct (parse_header_has data version d Hh Hversion (st_epoch _ _ Hst)) as [Eh _].
  pose proof (zlen_nonneg (records (cd_index d))). pose proof (has_bound _ _ _ H5) as B5. pose proof (has_bound _ _ _ H6) as B6.
  pose proof (zlen_nonneg (push_trigram (trigram (cd_index d)))). pose proof (zlen_nonneg (ci_values (children (cd_index d)))).
  unfold parse_compact_body. rewrite Eh. cbv iota. rewrite Erc, Enl. replace (5 <=? version) with true by lia. cbv iota zeta.
  unfold RECORD_BYTES. fold names_stop. replace (zlen data <? names_stop + (rc + 1) * 4) with false by (unfold postings_stop in B5; lia).
  rewrite E1, E2, E3. cbn [or_fail]. rewrite postings_count. fold postings_stop. replace (zlen data <? postings_stop) with false by lia.
  rewrite E4. cbn [or_fail]. rewrite !(aligned_cast u32_pod) by apply Hst.
  rewrite (parse_trigram_has _ _ _ _ H5 (st_trigram _ _ Hst)) by lia. fold trigram_stop.
  destruct (st_exts _ _ Hst) as [He Hn]. destruct (ext_count _ _ _ H6 Hn) as (_ & B & _).
  replace (7 <=? version) with true by lia. replace (trigram_stop + 4 <=? zlen data) with true by lia. cbn [andb].
  rewrite (read_ext_has _ _ _ H6 He Hn). fold ext_stop. rewrite parse_filters_has, read_frs_has.
  unfold parsed_of. by destruct (children (cd_index d)).
Qed.

Lemma find_filters_offset : find_v9_filters_offset data = Ok (ext_stop, cd_source_epoch d).
Proof using Hst Hversion.
  destruct file_sections as (Hh & Erc & Enl & _ & _ & E3 & E4 & H5 & H6 & _).
  destruct (parse_header_has data version d Hh Hversion (st_epoch _ _ Hst)) as [Eh _].
  destruct (trigram_parts _ _ _ H5 (st_trigram _ _ Hst)) as (T1 & T2 & _ & _ & _ & T6 & B).
  pose proof (zlen_nonneg (records (cd_index d))). pose proof (zlen_nonneg (ci_values (children (cd_index d)))).
  pose proof (zlen_nonneg (ti_keys (trigram (cd_index d)))). pose proof (zlen_nonneg (ti_values (trigram (cd_index d)))).
  unfold find_v9_filters_offset. rewrite Eh. replace (version <? 9) with false by lia. cbv iota zeta. rewrite Erc, Enl.
  unfold RECORD_BYTES. fold names_stop. replace (zlen data <? names_stop + (rc + 1) * 4) with false by (unfold postings_stop in B; lia).
  assert (Ep : read_u32 data (names_stop + (rc + 1) * 4 - 4) = cp).
  { rewrite <- postings_count, (read_u32_sub _ _ _ _ (rc * 4) E3) by lia. f_equal. lia. }
  rewrite Ep. fold postings_stop. replace (zlen data <? postings_stop + 4) with false by lia. rewrite T1.
  replace (postings_stop + 4 + _ * 8 + (_ + 1) * 4) with (postings_stop + 4 + zlen (ti_keys (trigram (cd_index d))) * 8 + (zlen (ti_keys (trigram (cd_index d))) + 1) * 4) by done.
  rewrite T2. replace (zlen data <? _) with false by lia. replace (zlen data <? _) with false by lia. rewrite <- T6. fold trigram_stop.
  destruct (st_exts _ _ Hst) as [He Hn]. rewrite (skip_ext_has _ _ _ H6 He Hn). by fold ext_stop.
Qed.

End roundtrip.

(** ** Malformed input *)

Lemma aligned_slice_ok {A} (P : Pod A) `{!PodLaws P} data a count s :
  get_range data a (a + count * Z.of_nat (pod_size P)) = Some s -> exists l, aligned_vec_from_bytes P s = Ok l.
Proof. intros H%get_range_len. apply (aligned_total P _ count). lia. Qed.

(** Splits an error into the readers that can raise it. *)
Ltac no_panic :=
  repeat match goal with
  | |- (if ?c then Err (Fail _) else _) <> Err Panic => destruct c; [done |]
  | |- match or_fail ?m ?o with _ => _ end <> Err Panic =>
      let E := fresh "E" in destruct o eqn:E; cbn [or_fail]; [|done]
  end.

Lemma read_counted_no_panic {A} (P : Pod A) `{!PodLaws P} m1 m2 m3 data off : read_counted P m1 m2 m3 data off <> Err Panic.
Proof.
  unfold read_counted. cbv zeta. no_panic. destruct (_ =? 0); [done |].
  destruct (get_range _ _ _) as [s |] eqn:E; cbn [or_fail]; [|done].
  by apply (aligned_slice_ok P) in E as [l ->].
Qed.

Lemma read_bloom_no_panic data off : read_bloom_section data off <> Err Panic.
Proof.
  unfold read_bloom_section. cbv zeta. no_panic.
  destruct (aligned_slice_ok u64_pod _ _ _ _ E0) as [ws ->]. no_panic. done.
Qed.

Lemma read_trie_no_panic data off : read_trie_section data off <> Err Panic.
Proof.
  unfold read_trie_section.
  pose proof (read_counted_no_panic node_pod "truncated trie node_count" "truncated trie nodes" "trie nodes slice" data off) as H1.
  destruct (read_counted node_pod _ _ _ data off) as [[nodes c1] | e]; [|congruence]. cbv zeta. no_panic.
  pose proof (read_counted_no_panic u32_pod "truncated trie offsets_count" "truncated trie offsets" "trie offsets slice" data (c1 + 4 + read_u32 data c1)) as H2.
  destruct (read_counted u32_pod _ _ _ data _) as [[offsets c2] | e]; [|congruence].
  pose proof (read_counted_no_panic u32_pod "truncated trie indices_count" "truncated trie indices" "trie indices slice" data c2) as H3.
  destruct (read_counted u32_pod _ _ _ data c2) as [[indices c3] | e]; [|congruence]. no_panic. done.
Qed.

Lemma parse_trigram_no_panic data version pe : parse_trigram data version pe <> Err Panic.
Proof.
  unfold parse_trigram. cbv zeta. no_panic. destruct (6 <=? version); [|done]. no_panic. destruct (0 <? read_u32 data pe); [|done]. no_panic.
  destruct (aligned_slice_ok u64_pod _ _ _ _ E) as [tk ->]. no_panic.
  destruct (aligned_slice_ok u32_pod _ _ _ _ E0) as [to ->]. no_panic.
  by destruct (aligned_slice_ok u32_pod _ _ _ _ E1) as [tv ->].
Qed.

Lemma parse_filters_no_panic data version off : parse_filters data version off <> Err Panic.
Proof.
  unfold parse_filters. destruct (9 <=? version); [|done]. pose proof (read_bloom_no_panic data off) as Hb.
  destruct (read_bloom_section data off) as [[b after] | e]; [|congruence]. pose proof (read_trie_no_panic data after) as Ht.
  destruct (read_trie_section data after) as [[t stop] | e]; [done | congruence].
Qed.

Lemma parse_header_no_panic data : parse_compact_header data <> Err Panic.
Proof. unfold parse_compact_header. cbv zeta. no_panic. destruct (3 <=? _); [|done]. by no_panic. Qed.

(** What the header check lets through. *)
Lemma parse_header_ok data epoch off version :
  parse_compact_header data = Ok (epoch, off, version) -> 11 <= version <= 13 /\ off = 26 /\ 26 <= zlen data.
Proof.
  unfold parse_compact_header. cbv zeta. intros H. destruct (_ <? 18); [done |]. destruct (negb _); [done |].
  destruct (Z.ltb_spec (match get_range data 8 10 with Some s => from_le_bytes s | None => 0 end) 11); [done |].
  destruct (Z.ltb_spec COMPACT_VERSION (match get_range data 8 10 with Some s => from_le_bytes s | None => 0 end)); [done |].
  unfold COMPACT_VERSION in *. destruct (3 <=? _) eqn:E; [|lia]. destruct (Z.ltb_spec (zlen data) 26); [done |].
  injection H as <- <- <-. lia.
Qed.

Lemma parse_body_no_panic table data : parse_compact_body table data <> Err Panic.
Proof.
  unfold parse_compact_body. pose proof (parse_header_no_panic data) as Hh.
  destruct (parse_compact_header data) as [[[epoch off] version] | e] eqn:Eh; [|congruence]. apply parse_header_ok in Eh as (Hv & -> & _).
  cbv zeta. replace (5 <=? version) with true by lia. no_panic.
  destruct (aligned_slice_ok u32_pod _ _ _ _ E1) as [offsets ->]. destruct (aligned_slice_ok u32_pod _ _ _ _ E2) as [values ->].
  pose proof (parse_trigram_no_panic data version) as Ht. match goal with |- context [parse_trigram data version ?pe] => specialize (Ht pe); destruct (parse_trigram data version pe) as [[tri after] | e] end; [|congruence].
  match goal with |- context [if (?c1 && ?c2) then ?x else ?y] => destruct (if c1 && c2 then x else y) as [exts after_ext] end.
  pose proof (parse_filters_no_panic data version after_ext) as Hf.
  destruct (parse_filters data version after_ext) as [[[b t] after_trie] | e]; [|congruence].
  unfold parse_frs. destruct (10 <=? version); [|done].
  pose proof (read_counted_no_panic u32_pod "truncated frs_to_compact len" "truncated frs_to_compact values" "frs_to_compact slice" data after_trie) as Hc.
  destruct (read_counted u32_pod _ _ _ data after_trie); [done | congruence].
Qed.

(** ** The parked reader and the full parser *)

Lemma byte_at data i b : byte_list data -> zget data i = Some b -> 0 <= b < 256.
Proof. intros Hd H%zget_elem. rewrite Forall_forall in Hd. by apply Hd. Qed.

(** A table that is skipped is read to the same end. *)
Lemma skip_reads count data pos stop out :
  byte_list data -> skip_ext_entries count data pos = Ok stop -> (read_ext_entries count data out pos).2 = stop.
Proof.
  intros Hd. revert pos out. induction count as [|count IH]; intros pos out H; cbn in *; [by injection H |].
  destruct (zget data pos) as [lo |] eqn:E1; [|done]. cbn [or_fail] in H.
  destruct (zget data (pos + 1)) as [hi |] eqn:E2; [|done]. cbn [or_fail] in H.
  pose proof (byte_at _ _ _ Hd E1). pose proof (byte_at _ _ _ Hd E2). apply zget_Some in E1 as [Hp _].
  destruct (Z.ltb_spec (zlen data) (pos + 2 + (lo + 256 * (hi + 256 * 0)))) as [| Hle]; [done |].
  rewrite get_range_intro by lia. by apply IH.
Qed.

Lemma parse_trigram_end data version pe tri stop :
  parse_trigram data version pe = Ok (tri, stop) -> 6 <= version ->
  let oe := pe + 4 + read_u32 data pe * 8 + (read_u32 data pe + 1) * 4 in
  stop = oe + 4 + read_u32 data oe * 4.
Proof.
  unfold parse_trigram. cbv zeta. intros H Hv. replace (6 <=? version) with true in H by lia.
  repeat match type of H with
  | (if ?c then _ else _) = _ => destruct c; [try done |]
  | match or_fail ?m ?o with _ => _ end = _ => destruct o; cbn [or_fail] in H; [|done]
  | match aligned_vec_from_bytes ?P ?s with _ => _ end = _ => destruct (aligned_vec_from_bytes P s); [|done]
  end; by injection H as _ <-.
Qed.

(** What the parser read, section by section. *)
Lemma parse_body_parts table data p :
  parse_compact_body table data = Ok p ->
  exists version rc csr_off tri after_tri b t after_trie,
    parse_compact_header data = Ok (p_source_epoch p, 26, version) /\ rc = read_u32 data 10 /\
    zlen (records_bytes p) = rc * RECORD_BYTES /\
    let cs := 26 + rc * RECORD_BYTES + read_u32 data 14 in
    get_range data cs (cs + (rc + 1) * 4) = Some csr_off /\
    parse_trigram data version (cs + (rc + 1) * 4 + read_u32 csr_off (rc * 4) * 4) = Ok (tri, after_tri) /\
    parse_filters data version (if after_tri + 4 <=? zlen data then (read_ext_names_table data after_tri).2 else after_tri)
      = Ok (Some b, Some t, after_trie) /\
    bloom_loaded p = Some b /\ trie_loaded p = Some t /\ is_Some (frs_to_compact_loaded p).
Proof.
  unfold parse_compact_body. destruct (parse_compact_header data) as [[[epoch off] version] | e] eqn:Eh; [|done].
  pose proof (parse_header_ok _ _ _ _ Eh) as (Hv & -> & _). cbv zeta. replace (5 <=? version) with true by lia.
  replace (7 <=? version) with true by lia. cbn [andb]. intros H.
  repeat match type of H with
  | (if ?c then Err _ else _) = _ => destruct c; [done |]
  | match or_fail ?m ?o with _ => _ end = _ => let E := fresh "E" in destruct o eqn:E; cbn [or_fail] in H; [|done]
  | match aligned_vec_from_bytes ?P ?s with _ => _ end = _ => destruct (aligned_vec_from_bytes P s); [|done]
  end.
  destruct (parse_trigram data version _) as [[tri after_tri] |] eqn:Et; [|done].
  assert (Hx : exists exts, (if after_tri + 4 <=? zlen data then (let (table, stop) := read_ext_names_table data after_tri in (Some table, stop)) else (None, after_tri))
    = (exts, if after_tri + 4 <=? zlen data then (read_ext_names_table data after_tri).2 else after_tri)).
  { destruct (_ <=? _); [|by eexists]. destruct (read_ext_names_table data after_tri). by eexists. }
  destruct Hx as [exts Hx]. rewrite Hx in H. clear Hx.
  destruct (parse_filters data version _) as [[[ob ot] after_trie] |] eqn:Ef; [|done].
  destruct (parse_frs data version after_trie) as [frs |] eqn:Er; [|done]. injection H as <-.
  assert (Hf : exists b t, ob = Some b /\ ot = Some t).
  { unfold parse_filters in Ef. replace (9 <=? version) with true in Ef by lia.
    destruct (read_bloom_section _ _) as [[bb a1] |]; [|done]. destruct (read_trie_section _ _) as [[tt a2] |]; [|done]. injection Ef as <- <- _. eauto. }
  destruct Hf as (b & t & -> & ->). exists version, (read_u32 data 10), l1, tri, after_tri, b, t, after_trie. cbn.
  split_and!; try done.
  - apply get_range_len in E. lia.
  - unfold parse_frs in Er. replace (10 <=? version) with true in Er by lia. destruct (read_counted _ _ _ _ _ _) as [r |]; [|done]. injection Er as <-. by eexists.
Qed.

(** The columns are slices of the file. *)
Lemma parse_body_slices table data p :
  parse_compact_body table data = Ok p -> zlen (records_bytes p) <= zlen data /\ zlen (names_bytes p) <= zlen data.
Proof.
  unfold parse_compact_body. destruct (parse_compact_header data) as [[[epoch off] version] | e]; [|done]. cbv zeta. intros H.
  repeat match type of H with
  | (if ?c then Err _ else _) = _ => destruct c; [done |]
  | match or_fail ?m ?o with _ => _ end = _ => let E := fresh "E" in destruct o eqn:E; cbn [or_fail] in H; [|done]
  | match aligned_vec_from_bytes ?P ?s with _ => _ end = _ => destruct (aligned_vec_from_bytes P s); [|done]
  end.
  destruct (parse_trigram data version _) as [[tri after_tri] |]; [|done].
  match type of H with context [if (?c1 && ?c2) then ?x else ?y] => destruct (if c1 && c2 then x else y) as [exts after_ext] end.
  destruct (parse_filters data version after_ext) as [[[ob ot] after_trie] |]; [|done].
  destruct (parse_frs data version after_trie) as [frs |]; [|done]. injection H as <-. cbn.
  pose proof E as (? & ? & _)%get_range_Some. pose proof E0 as (? & ? & _)%get_range_Some.
  apply get_range_len in E, E0. lia.
Qed.

Lemma parked_agrees table data p body :
  byte_list data -> parse_compact_body table data = Ok p -> deserialize_parked_body table data = Ok body ->
  p_source_epoch p = pb_source_epoch body /\ bloom_loaded p = Some (pb_bloom body) /\ trie_loaded p = Some (pb_path_trie body).
Proof.
  intros Hd Hp Hb. destruct (parse_body_parts _ _ _ Hp) as (version & rc & csr & tri & after & b & t & at_ & Eh & Hrc & Hz & Ec & Et & Ef & -> & -> & _).
  assert (Hrc0 : 0 <= rc) by (pose proof (zlen_nonneg (records_bytes p)); unfold RECORD_BYTES in Hz; lia). clear Hz.
  pose proof (parse_header_ok _ _ _ _ Eh) as (Hv & _ & _). cbv zeta in Ec, Et.
  unfold deserialize_parked_body, find_v9_filters_offset in Hb. rewrite Eh in Hb. replace (version <? 9) with false in Hb by lia.
  cbv zeta in Hb. rewrite <- Hrc in Hb. set (ce := 26 + rc * RECORD_BYTES + read_u32 data 14 + (rc + 1) * 4) in *.
  destruct (zlen data <? ce); [done |].
  assert (Ecp : read_u32 data (ce - 4) = read_u32 csr (rc * 4)).
  { rewrite (read_u32_sub _ _ _ _ (rc * 4) Ec) by lia. f_equal. unfold ce. lia. }
  rewrite Ecp in Hb. set (pe := ce + read_u32 csr (rc * 4) * 4) in *. destruct (zlen data <? pe + 4); [done |].
  apply parse_trigram_end in Et; [|lia]. cbv zeta in Et.
  set (oe := pe + 4 + read_u32 data pe * 8 + (read_u32 data pe + 1) * 4) in *. destruct (zlen data <? oe + 4); [done |].
  rewrite <- Et in Hb. destruct (zlen data <? after); [done |].
  unfold skip_ext_names_table in Hb. destruct (Z.ltb_spec (zlen data) (after + 4)); [done |].
  replace (after + 4 <=? zlen data) with true in Ef by lia.
  destruct (skip_ext_entries _ data (after + 4)) as [stop |] eqn:Es; [|done].
  unfold read_ext_names_table in Ef. rewrite (skip_reads _ _ _ _ [] Hd Es) in Ef. unfold parse_filters in Ef.
  replace (9 <=? version) with true in Ef by lia. destruct (read_bloom_section data stop) as [[bb a1] |]; [|done].
  destruct (read_trie_section data a1) as [[tt a2] |]; [|done]. injection Ef as -> -> _. by injection Hb as <-.
Qed.

(** * Theorems *)

(** The drive a load returns for the one that was saved: the extension index is rebuilt,
    the trigram index too when it is empty, and there is no overlay. *)
Definition reloaded (fold_table : list Z) (schedule : list (Z * Z) -> list (Z * Z)) (d : CacheDrive) (b : Bloom) : CacheDrive :=
  let index := cd_index d in
  mkCacheDrive
    (mkDriveCompactIndex (records index) (names index)
      (default (TrigramIndex_build fold_table (names index) schedule (records index)) (adopted (trigram index)))
      (children index) (ExtensionIndex_build (records index)) fold_table (ext_names index) (Some b) (frs_to_compact index) None)
    (cd_source_epoch d) (Some (trie_section d)).

(** A drive as the builders and the loader leave it. *)
Definition settled (fold_table : list Z) (d : CacheDrive) (b : Bloom) : Prop :=
  fold (cd_index d) = fold_table /\ ext_index (cd_index d) = ExtensionIndex_build (records (cd_index d)) /\
  zlen (ti_keys (trigram (cd_index d))) <> 0 /\ delta (cd_index d) = None /\ bloom (cd_index d) = Some b /\ is_Some (cd_path_trie d).

Section theorems.
Context (hash : Z -> list Z -> Z) (bloom_n bloom_k : Z) (fold_table : list Z) (schedule : list (Z * Z) -> list (Z * Z)).
Abbreviation serialize := (serialize_compact hash bloom_n bloom_k).
Abbreviation deserialize := (deserialize_compact hash bloom_n bloom_k fold_table schedule).

Lemma serialize_file d b : bloom_section hash bloom_n bloom_k d = Some b -> serialize d = Some (file_of COMPACT_VERSION d b).
Proof. intros Hb. unfold serialize_compact. by rewrite Hb. Qed.

Lemma assemble_parsed d b : Forall record_ok (records (cd_index d)) ->
  assemble_compact_index hash bloom_n bloom_k fold_table schedule (parsed_of fold_table d b) heap_columns = Ok (reloaded fold_table schedule d b).
Proof.
  intros Hr. unfold assemble_compact_index, heap_columns, parsed_of. cbn [records_bytes names_bytes].
  rewrite (aligned_cast record_pod) by exact Hr. done.
Qed.

(** C14: what [serialize_compact] writes, [deserialize_compact] reads back: every column of
    the drive, its filter, its trie and its epoch; a drive as the builders leave it comes
    back as it was. *)
Theorem cache_roundtrip d b :
  bloom_section hash bloom_n bloom_k d = Some b -> drive_stored d b ->
  exists data, serialize d = Some data /\ deserialize data = Ok (reloaded fold_table schedule d b) /\
    (settled fold_table d b -> reloaded fold_table schedule d b = d).
Proof.
  intros Hb Hst. exists (file_of COMPACT_VERSION d b). split; [by apply serialize_file |]. split.
  - unfold deserialize_compact. rewrite parse_body_roundtrip by (done || unfold COMPACT_VERSION; lia).
    apply assemble_parsed, Hst.
  - intros (Hf & He & Ht & Hd & Hbl & [t Hp]). unfold reloaded, adopted, trie_section. rewrite Hp.
    replace (_ =? 0) with false by lia. destruct d as [[] ? ?]. cbn in *. by subst.
Qed.

(** The parked reader, which skips the columns, finds in a saved drive the filter, the
    trie and the epoch of [to_parked_body]; and on any bytes that both readers accept it
    returns the ones the full parser returns. *)
Theorem parked_body_exact d b data p body :
  bloom_section hash bloom_n bloom_k d = Some b -> drive_stored d b ->
  (exists bytes, serialize d = Some bytes /\
    deserialize_parked_body fold_table bytes = Ok (mkParkedBody (cd_source_epoch d) b (trie_section d) fold_table)) /\
  (byte_list data -> parse_compact_body fold_table data = Ok p -> deserialize_parked_body fold_table data = Ok body ->
    p_source_epoch p = pb_source_epoch body /\ bloom_loaded p = Some (pb_bloom body) /\ trie_loaded p = Some (pb_path_trie body)).
Proof.
  intros Hb Hst. split; [|by apply parked_agrees]. exists (file_of COMPACT_VERSION d b). split; [by apply serialize_file |].
  assert (Hv : 11 <= COMPACT_VERSION <= 13) by (unfold COMPACT_VERSION; lia).
  unfold deserialize_parked_body. rewrite find_filters_offset by done.
  destruct (file_sections COMPACT_VERSION d b Hst) as (_ & _ & _ & _ & _ & _ & _ & _ & _ & Hbl & Ht & _).
  rewrite (read_bloom_has _ _ _ Hbl (st_bloom _ _ Hst)). fold (bloom_stop d b). by rewrite (read_trie_has _ _ _ Ht (st_trie _ _ Hst)).
Qed.

Lemma parked_no_panic data : deserialize_parked_body fold_table data <> Err Panic.
Proof.
  unfold deserialize_parked_body, find_v9_filters_offset. pose proof (parse_header_no_panic data) as Hh.
  destruct (parse_compact_header data) as [[[epoch off] version] | e]; [|congruence]. cbv zeta.
  assert (Hs : forall count pos, skip_ext_entries count data pos <> Err Panic).
  { induction count as [|count IH]; intros pos; [done |]. cbn [skip_ext_entries]. cbv zeta. no_panic. apply IH. }
  destruct (version <? 9); [done |]. destruct (_ <? _); [done |]. destruct (_ <? _); [done |]. destruct (_ <? _); [done |].
  destruct (_ <? _); [done |]. unfold skip_ext_names_table. destruct (_ <? _); [done |].
  match goal with |- context [skip_ext_entries ?n data ?q] => specialize (Hs n q); destruct (skip_ext_entries n data q) as [after | e] end; [|congruence].
  pose proof (read_bloom_no_panic data after) as Hb. destruct (read_bloom_section data after) as [[b a1] | e]; [|congruence].
  pose proof (read_trie_no_panic data a1) as Ht. destruct (read_trie_section data a1) as [[t a2] | e]; [done | congruence].
Qed.

(** No bytes make a load panic: the full and the parked reader return a drive or a
    parse error. *)
Theorem cache_never_panics data : deserialize data <> Err Panic /\ deserialize_parked_body fold_table data <> Err Panic.
Proof.
  split; [|apply parked_no_panic]. unfold deserialize_compact. pose proof (parse_body_no_panic fold_table data) as Hp.
  destruct (parse_compact_body fold_table data) as [p | e] eqn:E; [|congruence].
  destruct (parse_body_parts _ _ _ E) as (v & rc & csr & tri & after & b & t & at_ & _ & _ & Hz & _ & _ & _ & Hb & _ & _).
  unfold assemble_compact_index, heap_columns. destruct (aligned_total record_pod (records_bytes p) rc Hz) as [recs ->].
  rewrite Hb. done.
Qed.

(** The versions the header check accepts are 11, 12 and 13, and a version-12 file of
    a drive loads like a version-13 one. *)
Theorem stale_versions_load data epoch off version d b :
  (parse_compact_header data = Ok (epoch, off, version) -> 11 <= version <= 13) /\
  (drive_stored d b -> 11 <= version <= 13 ->
    deserialize (file_of version d b) = Ok (reloaded fold_table schedule d b)).
Proof.
  split; [by intros (H & _)%parse_header_ok |]. intros Hst Hv. unfold deserialize_compact.
  rewrite parse_body_roundtrip by done. apply assemble_parsed, Hst.
Qed.

End theorems.

(** * A small drive *)

Definition small_index : DriveCompactIndex :=
  mkDriveCompactIndex small_records small_names (TrigramIndex_build [] small_names (@rev _) small_records)
    (ChildrenIndex_build small_records) (ExtensionIndex_build small_records) [] [[]; [116; 120; 116]] (Some (with_size_and_k 64 2))
    [U32_MAX; 0; 1] None.
Definition small_drive : CacheDrive := mkCacheDrive small_index 1234 (Some (PathTrie.build small_records small_names)).
Definition small_bloom : Bloom := with_size_and_k 64 2.

Ltac forall_vm :=
  match goal with |- Forall ?P ?l => let k := eval vm_compute in l in change (Forall P k); forall_eval end.

Lemma small_stored : drive_stored small_drive small_bloom.
Proof.
  split.
  - forall_vm.
  - by_eval.
  - by_eval.
  - forall_vm.
  - forall_vm.
  - by_eval.
  - by_eval.
  - split; [forall_vm | forall_vm | forall_vm | by_eval | by_eval].
  - split; [forall_vm | by_eval].
  - split; [by_eval | by_eval | forall_vm | by_eval | by_eval].
  - split; [forall_vm | forall_vm | forall_vm | by_eval | by_eval].
  - split; [forall_vm | by_eval].
Defined.

Lemma cache_roundtrip_witness :
  exists data, serialize_compact (fun _ _ => 5) 64 2 small_drive = Some data /\
    deserialize_compact (fun _ _ => 5) 64 2 [] (@rev _) data = Ok small_drive.
Proof.
  destruct (cache_roundtrip (fun _ _ => 5) 64 2 [] (@rev _) small_drive small_bloom) as (data & Hs & Hd & Hr);
    [by vm_compute | apply small_stored |].
  exists data. split; [exact Hs |]. rewrite Hd, Hr; [reflexivity |]. unfold settled.
  split; [reflexivity | split; [reflexivity | split; [by vm_compute | split; [reflexivity | split; [reflexivity | by eexists]]]]].
Defined.

Lemma parked_body_exact_witness :
  exists data, serialize_compact (fun _ _ => 5) 64 2 small_drive = Some data /\
    deserialize_parked_body [] data = Ok (mkParkedBody 1234 small_bloom (PathTrie.build small_records small_names) []).
Proof.
  destruct (parked_body_exact (fun _ _ => 5) 64 2 [] small_drive small_bloom [] (parsed_of [] small_drive small_bloom)
    (mkParkedBody 0 small_bloom (PathTrie.build [] []) [])) as [H _]; [by vm_compute | apply small_stored |].
  exact H.
Defined.

Lemma stale_versions_load_witness :
  deserialize_compact (fun _ _ => 5) 64 2 [] (@rev _) (file_of 12 small_drive small_bloom) =
  Ok (reloaded [] (@rev _) small_drive small_bloom).
Proof.
  assert (Hv : 11 <= 12 <= 13) by lia.
  destruct (stale_versions_load (fun _ _ => 5) 64 2 [] (@rev _) [] 0 0 12 small_drive small_bloom) as [_ H].
  exact (H small_stored Hv).
Defined.
