(* ===== verification/CacheFile.v ===== *)
(** The cache file of a drive on disk: its encrypted envelope
    ([crates/uffs-security/src/crypto.rs]), the streaming serializer, the save and load
    pipelines with their freshness checks and the quarantine of corrupt files
    ([crates/uffs-core/src/compact_cache.rs], [compact_cache/parked.rs]) and the columns
    mapped from a runtime file ([compact_mmap.rs], [compact_storage.rs]).

    AES-GCM and zstd are parameters.  The outcome of each I/O call is part of an
    environment, so every failure the code handles can happen. *)
From stdpp Require Import strings gmap.
From S2P Require Import Prelude CaseFold CsrIndex TrigramIndex Bloom CompactIndex Filters PathTrie CacheCodec.
Local Open Scope Z_scope.
Local Open Scope rust_scope.

(** * The encrypted envelope *)

Definition ENCRYPTED_MAGIC : list Z := bytes_of "UFFSENC" ++ [0].
Definition LEGACY_MAGIC : list Z := bytes_of "UFFSIDX" ++ [0].
Definition ENC_FORMAT_VERSION : Z := 2.
Definition ALGO_AES_256_GCM : Z := 1.
Definition HEADER_SIZE_V2 : Z := 32.
Definition HEADER_SIZE_V1 : Z := 28.
Definition TAG_SIZE : Z := 16.

Inductive CacheFormat := Encrypted | LegacyPlaintext | Unknown.

Definition detect_format (data : list Z) : CacheFormat :=
  match get_range data 0 8 with
  | Some magic =>
      if bool_decide (magic = ENCRYPTED_MAGIC) then Encrypted
      else if bool_decide (magic = LEGACY_MAGIC) then LegacyPlaintext
      else Unknown
  | None => Unknown
  end.

Section envelope.
Context {Key : Type}.
(** AES-256-GCM: [seal key nonce aad plaintext] is the ciphertext and the tag, or the
    error of the crate; [unseal] takes them back. *)
Context (seal : Key -> list Z -> list Z -> list Z -> option (list Z * list Z))
  (unseal : Key -> list Z -> list Z -> list Z -> list Z -> option (list Z)).

Definition envelope_header (kdf_id : Z) (nonce : list Z) (plaintext_len : Z) : list Z :=
  ENCRYPTED_MAGIC ++ to_le_bytes 2 ENC_FORMAT_VERSION ++ [ALGO_AES_256_GCM] ++ [kdf_id] ++ nonce ++ to_le_bytes 8 plaintext_len.

(** The key-derivation id is the platform's, the nonce random. *)
Definition encrypt_cache (kdf_id : Z) (nonce plaintext : list Z) (key : Key) : result (list Z) fault :=
  let output := envelope_header kdf_id nonce (zlen plaintext) in
  try aad := or_fail "header shorter than expected" (get_range output 0 HEADER_SIZE_V2) in
  try sealed := or_fail "AES-GCM encrypt failed" (seal key nonce aad plaintext) in
  Ok (output ++ sealed.1 ++ sealed.2).

(** The header size and the payload length of a version. *)
Definition payload_layout (data : list Z) : result (Z * Z) fault :=
  try ver_bytes := or_fail "missing version" (get_range data 8 10) in
  let ver := from_le_bytes ver_bytes in
  if ver =? 1 then
    try len_buf := or_fail "missing v1 length" (get_range data 24 28) in
    Ok (HEADER_SIZE_V1, from_le_bytes len_buf)
  else if ver =? 2 then
    if zlen data <? HEADER_SIZE_V2 + TAG_SIZE then Err (Fail "v2 cache too short") else
    try len_buf := or_fail "missing v2 length" (get_range data 24 32) in
    Ok (HEADER_SIZE_V2, from_le_bytes len_buf)
  else Err (Fail "unsupported format version").

(** The release profile wraps the sum of the payload length, which the file states, and
    the sizes around it. *)
Definition decrypt_cache (data : list Z) (key : Key) : result (list Z) fault :=
  if zlen data <? HEADER_SIZE_V1 + TAG_SIZE then Err (Fail "encrypted cache too short") else
  if negb (bool_decide (get_range data 0 8 = Some ENCRYPTED_MAGIC)) then Err (Fail "not an encrypted UFFS cache file (bad magic)") else
  try algo := or_fail "missing algorithm byte" (zget data 10) in
  if negb (algo =? ALGO_AES_256_GCM) then Err (Fail "unsupported algorithm") else
  try layout := payload_layout data in
  let (header_size, payload_len) := layout in
  try nonce_bytes := or_fail "data too short for nonce" (get_range data 12 24) in
  let expected := header_size +w payload_len +w TAG_SIZE in
  if zlen data <? expected then Err (Fail "encrypted cache truncated") else
  try aad := or_fail "header OOB" (get_range data 0 header_size) in
  try ciphertext := or_fail "ciphertext OOB" (get_range data header_size (header_size +w payload_len)) in
  try tag := or_fail "tag OOB" (get_range data (header_size +w payload_len) (header_size +w payload_len +w TAG_SIZE)) in
  or_fail "AES-GCM authentication failed (wrong key or tampered data)" (unseal key nonce_bytes aad ciphertext tag).

(** What is relied on of AES-GCM: decryption inverts encryption, the ciphertext has the
    length of the plaintext and the tag sixteen bytes. *)
Record gcm_ok : Prop := {
  gcm_inverse key nonce aad plaintext ciphertext tag :
    seal key nonce aad plaintext = Some (ciphertext, tag) -> unseal key nonce aad ciphertext tag = Some plaintext;
  gcm_length key nonce aad plaintext ciphertext tag :
    seal key nonce aad plaintext = Some (ciphertext, tag) -> zlen ciphertext = zlen plaintext /\ zlen tag = 16
}.

Lemma zlen_envelope_header kdf nonce n : zlen nonce = 12 -> zlen (envelope_header kdf nonce n) = 32.
Proof. intros H. unfold envelope_header. rewrite !zlen_app, !zlen_to_le_bytes, H. done. Qed.

Lemma get_range_all {A} (l : list A) n : n = zlen l -> get_range l 0 n = Some l.
Proof. intros ->. rewrite <- (app_nil_r l) at 1. by apply (get_range_mid [] l []). Qed.

Lemma get_range_has data a b s : has data a s -> b = a + zlen s -> get_range data a b = Some s.
Proof. by intros H ->. Qed.

(** The envelope round trip. *)
Lemma decrypt_encrypt kdf nonce plaintext key data :
  gcm_ok -> zlen nonce = 12 -> zlen plaintext < 2 ^ 63 ->
  encrypt_cache kdf nonce plaintext key = Ok data -> decrypt_cache data key = Ok plaintext.
Proof.
  intros Hg Hn Hp H. unfold encrypt_cache in H. pose proof (zlen_envelope_header kdf nonce (zlen plaintext) Hn) as Hh.
  rewrite get_range_all in H by (unfold HEADER_SIZE_V2; lia). cbn [or_fail] in H.
  destruct (seal key nonce _ plaintext) as [[ct tag] |] eqn:Es; cbn [or_fail fst snd] in H; [|done].
  assert (E : data = envelope_header kdf nonce (zlen plaintext) ++ ct ++ tag) by congruence. clear H.
  destruct (gcm_length Hg _ _ _ _ _ _ Es) as [Lc Lt]. pose proof (gcm_inverse Hg _ _ _ _ _ _ Es) as Hu.
  set (header := envelope_header kdf nonce (zlen plaintext)) in *.
  pose proof (zlen_nonneg plaintext). assert (Ld : zlen data = 32 + zlen plaintext + 16) by (rewrite E, !zlen_app; lia).
  pose proof (has_all data) as Ha. rewrite E in Ha at 2. clear E. apply has_app in Ha as [Hhd [Hct Htg]%has_app]. rewrite Hh, Lc in *.
  pose proof Hhd as Hhd'. unfold header, envelope_header in Hhd'. clearbody header.
  apply has_app in Hhd' as [H1 [H2 [H3 [_ [H5 H6]%has_app]%has_app]%has_app]%has_app].
  rewrite !zlen_to_le_bytes, Hn in *. change (zlen ENCRYPTED_MAGIC) with 8 in *. change (zlen [ALGO_AES_256_GCM]) with 1 in *. change (zlen [kdf]) with 1 in *.
  change (Z.of_nat 2) with 2 in *. cbn [Z.add Pos.add Pos.succ Pos.add_carry] in H2, H3, H5, H6.
  unfold decrypt_cache, HEADER_SIZE_V1, TAG_SIZE. replace (zlen data <? 28 + 16) with false by lia.
  rewrite (get_range_has data 0 8 _ H1) by done. rewrite bool_decide_eq_true_2 by done. cbn [negb].
  assert (Ez : zget data 10 = Some ALGO_AES_256_GCM).
  { pose proof (zget_get_range data 10 11 _ 0 (get_range_has data 10 11 _ H3 eq_refl) ltac:(lia)) as Ez. change (10 + 0) with 10 in Ez. rewrite <- Ez. done. }
  rewrite Ez. cbn [or_fail]. change (negb (ALGO_AES_256_GCM =? ALGO_AES_256_GCM)) with false. cbv iota.
  unfold payload_layout. rewrite (get_range_has data 8 10 _ H2) by done. cbn [or_fail]. rewrite from_to_le_bytes_small by (by vm_compute).
  change (ENC_FORMAT_VERSION =? 1) with false. change (ENC_FORMAT_VERSION =? 2) with true. cbv iota.
  unfold HEADER_SIZE_V2, TAG_SIZE. replace (zlen data <? 32 + 16) with false by lia.
  rewrite (get_range_has data 24 32 _ H6) by done. cbn [or_fail]. rewrite from_to_le_bytes_small by (cbn; lia).
  rewrite (get_range_has data 12 24 _ H5) by (rewrite Hn; done). cbn [or_fail]. unfold TAG_SIZE.
  rewrite !(u64_small (32 + zlen plaintext)), !(u64_small (32 + zlen plaintext + 16)) by lia.
  replace (zlen data <? _) with false by lia. rewrite (get_range_has data 0 32 _ Hhd) by lia. cbn [or_fail].
  rewrite (get_range_has data 32 _ _ Hct) by lia. cbn [or_fail]. rewrite (get_range_has data _ _ _ Htg) by lia. cbn [or_fail].
  by rewrite Hu.
Qed.

End envelope.

(** * The streaming serializer *)

(** [io::Write], with what has been accepted so far. *)
Class Write (W : Type) := {
  write_all : W -> list Z -> result W fault;
  flush : W -> result W fault;
  contents : W -> list Z;
  write_all_ok w s w' : write_all w s = Ok w' -> contents w' = contents w ++ s;
  flush_ok w w' : flush w = Ok w' -> contents w' = contents w
}.

Section writer.
Context {W : Type} `{Write W}.

(** Consecutive [write_all(...)?]. *)
Fixpoint write_each (w : W) (pieces : list (list Z)) : result W fault :=
  match pieces with
  | [] => Ok w
  | piece :: pieces => try w := write_all w piece in write_each w pieces
  end.

Definition write_u32 (w : W) (val : Z) : result W fault := write_all w (push_u32 val).

Definition write_bloom_section (w : W) (b : Bloom) : result W fault :=
  try w := write_each w [to_le_bytes 8 (nbits b); to_le_bytes 4 (k_hashes b)] in
  try w := write_u32 w (zlen (bits b)) in
  write_all w (cast_slice u64_pod (bits b)).

Definition write_trie_section (w : W) (trie : PathTrie) : result W fault :=
  try w := write_u32 w (zlen (pt_nodes trie)) in
  try w := write_all w (cast_slice node_pod (pt_nodes trie)) in
  try w := write_u32 w (zlen (pt_names trie)) in
  try w := write_all w (pt_names trie) in
  try w := write_u32 w (zlen (pt_child_offsets trie)) in
  try w := write_all w (cast_slice u32_pod (pt_child_offsets trie)) in
  try w := write_u32 w (zlen (pt_child_indices trie)) in
  write_all w (cast_slice u32_pod (pt_child_indices trie)).

(** One entry of the extension table: its length, then its bytes. *)
Definition ext_pieces (name : list Z) : list (list Z) :=
  let len := PathLen.len_to_u16 (zlen name) in
  [to_le_bytes 2 len; default name (get_range name 0 len)].

Definition serialize_compact_to_writer (hash : Z -> list Z -> Z) (bloom_n bloom_k : Z) (d : CacheDrive) (w : W) : result W fault :=
  let index := cd_index d in
  try w := write_each w [COMPACT_MAGIC; to_le_bytes 2 COMPACT_VERSION] in
  try w := write_u32 w (zlen (records index)) in
  try w := write_u32 w (zlen (names index)) in
  try w := write_each w [to_le_bytes 8 (cd_source_epoch d); cast_slice record_pod (records index); names index;
    cast_slice u32_pod (ci_offsets (children index)); cast_slice u32_pod (ci_values (children index))] in
  try w := write_u32 w (zlen (ti_keys (trigram index))) in
  try w := write_each w [cast_slice u64_pod (ti_keys (trigram index)); cast_slice u32_pod (ti_offsets (trigram index))] in
  try w := write_u32 w (zlen (ti_values (trigram index))) in
  try w := write_all w (cast_slice u32_pod (ti_values (trigram index))) in
  try w := write_u32 w (zlen (ext_names index)) in
  try w := write_each w (concat (map ext_pieces (ext_names index))) in
  try bloom := or_panic (bloom_section hash bloom_n bloom_k d) in
  try w := write_bloom_section w bloom in
  try w := write_trie_section w (trie_section d) in
  try w := write_u32 w (zlen (frs_to_compact index)) in
  try w := write_all w (cast_slice u32_pod (frs_to_compact index)) in
  flush w.

Lemma write_each_ok w pieces w' : write_each w pieces = Ok w' -> contents w' = contents w ++ concat pieces.
Proof.
  revert w. induction pieces as [|piece pieces IH]; intros w E; cbn in E; [injection E as <-; by rewrite app_nil_r |].
  destruct (write_all w piece) as [w1 |] eqn:E1; [|done]. apply write_all_ok in E1. apply IH in E.
  cbn. by rewrite E, E1, <- app_assoc.
Qed.

(** Follows a sequence of writes that succeeded. *)
Ltac follow_writes H :=
  repeat match type of H with
  | match ?c with Ok _ => _ | Err _ => _ end = Ok _ => let E := fresh "E" in destruct c eqn:E; [|discriminate H]
  end.
Ltac gather_contents :=
  unfold write_u32 in *; repeat match goal with
  | E : write_each _ _ = Ok _ |- _ => apply write_each_ok in E
  | E : write_all _ _ = Ok _ |- _ => apply write_all_ok in E
  | E : flush _ = Ok _ |- _ => apply flush_ok in E
  end.

Lemma write_bloom_ok w b w' : write_bloom_section w b = Ok w' -> contents w' = contents w ++ push_bloom_section b.
Proof.
  unfold write_bloom_section. intros H1. follow_writes H1. gather_contents. rewrite H1, E0, E. unfold push_bloom_section. cbn [concat].
  by rewrite <- !app_assoc.
Qed.

Lemma write_trie_ok w trie w' : write_trie_section w trie = Ok w' -> contents w' = contents w ++ push_trie_section trie.
Proof.
  unfold write_trie_section. intros H1. follow_writes H1. gather_contents. rewrite H1, E5, E4, E3, E2, E1, E0, E. unfold push_trie_section.
  by rewrite <- !app_assoc.
Qed.

Lemma concat_ext_pieces exts : concat (concat (map ext_pieces exts)) = concat (map push_ext_name exts).
Proof. induction exts as [|e exts IH]; [done |]. cbn [map concat]. rewrite concat_app, IH. unfold ext_pieces, push_ext_name. cbn [concat]. by rewrite app_nil_r. Qed.

Lemma serialize_to_writer_ok hash n k d w w' :
  serialize_compact_to_writer hash n k d w = Ok w' ->
  exists data, serialize_compact hash n k d = Some data /\ contents w' = contents w ++ data.
Proof.
  unfold serialize_compact_to_writer, serialize_compact. cbv zeta. intros H1.
  destruct (bloom_section hash n k d) as [b |] eqn:Eb; cbn [or_panic] in H1; follow_writes H1; [|by rewrite ?Eb in *].
  eexists. split; [done |].
  repeat match goal with
  | E : write_bloom_section _ _ = Ok _ |- _ => apply write_bloom_ok in E
  | E : write_trie_section _ _ = Ok _ |- _ => apply write_trie_ok in E
  end.
  gather_contents.
  repeat match goal with E : contents ?x = _ |- context [contents ?x] => rewrite E; clear E end.
  rewrite concat_ext_pieces. unfold push_header, push_trigram, push_ext_names, push_frs. cbn [concat].
  by rewrite ?app_nil_r, <- ?app_assoc.
Qed.

End writer.

(** * Columns mapped from a runtime file *)

Definition PAGE_SIZE : Z := 4096.

Definition align_up (value alignment : Z) : result Z fault :=
  let mask := alignment - 1 in
  if U64_MAX <? value + mask then Err (Fail "align_up overflow")
  else Ok (Z.land (value + mask) (U64_MAX - mask)).

Record RuntimeLayout := mkRuntimeLayout {
  records_offset : Z; records_count : Z; names_offset : Z; names_len : Z; total_len : Z
}.

(** The layout and the contents of the file; [io] is the outcome of its truncation,
    seeks, writes and synchronisation. *)
Definition write_runtime_layout (io : result unit fault) (records_bytes names_bytes : list Z) : result (RuntimeLayout * list Z) fault :=
  let records_offset := 0 in
  let records_byte_len := zlen records_bytes in
  let records_end := records_offset + records_byte_len in
  if U64_MAX <? records_end then Err (Fail "runtime layout: records byte length overflows u64") else
  try names_offset := align_up records_end PAGE_SIZE in
  let names_end := names_offset + zlen names_bytes in
  if U64_MAX <? names_end then Err (Fail "runtime layout: names byte length overflows u64") else
  try total_len := align_up names_end PAGE_SIZE in
  try _ := io in
  let file := zrepeat 0 total_len in
  let file := put_range file records_offset records_bytes in
  let file := put_range file names_offset names_bytes in
  let records_count := zlen records_bytes / RECORD_BYTES in
  if negb (saturating_mul_u64 records_count RECORD_BYTES =? zlen records_bytes)
  then Err (Fail "runtime layout: records_bytes length is not a multiple of size_of::<CompactRecord>()") else
  Ok (mkRuntimeLayout records_offset records_count names_offset (zlen names_bytes) total_len, file).

(** A column: on the heap, or [len] elements of a map from a byte offset. *)
Inductive ColumnStorage (A : Type) :=
| ColVec (vec : list A)
| ColMmap (mmap : list Z) (byte_offset len : Z).
Arguments ColVec {A}.
Arguments ColMmap {A}.

(** The base address of the map decides the alignment. *)
Definition from_mmap_region {A} (P : Pod A) (alignment base_addr : Z) (mmap : list Z) (byte_offset len : Z) : result (ColumnStorage A) fault :=
  let elem_size := Z.of_nat (pod_size P) in
  let bytes_needed := len * elem_size in
  if U64_MAX <? bytes_needed then Err (Fail "Overflow") else
  let stop := byte_offset + bytes_needed in
  if U64_MAX <? stop then Err (Fail "Overflow") else
  if zlen mmap <? stop then Err (Fail "OutOfBounds") else
  let actual_offset := (base_addr +w byte_offset) mod alignment in
  if negb (actual_offset =? 0) then Err (Fail "Misaligned") else
  Ok (ColMmap mmap byte_offset len).

Definition as_slice {A} (P : Pod A) (col : ColumnStorage A) : list A :=
  match col with
  | ColVec vec => vec
  | ColMmap mmap byte_offset len =>
      let bytes_len := len * Z.of_nat (pod_size P) in
      from_pod_bytes P (Z.to_nat len) (default [] (get_range mmap byte_offset (byte_offset + bytes_len)))
  end.

Definition materialise_to_vec {A} (P : Pod A) (col : ColumnStorage A) : ColumnStorage A :=
  match col with
  | ColMmap _ _ _ => ColVec (as_slice P col)
  | ColVec _ => col
  end.

Abbreviation u8_pod := (uint_pod 1).

Definition load_from_runtime (base_addr : Z) (layout : RuntimeLayout) (mmap : list Z) :
    result (ColumnStorage CompactRecord * ColumnStorage Z) fault :=
  try recs := from_mmap_region record_pod 8 base_addr mmap (records_offset layout) (records_count layout) in
  try nms := from_mmap_region u8_pod 1 base_addr mmap (names_offset layout) (names_len layout) in
  Ok (recs, nms).

(** The columns of [deserialize_compact_into_runtime]: the bytes go through the file. *)
Definition runtime_columns (io : result unit fault) (base_addr : Z) (records_bytes names_bytes : list Z) : result (list CompactRecord * list Z) fault :=
  try layout_file := write_runtime_layout io records_bytes names_bytes in
  let (layout, file) := layout_file in
  try columns := load_from_runtime base_addr layout file in
  Ok (as_slice record_pod columns.1, as_slice u8_pod columns.2).

Definition deserialize_compact_into_runtime (hash : Z -> list Z -> Z) (bloom_n bloom_k : Z) (fold_table : list Z)
    (schedule : list (Z * Z) -> list (Z * Z)) (io : result unit fault) (base_addr : Z) (data : list Z) : result CacheDrive fault :=
  try parsed := parse_compact_body fold_table data in
  assemble_compact_index hash bloom_n bloom_k fold_table schedule parsed (runtime_columns io base_addr).

(** Clearing the low twelve bits. *)
Lemma align_up_spec v : 0 <= v <= U64_MAX - 4095 ->
  exists a, align_up v PAGE_SIZE = Ok a /\ v <= a < v + 4096 /\ a mod 4096 = 0.
Proof.
  intros Hv. unfold align_up, PAGE_SIZE. replace (U64_MAX <? v + (4096 - 1)) with false by lia.
  set (s := v + (4096 - 1)). assert (Hs : 0 <= s < 2 ^ 64) by (unfold s, U64_MAX in *; lia).
  assert (E : Z.land s (U64_MAX - (4096 - 1)) = s / 4096 * 4096).
  { change (U64_MAX - (4096 - 1)) with (Z.land (Z.ones 64) (Z.lnot (Z.ones 12))).
    rewrite Z.land_assoc, Z.land_ones, Z.mod_small by lia.
    rewrite <- Z.ldiff_land, Z.ldiff_ones_r, Z.shiftl_mul_pow2, Z.shiftr_div_pow2 by lia. done. }
  rewrite E. exists (s / 4096 * 4096). unfold s in *.
  pose proof (Z.div_mod (v + (4096 - 1)) 4096 ltac:(lia)). pose proof (Z.mod_pos_bound (v + (4096 - 1)) 4096 ltac:(lia)).
  split; [done |]. split; [lia |]. by apply Z.mod_mul.
Qed.

Lemma get_range_intro_ext {A} (l s : list A) a b :
  0 <= a -> b = a + zlen s -> b <= zlen l -> (forall i, 0 <= i < zlen s -> zget l (a + i) = zget s i) ->
  get_range l a b = Some s.
Proof.
  intros Ha -> Hb H. pose proof (zlen_nonneg s). pose proof (get_range_intro l a (a + zlen s) ltac:(lia) Hb) as E.
  rewrite E. f_equal. pose proof (get_range_len _ _ _ _ E) as El. apply zget_ext; [lia |]. intros i Hi.
  rewrite (zget_get_range _ _ _ _ _ E) by lia. apply H. lia.
Qed.

Lemma from_pod_bytes_u8 bs : from_pod_bytes u8_pod (length bs) bs = bs.
Proof.
  induction bs as [|b bs IH]; [done |]. cbn [length from_pod_bytes pod_size uint_pod drop take]. rewrite drop_0, IH.
  f_equal. change (b + 256 * 0 = b). lia.
Qed.

(** A region in range of a page-aligned map. *)
Lemma from_mmap_region_ok {A} (P : Pod A) alignment base mmap off n :
  0 < alignment -> 4096 mod alignment = 0 -> base mod 4096 = 0 -> off mod 4096 = 0 -> 0 <= base -> 0 <= off -> 0 <= n ->
  off + n * Z.of_nat (pod_size P) <= zlen mmap -> zlen mmap <= U64_MAX -> base + off < 2 ^ 64 ->
  from_mmap_region P alignment base mmap off n = Ok (ColMmap mmap off n).
Proof.
  intros Ha Hp Hb Ho Hb0 Ho0 Hn He Hm Hs. unfold from_mmap_region.
  replace (U64_MAX <? n * _) with false by lia. replace (U64_MAX <? off + _) with false by lia.
  replace (zlen mmap <? off + _) with false by lia. rewrite u64_small by lia.
  replace ((base + off) mod alignment) with 0; [done |]. symmetry.
  apply Z.mod_divide in Hp, Hb, Ho; [|lia..]. apply Z.mod_divide; [lia |].
  apply Z.divide_add_r; (eapply Z.divide_trans; [exact Hp | done]).
Qed.

(** The columns read back through the runtime file are those of the heap. *)
Lemma runtime_columns_heap base records_bytes names_bytes n :
  zlen records_bytes = n * 88 -> base mod 4096 = 0 -> 0 <= base ->
  base + zlen records_bytes + zlen names_bytes + 8192 <= U64_MAX ->
  runtime_columns (Ok tt) base records_bytes names_bytes = heap_columns records_bytes names_bytes.
Proof.
  intros Hr Hb Hb0 Hlen. pose proof (zlen_nonneg records_bytes). pose proof (zlen_nonneg names_bytes).
  unfold runtime_columns, write_runtime_layout. rewrite !Z.add_0_l. replace (U64_MAX <? zlen records_bytes) with false by lia.
  destruct (align_up_spec (zlen records_bytes)) as (no & -> & Hno & Hnm); [lia |].
  replace (U64_MAX <? no + zlen names_bytes) with false by lia.
  destruct (align_up_spec (no + zlen names_bytes)) as (tl & -> & Htl & _); [lia |].
  unfold RECORD_BYTES. rewrite Hr, Z.div_mul by lia. unfold saturating_mul_u64. rewrite Z.min_r, Z.eqb_refl by lia. cbn [negb].
  set (file := put_range _ no names_bytes). unfold load_from_runtime. cbn [records_offset records_count names_offset names_len].
  assert (Hf0 : zlen (zrepeat 0 tl) = tl) by (apply zlen_zrepeat; lia).
  assert (Hf1 : zlen (put_range (zrepeat 0 tl) 0 records_bytes) = tl) by (rewrite zlen_put_range; lia).
  assert (Hf : zlen file = tl) by (unfold file; rewrite zlen_put_range; lia).
  rewrite (from_mmap_region_ok record_pod) by (try done; cbn [pod_size record_pod]; unfold U64_MAX in *; lia).
  rewrite (from_mmap_region_ok u8_pod) by (try done; cbn [pod_size uint_pod]; unfold U64_MAX in *; lia).
  cbn [fst snd as_slice pod_size record_pod uint_pod]. rewrite !Z.add_0_l.
  assert (G1 : get_range file 0 (n * 88) = Some records_bytes).
  { apply get_range_intro_ext; [lia | lia | lia |]. intros i Hi. unfold file.
    rewrite zget_put_range by lia. replace ((no <=? i) && _) with false by lia.
    rewrite zget_put_range by lia. rewrite Z.sub_0_r. by replace ((0 <=? i) && _) with true by lia. }
  assert (G2 : get_range file no (no + zlen names_bytes) = Some names_bytes).
  { apply get_range_intro_ext; [lia | lia | lia |]. intros i Hi. unfold file.
    rewrite zget_put_range by lia. replace ((no <=? no + i) && _) with true by lia. f_equal. lia. }
  change (Z.of_nat 88) with 88. change (Z.of_nat 1) with 1. rewrite Z.mul_1_r, G1, G2. cbn [default from_option].
  unfold heap_columns, aligned_vec_from_bytes. cbn [pod_size record_pod]. change (Z.of_nat 88) with 88.
  rewrite Hr, Z.mod_mul, Z.div_mul by lia. cbn [Z.eqb]. unfold id. by rewrite zlen_to_nat, from_pod_bytes_u8.
Qed.

(** * The file and its pipelines *)

Inductive LoadCacheError :=
| Missing
| StaleByTtl (age_secs ttl_secs : Z)
| StaleVsMft
| StaleByEpoch (cached_epoch current_epoch : Z)
| Io
| KeyUnavailable
| DecryptFailed
| DecompressFailed
| ParseError (f : fault)
| RuntimeTempfile
| Deserialize (f : fault).

Definition is_corruption (e : LoadCacheError) : bool :=
  match e with
  | DecryptFailed | DecompressFailed | ParseError _ | Deserialize _ => true
  | _ => false
  end.

(** What a path of the cache directory names. *)
Inductive Entry :=
| Absent
| RegularFile (bytes : list Z) (mtime : Z)
| Directory (empty : bool) (mtime : Z).

(** The cache file, the last quarantined sample and the time of the index file it was
    built from. *)
Record CacheFs := mkCacheFs { cache_entry : Entry; corrupt_sample : Entry; mft_mtime : option Z }.

(** The outcomes of one call's interactions.  Times are nanoseconds. *)
Record Env (Key : Type) := mkEnv {
  now : Z;
  stat_ok : bool;
  read_ok : bool;
  cache_key : option Key;
  tempfile_ok : bool;
  runtime_io : result unit fault;
  mmap_base : Z;
  rename_ok : bool;
  remove_ok : bool;
  secure_dir : result unit fault;
  atomic_io : result unit fault;
  kdf_id : Z;
  nonce : list Z
}.
Arguments now {Key}.
Arguments stat_ok {Key}.
Arguments read_ok {Key}.
Arguments cache_key {Key}.
Arguments tempfile_ok {Key}.
Arguments runtime_io {Key}.
Arguments mmap_base {Key}.
Arguments rename_ok {Key}.
Arguments remove_ok {Key}.
Arguments secure_dir {Key}.
Arguments atomic_io {Key}.
Arguments kdf_id {Key}.
Arguments nonce {Key}.

Definition entry_mtime (e : Entry) : option Z :=
  match e with Absent => None | RegularFile _ t => Some t | Directory _ t => Some t end.

(** [fs::remove_file]: a directory stays. *)
Definition remove_file (ok : bool) (e : Entry) : Entry :=
  match e with RegularFile _ _ => if ok then Absent else e | _ => e end.

Definition ZSTD_MAGIC : list Z := [0x28; 0xB5; 0x2F; 0xFD].

Section pipeline.
Context {Key : Type}.
Context (seal : Key -> list Z -> list Z -> list Z -> option (list Z * list Z))
  (unseal : Key -> list Z -> list Z -> list Z -> list Z -> option (list Z)).
(** zstd, on whole streams. *)
Context (zstd_encode : list Z -> list Z) (zstd_decode : list Z -> option (list Z)).
Context (hash : Z -> list Z -> Z) (bloom_n bloom_k : Z) (fold_table : list Z) (schedule : list (Z * Z) -> list (Z * Z)).
Abbreviation Env := (Env Key).

(** ** Saving *)

(** A directory left at the path by an early release; only an empty one is removed. *)
Definition purge_legacy_compact_cache_dir (env : Env) (e : Entry) : result Entry fault :=
  match e with
  | Absent | RegularFile _ _ => Ok e
  | Directory true _ => if remove_ok env then Ok Absent else Err (Fail "remove_dir")
  | Directory false _ => Err (Fail "directory not empty")
  end.

(** The temporary file replaces the target or nothing changes. *)
Definition atomic_write (env : Env) (data : list Z) (e : Entry) : result Entry fault :=
  try _ := atomic_io env in
  match e with
  | Directory _ _ => Err (Fail "is a directory")
  | Absent | RegularFile _ _ => Ok (RegularFile data (now env))
  end.

(** The zstd encoder as a writer: what it was given. *)
Definition Encoder := list Z.
#[local] Instance encoder_write : Write Encoder.
Proof.
  refine {| write_all := fun w s => Ok (w ++ s); flush := fun w => Ok w; contents := fun w => w |}.
  - by intros w s w' [= <-].
  - by intros w w' [= <-].
Defined.

(** Compression, the key, encryption and the write. *)
Definition compress_encrypt_write_streaming (env : Env) (write_fn : Encoder -> result Encoder fault) (e : Entry) : result Entry fault :=
  try encoder := write_fn [] in
  let compressed := zstd_encode encoder in
  try key := or_fail "key unavailable" (cache_key env) in
  try encrypted := encrypt_cache seal (kdf_id env) (nonce env) compressed key in
  atomic_write env encrypted e.

Definition with_entry (fs : CacheFs) (e : Entry) : CacheFs := mkCacheFs e (corrupt_sample fs) (mft_mtime fs).

(** The file system after the save, and its result. *)
Definition save_compact_cache (env : Env) (fs : CacheFs) (d : CacheDrive) : CacheFs * result unit fault :=
  match secure_dir env with
  | Err e => (fs, Err e)
  | Ok _ =>
      match purge_legacy_compact_cache_dir env (cache_entry fs) with
      | Err e => (fs, Err e)
      | Ok purged =>
          let fs := with_entry fs purged in
          match compress_encrypt_write_streaming env (serialize_compact_to_writer hash bloom_n bloom_k d) purged with
          | Err e => (fs, Err e)
          | Ok written => (with_entry fs written, Ok tt)
          end
      end
  end.

(** The background thread. *)
Definition encrypt_and_write (env : Env) (fs : CacheFs) (compressed : list Z) : CacheFs * result unit fault :=
  match cache_key env with
  | None => (fs, Err (Fail "cache key unavailable"))
  | Some key =>
      match encrypt_cache seal (kdf_id env) (nonce env) compressed key with
      | Err e => (fs, Err e)
      | Ok encrypted =>
          match purge_legacy_compact_cache_dir env (cache_entry fs) with
          | Err e => (fs, Err e)
          | Ok purged =>
              let fs := with_entry fs purged in
              match atomic_write env encrypted purged with
              | Err e => (fs, Err e)
              | Ok written => (with_entry fs written, Ok tt)
              end
          end
      end
  end.

(** A drive with an overlay is refused; otherwise the bytes the background thread is
    given. *)
Definition save_compact_cache_background (env : Env) (d : CacheDrive) : result (list Z) fault :=
  match delta (cd_index d) with
  | Some _ => Err (Fail "refusing to persist a delta-carrying compact index")
  | None =>
      try encoder := serialize_compact_to_writer hash bloom_n bloom_k d ([] : Encoder) in
      let compressed := zstd_encode encoder in
      try _ := secure_dir env in
      Ok compressed
  end.

(** ** Loading *)

Definition check_compact_cache_freshness (env : Env) (fs : CacheFs) (ttl_seconds : Z) (trust_ttl_only : bool) : result unit LoadCacheError :=
  if negb (stat_ok env) then Err Io else
  match entry_mtime (cache_entry fs) with
  | None => Err Missing
  | Some compact_mtime =>
      let age_secs := Z.max 0 (now env - compact_mtime) / 10 ^ 9 in
      if ttl_seconds <? age_secs then Err (StaleByTtl age_secs ttl_seconds) else
      if trust_ttl_only then Ok tt else
      match mft_mtime fs with
      | Some mft => if compact_mtime <? mft then Err StaleVsMft else Ok tt
      | None => Ok tt
      end
  end.

(** Read, decrypt, decompress. *)
Definition read_decompressed_plaintext (env : Env) (fs : CacheFs) : result (list Z) LoadCacheError :=
  match cache_entry fs with
  | RegularFile raw _ =>
      if negb (read_ok env) then Err Io else
      match cache_key env with
      | None => Err KeyUnavailable
      | Some key =>
          match decrypt_cache unseal raw key with
          | Err _ => Err DecryptFailed
          | Ok decrypted =>
              if bool_decide (get_range decrypted 0 4 = Some ZSTD_MAGIC) then
                match zstd_decode decrypted with Some plaintext => Ok plaintext | None => Err DecompressFailed end
              else Ok decrypted
          end
      end
  | _ => Err Io
  end.

(** The early check of the header. *)
Definition check_epoch (plaintext : list Z) (mft_build_epoch : Z) : result unit LoadCacheError :=
  if 0 <? mft_build_epoch then
    match parse_compact_header plaintext with
    | Err f => Err (ParseError f)
    | Ok (source_epoch, _, _) =>
        if source_epoch <? mft_build_epoch then Err (StaleByEpoch source_epoch mft_build_epoch) else Ok tt
    end
  else Ok tt.

Definition load_compact_cache_at (env : Env) (fs : CacheFs) (ttl_seconds mft_build_epoch : Z) (trust_ttl_only : bool) : result CacheDrive LoadCacheError :=
  try _ := check_compact_cache_freshness env fs ttl_seconds trust_ttl_only in
  try plaintext := read_decompressed_plaintext env fs in
  try _ := check_epoch plaintext mft_build_epoch in
  if negb (tempfile_ok env) then Err RuntimeTempfile else
  match deserialize_compact_into_runtime hash bloom_n bloom_k fold_table schedule (runtime_io env) (mmap_base env) plaintext with
  | Ok d => Ok d
  | Err f => Err (Deserialize f)
  end.

(** The file becomes the sample; failing that, it is deleted. *)
Definition quarantine_corrupt_cache (env : Env) (fs : CacheFs) : CacheFs :=
  let sample := remove_file (remove_ok env) (corrupt_sample fs) in
  if rename_ok env then mkCacheFs Absent (cache_entry fs) (mft_mtime fs)
  else mkCacheFs (remove_file (remove_ok env) (cache_entry fs)) sample (mft_mtime fs).

Definition load_compact_cache (env : Env) (fs : CacheFs) (ttl_seconds mft_build_epoch : Z) (trust_ttl_only : bool) : CacheFs * result CacheDrive LoadCacheError :=
  let result := load_compact_cache_at env fs ttl_seconds mft_build_epoch trust_ttl_only in
  match result with
  | Err err => if is_corruption err then (quarantine_corrupt_cache env fs, result) else (fs, result)
  | Ok _ => (fs, result)
  end.

(** A malformed header is not stale here: the parse that follows reports it. *)
Definition is_compact_cache_stale_for_epoch (plaintext : list Z) (mft_build_epoch : Z) : bool :=
  if mft_build_epoch =? 0 then false else
  match parse_compact_header plaintext with
  | Err _ => false
  | Ok (source_epoch, _, _) => negb (mft_build_epoch <=? source_epoch)
  end.

Definition load_parked_body (env : Env) (fs : CacheFs) (ttl_seconds mft_build_epoch : Z) (trust_ttl_only : bool) : CacheFs * option ParkedBody :=
  match check_compact_cache_freshness env fs ttl_seconds trust_ttl_only with
  | Err _ => (fs, None)
  | Ok _ =>
      match read_decompressed_plaintext env fs with
      | Err err => if is_corruption err then (quarantine_corrupt_cache env fs, None) else (fs, None)
      | Ok plaintext =>
          if is_compact_cache_stale_for_epoch plaintext mft_build_epoch then (fs, None) else
          match deserialize_parked_body fold_table plaintext with
          | Err _ => (quarantine_corrupt_cache env fs, None)
          | Ok body => (fs, Some body)
          end
      end
  end.

Definition INDEX_TTL_SECONDS : Z := 14400.

Definition try_load_for_ensure (env : Env) (fs : CacheFs) (build_epoch : Z) : CacheFs * option CacheDrive :=
  match load_compact_cache env fs INDEX_TTL_SECONDS build_epoch false with
  | (fs, Ok cached) => (fs, Some cached)
  | (fs, Err _) => (fs, None)
  end.

(** [built] is the drive made from the index of the volume. *)
Definition ensure_compact_cached (env : Env) (fs : CacheFs) (build_epoch : Z) (built : CacheDrive) : CacheFs * CacheDrive :=
  match try_load_for_ensure env fs build_epoch with
  | (fs, Some cached) => (fs, cached)
  | (fs, None) => ((save_compact_cache env fs built).1, built)
  end.

End pipeline.

(** * Theorems *)

(** The streaming serializer gives the writer exactly the bytes of the buffered one,
    when it succeeds. *)
Theorem streaming_same_bytes {W} `{Write W} hash n k d (w w' : W) :
  serialize_compact_to_writer hash n k d w = Ok w' ->
  exists data, serialize_compact hash n k d = Some data /\ contents w' = contents w ++ data.
Proof. apply serialize_to_writer_ok. Qed.

(** Loading through the runtime file and the map gives the drive, or the error, that
    loading onto the heap does, on any bytes, when the I/O succeeds. *)
Theorem runtime_load_exact hash n k fold_table schedule base data :
  base mod 4096 = 0 -> 0 <= base -> base + zlen data + zlen data + 8192 <= U64_MAX ->
  deserialize_compact_into_runtime hash n k fold_table schedule (Ok tt) base data = deserialize_compact hash n k fold_table schedule data.
Proof.
  intros Hb Hb0 Hd. unfold deserialize_compact_into_runtime, deserialize_compact.
  destruct (parse_compact_body fold_table data) as [p |] eqn:E; [|done].
  destruct (parse_body_parts _ _ _ E) as (v & rc & csr & tri & after & b & t & at_ & _ & _ & Hz & _).
  destruct (parse_body_slices _ _ _ E) as [Hr Hn]. unfold assemble_compact_index.
  by rewrite (runtime_columns_heap base _ _ rc) by (done || lia).
Qed.

Section pipeline_theorems.
Context {Key : Type}.
Context (seal : Key -> list Z -> list Z -> list Z -> option (list Z * list Z))
  (unseal : Key -> list Z -> list Z -> list Z -> list Z -> option (list Z)).
Context (zstd_encode : list Z -> list Z) (zstd_decode : list Z -> option (list Z)).
Context (hash : Z -> list Z -> Z) (bloom_n bloom_k : Z) (fold_table : list Z) (schedule : list (Z * Z) -> list (Z * Z)).
Abbreviation Env := (Env Key).
Abbreviation save := (save_compact_cache seal zstd_encode hash bloom_n bloom_k).
Abbreviation load := (load_compact_cache unseal zstd_decode hash bloom_n bloom_k fold_table schedule).
Abbreviation load_parked := (load_parked_body unseal zstd_decode fold_table).

(** What is relied on of the libraries: AES-GCM and zstd are inverted by their inverses,
    and a zstd stream begins with the frame magic. *)
Record libraries_ok : Prop := {
  lib_gcm : gcm_ok seal unseal;
  lib_zstd x : zstd_decode (zstd_encode x) = Some x;
  lib_magic x : get_range (zstd_encode x) 0 4 = Some ZSTD_MAGIC
}.

Definition compressed_fits (d : CacheDrive) (b : Bloom) : Prop := zlen (zstd_encode (file_of COMPACT_VERSION d b)) < 2 ^ 63.

(** A load of a file written at [saved] finds it fresh and has its key. *)
Record can_load (key : option Key) (saved : Z) (env : Env) (fs : CacheFs) (ttl : Z) (trust : bool) : Prop := {
  cl_stat : stat_ok env = true;
  cl_read : read_ok env = true;
  cl_key : cache_key env = key;
  cl_age : Z.max 0 (now env - saved) / 10 ^ 9 <= ttl;
  cl_mft : trust = true \/ forall t, mft_mtime fs = Some t -> t <= saved
}.

Lemma fresh_entry key saved env fs ttl trust bytes :
  can_load key saved env fs ttl trust -> cache_entry fs = RegularFile bytes saved ->
  check_compact_cache_freshness env fs ttl trust = Ok tt.
Proof.
  intros [Hs _ _ Ha Hm] He. unfold check_compact_cache_freshness. rewrite Hs, He. cbn [negb entry_mtime].
  replace (ttl <? _) with false by lia. destruct trust; [done |]. destruct (mft_mtime fs) as [t |]; [|done].
  destruct Hm as [| Hm]; [done |]. specialize (Hm t eq_refl). by replace (saved <? t) with false by lia.
Qed.

(** What a successful save leaves. *)
Lemma saved_file env fs d b fs' :
  libraries_ok -> compressed_fits d b -> zlen (nonce env) = 12 -> bloom_section hash bloom_n bloom_k d = Some b ->
  save env fs d = (fs', Ok tt) ->
  exists key raw, cache_key env = Some key /\ cache_entry fs' = RegularFile raw (now env) /\ mft_mtime fs' = mft_mtime fs /\
    decrypt_cache unseal raw key = Ok (zstd_encode (file_of COMPACT_VERSION d b)).
Proof.
  intros Hlib Hfit Hn Hb H. unfold save_compact_cache in H. destruct (secure_dir env); [|done].
  destruct (purge_legacy_compact_cache_dir env (cache_entry fs)) as [purged |]; [|done].
  destruct (compress_encrypt_write_streaming _ _ _ _ _) as [written |] eqn:Ec; [|done]. injection H as <-.
  unfold compress_encrypt_write_streaming in Ec.
  destruct (serialize_compact_to_writer _ _ _ _ _) as [encoder |] eqn:Es; [|done].
  apply serialize_to_writer_ok in Es as (data & Hd & Hc). cbn in Hc. subst encoder.
  rewrite (serialize_file _ _ _ _ _ Hb) in Hd. injection Hd as <-.
  destruct (cache_key env) as [key |] eqn:Ek; cbn [or_fail] in Ec; [|done].
  destruct (encrypt_cache seal _ _ _ key) as [raw |] eqn:Ee; [|done].
  pose proof (decrypt_encrypt _ _ _ _ _ _ _ (lib_gcm Hlib) Hn Hfit Ee) as Hdec.
  exists key, raw. unfold atomic_write in Ec. destruct (atomic_io env); [|done].
  destruct purged; try done; by injection Ec as <-.
Qed.

Lemma read_saved env fs key raw t x :
  libraries_ok -> cache_entry fs = RegularFile raw t -> read_ok env = true -> cache_key env = Some key ->
  decrypt_cache unseal raw key = Ok (zstd_encode x) -> read_decompressed_plaintext unseal zstd_decode env fs = Ok x.
Proof.
  intros Hlib He Hr Hk Hd. unfold read_decompressed_plaintext. rewrite He, Hr, Hk, Hd. cbn [negb].
  rewrite (lib_magic Hlib), bool_decide_eq_true_2 by done. by rewrite (lib_zstd Hlib).
Qed.

Lemma saved_epoch d b epoch : drive_stored d b -> epoch <= cd_source_epoch d ->
  check_epoch (file_of COMPACT_VERSION d b) epoch = Ok tt /\ is_compact_cache_stale_for_epoch (file_of COMPACT_VERSION d b) epoch = false.
Proof.
  intros Hst He. destruct (file_sections COMPACT_VERSION d b Hst) as (Hh & _).
  destruct (parse_header_has _ COMPACT_VERSION d Hh ltac:(unfold COMPACT_VERSION; lia) (st_epoch _ _ Hst)) as [Eh _].
  unfold check_epoch, is_compact_cache_stale_for_epoch. rewrite Eh.
  replace (cd_source_epoch d <? epoch) with false by lia. replace (epoch <=? cd_source_epoch d) with true by lia.
  by destruct (0 <? epoch), (epoch =? 0).
Qed.

(** The size of the file of a storable drive. *)
Lemma runtime_columns_stored d b base : drive_stored d b -> base mod 4096 = 0 -> 0 <= base < 2 ^ 63 ->
  runtime_columns (Ok tt) base (records_bytes (parsed_of fold_table d b)) (names_bytes (parsed_of fold_table d b)) =
  heap_columns (records_bytes (parsed_of fold_table d b)) (names_bytes (parsed_of fold_table d b)).
Proof.
  intros Hst Hb Hb0. destruct (st_lengths _ _ Hst). cbn [records_bytes names_bytes parsed_of].
  pose proof (zlen_cast_slice record_pod (records (cd_index d))) as Hl. cbn [pod_size record_pod] in Hl.
  apply (runtime_columns_heap base _ _ (zlen (records (cd_index d)))); [exact Hl | done | lia | unfold U64_MAX; lia].
Qed.

(** C13: a drive that is saved is loaded back, by the full and by the parked loader, while the
    file is fresh, from the epoch of the index or a later one, and with the same key; the
    file stays. *)
Theorem save_then_load env fs d b fs' env' ttl epoch trust :
  libraries_ok -> compressed_fits d b -> zlen (nonce env) = 12 -> bloom_section hash bloom_n bloom_k d = Some b -> drive_stored d b ->
  save env fs d = (fs', Ok tt) ->
  can_load (cache_key env) (now env) env' fs' ttl trust -> epoch <= cd_source_epoch d ->
  tempfile_ok env' = true -> runtime_io env' = Ok tt -> mmap_base env' mod 4096 = 0 -> 0 <= mmap_base env' < 2 ^ 63 ->
  load env' fs' ttl epoch trust = (fs', Ok (reloaded fold_table schedule d b)) /\
  load_parked env' fs' ttl epoch trust = (fs', Some (mkParkedBody (cd_source_epoch d) b (trie_section d) fold_table)).
Proof.
  intros Hlib Hfit Hn Hb Hst Hs Hl He Ht Hio Hbase Hb0.
  destruct (saved_file _ _ _ _ _ Hlib Hfit Hn Hb Hs) as (key & raw & Hk & Hent & _ & Hdec).
  assert (Hv : 11 <= COMPACT_VERSION <= 13) by (unfold COMPACT_VERSION; lia).
  pose proof (fresh_entry _ _ _ _ _ _ _ Hl Hent) as Hf. destruct Hl as [_ Hr Hck _ _].
  pose proof (read_saved _ _ _ _ _ _ Hlib Hent Hr (eq_trans Hck Hk) Hdec) as Hp.
  destruct (saved_epoch d b epoch Hst He) as [Ee Es]. split.
  - unfold load_compact_cache, load_compact_cache_at. rewrite Hf, Hp, Ee, Ht, Hio. cbn [negb].
    unfold deserialize_compact_into_runtime. rewrite parse_body_roundtrip by done.
    unfold assemble_compact_index. rewrite runtime_columns_stored by done.
    pose proof (assemble_parsed hash bloom_n bloom_k fold_table schedule d b (st_records _ _ Hst)) as Ha.
    unfold assemble_compact_index in Ha. by rewrite Ha.
  - unfold load_parked_body. rewrite Hf, Hp, Es. unfold deserialize_parked_body. rewrite find_filters_offset by done.
    destruct (file_sections COMPACT_VERSION d b Hst) as (_ & _ & _ & _ & _ & _ & _ & _ & _ & Hbl & Htr & _).
    rewrite (read_bloom_has _ _ _ Hbl (st_bloom _ _ Hst)). fold (bloom_stop d b). by rewrite (read_trie_has _ _ _ Htr (st_trie _ _ Hst)).
Qed.

(** A corruption is reported only after the bytes of a file were read. *)
Lemma corruption_has_file env fs ttl epoch trust e :
  load_compact_cache_at unseal zstd_decode hash bloom_n bloom_k fold_table schedule env fs ttl epoch trust = Err e ->
  is_corruption e = true -> exists bytes t, cache_entry fs = RegularFile bytes t.
Proof.
  unfold load_compact_cache_at. intros H He. unfold check_compact_cache_freshness in H.
  destruct (negb (stat_ok env)); [by injection H as <- |].
  destruct (cache_entry fs) as [| bytes t | em t] eqn:E; [by injection H as <- | eauto |]. exfalso. cbn [entry_mtime] in H.
  destruct (ttl <? _); [by injection H as <- |]. unfold read_decompressed_plaintext in H. rewrite E in H.
  destruct trust; [by injection H as <- |]. destruct (mft_mtime fs) as [m |]; [|by injection H as <-].
  destruct (t <? m); by injection H as <-.
Qed.

Lemma quarantine_done (env : Env) fs bytes t :
  cache_entry fs = RegularFile bytes t -> rename_ok env || remove_ok env = true ->
  cache_entry (quarantine_corrupt_cache env fs) = Absent.
Proof. intros Hent Hq. unfold quarantine_corrupt_cache. destruct (rename_ok env); [done |]. cbn in Hq |- *. by rewrite Hq, Hent. Qed.

(** A file that is gone is reported as missing by both loaders, which touch nothing. *)
Lemma absent_is_missing env fs ttl epoch trust :
  cache_entry fs = Absent -> stat_ok env = true ->
  load env fs ttl epoch trust = (fs, Err Missing) /\ load_parked env fs ttl epoch trust = (fs, None).
Proof.
  intros Ha Hs.
  assert (Hm : check_compact_cache_freshness env fs ttl trust = Err Missing)
    by (unfold check_compact_cache_freshness; by rewrite Hs, Ha).
  unfold load_compact_cache, load_compact_cache_at, load_parked_body. by rewrite Hm.
Qed.

(** C36: which failures of a load touch the cache directory, and what becomes of the file.  A
    load that succeeds, or fails because the file is missing, stale, unreadable, without its
    key, or because the runtime file has no place, changes nothing.  A load that fails to
    decrypt, decompress, parse or assemble the file (a runtime file that cannot be written or
    mapped counts as the last, as the next theorem shows) moves it aside when it
    can be renamed, and otherwise removes it when it can be removed; in both cases every later
    load reports that it is missing, so the caller rebuilds it; when it can be neither renamed
    nor removed, nothing changes. *)
Theorem corrupt_cache_heals env fs ttl epoch trust fs' r env' ttl' epoch' trust' :
  load_compact_cache unseal zstd_decode hash bloom_n bloom_k fold_table schedule env fs ttl epoch trust = (fs', r) ->
  match r with
  | Ok _ | Err (Missing | StaleByTtl _ _ | StaleVsMft | StaleByEpoch _ _ | Io | KeyUnavailable | RuntimeTempfile) =>
      fs' = fs
  | Err (DecryptFailed | DecompressFailed | ParseError _ | Deserialize _) =>
      (rename_ok env = true -> fs' = mkCacheFs Absent (cache_entry fs) (mft_mtime fs)) /\
      (rename_ok env = false -> remove_ok env = false -> fs' = fs) /\
      (rename_ok env || remove_ok env = true -> stat_ok env' = true ->
         load env' fs' ttl' epoch' trust' = (fs', Err Missing) /\
         load_parked env' fs' ttl' epoch' trust' = (fs', None))
  end.
Proof.
  intros H. unfold load_compact_cache in H.
  destruct (load_compact_cache_at _ _ _ _ _ _ _ env fs ttl epoch trust) as [d | e] eqn:E; [by injection H as <- <- |].
  assert (Hq : is_corruption e = true -> fs' = quarantine_corrupt_cache env fs -> r = Err e ->
    (rename_ok env = true -> fs' = mkCacheFs Absent (cache_entry fs) (mft_mtime fs)) /\
    (rename_ok env = false -> remove_ok env = false -> fs' = fs) /\
    (rename_ok env || remove_ok env = true -> stat_ok env' = true ->
      load env' fs' ttl' epoch' trust' = (fs', Err Missing) /\ load_parked env' fs' ttl' epoch' trust' = (fs', None))).
  { intros Hc -> _. destruct (corruption_has_file _ _ _ _ _ _ E Hc) as (bytes & t & Hent). split_and!.
    - intros Hr. unfold quarantine_corrupt_cache. by rewrite Hr.
    - intros Hr Hm. unfold quarantine_corrupt_cache. rewrite Hr, Hm. by destruct fs as [[] [] ?].
    - intros Hrm Hs. apply absent_is_missing; [by eapply quarantine_done | done]. }
  destruct e; cbn [is_corruption] in *; injection H as <- <-; auto.
Qed.

(** C40: a failure of the runtime file, a full disk for one, counts as corruption of the cache
    file: the healthy file just saved is moved aside. *)
Theorem runtime_failure_quarantines env fs d b fs' env' ttl epoch trust f :
  libraries_ok -> compressed_fits d b -> zlen (nonce env) = 12 -> bloom_section hash bloom_n bloom_k d = Some b -> drive_stored d b ->
  save env fs d = (fs', Ok tt) ->
  can_load (cache_key env) (now env) env' fs' ttl trust -> epoch <= cd_source_epoch d ->
  tempfile_ok env' = true -> runtime_io env' = Err f -> rename_ok env' = true ->
  load env' fs' ttl epoch trust = (mkCacheFs Absent (cache_entry fs') (mft_mtime fs'), Err (Deserialize f)).
Proof.
  intros Hlib Hfit Hn Hb Hst Hs Hl He Ht Hio Hrn.
  destruct (saved_file _ _ _ _ _ Hlib Hfit Hn Hb Hs) as (key & raw & Hk & Hent & _ & Hdec).
  assert (Hv : 11 <= COMPACT_VERSION <= 13) by (unfold COMPACT_VERSION; lia).
  pose proof (fresh_entry _ _ _ _ _ _ _ Hl Hent) as Hf. destruct Hl as [_ Hr Hck _ _].
  pose proof (read_saved _ _ _ _ _ _ Hlib Hent Hr (eq_trans Hck Hk) Hdec) as Hp.
  destruct (saved_epoch d b epoch Hst He) as [Ee _].
  assert (Hc : runtime_columns (Err f) (mmap_base env') (records_bytes (parsed_of fold_table d b)) (names_bytes (parsed_of fold_table d b)) = Err f).
  { destruct (st_lengths _ _ Hst). cbn [records_bytes names_bytes parsed_of]. pose proof (zlen_cast_slice record_pod (records (cd_index d))) as Hlr.
    cbn [pod_size record_pod] in Hlr. change (Z.of_nat 88) with 88 in Hlr. pose proof (zlen_nonneg (records (cd_index d))). pose proof (zlen_nonneg (names (cd_index d))).
    unfold runtime_columns, write_runtime_layout. rewrite !Z.add_0_l. replace (U64_MAX <? _) with false by (unfold U64_MAX; lia).
    destruct (align_up_spec (zlen (cast_slice record_pod (records (cd_index d))))) as (no & -> & Hno & _); [unfold U64_MAX; lia |].
    replace (U64_MAX <? _) with false by (unfold U64_MAX; lia).
    by destruct (align_up_spec (no + zlen (names (cd_index d)))) as (tl & -> & _); [unfold U64_MAX; lia |]. }
  unfold load_compact_cache, load_compact_cache_at. rewrite Hf, Hp, Ee, Ht, Hio. cbn [negb].
  unfold deserialize_compact_into_runtime. rewrite parse_body_roundtrip by done. unfold assemble_compact_index. rewrite Hc.
  cbn [is_corruption]. unfold quarantine_corrupt_cache. by rewrite Hrn.
Qed.

End pipeline_theorems.

(** * A small file *)

(** Stand-ins for the libraries: no encryption and no compression. *)
Definition plain_seal (key : unit) (nonce aad plaintext : list Z) : option (list Z * list Z) := Some (plaintext, zrepeat 0 16).
Definition plain_unseal (key : unit) (nonce aad ciphertext tag : list Z) : option (list Z) := Some ciphertext.
Definition plain_encode (x : list Z) : list Z := ZSTD_MAGIC ++ x.
Definition plain_decode (x : list Z) : option (list Z) := Some (drop 4 x).

Lemma plain_libraries : libraries_ok plain_seal plain_unseal plain_encode plain_decode.
Proof.
  split.
  - split; [by intros key nonce aad pt ct tag [= <- <-] |]. intros key nonce aad pt ct tag [= <- <-]. split; [reflexivity | by vm_compute].
  - intros x. reflexivity.
  - intros x. unfold plain_encode. rewrite get_range_app_l by (by vm_compute). by vm_compute.
Qed.

Definition small_env (io : result unit fault) : Env unit :=
  mkEnv unit (10 ^ 18) true true (Some tt) true io 4096 true true (Ok tt) (Ok tt) 3 (zrepeat 7 12).
Definition no_file : CacheFs := mkCacheFs Absent Absent None.
Definition small_hash (_ : Z) (_ : list Z) : Z := 5.
Definition small_fs : CacheFs := (save_compact_cache plain_seal plain_encode small_hash 64 2 (small_env (Ok tt)) no_file small_drive).1.

Lemma small_saved : save_compact_cache plain_seal plain_encode small_hash 64 2 (small_env (Ok tt)) no_file small_drive = (small_fs, Ok tt).
Proof. by vm_compute. Qed.

Lemma small_can_load io : can_load (Some tt) (10 ^ 18) (small_env io) small_fs 3600 false.
Proof.
  assert (Hm : mft_mtime small_fs = None) by (vm_compute; reflexivity).
  split; [reflexivity | reflexivity | reflexivity | vm_compute; discriminate | right]. intros t Ht. rewrite Hm in Ht. discriminate Ht.
Qed.

Lemma small_fits : compressed_fits plain_encode small_drive small_bloom.
Proof. by vm_compute. Qed.

Lemma save_then_load_witness :
  load_compact_cache plain_unseal plain_decode small_hash 64 2 [] (@rev _) (small_env (Ok tt)) small_fs 3600 1000 false
  = (small_fs, Ok (reloaded [] (@rev _) small_drive small_bloom)).
Proof.
  destruct (save_then_load plain_seal plain_unseal plain_encode plain_decode small_hash 64 2 [] (@rev _)
    (small_env (Ok tt)) no_file small_drive small_bloom small_fs (small_env (Ok tt)) 3600 1000 false) as [H _].
  - exact plain_libraries.
  - exact small_fits.
  - reflexivity.
  - by vm_compute.
  - exact small_stored.
  - exact small_saved.
  - exact (small_can_load (Ok tt)).
  - by vm_compute.
  - reflexivity.
  - reflexivity.
  - reflexivity.
  - by vm_compute.
  - exact H.
Defined.

Lemma runtime_failure_quarantines_witness :
  load_compact_cache plain_unseal plain_decode small_hash 64 2 [] (@rev _) (small_env (Err (Fail "disk full"))) small_fs 3600 1000 false
  = (mkCacheFs Absent (cache_entry small_fs) None, Err (Deserialize (Fail "disk full"))).
Proof.
  apply (runtime_failure_quarantines plain_seal plain_unseal plain_encode plain_decode small_hash 64 2 [] (@rev _)
    (small_env (Ok tt)) no_file small_drive small_bloom small_fs (small_env (Err (Fail "disk full"))) 3600 1000 false (Fail "disk full")).
  - exact plain_libraries.
  - exact small_fits.
  - reflexivity.
  - by vm_compute.
  - exact small_stored.
  - exact small_saved.
  - exact (small_can_load (Err (Fail "disk full"))).
  - by vm_compute.
  - reflexivity.
  - reflexivity.
  - reflexivity.
Defined.

(** A file too short to be an envelope is moved aside; then it is missing. *)
Lemma corrupt_cache_heals_witness :
  let fs := mkCacheFs (RegularFile [1; 2; 3] (10 ^ 18)) Absent None in
  let fs' := mkCacheFs Absent (cache_entry fs) None in
  load_compact_cache plain_unseal plain_decode small_hash 64 2 [] (@rev _) (small_env (Ok tt)) fs' 3600 0 true = (fs', Err Missing).
Proof.
  cbv zeta.
  destruct (corrupt_cache_heals plain_unseal plain_decode small_hash 64 2 [] (@rev _) (small_env (Ok tt))
    (mkCacheFs (RegularFile [1; 2; 3] (10 ^ 18)) Absent None) 3600 0 true
    (mkCacheFs Absent (RegularFile [1; 2; 3] (10 ^ 18)) None) (Err DecryptFailed) (small_env (Ok tt)) 3600 0 true) as (_ & _ & H).
  - by vm_compute.
  - apply H; reflexivity.
Defined.

Lemma runtime_load_exact_witness :
  deserialize_compact_into_runtime small_hash 64 2 [] (@rev _) (Ok tt) 4096 (file_of COMPACT_VERSION small_drive small_bloom) =
  deserialize_compact small_hash 64 2 [] (@rev _) (file_of COMPACT_VERSION small_drive small_bloom).
Proof. apply runtime_load_exact; [reflexivity | by vm_compute | by vm_compute]. Defined.

(** A writer that never fails. *)
#[local] Instance list_write : Write (list Z).
Proof.
  refine {| write_all := fun w s => Ok (w ++ s); flush := fun w => Ok w; contents := fun w => w |}.
  - by intros w s w' [= <-].
  - by intros w w' [= <-].
Defined.

Lemma streaming_same_bytes_witness :
  exists data, serialize_compact small_hash 64 2 small_drive = Some data /\
    contents (file_of COMPACT_VERSION small_drive small_bloom) = contents ([] : list Z) ++ data.
Proof.
  apply (streaming_same_bytes small_hash 64 2 small_drive ([] : list Z) (file_of COMPACT_VERSION small_drive small_bloom)).
  by vm_compute.
Defined.
