(* ===== verification/Fields.v ===== *)
(** The fields of a search: [FieldId] and its metadata table
    ([crates/uffs-core/src/search/field/mod.rs], [field/field_metadata.rs]), shared by
    filters, sorts and projections. *)
From S2P Require Import Prelude Text CaseFold Calendar Glob CsrIndex TrigramIndex IndexDelta Bloom CompactIndex PathLen UsnBatch UsnPatch Filters.
From stdpp Require Import strings.
Local Open Scope Z_scope.

(** * Fields *)

Inductive FieldId :=
| Drive | Path | Name | PathOnly | Size | SizeOnDisk | Created | Modified | Accessed | Extension | Type'
| Attributes | AttributeValue | Hidden | System | Archive | ReadOnly | Compressed | Encrypted | Sparse
| Reparse | Offline | NotIndexed | Temporary | Virtual | Pinned | Unpinned | Descendants | TreeSize
| TreeAllocated | Bulkiness | Integrity | NoScrub | DirectoryFlag | RecallOnOpen | RecallOnDataAccess
| ParityAttributes | NameLength | PathLength | Malformed | MalformedPath | NameHex.

#[export] Instance FieldId_eq_dec : EqDecision FieldId.
Proof. solve_decision. Defined.

Inductive Cardinality := Fixed | Low | Medium | High | Unbounded.
Inductive FieldType := String' | Numeric | Timestamp | Bool | Enum | Bitmask.
Inductive FieldAccess := Hot | Derived | Cold.
Inductive SortDirection := Ascending | Descending.

#[export] Instance SortDirection_eq_dec : EqDecision SortDirection.
Proof. solve_decision. Defined.

Record AggregateMeta := mkAggregateMeta {
  aggregatable : bool; groupable : bool; bucket_support : bool; cardinality : Cardinality; default_top : Z
}.

(** Strings are their bytes. *)
Record FieldMeta := mkFieldMeta {
  meta_id : FieldId; meta_canonical_name : list Z; aliases : list (list Z); field_type : FieldType; access : FieldAccess;
  sortable : bool; meta_default_sort_direction : option SortDirection; filterable : bool; projectable : bool;
  tui_label : list Z; display_name : list Z; df_column : list Z; default_value : list Z; aggregate : AggregateMeta
}.

(** [FieldMeta { .. }], with string literals. *)
Definition field_meta (f : FieldId) (canonical : string) (names : list string) (kind : FieldType) (tier : FieldAccess)
    (sorts : bool) (direction : option SortDirection) (filters projects : bool) (label display column missing : string)
    (agg : AggregateMeta) : FieldMeta :=
  mkFieldMeta f (bytes_of canonical) (map bytes_of names) kind tier sorts direction filters projects (bytes_of label)
    (bytes_of display) (bytes_of column) (bytes_of missing) agg.

(** [FieldId::metadata]. *)
Definition metadata (f : FieldId) : FieldMeta :=
  match f with
  | Drive => field_meta Drive "drive" ["drv"] Enum Hot true (Some Ascending) true true "Drv" "Drive" EmptyString
      EmptyString (mkAggregateMeta false true false Fixed 26)
  | Path => field_meta Path "path" [] String' Derived true (Some Ascending) true true "Path" "Path" "path"
      EmptyString (mkAggregateMeta false false false Unbounded 0)
  | Name => field_meta Name "name" [] String' Hot true (Some Ascending) true true "Name" "Name" "name"
      EmptyString (mkAggregateMeta false true false Unbounded 100)
  | PathOnly => field_meta PathOnly "path_only" ["pathonly"; "path only"] String' Derived true (Some Ascending) true true "Dir" "Path Only" "path_only"
      EmptyString (mkAggregateMeta false true false Unbounded 30)
  | Size => field_meta Size "size" [] Numeric Hot true (Some Descending) true true "Size" "Size" "size"
      "0" (mkAggregateMeta true false true Unbounded 0)
  | SizeOnDisk => field_meta SizeOnDisk "size_on_disk" ["sizeondisk"; "size on disk"; "allocated"] Numeric Hot true (Some Descending) true true "OnDisk" "Size on Disk" "allocated_size"
      "0" (mkAggregateMeta true false true Unbounded 0)
  | Created => field_meta Created "created" [] Timestamp Hot true (Some Descending) true true "Created" "Created" "created"
      EmptyString (mkAggregateMeta true false true Unbounded 0)
  | Modified => field_meta Modified "modified" ["written"; "date"] Timestamp Hot true (Some Descending) true true "Modified" "Last Written" "modified"
      EmptyString (mkAggregateMeta true false true Unbounded 0)
  | Accessed => field_meta Accessed "accessed" [] Timestamp Hot true (Some Descending) true true "Accessed" "Last Accessed" "accessed"
      EmptyString (mkAggregateMeta true false true Unbounded 0)
  | Extension => field_meta Extension "extension" ["ext"] String' Derived true (Some Ascending) true true "Ext" "Extension" EmptyString
      EmptyString (mkAggregateMeta false true false Medium 50)
  | Type' => field_meta Type' "type" ["folder"] Enum Derived true (Some Ascending) true true "Type" "Type" "type"
      EmptyString (mkAggregateMeta false true false Low 30)
  | Attributes => field_meta Attributes "attributes" ["attrs"] Bitmask Derived false None false true "Attrs" "Attributes" "flags"
      "0" (mkAggregateMeta false false false Unbounded 0)
  | AttributeValue => field_meta AttributeValue "attribute_value" ["attributevalue"; "attrval"] Bitmask Hot false None true true "AttrVal" "AttributeValue" "flags"
      EmptyString (mkAggregateMeta false false false Unbounded 0)
  | Hidden => field_meta Hidden "hidden" ["h"] Bool Hot true (Some Descending) true true "H" "Hidden" "is_hidden"
      "0" (mkAggregateMeta false true false Fixed 2)
  | System => field_meta System "system" ["s"] Bool Hot true (Some Descending) true true "S" "System" "is_system"
      "0" (mkAggregateMeta false true false Fixed 2)
  | Archive => field_meta Archive "archive" ["a"] Bool Hot true (Some Descending) true true "A" "Archive" "is_archive"
      "0" (mkAggregateMeta false true false Fixed 2)
  | ReadOnly => field_meta ReadOnly "read_only" ["readonly"; "read-only"; "read only"; "r"] Bool Hot true (Some Descending) true true "R" "Read-only" "is_readonly"
      "0" (mkAggregateMeta false true false Fixed 2)
  | Compressed => field_meta Compressed "compressed" [] Bool Hot true (Some Descending) true true "C" "Compressed" "is_compressed"
      "0" (mkAggregateMeta false true false Fixed 2)
  | Encrypted => field_meta Encrypted "encrypted" [] Bool Hot true (Some Descending) true true "E" "Encrypted" "is_encrypted"
      "0" (mkAggregateMeta false true false Fixed 2)
  | Sparse => field_meta Sparse "sparse" [] Bool Hot true (Some Descending) true true "Sp" "Sparse" "is_sparse"
      "0" (mkAggregateMeta false true false Fixed 2)
  | Reparse => field_meta Reparse "reparse" [] Bool Hot true (Some Descending) true true "Rp" "Reparse" "is_reparse"
      "0" (mkAggregateMeta false true false Fixed 2)
  | Offline => field_meta Offline "offline" ["o"] Bool Hot true (Some Descending) true true "O" "Offline" "is_offline"
      "0" (mkAggregateMeta false true false Fixed 2)
  | NotIndexed => field_meta NotIndexed "not_indexed" ["notindexed"; "not indexed"; "notcontent"; "not content indexed"; "not content indexed file"] Bool Hot true (Some Descending) true true "NI" "Not content indexed file" "is_not_indexed"
      "0" (mkAggregateMeta false true false Fixed 2)
  | Temporary => field_meta Temporary "temporary" ["temp"] Bool Hot true (Some Descending) true true "T" "Temporary" "is_temporary"
      "0" (mkAggregateMeta false true false Fixed 2)
  | Virtual => field_meta Virtual "virtual" [] Bool Hot true (Some Descending) true true "V" "Virtual" "is_virtual"
      "0" (mkAggregateMeta false true false Fixed 2)
  | Pinned => field_meta Pinned "pinned" [] Bool Hot true (Some Descending) true true "Pin" "Pinned" "is_pinned"
      "0" (mkAggregateMeta false true false Fixed 2)
  | Unpinned => field_meta Unpinned "unpinned" [] Bool Hot true (Some Descending) true true "Unp" "Unpinned" "is_unpinned"
      "0" (mkAggregateMeta false true false Fixed 2)
  | Descendants => field_meta Descendants "descendants" ["decendents"] Numeric Hot true (Some Descending) true true "Desc" "Descendants" "descendants"
      "0" (mkAggregateMeta true false true Unbounded 0)
  | TreeSize => field_meta TreeSize "tree_size" ["treesize"] Numeric Derived true (Some Descending) true true "TreeSz" "Tree Size" "treesize"
      "0" (mkAggregateMeta true false true Unbounded 0)
  | TreeAllocated => field_meta TreeAllocated "tree_allocated" ["treeallocated"] Numeric Derived true (Some Descending) true true "TreeAl" "Tree Allocated" "tree_allocated"
      "0" (mkAggregateMeta true false true Unbounded 0)
  | Bulkiness => field_meta Bulkiness "bulkiness" [] Numeric Derived true (Some Descending) true true "Bulk" "Bulkiness" "bulkiness"
      "0" (mkAggregateMeta true false true Unbounded 0)
  | Integrity => field_meta Integrity "integrity" [] Bool Hot true (Some Descending) true true "Int" "Integrity" "is_integrity_stream"
      "0" (mkAggregateMeta false true false Fixed 2)
  | NoScrub => field_meta NoScrub "no_scrub" ["noscrub"; "no scrub"; "no scrub file"] Bool Hot true (Some Descending) true true "NS" "No scrub file" "is_no_scrub_data"
      "0" (mkAggregateMeta false true false Fixed 2)
  | DirectoryFlag => field_meta DirectoryFlag "directory_flag" ["directoryflag"; "directory flag"; "directory"; "dir"] Bool Hot true (Some Descending) true true "Dir?" "Directory Flag" "is_directory"
      "0" (mkAggregateMeta false true false Fixed 2)
  | RecallOnOpen => field_meta RecallOnOpen "recall_on_open" ["recallonopen"; "recall on open"] Bool Hot true (Some Descending) true true "RcO" "Recall on open" "is_recall_on_open"
      "0" (mkAggregateMeta false true false Fixed 2)
  | RecallOnDataAccess => field_meta RecallOnDataAccess "recall_on_data_access" ["recallondataaccess"; "recall on data access"] Bool Hot true (Some Descending) true true "RcD" "Recall on data access" "is_recall_on_data_access"
      "0" (mkAggregateMeta false true false Fixed 2)
  | ParityAttributes => field_meta ParityAttributes "parity_attributes" ["parityattributes"] Bitmask Derived false None false true "PAttr" "Attributes" "parity_flags"
      "0" (mkAggregateMeta false false false Unbounded 0)
  | NameLength => field_meta NameLength "name_length" ["namelength"; "name_len"; "namelen"] Numeric Derived true (Some Descending) true true "NLen" "Name Length" EmptyString
      "0" (mkAggregateMeta true false true Unbounded 0)
  | PathLength => field_meta PathLength "path_length" ["pathlength"; "path_len"; "pathlen"] Numeric Derived true (Some Descending) true true "PLen" "Path Length" EmptyString
      "0" (mkAggregateMeta true false true Unbounded 0)
  | Malformed => field_meta Malformed "malformed" ["ill_formed"; "illformed"; "bad_name"] Bool Hot true (Some Descending) true true "Mal" "Malformed" EmptyString
      "0" (mkAggregateMeta false true false Fixed 2)
  | MalformedPath => field_meta MalformedPath "malformed_path" ["malformedpath"; "ill_formed_path"; "bad_path"] Bool Derived true (Some Descending) true true "MalP" "Malformed Path" EmptyString
      "0" (mkAggregateMeta false true false Fixed 2)
  | NameHex => field_meta NameHex "name_hex" ["namehex"; "name_bytes_hex"] String' Hot false None false true "Hex" "Name (hex)" EmptyString
      EmptyString (mkAggregateMeta false false false Unbounded 0)
  end%string.

(** [FieldId::ALL]. *)
Definition ALL : list FieldId := [
  Drive; Path; Name; PathOnly; Size; SizeOnDisk; Created; Modified; Accessed; Extension; Type'; Attributes;
  AttributeValue; Hidden; System; Archive; ReadOnly; Compressed; Encrypted; Sparse; Reparse; Offline;
  NotIndexed; Temporary; Virtual; Pinned; Unpinned; Descendants; TreeSize; TreeAllocated; Bulkiness;
  Integrity; NoScrub; DirectoryFlag; RecallOnOpen; RecallOnDataAccess; ParityAttributes; NameLength;
  PathLength; Malformed; MalformedPath; NameHex].

Definition canonical_name (f : FieldId) : list Z := meta_canonical_name (metadata f).
Definition default_sort_direction (f : FieldId) : option SortDirection := meta_default_sort_direction (metadata f).

(** [FieldId::parse]: the first field with the name or an alias, in any case. *)
Fixpoint parse_from (fields : list FieldId) (name : list Z) : option FieldId :=
  match fields with
  | [] => None
  | field :: fields =>
      if eq_ignore_ascii_case (canonical_name field) name
         || existsb (fun alias => eq_ignore_ascii_case alias name) (aliases (metadata field))
      then Some field else parse_from fields name
  end.

Definition parse (name : list Z) : option FieldId := parse_from ALL name.

Definition is_tree_field (f : FieldId) : bool :=
  match f with Descendants | TreeSize | TreeAllocated | Bulkiness => true | _ => false end.

Definition SORT_CYCLE : list FieldId := [
  Name; Size; SizeOnDisk; Created; Modified; Accessed; Path; Drive; Extension; Type'; Descendants;
  TreeAllocated; Bulkiness].

(** [FieldId::cycle_next], the loop with its flag. *)
Fixpoint cycle_loop (candidates : list FieldId) (found : bool) (f : FieldId) : option FieldId :=
  match candidates with
  | [] => None
  | candidate :: candidates =>
      if found then Some candidate else cycle_loop candidates (bool_decide (candidate = f)) f
  end.

Definition cycle_next (f : FieldId) : FieldId :=
  match cycle_loop SORT_CYCLE false f with
  | Some next => next
  | None => default Name (head SORT_CYCLE)
  end.

(** [FieldId::nearest_sort_field]. *)
Definition nearest_sort_field (f : FieldId) : FieldId :=
  match f with
  | Path | PathOnly => Path
  | Size | TreeSize => Size
  | SizeOnDisk => SizeOnDisk
  | Created => Created
  | Modified => Modified
  | Accessed => Accessed
  | Extension => Extension
  | Type' => Type'
  | Drive => Drive
  | Descendants => Descendants
  | TreeAllocated => TreeAllocated
  | Bulkiness => Bulkiness
  | NameLength => NameLength
  | PathLength => PathLength
  | _ => Name
  end.

(** * Names of fields *)

Definition spellings (f : FieldId) : list (list Z) := canonical_name f :: aliases (metadata f).

Lemma ALL_complete f : f ∈ ALL.
Proof. apply (bool_decide_unpack _). by destruct f. Qed.

(** No spelling names two fields, and none is listed twice. *)
Lemma spellings_distinct : NoDup (ALL ≫= fun f => map (map ascii_lower) (spellings f)).
Proof. apply (bool_decide_unpack _). vm_compute. exact I. Qed.

Lemma spelling_owner fields f g key :
  NoDup (fields ≫= fun f => map (map ascii_lower) (spellings f)) -> f ∈ fields -> g ∈ fields ->
  key ∈ map (map ascii_lower) (spellings f) -> key ∈ map (map ascii_lower) (spellings g) -> f = g.
Proof.
  induction fields as [|h fields IH]; intros Hn Hf Hg Kf Kg; [by apply not_elem_of_nil in Hf |].
  cbn [mbind list_bind] in Hn. apply NoDup_app in Hn as (_ & Hd & Hn).
  assert (Hin : forall x, x ∈ fields -> key ∈ map (map ascii_lower) (spellings x) ->
    key ∈ (fields ≫= fun f => map (map ascii_lower) (spellings f))) by (intros x Hx Kx; apply list_elem_of_bind; eauto).
  apply elem_of_cons in Hf as [-> | Hf]; apply elem_of_cons in Hg as [-> | Hg]; [done | | | by auto].
  - by destruct (Hd key Kf (Hin g Hg Kg)).
  - by destruct (Hd key Kg (Hin f Hf Kf)).
Qed.

Lemma names_field f name :
  eq_ignore_ascii_case (canonical_name f) name || existsb (fun alias => eq_ignore_ascii_case alias name) (aliases (metadata f)) = true
  <-> map ascii_lower name ∈ map (map ascii_lower) (spellings f).
Proof.
  change (existsb (fun s => eq_ignore_ascii_case s name) (spellings f) = true
    <-> map ascii_lower name ∈ map (map ascii_lower) (spellings f)).
  rewrite existsb_exists, list_elem_of_In, in_map_iff. unfold eq_ignore_ascii_case.
  split; intros (s & ? & ?); exists s; case_bool_decide; naive_solver.
Qed.

Lemma parse_from_Some fields name f :
  parse_from fields name = Some f -> f ∈ fields /\ map ascii_lower name ∈ map (map ascii_lower) (spellings f).
Proof.
  induction fields as [|g fields IH]; [done |]. cbn [parse_from].
  destruct (_ || _) eqn:E; [|intros H; destruct (IH H); split; [by apply elem_of_cons; right | done]].
  intros [= <-]. split; [by apply elem_of_cons; left | by apply names_field].
Qed.

Lemma parse_from_None fields name f :
  parse_from fields name = None -> f ∈ fields -> map ascii_lower name ∉ map (map ascii_lower) (spellings f).
Proof.
  induction fields as [|g fields IH]; intros H Hf; [by apply not_elem_of_nil in Hf |]. cbn [parse_from] in H.
  destruct (_ || _) eqn:E; [done |]. apply elem_of_cons in Hf as [-> | Hf]; [|by apply IH].
  rewrite <- names_field. by rewrite E.
Qed.

Lemma parse_spelling f name : map ascii_lower name ∈ map (map ascii_lower) (spellings f) -> parse name = Some f.
Proof.
  intros Hf. unfold parse. destruct (parse_from ALL name) as [g |] eqn:E.
  - apply parse_from_Some in E as [_ Hg]. f_equal.
    eapply spelling_owner; [exact spellings_distinct | apply ALL_complete.. | exact Hg | exact Hf].
  - by destruct (parse_from_None _ _ f E (ALL_complete f)).
Qed.

Lemma parse_canonical f : parse (canonical_name f) = Some f.
Proof. apply parse_spelling. unfold spellings. cbn [map]. by apply elem_of_cons; left. Qed.

(** A name is parsed as a field exactly when it is one of its spellings, in any case:
    the spellings of the table are unambiguous, so the order of [ALL] does not matter. *)
Theorem parse_exact name f :
  parse name = Some f <-> map ascii_lower name ∈ map (map ascii_lower) (spellings f).
Proof.
  split; [|apply parse_spelling]. unfold parse. intros H. exact (proj2 (parse_from_Some _ _ _ H)).
Qed.

(** * The sort cycle *)

(** Cycling goes through the whole list from any field: from a field of the list in its
    order and back, from any other to the first; and every field of the list can be sorted. *)
Theorem cycle_next_exact :
  (forall i, (i < length SORT_CYCLE)%nat ->
     cycle_next (nth i SORT_CYCLE Name) = nth ((i + 1) mod length SORT_CYCLE) SORT_CYCLE Name)
  /\ (forall f, f ∉ SORT_CYCLE -> cycle_next f = Name)
  /\ (forall f, f ∈ SORT_CYCLE -> sortable (metadata f) = true /\ is_Some (default_sort_direction f)).
Proof.
  split; [|split].
  - intros i Hi. cbn in Hi. do 13 (destruct i as [|i]; [reflexivity |]). lia.
  - intros f Hf. destruct f; try reflexivity; exfalso; apply Hf; apply (bool_decide_unpack _); vm_compute; exact I.
  - intros f. revert f. apply Forall_forall. apply (bool_decide_unpack _). by vm_compute.
Qed.

(** The nearest sort field is sortable, and is its own nearest. *)
Theorem nearest_sort_field_sortable f :
  sortable (metadata (nearest_sort_field f)) = true /\ nearest_sort_field (nearest_sort_field f) = nearest_sort_field f.
Proof. by destruct f. Qed.
