(* ===== verification/TopN.v ===== *)
(** Global top-N of a match-all query: [collect_global_top_n_numeric] of
    [crates/uffs-core/src/search/query/numeric_top_n.rs] and [numeric_sort_key.rs], up to
    the candidates whose paths are resolved.

    A [BinaryHeap] is its entries from the greatest down; the order in which it is
    drained, and the order an unstable sort leaves equal keys in, are parameters.  Drives
    are scanned in parallel, each on its own state, and their results concatenated. *)
From S2P Require Import Prelude Text CaseFold Calendar Glob CsrIndex TrigramIndex IndexDelta Bloom CompactIndex PathLen UsnBatch UsnPatch Filters Fields.
Local Open Scope Z_scope.
Local Open Scope rust_scope.

(** * Sort keys *)

(** [i64::from_be_bytes] of the bytes, padded with zeros to the width. *)
Fixpoint be_value (width : nat) (bytes : list Z) : Z :=
  match width with
  | O => 0
  | S width => match bytes with
               | [] => be_value width []
               | b :: bytes => b * 256 ^ Z.of_nat width + be_value width bytes
               end
  end.

(** [folded.to_be_bytes()[1]] of each folded character. *)
Definition key_bytes (table : list Z) (name : list Z) : list Z := map (fun ch => Z.land (fold_char table ch) 0xFF) name.

Definition name_key (table : list Z) (name : list Z) : Z := i64 (be_value 8 (key_bytes table name)).

Definition flag_key (rec : CompactRecord) (mask : Z) : Z := if Z.land (flags rec) mask =? 0 then 0 else 1.

Definition count_key (n : Z) : Z := if n <? 2 ^ 63 then n else 2 ^ 63 - 1.

(** [letter] is the drive's letter byte. *)
Definition extract_sort_key (rec : CompactRecord) (sort_column : FieldId) (drive : DriveCompactIndex) (letter : Z) : Z :=
  let name := name_chars (names drive) rec in
  match sort_column with
  | Size => cast_signed (CsrIndex.size rec)
  | SizeOnDisk => cast_signed (allocated rec)
  | Created => created rec
  | Accessed => accessed rec
  | Descendants => descendants rec
  | TreeAllocated => cast_signed (if is_directory rec then tree_allocated rec else allocated rec)
  | Bulkiness => cast_signed (bulkiness rec)
  | Extension | Type' => extension_id rec
  | Name => name_key (fold drive) name
  | Drive => i64 (be_value 8 (letter :: key_bytes (fold drive) name))
  | TreeSize => cast_signed (if is_directory rec then treesize rec else CsrIndex.size rec)
  | DirectoryFlag => if is_directory rec then 1 else 0
  | Hidden => flag_key rec 0x2
  | System => flag_key rec 0x4
  | ReadOnly => flag_key rec 0x1
  | Archive => flag_key rec 0x20
  | Compressed => flag_key rec 0x800
  | Encrypted => flag_key rec 0x4000
  | Sparse => flag_key rec 0x200
  | Reparse => flag_key rec 0x400
  | Offline => flag_key rec 0x1000
  | NotIndexed => flag_key rec 0x2000
  | Temporary => flag_key rec 0x100
  | Integrity => flag_key rec 0x8000
  | NoScrub => flag_key rec 0x20000
  | Pinned => flag_key rec 0x80000
  | Unpinned => flag_key rec 0x100000
  | RecallOnOpen => flag_key rec 0x40000
  | RecallOnDataAccess => flag_key rec 0x400000
  | Attributes | AttributeValue | ParityAttributes => flags rec
  | Virtual => flag_key rec 0x10000
  | Malformed => if utf8_valid (name_bytes (names drive) rec) then 0 else 1
  | Path | PathOnly | Modified | MalformedPath | NameHex => modified rec
  | NameLength | PathLength => count_key (zlen name)
  end.

(** * The bounded heap *)

Record HeapEntry := mkHeapEntry { sort_key : Z; drive_idx : Z; rec_idx : Z }.

(** [Ord for HeapEntry]: by key, then drive, then record. *)
Definition entry_lt (a b : HeapEntry) : bool :=
  (sort_key a <? sort_key b) ||
  ((sort_key a =? sort_key b) &&
    ((drive_idx a <? drive_idx b) || ((drive_idx a =? drive_idx b) && (rec_idx a <? rec_idx b)))).

(** The order of the heap: [Reverse] for a descending sort. *)
Definition heap_lt (sort_desc : bool) (a b : HeapEntry) : bool := if sort_desc then entry_lt b a else entry_lt a b.

Fixpoint heap_insert (sort_desc : bool) (entry : HeapEntry) (heap : list HeapEntry) : list HeapEntry :=
  match heap with
  | [] => [entry]
  | top :: rest => if heap_lt sort_desc top entry then entry :: heap else top :: heap_insert sort_desc entry rest
  end.

Definition heap_push_capped (sort_desc : bool) (limit : Z) (heap : list HeapEntry) (entry : HeapEntry) : list HeapEntry :=
  if zlen heap <? limit then heap_insert sort_desc entry heap
  else match heap with
       | top :: rest => if heap_lt sort_desc entry top then heap_insert sort_desc entry rest else heap
       | [] => heap
       end.

Record DriveScanCfg := mkDriveScanCfg {
  limit : Z; use_heap : bool; sort_column : FieldId; sort_desc : bool; filter_mode : FilterMode; has_filters : bool
}.

(** [DriveTopN]: the entries of the active heap, or of the fallback. *)
Definition push (cfg : DriveScanCfg) (state : list HeapEntry) (entry : HeapEntry) : list HeapEntry :=
  if use_heap cfg then heap_push_capped (sort_desc cfg) (limit cfg) state entry else state ++ [entry].

Section scan.
Context (to_lowercase : list Z -> list Z) (lower_char : Z -> list Z) (trim : list Z -> list Z).
(** [BinaryHeap::into_iter]. *)
Context (heap_iter : list HeapEntry -> list HeapEntry).

Definition drain (cfg : DriveScanCfg) (state : list HeapEntry) : list HeapEntry :=
  if use_heap cfg then heap_iter state else state.

Section drive.
Context (drive_idx : Z) (drive : DriveCompactIndex) (letter : Z) (filters : SearchFilters) (cfg : DriveScanCfg).

Definition heap_entry_for (rec_idx : Z) (rec : CompactRecord) : HeapEntry :=
  mkHeapEntry (extract_sort_key rec (sort_column cfg) drive letter) (len_to_u16 drive_idx) (len_to_u32 rec_idx).

Definition ext_candidate_passes (rec : CompactRecord) : bool :=
  if name_len rec =? 0 then false
  else if match filter_mode cfg with FilesOnly => is_directory rec | _ => false end then false
  else if hide_system filters && is_system_metafile (names drive) rec then false
  else if hide_ads filters && contains_byte COLON (name_str (names drive) rec) then false
  else true.

Definition scan_ext_fast_path (state : list HeapEntry) : list HeapEntry :=
  foldl (fun state ext_id =>
    foldl (fun state rec_idx =>
      match zget (records drive) rec_idx with
      | None => state
      | Some rec => if ext_candidate_passes rec then push cfg state (heap_entry_for rec_idx rec) else state
      end) state (records_with_ext drive ext_id)) state (resolved_ext_ids filters).

Definition full_scan_record_passes (rec : CompactRecord) : option bool :=
  if name_len rec =? 0 then Some false
  else if has_filters cfg then
    if match filter_mode cfg with FilesOnly => is_directory rec | DirsOnly => negb (is_directory rec) | All => false end
    then Some false
    else matches_record to_lowercase lower_char filters (fold drive) (names drive) rec
  else Some true.

Fixpoint scan_full_records (recs : list (Z * CompactRecord)) (state : list HeapEntry) : option (list HeapEntry) :=
  match recs with
  | [] => Some state
  | (rec_idx, rec) :: recs =>
      let? passes := full_scan_record_passes rec in
      scan_full_records recs (if passes then push cfg state (heap_entry_for rec_idx rec) else state)
  end.

Definition scan_drive_candidates : option (list HeapEntry) :=
  let ext_fast_path := is_ext_only filters && match filter_mode cfg with All | FilesOnly => true | DirsOnly => false end in
  let? state :=
    if ext_fast_path && negb (is_nil (resolved_ext_ids filters)) then Some (scan_ext_fast_path [])
    else if ext_fast_path && negb (is_nil (extensions filters)) then Some []
    else scan_full_records (enumerate (records drive)) [] in
  Some (drain cfg state).

End drive.

(** [scan_all_drives_parallel]: each drive with its letter; the per-drive results in drive
    order. *)
Fixpoint scan_all_drives (search_filters : SearchFilters) (cfg : DriveScanCfg) (idx : Z)
    (drives : list (DriveCompactIndex * Z)) : option (list HeapEntry) :=
  match drives with
  | [] => Some []
  | (drive, letter) :: drives =>
      let local_filters := resolve_ext_ids_for_drive to_lowercase trim search_filters drive in
      let? cands := scan_drive_candidates idx drive letter local_filters cfg in
      let? rest := scan_all_drives search_filters cfg (idx + 1) drives in
      Some (cands ++ rest)
  end.

(** [sort_unstable_by_key]. *)
Context (sort_unstable : (HeapEntry -> Z) -> list HeapEntry -> list HeapEntry).

(** The order of the pair of drive and record index. *)
Definition locality (e : HeapEntry) : Z := drive_idx e * 2 ^ 32 + rec_idx e.

Definition sort_and_localise (candidates : list HeapEntry) (sort_desc : bool) (limit : Z) : list HeapEntry :=
  if zlen candidates <=? limit then sort_unstable locality candidates
  else
    let sorted := sort_unstable (fun e => if sort_desc then - sort_key e else sort_key e) candidates in
    sort_unstable locality (take (Z.to_nat limit) sorted).

(** [collect_global_top_n_numeric] up to the candidates it resolves. *)
Definition collect_global_top_n_numeric (drives : list (DriveCompactIndex * Z)) (limit : Z) (sort_column : FieldId)
    (sort_desc : bool) (filter_mode : FilterMode) (search_filters : SearchFilters) : option (list HeapEntry) :=
  let has_filters := negb (is_empty search_filters) || match filter_mode with All => false | _ => true end in
  let cfg := mkDriveScanCfg limit (limit <? 1000000) sort_column sort_desc filter_mode has_filters in
  let? raw_candidates := scan_all_drives search_filters cfg 0 drives in
  Some (sort_and_localise raw_candidates sort_desc limit).

End scan.

(** * The heap keeps the best entries *)

Lemma entry_lt_total a b : entry_lt a b = false -> entry_lt b a = false -> a = b.
Proof.
  unfold entry_lt. destruct a as [k d r], b as [k' d' r']; cbn. intros. f_equal; lia.
Qed.

Lemma entry_lt_trans a b c : entry_lt b a = false -> entry_lt c b = false -> entry_lt c a = false.
Proof. unfold entry_lt. destruct a, b, c; cbn. lia. Qed.

Lemma entry_lt_asym a b : entry_lt a b = true -> entry_lt b a = false.
Proof. unfold entry_lt. destruct a, b; cbn. lia. Qed.

(** [a] is not below [b]: nearer the top of the heap, which holds the entry to drop first. *)
Definition above (desc : bool) (a b : HeapEntry) : Prop := heap_lt desc a b = false.

Lemma above_trans desc a b c : above desc a b -> above desc b c -> above desc a c.
Proof.
  unfold above, heap_lt. destruct desc; intros H1 H2; [by eapply entry_lt_trans |].
  by eapply (entry_lt_trans c b a).
Qed.

Lemma above_lt desc a b : heap_lt desc a b = true -> above desc b a.
Proof. unfold above, heap_lt. destruct desc; apply entry_lt_asym. Qed.

Definition heap_ok (desc : bool) (heap : list HeapEntry) : Prop := StronglySorted (above desc) heap.

Lemma heap_insert_perm desc e heap : heap_insert desc e heap ≡ₚ e :: heap.
Proof.
  induction heap as [|top heap IH]; [done |]. cbn. destruct (heap_lt desc top e); [done |].
  rewrite IH. apply Permutation_swap.
Qed.

Lemma heap_insert_ok desc e heap : heap_ok desc heap -> heap_ok desc (heap_insert desc e heap).
Proof.
  unfold heap_ok. induction 1 as [|top heap Hs IH Hf]; [by repeat constructor |]. cbn.
  destruct (heap_lt desc top e) eqn:E.
  - constructor; [by constructor |]. constructor; [by apply above_lt |].
    eapply Forall_impl; [exact Hf |]. intros x Hx. eapply above_trans; [by apply above_lt | done].
  - constructor; [done |]. rewrite heap_insert_perm. by constructor.
Qed.

(** What a bounded collection holds of the entries offered to it: some of them, all of them
    below it when the bound is reached, and every other one no better than those. *)
Definition kept (desc : bool) (limit : Z) (offered held : list HeapEntry) : Prop :=
  exists rest, offered ≡ₚ held ++ rest /\ (rest <> [] -> limit <= zlen held) /\
    forall a b, a ∈ rest -> b ∈ held -> above desc a b.

Lemma heap_push_capped_kept desc limit offered heap e :
  0 <= limit -> zlen heap <= limit -> heap_ok desc heap -> kept desc limit offered heap ->
  let heap' := heap_push_capped desc limit heap e in
  zlen heap' <= limit /\ heap_ok desc heap' /\ kept desc limit (offered ++ [e]) heap'.
Proof.
  intros H0 Hz Hok (rest & Hp & Hfull & Hbest). unfold heap_push_capped. destruct (Z.ltb_spec (zlen heap) limit) as [Hl | Hl].
  - assert (rest = []) as -> by (destruct rest; [done | exfalso; assert (limit <= zlen heap) by (by apply Hfull); lia]).
    split_and!; [rewrite heap_insert_perm, zlen_cons; lia | by apply heap_insert_ok |]. exists []. split_and!; [| done |].
    + rewrite Hp, heap_insert_perm, !app_nil_r. by rewrite Permutation_app_comm.
    + intros a b Ha. by apply not_elem_of_nil in Ha.
  - destruct heap as [|top heap].
    { split_and!; [done | done |]. exists (e :: rest). split_and!.
      - rewrite Hp. cbn. by rewrite Permutation_app_comm.
      - intros _. change (zlen (@nil HeapEntry)) with 0 in *. lia.
      - intros a b _ Hb. by apply not_elem_of_nil in Hb. }
    inversion_clear Hok as [|? ? Hs Hf]. rewrite Forall_forall in Hf. rewrite zlen_cons in *.
    destruct (heap_lt desc e top) eqn:E.
    + split_and!; [rewrite heap_insert_perm, zlen_cons; lia | by apply heap_insert_ok |]. exists (top :: rest). split_and!.
      * rewrite Hp, heap_insert_perm, (Permutation_app_comm _ [e]). cbn. by rewrite Permutation_middle.
      * intros _. rewrite heap_insert_perm, zlen_cons. lia.
      * intros a b Ha Hb. rewrite heap_insert_perm in Hb. apply elem_of_cons in Hb as [-> | Hb], Ha as [-> | Ha].
        -- by apply above_lt.
        -- eapply above_trans; [apply Hbest; [done | by left] | by apply above_lt].
        -- by apply Hf.
        -- apply Hbest; [done | by right].
    + split_and!; [rewrite zlen_cons; lia | constructor; [done | by apply Forall_forall] |]. exists (e :: rest). split_and!.
      * rewrite Hp. rewrite <- app_assoc. by rewrite (Permutation_app_comm rest [e]).
      * intros _. rewrite zlen_cons. lia.
      * intros a b Ha Hb. apply elem_of_cons in Ha as [-> | Ha]; [|by apply Hbest].
        apply elem_of_cons in Hb as [-> | Hb]; [done |]. eapply above_trans; [exact E | by apply Hf].
Qed.

Lemma foldl_push_kept cfg offered :
  0 <= limit cfg -> kept (sort_desc cfg) (limit cfg) offered (foldl (push cfg) [] offered).
Proof.
  intros H0. unfold push. destruct (use_heap cfg).
  - assert (H : forall xs seen h, zlen h <= limit cfg -> heap_ok (sort_desc cfg) h -> kept (sort_desc cfg) (limit cfg) seen h ->
      kept (sort_desc cfg) (limit cfg) (seen ++ xs) (foldl (heap_push_capped (sort_desc cfg) (limit cfg)) h xs)).
    { induction xs as [|x xs IH]; intros seen h Hz Hok Hk; [by rewrite app_nil_r |]. cbn. rewrite cons_middle, app_assoc.
      destruct (heap_push_capped_kept _ _ seen h x H0 Hz Hok Hk) as (? & ? & ?). by apply IH. }
    apply (H offered [] []); [done | constructor |]. exists []. split_and!; [done | done |].
    intros a b Ha. by apply not_elem_of_nil in Ha.
  - assert (H : forall xs (seen : list HeapEntry), foldl (fun (state : list HeapEntry) entry => state ++ [entry]) seen xs = seen ++ xs).
    { induction xs as [|x xs IH]; intros seen; cbn; [by rewrite app_nil_r |]. by rewrite IH, <- app_assoc. }
    rewrite H. exists []. cbn. rewrite app_nil_r. split_and!; [done | done |]. intros a b Ha. by apply not_elem_of_nil in Ha.
Qed.

(** * What a scan offers the collection *)

Definition mode_keeps (mode : FilterMode) (rec : CompactRecord) : bool :=
  match mode with All => true | FilesOnly => negb (is_directory rec) | DirsOnly => is_directory rec end.

Section scans.
Context (to_lowercase : list Z -> list Z) (lower_char : Z -> list Z) (trim : list Z -> list Z) (drive_idx : Z) (drive : DriveCompactIndex) (letter : Z).
Context (filters : SearchFilters) (cfg : DriveScanCfg).

(** A row of the query: a named record of the mode, which the filters keep. *)
Definition row_kept (rec : CompactRecord) : bool :=
  live rec && mode_keeps (filter_mode cfg) rec &&
  bool_decide (matches_record to_lowercase lower_char filters (fold drive) (names drive) rec = Some true).

Definition entry_of (it : Z * CompactRecord) : HeapEntry := heap_entry_for drive_idx drive letter cfg it.1 it.2.

Definition drive_rows : list (Z * CompactRecord) := List.filter (fun it => row_kept it.2) (enumerate (records drive)).

Definition drive_entries : list HeapEntry := map entry_of drive_rows.

Lemma scan_full_records_spec recs state :
  (forall it, it ∈ recs -> full_scan_record_passes to_lowercase lower_char drive filters cfg it.2 = Some (row_kept it.2)) ->
  scan_full_records to_lowercase lower_char drive_idx drive letter filters cfg recs state =
  Some (foldl (push cfg) state (map entry_of (List.filter (fun it => row_kept it.2) recs))).
Proof.
  revert state. induction recs as [|[i rec] recs IH]; intros state H; [done |]. cbn.
  pose proof (H (i, rec) ltac:(left)) as E. cbn in E. rewrite E. cbn. rewrite IH by (intros; apply H; by right). by destruct (row_kept rec).
Qed.

(** The rows the extension index lists. *)
Definition ext_row (i : Z) : option (Z * CompactRecord) :=
  match zget (records drive) i with
  | Some rec => if ext_candidate_passes drive filters cfg rec then Some (i, rec) else None
  | None => None
  end.

Definition ext_rows (ids : list Z) : list (Z * CompactRecord) := ids ≫= fun e => omap ext_row (records_with_ext drive e).

Lemma scan_ext_fast_path_spec state :
  scan_ext_fast_path drive_idx drive letter filters cfg state =
  foldl (push cfg) state (map entry_of (ext_rows (resolved_ext_ids filters))).
Proof.
  unfold scan_ext_fast_path, ext_rows. revert state. induction (resolved_ext_ids filters) as [|e ids IH]; intros state; [done |].
  cbn [foldl mbind list_bind]. rewrite map_app, foldl_app, <- IH. f_equal. clear IH. revert state.
  induction (records_with_ext drive e) as [|i l IH]; intros state; [done |]. cbn [foldl omap list_omap]. unfold ext_row at 1.
  destruct (zget (records drive) i) as [rec |]; [|apply IH]. destruct (ext_candidate_passes drive filters cfg rec); apply IH.
Qed.

Context (schedule : list (Z * Z) -> list (Z * Z)) (records0 : list CompactRecord) (names0 : list Z).
Context (Hschedule : forall ws, schedule ws ≡ₚ ws).

(** The extension index lists the rows of the query, when neither criterion the fast path
    leaves out is set. *)
Lemma ext_rows_perm :
  overlay_ok schedule drive records0 names0 -> NoDup (resolved_ext_ids filters) ->
  (forall e, e ∈ resolved_ext_ids filters -> 0 <= e) -> resolved_ext_ids filters <> [] ->
  bounds_unset filters = true -> malformed filters = None -> deleted filters = None -> filter_mode cfg <> DirsOnly ->
  ext_rows (resolved_ext_ids filters) ≡ₚ drive_rows.
Proof using Hschedule.
  intros Ho Hnd Hpos Hne Hb Hm Hd Hf.
  assert (Hids : forall e i, e ∈ resolved_ext_ids filters ->
    i ∈ records_with_ext drive e <-> exists rec, zget (records drive) i = Some rec /\ live rec = true /\ extension_id rec = e).
  { intros e i He. rewrite (records_with_ext_spec schedule drive records0 names0) by (done || by apply Hpos).
    rewrite elem_of_indices_where. unfold ext_filter. split.
    - intros (rec & E & [Hl Ee]%andb_true_iff). apply Z.eqb_eq in Ee. eauto.
    - intros (rec & E & Hl & <-). exists rec. by rewrite Hl, Z.eqb_refl. }
  assert (Hk : forall rec, row_kept rec = live rec && ext_candidate_passes drive filters cfg rec &&
    bool_decide (extension_id rec ∈ resolved_ext_ids filters)).
  { intros rec. unfold row_kept, ext_candidate_passes, live, mode_keeps. rewrite bounds_unset_matches by done. unfold matches_extension.
    rewrite Hm, Hd. cbn [differs negb]. replace (is_nil (resolved_ext_ids filters)) with false by (by destruct (resolved_ext_ids filters)).
    cbn [negb]. destruct (name_len rec =? 0); [done |]. destruct (bool_decide (extension_id rec ∈ resolved_ext_ids filters)),
      (hide_system filters && _), (hide_ads filters && _), (filter_mode cfg), (is_directory rec); try reflexivity; try (by destruct Hf). }
  apply NoDup_Permutation.
  - apply NoDup_bind; [| |done].
    + intros e1 e2 [i rec] He1 He2 H1 H2. apply list_elem_of_omap in H1 as (i1 & Hi1 & E1), H2 as (i2 & Hi2 & E2).
      apply (Hids e1 i1 He1) in Hi1 as (r1 & Z1 & _ & <-). apply (Hids e2 i2 He2) in Hi2 as (r2 & Z2 & _ & <-).
      unfold ext_row in E1, E2. rewrite Z1 in E1. rewrite Z2 in E2. repeat case_match; congruence.
    + intros e He. apply NoDup_omap.
      * intros i j [k rec] E1 E2. unfold ext_row in E1, E2. repeat case_match; congruence.
      * rewrite (records_with_ext_spec schedule drive records0 names0) by (done || by apply Hpos).
        apply sorted_lt_NoDup, indices_where_sorted.
  - unfold drive_rows. apply NoDup_filterb. eapply (NoDup_fmap_1 fst). rewrite fst_enumerate. apply NoDup_seqZ.
  - intros [i rec]. unfold ext_rows, drive_rows. rewrite list_elem_of_bind, elem_of_filterb. cbn [snd].
    rewrite elem_of_enumerate, Hk. split.
    + intros (e & (j & Hj & E)%list_elem_of_omap & He). apply (Hids e j He) in Hj as (r & Zr & Hl & <-).
      unfold ext_row in E. rewrite Zr in E. destruct (ext_candidate_passes drive filters cfg r) eqn:Ep; [|done].
      injection E as -> ->. by rewrite Hl, Ep, bool_decide_eq_true_2.
    + intros (Zr & [[Hl Hp]%andb_true_iff He]%andb_true_iff). apply bool_decide_eq_true in He.
      exists (extension_id rec). split; [|done]. apply list_elem_of_omap. exists i. split; [apply (Hids _ _ He); eauto |].
      unfold ext_row. by rewrite Zr, Hp.
Qed.

End scans.

Lemma kept_permutation desc limit offered offered' held held' :
  offered ≡ₚ offered' -> held ≡ₚ held' -> kept desc limit offered held -> kept desc limit offered' held'.
Proof.
  intros E E' (rest & Hp & Hf & Hb). exists rest. rewrite <- E, <- E'. split_and!; [done | done |].
  intros a b Ha Hin. apply Hb; [done |]. by rewrite E'.
Qed.

(** * The scan of a drive *)

Section query.
Context (schedule : list (Z * Z) -> list (Z * Z)) (to_lowercase : list Z -> list Z) (lower_char : Z -> list Z)
  (trim : list Z -> list Z).
Context (Hschedule : forall ws, schedule ws ≡ₚ ws).
Context (heap_iter : list HeapEntry -> list HeapEntry) (Hiter : forall l, heap_iter l ≡ₚ l).
Context (f : SearchFilters) (Htokens : Forall (token_ok to_lowercase trim) (extensions f)).
(** The criteria [is_ext_only] does not look at. *)
Context (Hforensic : is_ext_only f = true -> malformed f = None /\ deleted f = None).

(** A drive whose index is coherent: reachable, with its table of extensions and the ids of
    its live records those of their names, and no name with a star, which NTFS forbids. *)
Record scannable (drive : DriveCompactIndex) : Prop := {
  sd_reachable : exists records0 names0, reachable schedule to_lowercase drive records0 names0;
  sd_table : ext_table_ok (ext_names drive);
  sd_ids : forall rec, rec ∈ records drive -> live rec = true -> ext_id_ok to_lowercase (ext_names drive) (names drive) rec;
  sd_lower : forall rec, rec ∈ records drive -> lower_agrees to_lowercase lower_char (names drive) rec;
  sd_star : forall rec, rec ∈ records drive -> no_star (fold_into (fold drive) (str_chars (name_str (names drive) rec)))
}.

(** The filters with the ids of the drive, and the same filters by the extension of the name. *)
Definition local_filters (drive : DriveCompactIndex) : SearchFilters := resolve_ext_ids_for_drive to_lowercase trim f drive.
Definition by_name : SearchFilters := set_resolved f [].

Lemma row_kept_by_name drive cfg rec :
  scannable drive -> rec ∈ records drive ->
  row_kept to_lowercase lower_char drive (local_filters drive) cfg rec = row_kept to_lowercase lower_char drive by_name cfg rec.
Proof using Htokens.
  intros Hd Hr. unfold row_kept. destruct (live rec) eqn:El; [|done]. unfold local_filters, by_name.
  by rewrite resolved_filter_agrees by (first [done | by apply Hd]).
Qed.

Lemma local_filters_fields drive :
  bounds_unset (local_filters drive) = bounds_unset f /\ malformed (local_filters drive) = malformed f /\
  deleted (local_filters drive) = deleted f /\ extensions (local_filters drive) = extensions f /\
  is_ext_only (local_filters drive) = is_ext_only f /\ is_empty (local_filters drive) = is_empty f.
Proof using Type. unfold local_filters, resolve_ext_ids_for_drive. by destruct (is_nil (extensions f)). Qed.

Lemma resolved_ids_ok drive :
  scannable drive -> extensions f <> [] ->
  NoDup (resolved_ext_ids (local_filters drive)) /\
  (forall e, e ∈ resolved_ext_ids (local_filters drive) <-> exists ext, ext ∈ extensions f /\ zget (ext_names drive) e = Some ext).
Proof using Htokens.
  intros Hd Hne. unfold local_filters, resolve_ext_ids_for_drive. replace (is_nil (extensions f)) with false by (by destruct (extensions f)).
  cbn [resolved_ext_ids set_resolved]. split.
  - unfold resolve_ext_ids. destruct (sort_dedup_spec (omap (fun ext =>
      let normalized := to_lowercase (trim_start_dots (trim ext)) in
      if is_nil normalized then None else let? idx := position normalized (ext_names drive) in Some (to_u16_or_0 idx)) (extensions f)))
      as [Hs _]. by apply sorted_lt_NoDup.
  - intros e. apply elem_of_resolve_ext_ids; [apply Hd | done].
Qed.

(** No row has an extension the drive does not know. *)
Lemma unresolved_no_rows drive drive_idx letter cfg :
  scannable drive -> extensions f <> [] -> resolved_ext_ids (local_filters drive) = [] ->
  is_ext_only f = true -> drive_entries to_lowercase lower_char drive_idx drive letter by_name cfg = [].
Proof using Htokens.
  intros Hd Hne E Hx. unfold drive_entries, drive_rows. destruct (List.filter _ _) as [|[i rec] l] eqn:El; [done |]. exfalso.
  assert (Hin : (i, rec) ∈ List.filter (fun it : Z * CompactRecord => row_kept to_lowercase lower_char drive by_name cfg it.2) (enumerate (records drive)))
    by (rewrite El; left).
  apply elem_of_filterb in Hin as [Hz Hk]. cbn [snd] in Hk. apply elem_of_enumerate, zget_elem in Hz.
  unfold row_kept in Hk. apply andb_true_iff in Hk as [[Hl _]%andb_true_iff Hk].
  apply bool_decide_eq_true in Hk. unfold is_ext_only in Hx. apply andb_true_iff in Hx as [_ Hb].
  rewrite bounds_unset_matches in Hk by done. injection Hk as [[_ He]%andb_true_iff _]%andb_true_iff.
  apply (matches_extension_by_name to_lowercase lower_char trim f (ext_names drive)) in He as (ext & Hin & He); [| apply Hd | done | by apply Hd | by apply Hd | done].
  assert (H : extension_id rec ∈ resolved_ext_ids (local_filters drive)) by (apply resolved_ids_ok; eauto).
  rewrite E in H. by apply not_elem_of_nil in H.
Qed.

Definition query_cfg (limit : Z) (sort_column : FieldId) (sort_desc : bool) (mode : FilterMode) : DriveScanCfg :=
  mkDriveScanCfg limit (limit <? 1000000) sort_column sort_desc mode
    (negb (is_empty f) || match mode with All => false | _ => true end).

Lemma full_scan_passes drive limit column desc mode rec :
  scannable drive -> rec ∈ records drive ->
  let cfg := query_cfg limit column desc mode in
  full_scan_record_passes to_lowercase lower_char drive (local_filters drive) cfg rec =
  Some (row_kept to_lowercase lower_char drive (local_filters drive) cfg rec).
Proof using Type.
  intros Hd Hr cfg. unfold full_scan_record_passes, row_kept, live. destruct (name_len rec =? 0); [done |]. cbn [negb andb].
  destruct (matches_record_total to_lowercase lower_char (local_filters drive) (fold drive) (names drive) rec (sd_star _ Hd _ Hr)) as [b Eb].
  cbn [has_filters filter_mode cfg query_cfg]. destruct (negb (is_empty f) || _) eqn:Eh.
  - rewrite Eb. destruct mode; cbn [mode_keeps]; destruct (is_directory rec), b; reflexivity.
  - apply orb_false_iff in Eh as [Ee Em]. apply negb_false_iff in Ee.
    assert (matches_record to_lowercase lower_char (local_filters drive) (fold drive) (names drive) rec = Some true) as ->.
    { pose proof Ee as E. unfold is_empty in E. split_ands. unfold local_filters, resolve_ext_ids_for_drive.
      match goal with E : extensions f = [] |- _ => rewrite E end. cbn [is_nil]. rewrite bounds_unset_matches by done.
      unfold matches_extension. cbn [resolved_ext_ids extensions set_resolved hide_system hide_ads malformed deleted].
      repeat match goal with E : ?x f = _ |- _ => rewrite E; clear E end. reflexivity. }
    by destruct mode.
Qed.

(** The scan keeps the best rows of the drive, through either path. *)
Lemma scan_drive_kept drive idx letter limit column desc mode :
  0 <= limit -> scannable drive ->
  let cfg := query_cfg limit column desc mode in
  exists held, scan_drive_candidates to_lowercase lower_char heap_iter idx drive letter (local_filters drive) cfg = Some held /\
    kept desc limit (drive_entries to_lowercase lower_char idx drive letter by_name cfg) held.
Proof using Hforensic Hiter Hschedule Htokens.
  intros H0 Hd cfg.
  assert (Hdrain : forall st, drain heap_iter cfg st ≡ₚ st) by (intros st; unfold drain; by destruct (use_heap cfg)).
  assert (Hrows : drive_entries to_lowercase lower_char idx drive letter (local_filters drive) cfg =
    drive_entries to_lowercase lower_char idx drive letter by_name cfg).
  { unfold drive_entries, drive_rows. f_equal. apply List.filter_ext_in. intros [i rec] Hin%list_elem_of_In%elem_of_enumerate.
    apply row_kept_by_name; [done |]. by eapply zget_elem. }
  assert (Hk : forall offered, offered ≡ₚ drive_entries to_lowercase lower_char idx drive letter by_name cfg ->
    kept desc limit (drive_entries to_lowercase lower_char idx drive letter by_name cfg) (drain heap_iter cfg (foldl (push cfg) [] offered))).
  { intros offered E. eapply kept_permutation; [exact E | symmetry; apply Hdrain | by apply (foldl_push_kept cfg)]. }
  unfold scan_drive_candidates. destruct (local_filters_fields drive) as (Eb & Em & Ed & Ee & Ex & _). rewrite Ex, Ee.
  destruct (is_ext_only f && _) eqn:Ef; cbn [andb].
  - apply andb_true_iff in Ef as [Ef Emode]. destruct (Hforensic Ef) as [Em0 Ed0].
    pose proof Ef as [Hne Hb]%andb_true_iff. apply negb_true_iff in Hne. rewrite Hne. cbn [negb].
    assert (Hn : extensions f <> []) by (intros E; by rewrite E in Hne).
    destruct (resolved_ids_ok drive Hd Hn) as [Hnd Hids]. destruct (sd_reachable _ Hd) as (r0 & n0 & Hr).
    destruct (reachable_invariant _ _ _ _ _ Hr) as [_ Ho].
    destruct (is_nil (resolved_ext_ids (local_filters drive))) eqn:Er; cbn [negb].
    + apply is_nil_true in Er. exists (drain heap_iter cfg (foldl (push cfg) [] [])). split; [done |]. apply Hk.
      by rewrite unresolved_no_rows.
    + eexists. split; [reflexivity |]. rewrite scan_ext_fast_path_spec. apply Hk. rewrite <- Hrows. unfold drive_entries.
      apply Permutation_map. eapply (ext_rows_perm _ _ _ _ _ schedule); try done; try congruence.
      * intros e He. apply Hids in He as (ext & _ & [He _]%zget_Some). lia.
      * intros E. by rewrite E in Er.
      * intros E. by rewrite E in Emode.
  - rewrite scan_full_records_spec.
    + eexists. split; [reflexivity |]. apply Hk. by rewrite <- Hrows.
    + intros [i rec] Hin%elem_of_enumerate. apply full_scan_passes; [done |]. by eapply zget_elem.
Qed.

(** * The merge of the drives *)

(** The rows of every drive. *)
Fixpoint all_entries (cfg : DriveScanCfg) (idx : Z) (drives : list (DriveCompactIndex * Z)) : list HeapEntry :=
  match drives with
  | [] => []
  | (drive, letter) :: drives =>
      drive_entries to_lowercase lower_char idx drive letter by_name cfg ++ all_entries cfg (idx + 1) drives
  end.

(** What the merged candidates leave out is behind [limit] of them. *)
Definition merged (desc : bool) (limit : Z) (offered held : list HeapEntry) : Prop :=
  exists rest, offered ≡ₚ held ++ rest /\
    forall a, a ∈ rest -> exists group, group ⊆+ held /\ limit <= zlen group /\ forall b, b ∈ group -> above desc a b.

Lemma kept_merged desc limit offered held offered' held' :
  kept desc limit offered held -> merged desc limit offered' held' -> merged desc limit (offered ++ offered') (held ++ held').
Proof using Type.
  intros (rest & Hp & Hfull & Hbest) (rest' & Hp' & Hrest). exists (rest ++ rest'). split.
  - rewrite Hp, Hp'. solve_Permutation.
  - intros a [Ha | Ha]%elem_of_app.
    + exists held. split_and!; [by apply submseteq_inserts_r | apply Hfull; intros E; by rewrite E in Ha; apply not_elem_of_nil in Ha |].
      intros b Hb. by apply Hbest.
    + destruct (Hrest a Ha) as (g & Hg & Hz & Hb). exists g. split_and!; [by apply submseteq_inserts_l | done | done].
Qed.

Lemma scan_all_drives_merged drives idx limit column desc mode :
  0 <= limit -> Forall (fun d => scannable d.1) drives ->
  let cfg := query_cfg limit column desc mode in
  exists held, scan_all_drives to_lowercase lower_char trim heap_iter f cfg idx drives = Some held /\
    merged desc limit (all_entries cfg idx drives) held.
Proof using Hforensic Hiter Hschedule Htokens.
  intros H0 Hds. cbv zeta. revert idx. induction Hds as [|[drive letter] drives Hd Hds IH]; intros idx; cbn [scan_all_drives all_entries].
  - exists []. split; [done |]. exists []. split; [done |]. intros a Ha. by apply not_elem_of_nil in Ha.
  - destruct (scan_drive_kept drive idx letter limit column desc mode H0 Hd) as (held & E & Hk).
    cbv zeta in E |- *. unfold local_filters in E. rewrite E. cbn [mbind option_bind]. destruct (IH (idx + 1)) as (held' & -> & Hm).
    eexists. split; [reflexivity |]. by apply kept_merged.
Qed.
End query.

(** * The cut at the limit *)

(** The key the candidates are sorted by. *)
Definition cut_key (desc : bool) (e : HeapEntry) : Z := if desc then - sort_key e else sort_key e.

Lemma above_key desc a b : above desc a b -> cut_key desc b <= cut_key desc a.
Proof. unfold above, heap_lt, cut_key, entry_lt. destruct desc; lia. Qed.

(** The sort puts the least keys first. *)
Definition sorts (sort_unstable : (HeapEntry -> Z) -> list HeapEntry -> list HeapEntry) : Prop :=
  forall key l, sort_unstable key l ≡ₚ l /\ StronglySorted (fun a b => key a <= key b) (sort_unstable key l).

Lemma sorted_split_key (key : HeapEntry -> Z) l n a b :
  StronglySorted (fun a b => key a <= key b) l -> a ∈ take n l -> b ∈ drop n l -> key a <= key b.
Proof.
  intros Hs Ha Hb. rewrite <- (take_drop n l) in Hs. revert Hs. generalize (take n l), (drop n l), Ha, Hb. clear.
  intros l k Ha Hb. induction l as [|x l IH]; [by apply not_elem_of_nil in Ha |]. intros Hs. inversion_clear Hs as [|? ? Hl Hf].
  apply elem_of_cons in Ha as [-> | Ha]; [|by apply IH]. rewrite Forall_forall in Hf. apply Hf, elem_of_app. by right.
Qed.

(** An element of the cut is no worse than an element [limit] candidates are no worse than. *)
Lemma cut_below_group (key : HeapEntry -> Z) l group n a b :
  StronglySorted (fun a b => key a <= key b) l -> group ⊆+ l -> (n <= length group)%nat ->
  (forall g, g ∈ group -> key g <= key a) -> b ∈ take n l -> key b <= key a.
Proof.
  intros Hs Hg Hn Hk Hb. destruct (Z.le_gt_cases (key b) (key a)) as [|Hlt]; [done | exfalso].
  apply list_elem_of_lookup in Hb as [i Hi]. apply lookup_take_Some in Hi as [Hi Hin].
  set (better := fun x => key x <? key b).
  assert (Hall : List.filter better group = group).
  { clear Hg Hn. induction group as [|g group IH]; [done |]. cbn. pose proof (Hk g ltac:(left)). unfold better at 1.
    replace (key g <? key b) with true by lia. f_equal. apply IH. intros x Hx. apply Hk. by right. }
  assert (Hsub : (length group <= length (List.filter better l))%nat).
  { rewrite <- Hall at 1. apply submseteq_Permutation in Hg as [k Hp].
    rewrite (Permutation_length (filterb_permutation better _ _ Hp)), List.filter_app, length_app. lia. }
  assert (Hcut : (length (List.filter better l) <= i)%nat).
  { pose proof (lookup_lt_Some _ _ _ Hi) as Hlen. rewrite <- (take_drop i l), List.filter_app, length_app.
    assert (List.filter better (drop i l) = []) as ->.
    { assert (Hd : forall x, x ∈ drop i l -> better x = false).
      { intros x Hx. unfold better. apply Z.ltb_ge. rewrite (drop_S _ _ _ Hi) in Hx.
        apply elem_of_cons in Hx as [-> | Hx]; [done |]. apply (sorted_split_key key l (S i)); [done | | done].
        rewrite (take_S_r _ _ _ Hi). apply elem_of_app. right. left. }
      revert Hd. generalize (drop i l). induction l0 as [|x l0 IH]; intros Hd; [done |]. cbn. rewrite (Hd x) by left.
      apply IH. intros y Hy. apply Hd. by right. }
    cbn. pose proof (List.filter_length_le better (take i l)). rewrite length_take in *. lia. }
  lia.
Qed.

Lemma sort_and_localise_spec sort_unstable candidates desc limit :
  sorts sort_unstable -> 0 <= limit ->
  let kept := take (Z.to_nat limit) (sort_unstable (cut_key desc) candidates) in
  sort_and_localise sort_unstable candidates desc limit ≡ₚ kept /\
  StronglySorted (fun a b => locality a <= locality b) (sort_and_localise sort_unstable candidates desc limit).
Proof.
  intros Hs H0 kept. unfold sort_and_localise. fold (cut_key desc). destruct (Z.leb_spec (zlen candidates) limit) as [Hl | Hl].
  - split; [|apply Hs]. unfold kept. rewrite take_ge; [by rewrite !(proj1 (Hs _ _)) |].
    rewrite (Permutation_length (proj1 (Hs _ _))). unfold zlen in Hl. lia.
  - split; [apply Hs | apply Hs].
Qed.

Lemma numeric_top_n_spec schedule to_lowercase lower_char trim heap_iter sort_unstable f drives limit column desc mode :
  (forall ws, schedule ws ≡ₚ ws) -> (forall l, heap_iter l ≡ₚ l) -> sorts sort_unstable ->
  Forall (token_ok to_lowercase trim) (extensions f) ->
  (is_ext_only f = true -> malformed f = None /\ deleted f = None) ->
  Forall (fun d => scannable schedule to_lowercase lower_char d.1) drives -> 0 <= limit ->
  let all := all_entries to_lowercase lower_char f (query_cfg f limit column desc mode) 0 drives in
  exists result rest,
    collect_global_top_n_numeric to_lowercase lower_char trim heap_iter sort_unstable drives limit column desc mode f = Some result /\
    all ≡ₚ result ++ rest /\ zlen result = Z.min limit (zlen all) /\
    (forall a b, a ∈ rest -> b ∈ result -> cut_key desc b <= cut_key desc a) /\
    StronglySorted (fun a b => locality a <= locality b) result.
Proof.
  intros Hschedule Hiter Hs Htok Hfor Hds H0 all.
  destruct (scan_all_drives_merged schedule to_lowercase lower_char trim Hschedule heap_iter Hiter f Htok Hfor drives 0 limit column desc mode
    H0 Hds) as (cands & E & rest & Hp & Hrest). fold all in Hp.
  destruct (sort_and_localise_spec sort_unstable cands desc limit Hs H0) as [Hr Hloc].
  set (sorted := sort_unstable (cut_key desc) cands) in *. destruct (Hs (cut_key desc) cands) as [Hsp Hss]. fold sorted in Hsp, Hss.
  assert (Hall : all ≡ₚ take (Z.to_nat limit) sorted ++ drop (Z.to_nat limit) sorted ++ rest)
    by (rewrite app_assoc, take_drop, Hsp; exact Hp).
  exists (sort_and_localise sort_unstable cands desc limit), (drop (Z.to_nat limit) sorted ++ rest). split_and!.
  - unfold collect_global_top_n_numeric. cbv zeta in E |- *. unfold query_cfg in E. by rewrite E.
  - by rewrite Hr.
  - rewrite Hr, Hall. assert (Hz : drop (Z.to_nat limit) sorted ++ rest <> [] -> limit <= zlen sorted).
    { destruct rest as [|a rest].
      - rewrite app_nil_r. intros Hne. destruct (Nat.le_gt_cases (length sorted) (Z.to_nat limit)) as [Hl | Hl]; [by rewrite drop_ge in Hne |].
        unfold zlen. lia.
      - intros _. destruct (Hrest a ltac:(left)) as (g & Hg & Hz & _). apply submseteq_length in Hg. rewrite Hsp. unfold zlen in *. lia. }
    rewrite zlen_app. destruct (drop (Z.to_nat limit) sorted ++ rest) as [|x l] eqn:El.
    + unfold zlen. rewrite length_take. cbn. lia.
    + specialize (Hz ltac:(done)). rewrite zlen_cons. pose proof (zlen_nonneg l). unfold zlen in *. rewrite length_take. lia.
  - intros a b Ha Hb. rewrite Hr in Hb. apply elem_of_app in Ha as [Ha | Ha]; [by eapply sorted_split_key|].
    destruct (Hrest a Ha) as (g & Hg & Hz & Hab). apply (cut_below_group _ sorted g (Z.to_nat limit)); try done.
    + by rewrite Hsp.
    + unfold zlen in Hz. lia.
    + intros x Hx. by apply above_key, Hab.
  - done.
Qed.

(** The rows a match-all query keeps across the drives are the best ones: every row
    that passes the filters is either kept or no better by the sort key than any kept row,
    exactly [limit] rows are kept when that many pass and all of them otherwise, and they
    are handed on in the order of drive and record; whichever of the extension index and
    the full scan each drive is read through, and whether heaps or lists collect them. *)
Theorem numeric_top_n_exact schedule to_lowercase lower_char trim heap_iter sort_unstable f drives limit column desc mode :
  (forall ws, schedule ws ≡ₚ ws) -> (forall l, heap_iter l ≡ₚ l) -> sorts sort_unstable ->
  Forall (token_ok to_lowercase trim) (extensions f) ->
  (is_ext_only f = true -> malformed f = None /\ deleted f = None) ->
  Forall (fun d => scannable schedule to_lowercase lower_char d.1) drives -> 0 <= limit ->
  let all := all_entries to_lowercase lower_char f (query_cfg f limit column desc mode) 0 drives in
  exists result rest,
    collect_global_top_n_numeric to_lowercase lower_char trim heap_iter sort_unstable drives limit column desc mode f = Some result /\
    all ≡ₚ result ++ rest /\ zlen result = Z.min limit (zlen all) /\
    (forall a b, a ∈ rest -> b ∈ result -> cut_key desc b <= cut_key desc a) /\
    StronglySorted (fun a b => locality a <= locality b) result.
Proof. apply numeric_top_n_spec. Qed.

Lemma sort_by_key_sorts : sorts (@sort_by_key HeapEntry).
Proof. intros key l. split; [apply sort_by_key_perm | apply sort_by_key_sorted]. Qed.

Lemma sample_scannable : scannable (@rev _) id (fun c => [c]) sample_drive.
Proof.
  split.
  - eexists _, _. apply sample_reachable.
  - split_and!; [by apply (bool_decide_unpack _) | reflexivity | by vm_compute].
  - intros rec Hr. each_elem Hr; by vm_compute.
  - intros rec Hr. each_elem Hr; by vm_compute.
  - intros rec Hr. each_elem Hr; by apply (bool_decide_unpack _).
Qed.

Lemma numeric_top_n_exact_witness :
  exists result rest,
    collect_global_top_n_numeric id (fun c => [c]) id id (@sort_by_key HeapEntry) [(sample_drive, 67); (sample_drive, 68)] 3 Name false All no_filters =
      Some result /\
    all_entries id (fun c => [c]) no_filters (query_cfg no_filters 3 Name false All) 0 [(sample_drive, 67); (sample_drive, 68)] ≡ₚ result ++ rest /\
    zlen result = 3.
Proof.
  destruct (numeric_top_n_exact (@rev _) id (fun c => [c]) id id (@sort_by_key HeapEntry) no_filters [(sample_drive, 67); (sample_drive, 68)] 3
    Name false All) as (result & rest & E & Hp & Hz & _).
  - apply rev_permutation.
  - done.
  - apply sort_by_key_sorts.
  - constructor.
  - done.
  - constructor; [apply sample_scannable |]. constructor; [apply sample_scannable | constructor].
  - done.
  - exists result, rest. split_and!; [exact E | exact Hp | rewrite Hz; by vm_compute].
Defined.

(** The filter of [--ext txt] with the malformed names only. *)
Definition malformed_txt : SearchFilters :=
  mkSearchFilters false false None None None None None None None None 0 0 None None [[116; 120; 116]] [] None None None
    None None None None None None None None None None None None None [] (Some true) None.

(** The extension index ignores the two criteria on forensic state: asked for the
    [txt] files with a malformed name, it returns [a.txt], whose name is well formed and
    which the filters reject. *)
Theorem ext_fast_path_ignores_malformed :
  exists entry,
    collect_global_top_n_numeric id (fun c => [c]) id id (@sort_by_key HeapEntry) [(sample_drive, 67)] 10 Size true All malformed_txt = Some [entry] /\
    all_entries id (fun c => [c]) malformed_txt (query_cfg malformed_txt 10 Size true All) 0 [(sample_drive, 67)] = [].
Proof. eexists. by vm_compute. Qed.

(** * The name key *)

Lemma be_value_bound n l : Forall (fun b => 0 <= b < 256) l -> 0 <= be_value n l < 256 ^ Z.of_nat n.
Proof.
  revert l. induction n as [|n IH]; intros l Hl; [done |]. rewrite Nat2Z.inj_succ, Z.pow_succ_r by lia.
  destruct Hl as [|b l Hb Hl]; cbn [be_value].
  - specialize (IH [] ltac:(constructor)). lia.
  - specialize (IH l Hl). nia.
Qed.

Definition ascii_folded (table name : list Z) : Prop := Forall (fun ch => 0 <= fold_char table ch < 0x80) name.

Lemma key_bytes_ascii table name :
  ascii_folded table name -> key_bytes table name = map (fold_char table) name /\ Forall (fun b => 0 <= b < 256) (key_bytes table name).
Proof.
  unfold key_bytes. induction 1 as [|ch name Hc Hn [IH1 IH2]]; [done |]. cbn [map].
  assert (Z.land (fold_char table ch) 0xFF = fold_char table ch) as ->
    by (change 0xFF with (Z.ones 8); rewrite Z.land_ones, Z.mod_small by lia; done).
  rewrite IH1 in *. split; [done |]. constructor; [lia | done].
Qed.

Lemma be_value_order table n a b :
  ascii_folded table a -> ascii_folded table b -> cmp_str table a b <> Gt ->
  be_value n (key_bytes table a) <= be_value n (key_bytes table b).
Proof.
  intros Ha Hb. rewrite (proj1 (key_bytes_ascii _ _ Ha)), (proj1 (key_bytes_ascii _ _ Hb)).
  assert (Hbound : forall m l, ascii_folded table l -> 0 <= be_value m (map (fold_char table) l) < 256 ^ Z.of_nat m).
  { intros m l Hl. rewrite <- (proj1 (key_bytes_ascii _ _ Hl)). apply be_value_bound, key_bytes_ascii, Hl. }
  revert a b Ha Hb. induction n as [|n IH]; intros a b Ha Hb Hc; [done |].
  destruct a as [|x a], b as [|y b]; cbn [map be_value cmp_str] in *; [done | | done |].
  - inversion_clear Hb as [|? ? Hy Hb']. pose proof (Hbound n [] Ha) as H1. pose proof (Hbound n b Hb').
    specialize (IH [] b Ha Hb' ltac:(by destruct b)). cbn [map] in *. nia.
  - inversion_clear Ha as [|? ? Hx Ha']. inversion_clear Hb as [|? ? Hy Hb'].
    pose proof (Hbound n a Ha'). pose proof (Hbound n b Hb').
    destruct (Z.compare_spec (fold_char table x) (fold_char table y)) as [-> | Hlt | Hlt]; [| nia | done].
    specialize (IH a b Ha' Hb' Hc). lia.
Qed.

Lemma name_key_ascii table name : ascii_folded table name -> name_key table name = be_value 8 (key_bytes table name).
Proof.
  intros Hn. unfold name_key. apply i64_small. pose proof (be_value_bound 8 _ (proj2 (key_bytes_ascii _ _ Hn))) as Hb.
  pose proof (proj1 (key_bytes_ascii _ _ Hn)) as E. rewrite E in *. destruct Hn as [|ch name Hc Hn]; [by vm_compute |].
  pose proof (be_value_bound 7 _ (proj2 (key_bytes_ascii _ _ Hn))) as H7. rewrite (proj1 (key_bytes_ascii _ _ Hn)) in H7.
  cbn [map] in *. change (be_value 8 (?b :: ?l)) with (b * 256 ^ Z.of_nat 7 + be_value 7 l) in *.
  change (256 ^ Z.of_nat 7) with (2 ^ 56) in *. lia.
Qed.

(** The numeric key of a name never disagrees with the name order, for names that fold
    to ASCII: a name not after another has a key not above the other's.  The key looks at
    eight characters, so names that share them tie. *)
Theorem name_key_order table a b :
  ascii_folded table a -> ascii_folded table b -> cmp_str table a b <> Gt -> name_key table a <= name_key table b.
Proof. intros Ha Hb Hc. rewrite !name_key_ascii by done. by apply be_value_order. Qed.

(** [abc] and [ABD]. *)
Lemma name_key_order_witness : name_key ascii_table [97; 98; 99] <= name_key ascii_table [65; 66; 68].
Proof. apply name_key_order; [by apply (bool_decide_unpack _).. | by vm_compute]. Defined.

(** Beyond ASCII it does: [Ä] is after [z] in the name order, and its key is below
    that of every ASCII name. *)
Theorem name_key_not_order :
  cmp_str default_table [122] [0xC4] = Lt /\ name_key default_table [0xC4] < 0 /\ 0 < name_key default_table [122].
Proof.
  assert (H : forall c, 0 <= c < 0x10000 -> fold_char default_table c = upcase c).
  { intros c Hc. rewrite <- fold_cp_default by done. unfold fold_char, fold_cp. by replace (c <? 0x10000) with true by lia. }
  unfold name_key, key_bytes. cbn [map cmp_str]. rewrite !H by lia. by vm_compute.
Qed.
