(* ===== verification/PathResolve.v ===== *)
(** Paths of search results: the display of names and the resolution of paths through the
    parent chain, with and without caches ([crates/uffs-core/src/compact/record.rs],
    [crates/uffs-core/src/search/tree.rs]), and the rows built from them
    ([search/query/mod.rs], [search/query/row_resolve.rs], [search/display_row.rs]). *)
From S2P Require Import Prelude Text CaseFold Calendar Glob CsrIndex TrigramIndex IndexDelta Bloom CompactIndex PathLen UsnBatch UsnPatch Filters.
From stdpp Require Import strings.
Local Open Scope Z_scope.
Local Open Scope rust_scope.

(** * Display of a name *)

Inductive MalformedRender := Lossy | Normalized.

(** [char::from_digit(n, 16)], upper case. *)
Definition hex_upper (n : Z) : Z := if n <? 10 then 48 + n else 55 + n.

Definition bad_unit (render : MalformedRender) (b1 b2 : Z) : list Z :=
  match render with
  | Lossy => utf8_encode 0xFFFD
  | Normalized =>
      let unit := Z.lor (Z.lor 0xD000 (Z.shiftl (Z.land b1 0x3F) 6)) (Z.land b2 0x3F) in
      bytes_of "<BAD:" ++ map (fun shift => hex_upper (Z.land (Z.shiftr unit shift) 0xF)) [12; 8; 4; 0] ++ bytes_of ">"
  end.

Definition bad_byte (render : MalformedRender) : list Z :=
  match render with Lossy => utf8_encode 0xFFFD | Normalized => bytes_of "<BAD>" end.

(** Each round of [render_malformed] consumes a byte of the rest, or ends. *)
Fixpoint render_loop (fuel : nat) (render : MalformedRender) (rest : list Z) : list Z :=
  match fuel with
  | O => []
  | S fuel =>
      let good := valid_up_to (length rest) rest in
      if bool_decide (good = length rest) then rest
      else
        let head := take good rest in
        let bad := drop good rest in
        let skip :=
          let adv := Z.min (default 1 (error_len bad)) (zlen bad) in
          bad_byte render ++ render_loop fuel render (drop (Z.to_nat adv) bad) in
        head ++
        match bad with
        | b0 :: b1 :: b2 :: tail =>
            if (b0 =? 0xED) && in_range 0xA0 0xBF b1 && in_range 0x80 0xBF b2
            then bad_unit render b1 b2 ++ render_loop fuel render tail
            else skip
        | _ => skip
        end
  end.

Definition render_malformed (bytes : list Z) (render : MalformedRender) : list Z :=
  render_loop (length bytes) render bytes.

Definition display (bytes : list Z) (render : MalformedRender) : list Z :=
  if utf8_valid bytes then bytes else render_malformed bytes render.

Definition name_display_with (names : list Z) (rec : CompactRecord) (render : MalformedRender) : list Z :=
  display (name_bytes names rec) render.

(** ** Display by code points *)

Definition marker_chars (u : Z) : list Z :=
  bytes_of "<BAD:" ++ map (fun shift => hex_upper (Z.land (Z.shiftr u shift) 0xF)) [12; 8; 4; 0] ++ bytes_of ">".

Definition shown (render : MalformedRender) (u : Z) : list Z :=
  if surrogate u then match render with Lossy => [0xFFFD] | Normalized => marker_chars u end else [u].

Lemma hex_upper_range n : 0 <= n < 16 -> 48 <= hex_upper n <= 57 \/ 65 <= hex_upper n <= 70.
Proof. unfold hex_upper. intros H. destruct (Z.ltb_spec n 10); lia. Qed.

Lemma nibble_range u shift : 0 <= Z.land (Z.shiftr u shift) 0xF < 16.
Proof. change 0xF with (Z.ones 4). rewrite Z.land_ones by lia. apply Z.mod_pos_bound. done. Qed.

Lemma marker_scalars u : Forall (fun c => 0 <= c < 0x80) (marker_chars u).
Proof.
  unfold marker_chars. apply Forall_app. split; [by apply (bool_decide_unpack _) |].
  apply Forall_app. split; [|by apply (bool_decide_unpack _)]. apply Forall_map, Forall_forall. intros s _.
  pose proof (hex_upper_range _ (nibble_range u s)). cbn. lia.
Qed.

Lemma ascii_string cs : Forall (fun c => 0 <= c < 0x80) cs -> utf8_string cs = cs /\ scalars cs.
Proof.
  induction 1 as [|c cs Hc _ [IH1 IH2]]; [done |]. rewrite utf8_string_cons, IH1.
  unfold utf8_encode. replace (c <? 0x80) with true by lia. split; [done |]. constructor; [apply is_scalar_intro; lia | done].
Qed.

Lemma shown_scalars render us : code_points us -> scalars (us ≫= shown render).
Proof.
  induction 1 as [|u us Hu _ IH]; [constructor |]. cbn. apply Forall_app. split; [|done]. unfold shown.
  destruct (surrogate u) eqn:E.
  - destruct render; [by repeat constructor | apply ascii_string, marker_scalars].
  - constructor; [by rewrite scalar_surrogate, E | constructor].
Qed.

Lemma scalars_shown render cs : scalars cs -> cs ≫= shown render = cs.
Proof.
  induction 1 as [|c cs Hc _ IH]; [done |]. cbn. rewrite IH. unfold shown.
  pose proof (scalar_range c Hc) as Hr. rewrite scalar_surrogate, negb_true_iff in Hc by lia. by rewrite Hc.
Qed.

Lemma bad_unit_shown render u b1 b2 :
  surrogate u = true -> utf8_encode u = [0xED; b1; b2] -> bad_unit render b1 b2 = utf8_string (shown render u).
Proof.
  intros Hs E. unfold shown. rewrite Hs. destruct render; [done |].
  rewrite (proj1 (ascii_string _ (marker_scalars u))). unfold bad_unit, marker_chars.
  destruct (surrogate_bytes u Hs) as (c1 & c2 & E' & H1 & H2 & Hu). rewrite E in E'. injection E' as <- <-.
  assert (Z.lor (Z.lor 0xD000 (Z.shiftl (Z.land b1 0x3F) 6)) (Z.land b2 0x3F) = u) as ->; [|done].
  change 0x3F with (Z.ones 6). rewrite !Z.land_ones by lia.
  replace (b1 mod 2 ^ 6) with (b1 - 0x80) by digits. replace (b2 mod 2 ^ 6) with (b2 - 0x80) by digits.
  rewrite <- Z.lor_assoc, (Z.lor_comm (Z.shiftl _ 6)), lor_shiftl_add by lia.
  change 0xD000 with (Z.shiftl 0xD 12). rewrite Z.lor_comm, lor_shiftl_add by lia. lia.
Qed.

Lemma scalar_prefix us :
  code_points us -> exists cs rest, us = cs ++ rest /\ scalars cs /\
    match rest with [] => True | u :: _ => surrogate u = true end.
Proof.
  induction 1 as [|u us Hu _ (cs & rest & -> & Hc & Hr)]; [by exists [], [] |].
  destruct (surrogate u) eqn:E; [by exists [], (u :: cs ++ rest) |].
  exists (u :: cs), rest. split_and!; [done | | done]. constructor; [by rewrite scalar_surrogate, E | done].
Qed.

(** One marker per surrogate, and the rest as it is. *)
Lemma render_loop_shown render us fuel :
  code_points us -> (length (utf8_string us) <= fuel)%nat ->
  render_loop fuel render (utf8_string us) = utf8_string (us ≫= shown render).
Proof.
  revert us. induction fuel as [|fuel IH]; intros us Hu Hf.
  { destruct us as [|u us]; [done |]. apply Forall_cons in Hu as [Hu _]. pose proof (next_code_point u (utf8_string us) Hu) as H.
    rewrite <- utf8_string_cons in H. destruct (utf8_string (u :: us)); [done | cbn in Hf; lia]. }
  destruct (scalar_prefix us Hu) as (cs & rest & -> & Hc & Hr). cbn [render_loop].
  rewrite (valid_up_to_string cs rest) by (done || lia).
  rewrite bind_app, (scalars_shown render cs), !utf8_string_app by done.
  apply Forall_app in Hu as [_ Hu]. destruct rest as [|u rest].
  { change (utf8_string []) with (@nil Z). change (utf8_string ([] ≫= shown render)) with (@nil Z). rewrite !app_nil_r.
    by rewrite bool_decide_eq_true_2. }
  destruct (surrogate_bytes u Hr) as (b1 & b2 & Eu & H1 & H2 & _).
  rewrite utf8_string_cons, Eu. rewrite bool_decide_eq_false_2 by (rewrite !length_app; cbn; lia).
  rewrite take_app_length, drop_app_length. cbn [app]. unfold in_range.
  replace ((237 =? 237) && ((160 <=? b1) && (b1 <=? 191)) && ((128 <=? b2) && (b2 <=? 191))) with true by lia.
  f_equal. cbn [mbind list_bind]. rewrite utf8_string_app, (bad_unit_shown render u) by done. f_equal.
  apply Forall_cons in Hu as [_ Hu]. apply IH; [done |].
  rewrite utf8_string_app, utf8_string_cons, Eu, !length_app in Hf. cbn in Hf. lia.
Qed.

Lemma display_shown us render : code_points us -> display (utf8_string us) render = utf8_string (us ≫= shown render).
Proof.
  intros Hu. unfold display. destruct (utf8_valid (utf8_string us)) eqn:E; [|by apply render_loop_shown].
  rewrite scalars_shown; [done |]. rewrite utf8_valid_wtf8, forallb_forall in E by done.
  rewrite Forall_forall in Hu |- *. intros u Hin. rewrite scalar_surrogate by auto. by apply E, list_elem_of_In.
Qed.

(** ** The normalized form is lossless *)

Lemma hex_upper_inj a b : 0 <= a < 16 -> 0 <= b < 16 -> hex_upper a = hex_upper b -> a = b.
Proof. unfold hex_upper. intros Ha Hb. destruct (Z.ltb_spec a 10), (Z.ltb_spec b 10); lia. Qed.

Lemma nibbles u :
  0 <= u < 0x10000 ->
  u = Z.land (Z.shiftr u 12) 0xF * 4096 + Z.land (Z.shiftr u 8) 0xF * 256 + Z.land (Z.shiftr u 4) 0xF * 16 + Z.land (Z.shiftr u 0) 0xF.
Proof.
  intros Hu. change 0xF with (Z.ones 4). rewrite !Z.land_ones, !Z.shiftr_div_pow2 by lia.
  change (2 ^ 12) with 4096. change (2 ^ 8) with 256. change (2 ^ 4) with 16. change (2 ^ 0) with 1. digits.
Qed.

Lemma marker_inj u v s t :
  surrogate u = true -> surrogate v = true -> marker_chars u ++ s = marker_chars v ++ t -> u = v /\ s = t.
Proof.
  unfold surrogate. intros Hu Hv E. unfold marker_chars in E. cbn [map] in E. injection E as E1 E2 E3 E4 ->. split; [|done].
  pose proof (hex_upper_inj _ _ (nibble_range u 12) (nibble_range v 12) E1). pose proof (hex_upper_inj _ _ (nibble_range u 8) (nibble_range v 8) E2).
  pose proof (hex_upper_inj _ _ (nibble_range u 4) (nibble_range v 4) E3). pose proof (hex_upper_inj _ _ (nibble_range u 0) (nibble_range v 0) E4).
  rewrite (nibbles u), (nibbles v) by lia. congruence.
Qed.

(** No [<], which NTFS forbids in names. *)
Lemma shown_inj us vs :
  60 ∉ us -> 60 ∉ vs -> us ≫= shown Normalized = vs ≫= shown Normalized -> us = vs.
Proof.
  revert vs. induction us as [|u us IH]; intros [|v vs] Hu Hv E; [done | | |].
  - cbn in E. unfold shown in E. by destruct (surrogate v).
  - cbn in E. unfold shown in E. by destruct (surrogate u).
  - apply not_elem_of_cons in Hu as [Hu Hus], Hv as [Hv Hvs]. cbn [mbind list_bind] in E. unfold shown at 1 3 in E.
    destruct (surrogate u) eqn:Eu, (surrogate v) eqn:Ev.
    + apply marker_inj in E as [-> E]; [|done..]. f_equal. by apply IH.
    + injection E as E _. by destruct Hv.
    + injection E as E _. by destruct Hu.
    + injection E as -> E. f_equal. by apply IH.
Qed.

(** * The parent chain *)

Abbreviation DirCache := (gmap Z (list Z)).
Abbreviation MalformedCache := (gmap Z bool).

(** [entry(key).or_insert(value)]. *)
Definition or_insert {A} (k : Z) (v : A) (m : gmap Z A) : gmap Z A := match m !! k with Some _ => m | None => <[k := v]> m end.

(** The rounds of the walk: depths 0 to 256. *)
Definition MAX_ROUNDS : nat := 257.

Section resolve.
Context (drive : DriveCompactIndex) (render : MalformedRender).

Definition stops (rec : CompactRecord) : bool :=
  let bytes := name_bytes (names drive) rec in is_nil bytes || bool_decide (bytes = [DOT]).

(** The records from the start up, and the cached ancestor the walk ended at. *)
Fixpoint walk {A} (fuel : nat) (cached : Z -> option A) (idx : Z) : list Z * option A :=
  match fuel with
  | O => ([], None)
  | S fuel =>
      match cached (len_to_u32 idx) with
      | Some hit => ([], Some hit)
      | None =>
          match zget (records drive) idx with
          | None => ([], None)
          | Some rec =>
              if stops rec then ([], None)
              else if parent_idx rec =? U32_MAX then ([idx], None)
              else let '(chain, hit) := walk fuel cached (parent_idx rec) in (idx :: chain, hit)
          end
      end
  end.

Definition join (path name : list Z) : list Z :=
  (if negb (ends_with path [BACKSLASH]) && negb (is_nil path) then path ++ [BACKSLASH] else path) ++ name.

Definition push_component (path : list Z) (idx : Z) : list Z :=
  match zget (records drive) idx with
  | Some rec => if stops rec then path else join path (name_display_with (names drive) rec render)
  | None => path
  end.

Definition cache_step (st : list Z * DirCache) (idx : Z) : list Z * DirCache :=
  let '(dir_path, cache) := st in
  match zget (records drive) idx with
  | Some rec =>
      if stops rec then st
      else
        let dir_path := join dir_path (name_display_with (names drive) rec render) in
        (dir_path, if is_directory rec then or_insert (len_to_u32 idx) dir_path cache else cache)
  | None => st
  end.

Definition resolve_path_inner (record_idx : Z) (volume_prefix : list Z) (dir_cache : option DirCache)
    : list Z * option DirCache :=
  let '(chain, hit) := walk MAX_ROUNDS (fun k => let? cache := dir_cache in cache !! k) record_idx in
  let prefix := default volume_prefix hit in
  (foldl push_component prefix (rev chain), let? cache := dir_cache in Some (foldl cache_step (prefix, cache) (rev chain)).2).

Definition resolve_path (record_idx : Z) (volume_prefix : list Z) : list Z :=
  (resolve_path_inner record_idx volume_prefix None).1.

Definition resolve_path_cached (record_idx : Z) (volume_prefix : list Z) (dir_cache : DirCache) : list Z * DirCache :=
  let '(path, cache) := resolve_path_inner record_idx volume_prefix (Some dir_cache) in (path, default dir_cache cache).

(** The rebuilding loop: the path with its bit, the cacheable directory prefix with its
    bit, and both caches. *)
Record Rebuild := mkRebuild {
  path : list Z; malformed : bool; dir_path : list Z; dir_malformed : bool; dir_cache : DirCache; mal_cache : MalformedCache
}.

Definition rebuild_step (st : Rebuild) (idx : Z) : Rebuild :=
  match zget (records drive) idx with
  | Some rec =>
      if stops rec then st
      else
        let component_malformed := negb (utf8_valid (name_bytes (names drive) rec)) in
        let name := name_display_with (names drive) rec render in
        let dir_path' := join (dir_path st) name in
        let dir_malformed' := dir_malformed st || component_malformed in
        let key := len_to_u32 idx in
        mkRebuild (join (path st) name) (malformed st || component_malformed) dir_path' dir_malformed'
          (if is_directory rec then or_insert key dir_path' (dir_cache st) else dir_cache st)
          (if is_directory rec then or_insert key dir_malformed' (mal_cache st) else mal_cache st)
  | None => st
  end.

Definition resolve_path_cached_with_malformed (record_idx : Z) (volume_prefix : list Z) (dirs : DirCache)
    (mals : MalformedCache) : list Z * bool * DirCache * MalformedCache :=
  let '(chain, hit) :=
    walk MAX_ROUNDS (fun k => let? path := dirs !! k in Some (path, default false (mals !! k))) record_idx in
  let '(prefix, malformed0) := default (volume_prefix, false) hit in
  let st := foldl rebuild_step (mkRebuild prefix malformed0 prefix malformed0 dirs mals) (rev chain) in
  (path st, malformed st, dir_cache st, mal_cache st).

(** ** The ancestry of a record *)

(** The named records from a record up to the volume's root or a missing parent. *)
Inductive ancestry : Z -> list Z -> Prop :=
| anc_missing idx : zget (records drive) idx = None -> ancestry idx []
| anc_stop idx rec : zget (records drive) idx = Some rec -> stops rec = true -> ancestry idx []
| anc_top idx rec : zget (records drive) idx = Some rec -> stops rec = false -> parent_idx rec = U32_MAX -> ancestry idx [idx]
| anc_step idx rec l : zget (records drive) idx = Some rec -> stops rec = false -> parent_idx rec <> U32_MAX ->
    ancestry (parent_idx rec) l -> ancestry idx (idx :: l).

Definition component (idx : Z) : list Z :=
  match zget (records drive) idx with Some rec => name_display_with (names drive) rec render | None => [] end.

Definition component_malformed (idx : Z) : bool :=
  match zget (records drive) idx with Some rec => negb (utf8_valid (name_bytes (names drive) rec)) | None => false end.

Definition path_of (prefix : list Z) (l : list Z) : list Z := foldl (fun path idx => join path (component idx)) prefix (rev l).
Definition malformed_of (l : list Z) : bool := existsb component_malformed l.

Definition on_path (idx : Z) : Prop := exists rec, zget (records drive) idx = Some rec /\ stops rec = false.

Lemma ancestry_on_path idx l : ancestry idx l -> Forall on_path l.
Proof. induction 1; constructor; unfold on_path; eauto. Qed.

Lemma ancestry_head idx x l : ancestry idx (x :: l) -> idx = x /\ (l = [] \/ exists p, ancestry p l).
Proof. inversion 1; subst; eauto. Qed.

Lemma ancestry_inj idx l l' : ancestry idx l -> ancestry idx l' -> l = l'.
Proof.
  intros H. revert l'. induction H as [idx E | idx rec E Hs | idx rec E Hs Hp | idx rec l E Hs Hp H IH]; intros l'; inversion 1; subst;
    try done; try congruence.
  assert (rec0 = rec) as -> by congruence. f_equal. by apply IH.
Qed.

Lemma walk_uncached fuel idx l : ancestry idx l -> walk (A := list Z) fuel (fun _ => None) idx = (take fuel l, None).
Proof.
  intros H. revert fuel. induction H as [idx E | idx rec E Hs | idx rec E Hs Hp | idx rec l E Hs Hp H IH]; intros [|fuel]; try done; cbn;
    rewrite E; [done | by rewrite Hs | |].
  - rewrite Hs, Hp, Z.eqb_refl. by destruct fuel.
  - rewrite Hs. destruct (Z.eqb_spec (parent_idx rec) U32_MAX); [done |]. by rewrite IH.
Qed.

Lemma foldl_push_component prefix l : Forall on_path l -> foldl push_component prefix (rev l) = path_of prefix l.
Proof.
  unfold path_of. intros H. apply List.Forall_rev in H. revert prefix H. generalize (rev l). clear l. intros l prefix H. revert prefix.
  induction H as [|idx l (rec & E & Hs) _ IH]; intros prefix; [done |].
  cbn. rewrite IH. f_equal. unfold push_component, component. by rewrite E, Hs.
Qed.
(** ** Caches of resolved directories *)

Context (Hparents : parents_ok (records drive)) (Hsize : zlen (records drive) <= 2 ^ 32).
Context (volume_prefix : list Z).

(** Every cached directory has its own path and bit. *)
Definition coherent (dirs : DirCache) (mals : MalformedCache) : Prop :=
  (forall k p, dirs !! k = Some p -> exists l, ancestry k l /\ p = path_of volume_prefix l /\ mals !! k = Some (malformed_of l)) /\
  (forall k, dirs !! k = None -> mals !! k = None).

Lemma coherent_empty : coherent ∅ ∅.
Proof using Type. by split. Qed.

Lemma key_of idx : 0 <= idx <= U32_MAX -> len_to_u32 idx = idx.
Proof using Type. intros H. unfold len_to_u32. by replace (idx <=? U32_MAX) with true by lia. Qed.

Lemma record_key idx rec : zget (records drive) idx = Some rec -> len_to_u32 idx = idx.
Proof using Hsize. intros [H _]%zget_Some. apply key_of. unfold U32_MAX. lia. Qed.

Lemma parent_key idx rec : zget (records drive) idx = Some rec -> 0 <= parent_idx rec <= U32_MAX.
Proof using Hparents Hsize.
  intros H%zget_elem. destruct (Hparents rec H) as [-> |]; unfold U32_MAX; lia.
Qed.

Definition ancestor (l : list Z) : Prop := l = [] \/ exists idx, ancestry idx l.

(** The walk stops at a cached ancestor, whose path stands for the rest of the ancestry. *)
Lemma walk_cached dirs mals fuel idx l :
  coherent dirs mals -> 0 <= idx <= U32_MAX -> ancestry idx l -> (length l <= fuel)%nat ->
  exists chain l' hit, walk fuel (fun k => let? path := dirs !! k in Some (path, default false (mals !! k))) idx = (chain, hit) /\
    l = chain ++ l' /\ default (volume_prefix, false) hit = (path_of volume_prefix l', malformed_of l').
Proof using Hparents Hsize.
  intros [Hc _] Hi Ha. revert fuel Hi. induction Ha as [idx E | idx rec E Hs | idx rec E Hs Hp | idx rec l E Hs Hp Ha IH]; intros fuel Hi Hf.
  all: destruct fuel as [|fuel]; [cbn in Hf; try lia; by exists [], [], None |]; cbn [walk]; rewrite key_of by done.
  all: destruct (dirs !! idx) as [p |] eqn:Ed;
    [destruct (Hc idx p Ed) as (l0 & Ha0 & -> & Em); cbn [mbind option_bind]; rewrite Em; cbn [default];
     eexists [], l0, _; split; [reflexivity | split; [|reflexivity]]; cbn [app]; eapply ancestry_inj; [|exact Ha0];
     by econstructor |]; cbn [mbind option_bind]; rewrite E, ?Hs.
  1,2: by exists [], [], None.
  - rewrite Hp, Z.eqb_refl. exists [idx], [], None. by rewrite app_nil_r.
  - destruct (Z.eqb_spec (parent_idx rec) U32_MAX); [done |]. cbn in Hf.
    destruct (IH fuel (parent_key _ _ E) ltac:(lia)) as (chain & l' & hit & -> & -> & Eh).
    by exists (idx :: chain), l', hit.
Qed.

Lemma path_of_cons idx l : path_of volume_prefix (idx :: l) = join (path_of volume_prefix l) (component idx).
Proof using Type. unfold path_of. cbn. by rewrite foldl_app. Qed.

(** The rebuilding loop adds the path of every directory it passes. *)
Lemma rebuild_spec dirs mals chain l' :
  coherent dirs mals -> ancestor (chain ++ l') ->
  let st := foldl rebuild_step (mkRebuild (path_of volume_prefix l') (malformed_of l') (path_of volume_prefix l') (malformed_of l')
    dirs mals) (rev chain) in
  let p := path_of volume_prefix (chain ++ l') in let m := malformed_of (chain ++ l') in
  path st = p /\ malformed st = m /\ dir_path st = p /\ dir_malformed st = m /\ coherent (dir_cache st) (mal_cache st).
Proof using Hparents Hsize.
  intros Hc. induction chain as [|idx chain IH]; intros Ha; cbn zeta in *; [done |].
  destruct Ha as [Ha | (i & Ha)]; [done |]. pose proof (ancestry_on_path _ _ Ha) as Hon.
  destruct (ancestry_head _ _ _ Ha) as [-> Hrest]. destruct (IH Hrest) as (E1 & E2 & E3 & E4 & Hc'). clear IH.
  apply Forall_cons in Hon as [(rec & E & Hs) _]. cbn [rev app]. rewrite foldl_app. cbn [foldl].
  set (st := foldl rebuild_step _ _) in *. rewrite path_of_cons. unfold malformed_of in *. cbn [existsb].
  unfold rebuild_step. rewrite E, Hs. cbn [path malformed dir_path dir_malformed dir_cache mal_cache].
  assert (Em : component_malformed idx = negb (utf8_valid (name_bytes (names drive) rec))) by (unfold component_malformed; by rewrite E).
  assert (En : component idx = name_display_with (names drive) rec render) by (unfold component; by rewrite E).
  rewrite E1, E2, E3, E4, <- Em, <- En, orb_comm. split_and!; [done.. |].
  destruct (is_directory rec); [|done]. rewrite (record_key idx rec E). destruct Hc' as [Hc1 Hc2]. unfold or_insert.
  destruct (dir_cache st !! idx) as [p |] eqn:Ed.
  - destruct (Hc1 idx p Ed) as (l0 & _ & _ & ->). by split.
  - rewrite (Hc2 idx Ed). split.
    + intros k p. destruct (decide (k = idx)) as [-> | Hk]; [|rewrite !lookup_insert_ne by done; apply Hc1].
      rewrite lookup_insert_eq. intros [= <-]. exists (idx :: (chain ++ l')). by rewrite path_of_cons, lookup_insert_eq.
    + intros k. destruct (decide (k = idx)) as [-> | Hk]; [by rewrite lookup_insert_eq | rewrite !lookup_insert_ne by done; apply Hc2].
Qed.

Lemma uncached_fields idx l prefix :
  ancestry idx l -> resolve_path idx prefix = path_of prefix (take MAX_ROUNDS l).
Proof using Type.
  intros Ha. unfold resolve_path, resolve_path_inner. cbn [mbind option_bind]. rewrite (walk_uncached _ _ _ Ha).
  cbn [default fst]. apply foldl_push_component. apply Forall_take. by eapply ancestry_on_path.
Qed.

Lemma cached_fields dirs mals idx l :
  coherent dirs mals -> 0 <= idx <= U32_MAX -> ancestry idx l -> (length l <= MAX_ROUNDS)%nat ->
  exists dirs' mals', resolve_path_cached_with_malformed idx volume_prefix dirs mals =
    (path_of volume_prefix l, malformed_of l, dirs', mals') /\ coherent dirs' mals'.
Proof using Hparents Hsize.
  intros Hc Hi Ha Hl. destruct (walk_cached dirs mals MAX_ROUNDS idx l Hc Hi Ha Hl) as (chain & l' & hit & Ew & -> & Eh).
  unfold resolve_path_cached_with_malformed. rewrite Ew, Eh.
  destruct (rebuild_spec dirs mals chain l' Hc ltac:(right; eauto)) as (-> & -> & _ & _ & Hc'). by eexists _, _.
Qed.
End resolve.

(** A path without a name that holds a separator is its names in order, joined. *)
Lemma join_name path name : (exists s, path = s ++ [BACKSLASH]) -> join path name = path ++ name.
Proof.
  intros [s ->]. unfold join. replace (ends_with (s ++ [BACKSLASH]) [BACKSLASH]) with true; [done |].
  symmetry. apply ends_with_spec. by exists s.
Qed.

Lemma join_sep path name : BACKSLASH ∉ path -> path <> [] -> forall s, join (s ++ path) name = s ++ path ++ BACKSLASH :: name.
Proof.
  intros Hp Hn s. unfold join. replace (ends_with (s ++ path) [BACKSLASH]) with false.
  - replace (is_nil (s ++ path)) with false by (by destruct s, path). cbn. by rewrite <- !app_assoc.
  - symmetry. apply not_true_iff_false. rewrite ends_with_spec. intros [a E].
    destruct path as [|x path _] using rev_ind; [done |]. rewrite app_assoc in E. apply app_inj_tail in E as [_ ->].
    apply Hp, elem_of_app. right. left.
Qed.

Definition plain_name (name : list Z) : Prop := name <> [] /\ BACKSLASH ∉ name.

Lemma join_byte_cons b x l : join_byte b (x :: l) = x ++ concat (map (fun part => b :: part) l).
Proof.
  revert x. induction l as [|y l IH]; intros x; [cbn; by rewrite app_nil_r |].
  change (join_byte b (x :: y :: l)) with (x ++ b :: join_byte b (y :: l)). by rewrite IH.
Qed.

Lemma foldl_join s path names :
  plain_name path -> Forall plain_name names ->
  foldl join (s ++ path) names = s ++ join_byte BACKSLASH (path :: names).
Proof.
  intros Hp Hn. revert s path Hp. induction Hn as [|name names Hn _ IH]; intros s path [Hp1 Hp2]; [done |].
  cbn [foldl]. rewrite join_sep by done.
  replace (s ++ path ++ BACKSLASH :: name) with ((s ++ path ++ [BACKSLASH]) ++ name) by (by rewrite <- !app_assoc).
  rewrite IH, !join_byte_cons by done. cbn [map concat]. by rewrite <- !app_assoc.
Qed.

Lemma path_joined drive render prefix l :
  Forall (fun idx => plain_name (component drive render idx)) l ->
  path_of drive render (prefix ++ [BACKSLASH]) l = prefix ++ BACKSLASH :: join_byte BACKSLASH (map (component drive render) (rev l)).
Proof.
  intros H. apply List.Forall_rev in H. unfold path_of. revert H. generalize (rev l). clear l. intros l H.
  assert (E : forall acc, foldl (fun path idx => join path (component drive render idx)) acc l =
    foldl join acc (map (component drive render) l)) by (intros acc; revert acc; clear H; induction l as [|x l IH]; intros acc; cbn; auto).
  rewrite E. apply Forall_map in H. unfold compose in H. destruct (map (component drive render) l) as [|name names]; [done |].
  apply Forall_cons in H as [Hn Hns]. cbn [foldl]. rewrite join_name, foldl_join by (done || by exists prefix).
  by rewrite <- app_assoc.
Qed.

(** * Rows *)

Record DisplayRow := mkDisplayRow {
  row_record_index : Z; row_drive : Z; row_path : list Z; name_start : Z; row_size : Z; row_is_directory : bool;
  row_modified : Z; row_created : Z; row_accessed : Z; row_flags : Z; row_allocated : Z; row_descendants : Z;
  row_treesize : Z; row_tree_allocated : Z; row_malformed : bool; row_malformed_path : bool; row_name_hex : option (list Z);
  row_file_reference : Z
}.

(** [DisplayRow::name] and [DisplayRow::path_dir]. *)
Definition row_name (row : DisplayRow) : list Z := default [] (get_from (row_path row) (name_start row)).
Definition row_path_dir (row : DisplayRow) : list Z := default (row_path row) (get_range (row_path row) 0 (name_start row)).

Definition hex_lower (n : Z) : Z := if n <? 10 then 48 + n else 87 + n.
Definition hex_encode (bytes : list Z) : list Z := bytes ≫= fun byte => [hex_lower (Z.shiftr byte 4); hex_lower (Z.land byte 0x0F)].

Record RowForensics := mkRowForensics { f_malformed : bool; f_malformed_path : bool; f_name_hex : option (list Z) }.

Definition row_forensics (names : list Z) (rec : CompactRecord) (path_malformed : bool) : RowForensics :=
  let bytes := name_bytes names rec in
  let malformed := negb (utf8_valid bytes) in
  mkRowForensics malformed (path_malformed || malformed) (if malformed then Some (hex_encode bytes) else None).

(** [DisplayRow::new] with its forensic facts and file reference attached. *)
Definition make_display_row (record_index letter : Z) (rec : CompactRecord) (name path : list Z) (forensics : RowForensics) : DisplayRow :=
  let is_ads := contains_byte COLON name in
  let name_start := len_to_u32 (match rfind_byte BACKSLASH path with Some pos => pos + 1 | None => 0 end) in
  mkDisplayRow record_index letter path name_start (CsrIndex.size rec) (is_directory rec && negb is_ads)
    (modified rec) (created rec) (accessed rec) (flags rec) (allocated rec) (descendants rec) (treesize rec) (tree_allocated rec)
    (f_malformed forensics) (f_malformed_path forensics) (f_name_hex forensics) (file_ref rec).

(** [stack_volume_prefix]. *)
Definition stack_volume_prefix (letter : Z) : list Z := [letter; COLON; BACKSLASH].

Section rows.
Context (drive : DriveCompactIndex) (letter : Z) (volume_prefix : list Z) (render : MalformedRender).

Definition build_row_cached (rec_idx : Z) (rec : CompactRecord) (dirs : DirCache) (mals : MalformedCache)
    : DisplayRow * DirCache * MalformedCache :=
  let '(path, path_malformed, dirs, mals) := resolve_path_cached_with_malformed drive render rec_idx volume_prefix dirs mals in
  let forensics := row_forensics (names drive) rec path_malformed in
  (make_display_row rec_idx letter rec (name_str (names drive) rec) path forensics, dirs, mals).

(** The loop of a chunk, which both variants of [indices_to_rows] run. *)
Fixpoint rows_loop (indices : list Z) (dirs : DirCache) (mals : MalformedCache) : list DisplayRow :=
  match indices with
  | [] => []
  | record_idx :: indices =>
      match zget (records drive) record_idx with
      | None => rows_loop indices dirs mals
      | Some rec =>
          if is_nil (name_str (names drive) rec) then rows_loop indices dirs mals
          else let '(row, dirs, mals) := build_row_cached record_idx rec dirs mals in row :: rows_loop indices dirs mals
      end
  end.

Definition RESOLVE_CHUNK_SIZE : Z := 4096.

Definition indices_to_rows_sequential (indices : list Z) : list DisplayRow := rows_loop indices ∅ ∅.

Definition indices_to_rows_parallel (indices : list Z) : list DisplayRow :=
  concat (map (fun chunk => rows_loop chunk ∅ ∅) (par_chunks (length indices) (Z.to_nat RESOLVE_CHUNK_SIZE) indices)).

Definition indices_to_rows (indices : list Z) : list DisplayRow :=
  if zlen indices <? RESOLVE_CHUNK_SIZE then indices_to_rows_sequential indices else indices_to_rows_parallel indices.

(** ** Every row by itself *)

(** The row of a record with its path resolved alone. *)
Definition ancestors (idx : Z) : list Z := (walk (A := list Z) drive MAX_ROUNDS (fun _ => None) idx).1.

Definition row_alone (idx : Z) : option DisplayRow :=
  let? rec := zget (records drive) idx in
  if is_nil (name_str (names drive) rec) then None
  else Some (make_display_row idx letter rec (name_str (names drive) rec) (resolve_path drive render idx volume_prefix)
    (row_forensics (names drive) rec (malformed_of drive (ancestors idx)))).

Context (Hparents : parents_ok (records drive)) (Hsize : zlen (records drive) <= 2 ^ 32).

(** A record whose path is no deeper than the walk. *)
Definition shallow (idx : Z) : Prop := exists l, ancestry drive idx l /\ (length l <= MAX_ROUNDS)%nat.

Lemma rows_loop_spec indices dirs mals :
  coherent drive render volume_prefix dirs mals -> Forall shallow indices -> rows_loop indices dirs mals = omap row_alone indices.
Proof using Hparents Hsize.
  intros Hc Hi. revert dirs mals Hc. induction Hi as [|idx indices (l & Ha & Hl) _ IH]; intros dirs mals Hc; [done |].
  cbn [rows_loop omap list_omap]. unfold row_alone. destruct (zget (records drive) idx) as [rec |] eqn:E; cbn [mbind option_bind]; [|by apply IH].
  destruct (is_nil (name_str (names drive) rec)); [by apply IH |]. pose proof E as [Hr _]%zget_Some.
  destruct (cached_fields drive render Hparents Hsize volume_prefix dirs mals idx l Hc) as (dirs' & mals' & Er & Hc'); [unfold U32_MAX; lia | done | done |].
  unfold build_row_cached. rewrite Er. unfold ancestors. rewrite (walk_uncached _ _ _ _ Ha), (uncached_fields _ _ _ l) by done.
  cbn [fst]. rewrite take_ge by done. f_equal. by apply IH.
Qed.

Lemma indices_to_rows_spec indices : Forall shallow indices -> indices_to_rows indices = omap row_alone indices.
Proof using Hparents Hsize.
  intros Hi. unfold indices_to_rows. pose proof (coherent_empty drive render volume_prefix) as Hc.
  destruct (zlen indices <? RESOLVE_CHUNK_SIZE); [by apply rows_loop_spec |]. unfold indices_to_rows_parallel.
  assert (E : concat (par_chunks (length indices) (Z.to_nat RESOLVE_CHUNK_SIZE) indices) = indices)
    by (apply concat_par_chunks; [unfold RESOLVE_CHUNK_SIZE; lia | done]).
  revert E. generalize (par_chunks (length indices) (Z.to_nat RESOLVE_CHUNK_SIZE) indices). intros chunks <-.
  apply Forall_concat in Hi. induction Hi as [|chunk chunks Hch _ IH]; [done |].
  cbn [map concat]. rewrite omap_app, IH. f_equal. by apply rows_loop_spec.
Qed.
End rows.

(** ** Names in rows *)

(** The normalized form of ill-formed names is lossless: two names of code points
    without [<], surrogates included, are shown the same only when they are the same
    bytes.  The markers cannot be confused with each other or with text. *)
Theorem normalized_display_injective us vs :
  code_points us -> code_points vs -> 60 ∉ us -> 60 ∉ vs ->
  display (utf8_string us) Normalized = display (utf8_string vs) Normalized -> utf8_string us = utf8_string vs.
Proof.
  intros Hu Hv Hus Hvs E. rewrite !display_shown in E by done.
  apply utf8_string_inj in E; [|by apply shown_scalars..]. by rewrite (shown_inj us vs).
Qed.

(** [a] and an unpaired low surrogate, and the same text spelled out. *)
Lemma normalized_display_injective_witness :
  display (utf8_string [97; 0xDCFF]) Normalized = utf8_string [97; 60; 66; 65; 68; 58; 68; 67; 70; 70; 62] /\
  display (utf8_string [97; 0xDCFF]) Normalized <> display (utf8_string [97; 0xDCFE]) Normalized.
Proof.
  split; [by vm_compute |]. intros E.
  assert (H : utf8_string [97; 0xDCFF] = utf8_string [97; 0xDCFE]); [|by vm_compute in H].
  apply (normalized_display_injective [97; 0xDCFF] [97; 0xDCFE]); [by repeat constructor | by repeat constructor | | | exact E];
    by apply (bool_decide_unpack _).
Defined.

(** A resolved path is the volume's root followed by the names of the record's
    ancestors from the top down and its own, separated by backslashes, for a record at
    most 257 levels deep whose names hold no separator; and the row built from it gives
    back the record's name and its directory. *)
Theorem resolve_path_exact drive render prefix idx l :
  ancestry drive idx l -> (length l <= MAX_ROUNDS)%nat -> Forall (fun i => plain_name (component drive render i)) l ->
  resolve_path drive render idx (prefix ++ [BACKSLASH]) =
  prefix ++ BACKSLASH :: join_byte BACKSLASH (map (component drive render) (rev l)).
Proof. intros Ha Hl Hn. rewrite (uncached_fields _ _ _ l) by done. rewrite take_ge by done. by apply path_joined. Qed.

(** [docs\a.txt] on drive [C]. *)
Lemma resolve_path_exact_witness :
  resolve_path sample_drive Lossy 2 [67; 58; 92] = [67; 58; 92; 100; 111; 99; 115; 92; 97; 46; 116; 120; 116].
Proof.
  etransitivity; [apply (resolve_path_exact sample_drive Lossy [67; 58] 2 [2; 1]) |].
  - eapply anc_step; [reflexivity | done | done |]. eapply anc_top; by vm_compute.
  - unfold MAX_ROUNDS. cbn. lia.
  - repeat constructor; try done; by apply (bool_decide_unpack _).
  - by vm_compute.
Defined.

Lemma zlen_removed {A} (s t : list A) : get_range (s ++ t) 0 (zlen s) = Some s.
Proof. by apply (get_range_mid [] s t). Qed.

(** The name of a row is the last name of its path and its directory the rest, so
    the row need not store the name. *)
Theorem row_name_exact record_index letter rec name dir leaf forensics :
  BACKSLASH ∉ leaf -> zlen (dir ++ [BACKSLASH]) <= U32_MAX ->
  let row := make_display_row record_index letter rec name (dir ++ BACKSLASH :: leaf) forensics in
  row_name row = leaf /\ row_path_dir row = dir ++ [BACKSLASH].
Proof.
  intros Hl Hz. cbn zeta. unfold row_name, row_path_dir, make_display_row. cbn [row_path name_start].
  rewrite rfind_byte_last by done. rewrite zlen_app in Hz. change (zlen [BACKSLASH]) with 1 in Hz.
  unfold len_to_u32. replace (zlen dir + 1 <=? U32_MAX) with true by lia.
  replace (dir ++ BACKSLASH :: leaf) with ((dir ++ [BACKSLASH]) ++ leaf) by (by rewrite <- app_assoc).
  replace (zlen dir + 1) with (zlen (dir ++ [BACKSLASH])) by (by rewrite zlen_app). rewrite zlen_removed. split; [|done].
  by rewrite get_from_app.
Qed.

Lemma row_name_exact_witness :
  row_name (make_display_row 2 67 (sample_record 1 5 5 1 0 13) [97] ([67; 58; 92; 100] ++ BACKSLASH :: [97]) (mkRowForensics false false None)) = [97].
Proof. apply (row_name_exact 2 67 (sample_record 1 5 5 1 0 13) [97] [67; 58; 92; 100] [97]); [by apply (bool_decide_unpack _) | by vm_compute]. Defined.

(** ** Cached rows *)

(** The rows of a result are those each record gives by itself: sharing the
    directory caches between the records of a chunk, and cutting a large result into
    chunks of their own caches, changes no path and no malformed bit, for records at most
    257 levels deep. *)
Theorem indices_to_rows_exact drive letter volume_prefix render indices :
  parents_ok (records drive) -> zlen (records drive) <= 2 ^ 32 -> Forall (shallow drive) indices ->
  indices_to_rows drive letter volume_prefix render indices = omap (row_alone drive letter volume_prefix render) indices.
Proof. intros Hp Hz Hi. by apply indices_to_rows_spec. Qed.

Lemma sample_shallow : Forall (shallow sample_drive) [2; 1].
Proof.
  assert (H1 : ancestry sample_drive 1 [1]) by (eapply anc_top; by vm_compute).
  assert (H2 : ancestry sample_drive 2 [2; 1]) by (eapply anc_step; [reflexivity | done | done | exact H1]).
  unfold shallow, MAX_ROUNDS. constructor; [exists [2; 1] | constructor; [exists [1] | constructor]]; (split; [done | cbn; lia]).
Qed.

Lemma indices_to_rows_exact_witness :
  map row_path (indices_to_rows sample_drive 67 [67; 58; 92] Lossy [2; 1]) =
  [[67; 58; 92; 100; 111; 99; 115; 92; 97; 46; 116; 120; 116]; [67; 58; 92; 100; 111; 99; 115]].
Proof.
  rewrite (indices_to_rows_exact sample_drive 67 [67; 58; 92] Lossy [2; 1]).
  - by vm_compute.
  - intros rec Hr. each_elem Hr; vm_compute; tauto || (right; split; congruence).
  - by vm_compute.
  - apply sample_shallow.
Defined.

(** A chain of [n] directories named [d], the first at the top, and their paths. *)
Definition deep_records (n : nat) : list CompactRecord :=
  map (fun i => sample_record (if i =? 0 then U32_MAX else i - 1) 1 1 0 0x10 0) (seqZ 0 (Z.of_nat n)).
Definition deep_drive (n : nat) : DriveCompactIndex := bare_drive (deep_records n) sample_names [[]] None [].

(** A record deeper than 257 levels loses the top of its path, which is then joined to
    the volume's root as if it began there; and once an ancestor within reach is cached,
    the same record gets its full path, so what a row shows depends on the rows before it. *)
Theorem deep_path_depends_on_cache :
  let volume := [67; 58; 92] in
  let '(_, _, dirs, mals) := resolve_path_cached_with_malformed (deep_drive 300) Lossy 200 volume ∅ ∅ in
  zlen (resolve_path (deep_drive 300) Lossy 299 volume) = 2 + 2 * 257 /\
  zlen (resolve_path_cached_with_malformed (deep_drive 300) Lossy 299 volume dirs mals).1.1.1 = 2 + 2 * 300.
Proof. by vm_compute. Qed.
