(* ===== verification/Derived.v ===== *)
(** Derived fields of records and rows: the extension collections and the semantic types
    ([crates/uffs-core/src/search/derived.rs], [crates/uffs-core/src/extensions/mod.rs]). *)
From S2P Require Import Prelude Text CaseFold Calendar Glob CsrIndex TrigramIndex IndexDelta Bloom CompactIndex PathLen UsnBatch UsnPatch Filters PathResolve.
From stdpp Require Import strings.
Local Open Scope Z_scope.
Local Open Scope rust_scope.

(** * Tables *)

Module collections.
Definition PICTURES : list (list Z) := map bytes_of [
  "jpg"; "jpeg"; "png"; "gif"; "bmp"; "tiff"; "tif"; "webp"; "svg"; "ico"; "raw"; "heic"]%string.
Definition DOCUMENTS : list (list Z) := map bytes_of [
  "doc"; "docx"; "pdf"; "txt"; "rtf"; "odt"; "xls"; "xlsx"; "ppt"; "pptx"; "csv"; "md"]%string.
Definition VIDEOS : list (list Z) := map bytes_of [
  "mp4"; "avi"; "mkv"; "mov"; "wmv"; "flv"; "webm"; "mpeg"; "mpg"; "m4v"; "3gp"]%string.
Definition MUSIC : list (list Z) := map bytes_of [
  "mp3"; "wav"; "flac"; "aac"; "ogg"; "wma"; "m4a"; "opus"; "aiff"]%string.
Definition ARCHIVES : list (list Z) := map bytes_of [
  "zip"; "rar"; "7z"; "tar"; "gz"; "bz2"; "xz"; "iso"]%string.
Definition CODE : list (list Z) := map bytes_of [
  "rs"; "py"; "js"; "ts"; "java"; "c"; "cpp"; "h"; "hpp"; "go"; "rb"; "php"; "swift"; "kt"]%string.
Definition EXECUTABLES : list (list Z) := map bytes_of [
  "exe"; "msi"; "bat"; "cmd"; "ps1"; "com"; "scr"; "vbs"; "wsf"; "dll"; "sys"]%string.
End collections.

Definition EXECUTABLES : list (list Z) := map bytes_of [
  "exe"; "msi"; "bat"; "cmd"; "ps1"; "com"; "scr"]%string.
Definition SCRIPTS : list (list Z) := map bytes_of [
  "sh"; "bash"; "zsh"; "fish"; "csh"; "ksh"; "awk"; "sed"; "lua"; "pl"; "pm"; "tcl"]%string.
Definition WEB : list (list Z) := map bytes_of [
  "html"; "htm"; "css"; "scss"; "less"; "sass"; "jsx"; "tsx"; "vue"; "svelte"; "wasm"; "xhtml"]%string.
Definition FONTS : list (list Z) := map bytes_of [
  "ttf"; "otf"; "woff"; "woff2"; "eot"; "fon"]%string.
Definition DATABASES : list (list Z) := map bytes_of [
  "db"; "sqlite"; "sqlite3"; "mdb"; "accdb"; "sql"; "ldf"; "mdf"; "ndf"; "dbf"]%string.
Definition CONFIGS : list (list Z) := map bytes_of [
  "ini"; "cfg"; "conf"; "yaml"; "yml"; "toml"; "json"; "xml"; "env"; "properties"; "reg"; "inf"; "plist"]%string.
Definition LOGS : list (list Z) := map bytes_of [
  "log"; "out"; "err"; "trace"; "evt"; "evtx"]%string.
Definition BACKUPS : list (list Z) := map bytes_of [
  "bak"; "old"; "orig"; "swp"; "tmp"; "temp"; "~"]%string.
Definition DISK_IMAGES : list (list Z) := map bytes_of [
  "vmdk"; "vhd"; "vhdx"; "vdi"; "qcow2"; "img"; "wim"; "iso"; "dmg"]%string.
Definition DATA : list (list Z) := map bytes_of [
  "csv"; "tsv"; "parquet"; "avro"; "arrow"; "ndjson"; "jsonl"; "dat"; "sav"; "hdf5"]%string.
Definition CAD : list (list Z) := map bytes_of [
  "dwg"; "dxf"; "step"; "stp"; "stl"; "obj"; "fbx"; "blend"; "3ds"; "gltf"; "glb"]%string.
Definition SHORTCUTS : list (list Z) := map bytes_of [
  "lnk"; "url"; "desktop"; "webloc"]%string.
Definition SYSTEM : list (list Z) := map bytes_of [
  "sys"; "dll"; "drv"; "ocx"; "cpl"; "ax"; "mui"]%string.
Definition CERTS : list (list Z) := map bytes_of [
  "pem"; "crt"; "cer"; "der"; "pfx"; "p12"; "key"; "csr"; "jks"]%string.
Definition EBOOKS : list (list Z) := map bytes_of [
  "epub"; "mobi"; "azw"; "azw3"; "djvu"; "cbr"; "cbz"]%string.

(** [expand_collection]: the extensions of an alias. *)
Definition expand_collection (token : list Z) : option (list (list Z)) :=
  if bool_decide (token = bytes_of "pictures") || bool_decide (token = bytes_of "images") then Some collections.PICTURES
  else if bool_decide (token = bytes_of "documents") || bool_decide (token = bytes_of "docs") then Some collections.DOCUMENTS
  else if bool_decide (token = bytes_of "videos") || bool_decide (token = bytes_of "video") then Some collections.VIDEOS
  else if bool_decide (token = bytes_of "music") || bool_decide (token = bytes_of "audio") then Some collections.MUSIC
  else if bool_decide (token = bytes_of "archives") || bool_decide (token = bytes_of "compressed") then Some collections.ARCHIVES
  else if bool_decide (token = bytes_of "code") || bool_decide (token = bytes_of "source") then Some collections.CODE
  else if bool_decide (token = bytes_of "executables") || bool_decide (token = bytes_of "exec") then Some collections.EXECUTABLES
  else None.

(** * Types of extensions *)

Definition listed (table : list (list Z)) (ext : list Z) : bool := bool_decide (ext ∈ table).

Definition semantic_type_from_extension (ext : list Z) : list Z :=
  bytes_of (
    if listed collections.DOCUMENTS ext then "document"
    else if listed collections.PICTURES ext then "picture"
    else if listed collections.VIDEOS ext then "video"
    else if listed collections.MUSIC ext then "audio"
    else if listed collections.ARCHIVES ext then "archive"
    else if listed collections.CODE ext then "code"
    else if listed EXECUTABLES ext then "executable"
    else if listed SCRIPTS ext then "script"
    else if listed WEB ext then "web"
    else if listed FONTS ext then "font"
    else if listed DATABASES ext then "database"
    else if listed CONFIGS ext then "config"
    else if listed LOGS ext then "log"
    else if listed BACKUPS ext then "backup"
    else if listed DISK_IMAGES ext then "disk"
    else if listed DATA ext then "data"
    else if listed CAD ext then "cad"
    else if listed SHORTCUTS ext then "shortcut"
    else if listed SYSTEM ext then "system"
    else if listed CERTS ext then "cert"
    else if listed EBOOKS ext then "ebook"
    else "other").

Definition semantic_type_id_from_extension (ext : list Z) : Z :=
  if listed collections.DOCUMENTS ext then 1
  else if listed collections.PICTURES ext then 2
  else if listed collections.VIDEOS ext then 3
  else if listed collections.MUSIC ext then 4
  else if listed collections.ARCHIVES ext then 5
  else if listed collections.CODE ext then 6
  else if listed EXECUTABLES ext then 7
  else if listed SCRIPTS ext then 8
  else if listed WEB ext then 9
  else if listed FONTS ext then 10
  else if listed DATABASES ext then 11
  else if listed CONFIGS ext then 12
  else if listed LOGS ext then 13
  else if listed BACKUPS ext then 14
  else if listed DISK_IMAGES ext then 15
  else if listed DATA ext then 16
  else if listed CAD ext then 17
  else if listed SHORTCUTS ext then 18
  else if listed SYSTEM ext then 19
  else if listed CERTS ext then 20
  else if listed EBOOKS ext then 21
  else 0.

Definition SEMANTIC_TYPE_NAMES : list (list Z) := map bytes_of [
  "other"; "document"; "picture"; "video"; "audio"; "archive"; "code"; "executable"; "script"; "web"; "font";
  "database"; "config"; "log"; "backup"; "disk"; "data"; "cad"; "shortcut"; "system"; "cert"; "ebook";
  "directory"; "file"]%string.
Definition ALL_TYPE_CATEGORIES : list (list Z) := map bytes_of [
  "archive"; "audio"; "backup"; "cad"; "cert"; "code"; "config"; "data"; "database"; "directory"; "disk";
  "document"; "ebook"; "executable"; "file"; "font"; "log"; "other"; "picture"; "script"; "shortcut"; "system";
  "video"; "web"]%string.

Definition SEMANTIC_TYPE_ID_DIRECTORY : Z := 22.
Definition SEMANTIC_TYPE_ID_FILE : Z := 23.

Definition semantic_type_name_from_id (id : Z) : list Z := default (bytes_of "other") (zget SEMANTIC_TYPE_NAMES id).

Definition extensions_for_type (type_name : list Z) : option (list (list Z)) :=
  if bool_decide (type_name = bytes_of "document") then Some collections.DOCUMENTS
  else if bool_decide (type_name = bytes_of "picture") then Some collections.PICTURES
  else if bool_decide (type_name = bytes_of "video") then Some collections.VIDEOS
  else if bool_decide (type_name = bytes_of "audio") then Some collections.MUSIC
  else if bool_decide (type_name = bytes_of "archive") then Some collections.ARCHIVES
  else if bool_decide (type_name = bytes_of "code") then Some collections.CODE
  else if bool_decide (type_name = bytes_of "executable") then Some EXECUTABLES
  else if bool_decide (type_name = bytes_of "script") then Some SCRIPTS
  else if bool_decide (type_name = bytes_of "web") then Some WEB
  else if bool_decide (type_name = bytes_of "font") then Some FONTS
  else if bool_decide (type_name = bytes_of "database") then Some DATABASES
  else if bool_decide (type_name = bytes_of "config") then Some CONFIGS
  else if bool_decide (type_name = bytes_of "log") then Some LOGS
  else if bool_decide (type_name = bytes_of "backup") then Some BACKUPS
  else if bool_decide (type_name = bytes_of "disk") then Some DISK_IMAGES
  else if bool_decide (type_name = bytes_of "data") then Some DATA
  else if bool_decide (type_name = bytes_of "cad") then Some CAD
  else if bool_decide (type_name = bytes_of "shortcut") then Some SHORTCUTS
  else if bool_decide (type_name = bytes_of "system") then Some SYSTEM
  else if bool_decide (type_name = bytes_of "cert") then Some CERTS
  else if bool_decide (type_name = bytes_of "ebook") then Some EBOOKS
  else None.

(** * Rows *)

Definition extension_from_name (name : list Z) : option (list Z) :=
  let? dot := rfind_dot name in
  if (dot =? 0) || (zlen name <=? dot + 1) then None else get_from name (dot + 1).

Definition semantic_type_for_row (row : DisplayRow) : list Z :=
  if row_is_directory row then bytes_of "directory"
  else match extension_from_name (row_name row) with
       | None => bytes_of "file"
       | Some ext => semantic_type_from_extension (map ascii_lower ext)
       end.

Definition tree_allocated_for_row (row : DisplayRow) : Z :=
  if row_is_directory row then row_tree_allocated row else row_allocated row.

Definition bulkiness_from_sizes (logical alloc : Z) : Z :=
  if logical =? 0 then 0 else default 0 (checked_div (saturating_mul_u64 alloc BULKINESS_SCALE) logical).

Definition bulkiness_for_row (row : DisplayRow) : Z :=
  let '(logical, alloc) :=
    if row_is_directory row then (row_treesize row, row_tree_allocated row) else (row_size row, row_allocated row) in
  bulkiness_from_sizes logical alloc.

(** * Types and extensions *)

(** The two chains of tables agree, so a type bucket shows the type of its rows. *)
Theorem type_ids_agree :
  (forall ext, semantic_type_name_from_id (semantic_type_id_from_extension ext) = semantic_type_from_extension ext)
  /\ semantic_type_name_from_id SEMANTIC_TYPE_ID_DIRECTORY = bytes_of "directory"
  /\ semantic_type_name_from_id SEMANTIC_TYPE_ID_FILE = bytes_of "file".
Proof.
  split; [|done]. intros ext. unfold semantic_type_id_from_extension, semantic_type_from_extension.
  repeat match goal with |- context [listed ?t ext] => destruct (listed t ext); [reflexivity |] end. reflexivity.
Qed.

(** Extensions in the tables of two types: the row shows the type of the earlier table. *)
Definition SHADOWED : list (list Z * list Z) := [
  (bytes_of "disk", bytes_of "iso"); (bytes_of "data", bytes_of "csv")]%string.

Definition shadowed_ok (t : list Z) (exts : list (list Z)) : bool :=
  forallb (fun ext => Bool.eqb (bool_decide (semantic_type_from_extension ext = t)) (negb (bool_decide ((t, ext) ∈ SHADOWED)))) exts.

Lemma shadowed_exact t exts ext :
  shadowed_ok t exts = true -> ext ∈ exts -> semantic_type_from_extension ext = t <-> (t, ext) ∉ SHADOWED.
Proof.
  unfold shadowed_ok. rewrite forallb_forall. intros H Hin. apply list_elem_of_In in Hin. specialize (H _ Hin).
  apply Bool.eqb_prop in H. do 2 case_bool_decide; naive_solver.
Qed.

Lemma listed_true table ext : listed table ext = true -> ext ∈ table.
Proof. unfold listed. by case_bool_decide. Qed.

(** A type named by an extension lists it: the type found first is that of its own table. *)
Lemma extensions_of_type ext t exts :
  extensions_for_type t = Some exts -> semantic_type_from_extension ext = t -> ext ∈ exts.
Proof.
  intros He <-. revert He. unfold semantic_type_from_extension.
  repeat match goal with
  | |- context [listed ?tab ext] => destruct (listed tab ext) eqn:?; [intros He; vm_compute in He; injection He as <-; by apply listed_true |]
  end. intros He. by vm_compute in He.
Qed.

Lemma type_extensions_spec t exts ext :
  extensions_for_type t = Some exts ->
  semantic_type_from_extension ext = t <-> ext ∈ exts /\ (t, ext) ∉ SHADOWED.
Proof.
  intros He. assert (Hs : shadowed_ok t exts = true).
  { revert He. unfold extensions_for_type.
    repeat (case_bool_decide; [subst t; intros [= <-]; vm_compute; reflexivity |]). done. }
  split.
  - intros Ht. pose proof (extensions_of_type _ _ _ He Ht) as Hin. split; [done |]. by apply (shadowed_exact t exts).
  - intros [Hin Hn]. by apply (shadowed_exact t exts).
Qed.

(** The extensions a type stands for in a filter are those whose rows show the type,
    but for the two that an earlier table has as well. *)
Theorem type_extensions_exact t exts ext :
  extensions_for_type t = Some exts ->
  semantic_type_from_extension ext = t <-> ext ∈ exts /\ (t, ext) ∉ SHADOWED.
Proof. apply type_extensions_spec. Qed.

Lemma type_extensions_exact_witness :
  semantic_type_from_extension (bytes_of "vhd") = bytes_of "disk".
Proof.
  apply (type_extensions_exact (bytes_of "disk") DISK_IMAGES (bytes_of "vhd")); [by vm_compute |].
  split; apply (bool_decide_unpack _); by vm_compute.
Defined.

(** * Rows and their records *)

(** A row computes its derived numbers as its record does, but for a directory's stream. *)
Lemma derived_for_row idx letter rec name path forensics :
  contains_byte COLON name = false ->
  let row := make_display_row idx letter rec name path forensics in
  bulkiness_for_row row = bulkiness rec
  /\ tree_allocated_for_row row = (if is_directory rec then tree_allocated rec else allocated rec).
Proof.
  intros Hc row. subst row. unfold bulkiness_for_row, bulkiness, tree_allocated_for_row, make_display_row. cbn.
  rewrite Hc, andb_true_r. split; [|by destruct (is_directory rec)].
  unfold bulkiness_from_sizes, checked_div. destruct (is_directory rec); by case_match.
Qed.

Lemma extension_from_name_spec name :
  extension_from_name name = let ext := extract_extension_after_dot name in if is_nil ext then None else Some ext.
Proof.
  unfold extension_from_name, extract_extension_after_dot. destruct (rfind_dot name) as [p |] eqn:E; [|done].
  destruct (rfind_dot_spec _ _ E) as (a & b & -> & <- & _). rewrite zlen_app, zlen_cons.
  replace (zlen a + (1 + zlen b) - 1 <=? zlen a) with (zlen a + (1 + zlen b) <=? zlen a + 1)
    by (destruct (Z.leb_spec (zlen a + (1 + zlen b)) (zlen a + 1)); lia).
  destruct (_ || _) eqn:Eb; [done |]. rewrite cons_middle, app_assoc, get_from_app by (by rewrite zlen_app).
  destruct b; [change (zlen (@nil Z)) with 0 in Eb; lia | done].
Qed.

(** A [--type] filter is run as a filter of extensions: on a file whose extension is
    ASCII it keeps the rows that show the type, and those of the two shadowed extensions.
    It has no test for directories, whose type is "directory" whatever their name. *)
Theorem type_filter_exact to_lowercase lower_char t exts f names rec row :
  extensions_for_type t = Some exts -> extensions f = exts -> resolved_ext_ids f = [] ->
  row_is_directory row = false -> row_name row = name_str names rec ->
  (let ext := extract_extension_after_dot (row_name row) in lowercase_into lower_char ext = map ascii_lower ext) ->
  Forall (fun ext => to_lowercase ext = ext) exts ->
  matches_extension to_lowercase lower_char f names rec = true <->
  semantic_type_for_row row = t \/ exists ext, extension_from_name (row_name row) = Some ext /\ (t, map ascii_lower ext) ∈ SHADOWED.
Proof.
  intros Ht Hf Hr Hd Hn Hl Hlow. unfold matches_extension. rewrite Hr, Hf. cbn [is_nil negb].
  assert (Hne : is_nil exts = false).
  { revert Ht. unfold extensions_for_type. repeat (case_bool_decide; [intros [= <-]; reflexivity |]). done. }
  rewrite Hne. cbn [negb]. unfold semantic_type_for_row. rewrite Hd, extension_from_name_spec, Hn. cbv zeta in Hl |- *.
  rewrite Hn in Hl. set (ext := extract_extension_after_dot (name_str names rec)) in *.
  destruct (is_nil ext) eqn:Ee.
  { split; [done |]. intros [<- | (e & He & _)]; [|done]. by vm_compute in Ht. }
  rewrite Hl, (type_extensions_spec _ _ _ Ht). rewrite existsb_exists. unfold extension_matches_filter. split.
  - intros (allowed & Hin & Ha). apply list_elem_of_In in Hin. rewrite Forall_forall in Hlow. specialize (Hlow _ Hin).
    assert (allowed = map ascii_lower ext) as -> by (apply orb_true_iff in Ha as [Ha | Ha]; case_bool_decide; congruence).
    destruct (decide ((t, map ascii_lower ext) ∈ SHADOWED)); [right; eauto | by left].
  - intros Hs. assert (Hin : map ascii_lower ext ∈ exts).
    { destruct Hs as [[Hs _] | (e & [= <-] & Hs)]; [done |]. revert Ht. clear - Hs. unfold SHADOWED in Hs.
      apply elem_of_cons in Hs as [[= -> ->] | Hs]; [|apply elem_of_cons in Hs as [[= -> ->] | Hs]; [|by apply not_elem_of_nil in Hs]];
        intros Ht; vm_compute in Ht; injection Ht as <-; apply (bool_decide_unpack _); by vm_compute. }
    exists (map ascii_lower ext). split; [by apply list_elem_of_In |]. by rewrite bool_decide_true.
Qed.

Definition set_extensions (f : SearchFilters) (exts : list (list Z)) : SearchFilters :=
  mkSearchFilters (hide_system f) (hide_ads f) (min_size f) (max_size f) (newer_us f) (older_us f)
    (newer_created_us f) (older_created_us f) (newer_accessed_us f) (older_accessed_us f) (attr_require f)
    (attr_exclude f) (min_descendants f) (max_descendants f) exts (resolved_ext_ids f) (exclude_lower f)
    (path_contains_lower f) (path_excludes_lower f) (type_filter f) (min_bulkiness f) (max_bulkiness f)
    (min_name_len f) (max_name_len f) (min_path_len f) (max_path_len f) (min_allocated f) (max_allocated f)
    (min_treesize f) (max_treesize f) (min_tree_allocated f) (max_tree_allocated f) (allowed_months f)
    (Filters.malformed f) (deleted f).

(** [--type disk] keeps a.iso, whose row shows "archive". *)
Lemma type_filter_exact_witness :
  let name := bytes_of "a.iso" in
  let rec := sample_record 1 0 5 1 0 8 in
  let row := make_display_row 0 67 rec name ([67; 58; 92] ++ name) (mkRowForensics false false None) in
  matches_extension id (fun c => [c]) (set_extensions no_filters DISK_IMAGES) name rec = true
  /\ semantic_type_for_row row = bytes_of "archive".
Proof.
  split; [|by vm_compute].
  apply (type_filter_exact id (fun c => [c]) (bytes_of "disk") DISK_IMAGES _ _ _
    (make_display_row 0 67 (sample_record 1 0 5 1 0 8) (bytes_of "a.iso") ([67; 58; 92] ++ bytes_of "a.iso") (mkRowForensics false false None)));
    try (by vm_compute).
  - by apply Forall_forall.
  - right. exists (bytes_of "iso"). split; [by vm_compute |]. apply (bool_decide_unpack _). by vm_compute.
Defined.
