(* ===== verification/QueryText.v ===== *)
(** The text of a query: numbers, sizes, months, attributes, extension lists and path
    patterns ([crates/uffs-core/src/search/filters/time_parsing.rs], [attr_parsing.rs],
    [path_normalize.rs], [mod.rs]).

    Strings are UTF-8 bytes; [str::trim], [to_ascii_lowercase] and the parsing of integers
    are the standard library's, written out here. *)
From stdpp Require Import strings.
From S2P Require Import Prelude Text CaseFold Calendar Glob CsrIndex TrigramIndex IndexDelta Bloom CompactIndex PathLen UsnBatch UsnPatch Filters Fields PathResolve Derived.
Local Open Scope string_scope.
Local Open Scope list_scope.
Local Open Scope Z_scope.

(** * Strings of the standard library *)

Definition COMMA : Z := 44.
Definition BANG : Z := 33.
Definition PLUS : Z := 43.
Definition MINUS : Z := 45.

(** [char::is_whitespace]: the Unicode property White_Space. *)
Definition is_whitespace (c : Z) : bool :=
  in_range 0x9 0xD c || (c =? 0x20) || (c =? 0x85) || (c =? 0xA0) || (c =? 0x1680) || in_range 0x2000 0x200A c
  || (c =? 0x2028) || (c =? 0x2029) || (c =? 0x202F) || (c =? 0x205F) || (c =? 0x3000).

Fixpoint drop_whitespace (cs : list Z) : list Z :=
  match cs with c :: rest => if is_whitespace c then drop_whitespace rest else cs | [] => [] end.

(** [str::trim]. *)
Definition str_trim (s : list Z) : list Z :=
  utf8_string (rev (drop_whitespace (rev (drop_whitespace (str_chars s))))).

Definition to_ascii_lowercase (s : list Z) : list Z := map ascii_lower s.
Definition ascii_upper (b : Z) : Z := if (97 <=? b) && (b <=? 122) then b - 32 else b.
Definition to_ascii_uppercase (s : list Z) : list Z := map ascii_upper s.

(** [str::strip_prefix] and [str::strip_suffix]. *)
Definition strip_prefix (prefix s : list Z) : option (list Z) :=
  if starts_with s prefix then Some (drop (length prefix) s) else None.
Definition strip_suffix (suffix s : list Z) : option (list Z) :=
  if ends_with s suffix then Some (take (length s - length suffix) s) else None.

(** [str::split_once] at an ASCII character. *)
Fixpoint split_once (b : Z) (s : list Z) : option (list Z * list Z) :=
  match s with
  | [] => None
  | c :: s => if c =? b then Some ([], s) else match split_once b s with Some (l, r) => Some (c :: l, r) | None => None end
  end.

Definition is_digit (c : Z) : bool := (48 <=? c) && (c <=? 57).

Fixpoint digits_value (acc : Z) (s : list Z) : option Z :=
  match s with
  | [] => Some acc
  | c :: s => if is_digit c then digits_value (acc * 10 + (c - 48)) s else None
  end.

(** [str::parse] of an integer type with the range [lo .. hi]: a sign (minus only for a
    signed type) and at least one digit; a value out of range is an error. *)
Definition parse_integer (lo hi : Z) (s : list Z) : option Z :=
  let '(negative, digits) :=
    match s with
    | c :: rest => if c =? PLUS then (false, rest) else if (lo <? 0) && (c =? MINUS) then (true, rest) else (false, s)
    | [] => (false, [])
    end in
  if is_nil digits then None
  else
    let? v := digits_value 0 digits in
    let v := if negative then - v else v in
    if (lo <=? v) && (v <=? hi) then Some v else None.

Definition parse_u64 (s : list Z) : option Z := parse_integer 0 U64_MAX s.
Definition parse_i64 (s : list Z) : option Z := parse_integer (- 2 ^ 63) (2 ^ 63 - 1) s.

(** The patterns of a [match] on a string. *)
Definition str_is (s : list Z) (literals : list string) : bool := existsb (fun lit => bool_decide (s = bytes_of lit)) literals.

(** * Sizes *)

Inductive ParseSizeError := EmptySize | InvalidNumber (spec : list Z) | Overflow (spec : list Z).

Definition SIZE_SUFFIXES : list (list Z * Z) := [
  (bytes_of "TB", 1024 * 1024 * 1024 * 1024); (bytes_of "GB", 1024 * 1024 * 1024); (bytes_of "MB", 1024 * 1024);
  (bytes_of "KB", 1024); (bytes_of "B", 1)]%string.

(** [find_map] over the suffix table. *)
Fixpoint find_suffix (table : list (list Z * Z)) (upper : list Z) : option (list Z * Z) :=
  match table with
  | [] => None
  | (suffix, mult) :: table =>
      match strip_suffix suffix upper with Some rest => Some (rest, mult) | None => find_suffix table upper end
  end.

Definition parse_size (spec : list Z) : Z + ParseSizeError :=
  let trimmed := str_trim spec in
  if is_nil trimmed then inr EmptySize
  else
    let upper := to_ascii_uppercase trimmed in
    let '(digits, multiplier) := default (upper, 1) (find_suffix SIZE_SUFFIXES upper) in
    match parse_u64 (str_trim digits) with
    | None => inr (InvalidNumber spec)
    | Some count => if count * multiplier <=? U64_MAX then inl (count * multiplier) else inr (Overflow spec)
    end.

(** * Months *)

Definition months_of (lower : list Z) : list Z :=
  if str_is lower ["january"; "jan"] then [1] else if str_is lower ["february"; "feb"] then [2]
  else if str_is lower ["march"; "mar"] then [3] else if str_is lower ["april"; "apr"] then [4]
  else if str_is lower ["may"] then [5] else if str_is lower ["june"; "jun"] then [6]
  else if str_is lower ["july"; "jul"] then [7] else if str_is lower ["august"; "aug"] then [8]
  else if str_is lower ["september"; "sep"] then [9] else if str_is lower ["october"; "oct"] then [10]
  else if str_is lower ["november"; "nov"] then [11] else if str_is lower ["december"; "dec"] then [12]
  else if str_is lower ["q1"] then [1; 2; 3] else if str_is lower ["q2"] then [4; 5; 6]
  else if str_is lower ["q3"] then [7; 8; 9] else if str_is lower ["q4"] then [10; 11; 12]
  else [].

Definition parse_month_spec (spec : list Z) : list Z :=
  sort_dedup (split_byte COMMA spec ≫= fun token => months_of (to_ascii_lowercase (str_trim token))).

(** * Attributes *)

Definition attr_bit (name : list Z) : Z :=
  if str_is name ["readonly"; "read-only"; "r"] then 0x0001
  else if str_is name ["hidden"; "h"] then 0x0002
  else if str_is name ["system"; "s"] then 0x0004
  else if str_is name ["directory"; "dir"; "d"] then 0x0010
  else if str_is name ["archive"; "a"] then 0x0020
  else if str_is name ["device"] then 0x0040
  else if str_is name ["normal"] then 0x0080
  else if str_is name ["temporary"; "temp"; "t"] then 0x0100
  else if str_is name ["sparse"] then 0x0200
  else if str_is name ["reparse"] then 0x0400
  else if str_is name ["compressed"; "c"] then 0x0800
  else if str_is name ["offline"; "o"] then 0x1000
  else if str_is name ["notindexed"; "notcontent"; "n"] then 0x2000
  else if str_is name ["encrypted"; "e"] then 0x4000
  else if str_is name ["integrity"; "i"] then 0x8000
  else if str_is name ["virtual"; "v"] then 0x00010000
  else if str_is name ["noscrub"; "no_scrub_data"; "x"] then 0x00020000
  else if str_is name ["pinned"; "p"] then 0x00080000
  else if str_is name ["unpinned"; "u"] then 0x00100000
  else 0.

Definition expand_attr_preset (token : list Z) : option (list Z) :=
  if str_is token ["system-files"; "system_files"; "sysfiles"] then Some (bytes_of "hidden,system")
  else if str_is token ["user-files"; "user_files"; "userfiles"] then Some (bytes_of "!hidden,!system")
  else if str_is token ["compressed-encrypted"; "compressed_encrypted"; "compenc"] then Some (bytes_of "compressed,encrypted")
  else None.

Definition expand_attr_spec (spec : list Z) : list Z :=
  join_byte COMMA (split_byte COMMA spec ≫= fun raw =>
    let token := str_trim raw in
    let lower := to_ascii_lowercase token in
    match (let? inner := strip_prefix [BANG] lower in expand_attr_preset inner) with
    | Some expanded => split_byte COMMA expanded
    | None => match expand_attr_preset lower with Some expanded => split_byte COMMA expanded | None => [token] end
    end).

(** The recursion is into the expansion of a preset; [fuel] bounds its depth. *)
Fixpoint parse_attr_require (fuel : nat) (spec : list Z) : option Z :=
  match fuel with
  | O => None
  | S fuel =>
      foldl (fun bits raw_part =>
        let? bits := bits in
        let lowered := to_ascii_lowercase (str_trim raw_part) in
        if starts_with lowered [BANG] then Some bits
        else match expand_attr_preset lowered with
             | Some expanded => let? inner := parse_attr_require fuel expanded in Some (Z.lor bits inner)
             | None => Some (Z.lor bits (attr_bit lowered))
             end) (Some 0) (split_byte COMMA spec)
  end.

Fixpoint parse_attr_exclude (fuel : nat) (spec : list Z) : option Z :=
  match fuel with
  | O => None
  | S fuel =>
      foldl (fun bits raw_part =>
        let? bits := bits in
        let lowered := to_ascii_lowercase (str_trim raw_part) in
        let? bits :=
          match strip_prefix [BANG] lowered with
          | Some name =>
              match expand_attr_preset name with
              | Some expanded => let? inner := parse_attr_exclude fuel expanded in Some (Z.lor bits inner)
              | None => Some (Z.lor bits (attr_bit name))
              end
          | None => Some bits
          end in
        if starts_with lowered [BANG] then Some bits
        else match expand_attr_preset lowered with
             | Some expanded => let? inner := parse_attr_exclude fuel expanded in Some (Z.lor bits inner)
             | None => Some bits
             end) (Some 0) (split_byte COMMA spec)
  end.

(** Presets expand to primitive attributes. *)
Definition ATTR_FUEL : nat := 2.

(** * Paths and extensions *)

Fixpoint normalize_loop (prev_was_sep : bool) (cs : list Z) : list Z :=
  match cs with
  | [] => []
  | ch :: cs =>
      if (ch =? BACKSLASH) || (ch =? SLASH)
      then if prev_was_sep then normalize_loop true cs else BACKSLASH :: normalize_loop true cs
      else ch :: normalize_loop false cs
  end.

(** [normalize_path_separators]; the separators are ASCII, so bytes and characters agree. *)
Definition normalize_path_separators (input : list Z) : list Z := normalize_loop false input.

Definition parse_path_excludes (spec : option (list Z)) : option (list (list Z)) :=
  let? spec := spec in
  let entries := map (fun entry => normalize_path_separators (to_ascii_lowercase entry))
    (List.filter (fun entry => negb (is_nil entry)) (map str_trim (split_byte COMMA spec))) in
  if is_nil entries then None else Some entries.

(** [expand_ext_spec]. *)
Definition expand_ext_spec (spec : list Z) : list Z :=
  join_byte COMMA (split_byte COMMA spec ≫= fun raw =>
    let token := to_ascii_lowercase (str_trim raw) in
    let clean := default token (strip_prefix [DOT] token) in
    match expand_collection clean with Some exts => exts | None => [str_trim raw] end).

(** The extension list of [SearchFilters::from_params]. *)
Definition parse_ext_filter (to_lowercase : list Z -> list Z) (ext_list : list Z) : list (list Z) :=
  split_byte COMMA ext_list ≫= fun segment =>
    let token := to_lowercase (trim_start_dots (str_trim segment)) in
    if is_nil token then [] else match expand_collection token with Some exts => exts | None => [token] end.

(** * Trimming *)

Definition ascii_bytes (s : list Z) : Prop := Forall (fun b => 0 <= b < 0x80) s.

Lemma utf8_string_of_ascii s : ascii_bytes s -> utf8_string s = s.
Proof.
  induction 1 as [|b s Hb _ IH]; [done |]. rewrite utf8_string_cons, IH. unfold utf8_encode.
  by replace (b <? 0x80) with true by lia.
Qed.

Lemma str_chars_of_ascii s : ascii_bytes s -> str_chars s = s.
Proof.
  intros Hs. unfold str_chars. rewrite <- (utf8_string_of_ascii s Hs) at 1. rewrite utf8_decode_string; [done |].
  eapply Forall_impl; [exact Hs |]. intros b Hb. unfold is_scalar. cbn beta in Hb. lia.
Qed.

(** Printable ASCII, which trimming leaves alone. *)
Definition graphic (s : list Z) : Prop := Forall (fun b => 33 <= b <= 126) s.

Lemma graphic_ascii s : graphic s -> ascii_bytes s.
Proof. intros H. eapply Forall_impl; [exact H |]. cbn. lia. Qed.

Lemma drop_whitespace_graphic s : graphic s -> drop_whitespace s = s.
Proof.
  destruct 1 as [|b s Hb _]; [done |]. cbn [drop_whitespace]. unfold is_whitespace, in_range.
  by replace (_ || _) with false by lia.
Qed.

Lemma graphic_rev s : graphic s -> graphic (rev s).
Proof. apply Forall_rev. Qed.

Lemma str_trim_graphic s : graphic s -> str_trim s = s.
Proof.
  intros Hs. unfold str_trim. rewrite str_chars_of_ascii by by apply graphic_ascii.
  rewrite (drop_whitespace_graphic s) by done. rewrite (drop_whitespace_graphic (rev s)) by by apply graphic_rev.
  rewrite rev_involutive. by apply utf8_string_of_ascii, graphic_ascii.
Qed.

(** * Numbers *)

(** The decimal digits of a number, as [Display] prints them. *)
Fixpoint decimal_loop (fuel : nat) (n : Z) : list Z :=
  match fuel with
  | O => []
  | S fuel => (if n <? 10 then [] else decimal_loop fuel (n / 10)) ++ [48 + n mod 10]
  end.

Definition decimal (n : Z) : list Z := decimal_loop 20 n.

Lemma digits_value_app acc a b v : digits_value acc a = Some v -> digits_value acc (a ++ b) = digits_value v b.
Proof.
  revert acc. induction a as [|c a IH]; intros acc; cbn; [by intros [= ->] |]. destruct (is_digit c); [apply IH | done].
Qed.

Lemma decimal_loop_spec fuel n :
  0 <= n < 10 ^ Z.of_nat fuel -> (0 < fuel)%nat ->
  digits_value 0 (decimal_loop fuel n) = Some n /\ Forall (fun c => is_digit c = true) (decimal_loop fuel n) /\ decimal_loop fuel n <> [].
Proof.
  revert n. induction fuel as [|fuel IH]; intros n Hn Hf; [lia |]. cbn [decimal_loop].
  assert (Hd : is_digit (48 + n mod 10) = true) by (unfold is_digit; pose proof (Z.mod_pos_bound n 10); lia).
  destruct (Z.ltb_spec n 10) as [Hlt | Hge].
  - rewrite Z.mod_small in Hd by lia. cbn [app digits_value]. rewrite Z.mod_small, Hd by lia.
    split_and!; [f_equal; lia | by repeat constructor | done].
  - rewrite Nat2Z.inj_succ, Z.pow_succ_r in Hn by lia.
    assert (Hf' : (0 < fuel)%nat) by (destruct fuel; [change (10 ^ Z.of_nat 0) with 1 in Hn; lia | lia]).
    destruct (IH (n / 10)) as (Hv & Ha & Hne); [split; [apply Z.div_pos; lia | apply Z.div_lt_upper_bound; lia] | done |].
    rewrite (digits_value_app _ _ _ _ Hv). cbn [digits_value]. rewrite Hd. split_and!.
    + f_equal. pose proof (Z.div_mod n 10). lia.
    + apply Forall_app. split; [done |]. by repeat constructor.
    + by destruct (decimal_loop fuel (n / 10)).
Qed.

Lemma decimal_spec n :
  is_u64 n -> digits_value 0 (decimal n) = Some n /\ Forall (fun c => is_digit c = true) (decimal n) /\ decimal n <> [].
Proof. intros Hn. apply decimal_loop_spec; [|lia]. cbn in *. lia. Qed.

Lemma digits_graphic s : Forall (fun c => is_digit c = true) s -> graphic s.
Proof. intros H. eapply Forall_impl; [exact H |]. unfold is_digit. cbn. lia. Qed.

(** What an integer type prints, it parses. *)
Lemma parse_decimal lo hi n :
  is_u64 n -> lo <= 0 -> parse_integer lo hi (decimal n) = if n <=? hi then Some n else None.
Proof.
  intros Hn Hlo. destruct (decimal_spec n Hn) as (Hv & Ha & Hne). unfold parse_integer.
  destruct (decimal n) as [|c s] eqn:E; [done |]. apply Forall_cons in Ha as [Hc Hs]. unfold is_digit in Hc.
  replace (c =? PLUS) with false by (unfold PLUS; lia). replace (c =? MINUS) with false by (unfold MINUS; lia).
  rewrite andb_false_r. cbn [is_nil]. rewrite Hv. cbn. by replace (lo <=? n) with true by lia.
Qed.

(** ** Sizes *)

Lemma ends_with_last s c suffix d : ends_with (s ++ [c]) (suffix ++ [d]) = true -> c = d /\ ends_with s suffix = true.
Proof.
  rewrite !ends_with_spec. intros [a E]. rewrite app_assoc in E. apply app_inj_tail in E as [E ->]. eauto.
Qed.

Lemma strip_suffix_app s suffix : strip_suffix suffix (s ++ suffix) = Some s.
Proof.
  unfold strip_suffix. rewrite (proj2 (ends_with_spec _ _)) by eauto. rewrite length_app.
  replace (length s + length suffix - length suffix)%nat with (length s) by lia. by rewrite take_app_length.
Qed.

Definition letter (c : Z) : bool := (65 <=? c) && (c <=? 90).

(** Characters that are neither a letter nor changed by [to_ascii_uppercase]. *)
Definition plain (c : Z) : bool := negb (letter c) && (ascii_upper c =? c).

Lemma to_upper_plain s : Forall (fun c => plain c = true) s -> to_ascii_uppercase s = s.
Proof.
  unfold to_ascii_uppercase. induction 1 as [|c s Hc _ IH]; [done |]. cbn. rewrite IH. f_equal.
  unfold plain in Hc. lia.
Qed.

Lemma to_upper_not_letters s t :
  to_ascii_uppercase s = t -> Forall (fun c => letter c = false) t -> s = t.
Proof.
  intros <-. induction s as [|c s IH]; [done |]. cbn. intros [Hc Hs]%Forall_cons. f_equal; [|by apply IH].
  revert Hc. unfold letter, ascii_upper. destruct ((97 <=? c) && (c <=? 122)) eqn:E; lia.
Qed.

(** *** Trimming, on characters *)

Abbreviation blank cs := (Forall (fun c => is_whitespace c = true) cs).

Definition trim_chars (cs : list Z) : list Z := rev (drop_whitespace (rev (drop_whitespace cs))).

Lemma str_trim_string cs : scalars cs -> str_trim (utf8_string cs) = utf8_string (trim_chars cs).
Proof. intros Hc. unfold str_trim, str_chars. by rewrite utf8_decode_string. Qed.

Lemma drop_whitespace_split cs : exists ws, cs = ws ++ drop_whitespace cs /\ blank ws.
Proof.
  induction cs as [|c cs (ws & E & Hw)]; [by exists [] |]. cbn. destruct (is_whitespace c) eqn:Ec.
  - exists (c :: ws). split; [cbn; by f_equal | by constructor].
  - by exists [].
Qed.

Lemma drop_whitespace_app ws cs : blank ws -> drop_whitespace (ws ++ cs) = drop_whitespace cs.
Proof. induction 1 as [|c ws Hc _ IH]; cbn; [done |]. by rewrite Hc. Qed.

Lemma drop_whitespace_blank cs : blank cs -> drop_whitespace cs = [].
Proof. intros H. rewrite <- (app_nil_r cs). by rewrite drop_whitespace_app. Qed.

Lemma trim_split cs : exists a b, cs = a ++ trim_chars cs ++ b /\ blank a /\ blank b.
Proof.
  destruct (drop_whitespace_split cs) as (a & E & Ha).
  destruct (drop_whitespace_split (rev (drop_whitespace cs))) as (b & Eb & Hb).
  exists a, (rev b). split_and!; [| done | by apply Forall_rev].
  unfold trim_chars. rewrite <- rev_app_distr, <- Eb, rev_involutive. done.
Qed.

(** A text that starts and ends with no white space. *)
Definition tight (t : list Z) : Prop :=
  exists c u d v, t = c :: u /\ t = v ++ [d] /\ is_whitespace c = false /\ is_whitespace d = false.

Lemma trim_tight a t b : blank a -> tight t -> blank b -> trim_chars (a ++ t ++ b) = t.
Proof.
  intros Ha (c & u & d & v & E1 & E2 & Hc & Hd) Hb. unfold trim_chars. rewrite drop_whitespace_app by done.
  rewrite E1 at 1. cbn [app drop_whitespace]. rewrite Hc. change (c :: u ++ b) with ((c :: u) ++ b). rewrite <- E1.
  rewrite rev_app_distr, drop_whitespace_app by by apply Forall_rev.
  rewrite E2, rev_app_distr. cbn. rewrite Hd. cbn. by rewrite rev_involutive.
Qed.

Lemma trim_blank cs : trim_chars cs = [] <-> blank cs.
Proof.
  split.
  - intros E. destruct (trim_split cs) as (a & b & H & Ha & Hb). rewrite E in H. cbn in H. subst cs.
    apply Forall_app. by split.
  - intros H. unfold trim_chars. by rewrite (drop_whitespace_blank cs).
Qed.

(** *** Numerals *)

(** What [str::parse::<u64>] accepts: digits, after a plus sign at most, of a value that fits. *)
Definition numeral (s : list Z) (n : Z) : Prop :=
  exists sign digits, s = sign ++ digits /\ (sign = [] \/ sign = [PLUS]) /\ digits <> [] /\
    digits_value 0 digits = Some n /\ n <= U64_MAX.

Lemma digits_value_digits acc s n : digits_value acc s = Some n -> Forall (fun c => is_digit c = true) s.
Proof.
  revert acc. induction s as [|c s IH]; intros acc; cbn; [by constructor |]. destruct (is_digit c) eqn:E; [|done].
  intros H. constructor; [done | by eapply IH].
Qed.

Lemma digits_value_nonneg acc s n : 0 <= acc -> digits_value acc s = Some n -> 0 <= n.
Proof.
  revert acc. induction s as [|c s IH]; intros acc Ha; cbn; [intros [= <-]; done |].
  destruct (is_digit c) eqn:E; [|done]. apply IH. unfold is_digit in E. lia.
Qed.

Lemma parse_u64_numeral s n : parse_u64 s = Some n <-> numeral s n.
Proof.
  assert (Hdig : forall digits, digits <> [] ->
    ((let? v := digits_value 0 digits in if (0 <=? v) && (v <=? U64_MAX) then Some v else None) = Some n <->
     digits_value 0 digits = Some n /\ n <= U64_MAX)).
  { intros digits _. destruct (digits_value 0 digits) as [v |] eqn:E; cbn; [|naive_solver].
    pose proof (digits_value_nonneg 0 _ _ ltac:(lia) E). replace (0 <=? v) with true by lia. cbn.
    destruct (Z.leb_spec v U64_MAX); naive_solver lia. }
  unfold parse_u64, parse_integer. destruct s as [|c rest].
  { split; [done |]. intros (sign & [|] & E & [-> | ->] & ? & _); done. }
  change (0 <? 0) with false. cbn [andb]. destruct (Z.eqb_spec c PLUS) as [-> | Hc].
  - destruct rest as [|c rest]; cbn [is_nil].
    + split; [done |]. intros (sign & digits & E & [-> | ->] & Hne & Hv & _); cbn in E; [subst; done |].
      injection E as E. by rewrite <- E in Hne.
    + rewrite (Hdig (c :: rest)) by done. split.
      * intros [Hv Hn]. exists [PLUS], (c :: rest). split_and!; auto.
      * intros (sign & digits & E & [-> | ->] & Hne & Hv & Hn); cbn in E.
        -- subst digits. done.
        -- injection E as E. by subst digits.
  - cbn [is_nil]. rewrite (Hdig (c :: rest)) by done. split.
    + intros [Hv Hn]. exists [], (c :: rest). split_and!; auto.
    + intros (sign & digits & E & [-> | ->] & Hne & Hv & Hn); cbn in E; [by subst digits | congruence].
Qed.

Lemma numeral_chars s n : numeral s n -> Forall (fun c => c = PLUS \/ is_digit c = true) s.
Proof.
  intros (sign & digits & -> & Hs & _ & Hv & _). apply digits_value_digits in Hv. apply Forall_app. split.
  - destruct Hs as [-> | ->]; [constructor | by repeat constructor; left].
  - eapply Forall_impl; [exact Hv |]. auto.
Qed.

Lemma numeral_tight s n : numeral s n -> tight s.
Proof.
  intros H. pose proof (numeral_chars _ _ H) as Hc. destruct H as (sign & digits & E & _ & Hne & _).
  assert (Hw : Forall (fun c => is_whitespace c = false) s).
  { eapply Forall_impl; [exact Hc |]. cbn. intros c. unfold PLUS, is_digit, is_whitespace, in_range. lia. }
  destruct s as [|c u]; [by destruct sign, digits |]. pose proof Hw as [Hw0 _]%Forall_cons.
  destruct (exists_last (l := c :: u)) as (v & d & Ed); [done |]. exists c, u, d, v. split_and!; try done.
  rewrite Ed in Hw. by apply Forall_app in Hw as [_ [? _]%Forall_cons].
Qed.

(** *** Units *)

Definition unit_ok (unit : list Z) (mult : Z) : Prop := (to_ascii_uppercase unit, mult) ∈ ([], 1) :: SIZE_SUFFIXES.

Lemma strip_suffix_string cs suffix :
  scalars cs -> ascii_bytes suffix ->
  strip_suffix suffix (utf8_string cs) = (let? rest := strip_suffix suffix cs in Some (utf8_string rest)).
Proof.
  intros Hc Hs. assert (Hsc : scalars suffix) by (eapply Forall_impl; [exact Hs |]; intros b Hb; unfold is_scalar; cbn in Hb; lia).
  destruct (ends_with cs suffix) eqn:E.
  - apply ends_with_spec in E as [a ->]. rewrite utf8_string_app, (utf8_string_of_ascii suffix) by done.
    by rewrite !strip_suffix_app.
  - unfold strip_suffix. rewrite E. replace (ends_with (utf8_string cs) suffix) with false; [done |].
    symmetry. apply not_true_iff_false. intros [a Ea]%ends_with_spec. rewrite <- (utf8_string_of_ascii suffix Hs) in Ea.
    apply utf8_string_suffix in Ea as [l ->]; [|done..]. apply not_true_iff_false in E. apply E, ends_with_spec. by exists l.
Qed.

Lemma find_suffix_string table cs :
  scalars cs -> Forall (fun p => ascii_bytes p.1) table ->
  find_suffix table (utf8_string cs) = (let? found := find_suffix table cs in Some (utf8_string found.1, found.2)).
Proof.
  intros Hc. induction 1 as [|[suffix mult] table Hs _ IH]; [done |]. cbn [find_suffix].
  rewrite strip_suffix_string by done. by destruct (strip_suffix suffix cs).
Qed.

Lemma size_suffixes_ascii : Forall (fun p => ascii_bytes p.1) SIZE_SUFFIXES.
Proof. apply (bool_decide_unpack _). by vm_compute. Qed.

(** The number and the unit that the suffix table splits a text into. *)
Definition size_parts (cs : list Z) : list Z * Z := default (cs, 1) (find_suffix SIZE_SUFFIXES cs).

Lemma strip_suffix_Some suffix s rest : strip_suffix suffix s = Some rest -> s = rest ++ suffix.
Proof.
  unfold strip_suffix. destruct (ends_with s suffix) eqn:E; [|done]. apply ends_with_spec in E as [a ->].
  intros [= <-]. rewrite length_app, Nat.add_sub. by rewrite take_app_length.
Qed.

Lemma find_suffix_Some table cs rest mult :
  find_suffix table cs = Some (rest, mult) -> exists suffix, (suffix, mult) ∈ table /\ cs = rest ++ suffix.
Proof.
  induction table as [|[suffix m] table IH]; [done |]. cbn [find_suffix].
  destruct (strip_suffix suffix cs) as [r |] eqn:E.
  - intros [= <- <-]. apply strip_suffix_Some in E. exists suffix. split; [by left | done].
  - intros H. destruct (IH H) as (s & Hs & ?). exists s. split; [by right | done].
Qed.

Lemma size_parts_sound cs : exists suffix, (suffix, (size_parts cs).2) ∈ ([], 1) :: SIZE_SUFFIXES /\ cs = (size_parts cs).1 ++ suffix.
Proof.
  unfold size_parts. destruct (find_suffix SIZE_SUFFIXES cs) as [[rest m] |] eqn:E; cbn.
  - apply find_suffix_Some in E as (s & Hs & ->). exists s. split; [by right | done].
  - exists []. split; [by left | by rewrite app_nil_r].
Qed.

Lemma ends_with_letter s suffix : Forall (fun c => letter c = false) s -> ends_with s (suffix ++ [66]) = false.
Proof.
  intros Hs. apply not_true_iff_false. intros [a ->]%ends_with_spec. rewrite app_assoc in Hs.
  by apply Forall_app in Hs as [_ [? _]%Forall_cons].
Qed.

(** The table finds the unit after a text without letters. *)
Lemma size_parts_complete head up mult :
  Forall (fun c => letter c = false) head -> (up, mult) ∈ ([], 1) :: SIZE_SUFFIXES -> size_parts (head ++ up) = (head, mult).
Proof.
  intros Hh Hin. unfold size_parts.
  assert (Hx : forall x y c, ends_with (head ++ [x; y]) [c; y] = (x =? c)).
  { intros x y c. destruct (Z.eqb_spec x c) as [-> | N]; [apply ends_with_spec; by exists head |].
    apply not_true_iff_false. intros [a E]%ends_with_spec. change [x; y] with ([x] ++ [y]) in E.
    change [c; y] with ([c] ++ [y]) in E. rewrite !app_assoc in E. apply app_inj_tail in E as [E _].
    by apply app_inj_tail in E as [_ ?]. }
  assert (H1 : forall c, letter c = true -> ends_with (head ++ [66]) [c; 66] = false).
  { intros c Hc. apply not_true_iff_false. intros [a E]%ends_with_spec. change [c; 66] with ([c] ++ [66]) in E.
    rewrite app_assoc in E. apply app_inj_tail in E as [-> _]. apply Forall_app in Hh as [_ [? _]%Forall_cons]. congruence. }
  unfold SIZE_SUFFIXES in *.
  change (bytes_of "TB") with [84; 66] in *. change (bytes_of "GB") with [71; 66] in *. change (bytes_of "MB") with [77; 66] in *.
  change (bytes_of "KB") with [75; 66] in *. change (bytes_of "B") with [66] in *.
  repeat (apply elem_of_cons in Hin as [[= -> ->] | Hin]); [.. | by apply not_elem_of_nil in Hin]; cbn [find_suffix].
  - rewrite app_nil_r. unfold strip_suffix. cbn -[ends_with].
    pose proof (fun c => ends_with_letter head [c] Hh) as Hl. cbn [app] in Hl.
    pose proof (ends_with_letter head [] Hh) as Hl0. cbn [app] in Hl0. by rewrite !Hl, Hl0.
  - by rewrite strip_suffix_app.
  - rewrite (strip_suffix_app head [71; 66]). unfold strip_suffix. cbn -[ends_with]. by rewrite !Hx.
  - rewrite (strip_suffix_app head [77; 66]). unfold strip_suffix. cbn -[ends_with]. by rewrite !Hx.
  - rewrite (strip_suffix_app head [75; 66]). unfold strip_suffix. cbn -[ends_with]. by rewrite !Hx.
  - rewrite (strip_suffix_app head [66]). unfold strip_suffix. cbn -[ends_with]. by rewrite !H1.
Qed.

(** *** Sizes *)

(** A number and a unit in any case, with white space around and between. *)
Definition size_text (cs : list Z) (n mult : Z) : Prop :=
  exists b1 number b2 unit b3, cs = b1 ++ number ++ b2 ++ unit ++ b3 /\
    blank b1 /\ blank b2 /\ blank b3 /\ numeral number n /\ unit_ok unit mult.

Lemma to_upper_string cs : scalars cs -> to_ascii_uppercase (utf8_string cs) = utf8_string (to_ascii_uppercase cs).
Proof.
  unfold to_ascii_uppercase. induction 1 as [|c cs Hc _ IH]; [done |].
  cbn [map]. rewrite !utf8_string_cons, map_app, IH. f_equal. apply scalar_range in Hc.
  assert (Hid : forall b, 0x80 <= b -> ascii_upper b = b) by (intros b Hb; unfold ascii_upper; by replace (_ && _) with false by lia).
  unfold utf8_encode at 1. destruct (Z.ltb_spec c 0x80) as [Hlt | Hge].
  - cbn [map]. unfold utf8_encode. replace (ascii_upper c <? 0x80) with true; [done |].
    unfold ascii_upper. destruct (_ && _) eqn:E; lia.
  - rewrite (Hid c) by lia. unfold utf8_encode. replace (c <? 0x80) with false by lia.
    pose proof (Z.div_mod c 64). assert (forall k, 0 <= k mod 64 < 64) by (intros; apply Z.mod_pos_bound; lia).
    assert (0 <= c / 64 /\ 0 <= c / 4096 /\ 0 <= c / 262144) as (? & ? & ?) by (split_and!; apply Z.div_pos; lia).
    destruct (c <? 0x800); [|destruct (c <? 0x10000)]; cbn [map]; rewrite !Hid; try done; try lia;
      match goal with |- context [?k mod 64] => specialize (H0 k); lia end.
Qed.

Lemma scalars_upper cs : scalars cs -> scalars (to_ascii_uppercase cs).
Proof.
  intros H. apply Forall_map. eapply Forall_impl; [exact H |]. intros c. cbn. unfold is_scalar, ascii_upper.
  destruct ((97 <=? c) && (c <=? 122)) eqn:E; lia.
Qed.

Lemma whitespace_plain s : blank s -> Forall (fun c => plain c = true) s.
Proof.
  intros H. eapply Forall_impl; [exact H |]. cbn. intros c. unfold is_whitespace, in_range, plain, letter, ascii_upper.
  destruct ((97 <=? c) && (c <=? 122)) eqn:E; lia.
Qed.

Lemma numeral_plain s n : numeral s n -> Forall (fun c => plain c = true) s.
Proof.
  intros H%numeral_chars. eapply Forall_impl; [exact H |]. cbn. intros c.
  unfold is_digit, PLUS, plain, letter, ascii_upper. destruct ((97 <=? c) && (c <=? 122)) eqn:E; lia.
Qed.

Lemma plain_not_letters s : Forall (fun c => plain c = true) s -> Forall (fun c => letter c = false) s.
Proof. intros H. eapply Forall_impl; [exact H |]. cbn. unfold plain. intros c. destruct (letter c); done. Qed.

Lemma numeral_string s n : numeral s n -> utf8_string s = s.
Proof.
  intros H%numeral_chars. apply utf8_string_of_ascii. eapply Forall_impl; [exact H |].
  cbn. unfold is_digit, PLUS. lia.
Qed.

Lemma unit_tight unit mult : unit_ok unit mult -> unit = [] \/ exists v d, unit = v ++ [d] /\ is_whitespace d = false.
Proof.
  intros H. destruct unit as [|c u]; [by left | right]. destruct (exists_last (l := c :: u)) as (v & d & E); [done |].
  exists v, d. split; [done |]. unfold unit_ok in H. rewrite E in H. unfold to_ascii_uppercase in H. rewrite map_app in H.
  assert (Hl : ascii_upper d = 66).
  { repeat (apply elem_of_cons in H as [[= H _] | H]); [by destruct (map ascii_upper v) | .. | by apply not_elem_of_nil in H];
      cbn in H; apply (f_equal last) in H; rewrite last_snoc in H; by injection H. }
  unfold ascii_upper, is_whitespace, in_range in *. destruct ((97 <=? d) && (d <=? 122)) eqn:Ed; lia.
Qed.

Lemma size_text_parts cs n mult :
  size_text cs n mult ->
  exists head, trim_chars cs <> [] /\ size_parts (to_ascii_uppercase (trim_chars cs)) = (head, mult) /\ numeral (utf8_string (trim_chars head)) n.
Proof.
  intros (b1 & number & b2 & unit & b3 & -> & H1 & H2 & H3 & Hn & Hu).
  pose proof (numeral_tight _ _ Hn) as Hs. pose proof (numeral_plain _ _ Hn) as Hp.
  destruct (unit_tight _ _ Hu) as [-> | (v & d & -> & Hd)].
  - exists number. rewrite app_nil_l, trim_tight by (done || by apply Forall_app). split_and!.
    + intros ->. by destruct Hs as (? & ? & ? & ? & ? & _).
    + rewrite to_upper_plain by done. rewrite <- (app_nil_r number) at 1.
      apply size_parts_complete; [by apply plain_not_letters | exact Hu].
    + rewrite <- (app_nil_r number), <- (app_nil_l (number ++ [])), trim_tight by done. by rewrite (numeral_string _ _ Hn).
  - assert (Hw : tight (number ++ b2 ++ v ++ [d])).
    { destruct Hs as (c & u & _ & _ & -> & _ & Hc & _). exists c, (u ++ b2 ++ v ++ [d]), d, ((c :: u) ++ b2 ++ v).
      split_and!; [done | by rewrite <- !app_assoc | done..]. }
    replace (b1 ++ number ++ b2 ++ (v ++ [d]) ++ b3) with (b1 ++ (number ++ b2 ++ v ++ [d]) ++ b3) by (by rewrite <- !app_assoc).
    rewrite trim_tight by done. exists (number ++ b2). split_and!.
    + by destruct number, b2, v.
    + unfold to_ascii_uppercase. rewrite app_assoc, map_app. fold (to_ascii_uppercase (number ++ b2)) (to_ascii_uppercase (v ++ [d])).
      assert (Forall (fun c => plain c = true) (number ++ b2)) by (apply Forall_app; split; [done | by apply whitespace_plain]).
      rewrite to_upper_plain by done. apply size_parts_complete; [by apply plain_not_letters | exact Hu].
    + rewrite <- (app_nil_l (number ++ b2)), trim_tight by done. by rewrite (numeral_string _ _ Hn).
Qed.

(** A text that is ASCII as bytes is ASCII as characters. *)
Lemma utf8_string_numeral cs n : scalars cs -> numeral (utf8_string cs) n -> utf8_string cs = cs.
Proof.
  intros Hc H. pose proof (numeral_string _ _ H) as E. apply utf8_string_inj in E; [done | | done].
  eapply Forall_impl; [exact (numeral_chars _ _ H) |]. cbn. unfold is_digit, PLUS, is_scalar. lia.
Qed.

Lemma parts_size_text cs digits mult n :
  scalars cs -> size_parts (to_ascii_uppercase (trim_chars cs)) = (digits, mult) -> numeral (utf8_string (trim_chars digits)) n ->
  size_text cs n mult.
Proof.
  intros Hc Hp Hn. destruct (trim_split cs) as (a & b & Ecs & Ha & Hb).
  destruct (size_parts_sound (to_ascii_uppercase (trim_chars cs))) as (up & Hup & Eup). rewrite Hp in Hup, Eup. cbn in Hup, Eup.
  destruct (trim_split digits) as (a' & b' & Ed & Ha' & Hb').
  assert (Hs : scalars (trim_chars digits)).
  { rewrite Ecs in Hc. apply Forall_app in Hc as [_ [Hc _]%Forall_app]. apply scalars_upper in Hc. rewrite Eup, Ed in Hc.
    by apply Forall_app in Hc as [[_ [Hc _]%Forall_app]%Forall_app _]. }
  rewrite (utf8_string_numeral _ _ Hs Hn) in Hn.
  unfold to_ascii_uppercase in Eup. apply map_eq_app in Eup as (t & unit & Et & Edig & Eu).
  assert (E : t = digits).
  { apply to_upper_not_letters; [done |]. rewrite Ed. apply plain_not_letters.
    rewrite !Forall_app. split_and!; eauto using whitespace_plain, numeral_plain. }
  subst t. exists (a ++ a'), (trim_chars digits), b', unit, b. split_and!; [| by apply Forall_app | done | done | done |].
  - rewrite Ecs at 1. rewrite Et, Ed at 1. by rewrite <- !app_assoc.
  - unfold unit_ok, to_ascii_uppercase. rewrite Eu. exact Hup.
Qed.

#[local] Arguments str_trim : simpl never.
#[local] Arguments parse_u64 : simpl never.

(** [parse_size] on characters. *)
Lemma parse_size_string cs :
  scalars cs ->
  parse_size (utf8_string cs) =
  if is_nil (trim_chars cs) then inr EmptySize else
  let '(digits, multiplier) := size_parts (to_ascii_uppercase (trim_chars cs)) in
  match parse_u64 (utf8_string (trim_chars digits)) with
  | None => inr (InvalidNumber (utf8_string cs))
  | Some count => if count * multiplier <=? U64_MAX then inl (count * multiplier) else inr (Overflow (utf8_string cs))
  end.
Proof.
  intros Hc. assert (Ht : scalars (trim_chars cs)).
  { destruct (trim_split cs) as (a & b & E & _). rewrite E in Hc. by apply Forall_app in Hc as [_ [? _]%Forall_app]. }
  unfold parse_size. rewrite str_trim_string by done.
  assert (Hnil : is_nil (utf8_string (trim_chars cs)) = is_nil (trim_chars cs)).
  { destruct Ht as [|c t Hc0 _]; [done |]. rewrite utf8_string_cons. by destruct (utf8_encode_shape c Hc0) as (b & bs & -> & _). }
  rewrite Hnil. destruct (is_nil (trim_chars cs)); [done |]. rewrite to_upper_string by done.
  pose proof (scalars_upper _ Ht) as Hu. revert Hu. generalize (to_ascii_uppercase (trim_chars cs)). intros up Hu.
  rewrite find_suffix_string by (done || apply size_suffixes_ascii).
  destruct (size_parts_sound up) as (suffix & _ & E). unfold size_parts in *.
  destruct (find_suffix SIZE_SUFFIXES up) as [[rest m] |]; cbn in E |- *; [|by rewrite str_trim_string].
  change (concat (map utf8_encode rest)) with (utf8_string rest).
  rewrite E in Hu. apply Forall_app in Hu as [Hr _]. by rewrite str_trim_string.
Qed.

(** C34: the result of [parse_size] on every text.  A numeral (a plus sign at most, digits, a
    value of 64 bits) followed by nothing or by B, KB, MB, GB or TB in any case, with white space
    allowed around and between them, is that many bytes, or an overflow error when the product
    does not fit 64 bits, never a wrapped size; a blank text is the empty error; and any other
    text is an invalid-number error.  The last two errors carry the text as it was given. *)
Theorem parse_size_exact cs :
  scalars cs ->
  (forall n mult, size_text cs n mult ->
     parse_size (utf8_string cs) = if n * mult <=? U64_MAX then inl (n * mult) else inr (Overflow (utf8_string cs))) /\
  (blank cs -> parse_size (utf8_string cs) = inr EmptySize) /\
  (~ blank cs -> (forall n mult, ~ size_text cs n mult) -> parse_size (utf8_string cs) = inr (InvalidNumber (utf8_string cs))).
Proof.
  intros Hc. rewrite parse_size_string by done. split_and!.
  - intros n mult Hs. destruct (size_text_parts cs n mult Hs) as (head & Hne & Hp & Hh).
    replace (is_nil (trim_chars cs)) with false by (by destruct (trim_chars cs)). rewrite Hp.
    by rewrite (proj2 (parse_u64_numeral _ _) Hh).
  - intros Hb%trim_blank. by rewrite Hb.
  - intros Hb Hn. destruct (is_nil (trim_chars cs)) eqn:E; [destruct Hb; apply trim_blank; by destruct (trim_chars cs) |].
    destruct (size_parts (to_ascii_uppercase (trim_chars cs))) as [digits mult] eqn:Ep.
    destruct (parse_u64 (utf8_string (trim_chars digits))) as [n |] eqn:Ev; [|done].
    apply parse_u64_numeral in Ev. destruct (Hn n mult). eapply parts_size_text; [done.. |]. exact Ev.
Qed.

(** "10 mb", a product that overflows, a unit alone and white space alone. *)
Lemma parse_size_exact_witness :
  parse_size (bytes_of " +10 mb") = inl 10485760 /\
  parse_size (bytes_of "99999999TB") = inr (Overflow (bytes_of "99999999TB")) /\
  parse_size (bytes_of " ") = inr EmptySize.
Proof.
  assert (Hs : forall s, forallb (fun c => (0 <=? c) && (c <? 128)) s = true -> scalars s /\ utf8_string s = s).
  { intros s H. assert (ascii_bytes s) as Ha.
    { apply Forall_forall. intros c Hc%list_elem_of_In. rewrite forallb_forall in H. specialize (H c Hc). lia. }
    split; [|by apply utf8_string_of_ascii]. eapply Forall_impl; [exact Ha |]. intros b Hb. unfold is_scalar. cbn beta in Hb. lia. }
  assert (Hd : forall ds n, digits_value 0 ds = Some n -> ds <> [] -> n <= U64_MAX -> numeral ds n).
  { intros ds n H1 H2 H3. exists [], ds. auto. }
  split_and!.
  - destruct (Hs (bytes_of " +10 mb") eq_refl) as [H1 H2]. rewrite <- H2.
    destruct (parse_size_exact (bytes_of " +10 mb") H1) as (H & _ & _).
    apply (H 10 (1024 * 1024)). exists [32], (bytes_of "+10"), [32], (bytes_of "mb"), []. split_and!.
    + reflexivity.
    + by repeat constructor.
    + by repeat constructor.
    + constructor.
    + exists [PLUS], (bytes_of "10"). split_and!; [reflexivity | auto | done | reflexivity | done].
    + unfold unit_ok. apply (bool_decide_unpack _). by vm_compute.
  - destruct (Hs (bytes_of "99999999TB") eq_refl) as [H1 H2]. rewrite <- H2 at 1.
    destruct (parse_size_exact (bytes_of "99999999TB") H1) as (H & _ & _). rewrite H2 in H. rewrite H2.
    apply (H 99999999 (1024 * 1024 * 1024 * 1024)). exists [], (bytes_of "99999999"), [], (bytes_of "TB"), []. split_and!.
    + reflexivity.
    + constructor.
    + constructor.
    + constructor.
    + apply Hd; [reflexivity | done | done].
    + unfold unit_ok. apply (bool_decide_unpack _). by vm_compute.
  - destruct (Hs (bytes_of " ") eq_refl) as [H1 H2]. rewrite <- H2.
    destruct (parse_size_exact (bytes_of " ") H1) as (_ & H & _). apply H. by repeat constructor.
Defined.

(** * Months *)

Lemma months_of_range lower m : m ∈ months_of lower -> 1 <= m <= 12.
Proof.
  unfold months_of. repeat (destruct (str_is lower _); [intros Hm; each_elem Hm; lia |]). intros Hm. by apply not_elem_of_nil in Hm.
Qed.

(** The months of a specification are those its parts name, in order and once each. *)
Theorem parse_month_spec_exact spec :
  ascending (parse_month_spec spec)
  /\ (forall m, m ∈ parse_month_spec spec -> 1 <= m <= 12)
  /\ forall m, m ∈ parse_month_spec spec <-> exists token, token ∈ split_byte COMMA spec /\ m ∈ months_of (to_ascii_lowercase (str_trim token)).
Proof.
  unfold parse_month_spec. destruct (sort_dedup_spec (split_byte COMMA spec ≫= fun token => months_of (to_ascii_lowercase (str_trim token)))) as [Ha He].
  split; [done |]. split.
  - intros m Hm%He. apply list_elem_of_bind in Hm as (token & Hm & _). by eapply months_of_range.
  - intros m. rewrite He, list_elem_of_bind. naive_solver.
Qed.

(** * Attributes *)

Lemma land_lor_full f a b : Z.land f (Z.lor a b) = Z.lor a b <-> Z.land f a = a /\ Z.land f b = b.
Proof.
  split.
  - intros H. split; apply Z.bits_inj'; intros n Hn; apply (f_equal (fun z => Z.testbit z n)) in H;
      rewrite Z.land_spec, Z.lor_spec in *; by destruct (Z.testbit f n), (Z.testbit a n), (Z.testbit b n).
  - intros [Ha Hb]. by rewrite Z.land_lor_distr_r, Ha, Hb.
Qed.

Lemma land_lor_zero f a b : Z.land f (Z.lor a b) = 0 <-> Z.land f a = 0 /\ Z.land f b = 0.
Proof. rewrite Z.land_lor_distr_r, Z.lor_eq_0_iff. done. Qed.

Lemma fold_lor (test : Z -> Prop) cs bits :
  (forall a b, test (Z.lor a b) <-> test a /\ test b) -> test (foldl Z.lor bits cs) <-> test bits /\ Forall test cs.
Proof.
  intros Ht. revert bits. induction cs as [|c cs IH]; intros bits; cbn [foldl]; [by rewrite Forall_nil; tauto |].
  rewrite IH, Ht, Forall_cons. tauto.
Qed.

(** A loop that adds the bits of each part. *)
Lemma fold_parts (contribution : list Z -> option Z) (step : option Z -> list Z -> option Z) parts bits :
  (forall bits part, step (Some bits) part = let? c := contribution part in Some (Z.lor bits c)) ->
  (forall part, step None part = None) ->
  foldl step (Some bits) parts = let? cs := mapM contribution parts in Some (foldl Z.lor bits cs).
Proof.
  intros Hs Hn. assert (HN : forall parts, foldl step None parts = None).
  { intros l. induction l as [|part l IH]; [done |]. cbn. by rewrite Hn. }
  revert bits. induction parts as [|part parts IH]; intros bits; [done |]. cbn [foldl mapM]. rewrite Hs.
  destruct (contribution part) as [c |]; cbn; [|apply HN]. rewrite IH. by destruct (mapM contribution parts).
Qed.

(** What one part asks of the attributes of a file: its bit set, or clear when it is
    negated; a preset asks for each of its parts; an unknown name asks for nothing. *)
Definition primitive_holds (flags : Z) (lowered : list Z) : Prop :=
  match strip_prefix [BANG] lowered with
  | Some name => Z.land flags (attr_bit name) = 0
  | None => Z.land flags (attr_bit lowered) = attr_bit lowered
  end.

Definition part_holds (flags : Z) (part : list Z) : Prop :=
  let lowered := to_ascii_lowercase (str_trim part) in
  match expand_attr_preset lowered with
  | Some expanded => Forall (primitive_holds flags) (split_byte COMMA expanded)
  | None => primitive_holds flags lowered
  end.

Definition negated_preset (part : list Z) : Prop :=
  exists name, strip_prefix [BANG] (to_ascii_lowercase (str_trim part)) = Some name /\ is_Some (expand_attr_preset name).

(** The bits one part adds, at depth [fuel]. *)
Definition require_bits (fuel : nat) (part : list Z) : option Z :=
  let lowered := to_ascii_lowercase (str_trim part) in
  if starts_with lowered [BANG] then Some 0
  else match expand_attr_preset lowered with Some expanded => parse_attr_require fuel expanded | None => Some (attr_bit lowered) end.

Definition exclude_bits (fuel : nat) (part : list Z) : option Z :=
  let lowered := to_ascii_lowercase (str_trim part) in
  let? negated := match strip_prefix [BANG] lowered with
    | Some name => match expand_attr_preset name with Some expanded => parse_attr_exclude fuel expanded | None => Some (attr_bit name) end
    | None => Some 0 end in
  let? plain := if starts_with lowered [BANG] then Some 0
    else match expand_attr_preset lowered with Some expanded => parse_attr_exclude fuel expanded | None => Some 0 end in
  Some (Z.lor negated plain).

Lemma expand_attr_preset_cases token expanded :
  expand_attr_preset token = Some expanded ->
  expanded = bytes_of "hidden,system" \/ expanded = bytes_of "!hidden,!system" \/ expanded = bytes_of "compressed,encrypted".
Proof. unfold expand_attr_preset. repeat (destruct (str_is token _); [intros [= <-]; auto |]). done. Qed.

(** The expansions are parsed without another expansion. *)
Lemma preset_bits fuel token expanded :
  expand_attr_preset token = Some expanded ->
  exists r e, parse_attr_require (S fuel) expanded = Some r /\ parse_attr_exclude (S fuel) expanded = Some e /\
    forall flags, Z.land flags r = r /\ Z.land flags e = 0 <-> Forall (primitive_holds flags) (split_byte COMMA expanded).
Proof.
  intros H. apply expand_attr_preset_cases in H as [-> | [-> | ->]].
  - exists 6, 0. split_and!; [reflexivity.. |]. intros flags. change (split_byte _ _) with [bytes_of "hidden"; bytes_of "system"].
    rewrite !Forall_cons, Forall_nil. change (primitive_holds flags (bytes_of "hidden")) with (Z.land flags 2 = 2).
    change (primitive_holds flags (bytes_of "system")) with (Z.land flags 4 = 4). change 6 with (Z.lor 2 4).
    rewrite land_lor_full, Z.land_0_r. tauto.
  - exists 0, 6. split_and!; [reflexivity.. |]. intros flags. change (split_byte _ _) with [bytes_of "!hidden"; bytes_of "!system"].
    rewrite !Forall_cons, Forall_nil. change (primitive_holds flags (bytes_of "!hidden")) with (Z.land flags 2 = 0).
    change (primitive_holds flags (bytes_of "!system")) with (Z.land flags 4 = 0). change 6 with (Z.lor 2 4).
    rewrite land_lor_zero, Z.land_0_r. tauto.
  - exists 0x4800, 0. split_and!; [reflexivity.. |]. intros flags. change (split_byte _ _) with [bytes_of "compressed"; bytes_of "encrypted"].
    rewrite !Forall_cons, Forall_nil. change (primitive_holds flags (bytes_of "compressed")) with (Z.land flags 0x800 = 0x800).
    change (primitive_holds flags (bytes_of "encrypted")) with (Z.land flags 0x4000 = 0x4000). change 0x4800 with (Z.lor 0x800 0x4000).
    rewrite land_lor_full, Z.land_0_r. tauto.
Qed.

Lemma strip_bang lowered : starts_with lowered [BANG] = match strip_prefix [BANG] lowered with Some _ => true | None => false end.
Proof. unfold strip_prefix. by destruct (starts_with _ _). Qed.

Lemma preset_no_bang lowered expanded : expand_attr_preset lowered = Some expanded -> strip_prefix [BANG] lowered = None.
Proof.
  unfold strip_prefix. destruct (starts_with lowered [BANG]) eqn:E; [|done]. apply starts_with_spec in E as [b ->]. by vm_compute.
Qed.

(** ** The bits of a part *)

Lemma part_bits fuel part :
  ~ negated_preset part ->
  exists r e, require_bits (S fuel) part = Some r /\ exclude_bits (S fuel) part = Some e /\
    forall flags, Z.land flags r = r /\ Z.land flags e = 0 <-> part_holds flags part.
Proof.
  intros Hn. unfold require_bits, exclude_bits, part_holds, primitive_holds. rewrite strip_bang.
  destruct (expand_attr_preset (to_ascii_lowercase (str_trim part))) as [expanded |] eqn:Ee.
  - rewrite (preset_no_bang _ _ Ee). destruct (preset_bits fuel _ _ Ee) as (r & e & -> & -> & H). exists r, e.
    split_and!; [done | done | exact H].
  - destruct (strip_prefix [BANG] _) as [name |] eqn:Es.
    + destruct (expand_attr_preset name) eqn:En; [exfalso; apply Hn; exists name; eauto |].
      exists 0, (attr_bit name). split_and!; [done | cbn; by rewrite Z.lor_0_r |]. intros flags. rewrite Z.land_0_r. tauto.
    + exists (attr_bit (to_ascii_lowercase (str_trim part))), 0. split_and!; [done | done |]. intros flags. rewrite Z.land_0_r. tauto.
Qed.

Lemma require_parts fuel spec :
  parse_attr_require (S fuel) spec = let? cs := mapM (require_bits fuel) (split_byte COMMA spec) in Some (foldl Z.lor 0 cs).
Proof.
  apply (fold_parts (require_bits fuel)); [|done]. intros bits part. unfold require_bits. cbn [mbind option_bind].
  destruct (starts_with _ _); cbn; [by rewrite Z.lor_0_r |]. by destruct (expand_attr_preset _).
Qed.

Lemma exclude_parts fuel spec :
  parse_attr_exclude (S fuel) spec = let? cs := mapM (exclude_bits fuel) (split_byte COMMA spec) in Some (foldl Z.lor 0 cs).
Proof.
  apply (fold_parts (exclude_bits fuel)); [|done]. intros bits part. fold parse_attr_exclude. unfold exclude_bits. cbn [mbind option_bind].
  rewrite strip_bang. destruct (strip_prefix _ _) as [name |]; cbn [mbind option_bind].
  - destruct (expand_attr_preset name); [destruct (parse_attr_exclude fuel _); [|done] |]; cbn; by rewrite Z.lor_0_r.
  - destruct (expand_attr_preset _); [destruct (parse_attr_exclude fuel _); [|done] |]; cbn; by rewrite ?Z.lor_0_r, ?Z.lor_0_l.
Qed.

Lemma parse_attr_spec fuel spec :
  Forall (fun part => ~ negated_preset part) (split_byte COMMA spec) ->
  exists r e, parse_attr_require (S (S fuel)) spec = Some r /\ parse_attr_exclude (S (S fuel)) spec = Some e /\
    forall flags, Z.land flags r = r /\ Z.land flags e = 0 <-> Forall (part_holds flags) (split_byte COMMA spec).
Proof.
  intros Hn. rewrite require_parts, exclude_parts. generalize (split_byte COMMA spec), Hn. clear spec Hn. intros parts Hn.
  assert (H : exists rs es, mapM (require_bits (S fuel)) parts = Some rs /\ mapM (exclude_bits (S fuel)) parts = Some es /\
    forall flags, Forall (fun r => Z.land flags r = r) rs /\ Forall (fun e => Z.land flags e = 0) es <-> Forall (part_holds flags) parts).
  { induction Hn as [|part parts Hpart _ (rs & es & Er & Ee & IH)]; [by exists [], []; split_and!; [.. | intros flags; rewrite !Forall_nil; tauto] |].
    destruct (part_bits fuel part Hpart) as (r & e & Hr & He & Hp). exists (r :: rs), (e :: es). cbn [mapM].
    rewrite Hr, He, Er, Ee. split_and!; [done | done |]. intros flags. rewrite !Forall_cons, <- IH, <- Hp. tauto. }
  destruct H as (rs & es & -> & -> & H). exists (foldl Z.lor 0 rs), (foldl Z.lor 0 es). split_and!; [done | done |].
  intros flags. rewrite <- H.
  rewrite (fold_lor (fun b => Z.land flags b = b)), (fold_lor (fun b => Z.land flags b = 0)) by (intros; apply land_lor_full || apply land_lor_zero).
  rewrite Z.land_0_r. tauto.
Qed.

(** An attribute filter passes exactly the files whose flags satisfy every part of its
    specification: listed attributes set, negated ones clear, presets as their parts.
    Two rounds of expansion are enough. *)
Theorem attr_filter_exact spec fuel :
  Forall (fun part => ~ negated_preset part) (split_byte COMMA spec) -> (ATTR_FUEL <= fuel)%nat ->
  exists r e, parse_attr_require fuel spec = Some r /\ parse_attr_exclude fuel spec = Some e /\
    forall flags, Z.land flags r = r /\ Z.land flags e = 0 <-> Forall (part_holds flags) (split_byte COMMA spec).
Proof. intros Hn Hf. destruct fuel as [|[|fuel]]; [unfold ATTR_FUEL in Hf; lia.. |]. by apply parse_attr_spec. Qed.

(** "Hidden, !dir" and the preset "user-files". *)
Lemma attr_filter_exact_witness :
  exists r e, parse_attr_require ATTR_FUEL (bytes_of "Hidden, !dir") = Some r /\ parse_attr_exclude ATTR_FUEL (bytes_of "Hidden, !dir") = Some e /\
    forall flags, Z.land flags r = r /\ Z.land flags e = 0 <-> Forall (part_holds flags) (split_byte COMMA (bytes_of "Hidden, !dir")).
Proof.
  apply attr_filter_exact; [|done]. vm_compute split_byte.
  repeat constructor; intros (name & E & [x Hx]); vm_compute in E; [done |]. injection E as <-. by vm_compute in Hx.
Defined.

(** Negated presets do not negate: "!system-files" asks for nothing, and "!user-files"
    asks for the same as "user-files". *)
Theorem negated_presets_ignored :
  (forall fuel, parse_attr_require (S (S fuel)) (bytes_of "!system-files") = Some 0 /\ parse_attr_exclude (S (S fuel)) (bytes_of "!system-files") = Some 0)
  /\ (forall fuel, parse_attr_require (S (S fuel)) (bytes_of "!user-files") = parse_attr_require (S (S fuel)) (bytes_of "user-files")
     /\ parse_attr_exclude (S (S fuel)) (bytes_of "!user-files") = parse_attr_exclude (S (S fuel)) (bytes_of "user-files"))
  /\ expand_attr_spec (bytes_of "!system-files") = bytes_of "hidden,system".
Proof. split_and!; [by intros fuel | by intros fuel | reflexivity]. Qed.

(** * Separators *)

Definition is_separator (c : Z) : bool := (c =? BACKSLASH) || (c =? SLASH).
Definition segments (s : list Z) : list (list Z) := List.filter (fun part => negb (is_nil part)) (split_where is_separator s).

(** No slash, and no two backslashes in a row. *)
Fixpoint normalized (prev_was_sep : bool) (s : list Z) : Prop :=
  match s with
  | [] => True
  | c :: s => c <> SLASH /\ (c = BACKSLASH -> prev_was_sep = false) /\ normalized (c =? BACKSLASH) s
  end.

Lemma normalize_loop_normalized prev s : normalized prev (normalize_loop prev s).
Proof.
  revert prev. induction s as [|c s IH]; intros prev; [done |]. cbn [normalize_loop].
  destruct ((c =? BACKSLASH) || (c =? SLASH)) eqn:E.
  - destruct prev; [apply IH |]. cbn. split_and!; [done | done |]. apply IH.
  - apply orb_false_iff in E as [E1 E2]. cbn. rewrite E1. split_and!; [lia | lia | apply IH].
Qed.

Lemma normalize_loop_id prev s : normalized prev s -> normalize_loop prev s = s.
Proof.
  revert prev. induction s as [|c s IH]; intros prev; [done |]. cbn. intros (Hs & Hb & Hn).
  destruct (Z.eqb_spec c BACKSLASH) as [-> | Hc]; cbn [orb].
  - rewrite (Hb eq_refl). by rewrite IH.
  - destruct (Z.eqb_spec c SLASH); [done |]. by rewrite IH.
Qed.

Lemma normalize_loop_segments prev s :
  exists p ps q qs, split_where is_separator s = p :: ps /\ split_where is_separator (normalize_loop prev s) = q :: qs /\
    let keep := List.filter (fun part => negb (is_nil part)) in
    keep (p :: ps) = keep (q :: qs) /\ (prev = false -> p = q /\ keep ps = keep qs).
Proof.
  revert prev. induction s as [|c s IH]; intros prev; [by exists [], [], [], [] |]. cbn [normalize_loop split_where].
  fold (is_separator c). destruct (is_separator c) eqn:E.
  - destruct (IH true) as (p & ps & q & qs & Es & En & Hk & _). destruct prev.
    + exists [], (split_where is_separator s), q, qs. rewrite Es in *. split_and!; [done | done | | done]. by rewrite <- Hk.
    + exists [], (split_where is_separator s), [], (split_where is_separator (normalize_loop true s)).
      rewrite Es, En. split_and!; [done | by cbn; rewrite En | by cbn in *; rewrite Hk | done].
  - destruct (IH false) as (p & ps & q & qs & Es & En & Hk & Hf). destruct (Hf eq_refl) as [-> Ht].
    exists (c :: q), ps, (c :: q), qs. cbn [split_where]. rewrite Es, E, En. split_and!; [done | done | by cbn in *; rewrite Ht | done].
Qed.

(** Normalizing a path pattern keeps its segments and separates them by single
    backslashes; a normalized pattern is left alone. *)
Theorem normalize_path_exact s :
  let s' := normalize_path_separators s in
  segments s' = segments s /\ normalized false s' /\ normalize_path_separators s' = s'.
Proof.
  cbn zeta. unfold normalize_path_separators. pose proof (normalize_loop_normalized false s) as Hn.
  split_and!; [| done | by apply normalize_loop_id].
  unfold segments. destruct (normalize_loop_segments false s) as (p & ps & q & qs & -> & -> & Hk & _). by rewrite Hk.
Qed.
