(* ===== verification/TimeBounds.v ===== *)
(** Time bounds of a query ([crates/uffs-core/src/search/filters/time_parsing.rs]):
    durations, dates and named ranges, as FILETIME ticks.

    The arithmetic is on [i64] and [u32] and wraps in the shipped profile.  [None] is a
    panic. *)
From stdpp Require Import strings.
From S2P Require Import Prelude Text CaseFold Calendar Glob CsrIndex TrigramIndex IndexDelta Bloom CompactIndex PathLen UsnBatch UsnPatch Filters Fields PathResolve Derived QueryText.
Local Open Scope string_scope.
Local Open Scope list_scope.
Local Open Scope Z_scope.
Local Open Scope rust_scope.

Definition TICKS_PER_SECOND : Z := FILETIME_TICKS_PER_SECOND.
Definition TICKS_PER_DAY : Z := TICKS_PER_SECOND * 86400.

(** [u32::try_from(x).unwrap_or(fallback)]. *)
Definition u32_or (fallback x : Z) : Z := if (0 <=? x) && (x <? 2 ^ 32) then x else fallback.

(** * Days and dates *)

Definition days_to_ymd_1601 (days_since_1601 : Z) : Z * Z * Z :=
  let z := days_since_1601 + 584694 in
  let era := (if 0 <=? z then z else z - 146096) ÷ 146097 in
  let doe := u32_or 0 (z - era * 146097) in
  let yoe := (doe - doe / 1460 + doe / 36524 - doe / 146096) / 365 in
  let y := yoe + era * 400 in
  let doy := doe - (365 * yoe + yoe / 4 - yoe / 100) in
  let mp := (5 * doy + 2) / 153 in
  let day := doy - (153 * mp + 2) / 5 + 1 in
  let month := if mp <? 10 then mp + 3 else mp - 9 in
  ((if month <=? 2 then y + 1 else y), month, day).

Definition days_in_month (year month : Z) : Z :=
  let is_leap := ((Z.rem year 4 =? 0) && negb (Z.rem year 100 =? 0)) || (Z.rem year 400 =? 0) in
  match month with
  | 1 | 3 | 5 | 7 | 8 | 10 | 12 => 31
  | 2 => if is_leap then 29 else 28
  | _ => 30
  end.

Definition ymd_to_days_1601 (year month day : Z) : Z :=
  let '(adj_year, adj_month) := if month <=? 2 then (year - 1, month + 9) else (year, month - 3) in
  let era := (if 0 <=? adj_year then adj_year else adj_year - 399) ÷ 400 in
  let yoe := u32_or 0 (adj_year - era * 400) in
  let adj_month_u32 := u32_or 0 adj_month in
  let day_u32 := u32_or 1 day in
  let doy := u32 (u32 (153 * adj_month_u32 + 2) / 5 + day_u32 - 1) in
  let doe := u32 (yoe * 365 + yoe / 4 - yoe / 100 + doy) in
  let days := doe + era * 146097 in
  days - 584694.

(** * Bounds *)

Definition ticks (days : Z) : Z := i64 (days * TICKS_PER_DAY).

Definition parse_named_time_range (name : list Z) (now_ft : Z) (is_newer : bool) : option Z :=
  let today_start := i64 (now_ft - Z.rem now_ft TICKS_PER_DAY) in
  let days_since_1601 := today_start ÷ TICKS_PER_DAY in
  let dow := Z.rem days_since_1601 7 in
  let this_monday := i64 (today_start - ticks dow) in
  let '(year, month, day) := days_to_ymd_1601 days_since_1601 in
  let this_month_start := i64 (today_start - ticks (day - 1)) in
  let lower := to_ascii_lowercase name in
  if str_is lower ["today"] then Some today_start
  else if str_is lower ["yesterday"] then Some (if is_newer then i64 (today_start - TICKS_PER_DAY) else today_start)
  else if str_is lower ["this_week"; "thisweek"] then Some this_monday
  else if str_is lower ["last_week"; "lastweek"] then Some (if is_newer then i64 (this_monday - ticks 7) else this_monday)
  else if str_is lower ["this_month"; "thismonth"] then Some this_month_start
  else if str_is lower ["last_month"; "lastmonth"] then
    Some (if is_newer then
            let '(prev_year, prev_month) := if month =? 1 then (year - 1, 12) else (year, month - 1) in
            i64 (this_month_start - ticks (days_in_month prev_year prev_month))
          else this_month_start)
  else if str_is lower ["this_year"; "thisyear"; "ytd"] then Some (ticks (ymd_to_days_1601 year 1 1))
  else if str_is lower ["last_year"; "lastyear"] then
    Some (if is_newer then ticks (ymd_to_days_1601 (year - 1) 1 1) else ticks (ymd_to_days_1601 year 1 1))
  else if str_is lower ["last_7d"; "last7d"] then Some (i64 (now_ft - ticks 7))
  else if str_is lower ["last_30d"; "last30d"] then Some (i64 (now_ft - ticks 30))
  else if str_is lower ["last_90d"; "last90d"] then Some (i64 (now_ft - ticks 90))
  else if str_is lower ["last_365d"; "last365d"] then Some (i64 (now_ft - ticks 365))
  else if str_is lower ["next_day"; "nextday"; "tomorrow"] then
    Some (if is_newer then i64 (today_start + TICKS_PER_DAY) else i64 (today_start + ticks 2))
  else if str_is lower ["next_week"; "nextweek"] then
    let next_monday := i64 (this_monday + ticks 7) in
    Some (if is_newer then next_monday else i64 (next_monday + ticks 7))
  else if str_is lower ["next_month"; "nextmonth"] then
    let next_month_start := i64 (this_month_start + ticks (days_in_month year month)) in
    Some (if is_newer then next_month_start
          else
            let '(ny, nm) := if month =? 12 then (year + 1, 1) else (year, month + 1) in
            i64 (next_month_start + ticks (days_in_month ny nm)))
  else if str_is lower ["next_year"; "nextyear"] then
    Some (if is_newer then ticks (ymd_to_days_1601 (year + 1) 1 1) else ticks (ymd_to_days_1601 (year + 2) 1 1))
  else None.

Definition parse_iso_date (trimmed : list Z) : option Z :=
  if (zlen trimmed =? 10) && bool_decide (zget trimmed 4 = Some MINUS) then
    match split_byte MINUS trimmed with
    | [year_s; month_s; day_s] =>
        let? year := parse_i64 year_s in
        let? month := parse_i64 month_s in
        let? day := parse_i64 day_s in
        Some (ticks (ymd_to_days_1601 year month day))
    | _ => None
    end
  else None.

(** The ticks of a duration suffix. *)
Definition duration_unit (suffix : list Z) : option Z :=
  if str_is suffix ["s"] then Some TICKS_PER_SECOND
  else if str_is suffix ["m"] then Some (60 * TICKS_PER_SECOND)
  else if str_is suffix ["h"] then Some (3600 * TICKS_PER_SECOND)
  else if str_is suffix ["d"] then Some TICKS_PER_DAY
  else if str_is suffix ["w"] then Some (7 * TICKS_PER_DAY)
  else None.

(** The last byte is not inside a character, or [split_at] panics. *)
Definition is_char_boundary (s : list Z) (i : Z) : bool :=
  match zget s i with Some b => negb ((0x80 <=? b) && (b <? 0xC0)) | None => i =? zlen s end.

(** [None] is the panic of [split_at]. *)
Definition parse_time_bound (spec : list Z) (now_ft : Z) (is_newer : bool) : option (option Z) :=
  let trimmed := str_trim spec in
  match parse_named_time_range trimmed now_ft is_newer with
  | Some ts => Some (Some ts)
  | None =>
      if 2 <=? zlen trimmed then
        let at_ := zlen trimmed - 1 in
        if negb (is_char_boundary trimmed at_) then None
        else
          match parse_i64 (take (Z.to_nat at_) trimmed) with
          | Some count =>
              match duration_unit (drop (Z.to_nat at_) trimmed) with
              | Some unit => Some (Some (i64 (now_ft - i64 (count * unit))))
              | None => Some None
              end
          | None => Some (parse_iso_date trimmed)
          end
      else Some (parse_iso_date trimmed)
  end.

(** * Dates *)

Lemma days_to_ymd_civil days :
  - 2 ^ 37 <= days < 2 ^ 37 -> days_to_ymd_1601 days = civil_from_days (days + 584694).
Proof.
  intros Hd. unfold days_to_ymd_1601, civil_from_days. set (z := days + 584694). set (era := _ ÷ 146097).
  assert (He : 0 <= z - era * 146097 < 146097 /\ - 2 ^ 22 < era < 2 ^ 22).
  { unfold era. destruct (Z.leb_spec 0 z); unfold z in *; Z.quot_rem_to_equations; lia. }
  destruct He as [He Hr]. unfold u32_or. replace ((0 <=? z - era * 146097) && (z - era * 146097 <? 2 ^ 32)) with true by lia.
  rewrite (u32_small (z - era * 146097)) by lia. set (doe := z - era * 146097) in *. fold (year_estimate doe).
  destruct (year_of_era doe He) as [Hy _]. rewrite i32_small; [done |]. destruct (_ <=? 2); lia.
Qed.

(** The date of a day count is a valid date, that many days after 1601-01-01. *)
Lemma days_to_ymd_spec days :
  - 2 ^ 37 <= days < 2 ^ 37 -> let '(y, m, d) := days_to_ymd_1601 days in
  valid_date y m d /\ days_of_date y m d = days_of_date 1601 1 1 + days.
Proof.
  intros Hd. rewrite days_to_ymd_civil by done. pose proof (civil_from_days_spec (days + 584694) ltac:(lia)) as H.
  destruct (civil_from_days _) as [[y m] d]. destruct H as [Hv H]. split; [done |]. rewrite H. change (days_of_date 1601 1 1) with 584754. lia.
Qed.

Lemma month_cases (P : Z -> Prop) :
  P 1 -> P 2 -> P 3 -> P 4 -> P 5 -> P 6 -> P 7 -> P 8 -> P 9 -> P 10 -> P 11 -> P 12 -> forall m, 1 <= m <= 12 -> P m.
Proof.
  intros. assert (m = 1 \/ m = 2 \/ m = 3 \/ m = 4 \/ m = 5 \/ m = 6 \/ m = 7 \/ m = 8 \/ m = 9 \/ m = 10 \/ m = 11 \/ m = 12) by lia.
  naive_solver.
Qed.

(** The days before a month in a year that starts in March. *)
Lemma march_days l m :
  1 <= m <= 12 ->
  if m <=? 2 then (153 * (m + 9) + 2) / 5 = days_before_month l (Z.to_nat (m - 1)) + 306
  else (153 * (m - 3) + 2) / 5 = days_before_month l (Z.to_nat (m - 1)) - 59 - (if l then 1 else 0).
Proof. revert m. apply month_cases; by destruct l. Qed.

Lemma month_length_range l m : 28 <= month_length l m <= 31.
Proof. unfold month_length. destruct l; repeat case_match; lia. Qed.

Lemma ymd_to_days_spec y m d :
  0 <= y < 2 ^ 31 -> valid_date y m d -> ymd_to_days_1601 y m d = days_of_date y m d - days_of_date 1601 1 1.
Proof.
  intros Hy [Hm Hd]. unfold ymd_to_days_1601. pose proof (month_length_range (leap y) m) as Hl.
  pose proof (march_days (leap y) m Hm) as Hmd. change (days_of_date 1601 1 1) with 584754. unfold days_of_date.
  assert (Hadj : exists ay am, (if m <=? 2 then (y - 1, m + 9) else (y, m - 3)) = (ay, am) /\ 0 <= am <= 11 /\
    -1 <= ay < 2 ^ 31 /\ (153 * am + 2) / 5 + days_before_year ay + (if leap ay then 1 else 0) + 60 =
      days_before_year y + days_before_month (leap y) (Z.to_nat (m - 1)) + 1 /\ 0 <= (153 * am + 2) / 5 <= 337).
  { destruct (Z.leb_spec m 2).
    - exists (y - 1), (m + 9). split_and!; [done | lia.. | | divs | divs]. rewrite Hmd. pose proof (days_before_year_step (y - 1)) as Hs.
      replace (y - 1 + 1) with y in Hs by lia. rewrite Hs. destruct (leap (y - 1)); lia.
    - exists y, (m - 3). split_and!; [done | lia.. | divs | divs]. }
  destruct Hadj as (ay & am & -> & Ham & Hay & E & Hmp). set (era := _ ÷ 400).
  assert (He : 0 <= ay - era * 400 < 400) by (unfold era; destruct (Z.leb_spec 0 ay); Z.quot_rem_to_equations; lia).
  clearbody era. pose proof (days_before_era_year (ay - era * 400) era He) as Hera. replace (ay - era * 400 + era * 400) with ay in Hera by lia.
  set (yoe := ay - era * 400) in *. unfold u32_or.
  replace ((0 <=? yoe) && (yoe <? 2 ^ 32)) with true by lia. replace ((0 <=? am) && (am <? 2 ^ 32)) with true by lia.
  replace ((0 <=? d) && (d <? 2 ^ 32)) with true by lia. rewrite (u32_small (153 * am + 2)) by lia.
  rewrite (u32_small (_ + d - 1)) by lia.
  assert (Hys : year_start yoe = yoe * 365 + yoe / 4 - yoe / 100) by (unfold year_start; divs).
  assert (Hyr : 0 <= year_start yoe <= 146097) by (unfold year_start; divs).
  rewrite <- Hys, u32_small by lia. lia.
Qed.

(** ** Uniqueness *)

Lemma days_before_year_mono y y' : y <= y' -> days_before_year y <= days_before_year y'.
Proof.
  intros H. replace y' with (y + Z.of_nat (Z.to_nat (y' - y))) by lia. generalize (Z.to_nat (y' - y)). intros n.
  induction n as [|n IH]; [rewrite Z.add_0_r; lia |]. replace (y + Z.of_nat (S n)) with (y + Z.of_nat n + 1) by lia.
  rewrite days_before_year_step. destruct (leap _); lia.
Qed.

Lemma month_end l m :
  1 <= m <= 12 -> 0 <= days_before_month l (Z.to_nat (m - 1)) /\
    days_before_month l (Z.to_nat (m - 1)) + month_length l m <= if l then 366 else 365.
Proof. revert m. apply month_cases; destruct l; vm_compute; split; congruence. Qed.

Lemma days_in_year y m d :
  valid_date y m d -> 0 <= days_before_month (leap y) (Z.to_nat (m - 1)) + (d - 1) < if leap y then 366 else 365.
Proof. intros [Hm Hd]. pose proof (month_end (leap y) m Hm). destruct (leap y); lia. Qed.

Lemma days_before_month_step l m : 1 <= m -> days_before_month l (Z.to_nat m) = days_before_month l (Z.to_nat (m - 1)) + month_length l m.
Proof.
  intros Hm. replace (Z.to_nat m) with (S (Z.to_nat (m - 1))) by lia. cbn [days_before_month].
  replace (Z.of_nat (S (Z.to_nat (m - 1)))) with m by lia. done.
Qed.

Lemma days_before_month_mono l a b : (a <= b)%nat -> days_before_month l a <= days_before_month l b.
Proof.
  induction 1 as [|b _ IH]; [lia |]. cbn [days_before_month]. pose proof (month_length_range l (Z.of_nat (S b))). lia.
Qed.

Lemma days_of_date_inj y m d y' m' d' :
  valid_date y m d -> valid_date y' m' d' -> days_of_date y m d = days_of_date y' m' d' -> (y, m, d) = (y', m', d').
Proof.
  intros Hv Hv' E. pose proof (days_in_year y m d Hv) as H. pose proof (days_in_year y' m' d' Hv') as H'. unfold days_of_date in E.
  assert (y = y') as <-.
  { destruct (Z.lt_trichotomy y y') as [Hlt | [-> | Hlt]]; [exfalso | done | exfalso].
    - pose proof (days_before_year_mono (y + 1) y' ltac:(lia)) as Hy. rewrite days_before_year_step in Hy. destruct (leap y), (leap y'); lia.
    - pose proof (days_before_year_mono (y' + 1) y ltac:(lia)) as Hy. rewrite days_before_year_step in Hy. destruct (leap y), (leap y'); lia. }
  destruct Hv as [Hm Hd], Hv' as [Hm' Hd'].
  assert (m = m') as <-.
  { destruct (Z.lt_trichotomy m m') as [Hlt | [-> | Hlt]]; [exfalso | done | exfalso].
    - pose proof (days_before_month_mono (leap y) (Z.to_nat m) (Z.to_nat (m' - 1)) ltac:(lia)). pose proof (days_before_month_step (leap y) m ltac:(lia)). lia.
    - pose proof (days_before_month_mono (leap y) (Z.to_nat m') (Z.to_nat (m - 1)) ltac:(lia)). pose proof (days_before_month_step (leap y) m' ltac:(lia)). lia. }
  repeat f_equal. lia.
Qed.

Lemma epoch_days : days_of_date 1601 1 1 = 584754.
Proof. reflexivity. Qed.

Lemma ymd_days_bound y : 0 <= y < 2 ^ 28 -> 0 <= days_before_year y < 2 ^ 37 - 2 ^ 30.
Proof. intros Hy. unfold days_before_year. divs. Qed.

Lemma days_to_ymd_of_date y m d :
  0 <= y < 2 ^ 28 -> valid_date y m d -> days_to_ymd_1601 (ymd_to_days_1601 y m d) = (y, m, d).
Proof.
  intros Hy Hv. rewrite ymd_to_days_spec, epoch_days by (done || lia). set (days := _ - _).
  assert (Hd : - 2 ^ 37 <= days < 2 ^ 37).
  { unfold days, days_of_date. pose proof (days_in_year y m d Hv). pose proof (ymd_days_bound y Hy).
    destruct (leap y); lia. }
  pose proof (days_to_ymd_spec days Hd) as H. destruct (days_to_ymd_1601 days) as [[y' m'] d']. destruct H as [Hv' H].
  symmetry. apply days_of_date_inj; [done | done |]. rewrite H, epoch_days. unfold days. lia.
Qed.

(** C31: dates and day counts convert back and forth without loss: every valid date of the
    years 0 to 2^28, and every day count from the first of them up to 2^36. *)
Theorem date_roundtrip :
  (forall y m d, 0 <= y < 2 ^ 28 -> valid_date y m d -> days_to_ymd_1601 (ymd_to_days_1601 y m d) = (y, m, d))
  /\ (forall days, - 584754 <= days < 2 ^ 36 -> let '(y, m, d) := days_to_ymd_1601 days in ymd_to_days_1601 y m d = days).
Proof.
  split; [exact days_to_ymd_of_date |].
  intros days Hd. pose proof (days_to_ymd_spec days ltac:(lia)) as H. destruct (days_to_ymd_1601 days) as [[y m] d]. destruct H as [Hv H].
  rewrite epoch_days in H. assert (Hy : 0 <= y < 2 ^ 31).
  { pose proof (days_in_year y m d Hv) as Hin. unfold days_of_date in H.
    split.
    - destruct (Z.le_gt_cases 0 y) as [|Hlt]; [done | exfalso].
      pose proof (days_before_year_mono (y + 1) 0 ltac:(lia)) as Hm. rewrite days_before_year_step in Hm. change (days_before_year 0) with 0 in Hm.
      destruct (leap y); lia.
    - destruct (Z.le_gt_cases (2 ^ 31) y) as [Hge |]; [exfalso | done]. pose proof (days_before_year_mono (2 ^ 31) y Hge) as Hm.
      replace (days_before_year (2 ^ 31)) with 784352296305 in Hm by (vm_compute; reflexivity). destruct (leap y); lia. }
  rewrite ymd_to_days_spec, epoch_days by done. lia.
Qed.

(** 2024-02-29 is day 154556. *)
Example leap_day : ymd_to_days_1601 2024 2 29 = 154556 /\ days_to_ymd_1601 154556 = (2024, 2, 29).
Proof. split; reflexivity. Qed.

(** * Named ranges *)

(** The first tick of a date. *)
Definition midnight (y m d : Z) : Z := (days_of_date y m d - days_of_date 1601 1 1) * TICKS_PER_DAY.

Definition prev_month (y m : Z) : Z * Z := if m =? 1 then (y - 1, 12) else (y, m - 1).
Definition next_month (y m : Z) : Z * Z := if m =? 12 then (y + 1, 1) else (y, m + 1).

Lemma ticks_small n : - 10000000 <= n <= 10000000 -> ticks n = n * TICKS_PER_DAY.
Proof. intros Hn. unfold ticks, TICKS_PER_DAY, TICKS_PER_SECOND, FILETIME_TICKS_PER_SECOND. rewrite i64_small; lia. Qed.

Lemma days_in_month_spec y m : 0 <= y -> 1 <= m <= 12 -> days_in_month y m = month_length (leap y) m.
Proof.
  intros Hy Hm. unfold days_in_month, leap. rewrite !Z.rem_mod_nonneg by lia.
  assert (E : (y mod 4 =? 0) && negb (y mod 100 =? 0) || (y mod 400 =? 0) = (y mod 4 =? 0) && (negb (y mod 100 =? 0) || (y mod 400 =? 0))).
  { destruct (Z.eqb_spec (y mod 4) 0), (Z.eqb_spec (y mod 100) 0), (Z.eqb_spec (y mod 400) 0); try reflexivity; divs. }
  rewrite E. revert m Hm. apply month_cases; reflexivity.
Qed.

Lemma before_january l : days_before_month l (Z.to_nat (1 - 1)) = 0.
Proof. done. Qed.
Lemma before_december l : days_before_month l (Z.to_nat (12 - 1)) = if l then 335 else 334.
Proof. by destruct l. Qed.

(** Month by month. *)
Lemma next_month_days y m :
  1 <= m <= 12 -> let '(y', m') := next_month y m in days_of_date y' m' 1 = days_of_date y m 1 + month_length (leap y) m /\ 1 <= m' <= 12.
Proof.
  intros Hm. unfold next_month, days_of_date. destruct (Z.eqb_spec m 12) as [-> |].
  - rewrite days_before_year_step, before_january, before_december. change (month_length (leap y) 12) with 31. destruct (leap y); lia.
  - replace (m + 1 - 1) with m by lia. rewrite days_before_month_step by lia. lia.
Qed.

Lemma prev_month_days y m :
  1 <= m <= 12 -> let '(y', m') := prev_month y m in days_of_date y m 1 = days_of_date y' m' 1 + month_length (leap y') m' /\ 1 <= m' <= 12.
Proof.
  intros Hm. unfold prev_month. destruct (Z.eqb_spec m 1) as [-> |].
  - pose proof (next_month_days (y - 1) 12 ltac:(lia)) as H. change (next_month (y - 1) 12) with (y - 1 + 1, 1) in H.
    replace (y - 1 + 1) with y in H by lia. destruct H. split; [done | lia].
  - pose proof (next_month_days y (m - 1) ltac:(lia)) as H. unfold next_month in H.
    replace (m - 1 =? 12) with false in H by lia. replace (m - 1 + 1) with m in H by lia. destruct H. split; [done | lia].
Qed.

Ltac decide_names :=
  repeat match goal with
  | |- context [str_is ?l ?lits] => let v := eval vm_compute in (str_is l lits) in change (str_is l lits) with v; cbv iota
  end.

Lemma year_start_ticks y : 1600 <= y < 20010 -> ticks (ymd_to_days_1601 y 1 1) = midnight y 1 1.
Proof.
  intros Hy. assert (Hv : valid_date y 1 1) by (split; [lia | change (month_length (leap y) 1) with 31; lia]).
  rewrite ymd_to_days_spec by (done || lia). apply ticks_small. rewrite epoch_days. unfold days_of_date, days_before_year.
  rewrite before_january. divs.
Qed.

Section now.
Context (now_ft : Z) (Hnow : 0 <= now_ft < 2 ^ 62).

Definition today : Z := now_ft / TICKS_PER_DAY.

Lemma today_bounds : 0 <= today < 5337600 /\ today * TICKS_PER_DAY <= now_ft < (today + 1) * TICKS_PER_DAY.
Proof using All. unfold today, TICKS_PER_DAY, TICKS_PER_SECOND, FILETIME_TICKS_PER_SECOND in *. divs. Qed.

Lemma today_start : i64 (now_ft - Z.rem now_ft TICKS_PER_DAY) = today * TICKS_PER_DAY.
Proof using All.
  pose proof today_bounds as [Ht Hn]. unfold today in *. rewrite Z.rem_mod_nonneg by (unfold TICKS_PER_DAY, TICKS_PER_SECOND, FILETIME_TICKS_PER_SECOND; lia).
  rewrite Z.mod_eq by done. rewrite i64_small; [lia |]. unfold TICKS_PER_DAY, TICKS_PER_SECOND, FILETIME_TICKS_PER_SECOND in *. lia.
Qed.

Lemma today_days : (today * TICKS_PER_DAY) ÷ TICKS_PER_DAY = today.
Proof using Type. by apply Z.quot_mul. Qed.

Lemma date_bounds y m d :
  days_to_ymd_1601 today = (y, m, d) -> valid_date y m d /\ 1601 <= y < 20000 /\ days_of_date y m d = 584754 + today.
Proof using All.
  intros E. pose proof today_bounds as [Ht _]. pose proof (days_to_ymd_spec today ltac:(lia)) as H. rewrite E in H. destruct H as [Hv Hd].
  rewrite epoch_days in Hd. split_and!; [done | | | done].
  - destruct (Z.le_gt_cases 1601 y) as [|Hlt]; [done | exfalso]. pose proof (days_before_year_mono (y + 1) 1601 ltac:(lia)) as Hm.
    rewrite days_before_year_step in Hm. pose proof (days_in_year y m d Hv). unfold days_of_date in Hd.
    change (days_before_year 1601) with 584754 in Hm. destruct (leap y); lia.
  - destruct (Z.le_gt_cases 20000 y) as [Hge |]; [exfalso | done]. pose proof (days_before_year_mono 20000 y Hge) as Hm.
    pose proof (days_in_year y m d Hv). unfold days_of_date in Hd. change (days_before_year 20000) with 7304850 in Hm. destruct (leap y); lia.
Qed.

(** Days within a century or so of today, as ticks. *)
Ltac near := unfold midnight; rewrite ?epoch_days, ?ticks_small by lia;
  unfold TICKS_PER_DAY, TICKS_PER_SECOND, FILETIME_TICKS_PER_SECOND in *; rewrite ?i64_small; lia.

(** The months and years around now: both bounds of a named month or year are its first
    tick and the first tick of the one after it, and those of the current one its first. *)
Theorem named_ranges_exact y m d newer :
  days_to_ymd_1601 today = (y, m, d) ->
  let range name := parse_named_time_range (bytes_of name) now_ft newer in
  let '(py, pm) := prev_month y m in let '(ny, nm) := next_month y m in let '(nny, nnm) := next_month ny nm in
  range "this_month" = Some (midnight y m 1)
  /\ range "last_month" = Some (if newer then midnight py pm 1 else midnight y m 1)
  /\ range "next_month" = Some (if newer then midnight ny nm 1 else midnight nny nnm 1)
  /\ range "this_year" = Some (midnight y 1 1)
  /\ range "last_year" = Some (if newer then midnight (y - 1) 1 1 else midnight y 1 1)
  /\ range "next_year" = Some (if newer then midnight (y + 1) 1 1 else midnight (y + 2) 1 1).
Proof using All.
  intros E range. destruct (date_bounds y m d E) as ([Hm Hd] & Hy & Hday). pose proof today_bounds as [Ht _].
  pose proof (month_length_range (leap y) m) as Hl.
  assert (Hf : days_of_date y m 1 = 584754 + today - (d - 1)) by (unfold days_of_date in *; lia).
  assert (Ems : i64 (today * TICKS_PER_DAY - ticks (d - 1)) = midnight y m 1) by near.
  pose proof (prev_month_days y m Hm) as Hp. pose proof (next_month_days y m Hm) as Hn. unfold range, parse_named_time_range.
  rewrite (today_start : i64 _ = _), today_days, E, Ems. fold (prev_month y m) (next_month y m).
  destruct (prev_month y m) as [py pm] eqn:Ep, (next_month y m) as [ny nm] eqn:En. destruct Hp as [Hp Hpm], Hn as [Hn Hnm].
  pose proof (next_month_days ny nm Hnm) as Hnn. destruct (next_month ny nm) as [nny nnm]. destruct Hnn as [Hnn _].
  assert (0 <= py /\ 0 <= ny) by (unfold prev_month in Ep; unfold next_month in En; repeat case_match; simplify_eq; lia).
  pose proof (month_length_range (leap py) pm). pose proof (month_length_range (leap ny) nm).
  rewrite !days_in_month_spec by lia. clear Ems.
  assert (Enm : i64 (midnight y m 1 + ticks (month_length (leap y) m)) = midnight ny nm 1) by near. rewrite Enm. clear Enm.
  split_and!; decide_names; f_equal; try reflexivity.
  - destruct newer; [|done]. near.
  - destruct newer; [done | near].
  - apply year_start_ticks. lia.
  - destruct newer; apply year_start_ticks; lia.
  - destruct newer; apply year_start_ticks; lia.
Qed.

(** Weeks start on Mondays, as 1601-01-01 was one. *)
Theorem named_weeks_exact newer :
  let range name := parse_named_time_range (bytes_of name) now_ft newer in
  exists monday, monday mod 7 = 0 /\ monday <= today < monday + 7
  /\ range "this_week" = Some (monday * TICKS_PER_DAY)
  /\ range "last_week" = Some ((if newer then monday - 7 else monday) * TICKS_PER_DAY)
  /\ range "next_week" = Some ((if newer then monday + 7 else monday + 14) * TICKS_PER_DAY).
Proof using All.
  intros range. pose proof today_bounds as [Ht _]. exists (today - today mod 7).
  assert (Hr : 0 <= today mod 7 < 7) by (apply Z.mod_pos_bound; lia).
  split_and!; [divs | lia | lia | ..]; unfold range, parse_named_time_range; rewrite (today_start : i64 _ = _), today_days;
    rewrite Z.rem_mod_nonneg by lia;
    replace (i64 (today * TICKS_PER_DAY - ticks (today mod 7))) with ((today - today mod 7) * TICKS_PER_DAY) by (symmetry; near);
    destruct (days_to_ymd_1601 today) as [[y m] d]; decide_names; f_equal; try reflexivity.
  - destruct newer; [near | done].
  - replace (i64 ((today - today mod 7) * TICKS_PER_DAY + ticks 7)) with ((today - today mod 7 + 7) * TICKS_PER_DAY) by (symmetry; near).
    destruct newer; [done | near].
Qed.
End now.

(** Wednesday 2024-03-06, noon. *)
Lemma named_ranges_exact_witness :
  parse_named_time_range (bytes_of "last_month") 133541856000000000 true = Some (midnight 2024 2 1)
  /\ parse_named_time_range (bytes_of "last_month") 133541856000000000 false = Some (midnight 2024 3 1).
Proof.
  split.
  - exact (proj1 (proj2 (named_ranges_exact 133541856000000000 ltac:(lia) 2024 3 6 true eq_refl))).
  - exact (proj1 (proj2 (named_ranges_exact 133541856000000000 ltac:(lia) 2024 3 6 false eq_refl))).
Defined.

Lemma named_weeks_exact_witness :
  exists monday, monday mod 7 = 0 /\ monday <= today 133541856000000000 < monday + 7
  /\ parse_named_time_range (bytes_of "this_week") 133541856000000000 true = Some (monday * TICKS_PER_DAY).
Proof. destruct (named_weeks_exact 133541856000000000 ltac:(lia) true) as (w & ? & ? & ? & _). exists w. auto. Defined.

(** * Dates and durations *)

Lemma str_is_digit c rest literals :
  is_digit c = true -> forallb (fun lit => match bytes_of lit with x :: _ => negb (is_digit x) | [] => true end) literals = true ->
  str_is (c :: rest) literals = false.
Proof.
  intros Hc H. unfold str_is. apply not_true_iff_false. intros (lit & Hin & E)%existsb_exists. case_bool_decide as El; [|done].
  rewrite forallb_forall in H. specialize (H lit Hin). rewrite <- El, Hc in H. done.
Qed.

Lemma lower_digit c : is_digit c = true -> ascii_lower c = c.
Proof. unfold is_digit, ascii_lower. intros H. by replace (_ && _) with false by lia. Qed.

(** No named range starts with a digit. *)
Lemma named_digit c rest now newer : is_digit c = true -> parse_named_time_range (c :: rest) now newer = None.
Proof.
  intros Hc. unfold parse_named_time_range. destruct (days_to_ymd_1601 _) as [[y m] d].
  change (to_ascii_lowercase (c :: rest)) with (ascii_lower c :: to_ascii_lowercase rest). rewrite lower_digit by done.
  do 16 (rewrite str_is_digit by done). done.
Qed.

Definition pad2 (n : Z) : list Z := [48 + n / 10; 48 + n mod 10].
Definition pad4 (n : Z) : list Z := [48 + n / 1000; 48 + n / 100 mod 10; 48 + n / 10 mod 10; 48 + n mod 10].

(** [YYYY-MM-DD]. *)
Definition iso_text (y m d : Z) : list Z := join_byte MINUS [pad4 y; pad2 m; pad2 d].

Lemma pad2_digits n : 0 <= n < 100 -> Forall (fun c => is_digit c = true) (pad2 n) /\ digits_value 0 (pad2 n) = Some n.
Proof.
  intros Hn. unfold pad2. assert (H1 : is_digit (48 + n / 10) = true) by (unfold is_digit; divs).
  assert (H2 : is_digit (48 + n mod 10) = true) by (unfold is_digit; divs).
  split; [by repeat constructor |]. cbn [digits_value]. rewrite H1, H2. f_equal. divs.
Qed.

Lemma pad4_digits n : 0 <= n < 10000 -> Forall (fun c => is_digit c = true) (pad4 n) /\ digits_value 0 (pad4 n) = Some n.
Proof.
  intros Hn. unfold pad4. assert (H1 : is_digit (48 + n / 1000) = true) by (unfold is_digit; divs).
  assert (H2 : is_digit (48 + n / 100 mod 10) = true) by (unfold is_digit; divs).
  assert (H3 : is_digit (48 + n / 10 mod 10) = true) by (unfold is_digit; divs).
  assert (H4 : is_digit (48 + n mod 10) = true) by (unfold is_digit; divs).
  split; [by repeat constructor |]. cbn [digits_value]. rewrite H1, H2, H3, H4. f_equal. divs.
Qed.

Lemma parse_i64_digits s v :
  Forall (fun c => is_digit c = true) s -> digits_value 0 s = Some v -> s <> [] -> 0 <= v < 2 ^ 63 -> parse_i64 s = Some v.
Proof.
  intros Hs Hv Hne Hr. unfold parse_i64, parse_integer. destruct Hs as [|c s Hc Hs]; [done |]. unfold is_digit in Hc.
  replace (c =? PLUS) with false by (unfold PLUS; lia). replace (c =? MINUS) with false by (unfold MINUS; lia).
  rewrite andb_false_r. cbn [is_nil]. rewrite Hv. cbn [mbind option_bind]. by replace ((- 2 ^ 63 <=? v) && (v <=? 2 ^ 63 - 1)) with true by lia.
Qed.

Lemma parse_i64_minus c s r : is_digit c = true -> Forall (fun c => is_digit c = true) s -> parse_i64 (c :: s ++ MINUS :: r) = None.
Proof.
  intros Hc Hs. assert (Hn : forall acc, digits_value acc (s ++ MINUS :: r) = None).
  { induction Hs as [|x s Hx _ IH]; intros acc; cbn; [done |]. by rewrite Hx. }
  unfold parse_i64, parse_integer. pose proof Hc as Hd. unfold is_digit in Hd.
  replace (c =? PLUS) with false by (unfold PLUS; lia). replace (c =? MINUS) with false by (unfold MINUS; lia).
  rewrite andb_false_r. cbn [is_nil digits_value]. by rewrite Hc, Hn.
Qed.

Lemma digit_not_minus s : Forall (fun c => is_digit c = true) s -> MINUS ∉ s.
Proof. rewrite Forall_forall. intros H Hin%H. done. Qed.

(** A date in the ISO form is the first tick of that date; the calendar reads it back. *)
Theorem iso_date_exact y m d now newer :
  0 <= y < 10000 -> valid_date y m d ->
  parse_time_bound (iso_text y m d) now newer = Some (Some (midnight y m d))
  /\ days_to_ymd_1601 (midnight y m d ÷ TICKS_PER_DAY) = (y, m, d).
Proof.
  intros Hy Hv. pose proof Hv as [Hm Hd]. pose proof (month_length_range (leap y) m) as Hl.
  destruct (pad4_digits y Hy) as [Dy Vy]. destruct (pad2_digits m ltac:(lia)) as [Dm Vm]. destruct (pad2_digits d ltac:(lia)) as [Dd Vd].
  split.
  - assert (Hg : graphic (iso_text y m d)).
    { unfold iso_text. cbn [join_byte]. apply Forall_app. split; [by apply digits_graphic |]. constructor; [unfold MINUS; lia |].
      apply Forall_app. split; [by apply digits_graphic |]. constructor; [unfold MINUS; lia | by apply digits_graphic]. }
    unfold parse_time_bound. rewrite str_trim_graphic by done.
    assert (Hlast : is_char_boundary (iso_text y m d) 9 = true).
    { unfold is_char_boundary. change (zget (iso_text y m d) 9) with (Some (48 + d mod 10)). apply negb_true_iff. divs. }
    assert (Hnum : parse_i64 (take 9 (iso_text y m d)) = None).
    { unfold iso_text, pad4. cbn [join_byte app take]. apply (parse_i64_minus _ [48 + y / 100 mod 10; 48 + y / 10 mod 10; 48 + y mod 10]);
        unfold pad4 in Dy; by inversion Dy. }
    assert (Hnamed : parse_named_time_range (iso_text y m d) now newer = None).
    { unfold iso_text, pad4. cbn [join_byte app]. apply named_digit. unfold pad4 in Dy. by inversion Dy. }
    rewrite Hnamed. change (zlen (iso_text y m d)) with 10. change (2 <=? 10) with true. cbv beta iota zeta. change (10 - 1) with 9.
    rewrite Hlast. cbn [negb]. change (Z.to_nat 9) with 9%nat. rewrite Hnum. f_equal. unfold parse_iso_date.
    change (zlen (iso_text y m d)) with 10. change (zget (iso_text y m d) 4) with (Some MINUS). rewrite bool_decide_true by done. cbn [Z.eqb andb].
    change (10 =? 10) with true. cbn [andb]. unfold iso_text.
    rewrite split_join_byte by (done || (repeat constructor; by apply digit_not_minus)).
    rewrite (parse_i64_digits (pad4 y) y), (parse_i64_digits (pad2 m) m), (parse_i64_digits (pad2 d) d) by (done || lia).
    cbn [mbind option_bind]. f_equal. rewrite ymd_to_days_spec by (done || lia). unfold midnight. apply ticks_small.
    pose proof (days_in_year y m d Hv). rewrite epoch_days. unfold days_of_date, days_before_year. destruct (leap y); divs.
  - unfold midnight. rewrite Z.quot_mul by done. rewrite <- ymd_to_days_spec by (done || lia). apply days_to_ymd_of_date; [lia | done].
Qed.

Lemma iso_date_exact_witness :
  parse_time_bound (bytes_of "2024-02-29") 0 true = Some (Some (midnight 2024 2 29)).
Proof.
  change (bytes_of "2024-02-29") with (iso_text 2024 2 29). apply (iso_date_exact 2024 2 29 0 true); [lia |].
  split; [lia | change (month_length (leap 2024) 2) with 29; lia].
Defined.

(** A duration is subtracted from now; with a count beyond the range of ticks the product
    wraps and the bound is meaningless. *)
Theorem duration_exact n c unit now newer :
  0 <= n < 2 ^ 63 -> duration_unit [c] = Some unit ->
  parse_time_bound (decimal n ++ [c]) now newer = Some (Some (i64 (now - i64 (n * unit)))).
Proof.
  intros Hn Hu. destruct (decimal_spec n ltac:(lia)) as (Hv & Hd & Hne).
  assert (Hc : 97 <= c <= 122).
  { revert Hu. unfold duration_unit, str_is. cbn [existsb]. repeat (case_bool_decide as E; [vm_compute in E; injection E as ->; intros _; lia | clear E]; cbn [orb]). done. }
  unfold parse_time_bound. rewrite str_trim_graphic by (apply Forall_app; split; [by apply digits_graphic | repeat constructor; lia]).
  assert (Hnamed : parse_named_time_range (decimal n ++ [c]) now newer = None).
  { destruct (decimal n); [done |]. apply named_digit. by inversion Hd. }
  rewrite Hnamed, zlen_app. change (zlen [c]) with 1.
  assert (1 <= zlen (decimal n)) by (destruct (decimal n) as [|x l]; [done | rewrite zlen_cons; pose proof (zlen_nonneg l); lia]).
  replace (2 <=? zlen (decimal n) + 1) with true by lia. cbv zeta. replace (zlen (decimal n) + 1 - 1) with (zlen (decimal n)) by lia.
  unfold is_char_boundary. rewrite zget_app_r by lia. rewrite Z.sub_diag. change (zget [c] 0) with (Some c).
  replace ((0x80 <=? c) && (c <? 0xC0)) with false by lia. cbn [negb]. rewrite zlen_to_nat, take_app_length, drop_app_length.
  rewrite (parse_i64_digits (decimal n) n) by done. rewrite Hu. by replace ((0x80 <=? c) && (c <? 0xC0)) with false by lia.
Qed.

Lemma duration_exact_witness : parse_time_bound (decimal 7 ++ bytes_of "d") 133541856000000000 true = Some (Some (133541856000000000 - 7 * TICKS_PER_DAY)).
Proof. change (bytes_of "d") with [100]. rewrite (duration_exact 7 100 TICKS_PER_DAY 133541856000000000 true); [reflexivity | lia | reflexivity]. Defined.

(** A bound that ends in a character beyond ASCII splits the string inside the character,
    which panics; a date out of the calendar is taken for a later one. *)
Theorem time_bound_defects :
  (forall now newer, parse_time_bound [55; 0xD0; 0xB4] now newer = None)
  /\ (forall now newer, parse_time_bound (bytes_of "2026-13-45") now newer = Some (Some (midnight 2027 2 14))).
Proof.
  assert (Hn : forall c rest now newer, is_digit c = true -> parse_named_time_range (c :: rest) now newer = None) by apply named_digit.
  split; intros now newer; unfold parse_time_bound.
  - change (str_trim [55; 0xD0; 0xB4]) with [55; 0xD0; 0xB4]. by rewrite Hn.
  - change (str_trim (bytes_of "2026-13-45")) with (bytes_of "2026-13-45"). change (bytes_of "2026-13-45") with (50 :: bytes_of "026-13-45"). rewrite Hn by done. vm_compute. reflexivity.
Qed.
