(* ===== verification/FilterParams.v ===== *)
(** From the parameters of a query to its filters: [SearchFilters::from_params]
    ([crates/uffs-core/src/search/filters/mod.rs]).

    Strings of the parameters become extension lists, masks, patterns and time bounds, so
    that the scan of the records only compares.  [None] is the panic of a time bound. *)
From stdpp Require Import strings.
From S2P Require Import Prelude Text CaseFold Calendar Glob CsrIndex TrigramIndex IndexDelta Bloom CompactIndex PathLen UsnBatch UsnPatch Filters Fields PathResolve Derived QueryText TimeBounds.
Local Open Scope string_scope.
Local Open Scope list_scope.
Local Open Scope Z_scope.
Local Open Scope rust_scope.

Record SearchFilterParams := mkSearchFilterParams {
  p_hide_system : bool; p_hide_ads : bool; p_min_size : option Z; p_max_size : option Z;
  p_min_descendants : option Z; p_max_descendants : option Z;
  p_newer : option (list Z); p_older : option (list Z); p_newer_created : option (list Z); p_older_created : option (list Z);
  p_newer_accessed : option (list Z); p_older_accessed : option (list Z);
  p_attr_filter : option (list Z); p_ext_filter : option (list Z); p_exclude : option (list Z);
  p_path_contains : option (list Z); p_path_excludes : option (list Z); p_type_filter : option (list Z);
  p_min_bulkiness : option Z; p_max_bulkiness : option Z; p_min_name_len : option Z; p_max_name_len : option Z;
  p_min_path_len : option Z; p_max_path_len : option Z; p_min_allocated : option Z; p_max_allocated : option Z;
  p_min_treesize : option Z; p_max_treesize : option Z; p_min_tree_allocated : option Z; p_max_tree_allocated : option Z;
  p_allowed_months : list Z
}.

(** [spec.and_then(|spec| parse_time_bound(spec, now_us, is_newer))]. *)
Definition time_bound (spec : option (list Z)) (now : Z) (is_newer : bool) : option (option Z) :=
  match spec with Some spec => parse_time_bound spec now is_newer | None => Some None end.

Section params.
Context (to_lowercase : list Z -> list Z).

(** The extensions, and the type left for the row filter. *)
Definition promote_type (p : SearchFilterParams) : list (list Z) * option (list Z) :=
  let exts := match p_ext_filter p with Some ext_list => parse_ext_filter to_lowercase ext_list | None => [] end in
  match p_type_filter p with
  | Some type_name =>
      let lower := to_ascii_lowercase type_name in
      merge_type_filter exts (extensions_for_type lower) lower
  | None => (exts, None)
  end.

Definition from_params (p : SearchFilterParams) (now : Z) : option SearchFilters :=
  let '(exts, type_name) := promote_type p in
  let? newer := time_bound (p_newer p) now true in
  let? older := time_bound (p_older p) now false in
  let? newer_created := time_bound (p_newer_created p) now true in
  let? older_created := time_bound (p_older_created p) now false in
  let? newer_accessed := time_bound (p_newer_accessed p) now true in
  let? older_accessed := time_bound (p_older_accessed p) now false in
  let? require := parse_attr_require ATTR_FUEL (default [] (p_attr_filter p)) in
  let? exclude := parse_attr_exclude ATTR_FUEL (default [] (p_attr_filter p)) in
  Some (mkSearchFilters (p_hide_system p) (p_hide_ads p) (p_min_size p) (p_max_size p) newer older newer_created older_created
    newer_accessed older_accessed require exclude (p_min_descendants p) (p_max_descendants p) exts []
    (let? excl := p_exclude p in Some (fold_into default_table (str_chars excl)))
    (let? pat := p_path_contains p in Some (normalize_path_separators (to_ascii_lowercase pat)))
    (parse_path_excludes (p_path_excludes p)) type_name
    (let? pct := p_min_bulkiness p in Some (saturating_mul_u64 pct 10000))
    (let? pct := p_max_bulkiness p in Some (saturating_mul_u64 pct 10000))
    (p_min_name_len p) (p_max_name_len p) (p_min_path_len p) (p_max_path_len p) (p_min_allocated p) (p_max_allocated p)
    (p_min_treesize p) (p_max_treesize p) (p_min_tree_allocated p) (p_max_tree_allocated p) (p_allowed_months p) None None).

(** * The extensions of a query *)

(** On ASCII, [str::to_lowercase] is the ASCII one. *)
Context (Hlower : forall s, ascii_bytes s -> to_lowercase s = to_ascii_lowercase s).

(** No blank inside a token, as in ". txt". *)
Definition solid (spec : list Z) : Prop := Forall (fun segment => graphic (str_trim segment)) (split_byte COMMA spec).

Lemma trim_start_dots_suffix s : exists p, s = p ++ trim_start_dots s.
Proof using Type.
  induction s as [|c s [p IH]]; [by exists [] |]. cbn. destruct (c =? 46); [|by exists []]. exists (c :: p). cbn. by f_equal.
Qed.

Lemma trim_start_dots_head s : match trim_start_dots s with c :: _ => c <> 46 | [] => True end.
Proof using Type. induction s as [|c s IH]; cbn; [done |]. by destruct (Z.eqb_spec c 46). Qed.

Lemma trim_start_dots_id s : match s with c :: _ => c <> 46 | [] => True end -> trim_start_dots s = s.
Proof using Type. destruct s as [|c s]; [done |]. cbn. intros Hc. by destruct (Z.eqb_spec c 46). Qed.

Lemma graphic_lower s : graphic s -> graphic (to_ascii_lowercase s).
Proof using Type.
  intros H. apply Forall_map. eapply Forall_impl; [exact H |]. intros b Hb. cbn in *. unfold ascii_lower. case_match; lia.
Qed.

Lemma ascii_lower_idem s : to_ascii_lowercase (to_ascii_lowercase s) = to_ascii_lowercase s.
Proof using Type.
  unfold to_ascii_lowercase. rewrite map_map. apply map_ext. intros b. unfold ascii_lower.
  destruct ((65 <=? b) && (b <=? 90)) eqn:E; [|by rewrite E]. by replace ((65 <=? b + 32) && (b + 32 <=? 90)) with false by lia.
Qed.

Lemma token_ok_graphic s :
  graphic s -> s <> [] -> trim_start_dots s = s -> to_ascii_lowercase s = s -> token_ok to_lowercase str_trim s.
Proof using All.
  intros Hg Hne Hd Hl. split_and!; [done | by rewrite str_trim_graphic | by rewrite Hlower by by apply graphic_ascii].
Qed.

(** The tables are in the form of tokens. *)
Definition token_form (s : list Z) : bool :=
  forallb (fun b => (33 <=? b) && (b <=? 126)) s && negb (is_nil s) && bool_decide (trim_start_dots s = s)
  && bool_decide (to_ascii_lowercase s = s).

Lemma table_tokens table : forallb token_form table = true -> Forall (token_ok to_lowercase str_trim) table.
Proof using All.
  rewrite forallb_forall. intros Hc. apply Forall_forall. intros s Hin%list_elem_of_In. specialize (Hc s Hin). unfold token_form in Hc.
  apply andb_true_iff in Hc as [[[Hgs Hne]%andb_true_iff Hds]%andb_true_iff Hls].
  apply token_ok_graphic; [| by destruct s | by apply bool_decide_eq_true in Hds | by apply bool_decide_eq_true in Hls].
  rewrite forallb_forall in Hgs. apply Forall_forall. intros b Hb%list_elem_of_In. specialize (Hgs b Hb). lia.
Qed.

Lemma parse_ext_tokens spec : solid spec -> Forall (token_ok to_lowercase str_trim) (parse_ext_filter to_lowercase spec).
Proof using All.
  intros Hs. unfold parse_ext_filter. apply Forall_bind. eapply Forall_impl; [exact Hs |]. intros segment Hg. unfold compose. cbn beta zeta in Hg |- *.
  set (t := trim_start_dots (str_trim segment)).
  assert (Ht : graphic t).
  { destruct (trim_start_dots_suffix (str_trim segment)) as [p E]. rewrite E in Hg. by apply Forall_app in Hg as [_ Hg]. }
  rewrite Hlower by by apply graphic_ascii. destruct (is_nil (to_ascii_lowercase t)) eqn:En; [constructor |].
  destruct (expand_collection _) as [exts |] eqn:Ee.
  - revert Ee. unfold expand_collection. repeat (destruct (_ || _); [intros [= <-]; apply table_tokens; by vm_compute |]). done.
  - constructor; [|constructor]. apply token_ok_graphic.
    + by apply graphic_lower.
    + by destruct t.
    + apply trim_start_dots_id. pose proof (trim_start_dots_head (str_trim segment)) as Hh. fold t in Hh. destruct t as [|c r]; [done |].
      cbn. apply Forall_cons in Ht as [Hc _]. unfold ascii_lower. case_match; lia.
    + apply ascii_lower_idem.
Qed.

Lemma type_tokens t exts : extensions_for_type t = Some exts -> Forall (token_ok to_lowercase str_trim) exts.
Proof using All.
  unfold extensions_for_type. repeat (destruct (bool_decide _); [intros [= <-]; apply table_tokens; by vm_compute |]). done.
Qed.

Lemma from_params_extensions p now f : from_params p now = Some f -> extensions f = (promote_type p).1 /\ type_filter f = (promote_type p).2.
Proof using Type.
  unfold from_params. destruct (promote_type p) as [exts t]. cbn [fst snd].
  repeat match goal with |- match ?o with Some _ => _ | None => _ end = Some _ -> _ => destruct o; [|done] end. by intros [= <-].
Qed.

Lemma forall_filter {A} (P : A -> Prop) f l : Forall P l -> Forall P (List.filter f l).
Proof using Type. induction 1 as [|x l Hx _ IH]; [constructor |]. cbn. destruct (f x); [by constructor | done]. Qed.

(** The extension tokens a query ends up with are in the form the drives' extension tables
    are searched for, listed or by type: what the search theorems ask of the tokens holds
    for every query built here. *)
Theorem query_tokens_ok p now f :
  (forall spec, p_ext_filter p = Some spec -> solid spec) -> from_params p now = Some f ->
  Forall (token_ok to_lowercase str_trim) (extensions f).
Proof using All.
  intros Hs Hf. rewrite (proj1 (from_params_extensions _ _ _ Hf)). unfold promote_type.
  assert (Hx : Forall (token_ok to_lowercase str_trim) match p_ext_filter p with Some l => parse_ext_filter to_lowercase l | None => [] end).
  { destruct (p_ext_filter p) as [spec |]; [by apply parse_ext_tokens, Hs | constructor]. }
  destruct (p_type_filter p) as [t |]; [|done]. unfold merge_type_filter.
  destruct (extensions_for_type _) as [exts |] eqn:Et; [|done]. cbn [fst]. destruct (is_nil _); [by eapply type_tokens | by apply forall_filter].
Qed.

(** A query is built unless a time bound panics: attribute presets are expanded within
    their fuel. *)
Theorem from_params_returns p now :
  Forall (fun part => ~ negated_preset part) (split_byte COMMA (default [] (p_attr_filter p))) ->
  (forall spec newer, spec ∈ [p_newer p; p_older p; p_newer_created p; p_older_created p; p_newer_accessed p; p_older_accessed p] ->
     is_Some (time_bound spec now newer)) ->
  is_Some (from_params p now).
Proof using Type.
  clear Hlower. intros Ha Ht. unfold from_params. destruct (promote_type p) as [exts t].
  repeat match goal with |- context [time_bound (?field p) now ?b] =>
    let x := fresh in destruct (Ht (field p) b) as [x ->]; [set_solver |] end.
  change ATTR_FUEL with 2%nat. destruct (parse_attr_spec 0 _ Ha) as (r & e & -> & -> & _). eauto.
Qed.
End params.

Definition no_params : SearchFilterParams :=
  mkSearchFilterParams false false None None None None None None None None None None None None None None None None None None
    None None None None None None None None None None [].

Definition set_ext_and_type (p : SearchFilterParams) (exts type_name : list Z) : SearchFilterParams :=
  mkSearchFilterParams (p_hide_system p) (p_hide_ads p) (p_min_size p) (p_max_size p) (p_min_descendants p) (p_max_descendants p)
    (p_newer p) (p_older p) (p_newer_created p) (p_older_created p) (p_newer_accessed p) (p_older_accessed p)
    (p_attr_filter p) (Some exts) (p_exclude p) (p_path_contains p) (p_path_excludes p) (Some type_name)
    (p_min_bulkiness p) (p_max_bulkiness p) (p_min_name_len p) (p_max_name_len p) (p_min_path_len p) (p_max_path_len p)
    (p_min_allocated p) (p_max_allocated p) (p_min_treesize p) (p_max_treesize p) (p_min_tree_allocated p)
    (p_max_tree_allocated p) (p_allowed_months p).

(** [--ext ".RS, documents" --type code]. *)
Definition sample_params : SearchFilterParams := set_ext_and_type no_params (bytes_of ".RS, documents") (bytes_of "Code").

Lemma query_tokens_ok_witness :
  exists f, from_params to_ascii_lowercase sample_params 0 = Some f /\ extensions f = [bytes_of "rs"]
    /\ Forall (token_ok to_ascii_lowercase str_trim) (extensions f).
Proof.
  destruct (from_params to_ascii_lowercase sample_params 0) as [f |] eqn:E; [|by lazy in E].
  exists f. split; [done |]. split.
  - rewrite (proj1 (from_params_extensions _ _ _ _ E)). by vm_compute.
  - apply (query_tokens_ok to_ascii_lowercase (fun _ _ => eq_refl) sample_params 0 f); [|done].
    intros spec [= <-]. unfold solid. vm_compute split_byte. repeat constructor; try lia.
Defined.

Lemma from_params_returns_witness : is_Some (from_params to_ascii_lowercase sample_params 0).
Proof.
  apply (from_params_returns to_ascii_lowercase sample_params 0).
  - vm_compute split_byte. constructor; [|constructor]. intros (name & E & _). by vm_compute in E.
  - intros spec newer Hin. each_elem Hin; by vm_compute; eexists.
Defined.
