(* ===== verification/RowFilters.v ===== *)
(** The filters of rows: [crates/uffs-core/src/search/filters/apply.rs] and [apply_filter] of
    [filters/mod.rs].

    The scan of a drive filters records, before their paths are resolved; the rows are
    filtered again by their text, which is where the directory patterns and the type of a
    row are tested.  [None] is a name pattern that does not return. *)
From stdpp Require Import strings.
From S2P Require Import Prelude Text CaseFold Calendar Glob CsrIndex TrigramIndex IndexDelta Bloom CompactIndex PathLen UsnBatch UsnPatch Filters PathResolve Derived QueryText.
Local Open Scope Z_scope.
Local Open Scope rust_scope.

(** * The predicates *)

Definition needs_display_row_filter (f : SearchFilters) : bool :=
  negb (is_none (path_contains_lower f)) || negb (is_none (path_excludes_lower f)) || negb (is_none (type_filter f)).

Definition is_system_name (name : list Z) : bool := is_ntfs_metafile_name name.

Section filters.
Context (to_lowercase : list Z -> list Z) (lower_char : Z -> list Z).

(** The extension criterion, by the name of the row. *)
Definition row_extension_passes (f : SearchFilters) (row : DisplayRow) : bool :=
  if is_nil (extensions f) then true
  else
    let ext := extract_extension_after_dot (row_name row) in
    if is_nil ext then false
    else existsb (fun allowed => extension_matches_filter to_lowercase allowed (lowercase_into lower_char ext)) (extensions f).

(** The directory patterns. *)
Definition dir_contained (f : SearchFilters) (row : DisplayRow) : option bool :=
  match path_contains_lower f with Some pat => name_matches (to_ascii_lowercase (row_path_dir row)) pat | None => Some true end.

Definition dir_excluded (f : SearchFilters) (row : DisplayRow) : option bool :=
  match path_excludes_lower f with Some excludes => any_match (name_matches (to_ascii_lowercase (row_path_dir row))) excludes | None => Some false end.

Definition type_rejected (f : SearchFilters) (row : DisplayRow) : bool :=
  match type_filter f with Some wanted => negb (bool_decide (semantic_type_for_row row = wanted)) | None => false end.

Definition apply_derived_filters (row : DisplayRow) (f : SearchFilters) : option bool :=
  let name_len := len_to_u16 (zlen (str_chars (row_name row))) in
  let path_len := len_to_u16 (zlen (str_chars (row_path row))) in
  if under (min_name_len f) name_len || over (max_name_len f) name_len then Some false
  else if under (min_path_len f) path_len || over (max_path_len f) path_len then Some false
  else
    let? contained := dir_contained f row in
    if negb contained then Some false
    else
      let? excluded := dir_excluded f row in
      if excluded then Some false
      else if type_rejected f row then Some false
      else if under (min_bulkiness f) (bulkiness_for_row row) || over (max_bulkiness f) (bulkiness_for_row row) then Some false
      else if under (min_allocated f) (row_allocated row) || over (max_allocated f) (row_allocated row) then Some false
      else if under (min_treesize f) (row_treesize row) || over (max_treesize f) (row_treesize row) then Some false
      else if under (min_tree_allocated f) (row_tree_allocated row) || over (max_tree_allocated f) (row_tree_allocated row) then Some false
      else if negb (is_nil (allowed_months f)) &&
        negb (bool_decide (month_from_filetime (row_modified row) ∈ allowed_months f)) then Some false
      else Some true.

Definition row_passes_filters (row : DisplayRow) (f : SearchFilters) (table : list Z) : option bool :=
  if is_empty f then Some true
  else if hide_system f && is_system_name (row_name row) then Some false
  else if hide_ads f && contains_byte COLON (row_name row) then Some false
  else if differs (Filters.malformed f) (row_malformed row) then Some false
  else if under (min_size f) (row_size row) || over (max_size f) (row_size row) then Some false
  else if under (newer_us f) (row_modified row) || at_or_over (older_us f) (row_modified row) then Some false
  else if under (newer_created_us f) (row_created row) || at_or_over (older_created_us f) (row_created row) then Some false
  else if under (newer_accessed_us f) (row_accessed row) || at_or_over (older_accessed_us f) (row_accessed row) then Some false
  else if negb (attr_require f =? 0) && negb (Z.land (row_flags row) (attr_require f) =? attr_require f) then Some false
  else if negb (attr_exclude f =? 0) && negb (Z.land (row_flags row) (attr_exclude f) =? 0) then Some false
  else if under (min_descendants f) (row_descendants row) || over (max_descendants f) (row_descendants row) then Some false
  else if negb (row_extension_passes f row) then Some false
  else
    let? excluded :=
      match exclude_lower f with
      | Some excl => name_matches (fold_into table (str_chars (row_name row))) excl
      | None => Some false
      end in
    if excluded then Some false else apply_derived_filters row f.

(** [Vec::retain] with a predicate that may not return. *)
Fixpoint retain {A} (keep : A -> option bool) (l : list A) : option (list A) :=
  match l with
  | [] => Some []
  | x :: l => let? k := keep x in let? l := retain keep l in Some (if k then x :: l else l)
  end.

Definition apply_search_filters (rows : list DisplayRow) (f : SearchFilters) : option (list DisplayRow) :=
  if is_empty f then Some rows else retain (fun row => row_passes_filters row f default_table) rows.

Definition apply_filter (rows : list DisplayRow) (filter : FilterMode) : list DisplayRow :=
  match filter with
  | All => rows
  | FilesOnly => List.filter (fun row => negb (row_is_directory row)) rows
  | DirsOnly => List.filter row_is_directory rows
  end.

(** * Rows and their records *)

(** What a row tells of its record: [row_name_exact] gives the name, building the index the
    first byte and the length of the path. *)
Record row_of (names : list Z) (rec : CompactRecord) (row : DisplayRow) : Prop := {
  ro_name : row_name row = name_str names rec;
  ro_named : name_str names rec <> [];
  ro_first : zget (name_str names rec) 0 = Some (name_first_byte rec);
  ro_path : len_to_u16 (zlen (str_chars (row_path row))) = path_len rec;
  ro_stream : is_directory rec = true -> contains_byte COLON (name_str names rec) = false;
  ro_built : exists idx letter path forensics, row = make_display_row idx letter rec (name_str names rec) path forensics
    /\ f_malformed forensics = negb (utf8_valid (name_bytes names rec))
}.

(** The criteria only a row has. *)
Definition display_passes (f : SearchFilters) (row : DisplayRow) : option bool :=
  let? contained := dir_contained f row in
  let? excluded := dir_excluded f row in
  Some (contained && negb excluded && negb (type_rejected f row)).

Lemma guard_and (c b : bool) : (if c then Some false else Some b) = Some (negb c && b).
Proof using Type. by destruct c. Qed.

Lemma metafile_dollar name : is_ntfs_metafile_name name = true -> zget name 0 = Some DOLLAR.
Proof using Type.
  unfold is_ntfs_metafile_name. intros (reserved & Hin & H)%existsb_exists. unfold eq_ignore_ascii_case in H.
  apply bool_decide_eq_true in H. apply list_elem_of_In in Hin. unfold NTFS_METAFILE_NAMES in Hin. cbn [map] in Hin.
  assert (Hr : map ascii_lower reserved !! 0%nat = Some DOLLAR) by (clear H; each_elem Hin; by vm_compute).
  rewrite <- H in Hr. destruct name as [|b name]; [done |]. cbn in Hr. injection Hr as Hb.
  change (zget (b :: name) 0) with (Some b). f_equal. revert Hb. unfold ascii_lower, DOLLAR. case_match; lia.
Qed.

Lemma row_system names rec row :
  row_of names rec row -> is_system_metafile names rec = is_system_name (row_name row).
Proof using Type.
  intros [Hn _ Hf _ _ _]. unfold is_system_metafile, is_system_name. rewrite Hn.
  destruct (is_ntfs_metafile_name (name_str names rec)) eqn:E; [|by rewrite andb_false_r].
  apply metafile_dollar in E. rewrite Hf in E. injection E as ->. done.
Qed.

Lemma row_bulkiness names rec row : row_of names rec row -> bulkiness_for_row row = bulkiness rec.
Proof using Type.
  intros [_ _ _ _ Hc (idx & letter & path & forensics & -> & _)].
  unfold bulkiness_for_row, bulkiness, make_display_row. cbn [row_is_directory row_treesize row_tree_allocated row_size row_allocated].
  assert (E : is_directory rec && negb (contains_byte COLON (name_str names rec)) = is_directory rec)
    by (destruct (is_directory rec); [by rewrite Hc | done]).
  rewrite E. unfold bulkiness_from_sizes, checked_div. destruct (is_directory rec); by case_match.
Qed.

Lemma row_extension f names rec row :
  row_of names rec row -> matches_extension to_lowercase lower_char (set_resolved f []) names rec = row_extension_passes f row.
Proof using Type.
  intros Hr. unfold matches_extension, row_extension_passes. rewrite (ro_name _ _ _ Hr).
  cbn [resolved_ext_ids set_resolved extensions is_nil negb]. by destruct (is_nil (extensions f)).
Qed.

(** Both predicates as conjunctions. *)
Definition record_part (f : SearchFilters) (names : list Z) (rec : CompactRecord) : bool :=
  negb (hide_system f && is_system_metafile names rec) && negb (hide_ads f && contains_byte COLON (name_str names rec)) &&
  negb (under (min_size f) (CsrIndex.size rec) || over (max_size f) (CsrIndex.size rec)) &&
  negb (under (newer_us f) (modified rec) || at_or_over (older_us f) (modified rec)) &&
  negb (under (newer_created_us f) (created rec) || at_or_over (older_created_us f) (created rec)) &&
  negb (under (newer_accessed_us f) (accessed rec) || at_or_over (older_accessed_us f) (accessed rec)) &&
  negb (negb (attr_require f =? 0) && negb (Z.land (flags rec) (attr_require f) =? attr_require f)) &&
  negb (negb (attr_exclude f =? 0) && negb (Z.land (flags rec) (attr_exclude f) =? 0)) &&
  negb (under (min_descendants f) (descendants rec) || over (max_descendants f) (descendants rec)) &&
  matches_extension to_lowercase lower_char (set_resolved f []) names rec.

(** The criterion of deletion, which only records are tested for. *)
Definition deleted_passes (f : SearchFilters) (rec : CompactRecord) : bool :=
  negb (differs (deleted f) (negb (Z.land (flags rec) DELETED_TOMBSTONE_FLAG =? 0))).

(** The filters but for that criterion. *)
Definition without_deleted (f : SearchFilters) : SearchFilters :=
  mkSearchFilters (hide_system f) (hide_ads f) (min_size f) (max_size f) (newer_us f) (older_us f)
    (newer_created_us f) (older_created_us f) (newer_accessed_us f) (older_accessed_us f) (attr_require f)
    (attr_exclude f) (min_descendants f) (max_descendants f) (extensions f) (resolved_ext_ids f) (exclude_lower f)
    (path_contains_lower f) (path_excludes_lower f) (type_filter f) (min_bulkiness f) (max_bulkiness f)
    (min_name_len f) (max_name_len f) (min_path_len f) (max_path_len f) (min_allocated f) (max_allocated f)
    (min_treesize f) (max_treesize f) (min_tree_allocated f) (max_tree_allocated f) (allowed_months f)
    (Filters.malformed f) None.

Lemma matches_record_parts f table names rec excluded :
  match exclude_lower f with Some excl => name_matches (fold_into table (str_chars (name_str names rec))) excl | None => Some false end = Some excluded ->
  matches_record to_lowercase lower_char (set_resolved f []) table names rec =
  Some (record_part f names rec && negb excluded && matches_derived f names rec && deleted_passes f rec).
Proof using Type.
  intros He. unfold matches_record. cbn [hide_system hide_ads min_size max_size newer_us older_us newer_created_us older_created_us
    newer_accessed_us older_accessed_us attr_require attr_exclude deleted min_descendants max_descendants exclude_lower set_resolved].
  rewrite He. change (matches_derived (set_resolved f []) names rec) with (matches_derived f names rec).
  rewrite !guard_and. f_equal. unfold record_part, deleted_passes. rewrite negb_involutive.
  apply eq_true_iff_eq. rewrite !andb_true_iff. tauto.
Qed.

(** Rows are not tested for deletion. *)
Lemma row_passes_without_deleted f table row : row_passes_filters row f table = row_passes_filters row (without_deleted f) table.
Proof using Type.
  destruct (deleted f) as [want |] eqn:Ed.
  - assert (Ef : is_empty f = false) by (unfold is_empty; rewrite Ed; by rewrite andb_false_r).
    unfold row_passes_filters at 1. rewrite Ef. unfold row_passes_filters.
    destruct (is_empty (without_deleted f)) eqn:Ee; [|reflexivity].
    unfold is_empty, bounds_unset in Ee. split_ands.
    cbn [hide_system hide_ads min_size max_size newer_us older_us newer_created_us older_created_us newer_accessed_us older_accessed_us
      attr_require attr_exclude min_descendants max_descendants extensions exclude_lower path_contains_lower path_excludes_lower type_filter
      min_bulkiness max_bulkiness min_name_len max_name_len min_path_len max_path_len min_allocated max_allocated min_treesize max_treesize
      min_tree_allocated max_tree_allocated allowed_months Filters.malformed without_deleted] in *.
    unfold apply_derived_filters, row_extension_passes, dir_contained, dir_excluded, type_rejected.
    repeat match goal with E : ?x f = _ |- _ => rewrite E; clear E | E : (?x f =? 0) = true |- _ => rewrite E; clear E end. done.
  - f_equal. destruct f. cbn in Ed. by subst.
Qed.

Lemma matches_derived_parts f names rec :
  matches_derived f names rec =
  negb (under (min_name_len f) (len_to_u16 (zlen (name_chars names rec))) || over (max_name_len f) (len_to_u16 (zlen (name_chars names rec)))) &&
  negb (under (min_allocated f) (allocated rec) || over (max_allocated f) (allocated rec)) &&
  negb (under (min_treesize f) (treesize rec) || over (max_treesize f) (treesize rec)) &&
  negb (under (min_tree_allocated f) (tree_allocated rec) || over (max_tree_allocated f) (tree_allocated rec)) &&
  negb (under (min_bulkiness f) (bulkiness rec) || over (max_bulkiness f) (bulkiness rec)) &&
  negb (under (min_path_len f) (path_len rec) || over (max_path_len f) (path_len rec)) &&
  negb (negb (is_nil (allowed_months f)) && negb (bool_decide (month_from_filetime (modified rec) ∈ allowed_months f))) &&
  negb (differs (Filters.malformed f) (negb (utf8_valid (name_bytes names rec)))).
Proof using Type.
  unfold matches_derived. cbv zeta.
  repeat match goal with |- (if ?c then false else _) = _ => destruct c; cbn [negb andb]; [by rewrite ?andb_false_r |] end. done.
Qed.

Lemma derived_filters_parts f row contained excluded :
  dir_contained f row = Some contained -> dir_excluded f row = Some excluded ->
  apply_derived_filters row f =
  Some (negb (under (min_name_len f) (len_to_u16 (zlen (str_chars (row_name row)))) || over (max_name_len f) (len_to_u16 (zlen (str_chars (row_name row))))) &&
    negb (under (min_path_len f) (len_to_u16 (zlen (str_chars (row_path row)))) || over (max_path_len f) (len_to_u16 (zlen (str_chars (row_path row))))) &&
    contained && negb excluded && negb (type_rejected f row) &&
    negb (under (min_bulkiness f) (bulkiness_for_row row) || over (max_bulkiness f) (bulkiness_for_row row)) &&
    negb (under (min_allocated f) (row_allocated row) || over (max_allocated f) (row_allocated row)) &&
    negb (under (min_treesize f) (row_treesize row) || over (max_treesize f) (row_treesize row)) &&
    negb (under (min_tree_allocated f) (row_tree_allocated row) || over (max_tree_allocated f) (row_tree_allocated row)) &&
    negb (negb (is_nil (allowed_months f)) && negb (bool_decide (month_from_filetime (row_modified row) ∈ allowed_months f)))).
Proof using Type.
  intros Hc He. unfold apply_derived_filters. rewrite Hc, He. cbv zeta.
  repeat match goal with |- (if ?c then Some false else _) = _ => destruct c; cbn [negb andb]; [by rewrite ?andb_false_r |] end.
  destruct contained; [|done]. destruct excluded; [done |]. cbn [negb andb].
  repeat match goal with |- (if ?c then Some false else _) = _ => destruct c; cbn [negb andb]; [by rewrite ?andb_false_r |] end. done.
Qed.

Lemma row_passes_parts f table row excluded derived :
  is_empty f = false ->
  match exclude_lower f with Some excl => name_matches (fold_into table (str_chars (row_name row))) excl | None => Some false end = Some excluded ->
  apply_derived_filters row f = Some derived ->
  row_passes_filters row f table =
  Some (negb (hide_system f && is_system_name (row_name row)) && negb (hide_ads f && contains_byte COLON (row_name row)) &&
    negb (differs (Filters.malformed f) (row_malformed row)) &&
    negb (under (min_size f) (row_size row) || over (max_size f) (row_size row)) &&
    negb (under (newer_us f) (row_modified row) || at_or_over (older_us f) (row_modified row)) &&
    negb (under (newer_created_us f) (row_created row) || at_or_over (older_created_us f) (row_created row)) &&
    negb (under (newer_accessed_us f) (row_accessed row) || at_or_over (older_accessed_us f) (row_accessed row)) &&
    negb (negb (attr_require f =? 0) && negb (Z.land (row_flags row) (attr_require f) =? attr_require f)) &&
    negb (negb (attr_exclude f =? 0) && negb (Z.land (row_flags row) (attr_exclude f) =? 0)) &&
    negb (under (min_descendants f) (row_descendants row) || over (max_descendants f) (row_descendants row)) &&
    row_extension_passes f row && negb excluded && derived).
Proof using Type.
  intros Hf He Hd. unfold row_passes_filters. rewrite Hf, He, Hd.
  repeat match goal with |- (if ?c then Some false else _) = _ => destruct c; cbn [negb andb]; [by rewrite ?andb_false_r |] end.
  destruct (row_extension_passes f row); [|done]. by destruct excluded.
Qed.

(** No filter set: every record and every row passes. *)
Lemma empty_passes f table names rec row :
  is_empty f = true ->
  matches_record to_lowercase lower_char (set_resolved f []) table names rec = Some true
  /\ display_passes f row = Some true /\ row_passes_filters row f table = Some true.
Proof using Type.
  intros He. split_and!.
  - pose proof He as H. unfold is_empty in H. split_ands. rewrite bounds_unset_matches by done. unfold matches_extension.
    cbn [resolved_ext_ids set_resolved extensions hide_system hide_ads deleted Filters.malformed].
    repeat match goal with E : ?x f = _ |- _ => rewrite E; clear E end. done.
  - unfold is_empty, bounds_unset in He. split_ands. unfold display_passes, dir_contained, dir_excluded, type_rejected.
    repeat match goal with E : ?x f = _ |- _ => rewrite E; clear E end. done.
  - unfold row_passes_filters. by rewrite He.
Qed.

Lemma excluded_total f table names rec row :
  row_of names rec row -> no_star (fold_into table (str_chars (row_name row))) ->
  exists x, match exclude_lower f with
    Some excl => name_matches (fold_into table (str_chars (name_str names rec))) excl | None => Some false end = Some x.
Proof using Type.
  intros Hr Hname. rewrite <- (ro_name _ _ _ Hr). destruct (exclude_lower f) as [excl |]; [|eauto].
  destruct (name_matches_spec _ excl Hname) as (b & E & _). eauto.
Qed.

(** Without the criterion of deletion, the two predicates agree. *)
Lemma row_filters_live f table names rec row :
  row_of names rec row -> deleted f = None ->
  no_star (fold_into table (str_chars (row_name row))) -> no_star (to_ascii_lowercase (row_path_dir row)) ->
  exists b d, matches_record to_lowercase lower_char (set_resolved f []) table names rec = Some b /\ display_passes f row = Some d
    /\ row_passes_filters row f table = Some (b && d).
Proof using Type.
  intros Hr Hdel Hname Hdir. destruct (is_empty f) eqn:Hem.
  { destruct (empty_passes f table names rec row Hem) as (H1 & H2 & H3). by exists true, true. }
  assert (Hx : exists x, match exclude_lower f with
    Some excl => name_matches (fold_into table (str_chars (row_name row))) excl | None => Some false end = Some x).
  { destruct (exclude_lower f) as [excl |]; [|eauto]. destruct (name_matches_spec _ excl Hname) as (b & E & _). eauto. }
  destruct Hx as [x Hx].
  assert (Hc : exists c, dir_contained f row = Some c).
  { unfold dir_contained. destruct (path_contains_lower f) as [pat |]; [|eauto]. destruct (name_matches_spec _ pat Hdir) as (b & E & _). eauto. }
  destruct Hc as [c Hc].
  assert (He : exists e, dir_excluded f row = Some e).
  { unfold dir_excluded. destruct (path_excludes_lower f) as [pats |]; [|eauto].
    destruct (any_match_spec (name_matches (to_ascii_lowercase (row_path_dir row))) pats _ (fun pat => name_matches_spec _ pat Hdir)) as (b & E & _). eauto. }
  destruct He as [e He].
  rewrite (matches_record_parts f table names rec x) by (by rewrite <- (ro_name _ _ _ Hr)).
  unfold deleted_passes. rewrite Hdel. cbn [differs negb]. rewrite andb_true_r.
  eexists _, _. split; [done |]. split; [unfold display_passes; by rewrite Hc, He |].
  rewrite (row_passes_parts f table row x _ Hem Hx (derived_filters_parts f row c e Hc He)). f_equal.
  unfold record_part. rewrite matches_derived_parts, (row_system _ _ _ Hr), (row_extension _ _ _ _ Hr).
  rewrite (row_bulkiness _ _ _ Hr), (ro_path _ _ _ Hr), (ro_name _ _ _ Hr).
  rewrite <- name_str_chars.
  destruct Hr as [Hn _ _ _ _ (idx & letter & path & forensics & -> & Hm)].
  cbn [make_display_row row_malformed row_size row_modified row_created row_accessed row_flags row_descendants row_allocated row_treesize row_tree_allocated].
  rewrite Hm. apply eq_true_iff_eq. rewrite !andb_true_iff. tauto.
Qed.

Lemma row_filters_spec f table names rec row :
  row_of names rec row ->
  no_star (fold_into table (str_chars (row_name row))) -> no_star (to_ascii_lowercase (row_path_dir row)) ->
  exists b d, matches_record to_lowercase lower_char (set_resolved (without_deleted f) []) table names rec = Some b
    /\ matches_record to_lowercase lower_char (set_resolved f []) table names rec = Some (b && deleted_passes f rec)
    /\ display_passes f row = Some d /\ row_passes_filters row f table = Some (b && d).
Proof using Type.
  intros Hr Hname Hdir.
  destruct (row_filters_live (without_deleted f) table names rec row Hr eq_refl Hname Hdir) as (b & d & H1 & H2 & H3).
  exists b, d. split_and!; [done | | exact H2 | by rewrite row_passes_without_deleted].
  destruct (excluded_total f table names rec row Hr Hname) as [x Hx].
  rewrite (matches_record_parts (without_deleted f) table names rec x Hx) in H1. injection H1 as <-.
  rewrite (matches_record_parts f table names rec x Hx).
  change (deleted_passes (without_deleted f) rec) with true. rewrite andb_true_r. done.
Qed.

(** The predicate returns on rows without a star in the name or the directory. *)
Lemma row_passes_total f table row :
  no_star (fold_into table (str_chars (row_name row))) -> no_star (to_ascii_lowercase (row_path_dir row)) ->
  exists b, row_passes_filters row f table = Some b.
Proof using Type.
  intros Hname Hdir.
  assert (Hc : exists c, dir_contained f row = Some c).
  { unfold dir_contained. destruct (path_contains_lower f) as [pat |]; [|eauto]. destruct (name_matches_spec _ pat Hdir) as (b & E & _). eauto. }
  assert (He : exists e, dir_excluded f row = Some e).
  { unfold dir_excluded. destruct (path_excludes_lower f) as [pats |]; [|eauto].
    destruct (any_match_spec (name_matches (to_ascii_lowercase (row_path_dir row))) pats _ (fun pat => name_matches_spec _ pat Hdir)) as (b & E & _). eauto. }
  destruct Hc as [c Hc], He as [e He]. destruct (is_empty f) eqn:Hem; [exists true; unfold row_passes_filters; by rewrite Hem |].
  assert (Hx : exists x, match exclude_lower f with
    Some excl => name_matches (fold_into table (str_chars (row_name row))) excl | None => Some false end = Some x).
  { destruct (exclude_lower f) as [excl |]; [|eauto]. destruct (name_matches_spec _ excl Hname) as (b & E & _). eauto. }
  destruct Hx as [x Hx]. eexists. apply (row_passes_parts f table row x _ Hem Hx (derived_filters_parts f row c e Hc He)).
Qed.

(** ** Filtering lists *)

Lemma retain_spec {A} (keep : A -> option bool) (p : A -> bool) l :
  (forall x, x ∈ l -> keep x = Some (p x)) -> retain keep l = Some (List.filter p l).
Proof using Type.
  induction l as [|x l IH]; intros H; [done |]. cbn [retain List.filter]. rewrite (H x) by left.
  rewrite IH by (intros; apply H; by right). by destruct (p x).
Qed.

Definition mode_keeps (filter : FilterMode) (row : DisplayRow) : bool :=
  match filter with All => true | FilesOnly => negb (row_is_directory row) | DirsOnly => row_is_directory row end.

Lemma apply_filter_spec rows filter : apply_filter rows filter = List.filter (mode_keeps filter) rows.
Proof using Type.
  destruct filter; [|done..]. cbn [apply_filter]. induction rows as [|row rows IH]; [done |]. cbn. by rewrite <- IH.
Qed.

(** The row passes the criteria only a row has. *)
Definition displayed (f : SearchFilters) (row : DisplayRow) : bool := bool_decide (display_passes f row = Some true).

Lemma apply_search_filters_spec rows f :
  (forall row, row ∈ rows -> row_passes_filters row f default_table = Some (displayed f row)) ->
  apply_search_filters rows f = Some (List.filter (displayed f) rows).
Proof using Type.
  intros H. unfold apply_search_filters. destruct (is_empty f) eqn:He; [|by apply retain_spec].
  f_equal. clear H. induction rows as [|row rows IH]; [done |]. cbn [List.filter].
  assert (displayed f row = true) as ->; [|by rewrite <- IH].
  apply bool_decide_eq_true. unfold is_empty, bounds_unset in He. split_ands. unfold display_passes, dir_contained, dir_excluded, type_rejected.
  repeat match goal with E : ?x f = _ |- _ => rewrite E; clear E end. done.
Qed.

End filters.

(** [C:\docs\a.txt] under [--in C:\docs\ --hide-ads --ext txt]. *)
Definition sample_row_record : CompactRecord := mkCompactRecord 0 0 0 0 0 0 0 0 5 0 1 0 5 1 13 97.
Definition sample_row : DisplayRow :=
  make_display_row 2 67 sample_row_record (name_str sample_names sample_row_record)
    [67; 58; 92; 100; 111; 99; 115; 92; 97; 46; 116; 120; 116] (row_forensics sample_names sample_row_record false).

Lemma sample_row_of : row_of sample_names sample_row_record sample_row.
Proof. split; [by vm_compute.. |]. eexists _, _, _, _. split; [unfold sample_row; reflexivity | by vm_compute]. Qed.

Definition sample_row_filters : SearchFilters :=
  mkSearchFilters false true None None None None None None None None 0 0 None None [[116; 120; 116]] [] None (Some (bytes_of "c:\docs\"))
    None None None None None None None None None None None None None None [] None None.

(** The same filters and only deleted records: the live file passes as a row, not as a record. *)
Definition deleted_row_filters : SearchFilters :=
  mkSearchFilters false true None None None None None None None None 0 0 None None [[116; 120; 116]] [] None (Some (bytes_of "c:\docs\"))
    None None None None None None None None None None None None None None [] None (Some true).

