(* ===== verification/RowSort.v ===== *)
(** The sort of result rows and the sort specification
    ([crates/uffs-core/src/search/sorting.rs]).

    [sort_unstable_by] and [par_sort_unstable_by] are the library's sorts, of which only
    their contract [sorting] is assumed. *)
From stdpp Require Import strings sorting.
From S2P Require Import Prelude Text Ordering CaseFold Calendar Glob CsrIndex TrigramIndex IndexDelta Bloom CompactIndex PathLen UsnBatch UsnPatch Filters Fields PathResolve Derived QueryText.
Local Open Scope Z_scope.

(** * Columns *)

Record SortSpec := mkSortSpec { sort_col : FieldId; descending : bool }.

(** [field_to_attr_bit]. *)
Definition field_to_attr_bit (field : FieldId) : Z :=
  match field with
  | Hidden => 0x0002 | System => 0x0004 | Archive => 0x0020 | ReadOnly => 0x0001 | Compressed => 0x0800
  | Encrypted => 0x4000 | Sparse => 0x0200 | Reparse => 0x0400 | Offline => 0x1000 | NotIndexed => 0x2000
  | Temporary => 0x0100 | Virtual => 0x00010000 | Pinned => 0x00080000 | Unpinned => 0x00100000
  | Integrity => 0x8000 | NoScrub => 0x00020000 | DirectoryFlag => 0x0010 | RecallOnOpen => 0x00040000
  | RecallOnDataAccess => 0x00400000
  | _ => 0
  end.

Definition has_flag (field : FieldId) (row : DisplayRow) : bool := negb (Z.land (row_flags row) (field_to_attr_bit field) =? 0).

(** [chars().count()]. *)
Definition char_count (s : list Z) : Z := zlen (str_chars s).

(** [is_strict_numeric]. *)
Definition is_strict_numeric (column : FieldId) : bool :=
  match column with
  | Size | SizeOnDisk | Created | Modified | Accessed | Drive | Descendants | TreeSize | TreeAllocated | Bulkiness
  | NameLength | PathLength | Hidden | System | Archive | ReadOnly | Compressed | Encrypted | Sparse | Reparse
  | Offline | NotIndexed | Temporary | Virtual | Pinned | Unpinned | Integrity | NoScrub | DirectoryFlag
  | RecallOnOpen | RecallOnDataAccess => true
  | _ => false
  end.

(** [SortKeyNeeds]. *)
Definition PATH : Z := 1.
Definition PATH_ONLY : Z := 2.
Definition EXT : Z := 4.
Definition FILE_TYPE : Z := 8.

Definition bit_for (column : FieldId) : Z :=
  match column with Path => PATH | PathOnly => PATH_ONLY | Extension => EXT | Type' => FILE_TYPE | _ => 0 end.

Definition analyze (column : FieldId) (extra_tiers : list SortSpec) : Z :=
  foldl (fun bits tier => Z.lor bits (bit_for (tier.(sort_col)))) (bit_for column) extra_tiers.

Definition needs (bits flag : Z) : bool := negb (Z.land bits flag =? 0).

(** * Comparisons by a column *)

(** [compare_numeric_column]. *)
Definition compare_numeric_column (a b : DisplayRow) (column : FieldId) : comparison :=
  match column with
  | Size => row_size a ?= row_size b
  | SizeOnDisk => row_allocated a ?= row_allocated b
  | Created => row_created a ?= row_created b
  | Modified => row_modified a ?= row_modified b
  | Accessed => row_accessed a ?= row_accessed b
  | Drive => row_drive a ?= row_drive b
  | Descendants => row_descendants a ?= row_descendants b
  | TreeSize => row_treesize a ?= row_treesize b
  | TreeAllocated => tree_allocated_for_row a ?= tree_allocated_for_row b
  | Bulkiness => bulkiness_for_row a ?= bulkiness_for_row b
  | NameLength => char_count (row_name a) ?= char_count (row_name b)
  | PathLength => char_count (row_path a) ?= char_count (row_path b)
  | Hidden | System | Archive | ReadOnly | Compressed | Encrypted | Sparse | Reparse | Offline | NotIndexed | Temporary
  | Virtual | Pinned | Unpinned | Integrity | NoScrub | DirectoryFlag | RecallOnOpen | RecallOnDataAccess =>
      then_with (bool_cmp (has_flag column a) (has_flag column b)) (bytes_cmp (row_name a) (row_name b))
  | Malformed => then_with (bool_cmp (row_malformed a) (row_malformed b)) (bytes_cmp (row_name a) (row_name b))
  | MalformedPath => then_with (bool_cmp (row_malformed_path a) (row_malformed_path b)) (bytes_cmp (row_name a) (row_name b))
  | Name | Path | PathOnly | Extension | Type' | Attributes | AttributeValue | ParityAttributes | NameHex => Eq
  end.

(** [RowSortKey]: what the active sort does not read stays empty. *)
Record RowSortKey := mkRowSortKey { key_name : list Z; key_path : list Z; key_path_only : list Z; key_ext : list Z; key_file_type : list Z }.

Definition fold_str (table s : list Z) : list Z := fold_into table (str_chars s).

Definition build_row_sort_key (table : list Z) (row : DisplayRow) (bits : Z) : RowSortKey :=
  mkRowSortKey (fold_str table (row_name row))
    (if needs bits PATH then fold_str table (row_path row) else [])
    (if needs bits PATH_ONLY then fold_str table (row_path_dir row) else [])
    (if needs bits EXT then fold_str table (extract_extension_after_dot (row_name row)) else [])
    (if needs bits FILE_TYPE then fold_str table (semantic_type_for_row row) else []).

(** [compare_by_column]. *)
Definition compare_by_column (a : DisplayRow) (ka : RowSortKey) (b : DisplayRow) (kb : RowSortKey) (column : FieldId) : comparison :=
  let by_name := then_with (bytes_cmp (key_name ka) (key_name kb)) (bytes_cmp (row_name a) (row_name b)) in
  match column with
  | Size => row_size a ?= row_size b
  | SizeOnDisk => row_allocated a ?= row_allocated b
  | Created => row_created a ?= row_created b
  | Modified => row_modified a ?= row_modified b
  | Accessed => row_accessed a ?= row_accessed b
  | Path => then_with (bytes_cmp (key_path ka) (key_path kb)) (bytes_cmp (row_path a) (row_path b))
  | PathOnly => then_with (bytes_cmp (key_path_only ka) (key_path_only kb)) (bytes_cmp (row_path_dir a) (row_path_dir b))
  | Drive => row_drive a ?= row_drive b
  | Extension =>
      then_with (bytes_cmp (key_ext ka) (key_ext kb))
        (bytes_cmp (extract_extension_after_dot (row_name a)) (extract_extension_after_dot (row_name b)))
  | Type' => then_with (bytes_cmp (key_file_type ka) (key_file_type kb)) (bytes_cmp (semantic_type_for_row a) (semantic_type_for_row b))
  | Descendants => row_descendants a ?= row_descendants b
  | TreeSize => row_treesize a ?= row_treesize b
  | TreeAllocated => tree_allocated_for_row a ?= tree_allocated_for_row b
  | Bulkiness => bulkiness_for_row a ?= bulkiness_for_row b
  | NameLength => char_count (row_name a) ?= char_count (row_name b)
  | PathLength => char_count (row_path a) ?= char_count (row_path b)
  | Hidden | System | Archive | ReadOnly | Compressed | Encrypted | Sparse | Reparse | Offline | NotIndexed | Temporary
  | Virtual | Pinned | Unpinned | Integrity | NoScrub | DirectoryFlag | RecallOnOpen | RecallOnDataAccess =>
      then_with (bool_cmp (has_flag column a) (has_flag column b)) by_name
  | Malformed => then_with (bool_cmp (row_malformed a) (row_malformed b)) by_name
  | MalformedPath => then_with (bool_cmp (row_malformed_path a) (row_malformed_path b)) by_name
  | Name | Attributes | AttributeValue | ParityAttributes | NameHex => by_name
  end.

(** * The sorts *)

Definition directed (desc : bool) (ord : comparison) : comparison := if desc then CompOpp ord else ord.

(** The loop over the tiers, which stops at the first difference. *)
Fixpoint tiers_loop (compare : FieldId -> comparison) (ord : comparison) (tiers : list SortSpec) : comparison :=
  match tiers with
  | [] => ord
  | tier :: tiers =>
      if negb (is_eq ord) then ord
      else tiers_loop compare (directed (descending tier) (compare tier.(sort_col))) tiers
  end.

(** The comparator of [sort_rows_numeric_fast]. *)
Definition compare_numeric (column : FieldId) (desc : bool) (tiers : list SortSpec) (a b : DisplayRow) : comparison :=
  let ord := tiers_loop (compare_numeric_column a b) (directed desc (compare_numeric_column a b column)) tiers in
  if is_eq ord then bytes_cmp (row_name a) (row_name b) else ord.

(** The comparator of [sort_rows_with_fold], on decorated rows. *)
Definition compare_decorated (column : FieldId) (desc : bool) (tiers : list SortSpec) (a b : DisplayRow * RowSortKey) : comparison :=
  let compare := compare_by_column a.1 a.2 b.1 b.2 in
  let ord := tiers_loop compare (directed desc (compare column)) tiers in
  if is_eq ord && negb (bool_decide (column = Name)) && negb (existsb (fun tier => bool_decide (tier.(sort_col) = Name)) tiers)
  then then_with (bytes_cmp (key_name a.2) (key_name b.2)) (bytes_cmp (row_name a.1) (row_name b.1))
  else ord.

Definition PARALLEL_SORT_THRESHOLD : Z := 16384.

Section sorts.
Context (sort_unstable_by par_sort_unstable_by : forall A, (A -> A -> comparison) -> list A -> list A).

Definition sort_rows_numeric_fast (rows : list DisplayRow) (column : FieldId) (desc : bool) (tiers : list SortSpec) : list DisplayRow :=
  if PARALLEL_SORT_THRESHOLD <=? zlen rows then par_sort_unstable_by _ (compare_numeric column desc tiers) rows
  else sort_unstable_by _ (compare_numeric column desc tiers) rows.

(** Decorating in parallel gives the same list in the same order. *)
Definition sort_rows_with_fold (table : list Z) (rows : list DisplayRow) (column : FieldId) (desc : bool) (tiers : list SortSpec)
    : list DisplayRow :=
  if zlen rows <=? 1 then rows
  else
    let bits := analyze column tiers in
    if (bits =? 0) && is_strict_numeric column && forallb (fun tier => is_strict_numeric tier.(sort_col)) tiers
    then sort_rows_numeric_fast rows column desc tiers
    else
      let decorated := map (fun row => (row, build_row_sort_key table row bits)) rows in
      let sorted :=
        if PARALLEL_SORT_THRESHOLD <=? zlen decorated then par_sort_unstable_by _ (compare_decorated column desc tiers) decorated
        else sort_unstable_by _ (compare_decorated column desc tiers) decorated in
      map fst sorted.

Definition sort_rows (rows : list DisplayRow) (column : FieldId) (desc : bool) (tiers : list SortSpec) : list DisplayRow :=
  sort_rows_with_fold default_table rows column desc tiers.
End sorts.

(** * The order of the result *)

(** ** Comparators are total preorders *)

#[export] Instance Z_on {A} (f : A -> Z) : TotalPreorder (fun a b => f a ?= f b).
Proof. apply (on_preorder f Z.compare). Qed.
#[export] Instance bool_on {A} (f : A -> bool) : TotalPreorder (fun a b => bool_cmp (f a) (f b)).
Proof. apply (on_preorder f bool_cmp). Qed.
#[export] Instance bytes_on {A} (f : A -> list Z) : TotalPreorder (fun a b => bytes_cmp (f a) (f b)).
Proof. apply (on_preorder f bytes_cmp). Qed.

#[export] Instance compare_numeric_column_preorder c : TotalPreorder (fun a b => compare_numeric_column a b c).
Proof. destruct c; cbn; apply _. Qed.

#[export] Instance compare_by_column_preorder c :
  TotalPreorder (fun a b : DisplayRow * RowSortKey => compare_by_column a.1 a.2 b.1 b.2 c).
Proof. destruct c; cbn; apply _. Qed.

#[export] Instance directed_preorder {A} (cmp : A -> A -> comparison) `{!TotalPreorder cmp} desc :
  TotalPreorder (fun a b => directed desc (cmp a b)).
Proof. destruct desc; cbn; apply _. Qed.

(** The first column that tells two rows apart decides. *)
Fixpoint lexicographic {A} (cmp : FieldId -> A -> A -> comparison) (specs : list SortSpec) (a b : A) : comparison :=
  match specs with
  | [] => Eq
  | spec :: specs => then_with (directed (descending spec) (cmp (sort_col spec) a b)) (lexicographic cmp specs a b)
  end.

Lemma lexicographic_preorder {A} (cmp : FieldId -> A -> A -> comparison) specs :
  (forall c, TotalPreorder (cmp c)) -> TotalPreorder (lexicographic cmp specs).
Proof.
  intros Hc. induction specs as [|spec specs IH]; [apply equal_preorder |]. cbn [lexicographic].
  apply then_with_preorder; [by apply directed_preorder | done].
Qed.

Lemma directed_eq desc o : directed desc o = Eq <-> o = Eq.
Proof. by destruct desc, o. Qed.

Lemma tiers_loop_lexicographic {A} (cmp : FieldId -> A -> A -> comparison) ord tiers a b :
  tiers_loop (fun c => cmp c a b) ord tiers = then_with ord (lexicographic cmp tiers a b).
Proof.
  revert ord. induction tiers as [|tier tiers IH]; intros ord; cbn; [by destruct ord |]. destruct ord; cbn; [apply IH | done | done].
Qed.

Lemma lexicographic_eq {A} (cmp : FieldId -> A -> A -> comparison) specs a b :
  lexicographic cmp specs a b = Eq <-> Forall (fun spec => cmp (sort_col spec) a b = Eq) specs.
Proof.
  induction specs as [|spec specs IH]; cbn [lexicographic]; [by split |].
  rewrite Forall_cons, <- IH, <- (directed_eq (descending spec) (cmp (sort_col spec) a b)). unfold then_with. destruct (directed _ _).
  all: intuition congruence.
Qed.

(** ** The documented orders *)

Definition full_key (table : list Z) (row : DisplayRow) : RowSortKey :=
  mkRowSortKey (fold_str table (row_name row)) (fold_str table (row_path row)) (fold_str table (row_path_dir row))
    (fold_str table (extract_extension_after_dot (row_name row))) (fold_str table (semantic_type_for_row row)).

(** A row's place for a column, folded text first and the exact text between equals. *)
Definition row_cmp (table : list Z) (c : FieldId) (a b : DisplayRow) : comparison :=
  compare_by_column a (full_key table a) b (full_key table b) c.

Definition by_numbers (specs : list SortSpec) (a b : DisplayRow) : comparison :=
  then_with (lexicographic (fun c a b => compare_numeric_column a b c) specs a b) (bytes_cmp (row_name a) (row_name b)).

Definition by_columns (table : list Z) (specs : list SortSpec) (a b : DisplayRow) : comparison :=
  then_with (lexicographic (row_cmp table) specs a b) (row_cmp table Name a b).

Definition result_order (table : list Z) (column : FieldId) (desc : bool) (tiers : list SortSpec) : DisplayRow -> DisplayRow -> comparison :=
  let specs := mkSortSpec column desc :: tiers in
  if forallb (fun spec => is_strict_numeric (sort_col spec)) specs then by_numbers specs else by_columns table specs.

#[export] Instance row_cmp_preorder table c : TotalPreorder (row_cmp table c).
Proof. unfold row_cmp. destruct c; cbn; apply _. Qed.

#[export] Instance by_numbers_preorder specs : TotalPreorder (by_numbers specs).
Proof. unfold by_numbers. apply then_with_preorder; [apply lexicographic_preorder; intros c; apply _ | apply _]. Qed.

#[export] Instance by_columns_preorder table specs : TotalPreorder (by_columns table specs).
Proof. unfold by_columns. apply then_with_preorder; [apply lexicographic_preorder; intros c; apply _ | apply _]. Qed.

#[export] Instance result_order_preorder table column desc tiers : TotalPreorder (result_order table column desc tiers).
Proof. unfold result_order. destruct (forallb _ _); apply _. Qed.

Lemma compare_numeric_spec column desc tiers a b :
  compare_numeric column desc tiers a b = by_numbers (mkSortSpec column desc :: tiers) a b.
Proof.
  unfold compare_numeric, by_numbers. cbn [lexicographic sort_col descending].
  rewrite (tiers_loop_lexicographic (fun c a b => compare_numeric_column a b c)). by destruct (then_with _ _).
Qed.

(** ** Decorated rows *)

Lemma analyze_bits column tiers bits :
  Z.land bits (bit_for column) = bit_for column ->
  Z.land (foldl (fun bits tier => Z.lor bits (bit_for tier.(sort_col))) bits tiers) (bit_for column) = bit_for column.
Proof.
  revert bits. induction tiers as [|tier tiers IH]; intros bits H; [done |]. cbn [foldl]. apply IH.
  rewrite Z.land_lor_distr_l, H. apply Z.bits_inj'. intros n _. rewrite Z.lor_spec, Z.land_spec. by destruct (Z.testbit _ n), (Z.testbit _ n).
Qed.

Lemma analyze_covers c column tiers :
  (c = column \/ c ∈ map sort_col tiers) -> Z.land (analyze column tiers) (bit_for c) = bit_for c.
Proof.
  unfold analyze. intros [-> | Hin]; [apply analyze_bits, Z.land_diag |].
  generalize (bit_for column). clear column. induction tiers as [|tier tiers IH]; intros bits; [by apply not_elem_of_nil in Hin |].
  cbn [map foldl] in *. apply elem_of_cons in Hin as [-> | Hin]; [|by apply IH].
  apply analyze_bits. rewrite Z.land_lor_distr_l, Z.land_diag. apply Z.bits_inj'. intros n _.
  rewrite Z.lor_spec, Z.land_spec. by destruct (Z.testbit _ n), (Z.testbit _ n).
Qed.

(** The keys a column reads are there, so the decorated comparison is the documented one. *)
Lemma compare_needed table c bits a b :
  Z.land bits (bit_for c) = bit_for c ->
  compare_by_column a (build_row_sort_key table a bits) b (build_row_sort_key table b bits) c = row_cmp table c a b.
Proof.
  intros H. unfold row_cmp, build_row_sort_key, needs. destruct c; cbn in *; try done; by rewrite H.
Qed.

Lemma lexicographic_needed table bits specs a b :
  Forall (fun spec => Z.land bits (bit_for (sort_col spec)) = bit_for (sort_col spec)) specs ->
  lexicographic (fun c (a b : DisplayRow * RowSortKey) => compare_by_column a.1 a.2 b.1 b.2 c) specs
    (a, build_row_sort_key table a bits) (b, build_row_sort_key table b bits) = lexicographic (row_cmp table) specs a b.
Proof. induction 1 as [|spec specs Hs _ IH]; cbn [lexicographic]; [done |]. cbn [fst snd] in *. by rewrite compare_needed, IH. Qed.

Lemma row_cmp_name_eq table a b : row_cmp table Name a b = Eq <-> row_name a = row_name b.
Proof.
  unfold row_cmp. cbn. unfold then_with. split.
  - destruct (bytes_cmp (fold_str _ _) _); [apply bytes_cmp_eq | done | done].
  - intros ->. by rewrite !(proj2 (bytes_cmp_eq _ _) eq_refl).
Qed.

Lemma compare_decorated_spec table column desc tiers a b :
  let bits := analyze column tiers in
  compare_decorated column desc tiers (a, build_row_sort_key table a bits) (b, build_row_sort_key table b bits) =
  by_columns table (mkSortSpec column desc :: tiers) a b.
Proof.
  intros bits. unfold compare_decorated, by_columns. cbn [fst snd].
  rewrite (tiers_loop_lexicographic (fun c (a b : DisplayRow * RowSortKey) => compare_by_column a.1 a.2 b.1 b.2 c) _ tiers
    (a, build_row_sort_key table a bits) (b, build_row_sort_key table b bits)).
  assert (Hc : forall c, c = column \/ c ∈ map sort_col tiers -> Z.land bits (bit_for c) = bit_for c) by (intros c; apply analyze_covers).
  rewrite (lexicographic_needed table bits) by (apply Forall_forall; intros spec Hin; apply Hc; right; by apply list_elem_of_fmap_2).
  rewrite compare_needed by (by apply Hc; left).
  change (then_with (directed desc (row_cmp table column a b)) (lexicographic (row_cmp table) tiers a b))
    with (lexicographic (row_cmp table) (mkSortSpec column desc :: tiers) a b).
  destruct (lexicographic _ (_ :: _) a b) eqn:E; [|done..]. cbn [is_eq andb then_with].
  apply lexicographic_eq in E. apply Forall_cons in E as [E1 E2]. cbn [sort_col] in E1.
  case_bool_decide as Hn; [subst column; by rewrite E1 |]. cbn [negb andb].
  destruct (existsb _ tiers) eqn:Ex; [|done]. apply existsb_exists in Ex as (tier & Hin & Ht). case_bool_decide as Hn'; [|done].
  rewrite Forall_forall in E2. specialize (E2 tier). rewrite Hn' in E2. by rewrite E2 by by apply list_elem_of_In.
Qed.

#[export] Instance compare_decorated_preorder column desc tiers : TotalPreorder (compare_decorated column desc tiers).
Proof.
  set (cmp := fun c (a b : DisplayRow * RowSortKey) => compare_by_column a.1 a.2 b.1 b.2 c).
  assert (Hl : TotalPreorder (lexicographic cmp (mkSortSpec column desc :: tiers))) by (apply lexicographic_preorder; intros c; apply compare_by_column_preorder).
  set (skip := bool_decide (column = Name) || existsb (fun tier => bool_decide (tier.(sort_col) = Name)) tiers).
  set (next := fun a b : DisplayRow * RowSortKey => if skip then Eq else
    then_with (bytes_cmp (key_name a.2) (key_name b.2)) (bytes_cmp (row_name a.1) (row_name b.1))).
  assert (Hn : TotalPreorder next) by (unfold next; destruct skip; apply _).
  pose proof (then_with_preorder (lexicographic cmp (mkSortSpec column desc :: tiers)) next) as Ht.
  assert (E : forall a b, compare_decorated column desc tiers a b = then_with (lexicographic cmp (mkSortSpec column desc :: tiers) a b) (next a b)).
  { intros a b. unfold compare_decorated. rewrite (tiers_loop_lexicographic cmp _ tiers a b). cbn [lexicographic sort_col descending].
    unfold cmp at 1 3. destruct (then_with _ _) eqn:El; cbn; [|done..].
    unfold next, skip. by destruct (bool_decide (column = Name)), (existsb _ tiers). }
  destruct Ht as [Ho Htr]. split; [intros a b; rewrite !E; apply Ho | intros a b c; rewrite !E; apply Htr].
Qed.

(** * The sorted rows *)

Lemma sorted_by_map {A B} (cmp : A -> A -> comparison) (cmp' : B -> B -> comparison) (f : A -> B) (P : A -> Prop) l :
  (forall a b, P a -> P b -> cmp' (f a) (f b) = cmp a b) -> Forall P l -> sorted_by cmp l -> sorted_by cmp' (map f l).
Proof.
  intros Hc HP Hs. induction Hs as [|a l Hs IH Ha]; cbn; [constructor |]. apply Forall_cons in HP as [Pa Pl].
  constructor; [by apply IH |]. apply Forall_map. rewrite Forall_forall in *. intros b Hb. cbn. rewrite Hc by auto. by apply Ha.
Qed.

Section sorts.
Context (su psu : forall A, (A -> A -> comparison) -> list A -> list A) (Hsu : sorting su) (Hpsu : sorting psu).

Lemma either_sorts {A} (b : bool) (cmp : A -> A -> comparison) l :
  TotalPreorder cmp ->
  (if b then psu A cmp l else su A cmp l) ≡ₚ l /\ sorted_by cmp (if b then psu A cmp l else su A cmp l).
Proof using All. intros Hc. destruct b; [by apply Hpsu | by apply Hsu]. Qed.

Lemma analyze_zero column tiers :
  forallb (fun spec => is_strict_numeric (sort_col spec)) (mkSortSpec column false :: tiers) = true -> analyze column tiers = 0.
Proof using Type.
  cbn [forallb sort_col]. intros [Hc Ht]%andb_true_iff. unfold analyze.
  assert (Hz : forall c, is_strict_numeric c = true -> bit_for c = 0) by by intros [].
  rewrite (Hz column Hc). clear Hc. revert Ht. induction tiers as [|tier tiers IH]; [done |]. cbn [forallb foldl].
  intros [Ht Hts]%andb_true_iff. rewrite (Hz _ Ht). by apply IH.
Qed.

Lemma sort_rows_spec table rows column desc tiers :
  let out := sort_rows_with_fold su psu table rows column desc tiers in
  out ≡ₚ rows /\ sorted_by (result_order table column desc tiers) out.
Proof using All.
  cbn zeta. unfold sort_rows_with_fold. destruct (Z.leb_spec (zlen rows) 1) as [H1 | H1].
  { split; [done |]. destruct rows as [|a [|b rows]]; [by repeat constructor | by repeat constructor |].
    rewrite !zlen_cons in H1. pose proof (zlen_nonneg rows). lia. }
  unfold result_order. cbn [forallb sort_col].
  rewrite <- andb_assoc. destruct (is_strict_numeric column && forallb _ tiers) eqn:En.
  - rewrite (analyze_zero column tiers) by exact En. cbn [Z.eqb andb]. unfold sort_rows_numeric_fast.
    assert (Hc : TotalPreorder (compare_numeric column desc tiers)).
    { destruct (by_numbers_preorder (mkSortSpec column desc :: tiers)) as [Ho Ht].
      split; [intros a b; rewrite !compare_numeric_spec; apply Ho | intros a b c; rewrite !compare_numeric_spec; apply Ht]. }
    destruct (either_sorts (PARALLEL_SORT_THRESHOLD <=? zlen rows) (compare_numeric column desc tiers) rows Hc) as [Hp Hs].
    split; [exact Hp |].
    rewrite <- (map_id (if PARALLEL_SORT_THRESHOLD <=? zlen rows then _ else _)).
    apply (sorted_by_map (compare_numeric column desc tiers) _ id (fun _ => True)); [|by apply Forall_forall | exact Hs].
    intros a b _ _. by rewrite compare_numeric_spec.
  - rewrite andb_false_r. set (bits := analyze column tiers).
    set (decorated := map (fun row => (row, build_row_sort_key table row bits)) rows).
    destruct (either_sorts (PARALLEL_SORT_THRESHOLD <=? zlen decorated) (compare_decorated column desc tiers) decorated _) as [Hp Hs].
    split.
    + rewrite Hp. unfold decorated. by rewrite map_map, map_id.
    + apply (sorted_by_map (compare_decorated column desc tiers) _ fst (fun e => e.2 = build_row_sort_key table e.1 bits)); [| | exact Hs].
      * intros [a ka] [b kb]. cbn. intros -> ->. by rewrite <- (compare_decorated_spec table column desc tiers a b).
      * rewrite Hp. apply Forall_map, Forall_forall. by intros row _.
Qed.
End sorts.

(** The rows of a result are the rows found, in the order of the columns asked for: the
    first column that tells two rows apart decides, each in its direction, and the name
    last.  When every column is a number or a flag the name is compared as it is, else
    folded first; the decoration computes no key the order does not read. *)
Theorem sort_rows_exact su psu table rows column desc tiers :
  sorting su -> sorting psu ->
  let out := sort_rows_with_fold su psu table rows column desc tiers in
  out ≡ₚ rows /\ sorted_by (result_order table column desc tiers) out.
Proof. intros Hsu Hpsu. by apply sort_rows_spec. Qed.

Lemma result_order_tie table column desc tiers a b :
  result_order table column desc tiers a b = Eq -> row_name a = row_name b.
Proof.
  unfold result_order, by_numbers, by_columns, then_with. destruct (forallb _ _).
  - destruct (lexicographic _ _ a b); [apply bytes_cmp_eq | done | done].
  - destruct (lexicographic _ _ a b); [apply row_cmp_name_eq | done | done].
Qed.

(** Whatever the library's sorts do with ties, two sorts of the same rows show at each
    place the same name and equal columns; the order is reproducible when no two rows tie. *)
Theorem sort_rows_reproducible su psu su' psu' table rows rows' column desc tiers :
  sorting su -> sorting psu -> sorting su' -> sorting psu' -> rows ≡ₚ rows' ->
  let out := sort_rows_with_fold su psu table rows column desc tiers in
  let out' := sort_rows_with_fold su' psu' table rows' column desc tiers in
  Forall2 (fun a b => result_order table column desc tiers a b = Eq /\ row_name a = row_name b) out out'
  /\ ((forall a b, a ∈ rows -> b ∈ rows -> result_order table column desc tiers a b = Eq -> a = b) -> out = out').
Proof.
  intros H1 H2 H3 H4 Hp out out'.
  destruct (sort_rows_spec su psu H1 H2 table rows column desc tiers) as [Po So].
  destruct (sort_rows_spec su' psu' H3 H4 table rows' column desc tiers) as [Po' So']. fold out in Po, So. fold out' in Po', So'.
  pose proof (sorted_unique _ out out' So So' ltac:(by rewrite Po, Po')) as Hu. split.
  - eapply Forall2_impl; [exact Hu |]. intros a b E. split; [done |]. by apply (result_order_tie table column desc tiers).
  - intros Hn. assert (Hin : forall x, x ∈ out' -> x ∈ rows) by (intros x; by rewrite Po', Hp).
    assert (Hout : forall x, x ∈ out -> x ∈ rows) by (intros x; by rewrite Po). clear So So' Po Po'. clearbody out out'.
    induction Hu as [|a b l k Hab _ IH]; [done |]. f_equal.
    + apply Hn; [apply Hout; left | apply Hin; left | done].
    + apply IH; intros x Hx; [apply Hin | apply Hout]; by right.
Qed.

(** ** Two sorts *)

Definition le_by {A} (cmp : A -> A -> comparison) (a b : A) : Prop := cmp a b <> Gt.
#[export] Instance le_by_dec {A} (cmp : A -> A -> comparison) a b : Decision (le_by cmp a b).
Proof. unfold le_by. apply _. Defined.

(** A merge sort, stable and not. *)
Definition stable_sort (A : Type) (cmp : A -> A -> comparison) (l : list A) : list A := merge_sort (le_by cmp) l.
Definition other_sort (A : Type) (cmp : A -> A -> comparison) (l : list A) : list A := merge_sort (le_by cmp) (rev l).

Lemma merge_sorts {A} (cmp : A -> A -> comparison) l :
  TotalPreorder cmp -> merge_sort (le_by cmp) l ≡ₚ l /\ sorted_by cmp (merge_sort (le_by cmp) l).
Proof.
  intros Hc. assert (Total (le_by cmp)) by (intros a b; apply (cmp_le_or cmp)).
  assert (Transitive (le_by cmp)) by (intros a b c; apply (cmp_trans cmp)).
  split; [apply merge_sort_Permutation | apply (StronglySorted_merge_sort (le_by cmp))].
Qed.

Lemma stable_sorting : sorting stable_sort.
Proof. intros A cmp l Hc. by apply merge_sorts. Qed.
Lemma other_sorting : sorting other_sort.
Proof. intros A cmp l Hc. unfold other_sort. destruct (merge_sorts cmp (rev l) Hc) as [Hp Hs]. split; [|done]. rewrite Hp. symmetry. apply Permutation_rev. Qed.

Definition sample_row (path : list Z) (size : Z) : DisplayRow :=
  make_display_row 0 67 (mkCompactRecord size 0 0 0 0 0 0 0 0 0x20 U32_MAX 0 0 0 0 0) [] path (mkRowForensics false false None).

Definition sample_rows : list DisplayRow := map (fun p => sample_row (bytes_of p.1) p.2)
  [("C:\b.txt", 5); ("C:\A.txt", 5); ("C:\a.txt", 7); ("C:\d\b.txt", 5)]%string.

Lemma sort_rows_exact_witness :
  let out := sort_rows_with_fold stable_sort other_sort ascii_table sample_rows Size true [] in
  (out ≡ₚ sample_rows /\ sorted_by (result_order ascii_table Size true []) out)
  /\ map row_path out = map bytes_of ["C:\a.txt"; "C:\A.txt"; "C:\b.txt"; "C:\d\b.txt"]%string.
Proof.
  split; [|by vm_compute].
  exact (sort_rows_exact stable_sort other_sort ascii_table sample_rows Size true [] stable_sorting other_sorting).
Defined.

Lemma sort_rows_reproducible_witness :
  sort_rows_with_fold stable_sort stable_sort ascii_table (take 3 sample_rows) Name false []
  = sort_rows_with_fold other_sort other_sort ascii_table (take 3 sample_rows) Name false [].
Proof.
  apply (sort_rows_reproducible stable_sort stable_sort other_sort other_sort ascii_table (take 3 sample_rows) (take 3 sample_rows) Name false []
    stable_sorting stable_sorting other_sorting other_sorting (Permutation_refl _)).
  intros a b Ha Hb. cbn [take sample_rows map] in Ha, Hb. each_elem Ha; each_elem Hb; by vm_compute.
Defined.

(** Files of one name in two directories tie, even in a sort by name: their order is
    left to the library's sort, so it is not reproducible. *)
Theorem same_name_order_unspecified :
  exists rows, sort_rows_with_fold stable_sort stable_sort ascii_table rows Name false []
    <> sort_rows_with_fold other_sort other_sort ascii_table rows Name false [].
Proof.
  exists (sample_rows). intros H. apply (f_equal (map row_path)) in H. by vm_compute in H.
Qed.

(** * The sort specification *)

(** One part of a [--sort] value: a field, with a direction after a colon or a dash before
    it, or the field's own default. *)
Definition parse_sort_part (raw_part : list Z) : option SortSpec :=
  let trimmed := str_trim raw_part in
  let '(has_dash_prefix, after_dash) :=
    match strip_prefix [MINUS] trimmed with Some rest => (true, rest) | None => (false, trimmed) end in
  let '(col_str, dir_str) :=
    match split_once COLON after_dash with Some (col, dir) => (str_trim col, Some (str_trim dir)) | None => (after_dash, None) end in
  let? field := parse col_str in
  if negb (sortable (metadata field)) then None
  else
    let fallback := has_dash_prefix || bool_decide (default_sort_direction field = Some Descending) in
    let desc :=
      match dir_str with
      | Some dir => if bool_decide (dir = bytes_of "desc") then true else if bool_decide (dir = bytes_of "asc") then false else fallback
      | None => fallback
      end in
    Some (mkSortSpec field desc).

Definition parse_sort_spec (sort_str : list Z) : list SortSpec := omap parse_sort_part (split_byte COMMA sort_str).

Definition format_part (spec : SortSpec) : list Z :=
  canonical_name (sort_col spec) ++ COLON :: bytes_of (if descending spec then "desc" else "asc").

Definition format_sort_spec (primary : FieldId) (primary_desc : bool) (extra : list SortSpec) : list Z :=
  join_byte COMMA (map format_part (mkSortSpec primary primary_desc :: extra)).

Lemma parse_format_part spec :
  parse_sort_part (format_part spec) = if sortable (metadata (sort_col spec)) then Some spec else None.
Proof. destruct spec as [[] []]; vm_compute; reflexivity. Qed.

Lemma format_part_comma spec : COMMA ∉ format_part spec.
Proof. destruct spec as [[] []]; apply (bool_decide_unpack _); by vm_compute. Qed.

(** The sort shown to a user is parsed back as the same columns and directions, in the
    same order, but for columns that cannot be sorted by. *)
Theorem sort_spec_roundtrip primary primary_desc extra :
  parse_sort_spec (format_sort_spec primary primary_desc extra) =
  List.filter (fun spec => sortable (metadata (sort_col spec))) (mkSortSpec primary primary_desc :: extra).
Proof.
  unfold parse_sort_spec, format_sort_spec. rewrite split_join_byte; [|done | apply Forall_map, Forall_forall; intros; apply format_part_comma].
  induction (mkSortSpec primary primary_desc :: extra) as [|spec specs IH]; [done |]. cbn. rewrite parse_format_part, IH.
  by destruct (sortable _).
Qed.
