(* ===== verification/TopRows.v ===== *)
(** The rows of a match-all query sorted by a column other than the path, and those of an
    extension query sorted by path: [collect_global_top_n_numeric] and its path resolution
    ([crates/uffs-core/src/search/query/numeric_top_n.rs]), [collect_path_via_ext_index]
    ([path_sorted_top_n.rs]) and [collect_path_only_via_ext_index] ([path_only_top_n.rs]).

    Candidates are pairs of a drive and a record index; their rows are resolved in chunks,
    every chunk with directory caches of its own for each drive. *)
From stdpp Require Import strings sorting.
From S2P Require Import Prelude Text Ordering CaseFold Calendar Glob CsrIndex TrigramIndex IndexDelta Bloom CompactIndex PathLen UsnBatch UsnPatch Filters Fields TopN PathResolve Derived QueryText RowFilters RowSort.
Local Open Scope Z_scope.
Local Open Scope rust_scope.

Abbreviation Drives := (list (DriveCompactIndex * Z)).

Section resolve.
Context (drives : Drives) (render : MalformedRender).
(** The records left out: nameless ones, or those without a name that is text. *)
Context (skip : list Z -> CompactRecord -> bool).

Fixpoint resolve_chunk (chunk : list HeapEntry) (caches : gmap Z DirCache) (mals : gmap Z MalformedCache) : list DisplayRow :=
  match chunk with
  | [] => []
  | e :: chunk =>
      match zget drives (drive_idx e) with
      | None => resolve_chunk chunk caches mals
      | Some (drive, letter) =>
          match zget (records drive) (rec_idx e) with
          | None => resolve_chunk chunk caches mals
          | Some rec =>
              if skip (names drive) rec then resolve_chunk chunk caches mals
              else
                let '(row, dirs, mal) := build_row_cached drive letter (stack_volume_prefix letter) render (rec_idx e) rec
                  (default ∅ (caches !! drive_idx e)) (default ∅ (mals !! drive_idx e)) in
                row :: resolve_chunk chunk (<[drive_idx e := dirs]> caches) (<[drive_idx e := mal]> mals)
          end
      end
  end.

(** Chunks run in parallel; their rows are concatenated in order. *)
Definition resolve_candidates_to_rows (candidates : list HeapEntry) : list DisplayRow :=
  concat (map (fun chunk => resolve_chunk chunk ∅ ∅) (par_chunks (length candidates) (Z.to_nat RESOLVE_CHUNK_SIZE) candidates)).

(** ** Every candidate by itself *)

Definition alone (drive : DriveCompactIndex) (letter idx : Z) (rec : CompactRecord) : DisplayRow :=
  make_display_row idx letter rec (name_str (names drive) rec) (resolve_path drive render idx (stack_volume_prefix letter))
    (row_forensics (names drive) rec (malformed_of drive (ancestors drive idx))).

Definition candidate_row (e : HeapEntry) : option DisplayRow :=
  let? (drive, letter) := zget drives (drive_idx e) in
  let? rec := zget (records drive) (rec_idx e) in
  if skip (names drive) rec then None else Some (alone drive letter (rec_idx e) rec).

(** A drive whose paths the resolver can walk. *)
Record resolvable (drive : DriveCompactIndex) : Prop := {
  rs_parents : parents_ok (records drive);
  rs_size : zlen (records drive) <= 2 ^ 32;
  rs_shallow : forall i, 0 <= i < zlen (records drive) -> shallow drive i
}.

Context (Hdrives : Forall (fun d => resolvable d.1) drives).

Definition caches_coherent (caches : gmap Z DirCache) (mals : gmap Z MalformedCache) : Prop :=
  forall k drive letter, zget drives k = Some (drive, letter) ->
    coherent drive render (stack_volume_prefix letter) (default ∅ (caches !! k)) (default ∅ (mals !! k)).

Lemma coherent_initially : caches_coherent ∅ ∅.
Proof using Type. intros k drive letter _. rewrite !lookup_empty. apply coherent_empty. Qed.

Lemma build_alone drive letter idx rec dirs mals :
  resolvable drive -> zget (records drive) idx = Some rec -> coherent drive render (stack_volume_prefix letter) dirs mals ->
  exists dirs' mals', build_row_cached drive letter (stack_volume_prefix letter) render idx rec dirs mals = (alone drive letter idx rec, dirs', mals')
    /\ coherent drive render (stack_volume_prefix letter) dirs' mals'.
Proof using Type.
  intros [Hp Hs Hsh] E Hc. pose proof E as [Hr _]%zget_Some. destruct (Hsh idx Hr) as (l & Ha & Hl).
  destruct (cached_fields drive render Hp Hs (stack_volume_prefix letter) dirs mals idx l Hc) as (dirs' & mals' & Er & Hc'); [unfold U32_MAX; lia | done | done |].
  exists dirs', mals'. split; [|done]. unfold build_row_cached, alone. rewrite Er. unfold ancestors.
  rewrite (walk_uncached _ _ _ _ Ha), (uncached_fields _ _ _ l) by done. cbn [fst]. by rewrite take_ge.
Qed.

Lemma resolve_chunk_spec chunk caches mals :
  caches_coherent caches mals -> resolve_chunk chunk caches mals = omap candidate_row chunk.
Proof using Hdrives.
  revert caches mals. induction chunk as [|e chunk IH]; intros caches mals Hc; [done |]. cbn [resolve_chunk omap list_omap].
  unfold candidate_row at 1. destruct (zget drives (drive_idx e)) as [[drive letter] |] eqn:Ed; [|by apply IH].
  destruct (zget (records drive) (rec_idx e)) as [rec |] eqn:Er; [|by apply IH]. destruct (skip _ rec); [by apply IH |].
  assert (Hd : resolvable drive).
  { rewrite Forall_forall in Hdrives. apply (Hdrives (drive, letter)). by eapply zget_elem. }
  destruct (build_alone drive letter (rec_idx e) rec _ _ Hd Er (Hc _ _ _ Ed)) as (dirs' & mals' & -> & Hc'). f_equal. apply IH.
  intros k drive' letter' Ek. destruct (decide (k = drive_idx e)) as [-> | Hk].
  - rewrite !lookup_insert_eq. cbn [default]. assert (drive' = drive /\ letter' = letter) as [-> ->] by (split; congruence). done.
  - rewrite !lookup_insert_ne by done. by apply Hc.
Qed.

Lemma resolve_candidates_spec candidates : resolve_candidates_to_rows candidates = omap candidate_row candidates.
Proof using Hdrives.
  unfold resolve_candidates_to_rows.
  assert (E : concat (par_chunks (length candidates) (Z.to_nat RESOLVE_CHUNK_SIZE) candidates) = candidates)
    by (apply concat_par_chunks; [unfold RESOLVE_CHUNK_SIZE; lia | done]).
  revert E. generalize (par_chunks (length candidates) (Z.to_nat RESOLVE_CHUNK_SIZE) candidates). intros chunks <-.
  induction chunks as [|chunk chunks IH]; [done |]. cbn [map concat]. rewrite omap_app, IH. f_equal.
  apply resolve_chunk_spec, coherent_initially.
Qed.
End resolve.

(** Nameless by the stored length, and by the text of the name. *)
Definition no_bytes (names : list Z) (rec : CompactRecord) : bool := name_len rec =? 0.
Definition no_text (names : list Z) (rec : CompactRecord) : bool := is_nil (name_str names rec).

Section collect.
Context (to_lowercase : list Z -> list Z) (lower_char : Z -> list Z) (trim : list Z -> list Z).
Context (heap_iter : list HeapEntry -> list HeapEntry) (sort_unstable : (HeapEntry -> Z) -> list HeapEntry -> list HeapEntry).
Context (sort_unstable_by par_sort_unstable_by : forall A, (A -> A -> comparison) -> list A -> list A).
Context (render : MalformedRender).

Definition numeric_rows (drives : Drives) (limit : Z) (sort_column : FieldId) (sort_desc : bool) (filter_mode : FilterMode)
    (search_filters : SearchFilters) : option (list DisplayRow) :=
  let? candidates :=
    collect_global_top_n_numeric to_lowercase lower_char trim heap_iter sort_unstable drives limit sort_column sort_desc filter_mode search_filters in
  let rows := resolve_candidates_to_rows drives render no_bytes candidates in
  Some (sort_rows sort_unstable_by par_sort_unstable_by rows sort_column sort_desc []).

(** The scan of the extension indexes; the filters keep the ids of the last drive. *)
Fixpoint ext_candidates (filter_mode : FilterMode) (search_filters : SearchFilters) (idx : Z) (drives : Drives) : list HeapEntry :=
  match drives with
  | [] => []
  | (drive, letter) :: drives =>
      let search_filters := resolve_ext_ids_for_drive to_lowercase trim search_filters drive in
      let cfg := mkDriveScanCfg 0 false Path false filter_mode true in
      map (fun it => mkHeapEntry 0 (len_to_u16 idx) it.1) (ext_rows drive search_filters cfg (resolved_ext_ids search_filters))
        ++ ext_candidates filter_mode search_filters (idx + 1) drives
  end.

(** [collect_path_via_ext_index] and [collect_path_only_via_ext_index], by the column. *)
Definition collect_via_ext_index (column : FieldId) (drives : Drives) (limit : Z) (sort_desc : bool) (filter_mode : FilterMode)
    (search_filters : SearchFilters) : list DisplayRow :=
  let candidates := sort_unstable locality (ext_candidates filter_mode search_filters 0 drives) in
  let rows := resolve_candidates_to_rows drives render no_text candidates in
  take (Z.to_nat limit) (sort_rows sort_unstable_by par_sort_unstable_by rows column sort_desc []).
End collect.

(** * The rows of a query *)

Lemma omap_permutation {A B} (g : A -> option B) l l' : l ≡ₚ l' -> omap g l ≡ₚ omap g l'.
Proof. intros H. by rewrite H. Qed.

Section exact.
Context (schedule : list (Z * Z) -> list (Z * Z)) (to_lowercase : list Z -> list Z) (lower_char : Z -> list Z) (trim : list Z -> list Z).
Context (Hschedule : forall ws, schedule ws ≡ₚ ws).
Context (f : SearchFilters) (Htokens : Forall (token_ok to_lowercase trim) (extensions f)).

(** The records of a drive that pass, and their rows. *)
Definition passes (drive : DriveCompactIndex) (mode : FilterMode) (rec : CompactRecord) : bool :=
  live rec && TopN.mode_keeps mode rec &&
  bool_decide (matches_record to_lowercase lower_char (set_resolved f []) (fold drive) (names drive) rec = Some true).

Definition drive_results (render : MalformedRender) (skip : list Z -> CompactRecord -> bool) (mode : FilterMode) (d : DriveCompactIndex * Z)
    : list DisplayRow :=
  map (fun it => alone render d.1 d.2 it.1 it.2)
    (List.filter (fun it => negb (skip (names d.1) it.2)) (List.filter (fun it => passes d.1 mode it.2) (enumerate (records d.1)))).

Lemma candidates_alone render skip (drives : Drives) idx drive letter (entry : Z * CompactRecord -> HeapEntry) l :
  zget drives idx = Some (drive, letter) ->
  Forall (fun it => drive_idx (entry it) = idx /\ rec_idx (entry it) = it.1 /\ zget (records drive) it.1 = Some it.2) l ->
  omap (candidate_row drives render skip) (map entry l) =
  map (fun it => alone render drive letter it.1 it.2) (List.filter (fun it => negb (skip (names drive) it.2)) l).
Proof using Type.
  intros Hd. induction 1 as [|[i rec] l (Ei & Er & E) _ IH]; [done |]. cbn [map omap list_omap List.filter fst snd] in *.
  rewrite IH. unfold candidate_row. rewrite Ei, Er, Hd, E. by destruct (skip (names drive) rec).
Qed.

Lemma len_to_u16_small idx : 0 <= idx <= U16_MAX -> len_to_u16 idx = idx.
Proof using Type. intros H. unfold len_to_u16. by replace (idx <=? U16_MAX) with true by lia. Qed.

Lemma passing_rows drive mode cfg :
  filter_mode cfg = mode ->
  drive_rows to_lowercase lower_char drive (by_name f) cfg = List.filter (fun it => passes drive mode it.2) (enumerate (records drive)).
Proof using Type. intros Hm. apply List.filter_ext. intros it. unfold row_kept, passes. by rewrite Hm. Qed.

Lemma drive_results_entries render mode cfg (drives : Drives) idx drive letter :
  filter_mode cfg = mode -> 0 <= idx <= U16_MAX -> zlen (records drive) <= 2 ^ 32 -> zget drives idx = Some (drive, letter) ->
  omap (candidate_row drives render no_bytes) (drive_entries to_lowercase lower_char idx drive letter (by_name f) cfg) =
  drive_results render no_bytes mode (drive, letter).
Proof using Type.
  intros Hm Hi Hz Hd. unfold drive_entries, drive_results. rewrite (passing_rows drive mode cfg Hm). apply (candidates_alone render no_bytes drives idx); [done |].
  apply Forall_forall. intros [i rec] [Hr%elem_of_enumerate _]%elem_of_filterb. pose proof Hr as [Hri _]%zget_Some.
  unfold entry_of, heap_entry_for. cbn [fst snd drive_idx rec_idx]. rewrite len_to_u16_small by done. unfold len_to_u32.
  cbn [fst snd] in *. replace (i <=? U32_MAX) with true by (unfold U32_MAX; lia). done.
Qed.

Lemma all_results render mode cfg (drives : Drives) front back :
  drives = front ++ back -> filter_mode cfg = mode -> zlen drives <= U16_MAX -> Forall (fun d => zlen (records d.1) <= 2 ^ 32) drives ->
  omap (candidate_row drives render no_bytes) (all_entries to_lowercase lower_char f cfg (zlen front) back) =
  back ≫= drive_results render no_bytes mode.
Proof using Type.
  intros E Hm Hz Hs. revert front E. induction back as [|[drive letter] back IH]; intros front E; [done |]. cbn [all_entries mbind list_bind].
  pose proof (zlen_nonneg front). pose proof (zlen_nonneg back).
  assert (Hlen : zlen drives = zlen front + 1 + zlen back) by (rewrite E, zlen_app, zlen_cons; lia).
  rewrite omap_app. f_equal.
  - apply drive_results_entries; [done | lia | |].
    + rewrite Forall_forall in Hs. apply (Hs (drive, letter)). rewrite E. apply elem_of_app. right. left.
    + rewrite E, zget_app_r by lia. by rewrite Z.sub_diag.
  - replace (zlen front + 1) with (zlen (front ++ [(drive, letter)])) by (by rewrite zlen_app). apply IH. by rewrite E, <- app_assoc.
Qed.

(** ** The extension indexes *)

Lemma resolve_again g drive ids : resolve_ext_ids_for_drive to_lowercase trim (set_resolved g ids) drive = resolve_ext_ids_for_drive to_lowercase trim g drive.
Proof using Type. unfold resolve_ext_ids_for_drive. cbn [extensions set_resolved]. by destruct (is_nil (extensions g)). Qed.

Lemma ext_candidates_again mode g ids idx drives :
  ext_candidates to_lowercase trim mode (set_resolved g ids) idx drives = ext_candidates to_lowercase trim mode g idx drives.
Proof using Type. destruct drives as [|[drive letter] drives]; [done |]. cbn [ext_candidates]. by rewrite resolve_again. Qed.

Lemma ext_candidates_resolved mode idx drive drives :
  ext_candidates to_lowercase trim mode (resolve_ext_ids_for_drive to_lowercase trim f drive) idx drives =
  ext_candidates to_lowercase trim mode f idx drives.
Proof using Type. unfold resolve_ext_ids_for_drive. by destruct (is_nil (extensions f)); rewrite ext_candidates_again. Qed.

Context (Hext : is_ext_only f = true) (Hforensic : Filters.malformed f = None /\ deleted f = None).

Lemma ext_rows_results mode drive :
  scannable schedule to_lowercase lower_char drive -> mode <> DirsOnly ->
  let local := resolve_ext_ids_for_drive to_lowercase trim f drive in
  ext_rows drive local (mkDriveScanCfg 0 false Path false mode true) (resolved_ext_ids local) ≡ₚ
  List.filter (fun it => passes drive mode it.2) (enumerate (records drive)).
Proof using Hext Hforensic Hschedule Htokens.
  intros Hd Hmode local. set (cfg := mkDriveScanCfg 0 false Path false mode true).
  rewrite <- (passing_rows drive mode cfg eq_refl). pose proof Hext as [Hne Hb]%andb_true_iff. apply negb_true_iff in Hne.
  assert (Hn : extensions f <> []) by (intros E; by rewrite E in Hne).
  destruct (resolved_ids_ok schedule to_lowercase lower_char trim f Htokens drive Hd Hn) as [Hnd Hids]. unfold local_filters in Hnd, Hids. fold local in Hnd, Hids.
  destruct (sd_reachable _ _ _ _ Hd) as (r0 & n0 & Hr). destruct (reachable_invariant _ _ _ _ _ Hr) as [_ Ho].
  destruct (local_filters_fields to_lowercase trim f drive) as (Eb & Em & Ed & _). unfold local_filters in Eb, Em, Ed. fold local in Eb, Em, Ed.
  assert (Hrows : drive_rows to_lowercase lower_char drive local cfg = drive_rows to_lowercase lower_char drive (by_name f) cfg).
  { apply List.filter_ext_in. intros [i rec] Hin%list_elem_of_In%elem_of_enumerate.
    apply (row_kept_by_name schedule to_lowercase lower_char trim f Htokens drive cfg rec Hd). by eapply zget_elem. }
  destruct (resolved_ext_ids local) as [|e ids] eqn:Er.
  - pose proof (unresolved_no_rows schedule to_lowercase lower_char trim f Htokens drive 0 0 cfg Hd Hn Er Hext) as Hz.
    unfold drive_entries in Hz. apply map_eq_nil in Hz. by rewrite Hz.
  - rewrite <- Hrows, <- Er. destruct Hforensic. apply (ext_rows_perm to_lowercase lower_char drive local cfg schedule r0 n0); try done; try congruence.
    + intros x Hx. rewrite Er in Hx. apply Hids in Hx as (ext & _ & [Hx _]%zget_Some). lia.
Qed.

Lemma ext_results render mode (drives : Drives) front back :
  drives = front ++ back -> mode <> DirsOnly -> zlen drives <= U16_MAX -> Forall (fun d => scannable schedule to_lowercase lower_char d.1) back ->
  omap (candidate_row drives render no_text) (ext_candidates to_lowercase trim mode f (zlen front) back) ≡ₚ
  back ≫= drive_results render no_text mode.
Proof using Hext Hforensic Hschedule Htokens.
  intros E Hm Hz Hs. revert front E. induction Hs as [|[drive letter] back Hd _ IH]; intros front E; [done |]. cbn [ext_candidates mbind list_bind].
  pose proof (zlen_nonneg front). pose proof (zlen_nonneg back).
  assert (Hlen : zlen drives = zlen front + 1 + zlen back) by (rewrite E, zlen_app, zlen_cons; lia).
  rewrite omap_app, ext_candidates_resolved. apply Permutation_app.
  - unfold drive_results. cbn [fst snd] in Hd |- *. rewrite (ext_rows_results mode drive Hd Hm).
    rewrite (candidates_alone render no_text drives (zlen front) drive letter); [done | |].
    + rewrite E, zget_app_r by lia. by rewrite Z.sub_diag.
    + apply Forall_forall. intros [i rec] [Hr%elem_of_enumerate _]%elem_of_filterb. cbn. by rewrite len_to_u16_small by lia.
  - replace (zlen front + 1) with (zlen (front ++ [(drive, letter)])) by (by rewrite zlen_app). apply IH. by rewrite E, <- app_assoc.
Qed.
End exact.

Lemma length_omap_le {A B} (g : A -> option B) l : (length (omap g l) <= length l)%nat.
Proof. induction l as [|x l IH]; [done |]. change (omap g (x :: l)) with (match g x with Some y => y :: omap g l | None => omap g l end). destruct (g x); cbn [length]; lia. Qed.

Lemma drive_results_length to_lowercase lower_char f render mode cfg idx drive letter :
  filter_mode cfg = mode ->
  zlen (drive_results to_lowercase lower_char f render no_bytes mode (drive, letter)) =
  zlen (drive_entries to_lowercase lower_char idx drive letter (by_name f) cfg).
Proof.
  intros Hm. unfold drive_results, drive_entries. rewrite (passing_rows to_lowercase lower_char f drive mode cfg Hm), !zlen_map. cbn [fst snd].
  induction (enumerate (records drive)) as [|[i rec] l IH]; [done |]. cbn [List.filter snd].
  destruct (passes to_lowercase lower_char f drive mode rec) eqn:E; [|done]. cbn [List.filter snd].
  assert (no_bytes (names drive) rec = false) as ->; [|cbn [negb]; by rewrite !zlen_cons, IH].
  unfold passes, live in E. unfold no_bytes. by destruct (name_len rec =? 0).
Qed.

Lemma all_results_length to_lowercase lower_char f render mode cfg idx drives :
  filter_mode cfg = mode ->
  zlen (all_entries to_lowercase lower_char f cfg idx drives) = zlen (drives ≫= drive_results to_lowercase lower_char f render no_bytes mode).
Proof.
  intros Hm. revert idx. induction drives as [|[drive letter] drives IH]; intros idx; [done |]. cbn [all_entries mbind list_bind].
  by rewrite !zlen_app, IH, (drive_results_length _ _ _ render mode cfg idx).
Qed.

(** The columns whose sort key is the value of the column: sizes, times, descendants and the
    attribute flags.  (The keys of names, extensions, types and path lengths are not.) *)
Definition plain_value (column : FieldId) (row : DisplayRow) : option Z :=
  match column with
  | Size => Some (row_size row)
  | SizeOnDisk => Some (row_allocated row)
  | Created => Some (row_created row)
  | Modified => Some (row_modified row)
  | Accessed => Some (row_accessed row)
  | Descendants => Some (row_descendants row)
  | Hidden | System | Archive | ReadOnly | Compressed | Encrypted | Sparse | Reparse | Offline | NotIndexed | Temporary
  | Virtual | Pinned | Unpinned | Integrity | NoScrub | DirectoryFlag | RecallOnOpen | RecallOnDataAccess =>
      Some (if has_flag column row then 1 else 0)
  | _ => None
  end.

(** No file is larger than a signed 64-bit integer can say. *)
Definition sizes_fit (drives : Drives) : Prop :=
  forall d rec, d ∈ drives -> rec ∈ records d.1 -> 0 <= CsrIndex.size rec < 2 ^ 63 /\ 0 <= allocated rec < 2 ^ 63.

Lemma plain_key column drive letter render idx rec x :
  0 <= CsrIndex.size rec < 2 ^ 63 -> 0 <= allocated rec < 2 ^ 63 ->
  plain_value column (alone render drive letter idx rec) = Some x -> extract_sort_key rec column drive letter = x.
Proof.
  intros Hs Ha. unfold plain_value, alone, make_display_row, extract_sort_key, flag_key, has_flag, UsnPatch.is_directory, DIRECTORY_BIT, cast_signed.
  cbn [row_size row_allocated row_created row_modified row_accessed row_descendants row_flags].
  destruct column; cbn [field_to_attr_bit]; intros [= <-]; try done; try (by rewrite i64_small by lia); by case_match.
Qed.

(** A candidate stands for a record of a drive, and has its key. *)
Lemma entry_record to_lowercase lower_char f cfg (drives : Drives) front back e :
  drives = front ++ back -> zlen drives <= U16_MAX -> Forall (fun d => zlen (records d.1) <= 2 ^ 32) drives ->
  e ∈ all_entries to_lowercase lower_char f cfg (zlen front) back ->
  exists drive letter rec, zget drives (drive_idx e) = Some (drive, letter) /\ zget (records drive) (rec_idx e) = Some rec
    /\ sort_key e = extract_sort_key rec (sort_column cfg) drive letter.
Proof.
  intros E Hz Hs. revert front E. induction back as [|[drive letter] back IH]; intros front E; [by intros ?%not_elem_of_nil |].
  pose proof (zlen_nonneg front). pose proof (zlen_nonneg back).
  assert (Hlen : zlen drives = zlen front + 1 + zlen back) by (rewrite E, zlen_app, zlen_cons; lia).
  cbn [all_entries]. rewrite elem_of_app. intros [Hin | Hin].
  - unfold drive_entries in Hin. apply list_elem_of_fmap in Hin as ([i rec] & -> & Hin).
    apply elem_of_filterb in Hin as [Hr%elem_of_enumerate _]. cbn [fst snd] in Hr. pose proof Hr as [Hri _]%zget_Some.
    rewrite Forall_forall in Hs. specialize (Hs (drive, letter)). cbn [fst] in Hs.
    assert (Hd : (drive, letter) ∈ drives) by (rewrite E; apply elem_of_app; right; left). specialize (Hs Hd).
    exists drive, letter, rec. unfold entry_of, heap_entry_for. cbn [fst snd drive_idx rec_idx sort_key].
    rewrite len_to_u16_small by lia. unfold len_to_u32. replace (i <=? U32_MAX) with true by (unfold U32_MAX; lia).
    split_and!; [|done..]. rewrite E, zget_app_r by lia. by rewrite Z.sub_diag.
  - replace (zlen front + 1) with (zlen (front ++ [(drive, letter)])) in Hin by (by rewrite zlen_app).
    apply (IH (front ++ [(drive, letter)])); [by rewrite E, <- app_assoc | done].
Qed.

(** So by these columns no row left out comes before a row returned. *)
Lemma cut_by_value to_lowercase lower_char f render (drives : Drives) cfg column desc a b ra rb x y :
  zlen drives <= U16_MAX -> Forall (fun d => zlen (records d.1) <= 2 ^ 32) drives -> sizes_fit drives -> sort_column cfg = column ->
  a ∈ all_entries to_lowercase lower_char f cfg 0 drives -> b ∈ all_entries to_lowercase lower_char f cfg 0 drives ->
  candidate_row drives render no_bytes a = Some ra -> candidate_row drives render no_bytes b = Some rb ->
  plain_value column ra = Some x -> plain_value column rb = Some y -> cut_key desc b <= cut_key desc a ->
  if desc then x <= y else y <= x.
Proof.
  intros Hz Hs Hfit Hc Ha Hb Era Erb Ex Ey Hk.
  assert (Hkey : forall e r v, e ∈ all_entries to_lowercase lower_char f cfg 0 drives -> candidate_row drives render no_bytes e = Some r ->
    plain_value column r = Some v -> sort_key e = v).
  { intros e r v He Er Ev. destruct (entry_record to_lowercase lower_char f cfg drives [] drives e eq_refl Hz Hs He) as (drive & letter & rec & Ed & Ec & ->).
    unfold candidate_row in Er. rewrite Ed in Er. cbn [mbind option_bind] in Er. rewrite Ec in Er. cbn [mbind option_bind] in Er.
    destruct (no_bytes (names drive) rec); [done |]. injection Er as <-. rewrite Hc.
    destruct (Hfit (drive, letter) rec) as [H1 H2]; [by eapply zget_elem | by eapply zget_elem |]. by eapply plain_key. }
  unfold cut_key in Hk. rewrite (Hkey a ra x), (Hkey b rb y) in Hk by done. destruct desc; lia.
Qed.

(** C17: sorted by any column but the path and the directory, a match-all query returns rows of
    the records that pass the record filters, each with the path it has by itself, in the order
    of the column asked for, as many as the limit lets through.  Which rows the limit leaves out
    is decided by the key of the candidates: by a size, a time, the descendants or an attribute
    flag no row left out comes before a row returned; by the other columns only the key bounds
    the choice, and the keys of names, extensions, types and path lengths order otherwise than
    the rows are sorted.  A query by extensions alone must not also ask for ill-formed names or
    for deletion, which the extension index ignores ([TopN.ext_fast_path_ignores_malformed]).
    The conditions on the drives are [scannable] (reachable, with extension ids and lower-cased
    names that are those of its names, no star in a name) and [resolvable] (parents in range,
    no path deeper than 257 records). *)
Theorem match_all_rows_exact schedule to_lowercase lower_char trim heap_iter sort_unstable su psu render f drives limit column desc mode :
  (forall ws, schedule ws ≡ₚ ws) -> (forall l, heap_iter l ≡ₚ l) -> sorts sort_unstable -> sorting su -> sorting psu ->
  Forall (token_ok to_lowercase trim) (extensions f) ->
  (is_ext_only f = true -> Filters.malformed f = None /\ deleted f = None) ->
  Forall (fun d => scannable schedule to_lowercase lower_char d.1 /\ resolvable d.1) drives -> zlen drives <= U16_MAX -> 0 <= limit ->
  let entries := all_entries to_lowercase lower_char f (query_cfg f limit column desc mode) 0 drives in
  let row := candidate_row drives render no_bytes in
  exists kept left rows,
    numeric_rows to_lowercase lower_char trim heap_iter sort_unstable su psu render drives limit column desc mode f = Some rows
    /\ entries ≡ₚ kept ++ left /\ rows ≡ₚ omap row kept
    /\ omap row entries = drives ≫= drive_results to_lowercase lower_char f render no_bytes mode
    /\ zlen rows = Z.min limit (zlen (drives ≫= drive_results to_lowercase lower_char f render no_bytes mode))
    /\ (forall a b, a ∈ left -> b ∈ kept -> cut_key desc b <= cut_key desc a)
    /\ (sizes_fit drives -> forall a b ra rb x y, a ∈ left -> b ∈ kept -> row a = Some ra -> row b = Some rb ->
        plain_value column ra = Some x -> plain_value column rb = Some y -> if desc then x <= y else y <= x)
    /\ sorted_by (result_order default_table column desc []) rows.
Proof.
  intros Hsch Hiter Hs Hsu Hpsu Htok Hfor Hds Hz H0 entries row.
  destruct (numeric_top_n_spec schedule to_lowercase lower_char trim heap_iter sort_unstable f drives limit column desc mode) as
    (kept & left & E & Hp & Hl & Hcut & _); try done; [by eapply Forall_impl; [exact Hds |]; intros d [? _] |].
  fold entries in Hp, Hl.
  assert (Hr : Forall (fun d : DriveCompactIndex * Z => resolvable d.1) drives) by (eapply Forall_impl; [exact Hds |]; by intros d [_ ?]).
  assert (Hall : omap row entries = drives ≫= drive_results to_lowercase lower_char f render no_bytes mode).
  { apply (all_results to_lowercase lower_char f render mode (query_cfg f limit column desc mode) drives [] drives); try done.
    eapply Forall_impl; [exact Hr |]. intros d Hd. apply Hd. }
  destruct (sort_rows_spec su psu Hsu Hpsu default_table (omap row kept) column desc []) as [Hperm Hsorted].
  eexists kept, left, _. split_and!.
  - unfold numeric_rows. rewrite E. cbn [mbind option_bind]. rewrite resolve_candidates_spec by done. reflexivity.
  - done.
  - exact Hperm.
  - exact Hall.
  - assert (zlen (omap row kept) = zlen kept) as Hk.
    { pose proof (all_results_length to_lowercase lower_char f render mode (query_cfg f limit column desc mode) 0 drives eq_refl) as Hlen.
      fold entries in Hlen. rewrite <- Hall in Hlen. pose proof (length_omap_le row kept). pose proof (length_omap_le row left).
      pose proof (Permutation_length Hp) as Hpl. pose proof (Permutation_length (omap_permutation row _ _ Hp)) as Hpo.
      rewrite omap_app, length_app in Hpo. rewrite length_app in Hpl. unfold zlen in *. lia. }
    transitivity (zlen (omap row kept)); [unfold zlen; f_equal; by apply Permutation_length, Hperm |]. rewrite Hk, Hl.
    f_equal. by apply all_results_length.
  - done.
  - intros Hfit a b ra rb x y Ha Hb Era Erb Ex Ey.
    eapply (cut_by_value to_lowercase lower_char f render drives (query_cfg f limit column desc mode) column desc a b); try done; [| | |by apply Hcut].
    + eapply Forall_impl; [exact Hr |]. intros d Hd. apply Hd.
    + fold entries. rewrite Hp. apply elem_of_app. by right.
    + fold entries. rewrite Hp. apply elem_of_app. by left.
  - exact Hsorted.
Qed.

(** Sorted by path, or by directory, an extension query returns the first rows, up to the
    limit, of the sorted list of all the records that pass and whose names are text. *)
Theorem ext_rows_exact schedule to_lowercase lower_char trim sort_unstable su psu render f drives limit column desc mode :
  (forall ws, schedule ws ≡ₚ ws) -> sorts sort_unstable -> sorting su -> sorting psu ->
  Forall (token_ok to_lowercase trim) (extensions f) ->
  is_ext_only f = true -> Filters.malformed f = None /\ deleted f = None -> mode <> DirsOnly ->
  Forall (fun d => scannable schedule to_lowercase lower_char d.1 /\ resolvable d.1) drives -> zlen drives <= U16_MAX ->
  exists sorted, sorted ≡ₚ drives ≫= drive_results to_lowercase lower_char f render no_text mode
    /\ sorted_by (result_order default_table column desc []) sorted
    /\ collect_via_ext_index to_lowercase trim sort_unstable su psu render column drives limit desc mode f = take (Z.to_nat limit) sorted.
Proof.
  intros Hsch Hs Hsu Hpsu Htok Hx Hfor Hmode Hds Hz.
  assert (Hr : Forall (fun d : DriveCompactIndex * Z => resolvable d.1) drives) by (eapply Forall_impl; [exact Hds |]; by intros d [_ ?]).
  set (candidates := ext_candidates to_lowercase trim mode f 0 drives).
  set (rows := omap (candidate_row drives render no_text) (sort_unstable locality candidates)).
  destruct (sort_rows_spec su psu Hsu Hpsu default_table rows column desc []) as [Hperm Hsorted].
  eexists. split_and!; [| exact Hsorted |].
  - rewrite Hperm. unfold rows. rewrite (omap_permutation _ _ _ (proj1 (Hs locality candidates))).
    apply (ext_results schedule to_lowercase lower_char trim Hsch f Htok Hx Hfor render mode drives [] drives); try done.
    eapply Forall_impl; [exact Hds |]. by intros d [? _].
  - unfold collect_via_ext_index. by rewrite resolve_candidates_spec.
Qed.

(** ** Samples *)

Lemma sample_resolvable : resolvable sample_drive.
Proof.
  split.
  - intros rec Hr. each_elem Hr; vm_compute; tauto || (right; split; congruence).
  - by vm_compute.
  - intros i Hi. change (zlen (records sample_drive)) with 3 in Hi. assert (H : i = 0 \/ i = 1 \/ i = 2) by lia.
    destruct H as [-> | [-> | ->]].
    + exists []. split; [by eapply anc_stop | unfold MAX_ROUNDS; cbn; lia].
    + exists [1]. split; [by eapply anc_top | unfold MAX_ROUNDS; cbn; lia].
    + exists [2; 1]. split; [eapply anc_step; [done | done | done |]; by eapply anc_top | unfold MAX_ROUNDS; cbn; lia].
Qed.

Lemma sample_drives_ok : Forall (fun d => scannable (@rev _) id (fun c => [c]) d.1 /\ resolvable d.1) [(sample_drive, 67); (sample_drive, 68)].
Proof. apply Forall_cons. split; [|apply Forall_singleton]; (split; [apply sample_scannable | apply sample_resolvable]). Qed.

Lemma match_all_rows_exact_witness : exists rows,
  numeric_rows id (fun c => [c]) id id (@sort_by_key HeapEntry) stable_sort other_sort Lossy [(sample_drive, 67); (sample_drive, 68)] 4 Size false All Filters.no_filters = Some rows
  /\ zlen rows = 4.
Proof.
  destruct (match_all_rows_exact (@rev _) id (fun c => [c]) id id (@sort_by_key HeapEntry) stable_sort other_sort Lossy Filters.no_filters
    [(sample_drive, 67); (sample_drive, 68)] 4 Size false All rev_permutation (fun l => reflexivity l) sort_by_key_sorts stable_sorting other_sorting
    ltac:(constructor) ltac:(done) sample_drives_ok ltac:(by vm_compute) ltac:(done)) as (kept & left & rows & E & _ & _ & _ & Hz & _).
  exists rows. split; [exact E |]. rewrite Hz. by vm_compute.
Defined.

Lemma ext_rows_exact_witness : exists rows,
  collect_via_ext_index id id (@sort_by_key HeapEntry) stable_sort other_sort Lossy Path [(sample_drive, 67); (sample_drive, 68)] 1 true FilesOnly txt_filter =
  take 1 rows /\ zlen rows = 2.
Proof.
  destruct (ext_rows_exact (@rev _) id (fun c => [c]) id (@sort_by_key HeapEntry) stable_sort other_sort Lossy txt_filter
    [(sample_drive, 67); (sample_drive, 68)] 1 Path true FilesOnly rev_permutation sort_by_key_sorts stable_sorting other_sorting
    ltac:(by apply Forall_singleton) eq_refl (conj eq_refl eq_refl) ltac:(done) sample_drives_ok ltac:(by vm_compute)) as (rows & Hp & _ & E).
  exists rows. split; [exact E |]. unfold zlen. rewrite (Permutation_length Hp). by vm_compute.
Defined.
