(* ===== verification/PathWalks.v ===== *)
(** The walks of a match-all query sorted by path or by directory:
    [crates/uffs-core/src/search/query/path_sorted_top_n.rs] and [path_only_top_n.rs].

    Each walk keeps a stack of directories or of tasks, here with its top first, and emits
    the rows that pass until the limit is reached.  [fuel] bounds the rounds of the loop:
    one for each entry put on the stack. *)
From stdpp Require Import strings sorting.
From S2P Require Import Prelude Text Ordering CaseFold Calendar Glob CsrIndex TrigramIndex IndexDelta Bloom CompactIndex PathLen UsnBatch UsnPatch NameSearch Filters Fields TopN PathResolve Derived QueryText RowFilters RowSort TopRows.
Local Open Scope Z_scope.
Local Open Scope rust_scope.

Definition is_dir (drive : DriveCompactIndex) (idx : Z) : bool := record_is drive is_directory idx.

(** The rows found, with the directory caches of the drive. *)
Record Walk := mkWalk { output : list DisplayRow; dir_cache : DirCache; mal_cache : MalformedCache }.

Section walks.
Context (to_lowercase : list Z -> list Z) (lower_char : Z -> list Z).
Context (sort_unstable_by : forall A, (A -> A -> comparison) -> list A -> list A).
Context (render : MalformedRender) (table : list Z) (limit : Z) (filter_mode : FilterMode) (f : SearchFilters).

Section drive.
Context (drive : DriveCompactIndex) (letter : Z).

Definition name_of (idx : Z) : list Z :=
  match zget (records drive) idx with Some rec => str_chars (name_str (names drive) rec) | None => [] end.

Definition sort_indices_by_name (indices : list Z) (desc : bool) : list Z :=
  sort_unstable_by Z (fun a b => directed desc (cmp_str (fold drive) (name_of a) (name_of b))) indices.

(** The records at the top of the drive. *)
Definition roots : list Z :=
  map (fun it => len_to_u32 it.1)
    (List.filter (fun it => (parent_idx it.2 =? U32_MAX) && negb (name_len it.2 =? 0)) (enumerate (records drive))).

Definition full (st : Walk) : bool := limit <=? zlen (output st).

Definition emit_if_passes (idx : Z) (st : Walk) : option Walk :=
  match zget (records drive) idx with
  | None => Some st
  | Some rec =>
      if no_text (names drive) rec then Some st
      else if negb (TopN.mode_keeps filter_mode rec) then Some st
      else
        let '(row, dirs, mals) := build_row_cached drive letter (stack_volume_prefix letter) render idx rec (dir_cache st) (mal_cache st) in
        let? passes := row_passes_filters to_lowercase lower_char row f table in
        Some (mkWalk (if passes then output st ++ [row] else output st) dirs mals)
  end.

(** The loop over records sharing a directory; the flag is the return at the limit. *)
Fixpoint emit_loop (indices : list Z) (st : Walk) : option (Walk * bool) :=
  match indices with
  | [] => Some (st, false)
  | idx :: indices =>
      if full st then Some (st, true)
      else let? st := emit_if_passes idx st in emit_loop indices st
  end.

(** ** By path: a record, then what is below it *)

Fixpoint walk_path (fuel : nat) (sort_desc : bool) (stack : list Z) (st : Walk) : option Walk :=
  match stack with
  | [] => Some st
  | idx :: stack =>
      if full st then Some st
      else
        match fuel with
        | O => None
        | S fuel =>
            match zget (records drive) idx with
            | None => walk_path fuel sort_desc stack st
            | Some rec =>
                if no_text (names drive) rec then walk_path fuel sort_desc stack st
                else
                  let child_slice := children_of drive idx in
                  let stack := if is_nil child_slice then stack else sort_indices_by_name child_slice sort_desc ++ stack in
                  let? st := emit_if_passes idx st in
                  walk_path fuel sort_desc stack st
            end
        end
  end.

(** ** By directory, ascending: the records of a directory, then its directories *)

Fixpoint walk_dirs (fuel : nat) (stack : list Z) (st : Walk) : option Walk :=
  match stack with
  | [] => Some st
  | dir_idx :: stack =>
      if full st then Some st
      else
        match fuel with
        | O => None
        | S fuel =>
            let child_slice := children_of drive dir_idx in
            if is_nil child_slice then walk_dirs fuel stack st
            else
              let sorted := sort_indices_by_name child_slice false in
              let? (st, stop) := emit_loop sorted st in
              if stop then Some st else walk_dirs fuel (List.filter (is_dir drive) sorted ++ stack) st
        end
  end.

Definition walk_drive_asc (fuel : nat) (roots : list Z) (st : Walk) : option Walk :=
  let? (st, stop) := emit_loop roots st in
  if stop then Some st else walk_dirs fuel (List.filter (is_dir drive) roots) st.

(** ** By directory, descending: what is below, then the records of the directory *)

Inductive DescTask := Emit (idx : Z) | Recurse (dir_idx : Z).

(** The tasks of the records of one directory, the last directory first. *)
Definition desc_tasks (sorted : list Z) : list DescTask :=
  rev (map Recurse (List.filter (is_dir drive) sorted)) ++ map Emit sorted.

Fixpoint walk_tasks (fuel : nat) (stack : list DescTask) (st : Walk) : option Walk :=
  match stack with
  | [] => Some st
  | task :: stack =>
      if full st then Some st
      else
        match fuel with
        | O => None
        | S fuel =>
            match task with
            | Emit idx => let? st := emit_if_passes idx st in walk_tasks fuel stack st
            | Recurse dir_idx =>
                let child_slice := children_of drive dir_idx in
                if is_nil child_slice then walk_tasks fuel stack st
                else walk_tasks fuel (desc_tasks (sort_indices_by_name child_slice false) ++ stack) st
            end
        end
  end.

Definition walk_drive_desc (fuel : nat) (roots : list Z) (st : Walk) : option Walk := walk_tasks fuel (desc_tasks roots) st.

Definition path_drive (fuel : nat) (sort_desc : bool) (out : list DisplayRow) : option (list DisplayRow) :=
  let? st := walk_path fuel sort_desc (sort_indices_by_name roots sort_desc) (mkWalk out ∅ ∅) in Some (output st).

Definition path_only_drive (fuel : nat) (sort_desc : bool) (out : list DisplayRow) : option (list DisplayRow) :=
  let roots := sort_indices_by_name roots false in
  let? st := (if sort_desc then walk_drive_desc else walk_drive_asc) fuel roots (mkWalk out ∅ ∅) in Some (output st).
End drive.

(** ** The drives in the order of their letters *)

Section drives.
Context (walk_drive : DriveCompactIndex -> Z -> list DisplayRow -> option (list DisplayRow)) (drives : Drives).

Definition drive_order (sort_desc : bool) : list Z :=
  sort_unstable_by Z (fun a b => directed sort_desc (default 0 (snd <$> zget drives a) ?= default 0 (snd <$> zget drives b)))
    (seqZ 0 (zlen drives)).

Fixpoint walk_drives (order : list Z) (out : list DisplayRow) : option (list DisplayRow) :=
  match order with
  | [] => Some out
  | drive_idx :: order =>
      if limit <=? zlen out then Some out
      else match zget drives drive_idx with
           | None => walk_drives order out
           | Some (drive, letter) => let? out := walk_drive drive letter out in walk_drives order out
           end
  end.
End drives.

Definition walk_tree_path_sorted (fuel : nat) (drives : Drives) (sort_desc : bool) : option (list DisplayRow) :=
  walk_drives (fun drive letter => path_drive drive letter fuel sort_desc) drives (drive_order drives sort_desc) [].

Definition walk_tree_path_only (fuel : nat) (drives : Drives) (sort_desc : bool) : option (list DisplayRow) :=
  walk_drives (fun drive letter => path_only_drive drive letter fuel sort_desc) drives (drive_order drives sort_desc) [].
End walks.

(** * Collection by path and by directory *)

Section collect.
Context (to_lowercase : list Z -> list Z) (lower_char : Z -> list Z) (trim : list Z -> list Z).
Context (sort_unstable : (HeapEntry -> Z) -> list HeapEntry -> list HeapEntry).
Context (sort_unstable_by par_sort_unstable_by : forall A, (A -> A -> comparison) -> list A -> list A).
Context (render : MalformedRender).

Definition by_ext_index (f : SearchFilters) (mode : FilterMode) : bool :=
  is_ext_only f && match mode with All | FilesOnly => true | DirsOnly => false end.

Definition collect_path_sorted_top_n (fuel : nat) (drives : Drives) (limit : Z) (sort_desc : bool) (filter_mode : FilterMode)
    (search_filters : SearchFilters) : option (list DisplayRow) :=
  if limit =? 0 then Some []
  else if by_ext_index search_filters filter_mode
  then Some (collect_via_ext_index to_lowercase trim sort_unstable sort_unstable_by par_sort_unstable_by render Path drives limit sort_desc filter_mode search_filters)
  else walk_tree_path_sorted to_lowercase lower_char sort_unstable_by render default_table limit filter_mode search_filters fuel drives sort_desc.

Definition collect_path_only_sorted_top_n (fuel : nat) (drives : Drives) (limit : Z) (sort_desc : bool) (filter_mode : FilterMode)
    (search_filters : SearchFilters) : option (list DisplayRow) :=
  if limit =? 0 then Some []
  else if by_ext_index search_filters filter_mode
  then Some (collect_via_ext_index to_lowercase trim sort_unstable sort_unstable_by par_sort_unstable_by render PathOnly drives limit sort_desc filter_mode search_filters)
  else walk_tree_path_only to_lowercase lower_char sort_unstable_by render default_table limit filter_mode search_filters fuel drives sort_desc.
End collect.

(** * The tree below a record *)

Section tree.
Context (drive : DriveCompactIndex) (open : Z -> bool) (rank : Z -> Z) (bound : Z).
(** What the children index of a coherent drive gives, and that parents come first. *)
Context (Hkids : forall d, 0 <= d < zlen (records drive) -> children_of drive d = indices_where (child_filter drive d) (records drive)).
Context (Hrank : forall i rec, zget (records drive) i = Some rec -> 0 <= parent_idx rec < zlen (records drive) -> parent_idx rec <> i ->
  rank (parent_idx rec) < rank i).
Context (Hbound : forall i rec, zget (records drive) i = Some rec -> rank i <= bound).

(** A record that is not its own parent. *)
Definition proper (d : Z) : Prop := exists rec, zget (records drive) d = Some rec /\ parent_idx rec <> d.

Definition measure (d : Z) : nat := Z.to_nat (bound - rank d).

Inductive descends (d : Z) : Z -> Prop :=
| de_self : descends d d
| de_child p x : descends d p -> open p = true -> x ∈ children_of drive p -> descends d x.

(** The tree in the order of the index. *)
Fixpoint tree (n : nat) (d : Z) : list Z :=
  match n with
  | O => []
  | S n => d :: (if open d then children_of drive d ≫= tree n else [])
  end.

Lemma child_of d c : proper d -> c ∈ children_of drive d -> exists rec, zget (records drive) c = Some rec /\ parent_idx rec = d.
Proof using Hkids.
  intros (recd & [Hd _]%zget_Some & _) Hc. rewrite Hkids in Hc by done. apply elem_of_indices_where in Hc as (rec & Hr & [E%Z.eqb_eq _]%andb_true_iff). eauto.
Qed.

Lemma child_proper d c : proper d -> c ∈ children_of drive d -> proper c /\ rank d < rank c /\ (measure c < measure d)%nat.
Proof using Hkids Hrank Hbound.
  intros Hd Hc. destruct (child_of d c Hd Hc) as (rec & Hr & E). pose proof Hd as (recd & Hrd & Hself). pose proof Hrd as [Hran _]%zget_Some.
  assert (d <> c) by (intros ->; assert (rec = recd) as -> by congruence; done).
  assert (Hlt : rank d < rank c) by (rewrite <- E; apply (Hrank c rec Hr); lia).
  split_and!; [exists rec; split; [done | congruence] | done |]. unfold measure. pose proof (Hbound c rec Hr). lia.
Qed.

Lemma descends_proper d x : proper d -> descends d x -> proper x /\ rank d <= rank x.
Proof using Hkids Hrank Hbound.
  intros Hd. induction 1 as [|p x _ [Hp Hle] _ Hx]; [done |]. destruct (child_proper p x Hp Hx) as (? & ? & _). split; [done | lia].
Qed.

Lemma descends_top d x : descends d x <-> x = d \/ open d = true /\ exists c, c ∈ children_of drive d /\ descends c x.
Proof using Type.
  split.
  - induction 1 as [|p x Hp IH Ho Hx]; [by left |]. right. destruct IH as [-> | (Ho' & c & Hc & Hd)].
    + split; [done |]. exists x. split; [done | constructor].
    + split; [done |]. exists c. split; [done |]. by econstructor.
  - intros [-> | (Ho & c & Hc & Hd)]; [constructor |]. induction Hd as [|p x _ IH Ho' Hx]; [econstructor; [constructor | done..] |]. by econstructor.
Qed.

Lemma descends_comparable a b x : proper a -> proper b -> descends a x -> descends b x -> descends a b \/ descends b a.
Proof using Hkids Hrank Hbound.
  intros Ha Hb. induction 1 as [|p x Hp IH Ho Hx]; intros H; [by right |]. inversion H as [E | p' x' Hp' Ho' Hx' E]; subst.
  - left. by econstructor.
  - destruct (child_of p x (proj1 (descends_proper _ _ Ha Hp)) Hx) as (r1 & E1 & P1).
    destruct (child_of p' x (proj1 (descends_proper _ _ Hb Hp')) Hx') as (r2 & E2 & P2). apply IH. assert (r1 = r2) as -> by congruence. congruence.
Qed.

Lemma siblings_disjoint d c1 c2 x :
  proper d -> c1 ∈ children_of drive d -> c2 ∈ children_of drive d -> descends c1 x -> descends c2 x -> c1 = c2.
Proof using Hkids Hrank Hbound.
  intros Hd H1 H2 D1 D2. destruct (child_proper d c1 Hd H1) as (P1 & R1 & _), (child_proper d c2 Hd H2) as (P2 & R2 & _).
  assert (Hone : forall a b, a ∈ children_of drive d -> b ∈ children_of drive d -> proper a -> rank d < rank a -> descends a b -> a = b).
  { intros a b Ha Hb Pa Ra D. inversion D as [| p y Hp _ Hy]; subst; [done | exfalso].
    destruct (descends_proper a p Pa Hp) as [Pp Hle]. destruct (child_of p b Pp Hy) as (r & E & <-).
    destruct (child_of d b Hd Hb) as (r' & E' & <-). assert (r = r') as -> by congruence. lia. }
  destruct (descends_comparable c1 c2 x P1 P2 D1 D2); [by apply Hone | symmetry; by apply Hone].
Qed.

Lemma elem_of_tree n d x : (measure d < n)%nat -> proper d -> x ∈ tree n d <-> descends d x.
Proof using Hkids Hrank Hbound.
  revert d x. induction n as [|n IH]; intros d x Hn Hd; [lia |]. cbn [tree]. rewrite elem_of_cons, descends_top.
  destruct (open d) eqn:Ho; [|split; [intros [? | []%not_elem_of_nil]; by left | intros [? | [? _]]; [by left | done]]].
  rewrite list_elem_of_bind. split; (intros [? | H]; [by left | right]).
  - destruct H as (c & Hx & Hc). split; [done |]. exists c. split; [done |]. destruct (child_proper d c Hd Hc) as (Hp & _ & Hm). apply IH; [lia | done..].
  - destruct H as (_ & c & Hc & Hx). exists c. split; [|done]. destruct (child_proper d c Hd Hc) as (Hp & _ & Hm). apply IH; [lia | done..].
Qed.

Lemma NoDup_trees n l :
  NoDup l -> Forall (fun d => proper d /\ (measure d < n)%nat) l -> (forall d, d ∈ l -> NoDup (tree n d)) ->
  (forall a b x, a ∈ l -> b ∈ l -> descends a x -> descends b x -> a = b) -> NoDup (l ≫= tree n).
Proof using Hkids Hrank Hbound.
  intros Hnd Hl Ht Hdis. rewrite Forall_forall in Hl. apply NoDup_bind; [| exact Ht | exact Hnd].
  intros a b x Ha Hb Hxa Hxb. destruct (Hl a Ha), (Hl b Hb). apply (Hdis a b x Ha Hb); by apply (elem_of_tree n).
Qed.

Lemma NoDup_tree n d : (measure d < n)%nat -> proper d -> NoDup (tree n d).
Proof using Hkids Hrank Hbound.
  revert d. induction n as [|n IH]; intros d Hn Hd; [lia |]. cbn [tree]. destruct (open d) eqn:Ho; [|apply NoDup_singleton].
  assert (Hc : forall c, c ∈ children_of drive d -> proper c /\ (measure c < n)%nat).
  { intros c Hc. destruct (child_proper d c Hd Hc) as (? & _ & ?). split; [done | lia]. }
  constructor.
  - intros (c & Hx & Hin)%list_elem_of_bind. destruct (Hc c Hin) as [Hp Hm]. apply (elem_of_tree n c d Hm Hp) in Hx.
    destruct (descends_proper c d Hp Hx) as [_ Hle]. destruct (child_proper d c Hd Hin) as (_ & Hlt & _). lia.
  - apply NoDup_trees.
    + pose proof Hd as (recd & [Hran _]%zget_Some & _). rewrite Hkids by done. apply sorted_lt_NoDup, indices_where_sorted.
    + by apply Forall_forall.
    + intros c Hin. destruct (Hc c Hin). by apply IH.
    + intros a b x Ha Hb. by apply (siblings_disjoint d).
Qed.

(** Deeper than the tree, the bound makes no difference. *)
Lemma tree_enough n m d : (measure d < n)%nat -> (n <= m)%nat -> proper d -> tree m d = tree n d.
Proof using Hkids Hrank Hbound.
  revert m d. induction n as [|n IH]; intros m d Hn Hm Hd; [lia |]. destruct m as [|m]; [lia |]. cbn [tree]. destruct (open d); [|done]. f_equal.
  assert (Hc : Forall (fun c => proper c /\ (measure c < n)%nat) (children_of drive d)).
  { apply Forall_forall. intros c Hc. destruct (child_proper d c Hd Hc) as (? & _ & ?). split; [done | lia]. }
  induction Hc as [|c l [Hp Hlt] _ IHl]; [done |]. cbn [mbind list_bind]. rewrite (IH m c) by (done || lia). by rewrite IHl.
Qed.
End tree.

(** * What a walk emits *)

#[export] Instance names_preorder table (name : Z -> list Z) : TotalPreorder (fun a b => cmp_str table (name a) (name b)).
Proof. split; [intros a b; apply cmp_str_opp | intros a b c; apply cmp_str_trans]. Qed.

Section emission.
Context (to_lowercase : list Z -> list Z) (lower_char : Z -> list Z).
Context (sort_unstable_by : forall A, (A -> A -> comparison) -> list A -> list A) (Hsort : sorting sort_unstable_by).
Context (render : MalformedRender) (table : list Z) (limit : Z) (mode : FilterMode) (f : SearchFilters).
Context (drive : DriveCompactIndex) (letter : Z) (Hdrive : resolvable drive).

(** The row of a record, when it is shown. *)
Definition shown_row (idx : Z) : option DisplayRow :=
  let? rec := zget (records drive) idx in
  if no_text (names drive) rec || negb (TopN.mode_keeps mode rec) then None
  else
    let row := alone render drive letter idx rec in
    if bool_decide (row_passes_filters to_lowercase lower_char row f table = Some true) then Some row else None.

Context (Htotal : forall idx rec, zget (records drive) idx = Some rec ->
  exists b, row_passes_filters to_lowercase lower_char (alone render drive letter idx rec) f table = Some b).

Definition ok (st : Walk) : Prop :=
  coherent drive render (stack_volume_prefix letter) (dir_cache st) (mal_cache st) /\ zlen (output st) <= limit.

Definition upto (l : list DisplayRow) : list DisplayRow := take (Z.to_nat limit) l.

(** The state after the emission of some records. *)
Definition emitted (l : list Z) (st st' : Walk) : Prop := ok st' /\ output st' = upto (output st ++ omap shown_row l).

Abbreviation emit := (emit_if_passes to_lowercase lower_char render table mode f drive letter).

Lemma upto_small l : zlen l <= limit -> upto l = l.
Proof using Type. intros H. unfold upto. apply take_ge. unfold zlen in H. lia. Qed.

Lemma upto_twice a b : upto (upto a ++ b) = upto (a ++ b).
Proof using Type.
  unfold upto. destruct (Nat.le_gt_cases (length a) (Z.to_nat limit)) as [H | H]; [by rewrite (take_ge a)|].
  rewrite (take_app_le a b) by lia. rewrite take_app_le by (rewrite length_take; lia). rewrite take_take. f_equal. lia.
Qed.

Lemma emitted_refl st : ok st -> emitted [] st st.
Proof using Type. intros [Hc Hl]. split; [by split |]. cbn. by rewrite app_nil_r, upto_small. Qed.

Lemma emitted_app a b st st1 st2 : emitted a st st1 -> emitted b st1 st2 -> emitted (a ++ b) st st2.
Proof using Type. intros [_ E1] [H2 E2]. split; [done |]. by rewrite E2, E1, upto_twice, <- app_assoc, omap_app. Qed.

Lemma emitted_full l st : ok st -> full limit st = true -> emitted l st st.
Proof using Type.
  intros [Hc Hl] Hf. split; [by split |]. unfold full in Hf. unfold upto. rewrite take_app_le, take_ge; [done | unfold zlen in *; lia..].
Qed.

Lemma emit_spec idx st : ok st -> full limit st = false -> exists st', emit idx st = Some st' /\ emitted [idx] st st'.
Proof using Hdrive Htotal.
  intros Hst Hf. unfold emit_if_passes, emitted, shown_row. cbn [omap list_omap].
  destruct (zget (records drive) idx) as [rec |] eqn:E; [|eexists; split; [done | by apply emitted_refl]]. cbn [mbind option_bind].
  destruct (no_text (names drive) rec); [eexists; split; [done | by apply emitted_refl] |].
  destruct (TopN.mode_keeps mode rec); cbn [negb orb]; [|eexists; split; [done | by apply emitted_refl]].
  destruct Hst as [Hc Hl]. unfold full in Hf.
  destruct (build_alone render drive letter idx rec _ _ Hdrive E Hc) as (dirs & mals & -> & Hc').
  destruct (Htotal idx rec E) as [b Hb]. rewrite Hb. eexists. split; [done |]. unfold ok. cbn [output dir_cache mal_cache].
  destruct b; cbn.
  - rewrite bool_decide_true by done. split; [split; [done | rewrite zlen_app; change (zlen [_]) with 1; lia] |].
    rewrite upto_small; [done |]. rewrite zlen_app. change (zlen [_]) with 1. lia.
  - rewrite bool_decide_false by done. split; [by split |]. rewrite app_nil_r. by rewrite upto_small.
Qed.

Lemma emit_loop_spec l st : ok st -> exists st' stop,
  emit_loop to_lowercase lower_char render table limit mode f drive letter l st = Some (st', stop) /\ emitted l st st' /\ (stop = true -> full limit st' = true).
Proof using Hdrive Htotal.
  revert st. induction l as [|idx l IH]; intros st Hst; [exists st, false; split_and!; [done | by apply emitted_refl | done] |].
  cbn [emit_loop]. destruct (full limit st) eqn:Hf; [exists st, true; split_and!; [done | by apply emitted_full | done] |].
  destruct (emit_spec idx st Hst Hf) as (st1 & -> & H1). destruct (IH st1 (proj1 H1)) as (st2 & stop & -> & H2 & Hs).
  exists st2, stop. split_and!; [done | by apply (emitted_app [idx] l st st1) | done].
Qed.

(** ** Walks *)

Section machine.
Context {T : Type} (walk : nat -> list T -> Walk -> option Walk).
Context (Hnil : forall n st, walk n [] st = Some st) (Hfull : forall n stack st, full limit st = true -> walk n stack st = Some st).

(** [k] rounds take the tasks off the stack, and emit the records of [v]. *)
Definition walked (k : nat) (tasks : list T) (v : list Z) : Prop :=
  forall fuel stack st, ok st -> exists st', emitted v st st' /\ walk (k + fuel) (tasks ++ stack) st = walk fuel stack st'.

Lemma walked_unless_full k tasks v :
  (forall fuel stack st, ok st -> full limit st = false -> exists st', emitted v st st' /\ walk (k + fuel) (tasks ++ stack) st = walk fuel stack st') ->
  walked k tasks v.
Proof using Hfull.
  intros H fuel stack st Hst. destruct (full limit st) eqn:Hf; [|by apply H].
  exists st. split; [by apply emitted_full |]. by rewrite !Hfull.
Qed.

Lemma walked_nil : walked 0 [] [].
Proof using Type. intros fuel stack st Hst. exists st. split; [by apply emitted_refl | done]. Qed.

Lemma walked_app k1 t1 v1 k2 t2 v2 : walked k1 t1 v1 -> walked k2 t2 v2 -> walked (k1 + k2) (t1 ++ t2) (v1 ++ v2).
Proof using Type.
  intros H1 H2 fuel stack st Hst. destruct (H1 (k2 + fuel)%nat (t2 ++ stack) st Hst) as (st1 & E1 & W1).
  destruct (H2 fuel stack st1 (proj1 E1)) as (st2 & E2 & W2). exists st2. split; [by eapply emitted_app |].
  by rewrite <- app_assoc, <- Nat.add_assoc, W1.
Qed.

Lemma walked_end k tasks v fuel st : walked k tasks v -> (k <= fuel)%nat -> ok st -> exists st', emitted v st st' /\ walk fuel tasks st = Some st'.
Proof using Hnil.
  intros H Hf Hst. destruct (H (fuel - k)%nat [] st Hst) as (st' & E & W). exists st'. split; [done |].
  rewrite app_nil_r, Hnil in W. by replace (k + (fuel - k))%nat with fuel in W by lia.
Qed.

(** The walks of the parts of a list of tasks. *)
Lemma walked_list {A} (tasks : A -> list T) (g : A -> list Z) l :
  (forall x, x ∈ l -> exists k v, walked k (tasks x) v /\ v ≡ₚ g x) -> exists k v, walked k (l ≫= tasks) v /\ v ≡ₚ l ≫= g.
Proof using Type.
  induction l as [|x l IH]; intros H; [exists 0%nat, []; split; [apply walked_nil | done] |].
  destruct (H x ltac:(left)) as (k1 & v1 & W1 & P1). destruct IH as (k2 & v2 & W2 & P2); [intros; apply H; by right |].
  exists (k1 + k2)%nat, (v1 ++ v2). split; [by apply walked_app | cbn; by rewrite P1, P2].
Qed.
End machine.

(** ** The three walks *)

Context (rank : Z -> Z) (bound : Z).
Context (Hkids : forall d, 0 <= d < zlen (records drive) -> children_of drive d = indices_where (child_filter drive d) (records drive)).
Context (Hrank : forall i rec, zget (records drive) i = Some rec -> 0 <= parent_idx rec < zlen (records drive) -> parent_idx rec <> i ->
  rank (parent_idx rec) < rank i).
Context (Hbound : forall i rec, zget (records drive) i = Some rec -> rank i <= bound).

Abbreviation proper := (proper drive).
Abbreviation measure := (measure rank bound).
Abbreviation by_name l desc := (sort_indices_by_name sort_unstable_by drive l desc).

(** The walk by path goes through records whose name is text. *)
Definition has_text (i : Z) : bool := record_is drive (fun rec => negb (no_text (names drive) rec)) i.

Lemma by_name_perm l desc : by_name l desc ≡ₚ l.
Proof using Hsort.
  unfold sort_indices_by_name. apply (Hsort Z (fun a b => directed desc (cmp_str (fold drive) (name_of drive a) (name_of drive b))) l).
  apply directed_preorder, names_preorder.
Qed.

Lemma by_name_nil desc : by_name [] desc = [].
Proof using Hsort. apply Permutation_nil_r, by_name_perm. Qed.

Lemma kids_smaller n d c : proper d -> (measure d < S n)%nat -> c ∈ children_of drive d -> proper c /\ (measure c < n)%nat.
Proof using Hkids Hrank Hbound.
  intros Hd Hm Hc. destruct (child_proper drive rank bound Hkids Hrank Hbound d c Hd Hc) as (? & _ & ?). split; [done | lia].
Qed.

Section by_path.
Context (desc : bool).
Let W (fuel : nat) (stack : list Z) (st : Walk) : option Walk :=
  walk_path to_lowercase lower_char sort_unstable_by render table limit mode f drive letter fuel desc stack st.

Lemma path_nil n st : W n [] st = Some st.
Proof using Type. by destruct n. Qed.

Lemma path_full n stack st : full limit st = true -> W n stack st = Some st.
Proof using Type. intros H. destruct n, stack; cbn; by rewrite ?H. Qed.

Lemma path_walked n d : proper d -> (measure d < n)%nat -> exists k v, walked W k [d] v /\ v ≡ₚ tree drive has_text n d.
Proof using Hsort Hdrive Htotal Hkids Hrank Hbound.
  revert d. induction n as [|n IH]; intros d Hd Hn; [lia |]. cbn [tree]. pose proof Hd as (rec & Hrec & _).
  assert (Ho : has_text d = negb (no_text (names drive) rec)) by (unfold has_text, record_is; by rewrite Hrec).
  destruct (has_text d) eqn:Et; symmetry in Ho; [apply negb_true_iff in Ho | apply negb_false_iff in Ho].
  - destruct (walked_list W (fun c => [c]) (tree drive has_text n) (by_name (children_of drive d) desc)) as (k & v & Hw & Hp).
    { intros c Hc. rewrite by_name_perm in Hc. destruct (kids_smaller n d c Hd Hn Hc). by apply IH. }
    assert (Eb : forall l : list Z, l ≫= (fun c => [c]) = l) by (intros l; induction l as [|x l IHl]; [done | cbn; by rewrite IHl]).
    rewrite Eb in Hw. exists (S k), (d :: v). split; [|by rewrite Hp, by_name_perm].
    apply walked_unless_full; [apply path_full |]. intros fuel stack st Hst Hf. destruct (emit_spec d st Hst Hf) as (st1 & E1 & Em).
    destruct (Hw fuel stack st1 (proj1 Em)) as (st2 & Em2 & W2). exists st2. split; [by apply (emitted_app [d] v st st1) |].
    cbn [app Nat.add W walk_path]. rewrite Hf, Hrec, Ho. cbv zeta. rewrite E1. fold (W (k + fuel)).
    assert (Es : (if is_nil (children_of drive d) then stack else by_name (children_of drive d) desc ++ stack) = by_name (children_of drive d) desc ++ stack)
      by (destruct (children_of drive d); [by rewrite by_name_nil | done]).
    rewrite Es. exact W2.
  - exists 1%nat, [d]. split; [|done]. apply walked_unless_full; [apply path_full |]. intros fuel stack st Hst Hf. exists st. split.
    + pose proof (emitted_refl st Hst) as [H1 H2]. split; [done |]. rewrite H2 at 1. unfold shown_row. cbn [omap list_omap]. by rewrite Hrec, Ho.
    + cbn [app Nat.add W walk_path]. by rewrite Hf, Hrec, Ho.
Qed.
End by_path.

Section by_directory.
Abbreviation open := (is_dir drive).
Let A (fuel : nat) (stack : list Z) (st : Walk) : option Walk :=
  walk_dirs to_lowercase lower_char sort_unstable_by render table limit mode f drive letter fuel stack st.
Let D (fuel : nat) (stack : list DescTask) (st : Walk) : option Walk :=
  walk_tasks to_lowercase lower_char sort_unstable_by render table limit mode f drive letter fuel stack st.

Lemma asc_nil n st : A n [] st = Some st.
Proof using Type. by destruct n. Qed.
Lemma asc_full n stack st : full limit st = true -> A n stack st = Some st.
Proof using Type. intros H. destruct n, stack; cbn; by rewrite ?H. Qed.
Lemma desc_nil n st : D n [] st = Some st.
Proof using Type. by destruct n. Qed.
Lemma desc_full n stack st : full limit st = true -> D n stack st = Some st.
Proof using Type. intros H. destruct n, stack; cbn; by rewrite ?H. Qed.

(** The records of a directory and what is below its directories make up their trees. *)
Lemma level_split n l :
  (0 < n)%nat -> l ++ (List.filter open l ≫= fun d => drop 1 (tree drive open n d)) ≡ₚ l ≫= tree drive open n.
Proof using Type.
  intros Hn. destruct n as [|n]; [lia |]. induction l as [|d l IH]; [done |]. cbn [List.filter mbind list_bind].
  destruct (open d) eqn:Ho; cbn [tree mbind list_bind]; rewrite Ho; cbn [drop app]; rewrite <- IH; [|done]. solve_Permutation.
Qed.

Lemma asc_walked n d :
  proper d -> (measure d < n)%nat -> open d = true -> exists k v, walked A k [d] v /\ v ≡ₚ drop 1 (tree drive open n d).
Proof using Hsort Hdrive Htotal Hkids Hrank Hbound.
  revert d. induction n as [|n IH]; intros d Hd Hn Ho; [lia |]. cbn [tree]. rewrite Ho. cbn [drop].
  set (sorted := by_name (children_of drive d) false).
  destruct (walked_list A (fun c => [c]) (fun c => drop 1 (tree drive open n c)) (List.filter open sorted)) as (k & v & Hw & Hp).
  { intros c [Hc Hoc]%elem_of_filterb. unfold sorted in Hc. rewrite by_name_perm in Hc. destruct (kids_smaller n d c Hd Hn Hc). by apply IH. }
  assert (Eb : forall l : list Z, l ≫= (fun c => [c]) = l) by (intros l; induction l as [|x l IHl]; [done | cbn; by rewrite IHl]).
  rewrite Eb in Hw. exists (S k), (sorted ++ v). split.
  - apply walked_unless_full; [apply asc_full |]. intros fuel stack st Hst Hf.
    destruct (emit_loop_spec sorted st Hst) as (st1 & stop & E1 & Em & Hstop).
    destruct (Hw fuel stack st1 (proj1 Em)) as (st2 & Em2 & W2). cbn [app Nat.add A walk_dirs]. rewrite Hf. fold sorted.
    destruct (is_nil (children_of drive d)) eqn:En.
    + apply is_nil_true in En. assert (Es : sorted = []) by (unfold sorted; by rewrite En, by_name_nil). rewrite Es in *. cbn [List.filter] in *.
      cbn [emit_loop] in E1. injection E1 as <- <-. exists st2. split; [exact Em2 |]. fold (A (k + fuel)). exact W2.
    + cbv zeta. rewrite E1. destruct stop.
      * exists st1. split; [|by rewrite asc_full by by apply Hstop].
        apply (emitted_app sorted v st st1 st1 Em), emitted_full; [apply Em | by apply Hstop].
      * exists st2. split; [by eapply emitted_app |]. fold (A (k + fuel)). exact W2.
  - rewrite Hp. destruct n as [|n].
    + assert (children_of drive d = []) as En.
      { destruct (children_of drive d) as [|c l] eqn:E; [done | exfalso]. destruct (kids_smaller 0 d c Hd Hn) as [_ ?]; [rewrite E; left | lia]. }
      unfold sorted. by rewrite En, by_name_nil.
    + rewrite level_split by lia. unfold sorted. by rewrite by_name_perm.
Qed.

Lemma desc_tasks_walked n l :
  (0 < n)%nat ->
  (forall d, d ∈ l -> open d = true -> exists k v, walked D k [Recurse d] v /\ v ≡ₚ drop 1 (tree drive open n d)) ->
  exists k v, walked D k (desc_tasks drive l) v /\ v ≡ₚ l ≫= tree drive open n.
Proof using Hdrive Htotal.
  intros Hn H. unfold desc_tasks. rewrite <- map_rev.
  destruct (walked_list D (fun d => [Recurse d]) (fun d => drop 1 (tree drive open n d)) (rev (List.filter open l))) as (k1 & v1 & W1 & P1).
  { intros d Hd. apply list_elem_of_In, in_rev, list_elem_of_In, elem_of_filterb in Hd as [Hd Ho]. by apply H. }
  destruct (walked_list D (fun i => [Emit i]) (fun i => [i]) l) as (k2 & v2 & W2 & P2).
  { intros i _. exists 1%nat, [i]. split; [|done]. apply walked_unless_full; [apply desc_full |]. intros fuel stack st Hst Hf.
    destruct (emit_spec i st Hst Hf) as (st1 & E1 & Em). exists st1. split; [done |]. cbn [app Nat.add D walk_tasks]. by rewrite Hf, E1. }
  assert (Em : forall {X Y} (g : X -> Y) (xs : list X), xs ≫= (fun x => [g x]) = map g xs)
    by (intros X Y g xs; induction xs as [|x xs IHx]; [done | cbn; by rewrite IHx]).
  rewrite Em in W1, W2. exists (k1 + k2)%nat, (v1 ++ v2). split; [by apply walked_app |].
  rewrite P1, P2, <- (level_split n l Hn). rewrite (Em _ _ (fun i : Z => i)), map_id, Permutation_app_comm. by rewrite <- (Permutation_rev (List.filter open l)).
Qed.

Lemma desc_walked n d :
  proper d -> (measure d < n)%nat -> open d = true -> exists k v, walked D k [Recurse d] v /\ v ≡ₚ drop 1 (tree drive open n d).
Proof using Hsort Hdrive Htotal Hkids Hrank Hbound.
  revert d. induction n as [|n IH]; intros d Hd Hn Ho; [lia |]. cbn [tree]. rewrite Ho. cbn [drop].
  set (sorted := by_name (children_of drive d) false).
  assert (Hv : exists k v, walked D k (desc_tasks drive sorted) v /\ v ≡ₚ sorted ≫= tree drive open n).
  { destruct n as [|n].
    - assert (sorted = []) as ->; [|exists 0%nat, []; split; [apply walked_nil | done]].
      unfold sorted. destruct (children_of drive d) as [|c l] eqn:E; [apply by_name_nil | exfalso].
      destruct (kids_smaller 0 d c Hd Hn) as [_ ?]; [rewrite E; left | lia].
    - apply desc_tasks_walked; [lia |]. intros c Hc Hoc. unfold sorted in Hc. rewrite by_name_perm in Hc.
      destruct (kids_smaller (S n) d c Hd Hn Hc). by apply IH. }
  destruct Hv as (k & v & Hw & Hp). exists (S k), v. split; [|rewrite Hp; unfold sorted; by rewrite by_name_perm].
  apply walked_unless_full; [apply desc_full |]. intros fuel stack st Hst Hf. destruct (Hw fuel stack st Hst) as (st1 & Em & W1).
  exists st1. split; [done |]. cbn [app Nat.add D walk_tasks]. rewrite Hf. cbv zeta. fold sorted. fold (D (k + fuel)).
  destruct (is_nil (children_of drive d)) eqn:En; [|exact W1]. apply is_nil_true in En.
  assert (Es : sorted = []) by (unfold sorted; by rewrite En, by_name_nil). by rewrite Es in W1.
Qed.
End by_directory.

(** ** The walk of a drive *)

Context (lower : Z) (Hlower : forall i rec, zget (records drive) i = Some rec -> lower <= rank i).
Context (Hself : forall i rec, zget (records drive) i = Some rec -> 0 <= parent_idx rec < zlen (records drive) -> parent_idx rec = i -> live rec = false).
Context (Hsize : zlen (records drive) <= U32_MAX).
(** Every record whose name is text is at the top, or in a directory whose name is text. *)
Definition rooted : Prop := forall i rec, zget (records drive) i = Some rec -> no_text (names drive) rec = false ->
  parent_idx rec = U32_MAX \/
  exists p, zget (records drive) (parent_idx rec) = Some p /\ no_text (names drive) p = false /\ is_directory p = true.
Context (Hrooted : rooted).

Abbreviation descends := (descends drive).

Lemma elem_of_roots i : i ∈ roots drive <-> exists rec, zget (records drive) i = Some rec /\ parent_idx rec = U32_MAX /\ live rec = true.
Proof using Hsize.
  unfold roots. split.
  - intros ([j rec] & -> & [Hr%elem_of_enumerate Hp]%elem_of_filterb)%list_elem_of_fmap. cbn [fst snd] in *.
    apply andb_true_iff in Hp as [Hp%Z.eqb_eq Hl]. pose proof Hr as [Hj _]%zget_Some. exists rec.
    unfold len_to_u32. by replace (j <=? U32_MAX) with true by lia.
  - intros (rec & Hr & Hp & Hl). pose proof Hr as [Hj _]%zget_Some. apply list_elem_of_fmap. exists (i, rec). cbn [fst].
    split; [unfold len_to_u32; by replace (i <=? U32_MAX) with true by lia |].
    apply elem_of_filterb. split; [by apply elem_of_enumerate |]. cbn [snd]. rewrite Hp, Z.eqb_refl. exact Hl.
Qed.

Lemma NoDup_roots : NoDup (roots drive).
Proof using Hsize.
  unfold roots. assert (E : map (fun it : Z * CompactRecord => len_to_u32 it.1)
    (List.filter (fun it => (parent_idx it.2 =? U32_MAX) && negb (name_len it.2 =? 0)) (enumerate (records drive))) =
    map fst (List.filter (fun it => (parent_idx it.2 =? U32_MAX) && negb (name_len it.2 =? 0)) (enumerate (records drive)))).
  { apply map_ext_in. intros [i rec] Hin%list_elem_of_In. apply elem_of_filterb in Hin as [[Hi _]%elem_of_enumerate%zget_Some _].
    cbn [fst] in *. unfold len_to_u32. by replace (i <=? U32_MAX) with true by lia. }
  rewrite E. eapply (sublist_NoDup _ (map fst (enumerate (records drive)))).
  - rewrite fst_enumerate. apply NoDup_seqZ.
  - apply map_fst_filter_sublist.
Qed.

Lemma root_proper i : i ∈ roots drive -> proper i.
Proof using Hsize.
  intros (rec & Hr & Hp & _)%elem_of_roots. pose proof Hr as [Hi _]%zget_Some. exists rec. split; [done | lia].
Qed.

Lemma text_live rec : no_text (names drive) rec = false -> live rec = true.
Proof using Type.
  unfold no_text. intros Hn. destruct (live rec) eqn:El; [done | exfalso]. unfold live in El. apply negb_false_iff, Z.eqb_eq in El.
  revert Hn. unfold name_str, name_bytes. rewrite El, Z.add_0_r. destruct (get_range _ _ _) as [bs |] eqn:E; [|done].
  apply get_range_len in E. rewrite Z.sub_diag in E. by apply zlen_0 in E as ->.
Qed.

Lemma text_reached open i rec :
  (forall j r, zget (records drive) j = Some r -> no_text (names drive) r = false -> is_directory r = true -> open j = true) ->
  zget (records drive) i = Some rec -> no_text (names drive) rec = false -> exists r, r ∈ roots drive /\ descends open r i.
Proof using Hkids Hrank Hlower Hself Hsize Hrooted.
  intros Hopen. remember (Z.to_nat (rank i - lower)) as m eqn:Em. revert i rec Em. induction m as [m IH] using lt_wf_ind. intros i rec -> Hr Ht.
  destruct (Hrooted i rec Hr Ht) as [Hp | (p & Hp & Htp & Hd)].
  - exists i. split; [|constructor]. apply elem_of_roots. exists rec. split_and!; [done | done | by apply text_live].
  - pose proof Hp as [Hran _]%zget_Some. destruct (decide (parent_idx rec = i)) as [E | Hne].
    + exfalso. pose proof (Hself i rec Hr Hran E) as Hdead. by rewrite (text_live rec Ht) in Hdead.
    + pose proof (Hrank i rec Hr Hran Hne) as Hlt. pose proof (Hlower _ _ Hp).
      destruct (IH (Z.to_nat (rank (parent_idx rec) - lower)) ltac:(lia) _ p eq_refl Hp Htp) as (r & Hin & Hde).
      exists r. split; [done |]. econstructor; [exact Hde | by apply (Hopen _ p) |].
      rewrite Hkids by done. apply elem_of_indices_where. exists rec. split; [done |]. unfold child_filter. rewrite Z.eqb_refl.
      rewrite (text_live rec Ht). by destruct (delta drive).
Qed.

Section forest.
Context (open : Z -> bool).
Context (Hopen : forall j r, zget (records drive) j = Some r -> no_text (names drive) r = false -> is_directory r = true -> open j = true).

(** More than the depth of any record. *)
Definition depth : nat := S (Z.to_nat (bound - lower)).

Lemma depth_enough d : proper d -> (measure d < depth)%nat.
Proof using Hlower. intros (rec & Hr & _). unfold depth, PathWalks.measure. specialize (Hlower d rec Hr). lia. Qed.

Definition forest : list Z := roots drive ≫= tree drive open depth.

Lemma root_top r x : r ∈ roots drive -> proper x -> descends open x r -> r = x.
Proof using Hkids Hrank Hbound Hsize.
  intros Hr Hx D. inversion D as [| p y Hp _ Hy]; subst; [done | exfalso].
  apply elem_of_roots in Hr as (rec & E & Htop & _).
  destruct (descends_proper drive open rank bound Hkids Hrank Hbound x p Hx Hp) as [Pp _].
  pose proof Pp as (rp & [Hp' _]%zget_Some & _). destruct (child_of drive Hkids p r Pp Hy) as (rec' & E' & Epar). assert (rec' = rec) as -> by congruence. lia.
Qed.

Lemma NoDup_forest : NoDup forest.
Proof using Hkids Hrank Hbound Hlower Hsize.
  apply (NoDup_trees drive open rank bound Hkids Hrank Hbound depth); [apply NoDup_roots | | |].
  - apply Forall_forall. intros d Hd%root_proper. split; [done | by apply depth_enough].
  - intros d Hd%root_proper. apply (NoDup_tree drive open rank bound Hkids Hrank Hbound); [by apply depth_enough | done].
  - intros a b x Ha Hb Da Db. pose proof (root_proper a Ha) as Pa. pose proof (root_proper b Hb) as Pb.
    destruct (descends_comparable drive open rank bound Hkids Hrank Hbound a b x Pa Pb Da Db); [symmetry; by apply root_top | by apply root_top].
Qed.

Lemma text_in_forest i rec : zget (records drive) i = Some rec -> no_text (names drive) rec = false -> i ∈ forest.
Proof using Hopen Hkids Hrank Hbound Hlower Hself Hsize Hrooted.
  intros Hr Ht. destruct (text_reached open i rec Hopen Hr Ht) as (r & Hin & D). apply list_elem_of_bind. exists r. split; [|done].
  pose proof (root_proper r Hin) as P. apply (elem_of_tree drive open rank bound Hkids Hrank Hbound); [by apply depth_enough | done..].
Qed.

(** Every record shown is in the forest, once. *)
Lemma shown_forest : omap shown_row forest ≡ₚ omap shown_row (seqZ 0 (zlen (records drive))).
Proof using Hopen Hkids Hrank Hbound Hlower Hself Hsize Hrooted.
  set (shown i := match shown_row i with Some _ => true | None => false end).
  assert (E : forall l, omap shown_row l = omap shown_row (List.filter shown l)).
  { intros l. induction l as [|i l IH]; [done |]. cbn [omap list_omap List.filter]. unfold shown at 1. destruct (shown_row i) eqn:Ei; [|done].
    cbn [omap list_omap]. rewrite Ei. by f_equal. }
  rewrite (E forest), (E (seqZ _ _)). apply omap_permutation, NoDup_Permutation.
  - apply NoDup_filterb, NoDup_forest.
  - apply NoDup_filterb, NoDup_seqZ.
  - intros i. rewrite !elem_of_filterb. split; intros [Hi Hs]; (split; [|done]); unfold shown, shown_row in Hs;
      destruct (zget (records drive) i) as [rec |] eqn:Er; [| done | | done]; cbn [mbind option_bind] in Hs.
    + apply zget_Some in Er as [Hran _]. apply elem_of_seqZ. lia.
    + destruct (no_text (names drive) rec) eqn:Et; [done |]. by eapply text_in_forest.
Qed.
End forest.

Lemma text_opens j r :
  zget (records drive) j = Some r -> no_text (names drive) r = false -> is_directory r = true -> has_text j = true.
Proof using Type. intros E Ht _. unfold has_text, record_is. by rewrite E, Ht. Qed.

Lemma dir_opens j r :
  zget (records drive) j = Some r -> no_text (names drive) r = false -> is_directory r = true -> is_dir drive j = true.
Proof using Type. intros E _ Hd. unfold is_dir, record_is. by rewrite E. Qed.

Definition shown_rows : list DisplayRow := omap shown_row (seqZ 0 (zlen (records drive))).

Lemma start_ok out : zlen out <= limit -> ok (mkWalk out ∅ ∅).
Proof using Type. intros H. split; [apply coherent_empty | done]. Qed.

Lemma path_drive_spec desc : exists n rows, rows ≡ₚ shown_rows /\ forall fuel out, (n <= fuel)%nat -> zlen out <= limit ->
  path_drive to_lowercase lower_char sort_unstable_by render table limit mode f drive letter fuel desc out = Some (upto (out ++ rows)).
Proof using All.
  destruct (walked_list (fun fuel stack st => walk_path to_lowercase lower_char sort_unstable_by render table limit mode f drive letter fuel desc stack st)
    (fun c => [c]) (tree drive has_text depth) (by_name (roots drive) desc)) as (k & v & Hw & Hp).
  { intros d Hd. rewrite by_name_perm in Hd. apply path_walked; [by apply root_proper | by apply depth_enough, root_proper]. }
  assert (Eb : forall l : list Z, l ≫= (fun c => [c]) = l) by (intros l; induction l as [|x l IHl]; [done | cbn; by rewrite IHl]).
  rewrite Eb in Hw. exists k, (omap shown_row v). split.
  - rewrite (omap_permutation _ _ _ Hp), by_name_perm. apply shown_forest, text_opens.
  - intros fuel out Hf Ho. destruct (walked_end _ (path_nil desc) k _ v fuel (mkWalk out ∅ ∅) Hw Hf (start_ok out Ho)) as (st & [_ E] & Hst).
    unfold path_drive. rewrite Hst. by rewrite E.
Qed.

Lemma path_only_drive_spec desc : exists n rows, rows ≡ₚ shown_rows /\ forall fuel out, (n <= fuel)%nat -> zlen out <= limit ->
  path_only_drive to_lowercase lower_char sort_unstable_by render table limit mode f drive letter fuel desc out = Some (upto (out ++ rows)).
Proof using All.
  set (top := by_name (roots drive) false).
  assert (Htop : forall d, d ∈ top -> proper d /\ (measure d < depth)%nat).
  { intros d Hd. unfold top in Hd. rewrite by_name_perm in Hd. split; [by apply root_proper | by apply depth_enough, root_proper]. }
  assert (Hforest : forall v, v ≡ₚ top ≫= tree drive (is_dir drive) depth -> omap shown_row v ≡ₚ shown_rows).
  { intros v Hp. rewrite (omap_permutation _ _ _ Hp). unfold top. rewrite by_name_perm. apply shown_forest, dir_opens. }
  assert (Eb : forall l : list Z, l ≫= (fun c => [c]) = l) by (intros l; induction l as [|x l IHl]; [done | cbn; by rewrite IHl]).
  unfold path_only_drive. fold top. destruct desc.
  - destruct (desc_tasks_walked depth top) as (k & v & Hw & Hp); [unfold depth; lia | |].
    { intros d Hd Ho. destruct (Htop d Hd). by apply desc_walked. }
    exists k, (omap shown_row v). split; [by apply Hforest |]. intros fuel out Hf Ho.
    destruct (walked_end _ desc_nil k _ v fuel (mkWalk out ∅ ∅) Hw Hf (start_ok out Ho)) as (st & [_ E] & Hst).
    unfold walk_drive_desc. rewrite Hst. by rewrite E.
  - destruct (walked_list (fun fuel stack st => walk_dirs to_lowercase lower_char sort_unstable_by render table limit mode f drive letter fuel stack st)
      (fun c => [c]) (fun d => drop 1 (tree drive (is_dir drive) depth d)) (List.filter (is_dir drive) top)) as (k & v & Hw & Hp).
    { intros d [Hd Ho]%elem_of_filterb. destruct (Htop d Hd). by apply asc_walked. }
    rewrite Eb in Hw. exists k, (omap shown_row (top ++ v)). split.
    + apply Hforest. rewrite Hp. apply level_split. unfold depth. lia.
    + intros fuel out Hf Ho. destruct (emit_loop_spec top (mkWalk out ∅ ∅) (start_ok out Ho)) as (st1 & stop & E1 & Em & Hstop).
      unfold walk_drive_asc. rewrite E1. destruct stop.
      * pose proof (emitted_app top v _ st1 st1 Em (emitted_full v st1 (proj1 Em) (Hstop eq_refl))) as [_ E]. cbn [output] in E. by rewrite E.
      * destruct (walked_end _ asc_nil k _ v fuel st1 Hw Hf (proj1 Em)) as (st & Em2 & Hst). rewrite Hst.
        pose proof (emitted_app top v _ st1 st Em Em2) as [_ E]. cbn [output] in E. by rewrite E.
Qed.
End emission.

(** * The walks of a query *)

(** A drive the walks can go through: its index coherent, its tree rooted and without
    cycles, and no star in a name or a path, which NTFS forbids. *)
Record walk_ok (schedule : list (Z * Z) -> list (Z * Z)) (to_lowercase : list Z -> list Z) (render : MalformedRender) (table : list Z) (drive : DriveCompactIndex) (letter : Z) : Prop := {
  wk_resolvable : resolvable drive;
  wk_size : zlen (records drive) <= U32_MAX;
  wk_reachable : exists records0 names0, reachable schedule to_lowercase drive records0 names0;
  wk_tree : tree_ok (records drive);
  wk_rooted : rooted drive;
  wk_star : forall idx rec, zget (records drive) idx = Some rec -> let row := alone render drive letter idx rec in
    no_star (fold_into table (str_chars (row_name row))) /\ no_star (to_ascii_lowercase (row_path_dir row))
}.

Section query.
Context (schedule : list (Z * Z) -> list (Z * Z)) (to_lowercase : list Z -> list Z) (lower_char : Z -> list Z).
Context (sort_unstable_by : forall A, (A -> A -> comparison) -> list A -> list A).
Context (Hschedule : forall ws, schedule ws ≡ₚ ws) (Hsort : sorting sort_unstable_by).
Context (render : MalformedRender) (table : list Z) (limit : Z) (mode : FilterMode) (f : SearchFilters).

Abbreviation shown d := (shown_rows to_lowercase lower_char render table mode f d.1 d.2).

Lemma drive_walks drive letter desc :
  walk_ok schedule to_lowercase render table drive letter ->
  (exists n rows, rows ≡ₚ shown (drive, letter) /\ forall fuel out, (n <= fuel)%nat -> zlen out <= limit ->
    path_drive to_lowercase lower_char sort_unstable_by render table limit mode f drive letter fuel desc out = Some (upto limit (out ++ rows))) /\
  (exists n rows, rows ≡ₚ shown (drive, letter) /\ forall fuel out, (n <= fuel)%nat -> zlen out <= limit ->
    path_only_drive to_lowercase lower_char sort_unstable_by render table limit mode f drive letter fuel desc out = Some (upto limit (out ++ rows))).
Proof using Hschedule Hsort.
  intros [Hres Hsize (r0 & n0 & Hr) [rank Hrank] Hroot Hstar]. destruct (reachable_invariant _ _ _ _ _ Hr) as [_ Ho].
  destruct (rank_bound rank (records drive)) as [bound Hbound]. destruct (rank_bound (fun i => - rank i) (records drive)) as [low Hlow].
  assert (Hkids : forall d, 0 <= d < zlen (records drive) -> children_of drive d = indices_where (child_filter drive d) (records drive))
    by (intros d Hd; apply (children_of_spec schedule drive r0 n0); [done | lia | lia]).
  assert (Htotal : forall idx rec, zget (records drive) idx = Some rec ->
    exists b, row_passes_filters to_lowercase lower_char (alone render drive letter idx rec) f table = Some b)
    by (intros idx rec E; destruct (Hstar idx rec E); by apply row_passes_total).
  assert (H1 : forall i rec, zget (records drive) i = Some rec -> 0 <= parent_idx rec < zlen (records drive) -> parent_idx rec <> i ->
    rank (parent_idx rec) < rank i) by (intros i rec E Hp; by apply (Hrank i rec E Hp)).
  assert (H2 : forall i rec, zget (records drive) i = Some rec -> 0 <= parent_idx rec < zlen (records drive) -> parent_idx rec = i -> live rec = false)
    by (intros i rec E Hp; by apply (Hrank i rec E Hp)).
  assert (H3 : forall i rec, zget (records drive) i = Some rec -> - low <= rank i) by (intros i rec E; specialize (Hlow i rec E); cbn in Hlow; lia).
  split.
  - by apply (path_drive_spec to_lowercase lower_char sort_unstable_by Hsort render table limit mode f drive letter Hres Htotal rank bound Hkids H1 Hbound (- low) H3 H2 Hsize Hroot).
  - by apply (path_only_drive_spec to_lowercase lower_char sort_unstable_by Hsort render table limit mode f drive letter Hres Htotal rank bound Hkids H1 Hbound (- low) H3 H2 Hsize Hroot).
Qed.

Lemma drive_order_perm drives desc : drive_order sort_unstable_by drives desc ≡ₚ seqZ 0 (zlen drives).
Proof using Hsort.
  unfold drive_order. set (key i := default 0 (snd <$> zget drives i)).
  apply (Hsort Z (fun a b => directed desc (key a ?= key b))). apply directed_preorder. apply (on_preorder key Z.compare).
Qed.

(** The drives one after the other. *)
Lemma walk_drives_spec walk (drives : Drives) order n out :
  zlen out <= limit ->
  (forall i drive letter, zget drives i = Some (drive, letter) -> exists rows, rows ≡ₚ shown (drive, letter) /\
    forall fuel out, (n <= fuel)%nat -> zlen out <= limit -> walk fuel drive letter out = Some (upto limit (out ++ rows))) ->
  exists rows, rows ≡ₚ (order ≫= fun i => match zget drives i with Some d => shown d | None => [] end) /\
    forall fuel, (n <= fuel)%nat -> walk_drives limit (walk fuel) drives order out = Some (upto limit (out ++ rows)).
Proof using Type.
  intros Ho Hw. revert out Ho. induction order as [|i order IH]; intros out Ho.
  - exists []. split; [done |]. intros fuel _. cbn. by rewrite app_nil_r, upto_small.
  - cbn [walk_drives mbind list_bind]. destruct (zget drives i) as [[drive letter] |] eqn:E.
    + destruct (Hw i drive letter E) as (r1 & P1 & W1).
      assert (Hu : zlen (upto limit (out ++ r1)) <= limit).
      { unfold upto, zlen. rewrite length_take. pose proof (zlen_nonneg out). lia. }
      destruct (IH _ Hu) as (r2 & P2 & W2). exists (r1 ++ r2). split; [by rewrite P1, P2 |]. intros fuel Hf.
      destruct (Z.leb_spec limit (zlen out)).
      * f_equal. unfold upto. rewrite take_app_le, take_ge; [done | unfold zlen in *; lia..].
      * rewrite (W1 fuel out Hf Ho). rewrite (W2 fuel Hf), upto_twice. by rewrite <- app_assoc.
    + destruct (IH out Ho) as (r2 & P2 & W2). exists r2. split; [exact P2 |]. intros fuel Hf.
      destruct (Z.leb_spec limit (zlen out)); [|by apply W2]. f_equal. unfold upto. rewrite take_app_le, take_ge; [done | unfold zlen in *; lia..].
Qed.

Lemma all_drives (drives : Drives) desc :
  (drive_order sort_unstable_by drives desc ≫= fun i => match zget drives i with Some d => shown d | None => [] end) ≡ₚ drives ≫= fun d => shown d.
Proof using Hsort.
  rewrite drive_order_perm. clear. induction drives as [|d drives IH] using rev_ind; [done |].
  rewrite bind_app. rewrite <- IH, zlen_app. change (zlen [d]) with 1. pose proof (zlen_nonneg drives).
  rewrite seqZ_app by lia. rewrite bind_app. apply Permutation_app.
  - apply reflexive_eq. clear IH. assert (Hall : Forall (fun i => 0 <= i < zlen drives) (seqZ 0 (zlen drives))) by (apply Forall_forall; intros i Hi%elem_of_seqZ; lia).
    induction Hall as [|i l Hi _ IHl]; [done |]. cbn [mbind list_bind]. rewrite IHl. by rewrite zget_app_l by lia.
  - change (seqZ (0 + zlen drives) 1) with [0 + zlen drives]. cbn [mbind list_bind]. rewrite zget_app_r by lia.
    by replace (0 + zlen drives - zlen drives) with 0 by lia.
Qed.
End query.

(** Rows are not tested for deletion, so the rows shown do not depend on that criterion. *)
Lemma shown_rows_without_deleted to_lowercase lower_char render table mode f drive letter :
  shown_rows to_lowercase lower_char render table mode f drive letter =
  shown_rows to_lowercase lower_char render table mode (without_deleted f) drive letter.
Proof.
  unfold shown_rows. induction (seqZ 0 _) as [|i l IH]; [done |]. cbn [omap list_omap]. rewrite IH.
  unfold shown_row. destruct (zget _ i) as [rec |]; [|done]. cbn [mbind option_bind]. by rewrite <- row_passes_without_deleted.
Qed.

(** C15: sorted by path or by directory, a match-all query terminates, and returns as many of
    the rows of the records shown as the limit lets through, each once: a walk neither
    misses a record nor repeats one, on any drive whose index is coherent, whose directories'
    names are text and lead to the top without a cycle, and which has no star in a name or a
    path and no path deeper than 257 records.  The records shown are those of the mode whose name is text and whose row passes
    every criterion of the filters but the one of deletion, which these walks do not test: a
    query for the deleted records lists the live ones too ([RowFilters.row_filters_agree]). *)
Theorem path_walks_complete schedule to_lowercase lower_char su render table mode f (drives : Drives) limit desc :
  (forall ws, schedule ws ≡ₚ ws) -> sorting su -> 0 <= limit ->
  Forall (fun d => walk_ok schedule to_lowercase render table d.1 d.2) drives ->
  let all := drives ≫= fun d => shown_rows to_lowercase lower_char render table mode (without_deleted f) d.1 d.2 in
  exists n by_path by_directory, by_path ≡ₚ all /\ by_directory ≡ₚ all /\ forall fuel, (n <= fuel)%nat ->
    walk_tree_path_sorted to_lowercase lower_char su render table limit mode f fuel drives desc = Some (take (Z.to_nat limit) by_path) /\
    walk_tree_path_only to_lowercase lower_char su render table limit mode f fuel drives desc = Some (take (Z.to_nat limit) by_directory).
Proof.
  intros Hsch Hsu Hl Hds all.
  assert (Eall : all = drives ≫= fun d => shown_rows to_lowercase lower_char render table mode f d.1 d.2).
  { unfold all. clear. induction drives as [|d ds IH]; [done |]. cbn [mbind list_bind]. by rewrite IH, <- shown_rows_without_deleted. }
  rewrite Eall. clear Eall all.
  assert (Hall : forall ds : Drives, Forall (fun d => walk_ok schedule to_lowercase render table d.1 d.2) ds -> exists n, Forall (fun d =>
    (exists rows, rows ≡ₚ shown_rows to_lowercase lower_char render table mode f d.1 d.2 /\ forall fuel out, (n <= fuel)%nat -> zlen out <= limit ->
      path_drive to_lowercase lower_char su render table limit mode f d.1 d.2 fuel desc out = Some (upto limit (out ++ rows))) /\
    (exists rows, rows ≡ₚ shown_rows to_lowercase lower_char render table mode f d.1 d.2 /\ forall fuel out, (n <= fuel)%nat -> zlen out <= limit ->
      path_only_drive to_lowercase lower_char su render table limit mode f d.1 d.2 fuel desc out = Some (upto limit (out ++ rows)))) ds).
  { induction 1 as [|[drive letter] ds Hd _ (n & IH)]; [by exists 0%nat |].
    destruct (drive_walks schedule to_lowercase lower_char su Hsch Hsu render table limit mode f drive letter desc Hd) as [(n1 & r1 & P1 & W1) (n2 & r2 & P2 & W2)].
    exists (n + n1 + n2)%nat. constructor.
    - split; [exists r1 | exists r2]; (split; [done |]; intros fuel out Hf Ho; first [apply W1 | apply W2]; [lia | done]).
    - eapply Forall_impl; [exact IH |]. intros d [(s1 & Q1 & V1) (s2 & Q2 & V2)].
      split; [exists s1 | exists s2]; (split; [done |]; intros fuel out Hf Ho; first [apply V1 | apply V2]; [lia | done]). }
  destruct (Hall drives Hds) as (n & Hn). rewrite Forall_forall in Hn.
  assert (Hat : forall i drive letter, zget drives i = Some (drive, letter) -> (drive, letter) ∈ drives) by (intros i drive letter E; by eapply zget_elem).
  destruct (walk_drives_spec to_lowercase lower_char render table limit mode f
    (fun fuel drive letter => path_drive to_lowercase lower_char su render table limit mode f drive letter fuel desc) drives (drive_order su drives desc) n [])
    as (by_path & P1 & W1); [done | intros i drive letter E; apply (Hn _ (Hat _ _ _ E)) |].
  destruct (walk_drives_spec to_lowercase lower_char render table limit mode f
    (fun fuel drive letter => path_only_drive to_lowercase lower_char su render table limit mode f drive letter fuel desc) drives (drive_order su drives desc) n [])
    as (by_dir & P2 & W2); [done | intros i drive letter E; apply (Hn _ (Hat _ _ _ E)) |].
  exists n, by_path, by_dir. split_and!; [by rewrite P1, all_drives | by rewrite P2, all_drives |]. intros fuel Hf.
  split; [exact (W1 fuel Hf) | exact (W2 fuel Hf)].
Qed.

(** ** Samples *)

Lemma default_star cs : scalars cs -> no_star cs -> no_star (fold_into default_table cs).
Proof. intros Hs Hn Hin. apply Hn. by apply (wild_folded default_table cs STAR default_table_ok Hs star_wild). Qed.

Lemma sample_walk_ok : walk_ok (@rev _) id Lossy default_table sample_drive 67.
Proof.
  split.
  - apply sample_resolvable.
  - by vm_compute.
  - eexists _, _. apply sample_reachable.
  - by apply (tree_okb_ok (fun i => i)).
  - intros i rec Hr _. revert Hr. intros [Hi Hr]%zget_Some. change (zlen (records sample_drive)) with 3 in Hi.
    assert (H : i = 0 \/ i = 1 \/ i = 2) by lia. destruct H as [-> | [-> | ->]]; vm_compute in Hr; injection Hr as <-.
    + by left.
    + by left.
    + right. eexists. split; [reflexivity |]. by vm_compute.
  - intros i rec Hr. pose proof Hr as [Hi _]%zget_Some. change (zlen (records sample_drive)) with 3 in Hi.
    assert (H : i = 0 \/ i = 1 \/ i = 2) by lia. destruct H as [-> | [-> | ->]]; vm_compute in Hr; injection Hr as <-;
      (split; [apply default_star; [apply (bool_decide_unpack _); by vm_compute |] |]; apply (bool_decide_unpack _); by vm_compute).
Qed.

(** The filters of a query for the deleted records. *)
Definition only_deleted : SearchFilters :=
  mkSearchFilters false false None None None None None None None None 0 0 None None [] [] None None
    None None None None None None None None None None None None None None [] None (Some true).

(** None of the three records is deleted, and all are listed. *)
Lemma path_walks_complete_witness : exists n by_path by_directory, zlen by_path = 3 /\ by_path ≡ₚ by_directory /\ forall fuel, (n <= fuel)%nat ->
  walk_tree_path_sorted id (fun c => [c]) stable_sort Lossy default_table 2 All only_deleted fuel [(sample_drive, 67)] true = Some (take 2 by_path) /\
  walk_tree_path_only id (fun c => [c]) stable_sort Lossy default_table 2 All only_deleted fuel [(sample_drive, 67)] true = Some (take 2 by_directory).
Proof.
  destruct (path_walks_complete (@rev _) id (fun c => [c]) stable_sort Lossy default_table All only_deleted [(sample_drive, 67)] 2 true
    rev_permutation stable_sorting ltac:(done) ltac:(apply Forall_singleton; apply sample_walk_ok)) as (n & r1 & r2 & P1 & P2 & W).
  exists n, r1, r2. split_and!; [| by rewrite P1, P2 | exact W]. unfold zlen. rewrite (Permutation_length P1). by lazy.
Defined.

(** * Where the order is not the one asked for *)

(** [a\x], [a b\y] at the top of a drive: a blank sorts before the separator. *)
Definition blank_drive : DriveCompactIndex :=
  compact_base (@rev _) (bare_drive
    [sample_record U32_MAX 0 1 0 0x10 4; sample_record U32_MAX 1 1 0 0x10 4; sample_record U32_MAX 2 3 0 0x10 6;
     sample_record 1 5 1 0 0x20 6; sample_record 2 6 1 0 0x20 8]
    (bytes_of ".aa bxy") [[]] None [0; 1; 2; 3; 4]).

Definition paths (rows : option (list DisplayRow)) : list (list Z) := map row_path (default [] rows).

Abbreviation all_by_path table fuel drive desc := (walk_tree_path_sorted id (fun c => [c]) stable_sort Lossy table 100 All Filters.no_filters fuel [(drive, 67)] desc).
Abbreviation all_by_directory table fuel drive desc := (walk_tree_path_only id (fun c => [c]) stable_sort Lossy table 100 All Filters.no_filters fuel [(drive, 67)] desc).

Lemma sorted_at {A} (cmp : A -> A -> comparison) l i j a b :
  sorted_by cmp l -> (i < j)%nat -> l !! i = Some a -> l !! j = Some b -> cmp a b <> Gt.
Proof.
  intros Hs Hij Ha Hb. revert i j Hij Ha Hb. induction Hs as [|x l Hs IH Hf]; intros [|i] [|j] Hij Ha Hb; try done; try lia.
  - injection Ha as ->. rewrite Forall_forall in Hf. apply Hf. by eapply list_elem_of_lookup_2.
  - apply (IH i j); [lia | done..].
Qed.

Lemma fold_ascii s : Forall (fun b => 0 <= b < 0x80) s -> fold_str default_table s = map upcase s.
Proof.
  intros Hs. unfold fold_str. rewrite str_chars_of_ascii by done. rewrite fold_into_exact; [| apply default_table_ok |].
  - assert (E : map (fold_cp default_table) s = map upcase s).
    { apply map_ext_in. intros b Hb. rewrite Forall_forall in Hs. apply list_elem_of_In in Hb. specialize (Hs b Hb). apply fold_cp_default. lia. }
    rewrite E. apply utf8_string_of_ascii. apply Forall_map. eapply Forall_impl; [exact Hs |]. intros b Hb. cbn in Hb |- *.
    assert (Hu : forallb (fun c => (0 <=? upcase c) && (upcase c <? 0x80)) (seqZ 0 0x80) = true) by by vm_compute.
    rewrite forallb_forall in Hu. specialize (Hu b ltac:(apply list_elem_of_In, elem_of_seqZ; lia)). lia.
  - eapply Forall_impl; [exact Hs |]. intros b Hb. cbn in Hb |- *. unfold is_scalar. lia.
Qed.

Definition ascii_row (row : DisplayRow) : Prop := Forall (fun b => 0 <= b < 0x80) (row_path row) /\ Forall (fun b => 0 <= b < 0x80) (row_path_dir row).

Lemma path_order desc a b : ascii_row a -> ascii_row b ->
  (directed desc (bytes_cmp (map upcase (row_path a)) (map upcase (row_path b))) = Gt -> result_order default_table Path desc [] a b = Gt) /\
  (directed desc (bytes_cmp (map upcase (row_path_dir a)) (map upcase (row_path_dir b))) = Gt -> result_order default_table PathOnly desc [] a b = Gt).
Proof.
  intros [Ha Ha'] [Hb Hb']. unfold result_order. cbn [forallb sort_col is_strict_numeric andb]. unfold by_columns. cbn [lexicographic sort_col descending].
  unfold row_cmp at 1 3. cbn [compare_by_column full_key key_path key_path_only]. rewrite !fold_ascii by done.
  split; intros H; destruct desc, (bytes_cmp (map upcase _) (map upcase _)); cbn in H |- *; done.
Qed.

(** The rows of a walk, and two of them out of order. *)
Ltac walk_is rows :=
  let E := fresh "E" in let r := fresh "rows" in
  destruct rows as [r |] eqn:E; vm_compute in E; [|discriminate E]; injection E as <-; eexists; split; [reflexivity |].
Ltac out_of_order i j side :=
  let Hs := fresh in intros Hs; refine (sorted_at _ _ i j _ _ Hs _ eq_refl eq_refl _); [lia |];
  refine (side _ _ (path_order _ _ _ _ _) _); [split; apply (bool_decide_unpack _); by vm_compute .. | by vm_compute].

(** Neither walk returns the order it claims: the contents of a directory come straight
    after it though a sibling may sort between them, and in descending order a directory
    comes before its contents. *)
Theorem path_walks_unsorted table desc :
  (exists rows, all_by_path table 10 blank_drive desc = Some rows /\ ~ sorted_by (result_order default_table Path desc []) rows) /\
  (exists rows, all_by_directory table 10 blank_drive desc = Some rows /\ ~ sorted_by (result_order default_table PathOnly desc []) rows).
Proof.
  destruct desc; split.
  - walk_is (all_by_path table 10%nat blank_drive true). out_of_order 0%nat 1%nat @proj1.
  - walk_is (all_by_directory table 10%nat blank_drive true). out_of_order 0%nat 1%nat @proj2.
  - walk_is (all_by_path table 10%nat blank_drive false). out_of_order 2%nat 3%nat @proj1.
  - walk_is (all_by_directory table 10%nat blank_drive false). out_of_order 3%nat 4%nat @proj2.
Qed.

(** A directory whose name is a lone surrogate, and a file in it. *)
Definition surrogate_drive : DriveCompactIndex :=
  compact_base (@rev _) (bare_drive [sample_record U32_MAX 0 3 0 0x10 6; sample_record 0 3 1 0 0x20 8] [0xED; 0xA0; 0x80; 120] [[]] None [0; 1]).

(** Sorted by path, a query does not find what is below a directory whose name is not
    text; sorted by directory it does. *)
Theorem surrogate_directory_hides table :
  (exists rows, all_by_path table 10 surrogate_drive false = Some rows /\ map row_record_index rows = []) /\
  (exists rows, all_by_directory table 10 surrogate_drive false = Some rows /\ map row_record_index rows = [1]).
Proof.
  split.
  - walk_is (all_by_path table 10%nat surrogate_drive false). reflexivity.
  - walk_is (all_by_directory table 10%nat surrogate_drive false). reflexivity.
Qed.
