(* ===== verification/TreeSearch.v ===== *)
(** The search of a drive by a path pattern: [tree_search] and
    [search_compact_drive_tree] ([crates/uffs-core/src/search/tree.rs],
    [search/query/mod.rs]).  A pattern is a list of characters, already folded when the
    search ignores case, as names are.  The walk goes down the children of directories;
    what it finds is stated as a relation between segments and records. *)
From S2P Require Import Prelude Text CaseFold Glob CsrIndex TrigramIndex IndexDelta Bloom CompactIndex PathLen UsnBatch UsnPatch NameSearch Filters PathResolve.
Local Open Scope Z_scope.
Local Open Scope rust_scope.

(** * The segments of a pattern *)

Definition STARS : list Z := [STAR; STAR].

Definition segments_of (pattern_lower : list Z) : list (list Z) :=
  let normalized := map (fun c => if c =? SLASH then BACKSLASH else c) pattern_lower in
  let stripped := match normalized with c :: rest => if c =? BACKSLASH then rest else normalized | [] => normalized end in
  List.filter (fun seg => negb (zlen seg =? 0)) (split_byte BACKSLASH stripped).

Section tree.
(** The order [sort_unstable_by_key] leaves equal lengths in. *)
Context (sort_by_len : list (list Z) -> list (list Z)) (drive : DriveCompactIndex).

Definition folded_name (rec : CompactRecord) : list Z := fold_into (fold drive) (name_chars (names drive) rec).

Definition trigram_filtered_records (needle : list Z) (limit : Z) (predicate : CompactRecord -> option bool) : option (list Z) :=
  collect_match_indices (records drive) predicate (trigram_search sort_by_len drive needle) limit.

(** A pattern of one segment: a name that contains it. *)
Definition single_segment (first_segment : list Z) (rec : CompactRecord) : option bool :=
  let folded := folded_name rec in
  Some (negb (is_nil folded) && negb (bool_decide (folded = [DOT])) && contains_str folded (utf8_string first_segment)).

Definition dir_matches (segment : list Z) (rec : CompactRecord) : option bool :=
  if is_directory rec then segment_matches (folded_name rec) (utf8_string segment) else Some false.

(** The directories of the first segment. *)
Definition first_dirs (first_segment : list Z) : option (list Z) :=
  if bool_decide (first_segment = STARS)
  then Some (map (fun p => len_to_u32 p.1) (List.filter (fun p => is_directory p.2 && live p.2) (enumerate (records drive))))
  else trigram_filtered_records first_segment U64_MAX (dir_matches first_segment).

(** ** One level down *)

Fixpoint matching_children (segment : list Z) (children out : list Z) : option (list Z) :=
  match children with
  | [] => Some out
  | child_idx :: children =>
      match zget (records drive) child_idx with
      | Some child_rec =>
          let? m := dir_matches segment child_rec in
          matching_children segment children (if m then out ++ [child_idx] else out)
      | None => matching_children segment children out
      end
  end.

Fixpoint next_dirs (segment : list Z) (candidate_dirs out : list Z) : option (list Z) :=
  match candidate_dirs with
  | [] => Some out
  | dir_idx :: candidate_dirs =>
      let? out := matching_children segment (children_of drive dir_idx) out in next_dirs segment candidate_dirs out
  end.

(** ** All levels down *)

(** The recursion of [collect_descendant_dirs] and [collect_all_descendants]: the children
    [push] says are pushed, until the list has [max] elements, and those [enter] says are
    walked in turn. *)
Fixpoint collect_children (push enter : CompactRecord -> bool) (walk : Z -> list Z -> option (list Z)) (max : Z) (children out : list Z)
    : option (list Z) :=
  match children with
  | [] => Some out
  | child_idx :: children =>
      match zget (records drive) child_idx with
      | None => collect_children push enter walk max children out
      | Some child_rec =>
          let pushed := if push child_rec then out ++ [child_idx] else out in
          if push child_rec && (max <=? zlen pushed) then Some pushed
          else
            let? out := if enter child_rec then walk child_idx pushed else Some pushed in
            collect_children push enter walk max children out
      end
  end.

Fixpoint collect (push enter : CompactRecord -> bool) (fuel : nat) (dir_idx : Z) (out : list Z) (max : Z) : option (list Z) :=
  match fuel with
  | O => None
  | S fuel =>
      if max <=? zlen out then Some out
      else collect_children push enter (fun child_idx out => collect push enter fuel child_idx out max) max (children_of drive dir_idx) out
  end.

Definition live_dir (rec : CompactRecord) : bool := is_directory rec && live rec.

Definition shown_record (rec : CompactRecord) : bool :=
  let name := name_str (names drive) rec in live rec && negb (is_nil name) && negb (bool_decide (name = [DOT])).

Definition collect_descendant_dirs : nat -> Z -> list Z -> Z -> option (list Z) := collect live_dir live_dir.
Definition collect_all_descendants : nat -> Z -> list Z -> Z -> option (list Z) := collect shown_record live_dir.

Fixpoint descendants_loop (fuel : nat) (max : Z) (candidate_dirs out : list Z) : option (list Z) :=
  match candidate_dirs with
  | [] => Some out
  | dir_idx :: candidate_dirs => let? out := collect_descendant_dirs fuel dir_idx out max in descendants_loop fuel max candidate_dirs out
  end.

(** ** The walk *)

(** The intermediate segments; the product [limit * 10] wraps. *)
Definition walk_segment (fuel : nat) (limit : Z) (segment candidate_dirs : list Z) : option (list Z) :=
  if bool_decide (segment = STARS) then descendants_loop fuel (u64 (limit * 10)) candidate_dirs []
  else next_dirs segment candidate_dirs [].

(** An empty candidate list ends the walk with no result. *)
Fixpoint walk_segments (fuel : nat) (limit : Z) (segments : list (list Z)) (candidate_dirs : list Z) : option (list Z) :=
  match segments with
  | [] => Some candidate_dirs
  | segment :: segments =>
      let? candidate_dirs := walk_segment fuel limit segment candidate_dirs in
      if is_nil candidate_dirs then Some [] else walk_segments fuel limit segments candidate_dirs
  end.

(** The children of one directory that match the leaf, and whether the limit was reached. *)
Fixpoint leaf_children (leaf_pattern : list Z) (limit : Z) (children results : list Z) : option (list Z * bool) :=
  match children with
  | [] => Some (results, false)
  | child_idx :: children =>
      match zget (records drive) child_idx with
      | None => leaf_children leaf_pattern limit children results
      | Some child_rec =>
          let? m := name_matches (folded_name child_rec) (utf8_string leaf_pattern) in
          if m then
            let results := results ++ [child_idx] in
            if limit <=? zlen results then Some (results, true) else leaf_children leaf_pattern limit children results
          else leaf_children leaf_pattern limit children results
      end
  end.

Fixpoint leaf_loop (leaf_pattern : list Z) (limit : Z) (candidate_dirs results : list Z) : option (list Z) :=
  match candidate_dirs with
  | [] => Some results
  | dir_idx :: candidate_dirs =>
      let? p := leaf_children leaf_pattern limit (children_of drive dir_idx) results in
      if p.2 : bool then Some p.1 else leaf_loop leaf_pattern limit candidate_dirs p.1
  end.

Fixpoint all_loop (fuel : nat) (limit : Z) (candidate_dirs results : list Z) : option (list Z) :=
  match candidate_dirs with
  | [] => Some results
  | dir_idx :: candidate_dirs =>
      let? results := collect_all_descendants fuel dir_idx results limit in
      if limit <=? zlen results then Some results else all_loop fuel limit candidate_dirs results
  end.

Definition tree_search (fuel : nat) (pattern_lower : list Z) (limit : Z) : option (list Z) :=
  match segments_of pattern_lower with
  | [] => Some []
  | [first_segment] => trigram_filtered_records first_segment limit (single_segment first_segment)
  | first_segment :: segments =>
      let leaf_pattern := List.last segments [] in
      let? candidate_dirs := first_dirs first_segment in
      let? candidate_dirs := walk_segments fuel limit (removelast segments) candidate_dirs in
      if bool_decide (leaf_pattern = STARS) then all_loop fuel limit candidate_dirs []
      else leaf_loop leaf_pattern limit candidate_dirs []
  end.
End tree.

(** * The rows *)

Section rows.
Context (sort_by_len : list (list Z) -> list (list Z)) (to_lowercase : list Z -> list Z) (lower_char : Z -> list Z) (trim : list Z -> list Z).
Context (drive : DriveCompactIndex) (letter : Z) (render : MalformedRender) (filters : SearchFilters).

Definition tree_filters : SearchFilters := resolve_ext_ids_for_drive to_lowercase trim filters drive.

Definition tree_scan_limit (limit : Z) : Z := if is_nil (extensions tree_filters) then limit else U64_MAX.

Definition row_passes (rec : CompactRecord) : option bool :=
  if is_nil (name_str (names drive) rec) then Some false
  else matches_record to_lowercase lower_char tree_filters (fold drive) (names drive) rec.

(** The rows of the matches that pass, up to the limit; a row costs the walk of its path. *)
Definition search_compact_drive_tree (fuel : nat) (pattern_lower : list Z) (limit : Z) : option (list DisplayRow) :=
  let? match_indices := tree_search sort_by_len drive fuel pattern_lower (tree_scan_limit limit) in
  let? kept := collect_candidates (records drive) row_passes limit match_indices [] in
  Some (rows_loop drive letter (stack_volume_prefix letter) render kept ∅ ∅).
End rows.

(** * What a pattern finds *)

Section specification.
Context (drive : DriveCompactIndex).

(** A segment is a name, all names, or a pattern of wildcards. *)
Definition segment_spec (name segment : list Z) : Prop :=
  name <> [] /\ name <> [DOT] /\
  (segment = [STAR] \/ segment = STARS \/ if is_wild segment then glob segment name else name = segment).

Definition dir_named (segment : list Z) (i : Z) : Prop :=
  exists rec, zget (records drive) i = Some rec /\ is_directory rec = true /\ segment_spec (folded_name drive rec) (utf8_string segment).

Definition child (d i : Z) : Prop := exists rec, zget (records drive) i = Some rec /\ parent_idx rec = d.

(** The live records below a directory, through live directories. *)
Inductive under (d : Z) : Z -> Prop :=
| under_child i rec : zget (records drive) i = Some rec -> parent_idx rec = d -> live rec = true -> under d i
| under_step c rec i : zget (records drive) c = Some rec -> parent_idx rec = d -> live_dir rec = true -> under c i -> under d i.

Definition starts (first_segment : list Z) (d : Z) : Prop :=
  if bool_decide (first_segment = STARS) then record_is drive live_dir d = true else dir_named first_segment d.

(** From a directory down to another: a segment is one level, two stars one or more. *)
Inductive reaches : list (list Z) -> Z -> Z -> Prop :=
| reaches_nil d : reaches [] d d
| reaches_stars segments d e i : under d e -> record_is drive live_dir e = true -> reaches segments e i -> reaches (STARS :: segments) d i
| reaches_segment segment segments d e i : segment <> STARS -> child d e -> dir_named segment e -> reaches segments e i ->
    reaches (segment :: segments) d i.

Definition ends (leaf_pattern : list Z) (d i : Z) : Prop :=
  if bool_decide (leaf_pattern = STARS) then under d i /\ record_is drive (shown_record drive) i = true
  else child d i /\ exists rec, zget (records drive) i = Some rec /\ name_matches (folded_name drive rec) (utf8_string leaf_pattern) = Some true.

Definition on_pattern (first_segment : list Z) (middle : list (list Z)) (leaf_pattern : list Z) (i : Z) : Prop :=
  exists d e, starts first_segment d /\ reaches middle d e /\ ends leaf_pattern e i.
End specification.

(** ** Lists that agree up to a length *)

Definition upto (max : Z) (a b : list Z) : Prop := take (Z.to_nat max) a = take (Z.to_nat max) b.

Lemma upto_ge max a x y : max <= zlen a -> upto max (a ++ x) (a ++ y).
Proof. intros H. unfold upto. rewrite !take_app_le; [done | unfold zlen in H; lia..]. Qed.

Lemma upto_short max a b : upto max a b -> zlen a < max \/ zlen b < max -> a = b.
Proof.
  unfold upto. intros E H. pose proof (f_equal length E) as El. rewrite !length_take in El. unfold zlen in H.
  assert (length a = length b /\ (length a <= Z.to_nat max)%nat) as [Hl Hm] by lia.
  rewrite !take_ge in E by lia. done.
Qed.

Lemma upto_app max a b x : upto max a b -> upto max (a ++ x) (b ++ x).
Proof.
  intros E. destruct (decide (zlen a < max)) as [Ha | Ha]; [by rewrite (upto_short max a b E (or_introl Ha)) |].
  assert (Hb : max <= zlen b) by (destruct (decide (zlen b < max)); [exfalso; apply Ha; by rewrite (upto_short max a b E (or_intror l)) | lia]).
  unfold upto in *. rewrite !take_app_le by (unfold zlen in *; lia). done.
Qed.

Lemma indices_where_length (f : CompactRecord -> bool) recs : (length (indices_where f recs) <= length recs)%nat.
Proof.
  unfold indices_where. pose proof (sublist_length _ _ (map_fst_filter_sublist (fun it : Z * CompactRecord => f it.2) (enumerate recs))) as H.
  rewrite fst_enumerate, length_seqZ in H. unfold zlen in H. lia.
Qed.

(** ** The walk is exact *)

Section exact.
#[local] Set Default Proof Using "Type".
Context (drive : DriveCompactIndex) (schedule : list (Z * Z) -> list (Z * Z)).
Context (records0 : list CompactRecord) (names0 : list Z) (Ho : overlay_ok schedule drive records0 names0).
Context (Hsize : zlen (records drive) <= U32_MAX).

Lemma elem_of_children d i rec : 0 <= d < zlen (records drive) -> zget (records drive) i = Some rec -> live rec = true ->
  i ∈ children_of drive d <-> parent_idx rec = d.
Proof using Ho Hsize.
  intros Hd Hr Hl. rewrite (children_of_spec schedule drive records0 names0) by (done || lia). rewrite elem_of_indices_where. unfold child_filter.
  split.
  - intros (rec' & Hr' & [E%Z.eqb_eq _]%andb_true_iff). congruence.
  - intros E. exists rec. split; [done |]. rewrite E, Z.eqb_refl. cbn [andb]. by destruct (delta drive).
Qed.

Section collected.
Context (push : CompactRecord -> bool) (Hpush : forall rec, push rec = true -> live rec = true).

(** A walk pushes, after what there is, a list of its own, up to the limit. *)
Definition walks (n : nat) (d : Z) (desc : list Z) : Prop :=
  forall fuel out max, (n <= fuel)%nat -> exists out', collect drive push live_dir fuel d out max = Some out' /\ upto max out' (out ++ desc).

Definition children_walk (n : nat) (cs desc : list Z) : Prop :=
  forall fuel out max, (n <= fuel)%nat -> exists out',
    collect_children drive push live_dir (fun c out => collect drive push live_dir fuel c out max) max cs out = Some out' /\ upto max out' (out ++ desc).

Definition below_dir (d x : Z) : Prop := under drive d x /\ record_is drive push x = true.

Lemma children_walk_ok cs : (forall c rec, c ∈ cs -> zget (records drive) c = Some rec -> live_dir rec = true ->
    exists n desc, walks n c desc /\ forall x, x ∈ desc <-> below_dir c x) ->
  exists n desc, children_walk n cs desc /\
    forall x, x ∈ desc <-> exists c, c ∈ cs /\ (x = c /\ record_is drive push c = true \/ record_is drive live_dir c = true /\ below_dir c x).
Proof using Type.
  clear Hpush Ho Hsize schedule records0 names0. induction cs as [|c cs IH]; intros H.
  { exists 0%nat, []. split; [intros fuel out max _; exists out; rewrite app_nil_r; by split | set_solver]. }
  destruct IH as (n & desc & Hw & Hd); [intros c' rec Hc; apply H; by right |].
  destruct (zget (records drive) c) as [rec|] eqn:Ec.
  2: { exists n, desc. split; [intros fuel out max Hf; cbn [collect_children]; rewrite Ec; by apply Hw |]. intros x. rewrite Hd.
    split; [intros (c' & Hc' & Hx); exists c'; split; [by right | done] |]. intros (c' & [-> | Hc']%elem_of_cons & Hx); [|by exists c'].
    unfold record_is in Hx. rewrite Ec in Hx. naive_solver. }
  assert (Hsub : exists n1 desc1, (forall fuel out max, (n1 <= fuel)%nat -> exists out',
      (if live_dir rec then collect drive push live_dir fuel c out max else Some out) = Some out' /\ upto max out' (out ++ desc1)) /\
    forall x, x ∈ desc1 <-> live_dir rec = true /\ below_dir c x).
  { destruct (live_dir rec) eqn:El.
    - destruct (H c rec ltac:(left) Ec El) as (n1 & desc1 & H1 & H2). exists n1, desc1. split; [done |]. intros x. rewrite H2. tauto.
    - exists 0%nat, []. split; [intros fuel out max _; exists out; rewrite app_nil_r; by split |]. intros x. split; [by intros ?%elem_of_nil | by intros [? _]]. }
  destruct Hsub as (n1 & desc1 & H1 & H2).
  exists (n1 `max` n)%nat, ((if push rec then [c] else []) ++ desc1 ++ desc). split.
  - intros fuel out max Hf. cbn [collect_children]. rewrite Ec. cbv zeta.
    set (pushed := if push rec then out ++ [c] else out).
    assert (Ep : out ++ (if push rec then [c] else []) ++ desc1 ++ desc = pushed ++ desc1 ++ desc)
      by (unfold pushed; destruct (push rec); [by rewrite <- app_assoc | done]). rewrite Ep.
    destruct (push rec && (max <=? zlen pushed)) eqn:Efull.
    + exists pushed. split; [done |]. rewrite <- (app_nil_r pushed) at 1. apply upto_ge. apply andb_true_iff in Efull as [_ ?]. lia.
    + destruct (H1 fuel pushed max ltac:(lia)) as (out1 & -> & U1). cbn [mbind option_bind].
      destruct (Hw fuel out1 max ltac:(lia)) as (out2 & -> & U2). exists out2. split; [done |].
      unfold upto in *. rewrite U2. rewrite app_assoc. by apply upto_app.
  - intros x. rewrite !elem_of_app, H2, Hd. assert (Erec : forall f, record_is drive f c = f rec) by (intros f; unfold record_is; by rewrite Ec). split.
    + intros [Hx | [[Hl Hx] | (c' & Hc' & Hx)]].
      * exists c. split; [left |]. left. rewrite Erec. destruct (push rec); [by apply list_elem_of_singleton in Hx | by apply elem_of_nil in Hx].
      * exists c. split; [left |]. right. by rewrite Erec.
      * exists c'. split; [by right | done].
    + intros (c' & [-> | Hc']%elem_of_cons & Hx); [|right; right; by exists c']. rewrite !Erec in Hx. destruct Hx as [[-> Hx] | Hx]; [left | right; by left].
      rewrite Hx. by apply list_elem_of_singleton.
Qed.

Context (rank : Z -> Z) (Hrank : forall i rec, zget (records drive) i = Some rec -> 0 <= parent_idx rec < zlen (records drive) ->
  (parent_idx rec <> i -> rank (parent_idx rec) < rank i) /\ (parent_idx rec = i -> live rec = false)).

Lemma child_rank d c rec : 0 <= d < zlen (records drive) -> zget (records drive) c = Some rec -> parent_idx rec = d -> live rec = true -> rank d < rank c.
Proof using Hrank.
  intros Hd Hr Hp Hl. destruct (Hrank c rec Hr) as [H1 H2]; [lia |]. rewrite Hp in *. apply H1. intros E. rewrite (H2 E) in Hl. done.
Qed.

Lemma walks_ok d : 0 <= d < zlen (records drive) -> exists n desc, walks n d desc /\ forall x, x ∈ desc <-> below_dir d x.
Proof using Hrank Ho Hsize Hpush.
  destruct (rank_bound rank (records drive)) as [bound Hbound].
  remember (Z.to_nat (bound - rank d)) as m eqn:Em. revert d Em.
  induction m as [m IH] using lt_wf_ind; intros d -> Hd.
  destruct (children_walk_ok (List.filter (fun i => record_is drive live i) (children_of drive d))) as (n & desc & Hw & Hx).
  { intros c rec [Hin Hlv]%elem_of_filterb Hr Hld. unfold record_is in Hlv. rewrite Hr in Hlv. apply (elem_of_children d c rec) in Hin; [|done..].
    pose proof (child_rank d c rec Hd Hr Hin Hlv) as Hlt. pose proof (Hbound c rec Hr). apply (IH (Z.to_nat (bound - rank c))); [lia | done |].
    by apply zget_Some in Hr as [? _]. }
  assert (Hfilter : forall cs walk max out, collect_children drive push live_dir walk max (List.filter (fun i => record_is drive live i) cs) out =
    collect_children drive push live_dir walk max cs out).
  { induction cs as [|c cs IHcs]; intros walk max out; [done |]. cbn [List.filter collect_children]. unfold record_is at 1.
    destruct (zget (records drive) c) as [rec|] eqn:Ec; [|done]. destruct (live rec) eqn:El.
    - cbn [collect_children]. rewrite Ec. cbv zeta. destruct (push rec && _); [done |]. destruct (if live_dir rec then _ else _); [|done]. apply IHcs.
    - assert (Ep : push rec = false) by (destruct (push rec) eqn:E; [by rewrite (Hpush _ E) in El | done]).
      assert (Ed : live_dir rec = false) by (unfold live_dir; rewrite El; apply andb_false_r). rewrite Ep, Ed. cbn [andb mbind option_bind]. apply IHcs. }
  exists (S n), desc. split.
  - intros [|fuel] out max Hf; [lia |]. cbn [collect]. destruct (Z.leb_spec max (zlen out)) as [Hfull | _].
    + exists out. split; [done |]. rewrite <- (app_nil_r out) at 1. by apply upto_ge.
    + rewrite <- Hfilter. apply Hw. lia.
  - intros x. rewrite Hx. unfold below_dir. setoid_rewrite elem_of_filterb.
    assert (Hrec : forall c, record_is drive live c = true -> c ∈ children_of drive d <-> exists rec, zget (records drive) c = Some rec /\ parent_idx rec = d /\ live rec = true).
    { intros c (rec & Hr & Hl)%record_is_true. rewrite (elem_of_children d c rec) by done. split; [by exists rec | intros (rec' & Hr' & E & _); congruence]. }
    split.
    + intros (c & [Hin Hlv] & Hc). apply (Hrec c Hlv) in Hin as (rec & Hr & Hp & Hl). destruct Hc as [[-> Hpu] | [Hdir [Hu Hpu]]].
      * split; [by eapply under_child | done].
      * split; [|done]. unfold record_is in Hdir. rewrite Hr in Hdir. by eapply under_step.
    + intros [Hu Hpu]. destruct Hu as [x rec Hr Hp Hl | c rec x Hr Hp Hdir Hu].
      * exists x. assert (Hlv : record_is drive live x = true) by (unfold record_is; by rewrite Hr). split; [|by left]. split; [|done]. apply (Hrec x Hlv). by exists rec.
      * exists c. assert (Hl : live rec = true) by (by apply andb_true_iff in Hdir as [_ ?]).
        assert (Hlv : record_is drive live c = true) by (unfold record_is; by rewrite Hr). split; [split; [|done]; apply (Hrec c Hlv); by exists rec |].
        right. split; [unfold record_is; by rewrite Hr | done].
Qed.
End collected.

(** What the search assumes of a drive: a sound case table, names that are stored bytes
    without a star, parent links without a cycle. *)
Record walkable : Prop := {
  wa_table : table_ok (fold drive);
  wa_bytes : byte_list (names drive);
  wa_star : forall rec, rec ∈ records drive -> no_star (name_chars (names drive) rec);
  wa_tree : tree_ok (records drive)
}.
Context (Hwalk : walkable).

Lemma drive_chars rec : scalars (name_chars (names drive) rec).
Proof using Hwalk Ho Hsize.
  unfold name_chars, str_chars. destruct (get_range _ _ _) as [bs |] eqn:E; [|constructor].
  change (default [] (Some bs)) with bs. destruct (utf8_decode bs) as [cs |] eqn:Ed; [|constructor]. eapply utf8_decode_scalars; [|exact Ed].
  eapply get_range_Forall; [|exact E]. apply (wa_bytes Hwalk).
Qed.

Lemma folded_no_star rec : rec ∈ records drive -> no_star (folded_name drive rec).
Proof using Hwalk Ho Hsize.
  intros Hr. unfold no_star, folded_name. rewrite wild_folded; [by apply (wa_star Hwalk) | apply (wa_table Hwalk) | apply drive_chars | apply star_wild].
Qed.

Lemma segment_matches_spec name segment : no_star name -> exists b, segment_matches name segment = Some b /\ (b = true <-> segment_spec name segment).
Proof using Type.
  clear. intros Hn. unfold segment_matches, unnamed, segment_spec, STARS.
  destruct (Z.eqb_spec (zlen name) 0) as [E%zlen_0 | E]; [exists false; naive_solver |].
  assert (Hne : name <> []) by (by intros ->). case_bool_decide as Ed; cbn [orb]; [exists false; naive_solver |].
  case_bool_decide as E1; [exists true; naive_solver |]. case_bool_decide as E2; [exists true; naive_solver |]. cbn [orb].
  destruct (is_wild segment); cbn [negb].
  - destruct (glob_match_spec name segment Hn) as (b & E3 & Hb). exists b. split; [done |]. rewrite Hb. naive_solver.
  - eexists. split; [done |]. rewrite bool_decide_eq_true. naive_solver.
Qed.

Lemma dir_matches_total segment rec : rec ∈ records drive -> exists b, dir_matches drive segment rec = Some b /\
  (b = true <-> is_directory rec = true /\ segment_spec (folded_name drive rec) (utf8_string segment)).
Proof using Hwalk Ho Hsize.
  intros Hr. unfold dir_matches. destruct (is_directory rec); [|exists false; naive_solver].
  destruct (segment_matches_spec (folded_name drive rec) (utf8_string segment) (folded_no_star rec Hr)) as (b & E & Hb). exists b. split; [done |]. tauto.
Qed.

(** A record with a folded name is live. *)
Lemma folded_live rec : folded_name drive rec <> [] -> live rec = true.
Proof using Type.
  intros H. apply (named_live drive). intros E. apply H. unfold folded_name. rewrite E. done.
Qed.

(** *** Levels *)

Lemma matching_children_spec segment cs out : exists hits, matching_children drive segment cs out = Some (out ++ hits) /\
  forall x, x ∈ hits <-> x ∈ cs /\ dir_named drive segment x.
Proof using Hwalk Ho Hsize.
  revert out. induction cs as [|c cs IH]; intros out; cbn [matching_children]; [exists []; rewrite app_nil_r; split; [done | set_solver] |].
  unfold dir_named in *. destruct (zget (records drive) c) as [rec|] eqn:Ec.
  - destruct (dir_matches_total segment rec) as (b & -> & Hb); [by eapply zget_elem |]. cbn [mbind option_bind].
    destruct (IH (if b then out ++ [c] else out)) as (hits & E & Hx). rewrite E. exists ((if b then [c] else []) ++ hits).
    split; [f_equal; destruct b; [by rewrite <- app_assoc | done] |]. intros x. rewrite elem_of_app, Hx, elem_of_cons. split.
    + intros [Hin | [Hin Hn]]; [|tauto]. destruct b; [|by apply elem_of_nil in Hin]. apply list_elem_of_singleton in Hin as ->.
      split; [by left |]. exists rec. split; [done |]. tauto.
    + intros [[-> | Hin] (rec' & Hr' & Hm)]; [left | right; split; [done | by exists rec']]. assert (rec' = rec) as -> by congruence.
      apply Hb in Hm as ->. by apply list_elem_of_singleton.
  - destruct (IH out) as (hits & E & Hx). exists hits. split; [done |]. intros x. rewrite Hx, elem_of_cons. split; [naive_solver |].
    intros [[-> | Hin] (rec' & Hr' & Hm)]; [congruence | eauto].
Qed.

Definition in_range (d : Z) : Prop := 0 <= d < zlen (records drive).

Lemma named_child segment d i : in_range d -> (i ∈ children_of drive d /\ dir_named drive segment i) <-> child drive d i /\ dir_named drive segment i.
Proof using Ho Hsize.
  intros Hd. split; intros [H1 (rec & Hr & Hdir & Hs)].
  - assert (Hl : live rec = true) by (apply folded_live, Hs). apply (elem_of_children d i rec Hd Hr Hl) in H1. split; by exists rec.
  - assert (Hl : live rec = true) by (apply folded_live, Hs). destruct H1 as (rec' & Hr' & Hp). assert (rec' = rec) as -> by congruence.
    split; [by apply (elem_of_children d i rec Hd Hr Hl) | by exists rec].
Qed.

Lemma next_dirs_spec segment dirs out : Forall in_range dirs -> exists hits, next_dirs drive segment dirs out = Some (out ++ hits) /\
  forall x, x ∈ hits <-> exists d, d ∈ dirs /\ child drive d x /\ dir_named drive segment x.
Proof using Hwalk Ho Hsize.
  intros Hd. revert out. induction Hd as [|d dirs Hd _ IH]; intros out; cbn [next_dirs]; [exists []; rewrite app_nil_r; split; [done | set_solver] |].
  destruct (matching_children_spec segment (children_of drive d) out) as (h1 & -> & H1). cbn [mbind option_bind].
  destruct (IH (out ++ h1)) as (h2 & -> & H2). exists (h1 ++ h2). rewrite app_assoc. split; [done |]. intros x.
  rewrite elem_of_app, H1, H2, named_child by done. setoid_rewrite elem_of_cons. naive_solver.
Qed.

Lemma collectors (push : CompactRecord -> bool) (Hpush : forall rec, push rec = true -> live rec = true) d : in_range d ->
  exists n desc, walks push n d desc /\ forall x, x ∈ desc <-> under drive d x /\ record_is drive push x = true.
Proof using Hwalk Ho Hsize. intros Hd. destruct (wa_tree Hwalk) as [rank Hrank]. by apply (walks_ok push Hpush rank Hrank). Qed.

Lemma live_dir_live rec : live_dir rec = true -> live rec = true.
Proof using Type. clear. by intros [_ ?]%andb_true_iff. Qed.

Lemma shown_live rec : shown_record drive rec = true -> live rec = true.
Proof using Type. clear. by intros [[? _]%andb_true_iff _]%andb_true_iff. Qed.

Lemma descendants_loop_spec dirs : Forall in_range dirs -> exists n desc,
  (forall fuel max out, (n <= fuel)%nat -> exists out', descendants_loop drive fuel max dirs out = Some out' /\ upto max out' (out ++ desc)) /\
  forall x, x ∈ desc <-> exists d, d ∈ dirs /\ under drive d x /\ record_is drive live_dir x = true.
Proof using Hwalk Ho Hsize.
  induction 1 as [|d dirs Hd _ (n & desc & H1 & H2)].
  { exists 0%nat, []. split; [intros fuel max out _; exists out; rewrite app_nil_r; by split | set_solver]. }
  destruct (collectors live_dir live_dir_live d Hd) as (n0 & desc0 & W & Hx). exists (n0 `max` n)%nat, (desc0 ++ desc). split.
  - intros fuel max out Hf. cbn [descendants_loop]. destruct (W fuel out max ltac:(lia)) as (out1 & E1 & U1). unfold collect_descendant_dirs. rewrite E1.
    cbn [mbind option_bind]. destruct (H1 fuel max out1 ltac:(lia)) as (out2 & -> & U2). exists out2. split; [done |].
    unfold upto in *. rewrite U2, app_assoc. by apply upto_app.
  - intros x. rewrite elem_of_app, Hx, H2. setoid_rewrite elem_of_cons. naive_solver.
Qed.

Lemma under_range d x : under drive d x -> in_range x.
Proof using Type. induction 1 as [d x rec Hr _ _ | d c rec x Hr _ _ _ IH]; [by apply zget_Some in Hr as [? _] | done]. Qed.

Lemma walk_segments_spec segments dirs : Forall in_range dirs -> exists n N D,
  (forall fuel limit, (n <= fuel)%nat -> (STARS ∈ segments -> N <= u64 (limit * 10)) -> walk_segments drive fuel limit segments dirs = Some D) /\
  (forall i, i ∈ D <-> exists d, d ∈ dirs /\ reaches drive segments d i) /\ Forall in_range D.
Proof using Hwalk Ho Hsize.
  revert dirs. induction segments as [|segment segments IH]; intros dirs Hd.
  { exists 0%nat, 0, dirs. split; [done |]. split; [|done]. intros i. split; [intros Hi; exists i; split; [done | constructor] |]. intros (d & Hin & Hr). by inversion Hr; subst. }
  assert (Hstep : exists n N next, (forall fuel limit, (n <= fuel)%nat -> (segment = STARS -> N <= u64 (limit * 10)) ->
      walk_segment drive fuel limit segment dirs = Some next) /\ Forall in_range next /\
    forall i, (exists d, d ∈ next /\ reaches drive segments d i) <-> exists d, d ∈ dirs /\ reaches drive (segment :: segments) d i).
  { unfold walk_segment. destruct (decide (segment = STARS)) as [-> | Hns].
    - destruct (descendants_loop_spec dirs Hd) as (n & desc & H1 & H2). exists n, (zlen desc + 1), desc.
      split; [|split].
      + intros fuel limit Hf HN. rewrite bool_decide_eq_true_2 by done. destruct (H1 fuel (u64 (limit * 10)) [] Hf) as (out' & -> & U). cbn [app] in U.
        f_equal. apply (upto_short _ _ _ U). right. specialize (HN eq_refl). lia.
      + apply Forall_forall. intros x (d & _ & Hu & _)%H2. by eapply under_range.
      + intros i. setoid_rewrite H2. split.
        * intros (e & (d & Hin & Hu & Hdir) & Hr). exists d. split; [done |]. by eapply reaches_stars.
        * intros (d & Hin & Hr). inversion Hr; subst; [|done]. exists e. split; [by exists d | done].
    - destruct (next_dirs_spec segment dirs [] Hd) as (hits & E & Hx). exists 0%nat, 0, hits. split; [|split].
      + intros fuel limit _ _. by rewrite bool_decide_eq_false_2.
      + apply Forall_forall. intros x (d & _ & (rec & Hr & _) & _)%Hx. by apply zget_Some in Hr as [? _].
      + intros i. setoid_rewrite Hx. split.
        * intros (e & (d & Hin & Hc & Hn) & Hr). exists d. split; [done |]. by eapply reaches_segment.
        * intros (d & Hin & Hr). inversion Hr; subst; [done |]. exists e. split; [by exists d | done]. }
  destruct Hstep as (n1 & N1 & next & E1 & Hrange & Hiff). destruct (IH next Hrange) as (n2 & N2 & D & E2 & HD & HDr).
  exists (n1 `max` n2)%nat, (Z.max N1 N2), D. split; [|split; [|done]].
  - intros fuel limit Hf HN. cbn [walk_segments]. rewrite E1; [| lia | intros ->; specialize (HN ltac:(left)); lia]. cbn [mbind option_bind].
    destruct (is_nil next) eqn:En; [|apply E2; [lia | intros Hin; specialize (HN ltac:(by right)); lia]].
    apply is_nil_true in En. subst next. destruct D as [|x D]; [done |]. exfalso. destruct (proj1 (HD x) ltac:(left)) as (d & Hin & _). by apply elem_of_nil in Hin.
  - intros i. by rewrite HD, Hiff.
Qed.
(** *** The leaf *)

Definition leaf_hit (leaf : list Z) : Z -> bool :=
  record_is drive (fun rec => bool_decide (name_matches (folded_name drive rec) (utf8_string leaf) = Some true)).

Lemma leaf_hit_true leaf i : leaf_hit leaf i = true <->
  exists rec, zget (records drive) i = Some rec /\ name_matches (folded_name drive rec) (utf8_string leaf) = Some true.
Proof using Type. unfold leaf_hit. rewrite record_is_true. setoid_rewrite bool_decide_eq_true. done. Qed.

Lemma leaf_children_spec leaf limit cs results : exists r (b : bool), leaf_children drive leaf limit cs results = Some (r, b) /\
  if b then limit <= zlen r /\ exists rest, r ++ rest = results ++ List.filter (leaf_hit leaf) cs else r = results ++ List.filter (leaf_hit leaf) cs.
Proof using Hwalk Ho Hsize.
  revert results. induction cs as [|c cs IH]; intros results; cbn [leaf_children List.filter].
  { exists results, false. split; [done |]. by rewrite app_nil_r. }
  assert (Eh : leaf_hit leaf c = match zget (records drive) c with
    Some rec => bool_decide (name_matches (folded_name drive rec) (utf8_string leaf) = Some true) | None => false end) by done.
  rewrite Eh. destruct (zget (records drive) c) as [rec|] eqn:Ec; [|apply IH].
  destruct (name_matches_spec (folded_name drive rec) (utf8_string leaf)) as (m & Em & _); [apply folded_no_star; by eapply zget_elem |].
  rewrite Em. cbn [mbind option_bind]. destruct m; [rewrite bool_decide_eq_true_2 by done | rewrite bool_decide_eq_false_2 by done; apply IH].
  cbv zeta. destruct (Z.leb_spec limit (zlen (results ++ [c]))) as [Hfull | _].
  - exists (results ++ [c]), true. split; [done |]. split; [done |]. exists (List.filter (leaf_hit leaf) cs). by rewrite <- app_assoc.
  - destruct (IH (results ++ [c])) as (r & b & E & Hb). exists r, b. rewrite <- app_assoc in Hb. done.
Qed.

Lemma leaf_child leaf d i : in_range d ->
  (i ∈ children_of drive d /\ exists rec, zget (records drive) i = Some rec /\ name_matches (folded_name drive rec) (utf8_string leaf) = Some true) <->
  child drive d i /\ exists rec, zget (records drive) i = Some rec /\ name_matches (folded_name drive rec) (utf8_string leaf) = Some true.
Proof using Ho Hsize.
  intros Hd. assert (Hlive : forall rec, name_matches (folded_name drive rec) (utf8_string leaf) = Some true -> live rec = true).
  { intros rec Hm. apply folded_live. intros E. by rewrite E in Hm. }
  split; intros [H1 (rec & Hr & Hm)].
  - apply (elem_of_children d i rec Hd Hr (Hlive rec Hm)) in H1. split; by exists rec.
  - destruct H1 as (rec' & Hr' & Hp). assert (rec' = rec) as -> by congruence. split; [by apply (elem_of_children d i rec Hd Hr (Hlive rec Hm)) | by exists rec].
Qed.

(** The last step from the directories of a list. *)
Lemma leaf_spec leaf dirs : Forall in_range dirs -> exists n l,
  (forall fuel limit, (n <= fuel)%nat -> exists l',
    (if bool_decide (leaf = STARS) then all_loop drive fuel limit dirs [] else leaf_loop drive leaf limit dirs []) = Some l' /\ upto limit l' l) /\
  forall i, i ∈ l <-> exists d, d ∈ dirs /\ ends drive leaf d i.
Proof using Hwalk Ho Hsize.
  intros Hd. unfold ends. enough (H : exists n l, (forall fuel limit results, (n <= fuel)%nat -> exists l',
    (if bool_decide (leaf = STARS) then all_loop drive fuel limit dirs results else leaf_loop drive leaf limit dirs results) = Some l' /\ upto limit l' (results ++ l)) /\
    forall i, i ∈ l <-> exists d, d ∈ dirs /\ ends drive leaf d i).
  { destruct H as (n & l & H1 & H2). exists n, l. split; [|done]. intros fuel limit Hf. by apply (H1 fuel limit []). }
  unfold ends. case_bool_decide as El.
  - induction Hd as [|d dirs Hd _ (n & l & H1 & H2)].
    { exists 0%nat, []. split; [intros fuel limit results _; exists results; rewrite app_nil_r; by split | set_solver]. }
    destruct (collectors (shown_record drive) shown_live d Hd) as (n0 & desc & W & Hx). exists (n0 `max` n)%nat, (desc ++ l). split.
    + intros fuel limit results Hf. cbn [all_loop]. unfold collect_all_descendants. destruct (W fuel results limit ltac:(lia)) as (out1 & -> & U1).
      cbn [mbind option_bind]. rewrite app_assoc. destruct (Z.leb_spec limit (zlen out1)) as [Hfull | _].
      * exists out1. split; [done |]. apply (upto_app _ _ _ l) in U1. unfold upto in *. rewrite <- U1. rewrite <- (app_nil_r out1) at 1. by apply upto_ge.
      * destruct (H1 fuel limit out1 ltac:(lia)) as (l' & -> & U2). exists l'. split; [done |]. unfold upto in *. rewrite U2. by apply upto_app.
    + intros x. rewrite elem_of_app, Hx, H2. setoid_rewrite elem_of_cons. naive_solver.
  - induction Hd as [|d dirs Hd _ (n & l & H1 & H2)].
    { exists 0%nat, []. split; [intros fuel limit results _; exists results; rewrite app_nil_r; by split | set_solver]. }
    exists n, (List.filter (leaf_hit leaf) (children_of drive d) ++ l). split.
    + intros fuel limit results Hf. cbn [leaf_loop]. destruct (leaf_children_spec leaf limit (children_of drive d) results) as (r & b & -> & Hb).
      cbn [mbind option_bind fst snd]. rewrite app_assoc. destruct b.
      * destruct Hb as [Hfull (rest & E)]. exists r. split; [done |]. rewrite <- E, <- app_assoc. rewrite <- (app_nil_r r) at 1. by apply upto_ge.
      * subst r. exact (H1 fuel limit _ Hf).
    + intros x. rewrite elem_of_app, elem_of_filterb, leaf_hit_true, (leaf_child leaf d x Hd), H2. setoid_rewrite elem_of_cons. naive_solver.
Qed.
(** *** The first segment *)

Context (sort_by_len : list (list Z) -> list (list Z)).
Context (Hschedule : forall ws, schedule ws ≡ₚ ws) (Hsort : forall ls, sort_by_len ls ≡ₚ ls).

(** A segment the trigram index can answer: too short for it, or folded and without
    wildcards, with none of its trigrams pruned. *)
Definition indexable (segment : list Z) : Prop :=
  scalars segment /\ forall ts, needle_trigrams (fold drive) segment = Some ts ->
    is_wild (utf8_string segment) = false /\ map (fold_cp (fold drive)) segment = segment /\
    forall t, t ∈ ts -> ~ pruned drive records0 names0 t.

(** A folded segment in a folded name has its trigrams among the name's. *)
Lemma contained_trigrams segment ts rec t : scalars segment -> map (fold_cp (fold drive)) segment = segment ->
  needle_trigrams (fold drive) segment = Some ts -> substring (utf8_string segment) (folded_name drive rec) -> t ∈ ts -> t ∈ tris drive rec.
Proof using Hwalk Ho Hsize.
  intros Hsc Hfix Hts Hs Ht. unfold folded_name in Hs. rewrite fold_into_exact in Hs by (apply drive_chars || apply (wa_table Hwalk)).
  rewrite utf8_string_substring in Hs by (done || (apply fold_cps_scalar; [apply (wa_table Hwalk) | apply drive_chars])).
  rewrite <- trigrams_of_name. destruct (needle_trigrams_found (fold drive) segment (name_chars (names drive) rec) ts t) as (ns & -> & Hns);
    [apply (wa_table Hwalk) | done | apply drive_chars | by rewrite Hfix | done | done |]. done.
Qed.

Lemma named_trigrams segment ts rec t : indexable segment -> needle_trigrams (fold drive) segment = Some ts ->
  segment_spec (folded_name drive rec) (utf8_string segment) -> t ∈ ts -> t ∈ tris drive rec.
Proof using Hwalk Ho Hsize.
  intros [Hsc Hi] Hts (_ & _ & Hs) Ht. destruct (Hi ts Hts) as (Hw & Hfix & _). rewrite Hw in Hs.
  apply (contained_trigrams segment ts); try done.
  destruct Hs as [Hs | [Hs | Hs]]; [unfold is_wild in Hw; by rewrite Hs in Hw.. |]. rewrite Hs. exists [], []. by rewrite app_nil_r.
Qed.

(** Candidates that have every trigram of a segment miss no record whose name has them. *)
Lemma trigram_records segment predicate kept limit :
  (forall rec, rec ∈ records drive -> predicate rec = Some (kept rec)) -> 0 <= limit ->
  (forall ts, needle_trigrams (fold drive) segment = Some ts -> (forall t, t ∈ ts -> ~ pruned drive records0 names0 t) /\
    forall rec, rec ∈ records drive -> kept rec = true -> live rec = true /\ forall t, t ∈ ts -> t ∈ tris drive rec) ->
  trigram_filtered_records sort_by_len drive segment limit predicate = Some (take (Z.to_nat limit) (indices_where kept (records drive))).
Proof using Ho Hsize Hschedule Hsort.
  intros Hk Hl Hts. unfold trigram_filtered_records, collect_match_indices.
  destruct (trigram_search sort_by_len drive segment) as [l|] eqn:El; [|apply (full_scan _ _ _ Hk); unfold U32_MAX in *; lia].
  apply (candidate_scan _ _ _ Hk); [done | by eapply (trigram_search_ascending schedule sort_by_len) |].
  intros i rec Hr Hkept. destruct (needle_trigrams (fold drive) segment) as [ts|] eqn:Ets.
  2: { exfalso. revert El. unfold trigram_search, search. destruct (delta drive); by rewrite Ets. }
  destruct (Hts ts eq_refl) as [Hp Hall]. destruct (Hall rec) as [Hlive Htr]; [by eapply zget_elem | done |].
  destruct (trigram_search_keeps schedule sort_by_len Hschedule Hsort drive records0 names0 segment ts i rec) as (l' & E' & Hl'); try done.
  congruence.
Qed.

(** A pattern of one segment, folded and not pruned: the names it is in. *)
Lemma single_segment_spec pattern segment fuel limit : segments_of pattern = [segment] -> scalars segment -> 0 <= limit ->
  (forall ts, needle_trigrams (fold drive) segment = Some ts ->
    map (fold_cp (fold drive)) segment = segment /\ forall t, t ∈ ts -> ~ pruned drive records0 names0 t) ->
  tree_search sort_by_len drive fuel pattern limit =
    Some (take (Z.to_nat limit) (indices_where (fun rec => default false (single_segment drive segment rec)) (records drive))).
Proof using Hwalk Ho Hsize Hschedule Hsort.
  intros Es Hsc Hl Hts. unfold tree_search. rewrite Es. apply trigram_records; [done | done |]. intros ts E. destruct (Hts ts E) as [Hfix Hp].
  split; [done |]. intros rec _ Hk. cbn [single_segment default] in Hk. apply andb_true_iff in Hk as [[Hne _]%andb_true_iff Hc%contains_str_spec].
  split; [apply folded_live; intros E0; by rewrite E0 in Hne |]. intros t Ht. by apply (contained_trigrams segment ts).
Qed.

Definition dir_kept (segment : list Z) (rec : CompactRecord) : bool := bool_decide (dir_matches drive segment rec = Some true).

Lemma dir_keeps segment rec : rec ∈ records drive -> dir_matches drive segment rec = Some (dir_kept segment rec).
Proof using Hwalk Ho Hsize.
  intros Hr. unfold dir_kept. destruct (dir_matches_total segment rec Hr) as (b & -> & _). by destruct b.
Qed.

Lemma first_dirs_spec segment : segment = STARS \/ indexable segment -> exists D, first_dirs sort_by_len drive segment = Some D /\
  (forall d, d ∈ D <-> starts drive segment d) /\ Forall in_range D.
Proof using Hwalk Ho Hsize Hschedule Hsort.
  intros Hseg. unfold first_dirs, starts. case_bool_decide as Est.
  { eexists. split; [done |]. assert (H : forall d, d ∈ map (fun p : Z * CompactRecord => len_to_u32 p.1)
      (List.filter (fun p => is_directory p.2 && live p.2) (enumerate (records drive))) <-> record_is drive live_dir d = true).
    { intros d. rewrite list_elem_of_In, in_map_iff, record_is_true. split.
      - intros ([i rec] & <- & Hin%list_elem_of_In). apply elem_of_filterb in Hin as [Hin%elem_of_enumerate Hl]. cbn [fst snd] in *.
        pose proof Hin as [Hi _]%zget_Some. unfold len_to_u32. destruct (Z.leb_spec i U32_MAX); [by exists rec | lia].
      - intros (rec & Hr & Hl). exists (d, rec). pose proof Hr as [Hi _]%zget_Some. cbn [fst]. split.
        + unfold len_to_u32. destruct (Z.leb_spec d U32_MAX); [done | lia].
        + apply list_elem_of_In, elem_of_filterb. split; [by apply elem_of_enumerate | done]. }
    split; [exact H |]. apply Forall_forall. intros d (rec & Hr & _)%H%record_is_true. by apply zget_Some in Hr as [? _]. }
  destruct Hseg as [? | Hseg]; [done |]. exists (indices_where (dir_kept segment) (records drive)).
  assert (Hd : forall d, d ∈ indices_where (dir_kept segment) (records drive) <-> dir_named drive segment d).
  { intros d. rewrite elem_of_indices_where. unfold dir_named. split; intros (rec & Hr & Hk); exists rec; (split; [done |]);
      destruct (dir_matches_total segment rec ltac:(by eapply zget_elem)) as (b & E & Hb); unfold dir_kept in *; rewrite E in *.
    - apply bool_decide_eq_true in Hk. injection Hk as ->. by apply Hb.
    - apply bool_decide_eq_true. f_equal. by apply Hb. }
  split; [|split; [exact Hd |]].
  2: { apply Forall_forall. intros d (rec & Hr & _)%Hd. by apply zget_Some in Hr as [? _]. }
  assert (Hall : take (Z.to_nat U64_MAX) (indices_where (dir_kept segment) (records drive)) = indices_where (dir_kept segment) (records drive)).
  { apply take_ge. pose proof (indices_where_length (dir_kept segment) (records drive)). unfold zlen, U32_MAX, U64_MAX in *. lia. }
  rewrite <- Hall. apply trigram_records; [apply dir_keeps | unfold U64_MAX; lia |]. intros ts Ets. destruct Hseg as [Hsc Hi].
  split; [by apply (Hi ts Ets) |]. intros rec Hin Hk. destruct (dir_matches_total segment rec Hin) as (b & E & Hb). unfold dir_kept in Hk. rewrite E in Hk.
  apply bool_decide_eq_true in Hk. injection Hk as ->. destruct (proj1 Hb eq_refl) as [_ Hs]. split; [apply folded_live, Hs |].
  intros t Ht. by apply (named_trigrams segment ts).
Qed.

(** *** The search *)

Lemma tree_search_spec pattern first middle leaf : segments_of pattern = first :: middle ++ [leaf] -> first = STARS \/ indexable first ->
  exists l n N, (forall i, i ∈ l <-> on_pattern drive first middle leaf i) /\
    forall fuel limit, (n <= fuel)%nat -> (STARS ∈ middle -> N <= u64 (limit * 10)) ->
      exists l', tree_search sort_by_len drive fuel pattern limit = Some l' /\ upto limit l' l.
Proof using Hwalk Ho Hsize Hschedule Hsort.
  intros Es Hf. destruct (first_dirs_spec first Hf) as (D0 & E0 & H0 & R0). destruct (walk_segments_spec middle D0 R0) as (n1 & N & D & E1 & H1 & R1).
  destruct (leaf_spec leaf D R1) as (n2 & l & E2 & H2). exists l, (n1 `max` n2)%nat, N. split.
  - intros i. rewrite H2. unfold on_pattern. setoid_rewrite H1. setoid_rewrite H0. naive_solver.
  - intros fuel limit Hfuel HN. unfold tree_search. rewrite Es. destruct (middle ++ [leaf]) as [|s0 ss] eqn:Em; [by destruct middle |].
    rewrite <- Em. rewrite E0. cbn [mbind option_bind]. rewrite removelast_last, last_last. rewrite (E1 fuel limit) by (lia || done).
    cbn [mbind option_bind]. apply E2. lia.
Qed.
End exact.

(** * Theorems *)

(** C6: a path pattern of two segments or more finds its language, under the conditions of the
    walk: the drive is reachable, no name has a star, the parent links have no cycle, and the
    first segment is two stars or one the trigram index can look up ([indexable]: too short for
    it, or folded, without wildcards and with no pruned trigram).  The search then returns, and with a limit it gives
    the first [limit] of one list: exactly the records that are at the end of a path the
    pattern describes, the first segment any directory of that name, every further segment one
    level, two stars one level or more.  Two stars in the middle moreover need a limit that
    leaves room for all the directories they pass, ten times the limit being the cap. *)
Theorem tree_search_exact schedule to_lowercase sort_by_len drive records0 names0 pattern first middle leaf :
  (forall ws, schedule ws ≡ₚ ws) -> (forall ls, sort_by_len ls ≡ₚ ls) ->
  reachable schedule to_lowercase drive records0 names0 -> zlen (records drive) <= U32_MAX -> walkable drive ->
  segments_of pattern = first :: middle ++ [leaf] -> first = STARS \/ indexable drive records0 names0 first ->
  exists l n N, (forall i, i ∈ l <-> on_pattern drive first middle leaf i) /\
    forall fuel limit, (n <= fuel)%nat -> (STARS ∈ middle -> N <= u64 (limit * 10)) ->
      exists l', tree_search sort_by_len drive fuel pattern limit = Some l' /\
        take (Z.to_nat limit) l' = take (Z.to_nat limit) l /\ (zlen l < limit -> l' = l).
Proof.
  intros Hsch Hsort [_ Ho]%reachable_invariant Hz Hw Es Hf.
  destruct (tree_search_spec drive schedule records0 names0 Ho Hz Hw sort_by_len Hsch Hsort pattern first middle leaf Es Hf) as (l & n & N & H1 & H2).
  exists l, n, N. split; [done |]. intros fuel limit Hfu HN. destruct (H2 fuel limit Hfu HN) as (l' & E & U). exists l'. split_and!; [done | done |].
  intros Hl. apply (upto_short limit); [done | by right].
Qed.

(** The rows of a path search are those of the matches that pass the record filters, up to
    the limit, each with the path it has alone; so with an extension filter, and without
    one when the limit exceeds the number of matches. *)
Theorem tree_rows_exact schedule to_lowercase lower_char trim sort_by_len drive letter render filters records0 names0 pattern first middle leaf :
  (forall ws, schedule ws ≡ₚ ws) -> (forall ls, sort_by_len ls ≡ₚ ls) ->
  reachable schedule to_lowercase drive records0 names0 -> zlen (records drive) <= U32_MAX -> walkable drive ->
  (forall i, 0 <= i < zlen (records drive) -> shallow drive i) ->
  segments_of pattern = first :: middle ++ [leaf] -> first = STARS \/ indexable drive records0 names0 first ->
  exists l n N, (forall i, i ∈ l <-> on_pattern drive first middle leaf i) /\
    forall fuel limit, (n <= fuel)%nat -> 0 <= limit -> (STARS ∈ middle -> N <= u64 (tree_scan_limit to_lowercase trim drive filters limit * 10)) ->
      zlen l < tree_scan_limit to_lowercase trim drive filters limit ->
      search_compact_drive_tree sort_by_len to_lowercase lower_char trim drive letter render filters fuel pattern limit =
      Some (omap (row_alone drive letter (stack_volume_prefix letter) render)
        (take (Z.to_nat limit) (List.filter (record_is drive (fun rec => bool_decide
          (row_passes to_lowercase lower_char trim drive filters rec = Some true))) l))).
Proof.
  intros Hsch Hsort Hr Hz Hw Hsh Es Hf. pose proof Hr as [Hwf Ho]%reachable_invariant.
  destruct (tree_search_spec drive schedule records0 names0 Ho Hz Hw sort_by_len Hsch Hsort pattern first middle leaf Es Hf) as (l & n & N & H1 & H2).
  exists l, n, N. split; [done |]. intros fuel limit Hfu Hl HN Hlen. destruct (H2 fuel _ Hfu HN) as (l' & E & U).
  assert (El : l' = l) by (apply (upto_short _ _ _ U); by right). subst l'. unfold search_compact_drive_tree. rewrite E. cbn [mbind option_bind].
  set (passes := row_passes to_lowercase lower_char trim drive filters).
  assert (Hp : forall rec, rec ∈ records drive -> passes rec = Some (bool_decide (passes rec = Some true))).
  { intros rec Hin. unfold passes, row_passes. destruct (is_nil _) eqn:En; [done |].
    destruct (matches_record_total to_lowercase lower_char (tree_filters to_lowercase trim drive filters) (fold drive) (names drive) rec) as (b & ->); [|by destruct b].
    rewrite name_str_chars. by apply (folded_no_star drive schedule records0 names0 Ho Hz Hw). }
  rewrite (collect_candidates_spec _ _ _ Hp) by done. cbn [mbind option_bind app]. f_equal.
  assert (Hrange : Forall (shallow drive) (take (Z.to_nat limit) (List.filter (record_is drive (fun rec => bool_decide (passes rec = Some true))) l))).
  { apply Forall_take, Forall_forall. intros i [_ (rec & [Hi _]%zget_Some & _)%record_is_true]%elem_of_filterb. by apply Hsh. }
  apply rows_loop_spec; [apply Hwf | unfold U32_MAX in Hz; lia | apply coherent_empty | exact Hrange].
Qed.

(** ** Samples *)

(** [docs\*] on the sample drive, folded. *)
Definition docs_star : list Z := [68; 79; 67; 83; BACKSLASH; STAR].

Lemma folding_walkable : walkable folding_drive.
Proof.
  split.
  - apply ascii_table_ok.
  - by apply (bool_decide_unpack _).
  - intros rec Hr. each_elem Hr; by apply (bool_decide_unpack _).
  - by apply (tree_okb_ok (fun i => i)).
Qed.

Lemma docs_indexable : indexable folding_drive sample_records sample_names [68; 79; 67; 83].
Proof.
  split; [by apply (bool_decide_unpack _) |]. intros ts E. vm_compute in E. injection E as <-.
  split; [reflexivity |]. split; [reflexivity |]. intros t Ht [_ Hp]. each_elem Ht; by vm_compute in Hp.
Qed.

Lemma tree_search_exact_witness : exists l n, (forall i, i ∈ l <-> on_pattern folding_drive [68; 79; 67; 83] [] [STAR] i) /\
  forall fuel, (n <= fuel)%nat -> exists l', tree_search (@rev _) folding_drive fuel docs_star 5 = Some l' /\ take 5 l' = take 5 l.
Proof.
  destruct (tree_search_exact (@rev _) id (@rev _) folding_drive sample_records sample_names docs_star [68; 79; 67; 83] [] [STAR]
    rev_permutation rev_permutation folding_reachable ltac:(vm_compute; discriminate) folding_walkable eq_refl (or_intror docs_indexable))
    as (l & n & N & H1 & H2).
  exists l, n. split; [exact H1 |]. intros fuel Hf. destruct (H2 fuel 5 Hf) as (l' & E & Ht & _); [intros Hin; exfalso; inversion Hin |].
  exists l'. split; [exact E | exact Ht].
Defined.

Lemma folding_shallow i : 0 <= i < zlen (records folding_drive) -> shallow folding_drive i.
Proof.
  intros Hi. change (zlen (records folding_drive)) with 3 in Hi. assert (H : i = 0 \/ i = 1 \/ i = 2) by lia.
  destruct H as [-> | [-> | ->]].
  - exists []. split; [by eapply anc_stop | unfold MAX_ROUNDS; cbn; lia].
  - exists [1]. split; [by eapply anc_top | unfold MAX_ROUNDS; cbn; lia].
  - exists [2; 1]. split; [eapply anc_step; [done | done | done |]; by eapply anc_top | unfold MAX_ROUNDS; cbn; lia].
Qed.

Definition no_filters : SearchFilters :=
  mkSearchFilters false false None None None None None None None None 0 0 None None [] [] None None None None None None None None None None
    None None None None None None [] None None.

Lemma tree_rows_exact_witness : exists l n, (forall i, i ∈ l <-> on_pattern folding_drive [68; 79; 67; 83] [] [STAR] i) /\
  forall fuel, (n <= fuel)%nat -> zlen l < U32_MAX -> exists rows,
    search_compact_drive_tree (@rev _) id (fun c => [c]) id folding_drive 67 Lossy no_filters fuel docs_star U32_MAX = Some rows.
Proof.
  destruct (tree_rows_exact (@rev _) id (fun c => [c]) id (@rev _) folding_drive 67 Lossy no_filters sample_records sample_names docs_star [68; 79; 67; 83] [] [STAR]
    rev_permutation rev_permutation folding_reachable ltac:(vm_compute; discriminate) folding_walkable folding_shallow eq_refl (or_intror docs_indexable))
    as (l & n & N & H1 & H2).
  exists l, n. split; [exact H1 |]. intros fuel Hf Hl. eexists. apply (H2 fuel U32_MAX Hf).
  - unfold U32_MAX. lia.
  - intros Hin. exfalso. inversion Hin.
  - exact Hl.
Defined.

(** [aaa], [aaa\aaa] and in it ten directories, the last of them with a file [b]. *)
Definition nested_records : list CompactRecord :=
  [sample_record U32_MAX 0 3 0 0x10 6; sample_record 0 0 3 0 0x10 10] ++
  repeat (sample_record 1 3 1 0 0x10 12) 10 ++ [sample_record 11 4 1 0 0 14].
Definition nested_drive : DriveCompactIndex :=
  compact_base (@rev _) (mkDriveCompactIndex nested_records [65; 65; 65; 88; 66] (mkTrigramIndex [] [] []) (mkChildrenIndex [] [])
    (mkExtensionIndex [] []) ascii_table [[]] None [] None).

(** What a path search misses, or finds twice.  A wildcard in a first segment of three
    characters or more is taken for a character by the trigram index, so [d?cs\*] finds nothing; two stars in
    the middle are one level or more, where the manual has zero or more, so [docs\**\a.txt]
    does not find [docs\a.txt]; a search that respects case compares the pattern with upper-cased
    names, so [docs\*] finds nothing; a pattern of one segment is a substring, so [\a*] finds
    nothing; nested directories of the first name have their common descendants twice; and
    with a limit of 1 the walk stops at ten directories and misses the only match. *)
Theorem tree_search_misses :
  (dir_named folding_drive [68; QUESTION; 67; 83] 1 /\ child folding_drive 1 2 /\
    tree_search (@rev _) folding_drive 9 [68; QUESTION; 67; 83; BACKSLASH; STAR] U64_MAX = Some []) /\
  (dir_named folding_drive [68; 79; 67; 83] 1 /\ child folding_drive 1 2 /\
    tree_search (@rev _) folding_drive 9 ([68; 79; 67; 83; BACKSLASH; STAR; STAR; BACKSLASH; 65; 46; 84; 88; 84]) U64_MAX = Some []) /\
  (tree_search (@rev _) folding_drive 9 docs_star U64_MAX = Some [2] /\
    tree_search (@rev _) folding_drive 9 [100; 111; 99; 115; BACKSLASH; STAR] U64_MAX = Some []) /\
  tree_search (@rev _) folding_drive 9 [BACKSLASH; 65; STAR] U64_MAX = Some [] /\
  tree_search (@rev _) nested_drive 9 [65; 65; 65; BACKSLASH; STAR; STAR; BACKSLASH; 66] U64_MAX = Some [12; 12] /\
  tree_search (@rev _) nested_drive 9 [65; 65; 65; BACKSLASH; STAR; STAR; BACKSLASH; 66] 1 = Some [].
Proof.
  assert (Hc : child folding_drive 1 2) by (eexists; split; reflexivity).
  assert (Hn : forall seg, segment_matches (folded_name folding_drive (sample_record U32_MAX 1 4 0 0x10 7)) (utf8_string seg) = Some true ->
    dir_named folding_drive seg 1).
  { intros seg Hm. exists (sample_record U32_MAX 1 4 0 0x10 7). split; [reflexivity |]. split; [reflexivity |].
    destruct (segment_matches_spec (folded_name folding_drive (sample_record U32_MAX 1 4 0 0x10 7)) (utf8_string seg)) as (b & E & Hb);
      [by apply (bool_decide_unpack _) | rewrite Hm in E; injection E as <-; by apply Hb]. }
  split_and!; try done; try (apply Hn; by vm_compute); by vm_compute.
Qed.
