(* ===== verification/Dispatch.v ===== *)
(** A search over the loaded drives: [search_index] and [MultiDriveBackend::search]
    ([crates/uffs-core/src/search/backend.rs]), the rewrites and branches of
    [search/dispatch.rs], the regex scan and [collect_global_top_n] of
    [search/query/mod.rs], and [split_drive_prefix]
    ([crates/uffs-mft/src/platform/drive_pattern.rs]).

    Patterns are UTF-8 bytes; the searches of a drive take their characters.  A drive comes
    with its letter.  [None] is a search that does not return within the fuel, or a name
    pattern that does not. *)
From stdpp Require Import strings sorting.
From S2P Require Import Prelude Text Ordering CaseFold Calendar Glob CsrIndex TrigramIndex IndexDelta Bloom CompactIndex PathLen UsnBatch UsnPatch NameSearch Filters Fields TopN PathResolve Derived QueryText RowFilters RowSort TopRows PathWalks TreeSearch.
Local Open Scope Z_scope.
Local Open Scope rust_scope.

(** * The rewrites of a pattern *)

Definition is_ascii_alphabetic (b : Z) : bool := Prelude.in_range 65 90 b || Prelude.in_range 97 122 b.

(** [DriveLetter::parse]. *)
Definition parse_letter (c : Z) : option Z :=
  let upper := ascii_upper c in if Prelude.in_range 65 90 upper then Some upper else None.

Fixpoint trim_start_separators (s : list Z) : list Z :=
  match s with
  | [] => []
  | c :: rest => if (c =? BACKSLASH) || (c =? SLASH) then trim_start_separators rest else s
  end.

Definition MATCH_ALL : list Z := [STAR].

Definition split_drive_prefix (pattern : list Z) : option (Z * list Z) :=
  let? first := zget pattern 0 in
  if negb (is_ascii_alphabetic first) then None else
  let? second := zget pattern 1 in
  if negb (second =? COLON) then None else
  let? rest := get_from pattern 2 in
  let? drive := parse_letter first in
  let core := trim_start_separators rest in
  Some (drive, if is_nil core then MATCH_ALL else core).

(** An extension: letters, digits and underscores. *)
Definition is_word_byte (b : Z) : bool := Prelude.in_range 48 57 b || is_ascii_alphabetic b || (b =? 95).
Definition pure_ext (rest : list Z) : bool := negb (is_nil rest) && forallb is_word_byte rest.

Definition is_pure_ext_glob (pattern : list Z) : bool :=
  match strip_prefix (bytes_of "*.") pattern with Some rest => pure_ext rest | None => false end.

Definition extract_extensions_from_regex (pattern : list Z) : option (list (list Z)) :=
  let? body := strip_prefix (bytes_of ">") pattern in
  if is_nil body then None else
  let body := default body (strip_prefix (bytes_of "(?i)") body) in
  let body := default body (strip_prefix (bytes_of "^") body) in
  let body := default body (strip_prefix (bytes_of ".*") body) in
  let? body := strip_prefix (bytes_of "\.") body in
  let? body := strip_suffix (bytes_of "$") body in
  let exts :=
    match (let? rest := strip_prefix (bytes_of "(") body in strip_suffix (bytes_of ")") rest) with
    | Some group => map to_ascii_lowercase (split_byte BAR group)
    | None => [to_ascii_lowercase body]
    end in
  if forallb pure_ext exts then Some exts else None.

(** What the rewrites leave: the pattern, the filters and the promoted drives. *)
Record Rewritten := mkRewritten { rw_pattern : list Z; rw_filters : SearchFilters; rw_drives : list Z }.

Definition push_extensions (f : SearchFilters) (exts : list (list Z)) : SearchFilters := set_extensions f (extensions f ++ exts).

Definition apply_dispatch_safety_nets (pattern : list Z) (match_path case_sensitive drives_filter_empty : bool)
    (search_filters : SearchFilters) : Rewritten :=
  let '(pattern, drive_buf) :=
    match (if drives_filter_empty && negb match_path then split_drive_prefix pattern else None) with
    | Some (letter, rest) => (rest, [letter])
    | None => (pattern, [])
    end in
  let '(pattern, search_filters) :=
    if negb match_path && negb case_sensitive && is_nil (extensions search_filters) && is_pure_ext_glob pattern
    then (MATCH_ALL, push_extensions search_filters [to_ascii_lowercase (default [] (strip_prefix (bytes_of "*.") pattern))])
    else (pattern, search_filters) in
  match (if negb match_path && negb case_sensitive && is_nil (extensions search_filters) then extract_extensions_from_regex pattern else None) with
  | Some exts => mkRewritten MATCH_ALL (push_extensions search_filters exts) drive_buf
  | None => mkRewritten pattern search_filters drive_buf
  end.

Definition fold_needle (case_sensitive : bool) (pattern table : list Z) : list Z :=
  if case_sensitive then pattern else fold_into table (str_chars pattern).

(** * The functions of the libraries *)

(** The functions of the standard library and of crates a search calls. *)
Record Library := mkLibrary {
  to_lowercase : list Z -> list Z; lower_char : Z -> list Z; trim : list Z -> list Z;
  sort_by_len : list (list Z) -> list (list Z);
  sort_unstable_by_key : (HeapEntry -> Z) -> list HeapEntry -> list HeapEntry;
  sort_unstable_by : forall A, (A -> A -> comparison) -> list A -> list A;
  par_sort_unstable_by : forall A, (A -> A -> comparison) -> list A -> list A;
  heap_iter : list HeapEntry -> list HeapEntry;
  bloom_hash : Z -> list Z -> Z;
  (** [RegexBuilder::new(..).case_insensitive(..).build()] and [is_match]. *)
  build_regex : bool -> list Z -> option (list Z -> bool)
}.

(** Sorts sort, and draining a heap gives its elements. *)
Record library_ok (L : Library) : Prop := {
  lo_sort_by_len : forall ls, sort_by_len L ls ≡ₚ ls;
  lo_sort_by_key : sorts (sort_unstable_by_key L);
  lo_sort : sorting (sort_unstable_by L);
  lo_par_sort : sorting (par_sort_unstable_by L);
  lo_heap : forall l, heap_iter L l ≡ₚ l
}.

Record SearchRequest := mkSearchRequest {
  req_pattern : list Z; req_mode : SearchMode; result_limit : option Z; req_filter_mode : FilterMode;
  search_filters : SearchFilters; drives_filter : list Z
}.

(** The rows and the records scanned; durations are left out. *)
Record SearchResult := mkSearchResult { res_rows : list DisplayRow; records_scanned : Z }.

Definition no_result : SearchResult := mkSearchResult [] 0.

Section search.
Context (L : Library) (render : MalformedRender) (fuel : nat).

Abbreviation record_filter f d :=
  (matches_record (to_lowercase L) (lower_char L) (resolve_ext_ids_for_drive (to_lowercase L) (trim L) f d.1) (fold d.1) (names d.1)).
Abbreviation rows_of d indices := (indices_to_rows d.1 d.2 (stack_volume_prefix d.2) render indices).

(** * A drive *)

Definition name_rows (needle : list Z) (mode : SearchMode) (limit : Z) (f : SearchFilters) (d : DriveCompactIndex * Z) : option (list DisplayRow) :=
  let? indices := search_compact_drive (sort_by_len L) d.1 (str_chars needle) mode (record_filter f d) fuel limit in
  Some (rows_of d indices).

Definition prefix_rows (prefix : list Z) (case_sensitive : bool) (limit : Z) (f : SearchFilters) (d : DriveCompactIndex * Z) : option (list DisplayRow) :=
  let? indices := search_compact_drive_prefix (sort_by_len L) d.1 (str_chars prefix) (negb case_sensitive) (record_filter f d) limit in
  Some (rows_of d indices).

Definition tree_rows (needle : list Z) (limit : Z) (f : SearchFilters) (d : DriveCompactIndex * Z) : option (list DisplayRow) :=
  search_compact_drive_tree (sort_by_len L) (to_lowercase L) (lower_char L) (trim L) d.1 d.2 render f fuel (str_chars needle) limit.

Definition regex_keep (is_match : list Z -> bool) (f : SearchFilters) (d : DriveCompactIndex * Z) (rec : CompactRecord) : option bool :=
  let name := name_str (names d.1) rec in
  if negb (is_nil name) && is_match name then record_filter f d rec else Some false.

(** [search_compact_drive_regex]. *)
Definition regex_rows (is_match : list Z -> bool) (limit : Z) (f : SearchFilters) (d : DriveCompactIndex * Z) : option (list DisplayRow) :=
  let? indices := collect_full (regex_keep is_match f d) limit (enumerate (records d.1)) [] in
  Some (rows_of d indices).

(** * The branches *)

Definition collect_global_top_n (drives : Drives) (limit : Z) (sort_column : FieldId) (sort_desc : bool) (filter_mode : FilterMode)
    (f : SearchFilters) : option (list DisplayRow) :=
  match sort_column with
  | Path => collect_path_sorted_top_n (to_lowercase L) (lower_char L) (trim L) (sort_unstable_by_key L) (sort_unstable_by L) (par_sort_unstable_by L)
      render fuel drives limit sort_desc filter_mode f
  | PathOnly => collect_path_only_sorted_top_n (to_lowercase L) (lower_char L) (trim L) (sort_unstable_by_key L) (sort_unstable_by L) (par_sort_unstable_by L)
      render fuel drives limit sort_desc filter_mode f
  | _ => numeric_rows (to_lowercase L) (lower_char L) (trim L) (heap_iter L) (sort_unstable_by_key L) (sort_unstable_by L) (par_sort_unstable_by L)
      render drives limit sort_column sort_desc filter_mode f
  end.

Definition dispatch_match_all (drives : Drives) (limit : Z) (sort_column : FieldId) (sort_desc : bool) (filter_mode : FilterMode)
    (f : SearchFilters) : option (list DisplayRow) :=
  let? rows := collect_global_top_n drives limit sort_column sort_desc filter_mode f in
  if needs_display_row_filter f then apply_search_filters (to_lowercase L) (lower_char L) rows f else Some rows.

(** The drives in parallel, their rows in order. *)
Fixpoint gather (search : DriveCompactIndex * Z -> option (list DisplayRow)) (drives : Drives) : option (list DisplayRow) :=
  match drives with
  | [] => Some []
  | d :: drives => let? rows := search d in let? rest := gather search drives in Some (rows ++ rest)
  end.

(** The end of every branch but the match-all one. *)
Definition finish (limit : Z) (sort_column : FieldId) (sort_desc : bool) (tiers : list SortSpec) (filter_mode : FilterMode)
    (f : SearchFilters) (rows : list DisplayRow) : option (list DisplayRow) :=
  let rows := apply_filter rows filter_mode in
  let? rows := apply_search_filters (to_lowercase L) (lower_char L) rows f in
  Some (take (Z.to_nat limit) (sort_rows (sort_unstable_by L) (par_sort_unstable_by L) rows sort_column sort_desc tiers)).

(** [inl]: the regex does not compile. *)
Definition dispatch_regex (drives : Drives) (needle : list Z) (case_sensitive : bool) (limit : Z) (filter_mode : FilterMode)
    (f : SearchFilters) (sort_column : FieldId) (sort_desc : bool) (tiers : list SortSpec) : option (unit + list DisplayRow) :=
  match build_regex L (negb case_sensitive) (default needle (strip_prefix (bytes_of ">") needle)) with
  | None => Some (inl tt)
  | Some compiled_re =>
      let? rows := gather (regex_rows compiled_re limit f) drives in
      let? rows := finish limit sort_column sort_desc tiers filter_mode f rows in
      Some (inr rows)
  end.

Definition trigram_or_tree_rows (needle : list Z) (is_path is_prefix : bool) (mode : SearchMode) (limit : Z) (f : SearchFilters)
    (d : DriveCompactIndex * Z) : option (list DisplayRow) :=
  if is_path then tree_rows needle limit f d
  else if is_prefix then
    match is_prefix_pattern needle with
    | None => name_rows needle mode limit f d
    | Some prefix => prefix_rows prefix (case_sensitive mode) limit f d
    end
  else name_rows needle mode limit f d.

Definition dispatch_trigram_or_tree (drives : Drives) (needle : list Z) (is_path is_prefix : bool) (mode : SearchMode) (limit : Z)
    (filter_mode : FilterMode) (f : SearchFilters) (sort_column : FieldId) (sort_desc : bool) (tiers : list SortSpec)
    : option (list DisplayRow) :=
  let? rows := gather (trigram_or_tree_rows needle is_path is_prefix mode limit f) drives in
  finish limit sort_column sort_desc tiers filter_mode f rows.

(** * The search of an index *)

(** The drives of a filter; none asked for is all of them. *)
Definition drive_wanted (letters : list Z) (d : DriveCompactIndex * Z) : bool := is_nil letters || bool_decide (d.2 ∈ letters).

Definition bloom_pre_check (ext_terms : list (list Z)) (drives : Drives) : option Drives :=
  if is_nil ext_terms then Some drives else retain (fun d => bloom_keeps (bloom_hash L) ext_terms d.1) drives.

Definition rewritten (req : SearchRequest) : Rewritten :=
  apply_dispatch_safety_nets (req_pattern req) (match_path (req_mode req)) (case_sensitive (req_mode req)) (is_nil (drives_filter req)) (search_filters req).

Definition effective_drives (req : SearchRequest) : list Z :=
  if is_nil (rw_drives (rewritten req)) then drives_filter req else rw_drives (rewritten req).

Definition limit_of (req : SearchRequest) : Z := default U64_MAX (result_limit req).

Definition is_match_all (pattern : list Z) : bool := bool_decide (pattern = MATCH_ALL).
Definition is_regex (pattern : list Z) : bool := starts_with pattern (bytes_of ">") && (1 <? zlen pattern).
Definition is_path (pattern needle : list Z) : bool := negb (is_match_all pattern) && negb (is_regex pattern) && is_path_pattern needle.
Definition is_prefix (pattern needle : list Z) : bool :=
  negb (is_match_all pattern) && negb (is_regex pattern) && negb (is_path pattern needle) && negb (is_none (is_prefix_pattern needle)).

(** The case table of the first drive. *)
Definition needle_table (drives : Drives) : list Z := match drives with d :: _ => fold d.1 | [] => default_table end.

Definition total_records (drives : Drives) : Z := foldr Z.add 0 (map (fun d => zlen (records d.1)) drives).
Definition drive_summary (drives : Drives) : list (Z * Z) := map (fun d => (d.2, zlen (records d.1))) drives.

Definition search_index (drives : Drives) (req : SearchRequest) (sort_column : FieldId) (sort_desc : bool) (tiers : list SortSpec)
    : option SearchResult :=
  if is_nil (req_pattern req) then Some no_result else
  let pattern := rw_pattern (rewritten req) in
  let f := rw_filters (rewritten req) in
  let? active := bloom_pre_check (extensions f) (List.filter (drive_wanted (effective_drives req)) drives) in
  let limit := limit_of req in
  let needle := fold_needle (case_sensitive (req_mode req)) pattern (needle_table active) in
  if is_match_all pattern then
    let? rows := dispatch_match_all active limit sort_column sort_desc (req_filter_mode req) f in
    Some (mkSearchResult rows (total_records active))
  else if is_regex pattern then
    let? outcome := dispatch_regex active needle (case_sensitive (req_mode req)) limit (req_filter_mode req) f sort_column sort_desc tiers in
    Some match outcome with inl _ => no_result | inr rows => mkSearchResult rows (total_records active) end
  else
    let? rows := dispatch_trigram_or_tree active needle (is_path pattern needle) (is_prefix pattern needle) (req_mode req) limit
      (req_filter_mode req) f sort_column sort_desc tiers in
    Some (mkSearchResult rows (total_records active)).

(** * The backend with its own state *)

Record MultiDriveBackend := mkMultiDriveBackend {
  loaded : Drives; last_results : list DisplayRow; sort_column : FieldId; backend_desc : bool; extra_sort_tiers : list SortSpec
}.

Definition new_backend : MultiDriveBackend := mkMultiDriveBackend [] [] Modified true [].

(** [MultiDriveBackend::search]: the drives not asked for are set aside and put back. *)
Definition backend_search (b : MultiDriveBackend) (req : SearchRequest) : option (SearchResult * MultiDriveBackend) :=
  let leave drives rows := mkMultiDriveBackend drives rows (sort_column b) (backend_desc b) (extra_sort_tiers b) in
  if is_nil (req_pattern req) then Some (no_result, leave (loaded b) []) else
  let pattern := rw_pattern (rewritten req) in
  let f := rw_filters (rewritten req) in
  let letters := effective_drives req in
  let '(drives, stashed) :=
    if is_nil letters then (loaded b, None)
    else (List.filter (fun d => bool_decide (d.2 ∈ letters)) (loaded b), Some (List.filter (fun d => negb (bool_decide (d.2 ∈ letters))) (loaded b))) in
  let restored := drives ++ default [] stashed in
  let limit := limit_of req in
  let cs := case_sensitive (req_mode req) in
  let needle := fold_needle cs pattern (needle_table drives) in
  let finish := finish limit (sort_column b) (backend_desc b) (extra_sort_tiers b) (req_filter_mode req) f in
  let answer rows := (mkSearchResult rows (total_records drives), leave restored rows) in
  if is_match_all pattern then
    let? rows := collect_global_top_n drives limit (sort_column b) (backend_desc b) (req_filter_mode req) f in
    let? rows := if needs_display_row_filter f then apply_search_filters (to_lowercase L) (lower_char L) rows f else Some rows in
    Some (answer rows)
  else if is_regex pattern then
    match build_regex L (negb cs) (default needle (strip_prefix (bytes_of ">") needle)) with
    | None => Some (no_result, leave restored [])
    | Some compiled_re =>
        let? rows := gather (regex_rows compiled_re limit f) drives in
        let? rows := finish rows in
        Some (answer rows)
    end
  else if is_prefix pattern needle then
    match is_prefix_pattern needle with
    | Some prefix =>
        let? rows := gather (prefix_rows prefix cs limit f) drives in
        let? rows := finish rows in
        Some (answer rows)
    | None => Some (answer [])
    end
  else
    let? rows := gather (if is_path pattern needle then tree_rows needle limit f else name_rows needle (req_mode req) limit f) drives in
    let? rows := finish rows in
    Some (answer rows).

Definition resort (b : MultiDriveBackend) (column : FieldId) (desc : bool) : MultiDriveBackend :=
  mkMultiDriveBackend (loaded b) (sort_rows (sort_unstable_by L) (par_sort_unstable_by L) (last_results b) column desc []) column desc [].

Definition sort (b : MultiDriveBackend) (column : FieldId) (descending : bool) : MultiDriveBackend := resort b column descending.

Definition cycle_sort (b : MultiDriveBackend) : MultiDriveBackend :=
  let next := cycle_next (sort_column b) in
  resort b next match default_sort_direction next with Some Descending => true | _ => false end.

Definition toggle_sort_direction (b : MultiDriveBackend) : MultiDriveBackend := resort b (sort_column b) (negb (backend_desc b)).

(** ** The backend answers as the index does *)

Lemma pre_check_keeps_all terms drives :
  Forall (fun d => bloom_keeps (bloom_hash L) terms d.1 = Some true) drives -> bloom_pre_check terms drives = Some drives.
Proof using Type.
  intros Hd. unfold bloom_pre_check. destruct (is_nil terms); [done |]. rewrite (retain_spec _ (fun _ => true)).
  - f_equal. clear Hd. induction drives as [|d drives IH]; [done |]. cbn [List.filter]. by rewrite IH.
  - intros d Hin. rewrite Forall_forall in Hd. by apply Hd.
Qed.

Lemma stash_perm (letters : list Z) (drives : Drives) :
  List.filter (fun d => bool_decide (d.2 ∈ letters)) drives ++ List.filter (fun d => negb (bool_decide (d.2 ∈ letters))) drives ≡ₚ drives.
Proof using Type.
  induction drives as [|d drives IH]; [done |]. cbn [List.filter]. destruct (bool_decide _); cbn [negb app].
  - by rewrite IH.
  - by rewrite <- Permutation_middle, IH.
Qed.

Lemma gather_ext search search' drives : (forall d, search d = search' d) -> gather search drives = gather search' drives.
Proof using Type. intros H. induction drives as [|d drives IH]; [done |]. cbn [gather]. by rewrite H, IH. Qed.

(** C11: the stateful search, which does not consult the Bloom filters, refines the stateless
    one, which does, on every query for which the filters keep each drive asked for: always
    when the query has no extension filter or a drive no Bloom filter, and otherwise when the
    drive's filter may hold one of the extensions.  It then returns the same result, remembers
    its rows, keeps its sort, and its drives are the same ones, those asked for moved to the
    front.  (A drive whose filter is out of date may be skipped by the stateless search
    alone: theorem [stale_bloom_skips_created].) *)
Theorem backend_search_refines b req :
  (forall d, d ∈ loaded b -> drive_wanted (effective_drives req) d = true ->
     extensions (rw_filters (rewritten req)) = [] \/ bloom d.1 = None \/
     bloom_keeps (bloom_hash L) (extensions (rw_filters (rewritten req))) d.1 = Some true) ->
  exists drives, drives ≡ₚ loaded b /\
    backend_search b req =
    (let? result := search_index (loaded b) req (sort_column b) (backend_desc b) (extra_sort_tiers b) in
     Some (result, mkMultiDriveBackend drives (res_rows result) (sort_column b) (backend_desc b) (extra_sort_tiers b))).
Proof using Type.
  intros Hb. unfold backend_search, search_index.
  destruct (is_nil (req_pattern req)); [by exists (loaded b) |].
  set (letters := effective_drives req). set (active := List.filter (drive_wanted letters) (loaded b)).
  set (pattern := rw_pattern (rewritten req)). set (f := rw_filters (rewritten req)).
  assert (Ha : exists stashed, (if is_nil letters then (loaded b, None)
    else (List.filter (fun d => bool_decide (d.2 ∈ letters)) (loaded b), Some (List.filter (fun d => negb (bool_decide (d.2 ∈ letters))) (loaded b))))
    = (active, stashed) /\ active ++ default [] stashed ≡ₚ loaded b).
  { unfold active, drive_wanted. destruct (is_nil letters); cbn [orb].
    - exists None. cbn. rewrite app_nil_r. assert (E : List.filter (fun _ => true) (loaded b) = loaded b).
      { generalize (loaded b). intros l. induction l as [|d l IH]; [done |]. cbn [List.filter]. by rewrite IH. }
      by rewrite E.
    - eexists. split; [done |]. apply stash_perm. }
  destruct Ha as (stashed & -> & Hp). exists (active ++ default [] stashed). split; [exact Hp |].
  rewrite pre_check_keeps_all.
  2: { apply Forall_forall. intros d [Hd Hwant]%elem_of_filterb. fold f in Hb.
    destruct (Hb d Hd Hwant) as [E | [E | ?]]; [| | done]; unfold bloom_keeps, decide_for_ext_filter; rewrite E; [done |].
    by destruct (extensions f). }
  cbn [mbind option_bind]. set (needle := fold_needle _ pattern (needle_table active)).
  destruct (is_match_all pattern) eqn:Em.
  { unfold dispatch_match_all. destruct (collect_global_top_n _ _ _ _ _ _) as [rows |]; cbn [mbind option_bind]; [|done].
    by destruct (if needs_display_row_filter f then _ else _). }
  destruct (is_regex pattern) eqn:Er.
  { unfold dispatch_regex. destruct (build_regex L _ _) as [re |]; [|done]. destruct (gather _ _) as [rows |]; cbn [mbind option_bind]; [|done].
    by destruct (finish _ _ _ _ _ _ _). }
  unfold dispatch_trigram_or_tree, trigram_or_tree_rows.
  assert (Hpre : is_prefix pattern needle = true -> is_path pattern needle = false /\ exists prefix, is_prefix_pattern needle = Some prefix).
  { unfold is_prefix. intros [[_ Hp1%negb_true_iff]%andb_true_iff Hp2]%andb_true_iff. split; [done |].
    destruct (is_prefix_pattern needle) as [p |]; [by exists p | done]. }
  destruct (is_prefix pattern needle).
  - destruct (Hpre eq_refl) as (-> & prefix & ->). destruct (gather _ _) as [rows |]; cbn [mbind option_bind]; [|done].
    by destruct (finish _ _ _ _ _ _ _).
  - assert (Eg : forall search, gather (if is_path pattern needle then tree_rows needle (limit_of req) f else name_rows needle (req_mode req) (limit_of req) f) search
      = gather (fun d => if is_path pattern needle then tree_rows needle (limit_of req) f d else name_rows needle (req_mode req) (limit_of req) f d) search)
      by (intros; apply gather_ext; intros d; by destruct (is_path pattern needle)).
    rewrite Eg. destruct (gather _ _) as [rows |]; cbn [mbind option_bind]; [|done]. by destruct (finish _ _ _ _ _ _ _).
Qed.
End search.

(** * What a search finds *)

Section exact.
Context (L : Library) (HL : library_ok L) (schedule : list (Z * Z) -> list (Z * Z)) (Hschedule : forall ws, schedule ws ≡ₚ ws).
Context (render : MalformedRender) (fuel : nat).

Abbreviation record_filter f d :=
  (matches_record (to_lowercase L) (lower_char L) (resolve_ext_ids_for_drive (to_lowercase L) (trim L) f d.1) (fold d.1) (names d.1)).

(** A drive a search can read: its index coherent, its paths resolvable, its case table the
    one the needle is folded with, its Bloom filter absent or built from it, and no star in
    a name or a path, which NTFS forbids. *)
Record queryable (table : list Z) (d : DriveCompactIndex * Z) : Prop := {
  qu_scannable : scannable schedule (to_lowercase L) (lower_char L) d.1;
  qu_resolvable : resolvable d.1;
  qu_fold : fold d.1 = table;
  qu_bloom : bloom d.1 = None \/ exists n k, fresh_bloom (bloom_hash L) d.1 n k;
  qu_star : forall idx rec, zget (records d.1) idx = Some rec -> let row := alone render d.1 d.2 idx rec in
    no_star (fold_into default_table (str_chars (row_name row))) /\ no_star (to_ascii_lowercase (row_path_dir row))
}.

Definition row_passes (f : SearchFilters) (row : DisplayRow) : bool :=
  bool_decide (row_passes_filters (to_lowercase L) (lower_char L) row f default_table = Some true).

(** The rows of the records of a drive with the indices given. *)
Definition found_rows (d : DriveCompactIndex * Z) (indices : list Z) : list DisplayRow :=
  omap (row_alone d.1 d.2 (stack_volume_prefix d.2) render) indices.

Section filters.
Context (f : SearchFilters) (Htokens : Forall (token_ok (to_lowercase L) (trim L)) (extensions f)) (table : list Z).

Lemma record_filter_total d rec : queryable table d -> rec ∈ records d.1 -> exists b, record_filter f d rec = Some b.
Proof using Type. intros Hq Hr. apply matches_record_total. by apply (qu_scannable _ _ Hq). Qed.

Lemma record_filter_extension d rec :
  extensions f <> [] -> queryable table d -> rec ∈ records d.1 -> live rec = true -> record_filter f d rec = Some true ->
  exists ext, ext ∈ extensions f /\ zget (ext_names d.1) (extension_id rec) = Some ext.
Proof using Htokens.
  intros Hne Hq Hin Hlive Hm. destruct (qu_scannable _ _ Hq) as [_ Htab Hids Hlow _].
  rewrite resolved_filter_agrees in Hm by (first [done | by apply Hids | by apply Hlow]).
  apply (matches_extension_by_name (to_lowercase L) (lower_char L) (trim L) f (ext_names d.1) (names d.1) rec Htab Htokens (Hids rec Hin Hlive) (Hlow rec Hin) Hne).
  unfold matches_record in Hm. repeat match type of Hm with (if ?c then Some false else _) = _ => destruct c eqn:?; [discriminate Hm |] end.
  by apply negb_false_iff.
Qed.

(** A drive the Bloom filter skips has no record that passes. *)
Lemma skipped_none d rec :
  queryable table d -> bloom_keeps (bloom_hash L) (extensions f) d.1 <> Some true -> rec ∈ records d.1 -> live rec = true ->
  record_filter f d rec <> Some true.
Proof using Htokens.
  intros Hq Hk Hin Hlive Hm.
  assert (Hne : extensions f <> []) by (intros E; apply Hk; unfold bloom_keeps, decide_for_ext_filter; by rewrite E).
  destruct (qu_bloom _ _ Hq) as [Hb | (n & k & Hb)].
  - apply Hk. unfold bloom_keeps, decide_for_ext_filter. rewrite Hb. by destruct (extensions f).
  - destruct (bloom_keeps_spec (bloom_hash L) d.1 n k (extensions f) Hb) as (m & E & H). rewrite E in Hk. apply Hk. rewrite H; [done |].
    destruct (record_filter_extension d rec) as (ext & Hext & Hz); [done.. |].
    exists rec, ext. split_and!; [done.. | | done]. pose proof (proj1 (Forall_forall _ _) Htokens ext Hext) as Ht. apply Ht.
Qed.

(** The pre-check loses no row of a search that honours the record filters. *)
Lemma pre_check_loses_nothing (found : DriveCompactIndex * Z -> list DisplayRow) drives :
  Forall (queryable table) drives ->
  (forall d, d ∈ drives -> found d <> [] -> exists rec, rec ∈ records d.1 /\ live rec = true /\ record_filter f d rec = Some true) ->
  exists active, bloom_pre_check L (extensions f) drives = Some active /\ active ⊆ drives /\ active ≫= found = drives ≫= found.
Proof using Htokens.
  intros Hq Hf. unfold bloom_pre_check. destruct (is_nil (extensions f)) eqn:En; [by exists drives |].
  set (keeps (d : DriveCompactIndex * Z) := bool_decide (bloom_keeps (bloom_hash L) (extensions f) d.1 = Some true)).
  rewrite (retain_spec _ keeps).
  - eexists. split; [done |]. split; [intros d [? _]%elem_of_filterb; done |].
    assert (Hnil : forall d, d ∈ drives -> keeps d = false -> found d = []).
    { intros d Hd Hk%bool_decide_eq_false. destruct (found d) as [|row rows] eqn:E; [done |].
      destruct (Hf d Hd) as (rec & H1 & H2 & H3); [by rewrite E |]. rewrite Forall_forall in Hq. by destruct (skipped_none d rec (Hq d Hd) Hk H1 H2). }
    clear Hf Hq. induction drives as [|d drives IH]; [done |]. cbn [List.filter]. pose proof (Hnil d ltac:(left)) as Hd.
    assert (IHd : List.filter keeps drives ≫= found = drives ≫= found) by (apply IH; intros d' Hd'; apply Hnil; by right).
    destruct (keeps d); cbn [mbind list_bind]; [by rewrite IHd |]. by rewrite Hd.
  - intros d Hd. rewrite Forall_forall in Hq. specialize (Hq d Hd). unfold keeps.
    destruct (qu_bloom _ _ Hq) as [Hb | (n & k & Hb)].
    + unfold bloom_keeps. rewrite Hb. by destruct (extensions f).
    + destruct (bloom_keeps_spec (bloom_hash L) d.1 n k (extensions f) Hb) as ([] & -> & _); done.
Qed.

Lemma found_row_passes d indices row :
  queryable table d -> row ∈ found_rows d indices ->
  row_passes_filters (to_lowercase L) (lower_char L) row f default_table = Some (row_passes f row).
Proof using Type.
  intros Hq (i & _ & E)%list_elem_of_omap. unfold row_alone in E. destruct (zget (records d.1) i) as [rec |] eqn:Ei; cbn [mbind option_bind] in E; [|done].
  destruct (is_nil _); [done |]. injection E as <-. destruct (qu_star _ _ Hq i rec Ei) as [H1 H2].
  destruct (row_passes_total (to_lowercase L) (lower_char L) f default_table _ H1 H2) as [b Hb]. unfold row_passes, alone in *. rewrite Hb. by destruct b.
Qed.

Definition shown_rows (mode : FilterMode) (rows : list DisplayRow) : list DisplayRow :=
  List.filter (fun row => RowFilters.mode_keeps mode row && row_passes f row) rows.

Lemma finish_spec limit column desc tiers mode rows :
  (forall row, row ∈ rows -> row_passes_filters (to_lowercase L) (lower_char L) row f default_table = Some (row_passes f row)) ->
  exists sorted, sorted ≡ₚ shown_rows mode rows /\ sorted_by (result_order default_table column desc tiers) sorted /\
    finish L limit column desc tiers mode f rows = Some (take (Z.to_nat limit) sorted).
Proof using HL.
  intros Hr. unfold finish. rewrite apply_filter_spec. set (kept := List.filter (RowFilters.mode_keeps mode) rows).
  assert (Hs : apply_search_filters (to_lowercase L) (lower_char L) kept f = Some (List.filter (row_passes f) kept)).
  { unfold apply_search_filters. destruct (is_empty f) eqn:Ef.
    - f_equal. clear Hr. induction kept as [|row l IH]; [done |]. cbn [List.filter].
      assert (row_passes f row = true) as ->; [|by rewrite <- IH]. apply bool_decide_eq_true. unfold row_passes_filters. by rewrite Ef.
    - apply retain_spec. intros row [Hin _]%elem_of_filterb. by apply Hr. }
  rewrite Hs. cbn [mbind option_bind].
  assert (Ek : List.filter (row_passes f) kept = shown_rows mode rows).
  { unfold kept, shown_rows. clear. induction rows as [|row rows IH]; [done |]. cbn [List.filter].
    destruct (RowFilters.mode_keeps mode row); cbn [List.filter andb]; by rewrite IH. }
  rewrite Ek. eexists. split_and!; [| |done]; by apply (sort_rows_spec _ _ (lo_sort _ HL) (lo_par_sort _ HL)).
Qed.

Lemma gather_spec search (found : DriveCompactIndex * Z -> list DisplayRow) drives :
  (forall d, d ∈ drives -> search d = Some (found d)) -> gather search drives = Some (drives ≫= found).
Proof using Type.
  induction drives as [|d drives IH]; intros H; [done |]. cbn [gather mbind list_bind]. rewrite (H d) by left.
  rewrite IH by (intros; apply H; by right). done.
Qed.

(** The drives found, filtered, sorted and cut. *)
Lemma gathered_rows search (hits : DriveCompactIndex * Z -> list Z) active limit column desc tiers mode :
  Forall (queryable table) active -> (forall d, d ∈ active -> search d = Some (found_rows d (hits d))) ->
  exists sorted, sorted ≡ₚ shown_rows mode (active ≫= fun d => found_rows d (hits d)) /\
    sorted_by (result_order default_table column desc tiers) sorted /\
    (let? rows := gather search active in finish L limit column desc tiers mode f rows) = Some (take (Z.to_nat limit) sorted).
Proof using HL.
  intros Hq Hs. rewrite (gather_spec search (fun d => found_rows d (hits d))) by done. cbn [mbind option_bind]. apply finish_spec.
  intros row (d & Hd & Hrow)%list_elem_of_bind. rewrite Forall_forall in Hq. apply (found_row_passes d (hits d)); [|done]. by apply Hq.
Qed.
End filters.

(** ** Queries by name *)

Abbreviation trigrams_of needle := (extract_trigram_needle needle (contains_byte STAR needle || contains_byte QUESTION needle) (contains_byte BAR needle)).

(** A drive a needle can be searched on: see NameSearch. *)
Record findable (f : SearchFilters) (needle : list Z) (d : DriveCompactIndex * Z) : Prop := {
  fi_searchable : searchable d.1 needle (record_filter f d);
  fi_kept : exists records0 names0, reachable schedule (to_lowercase L) d.1 records0 names0 /\
    forall ts t, needle_trigrams (fold d.1) (trigrams_of needle) = Some ts -> t ∈ ts -> ~ pruned d.1 records0 names0 t
}.

Definition name_hits (needle : list Z) (mode : SearchMode) (limit : Z) (f : SearchFilters) (d : DriveCompactIndex * Z) : list Z :=
  take (Z.to_nat limit) (indices_where (NameSearch.kept d.1 needle mode (record_filter f d)) (records d.1)).

Definition regex_kept (is_match : list Z -> bool) (f : SearchFilters) (d : DriveCompactIndex * Z) (rec : CompactRecord) : bool :=
  bool_decide (regex_keep L is_match f d rec = Some true).

Definition regex_hits (is_match : list Z -> bool) (limit : Z) (f : SearchFilters) (d : DriveCompactIndex * Z) : list Z :=
  take (Z.to_nat limit) (indices_where (regex_kept is_match f d) (records d.1)).

Lemma found_rows_all table d indices :
  queryable table d -> (forall i, i ∈ indices -> 0 <= i < zlen (records d.1)) ->
  indices_to_rows d.1 d.2 (stack_volume_prefix d.2) render indices = found_rows d indices.
Proof using Type.
  intros Hq Hi. destruct (qu_resolvable _ _ Hq) as [Hp Hz Hs]. apply indices_to_rows_spec; [done.. |].
  apply Forall_forall. intros i Hin. by apply Hs, Hi.
Qed.

Lemma take_range n (keep : CompactRecord -> bool) l i : i ∈ take n (indices_where keep l) -> 0 <= i < zlen l /\ exists x, zget l i = Some x /\ keep x = true.
Proof using Type.
  intros Hi. assert (Hin : i ∈ indices_where keep l) by (rewrite <- (take_drop n (indices_where keep l)); apply elem_of_app; by left).
  apply elem_of_indices_where in Hin as (x & Hx & Hk). split; [by apply zget_Some in Hx as [? _] | by exists x].
Qed.

Lemma name_rows_spec table f needle mode limit d :
  queryable table d -> findable f (str_chars needle) d -> match_path mode = false -> str_chars needle <> [] -> 0 <= limit ->
  name_rows L render fuel needle mode limit f d = Some (found_rows d (name_hits (str_chars needle) mode limit f d)).
Proof using HL Hschedule.
  intros Hq [Hs (r0 & n0 & Hr & Hp)] Hm Hn Hl. destruct (qu_resolvable _ _ Hq) as [_ Hz _]. unfold name_rows, search_compact_drive. rewrite Hm. cbn [andb].
  replace (zlen (str_chars needle) =? 0) with false by (symmetry; apply Z.eqb_neq; intros E%zlen_0; done).
  rewrite (search_spec schedule (to_lowercase L) (sort_by_len L) Hschedule (lo_sort_by_len _ HL) d.1 _ mode _ Hs r0 n0) by done.
  cbn [mbind option_bind]. f_equal. apply (found_rows_all table); [done |]. intros i Hi. by apply take_range in Hi as [? _].
Qed.

Lemma regex_rows_spec table f is_match limit d :
  queryable table d -> 0 <= limit ->
  regex_rows L render is_match limit f d = Some (found_rows d (regex_hits is_match limit f d)).
Proof using Type.
  intros Hq Hl. destruct (qu_resolvable _ _ Hq) as [_ Hz _]. unfold regex_rows.
  rewrite (full_scan (records d.1) _ (regex_kept is_match f d)); [| | done | done].
  - cbn [mbind option_bind]. f_equal. apply (found_rows_all table); [done |]. intros i Hi. by apply take_range in Hi as [? _].
  - intros rec Hr. unfold regex_kept, regex_keep. destruct (_ && _); [|done]. destruct (record_filter_total f table d rec Hq Hr) as [b ->]. by destruct b.
Qed.

Lemma found_row_kept (keep : CompactRecord -> bool) limit f (d : DriveCompactIndex * Z) :
  (forall rec, keep rec = true -> live rec = true /\ record_filter f d rec = Some true) ->
  found_rows d (take (Z.to_nat limit) (indices_where keep (records d.1))) <> [] ->
  exists rec, rec ∈ records d.1 /\ live rec = true /\ record_filter f d rec = Some true.
Proof using Type.
  intros Hk Hne. destruct (take _ _) as [|i l] eqn:E; [done |].
  destruct (take_range (Z.to_nat limit) keep (records d.1) i) as [_ (rec & Hz & Hkeep)]; [rewrite E; left |].
  exists rec. split; [by eapply zget_elem | by apply Hk].
Qed.

Lemma name_kept_live needle mode f (d : DriveCompactIndex * Z) rec :
  NameSearch.kept d.1 needle mode (record_filter f d) rec = true -> live rec = true /\ record_filter f d rec = Some true.
Proof using Type.
  intros Hk. split; [by apply matched_live in Hk |]. apply bool_decide_eq_true in Hk. unfold keep in Hk.
  destruct (matches _ _ _ _) as [[] |]; done.
Qed.

Lemma regex_kept_live is_match f d rec : regex_kept is_match f d rec = true -> live rec = true /\ record_filter f d rec = Some true.
Proof using Type.
  intros Hk%bool_decide_eq_true. unfold regex_keep in Hk. destruct (negb (is_nil _) && _) eqn:E; [|done]. split; [|done].
  apply andb_true_iff in E as [E%negb_true_iff _]. destruct (live rec) eqn:Hl; [done | exfalso].
  unfold live in Hl. apply negb_false_iff, Z.eqb_eq in Hl. unfold name_str, Filters.name_bytes in E. rewrite Hl, Z.add_0_r in E.
  destruct (get_range _ _ _) as [bs |] eqn:Er; cbn [default] in E; [|done]. unfold id in E.
  apply get_range_len in Er. rewrite Z.sub_diag in Er. apply zlen_0 in Er as ->. done.
Qed.

(** What is common to the two: the drives the Bloom filters leave, searched one by one. *)
Lemma active_rows table f (search : DriveCompactIndex * Z -> option (list DisplayRow)) (hits : DriveCompactIndex * Z -> list Z) active wanted limit column desc tiers mode :
  Forall (queryable table) wanted -> active ⊆ wanted ->
  (active ≫= fun d => found_rows d (hits d)) = (wanted ≫= fun d => found_rows d (hits d)) ->
  (forall d, d ∈ wanted -> search d = Some (found_rows d (hits d))) ->
  exists sorted, sorted ≡ₚ shown_rows f mode (wanted ≫= fun d => found_rows d (hits d)) /\
    sorted_by (result_order default_table column desc tiers) sorted /\
    (let? rows := gather search active in finish L limit column desc tiers mode f rows) = Some (take (Z.to_nat limit) sorted).
Proof using HL.
  intros Hq Hsub E Hs. rewrite <- E. apply gathered_rows with table; [|auto].
  apply Forall_forall. intros d Hd. rewrite Forall_forall in Hq. auto.
Qed.

Lemma needle_table_of table active wanted : Forall (queryable table) wanted -> active ⊆ wanted -> active <> [] -> needle_table active = table.
Proof using Type.
  intros Hq Hsub Hne. destruct active as [|d active]; [done |]. rewrite Forall_forall in Hq. apply (qu_fold _ _ (Hq d ltac:(apply Hsub; left))).
Qed.

Definition wanted_drives (drives : Drives) (req : SearchRequest) : Drives :=
  List.filter (drive_wanted (effective_drives req)) drives.

Definition query_needle (table : list Z) (req : SearchRequest) : list Z :=
  fold_needle (case_sensitive (req_mode req)) (rw_pattern (rewritten req)) table.

(** A query for names, on drives that have the needle's case table and can be searched for
    it: a pattern that is none of match-all, regular expression, path and prefix, that is not
    matched against paths and has a character; extensions that are tokens; and drives that
    are [queryable] (the Bloom filter absent or built from the drive as it is, not stale) and
    [findable] (no trigram of the needle pruned as too frequent). *)
Record name_query (table : list Z) (drives : Drives) (req : SearchRequest) : Prop := {
  nq_pattern : req_pattern req <> [];
  nq_not_all : is_match_all (rw_pattern (rewritten req)) = false;
  nq_not_regex : is_regex (rw_pattern (rewritten req)) = false;
  nq_not_path : is_path_pattern (query_needle table req) = false;
  nq_not_prefix : is_prefix_pattern (query_needle table req) = None;
  nq_names : match_path (req_mode req) = false;
  nq_needle : str_chars (query_needle table req) <> [];
  nq_limit : 0 <= limit_of req;
  nq_tokens : Forall (token_ok (to_lowercase L) (trim L)) (extensions (rw_filters (rewritten req)));
  nq_queryable : Forall (queryable table) (wanted_drives drives req);
  nq_findable : Forall (findable (rw_filters (rewritten req)) (str_chars (query_needle table req))) (wanted_drives drives req)
}.

(** The records of a drive that match a query, as far as they are looked at. *)
Definition query_hits (table : list Z) (req : SearchRequest) (d : DriveCompactIndex * Z) : list Z :=
  name_hits (str_chars (query_needle table req)) (req_mode req) (limit_of req) (rw_filters (rewritten req)) d.

(** The rows of a query: those of the hits that pass the row filters. *)
Definition query_rows (table : list Z) (drives : Drives) (req : SearchRequest) : list DisplayRow :=
  shown_rows (rw_filters (rewritten req)) (req_filter_mode req)
    (wanted_drives drives req ≫= fun d => found_rows d (query_hits table req d)).

Lemma name_query_spec table drives req column desc tiers :
  name_query table drives req ->
  exists result sorted, search_index L render fuel drives req column desc tiers = Some result /\
    sorted ≡ₚ query_rows table drives req /\ sorted_by (result_order default_table column desc tiers) sorted /\
    res_rows result = take (Z.to_nat (limit_of req)) sorted.
Proof using HL Hschedule.
  intros [Hne Hall Hre Hpath Hpre Hmp Hstr Hl Htok Hq Hf]. unfold query_rows.
  set (rw := rewritten req) in *. set (f := rw_filters rw) in *. set (needle := query_needle table req) in *.
  set (wanted := wanted_drives drives req) in *. set (hits := query_hits table req).
  destruct (pre_check_loses_nothing f Htok table (fun d => found_rows d (hits d)) wanted Hq) as (active & Ea & Hsub & E).
  { intros d Hd. apply found_row_kept. intros rec. apply name_kept_live. }
  destruct (active_rows table f (name_rows L render fuel needle (req_mode req) (limit_of req) f) hits active wanted (limit_of req) column desc tiers (req_filter_mode req)
    Hq Hsub E) as (sorted & Hp & Hs & Eg).
  { intros d Hd. rewrite Forall_forall in Hq, Hf. apply (name_rows_spec table); auto. }
  unfold search_index. fold rw f. replace (is_nil (req_pattern req)) with false by (by destruct (req_pattern req)).
  change (List.filter (drive_wanted (effective_drives req)) drives) with wanted. rewrite Ea. cbn [mbind option_bind]. rewrite Hall, Hre.
  eexists _, sorted. split_and!; [| exact Hp | exact Hs |]; cycle 1.
  { instantiate (1 := mkSearchResult _ _). reflexivity. }
  assert (Ed : dispatch_trigram_or_tree L render fuel active (fold_needle (case_sensitive (req_mode req)) (rw_pattern rw) (needle_table active))
    (is_path (rw_pattern rw) (fold_needle (case_sensitive (req_mode req)) (rw_pattern rw) (needle_table active)))
    (is_prefix (rw_pattern rw) (fold_needle (case_sensitive (req_mode req)) (rw_pattern rw) (needle_table active)))
    (req_mode req) (limit_of req) (req_filter_mode req) f column desc tiers = Some (take (Z.to_nat (limit_of req)) sorted)).
  { rewrite <- Eg. unfold dispatch_trigram_or_tree. destruct active as [|d active]; [done |].
    rewrite (needle_table_of table (d :: active) wanted) by done.
    change (fold_needle (case_sensitive (req_mode req)) (rw_pattern rw) table) with needle.
    assert (Ep : is_path (rw_pattern rw) needle = false) by (unfold is_path; by rewrite Hpath, !andb_false_r).
    assert (Ex : is_prefix (rw_pattern rw) needle = false) by (unfold is_prefix; by rewrite Hpre, !andb_false_r).
    by rewrite Ep, Ex. }
  by rewrite Ed.
Qed.

(** C4: a query for names that satisfies [name_query] (in particular, each drive asked for has
    no Bloom filter or one built from the drive as it is, and none of the needle's trigrams
    was pruned as too frequent; [queryable] has the further conditions on drives) returns, in
    the order asked for and up to the limit, the rows that pass the row filters among the
    first [limit] records of each such drive whose names match and which pass the record
    filters. Under these conditions the trigram index, the Bloom pre-check and the second pass
    of the filters lose no row; without them they do (theorems [pruned_trigram_hides_base] and
    [stale_bloom_skips_created]). *)
Theorem name_query_exact table drives req column desc tiers :
  name_query table drives req ->
  exists result sorted, search_index L render fuel drives req column desc tiers = Some result /\
    sorted ≡ₚ query_rows table drives req /\ sorted_by (result_order default_table column desc tiers) sorted /\
    res_rows result = take (Z.to_nat (limit_of req)) sorted.
Proof using HL Hschedule. apply name_query_spec. Qed.

(** ** Limits *)

Definition with_limit (req : SearchRequest) (limit : option Z) : SearchRequest :=
  mkSearchRequest (req_pattern req) (req_mode req) limit (req_filter_mode req) (search_filters req) (drives_filter req).

(** The records of a drive that match a query, whatever the limit, and the rows shown. *)
Definition query_matches (table : list Z) (req : SearchRequest) (d : DriveCompactIndex * Z) : list Z :=
  indices_where (NameSearch.kept d.1 (str_chars (query_needle table req)) (req_mode req)
    (record_filter (rw_filters (rewritten req)) d)) (records d.1).

Definition row_shown (req : SearchRequest) (row : DisplayRow) : bool :=
  RowFilters.mode_keeps (req_filter_mode req) row && row_passes (rw_filters (rewritten req)) row.

Lemma name_query_with_limit table drives req limit :
  name_query table drives req -> 0 <= default U64_MAX limit -> name_query table drives (with_limit req limit).
Proof using Type. intros [] Hl. by split. Qed.

Lemma length_indices_where (keep : CompactRecord -> bool) l : (length (indices_where keep l) <= length l)%nat.
Proof using Type.
  unfold indices_where. rewrite length_map. etransitivity; [apply List.filter_length_le |].
  by rewrite <- (length_fmap snd (enumerate l)), snd_enumerate.
Qed.

Lemma length_found_rows d indices : (length (found_rows d indices) <= length indices)%nat.
Proof using Type. unfold found_rows. induction indices as [|i l IH]; [done |]. cbn [omap list_omap]. case_match; cbn; lia. Qed.

(** C39: a limit cuts the matches before the filters that only rows have (the file or directory
    mode, the path filter and others).  For every query for names on one drive and every
    limit [n]: when none of the first [n] matching records has a row that is shown, the
    limited search returns nothing, although the search without a limit returns every later
    match whose row is shown. *)
Theorem limit_cuts_before_filters table d req column desc tiers n i row :
  name_query table [d] req -> drive_wanted (effective_drives req) d = true -> 0 <= n ->
  (forall j row', j ∈ take (Z.to_nat n) (query_matches table req d) ->
     row_alone d.1 d.2 (stack_volume_prefix d.2) render j = Some row' -> row_shown req row' = false) ->
  i ∈ query_matches table req d -> row_alone d.1 d.2 (stack_volume_prefix d.2) render i = Some row -> row_shown req row = true ->
  exists limited full,
    search_index L render fuel [d] (with_limit req (Some n)) column desc tiers = Some limited /\ res_rows limited = [] /\
    search_index L render fuel [d] (with_limit req None) column desc tiers = Some full /\ row ∈ res_rows full.
Proof using HL Hschedule.
  intros Hq Hw Hn Hfirst Hi Hrow Hshown.
  assert (Hd : forall limit, wanted_drives [d] (with_limit req limit) = [d]).
  { intros limit. unfold wanted_drives. cbn [List.filter]. change (effective_drives (with_limit req limit)) with (effective_drives req). by rewrite Hw. }
  destruct (name_query_spec table [d] (with_limit req (Some n)) column desc tiers) as (limited & s1 & E1 & P1 & _ & R1);
    [by apply name_query_with_limit |].
  destruct (name_query_spec table [d] (with_limit req None) column desc tiers) as (full & s2 & E2 & P2 & _ & R2);
    [apply name_query_with_limit; [done | cbn; unfold U64_MAX; lia] |].
  unfold query_rows in P1, P2. rewrite Hd in P1, P2. cbn [mbind list_bind] in P1, P2. rewrite app_nil_r in P1, P2.
  exists limited, full. split_and!; [done | | done |].
  - rewrite R1. assert (s1 = []) as ->; [|by rewrite take_nil]. apply Permutation_nil_r. rewrite P1.
    destruct (shown_rows _ _ _) as [|row' rows] eqn:E; [done | exfalso].
    assert (Hin : row' ∈ row' :: rows) by left. rewrite <- E in Hin. apply elem_of_filterb in Hin as [(j & Hj & Ej)%list_elem_of_omap Hs].
    change (row_shown req row' = true) in Hs. by rewrite (Hfirst j row' Hj Ej) in Hs.
  - assert (Hsize : (length (query_matches table req d) <= Z.to_nat U64_MAX)%nat).
    { pose proof (nq_queryable _ _ _ Hq) as Hqs. specialize (Hd (result_limit req)).
      change (wanted_drives [d] (with_limit req (result_limit req))) with (wanted_drives [d] req) in Hd. rewrite Hd in Hqs.
      rewrite Forall_singleton in Hqs. destruct (qu_resolvable _ _ Hqs) as [_ Hz _].
      pose proof (length_indices_where (NameSearch.kept d.1 (str_chars (query_needle table req)) (req_mode req)
        (record_filter (rw_filters (rewritten req)) d)) (records d.1)). unfold query_matches, zlen, U64_MAX in *. lia. }
    assert (Hin : row ∈ s2).
    { rewrite P2. apply elem_of_filterb. split; [|exact Hshown]. apply list_elem_of_omap. exists i. split; [|done].
      unfold query_hits, name_hits. change (limit_of (with_limit req None)) with U64_MAX.
      change (str_chars (query_needle table (with_limit req None))) with (str_chars (query_needle table req)).
      by rewrite take_ge. }
    rewrite R2. change (limit_of (with_limit req None)) with U64_MAX. rewrite take_ge; [done |].
    rewrite (Permutation_length P2). unfold shown_rows. etransitivity; [apply List.filter_length_le |].
    etransitivity; [apply length_found_rows |]. unfold query_hits, name_hits. rewrite length_take. 
    change (str_chars (query_needle table (with_limit req None))) with (str_chars (query_needle table req)).
    fold (query_matches table req d). unfold query_matches in Hsize. cbn in *. lia.
Qed.

(** A query by a regular expression returns the same way the rows of the records whose
    names it matches; a pattern that does not compile returns none. *)
Theorem regex_query_exact table drives req column desc tiers :
  let rw := rewritten req in
  let f := rw_filters rw in
  let needle := fold_needle (case_sensitive (req_mode req)) (rw_pattern rw) table in
  let compiled := build_regex L (negb (case_sensitive (req_mode req))) (default needle (strip_prefix (bytes_of ">") needle)) in
  let wanted := List.filter (drive_wanted (effective_drives req)) drives in
  req_pattern req <> [] -> is_match_all (rw_pattern rw) = false -> is_regex (rw_pattern rw) = true ->
  0 <= limit_of req -> Forall (token_ok (to_lowercase L) (trim L)) (extensions f) -> Forall (queryable table) wanted ->
  exists result sorted, search_index L render fuel drives req column desc tiers = Some result /\
    sorted ≡ₚ match compiled with
      | Some is_match => shown_rows f (req_filter_mode req) (wanted ≫= fun d => found_rows d (regex_hits is_match (limit_of req) f d))
      | None => []
      end /\
    sorted_by (result_order default_table column desc tiers) sorted /\ res_rows result = take (Z.to_nat (limit_of req)) sorted.
Proof using HL.
  intros rw f needle compiled wanted Hne Hall Hre Hl Htok Hq.
  unfold search_index. fold rw f. replace (is_nil (req_pattern req)) with false by (by destruct (req_pattern req)). fold wanted. rewrite Hall, Hre.
  set (is_match := default (fun _ => false) compiled). set (hits := regex_hits is_match (limit_of req) f).
  destruct (pre_check_loses_nothing f Htok table (fun d => found_rows d (hits d)) wanted Hq) as (active & Ea & Hsub & E).
  { intros d Hd. apply found_row_kept. intros rec. apply regex_kept_live. }
  destruct (active_rows table f (regex_rows L render is_match (limit_of req) f) hits active wanted (limit_of req) column desc tiers (req_filter_mode req)
    Hq Hsub E) as (sorted & Hp & Hs & Eg).
  { intros d Hd. rewrite Forall_forall in Hq. apply (regex_rows_spec table); auto. }
  rewrite Ea. cbn [mbind option_bind].
  destruct active as [|d active].
  - assert (Hw : sorted = []).
    { cbn in E. rewrite <- E in Hp. by apply Permutation_nil_r in Hp. } subst sorted.
    assert (Hc : compiled = None \/ compiled = Some is_match) by (unfold is_match; destruct compiled; [by right | by left]).
    set (other := fold_needle (case_sensitive (req_mode req)) (rw_pattern rw) default_table).
    set (built := build_regex L (negb (case_sensitive (req_mode req))) (default other (strip_prefix (bytes_of ">") other))).
    exists (match built with Some _ => mkSearchResult [] 0 | None => no_result end), [].
    split_and!; [| destruct Hc as [Hc | Hc]; rewrite Hc; [done | exact Hp] | exact Hs | rewrite take_nil; by destruct built].
    unfold dispatch_regex. cbn [needle_table]. fold other built. destruct built; cbn [mbind option_bind gather]; [|done].
    cbn [gather mbind option_bind] in Eg. assert (Ef : finish L (limit_of req) column desc tiers (req_filter_mode req) f [] = Some []) by (by rewrite take_nil in Eg).
    rewrite Ef. done.
  - rewrite (needle_table_of table (d :: active) wanted) by done. fold needle. unfold dispatch_regex. fold compiled.
    destruct compiled as [re |] eqn:Ec.
    + assert (is_match = re) as Em by done.
      eexists _, sorted. split_and!; [| exact Hp | exact Hs |]; cycle 1.
      { instantiate (1 := mkSearchResult _ _). reflexivity. }
      rewrite <- Em. destruct (gather _ _) as [rows |]; cbn [mbind option_bind] in *; [|done]. by rewrite Eg.
    + exists no_result, []. split_and!; [done | done | apply SSorted_nil | by rewrite take_nil].
Qed.
End exact.

(** * The rewrites *)

Lemma trim_start_separators_spec s :
  exists seps, s = seps ++ trim_start_separators s /\ Forall (fun c => is_separator c = true) seps /\
    forall c rest, trim_start_separators s = c :: rest -> is_separator c = false.
Proof.
  induction s as [|c s (seps & E & Hs & Hf)]; [by exists [] |]. cbn [trim_start_separators].
  fold (is_separator c). destruct (is_separator c) eqn:Ec.
  - exists (c :: seps). split_and!; [by rewrite <- app_comm_cons, <- E | by constructor | exact Hf].
  - exists []. split_and!; [done | constructor |]. by intros ? ? [= <- <-].
Qed.

Lemma trim_start_separators_app seps core :
  Forall (fun c => is_separator c = true) seps -> (forall c rest, core = c :: rest -> is_separator c = false) ->
  trim_start_separators (seps ++ core) = core.
Proof.
  induction 1 as [|c seps Hc _ IH]; intros Hf; cbn [app trim_start_separators].
  - destruct core as [|c core]; [done |]. cbn [trim_start_separators]. fold (is_separator c). by rewrite (Hf c core).
  - fold (is_separator c). rewrite Hc. by apply IH.
Qed.

Lemma parse_letter_alphabetic c : is_ascii_alphabetic c = true -> parse_letter c = Some (ascii_upper c).
Proof.
  unfold is_ascii_alphabetic, parse_letter, ascii_upper, Prelude.in_range. intros H. destruct (Z.leb_spec 97 c), (Z.leb_spec c 122); cbn [andb] in *;
    match goal with |- (if ?b then _ else _) = _ => assert (b = true) as -> by lia; done end.
Qed.

Lemma zget_second {A} (a b : A) l : zget (a :: b :: l) 1 = Some b.
Proof. apply zget_Some. rewrite !zlen_cons. pose proof (zlen_nonneg l). split; [lia | done]. Qed.

(** A pattern has a drive prefix exactly when it starts with a letter and a colon; the
    drive is that letter in upper case, and the body what follows, without leading
    separators, or everything when nothing does. *)
Theorem split_drive_prefix_exact pattern drive body :
  split_drive_prefix pattern = Some (drive, body) <->
  exists c seps core, pattern = c :: COLON :: seps ++ core /\ is_ascii_alphabetic c = true /\ drive = ascii_upper c /\
    Forall (fun c => is_separator c = true) seps /\ (forall s rest, core = s :: rest -> is_separator s = false) /\
    body = (if is_nil core then MATCH_ALL else core).
Proof.
  split.
  - unfold split_drive_prefix. destruct pattern as [|c pattern]; [done |]. change (zget (c :: pattern) 0) with (Some c). cbn [mbind option_bind].
    destruct (is_ascii_alphabetic c) eqn:Ec; [|done]. cbn [negb]. destruct pattern as [|s pattern]; [done |].
    rewrite zget_second. cbn [mbind option_bind]. destruct (Z.eqb_spec s COLON) as [-> |]; [|done]. cbn [negb].
    assert (get_from (c :: COLON :: pattern) 2 = Some pattern) as -> by (apply (get_from_app [c; COLON] pattern); done).
    cbn [mbind option_bind]. rewrite (parse_letter_alphabetic c Ec). cbn [mbind option_bind]. intros [= <- <-].
    destruct (trim_start_separators_spec pattern) as (seps & E & Hs & Hf). exists c, seps, (trim_start_separators pattern).
    split_and!; [by rewrite <- E | done..].
  - intros (c & seps & core & -> & Ec & -> & Hs & Hf & ->). unfold split_drive_prefix.
    change (zget (c :: COLON :: seps ++ core) 0) with (Some c). rewrite zget_second.
    cbn [mbind option_bind]. rewrite Ec. cbn [negb]. rewrite Z.eqb_refl. cbn [negb].
    assert (get_from (c :: COLON :: seps ++ core) 2 = Some (seps ++ core)) as -> by (apply (get_from_app [c; COLON]); done).
    cbn [mbind option_bind]. rewrite (parse_letter_alphabetic c Ec). cbn [mbind option_bind]. by rewrite trim_start_separators_app.
Qed.


(** * Sorting the results again *)

(** The three ways of sorting the last results again keep the rows and leave them in the
    order the backend then has. *)
Theorem resort_exact L b b' column desc :
  library_ok L -> b' = sort L b column desc \/ b' = cycle_sort L b \/ b' = toggle_sort_direction L b ->
  loaded b' = loaded b /\ last_results b' ≡ₚ last_results b /\
  sorted_by (result_order default_table (sort_column b') (backend_desc b') (extra_sort_tiers b')) (last_results b').
Proof.
  intros HL Hb.
  assert (Hr : forall c d, loaded (resort L b c d) = loaded b /\ last_results (resort L b c d) ≡ₚ last_results b /\
    sorted_by (result_order default_table c d []) (last_results (resort L b c d)))
    by (intros c d; split; [done |]; apply (sort_rows_spec _ _ (lo_sort _ HL) (lo_par_sort _ HL))).
  destruct Hb as [-> | [-> | ->]]; apply Hr.
Qed.

(** * Where a search goes wrong *)

Lemma fold_needle_ascii s : Forall (fun b => 0 <= b < 0x80) s -> fold_needle false s default_table = map upcase s.
Proof. apply fold_ascii. Qed.

(** A case-insensitive regular expression is folded before it is compiled, its escapes with
    it: digits become what is not a digit, and the case flag another flag. *)
Theorem regex_escapes_folded :
  fold_needle false (bytes_of ">\d+") default_table = bytes_of ">\D+" /\
  fold_needle false (bytes_of ">(?i)\w") default_table = bytes_of ">(?I)\W".
Proof. split; rewrite fold_needle_ascii by (apply (bool_decide_unpack _); by vm_compute); by vm_compute. Qed.

(** A pattern after the rewrites, with no filter given. *)
Definition promoted (pattern : list Z) : Rewritten := apply_dispatch_safety_nets pattern false false true Filters.no_filters.

(** The rewrite of a glob or a regular expression to an extension filter changes what is
    found.  The glob matches a name that is all extension, as in [.gitignore], which the
    filter rejects; a regular expression anchored at the start, which can only match the
    name that is its extension, is promoted to a filter that rejects that name and keeps
    the others. *)
Theorem promotion_changes_results :
  promoted (bytes_of "*.gitignore") = mkRewritten MATCH_ALL (push_extensions Filters.no_filters [bytes_of "gitignore"]) [] /\
  name_matches (bytes_of ".gitignore") (bytes_of "*.gitignore") = Some true /\
  extract_extension_after_dot (bytes_of ".gitignore") = [] /\
  promoted (bytes_of ">^\.rs$") = mkRewritten MATCH_ALL (push_extensions Filters.no_filters [bytes_of "rs"]) [] /\
  extract_extension_after_dot (bytes_of ".rs") = [] /\
  extract_extension_after_dot (bytes_of "lib.rs") = bytes_of "rs".
Proof. split_and!; by vm_compute. Qed.

(** ** Sample searches *)

(** Regular expressions of plain letters. *)
Definition sample_library : Library :=
  mkLibrary id (fun c => [c]) id (@rev _) (@sort_by_key HeapEntry) stable_sort other_sort id (fun _ _ => 0)
    (fun ignore_case pattern => Some (fun name =>
      if ignore_case then contains_str (map upcase name) (map upcase pattern) else contains_str name pattern)).

Definition name_mode : SearchMode := mkSearchMode false false false.

Definition query (pattern : string) (limit : option Z) (mode : FilterMode) (f : SearchFilters) : SearchRequest :=
  mkSearchRequest (bytes_of pattern) name_mode limit mode f [].

(** A file before the directory it is named after. *)
Definition cut_drive : DriveCompactIndex :=
  compact_base (@rev _) (mkDriveCompactIndex
    [sample_record U32_MAX 0 5 0 0x20 8; sample_record U32_MAX 5 4 0 0x10 7] (bytes_of "doc.xdocs")
    (trigram sample_loaded) (children sample_loaded) (ext_index sample_loaded) ascii_table [[]] None [0; 1] None).

Abbreviation sample_search drives req column := (search_index sample_library Lossy 10 drives req column false []).

(** Evaluating a search: the default case table is not needed, and too large to unfold. *)
Ltac search_vm :=
  cbv delta [search_index dispatch_match_all collect_global_top_n collect_path_sorted_top_n collect_path_only_sorted_top_n collect_via_ext_index
    numeric_rows dispatch_regex dispatch_trigram_or_tree finish apply_search_filters sort_rows needle_table];
  generalize default_table; intros ?table; vm_compute.

Definition docs_filter : SearchFilters :=
  mkSearchFilters false false None None None None None None None None 0 0 None None [] [] None (Some (bytes_of "*docs*"))
    None None None None None None None None None None None None None None [] None None.

Definition result_paths (result : option SearchResult) : list (list Z) := map row_path (default [] (res_rows <$> result)).

(** Two limits that cut too early: asked for one
    directory named [doc], the search stops at the file [doc.x] and returns nothing, though
    with a larger limit it finds [docs]; asked for one record below [docs], a match-all
    query takes one elsewhere and drops it. *)
Theorem limit_cut_examples :
  result_paths (sample_search [(cut_drive, 67)] (query "doc" (Some 1) DirsOnly Filters.no_filters) Size) = [] /\
  result_paths (sample_search [(cut_drive, 67)] (query "doc" (Some 10) DirsOnly Filters.no_filters) Size) = [bytes_of "C:\docs"] /\
  result_paths (sample_search [(folding_drive, 67)] (query "*" (Some 1) All docs_filter) Size) = [] /\
  result_paths (sample_search [(folding_drive, 67)] (query "*" (Some 10) All docs_filter) Size) = [bytes_of "C:\docs\a.txt"].
Proof. split_and!; search_vm; reflexivity. Qed.

(** ** Witnesses *)

Lemma sample_library_ok : library_ok sample_library.
Proof. split; [apply rev_permutation | apply sort_by_key_sorts | apply stable_sorting | apply other_sorting | done]. Qed.

Lemma ascii_no_star s : Forall (fun b => 0 <= b < 0x80) s -> no_star (map upcase s) -> no_star (fold_into default_table (str_chars s)).
Proof. intros Hs. change (fold_into default_table (str_chars s)) with (fold_str default_table s). by rewrite fold_ascii. Qed.

Lemma folding_queryable : queryable sample_library (@rev _) Lossy ascii_table (folding_drive, 67).
Proof.
  split.
  - split.
    + eexists _, _. apply folding_reachable.
    + split_and!; [by apply (bool_decide_unpack _) | reflexivity | by vm_compute].
    + intros rec Hr. each_elem Hr; by vm_compute.
    + intros rec Hr. each_elem Hr; by vm_compute.
    + intros rec Hr. each_elem Hr; by apply (bool_decide_unpack _).
  - split; [| by vm_compute | apply folding_shallow]. intros rec Hr. each_elem Hr; vm_compute; tauto || (right; split; congruence).
  - done.
  - by left.
  - intros idx rec E. pose proof E as [Hi _]%zget_Some. change (zlen (records (folding_drive, 67).1)) with 3 in Hi.
    assert (H : idx = 0 \/ idx = 1 \/ idx = 2) by lia.
    destruct H as [-> | [-> | ->]]; vm_compute in E; injection E as <-; cbn zeta.
    all: split; [| by apply (bool_decide_unpack _)].
    all: by apply ascii_no_star; apply (bool_decide_unpack _).
Qed.

Abbreviation trigrams_of needle := (extract_trigram_needle needle (contains_byte STAR needle || contains_byte QUESTION needle) (contains_byte BAR needle)).

Lemma folding_findable needle :
  scalars needle ->
  (forall ts t, needle_trigrams ascii_table (trigrams_of needle) = Some ts -> t ∈ ts -> ~ pruned folding_drive sample_records sample_names t) ->
  findable sample_library (@rev _) Filters.no_filters needle (folding_drive, 67).
Proof.
  intros Hn Hp. destruct folding_searchable as [H1 H2 _ H4 _]. split.
  - split; [exact H1 | exact H2 | exact Hn | exact H4 |].
    intros rec Hr. by apply (record_filter_total sample_library (@rev _) Lossy Filters.no_filters ascii_table (folding_drive, 67) rec folding_queryable).
  - exists sample_records, sample_names. split; [apply folding_reachable | exact Hp].
Qed.

(** A query for a needle on the sample drive. *)
Lemma folding_name_query pattern limit mode :
  let req := query pattern limit mode Filters.no_filters in
  0 <= limit_of req -> rewritten req = mkRewritten (bytes_of pattern) Filters.no_filters [] -> bytes_of pattern <> [] ->
  is_match_all (bytes_of pattern) = false -> is_regex (bytes_of pattern) = false ->
  is_path_pattern (query_needle ascii_table req) = false -> is_prefix_pattern (query_needle ascii_table req) = None ->
  str_chars (query_needle ascii_table req) <> [] -> scalars (str_chars (query_needle ascii_table req)) ->
  (forall ts t, needle_trigrams ascii_table (trigrams_of (str_chars (query_needle ascii_table req))) = Some ts -> t ∈ ts ->
     ~ pruned folding_drive sample_records sample_names t) ->
  name_query sample_library (@rev _) Lossy ascii_table [(folding_drive, 67)] req.
Proof.
  intros req Hl Hrw Hne Hall Hre Hpath Hpre Hstr Hsc Hp.
  assert (Hw : wanted_drives [(folding_drive, 67)] req = [(folding_drive, 67)]).
  { unfold wanted_drives, effective_drives. by rewrite Hrw. }
  split; try (rewrite Hrw); try done.
  - rewrite Hw. apply Forall_singleton, folding_queryable.
  - rewrite Hw. apply Forall_singleton. by apply folding_findable.
Qed.

Lemma name_query_exact_witness :
  exists result, sample_search [(folding_drive, 67)] (query "doc" (Some 10) All Filters.no_filters) Name = Some result /\ zlen (res_rows result) <= 10.
Proof.
  destruct (name_query_exact sample_library sample_library_ok (@rev _) rev_permutation Lossy 10 ascii_table [(folding_drive, 67)]
    (query "doc" (Some 10) All Filters.no_filters) Name false []) as (result & sorted & E & _ & _ & H).
  - apply folding_name_query; [by vm_compute.. | by apply (bool_decide_unpack _) |].
    intros ts t E Ht [_ Hp]. vm_compute in E. injection E as <-. each_elem Ht; by vm_compute in Hp.
  - exists result. split; [exact E |]. rewrite H. unfold zlen. rewrite length_take. change (limit_of _) with 10. lia.
Defined.

(** Asked for one file of any name, the search stops at the directory [docs]. *)
Lemma limit_cuts_before_filters_witness :
  let req := query "*?" None FilesOnly Filters.no_filters in
  exists limited full row,
    sample_search [(folding_drive, 67)] (with_limit req (Some 1)) Name = Some limited /\ res_rows limited = [] /\
    sample_search [(folding_drive, 67)] (with_limit req None) Name = Some full /\ row ∈ res_rows full.
Proof.
  intros req.
  destruct (row_alone folding_drive 67 (stack_volume_prefix 67) Lossy 2) as [row |] eqn:Erow; [|by vm_compute in Erow].
  destruct (limit_cuts_before_filters sample_library sample_library_ok (@rev _) rev_permutation Lossy 10 ascii_table (folding_drive, 67)
    req Name false [] 1 2 row) as (limited & full & H1 & H2 & H3 & H4).
  - apply folding_name_query; [by vm_compute.. | by apply (bool_decide_unpack _) |].
    intros ts t E Ht. vm_compute in E. discriminate E.
  - by vm_compute.
  - lia.
  - intros j row' Hj Ej. assert (j = 1) as ->.
    { assert (E : take (Z.to_nat 1) (query_matches sample_library ascii_table req (folding_drive, 67)) = [1]) by (by vm_compute).
      rewrite E in Hj. by apply list_elem_of_singleton in Hj. }
    vm_compute in Ej. injection Ej as <-. reflexivity.
  - apply (bool_decide_unpack _). by vm_compute.
  - exact Erow.
  - vm_compute in Erow. injection Erow as <-. reflexivity.
  - exists limited, full, row. exact (conj H1 (conj H2 (conj H3 H4))).
Defined.

Lemma regex_query_exact_witness :
  exists result, sample_search [(folding_drive, 67)] (query ">oc" (Some 10) All Filters.no_filters) Name = Some result /\ zlen (res_rows result) <= 10.
Proof.
  destruct (regex_query_exact sample_library sample_library_ok (@rev _) Lossy 10 ascii_table [(folding_drive, 67)]
    (query ">oc" (Some 10) All Filters.no_filters) Name false []) as (result & sorted & E & _ & _ & H).
  1-4: by vm_compute.
  - constructor.
  - apply Forall_singleton, folding_queryable.
  - exists result. split; [exact E |]. rewrite H. unfold zlen. rewrite length_take. change (limit_of _) with 10. lia.
Defined.

Definition sample_backend : MultiDriveBackend := mkMultiDriveBackend [(folding_drive, 67); (cut_drive, 68)] [] Size false [].

Lemma backend_search_refines_witness :
  let b := sample_backend in let req := query "D:doc" (Some 1) All Filters.no_filters in
  exists drives, drives ≡ₚ loaded b /\
    backend_search sample_library Lossy 10 b req =
    (let? result := search_index sample_library Lossy 10 (loaded b) req (sort_column b) (backend_desc b) (extra_sort_tiers b) in
     Some (result, mkMultiDriveBackend drives (res_rows result) (sort_column b) (backend_desc b) (extra_sort_tiers b))).
Proof.
  intros b req. apply backend_search_refines. intros d Hd _. left. by vm_compute.
Defined.

Lemma resort_exact_witness : sort_column (cycle_sort sample_library sample_backend) = SizeOnDisk /\ last_results (cycle_sort sample_library sample_backend) ≡ₚ [].
Proof.
  split; [reflexivity |].
  by apply (resort_exact sample_library sample_backend (cycle_sort sample_library sample_backend) Size false sample_library_ok (or_intror (or_introl eq_refl))).
Defined.
