(* ===== verification/Arena.v ===== *)
(** Linked lists inside vectors: the overflow names, streams, internal streams and child
    entries of the MFT index are cells of a vector that name the next cell by position.
    The interface of a cell, the two ways the parser adds one, and what they keep. *)
From S2P Require Import Prelude.

(** [crates/uffs-mft/src/index/types.rs]. *)
Definition NO_ENTRY : Z := U32_MAX.

(** A cell of an arena: a next position and everything else. *)
Class Linked (A : Type) := {
  next_entry : A -> Z;
  set_next : A -> Z -> A;
  next_set x n : next_entry (set_next x n) = n;
  set_set x n m : set_next (set_next x n) m = set_next x m;
}.

Section arena.
Context {A : Type} `{Linked A}.
Implicit Types (l : list A) (h : Z) (cells : list Z) (heads : list Z) (own : list (list Z)).

(** A cell without its link: what a reader of the list sees. *)
Definition bare (x : A) : A := set_next x NO_ENTRY.

Lemma bare_set x n : bare (set_next x n) = bare x.
Proof. apply set_set. Qed.

(** [while tail.next_entry != NO_ENTRY]: the last position of a list; [None] is an index
    out of range, or a list longer than the fuel. *)
Fixpoint find_tail (fuel : nat) l (tail : Z) : option Z :=
  match fuel with
  | O => None
  | S fuel =>
      let? x := zget l tail in
      if next_entry x =? NO_ENTRY then Some tail else find_tail fuel l (next_entry x)
  end.

(** What an iterator that starts at [h] returns, cell after cell; a position out of
    range ends it. *)
Fixpoint follow (fuel : nat) l h : list A :=
  match fuel with
  | O => []
  | S fuel =>
      if h =? NO_ENTRY then [] else
      match zget l h with
      | Some x => x :: follow fuel l (next_entry x)
      | None => []
      end
  end.

(** [chain l h cells]: the list from [h] is [cells], ended by [NO_ENTRY]. *)
Inductive chain l : Z -> list Z -> Prop :=
| chain_nil : chain l NO_ENTRY []
| chain_cons h x cells : h <> NO_ENTRY -> zget l h = Some x -> chain l (next_entry x) cells -> chain l h (h :: cells).

Definition contents l cells : list A := map bare (omap (zget l) cells).

(** Every cell of the arena is in exactly one of the lists. *)
Definition owned l heads own : Prop :=
  Forall2 (chain l) heads own /\ concat own ≡ₚ seqZ 0 (zlen l).

Lemma chain_follow l h cells fuel :
  chain l h cells -> (length cells < fuel)%nat -> map bare (follow fuel l h) = contents l cells.
Proof.
  intros Hc. revert fuel. induction Hc as [|h x cells Hh Hx _ IH]; intros [|fuel] Hf; [cbn in Hf; lia | done | cbn in Hf; lia |].
  cbn [follow contents omap list_omap map]. rewrite (proj2 (Z.eqb_neq _ _) Hh), Hx. cbn [map]. f_equal.
  apply IH. cbn in Hf. lia.
Qed.

(** Any more fuel reads the same list. *)
Lemma chain_follow_fuel l h cells fuel fuel' :
  chain l h cells -> (length cells < fuel)%nat -> (length cells < fuel')%nat -> follow fuel l h = follow fuel' l h.
Proof.
  intros Hc. revert fuel fuel'. induction Hc as [|h x cells Hh Hx _ IH]; intros [|fuel] [|fuel'] Hf Hf'; try (cbn in *; lia); [done |].
  cbn [follow]. rewrite (proj2 (Z.eqb_neq _ _) Hh), Hx. f_equal. apply IH; cbn in *; lia.
Qed.

Lemma chain_range l h cells i : chain l h cells -> i ∈ cells -> 0 <= i < zlen l.
Proof.
  induction 1 as [|h x cells _ Hx _ IH]; [by intros ?%elem_of_nil |]. intros [-> | Hi]%elem_of_cons; [| by apply IH].
  by apply zget_Some in Hx as [? _].
Qed.

Lemma chain_head l h cells : chain l h cells -> h = NO_ENTRY <-> cells = [].
Proof. intros Hc. inversion Hc; subst; split; done. Qed.

Lemma chain_grow l k h cells : chain l h cells -> chain (l ++ k) h cells.
Proof.
  induction 1 as [|h x cells Hh Hx _ IH]; [constructor |]. econstructor; [done | by apply zget_app_Some | done].
Qed.

Lemma chain_set_other l h cells i y : i ∉ cells -> chain l h cells -> chain (zset l i y) h cells.
Proof.
  intros Hi Hc. induction Hc as [|h x cells Hh Hx _ IH]; [constructor |].
  apply not_elem_of_cons in Hi as [Hn Hi]. econstructor; [done | | by apply IH]. by rewrite zget_zset_ne.
Qed.

Lemma contents_grow l k cells : Forall (fun i => 0 <= i < zlen l) cells -> contents (l ++ k) cells = contents l cells.
Proof.
  intros Hr. unfold contents. f_equal. induction Hr as [|i cells Hi _ IH]; [done |]. cbn [omap list_omap].
  rewrite zget_app_l by lia. destruct (zget l i); [f_equal |]; apply IH.
Qed.

Lemma contents_set_other l cells i y : i ∉ cells -> contents (zset l i y) cells = contents l cells.
Proof.
  intros Hi. unfold contents. f_equal. induction cells as [|c cells IH]; [done |]. apply not_elem_of_cons in Hi as [Hn Hi].
  cbn [omap list_omap]. rewrite zget_zset_ne by done. destruct (zget l c); [f_equal |]; by apply IH.
Qed.

(** Changing only a link leaves every content. *)
Lemma contents_set_link l cells i x n : zget l i = Some x -> contents (zset l i (set_next x n)) cells = contents l cells.
Proof.
  intros Hx. unfold contents. induction cells as [|c cells IH]; [done |]. cbn [omap list_omap].
  destruct (decide (i = c)) as [<- |].
  - apply zget_Some in Hx as Hr. rewrite zget_zset_eq, Hx by apply Hr. cbn [map]. by rewrite bare_set, IH.
  - rewrite zget_zset_ne by done. destruct (zget l c); [cbn [map]; f_equal |]; apply IH.
Qed.

Lemma contents_app l a b : contents l (a ++ b) = contents l a ++ contents l b.
Proof. unfold contents. by rewrite omap_app, map_app. Qed.

Lemma contents_one l i x : zget l i = Some x -> contents l [i] = [bare x].
Proof. intros E. unfold contents. cbn. by rewrite E. Qed.

(** The tail of a list, found with fuel above its length. *)
Lemma find_tail_spec l h cells fuel :
  chain l h cells -> cells <> [] -> (length cells <= fuel)%nat ->
  exists front t x, cells = front ++ [t] /\ find_tail fuel l h = Some t /\ zget l t = Some x /\ next_entry x = NO_ENTRY.
Proof.
  intros Hc. revert fuel. induction Hc as [|h x cells Hh Hx Hc IH]; [done |]. intros [|fuel] _ Hf; [cbn in Hf; lia |].
  cbn [find_tail]. rewrite Hx. cbn [mbind option_bind]. destruct cells as [|c cells].
  - apply chain_head in Hc as E. rewrite (proj2 E eq_refl). rewrite Z.eqb_refl. exists [], h, x. repeat split; [done |].
    by apply E.
  - destruct (IH fuel) as (front & t & y & E & Ht & Hy & Hn); [done | cbn in *; lia |].
    destruct (Z.eqb_spec (next_entry x) NO_ENTRY) as [En |].
    + apply chain_head in Hc. by apply Hc in En.
    + exists (h :: front), t, y. by rewrite E.
Qed.

Lemma chain_snoc l h front t x y n :
  chain l h (front ++ [t]) -> t ∉ front -> zget l t = Some x -> n = zlen l -> n <> NO_ENTRY -> next_entry y = NO_ENTRY ->
  chain (zset (l ++ [y]) t (set_next x n)) h (front ++ [t; n]).
Proof.
  intros Hc Ht Hx -> Hn Hy. revert h Hc. induction front as [|f front IH]; intros h Hc; cbn [app] in *.
  - inversion Hc as [|? x0 ? Hh Hx0 _]; subst. econstructor; [done | |].
    + apply zget_zset_eq. apply zget_Some in Hx as [? _]. rewrite zlen_app. pose proof (zlen_nonneg [y]). lia.
    + rewrite next_set. econstructor; [done | |].
      * rewrite zget_zset_ne by (apply zget_Some in Hx as [? _]; lia). rewrite zget_app_r, Z.sub_diag by lia. done.
      * rewrite Hy. constructor.
  - apply not_elem_of_cons in Ht as [Hne Ht]. inversion Hc as [|? x0 ? Hh Hx0 Hc']; subst.
    econstructor; [done | | by apply IH]. rewrite zget_zset_ne by done. by apply zget_app_Some.
Qed.

(** * Ownership *)

Lemma owned_length l heads own k h :
  owned l heads own -> heads !! k = Some h -> exists cells, own !! k = Some cells /\ chain l h cells.
Proof.
  intros [Ho _] Hk. destruct (Forall2_lookup_l _ _ _ _ _ Ho Hk) as (cells & Hc & Hch). by exists cells.
Qed.

Lemma owned_NoDup l heads own : owned l heads own -> NoDup (concat own).
Proof. intros [_ Hp]. rewrite Hp. apply NoDup_seqZ. Qed.

Lemma own_elem own k cells i : own !! k = Some cells -> i ∈ cells -> i ∈ concat own.
Proof. intros Hk Hi. rewrite list_elem_of_In. apply in_concat. exists cells. rewrite <- !list_elem_of_In. split; [by eapply list_elem_of_lookup_2 | done]. Qed.

Lemma own_length l heads own k cells : owned l heads own -> own !! k = Some cells -> (length cells <= length l)%nat.
Proof.
  intros [_ Hp] Hk. apply Permutation_length in Hp. rewrite length_seqZ in Hp. unfold zlen in Hp. rewrite Nat2Z.id in Hp.
  rewrite <- Hp. clear Hp. revert k Hk. induction own as [|c own IH]; intros [|k] Hk; cbn in Hk; [done..| |]; cbn [concat]; rewrite length_app.
  - injection Hk as ->. lia.
  - specialize (IH _ Hk). lia.
Qed.

(** Two different lists share no cell. *)
Lemma own_disjoint own k j cells other i :
  NoDup (concat own) -> own !! k = Some cells -> own !! j = Some other -> j <> k -> i ∈ cells -> i ∉ other.
Proof.
  intros Hn Hk Hj Hjk Hi Ho. revert k j Hk Hj Hjk. induction own as [|c own IH]; intros k j Hk Hj Hjk; [done |].
  cbn [concat] in Hn. apply NoDup_app in Hn as (_ & Hd & Hn).
  destruct k as [|k], j as [|j]; cbn in Hk, Hj; [done | | |].
  - injection Hk as ->. apply (Hd i Hi). by eapply own_elem.
  - injection Hj as ->. apply (Hd i Ho). by eapply own_elem.
  - apply (IH Hn k j); [done | done | lia].
Qed.

Lemma own_NoDup own k cells : NoDup (concat own) -> own !! k = Some cells -> NoDup cells.
Proof.
  revert k. induction own as [|c own IH]; intros [|k] Hn Hk; cbn in Hk; [done..| |]; cbn [concat] in Hn; apply NoDup_app in Hn as (Hc & _ & Hn).
  - by injection Hk as ->.
  - by eapply IH.
Qed.

Lemma concat_insert own k cells cells' extra :
  own !! k = Some cells -> cells' ≡ₚ extra ++ cells -> concat (<[k := cells']> own) ≡ₚ extra ++ concat own.
Proof.
  revert k. induction own as [|c own IH]; intros [|k] Hk Hp; cbn in Hk; [done..| |]; cbn.
  - injection Hk as ->. by rewrite Hp, app_assoc.
  - rewrite (IH _ Hk Hp). rewrite !app_assoc. apply Permutation_app_tail. apply Permutation_app_comm.
Qed.

Lemma owned_nil : owned [] [] [].
Proof. split; [constructor | done]. Qed.

(** A new record owns nothing. *)
Lemma owned_new_head l heads own : owned l heads own -> owned l (heads ++ [NO_ENTRY]) (own ++ [[]]).
Proof.
  intros [Ho Hp]. split; [apply Forall2_app; [done |]; repeat constructor |]. rewrite concat_app. cbn. by rewrite app_nil_r.
Qed.

Lemma seqZ_snoc_len l y : seqZ 0 (zlen (l ++ [y])) ≡ₚ [zlen l] ++ seqZ 0 (zlen l).
Proof.
  assert (E : zlen (l ++ [y]) = Z.succ (zlen l)) by (unfold zlen; rewrite length_app; cbn; lia).
  rewrite E. unfold zlen. rewrite <- Nat2Z.inj_succ, seqZ_S, Z.add_0_l. apply Permutation_app_comm.
Qed.

(** A cell pushed at the front of the list of record [k]. *)
Lemma owned_push l heads own k h cells y :
  owned l heads own -> heads !! k = Some h -> own !! k = Some cells -> zlen l < NO_ENTRY -> next_entry y = h ->
  owned (l ++ [y]) (<[k := zlen l]> heads) (<[k := zlen l :: cells]> own) /\
  contents (l ++ [y]) (zlen l :: cells) = bare y :: contents l cells.
Proof.
  intros [Ho Hp] Hh Hk Hl Hy. pose proof (Forall2_lookup_lr _ _ _ _ _ _ Ho Hh Hk) as Hc. split; [split |].
  - apply Forall2_insert; [eapply Forall2_impl; [exact Ho |]; intros; by apply chain_grow |].
    econstructor; [lia | rewrite zget_app_r, Z.sub_diag by lia; done |]. rewrite Hy. by apply chain_grow.
  - rewrite (concat_insert own k cells (zlen l :: cells) [zlen l]) by done. rewrite seqZ_snoc_len. by rewrite Hp.
  - change (zlen l :: cells) with ([zlen l] ++ cells). rewrite contents_app.
    rewrite (contents_one _ _ y) by (rewrite zget_app_r, Z.sub_diag by lia; done). cbn [app]. f_equal. apply contents_grow.
    apply Forall_forall. intros i Hi. by eapply chain_range.
Qed.

(** A cell linked after the tail of the non-empty list of record [k]. *)
Lemma owned_append l heads own k h front t x y :
  owned l heads own -> heads !! k = Some h -> own !! k = Some (front ++ [t]) -> zlen l < NO_ENTRY ->
  zget l t = Some x -> next_entry y = NO_ENTRY ->
  owned (zset (l ++ [y]) t (set_next x (zlen l))) heads (<[k := front ++ [t; zlen l]]> own) /\
  contents (zset (l ++ [y]) t (set_next x (zlen l))) (front ++ [t; zlen l]) = contents l (front ++ [t]) ++ [bare y].
Proof.
  intros Hw Hh Hk Hl Hx Hy. destruct (Hw) as [Ho Hp]. pose proof (owned_NoDup _ _ _ Hw) as Hn.
  pose proof (Forall2_lookup_lr _ _ _ _ _ _ Ho Hh Hk) as Hc.
  assert (Ht : t ∉ front).
  { pose proof (own_NoDup _ _ _ Hn Hk) as Hnd. apply NoDup_app in Hnd as (_ & Hd & _). intros Hi. apply (Hd t Hi). by apply elem_of_cons; left. }
  assert (Hx' : zget (l ++ [y]) t = Some x) by by apply zget_app_Some.
  split; [split |].
  - rewrite <- (list_insert_id heads k h) by done.
    assert (Hf : Forall2 (chain (zset (l ++ [y]) t (set_next x (zlen l)))) (<[k:=h]> heads) (<[k:=front ++ [t; zlen l]]> own)); [|done].
    apply Forall2_same_length_lookup_2.
    { rewrite !length_insert. by eapply Forall2_length. }
    intros j hj cj Hhj Hcj. destruct (decide (j = k)) as [-> | Hne].
    + rewrite list_lookup_insert_eq in Hhj by (by eapply lookup_lt_Some). rewrite list_lookup_insert_eq in Hcj by (by eapply lookup_lt_Some).
      simplify_eq. apply chain_snoc; try done. lia.
    + rewrite list_lookup_insert_ne in Hhj by done. rewrite list_lookup_insert_ne in Hcj by done. pose proof (Forall2_lookup_lr _ _ _ _ _ _ Ho Hhj Hcj) as Hcj'.
      apply chain_set_other; [| by apply chain_grow].
      eapply (own_disjoint own k j); try done. apply elem_of_app. right. by apply elem_of_cons; left.
  - rewrite zlen_zset. rewrite (concat_insert own k (front ++ [t]) _ [zlen l]); [| done |].
    + rewrite seqZ_snoc_len. by rewrite Hp.
    + change [t; zlen l] with ([t] ++ [zlen l]). rewrite app_assoc. apply Permutation_app_comm.
  - rewrite contents_set_link by done. change [t; zlen l] with ([t] ++ [zlen l]). rewrite app_assoc, contents_app.
    rewrite (contents_one _ _ y) by (rewrite zget_app_r, Z.sub_diag by lia; done). f_equal.
    apply contents_grow. apply Forall_forall. intros i Hi. by eapply chain_range.
Qed.

(** What [follow] returns from the head of an owned list, links apart. *)
Lemma owned_follow l heads own k h cells :
  owned l heads own -> heads !! k = Some h -> own !! k = Some cells ->
  map bare (follow (S (length l)) l h) = contents l cells.
Proof.
  intros Hw Hh Hk. pose proof (own_length _ _ _ _ _ Hw Hk). destruct Hw as [Ho _].
  apply chain_follow; [by eapply Forall2_lookup_lr | lia].
Qed.

Lemma owned_find_tail l heads own k h cells :
  owned l heads own -> heads !! k = Some h -> own !! k = Some cells -> h <> NO_ENTRY ->
  exists front t x, cells = front ++ [t] /\ find_tail (S (length l)) l h = Some t /\ zget l t = Some x /\ next_entry x = NO_ENTRY.
Proof.
  intros Hw Hh Hk Hn. pose proof (own_length _ _ _ _ _ Hw Hk). destruct Hw as [Ho _].
  pose proof (Forall2_lookup_lr _ _ _ _ _ _ Ho Hh Hk) as Hc. apply find_tail_spec; [done | | lia].
  intros E. by apply (chain_head _ _ _ Hc) in E.
Qed.
End arena.
