(* ===== verification/NameCodec.v ===== *)
(** Names of the master file table: UTF-16 to displayed text with counted loss, and to
    WTF-8 without loss ([crates/uffs-mft/src/io/parser/unified/name_codec.rs]). *)
From S2P Require Import Prelude Text NtfsRecords.

(** [char::REPLACEMENT_CHARACTER]. *)
Definition REPLACEMENT_CHARACTER : Z := 0xFFFD.

Definition is_high (u : Z) : bool := (0xD800 <=? u) && (u <=? 0xDBFF).
Definition is_low (u : Z) : bool := (0xDC00 <=? u) && (u <=? 0xDFFF).

(** [(code - 0xD800) << 10] and [low - 0xDC00] over [0x1_0000]. *)
Definition pair_code_point (code low : Z) : Z :=
  0x10000 + Z.shiftl (code - 0xD800) 10 + (low - 0xDC00).

(** [char::from_u32] of a decoded pair, or the replacement and one more replacement. *)
Definition push_pair (cp : Z) (out : list Z) (replacements : Z) : list Z * Z :=
  if is_scalar cp then (out ++ utf8_encode cp, replacements)
  else (out ++ utf8_encode REPLACEMENT_CHARACTER, saturating_add_u32 replacements 1).

(** The loop of [decode_utf16le_into]: the text so far and the replacements so far. *)
Fixpoint decode_loop (bytes : list Z) (out : list Z) (replacements : Z) : list Z * Z :=
  match bytes with
  | x :: y :: rest =>
      let code := from_le_bytes [x; y] in
      if is_high code then
        match rest with
        | x2 :: y2 :: rest2 =>
            let low := from_le_bytes [x2; y2] in
            if is_low low then
              let '(out, replacements) := push_pair (pair_code_point code low) out replacements in
              decode_loop rest2 out replacements
            else decode_loop rest (out ++ utf8_encode REPLACEMENT_CHARACTER) (saturating_add_u32 replacements 1)
        | _ => decode_loop rest (out ++ utf8_encode REPLACEMENT_CHARACTER) (saturating_add_u32 replacements 1)
        end
      else if is_low code then
        decode_loop rest (out ++ utf8_encode REPLACEMENT_CHARACTER) (saturating_add_u32 replacements 1)
      else decode_loop rest (if is_scalar code then out ++ utf8_encode code else out) replacements
  | _ => (out, replacements)
  end.

Definition decode_utf16le_into (bytes : list Z) : list Z * Z := decode_loop bytes [] 0.

(** [decode_name_u16]: the units back to little-endian bytes, then the decoder. *)
Definition decode_name_u16 (units : list Z) : list Z * Z :=
  decode_utf16le_into (concat (map (to_le_bytes 2) units)).

(** [cont] and [lead], the bytes of [push_wtf8]. *)
Definition wtf8_cont (x : Z) : Z := u8 (Z.lor 0x80 (Z.land x 0x3F)).
Definition wtf8_lead (prefix cp_shifted mask : Z) : Z := Z.lor prefix (u8 (Z.land cp_shifted mask)).

Definition push_wtf8 (cp : Z) (out : list Z) : list Z :=
  if cp <=? 0x7F then out ++ [u8 cp]
  else if cp <=? 0x7FF then out ++ [wtf8_lead 0xC0 (Z.shiftr cp 6) 0x1F; wtf8_cont cp]
  else if cp <=? 0xFFFF then
    out ++ [wtf8_lead 0xE0 (Z.shiftr cp 12) 0x0F; wtf8_cont (Z.shiftr cp 6); wtf8_cont cp]
  else
    out ++ [wtf8_lead 0xF0 (Z.shiftr cp 18) 0x07; wtf8_cont (Z.shiftr cp 12);
            wtf8_cont (Z.shiftr cp 6); wtf8_cont cp].

Fixpoint wtf8_loop (bytes : list Z) (out : list Z) : list Z :=
  match bytes with
  | x :: y :: rest =>
      let code := from_le_bytes [x; y] in
      if is_high code then
        match rest with
        | x2 :: y2 :: rest2 =>
            let low := from_le_bytes [x2; y2] in
            if is_low low then wtf8_loop rest2 (push_wtf8 (pair_code_point code low) out)
            else wtf8_loop rest (push_wtf8 code out)
        | _ => wtf8_loop rest (push_wtf8 code out)
        end
      else wtf8_loop rest (push_wtf8 code out)
  | _ => out
  end.

Definition wtf8_from_utf16le (bytes : list Z) : list Z := wtf8_loop bytes [].

(** What [store_name_lossless] stores. *)
Definition stored_name (display raw_utf16le : list Z) (lossy : Z) : list Z :=
  if lossy =? 0 then display else wtf8_from_utf16le raw_utf16le.

(** * The code points of a name *)

(** Surrogate pairs joined, every other unit as it is. *)
Fixpoint code_points_of (us : list Z) : list Z :=
  match us with
  | [] => []
  | u :: us' =>
      match us' with
      | v :: us'' =>
          if is_high u && is_low v then pair_code_point u v :: code_points_of us''
          else u :: code_points_of us'
      | [] => [u]
      end
  end.

(** The units of a code point. *)
Definition units_of (c : Z) : list Z :=
  if c <? 0x10000 then [c] else [0xD800 + (c - 0x10000) / 1024; 0xDC00 + (c - 0x10000) mod 1024].

Abbreviation utf16 us := (Forall (fun u => 0 <= u < 2 ^ 16) us).

(** The code point shown for [c]. *)
Definition shown (c : Z) : Z := if surrogate c then REPLACEMENT_CHARACTER else c.

Definition surrogates (cs : list Z) : Z := zlen (List.filter surrogate cs).

Lemma is_high_range u : is_high u = true <-> 0xD800 <= u <= 0xDBFF.
Proof. unfold is_high. lia. Qed.

Lemma is_low_range u : is_low u = true <-> 0xDC00 <= u <= 0xDFFF.
Proof. unfold is_low. lia. Qed.

Lemma pair_code_point_eq u v : pair_code_point u v = 0x10000 + (u - 0xD800) * 1024 + (v - 0xDC00).
Proof. unfold pair_code_point. rewrite Z.shiftl_mul_pow2 by lia. done. Qed.

Lemma pair_range u v : is_high u = true -> is_low v = true -> 0x10000 <= pair_code_point u v < 0x110000.
Proof. rewrite is_high_range, is_low_range, pair_code_point_eq. lia. Qed.

Lemma pair_not_surrogate u v : is_high u = true -> is_low v = true -> surrogate (pair_code_point u v) = false.
Proof. intros Hu Hv. pose proof (pair_range u v Hu Hv). unfold surrogate. lia. Qed.

Lemma pair_scalar u v : is_high u = true -> is_low v = true -> is_scalar (pair_code_point u v) = true.
Proof. intros Hu Hv. pose proof (pair_range u v Hu Hv). apply is_scalar_intro. lia. Qed.

Lemma utf16_units_utf16 bs : byte_list bs -> utf16 (utf16_units bs).
Proof.
  intros H. remember (length bs) as n eqn:E. assert (Hn : (length bs <= n)%nat) by lia. clear E. revert bs H Hn.
  induction n as [|n IH]; intros [|x [|y bs]] H Hn; cbn in *; try constructor; try lia;
    apply Forall_cons in H as [Hx H]; apply Forall_cons in H as [Hy H]; [lia |].
  apply IH; [done | lia].
Qed.

Lemma length_utf16_units bs : length (utf16_units bs) = (length bs / 2)%nat.
Proof.
  remember (length bs) as n eqn:E. revert bs E. induction n as [n IH] using lt_wf_ind. intros [|x [|y bs]] ->; [done..|].
  cbn [utf16_units length]. rewrite (IH (length bs)) by (cbn; lia || done).
  replace (S (S (length bs))) with (length bs + 1 * 2)%nat by lia. rewrite Nat.div_add by lia. lia.
Qed.

(** Induction on the loops of the decoders: two units at a pair, one elsewhere. *)
Lemma units_ind (P : list Z -> list Z -> Prop) :
  P [] [] ->
  (forall u v us cs, is_high u = true -> is_low v = true -> P us cs -> P (u :: v :: us) (pair_code_point u v :: cs)) ->
  (forall u us cs, (forall v us', us = v :: us' -> is_high u && is_low v = false) -> P us cs -> P (u :: us) (u :: cs)) ->
  forall us, P us (code_points_of us).
Proof.
  intros H0 H2 H1 us. remember (length us) as n eqn:E. assert (Hn : (length us <= n)%nat) by lia. clear E. revert us Hn.
  induction n as [|n IH]; intros us Hn; destruct us as [|u us]; [done | cbn in Hn; lia | done |].
  cbn [length] in Hn. destruct us as [|v us]; [apply (H1 u [] []); [congruence | done] |].
  change (code_points_of (u :: v :: us)) with
    (if is_high u && is_low v then pair_code_point u v :: code_points_of us else u :: code_points_of (v :: us)).
  destruct (is_high u && is_low v) eqn:Ep.
  - apply andb_true_iff in Ep as [Hu Hv]. apply H2; [done | done |]. apply IH. cbn [length] in Hn. lia.
  - apply H1; [| apply IH; lia]. by intros v' us' [= <- <-].
Qed.

Lemma code_points_of_range us : utf16 us -> code_points (code_points_of us).
Proof.
  apply (units_ind (fun us cs => utf16 us -> code_points cs)); [constructor | |].
  - intros u v us' cs Hu Hv IH [_ [_ H]%Forall_cons]%Forall_cons. constructor; [| by apply IH].
    pose proof (pair_range u v Hu Hv). lia.
  - intros u us' cs _ IH [Hu H]%Forall_cons. constructor; [lia | by apply IH].
Qed.

(** Joining pairs loses nothing. *)
Lemma units_of_code_points us : utf16 us -> concat (map units_of (code_points_of us)) = us.
Proof.
  apply (units_ind (fun us cs => utf16 us -> concat (map units_of cs) = us)); [done | |].
  - intros u v us' cs Hu Hv IH [_ [_ H]%Forall_cons]%Forall_cons. cbn [map concat]. rewrite IH by done.
    unfold units_of. pose proof (pair_range u v Hu Hv). test_false (pair_code_point u v <? 65536). cbn [app].
    rewrite pair_code_point_eq. apply is_high_range in Hu. apply is_low_range in Hv. f_equal; [digits | f_equal; digits].
  - intros u us' cs _ IH [Hu H]%Forall_cons. cbn [map concat]. rewrite IH by done. unfold units_of.
    by test_true (u <? 65536).
Qed.

Lemma code_points_of_inj us vs : utf16 us -> utf16 vs -> code_points_of us = code_points_of vs -> us = vs.
Proof. intros Hu Hv E. rewrite <- (units_of_code_points us Hu), E. by apply units_of_code_points. Qed.

(** * The encoder *)

Lemma wtf8_cont_eq x : 0 <= x -> wtf8_cont x = 0x80 + x mod 64.
Proof.
  intros Hx. unfold wtf8_cont. change 0x3F with (2 ^ 6 - 1). rewrite land_ones_mod by lia. change (2 ^ 6) with 64. rewrite Z.lor_comm.
  change (Z.lor (x mod 64) 128) with (Z.lor (x mod 64) (Z.shiftl 1 7)). pose proof (Z.mod_pos_bound x 64 ltac:(lia)).
  rewrite lor_shiftl_add by (change (2 ^ 7) with 128; lia). change (2 ^ 7) with 128. rewrite u8_small by lia. lia.
Qed.

Lemma wtf8_lead_eq b k x :
  0 <= x -> 0 < k <= 7 -> 0 <= x < 2 ^ k -> 0 <= b -> wtf8_lead (Z.shiftl b k) x (2 ^ k - 1) = b * 2 ^ k + x.
Proof.
  intros Hx Hk Hr Hb. unfold wtf8_lead. rewrite (land_ones_mod x k) by lia. rewrite Z.mod_small by done.
  assert (2 ^ k <= 2 ^ 7) by (apply Z.pow_le_mono_r; lia).
  rewrite u8_small by lia. rewrite Z.lor_comm, lor_shiftl_add by lia. lia.
Qed.

Lemma push_wtf8_eq cp out : 0 <= cp < 0x110000 -> push_wtf8 cp out = out ++ utf8_encode cp.
Proof.
  intros Hc. unfold push_wtf8, utf8_encode.
  destruct (Z.leb_spec cp 127); [test_true (cp <? 128); by rewrite u8_small by lia |]. test_false (cp <? 128).
  change 0xC0 with (Z.shiftl 6 5). change 0x1F with (2 ^ 5 - 1). change 0xE0 with (Z.shiftl 14 4). change 0x0F with (2 ^ 4 - 1).
  change 0xF0 with (Z.shiftl 30 3). change 0x07 with (2 ^ 3 - 1). rewrite !Z.shiftr_div_pow2 by lia.
  destruct (Z.leb_spec cp 2047); [test_true (cp <? 2048) | test_false (cp <? 2048); destruct (Z.leb_spec cp 65535);
    [test_true (cp <? 65536) | test_false (cp <? 65536)]];
    rewrite !wtf8_cont_eq by digits; rewrite wtf8_lead_eq by digits; reflexivity.
Qed.

(** The loops read whole units. *)
Lemma wtf8_loop_units bs out : byte_list bs -> wtf8_loop bs out = out ++ utf8_string (code_points_of (utf16_units bs)).
Proof.
  intros Hb. remember (length bs) as n eqn:E. revert bs out Hb E.
  induction n as [n IH] using lt_wf_ind. intros [|x [|y bs]] out Hb ->; [by rewrite app_nil_r..|].
  cbn [wtf8_loop utf16_units].
  pose proof (utf16_units_utf16 _ Hb) as Hu. cbn [utf16_units] in Hu.
  apply Forall_cons in Hb as [Hx Hb]. apply Forall_cons in Hb as [Hy Hb]. set (code := from_le_bytes [x; y]) in *.
  apply Forall_cons in Hu as [Hc Hu].
  assert (Hone : (forall v us', utf16_units bs = v :: us' -> is_high code && is_low v = false) ->
                 wtf8_loop bs (push_wtf8 code out) = out ++ utf8_string (code_points_of (code :: utf16_units bs))).
  { intros Hn. rewrite (IH (length bs)) by (cbn; done || lia). rewrite push_wtf8_eq by lia.
    cbn [code_points_of]. destruct (utf16_units bs) as [|v us]; [by rewrite <- app_assoc |].
    rewrite (Hn v us eq_refl), utf8_string_cons, <- app_assoc. done. }
  destruct (is_high code) eqn:Eh; [| apply Hone; done].
  destruct bs as [|x2 [|y2 bs2]]; [by apply Hone.. |].
  cbn [utf16_units] in *. set (low := from_le_bytes [x2; y2]) in *.
  destruct (is_low low) eqn:El; [| apply Hone; by intros v us' [= <- <-]].
  apply Forall_cons in Hb as [_ Hb]. apply Forall_cons in Hb as [_ Hb].
  rewrite (IH (length bs2)) by (cbn; done || lia). cbn [code_points_of]. rewrite Eh, El. cbn [andb].
  rewrite push_wtf8_eq by (pose proof (pair_range _ _ Eh El); lia). by rewrite utf8_string_cons, <- app_assoc.
Qed.

Lemma saturating_step a b : 0 <= a -> 0 <= b -> saturating_add_u32 (saturating_add_u32 a 1) b = saturating_add_u32 a (1 + b).
Proof. unfold saturating_add_u32, U32_MAX. lia. Qed.

Lemma surrogates_cons c cs : surrogates (c :: cs) = (if surrogate c then 1 else 0) + surrogates cs.
Proof. unfold surrogates. cbn [List.filter]. destruct (surrogate c); [apply zlen_cons | done]. Qed.

Lemma surrogates_nonneg cs : 0 <= surrogates cs.
Proof. apply zlen_nonneg. Qed.

Lemma surrogate_high_low u : surrogate u = is_high u || is_low u.
Proof. unfold surrogate, is_high, is_low. lia. Qed.

Lemma shown_cons c cs : utf8_string (map shown (c :: cs)) = utf8_encode (shown c) ++ utf8_string (map shown cs).
Proof. by rewrite <- utf8_string_cons. Qed.

Lemma decode_loop_units bs out r :
  byte_list bs -> 0 <= r ->
  decode_loop bs out r =
    (out ++ utf8_string (map shown (code_points_of (utf16_units bs))),
     if surrogates (code_points_of (utf16_units bs)) =? 0 then r
     else saturating_add_u32 r (surrogates (code_points_of (utf16_units bs)))).
Proof.
  intros Hb. remember (length bs) as n eqn:E. revert bs out r Hb E.
  induction n as [n IH] using lt_wf_ind. intros [|x [|y bs]] out r Hb -> Hr; [by rewrite app_nil_r..|].
  cbn [decode_loop utf16_units].
  pose proof (utf16_units_utf16 _ Hb) as Hu. cbn [utf16_units] in Hu.
  apply Forall_cons in Hb as [Hx Hb]. apply Forall_cons in Hb as [Hy Hb]. set (code := from_le_bytes [x; y]) in *.
  apply Forall_cons in Hu as [Hc Hu].
  assert (Hs : forall us, (forall v us', us = v :: us' -> is_high code && is_low v = false) ->
               code_points_of (code :: us) = code :: code_points_of us).
  { intros [|v us] Hn; [done |]. cbn [code_points_of]. by rewrite (Hn v us eq_refl). }
  assert (Hone : (forall v us', utf16_units bs = v :: us' -> is_high code && is_low v = false) -> surrogate code = true ->
    decode_loop bs (out ++ utf8_encode REPLACEMENT_CHARACTER) (saturating_add_u32 r 1) =
    (out ++ utf8_string (map shown (code_points_of (code :: utf16_units bs))),
     if surrogates (code_points_of (code :: utf16_units bs)) =? 0 then r
     else saturating_add_u32 r (surrogates (code_points_of (code :: utf16_units bs))))).
  { intros Hn Es. rewrite (IH (length bs)) by (cbn; done || lia || (unfold saturating_add_u32, U32_MAX; lia)).
    rewrite Hs by done. rewrite surrogates_cons, shown_cons, Es. unfold shown at 2. rewrite Es, <- app_assoc. f_equal.
    pose proof (surrogates_nonneg (code_points_of (utf16_units bs))).
    test_false (1 + surrogates (code_points_of (utf16_units bs)) =? 0).
    rewrite <- saturating_step by lia. destruct (Z.eqb_spec (surrogates (code_points_of (utf16_units bs))) 0) as [-> |]; [|done].
    unfold saturating_add_u32, U32_MAX. lia. }
  destruct (is_high code) eqn:Eh.
  - assert (Es : surrogate code = true) by (rewrite surrogate_high_low, Eh; done).
    destruct bs as [|x2 [|y2 bs2]]; [by apply Hone.. |].
    cbn [utf16_units] in *. set (low := from_le_bytes [x2; y2]) in *.
    destruct (is_low low) eqn:El; [| apply Hone; [by intros v us' [= <- <-] | done]].
    apply Forall_cons in Hb as [_ Hb]. apply Forall_cons in Hb as [_ Hb].
    unfold push_pair. rewrite pair_scalar by done. rewrite (IH (length bs2)) by (cbn; done || lia).
    cbn [code_points_of]. rewrite Eh, El. cbn [andb]. rewrite surrogates_cons, shown_cons.
    unfold shown at 2. by rewrite pair_not_surrogate, Z.add_0_l, <- app_assoc by done.
  - destruct (is_low code) eqn:El.
    + apply Hone; [done |]. by rewrite surrogate_high_low, El, orb_true_r.
    + assert (Es : surrogate code = false) by (by rewrite surrogate_high_low, Eh, El).
      rewrite scalar_surrogate, Es by lia. cbn [negb]. rewrite (IH (length bs)) by (cbn; done || lia).
      rewrite Hs by done. rewrite surrogates_cons, shown_cons, Es, Z.add_0_l. unfold shown at 2. by rewrite Es, <- app_assoc.
Qed.

Lemma wtf8_from_utf16le_eq bs : byte_list bs -> wtf8_from_utf16le bs = utf8_string (code_points_of (utf16_units bs)).
Proof. intros H. unfold wtf8_from_utf16le. by rewrite wtf8_loop_units. Qed.

Lemma decode_utf16le_into_eq bs :
  byte_list bs ->
  decode_utf16le_into bs =
    (utf8_string (map shown (code_points_of (utf16_units bs))),
     Z.min U32_MAX (surrogates (code_points_of (utf16_units bs)))).
Proof.
  intros H. unfold decode_utf16le_into. rewrite decode_loop_units by done || lia. cbn [app]. f_equal.
  pose proof (surrogates_nonneg (code_points_of (utf16_units bs))).
  destruct (Z.eqb_spec (surrogates (code_points_of (utf16_units bs))) 0) as [-> |]; [done |].
  unfold saturating_add_u32. f_equal.
Qed.

Lemma surrogates_0 cs : surrogates cs = 0 -> map shown cs = cs.
Proof.
  induction cs as [|c cs IH]; [done |]. rewrite surrogates_cons. pose proof (surrogates_nonneg cs). cbn [map]. unfold shown at 1.
  destruct (surrogate c); intros E; [lia |]. by rewrite IH.
Qed.

(** What is stored for a name is its WTF-8, whatever was shown. *)
Lemma stored_name_wtf8 bs :
  byte_list bs ->
  stored_name (decode_utf16le_into bs).1 bs (decode_utf16le_into bs).2 = utf8_string (code_points_of (utf16_units bs)).
Proof.
  intros H. rewrite decode_utf16le_into_eq by done. cbn [fst snd]. unfold stored_name.
  pose proof (surrogates_nonneg (code_points_of (utf16_units bs))).
  destruct (Z.eqb_spec (Z.min U32_MAX (surrogates (code_points_of (utf16_units bs)))) 0) as [E | E].
  - unfold U32_MAX in E. rewrite surrogates_0 by lia. done.
  - by apply wtf8_from_utf16le_eq.
Qed.

(** Bounds on what is stored: three bytes per unit. *)
Lemma length_utf8_encode c : (length (utf8_encode c) <= if (c <? 0x10000)%Z then 3 else 4)%nat.
Proof.
  unfold utf8_encode. destruct (Z.ltb_spec c 65536), (Z.ltb_spec c 2048), (Z.ltb_spec c 128); cbn; lia.
Qed.

Lemma wtf8_length us : utf16 us -> zlen (utf8_string (code_points_of us)) <= 3 * zlen us.
Proof.
  apply (units_ind (fun us cs => utf16 us -> zlen (utf8_string cs) <= 3 * zlen us)); [done | |].
  - intros u v us' cs Hu Hv IH [_ [_ H]%Forall_cons]%Forall_cons. specialize (IH H). rewrite utf8_string_cons, zlen_app, !zlen_cons.
    pose proof (length_utf8_encode (pair_code_point u v)) as Hl. unfold zlen at 1. destruct (_ <? _) in Hl; lia.
  - intros u us' cs _ IH [Hu H]%Forall_cons. specialize (IH H). rewrite utf8_string_cons, zlen_app, zlen_cons.
    pose proof (length_utf8_encode u) as Hl. replace (u <? 65536) with true in Hl by lia. unfold zlen at 1. lia.
Qed.

Lemma no_surrogates cs : forallb (fun c => negb (surrogate c)) cs = true -> surrogates cs = 0.
Proof.
  induction cs as [|c cs IH]; [done |]. cbn [forallb]. rewrite andb_true_iff, surrogates_cons.
  intros [H1%negb_true_iff H2]. rewrite H1. by rewrite IH.
Qed.

Lemma utf16_units_inj bs bs' :
  byte_list bs -> byte_list bs' -> Nat.even (length bs) = true -> Nat.even (length bs') = true ->
  utf16_units bs = utf16_units bs' -> bs = bs'.
Proof.
  intros Hb. remember (length bs) as n eqn:E. revert bs bs' Hb E.
  induction n as [n IH] using lt_wf_ind. intros bs bs' Hb -> Hb' He He' Eu.
  destruct bs as [|x [|y bs]], bs' as [|x' [|y' bs']]; try done; [].
  cbn [utf16_units] in Eu. injection Eu as E1 E2.
  apply Forall_cons in Hb as [Hx [Hy Hb]%Forall_cons]. apply Forall_cons in Hb' as [Hx' [Hy' Hb']%Forall_cons].
  cbn [from_le_bytes] in E1. f_equal; [lia |]. f_equal; [lia |].
  apply (IH (length bs)) with (bs := bs); try done. cbn. lia.
Qed.

(** C22: two names of the table stored as the same bytes are the same sequence of UTF-16
    units, surrogates without a partner included: nothing is lost in the index.  What is
    shown is always UTF-8; it is the stored name exactly when the decoder counted no
    replacement, and the count is the number of unpaired surrogates. *)
Theorem name_codec_lossless bs bs' :
  byte_list bs -> byte_list bs' -> Nat.even (length bs) = true -> Nat.even (length bs') = true ->
  (stored_name (decode_utf16le_into bs).1 bs (decode_utf16le_into bs).2 =
   stored_name (decode_utf16le_into bs').1 bs' (decode_utf16le_into bs').2 -> bs = bs') /\
  utf8_valid (decode_utf16le_into bs).1 = true /\
  (decode_utf16le_into bs).2 = Z.min U32_MAX (surrogates (code_points_of (utf16_units bs))) /\
  ((decode_utf16le_into bs).2 = 0 <->
   (decode_utf16le_into bs).1 = stored_name (decode_utf16le_into bs).1 bs (decode_utf16le_into bs).2).
Proof.
  intros Hb Hb' He He'. pose proof (utf16_units_utf16 bs Hb) as Hu. pose proof (code_points_of_range _ Hu) as Hr.
  pose proof (utf16_units_utf16 bs' Hb') as Hu'. pose proof (code_points_of_range _ Hu') as Hr'.
  rewrite !stored_name_wtf8 by done. split; [|split; [|split]].
  - intros E%wtf8_inj; [|done|done]. apply code_points_of_inj in E; [|done|done]. by apply utf16_units_inj.
  - rewrite decode_utf16le_into_eq by done. apply utf8_valid_string. apply Forall_map.
    eapply Forall_impl; [exact Hr |]. intros c Hc. unfold shown. destruct (surrogate c) eqn:E; [done |].
    by rewrite scalar_surrogate, E.
  - by rewrite decode_utf16le_into_eq.
  - rewrite decode_utf16le_into_eq by done. cbn [fst snd].
    pose proof (surrogates_nonneg (code_points_of (utf16_units bs))). split; intros E.
    + unfold U32_MAX in E. by rewrite surrogates_0 by lia.
    + assert (Hv : utf8_valid (utf8_string (code_points_of (utf16_units bs))) = true).
      { rewrite <- E. apply utf8_valid_string. apply Forall_map. eapply Forall_impl; [exact Hr |].
        intros c Hc. unfold shown. destruct (surrogate c) eqn:Es; [done |]. by rewrite scalar_surrogate, Es. }
      rewrite utf8_valid_wtf8 in Hv by done. by rewrite no_surrogates.
Qed.

(** [a] followed by the unit 0xD83D alone, and by U+FFFD: shown alike, stored apart. *)
Definition lone_surrogate_name : list Z := [0x61; 0; 0x3D; 0xD8].
Definition replacement_name : list Z := [0x61; 0; 0xFD; 0xFF].

Lemma name_codec_lossless_witness :
  (decode_utf16le_into lone_surrogate_name).1 = (decode_utf16le_into replacement_name).1 /\
  stored_name (decode_utf16le_into lone_surrogate_name).1 lone_surrogate_name (decode_utf16le_into lone_surrogate_name).2 <>
  stored_name (decode_utf16le_into replacement_name).1 replacement_name (decode_utf16le_into replacement_name).2.
Proof.
  split; [vm_compute; reflexivity |]. intros E.
  assert (Hb : lone_surrogate_name = replacement_name); [|discriminate].
  refine (proj1 (name_codec_lossless lone_surrogate_name replacement_name _ _ _ _) E);
    try reflexivity; repeat (apply Forall_cons; split; [lia |]); constructor.
Defined.
