(* ===== verification/VssHelper.v ===== *)
(** The Broker's own VSS backend: [crates/uffs-broker/src/broker/snapshot_manager/vss_helper.rs].

    A snapshot lives as long as its helper process, and the helper as long as its session
    in the provider's map.  Windows, the pipes, the helper processes and the JSON of their
    lines are a class over a state they thread; the provider is an instance of
    [VssProvider] and, when helpers never report a snapshot identifier twice, of
    [VssLaws], so what SnapshotLeases shows of the lease manager holds of the one the
    Broker runs.  Last, what becomes of a lease whose release fails. *)
From stdpp Require Import strings.
From S2P Require Import Prelude Text NtfsRecords SnapshotCodec SnapshotLeases NameCodec.
Open Scope Z_scope.
Open Scope rust_scope.

(** * The helper's protocol *)

Inductive HelperEvent :=
| Ready (snapshot_id : list Z) (snapshot_device_object : option (list Z))
| HelperReleased
| HelperFailed (stage hresult : Z) (message : list Z)
| Pong.

Inductive BrokerCommand := ReleaseCommand | Ping.

(** [CreateNamedPipeW] with its checks, [spawn_helper], [ConnectNamedPipe], [File::try_clone],
    [serde_json::to_string], [writeln] with [flush], [read_helper_event], and the closing of
    what a value owned; an error is its text. *)
Class Helpers (E : Type) := {
  Pipe : Type;
  PendingSpawn : Type;
  create_control_pipe : E -> list Z -> result Pipe (list Z) * E;
  spawn_helper : E -> list Z -> list Z -> result PendingSpawn (list Z) * E;
  connect_pipe : E -> Pipe -> result unit (list Z) * E;
  try_clone : E -> Pipe -> result unit (list Z) * E;
  command_to_string : BrokerCommand -> result (list Z) (list Z);
  write_line : E -> Pipe -> list Z -> result unit (list Z) * E;
  read_helper_event : E -> Pipe -> result (option HelperEvent) (list Z) * E;
  close_pipe : E -> Pipe -> E;
  close_handles : E -> PendingSpawn -> E
}.

(** The pipe stands for its reader and its writer; the handles are the process and the job. *)
Record HelperSession (E : Type) `{Helpers E} := mkHelperSession { session_pipe : Pipe; session_handles : PendingSpawn }.
Arguments mkHelperSession {E _}.
Arguments session_pipe {E _}.
Arguments session_handles {E _}.

(** The provider, its environment, and, as history the source does not have, the identifiers
    whose deletion failed. *)
Record WindowsVssProvider (E : Type) `{Helpers E} := mkProvider {
  sessions : gmap (list Z) (HelperSession E);
  next_pipe_id : Z;
  env : E;
  failed_deletions : gset (list Z)
}.
Arguments mkProvider {E _}.
Arguments sessions {E _}.
Arguments next_pipe_id {E _}.
Arguments env {E _}.
Arguments failed_deletions {E _}.

(** * Text *)

(** [String::from_utf16]: no lone surrogate. *)
Definition decode_utf16le (bytes : list Z) : option (list Z) :=
  if negb (zlen bytes mod 2 =? 0) then None else
  let cs := code_points_of (utf16_units bytes) in
  if existsb surrogate cs then None else Some (utf8_string cs).

(** The hexadecimal digits of [{:x}] and [{:016x}], and [Display] of an [i32]. *)
Definition hex_digit (d : Z) : Z := if d <? 10 then 48 + d else 87 + d.

Fixpoint hex_fixed (width : nat) (n : Z) : list Z :=
  match width with O => [] | S width => hex_fixed width (n / 16) ++ [hex_digit (n mod 16)] end.

Fixpoint hex_digits (fuel : nat) (n : Z) : list Z :=
  match fuel with
  | O => []
  | S fuel => if n <? 16 then [hex_digit n] else hex_digits fuel (n / 16) ++ [hex_digit (n mod 16)]
  end.

(** [{:#x}] of an [i32]: the digits of its two's complement. *)
Definition hex_i32 (n : Z) : list Z := str "0x" ++ hex_digits 8 (n mod 2 ^ 32).
Definition display_i32 (n : Z) : list Z := if n <? 0 then str "-" ++ digits 10 (- n) else digits 10 n.

Definition failure_text (stage hresult : Z) (message : list Z) : list Z :=
  str "stage=" ++ display_i32 stage ++ str " hresult=" ++ hex_i32 hresult ++ str ": " ++ message.

Definition pipe_name_of (pipe_id : Z) : list Z := str "\\.\pipe\uffs-vss-requestor-" ++ hex_fixed 16 pipe_id.

(** * The provider *)

Section provider.
Context {E : Type} `{!Helpers E}.
Implicit Types p : WindowsVssProvider E.

Definition windows_new (e : E) : WindowsVssProvider E := mkProvider ∅ 1 e ∅.

Definition with_env p (e : E) : WindowsVssProvider E := mkProvider (sessions p) (next_pipe_id p) e (failed_deletions p).

(** [Drop] of a session: the job and the process, which kills the helper, then the pipe. *)
Definition drop_session (e : E) (session : HelperSession E) : E :=
  close_pipe (close_handles e (session_handles session)) (session_pipe session).

Definition wait_for_helper_ready (e : E) (pipe : Pipe) : result HelperEvent VssError * E :=
  let (connected, e) := connect_pipe e pipe in
  match connected with
  | Err err => (Err (CreateFailed None (str "helper did not connect to control pipe: " ++ err)), close_pipe e pipe)
  | Ok _ =>
      let (writer, e) := try_clone e pipe in
      match writer with
      | Err err => (Err (CreateFailed None (str "failed to clone pipe handle: " ++ err)), close_pipe e pipe)
      | Ok _ =>
          let (event, e) := read_helper_event e pipe in
          match event with
          | Err err => (Err (CreateFailed None (str "failed to read helper event: " ++ err)), close_pipe e pipe)
          | Ok None =>
              (Err (CreateFailed None (str "helper closed the control pipe before reporting readiness")), close_pipe e pipe)
          | Ok (Some event) => (Ok event, e)
          end
      end
  end.

(** [HashMap::insert] drops the session it replaces. *)
Definition insert_session p (snapshot_id : list Z) (session : HelperSession E) : WindowsVssProvider E :=
  let e := match sessions p !! snapshot_id with Some old => drop_session (env p) old | None => env p end in
  mkProvider (<[snapshot_id := session]> (sessions p)) (next_pipe_id p) e (failed_deletions p).

Definition finish_create_snapshot p (pending : PendingSpawn) (pipe : Pipe) (event : HelperEvent)
  : result SnapshotHandle VssError * WindowsVssProvider E :=
  let abandoned := with_env p (close_handles (close_pipe (env p) pipe) pending) in
  match event with
  | Ready snapshot_id snapshot_device_object =>
      (Ok (mkSnapshotHandle snapshot_id (default [] snapshot_device_object)),
       insert_session p snapshot_id (mkHelperSession pipe pending))
  | HelperFailed stage hresult message =>
      (Err (CreateFailed (Some hresult) (failure_text stage hresult message)), abandoned)
  | HelperReleased | Pong =>
      (Err (CreateFailed None (str "unexpected event from helper before Ready")), abandoned)
  end.

(** The volume identity is not used. *)
Definition windows_create_snapshot p (volume : VolumeIdentity) (requested_root : list Z)
  : result SnapshotHandle VssError * WindowsVssProvider E :=
  match decode_utf16le requested_root with
  | None => (Err (InvalidVolume (str "requested_root is not valid UTF-16LE")), p)
  | Some volume_path =>
      let pipe_name := pipe_name_of (next_pipe_id p) in
      let p := mkProvider (sessions p) (next_pipe_id p +w 1) (env p) (failed_deletions p) in
      let (pipe, e) := create_control_pipe (env p) pipe_name in
      match pipe with
      | Err err => (Err (CreateFailed None (str "failed to create control pipe: " ++ err)), with_env p e)
      | Ok pipe =>
          let (pending, e) := spawn_helper e pipe_name volume_path in
          match pending with
          | Err err => (Err (CreateFailed None (str "failed to spawn uffs-vss-requestor: " ++ err)), with_env p e)
          | Ok pending =>
              let (event, e) := wait_for_helper_ready e pipe in
              match event with
              | Err err => (Err err, with_env p (close_handles e pending))
              | Ok event => finish_create_snapshot (with_env p e) pending pipe event
              end
          end
      end
  end.

(** The conversation of [delete_snapshot] with the helper. *)
Definition release_helper (e : E) (pipe : Pipe) : result unit VssError * E :=
  match command_to_string ReleaseCommand with
  | Err err => (Err (DeleteFailed (str "failed to encode Release: " ++ err)), e)
  | Ok line =>
      let (written, e) := write_line e pipe line in
      match written with
      | Err err => (Err (DeleteFailed (str "failed to send Release: " ++ err)), e)
      | Ok _ =>
          let (event, e) := read_helper_event e pipe in
          (match event with
           | Err err => Err (DeleteFailed (str "failed to read helper response: " ++ err))
           | Ok (Some HelperReleased) | Ok None => Ok tt
           | Ok (Some (HelperFailed stage hresult message)) => Err (DeleteFailed (failure_text stage hresult message))
           | Ok (Some (Ready _ _)) | Ok (Some Pong) => Err (DeleteFailed (str "unexpected event from helper after Release"))
           end, e)
      end
  end.

Definition no_session : VssError := DeleteFailed (str "no live session for this snapshot").

(** The session leaves the map first and is dropped whatever the helper answers. *)
Definition windows_delete_snapshot p (snapshot_id : list Z) : result unit VssError * WindowsVssProvider E :=
  match sessions p !! snapshot_id with
  | None => (Err no_session, mkProvider (sessions p) (next_pipe_id p) (env p) ({[ snapshot_id ]} ∪ failed_deletions p))
  | Some session =>
      let (deleted, e) := release_helper (env p) (session_pipe session) in
      (deleted,
       mkProvider (delete snapshot_id (sessions p)) (next_pipe_id p) (drop_session e session)
         (match deleted with Ok _ => failed_deletions p | Err _ => {[ snapshot_id ]} ∪ failed_deletions p end))
  end.

Definition windows_list_existing_snapshots p : result (list (list Z)) VssError * WindowsVssProvider E := (Ok [], p).

(** [ping_lease]: the session is put back whatever the helper answers. *)
Definition send_ping_and_await_pong (e : E) (pipe : Pipe) : result unit (list Z) * E :=
  match command_to_string Ping with
  | Err err => (Err (str "failed to encode Ping: " ++ err), e)
  | Ok line =>
      let (written, e) := write_line e pipe line in
      match written with
      | Err err => (Err (str "failed to send Ping: " ++ err), e)
      | Ok _ =>
          let (event, e) := read_helper_event e pipe in
          (match event with
           | Err err => Err (str "failed to read helper response: " ++ err)
           | Ok (Some Pong) => Ok tt
           | Ok (Some (HelperFailed stage hresult message)) => Err (failure_text stage hresult message)
           | Ok (Some (Ready _ _)) | Ok (Some HelperReleased) => Err (str "unexpected event from helper after Ping")
           | Ok None => Err (str "helper closed the control pipe before replying to Ping")
           end, e)
      end
  end.

Definition ping_lease p (snapshot_id : list Z) : result unit (list Z) * WindowsVssProvider E :=
  match sessions p !! snapshot_id with
  | None => (Err (str "no live session for this snapshot"), p)
  | Some session =>
      let (answer, e) := send_ping_and_await_pong (env p) (session_pipe session) in
      (answer, mkProvider (<[snapshot_id := session]> (delete snapshot_id (sessions p))) (next_pipe_id p) e (failed_deletions p))
  end.

#[export] Instance windows_provider : VssProvider (WindowsVssProvider E) := {
  create_snapshot := windows_create_snapshot;
  delete_snapshot := windows_delete_snapshot;
  list_existing_snapshots := windows_list_existing_snapshots
}.
End provider.

(** * The laws *)

(** A helper that is ready reports the identifier of its own snapshot, a GUID that no helper
    has reported; nothing else gives identifiers back. *)
Class HelperLaws (E : Type) `{!Helpers E} := {
  reported : E -> gset (list Z);
  create_control_pipe_law e name : reported e ⊆ reported (create_control_pipe e name).2;
  spawn_helper_law e name volume : reported e ⊆ reported (spawn_helper e name volume).2;
  connect_pipe_law e pipe : reported e ⊆ reported (connect_pipe e pipe).2;
  try_clone_law e pipe : reported e ⊆ reported (try_clone e pipe).2;
  write_line_law e pipe line : reported e ⊆ reported (write_line e pipe line).2;
  read_helper_event_law e pipe :
    reported e ⊆ reported (read_helper_event e pipe).2 /\
    forall id device, (read_helper_event e pipe).1 = Ok (Some (Ready id device)) ->
      (id ∉ reported e) /\ id ∈ reported (read_helper_event e pipe).2;
  close_pipe_law e pipe : reported e ⊆ reported (close_pipe e pipe);
  close_handles_law e pending : reported e ⊆ reported (close_handles e pending)
}.

Section laws.
Context {E : Type} `{!Helpers E} `{!HelperLaws E}.
Implicit Types p : WindowsVssProvider E.

Lemma drop_session_law (e : E) s : reported e ⊆ reported (drop_session e s).
Proof. etransitivity; [apply close_handles_law | apply close_pipe_law]. Qed.

Lemma wait_for_helper_ready_law (e : E) pipe :
  reported e ⊆ reported (wait_for_helper_ready e pipe).2 /\
  forall id device, (wait_for_helper_ready e pipe).1 = Ok (Ready id device) ->
    (id ∉ reported e) /\ id ∈ reported (wait_for_helper_ready e pipe).2.
Proof.
  unfold wait_for_helper_ready. pose proof (connect_pipe_law e pipe) as H1.
  destruct (connect_pipe e pipe) as [[] e1]; cbn in H1 |- *; [|split; [|done]; etransitivity; [exact H1 | apply close_pipe_law]].
  pose proof (try_clone_law e1 pipe) as H2.
  destruct (try_clone e1 pipe) as [[] e2]; cbn in H2 |- *; [|split; [|done]; do 2 (etransitivity; [eassumption |]); apply close_pipe_law].
  pose proof (read_helper_event_law e2 pipe) as [H3 H4].
  destruct (read_helper_event e2 pipe) as [[[event |] | err] e3]; cbn in H3, H4 |- *;
    [|split; [|done]; do 3 (etransitivity; [eassumption |]); apply close_pipe_law..].
  split; [by do 2 (etransitivity; [eassumption |]) |]. intros id device [= ->].
  destruct (H4 id device eq_refl) as [H5 H6]. split; [|done]. set_solver.
Qed.

Lemma release_helper_law (e : E) pipe : reported e ⊆ reported (release_helper e pipe).2.
Proof.
  unfold release_helper. destruct (command_to_string _) as [line |]; [|done].
  pose proof (write_line_law e pipe line) as H1. destruct (write_line e pipe line) as [[] e1]; cbn in H1 |- *; [|done].
  pose proof (proj1 (read_helper_event_law e1 pipe)) as H2. destruct (read_helper_event e1 pipe) as [ev e2]. cbn in H2 |- *. set_solver.
Qed.

(** The outcome of a creation: a fresh identifier with a session, or nothing new. *)
Lemma create_outcome p volume root :
  let (r, p') := windows_create_snapshot p volume root in
  failed_deletions p' = failed_deletions p /\ reported (env p) ⊆ reported (env p') /\
  match r with
  | Ok h => (h_snapshot_id h ∉ reported (env p)) /\ h_snapshot_id h ∈ reported (env p') /\
            dom (sessions p') = {[ h_snapshot_id h ]} ∪ dom (sessions p)
  | Err _ => sessions p' = sessions p
  end.
Proof.
  unfold windows_create_snapshot. destruct (decode_utf16le root) as [path |]; [|done]. cbn [env].
  pose proof (create_control_pipe_law (env p) (pipe_name_of (next_pipe_id p))) as H1.
  destruct (create_control_pipe _ _) as [[pipe |] e1]; cbn in H1; [|done].
  pose proof (spawn_helper_law e1 (pipe_name_of (next_pipe_id p)) path) as H2.
  destruct (spawn_helper e1 _ _) as [[pending |] e2]; cbn in H2; [|split_and!; [done | cbn; set_solver | done]].
  pose proof (wait_for_helper_ready_law e2 pipe) as [H3 H4].
  destruct (wait_for_helper_ready e2 pipe) as [[event |] e3]; cbn in H3, H4.
  2: { pose proof (close_handles_law e3 pending). split_and!; [done | cbn; set_solver | done]. }
  assert (H5 : reported e3 ⊆ reported (close_handles (close_pipe e3 pipe) pending))
    by (etransitivity; [apply close_pipe_law | apply close_handles_law]).
  destruct event as [id device | | stage hr msg |]; cbn -[drop_session dom];
    [|split_and!; [done | set_solver | done]..].
  destruct (H4 id device eq_refl) as [H6 H7]. split_and!; [done | | set_solver | | by rewrite dom_insert_L].
  - destruct (sessions p !! id) as [old |]; [|set_solver]. pose proof (drop_session_law e3 old). set_solver.
  - destruct (sessions p !! id) as [old |]; [|set_solver]. pose proof (drop_session_law e3 old). set_solver.
Qed.

#[export, refine] Instance windows_laws : VssLaws (WindowsVssProvider E) := {
  retained p := dom (sessions p);
  issued p := reported (env p);
  undeleted := failed_deletions
}.
Proof.
  - intros p volume root. cbn [create_snapshot windows_provider]. pose proof (create_outcome p volume root) as H.
    destruct (windows_create_snapshot p volume root) as [[h | err] p']; destruct H as (H1 & H2 & H3).
    + destruct H3 as (H3 & H4 & H5). split_and!; [done | done | set_solver | done].
    + by rewrite H3.
  - intros p id. cbn [delete_snapshot windows_provider]. unfold windows_delete_snapshot.
    destruct (sessions p !! id) as [session |] eqn:Es; [|cbn; auto].
    pose proof (release_helper_law (env p) (session_pipe session)) as H1.
    destruct (release_helper _ _) as [[[] | err] e]; cbn -[drop_session] in *; pose proof (drop_session_law e session);
      rewrite dom_delete_L; split_and!; auto; set_solver.
  - intros p. cbn. split; [intros id Hid; by apply not_elem_of_nil in Hid | done].
Defined.

(** So the Broker's lease manager keeps the ledger: on its own backend, the snapshot of an
    active lease has a live session unless a deletion of it failed, and every session has a
    holder that was not released. *)
Theorem windows_ledger (e : E) w :
  reachable (windows_new e) w -> ledger_ok ∅ (ledger w).
Proof. intros H%reachable_ledger_ok. cbn in H. by rewrite dom_empty_L in H. Qed.

(** Nothing is listed, so reconciling at start-up deletes nothing. *)
Theorem windows_reconcile_nothing (m : SnapshotLeaseManager (WindowsVssProvider E)) :
  reconcile_at_startup m = (Ok 0, m).
Proof. by destruct m. Qed.

End laws.

(** * A failed release *)

Section failed_release.
Context {E : Type} `{!Helpers E}.
Implicit Types m : SnapshotLeaseManager (WindowsVssProvider E).

Definition retry_release (i : Z) m : SnapshotLeaseManager (WindowsVssProvider E) := (release_lease i m).2.

Lemma release_without_session i r m :
  leases m !! i = Some r -> state r = RActive -> sessions (provider m) !! snapshot_id r = None ->
  (release_lease i m).1 = Err (Vss no_session) /\ leases (retry_release i m) = leases m /\
  sessions (provider (retry_release i m)) = sessions (provider m).
Proof.
  intros Hi Ha Hs. unfold retry_release, release_lease. rewrite Hi. rewrite bool_decide_eq_false_2 by tauto.
  cbn. unfold windows_delete_snapshot. by rewrite Hs.
Qed.

(** When the helper fails a release, its session is dropped, and the snapshot with it, but the
    lease stays active: every retry fails, and until its expiry the lease is reported
    active, its device is handed out and it can be renewed. *)
Theorem failed_release_strands_lease order i r err m m1 n now e :
  leases m !! i = Some r -> state r = RActive -> release_lease i m = (Err err, m1) ->
  let m' := Nat.iter n (retry_release i) m1 in
  visits_all order m' -> now < expires_at_unix_ms r ->
  sessions (provider m') !! snapshot_id r = None /\ leases m' !! i = Some r /\
  (release_lease i m').1 = Err (Vss no_session) /\
  (query_lease order i now m').1 =
    Some (mkLeaseStatus Active (snapshot_id r) (created_at_unix_ms r) (expires_at_unix_ms r)) /\
  (device_identity_if_active order i now m').1 = Some (device_identity r) /\
  (renew_lease order i e now m').1 = Ok e.
Proof.
  intros Hi Ha Hr m' Ho Hnow.
  assert (H1 : leases m1 !! i = Some r /\ sessions (provider m1) !! snapshot_id r = None).
  { unfold release_lease in Hr. rewrite Hi, bool_decide_eq_false_2 in Hr by tauto. cbn in Hr.
    unfold windows_delete_snapshot in Hr. destruct (sessions (provider m) !! snapshot_id r) as [session |] eqn:Es.
    - destruct (release_helper _ _) as [[|] ?]; [done |]. injection Hr as _ <-. cbn. split; [done | apply lookup_delete_eq].
    - by injection Hr as _ <-. }
  assert (H2 : leases m' !! i = Some r /\ sessions (provider m') !! snapshot_id r = None).
  { unfold m'. clear -H1 Ha. induction n as [|n [IH1 IH2]]; [done |].
    change (Nat.iter (S n) (retry_release i) m1) with (retry_release i (Nat.iter n (retry_release i) m1)).
    destruct (release_without_session i r _ IH1 Ha IH2) as (_ & E1 & E2). rewrite E1, E2. by split. }
  destruct H2 as [H2 H3]. destruct (release_without_session i r m' H2 Ha H3) as (H4 & _).
  pose proof (sweep_all_lookup order now m' i Ho) as Hsw. rewrite H2 in Hsw. cbn in Hsw.
  unfold swept, overdue in Hsw. rewrite bool_decide_eq_true_2 in Hsw by done.
  replace (expires_at_unix_ms r <=? now) with false in Hsw by lia. cbn in Hsw.
  unfold query_lease, device_identity_if_active, renew_lease, renew_locked. cbv zeta. rewrite Hsw.
  rewrite bool_decide_eq_true_2, bool_decide_eq_false_2 by tauto. rewrite Ha. by split_and!.
Qed.

End failed_release.

(** ** A sample *)

(** Helpers that get ready with numbered snapshots and fail to release. *)
Definition numbered_id (n : nat) : list Z := [Z.of_nat n].

#[export, refine] Instance sample_helpers : Helpers nat := {
  Pipe := unit; PendingSpawn := unit;
  create_control_pipe e _ := (Ok tt, e);
  spawn_helper e _ _ := (Ok tt, e);
  connect_pipe e _ := (Ok tt, e);
  try_clone e _ := (Ok tt, e);
  command_to_string c := Ok [];
  write_line e _ _ := (Ok tt, e);
  read_helper_event e _ :=
    (Ok (Some (if Nat.even e then Ready (numbered_id e) None else HelperFailed 3 (-1) (str "busy"))), S e);
  close_pipe e _ := e;
  close_handles e _ := e
}.
Defined.

#[export, refine] Instance sample_helper_laws : HelperLaws nat := {
  reported e := list_to_set (map numbered_id (seq 0 e))
}.
Proof.
  all: try done.
  intros e pipe. cbn [read_helper_event sample_helpers fst snd]. rewrite seq_S, map_app, list_to_set_app_L. split; [set_solver |].
  intros id device H. destruct (Nat.even e); [|done]. injection H as <- _. split; [|cbn; set_solver].
  rewrite elem_of_list_to_set, list_elem_of_fmap. intros (k & Ek & Hk%elem_of_seq). injection Ek. lia.
Defined.

Definition sample_manager : SnapshotLeaseManager (WindowsVssProvider nat) :=
  (create_lease [] fake_volume [67; 0; 58; 0] 60 1000 (manager_new (windows_new 0%nat))).2.

Lemma windows_ledger_witness : ledger_ok ∅ (ledger (mkWorld sample_manager ∅)).
Proof.
  apply (windows_ledger 0%nat). apply (create_lease_steps 0); [|done | by_eval]. unfold visits_all. by vm_compute.
Defined.

Lemma failed_release_strands_lease_witness :
  (query_lease [1] 1 60000 (retry_release 1 (retry_release 1 sample_manager))).1 =
    Some (mkLeaseStatus Active [0] 1000 61000) /\
  sessions (provider (retry_release 1 (retry_release 1 sample_manager))) !! [0] = None.
Proof.
  destruct (failed_release_strands_lease [1] 1 (mkLeaseRecord [0] [] 1000 61000 RActive)
    (Vss (DeleteFailed (failure_text 3 (-1) (str "busy")))) sample_manager (retry_release 1 sample_manager) 1 60000 90000)
    as (H1 & _ & _ & H2 & _).
  - by vm_compute.
  - done.
  - by vm_compute.
  - unfold visits_all. by vm_compute.
  - done.
  - exact (conj H2 H1).
Defined.
