(* ===== verification/MftIndex.v ===== *)
(** The in-memory index of a master file table: its records, the lookup by record number,
    the names buffer, the extension table and the arenas of overflow names, streams,
    internal streams and child entries ([crates/uffs-mft/src/index/types.rs], [model.rs],
    [base.rs], [extensions.rs], [standard_info.rs], [paths.rs], [convert.rs]). *)
From S2P Require Import Prelude Text Arena.

Definition ROOT_FRS : Z := 5.

(** [len_to_u32], [len_to_u16], [frs_to_usize] (64-bit targets). *)
Definition len_to_u32 (len : Z) : Z := if len <? 2 ^ 32 then len else U32_MAX.
Definition len_to_u16 (len : Z) : Z := if len <? 2 ^ 16 then len else U16_MAX.
Definition frs_to_usize (frs : Z) : Z := if frs <? 2 ^ 64 then frs else U64_MAX.

(** * References to names *)

Record IndexNameRef := { nr_offset : Z; nr_meta : Z }.

Definition LENGTH_MASK : Z := 0x3FF.
Definition FLAGS_SHIFT : Z := 10.
Definition FLAGS_MASK : Z := Z.shiftl 0x3F 10.
Definition EXT_ID_SHIFT : Z := 16.
Definition EXT_ID_MASK : Z := Z.shiftl 0xFFFF 16.
Definition IS_ASCII : Z := 1.

Definition IndexNameRef_new (offset length : Z) (is_ascii : bool) (extension_id : Z) : IndexNameRef :=
  let length_bits := Z.land length LENGTH_MASK in
  let flags_bits := if is_ascii then Z.shiftl IS_ASCII FLAGS_SHIFT else 0 in
  let ext_id_bits := u32 (Z.shiftl extension_id EXT_ID_SHIFT) in
  {| nr_offset := offset; nr_meta := Z.lor (Z.lor length_bits flags_bits) ext_id_bits |}.

Definition name_len (r : IndexNameRef) : Z := u16 (Z.land r.(nr_meta) LENGTH_MASK).
Definition name_flags (r : IndexNameRef) : Z :=
  u8 (Z.land (Z.shiftr r.(nr_meta) FLAGS_SHIFT) (Z.shiftr FLAGS_MASK FLAGS_SHIFT)).
Definition extension_id (r : IndexNameRef) : Z :=
  u16 (Z.land (Z.shiftr r.(nr_meta) EXT_ID_SHIFT) (Z.shiftr EXT_ID_MASK EXT_ID_SHIFT)).
Definition name_is_ascii (r : IndexNameRef) : bool :=
  negb (Z.land r.(nr_meta) (Z.shiftl IS_ASCII FLAGS_SHIFT) =? 0).
Definition remap_extension_id (r : IndexNameRef) (new_extension_id : Z) : IndexNameRef :=
  {| nr_offset := r.(nr_offset);
     nr_meta := Z.lor (Z.land r.(nr_meta) (U32_MAX - EXT_ID_MASK)) (u32 (Z.shiftl new_extension_id EXT_ID_SHIFT)) |}.
Definition is_valid (r : IndexNameRef) : bool := negb (r.(nr_offset) =? NO_ENTRY).

Definition no_name : IndexNameRef := {| nr_offset := NO_ENTRY; nr_meta := 0 |}.

(** * Cells and records (padding apart) *)

Record LinkInfo := { li_next : Z; li_name : IndexNameRef; li_parent_frs : Z }.

Record SizeInfo := { sz_length : Z; sz_allocated : Z }.

Record IndexStreamInfo := { st_size : SizeInfo; st_next : Z; st_name : IndexNameRef; st_flags : Z }.

Definition stream_is_sparse (s : IndexStreamInfo) : bool := negb (Z.land s.(st_flags) 0x01 =? 0).
Definition stream_is_resident (s : IndexStreamInfo) : bool := negb (Z.land s.(st_flags) 0x02 =? 0).
Definition type_name_id (s : IndexStreamInfo) : Z := Z.shiftr s.(st_flags) 2.
Definition is_output_stream (s : IndexStreamInfo) : bool :=
  (type_name_id s =? 0) || (type_name_id s =? 8).

Record InternalStreamInfo := { in_size : SizeInfo; in_next : Z; in_flags : Z }.

Record ChildInfo := { ch_next : Z; ch_child_frs : Z; ch_name_index : Z }.

#[export] Program Instance LinkInfo_linked : Linked LinkInfo := {
  next_entry := li_next;
  set_next x n := {| li_next := n; li_name := x.(li_name); li_parent_frs := x.(li_parent_frs) |} }.
Solve Obligations with done.

#[export] Program Instance IndexStreamInfo_linked : Linked IndexStreamInfo := {
  next_entry := st_next;
  set_next x n := {| st_size := x.(st_size); st_next := n; st_name := x.(st_name); st_flags := x.(st_flags) |} }.
Solve Obligations with done.

#[export] Program Instance InternalStreamInfo_linked : Linked InternalStreamInfo := {
  next_entry := in_next;
  set_next x n := {| in_size := x.(in_size); in_next := n; in_flags := x.(in_flags) |} }.
Solve Obligations with done.

#[export] Program Instance ChildInfo_linked : Linked ChildInfo := {
  next_entry := ch_next;
  set_next x n := {| ch_next := n; ch_child_frs := x.(ch_child_frs); ch_name_index := x.(ch_name_index) |} }.
Solve Obligations with done.

Record StandardInfo := {
  si_created : Z; si_modified : Z; si_accessed : Z; si_mft_changed : Z; si_flags : Z;
  si_usn : Z; si_security_id : Z; si_owner_id : Z
}.

Definition default_stdinfo : StandardInfo :=
  {| si_created := 0; si_modified := 0; si_accessed := 0; si_mft_changed := 0; si_flags := 0;
     si_usn := 0; si_security_id := 0; si_owner_id := 0 |}.

Definition IS_READONLY : Z := 0x0001.
Definition IS_HIDDEN : Z := 0x0002.
Definition IS_SYSTEM : Z := 0x0004.
Definition IS_DIRECTORY : Z := 0x0010.
Definition IS_ARCHIVE : Z := 0x0020.
Definition IS_TEMPORARY : Z := 0x0100.
Definition IS_SPARSE : Z := 0x0200.
Definition IS_REPARSE : Z := 0x0400.
Definition IS_COMPRESSED : Z := 0x0800.
Definition IS_OFFLINE : Z := 0x1000.
Definition IS_NOT_INDEXED : Z := 0x2000.
Definition IS_ENCRYPTED : Z := 0x4000.
Definition IS_INTEGRITY_STREAM : Z := 0x8000.
Definition IS_VIRTUAL : Z := 0x00010000.
Definition IS_NO_SCRUB_DATA : Z := 0x00020000.
Definition IS_PINNED : Z := 0x00080000.
Definition IS_UNPINNED : Z := 0x00100000.
Definition IS_RECALL_ON_OPEN : Z := 0x00040000.
Definition IS_RECALL_ON_DATA_ACCESS : Z := 0x00400000.

(** [StandardInfo::is_directory] and its siblings, one per flag. *)
Definition has_flag (flag : Z) (i : StandardInfo) : bool := negb (Z.land i.(si_flags) flag =? 0).

Definition set_flags (v : Z) (i : StandardInfo) : StandardInfo :=
  {| si_created := i.(si_created); si_modified := i.(si_modified); si_accessed := i.(si_accessed);
     si_mft_changed := i.(si_mft_changed); si_flags := v; si_usn := i.(si_usn);
     si_security_id := i.(si_security_id); si_owner_id := i.(si_owner_id) |}.

Definition set_directory (i : StandardInfo) (val : bool) : StandardInfo :=
  set_flags (if val then Z.lor i.(si_flags) IS_DIRECTORY
             else Z.land i.(si_flags) (U32_MAX - IS_DIRECTORY)) i.

Record FileRecord := mk_file_record {
  fr_frs : Z;
  fr_sequence_number : Z;
  fr_namespace : Z;
  fr_forensic_flags : Z;
  fr_lsn : Z;
  fr_reparse_tag : Z;
  fr_base_frs : Z;
  fr_stdinfo : StandardInfo;
  fr_name_count : Z;
  fr_stream_count : Z;
  fr_total_stream_count : Z;
  fr_first_internal_stream : Z;
  fr_first_child : Z;
  fr_first_name : LinkInfo;
  fr_first_stream : IndexStreamInfo;
  fr_fn_created : Z;
  fr_fn_modified : Z;
  fr_fn_accessed : Z;
  fr_fn_mft_changed : Z;
  fr_descendants : Z;
  fr_treesize : Z;
  fr_tree_allocated : Z;
  fr_internal_streams_size : Z;
  fr_internal_streams_allocated : Z;
}.

Definition set_sequence (v_sequence_number v_lsn : Z) (r : FileRecord) : FileRecord :=
  mk_file_record r.(fr_frs) v_sequence_number r.(fr_namespace) r.(fr_forensic_flags) v_lsn r.(fr_reparse_tag)
    r.(fr_base_frs) r.(fr_stdinfo) r.(fr_name_count) r.(fr_stream_count) r.(fr_total_stream_count)
    r.(fr_first_internal_stream) r.(fr_first_child) r.(fr_first_name) r.(fr_first_stream) r.(fr_fn_created)
    r.(fr_fn_modified) r.(fr_fn_accessed) r.(fr_fn_mft_changed) r.(fr_descendants) r.(fr_treesize)
    r.(fr_tree_allocated) r.(fr_internal_streams_size) r.(fr_internal_streams_allocated).

Definition set_stdinfo (v_stdinfo : StandardInfo) (r : FileRecord) : FileRecord :=
  mk_file_record r.(fr_frs) r.(fr_sequence_number) r.(fr_namespace) r.(fr_forensic_flags) r.(fr_lsn)
    r.(fr_reparse_tag) r.(fr_base_frs) v_stdinfo r.(fr_name_count) r.(fr_stream_count)
    r.(fr_total_stream_count) r.(fr_first_internal_stream) r.(fr_first_child) r.(fr_first_name)
    r.(fr_first_stream) r.(fr_fn_created) r.(fr_fn_modified) r.(fr_fn_accessed) r.(fr_fn_mft_changed)
    r.(fr_descendants) r.(fr_treesize) r.(fr_tree_allocated) r.(fr_internal_streams_size)
    r.(fr_internal_streams_allocated).

Definition set_first_name (v_first_name : LinkInfo) (r : FileRecord) : FileRecord :=
  mk_file_record r.(fr_frs) r.(fr_sequence_number) r.(fr_namespace) r.(fr_forensic_flags) r.(fr_lsn)
    r.(fr_reparse_tag) r.(fr_base_frs) r.(fr_stdinfo) r.(fr_name_count) r.(fr_stream_count)
    r.(fr_total_stream_count) r.(fr_first_internal_stream) r.(fr_first_child) v_first_name r.(fr_first_stream)
    r.(fr_fn_created) r.(fr_fn_modified) r.(fr_fn_accessed) r.(fr_fn_mft_changed) r.(fr_descendants)
    r.(fr_treesize) r.(fr_tree_allocated) r.(fr_internal_streams_size) r.(fr_internal_streams_allocated).

Definition set_fn_fields (v_namespace v_fn_created v_fn_modified v_fn_accessed v_fn_mft_changed : Z) (r : FileRecord) : FileRecord :=
  mk_file_record r.(fr_frs) r.(fr_sequence_number) v_namespace r.(fr_forensic_flags) r.(fr_lsn)
    r.(fr_reparse_tag) r.(fr_base_frs) r.(fr_stdinfo) r.(fr_name_count) r.(fr_stream_count)
    r.(fr_total_stream_count) r.(fr_first_internal_stream) r.(fr_first_child) r.(fr_first_name)
    r.(fr_first_stream) v_fn_created v_fn_modified v_fn_accessed v_fn_mft_changed r.(fr_descendants)
    r.(fr_treesize) r.(fr_tree_allocated) r.(fr_internal_streams_size) r.(fr_internal_streams_allocated).

Definition set_name_count (v_name_count : Z) (r : FileRecord) : FileRecord :=
  mk_file_record r.(fr_frs) r.(fr_sequence_number) r.(fr_namespace) r.(fr_forensic_flags) r.(fr_lsn)
    r.(fr_reparse_tag) r.(fr_base_frs) r.(fr_stdinfo) v_name_count r.(fr_stream_count)
    r.(fr_total_stream_count) r.(fr_first_internal_stream) r.(fr_first_child) r.(fr_first_name)
    r.(fr_first_stream) r.(fr_fn_created) r.(fr_fn_modified) r.(fr_fn_accessed) r.(fr_fn_mft_changed)
    r.(fr_descendants) r.(fr_treesize) r.(fr_tree_allocated) r.(fr_internal_streams_size)
    r.(fr_internal_streams_allocated).

Definition set_first_child (v_first_child : Z) (r : FileRecord) : FileRecord :=
  mk_file_record r.(fr_frs) r.(fr_sequence_number) r.(fr_namespace) r.(fr_forensic_flags) r.(fr_lsn)
    r.(fr_reparse_tag) r.(fr_base_frs) r.(fr_stdinfo) r.(fr_name_count) r.(fr_stream_count)
    r.(fr_total_stream_count) r.(fr_first_internal_stream) v_first_child r.(fr_first_name) r.(fr_first_stream)
    r.(fr_fn_created) r.(fr_fn_modified) r.(fr_fn_accessed) r.(fr_fn_mft_changed) r.(fr_descendants)
    r.(fr_treesize) r.(fr_tree_allocated) r.(fr_internal_streams_size) r.(fr_internal_streams_allocated).

Definition set_first_stream (v_first_stream : IndexStreamInfo) (r : FileRecord) : FileRecord :=
  mk_file_record r.(fr_frs) r.(fr_sequence_number) r.(fr_namespace) r.(fr_forensic_flags) r.(fr_lsn)
    r.(fr_reparse_tag) r.(fr_base_frs) r.(fr_stdinfo) r.(fr_name_count) r.(fr_stream_count)
    r.(fr_total_stream_count) r.(fr_first_internal_stream) r.(fr_first_child) r.(fr_first_name) v_first_stream
    r.(fr_fn_created) r.(fr_fn_modified) r.(fr_fn_accessed) r.(fr_fn_mft_changed) r.(fr_descendants)
    r.(fr_treesize) r.(fr_tree_allocated) r.(fr_internal_streams_size) r.(fr_internal_streams_allocated).

Definition set_forensic_flags_byte (v_forensic_flags : Z) (r : FileRecord) : FileRecord :=
  mk_file_record r.(fr_frs) r.(fr_sequence_number) r.(fr_namespace) v_forensic_flags r.(fr_lsn)
    r.(fr_reparse_tag) r.(fr_base_frs) r.(fr_stdinfo) r.(fr_name_count) r.(fr_stream_count)
    r.(fr_total_stream_count) r.(fr_first_internal_stream) r.(fr_first_child) r.(fr_first_name)
    r.(fr_first_stream) r.(fr_fn_created) r.(fr_fn_modified) r.(fr_fn_accessed) r.(fr_fn_mft_changed)
    r.(fr_descendants) r.(fr_treesize) r.(fr_tree_allocated) r.(fr_internal_streams_size)
    r.(fr_internal_streams_allocated).

Definition set_stream_counts (v_stream_count v_total_stream_count : Z) (r : FileRecord) : FileRecord :=
  mk_file_record r.(fr_frs) r.(fr_sequence_number) r.(fr_namespace) r.(fr_forensic_flags) r.(fr_lsn)
    r.(fr_reparse_tag) r.(fr_base_frs) r.(fr_stdinfo) r.(fr_name_count) v_stream_count v_total_stream_count
    r.(fr_first_internal_stream) r.(fr_first_child) r.(fr_first_name) r.(fr_first_stream) r.(fr_fn_created)
    r.(fr_fn_modified) r.(fr_fn_accessed) r.(fr_fn_mft_changed) r.(fr_descendants) r.(fr_treesize)
    r.(fr_tree_allocated) r.(fr_internal_streams_size) r.(fr_internal_streams_allocated).

Definition set_first_internal_stream (v_first_internal_stream : Z) (r : FileRecord) : FileRecord :=
  mk_file_record r.(fr_frs) r.(fr_sequence_number) r.(fr_namespace) r.(fr_forensic_flags) r.(fr_lsn)
    r.(fr_reparse_tag) r.(fr_base_frs) r.(fr_stdinfo) r.(fr_name_count) r.(fr_stream_count)
    r.(fr_total_stream_count) v_first_internal_stream r.(fr_first_child) r.(fr_first_name) r.(fr_first_stream)
    r.(fr_fn_created) r.(fr_fn_modified) r.(fr_fn_accessed) r.(fr_fn_mft_changed) r.(fr_descendants)
    r.(fr_treesize) r.(fr_tree_allocated) r.(fr_internal_streams_size) r.(fr_internal_streams_allocated).

Definition set_internal_sizes (v_internal_streams_size v_internal_streams_allocated : Z) (r : FileRecord) : FileRecord :=
  mk_file_record r.(fr_frs) r.(fr_sequence_number) r.(fr_namespace) r.(fr_forensic_flags) r.(fr_lsn)
    r.(fr_reparse_tag) r.(fr_base_frs) r.(fr_stdinfo) r.(fr_name_count) r.(fr_stream_count)
    r.(fr_total_stream_count) r.(fr_first_internal_stream) r.(fr_first_child) r.(fr_first_name)
    r.(fr_first_stream) r.(fr_fn_created) r.(fr_fn_modified) r.(fr_fn_accessed) r.(fr_fn_mft_changed)
    r.(fr_descendants) r.(fr_treesize) r.(fr_tree_allocated) v_internal_streams_size
    v_internal_streams_allocated.

Definition set_reparse_tag (v_reparse_tag : Z) (r : FileRecord) : FileRecord :=
  mk_file_record r.(fr_frs) r.(fr_sequence_number) r.(fr_namespace) r.(fr_forensic_flags) r.(fr_lsn)
    v_reparse_tag r.(fr_base_frs) r.(fr_stdinfo) r.(fr_name_count) r.(fr_stream_count)
    r.(fr_total_stream_count) r.(fr_first_internal_stream) r.(fr_first_child) r.(fr_first_name)
    r.(fr_first_stream) r.(fr_fn_created) r.(fr_fn_modified) r.(fr_fn_accessed) r.(fr_fn_mft_changed)
    r.(fr_descendants) r.(fr_treesize) r.(fr_tree_allocated) r.(fr_internal_streams_size)
    r.(fr_internal_streams_allocated).

Definition set_tree_metrics (v_descendants v_treesize v_tree_allocated : Z) (r : FileRecord) : FileRecord :=
  mk_file_record r.(fr_frs) r.(fr_sequence_number) r.(fr_namespace) r.(fr_forensic_flags) r.(fr_lsn)
    r.(fr_reparse_tag) r.(fr_base_frs) r.(fr_stdinfo) r.(fr_name_count) r.(fr_stream_count)
    r.(fr_total_stream_count) r.(fr_first_internal_stream) r.(fr_first_child) r.(fr_first_name)
    r.(fr_first_stream) r.(fr_fn_created) r.(fr_fn_modified) r.(fr_fn_accessed) r.(fr_fn_mft_changed)
    v_descendants v_treesize v_tree_allocated r.(fr_internal_streams_size) r.(fr_internal_streams_allocated).

(** [FileRecord::new_unified] and [FileRecord::new]: the second starts the counts at 1. *)
Definition no_link : LinkInfo := {| li_next := NO_ENTRY; li_name := no_name; li_parent_frs := NO_ENTRY |}.
Definition no_stream : IndexStreamInfo :=
  {| st_size := {| sz_length := 0; sz_allocated := 0 |}; st_next := NO_ENTRY; st_name := no_name; st_flags := 0 |}.

Definition new_record (flags count frs : Z) : FileRecord :=
  {| fr_frs := frs; fr_sequence_number := 0; fr_namespace := 0; fr_forensic_flags := flags; fr_lsn := 0;
     fr_reparse_tag := 0; fr_base_frs := 0; fr_stdinfo := default_stdinfo; fr_name_count := count;
     fr_stream_count := count; fr_total_stream_count := count; fr_first_internal_stream := NO_ENTRY;
     fr_first_child := NO_ENTRY; fr_first_name := no_link; fr_first_stream := no_stream; fr_fn_created := 0;
     fr_fn_modified := 0; fr_fn_accessed := 0; fr_fn_mft_changed := 0; fr_descendants := 0; fr_treesize := 0;
     fr_tree_allocated := 0; fr_internal_streams_size := 0; fr_internal_streams_allocated := 0 |}.

Definition FileRecord_new : Z -> FileRecord := new_record 0 1.
Definition FileRecord_new_unified : Z -> FileRecord := new_record 0x20 0.

Definition is_directory (r : FileRecord) : bool := has_flag IS_DIRECTORY r.(fr_stdinfo).
Definition has_name (r : FileRecord) : bool := is_valid r.(fr_first_name).(li_name).
Definition has_base_data (r : FileRecord) : bool := negb (r.(fr_stdinfo).(si_created) =? 0).

(** The accessors of [forensic_flags]. *)
Definition flag_bit (mask : Z) (r : FileRecord) : bool := negb (Z.land r.(fr_forensic_flags) mask =? 0).
Definition is_deleted : FileRecord -> bool := flag_bit 0x01.
Definition is_corrupt : FileRecord -> bool := flag_bit 0x02.
Definition is_extension : FileRecord -> bool := flag_bit 0x04.
Definition has_default_data : FileRecord -> bool := flag_bit 0x08.
Definition has_i30_stream : FileRecord -> bool := flag_bit 0x10.
Definition is_unified : FileRecord -> bool := flag_bit 0x20.
Definition set_has_default_data (r : FileRecord) : FileRecord :=
  set_forensic_flags_byte (Z.lor r.(fr_forensic_flags) 0x08) r.
Definition set_has_i30_stream (r : FileRecord) : FileRecord :=
  set_forensic_flags_byte (Z.lor r.(fr_forensic_flags) 0x10) r.
Definition set_forensic_flags (deleted corrupt extension : bool) (r : FileRecord) : FileRecord :=
  set_forensic_flags_byte
    (Z.lor (Z.lor (Z.lor (Z.land r.(fr_forensic_flags) 0x38) (Z.b2z deleted)) (Z.shiftl (Z.b2z corrupt) 1))
           (Z.shiftl (Z.b2z extension) 2)) r.

(** * The extension table *)

Record ExtensionTable := {
  et_names : list (list Z); et_counts : list Z; et_bytes : list Z; et_map : gmap (list Z) Z
}.

Definition ExtensionTable_new : ExtensionTable :=
  {| et_names := [[]]; et_counts := [0]; et_bytes := [0]; et_map := {[ [] := 0 ]} |}.

Fixpoint trim_start_dots (s : list Z) : list Z :=
  match s with
  | c :: s' => if c =? DOT then trim_start_dots s' else s
  | [] => []
  end.

Section lowercase.
(** [str::to_lowercase] of the standard library. *)
Context (to_lowercase : list Z -> list Z).

Definition intern (extension : list Z) (t : ExtensionTable) : Z * ExtensionTable :=
  if bool_decide (extension = []) then (0, t) else
  let normalized := to_lowercase (trim_start_dots extension) in
  if bool_decide (normalized = []) then (0, t) else
  match t.(et_map) !! normalized with
  | Some id => (id, t)
  | None =>
      let id := len_to_u16 (zlen t.(et_names)) in
      if id =? U16_MAX then (0, t) else
      (id, {| et_names := t.(et_names) ++ [normalized]; et_counts := t.(et_counts) ++ [0];
              et_bytes := t.(et_bytes) ++ [0]; et_map := <[normalized := id]> t.(et_map) |})
  end.

(** [MftIndex::intern_extension], on the extension table. *)
Definition intern_extension (filename : list Z) (t : ExtensionTable) : Z * ExtensionTable :=
  match rfind_byte DOT filename with
  | Some dot_pos =>
      if (dot_pos >? 0) && (dot_pos <? zlen filename - 1) then
        match get_from filename (dot_pos + 1) with
        | Some extension => intern extension t
        | None => (0, t)
        end
      else (0, t)
  | None => (0, t)
  end.
End lowercase.

Definition record_file (extension_id file_size : Z) (t : ExtensionTable) : ExtensionTable :=
  match zget t.(et_counts) extension_id, zget t.(et_bytes) extension_id with
  | Some count, Some bytes =>
      {| et_names := t.(et_names); et_counts := zset t.(et_counts) extension_id (u32 (count + 1));
         et_bytes := zset t.(et_bytes) extension_id (u64 (bytes + file_size)); et_map := t.(et_map) |}
  | _, _ => t
  end.

Definition get_extension (t : ExtensionTable) (extension_id : Z) : option (list Z) := zget t.(et_names) extension_id.
Definition get_count (t : ExtensionTable) (extension_id : Z) : Z := default 0 (zget t.(et_counts) extension_id).
Definition get_bytes (t : ExtensionTable) (extension_id : Z) : Z := default 0 (zget t.(et_bytes) extension_id).

(** * The index *)

(** Statistics, the extension postings, the forensic switch and the build time are not
    read by the operations modelled here. *)
Record MftIndex := mk_index {
  ix_volume : Z;
  ix_records : list FileRecord;
  ix_frs_to_idx : list Z;
  ix_names : list Z;
  ix_links : list LinkInfo;
  ix_streams : list IndexStreamInfo;
  ix_internal_streams : list InternalStreamInfo;
  ix_children : list ChildInfo;
  ix_extensions : ExtensionTable;
  ix_reserved_allocated_bytes : Z
}.

Definition MftIndex_new (volume : Z) : MftIndex :=
  mk_index volume [] [] [] [] [] [] [] ExtensionTable_new 0.

Definition with_records (v : list FileRecord) (ix : MftIndex) : MftIndex :=
  mk_index ix.(ix_volume) v ix.(ix_frs_to_idx) ix.(ix_names) ix.(ix_links) ix.(ix_streams)
    ix.(ix_internal_streams) ix.(ix_children) ix.(ix_extensions) ix.(ix_reserved_allocated_bytes).
Definition with_frs_to_idx (v : list Z) (ix : MftIndex) : MftIndex :=
  mk_index ix.(ix_volume) ix.(ix_records) v ix.(ix_names) ix.(ix_links) ix.(ix_streams)
    ix.(ix_internal_streams) ix.(ix_children) ix.(ix_extensions) ix.(ix_reserved_allocated_bytes).
Definition with_names (v : list Z) (ix : MftIndex) : MftIndex :=
  mk_index ix.(ix_volume) ix.(ix_records) ix.(ix_frs_to_idx) v ix.(ix_links) ix.(ix_streams)
    ix.(ix_internal_streams) ix.(ix_children) ix.(ix_extensions) ix.(ix_reserved_allocated_bytes).
Definition with_links (v : list LinkInfo) (ix : MftIndex) : MftIndex :=
  mk_index ix.(ix_volume) ix.(ix_records) ix.(ix_frs_to_idx) ix.(ix_names) v ix.(ix_streams)
    ix.(ix_internal_streams) ix.(ix_children) ix.(ix_extensions) ix.(ix_reserved_allocated_bytes).
Definition with_streams (v : list IndexStreamInfo) (ix : MftIndex) : MftIndex :=
  mk_index ix.(ix_volume) ix.(ix_records) ix.(ix_frs_to_idx) ix.(ix_names) ix.(ix_links) v
    ix.(ix_internal_streams) ix.(ix_children) ix.(ix_extensions) ix.(ix_reserved_allocated_bytes).
Definition with_internal_streams (v : list InternalStreamInfo) (ix : MftIndex) : MftIndex :=
  mk_index ix.(ix_volume) ix.(ix_records) ix.(ix_frs_to_idx) ix.(ix_names) ix.(ix_links) ix.(ix_streams)
    v ix.(ix_children) ix.(ix_extensions) ix.(ix_reserved_allocated_bytes).
Definition with_children (v : list ChildInfo) (ix : MftIndex) : MftIndex :=
  mk_index ix.(ix_volume) ix.(ix_records) ix.(ix_frs_to_idx) ix.(ix_names) ix.(ix_links) ix.(ix_streams)
    ix.(ix_internal_streams) v ix.(ix_extensions) ix.(ix_reserved_allocated_bytes).
Definition with_extensions (v : ExtensionTable) (ix : MftIndex) : MftIndex :=
  mk_index ix.(ix_volume) ix.(ix_records) ix.(ix_frs_to_idx) ix.(ix_names) ix.(ix_links) ix.(ix_streams)
    ix.(ix_internal_streams) ix.(ix_children) v ix.(ix_reserved_allocated_bytes).

(** [records[i].field = ..]: [None] is an index out of range. *)
Definition update_record (i : Z) (f : FileRecord -> FileRecord) (ix : MftIndex) : option MftIndex :=
  let? r := zget ix.(ix_records) i in
  Some (with_records (zset ix.(ix_records) i (f r)) ix).

(** [resize(len, NO_ENTRY)] when [frs] is beyond the table. *)
Definition grow_lookup (frs : Z) (table : list Z) : list Z :=
  if zlen table <=? frs then table ++ zrepeat NO_ENTRY (frs + 1 - zlen table) else table.

(** [ensure_record], [get_or_create_unified] and [get_or_create]: they differ in the
    record pushed. *)
Definition ensure_with (fresh : Z -> FileRecord) (frs : Z) (ix : MftIndex) : option (Z * MftIndex) :=
  let frs_usize := frs_to_usize frs in
  let table := grow_lookup frs_usize ix.(ix_frs_to_idx) in
  let? idx := zget table frs_usize in
  if idx =? NO_ENTRY then
    let new_idx := len_to_u32 (zlen ix.(ix_records)) in
    Some (new_idx, with_records (ix.(ix_records) ++ [fresh frs]) (with_frs_to_idx (zset table frs_usize new_idx) ix))
  else Some (idx, with_frs_to_idx table ix).

Definition ensure_record : Z -> MftIndex -> option (Z * MftIndex) := ensure_with FileRecord_new_unified.
Definition get_or_create_unified : Z -> MftIndex -> option (Z * MftIndex) := ensure_with FileRecord_new_unified.
Definition get_or_create : Z -> MftIndex -> option (Z * MftIndex) := ensure_with FileRecord_new.

Definition pre_size_frs_lookup (total_records : Z) (ix : MftIndex) : MftIndex :=
  let capacity := total_records + total_records / 10 in
  if capacity >? zlen ix.(ix_frs_to_idx) then
    with_frs_to_idx (ix.(ix_frs_to_idx) ++ zrepeat NO_ENTRY (capacity - zlen ix.(ix_frs_to_idx))) ix
  else ix.

Definition frs_to_idx_opt (frs : Z) (ix : MftIndex) : option Z :=
  let? idx := zget ix.(ix_frs_to_idx) (frs_to_usize frs) in
  if idx =? NO_ENTRY then None else Some idx.

Definition find (frs : Z) (ix : MftIndex) : option FileRecord :=
  let? idx := frs_to_idx_opt frs ix in
  zget ix.(ix_records) idx.

Definition add_name_bytes (name : list Z) (ix : MftIndex) : Z * MftIndex :=
  (if zlen ix.(ix_names) <? 2 ^ 32 then zlen ix.(ix_names) else U32_MAX,
   with_names (ix.(ix_names) ++ name) ix).

Definition name_bytes (names : list Z) (r : IndexNameRef) : list Z :=
  if is_valid r then
    let start := r.(nr_offset) in
    default [] (get_range names start (start + name_len r))
  else [].

Definition get_name_bytes (ix : MftIndex) (r : IndexNameRef) : list Z := name_bytes ix.(ix_names) r.

(** [get_name]: the text when it is UTF-8, and otherwise the empty string. *)
Definition get_name (ix : MftIndex) (r : IndexNameRef) : list Z :=
  let bytes := get_name_bytes ix r in
  if utf8_valid bytes then bytes else [].

Definition record_name (ix : MftIndex) (r : FileRecord) : list Z := get_name ix r.(fr_first_name).(li_name).
Definition link_name (ix : MftIndex) (l : LinkInfo) : list Z := get_name ix l.(li_name).
Definition stream_name (ix : MftIndex) (s : IndexStreamInfo) : list Z := get_name ix s.(st_name).

Definition file_count (ix : MftIndex) : Z := zlen (List.filter (fun r => negb (is_directory r)) ix.(ix_records)).
Definition dir_count (ix : MftIndex) : Z := zlen (List.filter is_directory ix.(ix_records)).

(** * Names and streams of a record *)

(** [NameIter] and [StreamIter]: the inline one, then the list it starts; the fuel is the
    arena, one more than any list. *)
Definition iter_names (ix : MftIndex) (r : FileRecord) : list LinkInfo :=
  r.(fr_first_name) :: follow (S (length ix.(ix_links))) ix.(ix_links) r.(fr_first_name).(li_next).

Definition iter_streams (ix : MftIndex) (r : FileRecord) : list IndexStreamInfo :=
  r.(fr_first_stream) :: follow (S (length ix.(ix_streams))) ix.(ix_streams) r.(fr_first_stream).(st_next).

(** The walk of [get_link_at], [get_name_at] and [get_stream_at]: the list from [current],
    whose first cell has number [idx]. *)
Section get_at.
Context {A : Type} `{Linked A}.

Fixpoint get_at (fuel : nat) (l : list A) (current idx n : Z) : option A :=
  match fuel with
  | O => None
  | S fuel =>
      if current =? NO_ENTRY then None else
      let? x := zget l current in
      if idx =? n then Some x else get_at fuel l (next_entry x) (u16 (idx + 1)) n
  end.
End get_at.

Definition get_link_at (ix : MftIndex) (r : FileRecord) (name_idx : Z) : option LinkInfo :=
  if name_idx =? 0 then Some r.(fr_first_name)
  else get_at (S (length ix.(ix_links))) ix.(ix_links) r.(fr_first_name).(li_next) 1 name_idx.

Definition get_name_at : MftIndex -> FileRecord -> Z -> option LinkInfo := get_link_at.

Definition get_stream_at (ix : MftIndex) (r : FileRecord) (idx : Z) : option IndexStreamInfo :=
  if idx =? 0 then Some r.(fr_first_stream)
  else get_at (S (length ix.(ix_streams))) ix.(ix_streams) r.(fr_first_stream).(st_next) 1 idx.

(** * Packed references *)

Lemma name_ref_meta o l a e :
  is_u16 l -> is_u16 e ->
  nr_meta (IndexNameRef_new o l a e) = l mod 1024 + (if a then 1 else 0) * 1024 + e * 65536.
Proof.
  intros Hl He. unfold IndexNameRef_new. cbn [nr_meta].
  change LENGTH_MASK with (2 ^ 10 - 1). rewrite land_ones_mod by lia. change (2 ^ 10) with 1024.
  pose proof (Z.mod_pos_bound l 1024 ltac:(lia)).
  assert (E : (if a then Z.shiftl IS_ASCII FLAGS_SHIFT else 0) = Z.shiftl (if a then 1 else 0) 10) by by destruct a.
  rewrite E, lor_shiftl_add by (change (2 ^ 10) with 1024; lia). change (2 ^ 10) with 1024.
  assert (Hs : u32 (Z.shiftl e EXT_ID_SHIFT) = Z.shiftl e 16).
  { unfold EXT_ID_SHIFT. rewrite Z.shiftl_mul_pow2 by lia. apply u32_small. lia. }
  rewrite Hs, lor_shiftl_add; [change (2 ^ 16) with 65536; lia | lia |]. change (2 ^ 16) with 65536. destruct a; lia.
Qed.

Ltac meta_digits :=
  rewrite ?Z.shiftr_div_pow2 by lia; rewrite ?land_ones_mod by lia;
  change (2 ^ 10) with 1024; change (2 ^ 16) with 65536; change (2 ^ 6) with 64; digits.

Lemma name_ref_length o l a e : is_u16 l -> is_u16 e -> name_len (IndexNameRef_new o l a e) = l mod 1024.
Proof.
  intros Hl He. unfold name_len. rewrite name_ref_meta by done. change LENGTH_MASK with (2 ^ 10 - 1).
  rewrite u16_small; destruct a; meta_digits.
Qed.

Lemma name_ref_ext o l a e : is_u16 l -> is_u16 e -> extension_id (IndexNameRef_new o l a e) = e.
Proof.
  intros Hl He. unfold extension_id. rewrite name_ref_meta by done.
  change (Z.shiftr EXT_ID_MASK EXT_ID_SHIFT) with (2 ^ 16 - 1). unfold EXT_ID_SHIFT. rewrite u16_small; destruct a; meta_digits.
Qed.

Lemma name_ref_flags o l a e : is_u16 l -> is_u16 e -> name_flags (IndexNameRef_new o l a e) = Z.b2z a.
Proof.
  intros Hl He. unfold name_flags. rewrite name_ref_meta by done.
  change (Z.shiftr FLAGS_MASK FLAGS_SHIFT) with (2 ^ 6 - 1). unfold FLAGS_SHIFT. unfold u8. change (2 ^ 8) with 256.
  destruct a; cbn [Z.b2z]; meta_digits.
Qed.

Lemma name_ref_ascii o l a e : is_u16 l -> is_u16 e -> name_is_ascii (IndexNameRef_new o l a e) = a.
Proof.
  intros Hl He. unfold name_is_ascii. change (Z.shiftl IS_ASCII FLAGS_SHIFT) with (2 ^ 10).
  rewrite land_pow2_testbit, negb_involutive by lia. rewrite name_ref_meta by done.
  rewrite Z.testbit_eqb by lia. change (2 ^ 10) with 1024. destruct a; [apply Z.eqb_eq | apply Z.eqb_neq]; digits.
Qed.

Lemma remap_extension_id_exact o l a e e' :
  is_u16 l -> is_u16 e -> is_u16 e' -> remap_extension_id (IndexNameRef_new o l a e) e' = IndexNameRef_new o l a e'.
Proof.
  intros Hl He He'. unfold remap_extension_id. change (nr_offset (IndexNameRef_new o l a e)) with o.
  enough (E : nr_meta {| nr_offset := o; nr_meta := Z.lor (Z.land (nr_meta (IndexNameRef_new o l a e)) (U32_MAX - EXT_ID_MASK))
      (u32 (Z.shiftl e' EXT_ID_SHIFT)) |} = nr_meta (IndexNameRef_new o l a e')).
  { cbn [nr_meta] in E. rewrite E. by unfold IndexNameRef_new. }
  cbn [nr_meta]. change (U32_MAX - EXT_ID_MASK) with (2 ^ 16 - 1). rewrite land_ones_mod by lia.
  rewrite !name_ref_meta by done. change (2 ^ 16) with 65536.
  rewrite Z.mod_add by lia. rewrite Z.mod_small by (destruct a; digits).
  assert (Hs : u32 (Z.shiftl e' EXT_ID_SHIFT) = Z.shiftl e' 16).
  { unfold EXT_ID_SHIFT. rewrite Z.shiftl_mul_pow2 by lia. apply u32_small. lia. }
  rewrite Hs, lor_shiftl_add; [by change (2 ^ 16) with 65536 | lia |]. change (2 ^ 16) with 65536. destruct a; digits.
Qed.

(** * Lookup by record number *)

Lemma zget_zrepeat_if {A} (x : A) n i : 0 <= i -> zget (zrepeat x n) i = if i <? n then Some x else None.
Proof.
  intros Hi. destruct (Z.ltb_spec i n).
  - apply zget_Some. unfold zrepeat, zlen. rewrite length_replicate. split; [lia |]. apply lookup_replicate. split; [done | lia].
  - apply zget_None. unfold zrepeat, zlen. rewrite length_replicate. lia.
Qed.

Lemma grow_lookup_get frs table f : 0 <= f -> zget (grow_lookup frs table) f =
  match zget table f with Some i => Some i | None => if f <=? frs then Some NO_ENTRY else None end.
Proof.
  intros Hf. unfold grow_lookup. destruct (Z.leb_spec (zlen table) frs) as [Hl | Hl].
  - destruct (zget table f) as [i|] eqn:E; [by apply zget_app_Some |].
    apply zget_None in E. rewrite zget_app_r, zget_zrepeat_if by lia.
    destruct (Z.leb_spec f frs), (Z.ltb_spec (f - zlen table) (frs + 1 - zlen table)); done || lia.
  - destruct (zget table f) as [i|] eqn:E; [done |]. apply zget_None in E. destruct (Z.leb_spec f frs); [lia | done].
Qed.

(** A text that is not UTF-8 has no lossy view here: [get_name] gives nothing for it. *)
Lemma name_bytes_grow names more r :
  (is_valid r = true -> r.(nr_offset) + name_len r <= zlen names) ->
  name_bytes (names ++ more) r = name_bytes names r.
Proof.
  intros Hr. unfold name_bytes. destruct (is_valid r); [|done]. specialize (Hr eq_refl). f_equal.
  by apply get_range_app_l.
Qed.
