(* ===== verification/IndexViews.v ===== *)
(** The files an index holds, read through its lists, and what each elementary change of
    the index does to them.  Well-formedness: the lookup and the records agree, every cell
    of an arena is in exactly one list of one record, and every name is in the buffer. *)
From S2P Require Import Prelude Text Arena MftIndex.

(** * Views *)

Record NameView := { nv_bytes : list Z; nv_ascii : bool; nv_ext : Z; nv_parent_frs : Z }.
Record StreamView := { sv_size : SizeInfo; sv_flags : Z; sv_bytes : list Z; sv_ascii : bool; sv_ext : Z }.

(** A file: the fields of its record without links, its names (the newest first), its
    named streams and internal streams (the oldest first) and its child entries (the
    newest first). *)
Record FileView := mk_view {
  v_fields : FileRecord;
  v_names : list NameView;
  v_streams : list StreamView;
  v_internal : list InternalStreamInfo;
  v_children : list ChildInfo
}.

Definition link_view (names : list Z) (l : LinkInfo) : NameView :=
  {| nv_bytes := name_bytes names l.(li_name); nv_ascii := name_is_ascii l.(li_name);
     nv_ext := extension_id l.(li_name); nv_parent_frs := l.(li_parent_frs) |}.

Definition stream_view (names : list Z) (s : IndexStreamInfo) : StreamView :=
  {| sv_size := s.(st_size); sv_flags := s.(st_flags); sv_bytes := name_bytes names s.(st_name);
     sv_ascii := name_is_ascii s.(st_name); sv_ext := extension_id s.(st_name) |}.

Definition bare_record (r : FileRecord) : FileRecord :=
  set_first_name no_link (set_first_child NO_ENTRY (set_first_internal_stream NO_ENTRY
    (set_first_stream (bare r.(fr_first_stream)) r))).

Definition link_valid (l : LinkInfo) : bool := is_valid l.(li_name).

Definition names_view (names : list Z) (ls : list LinkInfo) : list NameView :=
  map (link_view names) (List.filter link_valid ls).

(** What [iter_names], [iter_streams] and the two other lists give for a record. *)
Definition file_view (ix : MftIndex) (r : FileRecord) : FileView :=
  mk_view (bare_record r)
    (names_view ix.(ix_names) (map bare (iter_names ix r)))
    (map (stream_view ix.(ix_names)) (map bare (tail (iter_streams ix r))))
    (map bare (follow (S (length ix.(ix_internal_streams))) ix.(ix_internal_streams) r.(fr_first_internal_stream)))
    (map bare (follow (S (length ix.(ix_children))) ix.(ix_children) r.(fr_first_child))).

Definition views (ix : MftIndex) : list FileView := map (file_view ix) ix.(ix_records).

(** * Well-formedness *)

Definition ref_ok (names : list Z) (r : IndexNameRef) : Prop :=
  is_valid r = true -> r.(nr_offset) + name_len r <= zlen names.

Definition link_heads (rs : list FileRecord) : list Z := map (fun r => r.(fr_first_name).(li_next)) rs.
Definition stream_heads (rs : list FileRecord) : list Z := map (fun r => r.(fr_first_stream).(st_next)) rs.
Definition internal_heads (rs : list FileRecord) : list Z := map fr_first_internal_stream rs.
Definition child_heads (rs : list FileRecord) : list Z := map fr_first_child rs.

(** The records and the lookup by record number agree. *)
Definition lookup_ok (table : list Z) (rs : list FileRecord) : Prop :=
  (forall f i, zget table f = Some i -> i <> NO_ENTRY -> exists r, zget rs i = Some r /\ r.(fr_frs) = f) /\
  (forall i r, zget rs i = Some r -> zget table r.(fr_frs) = Some i).

Record lists_ok (ix : MftIndex) (ol os oi oc : list (list Z)) : Prop := {
  ok_links : owned ix.(ix_links) (link_heads ix.(ix_records)) ol;
  ok_streams : owned ix.(ix_streams) (stream_heads ix.(ix_records)) os;
  ok_internal : owned ix.(ix_internal_streams) (internal_heads ix.(ix_records)) oi;
  ok_children : owned ix.(ix_children) (child_heads ix.(ix_records)) oc;
  ok_first_refs : Forall (fun r => ref_ok ix.(ix_names) r.(fr_first_name).(li_name)) ix.(ix_records);
  ok_link_refs : Forall (fun l => ref_ok ix.(ix_names) l.(li_name)) ix.(ix_links);
  ok_stream_refs : Forall (fun s => ref_ok ix.(ix_names) s.(st_name)) ix.(ix_streams);
}.

Definition index_wf (ix : MftIndex) : Prop :=
  lookup_ok ix.(ix_frs_to_idx) ix.(ix_records) /\ exists ol os oi oc, lists_ok ix ol os oi oc.

(** * Views through the lists of an index *)

Lemma ref_ok_grow names more r : ref_ok names r -> ref_ok (names ++ more) r.
Proof. intros H Hv. specialize (H Hv). rewrite zlen_app. pose proof (zlen_nonneg more). lia. Qed.

Lemma link_view_bare names l : link_view names (bare l) = link_view names l.
Proof. done. Qed.

Lemma heads_lookup {B} (f : FileRecord -> B) rs k r : rs !! k = Some r -> map f rs !! k = Some (f r).
Proof. intros E. by rewrite list_lookup_fmap, E. Qed.

Lemma file_view_contents ix ol os oi oc k r :
  lists_ok ix ol os oi oc -> ix.(ix_records) !! k = Some r ->
  exists cl cs ci cc, ol !! k = Some cl /\ os !! k = Some cs /\ oi !! k = Some ci /\ oc !! k = Some cc /\
    file_view ix r =
      mk_view (bare_record r) (names_view ix.(ix_names) (bare r.(fr_first_name) :: contents ix.(ix_links) cl))
        (map (stream_view ix.(ix_names)) (contents ix.(ix_streams) cs)) (contents ix.(ix_internal_streams) ci)
        (contents ix.(ix_children) cc).
Proof.
  intros H Hr.
  pose proof (heads_lookup (fun r => r.(fr_first_name).(li_next)) _ _ _ Hr) as Hl.
  pose proof (heads_lookup (fun r => r.(fr_first_stream).(st_next)) _ _ _ Hr) as Hs.
  pose proof (heads_lookup fr_first_internal_stream _ _ _ Hr) as Hi.
  pose proof (heads_lookup fr_first_child _ _ _ Hr) as Hc.
  destruct (owned_length _ _ _ _ _ (ok_links _ _ _ _ _ H) Hl) as (cl & El & _).
  destruct (owned_length _ _ _ _ _ (ok_streams _ _ _ _ _ H) Hs) as (cs & Es & _).
  destruct (owned_length _ _ _ _ _ (ok_internal _ _ _ _ _ H) Hi) as (ci & Ei & _).
  destruct (owned_length _ _ _ _ _ (ok_children _ _ _ _ _ H) Hc) as (cc & Ec & _).
  exists cl, cs, ci, cc. repeat split; try done. unfold file_view, iter_names, iter_streams. cbn [map tail].
  rewrite (owned_follow _ _ _ _ _ _ (ok_links _ _ _ _ _ H) Hl El).
  rewrite (owned_follow _ _ _ _ _ _ (ok_streams _ _ _ _ _ H) Hs Es).
  rewrite (owned_follow _ _ _ _ _ _ (ok_internal _ _ _ _ _ H) Hi Ei).
  by rewrite (owned_follow _ _ _ _ _ _ (ok_children _ _ _ _ _ H) Hc Ec).
Qed.

Lemma views_lookup ix k r : ix.(ix_records) !! k = Some r -> views ix !! k = Some (file_view ix r).
Proof. apply heads_lookup. Qed.

(** * Changes that leave other files alone *)

(** Every cell of [l] is still there, its link apart. *)
Definition extends {A} `{Linked A} (l l' : list A) : Prop :=
  forall i x, zget l i = Some x -> exists x', zget l' i = Some x' /\ bare x' = bare x.

Lemma extends_refl {A} `{Linked A} (l : list A) : extends l l.
Proof. intros i x E. by exists x. Qed.

Lemma extends_push {A} `{Linked A} (l : list A) y : extends l (l ++ [y]).
Proof. intros i x E. exists x. split; [by apply zget_app_Some | done]. Qed.

Lemma extends_link {A} `{Linked A} (l : list A) y t x n : zget l t = Some x -> extends l (zset (l ++ [y]) t (set_next x n)).
Proof.
  intros Ht i x' E. apply zget_Some in Ht as Hr. destruct (decide (i = t)) as [-> |].
  - rewrite Ht in E. injection E as <-. exists (set_next x n). rewrite bare_set. split; [|done].
    apply zget_zset_eq. rewrite zlen_app. pose proof (zlen_nonneg [y]). lia.
  - exists x'. rewrite zget_zset_ne by done. split; [by apply zget_app_Some | done].
Qed.

Lemma extends_contents {A} `{Linked A} (l l' : list A) cells :
  extends l l' -> Forall (fun i => 0 <= i < zlen l) cells -> contents l' cells = contents l cells.
Proof.
  intros He Hr. unfold contents. induction Hr as [|i cells Hi _ IH]; [done |]. cbn [omap list_omap].
  destruct (zget_is_Some l i Hi) as [x Hx]. destruct (He i x Hx) as (x' & Hx' & Hb). rewrite Hx, Hx'. cbn [map]. by rewrite Hb, IH.
Qed.

Lemma owned_range {A} `{Linked A} (l : list A) heads own k cells :
  owned l heads own -> own !! k = Some cells -> Forall (fun i => 0 <= i < zlen l) cells.
Proof.
  intros [Ho _] Hk. destruct (Forall2_lookup_r _ _ _ _ _ Ho Hk) as (h & _ & Hc). apply Forall_forall. intros i Hi. by eapply chain_range.
Qed.

Lemma contents_Forall {A} `{Linked A} (P : A -> Prop) (l : list A) cells :
  (forall x n, P x -> P (set_next x n)) -> Forall P l -> Forall P (contents l cells).
Proof.
  intros Hs Hl. unfold contents. apply Forall_map. apply Forall_forall. intros x Hx.
  apply list_elem_of_omap in Hx as (i & _ & E). apply Hs. rewrite Forall_forall in Hl. apply Hl. by eapply zget_elem.
Qed.

Lemma names_view_grow names more ls :
  Forall (fun l => ref_ok names l.(li_name)) ls -> names_view (names ++ more) ls = names_view names ls.
Proof.
  intros H. unfold names_view. induction H as [|l ls Hl _ IH]; [done |]. cbn [List.filter]. destruct (link_valid l); [|done].
  cbn [map]. rewrite IH. f_equal. unfold link_view. by rewrite name_bytes_grow.
Qed.

Lemma stream_views_grow names more ss :
  Forall (fun s => ref_ok names s.(st_name)) ss -> map (stream_view (names ++ more)) ss = map (stream_view names) ss.
Proof.
  induction 1 as [|s ss Hs _ IH]; [done |]. cbn [map]. rewrite IH. f_equal. unfold stream_view. by rewrite name_bytes_grow.
Qed.

Record grown (ix ix' : MftIndex) : Prop := {
  grown_names : exists more, ix'.(ix_names) = ix.(ix_names) ++ more;
  grown_links : extends ix.(ix_links) ix'.(ix_links);
  grown_streams : extends ix.(ix_streams) ix'.(ix_streams);
  grown_internal : extends ix.(ix_internal_streams) ix'.(ix_internal_streams);
  grown_children : extends ix.(ix_children) ix'.(ix_children);
}.

Lemma grown_refl ix : grown ix ix.
Proof. split; try apply extends_refl. exists []. by rewrite app_nil_r. Qed.

(** A record whose lists are the same cells has the same view. *)
Lemma file_view_grown ix ix' ol os oi oc ol' os' oi' oc' k r :
  lists_ok ix ol os oi oc -> lists_ok ix' ol' os' oi' oc' -> grown ix ix' ->
  ix.(ix_records) !! k = Some r -> ix'.(ix_records) !! k = Some r ->
  ol' !! k = ol !! k -> os' !! k = os !! k -> oi' !! k = oi !! k -> oc' !! k = oc !! k ->
  file_view ix' r = file_view ix r.
Proof.
  intros H H' [[more En] Gl Gs Gi Gc] Hr Hr' El Es Ei Ec.
  destruct (file_view_contents _ _ _ _ _ _ _ H Hr) as (cl & cs & ci & cc & Hl & Hs & Hi & Hc & ->).
  destruct (file_view_contents _ _ _ _ _ _ _ H' Hr') as (cl' & cs' & ci' & cc' & Hl' & Hs' & Hi' & Hc' & ->).
  rewrite El, Hl in Hl'. rewrite Es, Hs in Hs'. rewrite Ei, Hi in Hi'. rewrite Ec, Hc in Hc'. simplify_eq.
  rewrite (extends_contents _ _ _ Gl) by (eapply owned_range; [apply H | done]).
  rewrite (extends_contents _ _ _ Gs) by (eapply owned_range; [apply H | done]).
  rewrite (extends_contents _ _ _ Gi) by (eapply owned_range; [apply H | done]).
  rewrite (extends_contents _ _ _ Gc) by (eapply owned_range; [apply H | done]).
  rewrite En. f_equal.
  - apply names_view_grow. constructor.
    + pose proof (ok_first_refs _ _ _ _ _ H) as Hf. rewrite Forall_forall in Hf. apply (Hf r). by eapply list_elem_of_lookup_2.
    + apply contents_Forall; [done |]. apply H.
  - apply stream_views_grow. apply contents_Forall; [done |]. apply H.
Qed.

(** One record changes, and only its lists. *)
Lemma views_insert ix ix' ol os oi oc ol' os' oi' oc' k r' :
  lists_ok ix ol os oi oc -> lists_ok ix' ol' os' oi' oc' -> grown ix ix' ->
  ix'.(ix_records) = <[k := r']> ix.(ix_records) ->
  (forall j, j <> k -> ol' !! j = ol !! j /\ os' !! j = os !! j /\ oi' !! j = oi !! j /\ oc' !! j = oc !! j) ->
  views ix' = <[k := file_view ix' r']> (views ix).
Proof.
  intros H H' G Er Hj. apply list_eq. intros j. unfold views. rewrite Er, list_lookup_fmap.
  destruct (decide (j = k)) as [-> | Hne].
  - destruct (decide (k < length ix.(ix_records))%nat) as [Hk | Hk].
    + rewrite !list_lookup_insert_eq by (rewrite ?length_map; done). done.
    + rewrite !lookup_ge_None_2 by (rewrite ?length_insert, ?length_map; lia). done.
  - rewrite !list_lookup_insert_ne, list_lookup_fmap by done. destruct (ix_records ix !! j) as [r|] eqn:E; [|done].
    cbn. f_equal. destruct (Hj j Hne) as (E1 & E2 & E3 & E4).
    eapply (file_view_grown ix ix'); try done. by rewrite Er, list_lookup_insert_ne.
Qed.

Lemma zset_insert {A} (l : list A) i x : 0 <= i < zlen l -> zset l i x = <[Z.to_nat i := x]> l.
Proof. intros H. unfold zset. by rewrite (proj2 (andb_true_iff _ _)) by (split; lia). Qed.

(** * Elementary changes of the lists *)

Lemma heads_insert_same {B} (f : FileRecord -> B) rs k r r' :
  rs !! k = Some r -> f r' = f r -> map f (<[k := r']> rs) = map f rs.
Proof.
  intros Hr E. change (f <$> <[k := r']> rs = f <$> rs). rewrite list_fmap_insert, E. apply list_insert_id.
  by apply (heads_lookup f).
Qed.

Lemma heads_insert {B} (f : FileRecord -> B) rs k r' : map f (<[k := r']> rs) = <[k := f r']> (map f rs).
Proof. apply list_fmap_insert. Qed.

Lemma Forall_insert_ok {A} (P : A -> Prop) (l : list A) k x : Forall P l -> P x -> Forall P (<[k := x]> l).
Proof. intros Hl Hx. by apply Forall_insert. Qed.

(** Only fields and the newest name of a record change. *)
Lemma lists_record ix ol os oi oc k r r' :
  lists_ok ix ol os oi oc -> ix.(ix_records) !! k = Some r ->
  li_next (fr_first_name r') = li_next (fr_first_name r) -> ref_ok ix.(ix_names) (li_name (fr_first_name r')) ->
  st_next (fr_first_stream r') = st_next (fr_first_stream r) ->
  fr_first_internal_stream r' = fr_first_internal_stream r -> fr_first_child r' = fr_first_child r ->
  lists_ok (with_records (<[k := r']> ix.(ix_records)) ix) ol os oi oc.
Proof.
  intros H Hr El Ef Es Ei Ec. destruct H. split; cbn; try done;
    unfold link_heads, stream_heads, internal_heads, child_heads; rewrite ?(heads_insert_same _ _ _ _ _ Hr) by done; try done.
  by apply Forall_insert_ok.
Qed.

(** A cell pushed in front of the overflow names of a record. *)
Lemma lists_push_link ix ol os oi oc k r r' y cl :
  lists_ok ix ol os oi oc -> ix.(ix_records) !! k = Some r -> ol !! k = Some cl -> zlen ix.(ix_links) < NO_ENTRY ->
  li_next y = li_next (fr_first_name r) -> ref_ok ix.(ix_names) (li_name y) ->
  li_next (fr_first_name r') = zlen ix.(ix_links) -> ref_ok ix.(ix_names) (li_name (fr_first_name r')) ->
  st_next (fr_first_stream r') = st_next (fr_first_stream r) ->
  fr_first_internal_stream r' = fr_first_internal_stream r -> fr_first_child r' = fr_first_child r ->
  let ix' := with_records (<[k := r']> ix.(ix_records)) (with_links (ix.(ix_links) ++ [y]) ix) in
  lists_ok ix' (<[k := zlen ix.(ix_links) :: cl]> ol) os oi oc /\
  contents ix'.(ix_links) (zlen ix.(ix_links) :: cl) = bare y :: contents ix.(ix_links) cl.
Proof.
  intros H Hr Hcl Hl Hy Hyr En Ef Es Ei Ec. destruct H as [H1 H2 H3 H4 H5 H6 H7].
  destruct (owned_push _ _ _ k _ cl y H1 (heads_lookup _ _ _ _ Hr) Hcl Hl Hy) as [Ho Hc].
  split; [|done]. split; cbn; unfold link_heads, stream_heads, internal_heads, child_heads in *;
    rewrite ?(heads_insert_same _ _ _ _ _ Hr) by done; try done.
  - by rewrite heads_insert, En.
  - by apply Forall_insert_ok.
  - apply Forall_app. split; [done |]. by constructor.
Qed.

(** Bytes appended to the names. *)
Lemma lists_names ix ol os oi oc more :
  lists_ok ix ol os oi oc -> lists_ok (with_names (ix.(ix_names) ++ more) ix) ol os oi oc.
Proof.
  intros [H1 H2 H3 H4 H5 H6 H7]. split; cbn; try done; eapply Forall_impl; try done; intros x; cbn; apply ref_ok_grow.
Qed.

Lemma lists_extensions ix ol os oi oc e : lists_ok ix ol os oi oc -> lists_ok (with_extensions e ix) ol os oi oc.
Proof. by intros [H1 H2 H3 H4 H5 H6 H7]. Qed.

(** A child entry pushed in front of those of a record. *)
Lemma lists_push_child ix ol os oi oc k r y cc :
  lists_ok ix ol os oi oc -> ix.(ix_records) !! k = Some r -> oc !! k = Some cc -> zlen ix.(ix_children) < NO_ENTRY ->
  ch_next y = fr_first_child r ->
  let ix' := with_records (<[k := set_first_child (zlen ix.(ix_children)) r]> ix.(ix_records)) (with_children (ix.(ix_children) ++ [y]) ix) in
  lists_ok ix' ol os oi (<[k := zlen ix.(ix_children) :: cc]> oc) /\
  contents ix'.(ix_children) (zlen ix.(ix_children) :: cc) = bare y :: contents ix.(ix_children) cc.
Proof.
  intros H Hr Hcc Hl Hy. destruct H as [H1 H2 H3 H4 H5 H6 H7].
  destruct (owned_push _ _ _ k _ cc y H4 (heads_lookup _ _ _ _ Hr) Hcc Hl Hy) as [Ho Hc].
  split; [|done]. split; cbn; unfold link_heads, stream_heads, internal_heads, child_heads in *;
    rewrite ?(heads_insert_same _ _ _ _ _ Hr) by done; try done.
  - by rewrite heads_insert.
  - apply Forall_insert_ok; [done |]. cbn. rewrite Forall_forall in H5. apply (H5 r). by eapply list_elem_of_lookup_2.
Qed.

(** A stream linked after the last one of a record that has none, or one. *)
Lemma lists_first_stream ix ol os oi oc k r r' y :
  lists_ok ix ol os oi oc -> ix.(ix_records) !! k = Some r -> st_next (fr_first_stream r) = NO_ENTRY ->
  zlen ix.(ix_streams) < NO_ENTRY -> st_next y = NO_ENTRY -> ref_ok ix.(ix_names) (st_name y) ->
  st_next (fr_first_stream r') = zlen ix.(ix_streams) -> fr_first_name r' = fr_first_name r ->
  fr_first_internal_stream r' = fr_first_internal_stream r -> fr_first_child r' = fr_first_child r ->
  let ix' := with_records (<[k := r']> ix.(ix_records)) (with_streams (ix.(ix_streams) ++ [y]) ix) in
  os !! k = Some [] /\ lists_ok ix' ol (<[k := [zlen ix.(ix_streams)]]> os) oi oc /\
  contents ix'.(ix_streams) [zlen ix.(ix_streams)] = [bare y].
Proof.
  intros H Hr Hn Hl Hy Hyr Es Ef Ei Ec. destruct H as [H1 H2 H3 H4 H5 H6 H7].
  pose proof (heads_lookup (fun r => r.(fr_first_stream).(st_next)) _ _ _ Hr) as Hh.
  destruct (owned_length _ _ _ _ _ H2 Hh) as (cs & Hcs & Hch).
  pose proof (chain_head _ _ _ Hch) as Eh. cbn in Eh. rewrite Hn in Eh. rewrite (proj1 Eh eq_refl) in Hcs.
  assert (Hy' : next_entry y = st_next (fr_first_stream r)) by (cbn; congruence).
  destruct (owned_push _ _ _ k _ [] y H2 Hh Hcs Hl Hy') as [Ho Hc].
  split; [done |]. split; [|done]. split; cbn; unfold link_heads, stream_heads, internal_heads, child_heads in *;
    rewrite ?(heads_insert_same (fun r => li_next (fr_first_name r)) _ _ _ _ Hr) by (by rewrite Ef);
    rewrite ?(heads_insert_same fr_first_internal_stream _ _ _ _ Hr) by done;
    rewrite ?(heads_insert_same fr_first_child _ _ _ _ Hr) by done; try done.
  - by rewrite heads_insert, Es.
  - apply Forall_insert_ok; [done |]. rewrite Ef. rewrite Forall_forall in H5. apply (H5 r). by eapply list_elem_of_lookup_2.
  - apply Forall_app. split; [done |]. by constructor.
Qed.

Lemma lists_next_stream ix ol os oi oc k r y front t x :
  lists_ok ix ol os oi oc -> ix.(ix_records) !! k = Some r -> os !! k = Some (front ++ [t]) ->
  zlen ix.(ix_streams) < NO_ENTRY -> st_next y = NO_ENTRY -> ref_ok ix.(ix_names) (st_name y) ->
  zget ix.(ix_streams) t = Some x ->
  let ix' := with_streams (zset (ix.(ix_streams) ++ [y]) t (set_next x (zlen ix.(ix_streams)))) ix in
  lists_ok ix' ol (<[k := front ++ [t; zlen ix.(ix_streams)]]> os) oi oc /\
  contents ix'.(ix_streams) (front ++ [t; zlen ix.(ix_streams)]) = contents ix.(ix_streams) (front ++ [t]) ++ [bare y].
Proof.
  intros H Hr Hcs Hl Hy Hyr Hx. destruct H as [H1 H2 H3 H4 H5 H6 H7].
  pose proof (heads_lookup (fun r => r.(fr_first_stream).(st_next)) _ _ _ Hr) as Hh.
  destruct (owned_append _ _ _ k _ front t x y H2 Hh Hcs Hl Hx Hy) as [Ho Hc]. split; [|done]. split; cbn; try done.
  assert (Hf : Forall (fun s => ref_ok ix.(ix_names) (st_name s)) (ix.(ix_streams) ++ [y])) by (apply Forall_app; split; [done |]; by constructor).
  unfold zset. destruct ((0 <=? t) && _); [|done]. apply Forall_insert_ok; [done |]. cbn.
  rewrite Forall_forall in H7. apply (H7 x). by eapply zget_elem.
Qed.

Lemma lists_first_internal ix ol os oi oc k r y :
  lists_ok ix ol os oi oc -> ix.(ix_records) !! k = Some r -> fr_first_internal_stream r = NO_ENTRY ->
  zlen ix.(ix_internal_streams) < NO_ENTRY -> in_next y = NO_ENTRY ->
  let ix' := with_records (<[k := set_first_internal_stream (zlen ix.(ix_internal_streams)) r]> ix.(ix_records))
               (with_internal_streams (ix.(ix_internal_streams) ++ [y]) ix) in
  oi !! k = Some [] /\ lists_ok ix' ol os (<[k := [zlen ix.(ix_internal_streams)]]> oi) oc /\
  contents ix'.(ix_internal_streams) [zlen ix.(ix_internal_streams)] = [bare y].
Proof.
  intros H Hr Hn Hl Hy. destruct H as [H1 H2 H3 H4 H5 H6 H7].
  pose proof (heads_lookup fr_first_internal_stream _ _ _ Hr) as Hh.
  destruct (owned_length _ _ _ _ _ H3 Hh) as (ci & Hci & Hch).
  pose proof (chain_head _ _ _ Hch) as Eh. rewrite Hn in Eh. rewrite (proj1 Eh eq_refl) in Hci.
  assert (Hy' : next_entry y = fr_first_internal_stream r) by (cbn; congruence).
  destruct (owned_push _ _ _ k _ [] y H3 Hh Hci Hl Hy') as [Ho Hc].
  split; [done |]. split; [|done]. split; cbn; unfold link_heads, stream_heads, internal_heads, child_heads in *;
    rewrite ?(heads_insert_same _ _ _ _ _ Hr) by done; try done.
  - by rewrite heads_insert.
  - apply Forall_insert_ok; [done |]. cbn. rewrite Forall_forall in H5. apply (H5 r). by eapply list_elem_of_lookup_2.
Qed.

Lemma lists_next_internal ix ol os oi oc k r y front t x :
  lists_ok ix ol os oi oc -> ix.(ix_records) !! k = Some r -> oi !! k = Some (front ++ [t]) ->
  zlen ix.(ix_internal_streams) < NO_ENTRY -> in_next y = NO_ENTRY -> zget ix.(ix_internal_streams) t = Some x ->
  let ix' := with_internal_streams (zset (ix.(ix_internal_streams) ++ [y]) t (set_next x (zlen ix.(ix_internal_streams)))) ix in
  lists_ok ix' ol os (<[k := front ++ [t; zlen ix.(ix_internal_streams)]]> oi) oc /\
  contents ix'.(ix_internal_streams) (front ++ [t; zlen ix.(ix_internal_streams)]) =
    contents ix.(ix_internal_streams) (front ++ [t]) ++ [bare y].
Proof.
  intros H Hr Hci Hl Hy Hx. destruct H as [H1 H2 H3 H4 H5 H6 H7].
  pose proof (heads_lookup fr_first_internal_stream _ _ _ Hr) as Hh.
  destruct (owned_append _ _ _ k _ front t x y H3 Hh Hci Hl Hx Hy) as [Ho Hc]. split; [|done]. split; cbn; done.
Qed.

(** A new record, with nothing in its lists. *)
Lemma lists_new_record ix ol os oi oc table r :
  lists_ok ix ol os oi oc -> li_next (fr_first_name r) = NO_ENTRY -> st_next (fr_first_stream r) = NO_ENTRY ->
  fr_first_internal_stream r = NO_ENTRY -> fr_first_child r = NO_ENTRY -> is_valid (li_name (fr_first_name r)) = false ->
  lists_ok (with_records (ix.(ix_records) ++ [r]) (with_frs_to_idx table ix)) (ol ++ [[]]) (os ++ [[]]) (oi ++ [[]]) (oc ++ [[]]).
Proof.
  intros [H1 H2 H3 H4 H5 H6 H7] El Es Ei Ec Ev. split; cbn; try done;
    unfold link_heads, stream_heads, internal_heads, child_heads in *; rewrite ?map_app; cbn [map];
    rewrite ?El, ?Es, ?Ei, ?Ec; try by apply owned_new_head.
  apply Forall_app. split; [done |]. constructor; [|constructor]. unfold ref_ok. by rewrite Ev.
Qed.

(** * The table of files *)

(** What an index represents: a file per record number, and the extensions seen. *)
Record Volume := { vol_files : gmap Z FileView; vol_ext : ExtensionTable }.

Definition on_file (f : Z) (g : FileView -> FileView) (v : Volume) : Volume :=
  {| vol_files := alter g f v.(vol_files); vol_ext := v.(vol_ext) |}.

Definition set_ext (e : ExtensionTable) (v : Volume) : Volume := {| vol_files := v.(vol_files); vol_ext := e |}.

(** The file of a fresh record, and its presence. *)
Definition fresh_view (r : FileRecord) : FileView := mk_view (bare_record r) [] [] [] [].

Definition touch (fresh : Z -> FileRecord) (f : Z) (v : Volume) : Volume :=
  match v.(vol_files) !! f with
  | Some _ => v
  | None => {| vol_files := <[f := fresh_view (fresh f)]> v.(vol_files); vol_ext := v.(vol_ext) |}
  end.

Definition file_at (f : Z) (ix : MftIndex) : option FileView :=
  let? i := frs_to_idx_opt f ix in views ix !! Z.to_nat i.

(** The ids of the extension table fit 16 bits, and so do its positions. *)
Definition ext_ok (t : ExtensionTable) : Prop := map_Forall (fun _ id => is_u16 id) t.(et_map).

Record models (ix : MftIndex) (v : Volume) : Prop := {
  models_wf : index_wf ix;
  models_ext : v.(vol_ext) = ix.(ix_extensions);
  models_ext_ok : ext_ok ix.(ix_extensions);
  models_files : forall f, is_u64 f -> v.(vol_files) !! f = file_at f ix;
}.

(** Positions left in every arena, and bytes in the names: 1,023 a name. *)
Definition room (n : Z) (ix : MftIndex) : Prop :=
  zlen ix.(ix_records) + n < NO_ENTRY /\ zlen ix.(ix_links) + n < NO_ENTRY /\ zlen ix.(ix_streams) + n < NO_ENTRY /\
  zlen ix.(ix_internal_streams) + n < NO_ENTRY /\ zlen ix.(ix_children) + n < NO_ENTRY /\
  zlen ix.(ix_names) + 1023 * n < NO_ENTRY.

Lemma room_mono n m ix : m <= n -> room n ix -> room m ix.
Proof. unfold room. lia. Qed.

(** A change of the files at known positions: the lookup stays. *)
Record changed (cost : Z) (g : list FileView -> list FileView) (ix ix' : MftIndex) : Prop := {
  changed_wf : index_wf ix';
  changed_views : views ix' = g (views ix);
  changed_table : ix'.(ix_frs_to_idx) = ix.(ix_frs_to_idx);
  changed_room : forall n, 0 <= n -> room (cost + n) ix -> room n ix';
}.

Lemma lookup_ok_frs table rs rs' : map fr_frs rs' = map fr_frs rs -> lookup_ok table rs -> lookup_ok table rs'.
Proof.
  intros E [H1 H2].
  assert (Hg : forall i, fr_frs <$> zget rs' i = fr_frs <$> zget rs i) by (intros i; rewrite <- !zget_map; by rewrite E).
  split.
  - intros f i Ht Hn. destruct (H1 f i Ht Hn) as (r & Hr & Hf). specialize (Hg i). rewrite Hr in Hg.
    destruct (zget rs' i) as [r'|]; [|done]. exists r'. split; [done |]. cbn in Hg. congruence.
  - intros i r' Hr'. specialize (Hg i). rewrite Hr' in Hg. destruct (zget rs i) as [r|] eqn:Hr; [|done].
    cbn in Hg. injection Hg as Hg. rewrite Hg. by apply H2.
Qed.

Lemma frs_to_usize_u64 f : is_u64 f -> frs_to_usize f = f.
Proof. intros H. unfold frs_to_usize. by rewrite (proj2 (Z.ltb_lt _ _)) by lia. Qed.

(** A record number in use names its record, and no other. *)
Lemma lookup_record ix f i :
  index_wf ix -> is_u64 f -> frs_to_idx_opt f ix = Some i ->
  exists r, zget ix.(ix_records) i = Some r /\ r.(fr_frs) = f /\ ix.(ix_records) !! Z.to_nat i = Some r /\ 0 <= i.
Proof.
  intros [[H1 _] _] Hf E. unfold frs_to_idx_opt in E. rewrite frs_to_usize_u64 in E by done.
  destruct (zget (ix_frs_to_idx ix) f) as [j|] eqn:Ej; [|done]. cbn in E. destruct (Z.eqb_spec j NO_ENTRY); [done |]. injection E as ->.
  destruct (H1 f i Ej n) as (r & Hr & Hfr). exists r. apply zget_Some in Hr as Hr'. repeat split; try done; apply Hr'.
Qed.

Lemma file_at_record ix f i r :
  frs_to_idx_opt f ix = Some i -> ix.(ix_records) !! Z.to_nat i = Some r -> file_at f ix = Some (file_view ix r).
Proof. intros E Hr. unfold file_at. rewrite E. cbn. by apply views_lookup. Qed.

Lemma models_record ix v f i :
  models ix v -> is_u64 f -> frs_to_idx_opt f ix = Some i ->
  exists r, zget ix.(ix_records) i = Some r /\ r.(fr_frs) = f /\ ix.(ix_records) !! Z.to_nat i = Some r /\
    v.(vol_files) !! f = Some (file_view ix r).
Proof.
  intros H Hf E. destruct (lookup_record ix f i (models_wf _ _ H) Hf E) as (r & Hr & Hfr & Hk & _).
  exists r. repeat split; try done. rewrite (models_files _ _ H f Hf). by apply file_at_record with i.
Qed.

Lemma models_changed cost g ix ix' v f i :
  models ix v -> is_u64 f -> frs_to_idx_opt f ix = Some i -> changed cost (alter g (Z.to_nat i)) ix ix' ->
  ext_ok ix'.(ix_extensions) ->
  models ix' (set_ext ix'.(ix_extensions) (on_file f g v)) /\ (forall f', frs_to_idx_opt f' ix' = frs_to_idx_opt f' ix).
Proof.
  intros H Hf Ef C He. assert (Et : forall f', frs_to_idx_opt f' ix' = frs_to_idx_opt f' ix).
  { intros f'. unfold frs_to_idx_opt. by rewrite (changed_table _ _ _ _ C). }
  split; [|done]. split; [by apply C | done | done |]. intros f' Hf'. cbn. unfold file_at. rewrite Et, (changed_views _ _ _ _ C).
  pose proof (models_files _ _ H f' Hf') as Hv. unfold file_at in Hv.
  destruct (decide (f' = f)) as [-> | Hne].
  - rewrite lookup_alter_eq, Hv, Ef. cbn. by rewrite list_lookup_alter_eq.
  - rewrite lookup_alter_ne, Hv by done. destruct (frs_to_idx_opt f' ix) as [j|] eqn:Ej; [|done]. cbn.
    rewrite list_lookup_alter_ne; [done |]. intros Eij.
    destruct (lookup_record ix f i (models_wf _ _ H) Hf Ef) as (r & Hr & Hfr & _ & H0).
    destruct (lookup_record ix f' j (models_wf _ _ H) Hf' Ej) as (r' & Hr' & Hfr' & _ & H0').
    assert (i = j) as -> by lia. congruence.
Qed.

Lemma alter_insert {A} (g : A -> A) (l : list A) k x y : l !! k = Some x -> g x = y -> <[k := y]> l = alter g k l.
Proof.
  intros Hk <-. apply list_eq. intros j. destruct (decide (j = k)) as [-> |].
  - rewrite list_lookup_alter_eq, list_lookup_insert_eq by (by eapply lookup_lt_Some). by rewrite Hk.
  - by rewrite list_lookup_insert_ne, list_lookup_alter_ne by done.
Qed.

Lemma update_record_spec ix i f r :
  zget ix.(ix_records) i = Some r ->
  update_record i f ix = Some (with_records (<[Z.to_nat i := f r]> ix.(ix_records)) ix).
Proof. intros Hr. unfold update_record. rewrite Hr. cbn. rewrite zset_insert; [done |]. by apply zget_Some in Hr as [? _]. Qed.

(** [ensure_record]: the record is there afterwards, and nothing else has changed. *)
Lemma models_ensure fresh ix v f :
  (forall f, fr_frs (fresh f) = f /\ fr_first_name (fresh f) = no_link /\ fr_first_stream (fresh f) = no_stream /\
    fr_first_internal_stream (fresh f) = NO_ENTRY /\ fr_first_child (fresh f) = NO_ENTRY) ->
  models ix v -> 0 <= f < U64_MAX -> zlen ix.(ix_records) < NO_ENTRY ->
  exists i ix', ensure_with fresh f ix = Some (i, ix') /\ frs_to_idx_opt f ix' = Some i /\ models ix' (touch fresh f v) /\
    (forall f' j, is_u64 f' -> frs_to_idx_opt f' ix = Some j -> frs_to_idx_opt f' ix' = Some j) /\
    (forall n, 0 <= n -> room (1 + n) ix -> room n ix').
Proof.
  intros Hfresh H Hf Hl. destruct (Hfresh f) as (Ff & Fn & Fs & Fi & Fc). clear Hfresh.
  assert (Hu : is_u64 f) by (unfold U64_MAX in Hf; lia).
  pose proof (models_wf _ _ H) as Hwf. destruct Hwf as [[T1 T2] (ol & os & oi & oc & Hlists)].
  set (table := grow_lookup f ix.(ix_frs_to_idx)).
  assert (Hgrow : forall f', 0 <= f' -> zget table f' = match zget ix.(ix_frs_to_idx) f' with Some i => Some i | None => if f' <=? f then Some NO_ENTRY else None end)
    by (intros; by apply grow_lookup_get).
  assert (Hopt : forall f', is_u64 f' -> frs_to_idx_opt f' (with_frs_to_idx table ix) = frs_to_idx_opt f' ix).
  { intros f' Hf'. unfold frs_to_idx_opt. rewrite frs_to_usize_u64 by done. cbn. rewrite Hgrow by lia.
    destruct (zget (ix_frs_to_idx ix) f'); [done |]. destruct (f' <=? f); [|done]. cbn. by rewrite Z.eqb_refl. }
  assert (Hget : exists i, zget table f = Some i /\ (frs_to_idx_opt f ix = if i =? NO_ENTRY then None else Some i)).
  { unfold frs_to_idx_opt. rewrite frs_to_usize_u64 by done. rewrite Hgrow, Z.leb_refl by lia.
    destruct (zget (ix_frs_to_idx ix) f) as [i|]; [by exists i |]. exists NO_ENTRY. by rewrite Z.eqb_refl. }
  destruct Hget as (idx & Hidx & Hold). unfold ensure_with. rewrite frs_to_usize_u64 by done. fold table. rewrite Hidx. cbn [mbind option_bind].
  destruct (Z.eqb_spec idx NO_ENTRY) as [-> | Hn].
  - set (n := zlen (ix_records ix)) in *.
    assert (Hlen : len_to_u32 n = n) by (unfold len_to_u32; rewrite (proj2 (Z.ltb_lt _ _)) by (unfold NO_ENTRY, U32_MAX in Hl; lia); done).
    rewrite Hlen. eexists _, _. split; [done |]. apply zget_Some in Hidx as Hr. destruct Hr as [Hr _].
    set (ix' := with_records _ _). pose proof (zlen_nonneg (ix_records ix)) as Hn0. fold n in Hn0.
    assert (Hnew : frs_to_idx_opt f ix' = Some n).
    { unfold frs_to_idx_opt. rewrite frs_to_usize_u64 by done. cbn. rewrite zget_zset_eq by done. cbn.
      by rewrite (proj2 (Z.eqb_neq _ _)) by lia. }
    assert (Hoth : forall f', is_u64 f' -> f' <> f -> frs_to_idx_opt f' ix' = frs_to_idx_opt f' ix).
    { intros f' Hf' Hne. rewrite <- Hopt by done. unfold frs_to_idx_opt. rewrite frs_to_usize_u64 by done. cbn. by rewrite zget_zset_ne. }
    assert (Hlists' : lists_ok ix' (ol ++ [[]]) (os ++ [[]]) (oi ++ [[]]) (oc ++ [[]])).
    { apply (lists_new_record ix ol os oi oc (zset table f n) (fresh f)); rewrite ?Fn, ?Fs; done. }
    assert (Hviews : views ix' = views ix ++ [fresh_view (fresh f)]).
    { unfold views, ix'. cbn [ix_records with_records with_frs_to_idx]. rewrite map_app. f_equal. cbn [map]. f_equal.
      unfold file_view, fresh_view, iter_names, iter_streams. cbn. by rewrite Fn, Fs, Fi, Fc. }
    split; [done |]. split; [split|split].
    + split; [|by eexists _, _, _, _]. split.
      * intros f' i E Hi. cbn in E. destruct (decide (f' = f)) as [-> | Hne].
        -- rewrite zget_zset_eq in E by done. injection E as <-. exists (fresh f). cbn. split; [|done].
           rewrite zget_app_r, Z.sub_diag by (fold n; lia). done.
        -- rewrite zget_zset_ne in E by done. pose proof (proj1 (zget_Some _ _ _) E) as [H0 _]. rewrite Hgrow in E by lia.
           destruct (zget (ix_frs_to_idx ix) f') as [i'|] eqn:Ei'.
           ++ injection E as ->. destruct (T1 f' i Ei' Hi) as (r & Hrr & Hrf). exists r. split; [|done]. cbn. by apply zget_app_Some.
           ++ destruct (f' <=? f); [|done]. injection E as <-. done.
      * cbn. intros i r E. destruct (Z.lt_ge_cases i n) as [Hlt | Hge].
        -- rewrite zget_app_l in E by done. pose proof (T2 i r E) as Ht.
           assert (Hrf : fr_frs r <> f). { intros Ef. rewrite Ef in Ht. rewrite Hgrow, Ht in Hidx by lia. injection Hidx as ->. lia. }
           rewrite zget_zset_ne by done. pose proof (proj1 (zget_Some _ _ _) Ht) as [H0 _]. rewrite Hgrow, Ht by lia. done.
        -- rewrite zget_app_r in E by done. fold n in E. apply zget_Some in E as [H0 E]. unfold zlen in H0. cbn in H0.
           assert (i = n) as -> by lia. rewrite Z.sub_diag in E. injection E as <-. rewrite Ff. by apply zget_zset_eq.
    + unfold touch. destruct (vol_files v !! f); cbn; apply (models_ext _ _ H).
    + cbn. apply (models_ext_ok _ _ H).
    + intros f' Hf'. assert (Hnone : vol_files v !! f = None) by (rewrite (models_files _ _ H f Hu); unfold file_at; by rewrite Hold).
      unfold touch. rewrite Hnone. cbn. unfold file_at. destruct (decide (f' = f)) as [-> | Hne].
      * rewrite lookup_insert_eq, Hnew. cbn [mbind option_bind]. rewrite Hviews, lookup_app_r; unfold views; rewrite length_map; [|unfold n, zlen; lia].
        unfold n, zlen. by rewrite Nat2Z.id, Nat.sub_diag.
      * rewrite lookup_insert_ne by done. rewrite (models_files _ _ H f' Hf'). unfold file_at. rewrite Hoth by done.
        destruct (frs_to_idx_opt f' ix) as [j|] eqn:Ej; [|done]. cbn [mbind option_bind]. rewrite Hviews.
        destruct (lookup_record ix f' j (models_wf _ _ H) Hf' Ej) as (r & _ & _ & Hk & _).
        rewrite lookup_app_l; [done |]. unfold views. rewrite length_map. by eapply lookup_lt_Some.
    + intros f' j Hf' Ej. rewrite Hoth; [done | done |]. intros ->. rewrite Hold in Ej. done.
    + intros m Hm. unfold room, ix'. cbn [with_records with_frs_to_idx ix_records ix_links ix_streams ix_internal_streams ix_children ix_names].
      rewrite zlen_app. change (zlen [fresh f]) with 1. lia.
  - eexists _, _. split; [done |]. rewrite Hopt, Hold by done. split; [done |].
    assert (Hf' : vol_files v !! f <> None).
    { rewrite (models_files _ _ H f Hu). unfold file_at. rewrite Hold. cbn.
      destruct (lookup_record ix f idx (models_wf _ _ H) Hu) as (r & _ & _ & Hk & _); [by rewrite Hold |]. by rewrite (views_lookup _ _ _ Hk). }
    unfold touch. destruct (vol_files v !! f); [|done]. split; [split|split].
    + split; [|exists ol, os, oi, oc; by destruct Hlists]. split.
      * intros f' i E Hi. cbn in E. pose proof (proj1 (zget_Some _ _ _) E) as [H0 _]. rewrite Hgrow in E by lia. destruct (zget (ix_frs_to_idx ix) f') eqn:Ei'.
        -- injection E as ->. by apply (T1 f').
        -- destruct (f' <=? f); [|done]. injection E as <-. done.
      * intros i r E. cbn. pose proof (T2 i r E) as Ht. pose proof (proj1 (zget_Some _ _ _) Ht) as [H0 _]. by rewrite Hgrow, Ht by lia.
    + apply (models_ext _ _ H).
    + apply (models_ext_ok _ _ H).
    + intros f' Hf1. rewrite (models_files _ _ H f' Hf1). unfold file_at. by rewrite Hopt.
    + intros f' j Hf1 Ej. by rewrite Hopt.
    + intros m Hm. unfold room. cbn. lia.
Qed.
