(* ===== verification/RecordParser.v ===== *)
(** The parser of one record of the master file table into the index, base and extension
    records alike ([crates/uffs-mft/src/io/parser/unified.rs], with
    [parse/attribute_helpers.rs], [ntfs/metadata.rs], [ntfs/mod.rs] and the conversions of
    [index/standard_info.rs]), and its refinement of a table of files. *)
From S2P Require Import Prelude Text NtfsRecords NameCodec Arena MftIndex IndexViews.

(** * Bounded reads *)

Definition rd_u16 (buf : list Z) (off : Z) : Z := default 0 (read_u16_le buf off).
Definition rd_u32 (buf : list Z) (off : Z) : Z := default 0 (read_u32_le buf off).
Definition rd_u64 (buf : list Z) (off : Z) : Z := default 0 (read_u64_le buf off).

Definition checked_add (a b : Z) : option Z := if a + b <? 2 ^ 64 then Some (a + b) else None.

Definition resident_value_offset (data : list Z) (attr_offset : Z) : option Z :=
  checked_add attr_offset (rd_u16 data (saturating_add_u64 attr_offset 20)).

Definition file_reference_to_frs (file_reference : Z) : Z := Z.land file_reference 0x0000FFFFFFFFFFFF.

(** * $STANDARD_INFORMATION *)

Record ExtendedStandardInfo := {
  esi_created : Z; esi_modified : Z; esi_accessed : Z; esi_mft_changed : Z; esi_usn : Z;
  esi_security_id : Z; esi_owner_id : Z; esi_quota_charged : Z; esi_max_versions : Z;
  esi_version_number : Z; esi_class_id : Z;
  esi_is_readonly : bool; esi_is_hidden : bool; esi_is_system : bool; esi_is_archive : bool;
  esi_is_device : bool; esi_is_normal : bool; esi_is_temporary : bool; esi_is_sparse : bool;
  esi_is_reparse : bool; esi_is_compressed : bool; esi_is_offline : bool;
  esi_is_not_content_indexed : bool; esi_is_encrypted : bool; esi_is_integrity_stream : bool;
  esi_is_virtual : bool; esi_is_no_scrub_data : bool; esi_is_pinned : bool; esi_is_unpinned : bool
}.

(** [ExtendedStandardInfo::from_attributes] with the other fields given: what
    [..from_attributes(attrs)] leaves to the struct literal around it. *)
Definition extended_info (created modified accessed mft_changed usn security_id owner_id quota_charged
    max_versions version_number class_id attrs : Z) : ExtendedStandardInfo :=
  let bit m := negb (Z.land attrs m =? 0) in
  {| esi_created := created; esi_modified := modified; esi_accessed := accessed; esi_mft_changed := mft_changed;
     esi_usn := usn; esi_security_id := security_id; esi_owner_id := owner_id; esi_quota_charged := quota_charged;
     esi_max_versions := max_versions; esi_version_number := version_number; esi_class_id := class_id;
     esi_is_readonly := bit 0x0001; esi_is_hidden := bit 0x0002; esi_is_system := bit 0x0004;
     esi_is_archive := bit 0x0020; esi_is_device := bit 0x0040; esi_is_normal := bit 0x0080;
     esi_is_temporary := bit 0x0100; esi_is_sparse := bit 0x0200; esi_is_reparse := bit 0x0400;
     esi_is_compressed := bit 0x0800; esi_is_offline := bit 0x1000; esi_is_not_content_indexed := bit 0x2000;
     esi_is_encrypted := bit 0x4000; esi_is_integrity_stream := bit 0x8000; esi_is_virtual := bit 0x00010000;
     esi_is_no_scrub_data := bit 0x00020000; esi_is_pinned := bit 0x00080000; esi_is_unpinned := bit 0x00100000 |}.

Definition from_attributes (attrs : Z) : ExtendedStandardInfo := extended_info 0 0 0 0 0 0 0 0 0 0 0 attrs.
Definition default_extended_info : ExtendedStandardInfo := from_attributes 0.

Definition STANDARD_INFO_SIZE_V12 : Z := 36.
Definition STANDARD_INFO_SIZE_V30 : Z := 72.

Inductive StdInfoParse : Type := Malformed | V12 | V30.

Definition rd_i64 (buf : list Z) (off : Z) : Z := i64 (rd_u64 buf off).

Definition parse_standard_info_full (data : list Z) (attr_offset : Z) (result : ExtendedStandardInfo)
    : StdInfoParse * ExtendedStandardInfo :=
  match get_range data (attr_offset + 16) (attr_offset + 20) with
  | None => (Malformed, result)
  | Some value_length_bytes =>
  let value_length := from_le_bytes value_length_bytes in
  match get_range data (attr_offset + 20) (attr_offset + 22) with
  | None => (Malformed, result)
  | Some value_offset_bytes =>
  let value_offset := from_le_bytes value_offset_bytes in
  let si := attr_offset + value_offset in
  if (STANDARD_INFO_SIZE_V30 <=? value_length) && (si + 72 <=? zlen data) then
    (V30, extended_info (rd_i64 data si) (rd_i64 data (si + 8)) (rd_i64 data (si + 24)) (rd_i64 data (si + 16))
            (rd_u64 data (si + 64)) (rd_u32 data (si + 52)) (rd_u32 data (si + 48)) (rd_u64 data (si + 56))
            (rd_u32 data (si + 36)) (rd_u32 data (si + 40)) (rd_u32 data (si + 44)) (rd_u32 data (si + 32)))
  else if (STANDARD_INFO_SIZE_V12 <=? value_length) && (si + 36 <=? zlen data) then
    (V12, extended_info (rd_i64 data si) (rd_i64 data (si + 8)) (rd_i64 data (si + 24)) (rd_i64 data (si + 16))
            0 0 0 0 0 0 0 (rd_u32 data (si + 32)))
  else (Malformed, result)
  end end.

(** [StandardInfo::from_extended]. *)
Definition from_extended (e : ExtendedStandardInfo) : StandardInfo :=
  let add (b : bool) (m flags : Z) := if b then Z.lor flags m else flags in
  let flags := 0 in
  let flags := add e.(esi_is_readonly) IS_READONLY flags in
  let flags := add e.(esi_is_archive) IS_ARCHIVE flags in
  let flags := add e.(esi_is_system) IS_SYSTEM flags in
  let flags := add e.(esi_is_hidden) IS_HIDDEN flags in
  let flags := add e.(esi_is_offline) IS_OFFLINE flags in
  let flags := add e.(esi_is_not_content_indexed) IS_NOT_INDEXED flags in
  let flags := add e.(esi_is_compressed) IS_COMPRESSED flags in
  let flags := add e.(esi_is_encrypted) IS_ENCRYPTED flags in
  let flags := add e.(esi_is_sparse) IS_SPARSE flags in
  let flags := add e.(esi_is_reparse) IS_REPARSE flags in
  let flags := add e.(esi_is_temporary) IS_TEMPORARY flags in
  let flags := add e.(esi_is_integrity_stream) IS_INTEGRITY_STREAM flags in
  let flags := add e.(esi_is_no_scrub_data) IS_NO_SCRUB_DATA flags in
  let flags := add e.(esi_is_pinned) IS_PINNED flags in
  let flags := add e.(esi_is_unpinned) IS_UNPINNED flags in
  let flags := add e.(esi_is_virtual) IS_VIRTUAL flags in
  {| si_created := e.(esi_created); si_modified := e.(esi_modified); si_accessed := e.(esi_accessed);
     si_mft_changed := e.(esi_mft_changed); si_flags := flags; si_usn := e.(esi_usn);
     si_security_id := e.(esi_security_id); si_owner_id := e.(esi_owner_id) |}.

(** * $FILE_NAME *)

Record FileNameAttribute := {
  fa_parent_directory : Z; fa_creation_time : Z; fa_modification_time : Z; fa_mft_change_time : Z;
  fa_access_time : Z; fa_file_name_length : Z; fa_file_name_namespace : Z
}.

(** [FileNameAttribute::read_from_prefix] at [off], the fields the parser reads; the
    attribute has 66 bytes. *)
Definition read_file_name_attribute (data : list Z) (off : Z) : option FileNameAttribute :=
  let? s := get_from data off in
  if zlen s <? 66 then None else
  let? len := zget s 64 in
  let? ns := zget s 65 in
  Some {| fa_parent_directory := rd_u64 s 0; fa_creation_time := rd_i64 s 8; fa_modification_time := rd_i64 s 16;
          fa_mft_change_time := rd_i64 s 24; fa_access_time := rd_i64 s 32; fa_file_name_length := len;
          fa_file_name_namespace := ns |}.

(** The guards of the $FILE_NAME arm: the decoded attribute and the bytes of the name. *)
Definition read_file_name (data : list Z) (offset : Z) (hdr : AttributeRecordHeader)
    : option (FileNameAttribute * list Z) :=
  if hdr.(is_non_resident_) =? 0 then
    let? fn_off := resident_value_offset data offset in
    let? fn := read_file_name_attribute data fn_off in
    if fn.(fa_file_name_namespace) =? 2 then None else
    let name_len := fn.(fa_file_name_length) in
    let ns := saturating_add_u64 fn_off 66 in
    let? name_end := checked_add ns (name_len * 2) in
    let? nb := get_range data ns name_end in
    Some (fn, nb)
  else None.

Definition all_ascii (s : list Z) : bool := forallb (fun b => b <? 128) s.

Section parser.
Context (to_lowercase : list Z -> list Z).

(** [links.push(old_first)] and the link to it, when the record already has a name. *)
Definition push_old_name (base_ri : Z) (ix : MftIndex) : option MftIndex :=
  let? r := zget ix.(ix_records) base_ri in
  let old_first := r.(fr_first_name) in
  if is_valid old_first.(li_name) then
    let link_idx := len_to_u32 (zlen ix.(ix_links)) in
    update_record base_ri (fun r => set_first_name (set_next r.(fr_first_name) link_idx) r)
      (with_links (ix.(ix_links) ++ [old_first]) ix)
  else Some ix.

(** [store_name_lossless], [intern_extension] and [IndexNameRef::new]. *)
Definition store_name (name_buf raw : list Z) (lossy : Z) (ix : MftIndex) : IndexNameRef * MftIndex :=
  let bytes := stored_name name_buf raw lossy in
  let '(name_off, ix) := add_name_bytes bytes ix in
  let '(ext_id, exts) := intern_extension to_lowercase name_buf ix.(ix_extensions) in
  (IndexNameRef_new name_off (len_to_u16 (zlen bytes)) (all_ascii name_buf) ext_id, with_extensions exts ix).

(** The child entry of a name: the parent's record is made when it does not exist. *)
Definition push_child (frs_base parent_frs name_index : Z) (ix : MftIndex) : option MftIndex :=
  if negb (parent_frs =? frs_base) && negb (parent_frs =? NO_ENTRY) then
    let? p := ensure_record parent_frs ix in
    let '(parent_ri, ix) := p in
    let child_idx := len_to_u32 (zlen ix.(ix_children)) in
    let? parent := zget ix.(ix_records) parent_ri in
    let old_fc := parent.(fr_first_child) in
    let? ix := update_record parent_ri (set_first_child child_idx) ix in
    Some (with_children (ix.(ix_children) ++
      [{| ch_next := old_fc; ch_child_frs := frs_base; ch_name_index := name_index |}]) ix)
  else Some ix.

(** The $FILE_NAME arm. *)
Definition add_file_name (frs_base base_ri : Z) (fn : FileNameAttribute) (nb : list Z) (ix : MftIndex)
    : option MftIndex :=
  let parent_frs := file_reference_to_frs fn.(fa_parent_directory) in
  let '(name_buf, lossy) := decode_utf16le_into nb in
  let? ix := push_old_name base_ri ix in
  let '(name_ref, ix) := store_name name_buf nb lossy ix in
  let? ix := update_record base_ri (fun r =>
    set_fn_fields fn.(fa_file_name_namespace) fn.(fa_creation_time) fn.(fa_modification_time)
      fn.(fa_access_time) fn.(fa_mft_change_time)
      (set_first_name {| li_next := r.(fr_first_name).(li_next); li_name := name_ref;
                         li_parent_frs := parent_frs |} r)) ix in
  let? r := zget ix.(ix_records) base_ri in
  let name_index := r.(fr_name_count) in
  let? ix := push_child frs_base parent_frs name_index ix in
  update_record base_ri (fun r => set_name_count (saturating_add_u16 r.(fr_name_count) 1) r) ix.

(** * The other attributes *)

Definition DATA_TYPE : Z := 0x80.
Definition REPARSE_POINT_TYPE : Z := 0xC0.
Definition END_MARKER : Z := 0xFFFFFFFF.

(** A resident attribute, or the run that starts at VCN 0. *)
Definition is_primary (data : list Z) (offset : Z) (hdr : AttributeRecordHeader) : bool :=
  if hdr.(is_non_resident_) =? 0 then true else
  match (let? nr := checked_add offset 16 in let? nd := checked_add nr 8 in get_range data nr nd) with
  | Some bytes => i64 (from_le_bytes bytes) =? 0
  | None => false
  end.

(** [b"$\x00I\x003\x000\x00"]. *)
Definition I30_BYTES : list Z := [36; 0; 73; 0; 51; 0; 48; 0].
Definition BAD_NAME : list Z := [36; 66; 97; 100].

Definition attribute_is_i30 (data : list Z) (offset : Z) (hdr : AttributeRecordHeader) : bool :=
  match attribute_type_from_u32 hdr.(type_code) with
  | Some (Bitmap | IndexRoot | IndexAllocation) => true
  | _ => false
  end && (hdr.(name_length) =? 4) &&
  match (let? no := checked_add offset hdr.(name_offset) in let? nd := checked_add no 8 in get_range data no nd) with
  | Some sl => bool_decide (sl = I30_BYTES)
  | None => false
  end.

(** The name of a stream as [(name_buf, stream_name_lossy, stream_name_raw)]. *)
Definition read_stream_name (data : list Z) (offset : Z) (hdr : AttributeRecordHeader)
    : list Z * Z * option (list Z) :=
  match (let? no := checked_add offset hdr.(name_offset) in
         let? nd := checked_add no (hdr.(name_length) * 2) in get_range data no nd) with
  | Some bytes => (decode_utf16le_into bytes, Some bytes)
  | None => ([], 0, None)
  end.

(** Logical and allocated size. *)
Definition attribute_sizes (data : list Z) (offset : Z) (hdr : AttributeRecordHeader) (is_badclus_bad : bool) : Z * Z :=
  if negb (hdr.(is_non_resident_) =? 0) then
    match checked_add offset 16 with
    | Some nr =>
        if saturating_add_u64 nr 48 <=? zlen data then
          let cu := rd_u16 data (saturating_add_u64 nr 18) in
          let alloc_size :=
            if cu >? 0 then rd_u64 data (saturating_add_u64 nr 48)
            else if is_badclus_bad then rd_u64 data (saturating_add_u64 nr 40)
            else rd_u64 data (saturating_add_u64 nr 24) in
          let logical_size :=
            if is_badclus_bad then rd_u64 data (saturating_add_u64 nr 40)
            else rd_u64 data (saturating_add_u64 nr 32) in
          (logical_size, alloc_size)
        else (0, 0)
    | None => (0, 0)
    end
  else (rd_u32 data (saturating_add_u64 offset 16), 0).

(** Bits 0 and 1 of a stream's flags. *)
Definition stream_flags (hdr : AttributeRecordHeader) : Z :=
  let is_resident := hdr.(is_non_resident_) =? 0 in
  let is_sparse := negb is_resident && negb (Z.land hdr.(attr_flags) 0x8000 =? 0) in
  Z.lor (Z.b2z is_sparse) (Z.shiftl (Z.b2z is_resident) 1).

Definition add_size (size alloc : Z) (s : SizeInfo) : SizeInfo :=
  {| sz_length := saturating_add_u64 s.(sz_length) size; sz_allocated := saturating_add_u64 s.(sz_allocated) alloc |}.

Definition count_stream (r : FileRecord) : FileRecord :=
  set_stream_counts (saturating_add_u16 r.(fr_stream_count) 1) (saturating_add_u16 r.(fr_total_stream_count) 1) r.

(** The first stream takes the flags, and the sizes are added. *)
Definition add_to_first_stream (size alloc flags : Z) (r : FileRecord) : FileRecord :=
  let s := r.(fr_first_stream) in
  set_first_stream {| st_size := add_size size alloc s.(st_size); st_next := s.(st_next); st_name := s.(st_name);
                      st_flags := flags |} r.

Definition add_i30 (size alloc flags : Z) (r : FileRecord) : FileRecord :=
  let r := set_stdinfo (set_directory r.(fr_stdinfo) true) r in
  let r := add_to_first_stream size alloc flags r in
  if has_i30_stream r then r else count_stream (set_has_i30_stream r).

Definition add_default_data (size alloc flags : Z) (r : FileRecord) : FileRecord :=
  let r := if has_default_data r then r else count_stream r in
  add_to_first_stream size alloc (Z.lor flags (Z.shiftl 8 2)) (set_has_default_data r).

(** A named stream, linked after the last one of the record. *)
Definition add_named_stream (base_ri size alloc flags : Z) (name_buf : list Z) (lossy : Z) (raw : option (list Z))
    (ix : MftIndex) : option MftIndex :=
  let '(nr, ix) :=
    match raw with
    | Some raw => store_name name_buf raw lossy ix
    | None => store_name name_buf name_buf 0 ix
    end in
  let si := len_to_u32 (zlen ix.(ix_streams)) in
  let ix := with_streams (ix.(ix_streams) ++
    [{| st_size := {| sz_length := size; sz_allocated := alloc |}; st_next := NO_ENTRY; st_name := nr;
        st_flags := Z.lor flags (Z.shiftl 8 2) |}]) ix in
  let? r := zget ix.(ix_records) base_ri in
  let old_next := r.(fr_first_stream).(st_next) in
  let? ix :=
    if old_next =? NO_ENTRY then
      update_record base_ri (fun r => set_first_stream (set_next r.(fr_first_stream) si) r) ix
    else
      let? tail := find_tail (length ix.(ix_streams)) ix.(ix_streams) old_next in
      let? t := zget ix.(ix_streams) tail in
      Some (with_streams (zset ix.(ix_streams) tail (set_next t si)) ix) in
  update_record base_ri count_stream ix.

(** Every other attribute: an internal stream, linked after the last one. *)
Definition add_internal_stream (base_ri size alloc flags : Z) (ix : MftIndex) : option MftIndex :=
  let ist_idx := len_to_u32 (zlen ix.(ix_internal_streams)) in
  let ix := with_internal_streams (ix.(ix_internal_streams) ++
    [{| in_size := {| sz_length := size; sz_allocated := alloc |}; in_next := NO_ENTRY; in_flags := flags |}]) ix in
  let? r := zget ix.(ix_records) base_ri in
  let head := r.(fr_first_internal_stream) in
  let? ix :=
    if head =? NO_ENTRY then update_record base_ri (set_first_internal_stream ist_idx) ix
    else
      let? tail := find_tail (length ix.(ix_internal_streams)) ix.(ix_internal_streams) head in
      let? t := zget ix.(ix_internal_streams) tail in
      Some (with_internal_streams (zset ix.(ix_internal_streams) tail (set_next t ist_idx)) ix) in
  update_record base_ri (fun r =>
    let r := set_internal_sizes (saturating_add_u64 r.(fr_internal_streams_size) size)
               (saturating_add_u64 r.(fr_internal_streams_allocated) alloc) r in
    set_stream_counts r.(fr_stream_count) (saturating_add_u16 r.(fr_total_stream_count) 1) r) ix.

(** The last arm of the match. *)
Definition add_other_attribute (data : list Z) (offset : Z) (hdr : AttributeRecordHeader) (frs_base base_ri : Z)
    (ix : MftIndex) : option MftIndex :=
  if is_primary data offset hdr then
    let attr_type := hdr.(type_code) in
    let aname_len := hdr.(name_length) in
    let is_i30 := attribute_is_i30 data offset hdr in
    let has_stream_name := negb is_i30 && (aname_len >? 0) in
    let '(name_buf, lossy, raw) := if has_stream_name then read_stream_name data offset hdr else ([], 0, None) in
    let is_badclus_bad := (frs_base =? 8) && (aname_len =? 4) && has_stream_name && bool_decide (name_buf = BAD_NAME) in
    let '(size, alloc) := attribute_sizes data offset hdr is_badclus_bad in
    let flags := stream_flags hdr in
    let? ix :=
      if is_i30 then update_record base_ri (add_i30 size alloc flags) ix
      else if (attr_type =? DATA_TYPE) && (aname_len =? 0) then update_record base_ri (add_default_data size alloc flags) ix
      else if (attr_type =? DATA_TYPE) && (aname_len >? 0) then
        if has_stream_name && negb (bool_decide (name_buf = [])) then
          add_named_stream base_ri size alloc flags name_buf lossy raw ix
        else Some ix
      else add_internal_stream base_ri size alloc flags ix in
    if (attr_type =? REPARSE_POINT_TYPE) && (hdr.(is_non_resident_) =? 0) then
      match (rd_u32 data) <$> resident_value_offset data offset with
      | Some tag => update_record base_ri (set_reparse_tag tag) ix
      | None => Some ix
      end
    else Some ix
  else Some ix.

(** The match on the attribute's type. *)
Definition process_attribute (data : list Z) (frs_base base_ri : Z) (is_directory : bool) (offset : Z)
    (hdr : AttributeRecordHeader) (ix : MftIndex) : option MftIndex :=
  match attribute_type_from_u32 hdr.(type_code) with
  | Some StandardInformation =>
      if hdr.(is_non_resident_) =? 0 then
        let ext := (parse_standard_info_full data offset default_extended_info).2 in
        let info := from_extended ext in
        let info := if is_directory then set_directory info true else info in
        update_record base_ri (set_stdinfo info) ix
      else Some ix
  | Some FileName =>
      match read_file_name data offset hdr with
      | Some (fn, nb) => add_file_name frs_base base_ri fn nb ix
      | None => Some ix
      end
  | _ => add_other_attribute data offset hdr frs_base base_ri ix
  end.

(** The attribute loop, one step of fuel per attribute. *)
Fixpoint attribute_loop (fuel : nat) (data : list Z) (frs_base base_ri : Z) (is_directory : bool)
    (max_offset offset : Z) (ix : MftIndex) : option MftIndex :=
  match fuel with
  | O => None
  | S fuel =>
      if offset + 16 <=? max_offset then
        match get_from data offset with
        | None => Some ix
        | Some attr_slice =>
            match parse_attribute_record_header attr_slice with
            | None => Some ix
            | Some hdr =>
                if hdr.(type_code) =? END_MARKER then Some ix else
                let attr_len := hdr.(length_) in
                if (attr_len =? 0) || (offset + attr_len >? zlen data) then Some ix else
                let? ix := process_attribute data frs_base base_ri is_directory offset hdr ix in
                attribute_loop fuel data frs_base base_ri is_directory max_offset (offset + attr_len) ix
            end
        end
      else Some ix
  end.

(** [process_record]: whether the record was taken, and the index; [None] is a panic. *)
Definition process_record (data : list Z) (frs : Z) (ix : MftIndex) : option (bool * MftIndex) :=
  if zlen data <? 48 then Some (false, ix) else
  match parse_file_record_segment_header data with
  | None => Some (false, ix)
  | Some header =>
      if negb (is_in_use header) || negb (is_file_record header.(multi_sector_header)) then Some (false, ix) else
      let frs_base := if is_base_record header then frs else file_reference_to_frs header.(base_file_record_segment) in
      let is_directory := is_directory_record header in
      let? p := ensure_record frs_base ix in
      let '(base_ri, ix) := p in
      let? ix :=
        if is_base_record header then
          update_record base_ri (set_sequence header.(sequence_number) header.(log_file_sequence_number)) ix
        else Some ix in
      let offset := header.(first_attribute_offset) in
      let max_offset := Z.min header.(bytes_in_use) (zlen data) in
      let? ix := attribute_loop (S (length data)) data frs_base base_ri is_directory max_offset offset ix in
      let? ix :=
        if is_directory then update_record base_ri (fun r => set_stdinfo (set_directory r.(fr_stdinfo) true) r) ix
        else Some ix in
      Some (true, ix)
  end.
End parser.

(** * The abstract parser: what a record does to the table of files *)

Definition name_of (nb : list Z) : list Z := utf8_string (code_points_of (utf16_units nb)).
Definition shown_name (nb : list Z) : list Z := utf8_string (map shown (code_points_of (utf16_units nb))).

Definition on_fields (f : FileRecord -> FileRecord) (v : FileView) : FileView :=
  mk_view (f v.(v_fields)) v.(v_names) v.(v_streams) v.(v_internal) v.(v_children).

Definition new_name (fn : FileNameAttribute) (name : NameView) (v : FileView) : FileView :=
  mk_view (set_fn_fields fn.(fa_file_name_namespace) fn.(fa_creation_time) fn.(fa_modification_time)
             fn.(fa_access_time) fn.(fa_mft_change_time) v.(v_fields))
    (name :: v.(v_names)) v.(v_streams) v.(v_internal) v.(v_children).

Definition new_child (child_frs name_index : Z) (v : FileView) : FileView :=
  mk_view v.(v_fields) v.(v_names) v.(v_streams) v.(v_internal)
    ({| ch_next := NO_ENTRY; ch_child_frs := child_frs; ch_name_index := name_index |} :: v.(v_children)).

Definition new_stream (s : StreamView) (v : FileView) : FileView :=
  mk_view (count_stream v.(v_fields)) v.(v_names) (v.(v_streams) ++ [s]) v.(v_internal) v.(v_children).

Definition count_internal (size alloc : Z) (r : FileRecord) : FileRecord :=
  let r := set_internal_sizes (saturating_add_u64 r.(fr_internal_streams_size) size)
             (saturating_add_u64 r.(fr_internal_streams_allocated) alloc) r in
  set_stream_counts r.(fr_stream_count) (saturating_add_u16 r.(fr_total_stream_count) 1) r.

Definition new_internal (size alloc flags : Z) (v : FileView) : FileView :=
  mk_view (count_internal size alloc v.(v_fields)) v.(v_names) v.(v_streams)
    (v.(v_internal) ++ [{| in_size := {| sz_length := size; sz_allocated := alloc |}; in_next := NO_ENTRY; in_flags := flags |}])
    v.(v_children).

Section spec.
Context (to_lowercase : list Z -> list Z).

(** A name in front of the file's names; the entry of the name in front of the parent's
    children, numbered by the names the file had before. *)
Definition spec_file_name (frs : Z) (fn : FileNameAttribute) (nb : list Z) (v : Volume) : Volume :=
  let parent := file_reference_to_frs fn.(fa_parent_directory) in
  let '(ext_id, exts) := intern_extension to_lowercase (shown_name nb) v.(vol_ext) in
  let name := {| nv_bytes := name_of nb; nv_ascii := all_ascii (shown_name nb); nv_ext := ext_id; nv_parent_frs := parent |} in
  let v1 := set_ext exts (on_file frs (new_name fn name) v) in
  let number := match v.(vol_files) !! frs with Some file => file.(v_fields).(fr_name_count) | None => 0 end in
  let v2 := if negb (parent =? frs) && negb (parent =? NO_ENTRY)
            then on_file parent (new_child frs number) (touch FileRecord_new_unified parent v1) else v1 in
  on_file frs (on_fields (fun r => set_name_count (saturating_add_u16 r.(fr_name_count) 1) r)) v2.

Definition spec_named_stream (frs size alloc flags : Z) (nb : list Z) (v : Volume) : Volume :=
  let '(ext_id, exts) := intern_extension to_lowercase (shown_name nb) v.(vol_ext) in
  set_ext exts (on_file frs (new_stream
    {| sv_size := {| sz_length := size; sz_allocated := alloc |}; sv_flags := Z.lor flags (Z.shiftl 8 2);
       sv_bytes := name_of nb; sv_ascii := all_ascii (shown_name nb); sv_ext := ext_id |}) v).

Definition spec_other_attribute (data : list Z) (frs offset : Z) (hdr : AttributeRecordHeader) (v : Volume) : Volume :=
  if is_primary data offset hdr then
    let is_i30 := attribute_is_i30 data offset hdr in
    let has_stream_name := negb is_i30 && (hdr.(name_length) >? 0) in
    let raw := if has_stream_name then (read_stream_name data offset hdr).2 else None in
    let is_badclus_bad := (frs =? 8) && (hdr.(name_length) =? 4) &&
      match raw with Some nb => bool_decide (shown_name nb = BAD_NAME) | None => false end in
    let '(size, alloc) := attribute_sizes data offset hdr is_badclus_bad in
    let flags := stream_flags hdr in
    let v :=
      if is_i30 then on_file frs (on_fields (add_i30 size alloc flags)) v
      else if hdr.(type_code) =? DATA_TYPE then
        if hdr.(name_length) =? 0 then on_file frs (on_fields (add_default_data size alloc flags)) v
        else match raw with Some nb => spec_named_stream frs size alloc flags nb v | None => v end
      else on_file frs (new_internal size alloc flags) v in
    if (hdr.(type_code) =? REPARSE_POINT_TYPE) && (hdr.(is_non_resident_) =? 0) then
      match resident_value_offset data offset with
      | Some off => on_file frs (on_fields (set_reparse_tag (rd_u32 data off))) v
      | None => v
      end
    else v
  else v.

Definition spec_attribute (data : list Z) (frs : Z) (dir : bool) (v : Volume) (a : Z * AttributeRecordHeader) : Volume :=
  let '(offset, hdr) := a in
  match attribute_type_from_u32 hdr.(type_code) with
  | Some StandardInformation =>
      if hdr.(is_non_resident_) =? 0 then
        let info := from_extended (parse_standard_info_full data offset default_extended_info).2 in
        on_file frs (on_fields (set_stdinfo (if dir then set_directory info true else info))) v
      else v
  | Some FileName =>
      match read_file_name data offset hdr with
      | Some (fn, nb) => spec_file_name frs fn nb v
      | None => v
      end
  | _ => spec_other_attribute data frs offset hdr v
  end.

(** The attributes a record has, with their offsets. *)
Fixpoint record_walk (fuel : nat) (data : list Z) (max_offset offset : Z) : list (Z * AttributeRecordHeader) :=
  match fuel with
  | O => []
  | S fuel =>
      if offset + 16 <=? max_offset then
        match (let? s := get_from data offset in parse_attribute_record_header s) with
        | Some hdr =>
            if (hdr.(type_code) =? END_MARKER) || (hdr.(length_) =? 0) || (offset + hdr.(length_) >? zlen data) then []
            else (offset, hdr) :: record_walk fuel data max_offset (offset + hdr.(length_))
        | None => []
        end
      else []
  end.

Definition spec_record (data : list Z) (frs : Z) (v : Volume) : bool * Volume :=
  if zlen data <? 48 then (false, v) else
  match parse_file_record_segment_header data with
  | None => (false, v)
  | Some header =>
      if negb (is_in_use header) || negb (is_file_record header.(multi_sector_header)) then (false, v) else
      let base := if is_base_record header then frs else file_reference_to_frs header.(base_file_record_segment) in
      let dir := is_directory_record header in
      let v := touch FileRecord_new_unified base v in
      let v := if is_base_record header
               then on_file base (on_fields (set_sequence header.(sequence_number) header.(log_file_sequence_number))) v else v in
      let attrs := record_walk (S (length data)) data (Z.min header.(bytes_in_use) (zlen data)) header.(first_attribute_offset) in
      let v := foldl (spec_attribute data base dir) v attrs in
      let v := if dir then on_file base (on_fields (fun r => set_stdinfo (set_directory r.(fr_stdinfo) true) r)) v else v in
      (true, v)
  end.
End spec.

(** * Steps that represent a change of the table *)

(** After a step that uses [cost] places: the table it represents, and the positions of
    the records that were there. *)
Record reached (cost : Z) (ix : MftIndex) (v' : Volume) (ix' : MftIndex) : Prop := {
  reached_models : models ix' v';
  reached_kept : forall f j, is_u64 f -> frs_to_idx_opt f ix = Some j -> frs_to_idx_opt f ix' = Some j;
  reached_room : forall n, 0 <= n -> room (cost + n) ix -> room n ix';
}.

Definition simulates (cost : Z) (ix : MftIndex) (v' : Volume) (res : option MftIndex) : Prop :=
  exists ix', res = Some ix' /\ reached cost ix v' ix'.

Lemma reached_trans c1 c2 ix v1 ix1 v2 ix2 : 0 <= c2 -> reached c1 ix v1 ix1 -> reached c2 ix1 v2 ix2 -> reached (c1 + c2) ix v2 ix2.
Proof.
  intros Hc [M1 K1 R1] [M2 K2 R2]. split; [done | |].
  - intros f j Hf E. apply K2; [done |]. by apply K1.
  - intros n Hn Hr. apply R2; [done |]. apply R1; [lia |]. by rewrite Z.add_assoc.
Qed.

Lemma simulates_bind c1 c2 ix v1 v2 (e : option MftIndex) (k : MftIndex -> option MftIndex) :
  0 <= c2 -> simulates c1 ix v1 e -> (forall ix1, reached c1 ix v1 ix1 -> simulates c2 ix1 v2 (k ix1)) ->
  simulates (c1 + c2) ix v2 (e ≫= k).
Proof.
  intros Hc (ix1 & -> & H1) H2. destruct (H2 ix1 H1) as (ix2 & E & Hr2). exists ix2. split; [done |]. by eapply reached_trans.
Qed.

Lemma simulates_ret ix v : models ix v -> simulates 0 ix v (Some ix).
Proof. intros H. exists ix. split; [done |]. split; [done | done |]. intros n Hn. by rewrite Z.add_0_l. Qed.

Lemma simulates_mono c c' ix v e : c <= c' -> simulates c ix v e -> simulates c' ix v e.
Proof.
  intros Hc (ix' & -> & [M K R]). exists ix'. split; [done |]. split; [done | done |]. intros n Hn Hr. apply R; [done |].
  eapply room_mono; [|done]. lia.
Qed.

(** A function of the fields that leaves the record number, the links and the newest name. *)
Definition keeps_links (f : FileRecord -> FileRecord) : Prop :=
  forall r, fr_frs (f r) = fr_frs r /\ fr_first_name (f r) = fr_first_name r /\
    st_next (fr_first_stream (f r)) = st_next (fr_first_stream r) /\
    fr_first_internal_stream (f r) = fr_first_internal_stream r /\ fr_first_child (f r) = fr_first_child r /\
    bare_record (f r) = f (bare_record r).

Ltac keeps := intros r; destruct r as [? ? ? ? ? ? ? ? ? ? ? ? ? ? []]; repeat split.

Lemma keeps_set_stdinfo i : keeps_links (set_stdinfo i). Proof. keeps. Qed.
Lemma keeps_set_sequence a b : keeps_links (set_sequence a b). Proof. keeps. Qed.
Lemma keeps_set_reparse_tag t : keeps_links (set_reparse_tag t). Proof. keeps. Qed.
Lemma keeps_count_stream : keeps_links count_stream. Proof. keeps. Qed.
Lemma keeps_count_internal a b : keeps_links (count_internal a b). Proof. keeps. Qed.
Lemma keeps_count_name : keeps_links (fun r => set_name_count (saturating_add_u16 r.(fr_name_count) 1) r). Proof. keeps. Qed.
Lemma keeps_directory : keeps_links (fun r => set_stdinfo (set_directory r.(fr_stdinfo) true) r). Proof. keeps. Qed.

Lemma keeps_add_i30 a b c : keeps_links (add_i30 a b c).
Proof.
  intros r. destruct r as [fs ? ? fl ? ? ? ? ? ? ? ? ? ? [] ? ? ? ? ? ? ? ? ?].
  unfold add_i30, has_i30_stream, flag_bit. cbn. destruct (negb _); repeat split.
Qed.

Lemma keeps_add_default_data a b c : keeps_links (add_default_data a b c).
Proof.
  intros r. destruct r as [fs ? ? fl ? ? ? ? ? ? ? ? ? ? [] ? ? ? ? ? ? ? ? ?].
  unfold add_default_data, has_default_data, flag_bit. cbn. destruct (negb _); repeat split.
Qed.

Lemma zlen_insert {A} (l : list A) k x : zlen (<[k := x]> l) = zlen l.
Proof. unfold zlen. by rewrite length_insert. Qed.

Lemma room_step c ix ix' :
  zlen ix'.(ix_records) <= zlen ix.(ix_records) + c -> zlen ix'.(ix_links) <= zlen ix.(ix_links) + c ->
  zlen ix'.(ix_streams) <= zlen ix.(ix_streams) + c -> zlen ix'.(ix_internal_streams) <= zlen ix.(ix_internal_streams) + c ->
  zlen ix'.(ix_children) <= zlen ix.(ix_children) + c -> zlen ix'.(ix_names) <= zlen ix.(ix_names) + 1023 * c ->
  forall n, 0 <= n -> room (c + n) ix -> room n ix'.
Proof. unfold room. lia. Qed.

Lemma models_ext_same ix v : models ix v -> set_ext (ix_extensions ix) v = v.
Proof. intros H. destruct v as [files ext]. unfold set_ext. cbn. by rewrite <- (models_ext _ _ H). Qed.

(** The step of a change of one file. *)
Lemma simulates_file cost g ix ix' v f i :
  models ix v -> is_u64 f -> frs_to_idx_opt f ix = Some i -> changed cost (alter g (Z.to_nat i)) ix ix' ->
  ext_ok ix'.(ix_extensions) -> simulates cost ix (set_ext ix'.(ix_extensions) (on_file f g v)) (Some ix').
Proof.
  intros H Hf E C He. destruct (models_changed _ _ _ _ _ _ _ H Hf E C He) as [M K].
  exists ix'. split; [done |]. split; [done | | by apply C]. intros f' j _ Ej. by rewrite K.
Qed.

Lemma fields_step f v base ri ix :
  keeps_links f -> models ix v -> is_u64 base -> frs_to_idx_opt base ix = Some ri ->
  simulates 0 ix (on_file base (on_fields f) v) (update_record ri f ix).
Proof.
  intros Hk H Hb E. destruct (models_record _ _ _ _ H Hb E) as (r & Hr & Hfr & Hrk & Hv).
  rewrite (update_record_spec _ _ _ _ Hr). destruct (Hk r) as (K1 & K2 & K3 & K4 & K5 & K6).
  set (ix' := with_records _ ix). pose proof (models_wf _ _ H) as [Hlook (ol & os & oi & oc & Hl)].
  assert (Hl' : lists_ok ix' ol os oi oc).
  { apply (lists_record ix ol os oi oc (Z.to_nat ri) r); try done; rewrite ?K2; try done.
    pose proof (ok_first_refs _ _ _ _ _ Hl) as Hf. rewrite Forall_forall in Hf. apply (Hf r). by eapply list_elem_of_lookup_2. }
  assert (C : changed 0 (alter (on_fields f) (Z.to_nat ri)) ix ix').
  { split; [split | | done | ].
    - apply (lookup_ok_frs _ ix.(ix_records)); [| done]. by apply (heads_insert_same fr_frs _ _ r).
    - by exists ol, os, oi, oc.
    - rewrite (views_insert ix ix' ol os oi oc ol os oi oc (Z.to_nat ri) (f r)); try done; [| by split; try apply extends_refl; exists []; rewrite app_nil_r].
      eapply alter_insert; [by apply views_lookup |].
      unfold file_view, on_fields, iter_names, iter_streams. cbn. rewrite K2, K3, K4, K5, K6. done.
    - intros n Hn. rewrite Z.add_0_l. unfold room, ix'. cbn. unfold zlen. by rewrite length_insert. }
  pose proof (simulates_file 0 _ _ _ _ _ _ H Hb E C (models_ext_ok _ _ H)) as Hs.
  change (ix_extensions ix') with (ix_extensions ix) in Hs. rewrite <- (models_ext _ _ H) in Hs. by destruct v.
Qed.

(** * Names *)

Lemma intern_ok lc s t id t' : ext_ok t -> intern lc s t = (id, t') -> is_u16 id /\ ext_ok t'.
Proof.
  unfold intern, ext_ok. intros H. destruct (bool_decide (s = [])); [by intros [= <- <-] |].
  destruct (bool_decide _); [by intros [= <- <-] |].
  destruct (et_map t !! _) as [i|] eqn:E; [intros [= <- <-]; split; [by eapply H | done] |].
  unfold len_to_u16. pose proof (zlen_nonneg (et_names t)).
  destruct (Z.ltb_spec (zlen (et_names t)) (2 ^ 16)); (destruct (_ =? _) eqn:Em; [by intros [= <- <-] |]); intros [= <- <-].
  - split; [lia |]. by apply map_Forall_insert_2.
  - done.
Qed.

Lemma intern_extension_ok lc s t id t' : ext_ok t -> intern_extension lc s t = (id, t') -> is_u16 id /\ ext_ok t'.
Proof.
  intros H. unfold intern_extension. destruct (rfind_byte DOT s) as [p|]; [|by intros [= <- <-]].
  destruct (_ && _); [|by intros [= <- <-]]. destruct (get_from s (p + 1)); [|by intros [= <- <-]]. by apply intern_ok.
Qed.

Lemma name_bytes_stored names bytes a e :
  zlen names < NO_ENTRY -> zlen bytes < 1024 -> is_u16 e ->
  let nr := IndexNameRef_new (zlen names) (len_to_u16 (zlen bytes)) a e in
  is_valid nr = true /\ ref_ok (names ++ bytes) nr /\ name_bytes (names ++ bytes) nr = bytes /\ name_is_ascii nr = a /\ extension_id nr = e.
Proof.
  intros Hn Hb He nr. pose proof (zlen_nonneg bytes). pose proof (zlen_nonneg names).
  assert (Hl : len_to_u16 (zlen bytes) = zlen bytes) by (unfold len_to_u16; by rewrite (proj2 (Z.ltb_lt _ _)) by lia).
  assert (Hv : is_valid nr = true) by (unfold is_valid; cbn; apply negb_true_iff, Z.eqb_neq; lia).
  assert (Hu : is_u16 (len_to_u16 (zlen bytes))) by lia.
  assert (Hlen : name_len nr = zlen bytes) by (unfold nr; rewrite name_ref_length, Hl by done; by rewrite Z.mod_small by lia).
  split; [done |]. split; [intros _; rewrite Hlen, zlen_app; cbn; lia |]. split; [| split; [by apply name_ref_ascii | by apply name_ref_ext]].
  unfold name_bytes. rewrite Hv, Hlen. change (nr_offset nr) with (zlen names).
  pose proof (get_range_mid names bytes [] (zlen names) (zlen names + zlen bytes)) as G. rewrite app_nil_r in G. by rewrite G by lia.
Qed.

(** The names of a record have at most 255 units: what is stored of one fits the ten bits
    of its length, and is the whole of it. *)
Lemma store_name_spec lc nb ix :
  byte_list nb -> zlen nb <= 510 -> zlen ix.(ix_names) < NO_ENTRY -> ext_ok ix.(ix_extensions) ->
  exists nr exts,
    store_name lc (decode_utf16le_into nb).1 nb (decode_utf16le_into nb).2 ix =
      (nr, with_extensions exts (with_names (ix.(ix_names) ++ name_of nb) ix)) /\
    intern_extension lc (shown_name nb) ix.(ix_extensions) = (extension_id nr, exts) /\ ext_ok exts /\
    is_valid nr = true /\ ref_ok (ix.(ix_names) ++ name_of nb) nr /\
    name_bytes (ix.(ix_names) ++ name_of nb) nr = name_of nb /\ name_is_ascii nr = all_ascii (shown_name nb) /\
    zlen (name_of nb) <= 1023.
Proof.
  intros Hb Hl Hn He. pose proof (utf16_units_utf16 nb Hb) as Hu.
  assert (Hlen : zlen (name_of nb) <= 1023).
  { pose proof (wtf8_length _ Hu). unfold name_of. unfold zlen at 2 in H. rewrite length_utf16_units in H.
    unfold zlen in Hl. assert (Z.of_nat (length nb / 2) <= 255); [|lia]. rewrite Nat2Z.inj_div. Z.div_mod_to_equations. lia. }
  unfold store_name. rewrite stored_name_wtf8 by done. fold (name_of nb). rewrite (decode_utf16le_into_eq nb Hb). cbn [fst].
  fold (shown_name nb). unfold add_name_bytes. rewrite (proj2 (Z.ltb_lt _ _)) by (unfold NO_ENTRY, U32_MAX in Hn; lia).
  change (ix_extensions (with_names _ ix)) with (ix_extensions ix).
  destruct (intern_extension lc (shown_name nb) (ix_extensions ix)) as [e exts] eqn:Ee.
  destruct (intern_extension_ok _ _ _ _ _ He Ee) as [He1 He2].
  destruct (name_bytes_stored (ix_names ix) (name_of nb) (all_ascii (shown_name nb)) e) as (V & R & B & A & X); [lia | lia | done |].
  eexists _, exts. split; [done |]. by rewrite X.
Qed.

(** The steps of a name: the old one to the overflow names, the new one in its place. *)
Definition put_name (lc : list Z -> list Z) (base_ri : Z) (fn : FileNameAttribute) (nb : list Z) (ix : MftIndex) : option MftIndex :=
  let '(name_buf, lossy) := decode_utf16le_into nb in
  let? ix := push_old_name base_ri ix in
  let '(name_ref, ix) := store_name lc name_buf nb lossy ix in
  update_record base_ri (fun r =>
    set_fn_fields fn.(fa_file_name_namespace) fn.(fa_creation_time) fn.(fa_modification_time)
      fn.(fa_access_time) fn.(fa_mft_change_time)
      (set_first_name {| li_next := r.(fr_first_name).(li_next); li_name := name_ref;
                         li_parent_frs := file_reference_to_frs fn.(fa_parent_directory) |} r)) ix.

(** The overflow names of a record. *)
Definition tail_names (ix : MftIndex) (r : FileRecord) : list NameView :=
  names_view ix.(ix_names) (map bare (follow (S (length ix.(ix_links))) ix.(ix_links) r.(fr_first_name).(li_next))).

Lemma tail_names_contents ix ol os oi oc k r cl :
  lists_ok ix ol os oi oc -> ix.(ix_records) !! k = Some r -> ol !! k = Some cl ->
  tail_names ix r = names_view ix.(ix_names) (contents ix.(ix_links) cl).
Proof.
  intros H Hr Hcl. unfold tail_names. by rewrite (owned_follow _ _ _ _ _ _ (ok_links _ _ _ _ _ H) (heads_lookup _ _ _ _ Hr) Hcl).
Qed.

Lemma push_old_name_spec ix ol os oi oc i r :
  lists_ok ix ol os oi oc -> zget ix.(ix_records) i = Some r -> zlen ix.(ix_links) < NO_ENTRY ->
  exists ls next ol',
    let r1 := set_first_name (set_next r.(fr_first_name) next) r in
    let ix1 := with_records (<[Z.to_nat i := r1]> ix.(ix_records)) (with_links ls ix) in
    push_old_name i ix = Some ix1 /\ lists_ok ix1 ol' os oi oc /\ extends ix.(ix_links) ls /\ zlen ls <= zlen ix.(ix_links) + 1 /\
    (forall j, j <> Z.to_nat i -> ol' !! j = ol !! j) /\ tail_names ix1 r1 = v_names (file_view ix r).
Proof.
  intros H Hr Hl. pose proof (proj1 (zget_Some _ _ _) Hr) as [Hi Hk].
  destruct (file_view_contents _ _ _ _ _ _ _ H Hk) as (cl & cs & ci & cc & Hcl & _ & _ & _ & Ev).
  assert (Hfirst : ref_ok (ix_names ix) (li_name (fr_first_name r))).
  { pose proof (ok_first_refs _ _ _ _ _ H) as Hf. rewrite Forall_forall in Hf. apply (Hf r). by eapply zget_elem. }
  unfold push_old_name. rewrite Hr. cbn [mbind option_bind]. destruct (is_valid (li_name (fr_first_name r))) eqn:Ev0.
  - assert (El : len_to_u32 (zlen (ix_links ix)) = zlen (ix_links ix)).
    { unfold len_to_u32. by rewrite (proj2 (Z.ltb_lt _ _)) by (unfold NO_ENTRY, U32_MAX in Hl; lia). }
    rewrite El. rewrite (update_record_spec _ _ _ r) by done.
    set (r1 := set_first_name (set_next (fr_first_name r) (zlen (ix_links ix))) r).
    destruct (lists_push_link ix ol os oi oc (Z.to_nat i) r r1 (fr_first_name r) cl) as [H1 H2]; try done.
    exists (ix_links ix ++ [fr_first_name r]), (zlen (ix_links ix)), (<[Z.to_nat i := zlen (ix_links ix) :: cl]> ol).
    cbn zeta. split; [done |]. split; [done |]. split; [apply extends_push |].
    split; [rewrite zlen_app; change (zlen [fr_first_name r]) with 1; lia |].
    split; [intros j Hj; by rewrite list_lookup_insert_ne |].
    rewrite (tail_names_contents _ _ _ _ _ (Z.to_nat i) _ (zlen (ix_links ix) :: cl) H1).
    + rewrite H2. by rewrite Ev.
    + cbn. apply list_lookup_insert_eq. by eapply lookup_lt_Some.
    + apply list_lookup_insert_eq. by eapply lookup_lt_Some.
  - exists (ix_links ix), (li_next (fr_first_name r)), ol. cbn zeta.
    assert (Er : set_first_name (set_next (fr_first_name r) (li_next (fr_first_name r))) r = r) by (by destruct r as [? ? ? ? ? ? ? ? ? ? ? ? ? []]).
    rewrite Er. rewrite list_insert_id by done. split; [by destruct ix |].
    split; [by destruct H |]. split; [apply extends_refl |]. split; [lia |]. split; [done |].
    transitivity (tail_names ix r); [done |]. rewrite (tail_names_contents _ _ _ _ _ _ _ _ H Hk Hcl), Ev. cbn.
    unfold names_view. cbn [List.filter]. unfold link_valid at 2. cbn. by rewrite Ev0.
Qed.

Lemma heads_keep {B} (f : FileRecord -> B) rs k r r' : rs !! k = Some r -> f r' = f r -> map f (<[k := r']> rs) = map f rs.
Proof. apply heads_insert_same. Qed.

(** The new first name over a record whose old one is in the overflow names. *)
Lemma new_first_name ix ol os oi oc i r bytes exts nr r2 :
  lists_ok ix ol os oi oc -> zget ix.(ix_records) i = Some r ->
  is_valid nr = true -> ref_ok (ix.(ix_names) ++ bytes) nr ->
  li_name (fr_first_name r2) = nr -> li_next (fr_first_name r2) = li_next (fr_first_name r) ->
  fr_first_stream r2 = fr_first_stream r -> fr_first_internal_stream r2 = fr_first_internal_stream r ->
  fr_first_child r2 = fr_first_child r ->
  let ix2 := with_extensions exts (with_names (ix.(ix_names) ++ bytes) ix) in
  let ix3 := with_records (<[Z.to_nat i := r2]> ix.(ix_records)) ix2 in
  lists_ok ix3 ol os oi oc /\ grown ix ix3 /\
  file_view ix3 r2 = mk_view (bare_record r2) (link_view (ix.(ix_names) ++ bytes) (fr_first_name r2) :: tail_names ix r)
    (v_streams (file_view ix r)) (v_internal (file_view ix r)) (v_children (file_view ix r)).
Proof.
  intros H Hr Hv Hok E1 E2 E3 E4 E5 ix2 ix3. pose proof (proj1 (zget_Some _ _ _) Hr) as [_ Hk].
  assert (H2 : lists_ok ix2 ol os oi oc) by (apply lists_extensions; by apply lists_names).
  assert (H3 : lists_ok ix3 ol os oi oc).
  { apply (lists_record ix2 ol os oi oc _ r r2 H2); try done; [by rewrite E1 | by rewrite E3]. }
  assert (G : grown ix ix3) by (split; try apply extends_refl; by exists bytes).
  split; [done |]. split; [done |].
  assert (Hk3 : ix_records ix3 !! Z.to_nat i = Some r2) by (cbn; apply list_lookup_insert_eq; by eapply lookup_lt_Some).
  destruct (file_view_contents _ _ _ _ _ _ _ H Hk) as (cl & cs & ci & cc & Hcl & Hcs & Hci & Hcc & ->).
  destruct (file_view_contents _ _ _ _ _ _ _ H3 Hk3) as (cl' & cs' & ci' & cc' & Hcl' & Hcs' & Hci' & Hcc' & ->).
  simplify_eq. rewrite (tail_names_contents _ _ _ _ _ _ _ _ H Hk Hcl). cbn [v_streams v_internal v_children].
  change (ix_names ix3) with (ix_names ix ++ bytes). f_equal.
  - unfold names_view. cbn [List.filter]. unfold link_valid at 1. change (li_name (bare (fr_first_name r2))) with (li_name (fr_first_name r2)).
    rewrite Hv. cbn [map]. f_equal. fold (names_view (ix_names ix ++ bytes) (contents (ix_links ix3) cl)). change (ix_links ix3) with (ix_links ix).
    apply names_view_grow. apply contents_Forall; [done |]. apply H.
  - change (ix_streams ix3) with (ix_streams ix). apply stream_views_grow. apply contents_Forall; [done |]. apply H.
Qed.

Lemma put_name_step lc base ri fn nb ix v :
  models ix v -> is_u64 base -> frs_to_idx_opt base ix = Some ri -> room 1 ix -> byte_list nb -> zlen nb <= 510 ->
  let '(ext_id, exts) := intern_extension lc (shown_name nb) v.(vol_ext) in
  simulates 1 ix
    (set_ext exts (on_file base (new_name fn
      {| nv_bytes := name_of nb; nv_ascii := all_ascii (shown_name nb); nv_ext := ext_id;
         nv_parent_frs := file_reference_to_frs fn.(fa_parent_directory) |}) v))
    (put_name lc ri fn nb ix).
Proof.
  intros H Hb E Hroom Hbl Hlen. destruct (models_record _ _ _ _ H Hb E) as (r & Hr & Hfr & Hk & Hv).
  pose proof (models_wf _ _ H) as [Hlook (ol & os & oi & oc & Hl)].
  destruct (push_old_name_spec ix ol os oi oc ri r Hl Hr) as (ls & next & ol' & Ep & Hl1 & Hex & Hls & Hol & Htail); [unfold room in Hroom; lia |].
  set (r1 := set_first_name (set_next (fr_first_name r) next) r) in *.
  set (ix1 := with_records (<[Z.to_nat ri:=r1]> (ix_records ix)) (with_links ls ix)) in *.
  destruct (store_name_spec lc nb ix1 Hbl Hlen) as (nr & exts & Es & Ei & Hext & Hnv & Hnok & Hnb & Hna & Hnl);
    [unfold room in Hroom; cbn; lia | apply (models_ext_ok _ _ H) |].
  rewrite (models_ext _ _ H). change (ix_extensions ix1) with (ix_extensions ix) in Ei. rewrite Ei.
  unfold put_name. destruct (decode_utf16le_into nb) as [name_buf lossy] eqn:Ed. cbn [fst snd] in Es.
  rewrite Ep. cbn [mbind option_bind]. rewrite Es.
  assert (Hr1 : zget (ix_records ix1) ri = Some r1).
  { cbn. rewrite <- zset_insert by (by apply zget_Some in Hr as [? _]). apply zget_zset_eq. by apply zget_Some in Hr as [? _]. }
  erewrite update_record_spec by exact Hr1.
  match goal with |- context [<[Z.to_nat ri := ?x]> _] => set (r2 := x) end.
  destruct (new_first_name ix1 ol' os oi oc ri r1 (name_of nb) exts nr r2 Hl1 Hr1 Hnv Hnok) as (Hl3 & G & Hview); try done.
  cbn zeta in Hl3, G, Hview.
  set (ix3 := with_records (<[Z.to_nat ri := r2]> (ix_records ix1)) (with_extensions exts (with_names (ix_names ix1 ++ name_of nb) ix1))) in *.
  match goal with |- simulates _ _ _ (Some ?y) => change y with ix3 end.
  assert (G3 : grown ix ix3) by (split; try apply extends_refl; [by exists (name_of nb) | exact Hex]).
  assert (Erec : ix_records ix3 = <[Z.to_nat ri := r2]> (ix_records ix)) by (cbn; by rewrite list_insert_insert_eq).
  apply (simulates_file 1 (new_name fn _) ix ix3 v base ri); try done. split; [split | | done |].
  - apply (lookup_ok_frs _ (ix_records ix)); [| done]. rewrite Erec. by apply (heads_insert_same fr_frs _ _ r).
  - by exists ol', os, oi, oc.
  - rewrite (views_insert ix ix3 ol os oi oc ol' os oi oc (Z.to_nat ri) r2); try done; [| intros j Hj; by rewrite (Hol j Hj)].
    eapply alter_insert; [by apply views_lookup |]. rewrite Hview, Htail. unfold new_name. f_equal.
    + f_equal. unfold link_view. change (ix_names ix1) with (ix_names ix) in Hnb |- *. cbn [fr_first_name li_name li_parent_frs].
      change (li_name (fr_first_name r2)) with nr. change (li_parent_frs (fr_first_name r2)) with (file_reference_to_frs (fa_parent_directory fn)).
      by rewrite Hnb, Hna.
  - apply room_step; [rewrite Erec, zlen_insert; lia | done | cbn; lia.. |].
    change (ix_names ix3) with (ix_names ix ++ name_of nb). rewrite zlen_app. lia.
Qed.

(** * Children *)

Lemma len_to_u32_small n : n < NO_ENTRY -> len_to_u32 n = n.
Proof. intros H. unfold len_to_u32. by rewrite (proj2 (Z.ltb_lt _ _)) by (unfold NO_ENTRY, U32_MAX in H; lia). Qed.

Lemma ensure_step ix v f :
  models ix v -> 0 <= f < U64_MAX -> room 1 ix ->
  exists i ix', ensure_record f ix = Some (i, ix') /\ frs_to_idx_opt f ix' = Some i /\
    reached 1 ix (touch FileRecord_new_unified f v) ix'.
Proof.
  intros H Hf Hroom. destruct (models_ensure FileRecord_new_unified ix v f) as (i & ix' & E & Ei & M & K & R); try done.
  - unfold room in Hroom. lia.
  - exists i, ix'. split; [done |]. split; [done |]. by split.
Qed.

Lemma child_entry_step ix v parent i child number :
  models ix v -> is_u64 parent -> frs_to_idx_opt parent ix = Some i -> room 1 ix ->
  simulates 1 ix (on_file parent (new_child child number) v)
    (let? p := zget ix.(ix_records) i in
     let old_fc := p.(fr_first_child) in
     let? ix' := update_record i (set_first_child (len_to_u32 (zlen ix.(ix_children)))) ix in
     Some (with_children (ix'.(ix_children) ++ [{| ch_next := old_fc; ch_child_frs := child; ch_name_index := number |}]) ix')).
Proof.
  intros H Hp E Hroom. destruct (models_record _ _ _ _ H Hp E) as (r & Hr & Hfr & Hk & Hv).
  pose proof (models_wf _ _ H) as [Hlook (ol & os & oi & oc & Hl)].
  rewrite len_to_u32_small by (unfold room in Hroom; lia). rewrite Hr. cbn [mbind option_bind].
  rewrite (update_record_spec _ _ _ _ Hr). cbn [mbind option_bind].
  set (y := {| ch_next := fr_first_child r; ch_child_frs := child; ch_name_index := number |}).
  destruct (file_view_contents _ _ _ _ _ _ _ Hl Hk) as (cl & cs & ci & cc & Hcl & Hcs & Hci & Hcc & Ev).
  destruct (lists_push_child ix ol os oi oc _ r y cc Hl Hk Hcc) as [Hl' Hc]; [unfold room in Hroom; lia | done |]. cbn zeta in Hl', Hc.
  set (r' := set_first_child (zlen (ix_children ix)) r) in *.
  set (ix' := with_records (<[Z.to_nat i := r']> (ix_records ix)) (with_children (ix_children ix ++ [y]) ix)) in *.
  match goal with |- simulates _ _ _ (Some ?z) => change z with ix' end.
  assert (G : grown ix ix') by (split; try apply extends_refl; [by exists []; rewrite app_nil_r | apply extends_push]).
  assert (Hk' : ix_records ix' !! Z.to_nat i = Some r') by (cbn; apply list_lookup_insert_eq; by eapply lookup_lt_Some).
  assert (C : changed 1 (alter (new_child child number) (Z.to_nat i)) ix ix').
  { split; [split | | done |].
    - apply (lookup_ok_frs _ (ix_records ix)); [| done]. by apply (heads_insert_same fr_frs _ _ r).
    - by eexists _, _, _, _.
    - rewrite (views_insert ix ix' _ _ _ _ _ _ _ _ (Z.to_nat i) r' Hl Hl' G); [| done | intros j Hj; by rewrite list_lookup_insert_ne].
      eapply alter_insert; [by apply views_lookup |]. rewrite Ev.
      destruct (file_view_contents _ _ _ _ _ _ _ Hl' Hk') as (cl' & cs' & ci' & cc' & Hcl' & Hcs' & Hci' & Hcc' & ->).
      rewrite list_lookup_insert_eq in Hcc' by (by eapply lookup_lt_Some). simplify_eq. rewrite Hc. done.
    - apply room_step; cbn; rewrite ?zlen_insert, ?zlen_app; try lia. change (zlen [y]) with 1. lia. }
  pose proof (simulates_file 1 _ _ _ _ _ _ H Hp E C (models_ext_ok _ _ H)) as Hs.
  change (ix_extensions ix') with (ix_extensions ix) in Hs. rewrite <- (models_ext _ _ H) in Hs. by destruct v.
Qed.

Lemma push_child_step base parent number ix v :
  models ix v -> 0 <= parent < U64_MAX -> room 2 ix ->
  simulates 2 ix
    (if negb (parent =? base) && negb (parent =? NO_ENTRY)
     then on_file parent (new_child base number) (touch FileRecord_new_unified parent v) else v)
    (push_child base parent number ix).
Proof.
  intros H Hp Hroom. unfold push_child. destruct (_ && _); [|by apply (simulates_mono 0); [lia |]; apply simulates_ret].
  destruct (ensure_step ix v parent H Hp) as (i & ix1 & E & Ei & R1); [by eapply room_mono; [|done] |]. rewrite E. cbn [mbind option_bind].
  destruct (child_entry_step ix1 (touch FileRecord_new_unified parent v) parent i base number) as (ix2 & E2 & R2);
    [apply R1 | unfold U64_MAX in Hp; lia | done | by apply R1 |].
  exists ix2. split; [exact E2 |]. change 2 with (1 + 1). by eapply reached_trans.
Qed.

(** * The $FILE_NAME arm *)

Lemma on_file_fields_count v f g file :
  v.(vol_files) !! f = Some file -> (on_file f g v).(vol_files) !! f = Some (g file).
Proof. intros E. cbn. by rewrite lookup_alter_eq, E. Qed.

Lemma file_reference_range x : 0 <= x -> 0 <= file_reference_to_frs x < 2 ^ 48.
Proof. intros H. unfold file_reference_to_frs. change 0x0000FFFFFFFFFFFF with (2 ^ 48 - 1). rewrite land_ones_mod by lia. apply Z.mod_pos_bound. lia. Qed.

Lemma add_file_name_step lc base ri fn nb ix v :
  models ix v -> is_u64 base -> frs_to_idx_opt base ix = Some ri -> room 3 ix -> byte_list nb -> zlen nb <= 510 ->
  0 <= fn.(fa_parent_directory) ->
  simulates 3 ix (spec_file_name lc base fn nb v) (add_file_name lc base ri fn nb ix).
Proof.
  intros H Hb E Hroom Hbl Hlen Hpar.
  pose proof (put_name_step lc base ri fn nb ix v H Hb E) as Hput. unfold spec_file_name.
  destruct (models_record _ _ _ _ H Hb E) as (r & Hr & Hfr & Hk & Hv). rewrite Hv.
  destruct (intern_extension lc (shown_name nb) (vol_ext v)) as [ext_id exts] eqn:Ei.
  destruct Hput as (ix1 & E1 & R1); [by eapply room_mono; [|done] | done | done |].
  set (v1 := set_ext exts _) in *.
  assert (Ea : add_file_name lc base ri fn nb ix =
    (let? ix := put_name lc ri fn nb ix in let? r := zget ix.(ix_records) ri in
     let? ix := push_child base (file_reference_to_frs fn.(fa_parent_directory)) r.(fr_name_count) ix in
     update_record ri (fun r => set_name_count (saturating_add_u16 r.(fr_name_count) 1) r) ix)).
  { unfold add_file_name, put_name. destruct (decode_utf16le_into nb). destruct (push_old_name ri ix); [|done]. cbn [mbind option_bind].
    by destruct (store_name lc l nb z m). }
  rewrite Ea, E1. cbn [mbind option_bind].
  pose proof (reached_kept _ _ _ _ R1 base ri Hb E) as E'.
  destruct (models_record _ _ _ _ (reached_models _ _ _ _ R1) Hb E') as (r1 & Hr1 & _ & Hk1 & Hv1). rewrite Hr1. cbn [mbind option_bind].
  assert (Ecount : fr_name_count r1 = fr_name_count (v_fields (file_view ix r))).
  { unfold v1 in Hv1. cbn in Hv1. rewrite lookup_alter_eq, Hv in Hv1.
    apply (f_equal (option_map (fun x => fr_name_count (v_fields x)))) in Hv1. cbn in Hv1. by injection Hv1. }
  rewrite Ecount. pose proof (file_reference_range _ Hpar) as Hrange.
  destruct (push_child_step base (file_reference_to_frs (fa_parent_directory fn)) (fr_name_count (v_fields (file_view ix r))) ix1 v1)
    as (ix2 & E2 & R2); [apply R1 | unfold U64_MAX; lia | by apply R1 |].
  rewrite E2. cbn [mbind option_bind].
  destruct (fields_step _ _ base ri ix2 keeps_count_name (reached_models _ _ _ _ R2) Hb (reached_kept _ _ _ _ R2 _ _ Hb E')) as (ix3 & E3 & R3).
  exists ix3. split; [exact E3 |]. change 3 with (1 + (2 + 0)). eapply reached_trans; [lia | done |]. eapply reached_trans; [lia | done | done].
Qed.

(** * Streams *)

(** The linking of a pushed cell, common to both kinds of stream. *)
Lemma insert_zget {A} (l : list A) i x y : zget l i = Some x -> zget (<[Z.to_nat i := y]> l) i = Some y.
Proof. intros H. apply zget_Some in H as [H _]. rewrite <- zset_insert by done. by apply zget_zset_eq. Qed.

Definition link_stream (ri : Z) (s : IndexStreamInfo) (ix : MftIndex) : option MftIndex :=
  let si := len_to_u32 (zlen ix.(ix_streams)) in
  let ix := with_streams (ix.(ix_streams) ++ [s]) ix in
  let? r := zget ix.(ix_records) ri in
  let old_next := r.(fr_first_stream).(st_next) in
  let? ix :=
    if old_next =? NO_ENTRY then
      update_record ri (fun r => set_first_stream (set_next r.(fr_first_stream) si) r) ix
    else
      let? tail := find_tail (length ix.(ix_streams)) ix.(ix_streams) old_next in
      let? t := zget ix.(ix_streams) tail in
      Some (with_streams (zset ix.(ix_streams) tail (set_next t si)) ix) in
  update_record ri count_stream ix.

(** [find_tail] on an arena with one more cell. *)
Lemma find_tail_grow {A} `{Linked A} fuel (l k : list A) h t : find_tail fuel l h = Some t -> find_tail fuel (l ++ k) h = Some t.
Proof.
  revert h. induction fuel as [|fuel IH]; intros h; [done |]. cbn [find_tail]. destruct (zget l h) as [x|] eqn:E; [|done].
  rewrite (zget_app_Some _ k _ _ E). cbn [mbind option_bind]. destruct (_ =? _); [done |]. apply IH.
Qed.

Lemma link_stream_spec ix ol os oi oc ri r s :
  lists_ok ix ol os oi oc -> zget ix.(ix_records) ri = Some r -> zlen ix.(ix_streams) < NO_ENTRY ->
  st_next s = NO_ENTRY -> ref_ok ix.(ix_names) (st_name s) ->
  exists ix' os' r', link_stream ri s ix = Some ix' /\ lists_ok ix' ol os' oi oc /\ grown ix ix' /\
    ix'.(ix_records) = <[Z.to_nat ri := r']> ix.(ix_records) /\ fr_frs r' = fr_frs r /\
    (forall j, j <> Z.to_nat ri -> os' !! j = os !! j) /\
    ix'.(ix_frs_to_idx) = ix.(ix_frs_to_idx) /\ ix'.(ix_extensions) = ix.(ix_extensions) /\
    zlen ix'.(ix_streams) <= zlen ix.(ix_streams) + 1 /\ zlen ix'.(ix_links) = zlen ix.(ix_links) /\
    zlen ix'.(ix_internal_streams) = zlen ix.(ix_internal_streams) /\ zlen ix'.(ix_children) = zlen ix.(ix_children) /\
    ix'.(ix_names) = ix.(ix_names) /\
    file_view ix' r' = new_stream (stream_view ix.(ix_names) s) (file_view ix r).
Proof.
  intros H Hr Hl Hs Hok. pose proof (proj1 (zget_Some _ _ _) Hr) as [Hi Hk].
  destruct (file_view_contents _ _ _ _ _ _ _ H Hk) as (cl & cs & ci & cc & Hcl & Hcs & Hci & Hcc & Ev).
  pose proof (proj1 (Forall_forall _ _) (ok_first_refs _ _ _ _ _ H) r (zget_elem _ _ _ Hr)) as Href.
  unfold link_stream. rewrite len_to_u32_small by done.
  change (ix_records (with_streams _ ix)) with (ix_records ix). rewrite Hr. cbn [mbind option_bind].
  destruct (Z.eqb_spec (st_next (fr_first_stream r)) NO_ENTRY) as [En | En].
  - rewrite (update_record_spec _ _ _ r) by done. cbn [mbind option_bind].
    erewrite update_record_spec by (cbn; by eapply insert_zget).
    set (r' := count_stream _). cbn [ix_records with_records with_streams]. rewrite list_insert_insert_eq.
    destruct (lists_first_stream ix ol os oi oc (Z.to_nat ri) r r' s H Hk En Hl Hs Hok) as (Ho & Hl' & Hc); try done.
    cbn zeta in Hl', Hc. set (ix' := with_records (<[Z.to_nat ri := r']> (ix_records ix)) (with_streams (ix_streams ix ++ [s]) ix)) in *.
    exists ix', (<[Z.to_nat ri := [zlen (ix_streams ix)]]> os), r'. split; [done |]. split; [done |].
    split; [split; try apply extends_refl; [exists []; by rewrite app_nil_r | apply extends_push] |].
    split; [done |]. split; [done |]. split; [intros j Hj; by rewrite list_lookup_insert_ne |].
    split; [done |]. split; [done |]. split; [cbn; rewrite zlen_app; change (zlen [s]) with 1; lia |].
    do 4 (split; [done |]).
    assert (Hk' : ix_records ix' !! Z.to_nat ri = Some r') by (cbn; apply list_lookup_insert_eq; by eapply lookup_lt_Some).
    destruct (file_view_contents _ _ _ _ _ _ _ Hl' Hk') as (cl' & cs' & ci' & cc' & Hcl' & Hcs' & Hci' & Hcc' & ->).
    rewrite list_lookup_insert_eq in Hcs' by (by eapply lookup_lt_Some). simplify_eq. rewrite Hc, Ev. done.
  - destruct (owned_find_tail _ _ _ _ _ _ (ok_streams _ _ _ _ _ H) (heads_lookup _ _ _ _ Hk) Hcs En) as (front & t & x & -> & Ht & Hx & Hxn).
    assert (El : length (ix_streams (with_streams (ix_streams ix ++ [s]) ix)) = S (length (ix_streams ix))) by (cbn; rewrite length_app; cbn; lia).
    rewrite El. cbn [ix_streams with_streams]. rewrite (find_tail_grow _ _ [s] _ _ Ht). cbn [mbind option_bind].
    rewrite (zget_app_Some _ [s] _ _ Hx). cbn [mbind option_bind]. rewrite (update_record_spec _ _ _ r) by done.
    destruct (lists_next_stream ix ol os oi oc _ r s front t x H Hk Hcs Hl Hs Hok Hx) as [Hl1 Hc]. cbn zeta in Hl1, Hc.
    set (ix1 := with_streams (zset (ix_streams ix ++ [s]) t (set_next x (zlen (ix_streams ix)))) ix) in *.
    match goal with |- context [Some (with_records ?rs ?j)] => change (with_records rs j) with (with_records rs ix1) end.
    change (ix_records (with_streams _ _)) with (ix_records ix).
    set (r' := count_stream r). assert (Hl' : lists_ok (with_records (<[Z.to_nat ri := r']> (ix_records ix)) ix1) ol (<[Z.to_nat ri := front ++ [t; zlen (ix_streams ix)]]> os) oi oc).
    { by apply (lists_record ix1 ol _ oi oc (Z.to_nat ri) r r' Hl1). }
    set (ix' := with_records _ ix1) in *. exists ix', (<[Z.to_nat ri := front ++ [t; zlen (ix_streams ix)]]> os), r'.
    split; [done |]. split; [done |].
    split; [split; try apply extends_refl; [exists []; by rewrite app_nil_r | by apply extends_link] |].
    split; [done |]. split; [done |]. split; [intros j Hj; by rewrite list_lookup_insert_ne |].
    split; [done |]. split; [done |]. split; [cbn; rewrite zlen_zset, zlen_app; change (zlen [s]) with 1; lia |].
    do 4 (split; [done |]).
    assert (Hk' : ix_records ix' !! Z.to_nat ri = Some r') by (cbn; apply list_lookup_insert_eq; by eapply lookup_lt_Some).
    destruct (file_view_contents _ _ _ _ _ _ _ Hl' Hk') as (cl' & cs' & ci' & cc' & Hcl' & Hcs' & Hci' & Hcc' & ->).
    rewrite list_lookup_insert_eq in Hcs' by (by eapply lookup_lt_Some). simplify_eq. change (ix_streams ix') with (ix_streams ix1). rewrite Hc, Ev.
    unfold new_stream. cbn [v_fields v_names v_streams v_internal v_children]. f_equal. rewrite map_app. done.
Qed.

Lemma shown_name_nonempty nb : 2 <= zlen nb -> shown_name nb <> [].
Proof.
  unfold zlen. destruct nb as [|x [|y nb]]; cbn [length]; intros Hl; [lia | lia |]. unfold shown_name. cbn [utf16_units].
  assert (Hc : forall u us, code_points_of (u :: us) <> []).
  { intros u [|v us]; [done |]. cbn [code_points_of]. by destruct (is_high u && is_low v). }
  destruct (code_points_of _) as [|c cs] eqn:E; [by apply Hc in E |]. cbn [map]. rewrite utf8_string_cons.
  unfold utf8_encode. repeat case_match; done.
Qed.

Lemma add_named_stream_step lc base ri size alloc flags nb ix v :
  models ix v -> is_u64 base -> frs_to_idx_opt base ix = Some ri -> room 1 ix -> byte_list nb -> zlen nb <= 510 ->
  simulates 1 ix (spec_named_stream lc base size alloc flags nb v)
    (add_named_stream lc ri size alloc flags (decode_utf16le_into nb).1 (decode_utf16le_into nb).2 (Some nb) ix).
Proof.
  intros H Hb E Hroom Hbl Hlen. destruct (models_record _ _ _ _ H Hb E) as (r & Hr & Hfr & Hk & Hv).
  pose proof (models_wf _ _ H) as [Hlook (ol & os & oi & oc & Hl)].
  destruct (store_name_spec lc nb ix Hbl Hlen) as (nr & exts & Es & Ei & Hext & Hnv & Hnok & Hnb & Hna & Hnl);
    [unfold room in Hroom; lia | apply (models_ext_ok _ _ H) |].
  unfold spec_named_stream. rewrite (models_ext _ _ H), Ei. unfold add_named_stream. rewrite Es.
  set (ix1 := with_extensions exts (with_names (ix_names ix ++ name_of nb) ix)).
  set (s := {| st_size := {| sz_length := size; sz_allocated := alloc |}; st_next := NO_ENTRY; st_name := nr;
               st_flags := Z.lor flags (Z.shiftl 8 2) |}).
  assert (Hl1 : lists_ok ix1 ol os oi oc) by (apply lists_extensions; by apply lists_names).
  destruct (link_stream_spec ix1 ol os oi oc ri r s Hl1 Hr) as (ix' & os' & r' & E' & Hl' & G & Erec & Ef & Hos & Et & Eext & L1 & L2 & L3 & L4 & En & Ev);
    [unfold room in Hroom; cbn; lia | done | done |].
  match goal with |- simulates _ _ _ ?res => change res with (link_stream ri s ix1) end. rewrite E'.
  assert (G' : grown ix ix').
  { destruct G as [_ G2 G3 G4 G5]. split; try done. exists (name_of nb). by rewrite En. }
  replace exts with (ix_extensions ix') by done. apply (simulates_file 1 (new_stream _) ix ix' v base ri); try done; [| by rewrite Eext].
  split; [split | | done |].
  - rewrite Et. apply (lookup_ok_frs _ (ix_records ix)); [| done]. rewrite Erec. by apply (heads_insert_same fr_frs _ _ r).
  - by exists ol, os', oi, oc.
  - rewrite (views_insert ix ix' ol os oi oc ol os' oi oc (Z.to_nat ri) r'); try done; [| intros j Hj; by rewrite (Hos j Hj)].
    eapply alter_insert; [by apply views_lookup |]. rewrite Ev. unfold new_stream. cbn [v_fields v_names v_streams v_internal v_children].
    assert (Ev1 : file_view ix1 r = file_view ix r).
    { eapply (file_view_grown ix ix1); try done. split; try apply extends_refl. by exists (name_of nb). }
    rewrite Ev1. do 3 f_equal. unfold stream_view. cbn. by rewrite Hnb, Hna.
  - apply room_step; rewrite ?Erec, ?zlen_insert, ?L2, ?L3, ?L4, ?En; cbn; try lia; [cbn in L1; lia | rewrite zlen_app; lia].
Qed.

Definition link_internal (ri size alloc flags : Z) (ix : MftIndex) : option MftIndex :=
  let n := zlen ix.(ix_internal_streams) in
  let s := {| in_size := {| sz_length := size; sz_allocated := alloc |}; in_next := NO_ENTRY; in_flags := flags |} in
  let ix := with_internal_streams (ix.(ix_internal_streams) ++ [s]) ix in
  let? r := zget ix.(ix_records) ri in
  let? ix1 :=
    if fr_first_internal_stream r =? NO_ENTRY then update_record ri (set_first_internal_stream n) ix
    else
      let? tail := find_tail (length ix.(ix_internal_streams)) ix.(ix_internal_streams) (fr_first_internal_stream r) in
      let? t := zget ix.(ix_internal_streams) tail in
      Some (with_internal_streams (zset ix.(ix_internal_streams) tail (set_next t n)) ix) in
  update_record ri (count_internal size alloc) ix1.

Lemma link_internal_spec ix ol os oi oc ri r size alloc flags :
  lists_ok ix ol os oi oc -> zget ix.(ix_records) ri = Some r -> zlen ix.(ix_internal_streams) < NO_ENTRY ->
  exists ix' oi' r', link_internal ri size alloc flags ix = Some ix' /\
    lists_ok ix' ol os oi' oc /\ grown ix ix' /\ ix'.(ix_records) = <[Z.to_nat ri := r']> ix.(ix_records) /\ fr_frs r' = fr_frs r /\
    (forall j, j <> Z.to_nat ri -> oi' !! j = oi !! j) /\ ix'.(ix_frs_to_idx) = ix.(ix_frs_to_idx) /\ ix'.(ix_extensions) = ix.(ix_extensions) /\
    (forall n, 0 <= n -> room (1 + n) ix -> room n ix') /\ file_view ix' r' = new_internal size alloc flags (file_view ix r).
Proof.
  intros Hl Hr Hl0. pose proof (proj1 (zget_Some _ _ _) Hr) as [Hi Hk].
  destruct (file_view_contents _ _ _ _ _ _ _ Hl Hk) as (cl & cs & ci & cc & Hcl & Hcs & Hci & Hcc & Ev).
  unfold link_internal. change (ix_records (with_internal_streams _ ix)) with (ix_records ix). rewrite Hr. cbn [mbind option_bind].
  cbn [ix_internal_streams with_internal_streams].
  set (s := {| in_size := {| sz_length := size; sz_allocated := alloc |}; in_next := NO_ENTRY; in_flags := flags |}).
  destruct (Z.eqb_spec (fr_first_internal_stream r) NO_ENTRY) as [En | En].
  - rewrite (update_record_spec _ _ _ r) by done. cbn [mbind option_bind].
    erewrite update_record_spec by (cbn; by eapply insert_zget). cbn [ix_records with_records with_internal_streams]. rewrite list_insert_insert_eq.
    destruct (lists_first_internal ix ol os oi oc (Z.to_nat ri) r s Hl Hk En Hl0) as (Ho & Hl1 & Hc); [done |]. cbn zeta in Hl1, Hc.
    set (r1 := set_first_internal_stream (zlen (ix_internal_streams ix)) r) in *.
    assert (Hk1 : ix_records (with_records (<[Z.to_nat ri := r1]> (ix_records ix)) (with_internal_streams (ix_internal_streams ix ++ [s]) ix)) !! Z.to_nat ri = Some r1)
      by (cbn; apply list_lookup_insert_eq; by eapply lookup_lt_Some).
    pose proof (lists_record _ _ _ _ _ (Z.to_nat ri) r1 (count_internal size alloc r1) Hl1 Hk1 eq_refl) as Hl'.
    cbn [ix_records with_records with_internal_streams] in Hl'. rewrite list_insert_insert_eq in Hl'.
    eexists _, (<[Z.to_nat ri := [zlen (ix_internal_streams ix)]]> oi), (count_internal size alloc r1).
    split; [done |]. split; [apply Hl'; try done |].
    { apply (proj1 (Forall_forall _ _) (ok_first_refs _ _ _ _ _ Hl) r). by eapply zget_elem. }
    split; [split; try apply extends_refl; [exists []; by rewrite app_nil_r | apply extends_push] |].
    split; [done |]. split; [done |]. split; [intros j Hj; by rewrite list_lookup_insert_ne |]. split; [done |]. split; [done |].
    split; [apply room_step; cbn; rewrite ?zlen_insert, ?zlen_app; try lia; change (zlen [s]) with 1; lia |].
    set (ix' := with_records _ _). assert (Hl2 : lists_ok ix' ol os (<[Z.to_nat ri := [zlen (ix_internal_streams ix)]]> oi) oc).
    { apply Hl'; try done. apply (proj1 (Forall_forall _ _) (ok_first_refs _ _ _ _ _ Hl) r). by eapply zget_elem. }
    assert (Hk' : ix_records ix' !! Z.to_nat ri = Some (count_internal size alloc r1)) by (cbn; apply list_lookup_insert_eq; by eapply lookup_lt_Some).
    destruct (file_view_contents _ _ _ _ _ _ _ Hl2 Hk') as (cl' & cs' & ci' & cc' & Hcl' & Hcs' & Hci' & Hcc' & ->).
    rewrite list_lookup_insert_eq in Hci' by (by eapply lookup_lt_Some). simplify_eq. rewrite Ev. change (ix_internal_streams (with_records _ _)) with (ix_internal_streams ix ++ [s]) in Hc.
    change (ix_internal_streams ix') with (ix_internal_streams ix ++ [s]). rewrite Hc.
    cbn. done.
  - destruct (owned_find_tail _ _ _ _ _ _ (ok_internal _ _ _ _ _ Hl) (heads_lookup _ _ _ _ Hk) Hci En) as (front & t & x & -> & Ht & Hx & Hxn).
    assert (El : length (ix_internal_streams ix ++ [s]) = S (length (ix_internal_streams ix))) by (rewrite length_app; cbn; lia).
    rewrite El. rewrite (find_tail_grow _ _ [s] _ _ Ht). cbn [mbind option_bind]. rewrite (zget_app_Some _ [s] _ _ Hx). cbn [mbind option_bind].
    rewrite (update_record_spec _ _ _ r) by done.
    destruct (lists_next_internal ix ol os oi oc _ r s front t x Hl Hk Hci Hl0) as [Hl1 Hc]; [done | done |]. cbn zeta in Hl1, Hc.
    set (ix1 := with_internal_streams (zset (ix_internal_streams ix ++ [s]) t (set_next x (zlen (ix_internal_streams ix)))) ix) in *.
    pose proof (lists_record ix1 _ _ _ _ (Z.to_nat ri) r (count_internal size alloc r) Hl1 Hk eq_refl) as Hl'.
    assert (Href : ref_ok (ix_names ix1) (li_name (fr_first_name (count_internal size alloc r)))).
    { apply (proj1 (Forall_forall _ _) (ok_first_refs _ _ _ _ _ Hl) r). by eapply zget_elem. }
    specialize (Hl' Href eq_refl eq_refl eq_refl). set (ix' := with_records _ ix1) in Hl'.
    exists ix', (<[Z.to_nat ri := front ++ [t; zlen (ix_internal_streams ix)]]> oi), (count_internal size alloc r).
    split; [done |]. split; [done |].
    split; [split; try apply extends_refl; [exists []; by rewrite app_nil_r | by apply extends_link] |].
    split; [done |]. split; [done |]. split; [intros j Hj; by rewrite list_lookup_insert_ne |]. split; [done |]. split; [done |].
    split; [apply room_step; cbn; rewrite ?zlen_insert, ?zlen_zset, ?zlen_app; try lia; change (zlen [s]) with 1; lia |].
    assert (Hk' : ix_records ix' !! Z.to_nat ri = Some (count_internal size alloc r)) by (cbn; apply list_lookup_insert_eq; by eapply lookup_lt_Some).
    destruct (file_view_contents _ _ _ _ _ _ _ Hl' Hk') as (cl' & cs' & ci' & cc' & Hcl' & Hcs' & Hci' & Hcc' & ->).
    rewrite list_lookup_insert_eq in Hci' by (by eapply lookup_lt_Some). simplify_eq.
    change (ix_internal_streams ix') with (ix_internal_streams ix1). rewrite Hc, Ev. done.
Qed.

Lemma add_internal_stream_step base ri size alloc flags ix v :
  models ix v -> is_u64 base -> frs_to_idx_opt base ix = Some ri -> room 1 ix ->
  simulates 1 ix (on_file base (new_internal size alloc flags) v) (add_internal_stream ri size alloc flags ix).
Proof.
  intros H Hb E Hroom. destruct (models_record _ _ _ _ H Hb E) as (r & Hr & Hfr & Hk & Hv).
  pose proof (models_wf _ _ H) as [Hlook (ol & os & oi & oc & Hl)].
  destruct (link_internal_spec ix ol os oi oc ri r size alloc flags Hl Hr) as
    (ix' & oi' & r' & E' & Hl' & G & Erec & Ef & Hoi & Et & Eext & Hroom' & Ev'); [unfold room in Hroom; lia |].
  unfold add_internal_stream. rewrite len_to_u32_small by (unfold room in Hroom; lia).
  match goal with |- simulates _ _ _ ?res => change res with (link_internal ri size alloc flags ix) end. rewrite E'.
  assert (C : changed 1 (alter (new_internal size alloc flags) (Z.to_nat ri)) ix ix').
  { split; [split | | done | done].
    - rewrite Et. apply (lookup_ok_frs _ (ix_records ix)); [| done]. rewrite Erec. by apply (heads_insert_same fr_frs _ _ r).
    - by exists ol, os, oi', oc.
    - rewrite (views_insert ix ix' ol os oi oc ol os oi' oc (Z.to_nat ri) r'); try done; [| intros j Hj; by rewrite (Hoi j Hj)].
      eapply alter_insert; [by apply views_lookup | done]. }
  pose proof (simulates_file 1 _ _ _ _ _ _ H Hb E C) as Hs. rewrite Eext in Hs. specialize (Hs (models_ext_ok _ _ H)).
  rewrite <- (models_ext _ _ H) in Hs. by destruct v.
Qed.

(** * The attributes *)

Lemma read_le_array_range n data off bs : byte_list data -> read_le_array n data off = Some bs -> 0 <= from_le_bytes bs < 2 ^ (8 * Z.of_nat n).
Proof.
  unfold read_le_array. intros Hb. destruct (_ <? _); [|done]. intros E. pose proof (get_range_len _ _ _ _ E) as Hl.
  pose proof (from_le_bytes_bound bs (get_range_Forall _ _ _ _ _ Hb E)) as H. rewrite <- pow256_pow2.
  replace (zlen bs) with (Z.of_nat n) in H by lia. exact H.
Qed.

Lemma rd_u64_nonneg data off : byte_list data -> 0 <= rd_u64 data off.
Proof.
  intros Hb. unfold rd_u64, read_u64_le. destruct (read_le_array 8 data off) as [bs|] eqn:E; [|done]. cbn.
  pose proof (read_le_array_range _ _ _ _ Hb E). lia.
Qed.

Lemma zget_byte data i b : byte_list data -> zget data i = Some b -> 0 <= b < 256.
Proof. intros Hb E. rewrite Forall_forall in Hb. apply (Hb b). by eapply zget_elem. Qed.

Lemma read_file_name_range data offset hdr fn nb :
  byte_list data -> read_file_name data offset hdr = Some (fn, nb) ->
  byte_list nb /\ zlen nb <= 510 /\ 0 <= fn.(fa_parent_directory).
Proof.
  intros Hb. unfold read_file_name. destruct (_ =? _); [|done]. destruct (resident_value_offset data offset) as [off|]; [|done].
  cbn [mbind option_bind]. unfold read_file_name_attribute. destruct (get_from data off) as [s|] eqn:Es; [|done]. cbn [mbind option_bind].
  pose proof (get_range_Forall _ _ _ _ _ Hb Es) as Hs. destruct (_ <? 66); [done |].
  destruct (zget s 64) as [len|] eqn:El; [|done]. destruct (zget s 65) as [ns|]; [|done]. cbn [mbind option_bind fa_file_name_namespace].
  destruct (ns =? 2); [done |]. cbn [fa_file_name_length]. unfold checked_add. destruct (_ <? 2 ^ 64); [|done]. cbn [mbind option_bind].
  destruct (get_range data _ _) as [nb'|] eqn:En; [|done]. cbn. intros [= <- <-].
  split; [exact (get_range_Forall _ _ _ _ _ Hb En) |]. split; [| by apply rd_u64_nonneg].
  pose proof (zget_byte _ _ _ Hs El). rewrite (get_range_len _ _ _ _ En). lia.
Qed.

Lemma read_stream_name_range data offset hdr name_buf lossy raw :
  byte_list data -> is_u8 hdr.(name_length) -> hdr.(name_length) <> 0 -> read_stream_name data offset hdr = (name_buf, lossy, raw) ->
  match raw with
  | Some nb => byte_list nb /\ zlen nb <= 510 /\ 2 <= zlen nb /\ (name_buf, lossy) = decode_utf16le_into nb
  | None => name_buf = [] /\ lossy = 0
  end.
Proof.
  intros Hb Hu Hn. unfold read_stream_name, checked_add. destruct (_ <? 2 ^ 64); [|by intros [= <- <- <-]]. cbn [mbind option_bind].
  destruct (_ <? 2 ^ 64); [|by intros [= <- <- <-]]. cbn [mbind option_bind].
  destruct (get_range data _ _) as [nb|] eqn:En; [|by intros [= <- <- <-]].
  destruct (decode_utf16le_into nb) as [a b] eqn:Ed. intros [= <- <- <-].
  split; [exact (get_range_Forall _ _ _ _ _ Hb En) |]. rewrite (get_range_len _ _ _ _ En). split; [lia |]. split; [lia | done].
Qed.

Lemma reparse_step data offset hdr base ri ix v :
  models ix v -> is_u64 base -> frs_to_idx_opt base ix = Some ri ->
  simulates 0 ix
    (if (hdr.(type_code) =? REPARSE_POINT_TYPE) && (hdr.(is_non_resident_) =? 0) then
       match resident_value_offset data offset with
       | Some off => on_file base (on_fields (set_reparse_tag (rd_u32 data off))) v
       | None => v
       end else v)
    (if (hdr.(type_code) =? REPARSE_POINT_TYPE) && (hdr.(is_non_resident_) =? 0) then
       match (rd_u32 data) <$> resident_value_offset data offset with
       | Some tag => update_record ri (set_reparse_tag tag) ix
       | None => Some ix
       end else Some ix).
Proof.
  intros H Hb E. destruct (_ && _); [|by apply simulates_ret]. destruct (resident_value_offset data offset); [|by apply simulates_ret].
  cbn. by apply fields_step; [apply keeps_set_reparse_tag|..].
Qed.

Lemma add_other_attribute_step lc data offset hdr base ri ix v :
  models ix v -> is_u64 base -> frs_to_idx_opt base ix = Some ri -> room 1 ix -> byte_list data -> is_u8 hdr.(name_length) ->
  simulates 1 ix (spec_other_attribute lc data base offset hdr v) (add_other_attribute lc data offset hdr base ri ix).
Proof.
  intros H Hb E Hroom Hbl Hnl. unfold add_other_attribute, spec_other_attribute.
  destruct (is_primary data offset hdr); [|by apply (simulates_mono 0); [lia |]; apply simulates_ret].
  set (is_i30 := attribute_is_i30 data offset hdr). set (named := negb is_i30 && (name_length hdr >? 0)).
  destruct (if named then read_stream_name data offset hdr else ([], 0, None)) as [[name_buf lossy] raw] eqn:Ename.
  assert (Hraw : (if named then (read_stream_name data offset hdr).2 else None) = raw) by (destruct named; [by rewrite Ename | by injection Ename]).
  rewrite Hraw.
  assert (Hname : match raw with
                  | Some nb => named = true /\ byte_list nb /\ zlen nb <= 510 /\ 2 <= zlen nb /\ (name_buf, lossy) = decode_utf16le_into nb
                  | None => name_buf = []
                  end).
  { destruct named eqn:Enamed; [|by injection Ename as <- <- <-]. apply read_stream_name_range in Ename; [| done..|].
    - destruct raw; [by split | apply Ename].
    - unfold named in Enamed. apply andb_true_iff in Enamed as [_ Hg]. apply Z.gtb_lt in Hg. lia. }
  assert (Ebad : (base =? 8) && (name_length hdr =? 4) && named && bool_decide (name_buf = BAD_NAME) =
                 (base =? 8) && (name_length hdr =? 4) && match raw with Some nb => bool_decide (shown_name nb = BAD_NAME) | None => false end).
  { rewrite <- !andb_assoc. f_equal. f_equal. destruct raw as [nb|].
    - destruct Hname as (-> & Hnb & _ & _ & Ed). rewrite decode_utf16le_into_eq in Ed by done. injection Ed as -> _. done.
    - rewrite Hname. by rewrite andb_false_r. }
  rewrite Ebad. destruct (attribute_sizes data offset hdr _) as [size alloc].
  change 1 with (1 + 0). eapply (simulates_bind 1 0); [lia | | intros ix1 R1; apply reparse_step; [apply R1 | done | by apply R1]].
  destruct is_i30 eqn:Ei30.
  { apply (simulates_mono 0); [lia |]. by apply fields_step; [apply keeps_add_i30|..]. }
  destruct (Z.eqb_spec (type_code hdr) DATA_TYPE) as [Et|]; cbn [andb]; [|by apply add_internal_stream_step].
  destruct (Z.eqb_spec (name_length hdr) 0) as [En|En].
  { apply (simulates_mono 0); [lia |]. by apply fields_step; [apply keeps_add_default_data|..]. }
  assert (Eg : (name_length hdr >? 0) = true) by (apply Z.gtb_lt; lia). rewrite Eg.
  destruct raw as [nb|].
  - destruct Hname as (-> & Hnb & Hnb1 & Hnb2 & Ed). pose proof Ed as Ed'. rewrite decode_utf16le_into_eq in Ed' by done. injection Ed' as Ed1 _.
    assert (Hne : name_buf <> []) by (rewrite Ed1; by apply shown_name_nonempty).
    rewrite bool_decide_eq_false_2 by done. cbn [andb negb].
    pose proof (add_named_stream_step lc base ri size alloc (stream_flags hdr) nb ix v H Hb E Hroom Hnb Hnb1) as Hs. by rewrite <- Ed in Hs.
  - rewrite Hname. rewrite bool_decide_eq_true_2 by done. cbn [negb]. rewrite andb_false_r.
    apply (simulates_mono 0); [lia |]. by apply simulates_ret.
Qed.

Lemma process_attribute_step lc data offset hdr base ri dir ix v :
  models ix v -> is_u64 base -> frs_to_idx_opt base ix = Some ri -> room 3 ix -> byte_list data -> is_u8 hdr.(name_length) ->
  simulates 3 ix (spec_attribute lc data base dir v (offset, hdr)) (process_attribute lc data base ri dir offset hdr ix).
Proof.
  intros H Hb E Hroom Hbl Hnl. unfold process_attribute, spec_attribute.
  assert (Hother : simulates 3 ix (spec_other_attribute lc data base offset hdr v) (add_other_attribute lc data offset hdr base ri ix)).
  { apply (simulates_mono 1); [lia |]. apply add_other_attribute_step; try done. by eapply room_mono; [|done]. }
  destruct (attribute_type_from_u32 (type_code hdr)) as [[]|]; try done.
  - destruct (_ =? _); [| by apply (simulates_mono 0); [lia |]; apply simulates_ret].
    apply (simulates_mono 0); [lia |]. by apply fields_step; [apply keeps_set_stdinfo|..].
  - destruct (read_file_name data offset hdr) as [[fn nb]|] eqn:Ef; [| by apply (simulates_mono 0); [lia |]; apply simulates_ret].
    destruct (read_file_name_range _ _ _ _ _ Hbl Ef) as (H1 & H2 & H3). by apply add_file_name_step.
Qed.

(** * The loop and the record *)

Lemma attribute_header_range s hdr :
  byte_list s -> parse_attribute_record_header s = Some hdr -> is_u8 hdr.(name_length) /\ 0 <= hdr.(length_).
Proof.
  intros Hb. unfold parse_attribute_record_header, read_u32_le, read_u8, read_u16_le.
  destruct (read_le_array 4 s 0) as [a|]; [|done]. destruct (read_le_array 4 s 4) as [b|] eqn:Eb; [|done].
  destruct (zget s 8) as [c|]; [|done]. destruct (zget s 9) as [d|] eqn:Ed; [|done].
  destruct (read_le_array 2 s 10) as [e|]; [|done]. destruct (read_le_array 2 s 12) as [f|]; [|done].
  destruct (read_le_array 2 s 14) as [g|]; [|done]. intros [= <-]. cbn.
  pose proof (zget_byte _ _ _ Hb Ed). pose proof (read_le_array_range _ _ _ _ Hb Eb). lia.
Qed.

Lemma attribute_loop_step lc data base ri dir max_offset fuel offset ix v :
  models ix v -> is_u64 base -> frs_to_idx_opt base ix = Some ri -> byte_list data ->
  0 <= offset -> max_offset <= zlen data -> Z.max 0 (zlen data - offset) < Z.of_nat fuel ->
  room (3 * Z.max 0 (zlen data - offset)) ix ->
  simulates (3 * Z.max 0 (zlen data - offset)) ix
    (foldl (spec_attribute lc data base dir) v (record_walk fuel data max_offset offset))
    (attribute_loop lc fuel data base ri dir max_offset offset ix).
Proof.
  revert offset ix v. induction fuel as [|fuel IH]; intros offset ix v H Hb E Hbl Ho Hm Hf Hroom.
  { lia. }
  assert (Hstop : simulates (3 * Z.max 0 (zlen data - offset)) ix v (Some ix)) by (apply (simulates_mono 0); [lia |]; by apply simulates_ret).
  cbn [attribute_loop record_walk]. destruct (Z.leb_spec (offset + 16) max_offset) as [Hle|]; [|done].
  destruct (get_from data offset) as [s|] eqn:Es; [|done]. cbn [mbind option_bind].
  destruct (parse_attribute_record_header s) as [hdr|] eqn:Eh; [|done].
  destruct (attribute_header_range s hdr) as [Hn Hlen]; [exact (get_range_Forall _ _ _ _ _ Hbl Es) | done |].
  destruct (type_code hdr =? END_MARKER); [done |]. cbn [orb].
  destruct (Z.eqb_spec (length_ hdr) 0) as [|Hnz]; [done |]. cbn [orb].
  destruct (offset + length_ hdr >? zlen data) eqn:Eg; [done |]. rewrite Z.gtb_ltb in Eg. apply Z.ltb_ge in Eg.
  cbn [foldl]. set (k := 3 * Z.max 0 (zlen data - (offset + length_ hdr))).
  apply (simulates_mono (3 + k)); [lia |]. eapply simulates_bind; [lia | |].
  - apply process_attribute_step; try done. eapply room_mono; [|done]. lia.
  - intros ix1 R1. apply IH; try done; [apply R1 | by apply R1 | lia | lia |].
    apply (reached_room _ _ _ _ R1); [lia |]. eapply room_mono; [|done]. lia.
Qed.

(** The header's numbers are those of its bytes. *)
Lemma record_header_range data h :
  byte_list data -> parse_file_record_segment_header data = Some h ->
  0 <= h.(base_file_record_segment) /\ 0 <= h.(first_attribute_offset).
Proof.
  intros Hb. unfold parse_file_record_segment_header. destruct (parse_multi_sector_header data); [|done]. cbn [mbind option_bind].
  unfold read_u64_le, read_u32_le, read_u16_le.
  destruct (read_le_array 8 data 8); [|done]. destruct (read_le_array 2 data 16); [|done]. destruct (read_le_array 2 data 18); [|done].
  destruct (read_le_array 2 data 20) as [a|] eqn:Ea; [|done]. destruct (read_le_array 2 data 22); [|done].
  destruct (read_le_array 4 data 24); [|done]. destruct (read_le_array 4 data 28); [|done].
  destruct (read_le_array 8 data 32) as [b|] eqn:Eb; [|done]. destruct (read_le_array 2 data 40); [|done].
  destruct (read_le_array 2 data 42); [|done]. destruct (read_le_array 4 data 44); [|done]. intros [= <-]. cbn.
  pose proof (read_le_array_range _ _ _ _ Hb Ea). pose proof (read_le_array_range _ _ _ _ Hb Eb). lia.
Qed.

Lemma process_record_models lc data frs ix v :
  byte_list data -> 0 <= frs < U64_MAX -> models ix v -> room (3 * zlen data + 1) ix ->
  exists ix', process_record lc data frs ix = Some ((spec_record lc data frs v).1, ix') /\
    reached (3 * zlen data + 1) ix (spec_record lc data frs v).2 ix'.
Proof.
  intros Hbl Hfrs H Hroom. unfold process_record, spec_record. pose proof (zlen_nonneg data) as H0.
  assert (Hstop : exists ix', Some (false, ix) = Some (false, ix') /\ reached (3 * zlen data + 1) ix v ix').
  { exists ix. split; [done |]. split; [done | done |]. intros n Hn. apply room_mono. lia. }
  destruct (zlen data <? 48); [done |]. destruct (parse_file_record_segment_header data) as [h|] eqn:Eh; [|done].
  destruct (_ || _); [done |]. destruct (record_header_range _ _ Hbl Eh) as [Hbase Hfirst].
  set (base := if is_base_record h then frs else _).
  assert (Hb : 0 <= base < U64_MAX).
  { unfold base. destruct (is_base_record h); [done |]. pose proof (file_reference_range _ Hbase). unfold U64_MAX. lia. }
  destruct (ensure_step ix v base H Hb) as (ri & ix1 & E1 & Ei & R1); [eapply room_mono; [|done]; lia |]. rewrite E1. cbn [mbind option_bind].
  assert (Hu : is_u64 base) by (unfold U64_MAX in Hb; lia).
  set (v1 := touch FileRecord_new_unified base v) in *.
  set (v2 := if is_base_record h then _ else v1).
  assert (S2 : simulates 0 ix1 v2 (if is_base_record h then update_record ri (set_sequence (sequence_number h) (log_file_sequence_number h)) ix1 else Some ix1)).
  { unfold v2. destruct (is_base_record h); [apply fields_step; [apply keeps_set_sequence | apply R1 | done | done] | apply simulates_ret; apply R1]. }
  destruct S2 as (ix2 & E2 & R2). rewrite E2. cbn [mbind option_bind].
  pose proof (reached_kept _ _ _ _ R2 _ _ Hu Ei) as Ei2.
  set (walk := record_walk _ _ _ _).
  destruct (attribute_loop_step lc data base ri (is_directory_record h) (Z.min (bytes_in_use h) (zlen data)) (S (length data))
              (first_attribute_offset h) ix2 v2) as (ix3 & E3 & R3); try done; [apply R2 | lia | unfold zlen; lia | |].
  { apply R2; [lia |]. rewrite Z.add_0_l. apply R1; [lia |]. eapply room_mono; [|done]. lia. }
  rewrite E3. cbn [mbind option_bind]. fold walk in R3.
  set (v3 := foldl _ v2 walk) in *. pose proof (reached_kept _ _ _ _ R3 _ _ Hu Ei2) as Ei3.
  assert (S4 : simulates 0 ix3 (if is_directory_record h then on_file base (on_fields (fun r => set_stdinfo (set_directory r.(fr_stdinfo) true) r)) v3 else v3)
    (if is_directory_record h then update_record ri (fun r => set_stdinfo (set_directory r.(fr_stdinfo) true) r) ix3 else Some ix3)).
  { destruct (is_directory_record h); [apply fields_step; [apply keeps_directory | apply R3 | done | done] | apply simulates_ret; apply R3]. }
  destruct S4 as (ix4 & E4 & R4). rewrite E4. cbn [mbind option_bind]. exists ix4. split; [done |].
  eapply (fun R R' => reached_trans _ _ _ _ _ _ _ R R1 R') in R2; [|lia]. eapply (fun R R' => reached_trans _ _ _ _ _ _ _ R R2 R') in R3; [|lia].
  eapply (fun R R' => reached_trans _ _ _ _ _ _ _ R R3 R') in R4; [|lia]. destruct R4 as [M K R].
  split; [done | done |]. intros n Hn Hr. apply R; [done |]. eapply room_mono; [|exact Hr]. lia.
Qed.

(** * What a parsed record contributes *)

Lemma models_new volume : models (MftIndex_new volume) {| vol_files := ∅; vol_ext := ExtensionTable_new |}.
Proof.
  split; cbn; try done.
  - split; [split; intros ? ? E; by (apply zget_Some in E as [? ?]; unfold zlen in *; cbn in *; lia) |].
    exists [], [], [], []. split; cbn; try apply owned_nil; constructor.
  - apply map_Forall_singleton. lia.
  - intros f Hf. unfold file_at, frs_to_idx_opt. rewrite frs_to_usize_u64 by done. cbn. rewrite (proj2 (zget_None _ _)); [apply lookup_empty |].
    unfold zlen. cbn. lia.
Qed.

(** C2: one record of the table, base or extension, whatever its bytes: the parser returns, no
    index is out of range and no list walk runs away, and the index afterwards represents
    the table of files with the record's names, streams, children and fields added as the
    abstract parser adds them.  The hypotheses are the sizes: a record number and arenas
    with room for what the record can add. *)
Theorem process_record_refines lc data frs ix v :
  byte_list data -> 0 <= frs < U64_MAX -> models ix v -> room (3 * zlen data + 1) ix ->
  exists ix', process_record lc data frs ix = Some ((spec_record lc data frs v).1, ix') /\
    models ix' (spec_record lc data frs v).2.
Proof.
  intros Hb Hf H Hroom. destruct (process_record_models lc data frs ix v Hb Hf H Hroom) as (ix' & E & R). exists ix'. split; [done | apply R].
Qed.

(** A base record with a resident $FILE_NAME (name [n], directory 5) and a named stream. *)
Definition sample_name_value (parent : Z) (units : list Z) : list Z :=
  le_field 8 parent ++ zrepeat 0 56 ++ [zlen units; 1] ++ concat (map (to_le_bytes 2) units).
Definition sample_resident (type : Z) (value : list Z) : list Z :=
  le_field 4 type ++ le_field 4 (24 + zlen value) ++ [0; 0] ++ le_field 2 24 ++ le_field 2 0 ++ le_field 2 0 ++
  le_field 4 (zlen value) ++ le_field 2 24 ++ [0; 0] ++ value.
Definition sample_mft_header (base used : Z) : list Z :=
  [0x46; 0x49; 0x4C; 0x45] ++ zrepeat 0 12 ++ le_field 2 7 ++ le_field 2 1 ++ le_field 2 48 ++ le_field 2 1 ++
  le_field 4 used ++ le_field 4 1024 ++ le_field 8 base ++ zrepeat 0 8.
Definition sample_file (base parent : Z) (units : list Z) : list Z :=
  let attrs := sample_resident 0x30 (sample_name_value parent units) ++ sample_resident 0x80 [1; 2; 3] ++ le_field 4 END_MARKER ++ zrepeat 0 12 in
  sample_mft_header base (48 + zlen attrs) ++ attrs.

Definition identity_lower (s : list Z) : list Z := s.

(** [a.b] in directory 5. *)
Definition sample_ab : list Z := sample_file 0 5 [0x61; 0x2E; 0x62].

Lemma bytes_of_bool data : forallb (fun b => (0 <=? b) && (b <? 256)) data = true -> byte_list data.
Proof. intros H. apply Forall_forall. intros b Hb. rewrite forallb_forall in H. specialize (H b (proj1 (list_elem_of_In _ _) Hb)). lia. Qed.

Lemma process_record_refines_witness :
  exists ix', process_record identity_lower sample_ab 40 (MftIndex_new 67) =
      Some ((spec_record identity_lower sample_ab 40 {| vol_files := ∅; vol_ext := ExtensionTable_new |}).1, ix') /\
    models ix' (spec_record identity_lower sample_ab 40 {| vol_files := ∅; vol_ext := ExtensionTable_new |}).2.
Proof.
  apply process_record_refines; [apply bytes_of_bool; vm_compute; reflexivity | unfold U64_MAX; lia | apply models_new |].
  unfold room. vm_compute. repeat split.
Defined.

(** The file it makes: one name, the first of the children of record 5, its data and no stream. *)
Example sample_ab_parsed :
  (let? p := process_record identity_lower sample_ab 40 (MftIndex_new 67) in
   let? file := file_at 40 p.2 in let? dir := file_at 5 p.2 in
   Some (p.1, v_names file, map ch_child_frs (v_children dir), fr_name_count (v_fields file),
         sz_length (st_size (fr_first_stream (v_fields file))), et_names p.2.(ix_extensions))) =
  Some (true, [{| nv_bytes := [97; 46; 98]; nv_ascii := true; nv_ext := 1; nv_parent_frs := 5 |}], [40], 1, 3, [[]; [98]]).
Proof. vm_compute. reflexivity. Qed.
