(* ===== verification/VolumeLinks.v ===== *)
(** Invariants of the tables of files the record parser builds
    ([crates/uffs-mft/src/io/parser/unified.rs]): the child entries of the directories are
    the names of the files, each numbered by its place among the names of its file. *)
From S2P Require Import Prelude Text NtfsRecords NameCodec Arena MftIndex IndexViews RecordParser.

Definition empty_volume : Volume := {| vol_files := ∅; vol_ext := ExtensionTable_new |}.

Section parsed.
Context (lc : list Z -> list Z).

(** The indexes the parser makes of records in any order, each with the table of files it
    represents.  A record adds at most three cells to an arena per byte. *)
Inductive parsed : MftIndex -> Volume -> Prop :=
| parsed_new volume : parsed (MftIndex_new volume) empty_volume
| parsed_record ix v data frs ok ix' :
    parsed ix v -> byte_list data -> 0 <= frs < U64_MAX -> room (3 * zlen data + 1) ix ->
    process_record lc data frs ix = Some (ok, ix') -> parsed ix' (spec_record lc data frs v).2.

Lemma parsed_models ix v : parsed ix v -> models ix v.
Proof.
  induction 1 as [volume | ix v data frs ok ix' _ IH Hb Hf Hroom E]; [apply models_new |].
  destruct (process_record_models lc data frs ix v Hb Hf IH Hroom) as (ix'' & E' & R). rewrite E in E'.
  injection E' as _ <-. apply R.
Qed.

(** * Names and child entries *)

Definition names_of (v : Volume) (f : Z) : list NameView := match v.(vol_files) !! f with Some x => x.(v_names) | None => [] end.
Definition children_of (v : Volume) (f : Z) : list (Z * Z) :=
  match v.(vol_files) !! f with Some x => map (fun c => (c.(ch_child_frs), c.(ch_name_index))) x.(v_children) | None => [] end.
Definition count_of (v : Volume) (f : Z) : Z := match v.(vol_files) !! f with Some x => x.(v_fields).(fr_name_count) | None => 0 end.

(** The entries of a directory are the names in it, its own and the unknown parent's
    apart; the number of a name is its place in the order the names were read. *)
Definition links_ok (v : Volume) : Prop :=
  (forall f, count_of v f = Z.min U16_MAX (zlen (names_of v f))) /\
  (forall dir f n, (f, n) ∈ children_of v dir <->
     exists i name, zget (rev (names_of v f)) i = Some name /\ n = Z.min U16_MAX i /\
       name.(nv_parent_frs) = dir /\ dir <> f /\ dir <> NO_ENTRY).

Definition same_links (v v' : Volume) : Prop :=
  forall f, names_of v' f = names_of v f /\ children_of v' f = children_of v f /\ count_of v' f = count_of v f.

Lemma links_ok_same v v' : same_links v v' -> links_ok v -> links_ok v'.
Proof.
  intros S [H1 H2]. split; [intros f; destruct (S f) as (-> & _ & ->); apply H1 |].
  intros dir f n. destruct (S dir) as (_ & -> & _). destruct (S f) as (-> & _ & _). apply H2.
Qed.

Lemma same_links_refl v : same_links v v.
Proof. done. Qed.

Lemma same_links_trans v1 v2 v3 : same_links v1 v2 -> same_links v2 v3 -> same_links v1 v3.
Proof. intros A B f. destruct (A f) as (A1 & A2 & A3), (B f) as (-> & -> & ->). done. Qed.

Lemma same_links_on_file f g v :
  (forall x, v_names (g x) = v_names x /\ v_children (g x) = v_children x /\ fr_name_count (v_fields (g x)) = fr_name_count (v_fields x)) ->
  same_links v (on_file f g v).
Proof.
  intros Hg f'. unfold names_of, children_of, count_of. cbn. destruct (decide (f' = f)) as [-> |].
  - rewrite lookup_alter_eq. destruct (vol_files v !! f) as [x|]; [|done]. cbn. by destruct (Hg x) as (-> & -> & ->).
  - by rewrite lookup_alter_ne.
Qed.

Lemma same_links_fields f g v : (forall r, fr_name_count (g r) = fr_name_count r) -> same_links v (on_file f (on_fields g) v).
Proof. intros Hg. apply same_links_on_file. intros x. by cbn. Qed.

Lemma same_links_touch f v : same_links v (touch FileRecord_new_unified f v).
Proof.
  intros f'. unfold touch. destruct (vol_files v !! f) as [x|] eqn:E; [done |].
  unfold names_of, children_of, count_of. cbn. destruct (decide (f' = f)) as [-> |]; [by rewrite lookup_insert_eq, E | by rewrite lookup_insert_ne].
Qed.

(** * A name *)

Definition present (v : Volume) (f : Z) : Prop := is_Some (v.(vol_files) !! f).

Lemma present_on_file v f g f' : present (on_file f g v) f' <-> present v f'.
Proof. unfold present. cbn. apply lookup_alter_is_Some. Qed.

Lemma present_touch fresh v f f' : present v f' -> present (touch fresh f v) f'.
Proof.
  unfold present, touch. destruct (vol_files v !! f); [done |]. cbn. intros H. destruct (decide (f' = f)) as [-> |];
    [by rewrite lookup_insert_eq | by rewrite lookup_insert_ne].
Qed.

Lemma present_touched fresh v f : present (touch fresh f v) f.
Proof.
  unfold present, touch. destruct (vol_files v !! f) as [x|] eqn:E; [by rewrite E |]. cbn. by rewrite lookup_insert_eq.
Qed.

Lemma names_new_name v f g name :
  present v f -> (forall x, v_names (g x) = name :: v_names x) ->
  forall f', names_of (on_file f g v) f' = if decide (f' = f) then name :: names_of v f else names_of v f'.
Proof.
  intros [x Hx] Hg f'. unfold names_of. cbn. destruct (decide (f' = f)) as [-> |]; [|by rewrite lookup_alter_ne].
  rewrite lookup_alter_eq, Hx. cbn. by rewrite Hg.
Qed.

(** The three effects of a name, on the accessors. *)
Lemma spec_file_name_links frs fn nb v :
  present v frs -> links_ok v -> links_ok (spec_file_name lc frs fn nb v).
Proof.
  intros Hp [H1 H2]. unfold spec_file_name. set (parent := file_reference_to_frs (fa_parent_directory fn)).
  destruct (intern_extension lc (shown_name nb) (vol_ext v)) as [ext_id exts].
  set (name := {| nv_bytes := name_of nb |}). fold (count_of v frs). set (v1 := set_ext exts _).
  set (linked := negb (parent =? frs) && negb (parent =? NO_ENTRY)).
  set (v2 := if linked then _ else v1). set (v3 := on_file frs _ v2).
  assert (N1 : forall f, names_of v1 f = if decide (f = frs) then name :: names_of v frs else names_of v f) by (apply (names_new_name v frs); done).
  assert (C1 : forall f, children_of v1 f = children_of v f /\ count_of v1 f = count_of v f).
  { intros f. unfold children_of, count_of, v1. cbn. destruct (decide (f = frs)) as [-> |]; [|by rewrite lookup_alter_ne].
    rewrite lookup_alter_eq. by destruct (vol_files v !! frs). }
  assert (P1 : present v1 frs) by (by apply present_on_file).
  assert (N2 : forall f, names_of v2 f = names_of v1 f /\ count_of v2 f = count_of v1 f /\
    children_of v2 f = if linked && bool_decide (f = parent) then (frs, count_of v frs) :: children_of v1 f else children_of v1 f).
  { intros f. unfold v2. destruct linked; [|done]. cbn [andb]. destruct (same_links_touch parent v1 f) as (<- & <- & <-).
    destruct (present_touched FileRecord_new_unified v1 parent) as [x Hx]. unfold names_of, count_of, children_of. cbn.
    case_bool_decide as Ef; [subst f; by rewrite lookup_alter_eq, Hx | by rewrite lookup_alter_ne]. }
  assert (P2 : present v2 frs).
  { unfold v2. destruct linked; [|done]. apply present_on_file. by apply present_touch. }
  assert (N3 : forall f, names_of v3 f = names_of v2 f /\ children_of v3 f = children_of v2 f /\
    count_of v3 f = if decide (f = frs) then Z.min U16_MAX (count_of v2 f + 1) else count_of v2 f).
  { intros f. unfold v3, names_of, children_of, count_of. cbn. destruct (decide (f = frs)) as [-> |]; [|by rewrite lookup_alter_ne].
    destruct P2 as [x Hx]. by rewrite lookup_alter_eq, Hx. }
  split.
  - intros f. destruct (N3 f) as (-> & _ & ->). destruct (N2 f) as (-> & -> & _). destruct (C1 f) as [_ ->]. rewrite N1, H1.
    destruct (decide (f = frs)) as [-> |]; [|done]. rewrite zlen_cons. unfold U16_MAX. lia.
  - intros dir f n. destruct (N3 dir) as (_ & -> & _). destruct (N2 dir) as (_ & _ & ->). destruct (C1 dir) as [-> _].
    destruct (N3 f) as (-> & _ & _). destruct (N2 f) as (-> & _ & _). rewrite N1.
    assert (Hnew : (f, n) = (frs, count_of v frs) /\ linked = true /\ dir = parent <->
      f = frs /\ n = Z.min U16_MAX (zlen (names_of v frs)) /\ nv_parent_frs name = dir /\ dir <> f /\ dir <> NO_ENTRY).
    { rewrite H1. unfold linked. rewrite andb_true_iff, !negb_true_iff, !Z.eqb_neq. cbn. naive_solver. }
    transitivity (((f, n) = (frs, count_of v frs) /\ linked = true /\ dir = parent) \/ (f, n) ∈ children_of v dir).
    { destruct linked; [|naive_solver]. cbn [andb]. case_bool_decide; [rewrite elem_of_cons |]; naive_solver. }
    rewrite Hnew, H2. destruct (decide (f = frs)) as [-> |]; [|naive_solver]. cbn [rev]. split.
    + intros [(_ & -> & Hrest) | (i & name' & Hi & Hrest)].
      * exists (zlen (names_of v frs)), name. split; [|done]. rewrite zget_app_r; unfold zlen; rewrite length_rev; [|done]. by rewrite Z.sub_diag.
      * exists i, name'. split; [by apply zget_app_Some | done].
    + intros (i & name' & Hi & -> & Hrest). destruct (Z.lt_ge_cases i (zlen (rev (names_of v frs)))) as [Hlt | Hge].
      * right. exists i, name'. rewrite zget_app_l in Hi by done. done.
      * left. rewrite zget_app_r in Hi by done. apply zget_Some in Hi as Hi'. destruct Hi' as [Hr _]. change (zlen [name]) with 1 in Hr.
        assert (Ei : i = zlen (names_of v frs)) by (unfold zlen in *; rewrite length_rev in *; lia). subst i.
        assert (Ename : name' = name); [|by subst name'].
        replace (zlen (names_of v frs) - zlen (rev (names_of v frs))) with 0 in Hi by (unfold zlen; rewrite length_rev; lia). by injection Hi.
Qed.

Lemma same_links_set_ext e v : same_links v (set_ext e v).
Proof. done. Qed.

Lemma add_i30_count a b c r : fr_name_count (add_i30 a b c r) = fr_name_count r.
Proof. unfold add_i30. by destruct (has_i30_stream _). Qed.

Lemma add_default_data_count a b c r : fr_name_count (add_default_data a b c r) = fr_name_count r.
Proof. unfold add_default_data. by destruct (has_default_data _). Qed.

Lemma same_links_other data frs offset hdr v : same_links v (spec_other_attribute lc data frs offset hdr v).
Proof.
  unfold spec_other_attribute. destruct (is_primary data offset hdr); [|done].
  set (raw := if (_ : bool) then (read_stream_name data offset hdr).2 else None).
  destruct (attribute_sizes data offset hdr _) as [size alloc].
  cbn zeta. set (v1 := if attribute_is_i30 data offset hdr then on_file frs _ v else _).
  assert (S1 : same_links v v1).
  { unfold v1. destruct (attribute_is_i30 _ _ _); [apply same_links_fields, add_i30_count |].
    destruct (_ =? DATA_TYPE); [|by apply same_links_on_file]. destruct (_ =? 0); [apply same_links_fields, add_default_data_count |].
    destruct raw as [nb|]; [|done]. unfold spec_named_stream. destruct (intern_extension _ _ _).
    eapply same_links_trans; [|apply same_links_set_ext]. by apply same_links_on_file. }
  destruct ((type_code hdr =? REPARSE_POINT_TYPE) && (is_non_resident_ hdr =? 0)); [|exact S1].
  destruct (resident_value_offset _ _); [|exact S1].
  eapply same_links_trans; [exact S1 |]. by apply same_links_fields.
Qed.

Lemma present_other data frs offset hdr v f : present v f -> present (spec_other_attribute lc data frs offset hdr v) f.
Proof.
  unfold spec_other_attribute. destruct (is_primary data offset hdr); [|done]. intros H.
  set (raw := if (_ : bool) then (read_stream_name data offset hdr).2 else None).
  destruct (attribute_sizes data offset hdr _) as [size alloc].
  cbn zeta. set (v1 := if attribute_is_i30 data offset hdr then on_file frs _ v else _).
  assert (S1 : present v1 f).
  { unfold v1. destruct (attribute_is_i30 _ _ _); [by apply present_on_file |].
    destruct (_ =? DATA_TYPE); [|by apply present_on_file]. destruct (_ =? 0); [by apply present_on_file |].
    destruct raw as [nb|]; [|done]. unfold spec_named_stream. destruct (intern_extension _ _ _). by apply (present_on_file v frs). }
  destruct ((type_code hdr =? REPARSE_POINT_TYPE) && (is_non_resident_ hdr =? 0)); [|exact S1].
  destruct (resident_value_offset _ _); [|exact S1]. by apply present_on_file.
Qed.

Lemma spec_attribute_links data frs dir v a :
  present v frs /\ links_ok v -> present (spec_attribute lc data frs dir v a) frs /\ links_ok (spec_attribute lc data frs dir v a).
Proof.
  intros [Hp H]. destruct a as [offset hdr]. unfold spec_attribute.
  assert (Hother : present (spec_other_attribute lc data frs offset hdr v) frs /\ links_ok (spec_other_attribute lc data frs offset hdr v)).
  { split; [by apply present_other |]. eapply links_ok_same; [apply same_links_other | done]. }
  destruct (attribute_type_from_u32 (type_code hdr)) as [[]|]; try done.
  - destruct (_ =? _); [|done]. split; [by apply present_on_file |]. eapply links_ok_same; [by apply same_links_fields | done].
  - destruct (read_file_name data offset hdr) as [[fn nb]|]; [|done]. split; [| by apply spec_file_name_links].
    unfold spec_file_name. destruct (intern_extension _ _ _). apply present_on_file. destruct (_ && _).
    + apply present_on_file, present_touch. by apply (present_on_file v frs).
    + by apply (present_on_file v frs).
Qed.

Lemma spec_record_links data frs v : links_ok v -> links_ok (spec_record lc data frs v).2.
Proof.
  intros H. unfold spec_record. destruct (_ <? 48); [done |]. destruct (parse_file_record_segment_header data) as [h|]; [|done].
  destruct (_ || _); [done |]. cbn [snd].
  set (base := if is_base_record h then frs else _). set (v1 := touch FileRecord_new_unified base v).
  assert (H1 : present v1 base /\ links_ok v1).
  { split; [apply present_touched |]. eapply links_ok_same; [apply same_links_touch | done]. }
  set (v2 := if is_base_record h then _ else v1).
  assert (H2 : present v2 base /\ links_ok v2).
  { unfold v2. destruct (is_base_record h); [|done]. split; [apply present_on_file; apply H1 |]. eapply links_ok_same; [by apply same_links_fields | apply H1]. }
  set (walk := record_walk _ _ _ _). set (v3 := foldl _ v2 walk).
  assert (H3 : present v3 base /\ links_ok v3).
  { unfold v3. clearbody walk v2. clear v3 v1 H1. revert v2 H2. induction walk as [|a walk IH]; intros v2 H2; [done |].
    cbn [foldl]. apply IH. by apply spec_attribute_links. }
  destruct (is_directory_record h); [|apply H3]. eapply links_ok_same; [by apply same_links_fields | apply H3].
Qed.

Lemma parsed_links ix v : parsed ix v -> links_ok v.
Proof.
  induction 1 as [volume | ix v data frs ok ix' _ IH _ _ _ _]; [| by apply spec_record_links].
  split; [intros f; done |]. intros dir f n. unfold children_of, names_of, empty_volume. cbn. rewrite !lookup_empty. split.
  - by intros ?%elem_of_nil.
  - intros (i & name & E & _). by rewrite (proj2 (zget_None _ _)) in E by (unfold zlen; cbn; lia).
Qed.

(** C7: whatever the order of the records, base and extension records mixed: the child entries
    of every directory are the names that lie in it.  An entry [(f, n)] stands for the
    [n]-th name of [f] in the order they were read, which the record lists backwards; a
    name whose parent is its own file or unknown has no entry; the name count is the number
    of names, at most 65,535. *)
Theorem children_are_names ix v :
  parsed ix v ->
  models ix v /\
  (forall f, count_of v f = Z.min U16_MAX (zlen (names_of v f))) /\
  (forall dir f n, (f, n) ∈ children_of v dir <->
     exists i name, zget (rev (names_of v f)) i = Some name /\ n = Z.min U16_MAX i /\
       name.(nv_parent_frs) = dir /\ dir <> f /\ dir <> NO_ENTRY).
Proof. intros H. split; [by apply parsed_models | by eapply parsed_links]. Qed.
End parsed.

(** Two names, in directories 5 and 6, then the record read again. *)
Definition sample_two_names : list Z :=
  let attrs := sample_resident 0x30 (sample_name_value 5 [0x7A]) ++ sample_resident 0x30 (sample_name_value 6 [0x61]) ++ le_field 4 END_MARKER ++ zrepeat 0 12 in
  sample_mft_header 0 (48 + zlen attrs) ++ attrs.

Lemma sample_two_names_parsed :
  exists ix, parsed identity_lower ix (spec_record identity_lower sample_two_names 40 empty_volume).2.
Proof.
  assert (E : is_Some (process_record identity_lower sample_two_names 40 (MftIndex_new 67))) by (vm_compute; by eexists).
  destruct E as [[ok ix] E]. exists ix. eapply parsed_record; [apply (parsed_new _ 67) | | | | exact E].
  - apply bytes_of_bool. vm_compute. reflexivity.
  - unfold U64_MAX. lia.
  - unfold room. vm_compute. repeat split.
Qed.

Lemma children_are_names_witness :
  exists ix v, parsed identity_lower ix v /\ models ix v /\
    (children_of v 5, children_of v 6, count_of v 40) = ([(40, 0)], [(40, 1)], 2).
Proof.
  destruct sample_two_names_parsed as [ix H]. exists ix, (spec_record identity_lower sample_two_names 40 empty_volume).2.
  split; [exact H |]. split; [exact (proj1 (children_are_names identity_lower ix _ H)) |]. vm_compute. reflexivity.
Defined.
