(* ===== verification/MftTree.v ===== *)
(** Tree metrics of an index: descendants and sizes of every directory, over the lists of
    child entries ([crates/uffs-mft/src/tree_metrics.rs], [index/tree.rs],
    [index/child_order.rs]). *)
From S2P Require Import Prelude Text NtfsRecords NameCodec Arena MftIndex IndexViews RecordParser.

(** * Shares of hard links *)

(** [delta]: the products wrap in the release profile. *)
Definition delta (value name_info total_names : Z) : Z :=
  if total_names <=? 1 then value
  else u64 (u64 (value * (name_info + 1)) / total_names - u64 (value * name_info) / total_names).

Definition compute_name_info_checked (name_index total_names : Z) : Z :=
  if total_names <=? 1 then 0
  else if name_index >=? total_names then 0
  else total_names - 1 - name_index.

Record Agg := { ag_length : Z; ag_allocated : Z; ag_treesize : Z }.
Definition no_agg : Agg := {| ag_length := 0; ag_allocated := 0; ag_treesize := 0 |}.

(** [TreeTraversal]: the index, the records visited and the depth. *)
Record TreeTraversal := { tt_index : MftIndex; tt_seen : list bool; tt_depth : Z }.

Definition with_index (ix : MftIndex) (t : TreeTraversal) : TreeTraversal :=
  {| tt_index := ix; tt_seen := t.(tt_seen); tt_depth := t.(tt_depth) |}.
Definition with_depth (d : Z) (t : TreeTraversal) : TreeTraversal :=
  {| tt_index := t.(tt_index); tt_seen := t.(tt_seen); tt_depth := d |}.
Definition see (i : Z) (t : TreeTraversal) : TreeTraversal :=
  {| tt_index := t.(tt_index); tt_seen := zset t.(tt_seen) i true; tt_depth := t.(tt_depth) |}.

(** * Streams *)

Definition WOF_TAG : Z := 0x80000017.
(** [WofCompressedData]. *)
Definition WOF_NAME : list Z := [87; 111; 102; 67; 111; 109; 112; 114; 101; 115; 115; 101; 100; 68; 97; 116; 97].

(** [find_wof_stream]: [None] is an index out of range. *)
Fixpoint find_wof_stream (fuel : nat) (ix : MftIndex) (idx : Z) : option Z :=
  match fuel with
  | O => None
  | S fuel =>
      if idx =? NO_ENTRY then Some NO_ENTRY else
      let? stream := zget ix.(ix_streams) idx in
      if bool_decide (get_name ix stream.(st_name) = WOF_NAME) then Some idx
      else find_wof_stream fuel ix stream.(st_next)
  end.

Definition set_first_allocated (a : Z) (r : FileRecord) : FileRecord :=
  let s := r.(fr_first_stream) in
  set_first_stream {| st_size := {| sz_length := s.(st_size).(sz_length); sz_allocated := a |}; st_next := s.(st_next);
                      st_name := s.(st_name); st_flags := s.(st_flags) |} r.

Definition merge_wof_alloc (record_idx : Z) (r : FileRecord) (ix : MftIndex) : option (Z * Z * MftIndex) :=
  let first_alloc := r.(fr_first_stream).(st_size).(sz_allocated) in
  let? wof_idx :=
    if r.(fr_reparse_tag) =? WOF_TAG then find_wof_stream (S (length ix.(ix_streams))) ix r.(fr_first_stream).(st_next)
    else Some NO_ENTRY in
  if negb (wof_idx =? NO_ENTRY) then
    let? stream := zget ix.(ix_streams) wof_idx in
    let first_alloc := saturating_add_u64 first_alloc stream.(st_size).(sz_allocated) in
    let? ix := update_record record_idx (set_first_allocated first_alloc) ix in
    Some (wof_idx, first_alloc, ix)
  else Some (wof_idx, first_alloc, ix).

Definition add_shares (name_info total_names : Z) (own : Z * Z) (s : SizeInfo) : Z * Z :=
  (saturating_add_u64 own.1 (delta s.(sz_length) name_info total_names),
   saturating_add_u64 own.2 (delta s.(sz_allocated) name_info total_names)).

(** The walks of [accumulate_own_streams]; they stop at a position out of range. *)
Fixpoint add_internal_shares (fuel : nat) (ix : MftIndex) (name_info total_names idx : Z) (own : Z * Z) : Z * Z :=
  match fuel with
  | O => own
  | S fuel =>
      if idx =? NO_ENTRY then own else
      match zget ix.(ix_internal_streams) idx with
      | Some ist => add_internal_shares fuel ix name_info total_names ist.(in_next) (add_shares name_info total_names own ist.(in_size))
      | None => own
      end
  end.

Fixpoint add_stream_shares (fuel : nat) (ix : MftIndex) (name_info total_names wof_idx idx : Z) (own : Z * Z) : Z * Z :=
  match fuel with
  | O => own
  | S fuel =>
      if idx =? NO_ENTRY then own else
      match zget ix.(ix_streams) idx with
      | Some stream =>
          let size := if idx =? wof_idx then {| sz_length := 0; sz_allocated := 0 |} else stream.(st_size) in
          add_stream_shares fuel ix name_info total_names wof_idx stream.(st_next) (add_shares name_info total_names own size)
      | None => own
      end
  end.

(** [accumulate_own_streams]; [r] is the record as it was before the merge. *)
Definition accumulate_own_streams (ix : MftIndex) (r : FileRecord) (first_alloc wof_idx name_info total_names : Z) : Z * Z :=
  let own := (delta r.(fr_first_stream).(st_size).(sz_length) name_info total_names, delta first_alloc name_info total_names) in
  let own :=
    if negb (r.(fr_first_internal_stream) =? NO_ENTRY) && negb (bool_decide (ix.(ix_internal_streams) = [])) then
      add_internal_shares (S (length ix.(ix_internal_streams))) ix name_info total_names r.(fr_first_internal_stream) own
    else if (r.(fr_internal_streams_size) >? 0) || (r.(fr_internal_streams_allocated) >? 0) then
      add_shares name_info total_names own
        {| sz_length := r.(fr_internal_streams_size); sz_allocated := r.(fr_internal_streams_allocated) |}
    else own in
  add_stream_shares (S (length ix.(ix_streams))) ix name_info total_names wof_idx r.(fr_first_stream).(st_next) own.

Definition store_printed_metrics (record_idx : Z) (is_dir : bool) (children : Agg) (first_len first_alloc : Z) (ix : MftIndex)
    : option MftIndex :=
  update_record record_idx (fun r =>
    if is_dir then
      set_tree_metrics (saturating_add_u32 children.(ag_treesize) 1) (saturating_add_u64 children.(ag_length) first_len)
        (saturating_add_u64 children.(ag_allocated) first_alloc) r
    else set_tree_metrics 0 first_len first_alloc r) ix.

Definition add_agg (a b : Agg) : Agg :=
  {| ag_length := saturating_add_u64 a.(ag_length) b.(ag_length);
     ag_allocated := saturating_add_u64 a.(ag_allocated) b.(ag_allocated);
     ag_treesize := saturating_add_u32 a.(ag_treesize) b.(ag_treesize) |}.

(** * The traversal *)

Section children.
(** [preprocess] of the children. *)
Context (pre : Z -> Z -> Z -> TreeTraversal -> option (Agg * TreeTraversal)).

(** The loop of [aggregate_children]: [None] is an index out of range. *)
Fixpoint children_loop (fuel : nat) (child_entry : Z) (agg : Agg) (t : TreeTraversal) : option (Agg * TreeTraversal) :=
  match fuel with
  | O => None
  | S fuel =>
      if child_entry =? NO_ENTRY then Some (agg, t) else
      let? ce := zget t.(tt_index).(ix_children) child_entry in
      match frs_to_idx_opt ce.(ch_child_frs) t.(tt_index) with
      | Some child_idx =>
          let? child := zget t.(tt_index).(ix_records) child_idx in
          let total := child.(fr_name_count) in
          let info := compute_name_info_checked ce.(ch_name_index) total in
          let? p := pre child_idx info (Z.max total 1) t in
          children_loop fuel ce.(ch_next) (add_agg agg p.1) p.2
      | None => children_loop fuel ce.(ch_next) agg t
      end
  end.

Definition aggregate_children (first_child : Z) (t : TreeTraversal) : option (Agg * TreeTraversal) :=
  let t := with_depth (saturating_add_u32 t.(tt_depth) 1) t in
  let? p := children_loop (S (length t.(tt_index).(ix_children))) first_child no_agg t in
  let '(agg, t) := p in
  let t := with_depth (saturating_sub t.(tt_depth) 1) t in
  let reserved := t.(tt_index).(ix_reserved_allocated_bytes) in
  if (t.(tt_depth) =? 0) && (reserved >? 0) then
    Some ({| ag_length := agg.(ag_length); ag_allocated := saturating_add_u64 agg.(ag_allocated) reserved;
             ag_treesize := agg.(ag_treesize) |}, t)
  else Some (agg, t).
End children.

(** [preprocess]; the fuel is the depth of the recursion, and [None] its overflow or an
    index out of range. *)
Fixpoint preprocess (fuel : nat) (record_idx name_info total_names_raw : Z) (t : TreeTraversal) : option (Agg * TreeTraversal) :=
  match fuel with
  | O => None
  | S fuel =>
      match zget t.(tt_index).(ix_records) record_idx with
      | None => Some (no_agg, t)
      | Some snap =>
          let t := see record_idx t in
          let total_names := Z.max total_names_raw 1 in
          let? m := merge_wof_alloc record_idx snap t.(tt_index) in
          let '(wof_idx, first_alloc, ix) := m in
          let t := with_index ix t in
          let? c := if is_directory snap then aggregate_children (preprocess fuel) snap.(fr_first_child) t else Some (no_agg, t) in
          let '(children, t) := c in
          let own := accumulate_own_streams t.(tt_index) snap first_alloc wof_idx name_info total_names in
          let own_stream_count := Z.max snap.(fr_total_stream_count) 1 in
          let result := add_agg children {| ag_length := own.1; ag_allocated := own.2; ag_treesize := own_stream_count |} in
          let? ix := store_printed_metrics record_idx (is_directory snap) children
                       snap.(fr_first_stream).(st_size).(sz_length) first_alloc t.(tt_index) in
          Some (result, with_index ix t)
      end
  end.

(** [traverse_from_root], [sweep_orphans] and [run]. *)
Definition traverse_from_root (fuel : nat) (t : TreeTraversal) : option TreeTraversal :=
  match frs_to_idx_opt ROOT_FRS t.(tt_index) with
  | Some root_idx => let? p := preprocess fuel root_idx 0 1 t in Some p.2
  | None => Some t
  end.

Fixpoint sweep_orphans (n : nat) (fuel : nat) (idx : Z) (t : TreeTraversal) : option TreeTraversal :=
  match n with
  | O => Some t
  | S n =>
      let? seen := zget t.(tt_seen) idx in
      if seen then sweep_orphans n fuel (idx + 1) t
      else let? p := preprocess fuel idx 0 1 t in sweep_orphans n fuel (idx + 1) p.2
  end.

Definition run_traversal (fuel : nat) (skip_orphans : bool) (t : TreeTraversal) : option TreeTraversal :=
  let? t := traverse_from_root fuel t in
  if skip_orphans then Some t else sweep_orphans (length t.(tt_index).(ix_records)) fuel 0 t.

Definition compute_tree_metrics (fuel : nat) (skip_orphans : bool) (ix : MftIndex) : option MftIndex :=
  let? t := run_traversal fuel skip_orphans
              {| tt_index := ix; tt_seen := zrepeat false (zlen ix.(ix_records)); tt_depth := 0 |} in
  Some t.(tt_index).

(** * The children lists again *)

(** [add_child_entry]. *)
Definition add_child_entry (parent_frs child_frs name_index : Z) (ix : MftIndex) : option MftIndex :=
  let? p := get_or_create parent_frs ix in
  let '(parent_idx, ix) := p in
  match zget ix.(ix_records) parent_idx with
  | None => Some ix
  | Some parent_rec =>
      let child_idx := len_to_u32 (zlen ix.(ix_children)) in
      let? ix := update_record parent_idx (set_first_child child_idx) ix in
      Some (with_children (ix.(ix_children) ++
        [{| ch_next := parent_rec.(fr_first_child); ch_child_frs := child_frs; ch_name_index := name_index |}]) ix)
  end.

(** [collect_parent_child_edges] of one record: the names from the newest, and their
    numbers from the end. *)
Fixpoint record_edges (n : nat) (ix : MftIndex) (child_frs name_count name_index : Z) (link : LinkInfo) : list (Z * Z * Z) :=
  match n with
  | O => []
  | S n =>
      let here :=
        if negb (link.(li_parent_frs) =? NO_ENTRY) && negb (link.(li_parent_frs) =? child_frs)
        then [(link.(li_parent_frs), child_frs, len_to_u16 (name_count - 1 - name_index))] else [] in
      here ++
      (if link.(li_next) =? NO_ENTRY then [] else
       match zget ix.(ix_links) link.(li_next) with
       | Some next_link => record_edges n ix child_frs name_count (name_index + 1) next_link
       | None => []
       end)
  end.

Definition collect_parent_child_edges (ix : MftIndex) : list (Z * Z * Z) :=
  concat (map (fun r => record_edges (Z.to_nat r.(fr_name_count)) ix r.(fr_frs) r.(fr_name_count) 0 r.(fr_first_name))
    ix.(ix_records)).

Definition rebuild_children_from_names (ix : MftIndex) : option MftIndex :=
  let edges := collect_parent_child_edges ix in
  let ix := with_records (map (set_first_child NO_ENTRY) ix.(ix_records)) (with_children [] ix) in
  foldl (fun acc '(p, c, n) => let? ix := acc in add_child_entry p c n ix) (Some ix) edges.

(** * [compute_tree_metrics_impl] *)

(** The count of the default stream that is not there. *)
Definition fix_stream_count (r : FileRecord) : FileRecord :=
  if negb (is_unified r) && negb (is_directory r) && negb (has_default_data r) && (r.(fr_total_stream_count) >? 1) &&
     (negb (r.(fr_first_stream).(st_next) =? NO_ENTRY) || negb (r.(fr_first_internal_stream) =? NO_ENTRY))
  then set_stream_counts r.(fr_stream_count) (r.(fr_total_stream_count) - 1) r else r.

Definition bad_directory (r : FileRecord) : bool := is_directory r && (r.(fr_descendants) =? 0).

Definition root_looks_bad (ix : MftIndex) : bool :=
  match (let? i := frs_to_idx_opt ROOT_FRS ix in zget ix.(ix_records) i) with
  | Some root => is_directory root && ((root.(fr_descendants) =? 0) || (root.(fr_treesize) =? 0))
  | None => false
  end.

(** The two switches are environment variables. *)
Definition compute_tree_metrics_impl (fuel : nat) (rebuild_always skip_orphans : bool) (ix : MftIndex) : option MftIndex :=
  let? ix := if rebuild_always then rebuild_children_from_names ix else Some ix in
  let ix := with_records (map fix_stream_count ix.(ix_records)) ix in
  let? ix := compute_tree_metrics fuel skip_orphans ix in
  if existsb bad_directory ix.(ix_records) || root_looks_bad ix then
    let? ix := rebuild_children_from_names ix in
    compute_tree_metrics fuel skip_orphans ix
  else Some ix.

(** * Shares add up *)

Definition total (l : list Z) : Z := foldr Z.add 0 l.

Lemma total_app a b : total (a ++ b) = total a + total b.
Proof. induction a as [|x a IH]; [done |]. change (x + total (a ++ b) = x + total a + total b). lia. Qed.

Lemma total_nonneg l : Forall (fun x => 0 <= x) l -> 0 <= total l.
Proof. induction 1 as [|x l Hx _ IH]; [done |]. change (0 <= x + total l). lia. Qed.

Lemma total_perm a b : a ≡ₚ b -> total a = total b.
Proof. induction 1; unfold total in *; cbn [foldr]; lia. Qed.

Lemma delta_exact v i n : 0 <= v -> 1 < n -> 0 <= i < n -> v * n < 2 ^ 64 -> delta v i n = v * (i + 1) / n - v * i / n.
Proof.
  intros Hv Hn Hi Hb. unfold delta. rewrite (proj2 (Z.leb_gt n 1)) by lia.
  assert (v * (i + 1) <= v * n) by nia. assert (v * i <= v * (i + 1)) by nia. assert (0 <= v * i) by nia.
  rewrite (u64_small (v * (i + 1))), (u64_small (v * i)) by lia. rewrite u64_small; [done |].
  pose proof (Z.div_le_mono (v * i) (v * (i + 1)) n ltac:(lia) ltac:(lia)).
  pose proof (Z.div_pos (v * i) n ltac:(lia) ltac:(lia)). pose proof (Z.div_le_upper_bound (v * (i + 1)) n v ltac:(lia) ltac:(nia)). assert (v <= v * n) by nia. lia.
Qed.

Lemma delta_prefix v n k : 0 <= v -> 1 < n -> 0 <= k <= n -> v * n < 2 ^ 64 -> total (map (fun i => delta v i n) (seqZ 0 k)) = v * k / n.
Proof.
  intros Hv Hn [Hk0 Hk] Hb. revert k Hk0 Hk. refine (natlike_ind _ _ _).
  - intros _. by rewrite Z.mul_0_r, Z.div_0_l by lia.
  - intros k Hk0 IH Hk. rewrite <- (Z2Nat.id k) at 1 by done. rewrite <- Nat2Z.inj_succ, seqZ_S, Z2Nat.id by done.
    rewrite map_app, total_app, IH by lia. cbn [map total foldr]. rewrite Z.add_0_l, delta_exact by lia.
    replace (Z.succ k) with (k + 1) by lia. lia.
Qed.

(** The shares of a stream over the names of its file add up to the stream, as long as
    size times names fits 64 bits. *)
Theorem hard_link_shares_conserve value names :
  0 <= value -> 1 <= names -> value * names < 2 ^ 64 ->
  total (map (fun name_index => delta value (compute_name_info_checked name_index names) names) (seqZ 0 names)) = value.
Proof.
  intros Hv Hn Hb. destruct (Z.le_gt_cases names 1) as [Hle | Hgt].
  - assert (names = 1) as -> by lia. change (delta value 0 1 + 0 = value). unfold delta. change (value + 0 = value). lia.
  - assert (E : map (fun name_index => delta value (compute_name_info_checked name_index names) names) (seqZ 0 names) ≡ₚ
                map (fun i => delta value i names) (seqZ 0 names)).
    { rewrite <- (map_map (fun k => compute_name_info_checked k names) (fun i => delta value i names)). apply Permutation_map.
      apply NoDup_Permutation; [| apply NoDup_seqZ |].
      - apply NoDup_fmap_2_strong; [|apply NoDup_seqZ]. intros x y Hx%elem_of_seqZ Hy%elem_of_seqZ. unfold compute_name_info_checked.
        rewrite (proj2 (Z.leb_gt names 1)), !Z.geb_leb, (proj2 (Z.leb_gt names x)), (proj2 (Z.leb_gt names y)) by lia. lia.
      - intros x. rewrite list_elem_of_fmap, elem_of_seqZ. setoid_rewrite elem_of_seqZ. unfold compute_name_info_checked.
        rewrite (proj2 (Z.leb_gt names 1)) by lia. split.
        + intros (y & -> & Hy). rewrite Z.geb_leb, (proj2 (Z.leb_gt names y)) by lia. lia.
        + intros Hx. exists (names - 1 - x). rewrite Z.geb_leb, (proj2 (Z.leb_gt names (names - 1 - x))) by lia. lia. }
    rewrite (total_perm _ _ E), delta_prefix by lia. apply Z.div_mul. lia.
Qed.

Lemma hard_link_shares_conserve_witness :
  total (map (fun k => delta 1001 (compute_name_info_checked k 3) 3) (seqZ 0 3)) = 1001.
Proof. apply (hard_link_shares_conserve 1001 3); lia. Defined.

(** * Directories that contain each other *)

Lemma merge_no_wof i r ix :
  fr_reparse_tag r <> WOF_TAG -> merge_wof_alloc i r ix = Some (NO_ENTRY, r.(fr_first_stream).(st_size).(sz_allocated), ix).
Proof. intros H. unfold merge_wof_alloc. by rewrite (proj2 (Z.eqb_neq _ _) H). Qed.

(** The first entry of directory [i] is directory [j]. *)
Definition first_entry (ix : MftIndex) (i j : Z) : Prop :=
  exists r ce child, zget ix.(ix_records) i = Some r /\ is_directory r = true /\ fr_reparse_tag r <> WOF_TAG /\
    fr_first_child r <> NO_ENTRY /\ zget ix.(ix_children) r.(fr_first_child) = Some ce /\
    frs_to_idx_opt ce.(ch_child_frs) ix = Some j /\ zget ix.(ix_records) j = Some child.

(** A set of directories each of which starts with one of the set: the traversal of any of
    them has no end, whatever the depth allowed. *)
Theorem cyclic_directories_never_end ix (loop : Z -> Prop) :
  (forall i, loop i -> exists j, loop j /\ first_entry ix i j) ->
  forall fuel i name_info names t, loop i -> t.(tt_index) = ix -> preprocess fuel i name_info names t = None.
Proof.
  intros Hloop fuel. induction fuel as [|fuel IH]; intros i info names t Hi Et; [done |].
  destruct (Hloop i Hi) as (j & Hj & r & ce & child & Hr & Hd & Hw & Hf & Hce & Hfj & Hc).
  cbn [preprocess]. rewrite Et, Hr. change (tt_index (see i t)) with (tt_index t). rewrite Et, merge_no_wof by done.
  cbn [mbind option_bind]. rewrite Hd. unfold aggregate_children. cbn [children_loop].
  rewrite (proj2 (Z.eqb_neq _ _) Hf). cbn [tt_index with_depth with_index see]. rewrite Hce. cbn [mbind option_bind].
  rewrite Hfj, Hc. cbn [mbind option_bind]. rewrite IH; done.
Qed.

(** Two directories whose names lie in each other, as two records of 142 bytes say. *)
Definition sample_directory (parent : Z) (units : list Z) : list Z :=
  let attrs := sample_resident 0x30 (sample_name_value parent units) ++ le_field 4 END_MARKER ++ zrepeat 0 12 in
  [0x46; 0x49; 0x4C; 0x45] ++ zrepeat 0 12 ++ le_field 2 7 ++ le_field 2 1 ++ le_field 2 48 ++ le_field 2 3 ++
  le_field 4 (48 + zlen attrs) ++ le_field 4 1024 ++ le_field 8 0 ++ zrepeat 0 8 ++ attrs.

Definition cyclic_index : option MftIndex :=
  let? p := process_record identity_lower (sample_directory 11 [0x64]) 10 (MftIndex_new 67) in
  let? q := process_record identity_lower (sample_directory 10 [0x65]) 11 p.2 in Some q.2.

Lemma cyclic_directories_never_end_witness :
  exists ix, cyclic_index = Some ix /\
    forall fuel, preprocess fuel 0 0 1 {| tt_index := ix; tt_seen := [false; false]; tt_depth := 0 |} = None.
Proof.
  destruct cyclic_index as [ix|] eqn:E; [|vm_compute in E; discriminate]. exists ix. split; [reflexivity |]. intros fuel.
  apply (cyclic_directories_never_end ix (fun i => i = 0 \/ i = 1)); [| by left | reflexivity].
  vm_compute in E. injection E as <-. intros i [-> | ->].
  - exists 1. split; [by right |]. do 3 eexists. repeat split; try reflexivity; discriminate.
  - exists 0. split; [by left |]. do 3 eexists. repeat split; try reflexivity; discriminate.
Defined.

(** The whole computation has no end either, since the sweep visits every record. *)
Example cyclic_metrics_never_end : (let? ix := cyclic_index in compute_tree_metrics 60 false ix) = None.
Proof. vm_compute. reflexivity. Qed.

(** * Compressed system files *)

Lemma find_wof_stream_size fuel ix ix' idx :
  ix_streams ix' = ix_streams ix -> ix_names ix' = ix_names ix -> find_wof_stream fuel ix' idx = find_wof_stream fuel ix idx.
Proof.
  intros Es En. revert idx. induction fuel as [|fuel IH]; intros idx; [done |]. cbn [find_wof_stream]. rewrite Es.
  destruct (_ =? _); [done |]. destruct (zget _ idx); [|done]. cbn [mbind option_bind]. unfold get_name, get_name_bytes. rewrite En.
  by rewrite IH.
Qed.

(** What a visit leaves of a file whose data the filter driver keeps compressed in a
    stream: the allocation of that stream added to the file's. *)
Lemma wof_visit fuel i info names t r k s :
  zget t.(tt_index).(ix_records) i = Some r -> is_directory r = false -> fr_reparse_tag r = WOF_TAG ->
  find_wof_stream (S (length t.(tt_index).(ix_streams))) t.(tt_index) r.(fr_first_stream).(st_next) = Some k -> k <> NO_ENTRY ->
  zget t.(tt_index).(ix_streams) k = Some s ->
  exists agg t' r', preprocess (S fuel) i info names t = Some (agg, t') /\
    zget t'.(tt_index).(ix_records) i = Some r' /\ is_directory r' = false /\ fr_reparse_tag r' = WOF_TAG /\
    r'.(fr_first_stream).(st_next) = r.(fr_first_stream).(st_next) /\
    ix_streams t'.(tt_index) = ix_streams t.(tt_index) /\ ix_names t'.(tt_index) = ix_names t.(tt_index) /\
    sz_allocated (st_size (fr_first_stream r')) =
      saturating_add_u64 (sz_allocated (st_size (fr_first_stream r))) (sz_allocated (st_size s)) /\
    fr_tree_allocated r' = sz_allocated (st_size (fr_first_stream r')).
Proof.
  intros Hr Hd Hw Hk Hn Hs. cbn [preprocess]. rewrite Hr. unfold merge_wof_alloc.
  change (tt_index (see i t)) with (tt_index t). rewrite Hw, Z.eqb_refl, Hk. cbn [mbind option_bind].
  rewrite (proj2 (Z.eqb_neq _ _) Hn). cbn [negb]. rewrite Hs. cbn [mbind option_bind].
  rewrite (update_record_spec _ _ _ _ Hr). cbn [mbind option_bind]. rewrite Hd. cbn [mbind option_bind].
  unfold store_printed_metrics.
  erewrite update_record_spec by (cbn; by eapply insert_zget). cbn [mbind option_bind].
  eexists _, _, _. split; [reflexivity |]. split; [cbn; eapply insert_zget; by eapply insert_zget |].
  repeat split; try done.
Qed.

(** [n] visits, in one computation or several. *)
Fixpoint visits (n : nat) (fuel : nat) (i info names : Z) (t : TreeTraversal) : option TreeTraversal :=
  match n with
  | O => Some t
  | S n => let? p := preprocess (S fuel) i info names t in visits n fuel i info names p.2
  end.

(** Every visit adds the compressed stream to the stored allocation once more: a file with
    two names, or an index whose metrics are computed again after a journal update, shows
    more than its files occupy. *)
Theorem wof_allocation_accumulates n fuel i info names t r k s :
  zget t.(tt_index).(ix_records) i = Some r -> is_directory r = false -> fr_reparse_tag r = WOF_TAG ->
  find_wof_stream (S (length t.(tt_index).(ix_streams))) t.(tt_index) r.(fr_first_stream).(st_next) = Some k -> k <> NO_ENTRY ->
  zget t.(tt_index).(ix_streams) k = Some s -> 0 <= sz_allocated (st_size s) ->
  is_u64 (sz_allocated (st_size (fr_first_stream r))) ->
  exists t' r', visits n fuel i info names t = Some t' /\ zget t'.(tt_index).(ix_records) i = Some r' /\
    sz_allocated (st_size (fr_first_stream r')) =
      Z.min U64_MAX (sz_allocated (st_size (fr_first_stream r)) + Z.of_nat n * sz_allocated (st_size s)).
Proof.
  intros Hr Hd Hw Hk Hn Hs Hs0 Hu. revert t r Hr Hd Hw Hk Hs Hu. induction n as [|n IH]; intros t r Hr Hd Hw Hk Hs Hu.
  { exists t, r. split; [done |]. split; [done |]. unfold U64_MAX. lia. }
  destruct (wof_visit fuel i info names t r k s Hr Hd Hw Hk Hn Hs) as (agg & t1 & r1 & E & Hr1 & Hd1 & Hw1 & En1 & Es1 & Enm & Ea & _).
  cbn [visits]. rewrite E. cbn [mbind option_bind snd].
  destruct (IH t1 r1) as (t' & r' & E' & Hr' & Ea'); try done.
  - rewrite En1, Es1. rewrite <- Hk. by apply find_wof_stream_size.
  - by rewrite Es1.
  - rewrite Ea. unfold saturating_add_u64, U64_MAX. lia.
  - exists t', r'. split; [done |]. split; [done |]. rewrite Ea', Ea. unfold saturating_add_u64. rewrite Nat2Z.inj_succ. lia.
Qed.

(** A file of 4,096 bytes allocated and one stream of 512, visited twice. *)
Definition sample_wof_index : MftIndex :=
  let stream := {| st_size := {| sz_length := 400; sz_allocated := 512 |}; st_next := NO_ENTRY;
                   st_name := IndexNameRef_new 0 17 true 0; st_flags := 32 |} in
  let r := set_reparse_tag WOF_TAG (set_first_stream
             {| st_size := {| sz_length := 9000; sz_allocated := 4096 |}; st_next := 0; st_name := no_name; st_flags := 32 |}
             (FileRecord_new_unified 40)) in
  with_names WOF_NAME (with_streams [stream] (with_records [r] (with_frs_to_idx (zrepeat NO_ENTRY 40 ++ [0]) (MftIndex_new 67)))).

Lemma wof_allocation_accumulates_witness :
  exists t' r', visits 2 0 0 0 1 {| tt_index := sample_wof_index; tt_seen := [false]; tt_depth := 0 |} = Some t' /\
    zget t'.(tt_index).(ix_records) 0 = Some r' /\ sz_allocated (st_size (fr_first_stream r')) = 4096 + 2 * 512.
Proof.
  destruct (wof_allocation_accumulates 2 0 0 0 1 {| tt_index := sample_wof_index; tt_seen := [false]; tt_depth := 0 |}
    (hd (FileRecord_new 0) (ix_records sample_wof_index)) 0 (hd no_stream (ix_streams sample_wof_index))) as (t' & r' & E & Hr & Ea);
    try (vm_compute; reflexivity); try (vm_compute; split; [discriminate | reflexivity]); [vm_compute; discriminate .. |].
  exists t', r'. split; [exact E |]. split; [exact Hr |]. rewrite Ea. vm_compute. reflexivity.
Defined.

(** * The metrics of a tree *)

Definition metrics (r : FileRecord) : Z * Z * Z := (r.(fr_descendants), r.(fr_treesize), r.(fr_tree_allocated)).
Definition strip (r : FileRecord) : FileRecord := set_tree_metrics 0 0 0 r.

(** The child entries of a record, in the order of its list. *)
Definition entries (ix : MftIndex) (r : FileRecord) : list ChildInfo :=
  follow (S (length ix.(ix_children))) ix.(ix_children) r.(fr_first_child).

(** The visits of the traversal from a record: its position, its share and its names. *)
Fixpoint visited (fuel : nat) (ix : MftIndex) (i info names : Z) : list (Z * Z * Z) :=
  match fuel with
  | O => []
  | S fuel =>
      match zget ix.(ix_records) i with
      | None => []
      | Some r =>
          (i, info, Z.max names 1) ::
          (if is_directory r then
             concat (map (fun ce =>
               match (let? j := frs_to_idx_opt ce.(ch_child_frs) ix in let? child := zget ix.(ix_records) j in Some (j, child)) with
               | Some (j, child) => visited fuel ix j (compute_name_info_checked ce.(ch_name_index) child.(fr_name_count)) (Z.max child.(fr_name_count) 1)
               | None => []
               end) (entries ix r))
           else [])
      end
  end.

(** What one visit contributes: the shares of the record's streams, and their number. *)
Definition own_of (ix : MftIndex) (x : Z * Z * Z) : Z * Z :=
  match zget ix.(ix_records) x.1.1 with
  | Some r => accumulate_own_streams ix r r.(fr_first_stream).(st_size).(sz_allocated) NO_ENTRY x.1.2 x.2
  | None => (0, 0)
  end.
Definition streams_of (ix : MftIndex) (x : Z * Z * Z) : Z :=
  match zget ix.(ix_records) x.1.1 with Some r => Z.max r.(fr_total_stream_count) 1 | None => 0 end.

Definition lengths (ix : MftIndex) (l : list (Z * Z * Z)) : Z := total (map (fun x => (own_of ix x).1) l).
Definition allocations (ix : MftIndex) (l : list (Z * Z * Z)) : Z := total (map (fun x => (own_of ix x).2) l).
Definition stream_counts (ix : MftIndex) (l : list (Z * Z * Z)) : Z := total (map (streams_of ix) l).

(** The sums over a list of visits, saturated once. *)
Definition agg_of (ix : MftIndex) (l : list (Z * Z * Z)) : Agg :=
  {| ag_length := Z.min U64_MAX (lengths ix l); ag_allocated := Z.min U64_MAX (allocations ix l);
     ag_treesize := Z.min U32_MAX (stream_counts ix l) |}.

(** What is printed for a record: a directory has the sums over the visits below it. *)
Definition printed (fuel : nat) (ix : MftIndex) (extra i : Z) : Z * Z * Z :=
  match zget ix.(ix_records) i with
  | None => (0, 0, 0)
  | Some r =>
      let len := r.(fr_first_stream).(st_size).(sz_length) in
      let alloc := r.(fr_first_stream).(st_size).(sz_allocated) in
      if is_directory r then
        let below := tail (visited fuel ix i 0 1) in
        (Z.min U32_MAX (stream_counts ix below + 1), Z.min U64_MAX (lengths ix below + len),
         Z.min U64_MAX (allocations ix below + extra + alloc))
      else (0, len, alloc)
  end.

(** Sizes as they are read, unsigned. *)
Definition size_ok (s : SizeInfo) : Prop := 0 <= s.(sz_length) /\ 0 <= s.(sz_allocated).
Record sizes_ok (ix : MftIndex) : Prop := {
  sizes_first : Forall (fun r => size_ok r.(fr_first_stream).(st_size) /\
    0 <= r.(fr_internal_streams_size) /\ 0 <= r.(fr_internal_streams_allocated)) ix.(ix_records);
  sizes_streams : Forall (fun s => size_ok s.(st_size)) ix.(ix_streams);
  sizes_internal : Forall (fun s => size_ok s.(in_size)) ix.(ix_internal_streams);
}.

Definition no_wof (ix : MftIndex) : Prop := Forall (fun r => r.(fr_reparse_tag) <> WOF_TAG) ix.(ix_records).

(** No directory is below itself: the entries of a directory lead to lower ranks. *)
Definition ranked (ix : MftIndex) (rank : Z -> nat) : Prop :=
  forall i r ce j, zget ix.(ix_records) i = Some r -> is_directory r = true -> ce ∈ entries ix r ->
    frs_to_idx_opt ce.(ch_child_frs) ix = Some j -> (rank j < rank i)%nat.

Definition pair_ok (p : Z * Z) : Prop := 0 <= p.1 /\ 0 <= p.2.

Lemma delta_nonneg v i n : 0 <= v -> 0 <= delta v i n.
Proof. intros H. unfold delta. destruct (_ <=? 1); [done |]. apply u64_range. Qed.

Lemma add_shares_ok i n own s : pair_ok own -> size_ok s -> pair_ok (add_shares i n own s).
Proof.
  intros [H1 H2] [H3 H4]. unfold pair_ok, add_shares, saturating_add_u64, U64_MAX. cbn [fst snd].
  pose proof (delta_nonneg _ i n H3). pose proof (delta_nonneg _ i n H4). lia.
Qed.

Lemma add_internal_shares_ok fuel ix i n idx own : sizes_ok ix -> pair_ok own -> pair_ok (add_internal_shares fuel ix i n idx own).
Proof.
  intros Hs. revert idx own. induction fuel as [|fuel IH]; intros idx own Ho; [done |]. cbn [add_internal_shares].
  destruct (_ =? _); [done |]. destruct (zget _ idx) as [s|] eqn:E; [|done]. apply IH, add_shares_ok; [done |].
  pose proof (sizes_internal _ Hs) as H. rewrite Forall_forall in H. apply (H s). by eapply zget_elem.
Qed.

Lemma add_stream_shares_ok fuel ix i n w idx own : sizes_ok ix -> pair_ok own -> pair_ok (add_stream_shares fuel ix i n w idx own).
Proof.
  intros Hs. revert idx own. induction fuel as [|fuel IH]; intros idx own Ho; [done |]. cbn [add_stream_shares].
  destruct (_ =? NO_ENTRY); [done |]. destruct (zget _ idx) as [s|] eqn:E; [|done]. apply IH, add_shares_ok; [done |].
  destruct (_ =? w); [by split |]. pose proof (sizes_streams _ Hs) as H. rewrite Forall_forall in H. apply (H s). by eapply zget_elem.
Qed.

Lemma own_of_ok ix x : sizes_ok ix -> pair_ok (own_of ix x).
Proof.
  intros Hs. unfold own_of. destruct (zget _ _) as [r|] eqn:E; [|by split]. unfold accumulate_own_streams.
  pose proof (sizes_first _ Hs) as H. rewrite Forall_forall in H. destruct (H r (zget_elem _ _ _ E)) as ([H1 H2] & H3 & H4).
  assert (Ho : forall a b c, 0 <= a -> 0 <= b -> pair_ok (delta a c x.2, delta b c x.2)) by (intros; split; by apply delta_nonneg).
  apply add_stream_shares_ok; [done |]. destruct (_ && _); [apply add_internal_shares_ok; [done | by apply Ho] |].
  destruct (_ || _); [apply add_shares_ok; [by apply Ho | by split] | by apply Ho].
Qed.

Lemma sums_ok ix l : sizes_ok ix -> 0 <= lengths ix l /\ 0 <= allocations ix l /\ 0 <= stream_counts ix l.
Proof.
  intros Hs. repeat split; apply total_nonneg, Forall_map, Forall_forall; intros x _; try apply (own_of_ok ix x Hs).
  unfold streams_of. destruct (zget _ _); lia.
Qed.

Lemma agg_of_app ix a b : sizes_ok ix -> agg_of ix (a ++ b) = add_agg (agg_of ix a) (agg_of ix b).
Proof.
  intros Hs. destruct (sums_ok ix a Hs) as (A1 & A2 & A3), (sums_ok ix b Hs) as (B1 & B2 & B3).
  unfold agg_of, add_agg, saturating_add_u64, saturating_add_u32. cbn [ag_length ag_allocated ag_treesize].
  unfold lengths, allocations, stream_counts in *. rewrite !map_app, !total_app. unfold U64_MAX, U32_MAX. f_equal; lia.
Qed.

Lemma agg_of_cons ix x l : sizes_ok ix ->
  agg_of ix (x :: l) = add_agg (agg_of ix l) {| ag_length := (own_of ix x).1; ag_allocated := (own_of ix x).2; ag_treesize := streams_of ix x |}.
Proof.
  intros Hs. destruct (sums_ok ix l Hs) as (B1 & B2 & B3). destruct (own_of_ok ix x Hs) as [O1 O2].
  assert (O3 : 0 <= streams_of ix x) by (unfold streams_of; destruct (zget _ _); lia).
  unfold agg_of, add_agg, saturating_add_u64, saturating_add_u32. cbn [ag_length ag_allocated ag_treesize].
  unfold lengths, allocations, stream_counts in *. cbn [map total foldr].
  fold (total (map (fun x => (own_of ix x).1) l)) (total (map (fun x => (own_of ix x).2) l)) (total (map (streams_of ix) l)).
  unfold U64_MAX, U32_MAX. f_equal; lia.
Qed.

(** The visits do not depend on the fuel above the rank, and those below a record not on
    its share. *)
Lemma visited_fuel ix rank fuel fuel' i info names :
  ranked ix rank -> (rank i < fuel)%nat -> (rank i < fuel')%nat -> visited fuel ix i info names = visited fuel' ix i info names.
Proof.
  intros Hrk. revert fuel' i info names. induction fuel as [|fuel IH]; intros fuel' i info names Hf Hf'; [lia |].
  destruct fuel' as [|fuel']; [lia |]. cbn [visited]. destruct (zget (ix_records ix) i) as [r|] eqn:Er; [|done]. f_equal.
  destruct (is_directory r) eqn:Ed; [|done]. f_equal. apply map_ext_in. intros ce Hce%list_elem_of_In.
  destruct (frs_to_idx_opt (ch_child_frs ce) ix) as [j|] eqn:Ej; [|done]. cbn [mbind option_bind].
  destruct (zget (ix_records ix) j) as [child|]; [|done]. cbn [mbind option_bind].
  pose proof (Hrk i r ce j Er Ed Hce Ej). apply IH; lia.
Qed.

Lemma visited_tail fuel ix i info names info' names' : tail (visited fuel ix i info names) = tail (visited fuel ix i info' names').
Proof. destruct fuel; [done |]. cbn [visited]. by destruct (zget _ _). Qed.

(** * The traversal of a tree *)

Lemma chain_follow_cells {A} `{Linked A} (l : list A) h cells fuel :
  chain l h cells -> (length cells < fuel)%nat -> follow fuel l h = omap (zget l) cells.
Proof.
  intros Hc. revert fuel. induction Hc as [|h x cells Hh Hx _ IH]; intros [|fuel] Hf; [cbn in Hf; lia | done | cbn in Hf; lia |].
  cbn [follow omap list_omap]. rewrite (proj2 (Z.eqb_neq _ _) Hh), Hx. f_equal. apply IH. cbn in Hf. lia.
Qed.

Lemma strip_eq r r' : strip r' = strip r -> r' = set_tree_metrics r'.(fr_descendants) r'.(fr_treesize) r'.(fr_tree_allocated) r.
Proof. destruct r, r'. unfold strip, set_tree_metrics. cbn. intros [=]. subst. reflexivity. Qed.

Lemma own_streams_same rs ix r alloc w info names :
  accumulate_own_streams (with_records rs ix) r alloc w info names = accumulate_own_streams ix r alloc w info names.
Proof.
  assert (Ei : forall fuel idx own, add_internal_shares fuel (with_records rs ix) info names idx own = add_internal_shares fuel ix info names idx own).
  { intros fuel. induction fuel as [|fuel IH]; intros idx own; [done |]. cbn [add_internal_shares]. destruct (_ =? _); [done |].
    change (ix_internal_streams (with_records rs ix)) with (ix_internal_streams ix). destruct (zget _ _); [apply IH | done]. }
  assert (Es : forall fuel idx own, add_stream_shares fuel (with_records rs ix) info names w idx own = add_stream_shares fuel ix info names w idx own).
  { intros fuel. induction fuel as [|fuel IH]; intros idx own; [done |]. cbn [add_stream_shares]. destruct (idx =? NO_ENTRY); [done |].
    change (ix_streams (with_records rs ix)) with (ix_streams ix). destruct (zget _ _); [apply IH | done]. }
  unfold accumulate_own_streams. rewrite Es. by rewrite Ei.
Qed.

Definition positions (l : list (Z * Z * Z)) : list Z := map (fun x => x.1.1) l.

Section tree.
Context (ix : MftIndex) (rank : Z -> nat) (F : nat).
Context (Hwf : index_wf ix) (Hsizes : sizes_ok ix) (Hwof : no_wof ix) (Hranked : ranked ix rank).
Context (HF : forall i, (rank i < F)%nat).

Definition same_but_metrics (ix' : MftIndex) : Prop :=
  exists rs, ix' = with_records rs ix /\ map strip rs = map strip ix.(ix_records).

Lemma same_get ix' i r : same_but_metrics ix' -> zget ix.(ix_records) i = Some r ->
  exists d s a, zget ix'.(ix_records) i = Some (set_tree_metrics d s a r).
Proof.
  intros (rs & -> & E) Hr. cbn. assert (Es : zget (map strip rs) i = Some (strip r)) by (rewrite E, zget_map, Hr; done).
  rewrite zget_map in Es. destruct (zget rs i) as [r'|]; [|done]. cbn in Es. apply (inj Some) in Es. eexists _, _, _. by rewrite <- (strip_eq _ _ Es).
Qed.

Lemma same_None ix' i : same_but_metrics ix' -> zget ix.(ix_records) i = None -> zget ix'.(ix_records) i = None.
Proof.
  intros (rs & -> & E) Hr. cbn. assert (Es : zget (map strip rs) i = None) by (rewrite E, zget_map, Hr; done).
  rewrite zget_map in Es. by destruct (zget rs i).
Qed.

Lemma same_update ix' i r d s a f :
  same_but_metrics ix' -> zget ix'.(ix_records) i = Some (set_tree_metrics d s a r) ->
  strip (f (set_tree_metrics d s a r)) = strip r ->
  exists ix'', update_record i f ix' = Some ix'' /\ same_but_metrics ix'' /\
    (forall p, zget ix''.(ix_records) p = if decide (p = i) then Some (f (set_tree_metrics d s a r)) else zget ix'.(ix_records) p).
Proof.
  intros (rs & -> & E) Hr Hf. rewrite (update_record_spec _ _ _ _ Hr). eexists. split; [done |]. cbn in Hr. cbn [ix_records with_records].
  split.
  - exists (<[Z.to_nat i := f (set_tree_metrics d s a r)]> rs). split; [done |]. rewrite <- E.
    rewrite heads_insert, Hf. apply list_insert_id. apply zget_Some in Hr as [_ Hr]. by rewrite list_lookup_fmap, Hr.
  - intros p. destruct (decide (p = i)) as [-> | Hne]; [by eapply insert_zget |].
    apply zget_Some in Hr as [Hi _]. rewrite <- zset_insert by done. by apply zget_zset_ne.
Qed.

Definition metrics_at (t : TreeTraversal) (p : Z) : option (Z * Z * Z) := metrics <$> zget t.(tt_index).(ix_records) p.

(** After the visits [l]: every visited record has its metrics, the others what they had. *)
Record visited_all (l : list (Z * Z * Z)) (t t' : TreeTraversal) : Prop := {
  va_same : same_but_metrics t'.(tt_index);
  va_depth : t'.(tt_depth) = t.(tt_depth);
  va_metrics : forall p, metrics_at t' p = if bool_decide (p ∈ positions l) then Some (printed F ix 0 p) else metrics_at t p;
  va_length : zlen t'.(tt_seen) = zlen t.(tt_seen);
  va_seen : forall p, zget t'.(tt_seen) p = if bool_decide (p ∈ positions l) then Some true else zget t.(tt_seen) p;
}.

Lemma visited_all_nil t : same_but_metrics t.(tt_index) -> visited_all [] t t.
Proof. intros H. split; try done; intros p; by rewrite bool_decide_eq_false_2 by (by intros ?%elem_of_nil). Qed.

Lemma visited_all_app l1 l2 t t1 t2 : visited_all l1 t t1 -> visited_all l2 t1 t2 -> visited_all (l1 ++ l2) t t2.
Proof.
  intros [A1 A2 A3 A4 A5] [B1 B2 B3 B4 B5]. split; [done | congruence | | congruence |]; intros p;
    rewrite ?B3, ?A3, ?B5, ?A5; unfold positions; rewrite map_app; repeat case_bool_decide; try done; exfalso; set_solver.
Qed.

(** The visits below an entry. *)
Definition below_entry (fuel : nat) (ce : ChildInfo) : list (Z * Z * Z) :=
  match (let? j := frs_to_idx_opt ce.(ch_child_frs) ix in let? child := zget ix.(ix_records) j in Some (j, child)) with
  | Some (j, child) => visited fuel ix j (compute_name_info_checked ce.(ch_name_index) child.(fr_name_count)) (Z.max child.(fr_name_count) 1)
  | None => []
  end.

Lemma lookup_child f j : frs_to_idx_opt f ix = Some j -> exists r, zget ix.(ix_records) j = Some r.
Proof.
  intros E. unfold frs_to_idx_opt in E. destruct (zget (ix_frs_to_idx ix) (frs_to_usize f)) as [k|] eqn:Ek; [|done]. cbn in E.
  destruct (Z.eqb_spec k NO_ENTRY); [done |]. injection E as ->. destruct Hwf as [[H1 _] _]. destruct (H1 _ _ Ek n) as (r & Hr & _). by exists r.
Qed.

Lemma entries_chain i r : zget ix.(ix_records) i = Some r ->
  exists cells, chain ix.(ix_children) r.(fr_first_child) cells /\ (length cells <= length ix.(ix_children))%nat /\
    entries ix r = omap (zget ix.(ix_children)) cells.
Proof.
  intros Hr. apply zget_Some in Hr as [_ Hk]. destruct Hwf as [_ (ol & os & oi & oc & Hl)].
  destruct (owned_length _ _ _ _ _ (ok_children _ _ _ _ _ Hl) (heads_lookup fr_first_child _ _ _ Hk)) as (cells & Hcells & Hch).
  pose proof (own_length _ _ _ _ _ (ok_children _ _ _ _ _ Hl) Hcells). exists cells. split; [done |]. split; [done |].
  apply (chain_follow_cells _ _ cells); [done | lia].
Qed.

(** What the recursion promises at a record. *)
Definition pre_exact (fuel : nat) : Prop :=
  forall i r info names t, (rank i < fuel)%nat -> zget ix.(ix_records) i = Some r -> same_but_metrics t.(tt_index) ->
    zlen t.(tt_seen) = zlen ix.(ix_records) -> 1 <= t.(tt_depth) -> t.(tt_depth) + Z.of_nat fuel < U32_MAX ->
    exists t', preprocess fuel i info names t = Some (agg_of ix (visited fuel ix i info names), t') /\
      visited_all (visited fuel ix i info names) t t'.

Lemma children_loop_exact fuel h cells l t fc :
  pre_exact fuel -> chain ix.(ix_children) h cells -> (length cells < fc)%nat -> same_but_metrics t.(tt_index) ->
  zlen t.(tt_seen) = zlen ix.(ix_records) -> 1 <= t.(tt_depth) -> t.(tt_depth) + Z.of_nat fuel < U32_MAX ->
  (forall ce j, ce ∈ omap (zget ix.(ix_children)) cells -> frs_to_idx_opt ce.(ch_child_frs) ix = Some j -> (rank j < fuel)%nat) ->
  exists t', children_loop (preprocess fuel) fc h (agg_of ix l) t =
      Some (agg_of ix (l ++ concat (map (below_entry fuel) (omap (zget ix.(ix_children)) cells))), t') /\
    visited_all (concat (map (below_entry fuel) (omap (zget ix.(ix_children)) cells))) t t'.
Proof.
  intros Hpre Hc. revert l t fc. induction Hc as [|h ce cells Hh Hce _ IH]; intros l t fc Hf Hs Hlen Hd1 Hd2 Hrk; (destruct fc as [|fc]; [cbn in Hf; lia |]).
  { cbn. rewrite app_nil_r. exists t. split; [done |]. by apply visited_all_nil. }
  cbn [children_loop]. rewrite (proj2 (Z.eqb_neq _ _) Hh).
  assert (Ech : ix_children (tt_index t) = ix_children ix) by (by destruct Hs as (rs & -> & _)).
  assert (Elk : forall f, frs_to_idx_opt f (tt_index t) = frs_to_idx_opt f ix) by (by destruct Hs as (rs & -> & _)).
  rewrite Ech, Hce. cbn [mbind option_bind]. rewrite Elk. cbn [omap list_omap] in *. rewrite Hce in *. cbn [map concat].
  destruct (frs_to_idx_opt (ch_child_frs ce) ix) as [j|] eqn:Ej.
  - destruct (lookup_child _ _ Ej) as [child Hchild]. destruct (same_get _ _ _ Hs Hchild) as (d & s & a & Hchild').
    rewrite Hchild'. cbn [mbind option_bind]. change (fr_name_count (set_tree_metrics d s a child)) with (fr_name_count child).
    destruct (Hpre j child (compute_name_info_checked (ch_name_index ce) (fr_name_count child)) (Z.max (fr_name_count child) 1) t) as (t1 & E1 & V1);
      try done; [apply (Hrk ce); [by apply elem_of_cons; left | done] |].
    rewrite E1. cbn [mbind option_bind fst snd]. rewrite <- agg_of_app by done.
    assert (Ebe : below_entry fuel ce = visited fuel ix j (compute_name_info_checked (ch_name_index ce) (fr_name_count child)) (Z.max (fr_name_count child) 1)).
    { unfold below_entry. rewrite Ej. cbn [mbind option_bind]. rewrite Hchild. done. }
    rewrite <- Ebe in *.
    destruct (IH (l ++ below_entry fuel ce) t1 fc) as (t' & E' & V'); [cbn in Hf; lia | apply V1 | by rewrite (va_length _ _ _ V1) | by rewrite (va_depth _ _ _ V1) | by rewrite (va_depth _ _ _ V1) | |].
    { intros ce' j' Hin. apply (Hrk ce'). by apply elem_of_cons; right. }
    exists t'. split; [rewrite app_assoc; exact E' | by eapply visited_all_app].
  - assert (Ebe : below_entry fuel ce = []) by (unfold below_entry; by rewrite Ej). rewrite Ebe. cbn [app].
    apply IH; try done; [cbn in Hf; lia |]. intros ce' j' Hin. apply (Hrk ce'). by apply elem_of_cons; right.
Qed.

Lemma visited_step fuel i r info names :
  zget ix.(ix_records) i = Some r ->
  visited (S fuel) ix i info names =
    (i, info, Z.max names 1) :: (if is_directory r then concat (map (below_entry fuel) (entries ix r)) else []).
Proof. intros Hr. cbn [visited]. by rewrite Hr. Qed.

Lemma below_tail fuel i r info names :
  zget ix.(ix_records) i = Some r -> (rank i < S fuel)%nat ->
  (if is_directory r then concat (map (below_entry fuel) (entries ix r)) else []) = tail (visited F ix i info names).
Proof.
  intros Hr Hf. rewrite (visited_tail F ix i info names 0 1).
  rewrite <- (visited_fuel ix rank (S fuel) F) by done. by rewrite (visited_step fuel i r) by done.
Qed.

Definition below_agg (i extra : Z) : Agg :=
  let l := tail (visited F ix i 0 1) in
  {| ag_length := ag_length (agg_of ix l); ag_allocated := Z.min U64_MAX (allocations ix l + extra); ag_treesize := ag_treesize (agg_of ix l) |}.

(** The record itself, after its children. *)
Lemma record_step i r t1 extra :
  zget ix.(ix_records) i = Some r -> same_but_metrics t1.(tt_index) -> 0 <= extra ->
  exists ix2, store_printed_metrics i (is_directory r) (if is_directory r then below_agg i extra else no_agg)
      r.(fr_first_stream).(st_size).(sz_length) r.(fr_first_stream).(st_size).(sz_allocated) t1.(tt_index) = Some ix2 /\
    same_but_metrics ix2 /\
    (forall p, metrics_at (with_index ix2 t1) p = if decide (p = i) then Some (printed F ix extra i) else metrics_at t1 p).
Proof.
  intros Hr Hs Hex. destruct (same_get _ _ _ Hs Hr) as (d1 & s1 & a1 & Hr1).
  pose proof (sizes_first _ Hsizes) as Hsz. rewrite Forall_forall in Hsz. destruct (Hsz r (zget_elem _ _ _ Hr)) as ([Hl Ha] & _).
  destruct (sums_ok ix (tail (visited F ix i 0 1)) Hsizes) as (B1 & B2 & B3).
  unfold store_printed_metrics.
  match goal with |- context [update_record i ?f _] => destruct (same_update _ i r d1 s1 a1 f Hs Hr1) as (ix2 & E2 & S2 & G2) end.
  { destruct (is_directory r); done. }
  exists ix2. split; [exact E2 |]. split; [done |]. intros p. unfold metrics_at. cbn [tt_index with_index]. rewrite G2.
  destruct (decide (p = i)) as [-> |]; [|done]. cbn [fmap option_fmap option_map]. f_equal. unfold printed. rewrite Hr.
  destruct (is_directory r); [|done]. unfold metrics. cbn.
  unfold saturating_add_u32, saturating_add_u64, U32_MAX, U64_MAX in *. f_equal; [f_equal |]; lia.
Qed.

Lemma not_below fuel i r ce x :
  zget ix.(ix_records) i = Some r -> is_directory r = true -> ce ∈ entries ix r -> x ∈ below_entry fuel ce -> (rank x.1.1 < rank i)%nat.
Proof.
  intros Hr Hd Hce. unfold below_entry. destruct (frs_to_idx_opt (ch_child_frs ce) ix) as [j|] eqn:Ej; [|by intros ?%elem_of_nil].
  cbn [mbind option_bind]. destruct (lookup_child _ _ Ej) as [child Hchild]. rewrite Hchild. cbn [mbind option_bind].
  pose proof (Hranked i r ce j Hr Hd Hce Ej) as Hlt.
  enough (Hle : forall fuel j info names x, x ∈ visited fuel ix j info names -> (rank x.1.1 <= rank j)%nat) by (intros Hx; specialize (Hle _ _ _ _ _ Hx); lia).
  clear - Hranked. intros fuel. induction fuel as [|fuel IH]; intros j info names x Hx; [by apply elem_of_nil in Hx |].
  destruct (zget (ix_records ix) j) as [r|] eqn:Er; [|cbn [visited] in Hx; rewrite Er in Hx; by apply elem_of_nil in Hx].
  rewrite (visited_step fuel j r) in Hx by done. apply elem_of_cons in Hx as [-> | Hx]; [done |]. destruct (is_directory r) eqn:Ed; [|by apply elem_of_nil in Hx].
  apply list_elem_of_In in Hx. apply in_concat in Hx as (l & Hl & Hx). apply in_map_iff in Hl as (ce & <- & Hce).
  apply list_elem_of_In in Hx, Hce. unfold below_entry in Hx. destruct (frs_to_idx_opt (ch_child_frs ce) ix) as [k|] eqn:Ek; [|by apply elem_of_nil in Hx].
  cbn [mbind option_bind] in Hx. destruct (zget (ix_records ix) k) as [child|]; [|by apply elem_of_nil in Hx]. cbn [mbind option_bind] in Hx.
  pose proof (Hranked j r ce k Er Ed Hce Ek). specialize (IH _ _ _ _ Hx). lia.
Qed.

Lemma not_below_self i info names : ~ i ∈ positions (tail (visited F ix i info names)).
Proof.
  pose proof (HF i) as Hi. destruct F as [|f] eqn:Ef; [lia |]. cbn [visited]. destruct (zget (ix_records ix) i) as [r|] eqn:Er; [|by intros ?%elem_of_nil].
  cbn [tail]. destruct (is_directory r) eqn:Ed; [|by intros ?%elem_of_nil]. unfold positions. rewrite list_elem_of_fmap. intros (x & Ex & Hx).
  apply list_elem_of_In in Hx. apply in_concat in Hx as (l & Hl & Hx). apply in_map_iff in Hl as (ce & <- & Hce).
  apply list_elem_of_In in Hx, Hce. pose proof (not_below f i r ce x Er Ed Hce Hx). rewrite <- Ex in *. lia.
Qed.

(** The reserved clusters are counted at depth zero. *)
Definition extra_at (t : TreeTraversal) (r : FileRecord) : Z :=
  if is_directory r && (t.(tt_depth) =? 0) then ix.(ix_reserved_allocated_bytes) else 0.

Lemma aggregate_exact fuel i r t :
  pre_exact fuel -> zget ix.(ix_records) i = Some r -> is_directory r = true -> (rank i < S fuel)%nat ->
  same_but_metrics t.(tt_index) -> zlen t.(tt_seen) = zlen ix.(ix_records) -> 0 <= t.(tt_depth) ->
  t.(tt_depth) + Z.of_nat (S fuel) < U32_MAX -> 0 <= ix.(ix_reserved_allocated_bytes) ->
  exists t1, aggregate_children (preprocess fuel) r.(fr_first_child) t = Some (below_agg i (extra_at t r), t1) /\
    visited_all (tail (visited F ix i 0 1)) t t1.
Proof.
  intros Hpre Hr Hd Hrk Hs Hlen H0 H1 Hres. destruct (entries_chain i r Hr) as (cells & Hch & Hle & Een).
  pose proof (below_tail fuel i r 0 1 Hr Hrk) as Et. rewrite Hd, Een in Et.
  unfold aggregate_children, saturating_add_u32. rewrite Z.min_r by (unfold U32_MAX in *; lia).
  assert (Ech : ix_children (tt_index t) = ix_children ix) by (by destruct Hs as (rs & -> & _)).
  cbn [tt_index with_depth]. rewrite Ech.
  destruct (children_loop_exact fuel (fr_first_child r) cells [] (with_depth (t.(tt_depth) + 1) t) (S (length ix.(ix_children))))
    as (t1 & E1 & V1); cbn [tt_depth with_depth tt_index tt_seen]; try done; [lia | lia | lia | |].
  { intros ce j Hce Hj. rewrite <- Een in Hce. pose proof (Hranked i r ce j Hr Hd Hce Hj). lia. }
  change no_agg with (agg_of ix []). rewrite E1. cbn [mbind option_bind app].
  rewrite Et in *. pose proof (va_depth _ _ _ V1) as Ed. cbn in Ed. rewrite Ed.
  assert (Eres : ix_reserved_allocated_bytes (tt_index t1) = ix_reserved_allocated_bytes ix)
    by (by destruct (va_same _ _ _ V1) as (rs & E & _); rewrite E).
  cbn [tt_depth tt_index with_depth]. rewrite Eres. unfold saturating_sub. replace (Z.max 0 (tt_depth t + 1 - 1)) with (tt_depth t) by lia.
  exists (with_depth (tt_depth t) t1). split.
  - unfold below_agg, extra_at, saturating_add_u64. rewrite Hd. cbn [andb].
    destruct (sums_ok ix (tail (visited F ix i 0 1)) Hsizes) as (B1 & B2 & B3).
    destruct (Z.eqb_spec (tt_depth t) 0); cbn [andb].
    + destruct (Z.gtb_spec (ix_reserved_allocated_bytes ix) 0); cbn [agg_of ag_length ag_allocated ag_treesize].
      * do 3 f_equal. unfold U64_MAX. lia.
      * unfold agg_of. do 4 f_equal. lia.
    + unfold agg_of. cbn [agg_of ag_length ag_allocated ag_treesize]. do 4 f_equal. lia.
  - destruct V1 as [V1 V2 V3 V4 V5]. by split.
Qed.

(** One visit, at any depth. *)
Lemma preprocess_step fuel i r info names t :
  pre_exact fuel -> zget ix.(ix_records) i = Some r -> (rank i < S fuel)%nat ->
  same_but_metrics t.(tt_index) -> zlen t.(tt_seen) = zlen ix.(ix_records) -> 0 <= t.(tt_depth) ->
  t.(tt_depth) + Z.of_nat (S fuel) < U32_MAX -> 0 <= ix.(ix_reserved_allocated_bytes) ->
  exists t', preprocess (S fuel) i info names t =
      Some (add_agg (below_agg i (extra_at t r)) {| ag_length := (own_of ix (i, info, Z.max names 1)).1;
              ag_allocated := (own_of ix (i, info, Z.max names 1)).2; ag_treesize := streams_of ix (i, info, Z.max names 1) |}, t') /\
    same_but_metrics t'.(tt_index) /\ t'.(tt_depth) = t.(tt_depth) /\ zlen t'.(tt_seen) = zlen t.(tt_seen) /\
    (forall p, metrics_at t' p = if decide (p = i) then Some (printed F ix (extra_at t r) i)
       else if bool_decide (p ∈ positions (tail (visited F ix i 0 1))) then Some (printed F ix 0 p) else metrics_at t p) /\
    (forall p, zget t'.(tt_seen) p =
       if bool_decide (p = i \/ p ∈ positions (tail (visited F ix i 0 1))) then Some true else zget t.(tt_seen) p).
Proof.
  intros Hpre Hr Hrk Hs Hlen H0 H1 Hres. destruct (same_get _ _ _ Hs Hr) as (d & s & a & Hr1). cbn [preprocess]. rewrite Hr1.
  assert (Hw : fr_reparse_tag r <> WOF_TAG) by (pose proof Hwof as Hw; unfold no_wof in Hw; rewrite Forall_forall in Hw; by apply Hw, (zget_elem _ i)).
  rewrite merge_no_wof by exact Hw. cbn [mbind option_bind].
  change (is_directory (set_tree_metrics d s a r)) with (is_directory r). change (fr_first_child (set_tree_metrics d s a r)) with (fr_first_child r).
  change (fr_first_stream (set_tree_metrics d s a r)) with (fr_first_stream r).
  change (fr_total_stream_count (set_tree_metrics d s a r)) with (fr_total_stream_count r).
  set (t0 := with_index (tt_index (see i t)) (see i t)).
  assert (Hc : exists t1, (if is_directory r then aggregate_children (preprocess fuel) (fr_first_child r) t0 else Some (no_agg, t0)) =
      Some (if is_directory r then below_agg i (extra_at t r) else no_agg, t1) /\ visited_all (tail (visited F ix i 0 1)) t0 t1).
  { destruct (is_directory r) eqn:Ed.
    - apply (aggregate_exact fuel i r t0); try done. cbn. by rewrite zlen_zset.
    - rewrite <- (below_tail fuel i r 0 1) by done. rewrite Ed. exists t0. split; [done |]. by apply visited_all_nil. }
  destruct Hc as (t1 & -> & V). cbn [mbind option_bind].
  destruct (record_step i r t1 (extra_at t r) Hr (va_same _ _ _ V)) as (ix2 & -> & S2 & G2).
  { unfold extra_at. by destruct (_ && _). }
  cbn [mbind option_bind]. exists (with_index ix2 t1). split; [|split; [done |]].
  - assert (Eo : accumulate_own_streams (tt_index t1) (set_tree_metrics d s a r) (sz_allocated (st_size (fr_first_stream r))) NO_ENTRY info
        (Z.max names 1) = own_of ix (i, info, Z.max names 1)).
    { destruct (va_same _ _ _ V) as (rs & -> & _). unfold own_of. cbn [fst snd]. rewrite Hr. exact (own_streams_same rs ix (set_tree_metrics d s a r) _ _ _ _). }
    rewrite Eo. unfold streams_of. cbn [fst snd]. rewrite Hr. destruct (is_directory r) eqn:Ed; [done |]. 
    unfold below_agg, extra_at. rewrite <- (below_tail fuel i r 0 1) by done. rewrite Ed. reflexivity.
  - split; [apply (va_depth _ _ _ V) |]. split; [cbn; rewrite (va_length _ _ _ V); cbn; by rewrite zlen_zset |]. split.
    + intros p. rewrite G2. destruct (decide (p = i)); [done |]. apply (va_metrics _ _ _ V).
    + intros p. cbn [tt_seen with_index]. rewrite (va_seen _ _ _ V). cbn [tt_seen with_index see t0].
      destruct (decide (p = i)) as [-> | Hne].
      * rewrite (bool_decide_eq_true_2 (i = i \/ _)) by (by left). case_bool_decide; [done |]. apply zget_zset_eq.
        rewrite Hlen. apply zget_Some in Hr as [Hi Hr]. apply lookup_lt_Some in Hr. unfold zlen. lia.
      * rewrite zget_zset_ne by done. repeat case_bool_decide; try done; naive_solver.
Qed.

Lemma pre_exact_all fuel : 0 <= ix.(ix_reserved_allocated_bytes) -> pre_exact fuel.
Proof.
  intros Hres. induction fuel as [|fuel IH]; intros i r info names t Hrk Hr Hs Hlen Hd Hb; [lia |].
  destruct (preprocess_step fuel i r info names t) as (t' & E & S' & D' & L' & M' & Z'); try done; [lia |].
  assert (Ex : extra_at t r = 0) by (unfold extra_at; rewrite (proj2 (Z.eqb_neq _ _)) by lia; by rewrite andb_false_r).
  assert (Ev : visited (S fuel) ix i info names = (i, info, Z.max names 1) :: tail (visited F ix i 0 1)).
  { rewrite (visited_step fuel i r) by done. by rewrite (below_tail fuel i r 0 1) by done. }
  exists t'. rewrite Ev. split.
  - rewrite E, agg_of_cons by done. unfold below_agg. rewrite Ex, Z.add_0_r. done.
  - rewrite Ex in M'. split; try done.
    + intros p. rewrite M'. cbn [positions map fst]. destruct (decide (p = i)) as [-> |].
      * rewrite bool_decide_eq_true_2; [done |]. by apply elem_of_cons; left.
      * repeat case_bool_decide; try done; set_solver.
    + intros p. rewrite Z'. cbn [positions map fst]. repeat case_bool_decide; try done; set_solver.
Qed.

(** ** The sweep *)

Definition seen_with (t : TreeTraversal) (p : Z) (m : Z * Z * Z) : Prop :=
  zget t.(tt_seen) p = Some true /\ metrics_at t p = Some m.

Record swept (t : TreeTraversal) : Prop := {
  sw_same : same_but_metrics t.(tt_index);
  sw_depth : t.(tt_depth) = 0;
  sw_length : zlen t.(tt_seen) = zlen ix.(ix_records);
  sw_seen : forall p, zget t.(tt_seen) p = Some true ->
    metrics_at t p = Some (printed F ix 0 p) \/
    metrics_at t p = Some (printed F ix ix.(ix_reserved_allocated_bytes) p);
}.

Definition orphan_free (i : Z) : Prop :=
  forall k r ce, zget ix.(ix_records) k = Some r -> is_directory r = true -> ce ∈ entries ix r -> frs_to_idx_opt ce.(ch_child_frs) ix <> Some i.

Lemma visited_entry fuel i info names x : orphan_free x -> x ∈ positions (visited fuel ix i info names) -> x = i.
Proof.
  intros Hx. revert i info names. induction fuel as [|fuel IH]; intros i info names H; [by apply elem_of_nil in H |].
  destruct (zget (ix_records ix) i) as [r|] eqn:Er; [|cbn [visited] in H; rewrite Er in H; by apply elem_of_nil in H].
  rewrite (visited_step fuel i r) in H by done. cbn [positions map fst] in H. apply elem_of_cons in H as [-> | H]; [done |]. exfalso.
  destruct (is_directory r) eqn:Ed; [|by apply elem_of_nil in H]. apply list_elem_of_fmap in H as (y & -> & Hy).
  apply list_elem_of_In in Hy. apply in_concat in Hy as (l & Hl & Hy). apply in_map_iff in Hl as (ce & <- & Hce).
  apply list_elem_of_In in Hy, Hce. unfold below_entry in Hy. destruct (frs_to_idx_opt (ch_child_frs ce) ix) as [j|] eqn:Ej; [|by apply elem_of_nil in Hy].
  cbn [mbind option_bind] in Hy. destruct (zget (ix_records ix) j) as [child|]; [|by apply elem_of_nil in Hy]. cbn [mbind option_bind] in Hy.
  apply (Hx i r ce Er Ed Hce). rewrite Ej. f_equal. symmetry. eapply IH. apply list_elem_of_fmap. by exists y.
Qed.

(** A visit of the sweep keeps what is exact, and makes its record and those below it. *)
Lemma swept_visit fuel i r info names t :
  swept t -> zget ix.(ix_records) i = Some r -> (rank i < S fuel)%nat -> Z.of_nat (S fuel) < U32_MAX ->
  0 <= ix.(ix_reserved_allocated_bytes) ->
  exists a t', preprocess (S fuel) i info names t = Some (a, t') /\ swept t' /\
    seen_with t' i (printed F ix (extra_at t r) i) /\
    (forall p, p ∈ positions (tail (visited F ix i 0 1)) -> seen_with t' p (printed F ix 0 p)) /\
    (forall p, p <> i -> seen_with t p (printed F ix 0 p) -> seen_with t' p (printed F ix 0 p)) /\
    (forall p m, p <> i -> orphan_free p -> seen_with t p m -> seen_with t' p m) /\
    (forall p, zget t.(tt_seen) p = Some true -> zget t'.(tt_seen) p = Some true).
Proof.
  intros [S1 S2 S3 S4] Hr Hrk Hb Hres.
  destruct (preprocess_step fuel i r info names t) as (t' & E & S' & D' & L' & M' & Z'); try done; [by apply pre_exact_all | lia | lia |].
  pose proof (not_below_self i 0 1) as Hself.
  eexists _, t'. split; [exact E |]. split; [split |]; try done; [congruence | congruence | |].
  - intros p Hp. rewrite M'. destruct (decide (p = i)) as [-> |].
    + unfold extra_at. destruct (_ && _); auto.
    + case_bool_decide as Hb'; [by left |]. apply S4. rewrite Z' in Hp. case_bool_decide as Ho; [naive_solver | done].
  - unfold seen_with. repeat split.
    + rewrite Z'. by rewrite bool_decide_eq_true_2 by (by left).
    + rewrite M'. by rewrite decide_True.
    + rewrite Z'. by rewrite bool_decide_eq_true_2 by (by right).
    + rewrite M'. rewrite decide_False by (intros ->; done). by rewrite bool_decide_eq_true_2.
    + rewrite Z'. destruct H0. by case_bool_decide.
    + rewrite M', decide_False by done. destruct H0. by case_bool_decide.
    + rewrite Z'. destruct H1. by case_bool_decide.
    + rewrite M', decide_False by done. destruct H1. rewrite bool_decide_eq_false_2; [done |]. intros Hin.
      apply H. apply (visited_entry F i 0 1); [done |]. unfold positions in *.
      destruct (visited F ix i 0 1); [by apply elem_of_nil in Hin |]. cbn [tail map] in *. apply elem_of_cons. by right.
    + intros p Hp. rewrite Z'. by case_bool_decide.
Qed.

Lemma sweep_exact fuel n idx t :
  (F <= S fuel)%nat -> Z.of_nat (S fuel) < U32_MAX -> 0 <= ix.(ix_reserved_allocated_bytes) ->
  swept t -> 0 <= idx -> idx + Z.of_nat n = zlen ix.(ix_records) ->
  exists t', sweep_orphans n (S fuel) idx t = Some t' /\ swept t' /\
    (forall p, idx <= p < idx + Z.of_nat n -> zget t'.(tt_seen) p = Some true) /\
    (forall p, zget t.(tt_seen) p = Some true -> zget t'.(tt_seen) p = Some true) /\
    (forall p, seen_with t p (printed F ix 0 p) -> seen_with t' p (printed F ix 0 p)) /\
    (forall p m, orphan_free p -> seen_with t p m -> seen_with t' p m).
Proof.
  intros HFf Hb Hres. revert idx t. induction n as [|n IH]; intros idx t Ht Hi Hn.
  { exists t. split; [done |]. split; [done |]. split; [lia |]. auto. }
  cbn [sweep_orphans]. destruct (zget_is_Some t.(tt_seen) idx) as [b Eb]; [rewrite (sw_length _ Ht); lia |].
  rewrite Eb. cbn [mbind option_bind]. destruct b.
  - destruct (IH (idx + 1) t) as (t' & E & W & A & B & C & D); try done; [lia | lia |]. exists t'. split; [done |]. split; [done |].
    split; [|done]. intros p Hp. destruct (decide (p = idx)) as [-> |]; [by apply B | apply A; lia].
  - destruct (zget_is_Some ix.(ix_records) idx) as [r Er]; [lia |].
    destruct (swept_visit fuel idx r 0 1 t) as (a & t1 & E1 & W1 & S1 & _ & K1 & K2 & K3); try done; [pose proof (HF idx); lia |].
    rewrite E1. cbn [mbind option_bind snd].
    destruct (IH (idx + 1) t1) as (t' & E & W & A & B & C & D); try done; [lia | lia |]. exists t'. split; [done |]. split; [done |].
    assert (Hne : forall p, zget t.(tt_seen) p = Some true -> p <> idx) by (intros p Hp ->; congruence).
    split; [|split; [|split]].
    + intros p Hp. destruct (decide (p = idx)) as [-> |]; [apply B, S1 | apply A; lia].
    + intros p Hp. by apply B, K3.
    + intros p Hp. apply C, K1; [apply Hne, Hp | done].
    + intros p m Ho Hp. apply D, K2; [done | apply Hne, Hp | done | done].
Qed.
End tree.

(** C8: the metrics computed for an index without a file compressed by the WOF driver
    ([no_wof]: no record has its reparse tag) whose directories are not below themselves.
    Enough stack is what the rank of the directories needs; nothing but the metrics changes;
    every record has the sums of the visits below it, and a record below the root exactly
    those, whatever the orphans do.  (For a WOF file the computation also changes the stored
    allocation, and adds the stream again at every visit: [wof_allocation_accumulates].) *)
Theorem tree_metrics_exact ix rank F fuel :
  index_wf ix -> sizes_ok ix -> no_wof ix -> ranked ix rank -> (forall i, (rank i < F)%nat) ->
  (F <= fuel)%nat -> Z.of_nat fuel < U32_MAX -> 0 <= ix.(ix_reserved_allocated_bytes) ->
  exists ix', compute_tree_metrics fuel false ix = Some ix' /\ same_but_metrics ix ix' /\
    (forall i r, zget ix.(ix_records) i = Some r ->
       metrics <$> zget ix'.(ix_records) i = Some (printed F ix 0 i) \/
       metrics <$> zget ix'.(ix_records) i = Some (printed F ix ix.(ix_reserved_allocated_bytes) i)) /\
    (forall root r, frs_to_idx_opt ROOT_FRS ix = Some root -> zget ix.(ix_records) root = Some r ->
       (forall p, p ∈ positions (tail (visited F ix root 0 1)) -> metrics <$> zget ix'.(ix_records) p = Some (printed F ix 0 p)) /\
       (orphan_free ix root -> metrics <$> zget ix'.(ix_records) root =
          Some (printed F ix (if is_directory r then ix.(ix_reserved_allocated_bytes) else 0) root))).
Proof.
  intros Hwf Hs Hw Hrk HF HFf Hb Hres. destruct fuel as [|fuel]; [pose proof (HF 0); lia |].
  set (t0 := {| tt_index := ix; tt_seen := zrepeat false (zlen (ix_records ix)); tt_depth := 0 |}).
  assert (W0 : swept ix F t0).
  { split; try done; [by exists ix.(ix_records); destruct ix | cbn; unfold zrepeat, zlen; rewrite length_replicate; lia |].
    intros p [_ Hp]%zget_Some. by apply lookup_replicate in Hp as []. }
  assert (Hroot : exists t1, traverse_from_root (S fuel) t0 = Some t1 /\ swept ix F t1 /\
    forall root r, frs_to_idx_opt ROOT_FRS ix = Some root -> zget ix.(ix_records) root = Some r ->
      seen_with t1 root (printed F ix (if is_directory r then ix.(ix_reserved_allocated_bytes) else 0) root) /\
      forall p, p ∈ positions (tail (visited F ix root 0 1)) -> seen_with t1 p (printed F ix 0 p)).
  { unfold traverse_from_root. change (tt_index t0) with ix. destruct (frs_to_idx_opt ROOT_FRS ix) as [root|] eqn:Er; [|by exists t0].
    destruct (lookup_child ix Hwf _ _ Er) as [r Hr].
    destruct (swept_visit ix rank F Hwf Hs Hw Hrk HF fuel root r 0 1 t0) as (a & t1 & E1 & W1 & S1 & K0 & _); try done; [pose proof (HF root); lia |].
    rewrite E1. cbn [mbind option_bind snd]. exists t1. split; [done |]. split; [done |]. intros root' r' [= <-] Hr'. rewrite Hr in Hr'. injection Hr' as <-.
    split; [|done]. unfold extra_at in S1. cbn [tt_depth t0] in S1. by rewrite andb_true_r in S1. }
  destruct Hroot as (t1 & E1 & W1 & R1).
  destruct (sweep_exact ix rank F Hwf Hs Hw Hrk HF fuel (length t1.(tt_index).(ix_records)) 0 t1) as (t' & E' & W' & A & B & C & D); try done.
  { destruct (sw_same _ _ _ W1) as (rs & -> & Er). cbn. apply (f_equal length) in Er. rewrite !length_map in Er. unfold zlen. lia. }
  exists t'.(tt_index). unfold compute_tree_metrics, run_traversal. fold t0. rewrite E1. cbn [mbind option_bind]. rewrite E'. split; [done |].
  split; [apply (sw_same _ _ _ W') |]. split.
  - intros i r Hr. apply (sw_seen _ _ _ W'), A. apply zget_Some in Hr as [Hi _].
    destruct (sw_same _ _ _ W1) as (rs & -> & Er). cbn. apply (f_equal length) in Er. rewrite !length_map in Er. unfold zlen in *. lia.
  - intros root r Er Hr. destruct (R1 root r Er Hr) as [R2 R3]. split.
    + intros p Hp. apply (C p (R3 p Hp)).
    + intros Ho. apply (D root _ Ho R2).
Qed.

(** The root directory with one file. *)
Definition sample_tree : option MftIndex :=
  let? p := process_record identity_lower sample_ab 40 (MftIndex_new 67) in
  let? q := process_record identity_lower (sample_directory 5 [0x2E]) 5 p.2 in Some q.2.

Lemma sample_tree_wf : exists ix, sample_tree = Some ix /\ index_wf ix.
Proof.
  unfold sample_tree.
  destruct (process_record_models identity_lower sample_ab 40 (MftIndex_new 67) {| vol_files := ∅; vol_ext := ExtensionTable_new |})
    as (ix1 & E1 & R1); [apply bytes_of_bool; vm_compute; reflexivity | unfold U64_MAX; lia | apply models_new | unfold room; vm_compute; repeat split |].
  destruct (process_record_models identity_lower (sample_directory 5 [0x2E]) 5 ix1 _ ltac:(apply bytes_of_bool; vm_compute; reflexivity)
    ltac:(unfold U64_MAX; lia) ltac:(apply R1)) as (ix2 & E2 & R2).
  { clear - E1. vm_compute in E1. injection E1 as <-. unfold room. vm_compute. repeat split. }
  rewrite E1. cbn [mbind option_bind snd]. rewrite E2. exists ix2. split; [done |]. apply (models_wf _ _ (reached_models _ _ _ _ R2)).
Qed.

Definition sample_rank (i : Z) : nat := if i =? 1 then 1 else 0.

Lemma sample_tree_ranked ix : sample_tree = Some ix -> sizes_ok ix /\ no_wof ix /\ ranked ix sample_rank /\ ix.(ix_reserved_allocated_bytes) = 0.
Proof.
  intros E. vm_compute in E. injection E as <-. split; [|split; [|split; [|reflexivity]]].
  - split; repeat constructor; cbn; lia.
  - repeat constructor; cbn; discriminate.
  - intros i r ce j Hr Hd Hce Hj. assert (Hi : i = 0 \/ i = 1) by (apply zget_Some in Hr as [Hi _]; unfold zlen in Hi; cbn [ix_records length] in Hi; lia).
    destruct Hi as [-> | ->]; vm_compute in Hr; injection Hr as <-; [vm_compute in Hd; discriminate |].
    apply list_elem_of_In in Hce. vm_compute in Hce. destruct Hce as [<- | []]. vm_compute in Hj. injection Hj as <-. apply Nat.lt_0_1.
Qed.

Lemma tree_metrics_exact_witness :
  exists ix ix', sample_tree = Some ix /\ compute_tree_metrics 2 false ix = Some ix' /\ same_but_metrics ix ix'.
Proof.
  destruct sample_tree_wf as (ix & E & Hwf). destruct (sample_tree_ranked ix E) as (Hs & Hw & Hr & Er).
  destruct (tree_metrics_exact ix sample_rank 2 2 Hwf Hs Hw Hr) as (ix' & E' & S' & _);
    [intros i; unfold sample_rank; destruct (i =? 1); lia | lia | unfold U32_MAX; lia | lia |].
  exists ix, ix'. split; [exact E | split; [exact E' | exact S']].
Defined.
