(* ===== verification/IndexPaths.v ===== *)
(** Paths over the MFT index: which records have a path ([PathResolver]), and the paths
    themselves, walked, cached and per hard link
    ([crates/uffs-mft/src/index/path_resolver.rs], [index/paths.rs]). *)
From S2P Require Import Prelude Text NtfsRecords NameCodec Arena MftIndex IndexViews RecordParser VolumeLinks MftTree.

Definition BACKSLASH : Z := 92.
Definition COLON : Z := 58.

Definition SYSTEM_METAFILE_MAX_FRS : Z := 15.

(** [path_state]. *)
Definition UNSEEN : Z := 0.
Definition VISITING : Z := 1.
Definition VALID : Z := 2.
Definition INVALID : Z := 3.

Record PathResolver := { pr_state : list Z; pr_volume : Z; pr_valid_count : Z; pr_invalid_count : Z }.

Definition set_state (idx s : Z) (r : PathResolver) : PathResolver :=
  {| pr_state := zset r.(pr_state) idx s; pr_volume := r.(pr_volume);
     pr_valid_count := r.(pr_valid_count); pr_invalid_count := r.(pr_invalid_count) |}.
Definition count_valid (r : PathResolver) : PathResolver :=
  {| pr_state := r.(pr_state); pr_volume := r.(pr_volume);
     pr_valid_count := u32 (r.(pr_valid_count) + 1); pr_invalid_count := r.(pr_invalid_count) |}.
Definition count_invalid (r : PathResolver) : PathResolver :=
  {| pr_state := r.(pr_state); pr_volume := r.(pr_volume);
     pr_valid_count := r.(pr_valid_count); pr_invalid_count := u32 (r.(pr_invalid_count) + 1) |}.

(** [*state = INVALID; invalid_count += 1]. *)
Definition mark_invalid (idx : Z) (r : PathResolver) : PathResolver := count_invalid (set_state idx INVALID r).

(** * Building the resolver *)

Definition is_system_metafile (r : FileRecord) : bool :=
  (r.(fr_frs) <=? SYSTEM_METAFILE_MAX_FRS) && negb (r.(fr_frs) =? ROOT_FRS).

(** The loop of [mark_system_metafiles_invalid] from position [idx]. *)
Fixpoint mark_system_from (records : list FileRecord) (idx : Z) (r : PathResolver) : PathResolver :=
  match records with
  | [] => r
  | rec :: records =>
      mark_system_from records (idx + 1)
        (if is_system_metafile rec then match zget r.(pr_state) idx with Some _ => mark_invalid idx r | None => r end else r)
  end.

Definition mark_system_metafiles_invalid (ix : MftIndex) (r : PathResolver) : PathResolver :=
  mark_system_from ix.(ix_records) 0 r.

(** One child entry: a record not seen yet becomes invalid and waits for its own children. *)
Definition mark_child (ix : MftIndex) (st : list Z * PathResolver) (ce : ChildInfo) : list Z * PathResolver :=
  match frs_to_idx_opt ce.(ch_child_frs) ix with
  | Some child_idx =>
      match zget st.2.(pr_state) child_idx with
      | Some s => if s =? UNSEEN then (st.1 ++ [child_idx], mark_invalid child_idx st.2) else st
      | None => st
      end
  | None => st
  end.

(** The loop over the children list of one record; [None] is a list longer than the fuel. *)
Fixpoint mark_children (fuel : nat) (ix : MftIndex) (child_entry : Z) (st : list Z * PathResolver)
    : option (list Z * PathResolver) :=
  match fuel with
  | O => None
  | S fuel =>
      if child_entry =? NO_ENTRY then Some st else
      match zget ix.(ix_children) child_entry with
      | Some child_info => mark_children fuel ix child_info.(ch_next) (mark_child ix st child_info)
      | None => Some st
      end
  end.

(** The queue of [propagate_invalid_to_descendants]. *)
Fixpoint propagate_loop (fuel : nat) (ix : MftIndex) (queue : list Z) (r : PathResolver) : option PathResolver :=
  match fuel with
  | O => None
  | S fuel =>
      match queue with
      | [] => Some r
      | parent_idx :: queue =>
          match zget ix.(ix_records) parent_idx with
          | Some record =>
              let? st := mark_children (S (length ix.(ix_children))) ix record.(fr_first_child) (queue, r) in
              propagate_loop fuel ix st.1 st.2
          | None => propagate_loop fuel ix queue r
          end
      end
  end.

Definition positions_of (s : Z) (states : list Z) : list Z :=
  List.filter (fun i => bool_decide (zget states i = Some s)) (seqZ 0 (zlen states)).

Definition propagate_invalid_to_descendants (ix : MftIndex) (r : PathResolver) : option PathResolver :=
  propagate_loop (S (length r.(pr_state))) ix (positions_of INVALID r.(pr_state)) r.

(** The inner loop of [validate_remaining]: the state it ends with, and the records it
    went through. *)
Fixpoint validate_walk (fuel : nat) (ix : MftIndex) (current_idx : Z) (chain : list Z) (r : PathResolver)
    : option (Z * list Z * PathResolver) :=
  match fuel with
  | O => None
  | S fuel =>
      let known := default UNSEEN (zget r.(pr_state) current_idx) in
      if known =? VALID then Some (VALID, chain, r)
      else if (known =? INVALID) || (known =? VISITING) then Some (INVALID, chain, r)
      else
        let r := set_state current_idx VISITING r in
        let chain := chain ++ [current_idx] in
        match zget ix.(ix_records) current_idx with
        | None => Some (INVALID, chain, r)
        | Some record =>
            let parent_frs := record.(fr_first_name).(li_parent_frs) in
            if parent_frs =? ROOT_FRS then Some (VALID, chain, r)
            else if (parent_frs =? record.(fr_frs)) || (parent_frs =? NO_ENTRY) then
              Some (if record.(fr_frs) =? ROOT_FRS then VALID else INVALID, chain, r)
            else
              match frs_to_idx_opt parent_frs ix with
              | None => Some (INVALID, chain, r)
              | Some parent_idx => validate_walk fuel ix parent_idx chain r
              end
        end
  end.

Definition settle (final_state : Z) (r : PathResolver) (chain_idx : Z) : PathResolver :=
  match zget r.(pr_state) chain_idx with
  | Some _ =>
      let r := set_state chain_idx final_state r in
      if final_state =? VALID then count_valid r else count_invalid r
  | None => r
  end.

Fixpoint validate_from (n : nat) (ix : MftIndex) (start_idx : Z) (r : PathResolver) : option PathResolver :=
  match n with
  | O => Some r
  | S n =>
      if bool_decide (zget r.(pr_state) start_idx = Some UNSEEN) then
        let? w := validate_walk (S (length ix.(ix_records))) ix start_idx [] r in
        let '(final_state, chain, r) := w in
        validate_from n ix (start_idx + 1) (foldl (settle final_state) r chain)
      else validate_from n ix (start_idx + 1) r
  end.

Definition validate_remaining (ix : MftIndex) (r : PathResolver) : option PathResolver :=
  validate_from (length ix.(ix_records)) ix 0 r.

Definition PathResolver_build (ix : MftIndex) (include_system_metafiles : bool) : option PathResolver :=
  let r := {| pr_state := zrepeat UNSEEN (zlen ix.(ix_records)); pr_volume := ix.(ix_volume);
              pr_valid_count := 0; pr_invalid_count := 0 |} in
  let r := if include_system_metafiles then r else mark_system_metafiles_invalid ix r in
  let? r := propagate_invalid_to_descendants ix r in
  validate_remaining ix r.

Definition is_valid_idx (r : PathResolver) (idx : Z) : bool := bool_decide (zget r.(pr_state) idx = Some VALID).

Definition resolver_is_valid (r : PathResolver) (ix : MftIndex) (frs : Z) : bool :=
  match frs_to_idx_opt frs ix with Some idx => is_valid_idx r idx | None => false end.

(** * Materialized paths *)

(** [!name.is_empty() && name != "."]. *)
Definition is_component (name : list Z) : bool := negb (bool_decide (name = [])) && negb (bool_decide (name = [DOT])).

(** The parent of a record on the walks of the materialization: [None] ends the walk. *)
Definition next_parent (ix : MftIndex) (record : FileRecord) : option Z :=
  let parent_frs := record.(fr_first_name).(li_parent_frs) in
  if (parent_frs =? ROOT_FRS) || (parent_frs =? record.(fr_frs)) || (parent_frs =? NO_ENTRY) then None
  else frs_to_idx_opt parent_frs ix.

(** The chain of a record, itself first; [None] is a walk longer than the fuel. *)
Fixpoint walk_parents (fuel : nat) (ix : MftIndex) (current_idx : Z) : option (list Z) :=
  match fuel with
  | O => None
  | S fuel =>
      match zget ix.(ix_records) current_idx with
      | None => Some []
      | Some record =>
          match next_parent ix record with
          | None => Some [current_idx]
          | Some parent_idx => let? chain := walk_parents fuel ix parent_idx in Some (current_idx :: chain)
          end
      end
  end.

(** [path.push('\\'); path.push_str(name)] for the records of a chain, outermost first. *)
Definition push_names (ix : MftIndex) (chain : list Z) (out : list Z) : list Z :=
  foldl (fun out ci =>
    match zget ix.(ix_records) ci with
    | Some record => let name := record_name ix record in if is_component name then out ++ BACKSLASH :: name else out
    | None => out
    end) out (rev chain).

Definition ends_with (c : Z) (s : list Z) : bool := bool_decide (last s = Some c).

(** The same over a cached prefix, which may end with a separator. *)
Definition append_names (ix : MftIndex) (chain : list Z) (out : list Z) : list Z :=
  foldl (fun out ci =>
    match zget ix.(ix_records) ci with
    | Some record =>
        let name := record_name ix record in
        if is_component name then (if ends_with BACKSLASH out then out else out ++ [BACKSLASH]) ++ name else out
    | None => out
    end) out (rev chain).

(** The volume root gets its separator. *)
Definition normalize_root (path : list Z) : list Z :=
  if (zlen path =? 2) && ends_with COLON path then path ++ [BACKSLASH] else path.

Definition path_of_chain (r : PathResolver) (ix : MftIndex) (chain out : list Z) : list Z :=
  normalize_root (push_names ix chain (out ++ [r.(pr_volume); COLON])).

Definition materialize_path (fuel : nat) (r : PathResolver) (ix : MftIndex) (idx : Z) : option (list Z) :=
  let? chain := walk_parents fuel ix idx in Some (path_of_chain r ix chain []).

(** [pre_cache_directory_paths], record after record. *)
Fixpoint pre_cache_from (n : nat) (fuel : nat) (r : PathResolver) (ix : MftIndex) (idx : Z) : option (list (list Z)) :=
  match n with
  | O => Some []
  | S n =>
      let directory := match zget ix.(ix_records) idx with Some record => is_directory record | None => false end in
      let? slot := if is_valid_idx r idx && directory then materialize_path fuel r ix idx else Some [] in
      let? rest := pre_cache_from n fuel r ix (idx + 1) in
      Some (slot :: rest)
  end.

Definition pre_cache_directory_paths (fuel : nat) (r : PathResolver) (ix : MftIndex) : option (list (list Z)) :=
  pre_cache_from (length ix.(ix_records)) fuel r ix 0.

(** The walk that looks in the cache: the cached path it met, if any, and the records
    before it. *)
Fixpoint walk_cached (fuel : nat) (ix : MftIndex) (dir_cache : list (list Z)) (current_idx : Z)
    : option (option (list Z) * list Z) :=
  match fuel with
  | O => None
  | S fuel =>
      let cached := default [] (zget dir_cache current_idx) in
      if negb (bool_decide (cached = [])) then Some (Some cached, [])
      else
        match zget ix.(ix_records) current_idx with
        | None => Some (None, [])
        | Some record =>
            match next_parent ix record with
            | None => Some (None, [current_idx])
            | Some parent_idx =>
                let? w := walk_cached fuel ix dir_cache parent_idx in Some (w.1, current_idx :: w.2)
            end
        end
  end.

Definition materialize_path_into (fuel : nat) (r : PathResolver) (ix : MftIndex) (idx : Z) (dir_cache : list (list Z))
    (out : list Z) : option (list Z) :=
  let? w := walk_cached fuel ix dir_cache idx in
  match w.1 with
  | Some cached => Some (append_names ix w.2 (out ++ cached))
  | None => Some (path_of_chain r ix w.2 out)
  end.

Definition materialize_path_cached (fuel : nat) (r : PathResolver) (ix : MftIndex) (idx : Z) (dir_cache : list (list Z))
    : option (list Z) := materialize_path_into fuel r ix idx dir_cache [].

Definition materialize_path_for_name (fuel : nat) (r : PathResolver) (ix : MftIndex) (idx name_idx : Z) : option (list Z) :=
  if name_idx =? 0 then materialize_path fuel r ix idx else
  match zget ix.(ix_records) idx with
  | None => Some []
  | Some record =>
      match get_link_at ix record name_idx with
      | None => materialize_path fuel r ix idx
      | Some link =>
          let parent_frs := link.(li_parent_frs) in
          let? parent_path :=
            match frs_to_idx_opt parent_frs ix with
            | Some pidx => let? path := materialize_path fuel r ix pidx in Some (Some path)
            | None => Some (if parent_frs =? ROOT_FRS then Some [r.(pr_volume); COLON; BACKSLASH] else None)
            end in
          match parent_path with
          | None => Some []
          | Some parent_path =>
              let name := link_name ix link in
              Some (if is_component name
                    then (if ends_with BACKSLASH parent_path then parent_path else parent_path ++ [BACKSLASH]) ++ name
                    else parent_path)
          end
      end
  end.

(** * [PathCache] *)

Record PathCache := { pc_resolver : PathResolver; pc_dir_cache : list (list Z) }.

Definition PathCache_build (fuel : nat) (ix : MftIndex) (include_system_metafiles : bool) : option PathCache :=
  let? resolver := PathResolver_build ix include_system_metafiles in
  let? dir_cache := pre_cache_directory_paths fuel resolver ix in
  Some {| pc_resolver := resolver; pc_dir_cache := dir_cache |}.

(** [PathCache::get]: the outer option is the fuel. *)
Definition PathCache_get (fuel : nat) (c : PathCache) (ix : MftIndex) (frs : Z) : option (option (list Z)) :=
  match frs_to_idx_opt frs ix with
  | None => Some None
  | Some idx =>
      if is_valid_idx c.(pc_resolver) idx then let? path := materialize_path fuel c.(pc_resolver) ix idx in Some (Some path)
      else Some None
  end.

(** * Paths from the record numbers *)

(** The walk of [build_path]: the components, innermost first. *)
Fixpoint build_components (fuel : nat) (ix : MftIndex) (current_frs : Z) : option (list (list Z)) :=
  match fuel with
  | O => None
  | S fuel =>
      match find current_frs ix with
      | None => Some []
      | Some record =>
          let name := record_name ix record in
          let here := if is_component name then [name] else [] in
          let parent_frs := record.(fr_first_name).(li_parent_frs) in
          if (parent_frs =? NO_ENTRY) || (parent_frs =? current_frs) then Some here
          else if parent_frs =? ROOT_FRS then Some here
          else let? rest := build_components fuel ix parent_frs in Some (here ++ rest)
      end
  end.

(** [components.join("\\")]. *)
Fixpoint join_backslash (components : list (list Z)) : list Z :=
  match components with
  | [] => []
  | [c] => c
  | c :: components => c ++ BACKSLASH :: join_backslash components
  end.

Definition format_path (volume : Z) (components : list (list Z)) : list Z :=
  [volume; COLON; BACKSLASH] ++ join_backslash (rev components).

Definition build_path (fuel : nat) (ix : MftIndex) (frs : Z) : option (list Z) :=
  let? components := build_components fuel ix frs in Some (format_path ix.(ix_volume) components).

(** The walk of [build_path_for_name] above the name. *)
Fixpoint parent_components (fuel : nat) (ix : MftIndex) (current_parent : Z) : option (list (list Z)) :=
  match fuel with
  | O => None
  | S fuel =>
      if negb (current_parent =? NO_ENTRY) && negb (current_parent =? ROOT_FRS) then
        match find current_parent ix with
        | None => Some []
        | Some parent_record =>
            let parent_name := record_name ix parent_record in
            let here := if is_component parent_name then [parent_name] else [] in
            let next_parent := parent_record.(fr_first_name).(li_parent_frs) in
            if (next_parent =? NO_ENTRY) || (next_parent =? current_parent) then Some here
            else let? rest := parent_components fuel ix next_parent in Some (here ++ rest)
        end
      else Some []
  end.

Definition build_path_for_name (fuel : nat) (ix : MftIndex) (record : FileRecord) (name_idx : Z) : option (list Z) :=
  match get_name_at ix record name_idx with
  | None => build_path fuel ix record.(fr_frs)
  | Some name_info =>
      let name := get_name ix name_info.(li_name) in
      let here := if is_component name then [name] else [] in
      let? rest := parent_components fuel ix name_info.(li_parent_frs) in
      Some (format_path ix.(ix_volume) (here ++ rest))
  end.

Definition build_path_with_stream (fuel : nat) (ix : MftIndex) (record : FileRecord) (name_idx : Z) (stream : IndexStreamInfo)
    : option (list Z) :=
  let? base_path := build_path_for_name fuel ix record name_idx in
  let stream_name := stream_name ix stream in
  Some (if bool_decide (stream_name = []) then base_path else base_path ++ COLON :: stream_name).

(** * Which records have a path *)

Section specification.
Context (ix : MftIndex) (include_system_metafiles : bool).
Implicit Types (i p cur : Z) (chain : list Z).

(** System metafiles and everything below them in the children lists. *)
Inductive hidden : Z -> Prop :=
| hidden_system i r : include_system_metafiles = false -> zget ix.(ix_records) i = Some r -> is_system_metafile r = true -> hidden i
| hidden_child p rp ce i : hidden p -> zget ix.(ix_records) p = Some rp -> ce ∈ entries ix rp ->
    frs_to_idx_opt ce.(ch_child_frs) ix = Some i -> 0 <= i < zlen ix.(ix_records) -> hidden i.

(** The record's parents lead to the root, none of them hidden; a record that is its own
    parent, or has none, is only at the top when it is the root. *)
Inductive rooted : Z -> Prop :=
| rooted_below_root i r : ~ hidden i -> zget ix.(ix_records) i = Some r -> r.(fr_first_name).(li_parent_frs) = ROOT_FRS -> rooted i
| rooted_root i r : ~ hidden i -> zget ix.(ix_records) i = Some r -> next_parent ix r = None -> r.(fr_frs) = ROOT_FRS ->
    r.(fr_first_name).(li_parent_frs) = r.(fr_frs) \/ r.(fr_first_name).(li_parent_frs) = NO_ENTRY -> rooted i
| rooted_step i r p : ~ hidden i -> zget ix.(ix_records) i = Some r -> next_parent ix r = Some p -> rooted p -> rooted i.

Definition step_up (i p : Z) : Prop := exists r, zget ix.(ix_records) i = Some r /\ next_parent ix r = Some p.

Lemma rooted_visible i : rooted i -> ~ hidden i.
Proof. by destruct 1. Qed.

Lemma rooted_up i p : step_up i p -> rooted i -> rooted p.
Proof.
  intros (r & Hr & Hp) Hi. destruct Hi as [i r' _ Hr' E | i r' _ Hr' E _ _ | i r' p' _ Hr' E Hp']; rewrite Hr in Hr'; injection Hr' as <-.
  - unfold next_parent in Hp. by rewrite E in Hp.
  - congruence.
  - rewrite Hp in E. by injection E as <-.
Qed.

Lemma rooted_down i p : ~ hidden i -> step_up i p -> rooted p -> rooted i.
Proof. intros Hh (r & Hr & Hp) H. by eapply rooted_step. Qed.

(** Records that lead to each other are not rooted. *)
Lemma rooted_no_cycle (C : Z -> Prop) : (forall x, C x -> exists y, C y /\ step_up x y) -> forall i, rooted i -> ~ C i.
Proof.
  intros HC i Hi. induction Hi as [i r _ Hr E | i r _ Hr E _ _ | i r p _ Hr E _ IH]; intros Hc; destruct (HC i Hc) as (y & Hy & r' & Hr' & Hp);
    rewrite Hr in Hr'; injection Hr' as <-.
  - unfold next_parent in Hp. by rewrite E in Hp.
  - congruence.
  - rewrite E in Hp. injection Hp as <-. by apply IH.
Qed.

(** [leads chain cur]: the records of [chain], each the child of the next, and the last of
    [cur]. *)
Inductive leads : list Z -> Z -> Prop :=
| leads_nil cur : leads [] cur
| leads_snoc chain x cur : leads chain x -> step_up x cur -> leads (chain ++ [x]) cur.

Lemma leads_up chain cur x : leads chain cur -> x ∈ chain -> exists y, (y ∈ chain \/ y = cur) /\ step_up x y.
Proof.
  induction 1 as [cur | chain z cur _ IH Hz]; intros Hx; [by apply elem_of_nil in Hx |].
  apply elem_of_app in Hx as [Hx | Hx%list_elem_of_singleton]; [|subst x].
  - destruct (IH Hx) as (y & [Hy | ->] & Hs); [exists y | exists z]; (split; [left; apply elem_of_app | done]); [by left |].
    right. by apply list_elem_of_singleton.
  - exists cur. split; [by right | done].
Qed.

Lemma leads_rooted chain cur : leads chain cur -> Forall (fun x => ~ hidden x) chain -> rooted cur -> Forall rooted chain.
Proof.
  induction 1 as [cur | chain z cur _ IH Hz]; intros Hh Hc; [done |]. apply Forall_app in Hh as [Hh Hhz]. apply Forall_inv in Hhz.
  assert (rooted z) by by eapply rooted_down. apply Forall_app. split; [by apply IH | by apply Forall_singleton].
Qed.

Lemma leads_unrooted chain cur : leads chain cur -> ~ rooted cur -> Forall (fun x => ~ rooted x) chain.
Proof.
  induction 1 as [cur | chain z cur _ IH Hz]; intros Hc; [done |].
  assert (~ rooted z) by (intros H; apply Hc; by eapply rooted_up). apply Forall_app. split; [by apply IH | by apply Forall_singleton].
Qed.

(** ** What the queue of invalid records reaches *)

Definition count (s : Z) (states : list Z) : Z := zlen (List.filter (Z.eqb s) states).

Lemma count_zset s states i a b : zget states i = Some a ->
  count s (zset states i b) = count s states - Z.b2z (s =? a) + Z.b2z (s =? b).
Proof.
  intros [Hi Ha]%zget_Some. unfold count. rewrite zset_insert by done.
  assert (Hlt : (Z.to_nat i < length states)%nat) by by eapply lookup_lt_Some.
  rewrite (insert_take_drop states (Z.to_nat i) b Hlt). rewrite <- (take_drop_middle states (Z.to_nat i) a Ha) at 3.
  rewrite !List.filter_app. cbn [List.filter]. destruct (s =? a), (s =? b); rewrite ?zlen_app, ?zlen_cons; cbn [Z.b2z]; lia.
Qed.

Lemma count_le s states : 0 <= count s states <= zlen states.
Proof. unfold count, zlen. pose proof (List.filter_length_le (Z.eqb s) states). lia. Qed.

Lemma count_pos s states i : zget states i = Some s -> 0 < count s states.
Proof.
  intros H%zget_elem%list_elem_of_In. assert (Hin : In s (List.filter (Z.eqb s) states)) by (apply filter_In; split; [done | apply Z.eqb_refl]).
  unfold count, zlen. destruct (List.filter _ _); [done | cbn; lia].
Qed.

Lemma mark_children_entries fuel h cells st :
  chain ix.(ix_children) h cells -> (length cells < fuel)%nat ->
  mark_children fuel ix h st = Some (foldl (mark_child ix) st (omap (zget ix.(ix_children)) cells)).
Proof.
  intros Hc. revert st fuel. induction Hc as [|h x cells Hh Hx _ IH]; intros st [|fuel] Hf; [cbn in Hf; lia | done | cbn in Hf; lia |].
  cbn [mark_children omap list_omap]. rewrite (proj2 (Z.eqb_neq _ _) Hh), Hx. cbn [foldl]. apply IH. cbn in Hf. lia.
Qed.

Lemma mark_children_exact i r st :
  index_wf ix -> zget ix.(ix_records) i = Some r ->
  mark_children (S (length ix.(ix_children))) ix r.(fr_first_child) st = Some (foldl (mark_child ix) st (entries ix r)).
Proof.
  intros Hwf Hr. destruct (entries_chain ix Hwf i r Hr) as (cells & Hc & Hl & ->). apply mark_children_entries; [done | lia].
Qed.

(** The state of the search: what is invalid is hidden, and the children of what is
    invalid and not [open] are invalid. *)
Record spread (open : list Z) (r : PathResolver) : Prop := {
  sp_length : zlen r.(pr_state) = zlen ix.(ix_records);
  sp_states : forall i s, zget r.(pr_state) i = Some s -> s = UNSEEN \/ (s = INVALID /\ hidden i);
  sp_closed : forall p rp ce i, zget r.(pr_state) p = Some INVALID -> p ∉ open -> zget ix.(ix_records) p = Some rp -> ce ∈ entries ix rp ->
    frs_to_idx_opt ce.(ch_child_frs) ix = Some i -> 0 <= i < zlen ix.(ix_records) -> zget r.(pr_state) i = Some INVALID;
  sp_count : r.(pr_invalid_count) = count INVALID r.(pr_state);
  sp_valid : r.(pr_valid_count) = 0;
  sp_volume : r.(pr_volume) = ix.(ix_volume);
}.

Definition kept (r r' : PathResolver) : Prop := forall i, zget r.(pr_state) i = Some INVALID -> zget r'.(pr_state) i = Some INVALID.

Lemma spread_mark open r i : zlen ix.(ix_records) < 2 ^ 32 ->
  spread open r -> hidden i -> zget r.(pr_state) i = Some UNSEEN ->
  spread (i :: open) (mark_invalid i r) /\ kept r (mark_invalid i r) /\ zget (pr_state (mark_invalid i r)) i = Some INVALID /\
  count UNSEEN (pr_state (mark_invalid i r)) = count UNSEEN r.(pr_state) - 1.
Proof.
  intros Hn [S1 S2 S3 S4 S5 S6] Hi Hu. pose proof (proj1 (zget_Some _ _ _) Hu) as [Hb _].
  assert (Hget : forall j, zget (zset (pr_state r) i INVALID) j = if decide (j = i) then Some INVALID else zget (pr_state r) j).
  { intros j. destruct (decide (j = i)) as [-> |]; [by apply zget_zset_eq | by apply zget_zset_ne]. }
  split; [split |]; cbn [mark_invalid count_invalid set_state pr_state pr_invalid_count pr_valid_count pr_volume]; try done.
  - by rewrite zlen_zset.
  - intros j s. rewrite Hget. destruct (decide (j = i)) as [-> |]; [intros [= <-]; by right | apply S2].
  - intros p rp ce j. rewrite !Hget. intros Hp Ho Hrp Hce Hj Hjb. destruct (decide (j = i)); [done |].
    destruct (decide (p = i)) as [-> |]; [exfalso; apply Ho; by apply elem_of_cons; left |].
    eapply S3; try done. intros Hin. apply Ho. by apply elem_of_cons; right.
  - rewrite S4, (count_zset _ _ _ UNSEEN) by done. change (INVALID =? UNSEEN) with false. rewrite Z.eqb_refl. cbn [Z.b2z].
    pose proof (count_le INVALID (zset (pr_state r) i INVALID)) as Hc. rewrite (count_zset _ _ _ UNSEEN), zlen_zset in Hc by done.
    change (INVALID =? UNSEEN) with false in Hc. rewrite Z.eqb_refl in Hc. cbn [Z.b2z] in Hc. rewrite S1 in Hc.
    pose proof (count_le INVALID (pr_state r)). rewrite u32_small by lia. lia.
  - split; [|split].
    + intros j Hj. cbn. rewrite Hget. by destruct (decide (j = i)).
    + rewrite Hget. by rewrite decide_True.
    + rewrite (count_zset _ _ _ UNSEEN) by done. rewrite Z.eqb_refl. change (UNSEEN =? INVALID) with false. cbn [Z.b2z]. lia.
Qed.

Lemma spread_open open open' r : (forall x, x ∈ open -> x ∈ open') -> spread open r -> spread open' r.
Proof. intros Ho [S1 S2 S3 S4 S5 S6]. split; try done. intros p rp ce i Hp Hn. apply S3; [done |]. intros H. by apply Hn, Ho. Qed.

Lemma kept_trans r1 r2 r3 : kept r1 r2 -> kept r2 r3 -> kept r1 r3.
Proof. intros H1 H2 i Hi. by apply H2, H1. Qed.

Definition invalid_all (l : list Z) (r : PathResolver) : Prop := Forall (fun i => zget r.(pr_state) i = Some INVALID) l.

Lemma invalid_all_kept l r r' : kept r r' -> invalid_all l r -> invalid_all l r'.
Proof. intros Hk H. eapply Forall_impl; [exact H | apply Hk]. Qed.

Lemma mark_entries p rp l q r : zlen ix.(ix_records) < 2 ^ 32 ->
  hidden p -> zget ix.(ix_records) p = Some rp -> (forall ce, ce ∈ l -> ce ∈ entries ix rp) ->
  spread (p :: q) r -> invalid_all q r ->
  exists q' r', foldl (mark_child ix) (q, r) l = (q', r') /\ spread (p :: q') r' /\ invalid_all q' r' /\ kept r r' /\
    zlen q' + count UNSEEN r'.(pr_state) = zlen q + count UNSEEN r.(pr_state) /\
    (forall ce i, ce ∈ l -> frs_to_idx_opt ce.(ch_child_frs) ix = Some i -> 0 <= i < zlen ix.(ix_records) ->
       zget r'.(pr_state) i = Some INVALID).
Proof.
  intros Hn Hp Hrp. revert q r. induction l as [|ce l IH]; intros q r Hl Hs Hq.
  { exists q, r. do 3 (split; [done |]); split; [by intros j |]; split; [done |]. by intros ce i ?%elem_of_nil. }
  cbn [foldl].
  assert (Hstep : exists q1 r1, mark_child ix (q, r) ce = (q1, r1) /\ spread (p :: q1) r1 /\ invalid_all q1 r1 /\ kept r r1 /\
    zlen q1 + count UNSEEN r1.(pr_state) = zlen q + count UNSEEN r.(pr_state) /\
    forall i, frs_to_idx_opt ce.(ch_child_frs) ix = Some i -> 0 <= i < zlen ix.(ix_records) -> zget r1.(pr_state) i = Some INVALID).
  { unfold mark_child. cbn [fst snd].
    destruct (frs_to_idx_opt (ch_child_frs ce) ix) as [i|] eqn:Ei; [|exists q, r; do 3 (split; [done |]); split; [by intros j |]; split; [done |]; done].
    destruct (zget (pr_state r) i) as [si|] eqn:Es.
    2:{ exists q, r. do 3 (split; [done |]); split; [by intros j |]; split; [done |]. intros j [= <-] Hb. apply zget_None in Es. rewrite (sp_length _ _ Hs) in Es. lia. }
    destruct (sp_states _ _ Hs i si Es) as [-> | [-> Hi]].
    - assert (Hi : hidden i).
      { apply (hidden_child p rp ce); try done; [apply Hl; by apply elem_of_cons; left |].
        apply zget_Some in Es as [Hb _]. by rewrite (sp_length _ _ Hs) in Hb. }
      destruct (spread_mark _ r i Hn Hs Hi Es) as (S' & K' & I' & C'). exists (q ++ [i]), (mark_invalid i r).
      rewrite Z.eqb_refl. split; [done |]. split; [|split; [|split; [done | split]]].
      + eapply spread_open; [|exact S']. intros x [-> | [-> | Hx]%elem_of_cons]%elem_of_cons; apply elem_of_cons; [right | by left | right];
          apply elem_of_app; [right; by apply list_elem_of_singleton | by left].
      + apply Forall_app. split; [by eapply invalid_all_kept | by apply Forall_singleton].
      + rewrite zlen_app, C'. change (zlen [i]) with 1. lia.
      + by intros j [= <-] _.
    - exists q, r. do 3 (split; [done |]); split; [by intros j |]; split; [done |]. by intros j [= <-] _. }
  destruct Hstep as (q1 & r1 & -> & S1 & Q1 & K1 & C1 & F1).
  destruct (IH q1 r1) as (q' & r' & E & S' & Q' & K' & C' & F'); try done; [intros x Hx; apply Hl; by apply elem_of_cons; right |].
  exists q', r'. split; [done |]. split; [done |]. split; [done |]. split; [by eapply kept_trans |]. split; [lia |].
  intros x i [-> | Hx]%elem_of_cons Hi Hb; [by apply K', F1 | by apply (F' x)].
Qed.

Lemma propagate_exact fuel q r : index_wf ix -> zlen ix.(ix_records) < 2 ^ 32 ->
  spread q r -> invalid_all q r -> zlen q + count UNSEEN r.(pr_state) < Z.of_nat fuel ->
  exists r', propagate_loop fuel ix q r = Some r' /\ spread [] r' /\ kept r r'.
Proof.
  intros Hwf Hn. revert q r. induction fuel as [|fuel IH]; intros q r Hs Hq Hf; [pose proof (zlen_nonneg q); pose proof (count_le UNSEEN (pr_state r)); lia |].
  cbn [propagate_loop]. destruct q as [|p q]; [exists r; split; [done |]; split; [done | by intros j] |]. rewrite zlen_cons in Hf.
  pose proof (Forall_inv Hq) as Hp. cbn in Hp.
  assert (Hb : 0 <= p < zlen (ix_records ix)) by (apply zget_Some in Hp as [Hb _]; by rewrite (sp_length _ _ Hs) in Hb).
  destruct (zget_is_Some (ix_records ix) p Hb) as [rp Hrp]. rewrite Hrp, (mark_children_exact p rp) by done. cbn [mbind option_bind].
  assert (Hh : hidden p) by (destruct (sp_states _ _ Hs p _ Hp) as [He | [_ H]]; [discriminate He | exact H]).
  destruct (mark_entries p rp (entries ix rp) q r) as (q' & r' & -> & S' & Q' & K' & C' & F'); try done; [by apply (Forall_inv_tail Hq) |].
  cbn [fst snd]. destruct (IH q' r') as (r2 & E & S2 & K2); [| done | lia |].
  - destruct S' as [A1 A2 A3 A4 A5 A6]. split; try done. intros x rx ce i Hx Hxo Hrx Hce Hi Hib.
    destruct (decide (x = p)) as [-> |].
    + rewrite Hrp in Hrx. injection Hrx as <-. by apply (F' ce).
    + eapply (A3 x rx ce); try done. by intros [-> | ?]%elem_of_cons.
  - exists r2. split; [done |]. split; [done |]. by eapply kept_trans.
Qed.

(** ** The walks of the validation *)

Definition put_all (v : Z) (l : list Z) (states : list Z) : list Z := foldl (fun st i => zset st i v) states l.

Lemma zlen_put_all v l states : zlen (put_all v l states) = zlen states.
Proof. revert states. induction l as [|i l IH]; intros states; [done |]. cbn. rewrite <- (zlen_zset states i v). apply IH. Qed.

Lemma put_all_get v l states i : Forall (fun x => 0 <= x < zlen states) l ->
  zget (put_all v l states) i = if bool_decide (i ∈ l) then Some v else zget states i.
Proof.
  revert states. induction l as [|x l IH]; intros states Hl; [done |]. cbn [put_all foldl].
  pose proof (Forall_inv Hl) as Hx. apply Forall_inv_tail in Hl. fold (put_all v l (zset states x v)).
  rewrite IH by (by rewrite zlen_zset). destruct (decide (i = x)) as [-> | Hne].
  - rewrite zget_zset_eq by done. rewrite (bool_decide_eq_true_2 (x ∈ x :: l)) by (apply elem_of_cons; by left). by case_bool_decide.
  - rewrite zget_zset_ne by done. repeat case_bool_decide; try done; exfalso; set_solver.
Qed.

Lemma put_all_count s v a l states : NoDup l -> Forall (fun x => zget states x = Some a) l ->
  count s (put_all v l states) = count s states + zlen l * (Z.b2z (s =? v) - Z.b2z (s =? a)).
Proof.
  revert states. induction l as [|x l IH]; intros states Hnd Hl; [unfold zlen; cbn; lia |].
  apply NoDup_cons in Hnd as [Hx Hnd]. pose proof (Forall_inv Hl) as Hxa. apply Forall_inv_tail in Hl. cbn in Hxa.
  cbn [put_all foldl]. fold (put_all v l (zset states x v)). rewrite IH; [| done |].
  - rewrite (count_zset _ _ _ a), zlen_cons by done. lia.
  - rewrite Forall_forall in *. intros y Hy. rewrite zget_zset_ne by (intros ->; done). by apply Hl.
Qed.

Lemma NoDup_range_length n l : 0 <= n -> NoDup l -> Forall (fun x => 0 <= x < n) l -> zlen l <= n.
Proof.
  intros Hn Hnd Hl. unfold zlen. replace n with (Z.of_nat (length (seqZ 0 n))) by (rewrite length_seqZ; lia).
  apply inj_le, submseteq_length, NoDup_submseteq; [done |]. intros x Hx. rewrite Forall_forall in Hl. apply elem_of_seqZ. specialize (Hl x Hx). lia.
Qed.

(** Between two starts: a record that is not seen is not hidden, and the others are settled. *)
Record settled (r : PathResolver) : Prop := {
  se_length : zlen r.(pr_state) = zlen ix.(ix_records);
  se_states : forall i s, zget r.(pr_state) i = Some s ->
    s = UNSEEN /\ ~ hidden i \/ s = VALID /\ rooted i \/ s = INVALID /\ ~ rooted i;
  se_valid : r.(pr_valid_count) = count VALID r.(pr_state);
  se_invalid : r.(pr_invalid_count) = count INVALID r.(pr_state);
  se_volume : r.(pr_volume) = ix.(ix_volume);
}.

Definition with_states (states : list Z) (r : PathResolver) : PathResolver :=
  {| pr_state := states; pr_volume := r.(pr_volume); pr_valid_count := r.(pr_valid_count); pr_invalid_count := r.(pr_invalid_count) |}.

Definition visiting (chain : list Z) (r : PathResolver) : PathResolver := with_states (put_all VISITING chain r.(pr_state)) r.

Definition unseen_all (l : list Z) (r : PathResolver) : Prop := Forall (fun i => zget r.(pr_state) i = Some UNSEEN) l.

Lemma unseen_range l r : settled r -> unseen_all l r -> Forall (fun x => 0 <= x < zlen r.(pr_state)) l.
Proof. intros Hs H. eapply Forall_impl; [exact H |]. cbn. intros i [Hi _]%zget_Some. done. Qed.

Lemma unseen_visible l r : settled r -> unseen_all l r -> Forall (fun x => ~ hidden x) l.
Proof. intros Hs H. eapply Forall_impl; [exact H |]. cbn. intros i Hi. by destruct (se_states _ Hs i _ Hi) as [[_ ?] | [[? _] | [? _]]]. Qed.

Lemma visiting_snoc chain i r : set_state i VISITING (visiting chain r) = visiting (chain ++ [i]) r.
Proof. unfold visiting, with_states, set_state, put_all. cbn. by rewrite foldl_app. Qed.

Lemma next_parent_index r p : index_wf ix -> next_parent ix r = Some p -> 0 <= p < zlen ix.(ix_records).
Proof.
  intros Hwf. unfold next_parent. destruct (_ || _); [done |]. intros E. destruct (lookup_child ix Hwf _ _ E) as [rp Hrp].
  by apply zget_Some in Hrp as [? _].
Qed.

(** A record that ends a walk is at the top, or leads nowhere. *)
Definition at_top (r : FileRecord) : bool :=
  let parent_frs := r.(fr_first_name).(li_parent_frs) in
  (parent_frs =? ROOT_FRS) || ((parent_frs =? r.(fr_frs)) || (parent_frs =? NO_ENTRY)) && (r.(fr_frs) =? ROOT_FRS).

Lemma rooted_end i r : ~ hidden i -> zget ix.(ix_records) i = Some r -> next_parent ix r = None -> rooted i <-> at_top r = true.
Proof.
  intros Hh Hr Hn. unfold at_top. split.
  - destruct 1 as [i r' _ Hr' E | i r' _ Hr' _ E E' | i r' p _ Hr' E _]; rewrite Hr in Hr'; injection Hr' as <-.
    + by rewrite E.
    + rewrite E, Z.eqb_refl, andb_true_r. destruct E' as [-> | ->]; rewrite ?E, ?Z.eqb_refl, ?orb_true_r; done.
    + congruence.
  - intros [E%Z.eqb_eq | [E1 E2%Z.eqb_eq]%andb_true_iff]%orb_true_iff; [by eapply rooted_below_root |].
    eapply rooted_root; try done. apply orb_true_iff in E1 as [?%Z.eqb_eq | ?%Z.eqb_eq]; [by left | by right].
Qed.

Lemma validate_walk_step fuel cur chain r rec :
  zget r.(pr_state) cur = Some UNSEEN -> zget ix.(ix_records) cur = Some rec ->
  validate_walk (S fuel) ix cur chain r =
    match next_parent ix rec with
    | Some p => validate_walk fuel ix p (chain ++ [cur]) (set_state cur VISITING r)
    | None => Some (if at_top rec then VALID else INVALID, chain ++ [cur], set_state cur VISITING r)
    end.
Proof.
  intros Hs Hr. cbn [validate_walk]. rewrite Hs. cbn [default]. change (UNSEEN =? VALID) with false. cbn [default id].
  change ((UNSEEN =? INVALID) || (UNSEEN =? VISITING)) with false. cbn match. rewrite Hr. unfold next_parent, at_top.
  destruct (_ =? ROOT_FRS) eqn:E1; [done |]. cbn [orb]. destruct (_ || _) eqn:E2; cbn [andb]; [by destruct (_ =? ROOT_FRS) |].
  by destruct (frs_to_idx_opt _ _).
Qed.

Lemma validate_walk_known fuel cur chain r sc :
  zget r.(pr_state) cur = Some sc -> sc = VALID \/ sc = INVALID \/ sc = VISITING ->
  validate_walk (S fuel) ix cur chain r = Some (if sc =? VALID then VALID else INVALID, chain, r).
Proof. intros Hs Hk. cbn [validate_walk]. rewrite Hs. by destruct Hk as [-> | [-> | ->]]. Qed.

Lemma validate_walk_exact fuel cur chain r :
  index_wf ix -> settled r -> leads chain cur -> NoDup chain -> unseen_all chain r -> 0 <= cur < zlen ix.(ix_records) ->
  zlen ix.(ix_records) < Z.of_nat fuel + zlen chain ->
  exists final chain', validate_walk fuel ix cur chain (visiting chain r) = Some (final, chain', visiting chain' r) /\
    NoDup chain' /\ unseen_all chain' r /\
    (final = VALID /\ Forall rooted chain' \/ final = INVALID /\ Forall (fun x => ~ rooted x) chain') /\
    (forall x, x ∈ chain -> x ∈ chain') /\ (zget r.(pr_state) cur = Some UNSEEN -> cur ∈ chain').
Proof.
  intros Hwf Hs. revert cur chain. induction fuel as [|fuel IH]; intros cur chain Hl Hnd Hu Hb Hf.
  { exfalso. pose proof (unseen_range _ _ Hs Hu) as Hr. rewrite (se_length _ Hs) in Hr.
    pose proof (NoDup_range_length (zlen (ix_records ix)) chain ltac:(lia) Hnd Hr). lia. }
  pose proof (unseen_range _ _ Hs Hu) as Hrange. pose proof (unseen_visible _ _ Hs Hu) as Hvis.
  destruct (decide (cur ∈ chain)) as [Hin | Hout].
  - (* a cycle *)
    assert (Hget : zget (visiting chain r).(pr_state) cur = Some VISITING).
    { unfold visiting. cbn [with_states pr_state]. by rewrite put_all_get, bool_decide_eq_true_2 by done. }
    rewrite (validate_walk_known _ _ _ _ VISITING) by auto. exists INVALID, chain. do 3 (split; [done |]). split; [|done]. right. split; [done |].
    apply Forall_forall. intros x Hx Hrx. apply (rooted_no_cycle (fun y => y ∈ chain)) with (i := x); try done.
    intros y Hy. destruct (leads_up _ _ _ Hl Hy) as (z & [Hz | ->] & Hst); [by exists z | by exists cur].
  - destruct (zget_is_Some r.(pr_state) cur) as [sc Hsc]; [rewrite (se_length _ Hs); lia |].
    assert (Hget : zget (visiting chain r).(pr_state) cur = Some sc).
    { unfold visiting. cbn [with_states pr_state]. by rewrite put_all_get, bool_decide_eq_false_2 by done. }
    destruct (se_states _ Hs _ _ Hsc) as [[-> Hh] | [[-> Hroot] | [-> Hroot]]].
    + destruct (zget_is_Some ix.(ix_records) cur Hb) as [rec Hrec]. rewrite (validate_walk_step _ _ _ _ rec), visiting_snoc by done.
      assert (Hnd' : NoDup (chain ++ [cur])).
      { apply NoDup_app. split; [done |]. split; [|apply NoDup_singleton]. intros x Hx ->%list_elem_of_singleton. done. }
      assert (Hu' : unseen_all (chain ++ [cur]) r) by (apply Forall_app; split; [done | by apply Forall_singleton]).
      assert (Hin : forall x, x ∈ chain -> x ∈ chain ++ [cur]) by (intros x Hx; apply elem_of_app; by left).
      assert (Hcin : cur ∈ chain ++ [cur]) by (apply elem_of_app; right; by apply list_elem_of_singleton).
      destruct (next_parent ix rec) as [p|] eqn:Ep.
      * destruct (IH p (chain ++ [cur])) as (final & chain' & E & N' & U' & F' & K' & _); try done.
        -- eapply leads_snoc; [exact Hl | by exists rec].
        -- by eapply next_parent_index.
        -- rewrite zlen_app. change (zlen [cur]) with 1. lia.
        -- exists final, chain'. split; [done |]. split; [done |]. split; [done |]. split; [done |]. split; [by intros x Hx; apply K', Hin | by intros _; apply K'].
      * exists (if at_top rec then VALID else INVALID), (chain ++ [cur]). do 3 (split; [done |]). split; [|done].
        pose proof (rooted_end cur rec Hh Hrec Ep) as Ht. destruct (at_top rec); [left | right]; (split; [done |]); apply Forall_app; split.
        -- eapply leads_rooted; [done | done | by apply Ht].
        -- apply Forall_singleton. by apply Ht.
        -- eapply leads_unrooted; [done |]. intros H%Ht. done.
        -- apply Forall_singleton. intros H%Ht. done.
    + rewrite (validate_walk_known _ _ _ _ VALID) by auto. exists VALID, chain. do 3 (split; [done |]). split; [left; split; [done |] | split; [done | by rewrite Hsc]].
      by eapply leads_rooted.
    + rewrite (validate_walk_known _ _ _ _ INVALID) by auto. exists INVALID, chain. do 3 (split; [done |]). split; [right; split; [done |] | split; [done | by rewrite Hsc]].
      by eapply leads_unrooted.
Qed.

Lemma settle_fold final chain r :
  final = VALID \/ final = INVALID -> Forall (fun x => 0 <= x < zlen r.(pr_state)) chain ->
  0 <= r.(pr_valid_count) -> r.(pr_valid_count) + zlen chain < 2 ^ 32 ->
  0 <= r.(pr_invalid_count) -> r.(pr_invalid_count) + zlen chain < 2 ^ 32 ->
  foldl (settle final) r chain =
    {| pr_state := put_all final chain r.(pr_state); pr_volume := r.(pr_volume);
       pr_valid_count := r.(pr_valid_count) + zlen chain * Z.b2z (VALID =? final);
       pr_invalid_count := r.(pr_invalid_count) + zlen chain * Z.b2z (INVALID =? final) |}.
Proof.
  intros Hfin. revert r. induction chain as [|x chain IH]; intros r Hr V1 V2 I1 I2.
  { change (zlen (@nil Z)) with 0. rewrite !Z.mul_0_l, !Z.add_0_r. by destruct r. }
  rewrite zlen_cons in *. pose proof (zlen_nonneg chain). cbn [foldl]. pose proof (Forall_inv Hr) as Hx. apply Forall_inv_tail in Hr. cbn in Hx.
  unfold settle at 2. destruct (zget_is_Some _ _ Hx) as [sx ->].
  destruct Hfin as [-> | ->].
  - change (VALID =? VALID) with true. change (VALID =? VALID) with true in IH. change (INVALID =? VALID) with false in *. cbn match.
    rewrite IH; cbn [count_valid set_state pr_state pr_valid_count pr_invalid_count pr_volume]; rewrite ?zlen_zset; try done; rewrite ?u32_small by lia; try lia.
    cbn [put_all foldl Z.b2z]. f_equal; lia.
  - change (VALID =? INVALID) with false in *. change (INVALID =? VALID) with false. change (INVALID =? INVALID) with true in *. cbn match.
    rewrite IH; cbn [count_invalid set_state pr_state pr_valid_count pr_invalid_count pr_volume]; rewrite ?zlen_zset; try done; rewrite ?u32_small by lia; try lia.
    cbn [put_all foldl Z.b2z]. f_equal; lia.
Qed.

Lemma counts_le states : count VALID states + count INVALID states + count UNSEEN states <= zlen states.
Proof.
  unfold count. induction states as [|s states IH]; [done |]. cbn [List.filter].
  destruct (Z.eqb_spec VALID s) as [<- |]; [|destruct (Z.eqb_spec INVALID s) as [<- |]; [|destruct (Z.eqb_spec UNSEEN s) as [<- |]]];
    cbn; rewrite ?zlen_cons; lia.
Qed.

Lemma settled_walk r chain final : zlen ix.(ix_records) < 2 ^ 32 ->
  settled r -> NoDup chain -> unseen_all chain r ->
  (final = VALID /\ Forall rooted chain \/ final = INVALID /\ Forall (fun x => ~ rooted x) chain) ->
  settled (foldl (settle final) (visiting chain r) chain) /\
  (forall i, i ∈ chain -> zget (pr_state (foldl (settle final) (visiting chain r) chain)) i <> Some UNSEEN) /\
  (forall i, zget r.(pr_state) i <> Some UNSEEN -> zget (pr_state (foldl (settle final) (visiting chain r) chain)) i <> Some UNSEEN).
Proof.
  intros Hn Hs Hnd Hu Hf. pose proof (unseen_range _ _ Hs Hu) as Hr. pose proof (put_all_count UNSEEN VALID UNSEEN chain _ Hnd Hu) as Hcu.
  change (UNSEEN =? VALID) with false in Hcu. rewrite Z.eqb_refl in Hcu. cbn [Z.b2z] in Hcu.
  pose proof (count_le UNSEEN (put_all VALID chain (pr_state r))) as Hcu'.
  pose proof (counts_le (pr_state r)) as Hc. pose proof (count_le VALID (pr_state r)). pose proof (count_le INVALID (pr_state r)).
  destruct Hs as [S1 S2 S3 S4 S5]. rewrite S1 in Hc.
  assert (Hfin : final = VALID \/ final = INVALID) by (by destruct Hf as [[? _] | [? _]]; [left | right]).
  rewrite settle_fold; [|done|..]; unfold visiting; cbn [with_states pr_state pr_valid_count pr_invalid_count pr_volume];
    rewrite ?zlen_put_all; try done; [|lia ..].
  assert (Hvis : unseen_all chain r -> Forall (fun x => zget (put_all VISITING chain (pr_state r)) x = Some VISITING) chain).
  { intros _. apply Forall_forall. intros x Hx. by rewrite put_all_get, bool_decide_eq_true_2. }
  specialize (Hvis Hu).
  assert (Hget : forall i, zget (put_all final chain (put_all VISITING chain (pr_state r))) i =
    if bool_decide (i ∈ chain) then Some final else zget (pr_state r) i).
  { intros i. rewrite put_all_get by (by rewrite zlen_put_all). rewrite put_all_get by done. by case_bool_decide. }
  assert (Hcount : forall s, s = VALID \/ s = INVALID -> count s (put_all final chain (put_all VISITING chain (pr_state r))) =
    count s (pr_state r) + zlen chain * Z.b2z (s =? final)).
  { intros s Hsv. rewrite (put_all_count s final VISITING), (put_all_count s VISITING UNSEEN) by done.
    replace (s =? VISITING) with false by (by destruct Hsv as [-> | ->]). replace (s =? UNSEEN) with false by (by destruct Hsv as [-> | ->]).
    cbn [Z.b2z]. lia. }
  split; [split |]; cbn [pr_state pr_valid_count pr_invalid_count pr_volume].
  - by rewrite !zlen_put_all.
  - intros i s. rewrite Hget. case_bool_decide as Hi; [|apply S2]. intros [= <-].
    destruct Hf as [[-> Hall] | [-> Hall]]; rewrite Forall_forall in Hall; [right; left | right; right]; (split; [done | by apply Hall]).
  - rewrite Hcount by auto. by rewrite S3.
  - rewrite Hcount by auto. by rewrite S4.
  - done.
  - split; intros i Hi; rewrite Hget; case_bool_decide; try done; destruct Hfin as [-> | ->]; done.
Qed.

Lemma validate_from_exact n i r : index_wf ix -> zlen ix.(ix_records) < 2 ^ 32 -> settled r -> 0 <= i ->
  i + Z.of_nat n = zlen ix.(ix_records) ->
  exists r', validate_from n ix i r = Some r' /\ settled r' /\
    (forall j, zget r.(pr_state) j <> Some UNSEEN -> zget r'.(pr_state) j <> Some UNSEEN) /\
    (forall j, i <= j -> zget r'.(pr_state) j <> Some UNSEEN).
Proof.
  intros Hwf Hn. revert i r. induction n as [|n IH]; intros i r Hs Hi Hl.
  { exists r. split; [done |]. split; [done |]. split; [done |]. intros j Hj Hz. apply zget_Some in Hz as [Hb _]. rewrite (se_length _ Hs) in Hb. lia. }
  cbn [validate_from]. case_bool_decide as Hu.
  - destruct (validate_walk_exact (S (length (ix_records ix))) i [] r) as (final & chain & E & N & U & F & _ & Hin); try done;
      [constructor | constructor | constructor | lia | unfold zlen; cbn [length]; lia |].
    change (visiting [] r) with (with_states (pr_state r) r) in E. replace (with_states (pr_state r) r) with r in E by (by destruct r).
    rewrite E. cbn [mbind option_bind]. destruct (settled_walk r chain final Hn Hs N U F) as (S' & A' & B').
    destruct (IH (i + 1) _ S') as (r' & E' & S2 & K2 & D2); [lia | lia |]. exists r'. split; [done |]. split; [done |]. split.
    + intros j Hj. by apply K2, B'.
    + intros j Hj. destruct (decide (j = i)) as [-> |]; [by apply K2, A', Hin | apply D2; lia].
  - destruct (IH (i + 1) r Hs) as (r' & E' & S2 & K2 & D2); [lia | lia |]. exists r'. split; [done |]. split; [done |]. split; [done |].
    intros j Hj. destruct (decide (j = i)) as [-> |]; [by apply K2 | apply D2; lia].
Qed.

(** ** The whole resolver *)

Definition all_positions : list Z := seqZ 0 (zlen ix.(ix_records)).

Lemma mark_system_exact rs k r : include_system_metafiles = false -> zlen ix.(ix_records) < 2 ^ 32 ->
  spread all_positions r -> 0 <= k -> (forall j x, zget rs j = Some x -> zget ix.(ix_records) (k + j) = Some x) ->
  (forall j, k <= j < zlen ix.(ix_records) -> zget r.(pr_state) j = Some UNSEEN) ->
  spread all_positions (mark_system_from rs k r) /\ kept r (mark_system_from rs k r) /\
  (forall j x, zget rs j = Some x -> is_system_metafile x = true -> zget (pr_state (mark_system_from rs k r)) (k + j) = Some INVALID).
Proof.
  intros Hincl Hn. revert k r. induction rs as [|x rs IH]; intros k r Hs Hk Hrs Hu.
  { split; [done |]. split; [by intros j |]. intros j y [Hj _]%zget_Some. unfold zlen in Hj. cbn in Hj. lia. }
  assert (Hx : zget ix.(ix_records) k = Some x) by (rewrite <- (Z.add_0_r k); by apply Hrs).
  assert (Hrs' : forall j y, zget rs j = Some y -> zget ix.(ix_records) (k + 1 + j) = Some y).
  { intros j y Hj. replace (k + 1 + j) with (k + (j + 1)) by lia. apply Hrs. pose proof (proj1 (zget_Some _ _ _) Hj) as [Hb _].
    change (x :: rs) with ([x] ++ rs). rewrite zget_app_r by (change (zlen [x]) with 1; lia). change (zlen [x]) with 1. by replace (j + 1 - 1) with j by lia. }
  assert (Hshift : forall j y, zget (x :: rs) j = Some y -> j = 0 /\ y = x \/ zget rs (j - 1) = Some y).
  { intros j y Hj. pose proof (proj1 (zget_Some _ _ _) Hj) as [Hb _]. destruct (decide (j = 0)) as [-> |].
    - left. split; [done |]. unfold zget in Hj. cbn in Hj. by injection Hj as <-.
    - right. change (x :: rs) with ([x] ++ rs) in Hj. by rewrite zget_app_r in Hj by (change (zlen [x]) with 1; lia). }
  pose proof (proj1 (zget_Some _ _ _) Hx) as [Hkb _]. pose proof (Hu k ltac:(lia)) as Huk. cbn [mark_system_from].
  destruct (is_system_metafile x) eqn:Ex.
  - rewrite Huk. assert (Hh : hidden k) by by eapply hidden_system.
    destruct (spread_mark all_positions r k Hn Hs Hh Huk) as (S1 & K1 & I1 & _).
    destruct (IH (k + 1) (mark_invalid k r)) as (S2 & K2 & I2); try done; [|lia| |].
    + eapply spread_open; [|exact S1]. intros y [-> | Hy]%elem_of_cons; [apply elem_of_seqZ; lia | done].
    + intros j Hj. cbn. rewrite zget_zset_ne by lia. apply Hu. lia.
    + split; [done |]. split; [by eapply kept_trans |]. intros j y Hj Hy. destruct (Hshift j y Hj) as [[-> ->] | Hj']; [rewrite Z.add_0_r; by apply K2 |].
      replace (k + j) with (k + 1 + (j - 1)) by lia. by apply (I2 (j - 1) y).
  - destruct (IH (k + 1) r) as (S2 & K2 & I2); try done; [lia | by intros j Hj; apply Hu; lia |].
    split; [done |]. split; [done |]. intros j y Hj Hy. destruct (Hshift j y Hj) as [[-> ->] | Hj']; [congruence |].
    replace (k + j) with (k + 1 + (j - 1)) by lia. by apply (I2 (j - 1) y).
Qed.

Lemma elem_of_positions s states i : i ∈ positions_of s states <-> zget states i = Some s.
Proof.
  unfold positions_of. rewrite list_elem_of_In, filter_In, <- list_elem_of_In, elem_of_seqZ, bool_decide_eq_true. split; [tauto |].
  intros H. split; [|done]. apply zget_Some in H as [? _]. lia.
Qed.

Lemma positions_count s states : zlen (positions_of s states) = count s states.
Proof.
  induction states as [|x states IH] using rev_ind; [done |]. unfold count. rewrite List.filter_app, zlen_app. fold (count s states). rewrite <- IH.
  unfold positions_of. rewrite zlen_app. change (zlen [x]) with 1. pose proof (zlen_nonneg states).
  rewrite seqZ_app by lia. rewrite List.filter_app, zlen_app. f_equal.
  - f_equal. apply filter_ext_in. intros i Hi%list_elem_of_In%elem_of_seqZ. by rewrite zget_app_l by lia.
  - rewrite Z.add_0_l. change (seqZ (zlen states) 1) with [zlen states]. cbn [List.filter].
    rewrite zget_app_r by lia. rewrite Z.sub_diag. change (zget [x] 0) with (Some x).
    destruct (Z.eqb_spec s x) as [-> | Hne]; [by rewrite bool_decide_eq_true_2 |]. by rewrite bool_decide_eq_false_2 by congruence.
Qed.

Lemma build_settled : index_wf ix -> zlen ix.(ix_records) < 2 ^ 32 ->
  exists r, PathResolver_build ix include_system_metafiles = Some r /\ settled r /\ forall j, zget r.(pr_state) j <> Some UNSEEN.
Proof.
  intros Hwf Hn. pose proof (zlen_nonneg (ix_records ix)) as H0. unfold PathResolver_build.
  set (r0 := {| pr_state := zrepeat UNSEEN (zlen (ix_records ix)); pr_volume := ix_volume ix; pr_valid_count := 0; pr_invalid_count := 0 |}).
  assert (Hu0 : forall j, 0 <= j < zlen (ix_records ix) -> zget r0.(pr_state) j = Some UNSEEN).
  { intros j Hj. unfold r0. cbn [pr_state]. rewrite zget_zrepeat_if by lia. by rewrite (proj2 (Z.ltb_lt _ _)) by lia. }
  assert (Hu0' : forall j s, zget r0.(pr_state) j = Some s -> s = UNSEEN).
  { intros j s Hj. apply zget_Some in Hj as [_ Hj]. unfold r0, zrepeat in Hj. by apply lookup_replicate in Hj as []. }
  assert (S0 : spread all_positions r0).
  { split; [| | | |done|done].
    - unfold r0, zrepeat, zlen. cbn [pr_state]. rewrite length_replicate. unfold zlen in H0. lia.
    - intros j s Hj. left. by eapply Hu0'.
    - intros p rp ce j Hp. by apply Hu0' in Hp.
    - unfold r0. cbn [pr_state pr_invalid_count]. unfold count. unfold zrepeat.
      induction (Z.to_nat (zlen (ix_records ix))) as [|m IH]; [done |]. cbn [replicate List.filter]. change (INVALID =? UNSEEN) with false. exact IH. }
  assert (Hm : exists r1, (if include_system_metafiles then r0 else mark_system_metafiles_invalid ix r0) = r1 /\ spread all_positions r1 /\
    (forall j x, zget ix.(ix_records) j = Some x -> is_system_metafile x = true -> include_system_metafiles = false -> zget r1.(pr_state) j = Some INVALID)).
  { destruct include_system_metafiles eqn:Ei; [by exists r0 |]. exists (mark_system_metafiles_invalid ix r0). split; [done |].
    destruct (mark_system_exact (ix_records ix) 0 r0) as (S1 & _ & I1); try done. split; [done |].
    intros j x Hj Hx _. rewrite <- (Z.add_0_l j). by apply (I1 j x). }
  destruct Hm as (r1 & -> & S1 & I1). unfold propagate_invalid_to_descendants.
  destruct (propagate_exact (S (length (pr_state r1))) (positions_of INVALID (pr_state r1)) r1) as (r2 & -> & S2 & K2); try done.
  { destruct S1 as [A1 A2 A3 A4 A5 A6]. split; try done. intros p rp ce i Hp Hno. exfalso. apply Hno. by apply elem_of_positions. }
  { apply Forall_forall. intros i Hi. by apply elem_of_positions. }
  { rewrite positions_count. pose proof (counts_le (pr_state r1)). pose proof (count_le VALID (pr_state r1)). unfold zlen in *. lia. }
  assert (Hhid : forall i, hidden i -> zget r2.(pr_state) i = Some INVALID).
  { induction 1 as [i x Hi Hx Hs | p rp ce i _ IH Hrp Hce Hl Hb]; [by eapply K2, I1 |].
    eapply (sp_closed _ _ S2 p); try done. by intros ?%elem_of_nil. }
  cbn [mbind option_bind]. unfold validate_remaining.
  assert (Hset : settled r2).
  { destruct S2 as [A1 A2 A3 A4 A5 A6]. split; try done.
    - intros i s Hi. destruct (A2 i s Hi) as [-> | [-> Hh]]; [left | right; right].
      + split; [done |]. intros Hh%Hhid. rewrite Hi in Hh. discriminate.
      + split; [done |]. by intros ?%rooted_visible.
    - rewrite A5. destruct (decide (count VALID (pr_state r2) = 0)) as [-> | Hne]; [done |]. exfalso. unfold count in Hne.
      destruct (List.filter (Z.eqb VALID) (pr_state r2)) as [|y l] eqn:El; [done |].
      assert (Hy : In y (List.filter (Z.eqb VALID) (pr_state r2))) by (rewrite El; by left). apply filter_In in Hy as [Hy <-%Z.eqb_eq].
      apply list_elem_of_In, list_elem_of_lookup in Hy as [k Hk].
      destruct (A2 (Z.of_nat k) VALID) as [? | [? _]]; [|discriminate|discriminate].
      apply zget_Some. rewrite Nat2Z.id. apply lookup_lt_Some in Hk as Hk'. unfold zlen. split; [lia | done]. }
  destruct (validate_from_exact (length (ix_records ix)) 0 r2) as (r3 & E & S3 & _ & D3); try done.
  exists r3. split; [done |]. split; [done |]. intros j Hj. pose proof (proj1 (zget_Some _ _ _) Hj) as [Hb _]. by apply (D3 j); [lia |].
Qed.

(** * The paths of rooted records *)

(** The chain of a record: itself and its parents, to where the walks end. *)
Inductive parents : Z -> list Z -> Prop :=
| parents_end i r : zget ix.(ix_records) i = Some r -> next_parent ix r = None -> parents i [i]
| parents_up i r p l : zget ix.(ix_records) i = Some r -> next_parent ix r = Some p -> parents p l -> parents i (i :: l).

Lemma parents_unique i l l' : parents i l -> parents i l' -> l = l'.
Proof.
  intros H. revert l'. induction H as [i r Hr Hn | i r p l Hr Hn _ IH]; intros l' H'; inversion H' as [i' r' Hr' Hn' | i' r' p' k Hr' Hn' Hk]; subst;
    rewrite Hr in Hr'; injection Hr' as <-; try congruence. f_equal. apply IH. by replace p with p' by congruence.
Qed.

Lemma parents_suffix i l x : parents i l -> x ∈ l -> exists l1 l2, l = l1 ++ l2 /\ parents x l2.
Proof.
  induction 1 as [i r Hr Hn | i r p l Hr Hn Hl IH]; intros Hx.
  - apply list_elem_of_singleton in Hx as ->. exists [], [i]. split; [done | by eapply parents_end].
  - apply elem_of_cons in Hx as [-> | Hx]; [exists [], (i :: l); split; [done | by eapply parents_up] |].
    destruct (IH Hx) as (l1 & l2 & -> & H2). exists (i :: l1), l2. by split.
Qed.

Lemma parents_range i l : parents i l -> Forall (fun x => 0 <= x < zlen ix.(ix_records)) l.
Proof.
  induction 1 as [i r Hr _ | i r p l Hr _ _ IH]; apply zget_Some in Hr as [Hb _]; [by apply Forall_singleton | by constructor].
Qed.

Lemma parents_NoDup i l : parents i l -> NoDup l.
Proof.
  induction 1 as [i r Hr Hn | i r p l Hr Hn Hl IH]; [apply NoDup_singleton |]. apply NoDup_cons. split; [|done]. intros Hi.
  destruct (parents_suffix _ _ _ Hl Hi) as (l1 & l2 & -> & H2). pose proof (parents_up i r p (l1 ++ l2) Hr Hn Hl) as H1.
  pose proof (parents_unique _ _ _ H1 H2) as E. apply (f_equal length) in E. cbn in E. rewrite length_app in E. lia.
Qed.

Lemma parents_length i l : parents i l -> (length l <= length ix.(ix_records))%nat.
Proof.
  intros H. pose proof (NoDup_range_length (zlen (ix_records ix)) l (zlen_nonneg _) (parents_NoDup _ _ H) (parents_range _ _ H)) as Hl.
  unfold zlen in Hl. lia.
Qed.

Lemma rooted_parents i : rooted i -> exists l, parents i l /\ Forall rooted l.
Proof.
  intros H. pose proof H as H0. revert H0. induction H as [i r Hh Hr E | i r Hh Hr E _ _ | i r p Hh Hr E Hp IH]; intros Hi.
  - exists [i]. split; [|by apply Forall_singleton]. eapply parents_end; [done |]. unfold next_parent. by rewrite E.
  - exists [i]. split; [by eapply parents_end | by apply Forall_singleton].
  - destruct (IH Hp) as (l & Hl & Hall). exists (i :: l). split; [by eapply parents_up | by constructor].
Qed.

Lemma walk_parents_exact fuel i l : parents i l -> (length l <= fuel)%nat -> walk_parents fuel ix i = Some l.
Proof.
  intros H. revert fuel. induction H as [i r Hr Hn | i r p l Hr Hn _ IH]; intros [|fuel] Hf; cbn in Hf; try lia; cbn [walk_parents]; rewrite Hr, Hn; [done |].
  rewrite IH by lia. done.
Qed.

(** ** Their text *)

(** A record's part of a path, the separator first. *)
Definition component (i : Z) : list Z :=
  match zget ix.(ix_records) i with
  | Some r => if is_component (record_name ix r) then BACKSLASH :: record_name ix r else []
  | None => []
  end.

Definition body (l : list Z) : list Z := concat (map component (rev l)).

Lemma body_app a b : body (a ++ b) = body b ++ body a.
Proof. unfold body. by rewrite rev_app_distr, map_app, concat_app. Qed.

Lemma push_names_body l out : push_names ix l out = out ++ body l.
Proof.
  unfold push_names, body. revert out. induction (rev l) as [|x k IH]; intros out; cbn [foldl map concat]; [by rewrite app_nil_r |].
  rewrite IH, app_assoc. f_equal. unfold component. destruct (zget _ x); [|by rewrite app_nil_r]. destruct (is_component _); [done | by rewrite app_nil_r].
Qed.

(** The path with this body: the drive, and a separator when there is nothing after it. *)
Definition drive_path (v : Z) (b : list Z) : list Z := match b with [] => [v; COLON; BACKSLASH] | _ => v :: COLON :: b end.

Lemma component_head x : component x = [] \/ exists name, component x = BACKSLASH :: name /\ name <> [] /\
  exists r, zget ix.(ix_records) x = Some r /\ name = record_name ix r /\ is_component name = true.
Proof.
  unfold component. destruct (zget _ x) as [r|]; [|by left]. destruct (is_component _) eqn:E; [right | by left].
  exists (record_name ix r). split; [done |]. split; [|by exists r]. intros Hn. unfold is_component in E. rewrite Hn in E. done.
Qed.

Lemma body_short l : zlen (body l) = 0 <-> body l = [].
Proof. split; [|by intros ->]. intros H. apply nil_length_inv. unfold zlen in H. lia. Qed.

Lemma path_of_chain_eq r l : path_of_chain r ix l [] = drive_path r.(pr_volume) (body l).
Proof.
  unfold path_of_chain. cbn [app]. rewrite push_names_body. unfold normalize_root. destruct (body l) as [|c b]; [done |].
  cbn [app]. rewrite !zlen_cons. pose proof (zlen_nonneg b). rewrite (proj2 (Z.eqb_neq _ 2)) by lia. done.
Qed.

Lemma path_of_chain_into r l out : out = [] \/ body l <> [] ->
  path_of_chain r ix l out = out ++ drive_path r.(pr_volume) (body l).
Proof.
  intros [-> | Hb]; [apply path_of_chain_eq |]. unfold path_of_chain. rewrite push_names_body, <- app_assoc. cbn [app].
  destruct (body l) as [|c b]; [done |]. unfold normalize_root, drive_path. rewrite zlen_app, !zlen_cons. pose proof (zlen_nonneg b). pose proof (zlen_nonneg out).
  by rewrite (proj2 (Z.eqb_neq _ 2)) by lia.
Qed.

(** Names do not end with the separator: it is no character of a name. *)
Definition clean_names : Prop :=
  forall i r, zget ix.(ix_records) i = Some r -> is_component (record_name ix r) = true -> last (record_name ix r) <> Some BACKSLASH.

Lemma ends_with_app c a b : b <> [] -> ends_with c (a ++ b) = ends_with c b.
Proof. intros Hb. unfold ends_with. destruct b as [|x b]; [done |]. by rewrite last_app_cons. Qed.

Lemma append_step v out b x : clean_names -> last b <> Some BACKSLASH ->
  (match zget ix.(ix_records) x with
   | Some record =>
       let name := record_name ix record in
       if is_component name
       then (if ends_with BACKSLASH (out ++ drive_path v b) then out ++ drive_path v b else (out ++ drive_path v b) ++ [BACKSLASH]) ++ name
       else out ++ drive_path v b
   | None => out ++ drive_path v b
   end) = out ++ drive_path v (b ++ component x) /\ last (b ++ component x) <> Some BACKSLASH.
Proof.
  intros Hc Hb. unfold component. destruct (zget (ix_records ix) x) as [r|] eqn:Er; [|by rewrite app_nil_r]. cbn zeta.
  destruct (is_component (record_name ix r)) eqn:Ei; [|by rewrite app_nil_r]. specialize (Hc x r Er Ei).
  assert (Hne : record_name ix r <> []) by (intros E; unfold is_component in Ei; by rewrite E in Ei). split.
  - destruct b as [|c b].
    + cbn [drive_path app]. rewrite (ends_with_app _ out) by done. change (ends_with BACKSLASH [v; COLON; BACKSLASH]) with true. cbn match. by rewrite <- app_assoc.
    + cbn [drive_path app]. rewrite (ends_with_app _ out) by done. unfold ends_with.
      change (v :: COLON :: c :: b) with ([v; COLON] ++ c :: b). rewrite last_app_cons.
      rewrite bool_decide_eq_false_2 by done. by rewrite <- !app_assoc.
  - destruct (record_name ix r) as [|d name] eqn:En; [done |]. rewrite last_app_cons. cbn [last]. exact Hc.
Qed.

Lemma append_names_body v out l k : clean_names -> last (body l) <> Some BACKSLASH ->
  append_names ix k (out ++ drive_path v (body l)) = out ++ drive_path v (body (k ++ l)).
Proof.
  intros Hc Hb. rewrite body_app. unfold append_names. unfold body at 3. revert Hb. generalize (body l) as b. intros b.
  revert b. induction (rev k) as [|x m IH]; intros b Hb; cbn [foldl map concat]; [by rewrite app_nil_r |].
  destruct (append_step v out b x Hc Hb) as [E Hb']. cbn zeta in E. rewrite E, IH by done. by rewrite app_assoc.
Qed.

Lemma body_last l : clean_names -> last (body l) <> Some BACKSLASH.
Proof.
  intros Hc. unfold body. enough (H : forall k b, last b <> Some BACKSLASH -> last (b ++ concat (map component k)) <> Some BACKSLASH) by by apply (H (rev l) []).
  intros k. induction k as [|x k IH]; intros b Hb; cbn [map concat]; [by rewrite app_nil_r |]. rewrite app_assoc. apply IH.
  by apply (append_step 0 [] b x).
Qed.

(** ** The cache of the directories *)

Definition directory_path (r : PathResolver) (i : Z) : list Z :=
  match zget ix.(ix_records) i with
  | Some rec =>
      if is_valid_idx r i && is_directory rec then
        match walk_parents (S (length ix.(ix_records))) ix i with Some l => drive_path r.(pr_volume) (body l) | None => [] end
      else []
  | None => []
  end.

Lemma walk_parents_fuel fuel i l : (length ix.(ix_records) < fuel)%nat -> parents i l -> walk_parents fuel ix i = Some l.
Proof. intros Hf H. apply walk_parents_exact; [done |]. pose proof (parents_length _ _ H). lia. Qed.

Lemma pre_cache_exact n fuel r i : (length ix.(ix_records) < fuel)%nat ->
  (forall j, is_valid_idx r j = true -> rooted j) ->
  pre_cache_from n fuel r ix i = Some (map (directory_path r) (seqZ i (Z.of_nat n))).
Proof.
  intros Hf Hv. revert i. induction n as [|n IH]; intros i; [done |]. cbn [pre_cache_from].
  replace (seqZ i (Z.of_nat (S n))) with (i :: seqZ (i + 1) (Z.of_nat n)) by (rewrite (seqZ_cons i (Z.of_nat (S n))) by lia; do 2 f_equal; lia).
  cbn [map]. rewrite IH. unfold directory_path at 2.
  destruct (zget (ix_records ix) i) as [rec|]; [|by rewrite andb_false_r]. destruct (is_valid_idx r i) eqn:Ev; cbn [andb]; [|done].
  destruct (is_directory rec); [|done]. destruct (rooted_parents i (Hv i Ev)) as (l & Hl & _). unfold materialize_path.
  rewrite (walk_parents_fuel fuel i l), (walk_parents_fuel (S (length (ix_records ix))) i l) by (done || lia). cbn [mbind option_bind].
  by rewrite path_of_chain_eq.
Qed.

Lemma walk_cached_exact fuel r cache i l : (length l <= fuel)%nat ->
  (forall j, 0 <= j < zlen ix.(ix_records) -> zget cache j = Some (directory_path r j)) -> parents i l ->
  exists front back, l = front ++ back /\
    (walk_cached fuel ix cache i = Some (None, front) /\ back = [] \/
     walk_cached fuel ix cache i = Some (Some (drive_path r.(pr_volume) (body back)), front)).
Proof.
  intros Hf Hcache Hl. revert fuel Hf. induction Hl as [i rec Hr Hn | i rec p l Hr Hn Hl IH]; intros [|fuel] Hf; cbn in Hf; try lia.
  all: pose proof (proj1 (zget_Some _ _ _) Hr) as [Hb _]; cbn [walk_cached]; rewrite (Hcache i Hb); cbn [default id]; unfold id.
  - assert (Hp : parents i [i]) by by eapply parents_end. unfold directory_path. rewrite Hr.
    destruct (_ && _) eqn:Ev.
    + rewrite (walk_parents_fuel _ i [i]) by (done || lia). exists [], [i]. split; [done |]. right. by destruct (body [i]).
    + cbn. rewrite Hn. exists [i], []. split; [by rewrite app_nil_r |]. by left.
  - assert (Hp : parents i (i :: l)) by by eapply parents_up. unfold directory_path. rewrite Hr.
    destruct (_ && _) eqn:Ev.
    + rewrite (walk_parents_fuel _ i (i :: l)) by (done || lia). exists [], (i :: l). split; [done |]. right. by destruct (body (i :: l)).
    + cbn. rewrite Hn. destruct (IH fuel) as (front & back & -> & [[-> ->] | ->]); [lia | |]; exists (i :: front).
      * exists []. split; [done |]. by left.
      * exists back. split; [done |]. by right.
Qed.

(** ** Paths from the record numbers *)

Definition names_of_chain (l : list Z) : list (list Z) :=
  concat (map (fun i => match zget ix.(ix_records) i with
    | Some r => if is_component (record_name ix r) then [record_name ix r] else [] | None => [] end) l).

Lemma find_idx f i : frs_to_idx_opt f ix = Some i -> find f ix = zget ix.(ix_records) i.
Proof. intros E. unfold find. by rewrite E. Qed.

Lemma find_parent f i : index_wf ix -> zlen ix.(ix_frs_to_idx) <= U64_MAX -> frs_to_idx_opt f ix = Some i ->
  exists r, find f ix = Some r /\ zget ix.(ix_records) i = Some r /\ r.(fr_frs) = f.
Proof.
  intros Hwf Ht E. rewrite (find_idx _ _ E).
  assert (Hf : is_u64 f).
  { unfold frs_to_idx_opt in E. destruct (zget _ _) as [k|] eqn:Ek; [|done]. apply zget_Some in Ek as [Hb _].
    unfold frs_to_usize in Hb. unfold U64_MAX in *. destruct (Z.ltb_spec f (2 ^ 64)); lia. }
  destruct (lookup_record ix f i Hwf Hf E) as (r & Hr & Hfr & _). by exists r.
Qed.

Lemma find_own i r : index_wf ix -> zlen ix.(ix_frs_to_idx) <= U64_MAX -> zlen ix.(ix_records) < 2 ^ 32 ->
  zget ix.(ix_records) i = Some r -> frs_to_idx_opt r.(fr_frs) ix = Some i.
Proof.
  intros [[_ H2] _] Ht Hn Hr. pose proof (H2 i r Hr) as E. pose proof (proj1 (zget_Some _ _ _) E) as [Hb _].
  pose proof (proj1 (zget_Some _ _ _) Hr) as [Hi _]. unfold frs_to_idx_opt, frs_to_usize. unfold U64_MAX in Ht.
  rewrite (proj2 (Z.ltb_lt _ _)) by lia. rewrite E. cbn [mbind option_bind]. unfold NO_ENTRY, U32_MAX. by rewrite (proj2 (Z.eqb_neq _ _)) by lia.
Qed.

Lemma build_components_exact fuel i r l : index_wf ix -> zlen ix.(ix_frs_to_idx) <= U64_MAX ->
  parents i l -> zget ix.(ix_records) i = Some r -> find r.(fr_frs) ix = Some r -> (length l < fuel)%nat ->
  build_components fuel ix r.(fr_frs) = Some (names_of_chain l).
Proof.
  intros Hwf Ht Hl. revert fuel r. induction Hl as [i rec Hr Hn | i rec p l Hr Hn Hl IH]; intros [|fuel] r Hr' Hfind Hf; cbn in Hf; try lia;
    rewrite Hr in Hr'; injection Hr' as <-; cbn [build_components]; rewrite Hfind; unfold names_of_chain; cbn [map concat]; rewrite Hr;
    unfold next_parent in Hn; destruct (Z.eqb_spec (li_parent_frs (fr_first_name rec)) ROOT_FRS) as [Hroot | Hroot]; cbn [orb] in Hn; try discriminate.
  - rewrite app_nil_r. by destruct (_ || _).
  - rewrite orb_comm. destruct (_ || _) eqn:E; [by rewrite app_nil_r |]. destruct fuel as [|fuel]; [lia |]. cbn [build_components].
    unfold find. rewrite Hn. cbn [mbind option_bind]. done.
  - rewrite orb_comm. destruct (_ || _) eqn:E; [done |]. destruct (find_parent _ _ Hwf Ht Hn) as (rp & Hfp & Hrp & Efrs).
    pose proof (IH fuel rp Hrp) as Hb. rewrite Efrs in Hb. rewrite Hb; [done | done | lia].
Qed.

Definition shown_component (x : Z) : option (list Z) :=
  let? r := zget ix.(ix_records) x in if is_component (record_name ix r) then Some (record_name ix r) else None.

Lemma component_shown x : component x = match shown_component x with Some name => BACKSLASH :: name | None => [] end.
Proof. unfold component, shown_component. destruct (zget _ x) as [r|]; [|done]. cbn [mbind option_bind]. by destruct (is_component _). Qed.

Lemma names_of_chain_rev l : rev (names_of_chain l) = omap shown_component (rev l).
Proof.
  unfold names_of_chain. induction l as [|x l IH]; [done |]. cbn [map concat rev]. rewrite omap_app, rev_app_distr, IH. f_equal.
  cbn [omap list_omap]. unfold shown_component. destruct (zget _ x) as [r|]; [|done]. cbn [mbind option_bind]. by destruct (is_component _).
Qed.

Lemma join_components k :
  concat (map component k) = match omap shown_component k with [] => [] | cs => BACKSLASH :: join_backslash cs end.
Proof.
  induction k as [|x k IH]; [done |]. cbn [map concat omap list_omap]. rewrite component_shown, IH.
  destruct (shown_component x) as [name|]; [|done]. by destruct (omap _ k) as [|c cs]; [rewrite app_nil_r |].
Qed.

Lemma join_drive v l : format_path v (names_of_chain l) = drive_path v (body l).
Proof.
  unfold format_path, body. rewrite names_of_chain_rev, join_components. by destruct (omap _ (rev l)) as [|c cs].
Qed.
End specification.

(** * Theorems *)

(** C9: the resolver is always built: the queue visits every record once, and a walk no record
    twice.  A record is valid exactly when its parents lead to the root and neither it nor
    one of them is a system metafile or below one; every other record is invalid, the
    records of a cycle among them, and the counts are those of the states. *)
Theorem path_resolver_exact ix include_system_metafiles :
  index_wf ix -> zlen ix.(ix_records) < 2 ^ 32 ->
  exists r, PathResolver_build ix include_system_metafiles = Some r /\
    (forall i rec, zget ix.(ix_records) i = Some rec -> is_valid_idx r i = true <-> rooted ix include_system_metafiles i) /\
    (forall i rec, zget ix.(ix_records) i = Some rec -> zget r.(pr_state) i = Some (if is_valid_idx r i then VALID else INVALID)) /\
    r.(pr_valid_count) = count VALID r.(pr_state) /\ r.(pr_invalid_count) = count INVALID r.(pr_state) /\
    zlen r.(pr_state) = zlen ix.(ix_records).
Proof.
  intros Hwf Hn. destruct (build_settled ix include_system_metafiles Hwf Hn) as (r & E & [S1 S2 S3 S4 S5] & Hu). exists r. split; [done |].
  assert (H : forall i rec, zget ix.(ix_records) i = Some rec ->
    (is_valid_idx r i = true <-> rooted ix include_system_metafiles i) /\ zget r.(pr_state) i = Some (if is_valid_idx r i then VALID else INVALID)).
  { intros i rec Hr. apply zget_Some in Hr as [Hb _]. destruct (zget_is_Some r.(pr_state) i) as [s Hs]; [lia |].
    unfold is_valid_idx. rewrite Hs. destruct (S2 i s Hs) as [[-> _] | [[-> Hr] | [-> Hr]]]; [by destruct (Hu i) | |].
    - by rewrite bool_decide_eq_true_2.
    - by rewrite bool_decide_eq_false_2. }
  split; [intros i rec Hr; by apply (H i rec) |]. split; [intros i rec Hr; by apply (H i rec) |]. done.
Qed.

(** The walks of a valid record end within the number of records, and all the ways to its
    path agree: materialized, over the cached directories, appended to a text, and built
    from its record number. *)
Theorem index_paths_agree ix include_system_metafiles fuel :
  index_wf ix -> zlen ix.(ix_records) < 2 ^ 32 -> zlen ix.(ix_frs_to_idx) <= U64_MAX -> clean_names ix ->
  (S (length ix.(ix_records)) <= fuel)%nat ->
  exists c, PathCache_build fuel ix include_system_metafiles = Some c /\
    forall i rec, zget ix.(ix_records) i = Some rec -> is_valid_idx c.(pc_resolver) i = true ->
      exists path, materialize_path fuel c.(pc_resolver) ix i = Some path /\
        PathCache_get fuel c ix rec.(fr_frs) = Some (Some path) /\
        materialize_path_cached fuel c.(pc_resolver) ix i c.(pc_dir_cache) = Some path /\
        build_path fuel ix rec.(fr_frs) = Some path /\
        (forall out, zlen path <> 3 -> materialize_path_into fuel c.(pc_resolver) ix i c.(pc_dir_cache) out = Some (out ++ path)).
Proof.
  intros Hwf Hn Ht Hc Hf. destruct (build_settled ix include_system_metafiles Hwf Hn) as (r & E & [S1 S2 S3 S4 S5] & Hu).
  assert (Hv : forall j, is_valid_idx r j = true -> rooted ix include_system_metafiles j).
  { intros j Hj. unfold is_valid_idx in Hj. apply bool_decide_eq_true in Hj. destruct (S2 j _ Hj) as [[? _] | [[_ ?] | [? _]]]; done. }
  unfold PathCache_build. rewrite E. cbn [mbind option_bind]. unfold pre_cache_directory_paths.
  rewrite (pre_cache_exact ix include_system_metafiles) by (done || lia). cbn [mbind option_bind]. eexists. split; [reflexivity |].
  cbn [pc_resolver pc_dir_cache]. intros i rec Hr Hvi. destruct (rooted_parents ix _ i (Hv i Hvi)) as (l & Hl & _).
  pose proof (parents_length ix i l Hl) as Hlen.
  assert (Hm : materialize_path fuel r ix i = Some (drive_path r.(pr_volume) (body ix l))).
  { unfold materialize_path. rewrite (walk_parents_fuel ix fuel i l) by (done || lia). cbn [mbind option_bind]. by rewrite path_of_chain_eq. }
  exists (drive_path r.(pr_volume) (body ix l)). split; [done |].
  pose proof (find_own ix i rec Hwf Ht Hn Hr) as Hidx. split.
  { unfold PathCache_get. rewrite Hidx. cbn [pc_resolver]. rewrite Hvi, Hm. done. }
  assert (Hinto : forall out, out = [] \/ zlen (drive_path r.(pr_volume) (body ix l)) <> 3 ->
    materialize_path_into fuel r ix i (map (directory_path ix r) (seqZ 0 (Z.of_nat (length ix.(ix_records))))) out =
      Some (out ++ drive_path r.(pr_volume) (body ix l))).
  { intros out Hout. unfold materialize_path_into.
    destruct (walk_cached_exact ix fuel r (map (directory_path ix r) (seqZ 0 (Z.of_nat (length ix.(ix_records))))) i l) as (front & back & -> & [[-> ->] | ->]);
      [lia | | done | |].
    - intros j Hj. unfold zlen in Hj. rewrite zget_map. rewrite (proj2 (zget_Some (seqZ 0 _) j j)); [done |].
      unfold zlen. rewrite length_seqZ. split; [lia |]. rewrite lookup_seqZ_lt by lia. f_equal. lia.
    - cbn [mbind option_bind fst snd]. rewrite app_nil_r in *. f_equal. apply path_of_chain_into. destruct Hout as [-> | Hout]; [by left |]. right.
      intros Hb. rewrite Hb in Hout. done.
    - cbn [mbind option_bind fst snd]. f_equal. apply append_names_body; [done | by apply body_last]. }
  split; [apply (Hinto []); by left |]. split; [|intros out Ho; apply Hinto; by right].
  unfold build_path. rewrite (build_components_exact ix fuel i rec l) by (done || lia || by rewrite (find_idx _ _ _ Hidx)). cbn [mbind option_bind].
  by rewrite join_drive, S5.
Qed.

(** Directories that name each other as parents.  The resolver marks them invalid, but the
    walks have no guard of their own: a path built from a record number, and the path of a
    second name of a valid file when that name lies in one of them, have no end. *)
Theorem cyclic_parents_never_end ix (loop : Z -> Prop) :
  index_wf ix -> zlen ix.(ix_records) < 2 ^ 32 -> zlen ix.(ix_frs_to_idx) <= U64_MAX ->
  (forall i, loop i -> exists r j, zget ix.(ix_records) i = Some r /\ next_parent ix r = Some j /\ loop j) ->
  forall fuel r i rec, loop i -> zget ix.(ix_records) i = Some rec ->
    materialize_path fuel r ix i = None /\ build_path fuel ix rec.(fr_frs) = None /\
    forall idx file k link, zget ix.(ix_records) idx = Some file -> k <> 0 -> get_link_at ix file k = Some link ->
      frs_to_idx_opt link.(li_parent_frs) ix = Some i -> materialize_path_for_name fuel r ix idx k = None.
Proof.
  intros Hwf Hn Ht Hloop fuel r i rec Hi Hr.
  assert (Hw : forall fuel i, loop i -> walk_parents fuel ix i = None).
  { clear - Hloop. intros fuel. induction fuel as [|fuel IH]; intros i Hi; [done |]. destruct (Hloop i Hi) as (r & j & Hr & Hj & Hl).
    cbn [walk_parents]. rewrite Hr, Hj, IH by done. done. }
  assert (Hb : forall fuel i rec, loop i -> zget (ix_records ix) i = Some rec -> build_components fuel ix (fr_frs rec) = None).
  { clear - Hloop Hwf Hn Ht. intros fuel. induction fuel as [|fuel IH]; intros i rec Hi Hr; [done |].
    destruct (Hloop i Hi) as (r' & j & Hr' & Hj & Hl). rewrite Hr in Hr'. injection Hr' as <-.
    cbn [build_components]. rewrite (find_idx _ _ _ (find_own ix i rec Hwf Ht Hn Hr)), Hr.
    unfold next_parent in Hj. destruct (_ =? ROOT_FRS) eqn:E1; cbn [orb] in Hj; [done |]. rewrite orb_comm. destruct (_ || _); [done |].
    destruct (find_parent ix _ _ Hwf Ht Hj) as (rp & _ & Hrp & Efrs). pose proof (IH j rp Hl Hrp) as H. rewrite Efrs in H. by rewrite H. }
  assert (Hm : materialize_path fuel r ix i = None) by (unfold materialize_path; by rewrite Hw).
  split; [done |]. split; [unfold build_path; by rewrite (Hb _ i) |]. intros idx file k link Hf Hk Hlink Hp. unfold materialize_path_for_name.
  rewrite (proj2 (Z.eqb_neq _ _) Hk), Hf, Hlink, Hp, Hm. done.
Qed.

(** ** Samples *)

Definition parse_all (records : list (list Z * Z)) : option MftIndex :=
  foldl (fun acc p => let? ix := acc in let? q := process_record identity_lower p.1 p.2 ix in Some q.2) (Some (MftIndex_new 67)) records.

Definition sample_record (p : list Z * Z) : bool := forallb (fun b => (0 <=? b) && (b <? 256)) p.1 && (0 <=? p.2) && (p.2 <? 1000).

Lemma parse_all_wf records ix :
  forallb sample_record records = true -> room (total (map (fun p => 3 * zlen p.1 + 1) records)) (MftIndex_new 67) ->
  parse_all records = Some ix -> index_wf ix.
Proof.
  unfold parse_all. intros Hs. assert (Hm : exists v, models (MftIndex_new 67) v) by (eexists; apply models_new). revert Hm.
  generalize (MftIndex_new 67) as ix0. revert Hs. induction records as [|[d f] records IH]; intros Hs ix0 [v Hm] Hroom E.
  { injection E as <-. apply (models_wf _ _ Hm). }
  cbn [forallb] in Hs. apply andb_true_iff in Hs as [Hd Hs]. unfold sample_record in Hd. cbn [fst snd] in Hd.
  cbn [map fst] in Hroom. change (total (?a :: ?l)) with (a + total l) in Hroom. cbn [foldl fst snd] in E.
  assert (Ht : 0 <= total (map (fun p => 3 * zlen p.1 + 1) records)).
  { apply total_nonneg, Forall_map, Forall_forall. intros p _. pose proof (zlen_nonneg p.1). lia. }
  destruct (process_record_models identity_lower d f ix0 v) as (ix1 & E1 & R1); [apply bytes_of_bool; by destruct (forallb _ d) | unfold U64_MAX; lia | done | |].
  - eapply room_mono; [|exact Hroom]. lia.
  - cbn [mbind option_bind] in E. rewrite E1 in E. cbn [mbind option_bind snd] in E.
    apply (IH Hs ix1); [eexists; apply R1 | by apply (reached_room _ _ _ _ R1) | exact E].
Qed.

(** A directory in the root and a file in it. *)
Definition sample_paths : option MftIndex :=
  parse_all [(sample_directory 5 [0x2E], 5); (sample_directory 5 [0x64], 30); (sample_file 0 30 [0x61; 0x2E; 0x62], 40)].

Lemma sample_paths_wf ix : sample_paths = Some ix -> index_wf ix.
Proof. unfold sample_paths. intros E. eapply parse_all_wf; [| |exact E]; [vm_compute; reflexivity | unfold room; vm_compute; repeat split]. Qed.

Lemma sample_paths_small ix : sample_paths = Some ix -> zlen ix.(ix_records) = 3 /\ zlen ix.(ix_frs_to_idx) <= U64_MAX /\ clean_names ix.
Proof.
  intros E. vm_compute in E. injection E as <-. split; [reflexivity |]. split; [vm_compute; discriminate |].
  intros i r Hr _. assert (Hi : i = 0 \/ i = 1 \/ i = 2) by (apply zget_Some in Hr as [Hi _]; unfold zlen in Hi; cbn [ix_records length] in Hi; lia).
  destruct Hi as [-> | [-> | ->]]; vm_compute in Hr; injection Hr as <-; vm_compute; discriminate.
Qed.

Lemma sample_paths_ready : exists ix, sample_paths = Some ix /\ index_wf ix /\ zlen ix.(ix_records) = 3 /\
  zlen ix.(ix_frs_to_idx) <= U64_MAX /\ clean_names ix.
Proof.
  assert (E : is_Some sample_paths) by (vm_compute; by eexists). destruct E as [ix E]. exists ix. split; [exact E |].
  split; [by apply sample_paths_wf | by apply sample_paths_small].
Qed.

Lemma path_resolver_exact_witness : exists ix r, sample_paths = Some ix /\ PathResolver_build ix false = Some r /\
  forall i rec, zget ix.(ix_records) i = Some rec -> is_valid_idx r i = true <-> rooted ix false i.
Proof.
  destruct sample_paths_ready as (ix & E & Hwf & Hn & _).
  destruct (path_resolver_exact ix false Hwf ltac:(rewrite Hn; lia)) as (r & Er & H & _). exists ix, r. split; [exact E | split; [exact Er | exact H]].
Defined.

Lemma index_paths_agree_witness : exists ix c, sample_paths = Some ix /\ PathCache_build 4 ix false = Some c /\
  forall i rec, zget ix.(ix_records) i = Some rec -> is_valid_idx c.(pc_resolver) i = true ->
    exists path, materialize_path 4 c.(pc_resolver) ix i = Some path /\ build_path 4 ix rec.(fr_frs) = Some path.
Proof.
  destruct sample_paths_ready as (ix & E & Hwf & Hn & Ht & Hc).
  destruct (index_paths_agree ix false 4 Hwf ltac:(rewrite Hn; lia) Ht Hc ltac:(unfold zlen in Hn; lia)) as (c & Ec & H).
  exists ix, c. split; [exact E | split; [exact Ec |]]. intros i rec Hr Hv. destruct (H i rec Hr Hv) as (path & H1 & _ & _ & H2 & _).
  exists path. split; [exact H1 | exact H2].
Defined.

(** [C:\d\a.b]. *)
Example sample_path : (let? ix := sample_paths in let? c := PathCache_build 4 ix false in PathCache_get 4 c ix 40) =
  Some (Some [67; 58; 92; 0x64; 92; 0x61; 0x2E; 0x62]).
Proof. vm_compute. reflexivity. Qed.

(** Two directories in each other, and a file first named in one of them, then in the root. *)
Definition sample_two_homes : list Z :=
  let attrs := sample_resident 0x30 (sample_name_value 20 [0x7A]) ++ sample_resident 0x30 (sample_name_value 5 [0x61]) ++ le_field 4 END_MARKER ++ zrepeat 0 12 in
  sample_mft_header 0 (48 + zlen attrs) ++ attrs.

Definition sample_loop : option MftIndex :=
  parse_all [(sample_directory 21 [0x64], 20); (sample_directory 20 [0x65], 21); (sample_two_homes, 40)].

Lemma sample_loop_wf ix : sample_loop = Some ix -> index_wf ix.
Proof. unfold sample_loop. intros E. eapply parse_all_wf; [| |exact E]; [vm_compute; reflexivity | unfold room; vm_compute; repeat split]. Qed.

Lemma sample_loop_shape ix : sample_loop = Some ix ->
  zlen ix.(ix_records) < 2 ^ 32 /\ zlen ix.(ix_frs_to_idx) <= U64_MAX /\
  (forall i, i = 0 \/ i = 1 -> exists r j, zget ix.(ix_records) i = Some r /\ next_parent ix r = Some j /\ (j = 0 \/ j = 1)) /\
  (exists rec, zget ix.(ix_records) 0 = Some rec) /\
  (exists file link, zget ix.(ix_records) 2 = Some file /\ get_link_at ix file 1 = Some link /\ frs_to_idx_opt link.(li_parent_frs) ix = Some 0) /\
  (exists r, PathResolver_build ix false = Some r /\ is_valid_idx r 2 = true).
Proof.
  intros E. vm_compute in E. injection E as <-. split; [reflexivity |]. split; [vm_compute; discriminate |]. split; [|split; [|split]].
  - intros i [-> | ->]; eexists; [exists 1 | exists 0]; (split; [reflexivity | split; [vm_compute; reflexivity | auto]]).
  - eexists. reflexivity.
  - eexists. eexists. split; [reflexivity |]. split; reflexivity.
  - match goal with |- exists r, ?b = Some r /\ _ => destruct b as [r|] eqn:Er end; vm_compute in Er; [|discriminate].
    exists r. split; [reflexivity |]. injection Er as <-. vm_compute. reflexivity.
Qed.

Lemma cyclic_parents_never_end_witness : exists ix r, sample_loop = Some ix /\ PathResolver_build ix false = Some r /\
  is_valid_idx r 2 = true /\ forall fuel, materialize_path_for_name fuel r ix 2 1 = None.
Proof.
  assert (E : is_Some sample_loop) by (vm_compute; by eexists). destruct E as [ix E].
  destruct (sample_loop_shape ix E) as (Hn & Ht & Hloop & (rec & Hrec) & (file & link & Hf & Hl & Hp) & (r & Er & Hv)).
  exists ix, r. split; [exact E | split; [exact Er | split; [exact Hv |]]]. intros fuel.
  destruct (cyclic_parents_never_end ix (fun i => i = 0 \/ i = 1) (sample_loop_wf ix E) Hn Ht Hloop fuel r 0 rec (or_introl eq_refl) Hrec) as (_ & _ & H).
  apply (H 2 file 1 link Hf ltac:(discriminate) Hl Hp).
Defined.
