(* ===== verification/IndexBuilder.v ===== *)
(** The compact index of a drive from the MFT index of its volume: one record per record
    number, one more per hard link and per stream of each name
    ([crates/uffs-core/src/compact/builder.rs]). *)
From S2P Require Import Prelude Text CaseFold CsrIndex TrigramIndex IndexDelta Bloom CompactIndex PathLen UsnBatch UsnPatch Filters PathResolve.
From S2P Require Import NtfsRecords NameCodec Arena MftIndex IndexViews RecordParser VolumeLinks MftTree IndexPaths.

(** [CompactRecord::default()]: all zero, no name. *)
Definition CompactRecord_default : CompactRecord := mkCompactRecord 0 0 0 0 0 0 0 0 0 0 0 0 0 0 0 0.

Definition resolve_parent_compact_idx (ix : MftIndex) (parent_frs own_frs : Z) : Z :=
  if (parent_frs =? own_frs) || (parent_frs =? NO_ENTRY) || (parent_frs =? ROOT_FRS) then U32_MAX
  else
    match zget ix.(ix_frs_to_idx) (frs_to_usize parent_frs) with
    | Some idx => if negb (idx =? NO_ENTRY) then idx else U32_MAX
    | None => U32_MAX
    end.

(** The columns every record of a file shares. *)
Definition file_record (r : FileRecord) (size allocated treesize tree_allocated name_offset parent_idx descendants name_len extension_id
    name_first_byte : Z) : CompactRecord :=
  let si := r.(fr_stdinfo) in
  mkCompactRecord size allocated treesize tree_allocated si.(si_created) si.(si_modified) si.(si_accessed)
    (pack_file_reference r.(fr_frs) r.(fr_sequence_number)) name_offset si.(si_flags) parent_idx descendants name_len extension_id 0
    name_first_byte.

(** A record of a file under one of its names: phases 1 and 2. *)
Definition name_record (ix : MftIndex) (names : list Z) (r : FileRecord) (l : LinkInfo) : CompactRecord :=
  let s := r.(fr_first_stream).(st_size) in
  file_record r s.(sz_length) s.(sz_allocated) r.(fr_treesize) r.(fr_tree_allocated) l.(li_name).(nr_offset)
    (resolve_parent_compact_idx ix l.(li_parent_frs) r.(fr_frs)) r.(fr_descendants) (MftIndex.name_len l.(li_name))
    (MftIndex.extension_id l.(li_name)) (default 0 (zget names l.(li_name).(nr_offset))).

Definition primary_record (ix : MftIndex) (resolver : PathResolver) (idx : Z) (r : FileRecord) : CompactRecord :=
  if is_valid_idx resolver idx then name_record ix ix.(ix_names) r r.(fr_first_name) else CompactRecord_default.

(** The overflow names of a record. *)
Definition link_list (ix : MftIndex) (r : FileRecord) : list LinkInfo :=
  follow (S (length ix.(ix_links))) ix.(ix_links) r.(fr_first_name).(li_next).

(** The names of [expand_ads_streams], with their parents. *)
Definition all_names (ix : MftIndex) (r : FileRecord) : list (list Z * Z) :=
  let of_link l :=
    let name := link_name ix l in
    if bool_decide (name = []) then [] else [(name, resolve_parent_compact_idx ix l.(li_parent_frs) r.(fr_frs))] in
  of_link r.(fr_first_name) ++
  (if r.(fr_name_count) >? 1 then concat (map of_link (link_list ix r)) else []).

(** One name of one stream: [name:stream] at the end of the names. *)
Definition push_stream_record (ix : MftIndex) (r : FileRecord) (stream : IndexStreamInfo) (sn : list Z)
    (st : list Z * list CompactRecord) (base : list Z * Z) : list Z * list CompactRecord :=
  let '(names, extra) := st in
  let combined := base.1 ++ COLON :: sn in
  (names ++ combined,
   extra ++ [file_record r stream.(st_size).(sz_length) stream.(st_size).(sz_allocated) 0 0 (len_to_u32 (zlen names)) base.2 0
               (len_to_u16 (zlen combined)) 0 (default 0 (head combined))]).

Definition expand_stream (ix : MftIndex) (r : FileRecord) (st : list Z * list CompactRecord) (stream : IndexStreamInfo)
    : list Z * list CompactRecord :=
  if is_output_stream stream then
    let sn := stream_name ix stream in
    if bool_decide (sn = []) then st else foldl (push_stream_record ix r stream sn) st (all_names ix r)
  else st.

Definition expand_ads_streams (ix : MftIndex) (r : FileRecord) (st : list Z * list CompactRecord) : list Z * list CompactRecord :=
  foldl (expand_stream ix r) st (follow (S (length ix.(ix_streams))) ix.(ix_streams) r.(fr_first_stream).(st_next)).

(** One record of [expand_links_and_ads]. *)
Definition expand_record (ix : MftIndex) (resolver : PathResolver) (st : list Z * list CompactRecord) (p : Z * FileRecord)
    : list Z * list CompactRecord :=
  let '(idx, r) := p in
  if negb (is_valid_idx resolver idx) then st else
  let st :=
    if r.(fr_name_count) >? 1 then (st.1, st.2 ++ map (name_record ix st.1 r) (link_list ix r)) else st in
  if r.(fr_stream_count) >? 1 then expand_ads_streams ix r st else st.

Definition expand_links_and_ads (ix : MftIndex) (resolver : PathResolver) (names : list Z) : list Z * list CompactRecord :=
  foldl (expand_record ix resolver) (names, []) (enumerate ix.(ix_records)).

(** The records before their path lengths, and the names. *)
Definition compact_records (ix : MftIndex) (resolver : PathResolver) : list CompactRecord * list Z :=
  let records := map (fun p => primary_record ix resolver p.1 p.2) (enumerate ix.(ix_records)) in
  let '(names, expanded) := expand_links_and_ads ix resolver ix.(ix_names) in
  (records ++ expanded, names).

Section build.
Context (hash : Z -> list Z -> Z) (schedule : list (Z * Z) -> list (Z * Z)).

(** [build_compact_index], with the case table it resolved and the filter sizes it computed. *)
Definition build_compact_index (table : list Z) (bloom_size bloom_k : Z) (ix : MftIndex) : option DriveCompactIndex :=
  let? resolver := PathResolver_build ix false in
  let '(records, names) := compact_records ix resolver in
  let? records := compute_path_lengths records names in
  let compact_index :=
    mkDriveCompactIndex records names (TrigramIndex_build table names schedule records) (ChildrenIndex_build records)
      (ExtensionIndex_build records) table ix.(ix_extensions).(et_names) None ix.(ix_frs_to_idx) None in
  let? bloom := build_bloom hash compact_index bloom_size bloom_k in
  Some (mkDriveCompactIndex records names (trigram compact_index) (children compact_index) (ext_index compact_index) table
    (ext_names compact_index) (Some bloom) (frs_to_compact compact_index) None).
End build.

(** * The rows of the records *)

(** A record as the reader of the index sees it: the bytes of its name, and its columns
    without their place in the names and its path length. *)
Definition unplaced (rec : CompactRecord) : CompactRecord :=
  mkCompactRecord (size rec) (allocated rec) (treesize rec) (tree_allocated rec) (created rec) (modified rec) (accessed rec)
    (file_ref rec) 0 (flags rec) (parent_idx rec) (descendants rec) (CsrIndex.name_len rec) (CsrIndex.extension_id rec) 0 0.

Definition row_of (names : list Z) (rec : CompactRecord) : list Z * CompactRecord := (Filters.name_bytes names rec, unplaced rec).

Definition default_row : list Z * CompactRecord := ([], CompactRecord_default).

(** The row of a file under one of its names. *)
Definition name_row (ix : MftIndex) (r : FileRecord) (l : LinkInfo) : list Z * CompactRecord :=
  (get_name_bytes ix l.(li_name), unplaced (name_record ix [] r l)).

(** The row of a stream of a file under one of its names. *)
Definition stream_row (ix : MftIndex) (r : FileRecord) (stream : IndexStreamInfo) (base : list Z * Z) : list Z * CompactRecord :=
  let combined := base.1 ++ COLON :: stream_name ix stream in
  (combined, file_record r stream.(st_size).(sz_length) stream.(st_size).(sz_allocated) 0 0 0 base.2 0 (zlen combined) 0 0).

Definition stream_rows (ix : MftIndex) (r : FileRecord) (stream : IndexStreamInfo) : list (list Z * CompactRecord) :=
  if is_output_stream stream && negb (bool_decide (stream_name ix stream = [])) then map (stream_row ix r stream) (all_names ix r) else [].

Definition stream_list (ix : MftIndex) (r : FileRecord) : list IndexStreamInfo :=
  follow (S (length ix.(ix_streams))) ix.(ix_streams) r.(fr_first_stream).(st_next).

Definition extra_rows (ix : MftIndex) (r : FileRecord) : list (list Z * CompactRecord) :=
  (if r.(fr_name_count) >? 1 then map (name_row ix r) (link_list ix r) else []) ++
  (if r.(fr_stream_count) >? 1 then concat (map (stream_rows ix r) (stream_list ix r)) else []).

(** The name is inside the names, or the record has none. *)
Definition placed (names : list Z) (rec : CompactRecord) : Prop :=
  0 <= CsrIndex.name_offset rec /\ 0 <= CsrIndex.name_len rec /\ CsrIndex.name_offset rec + CsrIndex.name_len rec <= zlen names \/
  U32_MAX <= CsrIndex.name_offset rec /\ CsrIndex.name_len rec = 0.

Lemma get_range_far {A} (l : list A) a b : zlen l < a -> get_range l a b = None.
Proof. intros H. unfold get_range. destruct (_ && _) eqn:E; [lia | done]. Qed.

Lemma row_grow names more rec : zlen (names ++ more) < U32_MAX -> placed names rec -> row_of (names ++ more) rec = row_of names rec.
Proof.
  intros Hz Hp. unfold row_of, Filters.name_bytes. f_equal. f_equal. rewrite zlen_app in Hz. pose proof (zlen_nonneg more). pose proof (zlen_nonneg names).
  destruct Hp as [(H1 & H2 & H3) | Hp].
  - by apply get_range_app_l.
  - rewrite !get_range_far; [done | lia | rewrite zlen_app; lia].
Qed.

Lemma placed_grow names more rec : placed names rec -> placed (names ++ more) rec.
Proof. intros [(H1 & H2 & H3) | Hp]; [left | by right]. rewrite zlen_app. pose proof (zlen_nonneg more). lia. Qed.

(** The references of an index fit its names, an absent one at the far end. *)
Definition ref_placed (names : list Z) (r : IndexNameRef) : Prop :=
  0 <= r.(nr_offset) <= U32_MAX /\ (is_valid r = false -> MftIndex.name_len r = 0) /\ ref_ok names r.

Record refs_placed (ix : MftIndex) : Prop := {
  rp_first : Forall (fun r => ref_placed ix.(ix_names) r.(fr_first_name).(li_name)) ix.(ix_records);
  rp_links : Forall (fun l => ref_placed ix.(ix_names) l.(li_name)) ix.(ix_links);
}.

Lemma name_len_range r : 0 <= MftIndex.name_len r <= 1023.
Proof.
  unfold MftIndex.name_len. change LENGTH_MASK with (Z.ones 10). rewrite Z.land_ones by lia. change (2 ^ 10) with 1024.
  pose proof (Z.mod_pos_bound (nr_meta r) 1024 ltac:(lia)). rewrite u16_small; lia.
Qed.

Lemma name_record_placed ix names r l more : ref_placed ix.(ix_names) l.(li_name) -> placed (ix.(ix_names) ++ more) (name_record ix names r l).
Proof.
  intros (Ho & Hi & Hr). apply placed_grow. unfold placed, name_record, file_record. cbn [CsrIndex.name_offset CsrIndex.name_len].
  pose proof (name_len_range (li_name l)). unfold ref_ok, is_valid in Hr, Hi. unfold NO_ENTRY in Hr, Hi.
  destruct (Z.eqb_spec (nr_offset (li_name l)) U32_MAX); [right | left].
  - specialize (Hi eq_refl). lia.
  - specialize (Hr eq_refl). lia.
Qed.

Lemma name_record_row ix names r l : ref_placed ix.(ix_names) l.(li_name) -> zlen ix.(ix_names) < U32_MAX ->
  row_of ix.(ix_names) (name_record ix names r l) = name_row ix r l.
Proof.
  intros (Ho & _ & Hr) Hz. unfold row_of, name_row. f_equal. unfold Filters.name_bytes, get_name_bytes, MftIndex.name_bytes. cbn [name_record file_record CsrIndex.name_offset CsrIndex.name_len].
  unfold is_valid. unfold NO_ENTRY. destruct (Z.eqb_spec (nr_offset (li_name l)) U32_MAX) as [E | E]; [|done]. cbn [negb]. by rewrite get_range_far by lia.
Qed.

Lemma get_name_length ix r : zlen (get_name ix r) <= 1023.
Proof.
  unfold get_name, get_name_bytes, MftIndex.name_bytes. pose proof (name_len_range r).
  assert (H0 : zlen (@nil Z) <= 1023) by (unfold zlen; cbn; lia).
  destruct (is_valid r); [|by destruct (utf8_valid _)].
  destruct (get_range _ _ _) as [s|] eqn:E; cbn [default id]; [|by destruct (utf8_valid _)]. apply get_range_len in E.
  destruct (utf8_valid s); [lia | done].
Qed.

Lemma elem_of_all_names ix r base : base ∈ all_names ix r ->
  exists l, base = (link_name ix l, resolve_parent_compact_idx ix l.(li_parent_frs) r.(fr_frs)).
Proof.
  unfold all_names. cbn zeta. set (of_link := fun l : LinkInfo => _).
  assert (Hof : forall l, base ∈ of_link l -> exists l, base = (link_name ix l, resolve_parent_compact_idx ix l.(li_parent_frs) r.(fr_frs))).
  { unfold of_link. intros l. destruct (bool_decide _); [by intros ?%elem_of_nil | intros ->%list_elem_of_singleton; by exists l]. }
  intros [Hb | Hb]%elem_of_app; [by apply Hof in Hb |]. destruct (_ >? 1); [|by apply elem_of_nil in Hb].
  apply list_elem_of_In, in_concat in Hb as (m & Hm & Hb). apply in_map_iff in Hm as (l & <- & _). apply (Hof l). by apply list_elem_of_In.
Qed.

Lemma all_names_length ix r base : base ∈ all_names ix r -> zlen base.1 <= 1023.
Proof. intros (l & ->)%elem_of_all_names. apply get_name_length. Qed.

(** The state of the expansion: the names so far, and the rows so far. *)
Definition built (ix : MftIndex) (st : list Z * list CompactRecord) (rows : list (list Z * CompactRecord)) : Prop :=
  (exists more, st.1 = ix.(ix_names) ++ more) /\ Forall (placed st.1) st.2 /\ map (row_of st.1) st.2 = rows.

Definition grows {X} (step : list Z * list CompactRecord -> X -> list Z * list CompactRecord) : Prop :=
  forall st x, exists more, (step st x).1 = st.1 ++ more.

Lemma grows_foldl {X} step (l : list X) st : grows step -> exists more, (foldl step st l).1 = st.1 ++ more.
Proof.
  intros Hg. revert st. induction l as [|x l IH]; intros st; cbn [foldl]; [exists []; by rewrite app_nil_r |].
  destruct (IH (step st x)) as [m1 ->], (Hg st x) as [m2 ->]. exists (m2 ++ m1). by rewrite app_assoc.
Qed.

Lemma built_foldl {X} ix step (new : X -> list (list Z * CompactRecord)) (l : list X) st rows :
  grows step ->
  (forall st x rows, x ∈ l -> built ix st rows -> zlen (step st x).1 < U32_MAX -> built ix (step st x) (rows ++ new x)) ->
  built ix st rows -> zlen (foldl step st l).1 < U32_MAX -> built ix (foldl step st l) (rows ++ concat (map new l)).
Proof.
  intros Hg Hstep. revert st rows. induction l as [|x l IH]; intros st rows Hb Hz; cbn [foldl map concat] in *; [by rewrite app_nil_r |].
  rewrite app_assoc. apply IH; [intros st' y rows' Hy; apply Hstep; by apply elem_of_cons; right | | done].
  apply Hstep; [by apply elem_of_cons; left | done |]. destruct (grows_foldl step l (step st x) Hg) as [m E]. rewrite E, zlen_app in Hz.
  pose proof (zlen_nonneg m). lia.
Qed.

(** New records at the end, after new names. *)
Lemma built_push ix st rows more new : built ix st rows -> zlen (st.1 ++ more) < U32_MAX -> Forall (placed (st.1 ++ more)) new ->
  built ix (st.1 ++ more, st.2 ++ new) (rows ++ map (row_of (st.1 ++ more)) new).
Proof.
  intros ([m E] & Hp & Hr) Hz Hn. split; [exists (m ++ more); cbn; by rewrite E, app_assoc |]. cbn [fst snd]. split.
  - apply Forall_app. split; [|done]. eapply Forall_impl; [exact Hp |]. intros rec. apply placed_grow.
  - rewrite map_app. f_equal. rewrite <- Hr. apply map_ext_in. intros rec Hrec%list_elem_of_In. apply row_grow; [done |].
    rewrite Forall_forall in Hp. by apply Hp.
Qed.

Lemma push_stream_built ix r stream st rows base : base ∈ all_names ix r -> built ix st rows ->
  zlen (push_stream_record ix r stream (stream_name ix stream) st base).1 < U32_MAX ->
  built ix (push_stream_record ix r stream (stream_name ix stream) st base) (rows ++ [stream_row ix r stream base]).
Proof.
  intros Hin Hb Hz. destruct st as [names extra]. cbn [push_stream_record fst] in *. set (combined := base.1 ++ COLON :: stream_name ix stream) in *.
  pose proof (all_names_length _ _ _ Hin) as H1. pose proof (get_name_length ix (st_name stream)) as H2. fold (stream_name ix stream) in H2.
  assert (Hc : 0 <= zlen combined <= 2047).
  { unfold combined. rewrite zlen_app, zlen_cons. pose proof (zlen_nonneg base.1). pose proof (zlen_nonneg (stream_name ix stream)). lia. }
  rewrite zlen_app in Hz. pose proof (zlen_nonneg names). unfold U32_MAX in Hz.
  assert (Eo : len_to_u32 (zlen names) = zlen names) by (unfold len_to_u32; rewrite (proj2 (Z.ltb_lt _ _)) by lia; done).
  assert (El : len_to_u16 (zlen combined) = zlen combined) by (unfold len_to_u16; rewrite (proj2 (Z.ltb_lt _ _)) by lia; done).
  rewrite Eo, El.
  match goal with |- built _ (_, _ ++ [?rec]) _ => pose proof (built_push ix (names, extra) rows combined [rec] Hb) as Hpush end.
  cbn [fst snd map] in Hpush. replace (stream_row ix r stream base) with (row_of (names ++ combined) (file_record r (sz_length (st_size stream)) (sz_allocated (st_size stream)) 0 0
    (zlen names) base.2 0 (zlen combined) 0 (default 0 (head combined)))).
  - apply Hpush; [rewrite zlen_app; unfold U32_MAX; lia |]. apply Forall_singleton. left. cbn [file_record CsrIndex.name_offset CsrIndex.name_len].
    rewrite zlen_app. lia.
  - unfold row_of, stream_row. f_equal. unfold Filters.name_bytes. cbn [file_record CsrIndex.name_offset CsrIndex.name_len].
    pose proof (get_range_mid names combined [] (zlen names) (zlen names + zlen combined) eq_refl eq_refl) as E. rewrite app_nil_r in E. by rewrite E.
Qed.

Lemma push_stream_grows ix r stream sn : grows (push_stream_record ix r stream sn).
Proof. intros [names extra] base. by eexists. Qed.

Lemma expand_stream_grows ix r : grows (expand_stream ix r).
Proof.
  intros st stream. unfold expand_stream. assert (Hst : exists more, st.1 = st.1 ++ more) by (exists []; by rewrite app_nil_r).
  destruct (is_output_stream stream); [|done]. destruct (bool_decide _); [done | apply grows_foldl, push_stream_grows].
Qed.

Lemma expand_record_grows ix resolver : grows (expand_record ix resolver).
Proof.
  intros st [i r]. unfold expand_record. assert (Hst : exists more, st.1 = st.1 ++ more) by (exists []; by rewrite app_nil_r).
  destruct (negb _); [done |].
  set (st1 := if fr_name_count r >? 1 then (st.1, st.2 ++ map (name_record ix st.1 r) (link_list ix r)) else st).
  replace st.1 with st1.1 in * by (unfold st1; by destruct (_ >? 1)).
  destruct (fr_stream_count r >? 1); [apply grows_foldl, expand_stream_grows | done].
Qed.

Lemma concat_singles {A} (l : list A) : concat (map (fun x => [x]) l) = l.
Proof. induction l as [|x l IH]; [done |]. cbn. by rewrite IH. Qed.

Lemma expand_stream_built ix r st stream rows : built ix st rows -> zlen (expand_stream ix r st stream).1 < U32_MAX ->
  built ix (expand_stream ix r st stream) (rows ++ stream_rows ix r stream).
Proof.
  intros Hb. unfold expand_stream, stream_rows. destruct (is_output_stream stream); [|by rewrite app_nil_r].
  destruct (bool_decide _); cbn [andb negb]; [by rewrite app_nil_r |]. intros Hz.
  rewrite <- (concat_singles (map (stream_row ix r stream) (all_names ix r))), map_map.
  apply built_foldl; [apply push_stream_grows | | done | done].
  intros st' base rows' Hin Hb' Hz'. by apply push_stream_built.
Qed.

(** Every link a list leads to is a cell of the arena. *)
Lemma follow_elem {A} `{Linked A} fuel (l : list A) h x : x ∈ follow fuel l h -> x ∈ l.
Proof.
  revert h. induction fuel as [|fuel IH]; intros h; cbn [follow]; [by intros ?%elem_of_nil |]. destruct (h =? NO_ENTRY); [by intros ?%elem_of_nil |].
  destruct (zget l h) as [y|] eqn:E; [|by intros ?%elem_of_nil]. intros [-> | Hx]%elem_of_cons; [by eapply zget_elem | by eapply IH].
Qed.

Lemma unplaced_name_record ix names r l : unplaced (name_record ix names r l) = unplaced (name_record ix [] r l).
Proof. done. Qed.

Lemma name_rows ix names more r (ls : list LinkInfo) : zlen (ix.(ix_names) ++ more) < U32_MAX ->
  Forall (fun l => ref_placed ix.(ix_names) l.(li_name)) ls ->
  Forall (placed (ix.(ix_names) ++ more)) (map (name_record ix names r) ls) /\
  map (row_of (ix.(ix_names) ++ more)) (map (name_record ix names r) ls) = map (name_row ix r) ls.
Proof.
  intros Hz Hl. rewrite Forall_forall in Hl. split.
  - apply Forall_map, Forall_forall. intros l Hin. by apply name_record_placed, Hl.
  - rewrite map_map. apply map_ext_in. intros l Hin%list_elem_of_In. pose proof (Hl l Hin) as Hr.
    rewrite row_grow; [|done |]. { apply name_record_row; [done |]. rewrite zlen_app in Hz. pose proof (zlen_nonneg more). lia. }
    rewrite <- (app_nil_r (ix_names ix)). by apply name_record_placed.
Qed.

Lemma expand_record_built ix resolver st p rows : refs_placed ix -> built ix st rows -> zlen (expand_record ix resolver st p).1 < U32_MAX ->
  built ix (expand_record ix resolver st p) (rows ++ (if is_valid_idx resolver p.1 then extra_rows ix p.2 else [])).
Proof.
  intros Hrefs Hb. destruct p as [i r]. unfold expand_record. cbn [fst snd]. destruct (is_valid_idx resolver i); cbn [negb]; [|by rewrite app_nil_r].
  intros Hz. unfold extra_rows.
  set (st1 := if fr_name_count r >? 1 then (st.1, st.2 ++ map (name_record ix st.1 r) (link_list ix r)) else st) in *.
  assert (E1 : st1.1 = st.1) by (unfold st1; by destruct (_ >? 1)).
  assert (Hg : exists more, (if fr_stream_count r >? 1 then expand_ads_streams ix r st1 else st1).1 = st.1 ++ more).
  { rewrite <- E1. destruct (fr_stream_count r >? 1); [apply grows_foldl, expand_stream_grows | exists []; by rewrite app_nil_r]. }
  assert (Hz1 : zlen st.1 < U32_MAX) by (destruct Hg as [m E]; rewrite E, zlen_app in Hz; pose proof (zlen_nonneg m); lia).
  rewrite app_assoc.
  assert (Hb1 : built ix st1 (rows ++ (if fr_name_count r >? 1 then map (name_row ix r) (link_list ix r) else []))).
  { unfold st1. destruct (fr_name_count r >? 1); [|by rewrite app_nil_r]. pose proof (built_push ix st rows [] (map (name_record ix st.1 r) (link_list ix r)) Hb) as H.
    rewrite app_nil_r in H. destruct Hb as ([m Em] & _). rewrite Em in *.
    destruct (name_rows ix (ix_names ix ++ m) m r (link_list ix r)) as [Hp Hrows]; [done | |].
    - apply Forall_forall. intros l Hl%follow_elem. pose proof (rp_links _ Hrefs) as Hlk. rewrite Forall_forall in Hlk. by apply Hlk.
    - rewrite Hrows in H. by apply H. }
  destruct (fr_stream_count r >? 1); [|by rewrite app_nil_r].
  apply built_foldl; [apply expand_stream_grows | | done | done]. intros st' stream rows' _ Hb' Hz'. by apply expand_stream_built.
Qed.

(** The rows of the compact index: one per record number, and after them one per further
    name and per stream of each name of the records that have a path. *)
Definition index_rows (ix : MftIndex) (resolver : PathResolver) : list (list Z * CompactRecord) :=
  map (fun p => if is_valid_idx resolver p.1 then name_row ix p.2 p.2.(fr_first_name) else default_row) (enumerate ix.(ix_records)) ++
  concat (map (fun p => if is_valid_idx resolver p.1 then extra_rows ix p.2 else []) (enumerate ix.(ix_records))).

Lemma compact_records_built ix resolver : refs_placed ix -> zlen (compact_records ix resolver).2 < U32_MAX ->
  built ix ((compact_records ix resolver).2, (compact_records ix resolver).1) (index_rows ix resolver).
Proof.
  intros Hrefs. unfold compact_records. destruct (expand_links_and_ads ix resolver (ix_names ix)) as [names expanded] eqn:E. cbn [fst snd]. intros Hz.
  assert (Hb0 : built ix (ix_names ix, []) []) by (split; [exists []; by rewrite app_nil_r | by split]).
  pose proof (built_foldl ix (expand_record ix resolver) (fun p => if is_valid_idx resolver p.1 then extra_rows ix p.2 else []) (enumerate (ix_records ix))
    (ix_names ix, []) [] (expand_record_grows ix resolver)) as H. fold (expand_links_and_ads ix resolver (ix_names ix)) in H. rewrite E in H. cbn [fst app] in H.
  destruct H as ([m Em] & Hp & Hr); [by intros; apply expand_record_built | done | done |]. cbn [fst snd] in *.
  rewrite Em in *. assert (Hprim : forall p, p ∈ enumerate (ix_records ix) ->
    placed (ix_names ix ++ m) (primary_record ix resolver p.1 p.2) /\
    row_of (ix_names ix ++ m) (primary_record ix resolver p.1 p.2) =
      (if is_valid_idx resolver p.1 then name_row ix p.2 p.2.(fr_first_name) else default_row)).
  { intros [i r] Hin%elem_of_enumerate%zget_elem. cbn [fst snd]. unfold primary_record. destruct (is_valid_idx resolver i).
    - pose proof (rp_first _ Hrefs) as Hf. rewrite Forall_forall in Hf.
      destruct (name_rows ix (ix_names ix) m r [fr_first_name r]) as [Hpl Hrow]; [done | by apply Forall_singleton, Hf |].
      split; [by apply (Forall_inv Hpl) | exact (f_equal (hd default_row) Hrow)].
    - split; [left; cbn; pose proof (zlen_nonneg (ix_names ix ++ m)); lia |]. unfold row_of, default_row. f_equal.
      unfold Filters.name_bytes. destruct (get_range _ _ _) as [[|c s]|] eqn:Eg; [done | | done]. apply get_range_len in Eg.
      rewrite zlen_cons in Eg. cbn in Eg. pose proof (zlen_nonneg s). lia. }
  split; [by exists m |]. cbn [fst snd]. split.
  - apply Forall_app. split; [|done]. apply Forall_map, Forall_forall. intros p Hp'. by apply Hprim.
  - rewrite map_app, Hr, map_map. unfold index_rows. f_equal. apply map_ext_in. intros p Hp'%list_elem_of_In. by apply Hprim.
Qed.

(** * The drive that is built *)

(** What every row has: a parent among the records or the root, and a name of a few
    thousand bytes at most. *)
Definition row_ok (n : Z) (row : list Z * CompactRecord) : Prop :=
  (parent_idx row.2 = U32_MAX \/ 0 <= parent_idx row.2 < n) /\ 0 <= CsrIndex.name_len row.2 <= U16_MAX.

Lemma resolve_parent_range ix parent own : index_wf ix ->
  resolve_parent_compact_idx ix parent own = U32_MAX \/ 0 <= resolve_parent_compact_idx ix parent own < zlen ix.(ix_records).
Proof.
  intros [[Ht _] _]. unfold resolve_parent_compact_idx. destruct (_ || _); [by left |]. destruct (zget _ _) as [i|] eqn:E; [|by left].
  destruct (Z.eqb_spec i NO_ENTRY); cbn [negb]; [by left | right]. destruct (Ht _ _ E) as (r & Hr & _); [done |]. by apply zget_Some in Hr as [? _].
Qed.

Lemma name_row_ok ix r l : index_wf ix -> row_ok (zlen ix.(ix_records)) (name_row ix r l).
Proof.
  intros Hwf. split; [by apply resolve_parent_range |]. cbn. pose proof (name_len_range (li_name l)). unfold U16_MAX. lia.
Qed.

Lemma stream_row_ok ix r stream base : index_wf ix -> base ∈ all_names ix r -> row_ok (zlen ix.(ix_records)) (stream_row ix r stream base).
Proof.
  intros Hwf Hb. split; [destruct (elem_of_all_names _ _ _ Hb) as [l ->]; by apply resolve_parent_range |]. cbn. pose proof (all_names_length _ _ _ Hb) as H1.
  pose proof (get_name_length ix (st_name stream)) as H2. fold (stream_name ix stream) in H2. rewrite zlen_app, zlen_cons.
  pose proof (zlen_nonneg base.1). pose proof (zlen_nonneg (stream_name ix stream)). unfold U16_MAX. lia.
Qed.

Lemma index_rows_ok ix resolver row : index_wf ix -> row ∈ index_rows ix resolver -> row_ok (zlen ix.(ix_records)) row.
Proof.
  intros Hwf. unfold index_rows. intros [Hr | Hr]%elem_of_app.
  - apply list_elem_of_In, in_map_iff in Hr as ([i r] & <- & Hin%list_elem_of_In%elem_of_enumerate). cbn [fst snd].
    destruct (is_valid_idx resolver i); [by apply name_row_ok |]. apply zget_Some in Hin as [Hi _]. split; cbn; [right; lia | unfold U16_MAX; lia].
  - apply list_elem_of_In, in_concat in Hr as (m & Hm & Hr). apply in_map_iff in Hm as ([i r] & <- & _). cbn [fst snd] in Hr.
    destruct (is_valid_idx resolver i); [|done]. unfold extra_rows in Hr. apply in_app_iff in Hr as [Hr | Hr].
    + destruct (_ >? 1); [|done]. apply in_map_iff in Hr as (l & <- & _). by apply name_row_ok.
    + destruct (_ >? 1); [|done]. apply in_concat in Hr as (k & Hk & Hr). apply in_map_iff in Hk as (stream & <- & _). unfold stream_rows in Hr.
      destruct (_ && _); [|done]. apply in_map_iff in Hr as (base & <- & Hb%list_elem_of_In). by apply stream_row_ok.
Qed.

Lemma enumerate_length {A} (l : list A) : length (enumerate l) = length l.
Proof. unfold enumerate. rewrite length_zip_with, length_seqZ. unfold zlen. lia. Qed.

(** The row of a record with a number is its own. *)
Lemma index_rows_primary ix resolver i r : zget ix.(ix_records) i = Some r ->
  zget (index_rows ix resolver) i = Some (if is_valid_idx resolver i then name_row ix r r.(fr_first_name) else default_row).
Proof.
  intros Hr. pose proof (proj1 (zget_Some _ _ _) Hr) as [Hi Hl]. unfold index_rows. apply zget_Some. split.
  - rewrite zlen_app. unfold zlen at 1. rewrite length_map, enumerate_length. fold (zlen (ix_records ix)).
    match goal with |- context [zlen (concat ?m)] => pose proof (zlen_nonneg (concat m)) end. lia.
  - apply lookup_app_l_Some. rewrite list_lookup_fmap. unfold enumerate.
    assert (E : zip (seqZ 0 (zlen (ix_records ix))) (ix_records ix) !! Z.to_nat i = Some (i, r)).
    { apply lookup_zip_Some. split; [|done]. apply lookup_seqZ. unfold zlen in *. lia. }
    by rewrite E.
Qed.

(** The path length is no part of a row. *)
Lemma rows_strip names recs recs' : map PathLen.strip recs' = map PathLen.strip recs -> map (row_of names) recs' = map (row_of names) recs.
Proof.
  intros E. assert (H : forall l, map (row_of names) l = map (row_of names) (map PathLen.strip l)) by (intros l; rewrite map_map; by apply map_ext).
  by rewrite (H recs'), E, <- H.
Qed.

Lemma zlen_strip recs recs' : map PathLen.strip recs' = map PathLen.strip recs -> zlen recs' = zlen recs.
Proof. intros E. apply (f_equal length) in E. rewrite !length_map in E. unfold zlen. lia. Qed.

Lemma fits_strip table names recs recs' : map PathLen.strip recs' = map PathLen.strip recs -> fits table names recs -> fits table names recs'.
Proof.
  intros E [H1 H2]. split; [by rewrite (zlen_strip _ _ E) |].
  assert (H : forall l, map (record_trigrams table names) l = map (record_trigrams table names) (map PathLen.strip l)) by (intros l; rewrite map_map; by apply map_ext).
  by rewrite (H recs'), E, <- H.
Qed.

(** Records with the rows of an index, inside their names. *)
Record built_records (ix : MftIndex) (resolver : PathResolver) (names : list Z) (recs : list CompactRecord) : Prop := {
  br_rows : map (row_of names) recs = index_rows ix resolver;
  br_placed : Forall (placed names) recs;
}.

Lemma built_strip ix resolver names recs recs' : map PathLen.strip recs' = map PathLen.strip recs ->
  built_records ix resolver names recs -> built_records ix resolver names recs'.
Proof.
  intros E [H1 H2]. split; [by rewrite (rows_strip _ _ _ E) |].
  assert (H : forall l, Forall (placed names) l <-> Forall (placed names) (map PathLen.strip l)) by (intros l; by rewrite Forall_map).
  by rewrite H, E, <- H.
Qed.

Lemma built_row ix resolver names recs rec : index_wf ix -> built_records ix resolver names recs -> rec ∈ recs ->
  row_ok (zlen ix.(ix_records)) (row_of names rec).
Proof.
  intros Hwf [Hr _] Hin. apply (index_rows_ok ix resolver); [done |]. rewrite <- Hr. apply list_elem_of_In, in_map, list_elem_of_In, Hin.
Qed.

Lemma built_length ix resolver names recs : built_records ix resolver names recs -> zlen ix.(ix_records) <= zlen recs.
Proof.
  intros [Hr _]. replace (zlen recs) with (zlen (map (row_of names) recs)) by (unfold zlen; by rewrite length_map). rewrite Hr.
  unfold index_rows. rewrite zlen_app. unfold zlen at 2. rewrite length_map, enumerate_length. fold (zlen (ix_records ix)).
  match goal with |- context [zlen (concat ?m)] => pose proof (zlen_nonneg (concat m)) end. lia.
Qed.

Lemma built_parents ix resolver names recs : index_wf ix -> built_records ix resolver names recs -> parents_ok recs.
Proof.
  intros Hwf Hb rec Hin. pose proof (built_length _ _ _ _ Hb). destruct (built_row _ _ _ _ _ Hwf Hb Hin) as [[Hp | Hp] _]; [by left | right].
  change (parent_idx (row_of names rec).2) with (parent_idx rec) in Hp. lia.
Qed.

Lemma built_u16 ix resolver names recs : index_wf ix -> built_records ix resolver names recs -> names_u16 recs.
Proof. intros Hwf Hb rec Hin. by apply (built_row _ _ _ _ _ Hwf Hb Hin). Qed.

(** Sizes the code relies on: names, records and trigrams countable in 32 bits. *)
Definition index_fits (table : list Z) (ix : MftIndex) (resolver : PathResolver) : Prop :=
  zlen (compact_records ix resolver).2 < U32_MAX /\ fits table (compact_records ix resolver).2 (compact_records ix resolver).1.

Lemma rooted_strip recs recs' x : map PathLen.strip recs' = map PathLen.strip recs -> PathLen.rooted recs' x -> PathLen.rooted recs x.
Proof.
  intros E. assert (Hi : forall p, indices_where (fun rec => parent_idx rec =? p) recs' = indices_where (fun rec => parent_idx rec =? p) recs).
  { intros p. apply strip_indices; [|done]. intros rec rec' H. by rewrite (strip_parent _ _ H). }
  unfold PathLen.rooted, roots_of. rewrite Hi. induction 1 as [x Hx | x c _ IH Hc]; [by apply reach_root |]. apply (reach_kid _ _ x); [done |].
  revert Hc. unfold kids_of. by rewrite (zlen_strip _ _ E), Hi.
Qed.

Lemma drive_built hash schedule table n k ix resolver :
  index_wf ix -> refs_placed ix -> PathResolver_build ix false = Some resolver -> index_fits table ix resolver -> 0 <= n <= 2 ^ 64 - 64 ->
  exists drive, build_compact_index hash schedule table n k ix = Some drive /\
    built_records ix resolver (names drive) (records drive) /\ fold drive = table /\ CompactIndex.delta drive = None /\
    frs_to_compact drive = ix.(ix_frs_to_idx) /\ drive_wf drive /\ overlay_ok schedule drive (records drive) (names drive) /\
    (forall x, PathLen.rooted (records drive) x -> path_consistent (records drive) (names drive) x).
Proof.
  intros Hwf Hrefs Er [Hz Hfit] Hn. pose proof (compact_records_built ix resolver Hrefs Hz) as (_ & Hp & Hr).
  unfold build_compact_index. rewrite Er. cbn [mbind option_bind]. destruct (compact_records ix resolver) as [recs ns]. cbn [fst snd] in *.
  assert (Hb : built_records ix resolver ns recs) by done.
  destruct (compute_path_lengths_spec recs ns) as (recs' & -> & Hs & Hc & _); [apply Hfit | by eapply built_u16 |]. cbn [mbind option_bind].
  apply (built_strip _ _ _ _ _ Hs) in Hb. apply (fits_strip _ _ _ _ Hs) in Hfit.
  match goal with |- context [build_bloom hash ?d n k] => destruct (build_bloom_ok hash d n k Hn) as (b & Eb & _); rewrite Eb end.
  cbn [mbind option_bind]. eexists. split; [reflexivity |]. split_and!; try done.
  - split; cbn [records names frs_to_compact].
    + by eapply built_parents.
    + by eapply built_u16.
    + intros rec Hin Hl. destruct Hb as [_ Hpl]. rewrite Forall_forall in Hpl. destruct (Hpl rec Hin) as [(_ & _ & ?) | [_ E]]; [done |].
      unfold live in Hl. by rewrite E in Hl.
    + intros f i Hi. destruct (decide (i = U32_MAX)) as [-> | Hne]; [by left | right]. destruct Hwf as [[Ht _] _].
      destruct (Ht f i Hi Hne) as (r & Hri & _). apply zget_Some in Hri as [? _]. pose proof (built_length _ _ _ _ Hb). lia.
  - split; [split; try done; by eapply built_parents | done |]. intros i rec Hi _. exists rec. by split.
  - intros x Hx. by apply Hc, (rooted_strip _ _ _ Hs).
Qed.

(** * Paths through the two indexes *)

(** The name of a record on the way up is UTF-8, not empty and not a dot, and has no separator. *)
Definition named (ix : MftIndex) (i : Z) : Prop :=
  exists r, zget ix.(ix_records) i = Some r /\ utf8_valid (get_name_bytes ix r.(fr_first_name).(li_name)) = true /\
    is_component (record_name ix r) = true /\ BACKSLASH ∉ record_name ix r.

Section paths.
Context (ix : MftIndex) (resolver : PathResolver) (drive : DriveCompactIndex).
Context (Hwf : index_wf ix) (Hn : zlen ix.(ix_records) < 2 ^ 32) (Hb : built_records ix resolver (names drive) (records drive)).
Context (Hresolver : PathResolver_build ix false = Some resolver).
#[local] Set Default Proof Using "Type*".

Lemma resolver_valid i r : zget ix.(ix_records) i = Some r -> is_valid_idx resolver i = true <-> rooted ix false i.
Proof.
  intros Hr. destruct (build_settled ix false Hwf Hn) as (r0 & E & [S1 S2 _ _ _] & Hu). rewrite Hresolver in E. injection E as <-.
  apply zget_Some in Hr as [Hi _]. destruct (zget_is_Some resolver.(pr_state) i) as [s Hs]; [lia |].
  unfold is_valid_idx. rewrite Hs. destruct (S2 i s Hs) as [[-> _] | [[-> Hr] | [-> Hr]]]; [by destruct (Hu i) | |].
  - by rewrite bool_decide_eq_true_2.
  - by rewrite bool_decide_eq_false_2.
Qed.

(** The record of a file with a path. *)
Lemma built_primary i r : zget ix.(ix_records) i = Some r -> rooted ix false i ->
  exists rec, zget (records drive) i = Some rec /\ row_of (names drive) rec = name_row ix r r.(fr_first_name).
Proof.
  intros Hr Hi. pose proof (index_rows_primary ix resolver i r Hr) as E. rewrite (proj2 (resolver_valid i r Hr) Hi) in E.
  destruct Hb as [Hrows _]. rewrite <- Hrows, zget_map in E. destruct (zget (records drive) i) as [rec|]; [|done]. exists rec. split; [done |].
  by apply Some_inj.
Qed.

Lemma primary_fields i rec r : zget (records drive) i = Some rec -> row_of (names drive) rec = name_row ix r r.(fr_first_name) ->
  Filters.name_bytes (names drive) rec = get_name_bytes ix r.(fr_first_name).(li_name) /\
  parent_idx rec = resolve_parent_compact_idx ix r.(fr_first_name).(li_parent_frs) r.(fr_frs).
Proof. intros _ E. split; [exact (f_equal fst E) | exact (f_equal (fun row => parent_idx row.2) E)]. Qed.

Lemma named_passes i rec r : named ix i -> zget ix.(ix_records) i = Some r -> row_of (names drive) rec = name_row ix r r.(fr_first_name) ->
  zget (records drive) i = Some rec ->
  stops drive rec = false /\ PathResolve.component drive Lossy i = record_name ix r /\ plain_name (record_name ix r) /\
  IndexPaths.component ix i = BACKSLASH :: record_name ix r.
Proof.
  intros (r' & Hr' & Hv & Hc & Hs) Hr Hrow Hrec. rewrite Hr in Hr'. injection Hr' as <-. destruct (primary_fields _ _ _ Hrec Hrow) as [Hname _].
  assert (E : record_name ix r = Filters.name_bytes (names drive) rec) by (unfold record_name, get_name; by rewrite Hv, Hname).
  assert (Hne : record_name ix r <> [] /\ record_name ix r <> [DOT]).
  { unfold is_component in Hc. apply andb_true_iff in Hc as [H1%negb_true_iff%bool_decide_eq_false H2%negb_true_iff%bool_decide_eq_false]. done. }
  split_and!.
  - unfold stops. rewrite <- E. destruct Hne as [H1 H2]. rewrite bool_decide_eq_false_2 by done. by destruct (record_name ix r).
  - unfold PathResolve.component, name_display_with, display. by rewrite Hrec, Hname, Hv, E, Hname.
  - split; [apply Hne | done].
  - unfold IndexPaths.component. by rewrite Hr, Hc.
Qed.

Lemma next_parent_compact r p : next_parent ix r = Some p -> resolve_parent_compact_idx ix r.(fr_first_name).(li_parent_frs) r.(fr_frs) = p.
Proof.
  unfold next_parent, resolve_parent_compact_idx, frs_to_idx_opt.
  destruct (_ =? ROOT_FRS); [done |]. rewrite orb_false_r. cbn [orb]. destruct (_ || _); [done |].
  destruct (zget _ _) as [j|]; [|done]. cbn [mbind option_bind]. by destruct (j =? NO_ENTRY); [| intros [= ->]].
Qed.

(** The parents of a record are the same in both. *)
Lemma chain_ancestry i l : parents ix i l -> rooted ix false i -> Forall (named ix) l -> ancestry drive i l.
Proof.
  induction 1 as [i r Hr Hnp | i r p l Hr Hnp Hl IH]; intros Hi Hnm; apply Forall_cons in Hnm as [Hni Hnm];
    destruct (built_primary i r Hr Hi) as (rec & Hrec & Hrow); destruct (named_passes i rec r Hni Hr Hrow Hrec) as (Hst & _);
    destruct (primary_fields _ _ _ Hrec Hrow) as [_ Hp].
  - apply (anc_top drive i rec); [done | done |]. rewrite Hp. unfold resolve_parent_compact_idx.
    apply (rooted_end ix false i r (rooted_visible _ _ _ Hi) Hr Hnp) in Hi. unfold at_top in Hi.
    destruct (_ =? ROOT_FRS); [by rewrite !orb_true_r |]. cbn [orb] in Hi. apply andb_true_iff in Hi as [Hi _]. by rewrite Hi.
  - assert (Hpe : parent_idx rec = p).
    { rewrite Hp. by apply next_parent_compact. }
    assert (Hrange : 0 <= p < zlen (ix_records ix)) by (by eapply next_parent_index).
    apply (anc_step drive i rec l); [done | done | rewrite Hpe; unfold U32_MAX; lia |]. rewrite Hpe. apply IH; [|done].
    eapply rooted_up; [|done]. by exists r.
Qed.

Lemma chain_rooted i l : parents ix i l -> rooted ix false i -> Forall (rooted ix false) l.
Proof.
  induction 1 as [i r Hr Hnp | i r p l Hr Hnp Hl IH]; intros Hi; [by apply Forall_singleton |]. constructor; [done |]. apply IH.
  eapply rooted_up; [|done]. by exists r.
Qed.

Lemma chain_components l : Forall (rooted ix false) l -> Forall (named ix) l ->
  Forall (fun i => plain_name (PathResolve.component drive Lossy i)) l /\
  map (IndexPaths.component ix) l = map (fun i => BACKSLASH :: PathResolve.component drive Lossy i) l.
Proof.
  induction 1 as [|i l Hi _ IH]; intros Hnm; [done |]. apply Forall_cons in Hnm as [Hni Hnm]. destruct (IH Hnm) as [IH1 IH2].
  pose proof Hni as (r & Hr & _). destruct (built_primary i r Hr Hi) as (rec & Hrec & Hrow).
  destruct (named_passes i rec r Hni Hr Hrow Hrec) as (_ & E & Hpl & Ec). split; [constructor; [by rewrite E | done] |].
  cbn [map]. by rewrite IH2, Ec, E.
Qed.

Lemma paths_meet i l : parents ix i l -> rooted ix false i -> Forall (named ix) l -> (length l <= MAX_ROUNDS)%nat ->
  resolve_path drive Lossy i [resolver.(pr_volume); COLON; BACKSLASH] = drive_path resolver.(pr_volume) (body ix l).
Proof.
  intros Hl Hi Hnm Hlen. destruct (chain_components l (chain_rooted i l Hl Hi) Hnm) as [Hplain Hmap].
  rewrite (uncached_fields drive Lossy i l) by (by apply chain_ancestry). rewrite take_ge by done.
  change [resolver.(pr_volume); COLON; BACKSLASH] with ([resolver.(pr_volume); COLON] ++ [BACKSLASH]). rewrite path_joined by done.
  apply (f_equal (@rev (list Z))) in Hmap. rewrite <- !map_rev in Hmap. unfold body. rewrite Hmap.
  assert (Hne : rev l <> []) by (intros E%(f_equal (@length Z)); rewrite length_rev in E; by destruct Hl).
  destruct (rev l) as [|x m]; [done |]. cbn [map]. rewrite join_byte_cons, map_map. done.
Qed.
End paths.

(** * Theorems *)

(** C10: the compact index of a volume is always built.  Its records are, in order, the rows of
    the index: one per record number, the same at that number, and after them one per further name
    and per named stream of each name of the records that have a path, each with the bytes
    of its name inside the names.  The drive is well-formed, its base indexes are those of
    its records, so that journal batches can be applied, and every record under the root
    has the path length of its path. *)
Theorem compact_index_exact hash schedule table bloom_size bloom_k ix :
  index_wf ix -> refs_placed ix -> zlen ix.(ix_records) < 2 ^ 32 -> 0 <= bloom_size <= 2 ^ 64 - 64 ->
  (forall resolver, PathResolver_build ix false = Some resolver -> index_fits table ix resolver) ->
  exists resolver drive, PathResolver_build ix false = Some resolver /\
    build_compact_index hash schedule table bloom_size bloom_k ix = Some drive /\
    map (row_of (names drive)) (records drive) = index_rows ix resolver /\
    Forall (placed (names drive)) (records drive) /\ frs_to_compact drive = ix.(ix_frs_to_idx) /\
    drive_wf drive /\ overlay_ok schedule drive (records drive) (names drive) /\
    (forall x, PathLen.rooted (records drive) x -> path_consistent (records drive) (names drive) x).
Proof.
  intros Hwf Hrefs Hn Hbl Hfit. destruct (build_settled ix false Hwf Hn) as (resolver & E & _ & _).
  destruct (drive_built hash schedule table bloom_size bloom_k ix resolver) as (drive & Ed & [H1 H2] & _ & _ & H); try done; [by apply Hfit |].
  exists resolver, drive. by destruct H as (? & ? & ? & ?).
Qed.

(** C12: a search result's path is the path of the file: for a record the path resolver holds
    valid, at most 257 levels deep, with UTF-8 names without separators on it, the walk over
    the compact records gives the same bytes as the materialization over the MFT index.
    (A deeper record loses its top directories in the walk:
    [PathResolve.deep_path_depends_on_cache].) *)
Theorem compact_paths_agree hash schedule table bloom_size bloom_k ix resolver drive i l :
  index_wf ix -> refs_placed ix -> zlen ix.(ix_records) < 2 ^ 32 -> 0 <= bloom_size <= 2 ^ 64 - 64 ->
  PathResolver_build ix false = Some resolver -> index_fits table ix resolver ->
  build_compact_index hash schedule table bloom_size bloom_k ix = Some drive ->
  is_valid_idx resolver i = true -> parents ix i l -> Forall (named ix) l -> (length l <= MAX_ROUNDS)%nat ->
  materialize_path (S (length ix.(ix_records))) resolver ix i =
    Some (resolve_path drive Lossy i [resolver.(pr_volume); COLON; BACKSLASH]).
Proof.
  intros Hwf Hrefs Hn Hbl Er Hfit Ed Hv Hl Hnm Hlen.
  destruct (drive_built hash schedule table bloom_size bloom_k ix resolver) as (drive' & Ed' & Hb & _); try done.
  rewrite Ed in Ed'. injection Ed' as <-.
  assert (Hi : exists r, zget ix.(ix_records) i = Some r) by (destruct Hl; eauto). destruct Hi as [r Hr].
  apply (resolver_valid ix resolver drive Hwf Hn Hb Er i r Hr) in Hv.
  rewrite (paths_meet ix resolver drive Hwf Hn Hb Er i l) by done. unfold materialize_path.
  rewrite (walk_parents_fuel ix _ i l) by (done || lia). cbn [mbind option_bind]. by rewrite path_of_chain_eq.
Qed.

(** ** A sample *)

(** A directory [d] in the root, and in both a file with a stream [s]: [d\a] and [z]. *)
Definition sample_stream (units value : list Z) : list Z :=
  let name := concat (map (to_le_bytes 2) units) in
  le_field 4 0x80 ++ le_field 4 (24 + zlen name + zlen value) ++ [0; zlen units] ++ le_field 2 24 ++ le_field 2 0 ++ le_field 2 0 ++
  le_field 4 (zlen value) ++ le_field 2 (24 + zlen name) ++ [0; 0] ++ name ++ value.

Definition sample_two_names_stream : list Z :=
  let attrs := sample_resident 0x30 (sample_name_value 30 [0x61]) ++ sample_resident 0x30 (sample_name_value 5 [0x7A]) ++
    sample_resident 0x80 [1; 2; 3] ++ sample_stream [0x73] [9; 9] ++ le_field 4 END_MARKER ++ zrepeat 0 12 in
  sample_mft_header 0 (48 + zlen attrs) ++ attrs.

Definition sample_volume : option MftIndex :=
  parse_all [(sample_directory 5 [0x2E], 5); (sample_directory 5 [0x64], 30); (sample_two_names_stream, 40)].

Lemma sample_volume_wf ix : sample_volume = Some ix -> index_wf ix.
Proof. unfold sample_volume. intros E. eapply parse_all_wf; [| |exact E]; [vm_compute; reflexivity | unfold room; vm_compute; repeat split]. Qed.

Lemma sample_volume_ready ix : sample_volume = Some ix ->
  refs_placed ix /\ zlen ix.(ix_records) = 3 /\
  (forall resolver, PathResolver_build ix false = Some resolver -> index_fits [] ix resolver /\ resolver.(pr_volume) = 67 /\ is_valid_idx resolver 2 = true) /\
  parents ix 2 [2] /\ named ix 2.
Proof.
  intros E. vm_compute in E. injection E as <-. split_and!.
  - split; cbn [ix_records ix_links ix_names]; repeat constructor; cbn [fr_first_name li_name nr_offset]; try (unfold U32_MAX; lia);
      unfold ref_ok; intros H; vm_compute in H; try discriminate; vm_compute; first [discriminate | reflexivity].
  - reflexivity.
  - intros r Er. vm_compute in Er. injection Er as <-. split; [split; [reflexivity | split; reflexivity] | split; reflexivity].
  - eapply parents_end; reflexivity.
  - eexists. split; [reflexivity |]. split; [reflexivity |]. split; [reflexivity |]. by apply (bool_decide_unpack _).
Qed.

(** [.], [d], [z], [d\a], [z:s] and [d\a:s], with their parents and path lengths. *)
Definition sample_rows (drive : DriveCompactIndex) : list (list Z * Z * Z) :=
  map (fun rec => (Filters.name_bytes (names drive) rec, parent_idx rec, path_len rec)) (records drive).

Lemma sample_volume_some : exists ix, sample_volume = Some ix.
Proof. assert (E : is_Some sample_volume) by (vm_compute; by eexists). exact E. Qed.

Lemma compact_index_exact_witness : exists ix drive, sample_volume = Some ix /\
  build_compact_index (fun _ _ => 0) (fun ws => ws) [] 64 1 ix = Some drive /\ drive_wf drive.
Proof.
  destruct sample_volume_some as [ix E]. destruct (sample_volume_ready ix E) as (Hrefs & Hn & Hfit & _).
  destruct (compact_index_exact (fun _ _ => 0) (fun ws => ws) [] 64 1 ix) as (resolver & drive & _ & Ed & _ & _ & _ & Hdwf & _).
  - exact (sample_volume_wf ix E).
  - exact Hrefs.
  - rewrite Hn. lia.
  - lia.
  - intros r Hr. exact (proj1 (Hfit r Hr)).
  - exists ix, drive. split; [exact E | split; [exact Ed | exact Hdwf]].
Defined.

Example sample_compact_rows :
  (let? ix := sample_volume in let? drive := build_compact_index (fun _ _ => 0) (fun ws => ws) [] 64 1 ix in Some (sample_rows drive)) =
  Some [([46], U32_MAX, 4); ([0x64], U32_MAX, 4); ([0x7A], U32_MAX, 4); ([0x61], 1, 6); ([0x7A; 58; 0x73], U32_MAX, 6); ([0x61; 58; 0x73], 1, 8)].
Proof. vm_compute. reflexivity. Qed.

Lemma compact_paths_agree_witness : exists ix resolver drive, sample_volume = Some ix /\ PathResolver_build ix false = Some resolver /\
  build_compact_index (fun _ _ => 0) (fun ws => ws) [] 64 1 ix = Some drive /\
  materialize_path 4 resolver ix 2 = Some (resolve_path drive Lossy 2 [67; COLON; BACKSLASH]).
Proof.
  destruct sample_volume_some as [ix E]. pose proof (sample_volume_wf ix E) as Hwf. destruct (sample_volume_ready ix E) as (Hrefs & Hn & Hfit & Hp & Hnm).
  destruct (build_settled ix false Hwf ltac:(rewrite Hn; lia)) as (resolver & Er & _). destruct (Hfit resolver Er) as (Hf & Hvol & Hv).
  destruct (drive_built (fun _ _ => 0) (fun ws => ws) [] 64 1 ix resolver Hwf Hrefs Er Hf ltac:(lia)) as (drive & Ed & _).
  exists ix, resolver, drive. split; [exact E | split; [exact Er | split; [exact Ed |]]]. rewrite <- Hvol.
  assert (Hl : length (ix_records ix) = 3%nat) by (unfold zlen in Hn; lia). replace 4%nat with (S (length (ix_records ix))) by (rewrite Hl; reflexivity).
  apply (compact_paths_agree (fun _ _ => 0) (fun ws => ws) [] 64 1 ix resolver drive 2 [2]).
  - exact Hwf.
  - exact Hrefs.
  - rewrite Hn. lia.
  - lia.
  - exact Er.
  - exact Hf.
  - exact Ed.
  - exact Hv.
  - exact Hp.
  - apply Forall_singleton. exact Hnm.
  - unfold MAX_ROUNDS. cbn [length]. lia.
Defined.
